(* ===== verification/_CoqProject ===== *)
-Q . S2P
Prelude.v
IdGen.v
GoStrings.v
ErrCode.v
StatusPattern.v
GoTime.v
DelaySpec.v
Instance.v
Store.v
Lifecycle.v
External.v
Tree.v
Drain.v
Verbs.v
Revive.v
Retention.v
Moving.v
System.v
Guarantees.v
Pruning.v
Contracts.v
Operators.v
Leases.v
Answers.v
Engine.v
Advancing.v
Committing.v
Schema.v
Subset.v
Conforming.v
Fitting.v
Compat.v
Json.v
ObjectCut.v
Paths.v
Cutting.v
CutOrder.v
Externalizing.v
Objects.v
Sweeping.v
Numeric.v
Syntax.v
Expr.v
Roots.v
Template.v
Context.v
Resolving.v
Lazy.v
Parsing.v
Accepting.v
Printing.v
Reparsing.v
Laziness.v
CheckDoc.v
Checked.v
Retry.v
Definitions.v
Config.v
Validate.v
Registered.v
OnlyOnce.v
Paginate.v
Pages.v
Listings.v
Access.v
Auth.v
Registry.v
Upgrade.v
Applying.v
Comparing.v
