(* ===== verification/Prelude.v ===== *)
(** * Genroc: a verification of the workflow engine's core

    Genroc runs process definitions - tasks, each a remote call, a child process, an
    external task, a delay or a plain switch - as instances kept in a SQL database.
    Definitions are registered in batches, checked, versioned and put on channels.
    Workers claim runnable instances under a lease, advance each of them by a few tasks,
    and write the result back in one transaction; operators pause, resume, cancel, retry
    and upgrade whole trees of instances; external workers and signals answer parked
    tasks; sweeps delete trees that ended long ago and objects nobody holds.  An API admits
    callers by the permissions of their token and lists what is stored page by page.
    This development models that core from the Go sources under src/internal (and
    src/cmd/genroc for the seeding of tokens) and proves what makes it correct.

    ** The files and what they model

    Pure components:
    - [Prelude] (this file): Go's [(T, error)] as [result], bounded loops, machine
      integers and the generic lemmas.
    - [IdGen]: idgen/idgen.go, on [uint64] with its wrap-around.
    - [GoStrings], [GoTime]: what the modelled code uses of Go's [strings], [strconv]
      and [time].
    - [ErrCode]: errcode/errcode.go, errcode/catchable.go.
    - [StatusPattern]: model/status.go.
    - [DelaySpec]: delayspec/delayspec.go.

    Schemas:
    - [Schema]: the conform walk of schema/validate.go in both its modes, with what it
      calls of schema/navigate.go, schema/schema.go and numeric/numeric.go; [Subset]: the
      relation of schema/subset.go in all its modes, with [stripNull]; [CheckDoc]: the
      checks of a document, schema/checkdoc.go over walk.go.

    JSON values and the object store:
    - [Json]: encoded values with the references of model/objref.go, and the paths of
      model/objpath.go; [ObjectCut]: db/objectcut.go, the parts of a value that move out
      of a row; [Objects]: db/db_objects.go, the two tables, the claims and the sweep.

    The expression language:
    - [Numeric]: numeric/numeric.go over the decimal library, a class [Apd].
    - [Syntax]: expression/syntax, the tree and the parser over a lexer that is a
      parameter; [Expr]: expression/eval.go and ops.go; [Roots]: expression/refs.go, which
      context roots an expression reads and which it reads into; [Template]: the packages
      template and shape.
    - [Context]: model/context.go and engine/evaluator.go, the lazy environment of a slot.

    Definitions:
    - [Retry]: model/retry.go and timeout.go, the policy of an error rule with its decoding,
      its static checks and its resolution when an error fires.
    - [Definitions]: model/definition.go and wire.go, the whole of a definition and the wire
      form of its rules; [Config]: model/config.go.
    - [Validate]: model/validate.go, what a definition is refused for when it is registered.

    The database and its verbs:
    - [Instance]: model/instance.go, model/statusinfo.go, db/durability.go, and the
      token of an external task.
    - [Store]: the rows of [process_instances], the statements of db/queries.sql (as
      generated in db/gen/queries.sql.go), one function each, and the row conversions of
      db/db_instances.go.  A transaction is [Tx A]: a function of the database state that
      commits a new one or fails and leaves it.
    - [Lifecycle]: db/db_lifecycle.go and db/db_claim.go, a [Tx] per verb.
    - [External]: db/db_signals.go, db/db_external.go, db/db_external_claim.go.
    - [Retention]: db/db_retention.go, the prune of trees that ended, with the log sweep and
      the loops of engine/engine.go that call both; [Moving]: db/db_upgrade.go, the write of
      an upgrade; [Upgrade]: db/db_upgrade_plan.go, the versions it plans.
    - [Registry]: db/db_registry.go with the batch apply and the channels of
      api/handlers_definitions.go and api/handlers_channels.go.
    - [Paginate]: db/paginate.go and db/pg_rewriter.go; [Listings]: the listings built on
      it (db_instances.go, db_logs.go, db_registry.go).

    The engine:
    - [Engine]: one advance of an instance, from engine/advance.go, error.go, collect.go,
      child.go and the routing parts of action.go, over an environment [env] that stands
      for the expression evaluator, the schemas and the transport.

    The API and the comparison of versions:
    - [Access]: db/db_tokens.go, the action table of api/actions.go, permissions, and the
      seeding of cmd/genroc; [Auth]: the authenticators and the dispatch (api/auth.go,
      jwtauth.go, authconfig.go, server.go).
    - [Comparing]: validation/compat.go and changedslots.go over a record [comparer] of what
      they ask of inference and of the subset relation.

    The theory over them:
    - [Tree], [Drain], [Verbs], [Revive]: the tree invariant and its preservation.
    - [System]: the whole as a step relation; [Guarantees]: what holds of every
      reachable state; [Pruning]: what a prune takes; [Contracts], [Operators], [Leases]:
      what each verb does; [Answers]: answers to external tasks; [Advancing], [Committing]:
      the engine against the step relation.
    - [Conforming]: the types the conform walk decides; [Fitting], [Compat]: the subset
      relation against the walk; [Checked]: what a checked document gives the walk.
    - [Paths], [Cutting], [CutOrder], [Externalizing]: paths, the cut and what puts it
      back; [Sweeping]: the object store as a step relation.
    - [Parsing], [Accepting]: the parser ends, and what it accepts the evaluator supports;
      [Printing], [Reparsing]: a printer and its inverse, the parser.
    - [Resolving], [Lazy], [Laziness]: values with references loaded, the walk of an
      expression over a partly loaded environment, and the environment of [Context].
    - [Registered], [OnlyOnce]: a definition that passed [Validate] under the [Engine].
    - [Pages]: pages of a listing and the walk over their cursors, used by [Listings].
    - [Applying]: the registry as a step relation, applies and reads in any interleaving.

    ** How state and operations correspond

    A [row] is a row of the table, its lease and claim among its columns; a [table] maps
    ids to rows; [DBState] adds the signals.  A [ProcessInstance] is a row as Go holds
    it in memory ([toInstance]).  Each statement function is named
    after its SQL statement and each verb after its Go method, and a verb calls the
    statements in the order the method does.

    Locks are not modelled.  The row locks a method takes make its transaction atomic
    against every verb on the same tree (on SQLite the single writer does), so a step of
    [System] is a committed transaction; what a method does outside of its transaction is
    another step, or no step at all where it only reads.  A grant stays in [grants] for
    ever, so a worker that lost its lease may still try to write at any later point.  A
    retry checks the root outside of its transaction and not again inside: its step is
    [retry_tx] alone, in whatever state it finds, and [RetryProcess] composes the two.
    [steps] and [life] are the runs in which no retry's transaction finds its root stopping
    ([in_turn]); [retry_strands_pause] is a run with one, after which a tree is stuck, and
    the guarantees are stated for the runs without.  A prune reads its candidates outside
    of its transaction too, which is why [pruned] takes any candidates; [life] is [steps]
    and prunes in any order, and [reachable] what a life leads to.

    The registry likewise plans an apply outside of the transaction that commits it:
    [Applying.rstep] has the plan and the commit as two steps, anything between them.

    ** The theorems

    - Concurrency: one write per grant ([grant_writes_once]), unique fences
      ([fences_unique]), the tree invariant ([reachable_tree_ok]), a drain is never lost
      ([no_lost_drain]), a root's status reports its tree ([root_status_reports]),
      outcomes are final ([outcomes_final]).
    - The engine: an advance ends within the inline bound ([advance_ends]), asks only for
      writes the step relation allows ([engine_refines]), and always has one that commits,
      unless it was abandoned or lost its lease ([advance_commits]).
    - Verbs: pause, cancel, resume ([stop_spec], [pause_resume]), claims and lease
      renewal ([claim_oldest], [renewal_complete]), the settle walk ([conclude_total]),
      answers to external tasks on every branch ([answer_spec]).
    - Retention and upgrades: a prune takes whole trees that are over and nothing else
      ([prune_exact], [sweep_clears]); a plan holds exactly the moves a root's version asks
      for ([plan_exact]), its write is all or nothing ([upgrade_exact]) and leaves a tree
      whose versions agree ([upgrade_agrees]).
    - Definitions: the wire form of the rules ([rules_roundtrip]), policies that resolve
      ([registered_resolves]), an advance of a registered definition that finds its way
      ([registered_advances]) and never repeats an effect it was told to make once
      ([only_once_registered], [tiers_exact]).
    - The registry: a batch is walked children first ([topoSort_exact]), a stored version
      stays, the stated race apart ([versions_stay]), applying again changes nothing
      ([apply_again]); what two versions are compared for ([verdict_exact]).
    - Schemas: the conform walk ends ([conform_total]; [default_endless] is where it does
      not) and answers values of the schema's type ([conform_sound]); of a checked document
      it decides the type, its references resolve and its recursion makes progress
      ([checked_decides], [checked_resolves], [productivity_decides]).  The subset relation
      ends ([subset_total]), holds of a schema and itself ([subset_refl]) and is sound for
      the walk under the stated conditions ([subset_sound]); [recursion_unsound] and the
      lemmas beside it compute what happens without them.
    - Objects: applying a cut and putting its objects back gives the value again
      ([cut_restores]), no object holds a reference of another ([cut_safe]), the cut ends
      ([cut_total]) and its orders have one sorted answer ([sorts_unique]).  Whatever is
      claimed can be loaded ([no_dangling]), what was claimed less than a grace period ago
      is still there ([grace_holds]), and sweeping takes everything else ([sweep_spec],
      [sweeps_collect]).
    - Expressions: the parser ends on every input ([Parse_total]), reads back every tree
      ([parse_print]) and accepts only what the evaluator supports ([parsed_supported]).
      A slot evaluated over the lazy environment gives what it gives with everything
      loaded ([lazy_exact]) and loads only what it reads into ([lazy_loads]); the lemmas
      at the end of [Laziness] compute what the analysis misses.
    - Access: who a request is answered as ([gate_exact]), a token's grant and its
      revocation are final ([token_final]), what each permission reaches ([roles_reach]).
    - Listings: a page ([instances_page]) and the walk over all of them
      ([instances_walk]); the placeholders for Postgres ([rewrite_exact]).
    - Ids, delays, error codes, status patterns, tokens, gotos: uniqueness, earliest
      match, exactness and round trips.

    ** Bounds

    A loop of the source is a fold, a structural recursion, or a recursion on fuel whose
    bound is proved enough: [settle_loop] walks one ancestor chain ([S (size m)], by
    [stack_bound]); the renewal loop renews at least one lease a pass ([S (size m)]); the
    widening retry of [child_tx] runs at most 3 times; a revive visits each row once
    ([S (size raws)]); [advance_loop] runs [loop_body], which halts by itself at
    [maxInlineTasks], on a fuel of two more, and [advance_ends] says after how many rounds;
    the walk of a plan has a round for each row of the subtree ([plan_exact]), the search of
    [topoSort] for each definition ([topoSort_exact]); the walk of a listing has a page for
    each row and one more; the loops of [IdGen] and [DelaySpec] carry their own bounds, and
    [widthOf_hangs] shows the one input class on which the source does not end.  The conform
    walk and the subset relation take fuel and answer none when it runs out; [settled] says
    some fuel is enough and more changes nothing, by induction on the value, the references
    not yet expanded (or pairs not yet compared) and the schema.  The parser takes fuel eight
    for each token left and a rank of the production, which is enough for every input; the
    rounds of the cut are bounded by the nodes of its tree; [Materialize] of a loaded object
    goes one level further, as objects hold no references ([cut_safe]).

    ** Not modelled

    - Locks, as said above, and whatever of the engine is goroutines and clocks: the pump, the
      in-flight marker, shutdown but for the abandoned advance, read retries and backoff.
      Any grant may be written under at any later time, which covers what they can do.
    - Value columns of a [row] hold their encoded text; the cut and the object store are
      modelled beside them, on values and on tables of their own.  The engine takes the
      evaluator as a field of its environment; the evaluator's own model is [Context].
    - The inference of types (internal/validation, schema/infer.go, solver.go) and the
      normalization of schemas: [Registry] and [Comparing] take them as records, and the
      theorems on schemas state what they need of a normalized document.
    - Libraries: the lexer, the decimals, JWT verification, hashes, the database itself; each
      is a parameter, with its documented behaviour as hypotheses where one is used.  A
      worker id is taken to be non-empty, as the engine mints it.
    - A digest is kept as any text; base64 and the JSON of a cursor are the class [Tokens],
      whose member names are compared as written, where Go's decoder also takes other cases.
    - Log lines, their buffering and the audit trail; error texts; loading of sources, the
      HTTP transport, the language server, the command line and the UI, which are I/O
      around the core. *)
From Stdlib Require Import ZArith Lia.
From stdpp Require Export base tactics list numbers strings gmap fin_maps.

#[export] Set Default Goal Selector "!".
Open Scope Z_scope.

(** * Results *)

(** A Go function that returns [(T, error)]. *)
Inductive result (E A : Type) : Type :=
  | Ok (a : A)
  | Err (e : E).
Arguments Ok {E A} a.
Arguments Err {E A} e.

#[export] Instance result_ret {E} : MRet (result E) := @Ok E.
#[export] Instance result_bind {E} : MBind (result E) :=
  fun _ _ f r => match r with Ok a => f a | Err e => Err e end.
#[export] Instance result_fmap {E} : FMap (result E) :=
  fun _ _ f r => match r with Ok a => Ok (f a) | Err e => Err e end.
#[export] Instance result_throw {E} : MThrow E (result E) := @Err E.
#[export] Instance result_eq_dec {E A} `{EqDecision E, EqDecision A} :
  EqDecision (result E A).
Proof. solve_decision. Defined.

(** [if err != nil { return wrap(err) }]. *)
Definition map_err {E E' A} (f : E -> E') (r : result E A) : result E' A :=
  match r with Ok a => Ok a | Err e => Err (f e) end.

Definition of_option {E A} (e : E) (o : option A) : result E A :=
  match o with Some a => Ok a | None => Err e end.

Definition is_ok {E A} (r : result E A) : bool :=
  match r with Ok _ => true | Err _ => false end.

Lemma bind_Ok {E A B} (r : result E A) (f : A -> result E B) b :
  mbind f r = Ok b <-> exists a, r = Ok a /\ f a = Ok b.
Proof.
  destruct r as [x|e]; cbn; split.
  - eauto.
  - by intros (? & [= ->] & ?).
  - done.
  - by intros (? & ? & ?).
Qed.

Lemma map_err_Ok {E E' A} (f : E -> E') (r : result E A) a :
  map_err f r = Ok a <-> r = Ok a.
Proof. destruct r; cbn; split; congruence. Qed.

(** * Lists of flags *)

Lemma existsb_false_iff {A} (f : A -> bool) l : List.existsb f l = false <-> forall x, x ∈ l -> f x = false.
Proof.
  split.
  - intros E x Hx. destruct (f x) eqn:F; [|done]. assert (existsb f l = true); [|congruence].
    apply existsb_exists. exists x. split; [by apply list_elem_of_In|done].
  - intros Hf. destruct (existsb f l) eqn:E; [|done]. apply existsb_exists in E as (x & Hx%list_elem_of_In & F). by rewrite Hf in F.
Qed.

(** * Loops *)

(** A [for] loop whose body either continues with a new state ([inl]) or leaves
    with an answer ([inr]), run at most [p] times.  The fuel is binary, so a loop
    bounded by a power of two costs its real number of iterations. *)
Fixpoint loop {S A} (p : positive) (body : S -> S + A) (s : S) : S + A :=
  match p with
  | xH => body s
  | xO q => match loop q body s with inl s' => loop q body s' | inr a => inr a end
  | xI q =>
      match body s with
      | inl s' =>
          match loop q body s' with inl s'' => loop q body s'' | inr a => inr a end
      | inr a => inr a
      end
  end.

(** The same loop with unary fuel, for induction. *)
Fixpoint loop_nat {S A} (n : nat) (body : S -> S + A) (s : S) : S + A :=
  match n with
  | O => inl s
  | S n' => match body s with inl s' => loop_nat n' body s' | inr a => inr a end
  end.

Lemma loop_nat_add {S A} (body : S -> S + A) m n s :
  loop_nat (m + n) body s =
  match loop_nat m body s with inl s' => loop_nat n body s' | inr a => inr a end.
Proof.
  revert s. induction m as [|m IH]; intros s; simpl; [done|].
  destruct (body s); [apply IH|done].
Qed.

Lemma loop_as_nat {S A} (body : S -> S + A) p s :
  loop p body s = loop_nat (Pos.to_nat p) body s.
Proof.
  revert s. induction p as [p IH|p IH|]; intros s; cbn [loop].
  - rewrite Pos2Nat.inj_xI. cbn [loop_nat]. destruct (body s) as [s'|]; [|done].
    replace (2 * Pos.to_nat p)%nat with (Pos.to_nat p + Pos.to_nat p)%nat by lia.
    rewrite loop_nat_add, IH. destruct (loop_nat _ _ s'); auto.
  - rewrite Pos2Nat.inj_xO.
    replace (2 * Pos.to_nat p)%nat with (Pos.to_nat p + Pos.to_nat p)%nat by lia.
    rewrite loop_nat_add, IH. destruct (loop_nat _ _ s); auto.
  - rewrite Pos2Nat.inj_1. cbn [loop_nat]. by destruct (body s).
Qed.

Lemma loop_nat_mono {S A} (body : S -> S + A) m n s a :
  (m <= n)%nat -> loop_nat m body s = inr a -> loop_nat n body s = inr a.
Proof.
  intros Hle H. replace n with (m + (n - m))%nat by lia.
  by rewrite loop_nat_add, H.
Qed.

(** * Machine integers *)

(** [lia] for goals with [/] and [mod] by a constant. *)
Ltac zlia := intros; Z.div_mod_to_equations; lia.

Definition two64 : Z := 18446744073709551616.
Definition max_int64 : Z := 9223372036854775807.
Definition min_int64 : Z := -9223372036854775808.

(** A [uint64] result. *)
Definition u64 (z : Z) : Z := z mod two64.

(** An [int64] (and, on the 64-bit targets the project builds for, [int])
    result: two's complement wrap-around. *)
Definition i64 (z : Z) : Z := (z + 9223372036854775808) mod two64 - 9223372036854775808.

Definition in_i64 (z : Z) : Prop := min_int64 <= z <= max_int64.
#[export] Instance in_i64_dec z : Decision (in_i64 z).
Proof. unfold in_i64. apply _. Defined.

Lemma u64_small z : 0 <= z < two64 -> u64 z = z.
Proof. intros. unfold u64. by apply Z.mod_small. Qed.

Lemma u64_bound z : 0 <= u64 z < two64.
Proof. unfold u64, two64. zlia. Qed.

Lemma i64_small z : in_i64 z -> i64 z = z.
Proof.
  unfold in_i64, i64, min_int64, max_int64, two64. intros.
  rewrite Z.mod_small; lia.
Qed.

Lemma i64_in_i64 z : in_i64 (i64 z).
Proof. unfold in_i64, i64, min_int64, max_int64, two64. zlia. Qed.

Lemma land_ones_mod a n : 0 <= n -> Z.land a (2 ^ n - 1) = a mod 2 ^ n.
Proof.
  intros. rewrite <- (Z.land_ones a n) by done. f_equal.
  rewrite Z.ones_equiv. lia.
Qed.

(** Setting bits above the ones in use is addition. *)
Lemma lor_shiftl_add a b n : 0 <= n -> 0 <= a < 2 ^ n -> Z.lor a (b * 2 ^ n) = a + b * 2 ^ n.
Proof.
  intros Hn Ha. rewrite <- Z.shiftl_mul_pow2 by done. symmetry.
  rewrite <- Z.lxor_lor, <- Z.add_nocarry_lxor; try done.
  all: apply Z.bits_inj'; intros i Hi; rewrite Z.land_spec, Z.bits_0;
    destruct (decide (i < n));
    [ rewrite Z.shiftl_spec_low by lia; apply andb_false_r
    | replace a with (a mod 2 ^ n) by (apply Z.mod_small; lia);
      rewrite Z.mod_pow2_bits_high by lia; done ].
Qed.

(** [n] applications of [f]. *)
Fixpoint iter {A} (n : nat) (f : A -> A) (x : A) : A :=
  match n with O => x | S n => f (iter n f x) end.

(** * Orbits of a permutation of an initial segment *)

Section Orbit.
Context (f : Z -> Z) (M : Z).
Context (f_range : forall x, 0 <= x < M -> 0 <= f x < M).
Context (f_inj : forall x y, 0 <= x < M -> 0 <= y < M -> f x = f y -> x = y).

Lemma iter_range n x : 0 <= x < M -> 0 <= iter n f x < M.
Proof using f_range. induction n; cbn; auto. Qed.

Lemma iter_add m n x : iter (m + n) f x = iter m f (iter n f x).
Proof using. induction m as [|m IH]; cbn; [done|]. by rewrite IH. Qed.

Lemma iter_inj n x y : 0 <= x < M -> 0 <= y < M -> iter n f x = iter n f y -> x = y.
Proof using f_range f_inj.
  intros Hx Hy. induction n as [|n IH]; cbn; [done|]. intros E.
  apply IH, f_inj; auto using iter_range.
Qed.

(** Every point comes back to itself within [M] steps. *)
Lemma orbit_returns x : 0 <= x < M ->
  exists k, (1 <= k <= Z.to_nat M)%nat /\ iter k f x = x.
Proof using f_range f_inj.
  intros Hx. set (ks := seq 1 (Z.to_nat M)).
  destruct (decide (Exists (fun k => iter k f x = x) ks)) as [HE|HN].
  { apply Exists_exists in HE as (k & Hk & E). exists k. apply elem_of_seq in Hk.
    split; [lia|done]. }
  exfalso. apply not_Exists_Forall in HN; [|apply _]. rewrite Forall_forall in HN.
  set (l := (fun k => iter k f x) <$> seq 0 (S (Z.to_nat M))).
  assert (Hnd : NoDup l).
  { apply NoDup_fmap_2_strong; [|apply NoDup_seq]. intros i j Hi Hj E.
    apply elem_of_seq in Hi, Hj.
    destruct (lt_eq_lt_dec i j) as [[H|]|H]; [|done|]; exfalso.
    - replace j with (i + (j - i))%nat in E by lia. rewrite iter_add in E.
      apply iter_inj in E; auto using iter_range.
      apply (HN (j - i)%nat); [apply elem_of_seq; lia|done].
    - replace i with (j + (i - j))%nat in E by lia. rewrite iter_add in E.
      apply iter_inj in E; auto using iter_range.
      apply (HN (i - j)%nat); [apply elem_of_seq; lia|done]. }
  assert (Hsub : l ⊆ seqZ 0 M).
  { intros y Hy. apply list_elem_of_fmap in Hy as (k & -> & _).
    apply elem_of_seqZ. pose proof (iter_range k x Hx). lia. }
  assert (Hs : submseteq l (seqZ 0 M)) by (apply NoDup_submseteq; [done|exact Hsub]).
  apply submseteq_length in Hs. unfold l in Hs.
  rewrite length_fmap, length_seq, length_seqZ in Hs. lia.
Qed.
End Orbit.

(** * Checking a property of every integer of a segment by computation *)

Fixpoint all_z (fuel : nat) (lo : Z) (f : Z -> bool) : bool :=
  match fuel with O => true | S fuel => if f lo then all_z fuel (lo + 1) f else false end.

Lemma all_z_spec fuel : forall lo f, all_z fuel lo f = true ->
  forall z, lo <= z < lo + Z.of_nat fuel -> f z = true.
Proof.
  induction fuel as [|fuel IH]; intros lo f; cbn [all_z]; [lia|].
  destruct (f lo) eqn:E; [|done]. intros H z Hz.
  destruct (decide (z = lo)) as [->|]; [done|]. apply (IH (lo + 1) f H). lia.
Qed.
