(* ===== verification/IdGen.v ===== *)
(** Identifier minting: internal/idgen/idgen.go.

    Every id is [render (scatter (pair worker counter))] over [uint64] arithmetic.
    The definitions follow the Go functions one for one, wrap-around included; a
    loop is a [loop] of the prelude with a fuel bound, and the theorems show the
    bound is never reached on the values the guard of [pair] admits below
    [width_limit].  [unpair] is a decoder used only in proofs. *)
From Stdlib Require Import ZArith Lia Ascii String.
From S2P Require Import Prelude.

Module IdGen.

(** * Definitions *)

(** How a minting step can fail to produce a value. *)
Inductive fault := Panicked | OutOfFuel.

(** [const ( rounds; minChars; minValue; minGroups )]. *)
Definition rounds : nat := 4.
Definition minChars : Z := 8.
Definition minValue : Z := 10 * (2 ^ (5 * (minChars - 1)) - 1) / 31.
Definition minGroups : Z := 3.

Definition alphabet : string := "0123456789abcdefghjkmnpqrstvwxyz".

Record Minter := mkMinter { worker : Z; counter : Z }.

Inductive mint_error := NegativeWorker (worker : Z).

Definition NewMinter (w : Z) : result mint_error Minter :=
  if w <? 0 then Err (NegativeWorker w) else Ok (mkMinter (u64 w) 0).

Definition Stream (m : Minter) : Minter := mkMinter (worker m) 0.

(** ** [pair] *)

(** One turn of [for { group := worker & 31 << 1; ... }]. *)
Definition pair_body (s : Z * Z * Z) : Z * Z * Z + Z * Z :=
  let '(w, low, shift) := s in
  let group := u64 (Z.shiftl (Z.land w 31) 1) in
  let w' := Z.shiftr w 5 in
  let group := if 0 <? w' then Z.lor group 1 else group in
  let low := Z.lor low (u64 (Z.shiftl group shift)) in
  let shift := shift + 6 in
  if w' =? 0 then inr (low, shift) else inl (w', low, shift).

Definition pair_fuel : positive := 16.

Definition pair (w c : Z) : result fault Z :=
  match loop pair_fuel pair_body (w, 0, 0) with
  | inl _ => Err OutOfFuel
  | inr (low, shift) =>
      let shift := Z.max shift (6 * minGroups) in
      if (64 <=? shift) || (2 ^ (64 - shift) - 1 <=? c) then Err Panicked
      else Ok (u64 (minValue + Z.lor (u64 (Z.shiftl c shift)) low))
  end.

(** ** [widthOf] *)

Definition width_body (v : Z) (s : Z * Z) : Z * Z + Z * Z :=
  let '(lo, size) := s in
  if u64 (lo + size) <=? v then inl (u64 (lo + size), u64 (size * 32)) else inr (lo, size).

Definition width_fuel : positive := 16.

Definition widthOf (v : Z) : result fault (Z * Z) :=
  match loop width_fuel (width_body v) (0, 10) with
  | inl _ => Err OutOfFuel
  | inr r => Ok r
  end.

(** ** [mix], [feistel], [scatter] *)

Definition mix (z : Z) : Z :=
  let z := Z.lxor z (Z.shiftr z 30) in
  let z := u64 (z * 0xbf58476d1ce4e5b9) in
  let z := Z.lxor z (Z.shiftr z 27) in
  let z := u64 (z * 0x94d049bb133111eb) in
  Z.lxor z (Z.shiftr z 31).

(** [l, r = r, l^(mix(r+uint64(i)*0x9e3779b97f4a7c15)&mask)]. *)
Definition feistel_round (mask : Z) (lr : Z * Z) (i : nat) : Z * Z :=
  let '(l, r) := lr in
  (r, Z.lxor l (Z.land (mix (u64 (r + u64 (Z.of_nat i * 0x9e3779b97f4a7c15)))) mask)).

Definition feistel (half x : Z) : Z :=
  let mask := u64 (Z.shiftl 1 half) - 1 in
  let l := Z.land (Z.shiftr x half) mask in
  let r := Z.land x mask in
  let '(l, r) := foldl (feistel_round mask) (l, r) (seq 0 rounds) in
  Z.lor (u64 (Z.shiftl l half)) r.

(** [bits.Len64]: the number of bits needed to write [x]. *)
Definition Len64 (x : Z) : Z := if x =? 0 then 0 else Z.log2 x + 1.

Definition half_of (size : Z) : Z := (Len64 (u64 (size - 1)) + 1) / 2.

(** [for { x = feistel(x, half); if x < size { return lo + x } }]. *)
Definition walk_body (half size x : Z) : Z + Z :=
  let x := feistel half x in if x <? size then inr x else inl x.

Definition walk_fuel (half : Z) : positive := Z.to_pos (2 ^ (2 * half)).

Definition scatter (v : Z) : result fault Z :=
  '(lo, size) ← widthOf v;
  let half := half_of size in
  match loop (walk_fuel half) (walk_body half size) (u64 (v - lo)) with
  | inl _ => Err OutOfFuel
  | inr x => Ok (u64 (lo + x))
  end.

(** ** [render] *)

Definition alpha (i : Z) : ascii :=
  match String.get (Z.to_nat i) alphabet with Some c => c | None => "0"%char end.

Fixpoint render_loop (fuel : nat) (n size : Z) : result fault string :=
  match fuel with
  | O => Err OutOfFuel
  | S fuel =>
      let c := alpha ((n / size) mod 32) in
      let n := n mod size in
      if size =? 1 then Ok (String c "")
      else rest ← render_loop fuel n (size / 32); Ok (String c rest)
  end.

Definition render_fuel : nat := 16.

Definition render (v : Z) : result fault string :=
  '(lo, size) ← widthOf v;
  render_loop render_fuel (u64 (v - lo)) (size / 10).

(** ** [Next] *)

Definition mint_id (w c : Z) : result fault string :=
  p ← pair w c; v ← scatter p; render v.

(** [n := m.counter.Add(1)]; the id and its counter, and the minter after. *)
Definition Next (m : Minter) : result fault (string * Z) * Minter :=
  let n := u64 (counter m + 1) in
  ((id ← mint_id (worker m) n; Ok (id, i64 n)), mkMinter (worker m) n).

(** * The widths *)

(** The first number written with [k + 1] characters, and how many there are. *)
Fixpoint width_lo (k : nat) : Z :=
  match k with O => 0 | S k => width_lo k + 10 * 32 ^ Z.of_nat k end.
Definition width_size (k : nat) : Z := 10 * 32 ^ Z.of_nat k.

(** The first number that no id of at most 13 characters holds. *)
Definition width_limit : Z := width_lo 13.

Lemma width_lo_mono i j : (i <= j)%nat -> width_lo i <= width_lo j.
Proof.
  induction 1 as [|j ? IH]; [done|]. cbn [width_lo].
  pose proof (Z.pow_pos_nonneg 32 (Z.of_nat j)). lia.
Qed.

Lemma width_lo_S_small k : (k <= 12)%nat -> width_lo k + width_size k < two64.
Proof.
  intros. change (width_lo (S k) < two64).
  apply Z.le_lt_trans with (width_lo 13); [apply width_lo_mono; lia|by vm_compute].
Qed.

Lemma width_lo_nonneg k : 0 <= width_lo k.
Proof. apply (width_lo_mono 0 k); lia. Qed.

Lemma width_size_pos k : 10 <= width_size k.
Proof. unfold width_size. pose proof (Z.pow_pos_nonneg 32 (Z.of_nat k)). lia. Qed.

Lemma width_size_S k : width_size (S k) = width_size k * 32.
Proof. unfold width_size. rewrite Nat2Z.inj_succ, Z.pow_succ_r by lia. lia. Qed.

Lemma width_size_small k : (k <= 12)%nat -> width_size k < two64.
Proof. intros. pose proof (width_lo_S_small k). pose proof (width_lo_nonneg k). lia. Qed.

(** The loop of [widthOf] started at width [k] stops at the width holding [v]. *)
Lemma width_loop_spec v n : forall k,
  (k <= 12)%nat -> (12 < k + n)%nat -> width_lo k <= v < width_limit ->
  exists j, (k <= j <= 12)%nat /\ width_lo j <= v < width_lo j + width_size j /\
    loop_nat n (width_body v) (width_lo k, width_size k) = inr (width_lo j, width_size j).
Proof.
  induction n as [|n IH]; intros k Hk Hn Hv; [lia|]. cbn [loop_nat width_body].
  pose proof (width_lo_nonneg k). pose proof (width_size_pos k).
  pose proof (width_lo_S_small k Hk).
  rewrite (u64_small (width_lo k + width_size k)) by lia.
  case (Z.leb_spec (width_lo k + width_size k) v) as [Hle|Hlt].
  - assert (k <> 12)%nat.
    { intros ->. change (width_lo 12 + width_size 12) with width_limit in *. lia. }
    pose proof (width_size_small (S k) ltac:(lia)). rewrite width_size_S in *.
    rewrite (u64_small (width_size k * 32)) by lia. rewrite <- width_size_S.
    destruct (IH (S k)) as (j & ? & ? & E); [lia|lia|split; [exact Hle|lia]|].
    exists j. split; [lia|]. split; [done|]. exact E.
  - exists k. split; [lia|]. split; [lia|]. done.
Qed.

Lemma widthOf_spec v : 0 <= v < width_limit ->
  exists k, (k <= 12)%nat /\ width_lo k <= v < width_lo k + width_size k /\
    widthOf v = Ok (width_lo k, width_size k).
Proof.
  intros Hv. destruct (width_loop_spec v 16 0) as (j & ? & ? & E); [lia|lia|done|].
  exists j. split; [lia|]. split; [done|]. unfold widthOf, width_fuel.
  rewrite loop_as_nat. change (Pos.to_nat 16) with 16%nat.
  change (0, 10) with (width_lo 0, width_size 0). by rewrite E.
Qed.

Lemma width_unique i j v :
  width_lo i <= v < width_lo i + width_size i ->
  width_lo j <= v < width_lo j + width_size j -> i = j.
Proof.
  intros Hi Hj. destruct (lt_eq_lt_dec i j) as [[H|H]|H]; [|done|].
  - pose proof (width_lo_mono (S i) j H) as M. cbn [width_lo] in M. unfold width_size in *. lia.
  - pose proof (width_lo_mono (S j) i H) as M. cbn [width_lo] in M. unfold width_size in *. lia.
Qed.

Lemma widthOf_at k v : (k <= 12)%nat -> width_lo k <= v < width_lo k + width_size k ->
  widthOf v = Ok (width_lo k, width_size k).
Proof.
  intros Hk Hv. destruct (widthOf_spec v) as (j & ? & ? & E).
  { pose proof (width_lo_nonneg k). pose proof (width_lo_mono (S k) 13 ltac:(lia)) as M.
    cbn [width_lo] in M. fold (width_size k) in M. unfold width_limit. cbn [width_lo]. lia. }
  by rewrite (width_unique k j v).
Qed.

(** * [feistel] permutes [0, 2^(2*half)) *)

Section Feistel.
Context (half : Z) (Hhalf : 0 <= half <= 32).

Let mask := u64 (Z.shiftl 1 half) - 1.

Definition in_half (x : Z) : Prop := 0 <= x < 2 ^ half.

Lemma pow_half_small : 0 < 2 ^ half < two64.
Proof using Hhalf.
  split; [apply Z.pow_pos_nonneg; lia|].
  apply Z.le_lt_trans with (2 ^ 32); [apply Z.pow_le_mono_r; lia|by vm_compute].
Qed.

Lemma mask_eq : mask = 2 ^ half - 1.
Proof using Hhalf.
  unfold mask. rewrite Z.shiftl_1_l, u64_small; [done|]. pose proof pow_half_small. lia.
Qed.

Lemma land_mask_range x : in_half (Z.land x mask).
Proof using Hhalf.
  unfold in_half. rewrite mask_eq, land_ones_mod by lia.
  apply Z.mod_pos_bound, Z.pow_pos_nonneg; lia.
Qed.

Lemma lxor_range a b : in_half a -> in_half b -> in_half (Z.lxor a b).
Proof using Hhalf.
  unfold in_half. intros Ha Hb. split; [apply Z.lxor_nonneg; lia|].
  destruct (decide (Z.lxor a b = 0)) as [->|Hne]; [apply pow_half_small|].
  assert (0 <= Z.lxor a b) by (apply Z.lxor_nonneg; lia).
  apply Z.log2_lt_pow2; [lia|].
  apply Z.le_lt_trans with (Z.max (Z.log2 a) (Z.log2 b)); [apply Z.log2_lxor; lia|].
  assert (L : forall x, 0 <= x < 2 ^ half -> x <> 0 -> Z.log2 x < half)
    by (intros; apply Z.log2_lt_pow2; lia).
  destruct (decide (a = 0)) as [->|]; destruct (decide (b = 0)) as [->|].
  - by rewrite Z.lxor_0_r in Hne.
  - specialize (L b). change (Z.log2 0) with 0. pose proof (Z.log2_nonneg b). lia.
  - specialize (L a). change (Z.log2 0) with 0. pose proof (Z.log2_nonneg a). lia.
  - pose proof (L a). pose proof (L b). lia.
Qed.

Definition both_half (p : Z * Z) : Prop := in_half p.1 /\ in_half p.2.

Lemma feistel_round_range p i : both_half p -> both_half (feistel_round mask p i).
Proof using Hhalf.
  destruct p as [l r]. intros [Hl Hr]. split; [done|].
  apply lxor_range; [done|apply land_mask_range].
Qed.

Lemma feistel_round_inj p q i : feistel_round mask p i = feistel_round mask q i -> p = q.
Proof using.
  destruct p as [l r], q as [l' r']. unfold feistel_round. intros [= -> E].
  f_equal. apply (f_equal (fun z => Z.lxor z
    (Z.land (mix (u64 (r' + u64 (Z.of_nat i * 11400714819323198485)))) mask))) in E.
  by rewrite !Z.lxor_assoc, !Z.lxor_nilpotent, !Z.lxor_0_r in E.
Qed.

Lemma feistel_rounds_range ks p : both_half p -> both_half (foldl (feistel_round mask) p ks).
Proof using Hhalf.
  revert p. induction ks as [|i ks IH]; [done|]. intros p Hp.
  apply IH, feistel_round_range, Hp.
Qed.

Lemma feistel_rounds_inj ks p q :
  foldl (feistel_round mask) p ks = foldl (feistel_round mask) q ks -> p = q.
Proof using.
  revert p q. induction ks as [|i ks IH]; [done|]. intros p q E.
  by apply IH, feistel_round_inj in E.
Qed.

(** Splitting a number in two halves and gluing them again. *)
Lemma split_glue x : 0 <= x < 2 ^ (2 * half) ->
  Z.land (Z.shiftr x half) mask = x / 2 ^ half /\ Z.land x mask = x mod 2 ^ half.
Proof using Hhalf.
  intros Hx. rewrite mask_eq, !land_ones_mod by lia. split; [|done].
  rewrite Z.shiftr_div_pow2 by lia. apply Z.mod_small. pose proof pow_half_small.
  split; [apply Z.div_pos; lia|]. apply Z.div_lt_upper_bound; [lia|].
  rewrite <- Z.pow_add_r by lia. replace (half + half) with (2 * half) by lia. lia.
Qed.

Lemma glue_eq l r : in_half l -> in_half r ->
  Z.lor (u64 (Z.shiftl l half)) r = r + l * 2 ^ half.
Proof using Hhalf.
  intros Hl Hr. unfold in_half in *. rewrite Z.shiftl_mul_pow2 by lia.
  rewrite u64_small.
  - rewrite Z.lor_comm. apply lor_shiftl_add; lia.
  - assert (2 ^ half * 2 ^ half <= two64).
    { rewrite <- Z.pow_add_r by lia. change two64 with (2 ^ 64). apply Z.pow_le_mono_r; lia. }
    nia.
Qed.

Lemma feistel_range x : 0 <= x < 2 ^ (2 * half) -> 0 <= feistel half x < 2 ^ (2 * half).
Proof using Hhalf.
  intros Hx. unfold feistel. fold mask.
  destruct (foldl _ _ _) as [l r] eqn:E.
  assert (Hlr : both_half (l, r)).
  { rewrite <- E. apply feistel_rounds_range. split; apply land_mask_range. }
  destruct Hlr as [Hl Hr]. cbn in Hl, Hr. rewrite glue_eq by done.
  replace (2 * half) with (half + half) by lia. rewrite Z.pow_add_r by lia.
  unfold in_half in *. nia.
Qed.

Lemma feistel_inj x y :
  0 <= x < 2 ^ (2 * half) -> 0 <= y < 2 ^ (2 * half) ->
  feistel half x = feistel half y -> x = y.
Proof using Hhalf.
  intros Hx Hy. unfold feistel. fold mask.
  destruct (foldl _ _ _) as [l r] eqn:E1.
  destruct (foldl _ (Z.land (Z.shiftr y half) mask, _) _) as [l' r'] eqn:E2.
  assert (H1 : both_half (l, r)).
  { rewrite <- E1. apply feistel_rounds_range. split; apply land_mask_range. }
  assert (H2 : both_half (l', r')).
  { rewrite <- E2. apply feistel_rounds_range. split; apply land_mask_range. }
  destruct H1 as [Hl Hr], H2 as [Hl' Hr']. cbn in Hl, Hr, Hl', Hr'.
  rewrite !glue_eq by done. unfold in_half in *. intros Heq.
  assert (l = l') by nia. assert (r = r') by nia. subst l' r'.
  rewrite <- E2 in E1. apply feistel_rounds_inj in E1.
  destruct (split_glue x Hx) as [A B], (split_glue y Hy) as [A' B'].
  rewrite A, B, A', B' in E1.
  injection E1 as Ediv Emod.
  rewrite (Z.div_mod x (2 ^ half)), (Z.div_mod y (2 ^ half)) by lia. congruence.
Qed.
End Feistel.

(** * Cycle-walking: [scatter] permutes each width *)

Lemma iter_succ_r {A} n (f : A -> A) x : iter (S n) f x = iter n f (f x).
Proof. induction n as [|n IH]; cbn in *; congruence. Qed.

(** [y] is the first point of [x]'s orbit below [size]. *)
Definition first_return (f : Z -> Z) (size x y : Z) (k : nat) : Prop :=
  y = iter (S k) f x /\ y < size /\ forall j, (j < k)%nat -> size <= iter (S j) f x.

Lemma walk_first_return half size n : forall x,
  (exists k, (k < n)%nat /\ iter (S k) (feistel half) x < size) ->
  exists y k, loop_nat n (walk_body half size) x = inr y /\ first_return (feistel half) size x y k.
Proof.
  induction n as [|n IH]; intros x (k & Hk & Hlt); [lia|].
  cbn [loop_nat]. unfold walk_body at 1. cbv zeta.
  case (Z.ltb_spec (feistel half x) size) as [H|H].
  - exists (feistel half x), 0%nat. split; [done|]. split; [done|]. split; [done|]. intros; lia.
  - destruct k as [|k]; [change (feistel half x < size) in Hlt; lia|].
    destruct (IH (feistel half x)) as (y & m & E & Ey & Hy & Hm).
    { exists k. split; [lia|]. by rewrite <- iter_succ_r. }
    exists y, (S m). split; [done|]. split; [by rewrite iter_succ_r|]. split; [done|].
    intros [|j] Hj; [done|]. rewrite iter_succ_r. apply Hm. lia.
Qed.

(** First returns from two starting points that meet start at the same point. *)
Lemma first_return_inj half size x x' y k k' :
  0 <= half <= 32 -> size <= 2 ^ (2 * half) ->
  0 <= x < size -> 0 <= x' < size ->
  first_return (feistel half) size x y k -> first_return (feistel half) size x' y k' -> x = x'.
Proof.
  intros Hh Hs Hx Hx' (E & ? & F) (E' & ? & F').
  assert (A : forall a b i j, 0 <= a < size -> 0 <= b < size -> (i <= j)%nat ->
    iter (S i) (feistel half) a = iter (S j) (feistel half) b ->
    (forall m, (m < j)%nat -> size <= iter (S m) (feistel half) b) -> a = b).
  { intros a b i j Ha Hb Hij Eq Far.
    replace (S j) with (S i + (j - i))%nat in Eq by lia.
    rewrite (iter_add (feistel half)) in Eq.
    apply (iter_inj (feistel half) (2 ^ (2 * half))) in Eq;
      [|by apply feistel_range|by intros; apply (feistel_inj half Hh)|lia
       |apply iter_range; [by apply feistel_range|lia]].
    destruct (j - i)%nat as [|m] eqn:D; [done|]. specialize (Far m ltac:(lia)). lia. }
  destruct (le_ge_dec k k').
  - by apply (A x x' k k'); [done..|congruence|].
  - symmetry. apply (A x' x k' k); [done..|congruence|done].
Qed.

Lemma half_of_spec k : (k <= 12)%nat ->
  0 <= half_of (width_size k) <= 32 /\ width_size k <= 2 ^ (2 * half_of (width_size k)).
Proof.
  intros Hk. assert (H : Forall (fun k => 0 <= half_of (width_size k) <= 32 /\
    width_size k <= 2 ^ (2 * half_of (width_size k))) (seq 0 13)).
  { repeat constructor; vm_compute; congruence. }
  rewrite Forall_forall in H. apply H, elem_of_seq. lia.
Qed.

Definition in_width (k : nat) (v : Z) : Prop :=
  (k <= 12)%nat /\ width_lo k <= v < width_lo k + width_size k.

Lemma in_width_exists v : 0 <= v < width_limit -> exists k, in_width k v.
Proof. intros (k & ? & ? & _)%widthOf_spec. by exists k. Qed.

Lemma in_width_small k v : in_width k v -> 0 <= v - width_lo k < two64 /\ v < two64.
Proof.
  intros [Hk Hv]. pose proof (width_lo_S_small k Hk). pose proof (width_lo_nonneg k). lia.
Qed.

(** [scatter] answers, stays in the width, and is a first return there. *)
Lemma scatter_spec k v : in_width k v ->
  exists y m, scatter v = Ok (width_lo k + y) /\ in_width k (width_lo k + y) /\
    first_return (feistel (half_of (width_size k))) (width_size k) (v - width_lo k) y m.
Proof.
  intros Hw. pose proof (in_width_small k v Hw). destruct Hw as [Hk Hv].
  destruct (half_of_spec k Hk) as [Hh Hs]. set (half := half_of (width_size k)) in *.
  set (x := v - width_lo k).
  destruct (orbit_returns (feistel half) (2 ^ (2 * half)) (feistel_range half Hh)
    (feistel_inj half Hh) x ltac:(lia)) as (c & Hc & Ec).
  destruct (walk_first_return half (width_size k) (Pos.to_nat (walk_fuel half)) x)
    as (y & m & El & Hret).
  { exists (pred c). split; [unfold walk_fuel; lia|].
    replace (S (pred c)) with c by lia. rewrite Ec. lia. }
  assert (Hy : 0 <= y < width_size k).
  { destruct Hret as (-> & ? & _). split; [|done].
    apply (iter_range _ _ (feistel_range half Hh)). lia. }
  exists y, m. pose proof (width_lo_S_small k Hk). pose proof (width_lo_nonneg k).
  split; [|split; [by split; [|lia]|done]].
  unfold scatter. rewrite (widthOf_at k v Hk Hv). cbn. fold half.
  rewrite (u64_small (v - width_lo k)) by lia. fold x.
  rewrite loop_as_nat, El. by rewrite u64_small by lia.
Qed.

Lemma scatter_inj k v w u : in_width k v -> in_width k w ->
  scatter v = Ok u -> scatter w = Ok u -> v = w.
Proof.
  intros Hv Hw Ev Ew. destruct (scatter_spec k v Hv) as (y & m & E & _ & R).
  destruct (scatter_spec k w Hw) as (y' & m' & E' & _ & R').
  assert (y = y') by (rewrite E in Ev; rewrite E' in Ew; injection Ev; injection Ew; lia).
  subst y'. destruct Hv as [Hk Hv], Hw as [_ Hw]. destruct (half_of_spec k Hk).
  assert (v - width_lo k = w - width_lo k); [|lia].
  by apply (first_return_inj (half_of (width_size k)) (width_size k) _ _ y m m');
    [..|lia|lia| |].
Qed.

(** * [render] writes a number of width [k] with [k + 1] characters *)

(** The characters of [n], most significant first. *)
Fixpoint digits (k : nat) (n : Z) : string :=
  match k with
  | O => String (alpha (n mod 32)) ""
  | S k' => String (alpha (n / 32 ^ Z.of_nat k mod 32)) (digits k' (n mod 32 ^ Z.of_nat k))
  end.

Lemma render_loop_digits k : forall fuel n, (k < fuel)%nat -> 0 <= n ->
  render_loop fuel n (32 ^ Z.of_nat k) = Ok (digits k n).
Proof.
  induction k as [|k IH]; intros [|fuel] n Hf Hn; [lia| |lia|]; cbn [render_loop].
  - change (32 ^ Z.of_nat 0) with 1. by rewrite Z.div_1_r.
  - rewrite Nat2Z.inj_succ, Z.pow_succ_r by lia.
    pose proof (Z.pow_pos_nonneg 32 (Z.of_nat k)).
    rewrite (proj2 (Z.eqb_neq _ 1)) by lia.
    replace (32 * 32 ^ Z.of_nat k / 32) with (32 ^ Z.of_nat k) by zlia.
    rewrite IH by (try apply Z.mod_pos_bound; lia). cbn [mbind result_bind digits].
    by rewrite Nat2Z.inj_succ, Z.pow_succ_r by lia.
Qed.

Lemma alpha_inj i j : 0 <= i < 32 -> 0 <= j < 32 -> alpha i = alpha j -> i = j.
Proof.
  intros Hi Hj. assert (H : forall a b, (a < 32)%nat -> (b < 32)%nat ->
    alpha (Z.of_nat a) = alpha (Z.of_nat b) -> a = b).
  { intros a b Ha Hb. do 32 (destruct a as [|a]; [
      do 32 (destruct b as [|b]; [first [done|discriminate]|]); lia|]). lia. }
  intros E. specialize (H (Z.to_nat i) (Z.to_nat j)). rewrite !Z2Nat.id in H by lia.
  specialize (H ltac:(lia) ltac:(lia) E). lia.
Qed.

Lemma digits_length k n : String.length (digits k n) = S k.
Proof. revert n. induction k as [|k IH]; intros n; cbn; [done|]. by rewrite IH. Qed.

Lemma digits_inj k : forall n m,
  0 <= n < 32 * 32 ^ Z.of_nat k -> 0 <= m < 32 * 32 ^ Z.of_nat k ->
  digits k n = digits k m -> n = m.
Proof.
  induction k as [|k IH]; intros n m Hn Hm.
  - change (32 ^ Z.of_nat 0) with 1 in *. cbn [digits]. intros [= E].
    rewrite !Z.mod_small in E by lia. by apply alpha_inj in E; [|lia|lia].
  - set (p := 32 ^ Z.of_nat (S k)) in *.
    assert (Hp : p = 32 * 32 ^ Z.of_nat k).
    { unfold p. rewrite Nat2Z.inj_succ. apply Z.pow_succ_r. lia. }
    pose proof (Z.pow_pos_nonneg 32 (Z.of_nat k)).
    cbn [digits]. fold p. intros [= E1 E2].
    pose proof (Z.div_mod n p ltac:(lia)) as Dn. pose proof (Z.div_mod m p ltac:(lia)) as Dm.
    pose proof (Z.mod_pos_bound n p ltac:(lia)). pose proof (Z.mod_pos_bound m p ltac:(lia)).
    assert (0 <= n / p < 32) by (split; [apply Z.div_pos|apply Z.div_lt_upper_bound]; lia).
    assert (0 <= m / p < 32) by (split; [apply Z.div_pos|apply Z.div_lt_upper_bound]; lia).
    rewrite !(Z.mod_small (_ / p)) in E1 by lia. apply alpha_inj in E1; [|lia|lia].
    apply IH in E2; [|lia|lia]. congruence.
Qed.

Lemma render_spec k v : in_width k v -> render v = Ok (digits k (v - width_lo k)).
Proof.
  intros Hw. pose proof (in_width_small k v Hw). destruct Hw as [Hk Hv].
  unfold render. rewrite (widthOf_at k v Hk Hv). cbn [mbind result_bind].
  rewrite u64_small by lia. unfold width_size.
  replace (10 * 32 ^ Z.of_nat k / 10) with (32 ^ Z.of_nat k) by zlia.
  apply render_loop_digits; [unfold render_fuel; lia|lia].
Qed.

Lemma render_inj v w s : 0 <= v < width_limit -> 0 <= w < width_limit ->
  render v = Ok s -> render w = Ok s -> v = w.
Proof.
  intros (k & Hv)%in_width_exists (j & Hw)%in_width_exists.
  rewrite (render_spec k v Hv), (render_spec j w Hw). intros [= <-] [= E].
  assert (j = k) as ->.
  { apply (f_equal String.length) in E. rewrite !digits_length in E. lia. }
  destruct Hv as [Hk Hv], Hw as [_ Hw]. unfold width_size in *.
  pose proof (Z.pow_pos_nonneg 32 (Z.of_nat k)).
  apply digits_inj in E; lia.
Qed.

(** * [pair] is injective *)

(** Reading the worker back: six bits at a time, low group first, until a group
    whose lowest bit is clear. *)
Fixpoint unpair (fuel : nat) (x : Z) : Z :=
  match fuel with
  | O => 0
  | S fuel => if Z.odd x then (x / 2) mod 32 + 32 * unpair fuel (x / 64) else (x / 2) mod 32
  end.

Lemma unpair_even fuel g rest : 0 <= g < 32 -> unpair (S fuel) (2 * g + 64 * rest) = g.
Proof.
  intros Hg. cbn [unpair].
  replace (2 * g + 64 * rest) with (2 * (g + 32 * rest)) by lia.
  rewrite Z.odd_mul. cbn [Z.odd andb]. rewrite Z.mul_comm, Z.div_mul by lia. zlia.
Qed.

Lemma unpair_odd fuel g rest : 0 <= g < 32 ->
  unpair (S fuel) (2 * g + 1 + 64 * rest) = g + 32 * unpair fuel rest.
Proof.
  intros Hg. cbn [unpair].
  replace (2 * g + 1 + 64 * rest) with (1 + 2 * (g + 32 * rest)) by lia.
  rewrite Z.odd_add_mul_2. cbn [Z.odd].
  replace ((1 + 2 * (g + 32 * rest)) / 2) with (g + 32 * rest) by zlia.
  replace ((1 + 2 * (g + 32 * rest)) / 64) with rest by zlia. f_equal. zlia.
Qed.

(** One turn of the loop, with the bit operations read as arithmetic. *)
Lemma pair_body_eq w low shift :
  0 <= w -> 0 <= shift <= 57 -> 0 <= low < 2 ^ shift ->
  pair_body (w, low, shift) =
    if w / 32 =? 0 then inr (low + 2 * (w mod 32) * 2 ^ shift, shift + 6)
    else inl (w / 32, low + (2 * (w mod 32) + 1) * 2 ^ shift, shift + 6).
Proof.
  intros Hw Hs Hl. unfold pair_body.
  rewrite Z.shiftr_div_pow2 by lia. change (2 ^ 5) with 32.
  replace (Z.land w 31) with (w mod 32) by (symmetry; apply (land_ones_mod w 5); lia).
  rewrite (Z.shiftl_mul_pow2 (w mod 32)) by lia. change (2 ^ 1) with 2.
  rewrite (u64_small (w mod 32 * 2)) by (unfold two64; zlia).
  assert (Hpow : 2 ^ shift * 64 <= two64 / 2).
  { change 64 with (2 ^ 6). rewrite <- Z.pow_add_r by lia. change (two64 / 2) with (2 ^ 63).
    apply Z.pow_le_mono_r; lia. }
  change (two64 / 2) with 9223372036854775808 in Hpow.
  assert (G : forall g, 0 <= g < 64 ->
    Z.lor low (u64 (Z.shiftl g shift)) = low + g * 2 ^ shift).
  { intros g Hg. rewrite Z.shiftl_mul_pow2, u64_small by (unfold two64; nia || lia).
    apply lor_shiftl_add; lia. }
  case (Z.eqb_spec (w / 32) 0) as [E|E].
  - rewrite E. cbn [Z.ltb Z.compare]. rewrite G by zlia. do 2 f_equal. lia.
  - rewrite (proj2 (Z.ltb_lt 0 (w / 32))) by zlia.
    replace (Z.lor (w mod 32 * 2) 1) with (1 + w mod 32 * 2 ^ 1)
      by (rewrite Z.lor_comm; symmetry; apply (lor_shiftl_add 1 (w mod 32) 1); lia).
    rewrite G by zlia. do 3 f_equal; lia.
Qed.

Lemma pair_body_shape w low shift : 0 <= w ->
  (exists low', pair_body (w, low, shift) = inr (low', shift + 6) /\ w / 32 = 0) \/
  (exists low', pair_body (w, low, shift) = inl (w / 32, low', shift + 6) /\ w / 32 <> 0).
Proof.
  intros Hw. unfold pair_body. rewrite Z.shiftr_div_pow2 by lia. change (2 ^ 5) with 32.
  case (Z.eqb_spec (w / 32) 0) as [E|E]; eauto.
Qed.

Lemma pair_loop_shift n : forall w low shift low' shift', 0 <= w ->
  loop_nat n pair_body (w, low, shift) = inr (low', shift') -> shift + 6 <= shift'.
Proof.
  induction n as [|n IH]; intros w low shift low' shift' Hw; [done|]. cbn [loop_nat].
  destruct (pair_body_shape w low shift Hw) as [(l & -> & _)|(l & -> & _)].
  - intros [= _ <-]. lia.
  - intros H%IH; [lia|zlia].
Qed.

Lemma pair_loop_total n : forall w low shift, (0 < n)%nat -> 0 <= w < 32 ^ Z.of_nat n ->
  exists r, loop_nat n pair_body (w, low, shift) = inr r.
Proof.
  induction n as [|n IH]; intros w low shift Hn Hw; [lia|]. cbn [loop_nat].
  destruct (pair_body_shape w low shift (proj1 Hw)) as [(l & -> & _)|(l & -> & Hne)]; [eauto|].
  rewrite Nat2Z.inj_succ, Z.pow_succ_r in Hw by lia. apply IH; [|zlia].
  destruct n; [|lia]. change (32 ^ Z.of_nat 0) with 1 in Hw. zlia.
Qed.

(** The loop writes above [low] a code the worker can be read back from,
    whatever is written above the code. *)
Lemma pair_loop_spec n : forall w low shift low' shift',
  0 <= w -> 0 <= shift -> 0 <= low < 2 ^ shift ->
  loop_nat n pair_body (w, low, shift) = inr (low', shift') -> shift' < 64 ->
  exists e, low' = low + e * 2 ^ shift /\ 0 <= e < 2 ^ (shift' - shift) /\
    forall m rest, (n <= m)%nat -> unpair m (e + 2 ^ (shift' - shift) * rest) = w.
Proof.
  induction n as [|n IH]; intros w low shift low' shift' Hw Hs Hl H Hlt; [done|].
  pose proof (pair_loop_shift _ _ _ _ _ _ Hw H) as Hge.
  cbn [loop_nat] in H. rewrite pair_body_eq in H by lia.
  pose proof (Z.pow_pos_nonneg 2 shift ltac:(lia) ltac:(lia)).
  case (Z.eqb_spec (w / 32) 0) as [E|E] in H.
  - injection H as <- <-. exists (2 * (w mod 32)).
    replace (shift + 6 - shift) with 6 by lia. change (2 ^ 6) with 64.
    split; [done|]. split; [zlia|]. intros [|m] rest Hm; [lia|].
    rewrite unpair_even by zlia. zlia.
  - assert (Hw' : 0 <= w / 32) by zlia.
    destruct (IH (w / 32) (low + (2 * (w mod 32) + 1) * 2 ^ shift) (shift + 6) low' shift')
      as (e & -> & He & D); [done|lia| |done|lia|].
    { rewrite Z.pow_add_r by lia. change (2 ^ 6) with 64. Z.div_mod_to_equations. nia. }
    pose proof (pair_loop_shift _ _ _ _ _ _ Hw' H).
    replace (shift' - shift) with (6 + (shift' - (shift + 6))) by lia.
    rewrite (Z.pow_add_r 2 6) by lia. change (2 ^ 6) with 64.
    set (P := 2 ^ (shift' - (shift + 6))) in *.
    exists (2 * (w mod 32) + 1 + 64 * e). split; [|split].
    + rewrite Z.pow_add_r by lia. change (2 ^ 6) with 64. lia.
    + zlia.
    + intros [|m] rest Hm; [lia|].
      replace (2 * (w mod 32) + 1 + 64 * e + 64 * P * rest)
        with (2 * (w mod 32) + 1 + 64 * (e + P * rest)) by lia.
      rewrite unpair_odd, D by (zlia || lia). zlia.
Qed.

(** The worker's code and the height its counter starts at. *)
Definition worker_code (w : Z) : Z * Z :=
  match loop pair_fuel pair_body (w, 0, 0) with
  | inl _ => (0, 64)
  | inr (low, shift) => (low, Z.max shift (6 * minGroups))
  end.

(** What [pair] computes before its last addition wraps. *)
Definition pair_raw (w c : Z) : Z := minValue + (c * 2 ^ (worker_code w).2 + (worker_code w).1).

Definition pair_guard (w c : Z) : bool :=
  ((worker_code w).2 <? 64) && (c <? 2 ^ (64 - (worker_code w).2) - 1).

Lemma worker_code_spec w : 0 <= w < two64 -> (worker_code w).2 < 64 ->
  18 <= (worker_code w).2 /\ 0 <= (worker_code w).1 < 2 ^ (worker_code w).2 /\
  forall c, unpair 16 ((worker_code w).1 + c * 2 ^ (worker_code w).2) = w.
Proof.
  intros Hw. unfold worker_code. rewrite loop_as_nat. change (Pos.to_nat pair_fuel) with 16%nat.
  destruct (loop_nat 16 pair_body (w, 0, 0)) as [?|[low shift]] eqn:E; cbn [fst snd]; [lia|].
  change (6 * minGroups) with 18. intros Hlt.
  pose proof (pair_loop_shift _ _ _ _ _ _ (proj1 Hw) E).
  destruct (pair_loop_spec 16 w 0 0 low shift) as (e & -> & He & D); try done || lia.
  replace (shift - 0) with shift in * by lia.
  split; [lia|]. split.
  - change (2 ^ 0) with 1. pose proof (Z.pow_le_mono_r 2 shift (Z.max shift 18)). lia.
  - intros c. rewrite <- (D 16%nat (c * 2 ^ (Z.max shift 18 - shift))) by lia. f_equal.
    replace (2 ^ Z.max shift 18) with (2 ^ shift * 2 ^ (Z.max shift 18 - shift));
      [change (2 ^ 0) with 1; lia|]. rewrite <- Z.pow_add_r by lia. f_equal. lia.
Qed.

Lemma pair_eq w c : 0 <= w < two64 -> 0 <= c < two64 ->
  pair w c = if pair_guard w c then Ok (u64 (pair_raw w c)) else Err Panicked.
Proof.
  intros Hw Hc. unfold pair_guard, pair_raw. pose proof (worker_code_spec w Hw) as S.
  unfold pair, worker_code in *. rewrite loop_as_nat in *.
  destruct (pair_loop_total (Pos.to_nat pair_fuel) w 0 0) as [[low shift] E].
  { unfold pair_fuel. lia. }
  { change (32 ^ Z.of_nat (Pos.to_nat pair_fuel)) with (2 ^ 80). unfold two64 in Hw. lia. }
  rewrite E in *. cbn [fst snd] in *. set (sh := Z.max shift (6 * minGroups)) in *.
  case (Z.leb_spec 64 sh) as [H|H]; cbn [orb].
  { by rewrite (proj2 (Z.ltb_ge sh 64)). }
  rewrite (proj2 (Z.ltb_lt sh 64)) by done. cbn [andb].
  destruct (S H) as (H18 & Hlow & _).
  case (Z.leb_spec (2 ^ (64 - sh) - 1) c) as [G|G].
  { by rewrite (proj2 (Z.ltb_ge _ _)). }
  rewrite (proj2 (Z.ltb_lt _ _)) by done. do 2 f_equal. f_equal.
  rewrite Z.shiftl_mul_pow2, u64_small.
  - rewrite Z.lor_comm, lor_shiftl_add by lia. lia.
  - assert (2 ^ (64 - sh) * 2 ^ sh = two64).
    { rewrite <- Z.pow_add_r by lia. change two64 with (2 ^ 64). f_equal. lia. }
    pose proof (Z.pow_pos_nonneg 2 sh). nia.
  - lia.
Qed.

(** The pairs that mint an id: [pair] accepts them and an id is wide enough. *)
Definition mintable (w c : Z) : Prop :=
  0 <= w < two64 /\ 0 <= c < two64 /\ pair_guard w c = true /\ pair_raw w c < width_limit.

#[export] Instance mintable_dec w c : Decision (mintable w c).
Proof. unfold mintable. apply _. Defined.

Lemma mintable_pair w c : mintable w c ->
  pair w c = Ok (pair_raw w c) /\ minValue <= pair_raw w c < width_limit.
Proof.
  intros (Hw & Hc & Hg & Hl). rewrite pair_eq, Hg by done.
  apply andb_prop in Hg as [Hg%Z.ltb_lt _].
  destruct (worker_code_spec w Hw Hg) as (? & ? & _).
  assert (minValue <= pair_raw w c).
  { unfold pair_raw. pose proof (Z.pow_pos_nonneg 2 (worker_code w).2). nia. }
  rewrite u64_small; [done|].
  change minValue with 11083786570 in *. change width_limit with 11901125208844872010 in *.
  unfold two64. lia.
Qed.

Lemma pair_raw_inj w c w' c' : mintable w c -> mintable w' c' ->
  pair_raw w c = pair_raw w' c' -> w = w' /\ c = c'.
Proof.
  intros (Hw & Hc & Hg & _) (Hw' & Hc' & Hg' & _) E. unfold pair_raw in E.
  apply andb_prop in Hg as [Hg%Z.ltb_lt _], Hg' as [Hg'%Z.ltb_lt _].
  destruct (worker_code_spec w Hw Hg) as (? & ? & D).
  destruct (worker_code_spec w' Hw' Hg') as (? & ? & D').
  assert (w = w') as <-.
  { rewrite <- (D c), <- (D' c'). f_equal. lia. }
  split; [done|]. pose proof (Z.pow_pos_nonneg 2 (worker_code w).2). nia.
Qed.

Lemma mintable_mono w c c' : 0 <= c' <= c -> mintable w c -> mintable w c'.
Proof.
  intros Hc (Hw & ? & Hg & Hl). split; [done|]. split; [lia|].
  unfold pair_guard, pair_raw in *. apply andb_prop in Hg as [Hs Hg%Z.ltb_lt].
  rewrite Hs. split; [apply Z.ltb_lt; lia|].
  pose proof (Z.pow_nonneg 2 (worker_code w).2). nia.
Qed.

(** Minting step by step on an admitted pair. *)
Lemma mint_id_spec w c : mintable w c ->
  exists k v, in_width k (pair_raw w c) /\ (7 <= k)%nat /\
    scatter (pair_raw w c) = Ok v /\ in_width k v /\
    mint_id w c = Ok (digits k (v - width_lo k)).
Proof.
  intros Hm. destruct (mintable_pair w c Hm) as [Ep Hr].
  destruct (in_width_exists (pair_raw w c)) as (k & Hk).
  { change minValue with 11083786570 in Hr. lia. }
  destruct (scatter_spec k _ Hk) as (y & m & Es & Hw & _).
  exists k, (width_lo k + y). split; [done|]. split.
  - destruct (decide (7 <= k)%nat) as [|Hlt]; [done|exfalso]. destruct Hk as [_ [_ Hk]].
    change (pair_raw w c < width_lo (S k)) in Hk.
    pose proof (width_lo_mono (S k) 7 ltac:(lia)). change (width_lo 7) with minValue in *. lia.
  - split; [done|]. split; [done|]. unfold mint_id. rewrite Ep. cbn [mbind result_bind].
    rewrite Es. cbn [mbind result_bind]. by apply render_spec.
Qed.

(** [n] ids in a row, with their counters. *)
Fixpoint mint_run (n : nat) (m : Minter) : list (result fault (string * Z)) :=
  match n with O => [] | S n => let '(r, m') := Next m in r :: mint_run n m' end.

Lemma mint_run_spec w n : forall c, 0 <= c ->
  mintable w (c + Z.of_nat n) -> c + Z.of_nat n <= max_int64 ->
  mint_run n (mkMinter w c) =
    (fun i => s ← mint_id w i; Ok (s, i)) <$> seqZ (c + 1) (Z.of_nat n).
Proof.
  induction n as [|n IH]; intros c Hc Hm Hmax; [done|].
  rewrite seqZ_cons by lia. replace (Z.pred (Z.of_nat (S n))) with (Z.of_nat n) by lia.
  cbn [mint_run Next worker counter fmap list_fmap].
  unfold max_int64 in Hmax. rewrite (u64_small (c + 1)) by (unfold two64; lia).
  rewrite (i64_small (c + 1)) by (unfold in_i64, min_int64, max_int64; lia).
  f_equal. replace (Z.succ (c + 1)) with (c + 1 + 1) by lia.
  apply IH; [lia| |unfold max_int64; lia].
  by replace (c + 1 + Z.of_nat n) with (c + Z.of_nat (S n)) by lia.
Qed.

Lemma mint_id_inj w c w' c' s :
  mintable w c -> mintable w' c' ->
  mint_id w c = Ok s -> mint_id w' c' = Ok s -> w = w' /\ c = c'.
Proof.
  intros Hm Hm' E E'. apply pair_raw_inj; [done..|].
  destruct (mintable_pair w c Hm) as [Ep Hr], (mintable_pair w' c' Hm') as [Ep' Hr'].
  destruct (mint_id_spec w c Hm) as (k & v & Hk & _ & Es & Hv & Ed).
  destruct (mint_id_spec w' c' Hm') as (k' & v' & Hk' & _ & Es' & Hv' & Ed').
  assert (k' = k) as ->.
  { assert (Ok (digits k (v - width_lo k)) =@{result fault _} Ok (digits k' (v' - width_lo k')))
      as [= D] by congruence.
    apply (f_equal String.length) in D. rewrite !digits_length in D. lia. }
  assert (v = v') as <-.
  { pose proof (in_width_small k v Hv). pose proof (in_width_small k v' Hv').
    rewrite <- (render_spec k v Hv) in Ed. rewrite <- (render_spec k v' Hv') in Ed'.
    destruct Hv as [Hk12 Hv], Hv' as [_ Hv'].
    pose proof (width_lo_mono (S k) 13 ltac:(lia)). pose proof (width_lo_nonneg k).
    change (width_lo (S k)) with (width_lo k + width_size k) in *.
    apply (render_inj v v' s); unfold width_limit in *; [lia|lia|congruence|congruence]. }
  by apply (scatter_inj k _ _ v).
Qed.

(** The states [widthOf] goes through on a number past the last width: the widths
    themselves, then a width of size 0 (10 * 32^13 is 0 modulo 2^64) for ever. *)
Lemma width_body_stuck v st :
  width_limit <= v < two64 ->
  (exists k, (k <= 12)%nat /\ st = (width_lo k, width_size k)) \/ st = (width_limit, 0) ->
  exists st', width_body v st = inl st' /\
    ((exists k, (k <= 12)%nat /\ st' = (width_lo k, width_size k)) \/ st' = (width_limit, 0)).
Proof.
  intros Hv [(k & Hk & ->)| ->]; cbn [width_body].
  - pose proof (width_lo_S_small k Hk). pose proof (width_lo_nonneg k).
    pose proof (width_size_pos k). pose proof (width_lo_mono (S k) 13 ltac:(lia)).
    change (width_lo (S k)) with (width_lo k + width_size k) in *.
    change (width_lo 13) with width_limit in *.
    rewrite u64_small by lia. rewrite (proj2 (Z.leb_le _ _)) by lia.
    eexists. split; [done|]. destruct (decide (k = 12)%nat) as [->|].
    + right. by vm_compute.
    + left. exists (S k). split; [lia|]. pose proof (width_size_small (S k) ltac:(lia)).
      rewrite width_size_S in *. by rewrite u64_small by lia.
  - rewrite Z.add_0_r, u64_small by (change width_limit with 11901125208844872010 in *; lia).
    rewrite (proj2 (Z.leb_le _ _)) by lia. eexists. split; [done|]. by right.
Qed.

(** * Properties *)

(** C39. An id names its worker and its counter: two admitted (worker, counter)
    pairs that mint the same id are the same pair. *)
Theorem ids_unique w c w' c' s :
  mintable w c -> mintable w' c' ->
  mint_id w c = Ok s -> mint_id w' c' = Ok s -> w = w' /\ c = c'.
Proof. apply mint_id_inj. Qed.

Lemma ids_unique_witness :
  exists s, mintable 7 41 /\ mint_id 7 41 = Ok s /\ (7 = 7 /\ 41 = 41).
Proof.
  eexists. split; [by vm_compute|]. split; [vm_compute; reflexivity|].
  eapply ids_unique; [by vm_compute|by vm_compute|vm_compute; reflexivity|vm_compute; reflexivity].
Defined.

(** Every admitted pair mints an id, of 8 to 13 characters, whose first
    character is one of the alphabet's ten digits: no step of the pipeline panics
    or runs out of its loop bound. *)
Theorem mint_total w c : mintable w c ->
  exists d s, mint_id w c = Ok (String d s) /\ (8 <= S (String.length s) <= 13)%nat /\
    exists i, 0 <= i < 10 /\ d = alpha i.
Proof.
  intros Hm. destruct (mint_id_spec w c Hm) as (k & v & _ & H7 & _ & [H12 Hv] & E).
  destruct k as [|k]; [lia|]. cbn [digits] in E.
  eexists _, _. split; [exact E|]. split; [rewrite digits_length; lia|].
  eexists. split; [|done]. unfold width_size in Hv.
  set (p := 32 ^ Z.of_nat (S k)) in *.
  assert (0 < p) by (apply Z.pow_pos_nonneg; lia).
  set (n := v - width_lo (S k)) in *.
  assert (0 <= n / p < 10) by (split; [apply Z.div_pos|apply Z.div_lt_upper_bound]; lia).
  rewrite Z.mod_small; lia.
Qed.

Lemma mint_total_witness :
  exists d s, mint_id 40 3 = Ok (String d s) /\ (8 <= S (String.length s) <= 13)%nat /\
    exists i, 0 <= i < 10 /\ d = alpha i.
Proof. apply mint_total. by vm_compute. Defined.

(** A minter hands out fresh ids for as long as its counter is admitted: the
    [n] ids minted in a row from a new minter all succeed, are pairwise distinct,
    and carry the counters 1 .. n in order. *)
Theorem mint_run_fresh w m n :
  NewMinter w = Ok m -> in_i64 w -> in_i64 (Z.of_nat n) -> mintable w (Z.of_nat n) ->
  exists ids, mint_run n m = (fun p => Ok p) <$> zip ids (seqZ 1 (Z.of_nat n)) /\
    length ids = n /\ NoDup ids.
Proof.
  unfold NewMinter. case (Z.ltb_spec w 0) as [|Hw]; [done|]. intros [= <-] Hi Hn Hm.
  unfold in_i64, min_int64, max_int64 in *.
  rewrite u64_small by (unfold two64; lia).
  rewrite (mint_run_spec w n 0) by (unfold max_int64; done || lia).
  assert (Hall : forall i, i ∈ seqZ 1 (Z.of_nat n) -> mintable w i).
  { intros i ?%elem_of_seqZ. apply (mintable_mono w (Z.of_nat n)); [lia|done]. }
  set (the i := match mint_id w i with Ok s => s | Err _ => ""%string end).
  assert (Hthe : forall i, mintable w i -> mint_id w i = Ok (the i)).
  { intros i Hi'. unfold the.
    destruct (mint_id_spec w i Hi') as (k & v & _ & _ & _ & _ & E). by rewrite E. }
  exists (the <$> seqZ 1 (Z.of_nat n)). split; [|split].
  - change (0 + 1) with 1. clear Hm. induction (seqZ 1 (Z.of_nat n)) as [|i l IH]; [done|].
    cbn [fmap list_fmap zip zip_with]. rewrite (Hthe i) by (apply Hall; set_solver).
    cbn [mbind result_bind]. f_equal. apply IH. set_solver.
  - rewrite length_fmap, length_seqZ. lia.
  - apply NoDup_fmap_2_strong; [|apply NoDup_seqZ]. intros i j Hi' Hj' E.
    apply Hall in Hi', Hj'. pose proof (Hthe i Hi') as Ei. pose proof (Hthe j Hj') as Ej.
    rewrite <- E in Ej. by destruct (mint_id_inj w i w j (the i) Hi' Hj' Ei Ej).
Qed.

Lemma mint_run_fresh_witness :
  exists ids, mint_run 5 (mkMinter 7 0) = (fun p => Ok p) <$> zip ids (seqZ 1 5) /\
    length ids = 5%nat /\ NoDup ids.
Proof. by apply (mint_run_fresh 7); vm_compute. Defined.

(** The guard of [pair] is too wide for [widthOf]: there is an admitted pair
    whose number lies past the last width, and on every such number the loop of
    [widthOf] goes on for any number of turns (its size wraps to 0 and the loop
    condition stays true), so minting that pair would never return. *)
Theorem widthOf_hangs :
  (exists w c v, pair w c = Ok v /\ width_limit <= v < two64) /\
  forall v n, width_limit <= v < two64 ->
    exists st, loop_nat n (width_body v) (0, 10) = inl st.
Proof.
  split.
  - exists 1, (2 ^ 46 - 2 ^ 20), (pair_raw 1 (2 ^ 46 - 2 ^ 20)). by vm_compute.
  - intros v n Hv.
    enough (H : forall st,
      (exists k, (k <= 12)%nat /\ st = (width_lo k, width_size k)) \/ st = (width_limit, 0) ->
      exists st', loop_nat n (width_body v) st = inl st').
    { apply H. left. exists 0%nat. split; [lia|done]. }
    induction n as [|n IH]; intros st Hst; [by eexists|].
    destruct (width_body_stuck v st Hv Hst) as (st' & E & Hst').
    cbn [loop_nat]. rewrite E. auto.
Qed.
Lemma widthOf_hangs_witness :
  exists st, loop_nat 1000 (width_body (two64 - 1)) (0, 10) = inl st.
Proof. apply widthOf_hangs. by vm_compute. Defined.
End IdGen.
