(* ===== verification/GoStrings.v ===== *)
(** The parts of Go's [strings] and [strconv] packages the modelled code calls,
    over byte strings.  Everything is executable; lemmas state what the callers
    rely on. *)
From Stdlib Require Import ZArith Lia Ascii String.
From S2P Require Import Prelude.
Open Scope string_scope.
Open Scope list_scope.
Open Scope Z_scope.

#[global] Arguments Ascii.eqb : simpl never.
#[global] Arguments String.append !_ _ : simpl nomatch.

(** * Bytes *)

(** The byte as an integer. *)
Definition byte (c : ascii) : Z := Z.of_nat (nat_of_ascii c).

Definition is_digit (c : ascii) : bool := (48 <=? byte c) && (byte c <=? 57).
Definition digit_val (c : ascii) : Z := byte c - 48.
Definition digit_char (d : Z) : ascii := ascii_of_nat (Z.to_nat (48 + d)).
#[global] Arguments byte : simpl never.
#[global] Arguments is_digit : simpl never.
#[global] Arguments digit_val : simpl never.
#[global] Arguments digit_char : simpl never.

Lemma byte_range c : 0 <= byte c < 256.
Proof. unfold byte. pose proof (nat_ascii_bounded c). lia. Qed.

Lemma digit_val_range c : is_digit c = true -> 0 <= digit_val c <= 9.
Proof. unfold is_digit, digit_val. intros [?%Z.leb_le ?%Z.leb_le]%andb_prop. lia. Qed.

Lemma byte_digit_char d : 0 <= d <= 9 -> byte (digit_char d) = 48 + d.
Proof. intros. unfold byte, digit_char. rewrite nat_ascii_embedding; lia. Qed.

Lemma digit_char_is_digit d : 0 <= d <= 9 -> is_digit (digit_char d) = true.
Proof.
  intros. unfold is_digit. rewrite byte_digit_char by done.
  apply andb_true_intro. split; apply Z.leb_le; lia.
Qed.

Lemma digit_val_char d : 0 <= d <= 9 -> digit_val (digit_char d) = d.
Proof. intros. unfold digit_val. rewrite byte_digit_char by done. lia. Qed.

Lemma str_app_assoc (a b c : string) : (a +:+ b) +:+ c = a +:+ (b +:+ c).
Proof. induction a as [|x a IH]; simpl; congruence. Qed.

Lemma str_app_nil_r (a : string) : a +:+ "" = a.
Proof. induction a as [|x a IH]; simpl; congruence. Qed.

Lemma str_length_app (a b : string) :
  String.length (a +:+ b) = (String.length a + String.length b)%nat.
Proof. induction a as [|x a IH]; simpl; congruence. Qed.

(** * [strings] *)

(** [s[len(p):]] where [p] is a prefix of [s]. *)
Fixpoint strip_prefix (p s : string) : option string :=
  match p with
  | "" => Some s
  | String c p =>
      match s with
      | "" => None
      | String d s => if Ascii.eqb c d then strip_prefix p s else None
      end
  end.

Definition HasPrefix (s p : string) : bool :=
  match strip_prefix p s with Some _ => true | None => false end.
Definition TrimPrefix (s p : string) : string :=
  match strip_prefix p s with Some r => r | None => s end.

Lemma strip_prefix_app p s : strip_prefix p (p +:+ s) = Some s.
Proof. induction p as [|c p IH]; simpl; [done|]. by rewrite Ascii.eqb_refl. Qed.

Lemma strip_prefix_Some p s r : strip_prefix p s = Some r <-> s = p +:+ r.
Proof.
  split; [|intros ->; apply strip_prefix_app].
  revert s. induction p as [|c p IH]; intros s; simpl; [by intros [= ->]|].
  destruct s as [|d s]; [done|]. case (Ascii.eqb_spec c d); [|done].
  intros <- H. by rewrite (IH s H).
Qed.

(** [strings.IndexByte(s, c)], as the split around the first [c]:
    [strings.Cut(s, sep)] for a one-byte separator. *)
Fixpoint Cut (s : string) (c : ascii) : option (string * string) :=
  match s with
  | "" => None
  | String d s' =>
      if Ascii.eqb d c then Some ("", s')
      else '(l, r) ← Cut s' c; Some (String d l, r)
  end.

Definition Contains (s : string) (c : ascii) : bool :=
  match Cut s c with Some _ => true | None => false end.

(** [strings.Split(s, sep)] for a one-byte separator. *)
Fixpoint Split (s : string) (c : ascii) : list string :=
  match s with
  | "" => [""]
  | String d s' =>
      if Ascii.eqb d c then "" :: Split s' c
      else match Split s' c with w :: ws => String d w :: ws | [] => [String d ""] end
  end.

Fixpoint string_rev_app (s acc : string) : string :=
  match s with "" => acc | String c s => string_rev_app s (String c acc) end.
Definition string_rev (s : string) : string := string_rev_app s "".

(** The encodings of the runes [unicode.IsSpace] accepts. *)
Definition bytes (l : list Z) : string :=
  foldr (fun b s => String (ascii_of_nat (Z.to_nat b)) s) "" l.
Definition space_runes : list string :=
  bytes <$> ([[9]; [10]; [11]; [12]; [13]; [32]; [0xC2; 0x85]; [0xC2; 0xA0]; [0xE1; 0x9A; 0x80]]
    ++ ((fun i => [0xE2; 0x80; i]) <$> seqZ 0x80 11)
    ++ [[0xE2; 0x80; 0xA8]; [0xE2; 0x80; 0xA9]; [0xE2; 0x80; 0xAF]; [0xE2; 0x81; 0x9F];
        [0xE3; 0x80; 0x80]]).

(** Drops one of [ps] from the front of [s]. *)
Fixpoint strip_one (ps : list string) (s : string) : option string :=
  match ps with
  | [] => None
  | p :: ps => match strip_prefix p s with Some r => Some r | None => strip_one ps s end
  end.

(** [strings.TrimLeftFunc], [strings.TrimRightFunc] for the spaces [ps]. *)
Fixpoint trim_left (fuel : nat) (ps : list string) (s : string) : string :=
  match fuel with
  | O => s
  | S fuel => match strip_one ps s with Some r => trim_left fuel ps r | None => s end
  end.
Definition TrimLeftSpace (s : string) : string := trim_left (String.length s) space_runes s.
Definition TrimRightSpace (s : string) : string :=
  string_rev (trim_left (String.length s) (string_rev <$> space_runes) (string_rev s)).
Definition TrimSpace (s : string) : string := TrimRightSpace (TrimLeftSpace s).

(** [strings.TrimLeft(s, " \t")]. *)
Fixpoint TrimLeftBlank (s : string) : string :=
  match s with
  | String c s' => if (byte c =? 32) || (byte c =? 9) then TrimLeftBlank s' else s
  | "" => ""
  end.

(** [strings.Fields(s)]: the maximal runs of runes that are not spaces. *)
Fixpoint fields_go (fuel : nat) (cur s : string) : list string :=
  let emit := match cur with "" => [] | _ => [string_rev cur] end in
  match fuel with
  | O => emit
  | S fuel =>
      match strip_one space_runes s with
      | Some r => emit ++ fields_go fuel "" r
      | None => match s with "" => emit | String c s' => fields_go fuel (String c cur) s' end
      end
  end.
Definition Fields (s : string) : list string := fields_go (S (String.length s)) "" s.

(** [strings.ToLower], exact for comparison with an ASCII string: U+0130 and
    U+212A are the only other runes whose lower case is ASCII. *)
Fixpoint ToLower (s : string) : string :=
  match s with
  | "" => ""
  | String c s' =>
      match s' with
      | String d s'' =>
          if (byte c =? 0xC4) && (byte d =? 0xB0) then String "i" (ToLower s'')
          else
            match s'' with
            | String e s''' =>
                if (byte c =? 0xE2) && (byte d =? 0x84) && (byte e =? 0xAA)
                then String "k" (ToLower s''')
                else String (if (65 <=? byte c) && (byte c <=? 90)
                             then ascii_of_nat (Z.to_nat (byte c + 32)) else c) (ToLower s')
            | "" => String (if (65 <=? byte c) && (byte c <=? 90)
                            then ascii_of_nat (Z.to_nat (byte c + 32)) else c) (ToLower s')
            end
      | "" => String (if (65 <=? byte c) && (byte c <=? 90)
                      then ascii_of_nat (Z.to_nat (byte c + 32)) else c) ""
      end
  end.

(** * [strconv] *)

Fixpoint all_digits (s : string) : bool :=
  match s with "" => true | String c s => is_digit c && all_digits s end.

Fixpoint dec_val (acc : Z) (s : string) : Z :=
  match s with "" => acc | String c s => dec_val (10 * acc + digit_val c) s end.

(** The leading digits of [s] and what follows them. *)
Fixpoint span_digits (s : string) : string * string :=
  match s with
  | "" => ("", "")
  | String c s' => if is_digit c then let '(a, b) := span_digits s' in (String c a, b) else ("", s)
  end.

(** [strconv.ParseInt(s, 10, 64)], [strconv.Atoi(s)]: an optional sign, then
    digits only; [None] is a syntax or a range error. *)
Definition ParseInt10 (s : string) : option Z :=
  let '(sign, body) :=
    match s with
    | String c s' => if byte c =? 45 then (-1, s') else if byte c =? 43 then (1, s') else (1, s)
    | "" => (1, s)
    end in
  match body with
  | "" => None
  | _ => if all_digits body then
           let v := sign * dec_val 0 body in
           if bool_decide (in_i64 v) then Some v else None
         else None
  end.
Definition Atoi := ParseInt10.

(** [strconv.FormatInt(n, 10)] for [n >= 0]. *)
Fixpoint format_go (fuel : nat) (n : Z) (acc : string) : string :=
  match fuel with
  | O => acc
  | S fuel =>
      let acc := String (digit_char (n mod 10)) acc in
      if n <? 10 then acc else format_go fuel (n / 10) acc
  end.
Definition FormatNat (n : Z) : string := format_go (S (Z.to_nat (Z.log2 n))) n "".
Definition FormatInt (n : Z) : string :=
  if n <? 0 then String "-" (FormatNat (- n)) else FormatNat n.

(** * Lemmas *)

Lemma dec_val_app acc s t : dec_val acc (s +:+ t) = dec_val (dec_val acc s) t.
Proof. revert acc. induction s as [|c s IH]; intros acc; simpl; [done|]. apply IH. Qed.

Lemma all_digits_app s t : all_digits (s +:+ t) = all_digits s && all_digits t.
Proof. induction s as [|c s IH]; simpl; [done|]. by rewrite IH, andb_assoc. Qed.

Lemma dec_val_nonneg s : forall acc, 0 <= acc -> all_digits s = true -> 0 <= dec_val acc s.
Proof.
  induction s as [|c s IH]; intros acc Ha; simpl; [done|]. intros [Hc Hs]%andb_prop.
  apply IH; [|done]. pose proof (digit_val_range c Hc). lia.
Qed.

Lemma span_digits_spec s :
  let '(a, b) := span_digits s in
  s = a +:+ b /\ all_digits a = true /\
  match b with "" => True | String c _ => is_digit c = false end.
Proof.
  induction s as [|c s IH]; simpl; [done|]. destruct (is_digit c) eqn:E; simpl; [|done].
  destruct (span_digits s) as [a b]. destruct IH as (-> & Ha & Hb). simpl. by rewrite E.
Qed.

Lemma span_digits_app a b : all_digits a = true ->
  match b with "" => True | String c _ => is_digit c = false end ->
  span_digits (a +:+ b) = (a, b).
Proof.
  intros Ha Hb. induction a as [|c a IH]; simpl in *.
  - destruct b as [|d b]; simpl; [done|]. by rewrite Hb.
  - apply andb_prop in Ha as [-> Ha]. by rewrite (IH Ha).
Qed.

Lemma format_go_spec fuel : forall n acc,
  0 <= n < 2 ^ Z.of_nat fuel -> (0 < fuel)%nat ->
  exists ds, format_go fuel n acc = ds +:+ acc /\ all_digits ds = true /\ ds <> "" /\
    forall a, dec_val a ds = a * 10 ^ Z.of_nat (String.length ds) + n.
Proof.
  induction fuel as [|fuel IH]; intros n acc Hn Hf; [lia|]. cbn [format_go].
  pose proof (Z.mod_pos_bound n 10 ltac:(lia)).
  assert (Hd : is_digit (digit_char (n mod 10)) = true) by (apply digit_char_is_digit; lia).
  case (Z.ltb_spec n 10) as [Hlt|Hge].
  - exists (String (digit_char (n mod 10)) ""). split; [done|]. split; [cbn; by rewrite Hd|].
    split; [done|]. intros a. cbn [dec_val String.length]. rewrite digit_val_char by lia.
    rewrite Z.mod_small by lia. change (10 ^ Z.of_nat 1) with 10. lia.
  - rewrite Nat2Z.inj_succ, Z.pow_succ_r in Hn by lia.
    destruct (IH (n / 10) (String (digit_char (n mod 10)) acc)) as (ds & -> & Hds & Hne & Hv).
    { zlia. }
    { destruct fuel; [|lia]. change (2 ^ Z.of_nat 0) with 1 in Hn. lia. }
    exists (ds +:+ String (digit_char (n mod 10)) "").
    split; [by rewrite str_app_assoc|]. split; [rewrite all_digits_app, Hds; cbn; by rewrite Hd|].
    split; [by destruct ds|]. intros a. rewrite dec_val_app, Hv. cbn [dec_val].
    rewrite digit_val_char by lia. rewrite str_length_app. cbn [String.length].
    rewrite Nat.add_comm, Nat2Z.inj_add, Z.pow_add_r by lia.
    change (10 ^ Z.of_nat 1) with 10. zlia.
Qed.

Lemma FormatNat_spec n : 0 <= n ->
  all_digits (FormatNat n) = true /\ FormatNat n <> "" /\ dec_val 0 (FormatNat n) = n.
Proof.
  intros Hn. unfold FormatNat.
  destruct (format_go_spec (S (Z.to_nat (Z.log2 n))) n "") as (ds & -> & Ha & Hne & Hv); [|lia|].
  - split; [done|]. rewrite Nat2Z.inj_succ, Z2Nat.id by apply Z.log2_nonneg.
    destruct (decide (n = 0)) as [->|]; [by vm_compute|].
    pose proof (Z.log2_spec n). replace (Z.succ (Z.log2 n)) with (Z.succ (Z.log2 n)) by lia. lia.
  - rewrite str_app_nil_r. split; [done|]. split; [done|]. by rewrite Hv.
Qed.

Lemma ParseInt10_digits s : s <> "" -> all_digits s = true ->
  ParseInt10 s = if bool_decide (in_i64 (dec_val 0 s)) then Some (dec_val 0 s) else None.
Proof.
  intros Hne Ha. unfold ParseInt10. destruct s as [|c s]; [done|].
  pose proof Ha as Hd. cbn [all_digits] in Hd. apply andb_prop in Hd as [Hc _].
  unfold is_digit in Hc. apply andb_prop in Hc as [?%Z.leb_le ?%Z.leb_le].
  rewrite (proj2 (Z.eqb_neq _ 45)), (proj2 (Z.eqb_neq _ 43)) by lia. rewrite Ha.
  by rewrite Z.mul_1_l.
Qed.

Lemma ParseInt10_FormatNat n : 0 <= n <= max_int64 -> ParseInt10 (FormatNat n) = Some n.
Proof.
  intros Hn. destruct (FormatNat_spec n) as (Ha & Hne & Hv); [lia|].
  rewrite ParseInt10_digits, Hv by done. rewrite bool_decide_true; [done|].
  unfold in_i64, min_int64. lia.
Qed.

Lemma ParseInt10_FormatInt n : in_i64 n -> ParseInt10 (FormatInt n) = Some n.
Proof.
  intros Hn. unfold FormatInt. destruct (Z.ltb_spec n 0); [|apply ParseInt10_FormatNat; unfold in_i64 in Hn; lia].
  destruct (FormatNat_spec (- n)) as (Ha & Hne & Hv); [lia|].
  unfold ParseInt10. change (String "-" "" +:+ FormatNat (- n)) with (String "-" (FormatNat (- n))).
  change (byte "-" =? 45) with true. cbn iota. destruct (FormatNat (- n)) as [|c s] eqn:E; [done|].
  rewrite Ha, Hv. replace (-1 * - n) with n by lia. by rewrite bool_decide_true.
Qed.

Lemma ParseInt10_range s n : ParseInt10 s = Some n -> in_i64 n.
Proof.
  unfold ParseInt10. intros E.
  repeat match type of E with context [match ?x with _ => _ end] => destruct x eqn:?; try discriminate end;
    injection E as <-; by eapply bool_decide_eq_true_1.
Qed.
