(* ===== verification/ErrCode.v ===== *)
(** Engine error codes and the [on_error] pattern matcher:
    internal/errcode/errcode.go and internal/errcode/catchable.go. *)
From Stdlib Require Import ZArith Lia Ascii String.
From S2P Require Import Prelude.
From S2P Require Import GoStrings.
Open Scope string_scope.
Open Scope list_scope.
Open Scope Z_scope.

Module ErrCode.

Definition Code := string.

(** * The codes *)

Definition HTTPTimeout : Code := "http.timeout".
Definition HTTPDisconnected : Code := "http.disconnected".
Definition PreTimeout : Code := "pre.timeout".
Definition PreError : Code := "pre.error".
Definition ResultParse : Code := "result.parse".
Definition ResultTooLarge : Code := "result.too_large".
Definition ResultInvalid : Code := "result.invalid".
Definition ExternalTimeout : Code := "external.timeout".
Definition ExternalLost : Code := "external.lost".
Definition OnlyOnceInterrupted : Code := "only_once.interrupted".

Definition EngineDefinition : Code := "engine.definition".
Definition EngineExpression : Code := "engine.expression".
Definition EngineConfig : Code := "engine.config".
Definition EngineInput : Code := "engine.input".
Definition EngineOutput : Code := "engine.output".
Definition EngineSpawn : Code := "engine.spawn".
Definition EngineCollect : Code := "engine.collect".
Definition EnginePanic : Code := "engine.panic".

(** [HTTP(500) == "http.500"]. *)
Definition HTTP (status : Z) : Code := "http." +:+ FormatInt status.

Definition NotReached : string := "pre.".
Definition IsNotReached (c : Code) : bool := HasPrefix c NotReached.

Definition unknowable : list Code :=
  [OnlyOnceInterrupted; HTTPTimeout; HTTPDisconnected; ExternalTimeout; ExternalLost].
Definition IsUnknowable (c : Code) : bool := existsb (fun u => String.eqb c u) unknowable.

(** * Which task reports a code *)

Definition Kind := Z.
Definition KindFetch : Kind := 1.
Definition KindExternal : Kind := 2.
Definition KindChild : Kind := 4.
Definition KindOnlyOnce : Kind := 8.

Record Info := mkInfo { info_code : Code; info_kinds : Kind }.

Definition catchable : list Info := [
  mkInfo HTTPTimeout KindFetch;
  mkInfo HTTPDisconnected KindFetch;
  mkInfo PreTimeout KindFetch;
  mkInfo PreError KindFetch;
  mkInfo ResultParse KindFetch;
  mkInfo ResultTooLarge KindFetch;
  mkInfo ResultInvalid (Z.lor KindFetch KindChild);
  mkInfo ExternalTimeout KindExternal;
  mkInfo ExternalLost KindExternal;
  mkInfo OnlyOnceInterrupted KindOnlyOnce].

(** The entries whose mask meets [kinds], in order. *)
Fixpoint filter_kinds (kinds : Kind) (l : list Info) : list Info :=
  match l with
  | [] => []
  | i :: l => if negb (Z.land (info_kinds i) kinds =? 0) then i :: filter_kinds kinds l
              else filter_kinds kinds l
  end.
Definition Catchable (kinds : Kind) : list Info := filter_kinds kinds catchable.

Definition terminal : list Info :=
  (fun c => mkInfo c 0) <$> [EngineDefinition; EngineExpression; EngineConfig; EngineInput;
    EngineOutput; EngineSpawn; EngineCollect; EnginePanic].
Definition Terminal : list Info := terminal.

(** [append(Catchable(^Kind(0)), terminal...)], [Kind] being a [uint8]. *)
Definition All : list Info := Catchable 255 ++ terminal.

Definition Names (k : Kind) : list string :=
  snd <$> List.filter (fun e => negb (Z.land k e.1 =? 0))
    [(KindFetch, "fetch"); (KindExternal, "external"); (KindChild, "child");
     (KindOnlyOnce, "only_once")].

(** * [MatchCode] *)

(** [for i := 0; i <= len(s); i++ { if f(s[i:]) { return true } }]. *)
Fixpoint any_suffix (f : string -> bool) (s : string) : bool :=
  f s || match s with "" => false | String _ s' => any_suffix f s' end.

Fixpoint MatchCode (p s : string) : bool :=
  match p with
  | "" => match s with "" => true | _ => false end
  | String c p' =>
      if Ascii.eqb c "%" then
        match p' with "" => true | _ => any_suffix (MatchCode p') s end
      else
        match s with
        | "" => false
        | String d s' => if Ascii.eqb c d then MatchCode p' s' else false
        end
  end.

(** What a pattern means: [%] stands for any string, any other byte for itself. *)
Inductive glob : string -> string -> Prop :=
  | glob_nil : glob "" ""
  | glob_any p u s : glob p s -> glob (String "%" p) (u +:+ s)
  | glob_lit c p s : c <> "%"%char -> glob p s -> glob (String c p) (String c s).

(** * Lemmas *)

Lemma any_suffix_spec f s :
  any_suffix f s = true <-> exists u t, s = u +:+ t /\ f t = true.
Proof.
  induction s as [|c s IH]; cbn [any_suffix].
  - rewrite orb_false_r. split; [by exists "", ""|].
    intros ([|? ?] & t & [= ] & ?); simpl in *; congruence.
  - rewrite orb_true_iff, IH. split.
    + intros [H|(u & t & -> & H)]; [by exists "", (String c s)|by exists (String c u), t].
    + intros ([|d u] & t & E & H); simpl in E; [left; by subst t|right].
      injection E as -> ->. by exists u, t.
Qed.

Lemma glob_pct_inv p s : glob (String "%" p) s -> exists u t, s = u +:+ t /\ glob p t.
Proof. inversion 1; subst; [eauto|done]. Qed.

Lemma glob_all s : glob "%" s.
Proof. rewrite <- (str_app_nil_r s). apply glob_any, glob_nil. Qed.

Lemma MatchCode_glob p : forall s, MatchCode p s = true <-> glob p s.
Proof.
  induction p as [|c p IH]; intros s; cbn [MatchCode].
  - destruct s; split; try done; [intros; apply glob_nil|inversion 1].
  - case (Ascii.eqb_spec c "%") as [->|Hne].
    + assert (A : any_suffix (MatchCode p) s = true <-> glob (String "%" p) s).
      { rewrite any_suffix_spec. split.
        - intros (u & t & -> & H%IH). by apply glob_any.
        - intros (u & t & -> & H%IH)%glob_pct_inv. by exists u, t. }
      destruct p as [|d p]; [|exact A]. split; [intros; apply glob_all|done].
    + destruct s as [|d s]; [split; [done|inversion 1; done]|].
      case (Ascii.eqb_spec c d) as [<-|Hd].
      * rewrite IH. split; [by apply glob_lit|]. by inversion 1.
      * split; [done|]. inversion 1; congruence.
Qed.

(** * Properties *)

(** [MatchCode] decides exactly the glob meaning of a pattern: [%] matches any
    run of bytes, the empty one included, and every other byte only itself. *)
Theorem MatchCode_spec p s : MatchCode p s = true <-> glob p s.
Proof. apply MatchCode_glob. Qed.

(** The classification of codes is coherent: every code is listed once over
    [All]; [Catchable] of every kind is exactly the catchable table and no
    terminal code is in it for any mask; the unknowable codes are catchable and
    none of them is a not-reached ([pre.]) code. *)
Theorem code_classes_coherent :
  NoDup (info_code <$> All) /\ Catchable 255 = catchable /\
  (forall k i, i ∈ Catchable k -> i ∈ catchable /\ info_code i ∉ (info_code <$> Terminal)) /\
  (forall c, IsUnknowable c = true ->
    c ∈ (info_code <$> catchable) /\ IsNotReached c = false).
Proof.
  split; [by apply (bool_decide_unpack (NoDup (info_code <$> All))); vm_compute|].
  split; [done|]. split.
  - intros k i Hi. assert (Hc : i ∈ catchable).
    { unfold Catchable in Hi. revert Hi. generalize catchable. intros l.
      induction l as [|j l IH]; cbn [filter_kinds]; [done|].
      destruct (negb _); rewrite ?elem_of_cons; [intros [->|]|]; auto. }
    split; [done|]. clear Hi. revert i Hc. apply Forall_forall.
    apply (bool_decide_unpack _). by vm_compute.
  - intros c Hc. unfold IsUnknowable in Hc. apply existsb_exists in Hc as (u & Hu & E).
    apply String.eqb_eq in E as ->. apply list_elem_of_In in Hu. revert u Hu.
    apply Forall_forall. apply (bool_decide_unpack _). by vm_compute.
Qed.
End ErrCode.
