(* ===== verification/StatusPattern.v ===== *)
(** HTTP status patterns and the choice of a response declaration:
    internal/model/status.go, with the duplicate check of [validateResponses]
    (internal/model/validate.go) that makes the choice well defined. *)
From Stdlib Require Import ZArith Lia Ascii String Permutation.
From stdpp Require Import sorting.
From S2P Require Import Prelude.
From S2P Require Import GoStrings.
Open Scope string_scope.
Open Scope list_scope.
Open Scope Z_scope.

Module StatusPattern.

(** * Definitions *)

(** [len(p) == 3 && p[1] == 'x' && p[2] == 'x'], giving [p[0]]. *)
Definition range_head (p : string) : option ascii :=
  match p with
  | String a (String b (String c "")) =>
      if Ascii.eqb b "x" && Ascii.eqb c "x" then Some a else None
  | _ => None
  end.

Definition ValidStatusPattern (p : string) : bool :=
  if negb (String.length p =? 3)%nat then false
  else match range_head p with
       | Some a => (49 <=? byte a) && (byte a <=? 53)
       | None => all_digits p
       end.

Definition MatchStatusPattern (p : string) (code : Z) : bool :=
  match range_head p with
  | Some a => let hundreds := ((byte a - 48) mod 256) * 100 in
              (hundreds <=? code) && (code <=? hundreds + 99)
  | None => match Atoi p with Some n => n =? code | None => false end
  end.

Definition MatchAnyStatus (code : Z) (patterns : list string) : bool :=
  match patterns with
  | [] => (200 <=? code) && (code <=? 299)
  | _ => existsb (fun p => MatchStatusPattern p code) patterns
  end.

Definition IsSuccessPattern (p : string) : bool :=
  match range_head p with
  | Some a => Ascii.eqb a "2"
  | None => match Atoi p with Some n => (200 <=? n) && (n <=? 299) | None => false end
  end.

Definition patternWidth (p : string) : Z :=
  match range_head p with Some _ => 100 | None => 1 end.

Inductive key_error :=
  | EmptyPattern
  | NotAPattern (p : string)
  | ListedTwice (p : string)
  | MixedKey (first p : string).

(** The first loop of [ParseResponseKey]; [out] holds what is read so far. *)
Fixpoint parse_parts (parts : list string) (out : list string) : result key_error (list string) :=
  match parts with
  | [] => Ok out
  | part :: parts =>
      let p := TrimSpace part in
      if String.eqb p "" then Err EmptyPattern
      else if negb (ValidStatusPattern p) then Err (NotAPattern p)
      else if bool_decide (p ∈ out) then Err (ListedTwice p)
      else parse_parts parts (out ++ [p])
  end.

(** Its second loop. *)
Fixpoint check_mixed (first : string) (out : list string) : result key_error unit :=
  match out with
  | [] => Ok ()
  | p :: out =>
      if Bool.eqb (IsSuccessPattern p) (IsSuccessPattern first) then check_mixed first out
      else Err (MixedKey first p)
  end.

Definition ParseResponseKey (key : string) : result key_error (list string) :=
  out ← parse_parts (Split key ",") [];
  match out with
  | [] => Ok out
  | first :: _ => _ ← check_mixed first out; Ok out
  end.

#[local] Arguments ParseResponseKey : simpl never.

Section Responses.
(** A schema document; [None] is the nil schema of a "no body" entry. *)
Context {Sch : Type}.
Implicit Types rs : list (string * option Sch).

(** The innermost statement: [p] of [key]'s list against the best so far. *)
Definition consider (code : Z) (sc : option Sch) (best : option (string * Z * option Sch))
    (p : string) : option (string * Z * option Sch) :=
  if negb (MatchStatusPattern p code) then best
  else match best with
       | None => Some (p, patternWidth p, sc)
       | Some (_, w, _) => if patternWidth p <? w then Some (p, patternWidth p, sc) else best
       end.

Definition response_step (code : Z) (best : option (string * Z * option Sch))
    (e : string * option Sch) : option (string * Z * option Sch) :=
  match ParseResponseKey e.1 with
  | Err _ => best
  | Ok patterns => foldl (consider code e.2) best patterns
  end.

(** [rs] is the map's entries in the order the range statement visits them. *)
Definition ResponseFor (rs : list (string * option Sch)) (code : Z) : option Sch * bool :=
  match foldl (response_step code) None rs with
  | Some (_, _, sc) => (sc, true)
  | None => (None, false)
  end.

Definition SuccessPatterns (rs : list (string * option Sch)) : list string :=
  merge_sort String.le
    (rs ≫= fun e => match ParseResponseKey e.1 with
                    | Err _ => []
                    | Ok patterns => List.filter IsSuccessPattern patterns
                    end).

Definition EffectiveAcceptedStatus rs (resolved : list string) : list string :=
  match resolved with [] => SuccessPatterns rs | _ => resolved end.

Inductive responses_error :=
  | BadKey (key : string) (e : key_error)
  | DeclaredTwice (p key : string).

(** The key checks of [validateResponses], over the keys in sorted order. *)
Fixpoint check_keys (keys : list string) (owner : list string) : result responses_error unit :=
  match keys with
  | [] => Ok ()
  | key :: keys =>
      patterns ← map_err (BadKey key) (ParseResponseKey key);
      match List.find (fun p => bool_decide (p ∈ owner)) patterns with
      | Some p => Err (DeclaredTwice p key)
      | None => check_keys keys (owner ++ patterns)
      end
  end.

Definition validateResponses rs : result responses_error unit :=
  check_keys (merge_sort String.le (fst <$> rs)) [].
End Responses.

(** * Lemmas *)

Lemma parse_parts_spec parts : forall out ps,
  NoDup out -> Forall (fun p => ValidStatusPattern p = true) out ->
  parse_parts parts out = Ok ps ->
  NoDup ps /\ Forall (fun p => ValidStatusPattern p = true) ps /\
  length ps = (length out + length parts)%nat.
Proof.
  induction parts as [|part parts IH]; intros out ps Hn Hv; cbn [parse_parts].
  { intros [= <-]. cbn. split; [done|]. split; [done|lia]. }
  destruct (String.eqb _ _); [done|]. destruct (ValidStatusPattern _) eqn:V; [|done].
  case_bool_decide as D; [done|]. cbn [negb]. intros (? & ? & E)%IH.
  - split; [done|]. split; [done|]. rewrite length_app in E. cbn in *. lia.
  - apply NoDup_app. split; [done|]. split; [set_solver|]. apply NoDup_singleton.
  - apply Forall_app. split; [done|]. by constructor.
Qed.

Lemma check_mixed_spec first out :
  check_mixed first out = Ok () <->
  Forall (fun p => IsSuccessPattern p = IsSuccessPattern first) out.
Proof.
  induction out as [|p out IH]; cbn [check_mixed]; [by split; [constructor|]|].
  destruct (Bool.eqb _ _) eqn:E.
  - rewrite IH, Forall_cons. apply eqb_prop in E. tauto.
  - rewrite Forall_cons. apply eqb_false_iff in E. split; [done|tauto].
Qed.

Lemma Split_length s c : (1 <= length (Split s c))%nat.
Proof.
  induction s as [|d s IH]; simpl; [lia|]. destruct (Ascii.eqb d c); simpl; [lia|].
  destruct (Split s c); simpl in *; lia.
Qed.

Lemma ParseResponseKey_Ok key ps : ParseResponseKey key = Ok ps ->
  ps <> [] /\ NoDup ps /\ Forall (fun p => ValidStatusPattern p = true) ps /\
  forall p q, p ∈ ps -> q ∈ ps -> IsSuccessPattern p = IsSuccessPattern q.
Proof.
  unfold ParseResponseKey. intros (out & E & H)%bind_Ok.
  apply parse_parts_spec in E as (Hn & Hv & Hl); [|constructor|constructor].
  pose proof (Split_length key ","). destruct out as [|f out]; cbn in Hl; [lia|].
  apply bind_Ok in H as ([] & C & [= <-]). apply check_mixed_spec in C.
  rewrite Forall_forall in C. split; [done|]. split; [done|]. split; [done|].
  intros p q Hp Hq. by rewrite (C p Hp), (C q Hq).
Qed.

(** A valid pattern read as the statuses it covers. *)
Lemma valid_cases p : ValidStatusPattern p = true ->
  (exists d, 1 <= d <= 5 /\ p = String (digit_char d) "xx") \/
  (exists a b c, p = String a (String b (String c "")) /\ range_head p = None /\
     is_digit a = true /\ is_digit b = true /\ is_digit c = true).
Proof.
  unfold ValidStatusPattern. destruct p as [|a [|b [|c [|]]]]; try done. simpl.
  destruct (Ascii.eqb b "x" && Ascii.eqb c "x") eqn:E.
  - apply andb_prop in E as [->%Ascii.eqb_eq ->%Ascii.eqb_eq].
    intros [?%Z.leb_le ?%Z.leb_le]%andb_prop. left. exists (byte a - 48). split; [lia|].
    unfold digit_char. replace (48 + (byte a - 48)) with (byte a) by lia. unfold byte.
    by rewrite Nat2Z.id, ascii_nat_embedding.
  - rewrite !andb_true_iff. intros (? & ? & ? & _). right. exists a, b, c. done.
Qed.

Lemma exact_value a b c : is_digit a = true -> is_digit b = true -> is_digit c = true ->
  Atoi (String a (String b (String c ""))) =
    Some (100 * digit_val a + 10 * digit_val b + digit_val c).
Proof.
  intros Ha Hb Hc. unfold Atoi. rewrite ParseInt10_digits; [|done|simpl; by rewrite Ha, Hb, Hc].
  pose proof (digit_val_range a Ha). pose proof (digit_val_range b Hb).
  pose proof (digit_val_range c Hc). cbn [dec_val].
  replace (10 * (10 * (10 * 0 + digit_val a) + digit_val b) + digit_val c)
    with (100 * digit_val a + 10 * digit_val b + digit_val c) by lia.
  rewrite bool_decide_true; [done|]. unfold in_i64, min_int64, max_int64. lia.
Qed.

Lemma digit_val_inj a b : is_digit a = true -> is_digit b = true ->
  digit_val a = digit_val b -> a = b.
Proof.
  unfold digit_val, byte. intros _ _ E. 
  rewrite <- (ascii_nat_embedding a), <- (ascii_nat_embedding b). f_equal. lia.
Qed.

Lemma range_head_xx d : range_head (String d "xx") = Some d.
Proof. done. Qed.

(** Two valid patterns of one width that cover one status are the same. *)
Lemma same_width_same_pattern p q code :
  ValidStatusPattern p = true -> ValidStatusPattern q = true ->
  MatchStatusPattern p code = true -> MatchStatusPattern q code = true ->
  patternWidth p = patternWidth q -> p = q.
Proof.
  intros Vp Vq. unfold MatchStatusPattern, patternWidth.
  destruct (valid_cases p Vp) as [(d & Hd & ->)|(a & b & c & -> & -> & Ha & Hb & Hc)],
    (valid_cases q Vq) as [(e & He & ->)|(a' & b' & c' & -> & -> & Ha' & Hb' & Hc')];
    rewrite ?range_head_xx; try done.
  - rewrite !byte_digit_char, !Z.mod_small by lia.
    rewrite !andb_true_iff, !Z.leb_le. intros ? ? _. by replace e with d by lia.
  - rewrite !exact_value by done. rewrite !Z.eqb_eq. intros E E' _.
    pose proof (digit_val_range a Ha). pose proof (digit_val_range b Hb).
    pose proof (digit_val_range c Hc). pose proof (digit_val_range a' Ha').
    pose proof (digit_val_range b' Hb'). pose proof (digit_val_range c' Hc').
    rewrite (digit_val_inj a a'), (digit_val_inj b b'), (digit_val_inj c c'); done || lia.
Qed.

(** ** The declarations as one list *)

Section Declarations.
Context {Sch : Type}.
Implicit Types rs : list (string * option Sch).

Definition decls rs : list (string * option Sch) :=
  rs ≫= fun e => match ParseResponseKey e.1 with
                 | Ok ps => (fun p => (p, e.2)) <$> ps
                 | Err _ => []
                 end.

(** The best of the declarations that cover [code]. *)
Definition best_of (code : Z) (ds : list (string * option Sch))
    (best : option (string * Z * option Sch)) : Prop :=
  match best with
  | None => Forall (fun d => MatchStatusPattern d.1 code = false) ds
  | Some (p, w, sc) =>
      (p, sc) ∈ ds /\ MatchStatusPattern p code = true /\ w = patternWidth p /\
      Forall (fun d => MatchStatusPattern d.1 code = true -> w <= patternWidth d.1) ds
  end.

Lemma consider_best code sc ds best p :
  best_of code ds best -> best_of code (ds ++ [(p, sc)]) (consider code sc best p).
Proof.
  unfold consider. destruct (MatchStatusPattern p code) eqn:M; cbn [negb].
  - destruct best as [[[q w] sc']|]; cbn.
    + intros (Hq & Mq & -> & F). case (Z.ltb_spec (patternWidth p) (patternWidth q)) as [L|L].
      * split; [set_solver|]. split; [done|]. split; [done|].
        apply Forall_app. split; [|by repeat constructor].
        eapply Forall_impl; [exact F|]. cbn. intros d Hd Md. specialize (Hd Md). lia.
      * split; [set_solver|]. split; [done|]. split; [done|].
        apply Forall_app. split; [done|]. by repeat constructor.
    + intros F. split; [set_solver|]. split; [done|]. split; [done|].
      apply Forall_app. split; [|by repeat constructor].
      eapply Forall_impl; [exact F|]. cbn. congruence.
  - destruct best as [[[q w] sc']|]; cbn.
    + intros (Hq & Mq & -> & F). split; [set_solver|]. split; [done|]. split; [done|].
      apply Forall_app. split; [done|]. repeat constructor. cbn. congruence.
    + intros F. apply Forall_app. split; [done|]. by repeat constructor.
Qed.

Lemma response_fold_best code rs : forall ds best,
  best_of code ds best -> best_of code (ds ++ decls rs) (foldl (response_step code) best rs).
Proof.
  induction rs as [|[key sc] rs IH]; intros ds best H; [by rewrite app_nil_r|].
  cbn [foldl decls mbind list_bind]. fold (decls rs). rewrite app_assoc. apply IH.
  unfold response_step. cbn [fst snd].
  destruct (ParseResponseKey key) as [ps|e]; [|by rewrite app_nil_r].
  revert ds best H. induction ps as [|p ps IHp]; intros ds best H; [by rewrite app_nil_r|].
  cbn [foldl fmap list_fmap].
  replace (ds ++ (p, sc) :: ((fun p => (p, sc)) <$> ps))
    with ((ds ++ [(p, sc)]) ++ ((fun p => (p, sc)) <$> ps)) by by rewrite <- app_assoc.
  apply IHp. by apply consider_best.
Qed.

Lemma decls_valid rs d : d ∈ decls rs -> ValidStatusPattern d.1 = true.
Proof.
  unfold decls. rewrite list_elem_of_bind. intros ([key sc] & Hd & _). cbn in Hd.
  destruct (ParseResponseKey key) as [ps|] eqn:E; [|by apply elem_of_nil in Hd].
  apply ParseResponseKey_Ok in E as (_ & _ & V & _). rewrite Forall_forall in V.
  apply list_elem_of_fmap in Hd as (p & -> & Hp). by apply V.
Qed.

Lemma best_of_unique code ds b b' :
  (forall d, d ∈ ds -> ValidStatusPattern d.1 = true) -> NoDup ds.*1 ->
  best_of code ds b -> best_of code ds b' -> b = b'.
Proof.
  intros V N. destruct b as [[[p w] sc]|], b' as [[[p' w'] sc']|]; cbn.
  - intros (Hp & M & -> & F) (Hp' & M' & -> & F'). rewrite Forall_forall in *.
    pose proof (F _ Hp' M'). pose proof (F' _ Hp M). cbn in *.
    assert (p = p') as <-.
    { apply (same_width_same_pattern p p' code);
        [apply (V _ Hp)|apply (V _ Hp')|done|done|lia]. }
    do 2 f_equal. clear -N Hp Hp'. induction ds as [|[q s] ds IH]; [set_solver|].
    cbn in N. apply NoDup_cons in N as [Hq N].
    apply elem_of_cons in Hp as [E1|Hp], Hp' as [E2|Hp']; simplify_eq; try done.
    + destruct Hq. apply list_elem_of_fmap. by exists (q, sc').
    + destruct Hq. apply list_elem_of_fmap. by exists (q, sc).
    + by apply IH.
  - intros (Hp & M & _) F. rewrite Forall_forall in F. specialize (F _ Hp). cbn in F. congruence.
  - intros F (Hp & M & _). rewrite Forall_forall in F. specialize (F _ Hp). cbn in F. congruence.
  - done.
Qed.

(** What the key check of [validateResponses] establishes. *)
Lemma check_keys_spec keys : forall owner,
  NoDup owner -> check_keys keys owner = Ok () ->
  NoDup (owner ++ (keys ≫= fun key =>
    match ParseResponseKey key with Ok ps => ps | Err _ => [] end)).
Proof.
  induction keys as [|key keys IH]; intros owner Hn; [by rewrite app_nil_r|].
  cbn [check_keys]. intros (ps & E & H)%bind_Ok. apply map_err_Ok in E.
  destruct (List.find _ ps) eqn:Fd; [done|].
  cbn [mbind list_bind]. rewrite E, app_assoc. apply IH; [|done].
  apply ParseResponseKey_Ok in E as (_ & Np & _).
  apply NoDup_app. split; [done|]. split; [|done]. intros p Ho Hp.
  apply list_elem_of_In in Hp. pose proof (List.find_none _ _ Fd p Hp) as Hb.
  cbv beta in Hb. by rewrite bool_decide_true in Hb.
Qed.

Lemma decls_patterns rs : (decls rs).*1 =
  (rs.*1 ≫= fun key => match ParseResponseKey key with Ok ps => ps | Err _ => [] end).
Proof.
  induction rs as [|[key sc] rs IH]; [done|].
  cbn [decls mbind list_bind fmap list_fmap fst snd]. fold (decls rs). rewrite fmap_app, IH.
  f_equal. destruct (ParseResponseKey key) as [ps|]; [|done].
  rewrite <- list_fmap_compose. by apply list_fmap_id.
Qed.

Lemma validateResponses_spec rs : validateResponses rs = Ok () -> NoDup (decls rs).*1.
Proof.
  unfold validateResponses. intros H%check_keys_spec; [|constructor]. cbn in H.
  rewrite decls_patterns. by rewrite (merge_sort_Permutation String.le) in H.
Qed.
End Declarations.

(** * Properties *)

(** A key that parses is a non-empty list of distinct, valid patterns that all
    fall on one side of success. *)
Theorem ParseResponseKey_sound key ps : ParseResponseKey key = Ok ps ->
  ps <> [] /\ NoDup ps /\ Forall (fun p => ValidStatusPattern p = true) ps /\
  forall p q, p ∈ ps -> q ∈ ps -> IsSuccessPattern p = IsSuccessPattern q.
Proof. apply ParseResponseKey_Ok. Qed.

Lemma ParseResponseKey_sound_witness :
  ParseResponseKey "404, 5xx" = Ok ["404"; "5xx"] /\ NoDup ["404"; "5xx"].
Proof.
  split; [by vm_compute|]. by apply (ParseResponseKey_sound "404, 5xx"); vm_compute.
Defined.

(** [IsSuccessPattern] says of a valid pattern whether every status it covers is
    a 2xx. *)
Theorem IsSuccessPattern_spec p : ValidStatusPattern p = true ->
  (IsSuccessPattern p = true <->
   forall code, MatchStatusPattern p code = true -> 200 <= code <= 299).
Proof.
  intros V. unfold IsSuccessPattern, MatchStatusPattern.
  destruct (valid_cases p V) as [(d & Hd & ->)|(a & b & c & -> & -> & Ha & Hb & Hc)].
  - rewrite range_head_xx, byte_digit_char, Z.mod_small by lia.
    rewrite Ascii.eqb_eq. split.
    + intros E code. apply (f_equal byte) in E. rewrite byte_digit_char in E by lia.
      change (byte "2") with 50 in E. rewrite andb_true_iff, !Z.leb_le. lia.
    + intros H. specialize (H (d * 100)). rewrite andb_true_iff, !Z.leb_le in H.
      replace d with 2 by lia. done.
  - rewrite exact_value by done. rewrite andb_true_iff, !Z.leb_le. split.
    + intros H code. rewrite Z.eqb_eq. lia.
    + intros H. apply H. by rewrite Z.eqb_eq.
Qed.

Lemma IsSuccessPattern_spec_witness :
  ValidStatusPattern "2xx" = true /\
  (forall code, MatchStatusPattern "2xx" code = true -> 200 <= code <= 299).
Proof. split; [done|]. by apply (IsSuccessPattern_spec "2xx"). Defined.

(** On a declaration that passed registration the schema chosen for a status does
    not depend on the order the map is visited in: every permutation of the entries
    gives the same answer, the narrowest pattern covering the status. *)
Theorem ResponseFor_order_independent {Sch} (rs rs' : list (string * option Sch)) code :
  validateResponses rs = Ok () -> Permutation rs rs' ->
  ResponseFor rs' code = ResponseFor rs code.
Proof.
  intros Hv Hp. unfold ResponseFor.
  pose proof (response_fold_best code rs [] None ltac:(constructor)) as B.
  pose proof (response_fold_best code rs' [] None ltac:(constructor)) as B'. cbn in B, B'.
  assert (Hd : Permutation (decls rs) (decls rs')) by (unfold decls; by rewrite Hp).
  assert (E : foldl (response_step code) None rs' = foldl (response_step code) None rs).
  { apply (best_of_unique code (decls rs)); [apply decls_valid|by apply validateResponses_spec| |done].
    revert B'. unfold best_of. destruct (foldl _ None rs') as [[[p w] sc]|]; by rewrite Hd. }
  by rewrite E.
Qed.

Lemma ResponseFor_order_independent_witness :
  ResponseFor [("404", None); ("4xx, 500", Some 7%nat)] 404 = (None, true) /\
  ResponseFor [("404", None); ("4xx, 500", Some 7%nat)] 404 =
  ResponseFor [("4xx, 500", Some 7%nat); ("404", None)] 404.
Proof.
  split; [by vm_compute|].
  apply (ResponseFor_order_independent [("4xx, 500", Some 7%nat); ("404", None)]);
    [by vm_compute|]. apply perm_swap.
Defined.
End StatusPattern.
