(* ===== verification/GoTime.v ===== *)
(** The parts of Go's [time] package the delay grammar uses: the proleptic
    Gregorian calendar, instants shown in a location, [time.Date] and
    [time.Parse] for the layouts the program passes.

    An instant is a number of nanoseconds since the Unix epoch.  A location is
    what the zone database says about each second: the offset in force and the
    interval it is in force for; the database itself is data of the host, so the
    locations it holds are parameters. Calendar arithmetic is over unbounded
    integers: it is exact for the years an [int64] of seconds reaches. *)
From Stdlib Require Import ZArith Lia Ascii String.
From S2P Require Import Prelude.
From S2P Require Import GoStrings.
Open Scope string_scope.
Open Scope list_scope.
Open Scope Z_scope.

Module GoTime.

(** * The calendar *)

(** Days since 1970-01-01 of the day [d] of month [m] of year [y]; any [d]. *)
Definition days_from_civil (y m d : Z) : Z :=
  let y' := if m <=? 2 then y - 1 else y in
  let era := y' / 400 in
  let yoe := y' mod 400 in
  let doy := (153 * ((m + 9) mod 12) + 2) / 5 + d - 1 in
  era * 146097 + (yoe * 365 + yoe / 4 - yoe / 100 + doy) - 719468.

Definition civil_from_days (days : Z) : Z * Z * Z :=
  let z := days + 719468 in
  let era := z / 146097 in
  let doe := z mod 146097 in
  let yoe := (doe - doe / 1460 + doe / 36524 - doe / 146096) / 365 in
  let doy := doe - (365 * yoe + yoe / 4 - yoe / 100) in
  let mp := (5 * doy + 2) / 153 in
  let d := doy - (153 * mp + 2) / 5 + 1 in
  let m := if mp <? 10 then mp + 3 else mp - 9 in
  (yoe + era * 400 + (if m <=? 2 then 1 else 0), m, d).

Definition is_leap (y : Z) : bool :=
  (y mod 4 =? 0) && (negb (y mod 100 =? 0) || (y mod 400 =? 0)).
Definition days_in_month (y m : Z) : Z :=
  if m =? 2 then if is_leap y then 29 else 28
  else if (m =? 4) || (m =? 6) || (m =? 9) || (m =? 11) then 30 else 31.

Definition valid_date (y m d : Z) : Prop := 1 <= m <= 12 /\ 1 <= d <= days_in_month y m.

(** * Durations *)

Definition Nanosecond : Z := 1.
Definition Millisecond : Z := 1000000.
Definition Second : Z := 1000000000.
Definition Minute : Z := 60 * Second.
Definition Hour : Z := 60 * Minute.

(** * Locations and instants *)

Record zone := mkZone { z_off : Z; z_start : Z; z_end : Z }.

(** [Location.lookup(sec)]. *)
Record Location := mkLocation { lookup_zone : Z -> zone }.

Definition FixedZone (off : Z) : Location :=
  mkLocation (fun _ => mkZone off min_int64 max_int64).
Definition UTC : Location := FixedZone 0.

(** What a database entry satisfies: an interval holds the second it was looked
    up for, and one offset over all of it. *)
Definition location_ok (l : Location) : Prop :=
  (forall t, min_int64 <= t < max_int64 ->
     z_start (lookup_zone l t) <= t < z_end (lookup_zone l t)) /\
  forall t t', z_start (lookup_zone l t) <= t' < z_end (lookup_zone l t) ->
     z_off (lookup_zone l t') = z_off (lookup_zone l t).

Record Time := mkTime { ns : Z; loc : Location }.

Definition unix (t : Time) : Z := ns t / Second.
Definition In (t : Time) (l : Location) : Time := mkTime (ns t) l.
Definition Add (t : Time) (d : Z) : Time := mkTime (ns t + d) (loc t).
Definition Sub (a b : Time) : Z := ns a - ns b.
Definition After (a b : Time) : bool := ns b <? ns a.
Definition Before (a b : Time) : bool := ns a <? ns b.
Definition Truncate (t : Time) (d : Z) : Time := mkTime (ns t - ns t mod d) (loc t).

(** The offset [t.Zone()] reports. *)
Definition ZoneOffset (t : Time) : Z := z_off (lookup_zone (loc t) (unix t)).

(** Seconds since the epoch as the wall clock of [t]'s location shows them. *)
Definition wall (t : Time) : Z := unix t + ZoneOffset t.

Definition DateOf (t : Time) : Z * Z * Z := civil_from_days (wall t / 86400).
Definition Year (t : Time) : Z := (DateOf t).1.1.
Definition Month (t : Time) : Z := (DateOf t).1.2.
Definition Day (t : Time) : Z := (DateOf t).2.
Definition Clock (t : Time) : Z * Z * Z :=
  let s := wall t mod 86400 in (s / 3600, s / 60 mod 60, s mod 60).
Definition Weekday (t : Time) : Z := (wall t / 86400 + 4) mod 7.

(** The seconds since the epoch the fields name when read as UTC; a field out of
    its range carries into the next. *)
Definition wall_of (year month day hour min sec : Z) : Z :=
  let m := month - 1 in
  (days_from_civil (year + m / 12) (m mod 12 + 1) 1 + (day - 1)) * 86400
  + hour * 3600 + min * 60 + sec.

(** [time.Date]'s choice of instant for a wall clock: try the offset in force at
    the wall clock read as UTC, and look again if that lands in another zone. *)
Definition from_wall (l : Location) (w : Z) : Z :=
  let z := lookup_zone l w in
  if z_off z =? 0 then w
  else
    let utc := w - z_off z in
    let off := if (utc <? z_start z) || (z_end z <=? utc)
               then z_off (lookup_zone l utc) else z_off z in
    w - off.

Definition Date (year month day hour min sec nsec : Z) (l : Location) : Time :=
  mkTime (from_wall l (wall_of year month day hour min sec) * Second + nsec) l.

(** * [time.Parse] *)

Inductive chunk :=
  | Lit (c : ascii) | Year4 | Month2 | Day2 | HourN | Min2 | Sec2 | Frac9 | ZoneISO.

Record fields_read := mkFields {
  f_year : Z; f_month : Z; f_day : Z; f_hour : Z; f_min : Z; f_sec : Z; f_nsec : Z;
  f_zone : Z }.
Definition no_fields : fields_read := mkFields 0 1 1 0 0 0 0 0.

(** [getnum(s, fixed)]. *)
Definition getnum (s : string) (fixed : bool) : option (Z * string) :=
  match s with
  | String a s' =>
      if negb (is_digit a) then None
      else match s' with
           | String b s'' =>
               if is_digit b then Some (10 * digit_val a + digit_val b, s'')
               else if fixed then None else Some (digit_val a, s')
           | "" => if fixed then None else Some (digit_val a, s')
           end
  | "" => None
  end.

Definition commaOrPeriod (c : ascii) : bool := (byte c =? 46) || (byte c =? 44).

(** A fraction ".ddd": its first nine digits as nanoseconds. *)
Fixpoint frac_nanos (digits : nat) (s : string) : Z :=
  match digits with
  | O => 0
  | S n => match s with
           | String c s => digit_val c * 10 ^ Z.of_nat n + frac_nanos n s
           | "" => 0
           end
  end.
Definition read_frac (s : string) : option (Z * string) :=
  match s with
  | String p (String d _ as rest) =>
      if commaOrPeriod p && is_digit d then
        let '(ds, rest') := span_digits rest in Some (frac_nanos 9 ds, rest')
      else None
  | _ => None
  end.

Fixpoint cutspace (s : string) : string :=
  match s with String c s' => if byte c =? 32 then cutspace s' else s | "" => "" end.

(** [skip(value, prefix)] for a one-byte prefix. *)
Definition skip (c : ascii) (s : string) : option string :=
  if byte c =? 32 then
    match s with
    | "" => Some ""
    | String d _ => if byte d =? 32 then Some (cutspace s) else None
    end
  else match s with
       | String d s' => if Ascii.eqb c d then Some s' else None
       | "" => None
       end.

Definition in_range (lo hi : Z) (r : option (Z * string)) : option (Z * string) :=
  match r with Some (n, _) => if (lo <=? n) && (n <=? hi) then r else None | None => None end.

Fixpoint parse_chunks (layout : list chunk) (s : string) (f : fields_read) : option fields_read :=
  let '(mkFields y mo d h mi se nn z) := f in
  match layout with
  | [] => match s with "" => Some f | _ => None end
  | Lit c :: layout => s ← skip c s; parse_chunks layout s f
  | Year4 :: layout =>
      match s with
      | String a (String b (String c (String e s))) =>
          if is_digit a && is_digit b && is_digit c && is_digit e then
            parse_chunks layout s (mkFields
              (1000 * digit_val a + 100 * digit_val b + 10 * digit_val c + digit_val e)
              mo d h mi se nn z)
          else None
      | _ => None
      end
  | Month2 :: layout =>
      '(n, s) ← in_range 1 12 (getnum s true); parse_chunks layout s (mkFields y n d h mi se nn z)
  | Day2 :: layout =>
      '(n, s) ← getnum s true; parse_chunks layout s (mkFields y mo n h mi se nn z)
  | HourN :: layout =>
      '(n, s) ← in_range 0 23 (getnum s false); parse_chunks layout s (mkFields y mo d n mi se nn z)
  | Min2 :: layout =>
      '(n, s) ← in_range 0 59 (getnum s true); parse_chunks layout s (mkFields y mo d h n se nn z)
  | Sec2 :: layout =>
      '(n, s) ← in_range 0 59 (getnum s true);
      (* A fraction the layout does not ask for is still read. *)
      match layout with
      | Frac9 :: _ => parse_chunks layout s (mkFields y mo d h mi n nn z)
      | _ => match read_frac s with
             | Some (fr, s) => parse_chunks layout s (mkFields y mo d h mi n fr z)
             | None => parse_chunks layout s (mkFields y mo d h mi n nn z)
             end
      end
  | Frac9 :: layout =>
      match read_frac s with
      | Some (fr, s) => parse_chunks layout s (mkFields y mo d h mi se fr z)
      | None => parse_chunks layout s f
      end
  | ZoneISO :: layout =>
      match s with
      | String c s' =>
          if Ascii.eqb c "Z" then parse_chunks layout s' f
          else
            '(hh, s) ← in_range 0 24 (getnum s' true);
            s ← (match s with String k s => if Ascii.eqb k ":" then Some s else None | "" => None end);
            '(mm, s) ← in_range 0 60 (getnum s true);
            let off := (hh * 60 + mm) * 60 in
            if Ascii.eqb c "+" then parse_chunks layout s (mkFields y mo d h mi se nn off)
            else if Ascii.eqb c "-" then parse_chunks layout s (mkFields y mo d h mi se nn (- off))
            else None
      | "" => None
      end
  end.

(** [time.Parse(layout, s)]. *)
Definition Parse (layout : list chunk) (s : string) : option fields_read :=
  f ← parse_chunks layout s no_fields;
  if (1 <=? f_day f) && (f_day f <=? days_in_month (f_year f) (f_month f)) then Some f else None.

(** The instant of a parse with a zone. *)
Definition fields_instant (f : fields_read) : Z :=
  (wall_of (f_year f) (f_month f) (f_day f) (f_hour f) (f_min f) (f_sec f) - f_zone f) * Second
  + f_nsec f.

(** * The calendar is a bijection *)

Definition shift_years (k : Z) (ymd : Z * Z * Z) : Z * Z * Z :=
  (ymd.1.1 + 400 * k, ymd.1.2, ymd.2).

Lemma civil_from_days_shift days k :
  civil_from_days (days + 146097 * k) = shift_years k (civil_from_days days).
Proof.
  unfold civil_from_days, shift_years. cbv zeta. cbn [fst snd].
  replace ((days + 146097 * k + 719468) mod 146097) with ((days + 719468) mod 146097) by zlia.
  replace ((days + 146097 * k + 719468) / 146097) with ((days + 719468) / 146097 + k) by zlia.
  f_equal. f_equal. lia.
Qed.

Lemma days_from_civil_shift y m d k :
  days_from_civil (y + 400 * k) m d = days_from_civil y m d + 146097 * k.
Proof.
  unfold days_from_civil. cbv zeta. destruct (m <=? 2).
  - replace (y + 400 * k - 1) with (y - 1 + k * 400) by lia.
    rewrite Z.div_add, Z.mod_add by lia. lia.
  - replace (y + 400 * k) with (y + k * 400) by lia.
    rewrite Z.div_add, Z.mod_add by lia. lia.
Qed.

Lemma is_leap_shift y k : is_leap (y + 400 * k) = is_leap y.
Proof.
  unfold is_leap.
  replace (y + 400 * k) with (y + (100 * k) * 4) at 1 by lia.
  replace ((y + 400 * k) mod 100) with ((y + (4 * k) * 100) mod 100) by (f_equal; lia).
  replace ((y + 400 * k) mod 400) with ((y + k * 400) mod 400) by (f_equal; lia).
  by rewrite !Z.mod_add by lia.
Qed.

Lemma days_in_month_shift y m k : days_in_month (y + 400 * k) m = days_in_month y m.
Proof. unfold days_in_month. by rewrite is_leap_shift. Qed.

Definition valid_dateb (y m d : Z) : bool :=
  (1 <=? m) && (m <=? 12) && (1 <=? d) && (d <=? days_in_month y m).

Lemma valid_dateb_spec y m d : valid_dateb y m d = true <-> valid_date y m d.
Proof. unfold valid_dateb, valid_date. rewrite !andb_true_iff, !Z.leb_le. lia. Qed.

(** The days before the March of year [y] of a 400-year cycle. *)
Definition year_start (y : Z) : Z := 365 * y + y / 4 - y / 100.
Definition yoe_of (doe : Z) : Z := (doe - doe / 1460 + doe / 36524 - doe / 146096) / 365.

Lemma yoe_of_spec doe : 0 <= doe < 146097 ->
  0 <= yoe_of doe <= 399 /\ year_start (yoe_of doe) <= doe /\
  (yoe_of doe = 399 \/ doe < year_start (yoe_of doe + 1)).
Proof. unfold yoe_of, year_start. zlia. Qed.

Lemma year_start_next y :
  year_start (y + 1) = year_start y + 365 +
    (if (y + 1) mod 4 =? 0 then 1 else 0) - (if (y + 1) mod 100 =? 0 then 1 else 0).
Proof.
  unfold year_start. case Z.eqb_spec; case Z.eqb_spec; zlia.
Qed.

Lemma year_start_mono y z : y <= z -> year_start y <= year_start z.
Proof. unfold year_start. zlia. Qed.

Lemma yoe_of_unique y doy : 0 <= y <= 399 -> 0 <= doy ->
  (y = 399 \/ year_start y + doy < year_start (y + 1)) -> (doy <= 365) ->
  yoe_of (year_start y + doy) = y.
Proof.
  intros Hy Hd Hn H. set (doe := year_start y + doy) in *.
  assert (0 <= doe < 146097).
  { unfold doe in *. pose proof (year_start_mono 0 y ltac:(lia)) as L.
    change (year_start 0) with 0 in L. destruct (decide (y = 399)) as [->|].
    - change (year_start 399) with 145731 in *. lia.
    - pose proof (year_start_mono (y + 1) 399 ltac:(lia)) as U.
      change (year_start 399) with 145731 in U. lia. }
  destruct (yoe_of_spec doe) as (Hr & Hlo & Hhi); [done|]. set (y' := yoe_of doe) in *.
  destruct (Z.lt_trichotomy y' y) as [L|[?|G]]; [|done|].
  - pose proof (year_start_mono (y' + 1) y ltac:(lia)). lia.
  - pose proof (year_start_mono (y + 1) y' ltac:(lia)). lia.
Qed.

(** The month and day of a day of a year that starts in March. *)
Definition month_of (doy : Z) : Z :=
  let mp := (5 * doy + 2) / 153 in if mp <? 10 then mp + 3 else mp - 9.
Definition day_of (doy : Z) : Z := doy - (153 * ((5 * doy + 2) / 153) + 2) / 5 + 1.
Definition doy_of (m d : Z) : Z := (153 * ((m + 9) mod 12) + 2) / 5 + d - 1.

Definition doy_check (doy : Z) : bool :=
  let m := month_of doy in let d := day_of doy in
  (1 <=? m) && (m <=? 12) && (1 <=? d) &&
  (d <=? days_in_month (if doy =? 365 then 2000 else 2001) m) && (doy_of m d =? doy).

Lemma doy_cycle : all_z 366 0 doy_check = true.
Proof. by vm_compute. Qed.

Lemma doy_spec doy : 0 <= doy <= 365 ->
  1 <= month_of doy <= 12 /\
  1 <= day_of doy <= days_in_month (if doy =? 365 then 2000 else 2001) (month_of doy) /\
  doy_of (month_of doy) (day_of doy) = doy.
Proof.
  intros H. pose proof (all_z_spec _ _ _ doy_cycle doy ltac:(lia)) as C.
  unfold doy_check in C. rewrite !andb_true_iff, !Z.leb_le, Z.eqb_eq in C. lia.
Qed.

Definition date_check (y m : Z) : bool :=
  all_z (Z.to_nat (days_in_month y m)) 1 (fun d =>
    (month_of (doy_of m d) =? m) && (day_of (doy_of m d) =? d) &&
    (0 <=? doy_of m d) && (doy_of m d <=? 365) &&
    (if (m =? 2) && (d =? 29) then doy_of m d =? 365 else doy_of m d <=? 364)).

Lemma date_cycle : all_z 12 1 (date_check 2000) = true.
Proof. by vm_compute. Qed.

Lemma doy_of_spec m d : 1 <= m <= 12 -> 1 <= d <= days_in_month 2000 m ->
  month_of (doy_of m d) = m /\ day_of (doy_of m d) = d /\ 0 <= doy_of m d <= 365 /\
  (doy_of m d = 365 <-> m = 2 /\ d = 29).
Proof.
  intros Hm Hd. pose proof (all_z_spec _ _ _ date_cycle m ltac:(lia)) as H.
  unfold date_check in H.
  pose proof (all_z_spec _ _ _ H d ltac:(rewrite Z2Nat.id by lia; lia)) as C. cbv beta in C.
  rewrite !andb_true_iff, !Z.leb_le, !Z.eqb_eq in C;
    (destruct ((m =? 2) && (d =? 29)) eqn:E;
     [rewrite andb_true_iff, !Z.eqb_eq in E; rewrite Z.eqb_eq in C; lia
     |rewrite andb_false_iff, !Z.eqb_neq in E; rewrite Z.leb_le in C; lia]).
Qed.

Lemma days_in_month_le y m : days_in_month y m <= days_in_month 2000 m.
Proof. unfold days_in_month. change (is_leap 2000) with true. repeat case_match; lia. Qed.

Lemma days_in_month_cases y m :
  days_in_month y m = if (m =? 2) && is_leap y then 29 else days_in_month 2001 m.
Proof. unfold days_in_month. change (is_leap 2001) with false. by destruct (m =? 2), (is_leap y). Qed.

(** Both directions in terms of the cycle. *)
Lemma civil_from_days_cycle days :
  let doe := (days + 719468) mod 146097 in
  let doy := doe - year_start (yoe_of doe) in
  civil_from_days days =
    (yoe_of doe + (days + 719468) / 146097 * 400 + (if month_of doy <=? 2 then 1 else 0),
     month_of doy, day_of doy).
Proof.
  unfold civil_from_days, month_of, day_of, year_start, yoe_of. cbv zeta.
  set (doe := (days + 719468) mod 146097).
  set (yoe := (doe - doe / 1460 + doe / 36524 - doe / 146096) / 365). done.
Qed.

Lemma days_from_civil_cycle y m d :
  let y' := if m <=? 2 then y - 1 else y in
  days_from_civil y m d = y' / 400 * 146097 + (year_start (y' mod 400) + doy_of m d) - 719468.
Proof. unfold days_from_civil, year_start, doy_of. cbv zeta. lia. Qed.

Lemma leap_of_start y : 0 <= y <= 399 ->
  is_leap (y + 1) = if decide (y = 399) then true
                    else bool_decide (year_start (y + 1) = year_start y + 366).
Proof.
  intros Hy. case_decide as D; [by subst|]. rewrite year_start_next. unfold is_leap.
  case (Z.eqb_spec ((y + 1) mod 4) 0); case (Z.eqb_spec ((y + 1) mod 100) 0);
    case (Z.eqb_spec ((y + 1) mod 400) 0); cbn; intros; try case_bool_decide; try done; zlia.
Qed.

(** Every day has a date, and it is the day of that date. *)
Lemma civil_from_days_spec days :
  let '(y, m, d) := civil_from_days days in
  valid_date y m d /\ days_from_civil y m d = days.
Proof.
  pose proof (civil_from_days_cycle days) as E. cbv zeta in E.
  set (doe := (days + 719468) mod 146097) in *. set (era := (days + 719468) / 146097) in *.
  assert (Hdoe : 0 <= doe < 146097) by (unfold doe; zlia).
  destruct (yoe_of_spec doe Hdoe) as (Hy & Hlo & Hhi).
  set (y := yoe_of doe) in *. set (doy := doe - year_start y) in *.
  pose proof (year_start_next y) as Hnext. pose proof (leap_of_start y Hy) as Hleap.
  assert (Hdoy : 0 <= doy <= 365).
  { unfold doy. split; [lia|]. destruct Hhi as [->|Hhi]; [change (year_start 399) with 145731; lia|].
    revert Hnext. case Z.eqb_spec; case Z.eqb_spec; lia. }
  destruct (doy_spec doy Hdoy) as (Hm & Hd & Hdm). rewrite E.
  set (m := month_of doy) in *. set (d := day_of doy) in *.
  split.
  - split; [done|]. split; [lia|].
    destruct (decide (doy = 365)) as [E365|N];
      [|rewrite (proj2 (Z.eqb_neq _ _) N) in Hd; cbv iota in Hd; rewrite days_in_month_cases; destruct (_ && _) eqn:B; [|lia]].
    + assert (m = 2 /\ d = 29) as [-> ->] by (unfold m, d; rewrite E365; done).
      cbn [Z.leb Z.compare Pos.compare Pos.compare_cont].
      replace (y + era * 400 + 1) with ((y + 1) + 400 * era) by lia.
      unfold days_in_month. cbn [Z.eqb Pos.eqb]. rewrite is_leap_shift, Hleap.
      case_decide; [done|]. destruct Hhi as [?|Hhi]; [done|]. rewrite bool_decide_true; [done|].
      revert Hnext. case Z.eqb_spec; case Z.eqb_spec; lia.
    + apply andb_prop in B as [->%Z.eqb_eq _]. change (days_in_month 2001 2) with 28 in Hd. lia.
  - rewrite days_from_civil_cycle. cbv zeta. rewrite Hdm.
    destruct (m <=? 2).
    + replace (y + era * 400 + 1 - 1) with (y + era * 400) by lia.
      rewrite Z.div_add, Z.mod_add, Z.div_small, Z.mod_small by lia. unfold doy, doe, era. zlia.
    + replace (y + era * 400 + 0) with (y + era * 400) by lia.
      rewrite Z.div_add, Z.mod_add, Z.div_small, Z.mod_small by lia. unfold doy, doe, era. zlia.
Qed.

(** The date of a date's day. *)
Lemma days_from_civil_spec y m d :
  valid_date y m d -> civil_from_days (days_from_civil y m d) = (y, m, d).
Proof.
  intros [Hm Hd]. pose proof (days_in_month_le y m).
  destruct (doy_of_spec m d Hm ltac:(lia)) as (Em & Ed & Hdoy & H365).
  rewrite civil_from_days_cycle. cbv zeta.
  rewrite days_from_civil_cycle. cbv zeta.
  set (y' := if m <=? 2 then y - 1 else y). set (yoe := y' mod 400).
  assert (Hyoe : 0 <= yoe <= 399) by (unfold yoe; zlia).
  set (doe := year_start yoe + doy_of m d).
  pose proof (year_start_next yoe) as Hnext.
  assert (Hin : yoe = 399 \/ doe < year_start (yoe + 1)).
  { destruct (decide (yoe = 399)) as [|Hne]; [by left|right]. unfold doe.
    destruct (decide (doy_of m d = 365)) as [E|E].
    - destruct H365 as [H365 _]. destruct (H365 E) as [-> ->].
      assert (L : is_leap y = true).
      { unfold days_in_month in Hd. cbn in Hd. destruct (is_leap y); [done|lia]. }
      assert (Ey : y = (yoe + 1) + 400 * (y' / 400)) by (unfold yoe, y'; cbn; zlia).
      rewrite Ey, is_leap_shift, leap_of_start in L by done.
      rewrite decide_False in L by done. apply bool_decide_eq_true in L. lia.
    - revert Hnext. case Z.eqb_spec; case Z.eqb_spec; try lia. zlia. }
  assert (Hdoe : 0 <= doe < 146097).
  { unfold doe in *. pose proof (year_start_mono 0 yoe ltac:(lia)) as L.
    change (year_start 0) with 0 in L. destruct (decide (yoe = 399)) as [E|].
    - rewrite E in *. change (year_start 399) with 145731 in *. lia.
    - pose proof (year_start_mono (yoe + 1) 399 ltac:(lia)) as U.
      change (year_start 399) with 145731 in U. lia. }
  replace (y' / 400 * 146097 + doe - 719468 + 719468) with (doe + y' / 400 * 146097) by lia.
  rewrite Z.mod_add, Z.div_add, Z.mod_small, Z.div_small by lia.
  assert (Ey : yoe_of doe = yoe) by (apply yoe_of_unique; lia). rewrite Ey.
  replace (doe - year_start yoe) with (doy_of m d) by (unfold doe; lia).
  rewrite Em, Ed. do 2 f_equal. unfold yoe, y'. destruct (m <=? 2); zlia.
Qed.

Lemma days_in_month_range y m : 28 <= days_in_month y m <= 31.
Proof. unfold days_in_month. repeat case_match; lia. Qed.

(** Days of a month follow each other. *)
Lemma days_from_civil_day y m d : days_from_civil y m d = days_from_civil y m 1 + (d - 1).
Proof. unfold days_from_civil. cbv zeta. lia. Qed.

Lemma days_from_civil_linear y m d :
  let y' := if m <=? 2 then y - 1 else y in
  days_from_civil y m d = 365 * y' + y' / 4 - y' / 100 + y' / 400 + doy_of m d - 719468.
Proof.
  unfold days_from_civil, doy_of. cbv zeta. set (y' := if m <=? 2 then y - 1 else y).
  enough (y' / 400 * 146097 + (y' mod 400 * 365 + y' mod 400 / 4 - y' mod 400 / 100) =
    365 * y' + y' / 4 - y' / 100 + y' / 400) by lia.
  zlia.
Qed.

(** Computes the quotients and remainders of numerals. *)
Local Ltac ground_div :=
  repeat match goal with
    | |- context [Zpos ?a / Zpos ?b] =>
        let v := eval vm_compute in (Zpos a / Zpos b) in change (Zpos a / Zpos b) with v
    | |- context [Zpos ?a mod Zpos ?b] =>
        let v := eval vm_compute in (Zpos a mod Zpos b) in change (Zpos a mod Zpos b) with v
    | |- context [Zpos ?a + Zpos ?b] =>
        let v := eval vm_compute in (Zpos a + Zpos b) in change (Zpos a + Zpos b) with v
    | |- context [153 * Zpos ?b] =>
        let v := eval vm_compute in (153 * Zpos b) in change (153 * Zpos b) with v
    | |- context [0 + Zpos ?b] => change (0 + Zpos b) with (Zpos b)
    | |- context [153 * 0 + 2] => change (153 * 0 + 2) with 2
    end.

(** Months follow each other: December's next is January of the next year. *)
Lemma days_from_civil_month y m : 1 <= m <= 12 ->
  days_from_civil (y + m / 12) (m mod 12 + 1) 1 = days_from_civil y m 1 + days_in_month y m.
Proof.
  intros Hm. rewrite !days_from_civil_linear. unfold doy_of, days_in_month, is_leap.
  assert (m = 1 \/ m = 2 \/ m = 3 \/ m = 4 \/ m = 5 \/ m = 6 \/ m = 7 \/ m = 8 \/ m = 9 \/
    m = 10 \/ m = 11 \/ m = 12) as M by lia.
  destruct_or! M; subst m; ground_div; cbn [Z.leb Z.compare Pos.compare Pos.compare_cont Z.eqb Pos.eqb orb].
  all: try (replace (y + 1 - 1) with y by lia; rewrite ?Z.add_0_r; lia).
  rewrite Z.add_0_r. case (Z.eqb_spec (y mod 4) 0); case (Z.eqb_spec (y mod 100) 0);
    case (Z.eqb_spec (y mod 400) 0); cbn [andb orb negb]; intros; zlia.
Qed.

Lemma wall_of_valid y m d h mi s : 1 <= m <= 12 ->
  wall_of y m d h mi s = days_from_civil y m d * 86400 + h * 3600 + mi * 60 + s.
Proof.
  intros Hm. unfold wall_of. cbv zeta.
  rewrite Z.div_small, Z.mod_small by lia. rewrite (days_from_civil_day y m d).
  replace (y + 0) with y by lia. replace (m - 1 + 1) with m by lia. lia.
Qed.

Definition valid_clock (h m s : Z) : Prop := 0 <= h <= 23 /\ 0 <= m <= 59 /\ 0 <= s <= 59.

(** The date and the clock of a wall clock built from a date and a clock. *)
Lemma wall_date y m d h mi s : 1 <= m <= 12 -> valid_clock h mi s ->
  wall_of y m d h mi s / 86400 = days_from_civil y m d /\
  wall_of y m d h mi s mod 86400 = h * 3600 + mi * 60 + s.
Proof. intros Hm (? & ? & ?). rewrite wall_of_valid by done. zlia. Qed.

Lemma clock_split h m s : valid_clock h m s ->
  (h * 3600 + m * 60 + s) / 3600 = h /\ (h * 3600 + m * 60 + s) / 60 mod 60 = m /\
  (h * 3600 + m * 60 + s) mod 60 = s.
Proof. intros (? & ? & ?). zlia. Qed.

Lemma clock_join x : 0 <= x < 86400 ->
  x = x / 3600 * 3600 + x / 60 mod 60 * 60 + x mod 60 /\
  valid_clock (x / 3600) (x / 60 mod 60) (x mod 60).
Proof. intros. unfold valid_clock. zlia. Qed.

(** * Fixed offsets *)

Lemma from_wall_fixed off w : from_wall (FixedZone off) w = w - off.
Proof.
  unfold from_wall, FixedZone. cbn. case (Z.eqb_spec off 0) as [->|]; [lia|].
  by destruct (_ || _).
Qed.

Lemma wall_fixed off n : wall (mkTime n (FixedZone off)) = n / Second + off.
Proof. done. Qed.
End GoTime.
