(* ===== verification/DelaySpec.v ===== *)
(** The delay grammar: internal/delayspec/delayspec.go.

    [for] durations and [until] instants are parsed to [Duration] and [Instant]
    and resolved against a clock reading in a location.  The host's zone database
    is a parameter of [LoadLocation].  Error values carry what the message
    names. *)
From Stdlib Require Import ZArith Lia Ascii String.
From S2P Require Import Prelude.
From S2P Require Import GoStrings.
From S2P Require Import GoTime.
Open Scope string_scope.
Open Scope list_scope.
Open Scope Z_scope.

Module DelaySpec.
Import GoTime.

Definition maxPatternDays : nat := 366 * 5.
Definition maxClockRetries : nat := 4.

(** * Locations *)

(** [parseFixedOffset]: ±HH, ±HH:MM, ±HHMM in seconds. *)
Definition parseFixedOffset (s : string) : option Z :=
  match s with
  | String c (String _ _ as body) =>
      if negb ((byte c =? 43) || (byte c =? 45)) then None
      else
        let sign := if byte c =? 45 then -1 else 1 in
        let body := match Cut body ":" with Some (l, r) => l +:+ r | None => body end in
        let len := Z.of_nat (String.length body) in
        if negb (len =? 2) && negb (len =? 4) then None
        else if negb (all_digits body) then None
        else
          let h := dec_val 0 (String.substring 0 2 body) in
          let m := if len =? 4 then dec_val 0 (String.substring 2 2 body) else 0 in
          if (23 <? h) || (59 <? m) then None else Some (sign * (h * 3600 + m * 60))
  | _ => None
  end.

Inductive loc_error := AmbiguousZone (tz : string) | UnknownZone (tz : string).

Definition LoadLocation (zoneinfo : string -> option Location) (tz : string)
    : result loc_error Location :=
  let tz := TrimSpace tz in
  if String.eqb tz "" || String.eqb tz "UTC" then Ok UTC
  else match parseFixedOffset tz with
       | Some off => Ok (FixedZone off)
       | None =>
           if negb (Contains tz "/") then Err (AmbiguousZone tz)
           else of_option (UnknownZone tz) (zoneinfo tz)
       end.

(** * Wall-clock construction *)

Definition sameClock (a b : Time) : bool :=
  bool_decide (DateOf a = DateOf b /\ Clock a = Clock b).

Definition skippedForward (l : Location) (want : Time) : Time :=
  let off := ZoneOffset (In want l) in
  let first := Add want (- off * Second) in
  let off := ZoneOffset (In first l) in
  let second := Add want (- off * Second) in
  if After second first then In second l else In first l.

Definition resolveWall (l : Location) (year month day hour min sec : Z) : Time :=
  let t := Date year month day hour min sec 0 l in
  let want := Date year month day hour min sec 0 UTC in
  if negb (sameClock t want) then skippedForward l want
  else
    let e := Add t (- Hour) in
    if sameClock e t then e else t.

Definition daysIn (year month : Z) : Z := Day (Date year (month + 1) 0 0 0 0 0 UTC).

Definition floorDiv (a b : Z) : Z :=
  let q := Z.quot a b in
  if negb (Z.rem a b =? 0) && negb (Bool.eqb (a <? 0) (b <? 0)) then q - 1 else q.
Definition floorMod (a b : Z) : Z := a - floorDiv a b * b.

Definition addMonths (t : Time) (n : Z) : Time :=
  let '(year, month, day) := DateOf t in
  let '(hour, min, sec) := Clock t in
  let total := month - 1 + n in
  let ny := year + floorDiv total 12 in
  let nm := floorMod total 12 + 1 in
  let last := daysIn ny nm in
  let day := if last <? day then last else day in
  resolveWall (loc t) ny nm day hour min sec.

Definition addDays (t : Time) (n : Z) : Time :=
  let '(year, month, day) := DateOf t in
  let '(hour, min, sec) := Clock t in
  resolveWall (loc t) year month (day + n) hour min sec.

(** * Durations *)

Record Duration := mkDuration { d_src : string; d_fixed : Z; d_days : Z; d_months : Z }.

Definition Millis (ms : Z) : Duration :=
  mkDuration (FormatInt ms +:+ "ms") (i64 (ms * Millisecond)) 0 0.

(** [addFixed]; [None] is [errDurationRange]. *)
Definition addFixed (d : Duration) (n unit : Z) : option Duration :=
  if max_int64 / unit <? n then None
  else
    let add := i64 (n * unit) in
    if i64 (max_int64 - add) <? d_fixed d then None
    else Some (mkDuration (d_src d) (i64 (d_fixed d + add)) (d_days d) (d_months d)).

Definition addCalendar (field n scale : Z) : option Z :=
  if max_int64 / scale <? n then None
  else
    let scaled := i64 (n * scale) in
    if i64 (max_int64 - scaled) <? field then None else Some (i64 (field + scaled)).

Inductive unit_kind := FixedUnit (unit : Z) | DayUnit (scale : Z) | MonthUnit (scale : Z).

Definition apply_unit (u : unit_kind) (d : Duration) (n : Z) : option Duration :=
  match u with
  | FixedUnit unit => addFixed d n unit
  | DayUnit scale =>
      v ← addCalendar (d_days d) n scale; Some (mkDuration (d_src d) (d_fixed d) v (d_months d))
  | MonthUnit scale =>
      v ← addCalendar (d_months d) n scale; Some (mkDuration (d_src d) (d_fixed d) (d_days d) v)
  end.

Definition durUnits : list (string * unit_kind) :=
  [("ms", FixedUnit Millisecond); ("mo", MonthUnit 1); ("s", FixedUnit Second);
   ("m", FixedUnit Minute); ("h", FixedUnit Hour); ("d", DayUnit 1); ("w", DayUnit 7);
   ("y", MonthUnit 12)].

(** The first unit whose suffix starts [rest], and what follows the suffix. *)
Fixpoint match_unit (us : list (string * unit_kind)) (rest : string)
    : option (string * unit_kind * string) :=
  match us with
  | [] => None
  | (suffix, u) :: us =>
      match strip_prefix suffix rest with
      | Some r => Some (suffix, u, r)
      | None => match_unit us rest
      end
  end.

Inductive dur_error :=
  | DurEmpty
  | DurNoNumber (rest : string)
  | DurNumberRange (digits : string)
  | DurNoUnit (n : Z)
  | DurRange (n : Z) (suffix : string)
  | DurUnknownUnit (rest : string)
  | DurNoComponents
  | DurOutOfFuel.

Fixpoint parse_components (fuel : nat) (d : Duration) (rest : string) (any : bool)
    : result dur_error (Duration * bool) :=
  match fuel with
  | O => Err DurOutOfFuel
  | S fuel =>
      let rest := TrimLeftBlank rest in
      if String.eqb rest "" then Ok (d, any)
      else
        let '(digits, after) := span_digits rest in
        if String.eqb digits "" then Err (DurNoNumber rest)
        else match ParseInt10 digits with
             | None => Err (DurNumberRange digits)
             | Some n =>
                 if String.eqb after "" then Err (DurNoUnit n)
                 else match match_unit durUnits after with
                      | None => Err (DurUnknownUnit after)
                      | Some (suffix, u, rest) =>
                          match apply_unit u d n with
                          | None => Err (DurRange n suffix)
                          | Some d => parse_components fuel d rest true
                          end
                      end
             end
  end.

Definition ParseDuration (s : string) : result dur_error Duration :=
  let raw := TrimSpace s in
  if String.eqb raw "" then Err DurEmpty
  else
    '(d, any) ← parse_components (S (String.length raw)) (mkDuration raw 0 0 0) raw false;
    if any : bool then Ok d else Err DurNoComponents.

Definition Fixed (d : Duration) : option Z :=
  if negb (d_days d =? 0) || negb (d_months d =? 0) then None else Some (d_fixed d).

Definition Duration_Resolve (d : Duration) (now : Time) (l : Location) : Time :=
  let t := In now l in
  let t := if d_months d =? 0 then t else addMonths t (d_months d) in
  let t := if d_days d =? 0 then t else addDays t (d_days d) in
  Add t (d_fixed d).

(** * Instants *)

Definition wildcard : Z := -1.

Record clockField := mkClock { base : Z; step : Z }.
Definition exactValue (v : Z) : clockField := mkClock v 0.
Definition everyValue : clockField := mkClock 0 1.

Inductive instant_kind := kindAbsolute | kindWall | kindOffset | kindPattern.

Record Instant := mkInstant {
  i_src : string; i_kind : instant_kind; i_abs : Z; i_off : Duration;
  i_year : Z; i_month : Z; i_day : Z; i_weekday : Z;
  i_hour : clockField; i_min : clockField; i_sec : clockField }.

Definition no_duration : Duration := mkDuration "" 0 0 0.

Definition weekdays : list (string * Z) :=
  [("sun", 0); ("mon", 1); ("tue", 2); ("wed", 3); ("thu", 4); ("fri", 5); ("sat", 6)].
Definition weekday_of (tok : string) : option Z :=
  snd <$> List.find (fun e => String.eqb e.1 (ToLower tok)) weekdays.

Definition rfc3339_date : list chunk :=
  [Year4; Lit "-"; Month2; Lit "-"; Day2; Lit "T"; HourN; Lit ":"; Min2; Lit ":"; Sec2].
Definition absoluteLayouts : list (list chunk) :=
  [rfc3339_date ++ [Frac9; ZoneISO]; rfc3339_date ++ [ZoneISO]].

Definition iso_date : list chunk := [Year4; Lit "-"; Month2; Lit "-"; Day2].
Definition wallLayouts : list (list chunk) :=
  [iso_date ++ [Lit "T"; HourN; Lit ":"; Min2; Lit ":"; Sec2];
   iso_date ++ [Lit " "; HourN; Lit ":"; Min2; Lit ":"; Sec2];
   iso_date ++ [Lit "T"; HourN; Lit ":"; Min2];
   iso_date ++ [Lit " "; HourN; Lit ":"; Min2];
   iso_date].

(** The first layout that parses. *)
Fixpoint parse_any (layouts : list (list chunk)) (s : string) : option fields_read :=
  match layouts with
  | [] => None
  | l :: layouts => match Parse l s with Some f => Some f | None => parse_any layouts s end
  end.

Inductive inst_error :=
  | InstEmpty
  | InstZone (e : loc_error)
  | InstOffsetForm
  | InstDuration (e : dur_error)
  | InstNotRecognised
  | ClockForm (s : string)
  | ClockWidened (s : string)
  | ClockCron (p : string)
  | ClockRange (p : string)
  | ClockStep (step : string)
  | ClockStepRange (n : Z)
  | TwoWeekdays
  | TwoDates
  | BadToken (tok : string)
  | BadDate (tok : string)
  | BadDateField (s : string)
  | NoSuchDay (month day : Z)
  | NoMatch.

Definition allDigits (s : string) : bool := negb (String.eqb s "") && all_digits s.

Definition parseClockValue (p : string) (max : Z) : result inst_error Z :=
  if negb (allDigits p) then Err (ClockRange p)
  else match Atoi p with
       | Some v => if (v <? 0) || (max <? v) then Err (ClockRange p) else Ok v
       | None => Err (ClockRange p)
       end.

Definition parseClockField (clock p : string) (max : Z) (allowPattern : bool)
    : result inst_error clockField :=
  if String.eqb p "*" then
    if negb allowPattern then Err (ClockWidened clock) else Ok everyValue
  else match Cut p "/" with
       | Some (base, step) =>
           if negb allowPattern then Err (ClockWidened clock)
           else if String.eqb base "*" then Err (ClockCron p)
           else
             b ← parseClockValue base max;
             match Atoi step with
             | Some n =>
                 if negb (allDigits step) || (n <? 1) then Err (ClockStep step)
                 else if max <? n then Err (ClockStepRange n)
                 else Ok (mkClock b n)
             | None => Err (ClockStep step)
             end
       | None => v ← parseClockValue p max; Ok (exactValue v)
       end.

Definition parseClock (s : string) (allowPattern : bool)
    : result inst_error (clockField * clockField * clockField) :=
  match Split s ":" with
  | [h; m] =>
      h ← parseClockField s h 23 allowPattern;
      m ← parseClockField s m 59 allowPattern;
      Ok (h, m, exactValue 0)
  | [h; m; sec] =>
      h ← parseClockField s h 23 allowPattern;
      m ← parseClockField s m 59 allowPattern;
      sec ← parseClockField s sec 59 allowPattern;
      Ok (h, m, sec)
  | _ => Err (ClockForm s)
  end.

(** One field of a Y-M-D date. *)
Definition date_field (s : string) (lo hi : Z) : result inst_error Z :=
  if String.eqb s "*" then Ok wildcard
  else match Atoi s with
       | Some v =>
           if negb (allDigits s) || (v <? lo) || (hi <? v) then Err (BadDateField s) else Ok v
       | None => Err (BadDateField s)
       end.

Record date_tokens := mkTokens {
  t_weekday : option Z; t_date : option (Z * Z * Z) }.

(** The loop over the tokens before the clock: [sawWeekday], [sawDate] are the
    presence of a value. *)
Fixpoint parse_tokens (toks : list string) (acc : date_tokens) : result inst_error date_tokens :=
  match toks with
  | [] => Ok acc
  | tok :: toks =>
      match weekday_of tok with
      | Some wd =>
          match t_weekday acc with
          | Some _ => Err TwoWeekdays
          | None => parse_tokens toks (mkTokens (Some wd) (t_date acc))
          end
      | None =>
          if negb (Contains tok "-") then Err (BadToken tok)
          else match t_date acc with
               | Some _ => Err TwoDates
               | None =>
                   match Split tok "-" with
                   | [y; m; d] =>
                       y ← date_field y 1970 9999;
                       m ← date_field m 1 12;
                       d ← date_field d 1 31;
                       parse_tokens toks (mkTokens (t_weekday acc) (Some (y, m, d)))
                   | _ => Err (BadDate tok)
                   end
               end
      end
  end.

Definition parsePattern (raw body : string) : result inst_error Instant :=
  let f := Fields body in
  match last f with
  | None => Err InstNotRecognised
  | Some clock =>
      '(h, m, sec) ← parseClock clock true;
      acc ← parse_tokens (removelast f) (mkTokens None None);
      let weekday := default wildcard (t_weekday acc) in
      let '(year, month, day) := default (wildcard, wildcard, wildcard) (t_date acc) in
      let i := mkInstant raw kindPattern 0 no_duration year month day weekday h m sec in
      if (0 <=? month) && (0 <=? day) then
        if daysIn 2024 month <? day then Err (NoSuchDay month day) else Ok i
      else Ok i
  end.

Definition parseOffset (raw body : string) : result inst_error Instant :=
  match Fields body with
  | [d; clock] =>
      off ← map_err InstDuration (ParseDuration (TrimPrefix d "+"));
      '(h, m, sec) ← parseClock clock false;
      Ok (mkInstant raw kindOffset 0 off 0 0 0 0 h m sec)
  | _ => Err InstOffsetForm
  end.

(** A trailing bracketed zone annotation: the text before it and the name in it. *)
Definition annotation (body : string) : option (string * string) :=
  match Cut body "[" with
  | Some (before, after) =>
      match string_rev after with
      | String "]" rest => Some (before, string_rev rest)
      | _ => None
      end
  | None => None
  end.

Definition ParseInstant (zoneinfo : string -> option Location) (s : string)
    : result inst_error Instant :=
  let raw := TrimSpace s in
  if String.eqb raw "" then Err InstEmpty
  else
    body ← match annotation raw with
           | Some (before, name) =>
               _ ← map_err InstZone (LoadLocation zoneinfo name); Ok (TrimSpace before)
           | None => Ok raw
           end;
    match parse_any absoluteLayouts body with
    | Some f =>
        Ok (mkInstant raw kindAbsolute (fields_instant f) no_duration 0 0 0 0
              (exactValue 0) (exactValue 0) (exactValue 0))
    | None =>
        match parse_any wallLayouts body with
        | Some f =>
            Ok (mkInstant raw kindWall 0 no_duration (f_year f) (f_month f) (f_day f) 0
                  (exactValue (f_hour f)) (exactValue (f_min f)) (exactValue (f_sec f)))
        | None => if HasPrefix body "+" then parseOffset raw body else parsePattern raw body
        end
    end.

(** * Resolution *)

Definition ceilDiv (a b : Z) : Z := (a + b - 1) / b.

Definition fieldAtLeast (field : clockField) (from max : Z) : option Z :=
  if step field =? 0 then
    if base field <? from then None else Some (base field)
  else
    let v := if base field <? from
             then base field + ceilDiv (from - base field) (step field) * step field
             else base field in
    if max <? v then None else Some v.

Definition fieldMin (field : clockField) : Z := base field.

Definition nextClock (i : Instant) (fromH fromM fromS : Z) : option (Z * Z * Z) :=
  match fieldAtLeast (i_hour i) fromH 23 with
  | None => None
  | Some h =>
      if fromH <? h then Some (h, fieldMin (i_min i), fieldMin (i_sec i))
      else
        let next_hour :=
          match fieldAtLeast (i_hour i) (fromH + 1) 23 with
          | Some h => Some (h, fieldMin (i_min i), fieldMin (i_sec i))
          | None => None
          end in
        match fieldAtLeast (i_min i) fromM 59 with
        | Some m =>
            if fromM <? m then Some (h, m, fieldMin (i_sec i))
            else match fieldAtLeast (i_sec i) fromS 59 with
                 | Some s => Some (h, m, s)
                 | None =>
                     match fieldAtLeast (i_min i) (fromM + 1) 59 with
                     | Some m => Some (h, m, fieldMin (i_sec i))
                     | None => next_hour
                     end
                 end
        | None => next_hour
        end
  end.

Definition matchesDate (i : Instant) (day : Time) : bool :=
  let '(year, month, dom) := DateOf day in
  ((i_year i =? wildcard) || (year =? i_year i)) &&
  ((i_month i =? wildcard) || (month =? i_month i)) &&
  ((i_day i =? wildcard) || (dom =? i_day i)) &&
  ((i_weekday i =? wildcard) || (Weekday day =? i_weekday i)).

(** [for hi.Sub(lo) > time.Second { ... }]: bisection of a two-hour interval. *)
Definition bisect_body (offset_base : Z) (s : Time * Time) : Time * Time + Time :=
  let '(lo, hi) := s in
  if Second <? Sub hi lo then
    let mid := Add lo (Z.quot (Sub hi lo) 2) in
    if ZoneOffset mid =? offset_base then inl (mid, hi) else inl (lo, mid)
  else inr hi.

Definition bisect_fuel : positive := 64.

Definition fallBackAt (now : Time) : option Time :=
  match loop bisect_fuel (bisect_body (ZoneOffset now)) (now, Add now (2 * Hour)) with
  | inl _ => None
  | inr hi => Some hi
  end.

Definition repeatedMatch (i : Instant) (now : Time) (l : Location) : option Time :=
  let local := In now l in
  if negb (sameClock local (Add local Hour)) then None
  else
    t ← fallBackAt local;
    let start := In t l in
    if negb (matchesDate i start) then None
    else
      let '(sh, sm, ss) := Clock start in
      '(h, m, s) ← nextClock i sh sm ss;
      let '(year, month, dom) := DateOf start in
      let first := resolveWall l year month dom h m s in
      let second := Add first Hour in
      if negb (Day first =? dom) || negb (sameClock second first) || negb (After second now)
      then None else Some second.

Definition earlier (cand : Time) (repeated : option Time) : Time :=
  match repeated with
  | Some r => if Before r cand then r else cand
  | None => cand
  end.

(** The inner loop of [nextMatch]; [None] moves on to the next date. *)
Fixpoint clock_retries (retries : nat) (i : Instant) (now : Time) (l : Location)
    (repeated : option Time) (year month dom fromH fromM fromS : Z) : option Time :=
  match retries with
  | O => None
  | S retries =>
      match nextClock i fromH fromM fromS with
      | None => None
      | Some (h, m, s) =>
          let cand := resolveWall l year month dom h m s in
          if After cand now then Some (earlier cand repeated)
          else
            let alt := Add cand Hour in
            if sameClock alt cand && After alt now then Some (earlier alt repeated)
            else clock_retries retries i now l repeated year month dom h m (s + 1)
      end
  end.

(** The outer loop, from day [n] on. *)
Fixpoint day_walk (days : nat) (n : Z) (i : Instant) (now lb anchor : Time) (l : Location)
    (repeated : option Time) : option Time :=
  match days with
  | O => None
  | S days =>
      let day := addDays anchor n in
      let '(year, month, dom) := DateOf day in
      let found :=
        if negb (matchesDate i day) then None
        else
          let '(fromH, fromM, fromS) := if n =? 0 then Clock lb else (0, 0, 0) in
          clock_retries maxClockRetries i now l repeated year month dom fromH fromM fromS in
      match found with
      | Some t => Some t
      | None => day_walk days (n + 1) i now lb anchor l repeated
      end
  end.

Definition nextMatch (i : Instant) (now : Time) (l : Location) : result inst_error Time :=
  let lb := In (Add (Truncate now Second) Second) l in
  let anchor := resolveWall l (Year lb) (Month lb) (Day lb) 12 0 0 in
  let repeated := repeatedMatch i now l in
  match day_walk (S maxPatternDays) 0 i now lb anchor l repeated with
  | Some t => Ok t
  | None => match repeated with Some r => Ok r | None => Err NoMatch end
  end.

Definition Instant_Resolve (i : Instant) (now : Time) (l : Location) : result inst_error Time :=
  match i_kind i with
  | kindAbsolute => Ok (mkTime (i_abs i) UTC)
  | kindWall =>
      Ok (resolveWall l (i_year i) (i_month i) (i_day i)
            (base (i_hour i)) (base (i_min i)) (base (i_sec i)))
  | kindOffset =>
      let b := Duration_Resolve (i_off i) now l in
      Ok (resolveWall l (Year b) (Month b) (Day b)
            (base (i_hour i)) (base (i_min i)) (base (i_sec i)))
  | kindPattern => nextMatch i now l
  end.

(** * The clock half of a pattern *)

Definition wf_clock (f : clockField) (max : Z) : Prop := 0 <= base f <= max /\ 0 <= step f <= max.

(** The values a field stands for. *)
Definition admits (f : clockField) (max v : Z) : Prop :=
  v <= max /\ if decide (step f = 0) then v = base f else exists k, 0 <= k /\ v = base f + k * step f.

Record wf_clocks (i : Instant) : Prop := mkWfClocks {
  wf_hour : wf_clock (i_hour i) 23; wf_min : wf_clock (i_min i) 59; wf_sec : wf_clock (i_sec i) 59 }.

Definition admits_clock (i : Instant) (h m s : Z) : Prop :=
  admits (i_hour i) 23 h /\ admits (i_min i) 59 m /\ admits (i_sec i) 59 s.

Definition tod (h m s : Z) : Z := h * 3600 + m * 60 + s.

Lemma ceilDiv_spec a b : 0 < b -> a <= ceilDiv a b * b < a + b.
Proof. intros. unfold ceilDiv. Z.div_mod_to_equations. nia. Qed.

Lemma admits_range f max v : wf_clock f max -> admits f max v -> 0 <= v <= max.
Proof. intros [? ?] [? A]. case_decide; [lia|]. destruct A as (k & ? & ->). nia. Qed.

Lemma admits_min f max : wf_clock f max -> admits f max (fieldMin f).
Proof. intros [? ?]. split; [unfold fieldMin; lia|]. case_decide; [done|]. exists 0. unfold fieldMin. lia. Qed.

Lemma admits_ge_min f max v : wf_clock f max -> admits f max v -> fieldMin f <= v.
Proof. unfold fieldMin. intros [? ?] [? A]. case_decide; [lia|]. destruct A as (k & ? & ->). nia. Qed.

(** [fieldAtLeast] is the least value of the field that is at least the bound. *)
Lemma fieldAtLeast_spec f from max : wf_clock f max ->
  match fieldAtLeast f from max with
  | Some v => admits f max v /\ from <= v /\ forall v', admits f max v' -> from <= v' -> v <= v'
  | None => forall v', admits f max v' -> v' < from
  end.
Proof.
  intros Hwf. pose proof Hwf as [Hb Hs]. unfold fieldAtLeast.
  case (Z.eqb_spec (step f) 0) as [E|E].
  - case (Z.ltb_spec (base f) from) as [L|L].
    + intros v' [_ A]. rewrite decide_True in A by done. lia.
    + split; [by apply admits_min|]. split; [done|]. intros v' Hv _. by apply (admits_ge_min f max).
  - case (Z.ltb_spec (base f) from) as [L|L].
    + pose proof (ceilDiv_spec (from - base f) (step f) ltac:(lia)) as C.
      set (k := ceilDiv (from - base f) (step f)) in *. assert (0 <= k) by nia.
      assert (Hmin : forall v', admits f max v' -> from <= v' -> base f + k * step f <= v').
      { intros v' [_ A] Hv. rewrite decide_False in A by done. destruct A as (j & ? & ->).
        assert (k <= j) by (apply Z.lt_pred_le, (Z.mul_lt_mono_pos_r (step f)); lia). nia. }
      case (Z.ltb_spec max (base f + k * step f)) as [G|G].
      * intros v' Hv. destruct (Z.lt_ge_cases v' from) as [|Hge]; [done|].
        pose proof (Hmin v' Hv Hge). pose proof (proj1 Hv). lia.
      * split; [|split; [lia|done]]. split; [done|]. rewrite decide_False by done. by exists k.
    + rewrite (proj2 (Z.ltb_ge max (base f))) by lia.
      split; [by apply admits_min|]. split; [done|]. intros v' Hv _. by apply (admits_ge_min f max).
Qed.

Lemma nextClock_least_aux i fh fm fs : wf_clocks i -> 0 <= fs <= 60 -> 0 <= fm <= 59 ->
  match nextClock i fh fm fs with
  | Some (h, m, s) =>
      admits_clock i h m s /\ tod fh fm fs <= tod h m s /\
      forall h' m' s', admits_clock i h' m' s' -> tod fh fm fs <= tod h' m' s' ->
        tod h m s <= tod h' m' s'
  | None => forall h' m' s', admits_clock i h' m' s' -> tod h' m' s' < tod fh fm fs
  end.
Proof.
  intros [Wh Wm Ws] Hfs Hfm. unfold nextClock, admits_clock, tod.
  pose proof (fun v => admits_range _ _ v Wh) as Rh. pose proof (fun v => admits_range _ _ v Wm) as Rm.
  pose proof (fun v => admits_range _ _ v Ws) as Rs.
  pose proof (fun v => admits_ge_min _ _ v Wm) as Gm. pose proof (fun v => admits_ge_min _ _ v Ws) as Gs.
  pose proof (admits_min _ _ Wm) as Am. pose proof (admits_min _ _ Ws) as As.
  pose proof (fieldAtLeast_spec _ fh 23 Wh) as Fh.
  pose proof (fieldAtLeast_spec _ (fh + 1) 23 Wh) as Fh1.
  pose proof (fieldAtLeast_spec _ fm 59 Wm) as Fm.
  pose proof (fieldAtLeast_spec _ (fm + 1) 59 Wm) as Fm1.
  pose proof (fieldAtLeast_spec _ fs 59 Ws) as Fs.
  destruct (fieldAtLeast (i_hour i) fh 23) as [h|].
  2:{ intros h' m' s' (Ah & Am' & As'). pose proof (Fh h' Ah). pose proof (Rm m' Am').
      pose proof (Rs s' As'). lia. }
  destruct Fh as (Ah & Hh & Mh). pose proof (Rm _ Am). pose proof (Rs _ As).
  case (Z.ltb_spec fh h) as [Lh|Lh].
  { split; [done|]. split; [lia|]. intros h' m' s' (Ah' & Am' & As') Hge.
    pose proof (Gm m' Am'). pose proof (Gs s' As'). pose proof (Rm m' Am'). pose proof (Rs s' As').
    assert (fh <= h') by lia. pose proof (Mh h' Ah' ltac:(lia)).
    destruct (decide (h' = h)); [subst; lia|lia]. }
  assert (h = fh) as -> by lia.
  (* The hour is spent: what the next hour gives. *)
  assert (Next : (forall m' s', admits (i_min i) 59 m' -> admits (i_sec i) 59 s' ->
        m' * 60 + s' < fm * 60 + fs) ->
    match match fieldAtLeast (i_hour i) (fh + 1) 23 with
          | Some h => Some (h, fieldMin (i_min i), fieldMin (i_sec i)) | None => None end with
    | Some (h, m, s) =>
        (admits (i_hour i) 23 h /\ admits (i_min i) 59 m /\ admits (i_sec i) 59 s) /\
        fh * 3600 + fm * 60 + fs <= h * 3600 + m * 60 + s /\
        forall h' m' s', admits (i_hour i) 23 h' /\ admits (i_min i) 59 m' /\ admits (i_sec i) 59 s' ->
          fh * 3600 + fm * 60 + fs <= h' * 3600 + m' * 60 + s' ->
          h * 3600 + m * 60 + s <= h' * 3600 + m' * 60 + s'
    | None => forall h' m' s',
        admits (i_hour i) 23 h' /\ admits (i_min i) 59 m' /\ admits (i_sec i) 59 s' ->
        h' * 3600 + m' * 60 + s' < fh * 3600 + fm * 60 + fs
    end).
  { intros Spent. destruct (fieldAtLeast (i_hour i) (fh + 1) 23) as [h|].
    - destruct Fh1 as (Ah1 & Hh1 & Mh1). split; [done|]. split; [lia|].
      intros h' m' s' (Ah' & Am' & As') Hge. pose proof (Spent m' s' Am' As').
      pose proof (Rm m' Am'). pose proof (Rs s' As').
      pose proof (Mh1 h' Ah' ltac:(lia)). pose proof (Gm m' Am'). pose proof (Gs s' As').
      destruct (decide (h' = h)); [subst; lia|lia].
    - intros h' m' s' (Ah' & Am' & As'). pose proof (Spent m' s' Am' As').
      pose proof (Fh1 h' Ah'). lia. }
  destruct (fieldAtLeast (i_min i) fm 59) as [m|].
  2:{ apply Next. intros m' s' Am' As'. pose proof (Fm m' Am'). pose proof (Rs s' As'). lia. }
  destruct Fm as (Am0 & Hm & Mm).
  case (Z.ltb_spec fm m) as [Lm|Lm].
  { split; [done|]. split; [lia|]. intros h' m' s' (Ah' & Am' & As') Hge.
    pose proof (Gs s' As'). pose proof (Rs s' As'). pose proof (Rm m' Am'). pose proof (Rm m Am0).
    pose proof (Mh h' Ah' ltac:(lia)). destruct (decide (h' = fh)); [|lia]. subst h'.
    pose proof (Mm m' Am' ltac:(lia)). destruct (decide (m' = m)); [subst; lia|lia]. }
  assert (m = fm) as -> by lia.
  destruct (fieldAtLeast (i_sec i) fs 59) as [s|].
  { destruct Fs as (As0 & Hs & Ms). split; [done|]. split; [lia|].
    intros h' m' s' (Ah' & Am' & As') Hge. pose proof (Rs s' As'). pose proof (Rm m' Am').
    pose proof (Rs s As0). pose proof (Mh h' Ah' ltac:(lia)). destruct (decide (h' = fh)); [|lia].
    subst h'. pose proof (Mm m' Am' ltac:(lia)). destruct (decide (m' = fm)); [|lia].
    subst m'. pose proof (Ms s' As' ltac:(lia)). lia. }
  destruct (fieldAtLeast (i_min i) (fm + 1) 59) as [m|].
  { destruct Fm1 as (Am1 & Hm1 & Mm1). split; [done|]. split; [lia|].
    intros h' m' s' (Ah' & Am' & As') Hge. pose proof (Rs s' As'). pose proof (Rm m' Am').
    pose proof (Rm m Am1). pose proof (Gs s' As'). pose proof (Fs s' As').
    pose proof (Mh h' Ah' ltac:(lia)). destruct (decide (h' = fh)); [|lia]. subst h'.
    pose proof (Mm1 m' Am' ltac:(lia)). destruct (decide (m' = m)); [subst; lia|lia]. }
  apply Next. intros m' s' Am' As'. pose proof (Fm1 m' Am'). pose proof (Fs s' As'). lia.
Qed.

(** * Wall clocks *)

(** A date and a clock name one wall clock. *)
Lemma wall_eq_date_clock a b :
  DateOf a = DateOf b /\ Clock a = Clock b <-> wall a = wall b.
Proof.
  split; [|unfold DateOf, Clock; by intros ->]. intros [D C].
  assert (Hd : wall a / 86400 = wall b / 86400).
  { pose proof (civil_from_days_spec (wall a / 86400)) as A.
    pose proof (civil_from_days_spec (wall b / 86400)) as B.
    unfold DateOf in D. rewrite D in A. destruct (civil_from_days _) as [[y m] d].
    destruct A as [_ <-]. by destruct B as [_ ->]. }
  unfold Clock in C. injection C as C1 C2 C3.
  destruct (clock_join (wall a mod 86400)) as [-> _] in *; [zlia|].
  destruct (clock_join (wall b mod 86400)) as [Eb _]; [zlia|].
  destruct (clock_join (wall a mod 86400)) as [Ea _]; [zlia|].
  pose proof (Z.div_mod (wall a) 86400). pose proof (Z.div_mod (wall b) 86400). lia.
Qed.

Lemma sameClock_wall a b : sameClock a b = bool_decide (wall a = wall b).
Proof. unfold sameClock. apply bool_decide_ext, wall_eq_date_clock. Qed.

Lemma unix_whole w l : unix (mkTime (w * Second) l) = w.
Proof. unfold unix. cbn. apply Z.div_mul. unfold Second. lia. Qed.

Lemma unix_whole_hour w l : unix (Add (mkTime (w * Second) l) Hour) = w + 3600.
Proof. unfold unix, Add, Hour, Minute. cbn [ns]. replace (w * Second + 60 * (60 * Second)) with ((w + 3600) * Second) by lia. apply Z.div_mul. unfold Second. lia. Qed.

Lemma wall_in_fixed off w : wall (mkTime ((w - off) * Second) (FixedZone off)) = w.
Proof. unfold wall, ZoneOffset. rewrite unix_whole. cbn. lia. Qed.

Section FixedOffset.
Context (off : Z).
Let L := FixedZone off.

Lemma Date_fixed y m d h mi s n : Date y m d h mi s n L =
  mkTime ((wall_of y m d h mi s - off) * Second + n) L.
Proof using. unfold Date, L. by rewrite from_wall_fixed. Qed.

Lemma resolveWall_fixed y m d h mi s :
  resolveWall L y m d h mi s = mkTime ((wall_of y m d h mi s - off) * Second) L.
Proof using.
  unfold resolveWall. rewrite Date_fixed. unfold Date, UTC. rewrite from_wall_fixed.
  rewrite !Z.add_0_r, !sameClock_wall, !wall_in_fixed. rewrite bool_decide_true by done.
  cbn [negb]. rewrite bool_decide_false; [done|].
  replace (Add (mkTime ((wall_of y m d h mi s - off) * Second) L) (- Hour))
    with (mkTime ((wall_of y m d h mi s - 3600 - off) * Second) L)
    by (unfold Add, Hour, Minute; cbn [ns loc]; f_equal; lia).
  rewrite wall_in_fixed. lia.
Qed.

Lemma sameClock_fixed_hour n : sameClock (mkTime n L) (Add (mkTime n L) Hour) = false.
Proof using.
  rewrite sameClock_wall. apply bool_decide_false. unfold wall, ZoneOffset, unix, Add.
  cbn [ns loc L FixedZone lookup_zone z_off]. unfold Hour, Minute, Second. zlia.
Qed.

Lemma repeatedMatch_fixed i now : repeatedMatch i now L = None.
Proof using. unfold repeatedMatch. unfold In. by rewrite sameClock_fixed_hour. Qed.
End FixedOffset.

(** [addDays] and the day of its result, for a location of one offset. *)
Lemma addDays_fixed off w n : wall (mkTime ((w - off) * Second) (FixedZone off)) = w ->
  addDays (mkTime ((w - off) * Second) (FixedZone off)) n =
  mkTime ((w + n * 86400 - off) * Second) (FixedZone off).
Proof.
  intros Hw. unfold addDays, DateOf, Clock. rewrite Hw.
  pose proof (civil_from_days_spec (w / 86400)) as S.
  destruct (civil_from_days (w / 86400)) as [[y m] d]. destruct S as [[Hm Hd] E].
  cbn [loc]. rewrite resolveWall_fixed. rewrite wall_of_valid by done. f_equal. f_equal.
  destruct (clock_join (w mod 86400)) as [Ej _]; [zlia|].
  rewrite (days_from_civil_day y m (d + n)). rewrite (days_from_civil_day y m d) in E.
  pose proof (Z.div_mod w 86400). lia.
Qed.

(** * The next match of a pattern under a fixed offset *)

(** The date half of a pattern, as a property of the day. *)
Definition date_ok (i : Instant) (day : Z) : bool :=
  let '(y, m, d) := civil_from_days day in
  ((i_year i =? wildcard) || (y =? i_year i)) && ((i_month i =? wildcard) || (m =? i_month i)) &&
  ((i_day i =? wildcard) || (d =? i_day i)) &&
  ((i_weekday i =? wildcard) || ((day + 4) mod 7 =? i_weekday i)).

Lemma matchesDate_date_ok i t : matchesDate i t = date_ok i (wall t / 86400).
Proof. done. Qed.

(** The wall clocks a pattern stands for. *)
Definition pattern_wall (i : Instant) (w : Z) : Prop :=
  date_ok i (w / 86400) = true /\
  admits_clock i (w mod 86400 / 3600) (w mod 86400 / 60 mod 60) (w mod 86400 mod 60).

Lemma tod_wall day h m s : valid_clock h m s ->
  (day * 86400 + tod h m s) / 86400 = day /\ (day * 86400 + tod h m s) mod 86400 = tod h m s.
Proof. intros (? & ? & ?). unfold tod. zlia. Qed.

Lemma admits_clock_valid i h m s : wf_clocks i -> admits_clock i h m s -> valid_clock h m s.
Proof.
  intros [Wh Wm Ws] (Ah & Am & As). split; [by apply (admits_range _ _ _ Wh)|].
  split; [by apply (admits_range _ _ _ Wm)|by apply (admits_range _ _ _ Ws)].
Qed.

Lemma pattern_wall_tod i day h m s : wf_clocks i ->
  date_ok i day = true -> admits_clock i h m s -> pattern_wall i (day * 86400 + tod h m s).
Proof.
  intros W D A. pose proof (admits_clock_valid i h m s W A) as V.
  unfold pattern_wall. destruct (tod_wall day h m s V) as [-> ->].
  destruct (clock_split h m s V) as (E1 & E2 & E3). unfold tod. by rewrite E1, E2, E3.
Qed.

Section NextMatch.
Context (off : Z) (i : Instant) (now : Time) (Hwf : wf_clocks i).
Let L := FixedZone off.
(** The first wall-clock second strictly after [now]. *)
Let lbw := ns now / Second + 1 + off.
Let day0 := lbw / 86400.
Let lb := In (Add (Truncate now Second) Second) L.
Let at_wall (w : Z) : Time := mkTime ((w - off) * Second) L.

Lemma lb_at_wall : lb = at_wall lbw.
Proof using.
  unfold lb, at_wall, In, Add, Truncate, lbw. cbn [ns]. f_equal.
  pose proof (Z.div_mod (ns now) Second). unfold Second in *. lia.
Qed.

Lemma after_now w : After (at_wall w) now = (lbw <=? w).
Proof using.
  unfold After, at_wall, lbw, Second. cbn [ns]. apply eq_true_iff_eq.
  rewrite Z.ltb_lt, Z.leb_le. zlia.
Qed.

Lemma clock_retries_fixed day y m d fh fm fs :
  civil_from_days day = (y, m, d) -> valid_clock fh fm fs -> lbw <= day * 86400 + tod fh fm fs ->
  clock_retries maxClockRetries i now L None y m d fh fm fs =
  '(h, mi, s) ← nextClock i fh fm fs; Some (at_wall (day * 86400 + tod h mi s)).
Proof using Hwf.
  intros E (_ & Hfm & Hfs) Hlb.
  pose proof (civil_from_days_spec day) as S. rewrite E in S. destruct S as [[Hm _] Ed].
  pose proof (nextClock_least_aux i fh fm fs Hwf ltac:(lia) ltac:(lia)) as N.
  unfold maxClockRetries. cbn [clock_retries].
  destruct (nextClock i fh fm fs) as [[[h mi] s]|]; [|done]. cbn.
  destruct N as (_ & Hge & _). unfold L. rewrite resolveWall_fixed, wall_of_valid, Ed by done.
  replace (day * 86400 + h * 3600 + mi * 60 + s) with (day * 86400 + tod h mi s)
    by (unfold tod; lia).
  fold L. fold (at_wall (day * 86400 + tod h mi s)). rewrite after_now.
  by rewrite (proj2 (Z.leb_le _ _)) by lia.
Qed.

Lemma day_walk_fixed days : forall n, 0 <= n ->
  match day_walk days n i now lb (at_wall (day0 * 86400 + 43200)) L None with
  | Some t => exists w, t = at_wall w /\ pattern_wall i w /\ lbw <= w /\
      forall w', pattern_wall i w' -> lbw <= w' -> day0 + n <= w' / 86400 -> w <= w'
  | None => forall w', pattern_wall i w' -> lbw <= w' -> day0 + n <= w' / 86400 ->
      day0 + n + Z.of_nat days <= w' / 86400
  end.
Proof using Hwf.
  induction days as [|days IH]; intros n Hn; [cbn [day_walk]; intros; lia|]. cbn [day_walk].
  assert (Hadd : addDays (at_wall (day0 * 86400 + 43200)) n =
    at_wall ((day0 + n) * 86400 + 43200)).
  { unfold at_wall, L. rewrite addDays_fixed by apply wall_in_fixed. do 3 f_equal. lia. }
  rewrite Hadd, matchesDate_date_ok.
  assert (Hdate : wall (at_wall ((day0 + n) * 86400 + 43200)) / 86400 = day0 + n).
  { unfold at_wall. rewrite wall_in_fixed. zlia. }
  unfold DateOf at 1. rewrite !Hdate. set (day := day0 + n) in *.
  destruct (civil_from_days day) as [[y m] d] eqn:E.
  specialize (IH (n + 1) ltac:(lia)). replace (day0 + (n + 1)) with (day + 1) in IH by lia.
  (* What remains once this day is known to hold no match. *)
  assert (Skip : (forall w', pattern_wall i w' -> lbw <= w' -> w' / 86400 <> day) ->
    match day_walk days (n + 1) i now lb (at_wall (day0 * 86400 + 43200)) L None with
    | Some t => exists w, t = at_wall w /\ pattern_wall i w /\ lbw <= w /\
        forall w', pattern_wall i w' -> lbw <= w' -> day <= w' / 86400 -> w <= w'
    | None => forall w', pattern_wall i w' -> lbw <= w' -> day <= w' / 86400 ->
        day + Z.of_nat (S days) <= w' / 86400
    end).
  { intros Hno. destruct (day_walk days (n + 1) _ _ _ _ _ _) as [t|].
    - destruct IH as (w & -> & Hp & Hl & Hmin). exists w. split; [done|]. split; [done|].
      split; [done|]. intros w' Hw' Hl' Hd'. pose proof (Hno w' Hw' Hl').
      apply Hmin; [done|done|lia].
    - intros w' Hw' Hl' Hd'. pose proof (Hno w' Hw' Hl'). pose proof (IH w' Hw' Hl'). lia. }
  destruct (date_ok i day) eqn:D; cbn [negb].
  2:{ apply Skip. intros w' [Hw' _] _ Eq. rewrite Eq in Hw'. congruence. }
  set (from := if n =? 0 then Clock lb else (0, 0, 0)).
  assert (Hfrom : exists fh fm fs, from = (fh, fm, fs) /\ valid_clock fh fm fs /\
    lbw <= day * 86400 + tod fh fm fs /\
    forall w', lbw <= w' -> w' / 86400 = day -> tod fh fm fs <= w' mod 86400).
  { unfold from. case (Z.eqb_spec n 0) as [->|Hne].
    - rewrite lb_at_wall. unfold Clock, at_wall. rewrite wall_in_fixed.
      destruct (clock_join (lbw mod 86400)) as [Ej V]; [zlia|].
      eexists _, _, _. split; [done|]. split; [done|]. unfold tod.
      rewrite <- Ej. unfold day, day0. split; [zlia|]. intros w' ? ?. zlia.
    - exists 0, 0, 0. split; [done|]. split; [by repeat split|]. unfold tod.
      unfold day, day0 in *. split; [zlia|]. intros w' ? ?. zlia. }
  destruct Hfrom as (fh & fm & fs & -> & V & Hlb & Hin).
  rewrite (clock_retries_fixed day y m d fh fm fs E V Hlb). destruct V as (_ & Hfm & Hfs).
  pose proof (nextClock_least_aux i fh fm fs Hwf ltac:(lia) ltac:(lia)) as N.
  assert (Hclock : forall w', w' / 86400 = day -> w' mod 86400 =
    tod (w' mod 86400 / 3600) (w' mod 86400 / 60 mod 60) (w' mod 86400 mod 60)).
  { intros w' _. destruct (clock_join (w' mod 86400)) as [Ej _]; [zlia|]. exact Ej. }
  destruct (nextClock i fh fm fs) as [[[h mi] s]|]; cbn.
  - destruct N as (A & Hge & Hmin). exists (day * 86400 + tod h mi s). split; [done|].
    split; [by apply pattern_wall_tod|]. split; [lia|]. intros w' [Dw Aw] Hl Hd.
    destruct (decide (w' / 86400 = day)) as [Eq|Hne].
    + pose proof (Hin w' Hl Eq). pose proof (Hclock w' Eq) as C.
      pose proof (Hmin _ _ _ Aw ltac:(rewrite <- C; lia)) as M. rewrite <- C in M.
      pose proof (Z.div_mod w' 86400). lia.
    + pose proof (admits_clock_valid i h mi s Hwf A) as V.
      destruct (tod_wall day h mi s V) as [E1 _]. zlia.
  - apply Skip. intros w' [Dw Aw] Hl Eq. pose proof (Hin w' Hl Eq).
    pose proof (N _ _ _ Aw) as Nw. rewrite <- (Hclock w' Eq) in Nw. lia.
Qed.

Lemma anchor_fixed :
  resolveWall L (Year lb) (Month lb) (Day lb) 12 0 0 = at_wall (day0 * 86400 + 43200).
Proof using.
  rewrite lb_at_wall. unfold L. rewrite resolveWall_fixed. fold L. unfold at_wall.
  f_equal. f_equal. unfold Year, Month, Day, DateOf. rewrite wall_in_fixed. fold day0.
  pose proof (civil_from_days_spec day0) as S. destruct (civil_from_days day0) as [[y m] d].
  destruct S as [[Hm _] E]. cbn. rewrite wall_of_valid, E by done. lia.
Qed.

Lemma nextMatch_fixed :
  match nextMatch i now L with
  | Ok t => exists w, t = at_wall w /\ pattern_wall i w /\ lbw <= w /\
      forall w', pattern_wall i w' -> lbw <= w' -> w <= w'
  | Err _ => forall w', pattern_wall i w' -> lbw <= w' ->
      day0 + Z.of_nat maxPatternDays < w' / 86400
  end.
Proof using Hwf.
  unfold nextMatch. fold lb. rewrite anchor_fixed. unfold L. rewrite repeatedMatch_fixed.
  fold L. pose proof (day_walk_fixed (S maxPatternDays) 0 ltac:(lia)) as W.
  assert (Hday : forall w', lbw <= w' -> day0 + 0 <= w' / 86400) by (unfold day0; zlia).
  destruct (day_walk (S maxPatternDays) 0 i now lb _ L None) as [t|].
  - destruct W as (w & Et & Hp & Hl & Hmin). exists w. split; [done|]. split; [done|].
    split; [done|]. intros w' Hw' Hl'. apply Hmin; auto.
  - intros w' Hw' Hl'. pose proof (W w' Hw' Hl' (Hday w' Hl')). lia.
Qed.
End NextMatch.

(** * What parsing establishes *)

Lemma parseClockValue_Ok p max v : parseClockValue p max = Ok v -> 0 <= v <= max.
Proof.
  unfold parseClockValue. destruct (negb (allDigits p)); [done|].
  destruct (Atoi p) as [n|]; [|done].
  destruct ((n <? 0) || (max <? n)) eqn:E; [done|]. intros [= <-].
  apply orb_false_iff in E as [?%Z.ltb_ge ?%Z.ltb_ge]. lia.
Qed.

Lemma parseClockField_Ok s p max pat f : 1 <= max ->
  parseClockField s p max pat = Ok f -> wf_clock f max.
Proof.
  intros Hmax. unfold parseClockField, wf_clock. destruct (String.eqb p "*").
  { destruct pat; [|done]. intros [= <-]. cbn. lia. }
  destruct (Cut p "/") as [[b st]|].
  - destruct pat; [|done]. destruct (String.eqb b "*"); [done|]. cbn [negb].
    intros (v & Hv%parseClockValue_Ok & H)%bind_Ok.
    destruct (Atoi st) as [n|]; [|done].
    destruct (negb (allDigits st) || (n <? 1)) eqn:E1; [done|].
    case (Z.ltb_spec max n) as [|L] in H; [done|]. injection H as <-. cbn.
    apply orb_false_iff in E1 as [_ ?%Z.ltb_ge]. lia.
  - intros (v & Hv%parseClockValue_Ok & [= <-])%bind_Ok. cbn. lia.
Qed.

Lemma parseClock_Ok s pat h m sec : parseClock s pat = Ok (h, m, sec) ->
  wf_clock h 23 /\ wf_clock m 59 /\ wf_clock sec 59.
Proof.
  unfold parseClock. destruct (Split s ":") as [|a [|b [|c [|]]]]; try done.
  - intros (fh & Eh & (fm & Em & [= <- <- <-])%bind_Ok)%bind_Ok.
    split; [by eapply parseClockField_Ok; [|exact Eh]; lia|].
    split; [by eapply parseClockField_Ok; [|exact Em]; lia|]. unfold wf_clock. cbn. lia.
  - intros (fh & Eh & (fm & Em & (fs & Es & [= <- <- <-])%bind_Ok)%bind_Ok)%bind_Ok.
    split; [by eapply parseClockField_Ok; [|exact Eh]; lia|].
    split; [by eapply parseClockField_Ok; [|exact Em]; lia|].
    by eapply parseClockField_Ok; [|exact Es]; lia.
Qed.

Definition field_ok (v lo hi : Z) : Prop := v = wildcard \/ lo <= v <= hi.

Lemma date_field_Ok s lo hi v : date_field s lo hi = Ok v -> field_ok v lo hi.
Proof.
  unfold date_field. destruct (String.eqb s "*"); [intros [= <-]; by left|].
  destruct (Atoi s) as [n|]; [|done].
  destruct (negb (allDigits s) || (n <? lo) || (hi <? n)) eqn:E; [done|]. intros [= <-].
  rewrite !orb_false_iff, !Z.ltb_ge in E. right. lia.
Qed.

Definition tokens_ok (acc : date_tokens) : Prop :=
  match t_weekday acc with Some wd => 0 <= wd <= 6 | None => True end /\
  match t_date acc with
  | Some (y, m, d) => field_ok y 1970 9999 /\ field_ok m 1 12 /\ field_ok d 1 31
  | None => True
  end.

Lemma weekday_of_range tok wd : weekday_of tok = Some wd -> 0 <= wd <= 6.
Proof.
  unfold weekday_of. destruct (List.find _ weekdays) as [[name v]|] eqn:E; [|done].
  intros [= <-]. apply List.find_some in E as [E _]. cbn.
  repeat (destruct E as [E|E]; [injection E as _ <-; lia|]). destruct E.
Qed.

Lemma parse_tokens_Ok toks : forall acc acc', tokens_ok acc ->
  parse_tokens toks acc = Ok acc' -> tokens_ok acc'.
Proof.
  induction toks as [|tok toks IH]; intros acc acc' H; cbn [parse_tokens]; [by intros [= <-]|].
  destruct (weekday_of tok) as [wd|] eqn:W.
  - destruct (t_weekday acc); [done|]. apply IH. split; [by apply (weekday_of_range tok)|apply H].
  - destruct (Contains tok "-"); [|done]. cbn [negb]. destruct (t_date acc); [done|].
    destruct (Split tok "-") as [|y [|m [|d [|]]]]; try done.
    intros (vy & Ey%date_field_Ok & (vm & Em%date_field_Ok & (vd & Ed%date_field_Ok & E)%bind_Ok)%bind_Ok)%bind_Ok.
    revert E. apply IH. split; [apply H|done].
Qed.

(** An instant the resolver can be trusted with: clock fields on their dials and,
    for a pattern, every date field a wildcard or on its dial. *)
Record wf_instant (i : Instant) : Prop := mkWfInstant {
  wf_i_clocks : wf_clocks i;
  wf_i_date : i_kind i = kindPattern ->
    field_ok (i_year i) 1970 9999 /\ field_ok (i_month i) 1 12 /\ field_ok (i_day i) 1 31 /\
    field_ok (i_weekday i) 0 6;
  wf_i_single : i_kind i <> kindPattern ->
    step (i_hour i) = 0 /\ step (i_min i) = 0 /\ step (i_sec i) = 0 }.

Lemma parsePattern_wf raw body i : parsePattern raw body = Ok i -> wf_instant i.
Proof.
  unfold parsePattern. destruct (last (Fields body)) as [clock|]; [|done].
  intros ([[h m] sec] & Hc%parseClock_Ok & (acc & Ha & H)%bind_Ok)%bind_Ok.
  apply parse_tokens_Ok in Ha as [Hw Hd]; [|done].
  destruct (default _ (t_date acc)) as [[y mo] d] eqn:Ed.
  assert (Hi : i = mkInstant raw kindPattern 0 no_duration y mo d
    (default wildcard (t_weekday acc)) h m sec).
  { destruct ((0 <=? mo) && (0 <=? d)); [destruct (daysIn 2024 mo <? d)|]; congruence. }
  subst i. split; cbn.
  - by destruct Hc as (? & ? & ?).
  - intros _. assert (field_ok y 1970 9999 /\ field_ok mo 1 12 /\ field_ok d 1 31).
    { destruct (t_date acc) as [[[y' mo'] d']|]; cbn in Ed; injection Ed as <- <- <-; [done|].
      by repeat split; left. }
    split; [tauto|]. split; [tauto|]. split; [tauto|].
    destruct (t_weekday acc); cbn; [by right|by left].
  - done.
Qed.

Lemma parseClockField_single s p max f : parseClockField s p max false = Ok f -> step f = 0.
Proof.
  unfold parseClockField. destruct (String.eqb p "*"); [done|].
  destruct (Cut p "/") as [[b st]|]; [done|].
  by intros (v & _ & [= <-])%bind_Ok.
Qed.

Lemma parseClock_single s h m sec : parseClock s false = Ok (h, m, sec) ->
  step h = 0 /\ step m = 0 /\ step sec = 0.
Proof.
  unfold parseClock. destruct (Split s ":") as [|a [|b [|c [|]]]]; try done.
  - by intros (fh & ?%parseClockField_single & (fm & ?%parseClockField_single & [= <- <- <-])%bind_Ok)%bind_Ok.
  - by intros (fh & ?%parseClockField_single & (fm & ?%parseClockField_single &
      (fs & ?%parseClockField_single & [= <- <- <-])%bind_Ok)%bind_Ok)%bind_Ok.
Qed.

Lemma parseOffset_wf raw body i : parseOffset raw body = Ok i -> wf_instant i.
Proof.
  unfold parseOffset. destruct (Fields body) as [|d [|clock [|]]]; try done.
  intros (off & _ & ([[h m] sec] & Hc & [= <-])%bind_Ok)%bind_Ok.
  pose proof (parseClock_Ok _ _ _ _ _ Hc) as (? & ? & ?).
  pose proof (parseClock_single _ _ _ _ Hc). by split; cbn.
Qed.

Definition fields_clock_ok (f : fields_read) : Prop := valid_clock (f_hour f) (f_min f) (f_sec f).

Lemma in_range_Some lo hi r n s : in_range lo hi r = Some (n, s) -> lo <= n <= hi.
Proof.
  unfold in_range. destruct r as [[n' s']|]; [|done].
  destruct ((lo <=? n') && (n' <=? hi)) eqn:E; [|done]. intros [= <- _].
  rewrite andb_true_iff, !Z.leb_le in E. lia.
Qed.

Lemma parse_chunks_clock layout : forall s f f', fields_clock_ok f ->
  parse_chunks layout s f = Some f' -> fields_clock_ok f'.
Proof.
  induction layout as [|c layout IH]; intros s [y mo d h mi se nn z] f' Hf; cbn [parse_chunks].
  { destruct s; [by intros [= <-]|done]. }
  unfold fields_clock_ok, valid_clock in *. cbn in Hf.
  destruct c; repeat first
    [ done
    | progress intros
    | match goal with
      | H : (_ ≫= _) = Some _ |- _ => apply bind_Some in H as (? & ? & ?)
      | H : in_range _ _ _ = Some (_, _) |- _ => apply in_range_Some in H
      | H : (let '(_, _) := ?p in _) = Some _ |- _ => destruct p
      | H : match ?x with _ => _ end = Some _ |- _ => destruct x eqn:?
      end
    | match goal with H : parse_chunks _ _ _ = Some _ |- _ => revert H; apply IH; cbn; lia end ].
Qed.

Lemma parse_any_clock layouts s f : parse_any layouts s = Some f -> fields_clock_ok f.
Proof.
  induction layouts as [|l layouts IH]; cbn [parse_any]; [done|].
  destruct (Parse l s) as [f'|] eqn:E; [|apply IH]. intros [= <-].
  unfold Parse in E. apply bind_Some in E as (f'' & E & H).
  destruct (_ && _) in H; [|done]. injection H as <-.
  apply parse_chunks_clock in E; [done|]. unfold fields_clock_ok, valid_clock. cbn. lia.
Qed.

Lemma ParseInstant_wf_aux zoneinfo s i : ParseInstant zoneinfo s = Ok i -> wf_instant i.
Proof.
  unfold ParseInstant. destruct (String.eqb _ ""); [done|].
  intros (body & _ & H)%bind_Ok.
  destruct (parse_any absoluteLayouts body) as [f|].
  { injection H as <-. split; cbn; [|done|done]. split; unfold wf_clock; cbn; lia. }
  destruct (parse_any wallLayouts body) as [f|] eqn:E.
  { injection H as <-. apply parse_any_clock in E as (? & ? & ?).
    split; cbn; [|done|done]. split; unfold wf_clock; cbn; lia. }
  destruct (HasPrefix body "+"); [by apply parseOffset_wf in H|by apply parsePattern_wf in H].
Qed.

(** * Durations are exact *)

(** A component read from the text: a count and the unit it counts. *)
Definition component := (Z * unit_kind)%type.
Definition fixed_part (c : component) : Z := match c.2 with FixedUnit u => c.1 * u | _ => 0 end.
Definition day_part (c : component) : Z := match c.2 with DayUnit k => c.1 * k | _ => 0 end.
Definition month_part (c : component) : Z := match c.2 with MonthUnit k => c.1 * k | _ => 0 end.
Definition total (f : component -> Z) (cs : list component) : Z := foldr (fun c a => f c + a) 0 cs.

Lemma total_cons f c cs : total f (c :: cs) = f c + total f cs.
Proof. done. Qed.

Definition duration_ok (d : Duration) : Prop :=
  0 <= d_fixed d <= max_int64 /\ 0 <= d_days d <= max_int64 /\ 0 <= d_months d <= max_int64.

Definition unit_ok (u : unit_kind) : Prop :=
  match u with FixedUnit k | DayUnit k | MonthUnit k => 1 <= k <= max_int64 end.

(** The guarded sum is the exact sum, and it fails only when that does not fit. *)
Lemma addCalendar_spec field n k : 0 <= field <= max_int64 -> 0 <= n -> 1 <= k <= max_int64 ->
  addCalendar field n k =
    if bool_decide (field + n * k <= max_int64) then Some (field + n * k) else None.
Proof.
  intros Hf Hn Hk. unfold addCalendar. unfold max_int64 in *.
  case (Z.ltb_spec (9223372036854775807 / k) n) as [L|L].
  { rewrite bool_decide_false; [done|]. intros ?. Z.div_mod_to_equations. nia. }
  assert (n * k <= 9223372036854775807) by (Z.div_mod_to_equations; nia).
  rewrite (i64_small (n * k)) by (unfold in_i64, min_int64, max_int64; nia).
  rewrite i64_small by (unfold in_i64, min_int64, max_int64; nia).
  case (Z.ltb_spec (9223372036854775807 - n * k) field) as [G|G].
  - by rewrite bool_decide_false by lia.
  - rewrite bool_decide_true by lia. rewrite i64_small; [done|].
    unfold in_i64, min_int64, max_int64. nia.
Qed.

Lemma addFixed_addCalendar d n unit :
  addFixed d n unit =
    v ← addCalendar (d_fixed d) n unit; Some (mkDuration (d_src d) v (d_days d) (d_months d)).
Proof. unfold addFixed, addCalendar. by repeat case_match. Qed.

Definition add_component (d : Duration) (c : component) : Duration :=
  mkDuration (d_src d) (d_fixed d + fixed_part c) (d_days d + day_part c) (d_months d + month_part c).

Lemma apply_unit_spec d n u : duration_ok d -> 0 <= n -> unit_ok u ->
  apply_unit u d n =
    if bool_decide (duration_ok (add_component d (n, u))) then Some (add_component d (n, u)) else None.
Proof.
  intros (Hf & Hd & Hm) Hn Hu. unfold duration_ok, add_component, fixed_part, day_part, month_part.
  destruct u as [k|k|k]; cbn [apply_unit fst snd d_fixed d_days d_months] in *.
  all: rewrite ?addFixed_addCalendar, addCalendar_spec by done.
  all: rewrite !Z.add_0_r; destruct d as [src f dd mm]; cbn in *.
  all: case_bool_decide as B; cbn; symmetry.
  all: first [by rewrite bool_decide_true by nia | by rewrite bool_decide_false by lia].
Qed.

Lemma durUnits_ok : Forall (fun e => unit_ok e.2) durUnits.
Proof. repeat constructor; vm_compute; congruence. Qed.

Lemma match_unit_in us rest suffix u r :
  match_unit us rest = Some (suffix, u, r) -> (suffix, u) ∈ us /\ rest = suffix +:+ r.
Proof.
  induction us as [|[sf k] us IH]; cbn [match_unit]; [done|].
  destruct (strip_prefix sf rest) as [r'|] eqn:E.
  - intros [= <- <- <-]. apply strip_prefix_Some in E. split; [set_solver|done].
  - intros [? ?]%IH. split; [set_solver|done].
Qed.

(** The text of a duration and the components it reads as. *)
Inductive dur_text : string -> list component -> Prop :=
  | dur_text_nil s : TrimLeftBlank s = "" -> dur_text s []
  | dur_text_cons s ds suffix u r cs :
      TrimLeftBlank s = ds +:+ suffix +:+ r -> ds <> "" -> all_digits ds = true ->
      (suffix, u) ∈ durUnits -> dur_text r cs -> dur_text s ((dec_val 0 ds, u) :: cs).

Lemma parse_components_spec fuel : forall d s any d' any', duration_ok d ->
  parse_components fuel d s any = Ok (d', any') ->
  exists cs, dur_text s cs /\ duration_ok d' /\ (any' = any || negb (bool_decide (cs = []))) /\
    d_fixed d' = d_fixed d + total fixed_part cs /\ d_days d' = d_days d + total day_part cs /\
    d_months d' = d_months d + total month_part cs /\ d_src d' = d_src d.
Proof.
  induction fuel as [|fuel IH]; intros d s any d' any' Hd; [done|]. cbn [parse_components].
  destruct (String.eqb (TrimLeftBlank s) "") eqn:Z0.
  { intros [= <- <-]. apply String.eqb_eq in Z0. exists [].
    split; [by constructor|]. split; [done|]. cbn. rewrite orb_false_r. split; [done|]. cbn [total foldr]. rewrite !Z.add_0_r. done. }
  pose proof (span_digits_spec (TrimLeftBlank s)) as Hs.
  destruct (span_digits (TrimLeftBlank s)) as [ds after]. destruct Hs as (Es & Hds & _).
  destruct (String.eqb_spec ds "") as [|Hne]; [done|].
  rewrite ParseInt10_digits by done. case_bool_decide as Hn; [|done].
  destruct (String.eqb after ""); [done|].
  destruct (match_unit durUnits after) as [[[suffix u] r]|] eqn:Em; [|done].
  apply match_unit_in in Em as [Hin ->].
  pose proof durUnits_ok as Hu. rewrite Forall_forall in Hu. specialize (Hu _ Hin). cbn in Hu.
  pose proof (dec_val_nonneg ds 0 ltac:(lia) Hds).
  rewrite apply_unit_spec by done. case_bool_decide as Hok; [|done].
  intros (cs & Ht & Hd' & Ea & E1 & E2 & E3 & E4)%IH; [|done].
  exists ((dec_val 0 ds, u) :: cs). split; [by econstructor|]. split; [done|].
  rewrite Ea. split; [by destruct any|]. rewrite !total_cons.
  cbn [add_component d_fixed d_days d_months d_src] in *. split_and!; [lia..|done].
Qed.

Lemma strip_prefix_app_digits a b c s :
  is_digit a = true -> is_digit b = false -> strip_prefix (String b c) (String a s) = None.
Proof. intros Ha Hb. simpl. destruct (Ascii.eqb_spec b a) as [->|]; [congruence|done]. Qed.

(** ** Formatting and reading back *)

(** A count with a suffix of [durUnits]. *)
Definition counted := (Z * (string * unit_kind))%type.
Definition render_component (c : counted) : string := FormatNat c.1 +:+ c.2.1.
Definition render_components (cs : list counted) : string :=
  foldr (fun c s => render_component c +:+ s) "" cs.
Definition component_of (c : counted) : component := (c.1, c.2.2).
Definition counted_ok (c : counted) : Prop := 0 <= c.1 <= max_int64 /\ c.2 ∈ durUnits.

Definition digit_or_end (s : string) : Prop :=
  match s with "" => True | String c _ => is_digit c = true end.

Lemma render_digit_or_end cs : Forall counted_ok cs -> digit_or_end (render_components cs).
Proof.
  intros [|[n [sf u]] cs' [[Hn _] _] _]; [done|]. cbn [render_components foldr fst] in *.
  unfold render_component. cbn [fst snd] in *. destruct (FormatNat_spec n) as (Ha & Hne & _); [lia|].
  destruct (FormatNat n) as [|c ds]; [done|]. simpl in *. by apply andb_prop in Ha as [-> _].
Qed.

(** Decides a comparison of two literal characters, or of one known to differ. *)
Local Ltac compare_chars :=
  match goal with
  | |- context [Ascii.eqb ?a ?b] =>
      match eval vm_compute in (Ascii.eqb a b) with
      | true => change (Ascii.eqb a b) with true
      | false => change (Ascii.eqb a b) with false
      end
  end.
Local Ltac rewrite_match :=
  match goal with H : Ascii.eqb ?a ?b = false |- context [Ascii.eqb ?a ?b] => rewrite H end.

(** A suffix followed by a digit or the end is read as that unit, although "m"
    starts "ms" and "mo". *)
Lemma match_unit_suffix sf u r : (sf, u) ∈ durUnits -> digit_or_end r ->
  match_unit durUnits (sf +:+ r) = Some (sf, u, r) /\
  exists c t, sf = String c t /\ is_digit c = false.
Proof.
  intros H Hr. unfold durUnits in H. rewrite !elem_of_cons in H.
  rewrite elem_of_nil in H.
  assert (Hnb : forall d, is_digit d = false ->
    match r with "" => True | String c _ => Ascii.eqb d c = false end).
  { intros d Hd. destruct r as [|c r]; [done|]. apply Ascii.eqb_neq. intros ->. simpl in Hr. congruence. }
  destruct_or! H; injection H as -> ->; (split; [|by eexists _, _]).
  all: pose proof (Hnb "s"%char eq_refl); pose proof (Hnb "o"%char eq_refl).
  all: destruct r as [|c r]; [by vm_compute|]; simpl; repeat (compare_chars || rewrite_match); done.
Qed.

Lemma TrimLeftBlank_digit c s : is_digit c = true -> TrimLeftBlank (String c s) = String c s.
Proof.
  unfold is_digit. intros [?%Z.leb_le ?%Z.leb_le]%andb_prop. simpl.
  by rewrite (proj2 (Z.eqb_neq _ 32)), (proj2 (Z.eqb_neq _ 9)) by lia.
Qed.

Lemma total_nonneg cs : Forall counted_ok cs ->
  0 <= total fixed_part (component_of <$> cs) /\ 0 <= total day_part (component_of <$> cs) /\
  0 <= total month_part (component_of <$> cs).
Proof.
  induction 1 as [|[n [sf u]] cs [[Hn _] Hu] Hcs IH]; [done|]. cbn [fmap list_fmap].
  rewrite !total_cons. pose proof durUnits_ok as Hk. rewrite Forall_forall in Hk.
  specialize (Hk _ Hu). cbn [fst snd] in *. unfold fixed_part, day_part, month_part, component_of in *.
  destruct u; cbn [fst snd unit_ok] in *; nia.
Qed.

Lemma parse_components_render cs : forall fuel d any, Forall counted_ok cs -> duration_ok d ->
  (length cs < fuel)%nat ->
  let d' := mkDuration (d_src d) (d_fixed d + total fixed_part (component_of <$> cs))
    (d_days d + total day_part (component_of <$> cs))
    (d_months d + total month_part (component_of <$> cs)) in
  duration_ok d' ->
  parse_components fuel d (render_components cs) any = Ok (d', any || negb (bool_decide (cs = []))).
Proof.
  induction cs as [|[n [sf u]] cs IH]; intros fuel d any Hcs Hd Hf d' Hd'; destruct fuel as [|fuel];
    cbn [length] in Hf; [lia| |lia|].
  { cbn. rewrite orb_false_r. unfold d'. cbn. rewrite !Z.add_0_r. by destruct d. }
  inversion Hcs as [|? ? [Hn Hu] Hcs']; subst. cbn [fst snd] in *.
  destruct (FormatNat_spec n) as (Ha & Hne & Hv); [lia|].
  pose proof (render_digit_or_end cs Hcs') as Hr.
  destruct (match_unit_suffix sf u (render_components cs) Hu Hr) as (Hm & c & t & Esf & Hc).
  pose proof durUnits_ok as Hk. rewrite Forall_forall in Hk. specialize (Hk _ Hu). cbn [snd] in Hk.
  cbn [parse_components]. change (render_components ((n, (sf, u)) :: cs))
    with ((FormatNat n +:+ sf) +:+ render_components cs). rewrite str_app_assoc.
  assert (Hbl : TrimLeftBlank (FormatNat n +:+ sf +:+ render_components cs)
    = FormatNat n +:+ sf +:+ render_components cs).
  { destruct (FormatNat n) as [|c0 ds]; [done|]. simpl in Ha. apply andb_prop in Ha as [Hc0 _].
    by apply TrimLeftBlank_digit. }
  rewrite Hbl. assert (Hz : String.eqb (FormatNat n +:+ sf +:+ render_components cs) "" = false)
    by (by destruct (FormatNat n)).
  rewrite Hz. rewrite span_digits_app; [|done|by subst sf].
  destruct (String.eqb_spec (FormatNat n) ""); [done|]. rewrite ParseInt10_FormatNat by done.
  assert (Hz2 : String.eqb (sf +:+ render_components cs) "" = false) by (by subst sf).
  rewrite Hz2, Hm, apply_unit_spec by (done || lia).
  destruct (total_nonneg cs Hcs') as (T1 & T2 & T3).
  unfold d' in Hd'. cbn [fmap list_fmap] in Hd'. rewrite !total_cons in Hd'.
  change (component_of (n, (sf, u))) with (n, u) in Hd'.
  assert (Hok : duration_ok (add_component d (n, u))).
  { destruct Hd as (D1 & D2 & D3). destruct Hd' as (E1 & E2 & E3).
    unfold duration_ok, add_component. cbn [d_fixed d_days d_months] in *.
    assert (0 <= fixed_part (n, u) /\ 0 <= day_part (n, u) /\ 0 <= month_part (n, u)).
    { unfold fixed_part, day_part, month_part. destruct u; cbn [fst snd unit_ok] in *; nia. }
    lia. }
  rewrite bool_decide_true by done.
  rewrite (IH fuel (add_component d (n, u)) true Hcs' Hok); [|lia|].
  - unfold d'. cbn [fmap list_fmap add_component d_src d_fixed d_days d_months].
    rewrite !total_cons, !Z.add_assoc. rewrite orb_true_r. done.
  - cbn [add_component d_fixed d_days d_months]. by rewrite <- !Z.add_assoc.
Qed.

Lemma render_length cs : Forall counted_ok cs -> (length cs <= String.length (render_components cs))%nat.
Proof.
  induction 1 as [|[n [sf u]] cs [[Hn _] _] _ IH]; [done|]. cbn [render_components foldr length].
  rewrite str_length_app. unfold render_component at 1. cbn [fst snd] in *. rewrite str_length_app.
  destruct (FormatNat_spec n) as (_ & Hne & _); [lia|].
  unfold render_components in IH. destruct (FormatNat n); [done|]. cbn. lia.
Qed.

Lemma parse_components_fuel fuel : forall d s any, (String.length s < fuel)%nat ->
  parse_components fuel d s any <> Err DurOutOfFuel.
Proof.
  assert (Htl : forall s, (String.length (TrimLeftBlank s) <= String.length s)%nat).
  { induction s as [|c s IH]; simpl; [done|]. destruct (_ || _); simpl; lia. }
  induction fuel as [|fuel IH]; intros d s any Hl; [lia|]. cbn [parse_components].
  destruct (String.eqb (TrimLeftBlank s) ""); [done|].
  pose proof (span_digits_spec (TrimLeftBlank s)) as Hs.
  destruct (span_digits (TrimLeftBlank s)) as [ds after]. destruct Hs as (Es & _).
  destruct (String.eqb_spec ds "") as [|Hne]; [done|].
  destruct (ParseInt10 ds); [|done]. destruct (String.eqb after ""); [done|].
  destruct (match_unit durUnits after) as [[[sf u] r]|] eqn:Em; [|done].
  apply match_unit_in in Em as [_ ->]. destruct (apply_unit u d z); [|done].
  apply IH. pose proof (Htl s) as H. rewrite Es, !str_length_app in H.
  destruct ds; [done|]. cbn in H. lia.
Qed.

(** * Locations with one change of offset *)

(** Offset [o1] until the second [T], [o2] from then on. *)
Definition OneShift (T o1 o2 : Z) : Location :=
  mkLocation (fun t => if t <? T then mkZone o1 min_int64 T else mkZone o2 T max_int64).

Definition in_range_time (t : Z) : Prop := min_int64 <= t < max_int64.

Section OneShift.
Context (T o1 o2 : Z).
Let L := OneShift T o1 o2.
Let off (u : Z) : Z := if u <? T then o1 else o2.

Lemma lookup_shift u : z_off (lookup_zone L u) = off u.
Proof using. unfold off. cbn. by destruct (u <? T). Qed.

Lemma ZoneOffset_shift u : ZoneOffset (mkTime (u * Second) L) = off u.
Proof using. unfold ZoneOffset. rewrite unix_whole. cbn [loc]. apply lookup_shift. Qed.

Lemma wall_shift u : wall (mkTime (u * Second) L) = u + off u.
Proof using. unfold wall, ZoneOffset. rewrite unix_whole. cbn [loc]. by rewrite lookup_shift. Qed.

Lemma from_wall_shift w : in_range_time (w - o1) -> in_range_time (w - o2) ->
  from_wall L w = if w <? T then (if w - o1 <? T then w - o1 else w - o2)
                  else (if w - o2 <? T then w - o1 else w - o2).
Proof using.
  unfold in_range_time, min_int64, max_int64. intros H1 H2. unfold from_wall. rewrite lookup_shift.
  unfold off, L. cbn [OneShift lookup_zone]. fold L.
  case (Z.ltb_spec w T) as [Hw|Hw]; cbn [z_start z_end z_off].
  - case (Z.eqb_spec o1 0) as [->|Hz]; [by rewrite Z.sub_0_r, (proj2 (Z.ltb_lt w T))|].
    unfold min_int64. rewrite (proj2 (Z.ltb_ge _ _)) by lia. cbn [orb].
    case (Z.leb_spec T (w - o1)) as [E|E]; case (Z.ltb_spec (w - o1) T) as [E'|E']; (lia || done).
  - case (Z.eqb_spec o2 0) as [->|Hz]; [by rewrite Z.sub_0_r, (proj2 (Z.ltb_ge w T))|].
    unfold max_int64. rewrite (proj2 (Z.leb_gt _ (w - o2))) by lia. rewrite orb_false_r.
    by case (Z.ltb_spec (w - o2) T).
Qed.

Lemma Date_shift y m d h mi s :
  let w := wall_of y m d h mi s in
  Date y m d h mi s 0 L = mkTime (from_wall L w * Second) L /\
  Date y m d h mi s 0 UTC = mkTime (w * Second) UTC.
Proof using. unfold Date, UTC. rewrite from_wall_fixed, !Z.add_0_r, Z.sub_0_r. done. Qed.

Lemma Add_whole u k l : Add (mkTime (u * Second) l) (k * Second) = mkTime ((u + k) * Second) l.
Proof using. unfold Add. cbn [ns loc]. f_equal. lia. Qed.

Lemma skippedForward_shift w : o1 <= o2 -> w - o2 < T <= w - o1 ->
  skippedForward L (mkTime (w * Second) UTC) = mkTime ((w - o1) * Second) L.
Proof using.
  intros Ho Hg. unfold skippedForward.
  assert (Eo : forall u, ZoneOffset (In (mkTime (u * Second) UTC) L) = off u)
    by (intros; apply ZoneOffset_shift).
  assert (Ea : forall k, Add (mkTime (w * Second) UTC) (- k * Second) = mkTime ((w - k) * Second) UTC)
    by (intros; unfold Add; cbn [ns loc]; f_equal; lia).
  rewrite Eo, (Ea (off w)), Eo, Ea. unfold After, In. cbn [ns].
  assert (Ew : off w = if w <? T then o1 else o2) by done.
  assert (Ew2 : off (w - off w) = if w <? T then o2 else o1).
  { unfold off. case (Z.ltb_spec w T); case (Z.ltb_spec _ T); lia. }
  rewrite Ew2, Ew. unfold Second.
  case (Z.ltb_spec w T); case (Z.ltb_spec _ _); intros; f_equal; lia.
Qed.

Lemma resolveWall_shift y m d h mi s :
  let w := wall_of y m d h mi s in
  in_range_time (w - o1) -> in_range_time (w - o2) -> o1 <= o2 \/ o1 - o2 = 3600 ->
  resolveWall L y m d h mi s =
    mkTime ((if (w - o1 <? T) || (w - o2 <? T) then w - o1 else w - o2) * Second) L.
Proof using.
  intros w H1 H2 Ho. unfold resolveWall. destruct (Date_shift y m d h mi s) as [-> ->]. fold w.
  rewrite !sameClock_wall, wall_shift, (from_wall_shift w H1 H2).
  replace (wall (mkTime (w * Second) UTC)) with w
    by (unfold wall, ZoneOffset; rewrite unix_whole; cbn; lia).
  replace (- Hour) with (-3600 * Second) by done. rewrite Add_whole, !wall_shift.
  unfold off.
  repeat case_bool_decide; repeat match goal with
    | |- context [?a <? ?b] => case (Z.ltb_spec a b) as [?|?]; cbn [orb negb] in *
    | H : context [?a <? ?b] |- _ => case (Z.ltb_spec a b) as [?|?]; cbn [orb negb] in *
    end; try lia; cbn [negb orb] in *; try (f_equal; f_equal; lia).
  all: try (rewrite skippedForward_shift by lia; done).
Qed.

Lemma bisect_step k lo hi : o1 <> o2 -> 0 <= k ->
  lo < T * Second <= hi -> hi - lo <= 2 ^ k * Second ->
  match bisect_body o1 (mkTime lo L, mkTime hi L) with
  | inl (lo', hi') => exists l h, lo' = mkTime l L /\ hi' = mkTime h L /\
      l < T * Second <= h /\ 1 <= k /\ h - l <= 2 ^ (k - 1) * Second
  | inr t => t = mkTime hi L /\ hi - lo <= Second
  end.
Proof using.
  intros Hne Hk Hr Hd. unfold bisect_body, Sub. cbn [ns].
  case (Z.ltb_spec Second (hi - lo)) as [G|G]; [|done].
  assert (Hk1 : 1 <= k).
  { destruct (decide (k = 0)) as [->|]; [|lia]. change (2 ^ 0) with 1 in Hd. lia. }
  replace (2 ^ k) with (2 * 2 ^ (k - 1)) in Hd
    by (rewrite <- Z.pow_succ_r by lia; f_equal; lia).
  unfold Add. cbn [ns loc]. rewrite Z.quot_div_nonneg by (unfold Second in *; lia).
  set (mid := lo + (hi - lo) / 2).
  assert (Ho : ZoneOffset (mkTime mid L) = if mid <? T * Second then o1 else o2).
  { unfold ZoneOffset. cbn [loc]. rewrite lookup_shift. unfold off, unix. cbn [ns].
    unfold Second. case (Z.ltb_spec (mid / 1000000000) T); case (Z.ltb_spec mid (T * 1000000000)); zlia. }
  rewrite Ho. case (Z.ltb_spec mid (T * Second)) as [Hm|Hm].
  - rewrite Z.eqb_refl. exists mid, hi. split_and!; try done; unfold mid in *; zlia.
  - rewrite (proj2 (Z.eqb_neq _ _)) by done. exists lo, mid.
    split_and!; try done; unfold mid in *; zlia.
Qed.

Lemma bisect_loop n : forall k lo hi, o1 <> o2 -> 0 <= k < Z.of_nat n ->
  lo < T * Second <= hi -> hi - lo <= 2 ^ k * Second ->
  exists hi', loop_nat n (bisect_body o1) (mkTime lo L, mkTime hi L) = inr (mkTime hi' L) /\
    T * Second <= hi' < (T + 1) * Second.
Proof using.
  induction n as [|n IH]; intros k lo hi Hne Hk Hr Hd; [lia|]. cbn [loop_nat].
  pose proof (bisect_step k lo hi Hne ltac:(lia) Hr Hd) as S.
  destruct (bisect_body o1 (mkTime lo L, mkTime hi L)) as [[lo' hi']|t].
  - destruct S as (l & h & -> & -> & Hr' & Hk' & Hd'). apply (IH (k - 1)); (done || lia).
  - destruct S as [-> Hs]. exists hi. split; [done|]. lia.
Qed.

Lemma fallBackAt_shift now : o1 <> o2 ->
  ns now < T * Second <= ns now + 2 * Hour -> loc now = L ->
  exists hi, fallBackAt now = Some (mkTime hi L) /\ T * Second <= hi < (T + 1) * Second.
Proof using.
  intros Hne Hr Hl. destruct now as [n l]. cbn [ns loc] in *. subst l. unfold fallBackAt.
  assert (Ho : ZoneOffset (mkTime n L) = o1).
  { unfold ZoneOffset, unix. cbn [loc ns]. rewrite lookup_shift. unfold off.
    rewrite (proj2 (Z.ltb_lt _ _)); [done|]. unfold Second in *. zlia. }
  rewrite Ho. unfold Add. cbn [ns loc]. rewrite loop_as_nat.
  destruct (bisect_loop (Pos.to_nat bisect_fuel) 13 n (n + 2 * Hour)) as (hi & -> & Hh); try done.
  - unfold Hour, Minute, Second. lia.
  - by exists hi.
Qed.
End OneShift.

(** [addMonths] keeps the clock and clamps the day to the month it lands in. *)
Lemma floorDiv_12 n : floorDiv n 12 = n / 12 /\ floorMod n 12 = n mod 12.
Proof.
  assert (E : floorDiv n 12 = n / 12).
  { unfold floorDiv.
    case (Z.ltb_spec n 0) as [L|L]; case (Z.eqb_spec (Z.rem n 12) 0) as [R|R];
      cbn [andb negb Z.ltb Z.compare Bool.eqb]; Z.to_euclidean_division_equations; lia. }
  split; [done|]. unfold floorMod. rewrite E. zlia.
Qed.

Lemma daysIn_spec y m : 1 <= m <= 12 -> daysIn y m = days_in_month y m.
Proof.
  intros Hm. unfold daysIn, Day, DateOf, Date, UTC. rewrite from_wall_fixed, Z.add_0_r, wall_in_fixed.
  unfold wall_of. rewrite Z.mul_0_l, !Z.add_0_r, Z.div_mul by lia.
  replace (m + 1 - 1) with m by lia. rewrite days_from_civil_month by done.
  pose proof (days_in_month_range y m).
  replace (days_from_civil y m 1 + days_in_month y m + (0 - 1))
    with (days_from_civil y m (days_in_month y m)) by (rewrite (days_from_civil_day y m (days_in_month y m)); lia).
  rewrite days_from_civil_spec; [done|]. split; [done|lia].
Qed.

Lemma addMonths_fixed off t n : loc t = FixedZone off ->
  let '(y, m, d) := DateOf t in
  let total := y * 12 + (m - 1) + n in
  let ny := total / 12 in let nm := total mod 12 + 1 in
  DateOf (addMonths t n) = (ny, nm, Z.min d (days_in_month ny nm)) /\ Clock (addMonths t n) = Clock t.
Proof.
  intros Hl. unfold addMonths, DateOf, Clock.
  pose proof (civil_from_days_spec (wall t / 86400)) as S.
  destruct (civil_from_days (wall t / 86400)) as [[y m] d]. destruct S as [[Hm Hd] E].
  destruct (floorDiv_12 (m - 1 + n)) as [-> ->].
  replace (y + (m - 1 + n) / 12) with ((y * 12 + (m - 1) + n) / 12) by zlia.
  replace ((m - 1 + n) mod 12) with ((y * 12 + (m - 1) + n) mod 12) by zlia.
  set (tot := y * 12 + (m - 1) + n). set (ny := tot / 12). set (nm := tot mod 12 + 1).
  assert (Hnm : 1 <= nm <= 12) by (unfold nm; zlia).
  rewrite daysIn_spec, Hl, resolveWall_fixed, wall_in_fixed by done.
  pose proof (days_in_month_range ny nm).
  destruct (clock_join (wall t mod 86400)) as [Ej V]; [zlia|].
  destruct (wall_date ny nm (if days_in_month ny nm <? d then days_in_month ny nm else d) _ _ _ Hnm V)
    as [-> ->].
  destruct (clock_split _ _ _ V) as (-> & -> & ->). split; [|done].
  case (Z.ltb_spec (days_in_month ny nm) d); intros.
  - rewrite Z.min_r by lia. apply days_from_civil_spec. split; [done|lia].
  - rewrite Z.min_l by lia. apply days_from_civil_spec. split; [done|lia].
Qed.

(** * Properties *)

(** What [ParseInstant] accepts can be resolved: every clock field and step is
    on its dial, a pattern's date fields are wildcards or on their dials, and only
    patterns carry steps. *)
Theorem ParseInstant_wf zoneinfo s i : ParseInstant zoneinfo s = Ok i -> wf_instant i.
Proof. apply ParseInstant_wf_aux. Qed.

Definition no_zones : string -> option Location := fun _ => None.

Lemma ParseInstant_wf_witness :
  exists i, ParseInstant no_zones "mon *-*-13 09:00/15" = Ok i /\ wf_instant i.
Proof.
  eexists. split; [vm_compute; reflexivity|].
  apply (ParseInstant_wf no_zones "mon *-*-13 09:00/15"). vm_compute. reflexivity.
Defined.

(** C40. Under a fixed offset a parsed pattern resolves to its earliest match
    strictly after [now], on whole seconds; it fails only when no match lies within
    the horizon of [maxPatternDays] days after the first candidate's day. *)
Theorem nextMatch_earliest zoneinfo s i now off :
  ParseInstant zoneinfo s = Ok i ->
  let first := ns now / Second + 1 + off in
  match nextMatch i now (FixedZone off) with
  | Ok t => exists w, t = mkTime ((w - off) * Second) (FixedZone off) /\
      pattern_wall i w /\ first <= w /\ forall w', pattern_wall i w' -> first <= w' -> w <= w'
  | Err _ => forall w', pattern_wall i w' -> first <= w' ->
      first / 86400 + Z.of_nat maxPatternDays < w' / 86400
  end.
Proof. intros [Hc _ _]%ParseInstant_wf_aux. by apply nextMatch_fixed. Qed.

(** 2024-05-31T10:00:00Z: the next Friday the 13th at 09:00 under +02:00. *)
Definition sample_now : Time := mkTime (1717149600 * Second) UTC.

Lemma nextMatch_earliest_witness : exists i w,
  ParseInstant no_zones "fri *-*-13 09:00" = Ok i /\
  nextMatch i sample_now (FixedZone 7200) = Ok (mkTime ((w - 7200) * Second) (FixedZone 7200)) /\
  pattern_wall i w.
Proof.
  eexists _, 1726218000. split; [vm_compute; reflexivity|].
  pose proof (nextMatch_earliest no_zones "fri *-*-13 09:00" _ sample_now 7200
    ltac:(vm_compute; reflexivity)) as H. cbv zeta in H.
  revert H. match goal with |- context [nextMatch ?i ?n ?l] =>
    let E := fresh in assert (E : nextMatch i n l = Ok (mkTime ((1726218000 - 7200) * Second) l)) by (vm_compute; reflexivity);
    rewrite E end.
  intros (w & Ew & Hp & _). split; [reflexivity|]. injection Ew as Ew.
  replace 1726218000 with w by (unfold Second in Ew; lia). exact Hp.
Defined.

(** A duration text reads as the exact sum of its components, each total within
    an int64; nothing wraps. *)
Theorem ParseDuration_exact s d : ParseDuration s = Ok d ->
  exists cs, cs <> [] /\ dur_text (TrimSpace s) cs /\ d_src d = TrimSpace s /\ duration_ok d /\
    d_fixed d = total fixed_part cs /\ d_days d = total day_part cs /\
    d_months d = total month_part cs.
Proof.
  unfold ParseDuration. destruct (String.eqb (TrimSpace s) ""); [done|].
  intros ([d' any] & Hp & H)%bind_Ok. destruct any; [|done]. injection H as <-.
  apply parse_components_spec in Hp as (cs & Ht & Hd & Ea & E1 & E2 & E3 & E4); [|by repeat split].
  exists cs. split; [|done]. intros ->. done.
Qed.

Lemma ParseDuration_exact_witness : exists d, ParseDuration " 1y2mo 3w1d 2h30m " = Ok d /\
  duration_ok d /\ (d_months d, d_days d, d_fixed d) = (14, 22, 9000 * Second).
Proof.
  eexists. split; [vm_compute; reflexivity|]. split; [|vm_compute; reflexivity].
  destruct (ParseDuration_exact " 1y2mo 3w1d 2h30m " _ ltac:(vm_compute; reflexivity))
    as (cs & _ & _ & _ & H & _). exact H.
Defined.

(** Printing components and parsing them back gives their totals whenever each
    total fits an int64: the longest-suffix order of the units is the right one, and
    the scan ends. *)
Theorem ParseDuration_roundtrip s cs : cs <> [] -> Forall counted_ok cs ->
  TrimSpace s = render_components cs ->
  let d := mkDuration (TrimSpace s) (total fixed_part (component_of <$> cs))
    (total day_part (component_of <$> cs)) (total month_part (component_of <$> cs)) in
  duration_ok d -> ParseDuration s = Ok d.
Proof.
  intros Hne Hcs Es d Hd. unfold ParseDuration. rewrite Es.
  destruct (String.eqb_spec (render_components cs) "") as [E|_].
  { pose proof (render_length cs Hcs) as H. rewrite E in H. destruct cs; [done|]. cbn in H. lia. }
  rewrite (parse_components_render cs); try done.
  - cbn. rewrite bool_decide_false by done. unfold d. by rewrite Es.
  - pose proof (render_length cs Hcs). lia.
Qed.

Lemma ParseDuration_roundtrip_witness :
  ParseDuration "90m2mo45ms" = Ok (mkDuration "90m2mo45ms" 5400045000000 0 2).
Proof.
  refine (ParseDuration_roundtrip "90m2mo45ms"
    [(90, ("m", FixedUnit Minute)); (2, ("mo", MonthUnit 1)); (45, ("ms", FixedUnit Millisecond))] _ _ _ _).
  - discriminate.
  - repeat constructor; try (vm_compute; congruence); unfold durUnits; rewrite !elem_of_cons; tauto.
  - vm_compute. reflexivity.
  - repeat split; vm_compute; discriminate.
Defined.

(** Every text parses to a duration or to an error that names its fault: the
    component loop ends within the text's length. *)
Theorem ParseDuration_total s : ParseDuration s <> Err DurOutOfFuel.
Proof.
  unfold ParseDuration. destruct (String.eqb (TrimSpace s) ""); [done|].
  pose proof (parse_components_fuel (S (String.length (TrimSpace s))) (mkDuration (TrimSpace s) 0 0 0)
    (TrimSpace s) false ltac:(lia)) as H.
  destruct (parse_components _ _ _ _) as [[d any]|e]; cbn; [by destruct any|congruence].
Qed.

(** Adding months keeps the clock, moves the month by exactly [n] and clamps the
    day to the last day of the month it lands in. *)
Theorem addMonths_clamps off t n : loc t = FixedZone off ->
  let '(y, m, d) := DateOf t in
  let total := y * 12 + (m - 1) + n in
  let ny := total / 12 in let nm := total mod 12 + 1 in
  DateOf (addMonths t n) = (ny, nm, Z.min d (days_in_month ny nm)) /\ Clock (addMonths t n) = Clock t.
Proof. apply addMonths_fixed. Qed.

Lemma addMonths_clamps_witness : DateOf (addMonths sample_now (-3)) = (2024, 2, 29).
Proof. exact (proj1 (addMonths_clamps 0 sample_now (-3) eq_refl)). Defined.

(** Where the offset changes once, forward by any amount or back by one hour, a
    wall clock resolves to the first instant that shows it, and one the change skips
    to the instant the skip's length later on the clock. *)
Theorem resolveWall_one_shift T o1 o2 y m d h mi s :
  let L := OneShift T o1 o2 in
  let w := wall_of y m d h mi s in
  in_range_time (w - o1) -> in_range_time (w - o2) -> o1 <= o2 \/ o1 - o2 = 3600 ->
  exists u, resolveWall L y m d h mi s = mkTime (u * Second) L /\
    ((wall (mkTime (u * Second) L) = w /\
      forall u', wall (mkTime (u' * Second) L) = w -> u <= u') \/
     ((forall u', wall (mkTime (u' * Second) L) <> w) /\
      wall (mkTime (u * Second) L) = w + (o2 - o1))).
Proof.
  intros L w H1 H2 Ho. eexists. split; [exact (resolveWall_shift T o1 o2 y m d h mi s H1 H2 Ho)|].
  fold w. unfold L. setoid_rewrite wall_shift.
  case (Z.ltb_spec (w - o1) T) as [G|G]; case (Z.ltb_spec (w - o2) T) as [G'|G']; cbn [orb].
  1,2,4: left. 4: right.
  1-3: split; [repeat case Z.ltb_spec; lia|]; intros u'; repeat case Z.ltb_spec; lia.
  split; [intros u'|]; repeat case Z.ltb_spec; lia.
Qed.

(** New York, 2024-11-03: the clock goes back from 02:00 EDT to 01:00 EST. *)
Definition ny_fall : Location := OneShift 1730613600 (-14400) (-18000).

Lemma resolveWall_one_shift_witness :
  ns (resolveWall ny_fall 2024 11 3 1 30 0) = 1730611800 * Second /\
  exists u, resolveWall ny_fall 2024 11 3 1 30 0 = mkTime (u * Second) (OneShift 1730613600 (-14400) (-18000)).
Proof.
  split; [vm_compute; reflexivity|].
  destruct (resolveWall_one_shift 1730613600 (-14400) (-18000) 2024 11 3 1 30 0) as (u & E & _).
  - split; vm_compute; congruence.
  - split; vm_compute; congruence.
  - right. reflexivity.
  - exists u. exact E.
Defined.

(** Lord Howe Island, 2024-04-07: the clock goes back half an hour at 02:00. *)
Definition lord_howe_fall : Location := OneShift 1712415600 39600 37800.

(** A fall-back other than one hour is not resolved to the first occurrence: on
    Lord Howe Island, which goes back half an hour, 01:45 resolves to the second of
    the two instants that show it. *)
Theorem resolveWall_half_hour :
  let L := lord_howe_fall in
  let second := resolveWall L 2024 4 7 1 45 0 in
  let first := Add second (- 30 * Minute) in
  DateOf first = DateOf second /\ Clock first = Clock second /\ Before first second = true.
Proof. vm_compute. done. Qed.

(** The bisection for the offset change ends, and finds it to the second: with
    one change in the two hours after [now], [fallBackAt] answers an instant in the
    first second after it. *)
Theorem fallBackAt_exact T o1 o2 now : o1 <> o2 ->
  ns now < T * Second <= ns now + 2 * Hour -> loc now = OneShift T o1 o2 ->
  exists hi, fallBackAt now = Some (mkTime hi (OneShift T o1 o2)) /\
    T * Second <= hi < (T + 1) * Second.
Proof. apply fallBackAt_shift. Qed.

Lemma fallBackAt_exact_witness : exists hi,
  fallBackAt (mkTime (1730611800 * Second) ny_fall) = Some (mkTime hi ny_fall) /\
  1730613600 * Second <= hi < (1730613600 + 1) * Second.
Proof.
  apply (fallBackAt_exact 1730613600 (-14400) (-18000)); [discriminate| |reflexivity].
  split; vm_compute; congruence.
Defined.

End DelaySpec.
