(* ===== verification/Instance.v ===== *)
(** Instances as the whole engine sees them: internal/model/instance.go,
    internal/model/statusinfo.go and the write floors of internal/db/durability.go.

    Statuses and phases are the closed sets of string constants the source
    declares; the predicates are the methods the engine and the SQL copies share. *)
From Stdlib Require Import ZArith Lia Ascii String.
From S2P Require Import Prelude.
From S2P Require Import GoStrings.
Open Scope string_scope.
Open Scope list_scope.
Open Scope Z_scope.

Module Instance.

(** * Lifecycle *)

Inductive Status :=
  | StatusRunning | StatusCompleted | StatusFailing | StatusFailed | StatusRaised
  | StatusPausing | StatusPaused | StatusCancelling | StatusCancelled.

#[export] Instance Status_eq_dec : EqDecision Status.
Proof. solve_decision. Defined.

Definition Status_string (s : Status) : string :=
  match s with
  | StatusRunning => "running" | StatusCompleted => "completed" | StatusFailing => "failing"
  | StatusFailed => "failed" | StatusRaised => "raised" | StatusPausing => "pausing"
  | StatusPaused => "paused" | StatusCancelling => "cancelling" | StatusCancelled => "cancelled"
  end.

Definition Terminal (s : Status) : bool :=
  bool_decide (s = StatusCompleted) || bool_decide (s = StatusFailed) ||
  bool_decide (s = StatusRaised) || bool_decide (s = StatusCancelled).

Definition Draining (s : Status) : bool :=
  bool_decide (s = StatusPausing) || bool_decide (s = StatusFailing) ||
  bool_decide (s = StatusCancelling).

Definition Busy (s : Status) : bool := bool_decide (s = StatusRunning) || Draining s.

Inductive Outcome := OutcomeApplied | OutcomeAccepted | OutcomeUnchanged.

Definition AcceptsExternalOutcome (s : Status) : bool :=
  bool_decide (s = StatusRunning) || bool_decide (s = StatusPaused) ||
  bool_decide (s = StatusPausing).

Inductive Phase := PhaseNone | PhaseChildren | PhaseCollecting | PhaseExternal.

#[export] Instance Phase_eq_dec : EqDecision Phase.
Proof. solve_decision. Defined.

(** Exactly one of the three holds of a status. *)
Lemma status_trichotomy s :
  (Terminal s = true /\ Busy s = false /\ s <> StatusPaused) \/
  (Terminal s = false /\ Busy s = true /\ s <> StatusPaused) \/
  (Terminal s = false /\ Busy s = false /\ s = StatusPaused).
Proof. destruct s; vm_compute; intuition congruence. Qed.

Lemma Busy_not_Terminal s : Busy s = true -> Terminal s = false.
Proof. by destruct s. Qed.

Lemma Draining_Busy s : Draining s = true -> Busy s = true.
Proof. by destruct s. Qed.

(** * The status reference *)

Record StatusInfo := mkStatusInfo { si_status : Status; si_terminal : bool; si_accepts : bool }.

Definition statusOrder : list Status :=
  [StatusRunning; StatusPausing; StatusPaused; StatusFailing; StatusCancelling;
   StatusCompleted; StatusFailed; StatusRaised; StatusCancelled].

Definition Statuses : list StatusInfo :=
  map (fun s => mkStatusInfo s (Terminal s) (AcceptsExternalOutcome s)) statusOrder.

(** * External tokens *)

Definition ExternalToken (instanceID : string) (taskEpoch : Z) : string :=
  instanceID +:+ "." +:+ FormatInt taskEpoch.

Definition ClaimToken (instanceID : string) (taskEpoch claimEpoch : Z) : string :=
  instanceID +:+ "." +:+ FormatInt taskEpoch +:+ "." +:+ FormatInt claimEpoch.

(** What a token names: the instance, the arming and, for a claim token, the grant. *)
Record token := mkToken { tk_instance : string; tk_task_epoch : Z; tk_claim_epoch : option Z }.

Definition nonneg_int (s : string) : option Z :=
  match ParseInt10 s with Some n => if n <? 0 then None else Some n | None => None end.

Definition ParseExternalToken (t : string) : option token :=
  match Cut t "." with
  | None => None
  | Some (id, rest) =>
      if String.eqb id "" then None
      else match Cut rest "." with
           | None => n ← nonneg_int rest; Some (mkToken id n None)
           | Some (epochStr, claimStr) =>
               n ← nonneg_int epochStr;
               c ← nonneg_int claimStr;
               Some (mkToken id n (Some c))
           end
  end.

(** * What an action leaves an instance sitting in *)

Inductive ActionType :=
  | ActionTypeFetch | ActionTypeChild | ActionTypeChildMap | ActionTypeChildList
  | ActionTypeDelay | ActionTypeExternal.

Record Holds := mkHolds { Wait : Phase; Timer : bool; Result : bool }.

Definition ActionType_Holds (t : ActionType) : Holds :=
  match t with
  | ActionTypeExternal => mkHolds PhaseExternal true true
  | ActionTypeChild | ActionTypeChildMap | ActionTypeChildList => mkHolds PhaseChildren false true
  | ActionTypeDelay => mkHolds PhaseNone true false
  | ActionTypeFetch => mkHolds PhaseNone false false
  end.

Definition Anything (h : Holds) : bool :=
  negb (bool_decide (Wait h = PhaseNone)) || Timer h || Result h.

(** * Durability *)

(** The ladder of internal/db/durability.go: [DurabilityNone] is -1, the rest count
    from 0. *)
Definition Durability := Z.
Definition DurabilityNone : Durability := -1.
Definition DurabilityEssential : Durability := 0.
Definition DurabilityTerminal : Durability := 1.
Definition DurabilityStrict : Durability := 2.
Definition syncAlways : Durability := DurabilityEssential.
Definition syncTerminal : Durability := DurabilityTerminal.
Definition syncStrict : Durability := DurabilityStrict.

Definition syncs (d floor : Durability) : bool := floor <=? d.

Definition instanceWriteFloor (s : Status) : Durability :=
  if Terminal s then syncTerminal else syncStrict.

Definition Durability_String (d : Durability) : string :=
  if d =? DurabilityNone then "none"
  else if d =? DurabilityEssential then "essential"
  else if d =? DurabilityTerminal then "terminal"
  else if d =? DurabilityStrict then "strict"
  else "Durability(" +:+ FormatInt d +:+ ")".

Definition ParseDurability (s : string) : option Durability :=
  if String.eqb s "none" then Some DurabilityNone
  else if String.eqb s "essential" then Some DurabilityEssential
  else if String.eqb s "terminal" then Some DurabilityTerminal
  else if String.eqb s "strict" then Some DurabilityStrict
  else if String.eqb s "" then Some DurabilityStrict
  else None.

(** * Tokens round trip *)

Definition dot_free (s : string) : Prop := Contains s "." = false.

Lemma Cut_None s c : Contains s c = false -> Cut s c = None.
Proof. unfold Contains. by destruct (Cut s c) as [[? ?]|]. Qed.

Lemma Cut_app s c r : Contains s c = false -> Cut (s +:+ String c r) c = Some (s, r).
Proof.
  unfold Contains. induction s as [|d s IH]; simpl.
  - by rewrite Ascii.eqb_refl.
  - destruct (Ascii.eqb d c); [done|]. destruct (Cut s c) as [[? ?]|]; [done|].
    intros _. by rewrite IH.
Qed.

Lemma digits_dot_free s : all_digits s = true -> dot_free s.
Proof.
  unfold dot_free, Contains. induction s as [|d s IH]; simpl; [done|].
  intros [Hd Hs]%andb_prop. destruct (Ascii.eqb_spec d ".") as [->|]; [done|].
  specialize (IH Hs). by destruct (Cut s ".") as [[? ?]|].
Qed.

Lemma nonneg_int_FormatInt n : 0 <= n <= max_int64 ->
  nonneg_int (FormatInt n) = Some n /\ dot_free (FormatInt n).
Proof.
  intros Hn. unfold FormatInt, nonneg_int. rewrite (proj2 (Z.ltb_ge n 0)) by lia.
  rewrite ParseInt10_FormatNat by done. rewrite (proj2 (Z.ltb_ge n 0)) by lia. split; [done|].
  apply digits_dot_free. apply FormatNat_spec. lia.
Qed.

(** Tokens read back as what they name: an instance id without a dot, the arming's
    epoch and, for a claim token, the grant's. *)
Theorem ParseExternalToken_roundtrip id n c : id <> "" -> dot_free id ->
  0 <= n <= max_int64 -> 0 <= c <= max_int64 ->
  ParseExternalToken (ExternalToken id n) = Some (mkToken id n None) /\
  ParseExternalToken (ClaimToken id n c) = Some (mkToken id n (Some c)).
Proof.
  intros Hid Hdot Hn Hc.
  destruct (nonneg_int_FormatInt n Hn) as [En Dn]. destruct (nonneg_int_FormatInt c Hc) as [Ec Dc].
  unfold ParseExternalToken, ExternalToken, ClaimToken. simpl.
  rewrite !Cut_app by done. destruct (String.eqb_spec id ""); [done|].
  rewrite (Cut_None (FormatInt n)) by done. by rewrite En, Ec.
Qed.

Lemma ParseExternalToken_roundtrip_witness :
  ParseExternalToken "7xk2.3.12" = Some (mkToken "7xk2" 3 (Some 12)).
Proof.
  refine (proj2 (ParseExternalToken_roundtrip "7xk2" 3 12 _ _ _ _)); unfold max_int64; try lia;
    [discriminate|reflexivity].
Defined.

End Instance.
