(* ===== verification/Store.v ===== *)
(** The instance table and the statements over it: internal/db/gen/queries.sql.go
    (generated from internal/db/queries.sql) and the row conversions of
    internal/db/db_instances.go.

    A row of [process_instances] is a [row]; the statements are functions on the
    map from ids to rows, and a transaction is a function of the database state
    that either commits a new one or fails and leaves the old one standing.  A
    value column holds its encoded text: encoding, decoding and the object store
    behind them are not modelled.  [now] is the reading of [nowMillis]. *)
From Stdlib Require Import ZArith Lia String.
From stdpp Require Import sorting.
From S2P Require Import Prelude.
From S2P Require Import Instance.
Open Scope string_scope.
Open Scope list_scope.
Open Scope Z_scope.

Module Store.
Import Instance.

(** * Rows *)

(** [stateCols]: the value columns as encoded. *)
Record stateCols := mkCols {
  InputData : string; OutputsData : string; OutputData : string; ErrorInternal : string;
  ErrorData : string; ExternalInput : string; EngineState : string; Objects : string;
  ExternalLost : bool }.

(** The columns an INSERT binds and no UPDATE writes. *)
Record spawn_cols := mkSpawn {
  id : string; process_name : string; parent_id : string; root_id : string;
  call_stack : list string; spawn_task_id : string; parent_task_epoch : Z; created_at : Z }.

(** The columns of the work itself. *)
Record work_cols := mkWork {
  task : string; task_epoch : Z; next_replayable : bool; retry_count : Z; wake_at : option Z;
  status : Status; phase : Phase; error_message : string; error_code : string;
  updated_at : Z; cols : stateCols }.

(** The engine's lease on the row. *)
Record lease_cols := mkLease {
  worker_id : option string; lease_expires_at : option Z; lease_epoch : Z }.

(** The external worker's claim on the task the row is parked on. *)
Record claim_cols := mkClaim {
  external_worker_id : option string; external_lease_expires_at : option Z;
  external_claim_epoch : Z }.

Record row := mkRow {
  r_spawn :> spawn_cols; process_version : Z; r_work :> work_cols; r_lease :> lease_cols;
  r_claim :> claim_cols; superseded_at : option Z }.

Definition set_work (w : work_cols) (r : row) : row :=
  mkRow (r_spawn r) (process_version r) w (r_lease r) (r_claim r) (superseded_at r).
Definition set_lease (l : lease_cols) (r : row) : row :=
  mkRow (r_spawn r) (process_version r) (r_work r) l (r_claim r) (superseded_at r).
Definition set_claim (c : claim_cols) (r : row) : row :=
  mkRow (r_spawn r) (process_version r) (r_work r) (r_lease r) c (superseded_at r).

(** [SET status, phase, wake_at, error_message, error_code, updated_at]. *)
Definition set_state (st : Status) (ph : Phase) (wake : option Z) (msg code : string) (now : Z)
    (r : row) : row :=
  set_work (mkWork (task r) (task_epoch r) (next_replayable r) (retry_count r) wake st ph msg code
              now (cols r)) r.

(** [SET status = st, updated_at = now]. *)
Definition set_status (st : Status) (now : Z) (r : row) : row :=
  set_state st (phase r) (wake_at r) (error_message r) (error_code r) now r.

(** A loaded instance ([model.ProcessInstance]): the row as [toInstance] reads it,
    changed by the engine while it advances, and the transient fields. *)
Record ProcessInstance := mkInstance {
  inst :> row; ReclaimedExpired : bool; ConsumedSignalID : string }.

Definition toInstance (r : row) : ProcessInstance := mkInstance r false "".

(** * The database *)

Record signal := mkSignal {
  sig_id : string; sig_instance : string; sig_task : string; sig_seq : Z; sig_outcome : string;
  sig_created_at : Z }.

Abbreviation table := (gmap string row).

Record DBState := mkDB { rows : table; signals : list signal }.

Inductive lockScope := lockParent | lockStack | lockLive.

#[export] Instance lockScope_eq_dec : EqDecision lockScope.
Proof. solve_decision. Defined.

(** The errors callers tell apart; [ErrOther] stands for every other one. *)
Inductive db_error :=
  | ErrNotFound | ErrConflict | ErrInvalid | ErrLeaseLost | ErrNoRows
  | errWiden (scope : lockScope) | ErrOther (what : string) | OutOfFuel.

(** A transaction: an error rolls every write back. *)
Definition Tx (A : Type) := DBState -> result db_error (A * DBState).

#[export] Instance Tx_ret : MRet Tx := fun A x s => Ok (x, s).
#[export] Instance Tx_bind : MBind Tx :=
  fun A B f m s => match m s with Ok (x, s') => f x s' | Err e => Err e end.

Definition fail {A} (e : db_error) : Tx A := fun _ => Err e.
Definition query {A} (f : table -> A) : Tx A := fun s => Ok (f (rows s), s).
Definition exec (f : table -> table) : Tx unit :=
  fun s => Ok (tt, mkDB (f (rows s)) (signals s)).

(** The state a committed or rolled-back transaction leaves. *)
Definition after {A} (m : Tx A) (s : DBState) : DBState :=
  match m s with Ok (_, s') => s' | Err _ => s end.

(** * Statements *)

(** [UPDATE process_instances SET f WHERE p]. *)
Definition update_rows (p : row -> bool) (f : row -> row) (m : table) : table :=
  (fun r : row => if p r then f r else r) <$> m.

Definition matching (p : row -> bool) (m : table) : list row :=
  List.filter p (map snd (map_to_list m)).

Definition count (p : row -> bool) (m : table) : Z := Z.of_nat (length (matching p m)).

Definition has_id (k : string) (r : row) : bool := String.eqb (id r) k.
Definition in_ids (ids : list string) (r : row) : bool := bool_decide (id r ∈ ids).
Definition held (r : row) : bool := match worker_id r with Some _ => true | None => false end.

Definition GetInstance (k : string) : Tx row :=
  r ← query (fun m => m !! k);
  match r with Some r => mret r | None => fail ErrNoRows end.

Definition GetSettleInfo := GetInstance.

Definition GetInstanceStatus (k : string) : Tx Status := r ← GetInstance k; mret (status (r : row)).

(** The root of a new row: its parent's, or the row itself. *)
Definition derived_root (m : table) (r : row) : string :=
  match m !! parent_id r with Some p => root_id (p : row) | None => id r end.

Definition with_root (root : string) (r : row) : row :=
  mkRow (mkSpawn (id r) (process_name r) (parent_id r) root (call_stack r) (spawn_task_id r)
           (parent_task_epoch r) (created_at r))
    (process_version r) (r_work r) (r_lease r) (r_claim r) (superseded_at r).

Definition InsertInstance (r : row) : Tx unit :=
  m ← query (fun m => m);
  match m !! id r with
  | Some _ => fail (ErrOther "id exists")
  | None => exec (fun m => <[id r := with_root (derived_root m r) r]> m)
  end.

(** [fenceWorker] and the fence of the lease-holding writes. *)
Definition fenceWorker (w : option string) : string := match w with Some w => w | None => "" end.

Definition fenced (i : row) (r : row) : bool :=
  has_id (id i) r && (lease_epoch r =? lease_epoch i) &&
  String.eqb (fenceWorker (worker_id r)) (fenceWorker (worker_id i)).

(** The status CASE of [UpdateInstance]: a pause or cancel that arrived mid-lease stands. *)
Definition keep_stop (old new : Status) : Status :=
  if (bool_decide (old = StatusPausing) || bool_decide (old = StatusCancelling)) &&
     bool_decide (new = StatusRunning)
  then old else new.

(** Moving [task_epoch] drops the external claim. *)
Definition claim_after (epoch : Z) (r : row) : claim_cols :=
  if task_epoch r =? epoch then r_claim r else mkClaim None None (external_claim_epoch r).

(** Every value column but [input_data], which is never written. *)
Definition update_cols (new old : stateCols) : stateCols :=
  mkCols (InputData old) (OutputsData new) (OutputData new) (ErrorInternal new) (ErrorData new)
    (ExternalInput new) (EngineState new) (Objects new) (ExternalLost new).

(** The columns [UpdateInstanceProgress] writes: not the output or the error either. *)
Definition progress_cols (new old : stateCols) : stateCols :=
  mkCols (InputData old) (OutputsData new) (OutputData old) (ErrorInternal new) (ErrorData old)
    (ExternalInput new) (EngineState new) (Objects new) (ExternalLost new).

Definition update_set (i : row) (now : Z) (r : row) : row :=
  mkRow (r_spawn r) (process_version r)
    (mkWork (task i) (task_epoch i) (next_replayable i) (retry_count i) (wake_at i)
       (keep_stop (status r) (status i)) (phase i) (error_message i) (error_code i) now
       (update_cols (cols i) (cols r)))
    (mkLease None None (lease_epoch r)) (claim_after (task_epoch i) r) (superseded_at r).

Definition progress_set (i : row) (now : Z) (r : row) : row :=
  mkRow (r_spawn r) (process_version r)
    (mkWork (task i) (task_epoch i) (next_replayable i) (retry_count i) (wake_at i)
       (status r) (phase i) (error_message r) (error_code r) now
       (progress_cols (cols i) (cols r)))
    (mkLease None None (lease_epoch r)) (claim_after (task_epoch i) r) (superseded_at r).

(** An [:execrows] UPDATE: the number of rows it matched. *)
Definition execrows (p : row -> bool) (f : row -> row) : Tx Z :=
  n ← query (count p); _ ← exec (update_rows p f); mret n.

Definition UpdateInstance_q (i : row) (now : Z) : Tx Z := execrows (fenced i) (update_set i now).
Definition UpdateInstanceProgress_q (i : row) (now : Z) : Tx Z :=
  execrows (fenced i) (progress_set i now).

Definition requireFenced (n : Z) : Tx unit := if n =? 0 then fail ErrLeaseLost else mret tt.

(** The batch a child belongs to. *)
Definition in_batch (parent spawn : string) (epoch : Z) (r : row) : bool :=
  String.eqb (parent_id r) parent && String.eqb (spawn_task_id r) spawn &&
  (parent_task_epoch r =? epoch).

Definition CountActiveSiblings (parent spawn : string) (epoch : Z) : table -> Z :=
  count (fun r : row => in_batch parent spawn epoch r &&
    negb (bool_decide (status r ∈ [StatusCompleted; StatusFailed; StatusRaised; StatusCancelled]))).

Definition CountBusySiblings (parent spawn : string) (epoch : Z) : table -> Z :=
  count (fun r : row => in_batch parent spawn epoch r &&
    bool_decide (status r ∈ [StatusRunning; StatusPausing; StatusFailing; StatusCancelling])).

Definition drained (s : Status) : Status :=
  match s with StatusPausing => StatusPaused | StatusCancelling => StatusCancelled | _ => StatusFailed end.

Definition SettleDrained (k : string) (now : Z) : table -> table :=
  update_rows
    (fun r : row => has_id k r && bool_decide (status r ∈ [StatusPausing; StatusCancelling; StatusFailing]))
    (fun r =>
       let failing := bool_decide (status r = StatusFailing) in
       set_state (drained (status r)) (if failing then PhaseNone else phase r)
         (if failing then None else wake_at r) (error_message r) (error_code r) now r).

Definition WakeParent (k : string) (now : Z) : table -> table :=
  update_rows (has_id k)
    (fun r : row => set_state (status r)
       (if bool_decide (status r ∈ [StatusRunning; StatusPausing; StatusPaused])
        then PhaseCollecting else PhaseNone)
       (wake_at r) (error_message r) (error_code r) now r).

Definition GetChildrenForTask (parent spawn : string) (epoch : Z) (m : table) : list row :=
  matching (fun r : row => in_batch parent spawn epoch r && bool_decide (superseded_at r = None)) m.

Definition FailAncestors (msg code : string) (now : Z) (ids : list string) : table -> table :=
  update_rows
    (fun r : row => in_ids ids r && bool_decide (status r ∈ [StatusRunning; StatusPausing; StatusPaused]))
    (fun r : row => set_state StatusFailing (phase r) (wake_at r) msg code now r).

(** The CASE the tree-wide stops share: a row a worker holds, or one above it. *)
Definition above_held (m : table) (root k : string) : bool :=
  existsb (fun h : row => String.eqb (root_id h) root && held h && bool_decide (k ∈ call_stack h))
    (map snd (map_to_list m)).

Definition stop_tree (from : list Status) (draining stopped : Status) (root : string) (now : Z)
    (m : table) : table :=
  update_rows (fun r : row => String.eqb (root_id r) root && bool_decide (status r ∈ from))
    (fun r : row => set_status (if held r || above_held m root (id r) then draining else stopped) now r) m.

(** The rows RETURNING reports: those the statement wrote, as written. *)
Definition stopped_rows (from : list Status) (draining stopped : Status) (root : string) (m : table)
    : list (string * Status) :=
  map (fun r : row => (id r, if held r || above_held m root (id r) then draining else stopped))
    (matching (fun r : row => String.eqb (root_id r) root && bool_decide (status r ∈ from)) m).

Definition PauseTree (root : string) (now : Z) : Tx (list (string * Status)) :=
  out ← query (stopped_rows [StatusRunning] StatusPausing StatusPaused root);
  _ ← exec (stop_tree [StatusRunning] StatusPausing StatusPaused root now);
  mret out.

Definition CancelTree (root : string) (now : Z) : Tx (list (string * Status)) :=
  out ← query (stopped_rows [StatusRunning; StatusPaused] StatusCancelling StatusCancelled root);
  _ ← exec (stop_tree [StatusRunning; StatusPaused] StatusCancelling StatusCancelled root now);
  mret out.

Definition SetStatusIn (st : Status) (now : Z) (ids : list string) : table -> table :=
  update_rows (in_ids ids) (set_status st now).

Definition GrantLeases (worker : string) (expires : Z) (ids : list string) : table -> table :=
  update_rows (in_ids ids)
    (fun r : row => set_lease (mkLease (Some worker) (Some expires) (lease_epoch r + 1)) r).

Definition SupersedeInstance (now : Z) (k : string) : table -> table :=
  update_rows (has_id k)
    (fun r : row => mkRow (r_spawn r) (process_version r) (r_work r) (r_lease r) (r_claim r) (Some now)).

(** ORDER BY created_at, id. *)
Definition oldest_first (a b : row) : Prop :=
  created_at a < created_at b \/ (created_at a = created_at b /\ String.le (id a) (id b)).
#[export] Instance oldest_first_dec a b : Decision (oldest_first a b).
Proof. unfold oldest_first. apply _. Defined.

(** ORDER BY id, the order of every tree lock. *)
Definition by_id (a b : row) : Prop := String.le (id a) (id b).
#[export] Instance by_id_dec a b : Decision (by_id a b).
Proof. unfold by_id. apply _. Defined.

(** [lockTree]: the tree's rows matching [where], in id order. *)
Definition lockTree (where_ : row -> bool) (root : string) (m : table) : list row :=
  merge_sort by_id (matching (fun r : row => String.eqb (root_id r) root && where_ r) m).

(** * Signals *)

Definition oldest_signal (a b : signal) : Prop :=
  sig_created_at a < sig_created_at b \/
  (sig_created_at a = sig_created_at b /\
   (sig_seq a < sig_seq b \/ (sig_seq a = sig_seq b /\ String.le (sig_id a) (sig_id b)))).
#[export] Instance oldest_signal_dec a b : Decision (oldest_signal a b).
Proof. unfold oldest_signal. apply _. Defined.

Definition signals_for (k t : string) (l : list signal) : list signal :=
  List.filter (fun s => String.eqb (sig_instance s) k && String.eqb (sig_task s) t) l.

Definition PeekOldestSignal (k t : string) : Tx (option signal) :=
  fun s => Ok (head (merge_sort oldest_signal (signals_for k t (signals s))), s).

Definition InsertSignal (sg : signal) : Tx unit :=
  fun s => Ok (tt, mkDB (rows s) (signals s ++ [sg])).

Definition DeleteSignal (k : string) : Tx unit :=
  fun s => Ok (tt, mkDB (rows s) (List.filter (fun sg => negb (String.eqb (sig_id sg) k)) (signals s))).

Definition UnparkExternal (now : Z) (k : string) : table -> table :=
  update_rows (has_id k)
    (fun r : row => set_state (status r) PhaseNone None (error_message r) (error_code r) now r).

(** * Saving *)

(** [persistState]: the columns are the instance's own; the consumed signal goes in
    the same transaction. *)
Definition persistState (i : ProcessInstance) : Tx unit :=
  if String.eqb (ConsumedSignalID i) "" then mret tt else DeleteSignal (ConsumedSignalID i).

Definition UpdateInstance (i : ProcessInstance) (now : Z) : Tx unit :=
  _ ← persistState i; n ← UpdateInstance_q i now; requireFenced n.

Definition UpdateInstanceProgress (i : ProcessInstance) (now : Z) : Tx unit :=
  _ ← persistState i; n ← UpdateInstanceProgress_q i now; requireFenced n.

(** The row [insertInstanceParams] binds: status and times from the caller, no lease. *)
Definition insert_row (i : ProcessInstance) (st : Status) (created updated : Z) : row :=
  mkRow (mkSpawn (id i) (process_name i) (parent_id i) (root_id i) (call_stack i) (spawn_task_id i)
           (parent_task_epoch i) created)
    (process_version i)
    (mkWork (task i) (task_epoch i) (next_replayable i) (retry_count i) (wake_at i) st (phase i)
       (error_message i) (error_code i) updated (cols i))
    (mkLease None None 0) (mkClaim None None 0) None.

Definition SaveInstance (i : ProcessInstance) (now : Z) : Tx unit :=
  _ ← persistState i; InsertInstance (insert_row i (status i) now now).

(** * Reasoning about transactions and statements *)

Lemma Tx_bind_Ok {A B} (m : Tx A) (f : A -> Tx B) s r :
  (m ≫= f) s = Ok r <-> exists x s1, m s = Ok (x, s1) /\ f x s1 = Ok r.
Proof.
  unfold mbind, Tx_bind. split.
  - destruct (m s) as [[x s1]|e]; [|done]. by exists x, s1.
  - by intros (x & s1 & -> & H).
Qed.

Lemma bind_run {A B} (t : Tx A) (f : A -> Tx B) s x s1 : t s = Ok (x, s1) -> (t ≫= f) s = f x s1.
Proof. intros E. unfold mbind, Tx_bind. by rewrite E. Qed.

Lemma ret_Ok {A} (x y : A) s s' : (mret x : Tx A) s = Ok (y, s') <-> x = y /\ s = s'.
Proof. unfold mret, Tx_ret. split; [by intros [= -> ->]|by intros [-> ->]]. Qed.

Lemma query_Ok {A} (f : table -> A) y s s' : query f s = Ok (y, s') <-> f (rows s) = y /\ s = s'.
Proof. unfold query. split; [by intros [= -> ->]|by intros [-> ->]]. Qed.

Lemma exec_Ok f u s s' : exec f s = Ok (u, s') <-> s' = mkDB (f (rows s)) (signals s).
Proof. unfold exec. destruct u. split; [by intros [= <-]|by intros ->]. Qed.

Lemma fail_Ok {A} e (r : A * DBState) s : fail e s = Ok r <-> False.
Proof. done. Qed.

Lemma execrows_Ok p f n s s' :
  execrows p f s = Ok (n, s') <->
  n = count p (rows s) /\ s' = mkDB (update_rows p f (rows s)) (signals s).
Proof.
  unfold execrows. rewrite Tx_bind_Ok. setoid_rewrite query_Ok. split.
  - intros (x & s1 & [-> ->] & H). rewrite Tx_bind_Ok in H.
    destruct H as (u & s2 & E%exec_Ok & [-> ->]%ret_Ok). by subst.
  - intros [-> ->]. eexists _, s. split; [done|]. apply Tx_bind_Ok.
    eexists tt, _. split; [by apply exec_Ok|]. by apply ret_Ok.
Qed.

Lemma lookup_update p f (m : table) k :
  update_rows p f m !! k = (fun r => if p r then f r else r) <$> m !! k.
Proof. apply lookup_fmap. Qed.

Lemma lookup_update_Some p f (m : table) k r' :
  update_rows p f m !! k = Some r' <-> exists r, m !! k = Some r /\ r' = if p r then f r else r.
Proof. rewrite lookup_update, fmap_Some. naive_solver. Qed.

Lemma elem_of_matching p (m : table) r :
  r ∈ matching p m <-> p r = true /\ exists k, m !! k = Some r.
Proof.
  unfold matching. rewrite list_elem_of_In, List.filter_In, List.in_map_iff. split.
  - intros [([k r'] & <- & H) Hp]. apply list_elem_of_In, elem_of_map_to_list in H. cbn. eauto.
  - intros [Hp [k H]]. split; [|done]. exists (k, r). split; [done|].
    by apply list_elem_of_In, elem_of_map_to_list.
Qed.

Lemma count_pos p (m : table) : 0 < count p m <-> exists k r, m !! k = Some r /\ p r = true.
Proof.
  unfold count. split.
  - intros H. destruct (matching p m) as [|r l] eqn:E; [cbn in H; lia|].
    assert (Hr : r ∈ matching p m) by (rewrite E; left). apply elem_of_matching in Hr as [? [k ?]].
    by exists k, r.
  - intros (k & r & H & Hp). assert (Hr : r ∈ matching p m) by (apply elem_of_matching; eauto).
    destruct (matching p m); [by apply elem_of_nil in Hr|cbn; lia].
Qed.

Lemma count_nonneg p (m : table) : 0 <= count p m.
Proof. unfold count. lia. Qed.

Lemma count_zero p (m : table) : count p m = 0 <-> forall k r, m !! k = Some r -> p r = false.
Proof.
  split.
  - intros H k r Hr. destruct (p r) eqn:E; [|done].
    assert (0 < count p m) by (apply count_pos; eauto). lia.
  - intros H. destruct (Z.eq_dec (count p m) 0); [done|].
    assert (P : 0 < count p m) by (pose proof (count_nonneg p m); lia).
    apply count_pos in P as (k & r & Hr & Hp). rewrite (H k r Hr) in Hp. done.
Qed.

End Store.

(** Opens a hypothesis that a transaction succeeded. *)
Ltac tx_inv :=
  repeat match goal with
    | H : (_ ≫= _) _ = Ok _ |- _ => rewrite Store.Tx_bind_Ok in H; destruct H as (? & ? & ? & H)
    | H : mret _ _ = Ok (_, _) |- _ => apply Store.ret_Ok in H; destruct H as [? ?]
    | H : Store.query _ _ = Ok (_, _) |- _ => apply Store.query_Ok in H; destruct H as [? ?]
    | H : Store.exec _ _ = Ok (_, _) |- _ => apply Store.exec_Ok in H
    | H : Store.execrows _ _ _ = Ok (_, _) |- _ => apply Store.execrows_Ok in H; destruct H as [? ?]
    | H : Store.fail _ _ = Ok _ |- _ => discriminate H
    | H : Err _ = Ok _ |- _ => discriminate H
    end.
