(* ===== verification/Lifecycle.v ===== *)
(** The lifecycle of a process tree: internal/db/db_lifecycle.go and
    internal/db/db_claim.go.

    Each verb is the transaction the source runs.  Its row locks make it atomic
    against every other verb on the tree, and on SQLite the single writer does, so
    here a transaction is one step.  A retry reads and checks its root before it opens
    the transaction: [retry_check] and [retry_tx] are apart, and [RetryProcess] runs one
    after the other with nothing between.  The log entries written after the commit are
    not modelled; the definitions a retry reads are a parameter. *)
From Stdlib Require Import ZArith Lia String.
From stdpp Require Import sorting.
From S2P Require Import Prelude.
From S2P Require Import Instance.
From S2P Require Import Store.
Open Scope string_scope.
Open Scope list_scope.
Open Scope Z_scope.

Module Lifecycle.
Import Instance Store.

(** * Claiming: db_claim.go *)

Definition renewChunkSize : nat := 100.

(** SQL's [a <= b] where [a] may be NULL. *)
Definition null_le (a : option Z) (b : Z) : bool :=
  match a with Some a => a <=? b | None => false end.

(** The claim predicate, at [now] and with the takeover cutoff. *)
Definition claimable (now cutoff : Z) (r : row) : bool :=
  bool_decide (status r ∈ [StatusRunning; StatusPausing; StatusCancelling]) &&
  negb (bool_decide (phase r = PhaseChildren)) &&
  (bool_decide (status r ∈ [StatusPausing; StatusCancelling]) ||
   null_le (wake_at r) now ||
   (negb (bool_decide (phase r = PhaseExternal)) && bool_decide (wake_at r = None))) &&
  (negb (held r) || null_le (lease_expires_at r) cutoff).

(** [SkipTakeover]: every stamped lease is later than this. *)
Definition SkipTakeover : Z := 0.
Definition TakeoverBefore (t : Z) : Z := t.
Definition AllowTakeover (now : Z) : Z := TakeoverBefore now.

(** The instance a grant hands out. *)
Definition granted (worker : string) (expires : Z) (r : row) : ProcessInstance :=
  mkInstance (set_lease (mkLease (Some worker) (Some expires) (lease_epoch r + 1)) r) (held r) "".

Definition ClaimInstances (worker : string) (leaseDur : Z) (limit : nat) (takeover now : Z)
    : Tx (list ProcessInstance) :=
  cand ← query (fun m => take limit (merge_sort oldest_first (matching (claimable now takeover) m)));
  match cand : list row with
  | [] => mret []
  | _ =>
      _ ← exec (GrantLeases worker (now + leaseDur) (map (fun r : row => id r) cand));
      mret (map (granted worker (now + leaseDur)) cand)
  end.

(** ORDER BY lease_expires_at of the renewal. *)
Definition lease_order (a b : row) : Prop :=
  default 0 (lease_expires_at a) <= default 0 (lease_expires_at b).
#[export] Instance lease_order_dec a b : Decision (lease_order a b).
Proof. unfold lease_order. apply _. Defined.

Definition renewable (worker : string) (ids : list string) (expiry : Z) (r : row) : bool :=
  in_ids ids r && bool_decide (worker_id r = Some worker) &&
  match lease_expires_at r with Some e => e <? expiry | None => false end.

Definition RenewWorkerLeasesChunk (worker : string) (ids : list string) (expiry : Z) (chunk : nat)
    : Tx Z :=
  pick ← query (fun m => take chunk (merge_sort lease_order (matching (renewable worker ids expiry) m)));
  _ ← exec (update_rows (in_ids (map (fun r : row => id r) pick))
              (fun r : row => set_lease (mkLease (worker_id r) (Some expiry) (lease_epoch r)) r));
  mret (Z.of_nat (length (pick : list row))).

Fixpoint renew_loop (fuel : nat) (worker : string) (ids : list string) (expiry : Z) : Tx unit :=
  match fuel with
  | O => fail OutOfFuel
  | S fuel =>
      n ← RenewWorkerLeasesChunk worker ids expiry renewChunkSize;
      if n <? Z.of_nat renewChunkSize then mret tt else renew_loop fuel worker ids expiry
  end.

Definition RenewWorkerLeases (worker : string) (ids : list string) (leaseDur now : Z) : Tx Z :=
  m ← query (fun m => m);
  _ ← renew_loop (S (size m)) worker ids (now + leaseDur);
  mret now.

(** * Settling up *)

(** [settledRow]: one ancestor a settle-up moved on. *)
Record settledRow := mkSettled { s_id : string; s_status : Status; s_msg : string }.

(** The climb of [settleUp]; [fuel] bounds the ancestors. *)
Fixpoint settle_loop (fuel : nat) (parentID spawnTask : string) (epoch now : Z)
    (settled : list settledRow) : Tx (list settledRow) :=
  if String.eqb parentID "" then mret settled
  else match fuel with
  | O => fail OutOfFuel
  | S fuel =>
      m ← query (fun m => m);
      match m !! parentID with
      | None => mret settled
      | Some p =>
          if negb (bool_decide (phase (p : row) = PhaseChildren)) then mret settled
          else
            active ← query (CountActiveSiblings parentID spawnTask epoch);
            _ ← (if active =? 0 then exec (WakeParent parentID now) else mret tt);
            if negb (Draining (status p)) then mret settled
            else
              busy ← (if 0 <? active then query (CountBusySiblings parentID spawnTask epoch)
                      else mret 0);
              if (0 <? active) && (0 <? busy) then mret settled
              else
                _ ← exec (SettleDrained parentID now);
                settle_loop fuel (parent_id p) (spawn_task_id p) (parent_task_epoch p) now
                  (settled ++ [mkSettled parentID (status p) (error_message p)])
      end
  end.

Definition settleUp (child : row) (now : Z) : Tx (list settledRow) :=
  m ← query (fun m => m);
  settle_loop (S (size m)) (parent_id child) (spawn_task_id child) (parent_task_epoch child) now [].

(** * Writing a child that stopped *)

Definition scope_rank (s : lockScope) : Z :=
  match s with lockParent => 0 | lockStack => 1 | lockLive => 2 end.

(** [withChildTx]: reruns the body under a wider scope when it asks for one.  The
    locks themselves leave no trace in the state. *)
Fixpoint child_tx (fuel : nat) {A} (scope : lockScope) (body : lockScope -> Tx A) : Tx A :=
  fun s =>
    match body scope s with
    | Err (errWiden w) =>
        match fuel with
        | S fuel => if scope_rank scope <? scope_rank w then child_tx fuel w body s
                    else Err (errWiden w)
        | O => Err OutOfFuel
        end
    | r => r
    end.

Definition withChildTx {A} (postgres : bool) (scope : lockScope) (body : lockScope -> Tx A) : Tx A :=
  child_tx 3 (if postgres then scope else lockLive) body.

Definition finish_body (child : ProcessInstance) (now : Z) (heldScope : lockScope)
    : Tx (list settledRow) :=
  m ← query (fun m => m);
  let narrow := match m !! parent_id child with
                | Some p => Draining (status (p : row)) && (scope_rank heldScope <? scope_rank lockStack)
                | None => false
                end in
  if narrow then fail (errWiden lockStack)
  else
    _ ← persistState child;
    n ← UpdateInstance_q child now;
    _ ← requireFenced n;
    settleUp child now.

Definition FinishChild (postgres : bool) (child : ProcessInstance) (now : Z) : Tx unit :=
  if String.eqb (parent_id child) "" then UpdateInstance child now
  else _ ← withChildTx postgres lockParent (finish_body child now); mret tt.

(** Whether this failure is the one that poisons the tree: the root's status. *)
Definition poisonable (st : Status) : bool :=
  bool_decide (st ∈ [StatusRunning; StatusPausing; StatusPaused]).

Definition poisons_tree (child : ProcessInstance) : Tx bool :=
  match call_stack child with
  | [] => mret false
  | root :: _ => st ← GetInstanceStatus root; mret (poisonable st)
  end.

Definition fail_body (child : ProcessInstance) (now : Z) (heldScope : lockScope)
    : Tx (list (string * Status) * list settledRow) :=
  poisons ← poisons_tree child;
  if poisons && (scope_rank heldScope <? scope_rank lockLive) then fail (errWiden lockLive)
  else
    _ ← persistState child;
    n ← UpdateInstance_q child now;
    _ ← requireFenced n;
    match call_stack child with
    | [] => mret ([], [])
    | root :: _ =>
        _ ← exec (FailAncestors (error_message child) (error_code child) now (call_stack child));
        paused ← (if poisons : bool then PauseTree root now else mret []);
        settled ← settleUp child now;
        mret (paused, settled)
    end.

Definition FailInstanceAndAncestors (postgres : bool) (child : ProcessInstance) (now : Z) : Tx unit :=
  _ ← withChildTx postgres lockStack (fail_body child now); mret tt.

(** * The verbs of an operator *)

(** What a tree verb did. *)
Record LifecycleResult := mkResult { lr_outcome : Outcome; lr_status : Status; lr_instances : nat }.

Definition loadInstanceRow (k : string) : Tx row :=
  m ← query (fun m => m);
  match m !! k with Some r => mret r | None => fail ErrNotFound end.

Definition requireRoot (r : row) : Tx unit :=
  if String.eqb (parent_id r) "" then mret tt else fail ErrInvalid.

Definition lifecycleResult (k : string) (o : Outcome) (written : nat) : Tx LifecycleResult :=
  r ← loadInstanceRow k; mret (mkResult o (status (r : row)) written).

Definition refuseInTransition (root : Status) : Tx unit :=
  match root with
  | StatusPausing | StatusFailing | StatusCancelling => fail ErrConflict
  | _ => mret tt
  end.

(** [stopVerb]: what separates pause from cancel. *)
Record stopVerb := mkVerb {
  v_draining : Status; v_stopped : Status; v_update : string -> Z -> Tx (list (string * Status)) }.

Definition stopTree (k : string) (v : stopVerb) (now : Z) : Tx LifecycleResult :=
  r ← loadInstanceRow k;
  _ ← requireRoot r;
  rootStatus ← GetInstanceStatus k;
  rows ← (if Terminal rootStatus then mret []
          else
            _ ← (if bool_decide (rootStatus = v_draining v) then mret tt
                 else refuseInTransition rootStatus);
            v_update v k now);
  match rows : list (string * Status) with
  | [] =>
      lifecycleResult k
        (if bool_decide (rootStatus = v_draining v) then OutcomeAccepted else OutcomeUnchanged) 0
  | _ =>
      let draining := List.filter (fun e : string * Status => bool_decide (e.2 = v_draining v)) rows in
      lifecycleResult k (match draining with [] => OutcomeApplied | _ => OutcomeAccepted end)
        (length rows)
  end.

Definition pause_verb : stopVerb := mkVerb StatusPausing StatusPaused PauseTree.
Definition cancel_verb : stopVerb := mkVerb StatusCancelling StatusCancelled CancelTree.

Definition PauseProcess (k : string) (now : Z) : Tx LifecycleResult := stopTree k pause_verb now.
Definition CancelProcess (k : string) (now : Z) : Tx LifecycleResult := stopTree k cancel_verb now.

(** [updateStatusIn]. *)
Definition updateStatusIn (ids : list string) (st : Status) (now : Z) : Tx unit :=
  match ids with [] => mret tt | _ => exec (SetStatusIn st now ids) end.

Definition ResumeProcess (k : string) (now : Z) : Tx LifecycleResult :=
  r ← loadInstanceRow k;
  _ ← requireRoot r;
  paused ← query (lockTree (fun r : row => bool_decide (status r = StatusPaused)) k);
  let resumed := map (fun r : row => id r) paused in
  rootStatus ← GetInstanceStatus k;
  _ ← refuseInTransition rootStatus;
  match resumed with
  | [] =>
      if Terminal rootStatus then fail ErrConflict
      else lifecycleResult k OutcomeUnchanged 0
  | _ =>
      if bool_decide (rootStatus = StatusFailed) then fail ErrConflict
      else
        _ ← updateStatusIn resumed StatusRunning now;
        lifecycleResult k OutcomeApplied (length resumed)
  end.

(** * Retry *)

(** What a retry reads of a task of the pinned definition. *)
Record task_info := mkTaskInfo { t_id : string; t_only_once : bool }.

(** The walk's state: the loaded nodes as changed so far, the changed ones in order,
    and the node whose batch holds a raised slot. *)
Record revive_state := mkRevive {
  nodes : table; dirty : list string; overriddenID : string }.

Section Retry.
(** The stored definitions, and the edit of the engine_state text that sets
    [retry_override]. *)
Context (loadDef : string -> Z -> option (list task_info)).
Context (mark_override : string -> string).

Definition loadTask (node : row) : result db_error (option task_info) :=
  if String.eqb (task node) "" then Ok None
  else match loadDef (process_name node) (process_version node) with
       | None => Err (ErrOther "load definition")
       | Some tasks =>
           match List.find (fun t => String.eqb (t_id t) (task node)) tasks with
           | Some t => Ok (Some t)
           | None => Err (ErrOther "task not found")
           end
       end.

(** [children[node.ID][node.Task]], the current batch of it, in the order loaded. *)
Definition kids_of (loaded : list row) (node : row) : list string :=
  map (fun r : row => id r)
    (List.filter (fun r : row => negb (String.eqb (parent_id r) "") &&
       in_batch (id node) (task node) (task_epoch node) r) loaded).

(** The revived node: [running] at its reconstructed phase. *)
Definition revived (ph : Phase) (hasBatch : bool) (node : row) : row :=
  set_work (mkWork (task node) (if hasBatch then task_epoch node else task_epoch node + 1)
              (next_replayable node) (retry_count node)
              (if 0 <? retry_count node then None else wake_at node)
              StatusRunning ph "" (error_code node) (updated_at node) (cols node)) node.

Definition mark_dirty (k : string) (node : row) (st : revive_state) : revive_state :=
  mkRevive (<[k := node]> (nodes st)) (dirty st ++ [k]) (overriddenID st).

(** The loop over a failed node's batch: the state and [anyActive] so far. *)
Fixpoint revive_kids (revive : string -> revive_state -> result db_error revive_state)
    (parent : string) (kids : list string) (acc : revive_state * bool)
    : result db_error (revive_state * bool) :=
  match kids with
  | [] => Ok acc
  | k :: kids =>
      let '(st, anyActive) := acc in
      match nodes st !! k with
      | None => Err (ErrOther "unloaded child")
      | Some c =>
          if bool_decide (status (c : row) = StatusRaised) then
            revive_kids revive parent kids (mkRevive (nodes st) (dirty st) parent, anyActive)
          else
            st ← revive k st;
            let active := match nodes st !! k with
                          | Some c => negb (Terminal (status (c : row)))
                          | None => false
                          end in
            revive_kids revive parent kids (st, anyActive || active)
      end
  end.

Fixpoint revive (fuel : nat) (force : bool) (loaded : list row) (k : string) (st : revive_state)
    : result db_error revive_state :=
  match fuel with
  | O => Err OutOfFuel
  | S fuel =>
      match nodes st !! k with
      | None => Err (ErrOther "unloaded node")
      | Some node =>
          if negb (bool_decide (status (node : row) = StatusFailed)) then Ok st
          else if String.eqb (task node) "" then
            Ok (mark_dirty k (revived PhaseNone false node) st)
          else match kids_of loaded node with
          | [] =>
              front ← (if force then Ok None else loadTask node);
              match front with
              | Some t => if t_only_once t then Err ErrConflict
                          else Ok (mark_dirty k (revived PhaseNone false node) st)
              | None => Ok (mark_dirty k (revived PhaseNone false node) st)
              end
          | kids =>
              '(st, anyActive) ← revive_kids (revive fuel force loaded) k kids (st, false);
              Ok (mark_dirty k
                    (revived (if anyActive : bool then PhaseChildren else PhaseCollecting) true node) st)
          end
      end
  end.

(** The columns the revived node is saved with: the reported error cleared, the rest
    as loaded. *)
Definition revived_cols (c : stateCols) (override : bool) : stateCols :=
  mkCols (InputData c) (OutputsData c) (OutputData c) (ErrorInternal c) "" (ExternalInput c)
    (if override then mark_override (EngineState c) else EngineState c) (Objects c) (ExternalLost c).

Definition save_revived (raw node : row) (override : bool) : row :=
  mkRow (r_spawn raw) (process_version raw)
    (mkWork (task raw) (task_epoch node) (next_replayable raw) (retry_count node) (wake_at node)
       (status node) (phase node) "" "" (updated_at raw) (revived_cols (cols raw) override))
    (r_lease raw) (r_claim raw) (superseded_at raw).

Fixpoint save_dirty (raws : table) (st : revive_state) (ids : list string) (now : Z) : Tx unit :=
  match ids with
  | [] => mret tt
  | k :: ids =>
      match raws !! k, nodes st !! k with
      | Some raw, Some node =>
          _ ← UpdateInstance_q (save_revived raw node (String.eqb k (overriddenID st))) now;
          save_dirty raws st ids now
      | _, _ => fail (ErrOther "unloaded node")
      end
  end.

(** What [RetryProcess] asks before its transaction: every status but [failed] is refused,
    each with its own message. *)
Definition retry_check (k : string) : Tx unit :=
  r ← loadInstanceRow k;
  _ ← requireRoot r;
  if bool_decide (status (r : row) = StatusFailed) then mret tt else fail ErrConflict.

(** The transaction of [RetryProcess].  It reads no root status: the check ran before it,
    outside, so [retry_tx] may find the tree in any state. *)
Definition retry_tx (k : string) (force : bool) (now : Z) : Tx nat :=
  loaded ← query (lockTree (fun r : row => bool_decide (superseded_at r = None)) k);
  let raws : table := list_to_map (map (fun r : row => (id r, r)) loaded) in
  match raws !! k with
  | None => fail (ErrOther "instance not found")
  | Some _ =>
      match revive (S (size raws)) force loaded k (mkRevive raws [] "") with
      | Err e => fail e
      | Ok st =>
          let resumed := map (fun r : row => id r)
            (matching (fun r : row => bool_decide (status r = StatusPaused)) (nodes st)) in
          _ ← updateStatusIn resumed StatusRunning now;
          _ ← save_dirty raws st (dirty st) now;
          mret (length (dirty st) + length resumed)%nat
      end
  end.

(** The check, the transaction and the row it reports, with nothing in between; the runs of
    [System] take the transaction alone as their step, so that anything may have run since
    the check. *)
Definition RetryProcess (k : string) (force : bool) (now : Z) : Tx LifecycleResult :=
  _ ← retry_check k;
  n ← retry_tx k force now;
  lifecycleResult k OutcomeApplied n.
End Retry.

(** * Spawning *)

(** [parkParentWaiting]. *)
Definition parkParentWaiting (parent : ProcessInstance) (st : Status) (now : Z) : Tx unit :=
  _ ← persistState parent;
  n ← UpdateInstance_q
        (set_state st PhaseChildren None (error_message parent) (error_code parent) (updated_at parent)
           parent) now;
  requireFenced n.

(** Inserts the children with strictly increasing times, in the parent's status. *)
Fixpoint insert_children (children : list ProcessInstance) (st : Status) (ts : Z) : Tx unit :=
  match children with
  | [] => mret tt
  | c :: children =>
      _ ← persistState c;
      _ ← InsertInstance (insert_row c st ts ts);
      insert_children children st (ts + 1)
  end.

Definition SpawnChildrenAndWait (parent : ProcessInstance) (children : list ProcessInstance) (now : Z)
    : Tx unit :=
  match children with
  | [] => mret tt
  | _ =>
      p ← GetInstance (id parent);
      if negb (bool_decide (phase (p : row) = PhaseNone)) then fail (ErrOther "already in a phase")
      else
        _ ← insert_children children (status p) now;
        parkParentWaiting parent (status p) now
  end.

Fixpoint supersede_all (retired : list string) (now : Z) : Tx unit :=
  match retired with
  | [] => mret tt
  | k :: retired => _ ← exec (SupersedeInstance now k); supersede_all retired now
  end.

Definition RespawnSlotsAndWait (parent : ProcessInstance) (retired : list string)
    (children : list ProcessInstance) (now : Z) : Tx unit :=
  match children with
  | [] => mret tt
  | _ =>
      p ← GetInstance (id parent);
      if negb (bool_decide (phase (p : row) = PhaseCollecting)) then fail (ErrOther "not collecting")
      else
        _ ← supersede_all retired now;
        _ ← insert_children children (status p) now;
        parkParentWaiting parent (status p) now
  end.

(** [saveAndNotify] of internal/engine/advance.go: the exit of every terminal outcome. *)
Definition saveAndNotify (postgres : bool) (i : ProcessInstance) (now : Z) : Tx unit :=
  if String.eqb (parent_id i) "" then UpdateInstance i now
  else if bool_decide (status i = StatusFailed) then FailInstanceAndAncestors postgres i now
  else FinishChild postgres i now.

End Lifecycle.
