(* ===== verification/External.v ===== *)
(** External tasks and signals: internal/db/db_signals.go, internal/db/db_external.go
    and internal/db/db_external_claim.go.

    An instance parked on an external task is answered through a FIFO of signals; an
    external worker may hold a claim on it, fenced by [external_claim_epoch].  The
    outcome of a signal is its encoded text.  One reading of the clock serves a
    whole call. *)
From Stdlib Require Import ZArith Lia String.
From stdpp Require Import sorting.
From S2P Require Import Prelude.
From S2P Require Import Instance.
From S2P Require Import Store.
From S2P Require Import Lifecycle.
Open Scope string_scope.
Open Scope list_scope.
Open Scope Z_scope.

Module External.
Import Instance Store Lifecycle.

(** * Signals *)

(** A lease or claim that has not expired. *)
Definition live (holder : option string) (expires : option Z) (now : Z) : bool :=
  match holder, expires with Some _, Some e => now <? e | _, _ => false end.

(** [ArmExternalUnlessSignalled]: parks on the wait, or writes a checkpoint when an
    answer is already buffered. [input] is the encoded external input. *)
Definition ArmExternalUnlessSignalled (i : ProcessInstance) (taskID input : string)
    (wakeAt : option Z) (now : Z) : Tx bool :=
  m ← query (fun m => m);
  match m !! id i with
  | None => fail ErrNotFound
  | Some _ =>
      sg ← PeekOldestSignal (id i) taskID;
      match sg : option signal with
      | Some _ =>
          let i' := mkInstance (set_state (status i) PhaseNone None (error_message i) (error_code i)
                                  (updated_at i) i) (ReclaimedExpired i) (ConsumedSignalID i) in
          _ ← persistState i'; n ← UpdateInstanceProgress_q i' now; _ ← requireFenced n; mret false
      | None =>
          let c := cols i in
          let parked := mkWork (task i) (task_epoch i) (next_replayable i) (retry_count i) wakeAt
            (status i) PhaseExternal (error_message i) (error_code i) (updated_at i)
            (mkCols (InputData c) (OutputsData c) (OutputData c) (ErrorInternal c) (ErrorData c) input
               (EngineState c) (Objects c) (ExternalLost c)) in
          let i' := mkInstance (set_work parked i) (ReclaimedExpired i) (ConsumedSignalID i) in
          _ ← persistState i'; n ← UpdateInstance_q i' now; _ ← requireFenced n; mret true
      end
  end.

(** [DeliverSignal]; [sid] and [seq] are the mint's. *)
Definition DeliverSignal (k taskID outcome sid : string) (seq now : Z) : Tx bool :=
  m ← query (fun m => m);
  match m !! k with
  | None => fail ErrNotFound
  | Some r =>
      if negb (AcceptsExternalOutcome (status (r : row))) then fail ErrConflict
      else
        let armed := bool_decide (phase r = PhaseExternal) && String.eqb (task r) taskID in
        let liveLeased := live (worker_id r) (lease_expires_at r) now ||
                          live (external_worker_id r) (external_lease_expires_at r) now in
        _ ← InsertSignal (mkSignal sid k taskID seq outcome now);
        _ ← (if armed && negb liveLeased then exec (UnparkExternal now k) else mret tt);
        mret (armed && negb liveLeased)
  end.

Definition PeekSignal := PeekOldestSignal.

Definition CountBufferedSignals (k t : string) : DBState -> Z :=
  fun s => Z.of_nat (length (signals_for k t (signals s))).

(** [bufferOutcome]. *)
Definition bufferOutcome (k taskID outcome sid : string) (seq now : Z) : Tx unit :=
  InsertSignal (mkSignal sid k taskID seq outcome now).

(** * Answers *)

(** [ClaimBinding]: the grant a token named, if it named one. *)
Definition ClaimBinding := option Z.
Definition Unclaimed : ClaimBinding := None.
Definition BoundToClaim (epoch : Z) : ClaimBinding := Some epoch.

(** [ClaimBinding.check]. *)
Definition binding_ok (c : ClaimBinding) (current : Z) (worker : option string) (expires : option Z)
    (now : Z) : bool :=
  match c with
  | Some epoch => epoch =? current
  | None => negb (live worker expires now)
  end.

Definition ResolveExternalTask (k : string) (epoch : Z) (claim : ClaimBinding)
    (outcome sid : string) (seq now : Z) : Tx unit :=
  m ← query (fun m => m);
  match m !! k with
  | None => fail ErrNotFound
  | Some r =>
      if negb (AcceptsExternalOutcome (status (r : row))) || negb (bool_decide (phase r = PhaseExternal))
      then fail ErrConflict
      else if live (worker_id r) (lease_expires_at r) now then fail ErrConflict
      else if negb (task_epoch r =? epoch) then fail ErrConflict
      else if negb (binding_ok claim (external_claim_epoch r) (external_worker_id r)
                      (external_lease_expires_at r) now) then fail ErrConflict
      else
        _ ← bufferOutcome k (task r) outcome sid seq now;
        exec (UnparkExternal now k)
  end.

(** * The claim of an external worker *)

(** [claimableWhere] with the filters ("" and 0 are "any"). *)
Definition external_claimable (now : Z) (processName : string) (processVersion : Z) (tsk : string)
    (r : row) : bool :=
  bool_decide (phase r = PhaseExternal) && bool_decide (status r = StatusRunning) &&
  (bool_decide (external_worker_id r = None) || null_le (external_lease_expires_at r) now) &&
  match wake_at r with None => true | Some w => now <? w end &&
  (String.eqb processName "" || String.eqb (process_name r) processName) &&
  ((processVersion =? 0) || (process_version r =? processVersion)) &&
  (String.eqb tsk "" || String.eqb (task r) tsk).

(** ORDER BY updated_at, id. *)
Definition oldest_park (a b : row) : Prop :=
  updated_at a < updated_at b \/ (updated_at a = updated_at b /\ String.le (id a) (id b)).
#[export] Instance oldest_park_dec a b : Decision (oldest_park a b).
Proof. unfold oldest_park. apply _. Defined.

(** The WHERE of [UnparkAnsweredExternal]. *)
Definition answered (sigs : list signal) (ids : list string) (r : row) : bool :=
  in_ids ids r && bool_decide (phase r = PhaseExternal) &&
  bool_decide (status r ∈ [StatusRunning; StatusPaused; StatusPausing]) &&
  existsb (fun s => String.eqb (sig_instance s) (id r) && String.eqb (sig_task s) (task r)) sigs.

Definition unparked (now : Z) (r : row) : row :=
  set_state (status r) PhaseNone None (error_message r) (error_code r) now r.

Definition UnparkAnsweredExternal (now : Z) (ids : list string) : Tx (list string) :=
  fun s =>
    Ok (map (fun r : row => id r) (matching (answered (signals s) ids) (rows s)),
        mkDB (update_rows (answered (signals s) ids) (unparked now) (rows s)) (signals s)).

Definition GrantExternalLeases (worker : string) (expires : Z) (ids : list string) : table -> table :=
  update_rows (in_ids ids)
    (fun r : row => set_claim (mkClaim (Some worker) (Some expires) (external_claim_epoch r + 1)) r).

(** What a claim returns for a row: the new grant, and whether a lapsed one preceded it. *)
Definition external_grant (worker : string) (expires : Z) (r : row) : row * bool :=
  (set_claim (mkClaim (Some worker) (Some expires) (external_claim_epoch r + 1)) r,
   bool_decide (external_worker_id r <> None)).

Definition ClaimExternalTasks (worker : string) (leaseDur : Z) (limit : nat) (processName : string)
    (processVersion : Z) (tsk : string) (now : Z) : Tx (list (row * bool)) :=
  cand ← query (fun m => take limit (merge_sort oldest_park
           (matching (external_claimable now processName processVersion tsk) m)));
  let ids := map (fun r : row => id r) cand in
  match ids with
  | [] => mret []
  | _ =>
      gone ← UnparkAnsweredExternal now ids;
      let rest := List.filter (fun r : row => negb (bool_decide (id r ∈ gone))) cand in
      match rest with
      | [] => mret []
      | _ =>
          _ ← exec (GrantExternalLeases worker (now + leaseDur) (map (fun r : row => id r) rest));
          mret (map (external_grant worker (now + leaseDur)) rest)
      end
  end.

(** [ExternalClaim] names one grant. *)
Record ExternalClaim := mkExternalClaim { c_id : string; c_task_epoch : Z; c_claim_epoch : Z }.

Inductive RenewVerdict := RenewRenewed | RenewLost | RenewCancelled.

(** The row a grant is still held on. *)
Definition holds_grant (worker : string) (c : ExternalClaim) (r : row) : bool :=
  has_id (c_id c) r && bool_decide (external_worker_id r = Some worker) &&
  (task_epoch r =? c_task_epoch c) && (external_claim_epoch r =? c_claim_epoch c).

Definition stopping (s : Status) : bool := bool_decide (s ∈ [StatusCancelling; StatusCancelled]).

Definition RenewExternalClaim (worker : string) (c : ExternalClaim) (expiry : Z) : Tx Z :=
  execrows (fun r => holds_grant worker c r && negb (stopping (status r)))
    (fun r : row => set_claim (mkClaim (external_worker_id r) (Some expiry) (external_claim_epoch r)) r).

Definition HeldExternalClaimStatus (worker : string) (c : ExternalClaim) (m : table) : option Status :=
  (fun r : row => status r) <$> head (matching (holds_grant worker c) m).

Definition renew_one (worker : string) (c : ExternalClaim) (expiry : Z) : Tx RenewVerdict :=
  n ← RenewExternalClaim worker c expiry;
  if n =? 1 then mret RenewRenewed
  else
    st ← query (HeldExternalClaimStatus worker c);
    mret (match st : option Status with
          | None => RenewLost
          | Some st => if stopping st then RenewCancelled else RenewLost
          end).

(** [RenewExternalClaims]: the chunks only bound a transaction's size. *)
Fixpoint RenewExternalClaims (worker : string) (claims : list ExternalClaim) (expiry : Z)
    : Tx (list RenewVerdict) :=
  match claims with
  | [] => mret []
  | c :: claims =>
      v ← renew_one worker c expiry;
      vs ← RenewExternalClaims worker claims expiry;
      mret (v :: vs)
  end.

Definition ReleaseExternalClaim_q (k : string) (taskEpoch claimEpoch : Z) : Tx Z :=
  execrows
    (fun r : row => has_id k r && (task_epoch r =? taskEpoch) &&
       (external_claim_epoch r =? claimEpoch) && bool_decide (phase r = PhaseExternal) &&
       bool_decide (external_worker_id r <> None))
    (fun r : row => set_claim (mkClaim None None (external_claim_epoch r + 1)) r).

Definition ReleaseExternalClaim (k : string) (taskEpoch claimEpoch now : Z) : Tx unit :=
  n ← ReleaseExternalClaim_q k taskEpoch claimEpoch;
  if n =? 0 then fail ErrConflict else _ ← UnparkAnsweredExternal now [k]; mret tt.

Definition lost (now : Z) (r : row) : row :=
  let c := cols r in
  set_claim (mkClaim None None (external_claim_epoch r + 1))
    (set_work (mkWork (task r) (task_epoch r) (next_replayable r) (retry_count r) (Some now) (status r)
                 (phase r) (error_message r) (error_code r) now
                 (mkCols (InputData c) (OutputsData c) (OutputData c) (ErrorInternal c) (ErrorData c)
                    (ExternalInput c) (EngineState c) (Objects c) true)) r).

Definition MarkExternalClaimLost_q (k : string) (taskEpoch now : Z) : Tx Z :=
  execrows (fun r : row => has_id k r && (task_epoch r =? taskEpoch) &&
              bool_decide (phase r = PhaseExternal)) (lost now).

Definition MarkExternalClaimLost (k : string) (taskEpoch now : Z) : Tx unit :=
  n ← MarkExternalClaimLost_q k taskEpoch now;
  if n =? 0 then fail ErrConflict else mret tt.

(** [ClaimExternalTaskDirect]: a holder no claim would grant, which the tests need. *)
Definition ClaimExternalTaskDirect_q (worker : string) (expires : Z) (k : string) : table -> table :=
  update_rows (has_id k)
    (fun r : row => set_claim (mkClaim (Some worker) (Some expires) (external_claim_epoch r + 1)) r).

Definition ClaimExternalTaskDirect (k worker : string) (leaseDur now : Z) : Tx unit :=
  exec (ClaimExternalTaskDirect_q worker (now + leaseDur) k).

End External.
