(* ===== verification/Tree.v ===== *)
(** The tree invariant: how the statuses, phases and batches of a process tree fit
    together, after specs/pause-resume.md.

    [tree_ok] relates every row to its parent; [tree_ok_but x] leaves the wait of one
    row open, which is where an operation stands between writing a child and settling
    its parent.  [settle_loop_ok] closes it again; [restatus_ok] and [tree_insert] are
    the two ways an operation keeps it. *)
From Stdlib Require Import ZArith Lia String.
From stdpp Require Import sorting.
From S2P Require Import Prelude.
From S2P Require Import Instance.
From S2P Require Import Store.
From S2P Require Import Lifecycle.
Open Scope string_scope.
Open Scope list_scope.
Open Scope Z_scope.

Module Tree.
Import Instance Store Lifecycle.

Implicit Types r p c h : row.
Implicit Types m : table.
Implicit Types k : string.

(** Splits a membership in an enumerated list of statuses. *)
Ltac in_cases H :=
  repeat (apply elem_of_cons in H; destruct H as [H|H]); try (by apply elem_of_nil in H).

(** Evaluates the memberships of concrete statuses. *)
Ltac eval_in :=
  repeat match goal with
    | |- context [bool_decide (?x ∈ ?l)] =>
        let b := eval vm_compute in (bool_decide (x ∈ l)) in
        match b with true => idtac | false => idtac end;
        change (bool_decide (x ∈ l)) with b; cbn
    end.

(** * The invariant *)

(** The statuses a parent may have above a child of each status. *)
Definition ok_pair (c p : Status) : bool :=
  match c with
  | StatusRunning => bool_decide (p = StatusRunning)
  | StatusPausing => bool_decide (p ∈ [StatusPausing; StatusFailing])
  | StatusPaused => bool_decide (p ∈ [StatusPaused; StatusPausing; StatusFailing; StatusFailed])
  | StatusFailing => bool_decide (p = StatusFailing)
  | StatusCancelling => bool_decide (p = StatusCancelling)
  | StatusFailed => bool_decide (p ∈ [StatusFailing; StatusFailed; StatusCancelling; StatusCancelled])
  | StatusCancelled => bool_decide (p ∈ [StatusCancelling; StatusCancelled])
  | StatusCompleted | StatusRaised => true
  end.

(** The children a parent still accounts for: they sit in its current batch. *)
Definition batched (c : Status) : bool :=
  negb (bool_decide (c ∈ [StatusCompleted; StatusRaised; StatusCancelled])).

(** The children whose parent must still be waiting on them. *)
Definition awaited (c p : Status) : bool :=
  Busy c || (bool_decide (c = StatusPaused) && negb (bool_decide (p = StatusFailed))) ||
  (bool_decide (c = StatusFailed) && bool_decide (p ∈ [StatusFailing; StatusCancelling])).

Definition child_of (p c : row) : Prop := in_batch (id p) (task p) (task_epoch p) c = true.

Record link_ok (c p : row) : Prop := mkLink {
  lk_pair : ok_pair (status c) (status p) = true;
  lk_batch : batched (status c) = true -> child_of p c;
  lk_wait : awaited (status c) (status p) = true -> phase p = PhaseChildren }.

(** A worker is only ever on a row that can advance and is not waiting for children. *)
Record row_ok (r : row) : Prop := mkRowOk {
  ro_held : worker_id r <> None ->
    status r ∈ [StatusRunning; StatusPausing; StatusCancelling] /\ phase r <> PhaseChildren;
  ro_failing : status r = StatusFailing -> phase r = PhaseChildren;
  ro_superseded : superseded_at r <> None -> status r = StatusRaised }.

(** A live row waiting for children has a live one, and a draining row a busy one. *)
Definition wait_ok (m : table) (p : row) : Prop :=
  phase p = PhaseChildren -> Terminal (status p) = false ->
  exists k (c : row), m !! k = Some c /\ child_of p c /\ Terminal (status c) = false /\
    (Draining (status p) = true -> Busy (status c) = true).

Definition shape_ok (m : table) (k : string) (r : row) : Prop :=
  id r = k /\ k <> "" /\
  if decide (parent_id r = "") then call_stack r = [] /\ root_id r = k
  else exists p : row, m !! parent_id r = Some p /\ call_stack r = call_stack p ++ [parent_id r] /\
    root_id r = root_id p /\ spawn_task_id r <> "".

(** The statuses of a root with a paused row below it. *)
Definition pausable (s : Status) : bool :=
  bool_decide (s ∈ [StatusPaused; StatusPausing; StatusFailing; StatusFailed]).

(** Everything but the wait of the row [x]. *)
Record tree_ok_but (x : string) (m : table) : Prop := mkTree {
  t_shape : forall k (r : row), m !! k = Some r -> shape_ok m k r;
  t_row : forall k r, m !! k = Some r -> row_ok r;
  t_link : forall k (r p : row), m !! k = Some r -> m !! parent_id r = Some p -> link_ok r p;
  t_wait : forall k p, k <> x -> m !! k = Some p -> wait_ok m p;
  t_paused : forall k r r0, m !! k = Some r -> status r = StatusPaused ->
    m !! root_id r = Some r0 -> pausable (status r0) = true }.

(** The invariant; no row has the id [""]. *)
Definition tree_ok : table -> Prop := tree_ok_but "".

(** How an operation may change a row it did not write as its holder. *)
Definition since (a b : Status) : bool :=
  match a with
  | StatusRunning => bool_decide (b ∈ [StatusRunning; StatusPausing; StatusCancelling])
  | _ => bool_decide (a = b)
  end.

Definition settled (s : Status) : bool :=
  bool_decide (s ∈ [StatusCompleted; StatusRaised; StatusCancelled]).

Record evolves1 (retry : bool) (r r' : row) : Prop := mkEvolves {
  ev_spawn : r_spawn r' = r_spawn r;
  ev_settled : settled (status r) = true -> status r' = status r;
  ev_failed : retry = false -> status r = StatusFailed -> status r' = StatusFailed;
  ev_epoch : lease_epoch r <= lease_epoch r';
  ev_grant : worker_id r' <> None -> lease_epoch r' = lease_epoch r ->
    worker_id r = worker_id r' /\ task r' = task r /\ task_epoch r' = task_epoch r /\
    since (status r) (status r') = true }.

Definition evolves (retry : bool) (m m' : table) : Prop :=
  forall k r, m !! k = Some r -> exists r', m' !! k = Some r' /\ evolves1 retry r r'.

(** A change of the whole table: rows evolve, and a new row is free and hangs below
    a row its holder just let go of. *)
Record extends (retry : bool) (m m' : table) : Prop := mkExtends {
  ex_evolves : evolves retry m m';
  ex_new : forall k r', m' !! k = Some r' -> m !! k = None ->
    worker_id r' = None /\ forall p', m' !! parent_id r' = Some p' -> worker_id p' = None }.

(** An operation's two obligations. *)
Definition keeps (retry : bool) (m m' : table) : Prop := tree_ok m' /\ extends retry m m'.

Lemma since_refl s : since s s = true.
Proof. by destruct s. Qed.

Lemma since_trans s1 s2 s3 : since s1 s2 = true -> since s2 s3 = true -> since s1 s3 = true.
Proof. by destruct s1, s2; vm_compute; try done; destruct s3. Qed.

Lemma evolves1_refl retry r : evolves1 retry r r.
Proof. split; auto using since_refl. lia. Qed.

Lemma evolves1_trans retry a b c : evolves1 retry a b -> evolves1 retry b c -> evolves1 retry a c.
Proof.
  intros [S1 T1 F1 E1 G1] [S2 T2 F2 E2 G2]. split.
  - congruence.
  - intros H. rewrite T2; [auto|]. by rewrite T1.
  - auto.
  - lia.
  - intros Hw He. destruct (G2 Hw) as (W & Tk & Ep & Si); [lia|].
    destruct G1 as (W' & Tk' & Ep' & Si'); [congruence|lia|].
    split_and!; try congruence. by eapply since_trans.
Qed.

Lemma evolves_refl retry m : evolves retry m m.
Proof. intros k r H. exists r. split; [done|]. apply evolves1_refl. Qed.

Lemma evolves_trans retry m1 m2 m3 : evolves retry m1 m2 -> evolves retry m2 m3 -> evolves retry m1 m3.
Proof.
  intros H1 H2 k r Hr. destruct (H1 k r Hr) as (r' & Hr' & E1).
  destruct (H2 k r' Hr') as (r'' & Hr'' & E2). exists r''. split; [done|]. by eapply evolves1_trans.
Qed.

Lemma evolves_any m m' : evolves false m m' -> evolves true m m'.
Proof.
  intros H k r Hr. destruct (H k r Hr) as (r' & Hr' & []). by exists r'.
Qed.

Lemma evolves_update retry sel f m :
  (forall k r, m !! k = Some r -> sel r = true -> evolves1 retry r (f r)) ->
  evolves retry m (update_rows sel f m).
Proof.
  intros H k r Hr. rewrite lookup_update, Hr. cbn. eexists. split; [done|].
  destruct (sel r) eqn:E; [by eapply H|apply evolves1_refl].
Qed.

(** A change of status, phase or timer on a row no worker holds. *)
Lemma evolves1_state retry st ph wake msg code now r :
  worker_id r = None -> (settled (status r) = true -> st = status r) ->
  (retry = false -> status r = StatusFailed -> st = StatusFailed) ->
  evolves1 retry r (set_state st ph wake msg code now r).
Proof. intros Hw Hs Hf. split; cbn; auto; [lia|congruence]. Qed.

(** * Shape *)

Lemma child_of_parent p c : child_of p c -> parent_id c = id p.
Proof. unfold child_of, in_batch. rewrite !andb_true_iff, String.eqb_eq. tauto. Qed.

Lemma child_of_eq p c : child_of p c <->
  parent_id c = id p /\ spawn_task_id c = task p /\ parent_task_epoch c = task_epoch p.
Proof. unfold child_of, in_batch. rewrite !andb_true_iff, !String.eqb_eq, Z.eqb_eq. tauto. Qed.

(** Two tables with the same ids and the same spawn columns. *)
Definition same_spawn (m m' : table) : Prop := forall k,
  r_spawn <$> m' !! k = r_spawn <$> m !! k.

Lemma same_spawn_update sel f m :
  (forall r, r_spawn (f r) = r_spawn r) -> same_spawn m (update_rows sel f m).
Proof.
  intros Hf k. rewrite lookup_update, <- option_fmap_compose.
  destruct (m !! k) as [r|]; [|done]. cbn. by destruct (sel r); rewrite ?Hf.
Qed.

Lemma same_spawn_lookup m m' k r' : same_spawn m m' -> m' !! k = Some r' ->
  exists r, m !! k = Some r /\ r_spawn r' = r_spawn r.
Proof.
  intros H Hk. specialize (H k). rewrite Hk in H. destruct (m !! k) as [r|]; [|done].
  cbn in H. injection H as H. eauto.
Qed.

Lemma extends_same retry m m' : same_spawn m m' -> evolves retry m m' -> extends retry m m'.
Proof.
  intros Hs He. split; [done|]. intros k r' Hr Hn. specialize (Hs k). by rewrite Hr, Hn in Hs.
Qed.

Lemma same_spawn_refl m : same_spawn m m.
Proof. done. Qed.

Lemma same_spawn_trans m1 m2 m3 : same_spawn m1 m2 -> same_spawn m2 m3 -> same_spawn m1 m3.
Proof. intros H1 H2 k. by rewrite (H2 k). Qed.

(** A change of rows alone before one that may add some. *)
Lemma extends_after retry m1 m2 m3 : same_spawn m1 m2 -> evolves retry m1 m2 -> extends retry m2 m3 ->
  extends retry m1 m3.
Proof.
  intros Hs He [E N]. split; [by eapply evolves_trans|]. intros k r' Hr Hnone. apply (N k r' Hr).
  specialize (Hs k). rewrite Hnone in Hs. by destruct (m2 !! k).
Qed.

Lemma same_spawn_sym m m' : same_spawn m m' -> same_spawn m' m.
Proof. intros H k. by rewrite (H k). Qed.

Lemma shape_same_spawn m m' k r r' :
  same_spawn m m' -> r_spawn r' = r_spawn r -> shape_ok m k r -> shape_ok m' k r'.
Proof.
  intros Hs Er (Hid & Hk & Hp). unfold shape_ok. rewrite Er. split; [done|]. split; [done|].
  destruct (decide (parent_id r = "")); [done|].
  destruct Hp as (p & Hp & Hc & Hr & Ht).
  destruct (same_spawn_lookup m' m _ p (same_spawn_sym _ _ Hs) Hp) as (p' & Hp' & Ep).
  exists p'. by rewrite <- Ep.
Qed.

(** The two tables agree on the shape of the tree, so only the dynamic half is left. *)
Lemma tree_ok_same_spawn x m m' : tree_ok m -> same_spawn m m' ->
  (forall k r r', m !! k = Some r -> m' !! k = Some r' -> row_ok r') ->
  (forall k r r' p p', m !! k = Some r -> m' !! k = Some r' -> m !! parent_id r = Some p ->
     m' !! parent_id r = Some p' -> link_ok r p -> link_ok r' p') ->
  (forall k p p', k <> x -> m !! k = Some p -> m' !! k = Some p' -> wait_ok m p -> wait_ok m' p') ->
  (forall k r r' r0 (r0' : row), m !! k = Some r -> m' !! k = Some r' -> m !! root_id r = Some r0 ->
     m' !! root_id r = Some r0' -> status r' = StatusPaused -> pausable (status r0') = true) ->
  tree_ok_but x m'.
Proof.
  intros [Sh Ro Li Wa Pa] Hs Hro Hli Hwa Hpa. split.
  - intros k r' Hr'. destruct (same_spawn_lookup _ _ _ _ Hs Hr') as (r & Hr & Er).
    eapply shape_same_spawn; eauto.
  - intros k r' Hr'. destruct (same_spawn_lookup _ _ _ _ Hs Hr') as (r & Hr & Er). eauto.
  - intros k r' p' Hr' Hp'. destruct (same_spawn_lookup _ _ _ _ Hs Hr') as (r & Hr & Er).
    rewrite Er in Hp'. destruct (same_spawn_lookup _ _ _ _ Hs Hp') as (p & Hp & Ep). eauto.
  - intros k p' Hk Hp'. destruct (same_spawn_lookup _ _ _ _ Hs Hp') as (p & Hp & Ep).
    eapply Hwa; eauto. apply (Wa k); [|done]. by apply Sh in Hp as (_ & ? & _).
  - intros k r' p' Hr' Hst Hp'. destruct (same_spawn_lookup _ _ _ _ Hs Hr') as (r & Hr & Er).
    rewrite Er in Hp'. destruct (same_spawn_lookup _ _ _ _ Hs Hp') as (p & Hp & Ep). eauto.
Qed.

Lemma tree_key x m k r : tree_ok_but x m -> m !! k = Some r -> id r = k /\ k <> "".
Proof. intros T H. apply (t_shape _ _ T) in H as (? & ? & _). done. Qed.

Lemma tree_parent x m k r : tree_ok_but x m -> m !! k = Some r -> parent_id r <> "" ->
  exists p : row, m !! parent_id r = Some p /\ call_stack r = call_stack p ++ [parent_id r] /\
    root_id r = root_id p /\ spawn_task_id r <> "".
Proof. intros T H Hp. apply (t_shape _ _ T) in H as (_ & _ & H). by rewrite decide_False in H. Qed.

(** A property a row hands to its parent reaches the root. *)
Lemma root_up_rows x m (Q : row -> Prop) : tree_ok_but x m ->
  (forall k r p, m !! k = Some r -> m !! parent_id r = Some p -> root_id r = root_id p ->
     Q r -> Q p) ->
  forall k r r0, m !! k = Some r -> Q r -> m !! root_id r = Some r0 -> Q r0.
Proof.
  intros T HQ k r. remember (length (call_stack r)) as n eqn:En. revert k r En.
  induction n as [n IH] using lt_wf_ind. intros k r En r0 Hk Hr H0.
  destruct (decide (parent_id r = "")) as [E|N].
  - pose proof (t_shape _ _ T _ _ Hk) as (_ & _ & Sh). rewrite decide_True in Sh by done.
    destruct Sh as [_ E0]. rewrite E0, Hk in H0. by injection H0 as <-.
  - destruct (tree_parent _ _ _ _ T Hk N) as (p & Hp & Hc & Er & _).
    apply (IH (length (call_stack p))) with (k := parent_id r) (r := p); try done.
    + rewrite En, Hc, length_app. cbn. lia.
    + by apply (HQ k r).
    + by rewrite <- Er.
Qed.

Lemma root_up x m (Q : row -> Prop) : tree_ok_but x m ->
  (forall r p, link_ok r p -> Q r -> Q p) ->
  forall k r r0, m !! k = Some r -> Q r -> m !! root_id r = Some r0 -> Q r0.
Proof.
  intros T HQ. apply (root_up_rows _ _ _ T). intros k r p Hk Hp _. apply HQ.
  by apply (t_link _ _ T k).
Qed.

Lemma root_root x m k r r0 : tree_ok_but x m -> m !! k = Some r -> m !! root_id r = Some r0 ->
  root_id r0 = root_id r.
Proof.
  intros T Hk H0. apply (root_up_rows _ _ (fun q => root_id q = root_id r) T) with (k := k) (r := r); auto.
  intros _ q p _ _ <-. done.
Qed.

(** A property a row hands to its children, from the root down. *)
Lemma root_down x m (Q : row -> Prop) : tree_ok_but x m ->
  (forall r p, link_ok r p -> Q p -> Q r) ->
  forall k r r0, m !! k = Some r -> m !! root_id r = Some r0 -> Q r0 -> Q r.
Proof.
  intros T HQ k r. remember (length (call_stack r)) as n eqn:En. revert k r En.
  induction n as [n IH] using lt_wf_ind. intros k r En r0 Hk H0 Hr0.
  destruct (decide (parent_id r = "")) as [E|N].
  - pose proof (t_shape _ _ T _ _ Hk) as (_ & _ & Sh). rewrite decide_True in Sh by done.
    destruct Sh as [_ E0]. rewrite E0, Hk in H0. by injection H0 as <-.
  - destruct (tree_parent _ _ _ _ T Hk N) as (p & Hp & Hc & Er & _).
    apply (HQ r p); [by apply (t_link _ _ T k)|].
    apply (IH (length (call_stack p))) with (k := parent_id r) (r0 := r0); try done.
    + rewrite En, Hc, length_app. cbn. lia.
    + by rewrite <- Er.
Qed.

Lemma pausing_up r p : link_ok r p -> status r ∈ [StatusPausing; StatusFailing] ->
  status p ∈ [StatusPausing; StatusFailing].
Proof. intros [L _ _] H. revert L H. by destruct (status r), (status p); vm_compute; set_solver. Qed.

Lemma tree_weaken x m : tree_ok m -> tree_ok_but x m.
Proof.
  intros T. split; try apply T. intros k p _ H. apply (t_wait _ _ T k); [|done].
  by apply (tree_key _ _ _ _ T H).
Qed.

(** * Settling up *)

Lemma active_siblings p m :
  0 < CountActiveSiblings (id p) (task p) (task_epoch p) m <->
  exists k (c : row), m !! k = Some c /\ child_of p c /\ Terminal (status c) = false.
Proof.
  unfold CountActiveSiblings. rewrite count_pos. apply exist_proper; intros k.
  apply exist_proper; intros c. rewrite andb_true_iff. unfold child_of. unfold Terminal.
  destruct (status c); vm_compute; intuition congruence.
Qed.

Lemma busy_siblings p m :
  0 < CountBusySiblings (id p) (task p) (task_epoch p) m <->
  exists k (c : row), m !! k = Some c /\ child_of p c /\ Busy (status c) = true.
Proof.
  unfold CountBusySiblings. rewrite count_pos. apply exist_proper; intros k.
  apply exist_proper; intros c. rewrite andb_true_iff. unfold child_of.
  destruct (status c); vm_compute; intuition congruence.
Qed.

(** * Changing one row *)

Definition keyed (m : table) : Prop := forall k r, m !! k = Some r -> id r = k.

Lemma tree_keyed x m : tree_ok_but x m -> keyed m.
Proof. intros T k r H. apply (tree_key _ _ _ _ T H). Qed.

Lemma update_keyed m k (sel : row -> bool) (f : row -> row) : keyed m ->
  update_rows (fun r => has_id k r && sel r) f m =
  match m !! k with Some r => if sel r then <[k := f r]> m else m | None => m end.
Proof.
  intros T. apply map_eq. intros j. rewrite lookup_update.
  destruct (m !! j) as [r|] eqn:Hj; cbn.
  - unfold has_id. rewrite (T _ _ Hj).
    case (String.eqb_spec j k) as [->|Hne]; cbn.
    + rewrite Hj. destruct (sel r); [by rewrite lookup_insert_eq|done].
    + destruct (m !! k) as [r'|]; [|done]. destruct (sel r'); [|done].
      by rewrite lookup_insert_ne.
  - destruct (m !! k) as [r'|] eqn:Hk; [|done]. destruct (sel r'); [|done].
    rewrite lookup_insert_ne; [done|]. intros ->. congruence.
Qed.

Lemma update_id x m k sel f : tree_ok_but x m ->
  update_rows (fun r => has_id k r && sel r) f m =
  match m !! k with Some r => if sel r then <[k := f r]> m else m | None => m end.
Proof. intros T. apply update_keyed. by eapply tree_keyed. Qed.

Lemma update_id_all x m k f : tree_ok_but x m ->
  update_rows (has_id k) f m = match m !! k with Some r => <[k := f r]> m | None => m end.
Proof.
  intros T. rewrite <- (update_id x m k (fun _ => true) f T). unfold update_rows.
  apply map_fmap_ext. intros j r _. by rewrite andb_true_r.
Qed.

Lemma not_own_parent x m k r : tree_ok_but x m -> m !! k = Some r -> parent_id r <> k.
Proof.
  intros T H E. destruct (decide (parent_id r = "")) as [E0|N].
  - apply (tree_key _ _ _ _ T H). congruence.
  - destruct (tree_parent _ _ _ _ T H N) as (p & Hp & Hc & _). rewrite E, H in Hp.
    injection Hp as <-. apply (f_equal length) in Hc. rewrite length_app in Hc. cbn in Hc. lia.
Qed.

Lemma same_spawn_insert m k r r' : m !! k = Some r -> r_spawn r' = r_spawn r ->
  same_spawn m (<[k := r']> m).
Proof.
  intros H E j. destruct (decide (j = k)) as [->|N].
  - rewrite lookup_insert_eq, H. cbn. by rewrite E.
  - by rewrite lookup_insert_ne.
Qed.

(** One row replaced: what is to be shown of it, of its children and of its parent. *)
Lemma tree_insert x y m k r r' :
  tree_ok_but x m -> m !! k = Some r -> r_spawn r' = r_spawn r -> row_ok r' ->
  (forall p, m !! parent_id r = Some p -> link_ok r p -> link_ok r' p) ->
  (forall j c, m !! j = Some c -> parent_id c = k -> link_ok c r -> link_ok c r') ->
  (k <> y -> wait_ok m r') -> x = y \/ x = k ->
  parent_id r = y \/ (Terminal (status r') = Terminal (status r) /\
    Busy (status r') = Busy (status r)) ->
  (status r' = StatusPaused -> forall r0, m !! root_id r = Some r0 -> pausable (status r0) = true) ->
  (pausable (status r) = true -> pausable (status r') = true \/
     forall j (s : row), m !! j = Some s -> root_id s = k -> j <> k -> status s <> StatusPaused) ->
  tree_ok_but y (<[k := r']> m).
Proof.
  intros T Hk Es Hro Hup Hdown Hwait Hxy Hsame Hpaused Hroot.
  pose proof (same_spawn_insert _ _ _ _ Hk Es) as Hsp.
  destruct (tree_key _ _ _ _ T Hk) as [Eid _]. split.
  - intros j s Hj. destruct (same_spawn_lookup _ _ _ _ Hsp Hj) as (s0 & Hs0 & E0).
    eapply shape_same_spawn; eauto. by apply (t_shape _ _ T).
  - intros j s Hj. apply lookup_insert_Some in Hj as [[<- <-]|[_ Hj]]; [done|].
    by apply (t_row _ _ T j).
  - intros j s p Hj Hp. apply lookup_insert_Some in Hj as [[<- <-]|[Hne Hj]].
    + rewrite Es in Hp. rewrite lookup_insert_ne in Hp
        by (intros E; by apply (not_own_parent _ _ _ _ T Hk)).
      apply Hup; [done|]. by apply (t_link _ _ T k).
    + apply lookup_insert_Some in Hp as [[Ep <-]|[_ Hp]].
      * apply (Hdown j); [done..|]. apply (t_link _ _ T j); [done|]. by rewrite <- Ep.
      * by apply (t_link _ _ T j).
  - intros j p Hj Hp. apply lookup_insert_Some in Hp as [[<- <-]|[Hne Hp]].
    + intros Hph Ht. destruct (Hwait Hj Hph Ht) as (i & c & Hi & Hc & Htc & Hb).
      exists i, c. split; [|done]. rewrite lookup_insert_ne; [done|]. intros <-.
      rewrite Hk in Hi. injection Hi as <-. apply child_of_parent in Hc.
      rewrite Es, Eid in Hc. by apply (not_own_parent _ _ _ _ T Hk).
    + intros Hph Ht. assert (Hjx : j <> x) by (destruct Hxy; congruence).
      destruct (t_wait _ _ T j p Hjx Hp Hph Ht) as (i & c & Hi & Hc & Htc & Hb).
      destruct (decide (i = k)) as [->|Hik]; [|exists i, c; by rewrite lookup_insert_ne].
      rewrite Hk in Hi. injection Hi as <-. exists k, r'. rewrite lookup_insert_eq.
      split; [done|]. split; [unfold child_of, in_batch in *; by rewrite Es|].
      destruct Hsame as [Ey|[-> ->]]; [|done]. apply child_of_parent in Hc.
      destruct (tree_key _ _ _ _ T Hp) as [Ep _]. congruence.
  - intros j s r0 Hj Hst H0. apply lookup_insert_Some in Hj as [[<- <-]|[Hne Hj]].
    + rewrite Es in H0. apply lookup_insert_Some in H0 as [[_ <-]|[_ H0]]; [by rewrite Hst|eauto].
    + apply lookup_insert_Some in H0 as [[E0 <-]|[_ H0]]; [|by apply (t_paused _ _ T j s)].
      subst k. destruct Hroot as [|Hno]; [by apply (t_paused _ _ T j s); congruence|done|].
      exfalso. by apply (Hno j s).
Qed.

(** Only a terminal child is left once none is active. *)
Lemma no_active m p k c : CountActiveSiblings (id p) (task p) (task_epoch p) m = 0 ->
  m !! k = Some c -> child_of p c -> Terminal (status c) = true.
Proof.
  intros H Hk Hc. destruct (Terminal (status c)) eqn:E; [done|].
  assert (0 < CountActiveSiblings (id p) (task p) (task_epoch p) m) by (apply active_siblings; eauto).
  lia.
Qed.

Lemma no_busy m p k c : CountBusySiblings (id p) (task p) (task_epoch p) m = 0 ->
  m !! k = Some c -> child_of p c -> Busy (status c) = false.
Proof.
  intros H Hk Hc. destruct (Busy (status c)) eqn:E; [|done].
  assert (0 < CountBusySiblings (id p) (task p) (task_epoch p) m) by (apply busy_siblings; eauto).
  lia.
Qed.

Lemma idle_not_busy p m : CountActiveSiblings (id p) (task p) (task_epoch p) m = 0 ->
  CountBusySiblings (id p) (task p) (task_epoch p) m = 0.
Proof.
  intros H. apply count_zero. intros j c Hj. apply not_true_is_false. intros Hbc.
  pose proof (no_active m p j c H Hj) as T. apply andb_prop in Hbc as [Hc Hbc]. specialize (T Hc).
  revert T Hbc. by destruct (status c).
Qed.

(** Waking a parent whose batch is terminal. *)
Lemma wake_ok m k p now : tree_ok_but k m -> m !! k = Some p -> phase p = PhaseChildren ->
  CountActiveSiblings (id p) (task p) (task_epoch p) m = 0 -> Draining (status p) = false ->
  tree_ok (WakeParent k now m).
Proof.
  intros T Hk Hph Ha Hd. unfold WakeParent. rewrite (update_id_all _ _ _ _ T), Hk.
  pose proof (t_row _ _ T _ _ Hk) as [Rh Rf Rs]. destruct (tree_key _ _ _ _ T Hk) as [Eid Hne].
  assert (Hun : worker_id p = None).
  { destruct (worker_id p) eqn:W; [|done]. exfalso. apply Rh; congruence. }
  assert (Hph' : (if bool_decide (status p ∈ [StatusRunning; StatusPausing; StatusPaused])
                  then PhaseCollecting else PhaseNone) <> PhaseChildren) by (by case_bool_decide).
  eapply (tree_insert k); try done; cbn.
  - split; cbn; [congruence| |done]. intros E. rewrite E in Hd. done.
  - intros q _ [Lp Lb Lw]. by split.
  - intros j c Hj Hpar [Lp Lb Lw]. split; cbn; [done|done|]. intros Haw. exfalso.
    assert (Ht : batched (status c) = true -> Terminal (status c) = true).
    { intros Hb. apply (no_active m p j); auto. }
    destruct (status c), (status p); vm_compute in Haw, Ht, Hd; try done; by discriminate Ht.
  - intros _ ?. done.
  - by right.
  - by right.
  - intros Es r0 H0. by apply (t_paused _ _ T k p).
  - by left.
Qed.

(** The settled row in the place of the draining one. *)
Lemma settle_row_ok m k p r' : tree_ok_but k m -> m !! k = Some p -> phase p = PhaseChildren ->
  Draining (status p) = true ->
  CountBusySiblings (id p) (task p) (task_epoch p) m = 0 ->
  r_spawn r' = r_spawn p -> status r' = drained (status p) -> task r' = task p ->
  task_epoch r' = task_epoch p -> worker_id r' = None -> superseded_at r' = superseded_at p ->
  (phase r' = PhaseChildren -> 0 < CountActiveSiblings (id p) (task p) (task_epoch p) m) ->
  (phase r' <> PhaseChildren -> status p = StatusFailing \/
     CountActiveSiblings (id p) (task p) (task_epoch p) m = 0) ->
  tree_ok_but (parent_id p) (<[k := r']> m).
Proof.
  intros T Hk Hph Hd Hb Es Est Et Ee Ew Esup Hact Hnact.
  pose proof (t_row _ _ T _ _ Hk) as [Rh Rf Rs].
  assert (Eid : id r' = id p) by (by rewrite Es).
  assert (Echild : forall c, child_of r' c <-> child_of p c)
    by (intros c; unfold child_of; by rewrite Eid, Et, Ee).
  eapply (tree_insert k); try done.
  - split.
    + by rewrite Ew.
    + rewrite Est. by destruct (status p).
    + rewrite Esup. intros N. rewrite (Rs N) in Hd. done.
  - intros q _ [Lp Lb Lw]. split.
    + rewrite Est. revert Lp Hd. by destruct (status p), (status q).
    + intros _. unfold child_of, in_batch. rewrite Es. apply Lb. revert Hd. by destruct (status p).
    + intros _. apply Lw. unfold awaited. by rewrite (Draining_Busy _ Hd).
  - intros j c Hj Hpar [Lp Lb Lw].
    assert (Hnb : batched (status c) = true -> Busy (status c) = false)
      by (intros B; apply (no_busy m p j); auto).
    assert (Hnt : batched (status c) = true -> phase r' <> PhaseChildren -> status p <> StatusFailing ->
      Terminal (status c) = true).
    { intros B Hn Hf. destruct (Hnact Hn) as [|Ha]; [done|]. apply (no_active m p j); auto. }
    split; rewrite ?Est.
    + revert Lp Hnb. destruct (status c), (status p); vm_compute; try done; intros _ X; by discriminate X.
    + intros B. apply Echild. auto.
    + intros Aw. destruct (decide (phase r' = PhaseChildren)) as [|Hn]; [done|]. exfalso.
      destruct (status c) eqn:Ec; try (by specialize (Hnb eq_refl)); try (by destruct (status p)).
      assert (Hf : status p <> StatusFailing) by (intros E; by rewrite E in Aw).
      by specialize (Hnt eq_refl Hn Hf).
  - intros _ Hc Ht. destruct (proj1 (active_siblings p m) (Hact Hc)) as (j & c & Hj & Hcc & Htc).
    exists j, c. split; [done|]. split; [by apply Echild|]. split; [done|].
    rewrite Est. by destruct (status p).
  - by right.
  - by left.
  - rewrite Est. intros Ep r0 H0.
    pose proof (root_up _ _ (fun q => status q ∈ [StatusPausing; StatusFailing]) T) as Up.
    cbn in Up. apply (Up pausing_up k p) in H0; [|done|].
    + revert H0. rewrite !elem_of_cons, elem_of_nil. by intros [->|[->|[]]].
    + revert Ep Hd. rewrite elem_of_cons. by destruct (status p); auto.
  - intros Hpa. left. rewrite Est. revert Hpa Hd. by destruct (status p).
Qed.

Lemma drained_evolves p r' : Draining (status p) = true -> worker_id p = None ->
  r_spawn r' = r_spawn p -> status r' = drained (status p) -> r_lease r' = r_lease p ->
  evolves1 false p r'.
Proof.
  intros Hd Hw Es Est El. split; try done.
  - rewrite Est. by destruct (status p).
  - intros _ E. rewrite E in Hd. done.
  - rewrite El. lia.
  - rewrite El. congruence.
Qed.

Lemma evolves_insert retry m k r r' : m !! k = Some r -> evolves1 retry r r' ->
  evolves retry m (<[k := r']> m).
Proof.
  intros Hk E j s Hj. destruct (decide (j = k)) as [->|N].
  - exists r'. rewrite lookup_insert_eq. split; [done|]. congruence.
  - exists s. rewrite lookup_insert_ne by done. split; [done|]. apply evolves1_refl.
Qed.

(** Two successive changes of one row that only one statement's CASE sees. *)
Lemma settle_rows m k p now : tree_ok_but k m -> m !! k = Some p -> Draining (status p) = true ->
  SettleDrained k now m =
    <[k := set_state (drained (status p))
             (if bool_decide (status p = StatusFailing) then PhaseNone else phase p)
             (if bool_decide (status p = StatusFailing) then None else wake_at p)
             (error_message p) (error_code p) now p]> m.
Proof.
  intros T Hk Hd. unfold SettleDrained. rewrite (update_id _ _ _ _ _ T), Hk.
  by destruct (status p).
Qed.

Lemma wake_rows m k p now : tree_ok_but k m -> m !! k = Some p ->
  WakeParent k now m =
    <[k := set_state (status p)
             (if bool_decide (status p ∈ [StatusRunning; StatusPausing; StatusPaused])
              then PhaseCollecting else PhaseNone)
             (wake_at p) (error_message p) (error_code p) now p]> m.
Proof. intros T Hk. unfold WakeParent. by rewrite (update_id_all _ _ _ _ T), Hk. Qed.

Lemma tree_ok_absent k m : tree_ok_but k m -> m !! k = None -> tree_ok m.
Proof.
  intros [Sh Ro Li Wa Pa] H. split; try done. intros j p _ Hp. apply (Wa j); [|done]. intros ->. congruence.
Qed.

Lemma tree_ok_no_wait k m p : tree_ok_but k m -> m !! k = Some p -> phase p <> PhaseChildren -> tree_ok m.
Proof.
  intros [Sh Ro Li Wa Pa] Hk Hn. split; try done. intros j q _ Hq. destruct (decide (j = k)) as [->|N].
  - intros ?. rewrite Hk in Hq. by injection Hq as <-.
  - by apply (Wa j).
Qed.

Lemma tree_ok_has_wait k m p : tree_ok_but k m -> m !! k = Some p -> wait_ok m p -> tree_ok m.
Proof.
  intros [Sh Ro Li Wa Pa] Hk Hn. split; try done. intros j q _ Hq. destruct (decide (j = k)) as [->|N].
  - rewrite Hk in Hq. by injection Hq as <-.
  - by apply (Wa j).
Qed.

Lemma waiting_not_held x m k p : tree_ok_but x m -> m !! k = Some p -> phase p = PhaseChildren ->
  worker_id p = None.
Proof.
  intros T Hk Hph. destruct (worker_id p) eqn:W; [|done]. exfalso.
  apply (t_row _ _ T _ _ Hk); congruence.
Qed.

Lemma query_bind {A B} (f : table -> A) (g : A -> Tx B) s : (query f ≫= g) s = g (f (rows s)) s.
Proof. done. Qed.
Lemma exec_bind {B} f (g : unit -> Tx B) s :
  (exec f ≫= g) s = g tt (mkDB (f (rows s)) (signals s)).
Proof. done. Qed.
Lemma ret_bind {A B} (x : A) (g : A -> Tx B) s : ((mret x : Tx A) ≫= g) s = g x s.
Proof. done. Qed.

(** The same rows, each changed as it may. *)
Definition moves (retry : bool) (m m' : table) : Prop := same_spawn m m' /\ evolves retry m m'.

Lemma moves_refl retry m : moves retry m m.
Proof. split; [done|apply evolves_refl]. Qed.

Lemma moves_trans retry m1 m2 m3 : moves retry m1 m2 -> moves retry m2 m3 -> moves retry m1 m3.
Proof.
  intros [S1 E1] [S2 E2]. split; [by eapply same_spawn_trans|by eapply evolves_trans].
Qed.

Lemma moves_keeps retry m m' : tree_ok m' -> moves retry m m' -> keeps retry m m'.
Proof. intros T [S E]. split; [done|]. by apply extends_same. Qed.

(** The statements of one round on a draining parent with nothing busy below it. *)
Definition round (active : Z) (k : string) (now : Z) (m : table) : table :=
  SettleDrained k now (if active =? 0 then WakeParent k now m else m).

Lemma round_ok m k p now : tree_ok_but k m -> m !! k = Some p -> phase p = PhaseChildren ->
  Draining (status p) = true ->
  CountBusySiblings (id p) (task p) (task_epoch p) m = 0 ->
  exists r', round (CountActiveSiblings (id p) (task p) (task_epoch p) m) k now m = <[k := r']> m /\
    tree_ok_but (parent_id p) (<[k := r']> m) /\ moves false m (<[k := r']> m).
Proof.
  intros T Hk Hph Hd Hb. set (n := CountActiveSiblings (id p) (task p) (task_epoch p) m).
  pose proof (waiting_not_held _ _ _ _ T Hk Hph) as Hun.
  assert (Hn : 0 <= n) by apply count_nonneg.
  set (ph := if n =? 0 then if bool_decide (status p ∈ [StatusRunning; StatusPausing; StatusPaused])
                            then PhaseCollecting else PhaseNone else phase p).
  set (r' := set_state (drained (status p))
               (if bool_decide (status p = StatusFailing) then PhaseNone else ph)
               (if bool_decide (status p = StatusFailing) then None else wake_at p)
               (error_message p) (error_code p) now p).
  assert (Er : round n k now m = <[k := r']> m).
  { unfold round, r', ph. destruct (n =? 0); [|by apply settle_rows].
    rewrite (wake_rows _ _ _ _ T Hk). unfold SettleDrained. apply map_eq. intros j.
    rewrite lookup_update. destruct (decide (j = k)) as [->|N].
    - rewrite !lookup_insert_eq. cbn. unfold has_id. cbn.
      rewrite (proj1 (tree_key _ _ _ _ T Hk)), String.eqb_refl. by destruct (status p).
    - rewrite !lookup_insert_ne by done. destruct (m !! j) as [q|] eqn:Hj; [|done]. cbn.
      unfold has_id. rewrite (proj1 (tree_key _ _ _ _ T Hj)).
      by rewrite (proj2 (String.eqb_neq j k)). }
  exists r'. split; [done|]. split.
  - eapply settle_row_ok; try done.
    + intros Hc. fold n. cbn in Hc. destruct (bool_decide (status p = StatusFailing)); [done|].
      unfold ph in Hc. destruct (Z.eqb_spec n 0); [by case_bool_decide|lia].
    + intros Hc. fold n. cbn in Hc. case_bool_decide; [by left|right].
      unfold ph in Hc. by destruct (Z.eqb_spec n 0).
  - split; [by eapply same_spawn_insert|]. eapply evolves_insert; [done|]. by apply drained_evolves.
Qed.

(** What the loop leaves when it stops. *)
Definition settles_to (s : DBState) (r : result db_error (list settledRow * DBState)) : Prop :=
  exists out s', r = Ok (out, s') /\ tree_ok (rows s') /\ moves false (rows s) (rows s') /\
    signals s' = signals s.

Lemma settles_ret s s1 (out : list settledRow) : tree_ok (rows s1) -> moves false (rows s) (rows s1) ->
  signals s1 = signals s -> settles_to s (Ok (out, s1)).
Proof. intros. by exists out, s1. Qed.

Lemma wake_moves m k p now : tree_ok_but k m -> m !! k = Some p -> phase p = PhaseChildren ->
  moves false m (WakeParent k now m).
Proof.
  intros T Hk Hph. rewrite (wake_rows _ _ _ _ T Hk). split; [by eapply same_spawn_insert|]. eapply evolves_insert; [done|].
  apply evolves1_state; try done. by eapply waiting_not_held.
Qed.

Lemma settle_loop_ok fuel : forall x spawn epoch now out s,
  tree_ok_but x (rows s) -> (x <> "" -> (0 < fuel)%nat) ->
  (forall p, rows s !! x = Some p -> (length (call_stack p) < fuel)%nat /\
     (phase p = PhaseChildren -> spawn = task p /\ epoch = task_epoch p)) ->
  settles_to s (settle_loop fuel x spawn epoch now out s).
Proof.
  assert (Stop : forall (out : list settledRow) s, tree_ok (rows s) -> settles_to s ((mret out : Tx _) s))
    by (intros; apply settles_ret; [done|apply moves_refl|done]).
  induction fuel as [|fuel IH]; intros x spawn epoch now out s T Hf Hx; cbn [settle_loop];
    destruct (String.eqb_spec x "") as [->|Hne]; try (by apply Stop); [by specialize (Hf Hne); lia|].
  rewrite query_bind. destruct (rows s !! x) as [p|] eqn:Hp; [|by eapply Stop, tree_ok_absent].
  destruct (Hx p eq_refl) as [Hlen Hbatch]. clear Hx.
  case_bool_decide as Hph; cbn [negb]; [|by eapply Stop, tree_ok_no_wait].
  destruct (Hbatch Hph) as [-> ->]. destruct (tree_key _ _ _ _ T Hp) as [Eid _]. subst x.
  rewrite query_bind.
  set (active := CountActiveSiblings (id p) (task p) (task_epoch p) (rows s)).
  assert (Ha0 : 0 <= active) by apply count_nonneg.
  set (s1 := if active =? 0 then mkDB (WakeParent (id p) now (rows s)) (signals s) else s).
  match goal with |- context [(if active =? 0 then ?a else ?b) ≫= ?g] =>
    assert (E1 : ((if active =? 0 then a else b) ≫= g) s = g tt s1)
      by (unfold s1; by destruct (active =? 0)); rewrite E1; clear E1 end.
  assert (Hn1 : signals s1 = signals s) by (unfold s1; by destruct (active =? 0)).
  destruct (Draining (status p)) eqn:Hd; cbn [negb].
  2:{ apply settles_ret; [|unfold s1; destruct (active =? 0); [by eapply wake_moves|apply moves_refl]|done].
    unfold s1. destruct (Z.eqb_spec active 0) as [E|E]; [by eapply wake_ok|].
    eapply tree_ok_has_wait; [done..|]. intros _ _.
    destruct (proj1 (active_siblings p (rows s)) ltac:(lia)) as (j & c & ? & ? & ?).
    exists j, c. split_and!; try done. by rewrite Hd. }
  set (busy := if 0 <? active then CountBusySiblings (id p) (task p) (task_epoch p) (rows s) else 0).
  match goal with |- context [(if 0 <? active then ?a else ?b) ≫= ?g] =>
    assert (E1 : ((if 0 <? active then a else b) ≫= g) s1 = g busy s1) end.
  { unfold busy, s1. destruct (Z.ltb_spec 0 active); [|done]. by rewrite (proj2 (Z.eqb_neq _ _)) by lia. }
  rewrite E1. clear E1.
  destruct ((0 <? active) && (0 <? busy)) eqn:Hb.
  - apply andb_prop in Hb as [Hb1 Hb2]. unfold busy in Hb2. rewrite Hb1 in Hb2.
    apply Z.ltb_lt in Hb1, Hb2. unfold s1. rewrite (proj2 (Z.eqb_neq _ _)) by lia. apply Stop.
    eapply tree_ok_has_wait; [done..|]. intros _ _.
    destruct (proj1 (busy_siblings p (rows s)) Hb2) as (j & c & ? & ? & Hbc).
    exists j, c. split_and!; try done. by apply Busy_not_Terminal.
  - assert (Hb0 : CountBusySiblings (id p) (task p) (task_epoch p) (rows s) = 0).
    { apply andb_false_iff in Hb as [Hb%Z.ltb_ge|Hb%Z.ltb_ge]; [apply idle_not_busy; fold active; lia|].
      unfold busy in Hb. destruct (Z.ltb_spec 0 active); [|apply idle_not_busy; fold active; lia].
      pose proof (count_nonneg : forall sel m, _) as C. unfold CountBusySiblings in *.
      match goal with |- count ?q ?t = 0 => specialize (C q t) end. lia. }
    destruct (round_ok _ _ _ now T Hp Hph Hd Hb0) as (r' & Er & T' & Ev). fold active in Er.
    rewrite exec_bind. replace (SettleDrained (id p) now (rows s1)) with (<[id p := r']> (rows s))
      by (rewrite <- Er; unfold round, s1; by destruct (active =? 0)).
    set (s2 := mkDB (<[id p := r']> (rows s)) (signals s1)).
    assert (Hp2 : forall g, rows s2 !! parent_id p = Some g -> rows s !! parent_id p = Some g).
    { intros g Hg. cbn in Hg. rewrite lookup_insert_ne in Hg; [done|].
      intros E. by apply (not_own_parent _ _ _ _ T Hp). }
    destruct (IH (parent_id p) (spawn_task_id p) (parent_task_epoch p) now
      (out ++ [mkSettled (id p) (status p) (error_message p)]) s2) as (out' & s' & E & T2 & E2 & S2).
    + done.
    + intros N. destruct (tree_parent _ _ _ _ T Hp N) as (g & _ & Hc & _).
      rewrite Hc, length_app in Hlen. cbn in Hlen. lia.
    + intros g Hg%Hp2. destruct (decide (parent_id p = "")) as [E0|N].
      { exfalso. rewrite E0 in Hg. by apply (tree_key _ _ _ _ T Hg). }
      destruct (tree_parent _ _ _ _ T Hp N) as (g' & Hg' & Hc & _). rewrite Hg in Hg'.
      injection Hg' as <-. rewrite Hc, length_app in Hlen. cbn in Hlen. split; [lia|]. intros _.
      pose proof (t_link _ _ T _ _ _ Hp Hg) as [_ Lb _].
      apply child_of_eq in Lb as (_ & -> & ->); [done|]. revert Hd. by destruct (status p).
    + rewrite E. exists out', s'. split; [done|]. split; [done|].
      split; [by eapply moves_trans|]. rewrite S2. done.
Qed.

(** The rows named by the ids of a selection are those of the selection. *)
Lemma in_ids_matching x m (sel : row -> bool) l k r : tree_ok_but x m -> m !! k = Some r ->
  (forall q, q ∈ l <-> q ∈ matching sel m) -> in_ids (map (fun q : row => id q) l) r = sel r.
Proof.
  intros T Hk Hl. unfold in_ids.
  apply eq_true_iff_eq. rewrite bool_decide_eq_true, list_elem_of_In, List.in_map_iff. split.
  - intros (q & E & Hq). apply list_elem_of_In, Hl, elem_of_matching in Hq as [Hs [j Hj]].
    destruct (tree_key _ _ _ _ T Hj) as [Ej _]. destruct (tree_key _ _ _ _ T Hk) as [Ek _].
    rewrite Ej, Ek in E. subst j. rewrite Hk in Hj. by injection Hj as <-.
  - intros Hs. exists r. split; [done|]. apply list_elem_of_In, Hl, elem_of_matching. eauto.
Qed.

Lemma elem_of_lockTree w root m r : r ∈ lockTree w root m <->
  r ∈ matching (fun r : row => String.eqb (root_id r) root && w r) m.
Proof. unfold lockTree. by rewrite merge_sort_Permutation. Qed.

(** * Ancestors *)

Lemma anc_up x m (Q : row -> Prop) : tree_ok_but x m ->
  (forall r p, link_ok r p -> Q r -> Q p) ->
  forall j h k, m !! j = Some h -> Q h -> k ∈ call_stack h ->
    exists p, m !! k = Some p /\ Q p /\ root_id p = root_id h.
Proof.
  intros T HQ j h. remember (length (call_stack h)) as n eqn:En. revert j h En.
  induction n as [n IH] using lt_wf_ind. intros j h En k Hj Hh Hk.
  destruct (decide (parent_id h = "")) as [E|N].
  - pose proof (t_shape _ _ T _ _ Hj) as (_ & _ & Sh). rewrite decide_True in Sh by done.
    destruct Sh as [E0 _]. rewrite E0 in Hk. by apply elem_of_nil in Hk.
  - destruct (tree_parent _ _ _ _ T Hj N) as (p & Hp & Hc & Er & _).
    assert (Hqp : Q p) by (eapply HQ; [by apply (t_link _ _ T j)|done]).
    rewrite Hc, elem_of_app, elem_of_cons, elem_of_nil in Hk. destruct Hk as [Hk|[->|[]]].
    + destruct (IH (length (call_stack p))) with (j := parent_id h) (h := p) (k := k)
        as (q & Hq & Qq & E); try done.
      * rewrite En, Hc, length_app. cbn. lia.
      * exists q. by rewrite Er.
    + by exists p.
Qed.

Lemma anc_shorter x m j h k c : tree_ok_but x m -> m !! j = Some h -> k ∈ call_stack h ->
  m !! k = Some c -> (length (call_stack c) < length (call_stack h))%nat.
Proof.
  intros T. remember (length (call_stack h)) as n eqn:En. revert j h En.
  induction n as [n IH] using lt_wf_ind. intros j h En Hj Hk Hc.
  destruct (decide (parent_id h = "")) as [E|Nh].
  - pose proof (t_shape _ _ T _ _ Hj) as (_ & _ & Sh). rewrite decide_True in Sh by done.
    destruct Sh as [E0 _]. rewrite E0 in Hk. by apply elem_of_nil in Hk.
  - destruct (tree_parent _ _ _ _ T Hj Nh) as (p & Hp & Hcs & _).
    rewrite Hcs in *. rewrite elem_of_app, elem_of_cons, elem_of_nil in Hk.
    rewrite length_app in En. cbn in En. destruct Hk as [Hk|[->|[]]].
    + specialize (IH (length (call_stack p)) ltac:(lia) _ _ eq_refl Hp Hk Hc). lia.
    + rewrite Hp in Hc. injection Hc as <-. lia.
Qed.

(** The ids on the way to a row are distinct rows, so the size of the table bounds any climb. *)
Lemma stack_bound x m k r : tree_ok_but x m -> m !! k = Some r ->
  (length (call_stack r) < size m)%nat.
Proof.
  intros T Hk.
  assert (N : forall n k r, n = length (call_stack r) -> m !! k = Some r ->
    List.NoDup (call_stack r ++ [k]) /\ forall j, j ∈ call_stack r -> is_Some (m !! j)).
  { clear k r Hk. induction n as [n IH] using lt_wf_ind. intros k r En Hk.
    assert (Hself : k ∉ call_stack r).
    { intros Hin. pose proof (anc_shorter _ _ _ _ _ _ T Hk Hin Hk). lia. }
    destruct (decide (parent_id r = "")) as [E|Nr].
    - pose proof (t_shape _ _ T _ _ Hk) as (_ & _ & Sh). rewrite decide_True in Sh by done.
      destruct Sh as [E0 _]. rewrite E0. split; [repeat constructor; by intros []|set_solver].
    - destruct (tree_parent _ _ _ _ T Hk Nr) as (p & Hp & Hcs & _).
      rewrite Hcs in *. rewrite length_app in En. cbn in En.
      destruct (IH (length (call_stack p)) ltac:(lia) _ _ eq_refl Hp) as [Nd Hin]. split.
      + apply NoDup_ListNoDup, NoDup_app. split_and!; [by apply NoDup_ListNoDup| |apply NoDup_singleton].
        intros j Hj Hjk. apply list_elem_of_singleton in Hjk as ->. done.
      + intros j Hj. apply elem_of_app in Hj as [Hj|Hj]; [auto|].
        apply list_elem_of_singleton in Hj as ->. by exists p. }
  destruct (N _ _ _ eq_refl Hk) as [Nd Hin].
  rewrite <- (size_dom m).
  assert (E : size (list_to_set (C := gset string) (call_stack r ++ [k])) = S (length (call_stack r))).
  { rewrite size_list_to_set by (by apply NoDup_ListNoDup). rewrite length_app. cbn. lia. }
  enough (size (list_to_set (C := gset string) (call_stack r ++ [k])) <= size (dom m))%nat by lia.
  apply subseteq_size. intros j. rewrite elem_of_list_to_set, elem_of_dom.
  intros Hj. apply elem_of_app in Hj as [Hj|Hj]; [auto|].
  apply list_elem_of_singleton in Hj as ->. by exists r.
Qed.

(** The step below an ancestor on the way to the row. *)
Lemma anc_closed x m j h k c : tree_ok_but x m -> m !! j = Some h -> k ∈ call_stack h ->
  m !! k = Some c -> parent_id c <> "" -> parent_id c ∈ call_stack h.
Proof.
  intros T. remember (length (call_stack h)) as n eqn:En. revert j h En.
  induction n as [n IH] using lt_wf_ind. intros j h En Hj Hk Hc N.
  destruct (decide (parent_id h = "")) as [E|Nh].
  - pose proof (t_shape _ _ T _ _ Hj) as (_ & _ & Sh). rewrite decide_True in Sh by done.
    destruct Sh as [E0 _]. rewrite E0 in Hk. by apply elem_of_nil in Hk.
  - destruct (tree_parent _ _ _ _ T Hj Nh) as (p & Hp & Hcs & _).
    rewrite Hcs in *. rewrite elem_of_app, elem_of_cons, elem_of_nil in Hk. apply elem_of_app. left.
    destruct Hk as [Hk|[->|[]]].
    + apply (IH (length (call_stack p))) with (j := parent_id h); try done.
      rewrite En, length_app. cbn. lia.
    + rewrite Hp in Hc. injection Hc as <-.
      destruct (tree_parent _ _ _ _ T Hp N) as (g & _ & Hcg & _). rewrite Hcg. set_solver.
Qed.

Lemma path_child x m j h k : tree_ok_but x m -> m !! j = Some h -> k ∈ call_stack h ->
  exists i c, m !! i = Some c /\ parent_id c = k /\ root_id c = root_id h /\
    (i = j \/ i ∈ call_stack h).
Proof.
  intros T. remember (length (call_stack h)) as n eqn:En. revert j h En.
  induction n as [n IH] using lt_wf_ind. intros j h En Hj Hk.
  destruct (decide (parent_id h = "")) as [E|N].
  - pose proof (t_shape _ _ T _ _ Hj) as (_ & _ & Sh). rewrite decide_True in Sh by done.
    destruct Sh as [E0 _]. rewrite E0 in Hk. by apply elem_of_nil in Hk.
  - destruct (tree_parent _ _ _ _ T Hj N) as (p & Hp & Hc & Er & _).
    rewrite Hc in Hk. rewrite elem_of_app, elem_of_cons, elem_of_nil in Hk.
    destruct Hk as [Hk|[->|[]]].
    + destruct (IH (length (call_stack p))) with (j := parent_id h) (h := p)
        as (i & c & Hi & Hpc & Ec & Hor); try done.
      { rewrite En, Hc, length_app. cbn. lia. }
      exists i, c. split; [done|]. split; [done|]. split; [by rewrite Ec|]. right.
      rewrite Hc. destruct Hor as [->|Hor]; set_solver.
    + exists j, h. split_and!; auto.
Qed.

Lemma link_busy_up r p : link_ok r p -> Busy (status r) = true -> Busy (status p) = true.
Proof. intros [L _ _]. revert L. by destruct (status r), (status p). Qed.

(** The ancestors of a busy row are busy, waiting, and have a busy row in their batch. *)
Lemma busy_ancestor x m j h k : tree_ok_but x m -> m !! j = Some h -> Busy (status h) = true ->
  k ∈ call_stack h ->
  exists p i c, m !! k = Some p /\ root_id p = root_id h /\ Busy (status p) = true /\
    phase p = PhaseChildren /\ worker_id p = None /\
    m !! i = Some c /\ child_of p c /\ Busy (status c) = true /\ root_id c = root_id h /\
    (i = j \/ i ∈ call_stack h).
Proof.
  intros T Hj Hb Hk.
  destruct (anc_up _ _ (fun q => Busy (status q) = true) T link_busy_up j h k Hj Hb Hk)
    as (p & Hp & Hbp & Er).
  destruct (path_child _ _ _ _ _ T Hj Hk) as (i & c & Hi & Hpc & Ec & Hor).
  assert (Hbc : Busy (status c) = true).
  { destruct Hor as [->|Hor]; [by rewrite Hj in Hi; injection Hi as <-|].
    destruct (anc_up _ _ (fun q => Busy (status q) = true) T link_busy_up j h i Hj Hb Hor)
      as (c' & Hc' & Hbc & _). rewrite Hi in Hc'. by injection Hc' as <-. }
  rewrite <- Hpc in Hp. pose proof (t_link _ _ T _ _ _ Hi Hp) as [_ Lb Lw].
  assert (Hph : phase p = PhaseChildren) by (apply Lw; unfold awaited; by rewrite Hbc).
  exists p, i, c. rewrite <- Hpc. split_and!; try done.
  - by eapply waiting_not_held.
  - apply Lb. revert Hbc. by destruct (status c).
Qed.

Lemma above_held_iff m root k :
  above_held m root k = true <->
  exists j h, m !! j = Some h /\ root_id h = root /\ worker_id h <> None /\ k ∈ call_stack h.
Proof.
  unfold above_held. rewrite existsb_exists. split.
  - intros (h & Hin & Hb). apply List.in_map_iff in Hin as ([j h'] & <- & Hin).
    apply list_elem_of_In, elem_of_map_to_list in Hin. cbn in *.
    rewrite !andb_true_iff, String.eqb_eq, bool_decide_eq_true in Hb.
    destruct Hb as [[? Hh] ?]. exists j, h'. split_and!; try done. unfold held in Hh.
    by destruct (worker_id h').
  - intros (j & h & Hj & Hr & Hw & Hk). exists h. split.
    + apply List.in_map_iff. exists (j, h). split; [done|]. by apply list_elem_of_In, elem_of_map_to_list.
    + rewrite !andb_true_iff, String.eqb_eq, bool_decide_eq_true. split_and!; try done.
      unfold held. by destruct (worker_id h).
Qed.

Lemma above_held_spec x m root k : tree_ok_but x m ->
  above_held m root k = true <->
  exists j h, m !! j = Some h /\ root_id h = root /\ worker_id h <> None /\ k ∈ call_stack h.
Proof. intros _. apply above_held_iff. Qed.

Lemma held_spec r : held r = true <-> worker_id r <> None.
Proof. unfold held. destruct (worker_id r); split; congruence. Qed.

Lemma held_busy x m k r : tree_ok_but x m -> m !! k = Some r -> worker_id r <> None ->
  Busy (status r) = true /\ phase r <> PhaseChildren.
Proof.
  intros T Hk Hw. destruct (ro_held _ (t_row _ _ T _ _ Hk) Hw) as [Hs Hp]. split; [|done].
  revert Hs. by destruct (status r); vm_compute; set_solver.
Qed.

Lemma NoDup_map_filter {A B} (f : A -> B) (sel : A -> bool) l :
  NoDup (map f l) -> NoDup (map f (List.filter sel l)).
Proof.
  induction l as [|x l IH]; cbn; [done|]. rewrite NoDup_cons. intros [Hx Hl].
  destruct (sel x); cbn; [|by apply IH]. apply NoDup_cons. split; [|by apply IH].
  intros Hin. apply Hx. apply list_elem_of_In, List.in_map_iff in Hin as (y & <- & Hy).
  apply List.filter_In in Hy as [Hy _]. apply list_elem_of_In, List.in_map_iff. eauto.
Qed.

Lemma matching_ids sel m : keyed m -> NoDup (map (fun r : row => id r) (matching sel m)).
Proof.
  intros K. apply NoDup_map_filter. rewrite map_map.
  rewrite (map_ext_in _ fst).
  - apply NoDup_fst_map_to_list.
  - intros [k r] Hin. apply list_elem_of_In, elem_of_map_to_list in Hin. by apply K.
Qed.

(** * Changing statuses only *)

Record restatus (r r' : row) : Prop := mkRestatus {
  rs_spawn : r_spawn r' = r_spawn r;
  rs_task : task r' = task r;
  rs_epoch : task_epoch r' = task_epoch r;
  rs_phase : phase r' = phase r;
  rs_lease : r_lease r' = r_lease r;
  rs_superseded : superseded_at r' = superseded_at r }.

Lemma restatus_state st ph wake msg code now r : ph = phase r ->
  restatus r (set_state st ph wake msg code now r).
Proof. by intros ->. Qed.

Lemma restatus_child p p' c c' : restatus p p' -> restatus c c' -> child_of p c -> child_of p' c'.
Proof. intros [Sp Tp Ep _ _ _] [Sc _ _ _ _ _]. rewrite !child_of_eq, Sp, Sc, Tp, Ep. done. Qed.

Lemma evolves1_restatus retry r r' : restatus r r' ->
  (settled (status r) = true -> status r' = status r) ->
  (retry = false -> status r = StatusFailed -> status r' = StatusFailed) ->
  (worker_id r <> None -> since (status r) (status r') = true) -> evolves1 retry r r'.
Proof.
  intros [Es Et Ee Ep El _] Hs Hf Hh. split; rewrite ?El; try done. intros Hw _. by split_and!; auto.
Qed.

(** The table [m'] has the rows of [m], each related to what it was. *)
Definition rows_rel (R : row -> row -> Prop) (m m' : table) : Prop := forall k,
  match m !! k, m' !! k with Some r, Some r' => R r r' | None, None => True | _, _ => False end.

Lemma rows_rel_back R m m' k r' : rows_rel R m m' -> m' !! k = Some r' ->
  exists r, m !! k = Some r /\ R r r'.
Proof. intros H Hk. specialize (H k). rewrite Hk in H. destruct (m !! k); [eauto|done]. Qed.

Lemma rows_rel_at R m m' k r : rows_rel R m m' -> m !! k = Some r ->
  exists r', m' !! k = Some r' /\ R r r'.
Proof. intros H Hk. specialize (H k). rewrite Hk in H. destruct (m' !! k); [eauto|done]. Qed.

Lemma rows_rel_mono (R R' : row -> row -> Prop) m m' :
  (forall r r', R r r' -> R' r r') -> rows_rel R m m' -> rows_rel R' m m'.
Proof. intros H HR k. specialize (HR k). destruct (m !! k), (m' !! k); auto. Qed.

Lemma rows_rel_update (R : row -> row -> Prop) (sel : row -> bool) (f : row -> row) m :
  (forall k r, m !! k = Some r -> R r (if sel r then f r else r)) -> rows_rel R m (update_rows sel f m).
Proof. intros H k. rewrite lookup_update. destruct (m !! k) as [r|] eqn:E; [|done]. by apply (H k). Qed.

Lemma rows_rel_evolves retry (R : row -> row -> Prop) m m' : rows_rel R m m' ->
  (forall k r r', m !! k = Some r -> R r r' -> evolves1 retry r r') -> evolves retry m m'.
Proof. intros HR H k r Hk. destruct (rows_rel_at _ _ _ _ _ HR Hk) as (r' & ? & ?). eauto. Qed.

(** The invariant of a table whose statuses alone changed, in terms of statuses. *)
Lemma restatus_ok x m m' (R : row -> row -> Prop) : tree_ok m -> rows_rel R m m' ->
  (forall k r r', m !! k = Some r -> R r r' -> restatus r r') ->
  (forall k r r', m !! k = Some r -> R r r' -> status r' = status r \/
     (superseded_at r = None /\
      (worker_id r <> None -> status r' ∈ [StatusRunning; StatusPausing; StatusCancelling]) /\
      (status r' = StatusFailing -> phase r = PhaseChildren))) ->
  (forall k r r' p p', m !! k = Some r -> m !! parent_id r = Some p -> R r r' -> R p p' ->
     ok_pair (status r) (status p) = true ->
     ok_pair (status r') (status p') = true /\ (batched (status r') = true -> batched (status r) = true) /\
     (awaited (status r') (status p') = true -> awaited (status r) (status p) = true)) ->
  (forall k p p', k <> x -> m !! k = Some p -> R p p' -> wait_ok m p -> phase p = PhaseChildren ->
     Terminal (status p') = false ->
     exists i c, m !! i = Some c /\ child_of p c /\ forall c', R c c' -> Terminal (status c') = false /\
       (Draining (status p') = true -> Busy (status c') = true)) ->
  (forall k r r' r0 r0', m !! k = Some r -> R r r' -> m !! root_id r = Some r0 -> R r0 r0' ->
     status r' = StatusPaused -> pausable (status r0') = true) ->
  tree_ok_but x m'.
Proof.
  intros T HR Hrs Hrow Hlink Hwait Hpaused.
  assert (At : forall k r r', m !! k = Some r -> m' !! k = Some r' -> R r r' /\ restatus r r').
  { intros k r r' Hr Hr'. destruct (rows_rel_at _ _ _ _ _ HR Hr) as (q & Hq & ?).
    rewrite Hr' in Hq. injection Hq as <-. eauto. }
  apply (tree_ok_same_spawn _ m); [done| | | | |].
  - intros k. specialize (HR k). destruct (m !! k) as [r|] eqn:E, (m' !! k) as [r'|] eqn:E'; try done.
    cbn. by rewrite (rs_spawn _ _ (Hrs _ _ _ E HR)).
  - intros k r r' Hr Hr'. destruct (At _ _ _ Hr Hr') as [HRr [Es Et Ee Ep El Esup]].
    pose proof (t_row _ _ T _ _ Hr) as [Rh Rf Rs]. split.
    + rewrite El, Ep. intros Hw. split; [|by apply Rh].
      destruct (Hrow _ _ _ Hr HRr) as [->|(_ & H & _)]; [by apply Rh|auto].
    + rewrite Ep. destruct (Hrow _ _ _ Hr HRr) as [->|(_ & _ & H)]; auto.
    + rewrite Esup. destruct (Hrow _ _ _ Hr HRr) as [->|(-> & _)]; [auto|done].
  - intros k r r' p p' Hr Hr' Hp Hp' [Lp Lb Lw].
    destruct (At _ _ _ Hr Hr') as [HRr Sr]. destruct (At _ _ _ Hp Hp') as [HRp Sp].
    destruct (Hlink _ _ _ _ _ Hr Hp HRr HRp Lp) as (Ok & Ba & Aw). split; [done| |].
    + intros H. eapply restatus_child; eauto.
    + rewrite (rs_phase _ _ Sp). auto.
  - intros k p p' Hk Hp Hp' Hw. destruct (At _ _ _ Hp Hp') as [HRp Sp]. intros Hph Ht.
    rewrite (rs_phase _ _ Sp) in Hph.
    destruct (Hwait _ _ _ Hk Hp HRp Hw Hph Ht) as (i & c & Hi & Hc & Hall).
    destruct (rows_rel_at _ _ _ _ _ HR Hi) as (c' & Hi' & HRc).
    exists i, c'. split; [done|]. split; [|by apply Hall].
    eapply restatus_child; eauto.
  - intros k r r' r0 r0' Hr Hr' H0 H0'. destruct (At _ _ _ Hr Hr') as [HRr _].
    destruct (At _ _ _ H0 H0') as [HR0 _]. eauto.
Qed.

Lemma running_up r p : link_ok r p -> status r = StatusRunning -> status p = StatusRunning.
Proof. intros [L _ _] E. rewrite E in L. by destruct (status p). Qed.

End Tree.
