(* ===== verification/Drain.v ===== *)
(** The lifecycle verbs keep the tree invariant. *)
From Stdlib Require Import ZArith Lia String.
From stdpp Require Import sorting.
From S2P Require Import Prelude.
From S2P Require Import Instance.
From S2P Require Import Store.
From S2P Require Import Lifecycle.
From S2P Require Import Tree.
Open Scope string_scope.
Open Scope list_scope.
Open Scope Z_scope.

Module Drain.
Import Instance Store Lifecycle Tree.

Implicit Types r p c h q : row.
Implicit Types m : table.
Implicit Types k : string.

(** * What a lease holder writes *)

Lemma settleUp_ok (child : row) now s : tree_ok_but (parent_id child) (rows s) ->
  (forall p, rows s !! parent_id child = Some p -> phase p = PhaseChildren ->
     spawn_task_id child = task p /\ parent_task_epoch child = task_epoch p) ->
  settles_to s (settleUp child now s).
Proof.
  intros T Hp. unfold settleUp. rewrite query_bind. apply settle_loop_ok; [done|lia|].
  intros p Hk. split; [|by apply Hp]. pose proof (stack_bound _ _ _ _ T Hk). lia.
Qed.

(** The children of a held row stopped for good. *)
Lemma held_children x m k r j c : tree_ok_but x m -> m !! k = Some r -> worker_id r <> None ->
  m !! j = Some c -> parent_id c = k ->
  status c ∈ [StatusCompleted; StatusRaised; StatusCancelled].
Proof.
  intros T Hk Hw Hj Hpar. destruct (ro_held _ (t_row _ _ T _ _ Hk) Hw) as [Hs Hph].
  rewrite <- Hpar in Hk. destruct (t_link _ _ T _ _ _ Hj Hk) as [L _ A].
  assert (Aw : awaited (status c) (status r) = false) by (apply not_true_is_false; auto).
  clear -Hs L Aw. in_cases Hs; rewrite Hs in *; destruct (status c); try done; set_solver.
Qed.

(** The write of a holder, up to its parent's wait. *)
Lemma write_ok y m k r r' : tree_ok m -> y = parent_id r \/ status r' = status r -> m !! k = Some r -> worker_id r <> None ->
  r_spawn r' = r_spawn r -> worker_id r' = None -> superseded_at r' = superseded_at r ->
  (forall p, m !! parent_id r = Some p -> ok_pair (status r) (status p) = true ->
     ok_pair (status r') (status p) = true) ->
  (batched (status r') = true -> batched (status r) = true) ->
  (status r' = StatusRunning \/ status r' = StatusPausing \/ status r' = StatusCancelling \/
     Busy (status r') = false) ->
  phase r' <> PhaseChildren ->
  (forall j c, m !! j = Some c -> parent_id c = k -> status c = StatusCancelled ->
     status r' = StatusCancelling \/ status r' = StatusCancelled) ->
  (status r' = StatusPaused -> status r = StatusPausing) ->
  (pausable (status r) = true -> pausable (status r') = true \/
     forall j (q : row), m !! j = Some q -> root_id q = k -> j <> k -> status q <> StatusPaused) ->
  tree_ok_but y (<[k := r']> m).
Proof.
  intros T Hy Hk Hw Es Ew Esup Hpair Hbat Hst Hph Hkids Hpaused Hroot.
  destruct (held_busy _ _ _ _ T Hk Hw) as [Hb Hph0].
  pose proof (t_row _ _ T _ _ Hk) as [Rh Rf Rs]. destruct (tree_key _ _ _ _ T Hk) as [Eid _].
  apply (tree_insert y _ _ _ r); try done.
  - by apply tree_weaken.
  - split.
    + by rewrite Ew.
    + intros E. rewrite E in Hst. by intuition.
    + rewrite Esup. intros N. rewrite (Rs N) in Hb. done.
  - intros p Hp [Lp Lb Lw]. split; [by apply Hpair| |].
    + intros B. unfold child_of, in_batch. rewrite Es. apply Lb. auto.
    + intros _. apply Lw. unfold awaited. by rewrite Hb.
  - intros j c Hj Hpar _. pose proof (held_children _ _ _ _ _ _ T Hk Hw Hj Hpar) as Hc.
    specialize (Hkids _ _ Hj Hpar). split.
    + in_cases Hc; rewrite Hc in *; try done. destruct Hkids as [E|E]; [done|by rewrite E..].
    + by in_cases Hc; rewrite Hc.
    + by in_cases Hc; rewrite Hc.
  - intros _ H. done.
  - by left.
  - destruct Hy as [H|H]; rewrite H; auto.
  - intros E r0 H0. specialize (Hpaused E).
    pose proof (root_up _ _ (fun q => status q ∈ [StatusPausing; StatusFailing]) T pausing_up k r r0 Hk) as U.
    specialize (U ltac:(cbn; rewrite Hpaused; set_solver) H0). cbn in U. by in_cases U; rewrite U.
Qed.

(** * A failure's ancestors *)

Lemma stopping_up r p : link_ok r p ->
  status r ∈ [StatusPausing; StatusFailing; StatusCancelling] ->
  status p ∈ [StatusPausing; StatusFailing; StatusCancelling].
Proof.
  intros [L _ _] H. by in_cases H; rewrite H in L; destruct (status p); try done; set_solver.
Qed.

Definition fail_rel (cs : list string) msg code now (q q' : row) : Prop :=
  (id q ∈ cs /\ status q = StatusPausing /\
     q' = set_state StatusFailing (phase q) (wake_at q) msg code now q) \/
  (~ (id q ∈ cs /\ status q = StatusPausing) /\ q' = q).

Section Fail.
Context (m : table) (k : string) (r : row) (msg code : string) (now : Z).
Context (T : tree_ok m) (Hk : m !! k = Some r).
Context (Hr : status r ∈ [StatusPausing; StatusFailing; StatusCancelling]).

Lemma stopping_ancestor j q : m !! j = Some q -> id q ∈ call_stack r ->
  status q ∈ [StatusPausing; StatusFailing; StatusCancelling] /\ phase q = PhaseChildren /\
  worker_id q = None /\
  exists i c, m !! i = Some c /\ child_of q c /\ Busy (status c) = true.
Proof using T Hk Hr.
  intros Hj Hin. destruct (tree_key _ _ _ _ T Hj) as [E _]. rewrite E in Hin.
  assert (Hb : Busy (status r) = true) by (clear -Hr; by in_cases Hr; rewrite Hr).
  destruct (anc_up _ _ (fun q => status q ∈ [StatusPausing; StatusFailing; StatusCancelling]) T
    stopping_up k r j Hk Hr Hin) as (q' & Hq & Hs & _). rewrite Hj in Hq. injection Hq as <-.
  destruct (busy_ancestor _ _ _ _ _ T Hk Hb Hin)
    as (p & i & c & Hp & _ & _ & Hph & Hw & Hi & Hc & Hbc & _).
  rewrite Hj in Hp. injection Hp as <-. eauto 10.
Qed.

Lemma fail_rows : rows_rel (fail_rel (call_stack r) msg code now) m
  (FailAncestors msg code now (call_stack r) m).
Proof using T Hk Hr.
  apply rows_rel_update. intros j q Hj. unfold fail_rel, in_ids. case_bool_decide as Hin; cbn.
  2:{ right. split; [tauto|done]. }
  destruct (stopping_ancestor _ _ Hj Hin) as [Hs _].
  in_cases Hs; rewrite Hs; cbn; [by left|right; split; [by intros []|done]..].
Qed.

Lemma fail_anc_ok : tree_ok (FailAncestors msg code now (call_stack r) m).
Proof using T Hk Hr.
  apply (restatus_ok _ m _ (fail_rel (call_stack r) msg code now) T fail_rows).
  - by intros _ q q' _ [(_ & _ & ->)|[_ ->]].
  - intros j q q' Hj [(Hin & Hst & ->)|[_ ->]]; [right|by left].
    destruct (stopping_ancestor _ _ Hj Hin) as (_ & Hph & Hw & _). split_and!; [|congruence|done].
    destruct (superseded_at q) eqn:E; [|done].
    rewrite (ro_superseded _ (t_row _ _ T _ _ Hj)) in Hst by congruence. done.
  - intros j c c' p p' Hj Hp Hc Hp' Hok. destruct (tree_key _ _ _ _ T Hp) as [Ep Np].
    destruct Hc as [(Hin & Hst & ->)|[Hn ->]], Hp' as [(Hpin & Hpst & ->)|[Hpn ->]]; cbn.
    + by rewrite Hst, Hpst.
    + assert (Hin' : id p ∈ call_stack r).
      { destruct (tree_key _ _ _ _ T Hj) as [Ej _]. rewrite Ep. rewrite Ej in Hin.
        by apply (anc_closed _ _ _ _ _ _ T Hk Hin Hj). }
      assert (N : status p <> StatusPausing) by tauto.
      rewrite Hst in Hok |- *. by destruct (status p).
    + rewrite Hpst in Hok |- *. by destruct (status c).
    + done.
  - intros j p p' _ Hp Hpr Hw Hph Ht.
    assert (Hkeep : forall c c', Busy (status c) = true \/ Terminal (status c) = false ->
      fail_rel (call_stack r) msg code now c c' ->
      Terminal (status c') = false /\ (Busy (status c) = true -> Busy (status c') = true)).
    { intros c c' Hc [(_ & Hs & ->)|[_ ->]]; [done|]. split; [|done].
      destruct Hc as [Hc|Hc]; [by apply Busy_not_Terminal|done]. }
    destruct Hpr as [(Hin & Hs & ->)|[_ ->]].
    + destruct (stopping_ancestor _ _ Hp Hin) as (_ & _ & _ & i & c & Hi & Hc & Hb).
      exists i, c. split; [done|]. split; [done|]. intros c' Hc'.
      destruct (Hkeep c c' ltac:(auto) Hc') as [H1 H2]. auto.
    + destruct (Hw Hph Ht) as (i & c & Hi & Hc & Htc & Hb). exists i, c. split; [done|]. split; [done|].
      intros c' Hc'. destruct (Hkeep c c' ltac:(auto) Hc') as [H1 H2]. auto.
  - intros j q q' r0 r0' Hj Hq H0 Hr0 Hst.
    destruct Hq as [(_ & _ & ->)|[_ ->]]; [done|]. pose proof (t_paused _ _ T _ _ _ Hj Hst H0) as Hpa.
    by destruct Hr0 as [(_ & _ & ->)|[_ ->]].
Qed.

Lemma fail_anc_evolves : evolves false m (FailAncestors msg code now (call_stack r) m).
Proof using T Hk Hr.
  apply (rows_rel_evolves _ _ _ _ fail_rows). intros j q q' Hj [(Hin & Hs & ->)|[_ ->]];
    [|apply evolves1_refl]. destruct (stopping_ancestor _ _ Hj Hin) as (_ & _ & Hw & _).
  apply evolves1_restatus; [by apply restatus_state|rewrite ?Hs; done..|by rewrite Hw].
Qed.
End Fail.

(** * Tree-wide stops *)

Section Stop.
Context (m : table) (root : string) (now : Z) (T : tree_ok m).
Let drains (r : row) : bool := held r || above_held m root (id r).

Lemma parent_row k r p : m !! k = Some r -> m !! parent_id r = Some p -> root_id r = root_id p.
Proof using T.
  intros Hk Hp. destruct (decide (parent_id r = "")) as [E|N].
  - rewrite E in Hp. by apply (tree_key _ _ _ _ T) in Hp as [_ ?].
  - destruct (tree_parent _ _ _ _ T Hk N) as (p' & Hp' & _ & Er & _). congruence.
Qed.

(** A row that drains is above one that does too. *)
Lemma drains_up k c p : m !! k = Some c -> m !! parent_id c = Some p -> root_id c = root ->
  drains c = true -> drains p = true.
Proof using T.
  intros Hc Hp Hr Hd. unfold drains in *. apply orb_true_iff. right.
  assert (N : parent_id c <> "") by (intros E; rewrite E in Hp; by apply (tree_key _ _ _ _ T Hp)).
  destruct (tree_parent _ _ _ _ T Hc N) as (p' & Hp' & Hcs & Er & _). rewrite Hp in Hp'.
  injection Hp' as <-. destruct (tree_key _ _ _ _ T Hp) as [Ep _]. destruct (tree_key _ _ _ _ T Hc) as [Ec _].
  apply (above_held_spec _ _ _ _ T). rewrite Ep. apply orb_true_iff in Hd as [Hd|Hd].
  - exists k, c. rewrite held_spec in Hd. split_and!; try done. rewrite Hcs. set_solver.
  - apply (above_held_spec _ _ _ _ T) in Hd as (j & h & Hj & Hrh & Hw & Hk).
    exists j, h. split_and!; try done. rewrite Ec in Hk.
    by apply (anc_closed _ _ j h k c T).
Qed.

(** A draining parent that waits is above a row that drains. *)
Lemma drains_child k p : m !! k = Some p -> root_id p = root -> drains p = true ->
  phase p = PhaseChildren ->
  exists i c, m !! i = Some c /\ child_of p c /\ Busy (status c) = true /\ drains c = true /\
    root_id c = root.
Proof using T.
  intros Hp Hr Hd Hph. pose proof (waiting_not_held _ _ _ _ T Hp Hph) as Hw.
  unfold drains in Hd. apply orb_true_iff in Hd as [Hd|Hd]; [by rewrite held_spec in Hd|].
  destruct (tree_key _ _ _ _ T Hp) as [Ep _].
  apply (above_held_spec _ _ _ _ T) in Hd as (j & h & Hj & Hrh & Hwh & Hk). rewrite Ep in Hk.
  destruct (held_busy _ _ _ _ T Hj Hwh) as [Hb _].
  destruct (busy_ancestor _ _ _ _ _ T Hj Hb Hk)
    as (p' & i & c & Hp' & _ & _ & _ & _ & Hi & Hc & Hbc & Ec & Hor).
  rewrite Hp in Hp'. injection Hp' as <-. exists i, c. split_and!; try done; [|congruence].
  unfold drains. destruct (tree_key _ _ _ _ T Hi) as [Ei _]. apply orb_true_iff.
  destruct Hor as [->|Hor].
  - left. rewrite Hj in Hi. injection Hi as <-. by apply held_spec.
  - right. apply (above_held_spec _ _ _ _ T). exists j, h. rewrite Ei. by split_and!.
Qed.

(** What a tree-wide stop makes of a row. *)
Definition stop_rel (from : list Status) (draining stopped : Status) (r r' : row) : Prop :=
  (root_id r = root /\ status r ∈ from /\
     r' = set_status (if drains r then draining else stopped) now r) \/
  (~ (root_id r = root /\ status r ∈ from) /\ r' = r).

Lemma stop_rows (from : list Status) draining stopped :
  rows_rel (stop_rel from draining stopped) m (stop_tree from draining stopped root now m).
Proof using Type.
  apply rows_rel_update. intros k r _. unfold stop_rel.
  destruct (String.eqb_spec (root_id r) root) as [E|N]; cbn; [|right; tauto].
  case_bool_decide; [by left|right; tauto].
Qed.

Lemma stop_restatus (from : list Status) draining stopped r r' :
  stop_rel from draining stopped r r' -> restatus r r'.
Proof using Type. by intros [(_ & _ & ->)|[_ ->]]. Qed.

Lemma drains_busy k r : m !! k = Some r -> root_id r = root -> drains r = true ->
  Busy (status r) = true /\ (worker_id r <> None \/ phase r = PhaseChildren).
Proof using T.
  intros Hk Hr Hd. unfold drains in Hd. apply orb_true_iff in Hd as [Hd|Hd].
  - apply held_spec in Hd. split; [|by left]. by apply (held_busy _ _ _ _ T Hk).
  - apply (above_held_spec _ _ _ _ T) in Hd as (j & h & Hj & Hrh & Hwh & Ha).
    destruct (tree_key _ _ _ _ T Hk) as [E _]. rewrite E in Ha.
    destruct (held_busy _ _ _ _ T Hj Hwh) as [Hb _].
    destruct (busy_ancestor _ _ _ _ _ T Hj Hb Ha) as (p & i & c & Hp & _ & Hbp & Hph & _).
    rewrite Hk in Hp. injection Hp as <-. auto.
Qed.

Definition pause_rel (r r' : row) : Prop :=
  (root_id r = root /\ status r = StatusRunning /\
     r' = set_status (if drains r then StatusPausing else StatusPaused) now r) \/
  (~ (root_id r = root /\ status r = StatusRunning) /\ r' = r).

Lemma stop_spawn (from : list Status) draining stopped :
  same_spawn m (stop_tree from draining stopped root now m).
Proof using Type. by apply same_spawn_update. Qed.

Lemma pause_ok : tree_ok (stop_tree [StatusRunning] StatusPausing StatusPaused root now m).
Proof using T.
  apply (restatus_ok _ m _ pause_rel T); [|by intros _ r r' _ [(_ & _ & ->)|[_ ->]]|..].
  { eapply rows_rel_mono; [|apply stop_rows]. intros r r'. unfold stop_rel, pause_rel.
    by rewrite list_elem_of_singleton. }
  - intros k r r' Hk [(Hr & Hs & ->)|[_ ->]]; [right|by left].
    pose proof (t_row _ _ T _ _ Hk) as [Rh _ Rs]. split_and!.
    + destruct (superseded_at r) eqn:E; [|done]. rewrite Rs in Hs by congruence. done.
    + intros Hw. cbn. unfold drains. rewrite (proj2 (held_spec r) Hw). cbn. set_solver.
    + cbn. by destruct (drains r).
  - intros k r r' p p' Hk Hp Hr Hp' Hok. pose proof (parent_row _ _ _ Hk Hp) as Er.
    destruct Hr as [(Hr & Hs & ->)|[Hr ->]], Hp' as [(Hpr & Hps & ->)|[Hpr ->]]; cbn.
    + rewrite Hs. destruct (drains r) eqn:D.
      * rewrite (drains_up _ _ _ Hk Hp Hr D). done.
      * by destruct (drains p).
    + exfalso. apply Hpr. split; [congruence|]. rewrite Hs in Hok. by destruct (status p).
    + assert (N : status r <> StatusRunning) by (intros E; apply Hr; split; congruence).
      rewrite Hps in Hok. destruct (status r), (drains p); try done; by discriminate Hok.
    + done.
  - intros k p p' _ Hp Hst Hw Hph Ht.
    destruct Hst as [(Hpr & Hps & ->)|[Hpr ->]]; cbn in Ht |- *.
    + destruct (drains p) eqn:D.
      * destruct (drains_child _ _ Hp Hpr D Hph) as (i & c & Hi & Hc & Hbc & Dc & Hrc).
        exists i, c. split; [done|]. split; [done|]. intros c' [(_ & _ & ->)|[_ ->]]; cbn; rewrite ?Dc; [done|].
        split; [by apply Busy_not_Terminal|done].
      * destruct (Hw Hph) as (i & c & Hi & Hc & Htc & _); [by rewrite Hps|].
        exists i, c. split; [done|]. split; [done|]. split; [|done].
        destruct H as [(_ & _ & ->)|[_ ->]]; cbn; [by destruct (drains c)|done].
    + destruct (Hw Hph Ht) as (i & c & Hi & Hc & Htc & Hbc). exists i, c. split; [done|]. split; [done|].
      intros c' [(Hrc & Hsc & ->)|[_ ->]]; [|done]. exfalso. apply Hpr.
      pose proof (child_of_parent _ _ Hc) as Ep. destruct (tree_key _ _ _ _ T Hp) as [Eid _].
      rewrite <- Ep in Eid. subst k. pose proof (parent_row _ _ _ Hi Hp) as Er. split; [congruence|].
      pose proof (lk_pair _ _ (t_link _ _ T _ _ _ Hi Hp)) as L. rewrite Hsc in L. by destruct (status p).
  - intros k r r' r0 r0' Hk Hr H0 Hr0 Hst.
    destruct Hr as [(Hr & Hs & ->)|[Hr ->]].
    + pose proof (root_up _ _ (fun q => status q = StatusRunning) T running_up k r r0 Hk Hs H0) as Hs0.
      destruct Hr0 as [(_ & _ & ->)|[N ->]]; [by cbn; destruct (drains r0)|].
      exfalso. apply N. split; [|done]. by rewrite (root_root _ _ _ _ _ T Hk H0).
    + pose proof (t_paused _ _ T _ _ _ Hk Hst H0) as Hpa.
      destruct Hr0 as [(_ & Hs0 & ->)|[_ ->]]; [|done]. rewrite Hs0 in Hpa. done.
Qed.

(** Below a running or paused root every row has the root's status or stopped for good. *)
Lemma uniform_tree r0 k r : m !! root = Some r0 -> root_id r0 = root ->
  status r0 ∈ [StatusRunning; StatusPaused] -> m !! k = Some r -> root_id r = root ->
  status r ∈ [status r0; StatusCompleted; StatusRaised].
Proof using T.
  intros H0 _ Hs Hk Hr. rewrite <- Hr in H0.
  apply (root_down _ _ (fun q => status q ∈ [status r0; StatusCompleted; StatusRaised]) T) with (k := k) (r0 := r0);
    [|done..|set_solver].
  intros c p [L _ _] Hp. clear -L Hs Hp. in_cases Hs; rewrite Hs in *; in_cases Hp; rewrite Hp in *;
    destruct (status c); try done; set_solver.
Qed.

Definition cancel_rel (s : Status) (r r' : row) : Prop :=
  (root_id r = root /\ status r = s /\
     r' = set_status (if drains r then StatusCancelling else StatusCancelled) now r) \/
  (root_id r = root /\ status r ∈ [StatusCompleted; StatusRaised] /\ r' = r) \/
  (root_id r <> root /\ r' = r).

Lemma cancel_ok r0 : m !! root = Some r0 -> root_id r0 = root ->
  status r0 ∈ [StatusRunning; StatusPaused] ->
  tree_ok (stop_tree [StatusRunning; StatusPaused] StatusCancelling StatusCancelled root now m).
Proof using T.
  intros H0 E0 Hs. pose proof (uniform_tree r0) as U. set (s := status r0) in *.
  apply (restatus_ok _ m _ (cancel_rel s) T);
    [|by intros _ r r' _ [(_ & _ & ->)|[(_ & _ & ->)|[_ ->]]]|..].
  { apply rows_rel_update. intros k r Hk. unfold cancel_rel.
    destruct (String.eqb_spec (root_id r) root) as [E|N]; cbn; [|by auto].
    specialize (U k r H0 E0 Hs Hk E). fold s in U.
    assert (status r ∈ [StatusRunning; StatusPaused] <-> status r = s) as Sel.
    { clear -U Hs. in_cases Hs; rewrite Hs in *; in_cases U; rewrite U; set_solver. }
    case_bool_decide as B; rewrite Sel in B; [by left|]. right. left. split_and!; [done| |done].
    set_solver. }
  - intros k r r' Hk [(Hr & Hst & ->)|[(_ & _ & ->)|[_ ->]]]; [right|by left..].
    pose proof (t_row _ _ T _ _ Hk) as [Rh _ Rs]. split_and!.
    + destruct (superseded_at r) eqn:E; [|done]. rewrite Rs in Hst by congruence.
      in_cases Hs; congruence.
    + intros Hw. cbn. unfold drains. rewrite (proj2 (held_spec r) Hw). cbn. set_solver.
    + cbn. by destruct (drains r).
  - intros k r r' p p' Hk Hp Hr Hp' Hok. pose proof (parent_row _ _ _ Hk Hp) as Er.
    destruct Hr as [(Hr & Hst & ->)|[(Hr & Hst & ->)|[Hr ->]]],
      Hp' as [(Hpr & Hpst & ->)|[(Hpr & Hpst & ->)|[Hpr ->]]]; cbn; try congruence.
    + destruct (drains r) eqn:D.
      * rewrite (drains_up _ _ _ Hk Hp Hr D). split_and!; [done| |].
        -- intros _. rewrite Hst. clear -Hs. by in_cases Hs; rewrite Hs.
        -- intros _. unfold awaited. by rewrite (proj1 (drains_busy _ _ Hk Hr D)).
      * split_and!; [by destruct (drains p)|done|done].
    + exfalso. clear -Hok Hst Hs Hpst. rewrite Hst in Hok.
      by in_cases Hs; rewrite Hs in Hok; in_cases Hpst; rewrite Hpst in Hok.
    + clear -Hst. by in_cases Hst; rewrite Hst.
    + done.
    + done.
  - intros k p p' _ Hp Hst Hw Hph Ht.
    destruct Hst as [(Hpr & Hps & ->)|[(Hpr & Hps & ->)|[Hpr ->]]]; cbn in Ht |- *.
    + destruct (drains p) eqn:D; [|done].
      destruct (drains_child _ _ Hp Hpr D Hph) as (i & c & Hi & Hc & Hbc & Dc & Hrc).
      exists i, c. split; [done|]. split; [done|].
      intros c' [(_ & _ & ->)|[(_ & Hcs & ->)|[? ->]]]; cbn; rewrite ?Dc; [done| |congruence].
      exfalso. clear -Hbc Hcs. by in_cases Hcs; rewrite Hcs in Hbc.
    + exfalso. clear -Hps Ht. by in_cases Hps; rewrite Hps in Ht.
    + destruct (Hw Hph Ht) as (i & c & Hi & Hc & Htc & Hbc). exists i, c. split; [done|]. split; [done|].
      assert (Er : root_id c <> root).
      { pose proof (child_of_parent _ _ Hc) as Ep. destruct (tree_key _ _ _ _ T Hp) as [Eid _].
        rewrite <- Ep in Eid. subst k. by rewrite (parent_row _ _ _ Hi Hp). }
      intros c' [(Hrc & _)|[(Hrc & _)|[_ ->]]]; [congruence..|done].
  - intros k r r' q q' Hk Hr Hq Hq' Hst. pose proof (root_root _ _ _ _ _ T Hk Hq) as Eq.
    destruct Hr as [(Hr & _ & ->)|[(Hr & Hc & ->)|[Hr ->]]].
    + cbn in Hst. by destruct (drains r).
    + in_cases Hc; congruence.
    + pose proof (t_paused _ _ T _ _ _ Hk Hst Hq) as Hpa.
      destruct Hq' as [(Hr' & _)|[(Hr' & _)|[_ ->]]]; [congruence..|done].
Qed.

(** Resuming every paused row of a tree whose root is paused. *)
Definition resume_rel (r r' : row) : Prop :=
  (root_id r = root /\ status r = StatusPaused /\ r' = set_status StatusRunning now r) \/
  (root_id r = root /\ status r ∈ [StatusCompleted; StatusRaised] /\ r' = r) \/
  (root_id r <> root /\ r' = r).

Lemma resume_rows r0 ids : m !! root = Some r0 -> root_id r0 = root -> status r0 = StatusPaused ->
  (forall k r, m !! k = Some r ->
     in_ids ids r = String.eqb (root_id r) root && bool_decide (status r = StatusPaused)) ->
  rows_rel resume_rel m (SetStatusIn StatusRunning now ids m).
Proof using T.
  intros H0 E0 Hs Hids. apply rows_rel_update. intros k r Hk. rewrite (Hids _ _ Hk). unfold resume_rel.
  destruct (String.eqb_spec (root_id r) root) as [E|N]; cbn; [|by auto].
  case_bool_decide as B; [by auto|]. right. left. split_and!; [done| |done].
  pose proof (uniform_tree r0 k r H0 E0) as U. rewrite Hs in U. specialize (U ltac:(set_solver) Hk E).
  set_solver.
Qed.

Lemma resume_ok r0 ids : m !! root = Some r0 -> root_id r0 = root -> status r0 = StatusPaused ->
  (forall k r, m !! k = Some r ->
     in_ids ids r = String.eqb (root_id r) root && bool_decide (status r = StatusPaused)) ->
  tree_ok (SetStatusIn StatusRunning now ids m).
Proof using T.
  intros H0 E0 Hs Hids.
  apply (restatus_ok _ m _ resume_rel T); [by eapply resume_rows| | | | |].
  - by intros _ r r' _ [(_ & _ & ->)|[(_ & _ & ->)|[_ ->]]].
  - intros k r r' Hk [(Hr & Hst & ->)|[(_ & _ & ->)|[_ ->]]]; [right|by left..].
    pose proof (t_row _ _ T _ _ Hk) as [Rh _ Rs]. split_and!; cbn; [|set_solver|done].
    destruct (superseded_at r) eqn:E; [|done]. rewrite Rs in Hst by congruence. done.
  - intros k r r' p p' Hk Hp Hr Hp' Hok. pose proof (parent_row _ _ _ Hk Hp) as Er.
    destruct Hr as [(Hr & Hst & ->)|[(Hr & Hst & ->)|[Hr ->]]],
      Hp' as [(Hpr & Hpst & ->)|[(Hpr & Hpst & ->)|[Hpr ->]]]; cbn; try congruence.
    + by rewrite Hst, Hpst.
    + rewrite Hst in Hok. by in_cases Hpst; rewrite Hpst in Hok.
    + by in_cases Hst; rewrite Hst.
    + done.
    + done.
  - intros k p p' _ Hp Hst Hw Hph Ht.
    destruct (Hw Hph) as (i & c & Hi & Hc & Htc & Hbc).
    { destruct Hst as [(_ & E & ->)|[(_ & _ & ->)|[_ ->]]]; [by rewrite E|done..]. }
    exists i, c. split; [done|]. split; [done|].
    destruct Hst as [(Hpr & Hps & ->)|[(Hpr & Hps & ->)|[Hpr ->]]]; cbn.
    + intros c' [(_ & _ & ->)|[(_ & _ & ->)|[_ ->]]]; by split.
    + by in_cases Hps; rewrite Hps in Ht.
    + intros c' [(Hrc & Hsc & _)|[(_ & _ & ->)|[_ ->]]]; [|done..]. exfalso. apply Hpr.
      pose proof (child_of_parent _ _ Hc) as Ep. destruct (tree_key _ _ _ _ T Hp) as [Eid _].
      rewrite <- Ep in Eid. subst k. by rewrite <- (parent_row _ _ _ Hi Hp).
  - intros k r r' q q' Hk Hr Hq Hq' Hst. pose proof (root_root _ _ _ _ _ T Hk Hq) as Eq.
    destruct Hr as [(Hr & _ & ->)|[(Hr & Hc & ->)|[Hr ->]]].
    + done.
    + in_cases Hc; congruence.
    + pose proof (t_paused _ _ T _ _ _ Hk Hst Hq) as Hpa.
      destruct Hq' as [(Hr' & _)|[(Hr' & _)|[_ ->]]]; [congruence..|done].
Qed.

Lemma stop_evolves (from : list Status) draining stopped :
  (forall st, st ∈ from -> st = StatusRunning \/ st = StatusPaused) ->
  since StatusRunning draining = true ->
  evolves false m (stop_tree from draining stopped root now m).
Proof using T.
  intros Hfrom Hd. apply (rows_rel_evolves _ _ _ _ (stop_rows from draining stopped)).
  intros k r r' Hk [(Hr & Hst & ->)|[_ ->]]; [|apply evolves1_refl].
  apply evolves1_restatus; [done| | |].
  - destruct (Hfrom _ Hst) as [E|E]; by rewrite E.
  - intros _ E. destruct (Hfrom _ Hst) as [E'|E']; congruence.
  - intros Hw. destruct (ro_held _ (t_row _ _ T _ _ Hk) Hw) as [Hs _].
    destruct (Hfrom _ Hst) as [E|E]; rewrite E in *; [|by in_cases Hs].
    cbn. unfold drains. by rewrite (proj2 (held_spec r) Hw).
Qed.

Lemma resume_evolves r0 ids : m !! root = Some r0 -> root_id r0 = root -> status r0 = StatusPaused ->
  (forall k r, m !! k = Some r ->
     in_ids ids r = String.eqb (root_id r) root && bool_decide (status r = StatusPaused)) ->
  evolves false m (SetStatusIn StatusRunning now ids m).
Proof using T.
  intros H0 E0 Hs Hids. apply (rows_rel_evolves _ _ _ _ (resume_rows r0 ids H0 E0 Hs Hids)).
  intros k r r' Hk [(Hr & Hst & ->)|[(_ & _ & ->)|[_ ->]]]; [|apply evolves1_refl..].
  apply evolves1_restatus; [done|by rewrite Hst| |].
  - intros _ E. congruence.
  - intros Hw. destruct (ro_held _ (t_row _ _ T _ _ Hk) Hw) as [Hs' _]. rewrite Hst in Hs'.
    by in_cases Hs'.
Qed.

End Stop.

(** * The failing write *)

(** The tree below a failure and its ancestors: what [FailInstanceAndAncestors] writes,
    with the pause it applies when the failure is the first. *)
Definition poison (st : Status) (msg code : string) (now : Z) (cs : list string) (root : string) m : table :=
  let m1 := FailAncestors msg code now cs m in
  if poisonable st then stop_tree [StatusRunning] StatusPausing StatusPaused root now m1 else m1.

Lemma above_held_poison m k r r' msg code now root j : tree_ok m -> m !! k = Some r ->
  worker_id r' = None -> j ∉ call_stack r ->
  above_held (FailAncestors msg code now (call_stack r) (<[k := r']> m)) root j = above_held m root j.
Proof.
  intros T Hk Hw' Hj. apply eq_true_iff_eq. rewrite !above_held_iff. split.
  - intros (i & h & Hi & Hr & Hw & Hin). apply lookup_update_Some in Hi as (h0 & Hi & E).
    assert (Eh : r_spawn h = r_spawn h0 /\ r_lease h = r_lease h0) by (rewrite E; by destruct (_ && _)).
    destruct Eh as [E1 E2]. rewrite E1 in Hr, Hin. rewrite E2 in Hw.
    apply lookup_insert_Some in Hi as [[_ <-]|[_ Hi]]; [done|eauto 10].
  - intros (i & h & Hi & Hr & Hw & Hin). destruct (decide (i = k)) as [->|N]; [congruence|].
    assert (Hi' : <[k := r']> m !! i = Some h) by (by rewrite lookup_insert_ne).
    eexists i, _. unfold FailAncestors. rewrite lookup_update, Hi'. cbn. split; [done|].
    by destruct (_ && _).
Qed.

Lemma poison_commutes m k r r' st msg code now root : tree_ok m -> m !! k = Some r ->
  r_spawn r' = r_spawn r -> worker_id r' = None -> status r' = StatusFailed ->
  poison st msg code now (call_stack r) root (<[k := r']> m) =
  <[k := r']> (FailAncestors msg code now (call_stack r)
    (if poisonable st then stop_tree [StatusRunning] StatusPausing StatusPaused root now m else m)).
Proof.
  intros T Hk Es Hw' Hst. destruct (tree_key _ _ _ _ T Hk) as [Ek _].
  assert (Hself : id r' ∉ call_stack r).
  { rewrite Es, Ek. intros Hin. pose proof (anc_shorter _ _ _ _ _ _ T Hk Hin Hk). lia. }
  apply map_eq. intros j. unfold poison. destruct (decide (j = k)) as [->|N].
  - rewrite lookup_insert_eq.
    assert (E : FailAncestors msg code now (call_stack r) (<[k := r']> m) !! k = Some r').
    { unfold FailAncestors. rewrite lookup_update, lookup_insert_eq. cbn.
      unfold in_ids. by rewrite bool_decide_false. }
    destruct (poisonable st); [|done]. unfold stop_tree. rewrite lookup_update, E. cbn.
    rewrite Hst. cbn. by rewrite andb_false_r.
  - rewrite lookup_insert_ne by done.
    assert (E : FailAncestors msg code now (call_stack r) (<[k := r']> m) !! j =
                FailAncestors msg code now (call_stack r) m !! j).
    { unfold FailAncestors. by rewrite !lookup_update, lookup_insert_ne. }
    destruct (poisonable st); [|done]. unfold stop_tree at 1. rewrite lookup_update, E.
    unfold FailAncestors at 2 3, stop_tree. rewrite !lookup_update.
    destruct (m !! j) as [q|] eqn:Hj; [|done]. destruct (tree_key _ _ _ _ T Hj) as [Eq _].
    cbn. unfold in_ids.
    destruct (bool_decide (id q ∈ call_stack r)) eqn:Hin; cbn.
    + destruct (status q) eqn:Sq, (String.eqb (root_id q) root) eqn:Er; eval_in; rewrite ?Sq, ?Er; eval_in;
        rewrite ?Hin, ?Sq; eval_in; try done.
      by destruct (held q || above_held m root (id q)).
    + apply bool_decide_eq_false in Hin. rewrite (above_held_poison _ _ _ _ _ _ _ _ _ T Hk Hw' Hin).
      destruct (String.eqb (root_id q) root && _) eqn:Sel; cbn; by rewrite bool_decide_false.
Qed.

Lemma written_evolves k r r' m : tree_ok m -> m !! k = Some r -> worker_id r <> None ->
  r_spawn r' = r_spawn r -> worker_id r' = None -> lease_epoch r' = lease_epoch r ->
  evolves false m (<[k := r']> m).
Proof.
  intros T Hk Hw Es Hw' He. eapply evolves_insert; [done|].
  destruct (held_busy _ _ _ _ T Hk Hw) as [Hb _]. split; [done| | | |].
  - intros H. revert Hb H. by destruct (status r).
  - intros _ H. by rewrite H in Hb.
  - lia.
  - congruence.
Qed.

Lemma root_head x m k r : tree_ok_but x m -> m !! k = Some r -> root_id r = List.hd k (call_stack r).
Proof.
  intros T. remember (length (call_stack r)) as n eqn:En. revert k r En.
  induction n as [n IH] using lt_wf_ind. intros k r En Hk.
  destruct (decide (parent_id r = "")) as [E|N].
  - pose proof (t_shape _ _ T _ _ Hk) as (_ & _ & Sh). rewrite decide_True in Sh by done.
    destruct Sh as [-> ->]. done.
  - destruct (tree_parent _ _ _ _ T Hk N) as (p & Hp & Hc & Er & _).
    rewrite Hc, length_app in En. cbn in En.
    rewrite Er, Hc, (IH (length (call_stack p)) ltac:(lia) _ _ eq_refl Hp). by destruct (call_stack p).
Qed.

(** A held row under a pause of its tree. *)
Lemma paused_holder m k r root rest r0 now : tree_ok m -> m !! k = Some r -> worker_id r <> None ->
  call_stack r = root :: rest -> m !! root = Some r0 ->
  let m1 := if poisonable (status r0)
            then stop_tree [StatusRunning] StatusPausing StatusPaused root now m else m in
  tree_ok m1 /\ evolves false m m1 /\ same_spawn m m1 /\ exists r1, m1 !! k = Some r1 /\ restatus r r1 /\
    status r1 ∈ [StatusPausing; StatusCancelling].
Proof.
  intros T Hk Hw Hcs H0 m1. pose proof (root_head _ _ _ _ T Hk) as Er. rewrite Hcs in Er. cbn in Er.
  destruct (ro_held _ (t_row _ _ T _ _ Hk) Hw) as [Hs _].
  unfold m1. destruct (poisonable (status r0)) eqn:P.
  - split; [by apply pause_ok|]. split; [apply stop_evolves; [done|set_solver|done]|].
    split; [apply stop_spawn|]. destruct (rows_rel_at _ _ _ k r (stop_rows m root now [StatusRunning] StatusPausing StatusPaused) Hk)
      as (r1 & Hr1 & HR). exists r1. split; [done|]. split; [by eapply stop_restatus|].
    destruct HR as [(_ & _ & ->)|[N ->]].
    + cbn. rewrite (proj2 (held_spec r) Hw). cbn. set_solver.
    + in_cases Hs; rewrite Hs; [|set_solver..]. exfalso. apply N. rewrite Hs. set_solver.
  - split; [done|]. split; [apply evolves_refl|]. split; [done|]. exists r. split; [done|]. split; [done|].
    in_cases Hs; rewrite Hs; [|set_solver..]. exfalso. rewrite <- Er in H0.
    pose proof (root_up _ _ (fun q => status q = StatusRunning) T running_up k r r0 Hk Hs H0) as E.
    cbn in E. by rewrite E in P.
Qed.

(** The failing write with what it does to the tree, up to the wait of its parent. *)
Lemma poison_ok m k r r' root rest r0 msg code now : tree_ok m -> m !! k = Some r ->
  worker_id r <> None -> call_stack r = root :: rest -> m !! root = Some r0 ->
  r_spawn r' = r_spawn r -> worker_id r' = None -> lease_epoch r' = lease_epoch r ->
  superseded_at r' = superseded_at r -> status r' = StatusFailed -> phase r' <> PhaseChildren ->
  (forall j c, m !! j = Some c -> parent_id c = k -> status c ∈ [StatusCompleted; StatusRaised]) ->
  let m' := poison (status r0) msg code now (call_stack r) root (<[k := r']> m) in
  m' !! k = Some r' /\ tree_ok_but (parent_id r) m' /\ evolves false m m' /\
  (forall p, m' !! parent_id r = Some p ->
     spawn_task_id r = task p /\ parent_task_epoch r = task_epoch p).
Proof.
  intros T Hk Hw Hcs H0 Es Hw' Hle Esup Est Hph Hkids m'.
  unfold m'. rewrite (poison_commutes _ _ _ _ _ _ _ _ _ T Hk Es Hw' Est).
  destruct (paused_holder _ _ _ _ _ _ now T Hk Hw Hcs H0) as (T1 & E1 & S1 & r1 & Hr1 & R1 & Hs1).
  set (m1 := if poisonable (status r0) then _ else m) in *.
  assert (Ecs : call_stack r1 = call_stack r) by (by rewrite (rs_spawn _ _ R1)).
  assert (Hs1' : status r1 ∈ [StatusPausing; StatusFailing; StatusCancelling]) by set_solver.
  pose proof (fail_anc_ok m1 k r1 msg code now T1 Hr1 Hs1') as T2.
  pose proof (fail_anc_evolves m1 k r1 msg code now T1 Hr1 Hs1') as E2.
  pose proof (fail_rows m1 k r1 msg code now T1 Hr1 Hs1') as R2. rewrite Ecs in T2, E2, R2.
  set (m2 := FailAncestors msg code now (call_stack r) m1) in *.
  assert (E12 : evolves false m m2) by (by eapply evolves_trans).
  assert (Hr2 : m2 !! k = Some r1).
  { destruct (rows_rel_at _ _ _ _ _ R2 Hr1) as (r2 & Hr2 & [(Hin & _)|[_ ->]]); [|done].
    destruct (tree_key _ _ _ _ T1 Hr1) as [Ek _]. rewrite <- Ecs, Ek in Hin.
    pose proof (anc_shorter _ _ _ _ _ _ T1 Hr1 Hin Hr1). lia. }
  assert (Hw1 : worker_id r1 <> None) by (by rewrite (rs_lease _ _ R1)).
  assert (Es1 : r_spawn r' = r_spawn r1) by (by rewrite (rs_spawn _ _ R1)).
  assert (Hb1 : Busy (status r1) = true) by (clear -Hs1; by in_cases Hs1; rewrite Hs1).
  split; [by rewrite lookup_insert_eq|]. split; [|split].
  - replace (parent_id r) with (parent_id r1) by (by rewrite (rs_spawn _ _ R1)).
    apply (write_ok _ _ _ r1); try done.
    + by left.
    + by rewrite (rs_superseded _ _ R1).
    + intros p Hp Hok. rewrite Est.
      destruct (rows_rel_back _ _ _ _ _ R2 Hp) as (p1 & Hp1 & Hrel).
      assert (Hpin : id p1 ∈ call_stack r).
      { destruct (tree_key _ _ _ _ T1 Hp1) as [Ep Np]. rewrite Ep, <- Ecs.
        destruct (tree_parent _ _ _ _ T1 Hr1 Np) as (g & _ & -> & _). set_solver. }
      destruct Hrel as [(_ & _ & ->)|[N ->]]; [done|].
      assert (status p1 <> StatusPausing) by tauto. clear - Hok Hs1 H.
      by in_cases Hs1; rewrite Hs1 in Hok; destruct (status p1).
    + intros _. clear -Hs1. by in_cases Hs1; rewrite Hs1.
    + rewrite Est. auto.
    + intros j c Hj Hpar Hc. exfalso.
      destruct (same_spawn_lookup m m2 j c) as (c0 & Hc0 & Ec0); [|done|].
      { eapply same_spawn_trans; [done|]. by apply same_spawn_update. }
      rewrite Ec0 in Hpar. specialize (Hkids _ _ Hc0 Hpar).
      destruct (E12 _ _ Hc0) as (c' & Hc' & Ev). rewrite Hj in Hc'. injection Hc' as <-.
      pose proof (ev_settled _ _ _ Ev) as Set_. clear -Hkids Hc Set_. rewrite Hc in Set_.
      in_cases Hkids; rewrite Hkids in Set_; by specialize (Set_ eq_refl).
    + rewrite Est. done.
    + intros _. left. by rewrite Est.
  - eapply evolves_trans; [done|]. apply (written_evolves _ r1); try done. by rewrite (rs_lease _ _ R1).
  - intros p Hp. rewrite lookup_insert_ne in Hp by (intros E; by apply (not_own_parent _ _ _ _ T Hk)).
    replace (parent_id r) with (parent_id r1) in Hp by (by rewrite (rs_spawn _ _ R1)).
    pose proof (lk_batch _ _ (t_link _ _ T2 _ _ _ Hr2 Hp)) as B.
    rewrite child_of_eq in B. rewrite <- (rs_spawn _ _ R1). apply B. clear -Hs1.
    by in_cases Hs1; rewrite Hs1.
Qed.

End Drain.
