(* ===== verification/Verbs.v ===== *)
(** Every transaction of [Lifecycle] and [External] but the retry keeps the tree
    invariant, and changes rows only as [evolves] allows. *)
From Stdlib Require Import ZArith Lia String.
From stdpp Require Import sorting.
From S2P Require Import Prelude.
From S2P Require Import Instance.
From S2P Require Import Store.
From S2P Require Import Lifecycle.
From S2P Require Import External.
From S2P Require Import Tree.
From S2P Require Import Drain.
Open Scope string_scope.
Open Scope list_scope.
Open Scope Z_scope.

Module Verbs.
Import Instance Store Lifecycle External Tree Drain.

Implicit Types r p c h q : row.
Implicit Types m : table.
Implicit Types k : string.
Implicit Types g : ProcessInstance.

Lemma keeps_refl m : tree_ok m -> keeps false m m.
Proof. intros T. split; [done|]. apply extends_same; [done|apply evolves_refl]. Qed.

Lemma keeps_same retry m m' : tree_ok m' -> same_spawn m m' -> evolves retry m m' -> keeps retry m m'.
Proof. intros. split; [done|]. by apply extends_same. Qed.

(** * Reads *)

Lemma loadInstanceRow_Ok k r s s' : loadInstanceRow k s = Ok (r, s') <-> rows s !! k = Some r /\ s = s'.
Proof.
  unfold loadInstanceRow. rewrite query_bind. destruct (rows s !! k) as [q|].
  - rewrite ret_Ok. split; [by intros [-> ->]|by intros [[= ->] ->]].
  - split; [done|by intros [? _]].
Qed.

Lemma GetInstance_Ok k r s s' : GetInstance k s = Ok (r, s') <-> rows s !! k = Some r /\ s = s'.
Proof.
  unfold GetInstance. rewrite query_bind. destruct (rows s !! k) as [q|].
  - rewrite ret_Ok. split; [by intros [-> ->]|by intros [[= ->] ->]].
  - split; [done|by intros [? _]].
Qed.

Lemma GetInstanceStatus_Ok k st s s' :
  GetInstanceStatus k s = Ok (st, s') <-> exists r, rows s !! k = Some r /\ status r = st /\ s = s'.
Proof.
  unfold GetInstanceStatus. rewrite Tx_bind_Ok. split.
  - intros (r & s1 & [Hr ->]%GetInstance_Ok & [<- ->]%ret_Ok). eauto.
  - intros (r & Hr & <- & ->). exists r, s'. rewrite GetInstance_Ok, ret_Ok. done.
Qed.

Lemma requireRoot_Ok r u s s' : requireRoot r s = Ok (u, s') <-> parent_id r = "" /\ s = s'.
Proof.
  unfold requireRoot. destruct (String.eqb_spec (parent_id r) ""), u; [|by split; [|intros []]].
  rewrite ret_Ok. tauto.
Qed.

Lemma lifecycleResult_Ok k o n x s s' :
  lifecycleResult k o n s = Ok (x, s') ->
  s = s' /\ exists r, rows s !! k = Some r /\ x = mkResult o (status r) n.
Proof.
  unfold lifecycleResult. rewrite Tx_bind_Ok.
  intros (r & s1 & [Hr ->]%loadInstanceRow_Ok & [<- ->]%ret_Ok). eauto.
Qed.

Lemma refuseInTransition_Ok st u s s' :
  refuseInTransition st s = Ok (u, s') -> Draining st = false /\ s = s'.
Proof. destruct st; cbn; try done; by intros [= _ ->]. Qed.

(** * Pausing and cancelling *)

(** What a stop that went through did. *)
Lemma stopTree_Ok k v now x s s' : stopTree k v now s = Ok (x, s') ->
  exists r, rows s !! k = Some r /\ parent_id r = "" /\
    (s' = s \/ (Terminal (status r) = false /\ (status r = v_draining v \/ Draining (status r) = false) /\
       exists out, v_update v k now s = Ok (out, s'))).
Proof.
  unfold stopTree. rewrite Tx_bind_Ok. intros (r & s1 & [Hr ->]%loadInstanceRow_Ok & H).
  rewrite Tx_bind_Ok in H. destruct H as (u & s2 & [Hp ->]%requireRoot_Ok & H).
  rewrite Tx_bind_Ok in H. destruct H as (st & s3 & (r' & Hr' & <- & ->)%GetInstanceStatus_Ok & H).
  rewrite Hr in Hr'. injection Hr' as <-. exists r. split; [done|]. split; [done|].
  rewrite Tx_bind_Ok in H. destruct H as (out & s4 & Hout & H).
  assert (E : s' = s4).
  { destruct out; apply lifecycleResult_Ok in H as [<- _]; done. }
  subst s4. destruct (Terminal (status r)) eqn:Ht.
  - apply ret_Ok in Hout as [_ <-]. by left.
  - right. split; [done|]. rewrite Tx_bind_Ok in Hout. destruct Hout as (u' & s5 & Hg & Hup).
    case_bool_decide as B.
    + apply ret_Ok in Hg as [_ <-]. split; [by left|eauto].
    + apply refuseInTransition_Ok in Hg as [Hd <-]. split; [by right|eauto].
Qed.

Lemma PauseProcess_keeps k now x s s' : tree_ok (rows s) -> PauseProcess k now s = Ok (x, s') ->
  keeps false (rows s) (rows s') /\ signals s' = signals s.
Proof.
  intros T (r & Hr & _ & [->|(_ & _ & out & H)])%stopTree_Ok; [by split; [apply keeps_refl|]|].
  cbn in H. unfold PauseTree in H. tx_inv. subst. cbn. split; [|done].
  apply keeps_same; [by apply pause_ok|apply stop_spawn|apply stop_evolves; [done|set_solver|done]].
Qed.

Lemma root_self x m k r : tree_ok_but x m -> m !! k = Some r -> parent_id r = "" -> root_id r = k.
Proof.
  intros T Hk E. pose proof (t_shape _ _ T _ _ Hk) as (_ & _ & Sh). rewrite decide_True in Sh by done. apply Sh.
Qed.

(** A tree under a cancelling root has nothing left to cancel. *)
Lemma cancelled_tree m k r now : tree_ok m -> m !! k = Some r -> parent_id r = "" ->
  status r = StatusCancelling ->
  stop_tree [StatusRunning; StatusPaused] StatusCancelling StatusCancelled k now m = m.
Proof.
  intros T Hk E Hs. pose proof (root_self _ _ _ _ T Hk E) as Er.
  apply map_eq. intros j. unfold stop_tree. rewrite lookup_update.
  destruct (m !! j) as [q|] eqn:Hj; [|done]. cbn.
  destruct (String.eqb_spec (root_id q) k) as [Eq|]; [|done]. cbn. rewrite <- Eq in Hk.
  case_bool_decide as B; [exfalso|done]. in_cases B.
  - pose proof (root_up _ _ (fun q => status q = StatusRunning) T running_up j q r Hj B Hk) as U.
    cbn in U. congruence.
  - pose proof (t_paused _ _ T _ _ _ Hj B Hk) as U. by rewrite Hs in U.
Qed.

Lemma CancelProcess_keeps k now x s s' : tree_ok (rows s) -> CancelProcess k now s = Ok (x, s') ->
  keeps false (rows s) (rows s') /\ signals s' = signals s.
Proof.
  intros T (r & Hr & Hp & [->|(Ht & Hd & out & H)])%stopTree_Ok; [by split; [apply keeps_refl|]|].
  cbn in H, Hd. unfold CancelTree in H. tx_inv. subst. cbn. split; [|done].
  destruct (decide (status r = StatusCancelling)) as [E|N].
  - rewrite (cancelled_tree _ _ _ _ T Hr Hp E). by apply keeps_refl.
  - destruct Hd as [|Hd]; [done|].
    apply keeps_same; [|apply stop_spawn|apply stop_evolves; [done|set_solver|done]].
    apply (cancel_ok _ _ _ T r); [done|by eapply root_self|]. destruct (status r); try done; set_solver.
Qed.

(** * Resuming *)

Lemma ResumeProcess_keeps k now x s s' : tree_ok (rows s) -> ResumeProcess k now s = Ok (x, s') ->
  keeps false (rows s) (rows s') /\ signals s' = signals s.
Proof.
  intros T. unfold ResumeProcess. rewrite Tx_bind_Ok. intros (r & s1 & [Hr ->]%loadInstanceRow_Ok & H).
  rewrite Tx_bind_Ok in H. destruct H as (u & s2 & [Hp ->]%requireRoot_Ok & H).
  rewrite query_bind in H. rewrite Tx_bind_Ok in H.
  destruct H as (st & s3 & (r' & Hr' & <- & ->)%GetInstanceStatus_Ok & H).
  rewrite Hr in Hr'. injection Hr' as <-.
  rewrite Tx_bind_Ok in H. destruct H as (u' & s4 & [Hd ->]%refuseInTransition_Ok & H).
  set (sel := fun r : row => bool_decide (status r = StatusPaused)) in *.
  pose proof (fun j q => in_ids_matching _ _ (fun r : row => String.eqb (root_id r) k && sel r)
    (lockTree sel k (rows s4)) j q T) as Hids.
  destruct (lockTree sel k (rows s4)) as [|q0 qs] eqn:El; cbn [map] in H.
  - destruct (Terminal (status r)); [done|]. apply lifecycleResult_Ok in H as [<- _].
    by split; [apply keeps_refl|].
  - case_bool_decide as B; [done|]. unfold updateStatusIn in H. rewrite exec_bind in H.
    apply lifecycleResult_Ok in H as [<- _]. cbn [rows signals]. split; [|done].
    pose proof (root_self _ _ _ _ T Hr Hp) as Er.
    assert (Hs : status r = StatusPaused).
    { assert (Hin : q0 ∈ lockTree sel k (rows s4)) by (rewrite El; left).
      apply elem_of_lockTree, elem_of_matching in Hin as [Hsel [j Hj]].
      apply andb_prop in Hsel as [Eq Hq]. apply String.eqb_eq in Eq. apply bool_decide_eq_true in Hq.
      rewrite <- Eq in Hr. pose proof (t_paused _ _ T _ _ _ Hj Hq Hr) as P. clear -P B Hd.
      by destruct (status r). }
    assert (Hsel : forall j q, rows s4 !! j = Some q ->
      in_ids (map (fun r : row => id r) (q0 :: qs)) q = String.eqb (root_id q) k && sel q).
    { intros j q Hj. apply (Hids j q Hj). intros q'. rewrite <- El. apply elem_of_lockTree. }
    apply keeps_same; [by apply (resume_ok _ k _ T r)|by apply same_spawn_update|].
    by apply (resume_evolves _ k _ T r).
Qed.

(** * Grants *)

(** What a grant's conclusion may be: [advance] of internal/engine/advance.go concludes a
    running instance, lands a pending pause (or, interrupted, resolves it) and lands a
    cancel. *)
Definition concludes (g s' : Status) : bool :=
  match g with
  | StatusRunning => bool_decide (s' ∈ [StatusCompleted; StatusFailed; StatusRaised])
  | StatusPausing => bool_decide (s' ∈ [StatusPaused; StatusCompleted; StatusFailed; StatusRaised])
  | StatusCancelling => bool_decide (s' = StatusCancelled)
  | _ => false
  end.

(** What stays true of a grant for as long as its row still carries it. *)
Record fl_ok (m : table) (g : ProcessInstance) : Prop := mkFl {
  fl_worker : exists w, worker_id g = Some w /\ w <> "";
  fl_row : exists r : row, m !! id g = Some r /\ r_spawn r = r_spawn g /\
    lease_epoch g <= lease_epoch r /\
    (worker_id r <> None -> lease_epoch r = lease_epoch g ->
       worker_id r = worker_id g /\ task r = task g /\ task_epoch r = task_epoch g /\
       since (status g) (status r) = true /\
       (status g ∈ [StatusRunning; StatusPausing] -> forall j c, m !! j = Some c ->
          parent_id c = id g -> status c ∈ [StatusCompleted; StatusRaised])) }.

Lemma fl_ok_extends retry m m' g : fl_ok m g -> extends retry m m' -> fl_ok m' g.
Proof.
  intros [Hw (r & Hr & Es & Hle & Hg)] [Ev Hnew]. split; [done|].
  destruct (Ev _ _ Hr) as (r' & Hr' & E). exists r'. split; [done|].
  split; [by rewrite (ev_spawn _ _ _ E)|]. split; [pose proof (ev_epoch _ _ _ E); lia|].
  intros Hw' He. pose proof (ev_epoch _ _ _ E) as Hep.
  destruct (ev_grant _ _ _ E Hw') as (W & Tk & Ep & Si); [lia|].
  destruct Hg as (W0 & Tk0 & Ep0 & Si0 & Hkids); [congruence|lia|].
  split_and!; try congruence; [by eapply since_trans|].
  intros Hs j c' Hj Hpar. destruct (m !! j) as [c|] eqn:Hc.
  - destruct (Ev _ _ Hc) as (c'' & Hc'' & Ec). rewrite Hj in Hc''. injection Hc'' as <-.
    rewrite (ev_spawn _ _ _ Ec) in Hpar. specialize (Hkids Hs _ _ Hc Hpar).
    rewrite (ev_settled _ _ _ Ec); [done|]. by in_cases Hkids; rewrite Hkids.
  - destruct (Hnew _ _ Hj Hc) as [_ Hp]. exfalso. apply Hw', Hp. by rewrite Hpar.
Qed.

(** * The holder's writes *)

Lemma fenced_held (i : row) r w : worker_id i = Some w -> w <> "" -> fenced i r = true ->
  id r = id i /\ lease_epoch r = lease_epoch i /\ worker_id r = Some w.
Proof.
  intros Hw Hne. unfold fenced. rewrite !andb_true_iff, Z.eqb_eq, String.eqb_eq. unfold has_id.
  rewrite String.eqb_eq, Hw. intros [[? ?] E]. split_and!; try done.
  destruct (worker_id r) as [w'|]; cbn in E; congruence.
Qed.

(** An execrows on the fence: nothing matched, or the one row was replaced. *)
Lemma fenced_write f (i : row) n s s' : keyed (rows s) -> execrows (fenced i) f s = Ok (n, s') ->
  (n = 0 /\ s' = s) \/
  (n <> 0 /\ exists r, rows s !! id i = Some r /\ fenced i r = true /\
     s' = mkDB (<[id i := f r]> (rows s)) (signals s)).
Proof.
  intros T [-> ->]%execrows_Ok.
  assert (E : update_rows (fenced i) f (rows s) =
    match rows s !! id i with
    | Some r => if (lease_epoch (r : row) =? lease_epoch i) && String.eqb (fenceWorker (worker_id r))
                     (fenceWorker (worker_id i)) then <[id i := f r]> (rows s) else rows s
    | None => rows s end).
  { rewrite <- (update_keyed _ (id i) _ f T). unfold update_rows. apply map_fmap_ext. intros j r _.
    unfold fenced. by rewrite andb_assoc. }
  assert (F : forall r : row, rows s !! id i = Some r -> fenced i r =
    ((lease_epoch r =? lease_epoch i) && String.eqb (fenceWorker (worker_id r)) (fenceWorker (worker_id i)))).
  { intros r Hr. pose proof (T _ _ Hr) as Er. unfold fenced, has_id.
    by rewrite Er, String.eqb_refl. }
  destruct (decide (count (fenced i) (rows s) = 0)) as [Z0|N].
  - left. split; [done|]. rewrite E. destruct s as [m sg]. cbn in *. f_equal.
    destruct (m !! id i) as [r|] eqn:Hr; [|done].
    rewrite <- (F r eq_refl). by rewrite (proj1 (count_zero _ _) Z0 _ _ Hr).
  - right. split; [done|]. assert (P : 0 < count (fenced i) (rows s)) by (pose proof (count_nonneg (fenced i) (rows s)); lia).
    apply count_pos in P as (j & r & Hj & Hf). pose proof (T _ _ Hj) as Er.
    assert (Ej : j = id i).
    { unfold fenced, has_id in Hf. rewrite !andb_true_iff, String.eqb_eq in Hf.
      destruct Hf as [[? _] _]. congruence. }
    rewrite Ej in Hj. exists r. split; [done|]. split; [done|]. rewrite E, Hj, <- (F r Hj), Hf. done.
Qed.

Lemma persistState_Ok i u s s' : persistState i s = Ok (u, s') -> rows s' = rows s.
Proof.
  unfold persistState. destruct (String.eqb _ _); [by intros [_ <-]%ret_Ok|]. by intros [= _ <-].
Qed.

Lemma requireFenced_Ok n u s s' : requireFenced n s = Ok (u, s') -> n <> 0 /\ s = s'.
Proof. unfold requireFenced. destruct (Z.eqb_spec n 0); [done|]. by intros [_ <-]%ret_Ok. Qed.

(** A nonroot row heads no tree. *)
Lemma tree_root x m k r j q : tree_ok_but x m -> m !! k = Some r -> m !! j = Some q -> root_id q = k ->
  parent_id r = "".
Proof.
  intros T Hk Hj E. destruct (decide (parent_id r = "")) as [|N]; [done|exfalso].
  rewrite <- E in Hk. pose proof (root_root _ _ _ _ _ T Hj Hk) as Er. rewrite E in *.
  pose proof (root_head _ _ _ _ T Hk) as Hh. rewrite Er in Hh.
  destruct (tree_parent _ _ _ _ T Hk N) as (p & _ & Hc & _).
  assert (Hin : k ∈ call_stack r).
  { destruct (call_stack r) as [|a l]; [by destruct (call_stack p)|]. cbn in Hh. subst. left. }
  pose proof (anc_shorter _ _ _ _ _ _ T Hk Hin Hk). lia.
Qed.

(** What the children of a root hand down reaches every row below it. *)
Lemma descend x m (Q : row -> Prop) k : tree_ok_but x m ->
  (forall r p, link_ok r p -> Q p -> Q r) ->
  (forall j c, m !! j = Some c -> parent_id c = k -> Q c) -> k <> "" ->
  forall j q, m !! j = Some q -> root_id q = k -> j <> k -> Q q.
Proof.
  intros T HQ Hkids Hne j q. remember (length (call_stack q)) as n eqn:En. revert j q En.
  induction n as [n IH] using lt_wf_ind. intros j q En Hj Hr N.
  destruct (decide (parent_id q = "")) as [E|Np].
  - by rewrite (root_self _ _ _ _ T Hj E) in Hr.
  - destruct (decide (parent_id q = k)) as [E|Nk]; [by eapply Hkids|].
    destruct (tree_parent _ _ _ _ T Hj Np) as (p & Hp & Hc & Er & _).
    apply (HQ q p); [by apply (t_link _ _ T j)|].
    apply (IH (length (call_stack p))) with (j := parent_id q); try done; [|congruence].
    rewrite En, Hc, length_app. cbn. lia.
Qed.

Lemma concluded_down r p : link_ok r p -> status p ∈ [StatusCompleted; StatusRaised] ->
  status r ∈ [StatusCompleted; StatusRaised].
Proof.
  intros [L _ _] H. in_cases H; rewrite H in L; destruct (status r); try done; set_solver.
Qed.

(** The row a grant still holds, and what the holder may make of it. *)
Record held_by (m : table) (g : ProcessInstance) (r : row) : Prop := mkHeldBy {
  hb_row : m !! id g = Some r;
  hb_spawn : r_spawn r = r_spawn g;
  hb_held : worker_id r <> None;
  hb_epoch : lease_epoch r = lease_epoch g;
  hb_since : since (status g) (status r) = true;
  hb_kids : status g ∈ [StatusRunning; StatusPausing] -> forall j c, m !! j = Some c ->
    parent_id c = id g -> status c ∈ [StatusCompleted; StatusRaised] }.

Record released (r r' : row) : Prop := mkReleased {
  rl_spawn : r_spawn r' = r_spawn r;
  rl_free : worker_id r' = None;
  rl_epoch : lease_epoch r' = lease_epoch r;
  rl_superseded : superseded_at r' = superseded_at r;
  rl_phase : phase r' <> PhaseChildren }.

(** The status a holder leaves on its row. *)
Definition written (g old new : Status) : Prop :=
  (new = old /\ g ∈ [StatusRunning; StatusPausing]) \/ concludes g new = true.

Lemma holder_write_ok y m g r r' : tree_ok m -> held_by m g r -> released r r' ->
  written (status g) (status r) (status r') -> y = parent_id r \/ status r' = status r ->
  (status r' = StatusFailed -> parent_id r = "") ->
  tree_ok_but y (<[id g := r']> m).
Proof.
  intros T [Hr Es0 Hw _ Hsi Hkids] [Es Ew He Esup Eph] Hwr Hy Hfail.
  destruct (ro_held _ (t_row _ _ T _ _ Hr) Hw) as [Hs _].
  assert (Hg : status g ∈ [StatusRunning; StatusPausing; StatusCancelling]).
  { destruct Hwr as [[_ H]|H]; [set_solver|]. destruct (status g); try done; set_solver. }
  apply (write_ok y _ _ r); try done.
  - intros p Hp Hok. destruct Hwr as [[-> _]|Hc]; [done|].
    assert (N : status r' <> StatusFailed).
    { intros E. rewrite (Hfail E) in Hp. by apply (tree_key _ _ _ _ T Hp). }
    clear -Hc N Hok Hsi Hg. in_cases Hg; rewrite Hg in *; destruct (status r), (status r'); try done.
    all: by destruct (status p).
  - intros _. clear -Hs. by in_cases Hs; rewrite Hs.
  - destruct Hwr as [[-> _]|Hc]; [in_cases Hs; auto|].
    do 3 right. clear -Hc Hg. by in_cases Hg; rewrite Hg in Hc; destruct (status r').
  - intros j c Hj Hpar Hc. destruct (decide (status g = StatusCancelling)) as [Eg|Ng].
    + destruct Hwr as [[-> H]|H].
      * rewrite Eg in H. in_cases H; done.
      * rewrite Eg in H. right. by destruct (status r').
    + exfalso. assert (Hg' : status g ∈ [StatusRunning; StatusPausing]).
      { in_cases Hg; rewrite Hg in *; try done; set_solver. }
      specialize (Hkids Hg' _ _ Hj Hpar). rewrite Hc in Hkids. by in_cases Hkids.
  - intros E. rewrite E in Hwr. destruct Hwr as [[E' _]|Hc].
    + rewrite <- E' in Hs. by in_cases Hs.
    + clear -Hc Hsi Hg. by in_cases Hg; rewrite Hg in *; destruct (status r).
  - intros Hp. destruct Hwr as [[-> _]|Hc]; [by left|]. right. intros j q Hj Hroot N.
    assert (Hg' : status g ∈ [StatusRunning; StatusPausing]).
    { clear -Hg Hp Hsi. in_cases Hg; rewrite Hg in *; try set_solver. by destruct (status r). }
    destruct (tree_key _ _ _ _ T Hr) as [_ Hne].
    pose proof (descend _ _ (fun q => status q ∈ [StatusCompleted; StatusRaised]) (id g) T concluded_down
      (Hkids Hg') Hne j q Hj Hroot N) as D. cbn in D. intros E. rewrite E in D. by in_cases D.
Qed.

Lemma fl_held m g r : fl_ok m g -> m !! id g = Some r -> fenced g r = true -> held_by m g r.
Proof.
  intros [(w & Hw & Hne) (r0 & Hr & Es & Hle & Hg)] Hk Hf. rewrite Hk in Hr. injection Hr as <-.
  destruct (fenced_held _ _ _ Hw Hne Hf) as (_ & He & Hwr).
  destruct Hg as (_ & _ & _ & Hsi & Hkids); [congruence|done|]. split; try done; congruence.
Qed.

(** What the engine may change of the instance it was granted, and must not. *)
Record advanced (g i : ProcessInstance) : Prop := mkAdvanced {
  ad_spawn : r_spawn i = r_spawn g;
  ad_worker : worker_id i = worker_id g;
  ad_epoch : lease_epoch i = lease_epoch g;
  ad_phase : phase i <> PhaseChildren }.

Lemma advanced_fenced g i r : advanced g i -> fenced i r = fenced g r.
Proof. intros [Es Ew Ee _]. unfold fenced. by rewrite Es, Ew, Ee. Qed.

(** A fenced write that went through wrote the row of its grant. *)
Lemma holder_fenced m g (i : ProcessInstance) f n s s' : tree_ok m -> fl_ok m g -> advanced g i -> rows s = m -> n <> 0 ->
  execrows (fenced i) f s = Ok (n, s') ->
  exists r, held_by m g r /\ s' = mkDB (<[id g := f r]> m) (signals s).
Proof.
  intros T F A <- Hn H. apply fenced_write in H; [|by eapply tree_keyed].
  destruct H as [[? _]|(_ & r & Hr & Hf & ->)]; [done|].
  assert (Ei : id i = id g) by (by rewrite (ad_spawn _ _ A)). rewrite Ei in *.
  exists r. split; [|done]. apply fl_held; [done..|]. by rewrite <- (advanced_fenced _ _ _ A).
Qed.

Lemma update_released g i r now : advanced g i -> released r (update_set i now r).
Proof. intros A. split; try done. apply A. Qed.

Lemma progress_released g i r now : advanced g i -> released r (progress_set i now r).
Proof. intros A. split; try done. apply A. Qed.

Lemma keep_stop_running st : st ∈ [StatusRunning; StatusPausing; StatusCancelling] ->
  keep_stop st StatusRunning = st.
Proof. intros H. by in_cases H; subst. Qed.

Lemma concludes_keep (g : Status) st s' : concludes g s' = true -> keep_stop st s' = s'.
Proof. unfold keep_stop. destruct g, s'; try done; by rewrite andb_false_r. Qed.

(** What an outcome may ask of [UpdateInstance]: to go on, or to conclude. *)
Definition goes_on (g : ProcessInstance) (st : Status) : Prop :=
  status g ∈ [StatusRunning; StatusPausing] /\ st = StatusRunning.

Lemma update_written m g (i : ProcessInstance) r now : tree_ok m -> held_by m g r ->
  goes_on g (status i) \/ concludes (status g) (status i) = true ->
  written (status g) (status r) (status (update_set i now r)) /\
  (status (update_set i now r) = status r \/ status (update_set i now r) = status i).
Proof.
  intros T H [[Hg Ei]|Hc]; cbn.
  - destruct (ro_held _ (t_row _ _ T _ _ (hb_row _ _ _ H)) (hb_held _ _ _ H)) as [Hs _].
    rewrite Ei, keep_stop_running by done. split; [by left|by left].
  - rewrite (concludes_keep _ _ _ Hc). split; [by right|by right].
Qed.

Lemma released_moves m g r r' : tree_ok m -> held_by m g r -> released r r' ->
  moves false m (<[id g := r']> m).
Proof.
  intros T H [Es Ew Ee _ _]. split.
  - by apply (same_spawn_insert _ _ r); [apply H|].
  - apply (written_evolves _ r); try done; apply H.
Qed.

(** The grant is used up: its row is free, or was granted again. *)
Definition spent (m : table) (g : ProcessInstance) : Prop :=
  forall r, m !! id g = Some r -> worker_id r = None \/ lease_epoch g < lease_epoch r.

Lemma spent_evolves retry m m' g r : m !! id g = Some r -> lease_epoch g <= lease_epoch r ->
  spent m g -> evolves retry m m' -> spent m' g.
Proof.
  intros Hr Hle Hsp Ev r' Hr'. destruct (Ev _ _ Hr) as (r2 & Hr2 & E).
  rewrite Hr' in Hr2. injection Hr2 as <-. pose proof (ev_epoch _ _ _ E) as He.
  destruct (Hsp r Hr) as [Hw|Hlt]; [|right; lia].
  destruct (worker_id r') as [w|] eqn:W; [|by left].
  destruct (Z.eq_dec (lease_epoch r') (lease_epoch r)) as [Eq|N]; [|right; lia].
  destruct (ev_grant _ _ _ E) as [Hx _]; [congruence|done|]. congruence.
Qed.

(** A write under a grant: the row was held under it, and the grant is used up. *)
Record wrote (m m' : table) (g : ProcessInstance) : Prop := mkWrote {
  wr_keeps : keeps false m m';
  wr_held : exists r, held_by m g r;
  wr_spent : spent m' g }.

Lemma wrote_row m g r r' : tree_ok m -> held_by m g r -> released r r' -> tree_ok (<[id g := r']> m) ->
  wrote m (<[id g := r']> m) g.
Proof.
  intros T H Hrl T'. split.
  - apply moves_keeps; [done|by apply (released_moves _ _ r)].
  - by exists r.
  - intros q Hq. rewrite lookup_insert_eq in Hq. injection Hq as <-. left. apply Hrl.
Qed.

(** [UpdateInstance], where no parent is to be told. *)
Lemma UpdateInstance_keeps g i now u s s' : tree_ok (rows s) -> fl_ok (rows s) g -> advanced g i ->
  goes_on g (status i) \/ (concludes (status g) (status i) = true /\ parent_id i = "") ->
  UpdateInstance i now s = Ok (u, s') -> wrote (rows s) (rows s') g.
Proof.
  intros T F A Hst H. unfold UpdateInstance in H.
  rewrite Tx_bind_Ok in H. destruct H as (u1 & s1 & Hp%persistState_Ok & H).
  rewrite Tx_bind_Ok in H. destruct H as (n & s2 & Hn & [Hne <-]%requireFenced_Ok).
  destruct (holder_fenced _ _ _ _ _ _ _ T F A Hp Hne Hn) as (r & Hr & ->). cbn.
  assert (Hst' : goes_on g (status i) \/ concludes (status g) (status i) = true) by tauto.
  destruct (update_written _ _ _ _ now T Hr Hst') as [Hw Hor].
  pose proof (update_released g i r now A) as Hrl.
  apply (wrote_row _ _ r); [done..|].
  assert (Hpar : parent_id i = parent_id r).
  { rewrite (ad_spawn _ _ A). by rewrite (hb_spawn _ _ _ Hr). }
  apply (holder_write_ok "" _ _ r _ T Hr Hrl Hw).
  - destruct Hst as [[Hg Ei]|[_ E]]; [right|left; congruence]. cbn. rewrite Ei.
    apply keep_stop_running. apply (ro_held _ (t_row _ _ T _ _ (hb_row _ _ _ Hr)) (hb_held _ _ _ Hr)).
  - intros Ef. destruct Hst as [[Hg Ei]|[_ E]]; [|congruence]. exfalso. cbn in Ef. rewrite Ei in Ef.
    destruct (ro_held _ (t_row _ _ T _ _ (hb_row _ _ _ Hr)) (hb_held _ _ _ Hr)) as [Hs _].
    rewrite keep_stop_running in Ef by done. rewrite Ef in Hs. by in_cases Hs.
Qed.

(** [UpdateInstanceProgress] never writes the status. *)
Lemma UpdateInstanceProgress_keeps g i now u s s' : tree_ok (rows s) -> fl_ok (rows s) g -> advanced g i ->
  status g = StatusRunning ->
  UpdateInstanceProgress i now s = Ok (u, s') -> wrote (rows s) (rows s') g.
Proof.
  intros T F A Hg H. unfold UpdateInstanceProgress in H.
  rewrite Tx_bind_Ok in H. destruct H as (u1 & s1 & Hp%persistState_Ok & H).
  rewrite Tx_bind_Ok in H. destruct H as (n & s2 & Hn & [Hne <-]%requireFenced_Ok).
  destruct (holder_fenced _ _ _ _ _ _ _ T F A Hp Hne Hn) as (r & Hr & ->). cbn.
  pose proof (progress_released g i r now A) as Hrl.
  apply (wrote_row _ _ r); [done..|].
  apply (holder_write_ok "" _ _ r _ T Hr Hrl).
  - left. split; [done|]. rewrite Hg. set_solver.
  - by right.
  - intros E. cbn in E. destruct (ro_held _ (t_row _ _ T _ _ (hb_row _ _ _ Hr)) (hb_held _ _ _ Hr)) as [Hs _].
    rewrite E in Hs. by in_cases Hs.
Qed.

(** * Concluding a child *)

Lemma child_tx_Ok {A} fuel scope (body : lockScope -> Tx A) s res :
  child_tx fuel scope body s = Ok res -> exists scope', body scope' s = Ok res.
Proof.
  revert scope. induction fuel as [|fuel IH]; intros scope H; cbn in H;
    destruct (body scope s) as [[x s1]|[]] eqn:E; try done; eauto; try (by rewrite <- H; eauto).
  destruct (_ <? _); [eauto|done].
Qed.

(** A write that left only the wait of the parent to settle. *)
Record settle_ready (m m1 : table) (g : ProcessInstance) (i r' : row) : Prop := mkReady {
  sr_row : m1 !! id g = Some r';
  sr_tree : tree_ok_but (parent_id i) m1;
  sr_moves : moves false m m1;
  sr_batch : forall p, m1 !! parent_id i = Some p ->
    spawn_task_id i = task p /\ parent_task_epoch i = task_epoch p }.

(** The settle-up after such a write comes to an end, and ends well. *)
Lemma settle_ready_ok m m1 g r r' (i : row) now sg : held_by m g r -> released r r' ->
  settle_ready m m1 g i r' ->
  exists out s', settleUp i now (mkDB m1 sg) = Ok (out, s') /\ wrote m (rows s') g /\
    evolves false m1 (rows s').
Proof.
  intros Hr Hrl [Hr' T Mv Hp].
  destruct (settleUp_ok i now (mkDB m1 sg) T (fun p Hk _ => Hp p Hk)) as (out & s' & E & T2 & Mv2 & _).
  exists out, s'. split; [done|]. split; [|by apply Mv2]. split; [|by exists r|].
  - apply moves_keeps; [done|]. by eapply moves_trans.
  - apply (spent_evolves false m1 _ _ r'); [done| | |apply Mv2].
    + rewrite (rl_epoch _ _ Hrl), (hb_epoch _ _ _ Hr). lia.
    + intros q Hq. rewrite Hr' in Hq. injection Hq as <-. left. apply Hrl.
Qed.

Lemma settled_wrote m m1 g r r' (i : row) now out sg s' : held_by m g r -> released r r' ->
  settle_ready m m1 g i r' -> settleUp i now (mkDB m1 sg) = Ok (out, s') -> wrote m (rows s') g.
Proof.
  intros Hr Hrl R H. destruct (settle_ready_ok _ _ _ _ _ _ now sg Hr Hrl R) as (out' & s2 & E & W & _).
  rewrite H in E. by injection E as _ <-.
Qed.

Lemma finish_ready m g i r now : tree_ok m -> held_by m g r -> advanced g i ->
  concludes (status g) (status i) = true -> status i <> StatusFailed ->
  settle_ready m (<[id g := update_set i now r]> m) g i (update_set i now r).
Proof.
  intros T Hr A Hc Hnf. pose proof (update_released g i r now A) as Hrl.
  destruct (update_written _ _ _ _ now T Hr (or_intror Hc)) as [Hw _].
  assert (Ei : r_spawn i = r_spawn r) by (by rewrite (ad_spawn _ _ A), (hb_spawn _ _ _ Hr)).
  split; [by rewrite lookup_insert_eq| | |].
  - replace (parent_id i) with (parent_id r) by (by rewrite Ei).
    apply (holder_write_ok _ _ _ r _ T Hr Hrl Hw); [by left|].
    cbn. rewrite (concludes_keep _ _ _ Hc). done.
  - by apply (released_moves _ _ r).
  - rewrite Ei. intros p Hpp.
    rewrite lookup_insert_ne in Hpp by (intros E; by apply (not_own_parent _ _ _ _ T (hb_row _ _ _ Hr))).
    pose proof (lk_batch _ _ (t_link _ _ T _ _ _ (hb_row _ _ _ Hr) Hpp)) as B.
    rewrite child_of_eq in B. apply B.
    destruct (held_busy _ _ _ _ T (hb_row _ _ _ Hr) (hb_held _ _ _ Hr)) as [Hb _].
    clear -Hb. by destruct (status r).
Qed.

Lemma FinishChild_keeps g i pg now u s s' : tree_ok (rows s) -> fl_ok (rows s) g -> advanced g i ->
  concludes (status g) (status i) = true -> status i <> StatusFailed ->
  FinishChild pg i now s = Ok (u, s') -> wrote (rows s) (rows s') g.
Proof.
  intros T F A Hc Hnf H. unfold FinishChild in H. destruct (String.eqb_spec (parent_id i) "") as [E|N].
  { apply (UpdateInstance_keeps g i now u); try done. by right. }
  rewrite Tx_bind_Ok in H. destruct H as (out & s1 & H & [_ <-]%ret_Ok).
  apply child_tx_Ok in H as [scope H]. unfold finish_body in H. rewrite query_bind in H.
  destruct (match rows s !! parent_id i with Some p => _ | None => false end); [done|].
  rewrite Tx_bind_Ok in H. destruct H as (u1 & s2 & Hp%persistState_Ok & H).
  rewrite Tx_bind_Ok in H. destruct H as (n & s3 & Hn & H).
  rewrite Tx_bind_Ok in H. destruct H as (u2 & s4 & [Hne <-]%requireFenced_Ok & H).
  destruct (holder_fenced _ _ _ _ _ _ _ T F A Hp Hne Hn) as (r & Hr & ->).
  eapply (settled_wrote _ _ _ r); [done|by eapply update_released|by apply finish_ready|exact H].
Qed.

(** A granted child has a root above it. *)
Lemma tree_stack m g i : tree_ok m -> fl_ok m g -> advanced g i -> parent_id i <> "" ->
  exists root rest, call_stack i = root :: rest.
Proof.
  intros T [_ (r & Hr & Es & _)] A N. assert (Ei : r_spawn i = r_spawn r) by (by rewrite (ad_spawn _ _ A)).
  rewrite Ei in N |- *. destruct (tree_parent _ _ _ _ T Hr N) as (p & _ & -> & _).
  destruct (call_stack p); cbn; eauto.
Qed.

Lemma poison_spawn st msg code now cs root m : same_spawn m (poison st msg code now cs root m).
Proof.
  unfold poison. destruct (poisonable _); [eapply same_spawn_trans; [|apply stop_spawn]|];
    by apply same_spawn_update.
Qed.

(** The poisoning after the write of a failed child. *)
Lemma fail_ready m g i r root rest r0 now : tree_ok m -> held_by m g r -> advanced g i ->
  concludes (status g) (status i) = true -> status i = StatusFailed ->
  call_stack i = root :: rest -> m !! root = Some r0 ->
  settle_ready m (poison (status r0) (error_message i) (error_code i) now (root :: rest) root
      (<[id g := update_set i now r]> m)) g i (update_set i now r).
Proof.
  intros T Hr A Hc Hf Hcs H0. pose proof (update_released g i r now A) as [Rs Rf Re Rsup Rph].
  assert (Ei : r_spawn i = r_spawn r) by (by rewrite (ad_spawn _ _ A), (hb_spawn _ _ _ Hr)).
  destruct (poison_ok m (id g) r (update_set i now r) root rest r0 (error_message i) (error_code i) now)
    as (Hrow & T' & Ev & Hpar); try done; try apply Hr.
  { by rewrite <- Ei. }
  { cbn. by rewrite (concludes_keep _ _ _ Hc). }
  { clear -Hc Hf. rewrite Hf in Hc. destruct (status g); try done; set_solver. }
  rewrite <- Ei, Hcs in Hrow, T', Ev, Hpar. split; try done.
  split; [|done]. eapply same_spawn_trans; [|apply poison_spawn].
  exact (same_spawn_insert _ _ r (update_set i now r) (hb_row _ _ _ Hr) Rs).
Qed.

Lemma fail_body_keeps g i scope now out s s' : tree_ok (rows s) -> fl_ok (rows s) g -> advanced g i ->
  concludes (status g) (status i) = true -> status i = StatusFailed -> parent_id i <> "" ->
  fail_body i now scope s = Ok (out, s') -> wrote (rows s) (rows s') g.
Proof.
  intros T F A Hc Hf Hnp H. unfold fail_body in H.
  destruct (tree_stack _ _ _ T F A Hnp) as (root & rest & Hcs).
  rewrite Hcs in H.
  rewrite Tx_bind_Ok in H. destruct H as (poisons & s0 & Hpo & H).
  unfold poisons_tree in Hpo. rewrite Hcs in Hpo.
  rewrite Tx_bind_Ok in Hpo. destruct Hpo as (st & s0' & (r0 & H0 & <- & ->)%GetInstanceStatus_Ok & [<- ->]%ret_Ok).
  destruct (poisonable _ && _); [done|].
  rewrite Tx_bind_Ok in H. destruct H as (u1 & s2 & Hp%persistState_Ok & H).
  rewrite Tx_bind_Ok in H. destruct H as (n & s3 & Hn & H).
  rewrite Tx_bind_Ok in H. destruct H as (u2 & s4 & [Hne <-]%requireFenced_Ok & H).
  destruct (holder_fenced _ _ _ _ _ _ _ T F A Hp Hne Hn) as (r & Hr & ->).
  rewrite exec_bind in H. cbn [rows signals] in H.
  rewrite Tx_bind_Ok in H. destruct H as (paused & s5 & Hpa & H).
  rewrite Tx_bind_Ok in H. destruct H as (sett & s6 & Hset & [_ <-]%ret_Ok).
  assert (E5 : s5 = mkDB (poison (status r0) (error_message i) (error_code i) now (root :: rest) root
                           (<[id g := update_set i now r]> (rows s0))) (signals s2)).
  { unfold poison. destruct (poisonable _).
    - unfold PauseTree in Hpa. tx_inv. by subst.
    - by apply ret_Ok in Hpa as [_ <-]. }
  rewrite E5 in Hset.
  eapply (settled_wrote _ _ _ r); [done|by eapply update_released|by eapply fail_ready|exact Hset].
Qed.

Lemma FailInstanceAndAncestors_keeps g i pg now u s s' : tree_ok (rows s) -> fl_ok (rows s) g ->
  advanced g i -> concludes (status g) (status i) = true -> status i = StatusFailed ->
  parent_id i <> "" ->
  FailInstanceAndAncestors pg i now s = Ok (u, s') -> wrote (rows s) (rows s') g.
Proof.
  intros T F A Hc Hf Hnp H. unfold FailInstanceAndAncestors in H.
  rewrite Tx_bind_Ok in H. destruct H as (out & s1 & H & [_ <-]%ret_Ok).
  apply child_tx_Ok in H as [scope H]. by eapply fail_body_keeps.
Qed.

Lemma saveAndNotify_keeps g i pg now u s s' : tree_ok (rows s) -> fl_ok (rows s) g -> advanced g i ->
  concludes (status g) (status i) = true ->
  saveAndNotify pg i now s = Ok (u, s') -> wrote (rows s) (rows s') g.
Proof.
  intros T F A Hc. unfold saveAndNotify. destruct (String.eqb_spec (parent_id i) "").
  - apply (UpdateInstance_keeps g); auto.
  - case_bool_decide; [by apply (FailInstanceAndAncestors_keeps g)|by apply (FinishChild_keeps g)].
Qed.

(** * Changes that touch neither status nor lease *)

Record inert (r r' : row) : Prop := mkInert {
  in_spawn : r_spawn r' = r_spawn r;
  in_task : task r' = task r;
  in_epoch : task_epoch r' = task_epoch r;
  in_status : status r' = status r;
  in_phase : phase r' = phase r \/ (phase r <> PhaseChildren /\ phase r' = PhaseNone);
  in_worker : worker_id r' = worker_id r;
  in_lease : lease_epoch r' = lease_epoch r;
  in_superseded : superseded_at r' = superseded_at r \/ status r = StatusRaised }.

Lemma inert_refl r : inert r r.
Proof. split; auto. Qed.

Lemma inert_children r r' : inert r r' ->
  phase r' = PhaseChildren <-> phase r = PhaseChildren.
Proof. intros [_ _ _ _ [->|[? ->]] _ _ _]; split; done. Qed.

Lemma rows_inert_spawn m m' : rows_rel inert m m' -> same_spawn m m'.
Proof.
  intros HR k. specialize (HR k). destruct (m !! k), (m' !! k); try done. cbn. by rewrite (in_spawn _ _ HR).
Qed.

Lemma inert_keeps m m' : tree_ok m -> rows_rel inert m m' -> keeps false m m'.
Proof.
  intros T HR.
  pose proof (rows_inert_spawn _ _ HR) as Hs.
  assert (At : forall k r r', m !! k = Some r -> m' !! k = Some r' -> inert r r').
  { intros k r r' Hr Hr'. specialize (HR k). by rewrite Hr, Hr' in HR. }
  pose proof inert_children as Ch.
  apply keeps_same; [|done|].
  - apply (tree_ok_same_spawn _ m); [done..| | | |].
    + intros k r r' Hr Hr'. pose proof (At _ _ _ Hr Hr') as I. pose proof (t_row _ _ T _ _ Hr) as [Rh Rf Rs].
      split; rewrite ?(in_worker _ _ I), (in_status _ _ I), ?(Ch _ _ I); auto.
      intros N. destruct (in_superseded _ _ I) as [E|]; [|done]. apply Rs. by rewrite <- E.
    + intros k r r' p p' Hr Hr' Hp Hp' [Lp Lb Lw].
      pose proof (At _ _ _ Hr Hr') as Ir. pose proof (At _ _ _ Hp Hp') as Ip.
      split; rewrite ?(in_status _ _ Ir), ?(in_status _ _ Ip), ?(Ch _ _ Ip); [done| |done].
      intros B. specialize (Lb B). rewrite child_of_eq in *.
      by rewrite (in_spawn _ _ Ir), (in_spawn _ _ Ip), (in_task _ _ Ip), (in_epoch _ _ Ip).
    + intros k p p' Hk Hp Hp' Hw. pose proof (At _ _ _ Hp Hp') as Ip. unfold wait_ok.
      rewrite (Ch _ _ Ip), (in_status _ _ Ip). intros Hph Ht.
      destruct (Hw Hph Ht) as (i & c & Hi & Hc & Htc & Hb).
      destruct (rows_rel_at _ _ _ _ _ HR Hi) as (c' & Hi' & Ic). exists i, c'. split; [done|].
      rewrite (in_status _ _ Ic). split; [|done]. rewrite child_of_eq in *.
      by rewrite (in_spawn _ _ Ic), (in_spawn _ _ Ip), (in_task _ _ Ip), (in_epoch _ _ Ip).
    + intros k r r' r0 r0' Hr Hr' H0 H0'. rewrite (in_status _ _ (At _ _ _ Hr Hr')),
        (in_status _ _ (At _ _ _ H0 H0')). intros. by apply (t_paused _ _ T k r).
  - apply (rows_rel_evolves _ _ _ _ HR). intros k r r' Hr I.
    split; rewrite ?(in_status _ _ I), ?(in_lease _ _ I), ?(in_worker _ _ I), ?(in_task _ _ I),
      ?(in_epoch _ _ I); auto; [apply I|lia|]. intros _ _. by rewrite since_refl.
Qed.

Lemma inert_trans a b c : inert a b -> inert b c -> inert a c.
Proof.
  intros [S1 T1 E1 St1 P1 W1 L1 U1] [S2 T2 E2 St2 P2 W2 L2 U2].
  split; try congruence.
  - destruct P1 as [P1|[P1 P1']], P2 as [P2|[P2 P2']]; rewrite ?P1, ?P1' in *; auto.
  - destruct U1 as [U1|U1], U2 as [U2|U2]; rewrite ?St1 in *; auto. left. congruence.
Qed.

Lemma rows_inert_refl m : rows_rel inert m m.
Proof. intros k. destruct (m !! k); [apply inert_refl|done]. Qed.

Lemma rows_inert_trans m1 m2 m3 : rows_rel inert m1 m2 -> rows_rel inert m2 m3 -> rows_rel inert m1 m3.
Proof.
  intros H1 H2 k. specialize (H1 k). specialize (H2 k).
  destruct (m1 !! k), (m2 !! k), (m3 !! k); try done. by eapply inert_trans.
Qed.

(** An update whose every write is inert on the rows it selects. *)
Lemma inert_update (sel : row -> bool) (f : row -> row) m :
  (forall k r, m !! k = Some r -> sel r = true -> inert r (f r)) -> rows_rel inert m (update_rows sel f m).
Proof.
  intros H. apply rows_rel_update. intros k r Hk. destruct (sel r) eqn:E; [eauto|apply inert_refl].
Qed.

Lemma unpark_inert now r : phase r = PhaseExternal -> inert r (unparked now r).
Proof. intros H. split; cbn; auto. right. by rewrite H. Qed.

Lemma set_claim_inert (cl : claim_cols) r : inert r (set_claim cl r).
Proof. split; cbn; auto. Qed.

(** * Signals and external claims *)

Lemma UnparkExternal_inert x m k r now : tree_ok_but x m -> m !! k = Some r -> phase r = PhaseExternal ->
  rows_rel inert m (UnparkExternal now k m).
Proof.
  intros T Hk Hp. apply inert_update. intros j q Hj Hq. unfold has_id in Hq.
  apply String.eqb_eq in Hq. destruct (tree_key _ _ _ _ T Hj) as [Ej _].
  assert (E : j = k) by congruence. rewrite E, Hk in Hj. injection Hj as <-. by apply unpark_inert.
Qed.

Lemma InsertSignal_Ok sg u s s' : InsertSignal sg s = Ok (u, s') -> rows s' = rows s.
Proof. by intros [= _ <-]. Qed.

Lemma DeliverSignal_keeps k t out sid seq now b s s' : tree_ok (rows s) ->
  DeliverSignal k t out sid seq now s = Ok (b, s') -> keeps false (rows s) (rows s').
Proof.
  intros T H. unfold DeliverSignal in H. rewrite query_bind in H.
  destruct (rows s !! k) as [r|] eqn:Hk; [|done]. destruct (negb _); [done|].
  rewrite Tx_bind_Ok in H. destruct H as (u & s1 & Es%InsertSignal_Ok & H).
  rewrite Tx_bind_Ok in H. destruct H as (u2 & s2 & H & [_ <-]%ret_Ok).
  rewrite <- Es in *. apply inert_keeps; [done|].
  destruct (_ && _) eqn:B; [|by apply ret_Ok in H as [_ <-]; apply rows_inert_refl].
  apply exec_Ok in H. subst. cbn. apply (UnparkExternal_inert "" _ _ r); [done..|].
  rewrite !andb_true_iff, bool_decide_eq_true in B. tauto.
Qed.

Lemma ResolveExternalTask_keeps k epoch claim out sid seq now u s s' : tree_ok (rows s) ->
  ResolveExternalTask k epoch claim out sid seq now s = Ok (u, s') -> keeps false (rows s) (rows s').
Proof.
  intros T H. unfold ResolveExternalTask in H. rewrite query_bind in H.
  destruct (rows s !! k) as [r|] eqn:Hk; [|done].
  destruct (_ || _) eqn:B; [done|]. destruct (live _ _ _); [done|]. destruct (negb (_ =? _)); [done|].
  destruct (negb (binding_ok _ _ _ _ _)); [done|].
  rewrite Tx_bind_Ok in H. destruct H as (u1 & s1 & Es%InsertSignal_Ok & H). apply exec_Ok in H. subst.
  rewrite <- Es in *. apply inert_keeps; [done|]. cbn. apply (UnparkExternal_inert "" _ _ r); [done..|].
  apply orb_false_iff in B as [_ B]. apply negb_false_iff, bool_decide_eq_true in B. done.
Qed.

Lemma UnparkAnswered_inert now ids out s s' : UnparkAnsweredExternal now ids s = Ok (out, s') ->
  rows_rel inert (rows s) (rows s').
Proof.
  intros [= _ <-]. cbn. apply inert_update. intros k r _ H. apply unpark_inert.
  unfold answered in H. rewrite !andb_true_iff, !bool_decide_eq_true in H. tauto.
Qed.

Lemma ClaimExternalTasks_keeps w dur limit pn pv tsk now out s s' : tree_ok (rows s) ->
  ClaimExternalTasks w dur limit pn pv tsk now s = Ok (out, s') -> keeps false (rows s) (rows s').
Proof.
  intros T H. apply inert_keeps; [done|]. unfold ClaimExternalTasks in H. rewrite query_bind in H.
  destruct (map _ _) as [|k0 ks] eqn:E.
  - apply ret_Ok in H as [_ <-]. apply rows_inert_refl.
  - rewrite Tx_bind_Ok in H. destruct H as (gone & s1 & H1%UnparkAnswered_inert & H).
    destruct (List.filter _ _) as [|r0 rs].
    + by apply ret_Ok in H as [_ <-].
    + rewrite Tx_bind_Ok in H. destruct H as (u & s2 & H2 & [_ <-]%ret_Ok). apply exec_Ok in H2. subst s2.
      eapply rows_inert_trans; [done|]. apply inert_update. intros. apply set_claim_inert.
Qed.

Lemma RenewExternalClaims_keeps w claims expiry out s s' : tree_ok (rows s) ->
  RenewExternalClaims w claims expiry s = Ok (out, s') -> keeps false (rows s) (rows s').
Proof.
  intros T H. apply inert_keeps; [done|]. clear T. revert out s s' H.
  induction claims as [|cl claims IH]; intros out s s' H; cbn in H.
  - apply ret_Ok in H as [_ <-]. apply rows_inert_refl.
  - rewrite Tx_bind_Ok in H. destruct H as (v & s1 & H1 & H).
    rewrite Tx_bind_Ok in H. destruct H as (vs & s2 & H2%IH & [_ <-]%ret_Ok).
    eapply rows_inert_trans; [|done]. unfold renew_one in H1. rewrite Tx_bind_Ok in H1.
    destruct H1 as (n & s3 & [_ ->]%execrows_Ok & H1). destruct (n =? 1).
    + apply ret_Ok in H1 as [_ <-]. apply inert_update. intros. apply set_claim_inert.
    + rewrite query_bind in H1. apply ret_Ok in H1 as [_ <-]. apply inert_update. intros. apply set_claim_inert.
Qed.

Lemma ReleaseExternalClaim_keeps k te ce now u s s' : tree_ok (rows s) ->
  ReleaseExternalClaim k te ce now s = Ok (u, s') -> keeps false (rows s) (rows s').
Proof.
  intros T H. apply inert_keeps; [done|]. unfold ReleaseExternalClaim in H. rewrite Tx_bind_Ok in H.
  destruct H as (n & s1 & [_ ->]%execrows_Ok & H). destruct (n =? 0); [done|].
  rewrite Tx_bind_Ok in H. destruct H as (o & s2 & H2%UnparkAnswered_inert & [_ <-]%ret_Ok).
  eapply rows_inert_trans; [|exact H2]. apply inert_update. intros. apply set_claim_inert.
Qed.

Lemma MarkExternalClaimLost_keeps k te now u s s' : tree_ok (rows s) ->
  MarkExternalClaimLost k te now s = Ok (u, s') -> keeps false (rows s) (rows s').
Proof.
  intros T H. apply inert_keeps; [done|]. unfold MarkExternalClaimLost in H. rewrite Tx_bind_Ok in H.
  destruct H as (n & s1 & [_ ->]%execrows_Ok & H). destruct (n =? 0); [done|].
  apply ret_Ok in H as [_ <-]. apply inert_update. intros. split; cbn; auto.
Qed.

(** * Leases *)

Lemma RenewWorkerLeases_keeps w ids dur now t s s' : tree_ok (rows s) ->
  RenewWorkerLeases w ids dur now s = Ok (t, s') -> keeps false (rows s) (rows s').
Proof.
  intros T H. apply inert_keeps; [done|]. clear T. unfold RenewWorkerLeases in H. rewrite query_bind in H.
  rewrite Tx_bind_Ok in H. destruct H as (u & s1 & H & [_ <-]%ret_Ok). revert H.
  generalize (S (size (rows s))). intros fuel. revert s.
  induction fuel as [|fuel IH]; intros s H; cbn in H; [done|].
  rewrite Tx_bind_Ok in H. destruct H as (n & s2 & H2 & H).
  unfold RenewWorkerLeasesChunk in H2. rewrite query_bind, exec_bind in H2.
  apply ret_Ok in H2 as [_ <-].
  eapply rows_inert_trans; [|destruct (n <? _); [apply ret_Ok in H as [_ <-]; apply rows_inert_refl|exact (IH _ H)]].
  apply inert_update. intros. split; cbn; auto.
Qed.

(** A grant: the lease alone changes, on rows a worker may hold. *)
Definition grant_of (worker : string) (expires : Z) (r : row) : row :=
  set_lease (mkLease (Some worker) (Some expires) (lease_epoch r + 1)) r.

Lemma grant_keeps m worker expires ids : tree_ok m ->
  (forall k r, m !! k = Some r -> in_ids ids r = true ->
     status r ∈ [StatusRunning; StatusPausing; StatusCancelling] /\ phase r <> PhaseChildren) ->
  keeps false m (GrantLeases worker expires ids m).
Proof.
  intros T Hids. set (m' := GrantLeases worker expires ids m).
  assert (HR : rows_rel (fun r r' => r' = r \/ (r' = grant_of worker expires r /\
    status r ∈ [StatusRunning; StatusPausing; StatusCancelling] /\ phase r <> PhaseChildren)) m m').
  { apply rows_rel_update. intros k r Hk. destruct (in_ids ids r) eqn:E; [right|by left].
    split; [done|eauto]. }
  assert (At : forall k r r', m !! k = Some r -> m' !! k = Some r' -> r' = r \/ (r' = grant_of worker expires r /\
    status r ∈ [StatusRunning; StatusPausing; StatusCancelling] /\ phase r <> PhaseChildren)).
  { intros k r r' Hr Hr'. specialize (HR k). by rewrite Hr, Hr' in HR. }
  apply keeps_same; [|by apply same_spawn_update|].
  - apply (tree_ok_same_spawn _ m); [done|by apply same_spawn_update| | | |].
    + intros k r r' Hr Hr'. pose proof (t_row _ _ T _ _ Hr) as [Rh Rf Rs].
      destruct (At _ _ _ Hr Hr') as [->|(-> & Hs & Hp)]; [done|]. split; cbn; auto.
    + intros k r r' p p' Hr Hr' Hp Hp' [Lp Lb Lw].
      by destruct (At _ _ _ Hr Hr') as [->|(-> & _)], (At _ _ _ Hp Hp') as [->|(-> & _)].
    + intros k p p' _ Hp Hp' Hw Hph Ht.
      assert (Hw' : wait_ok m p') by (by destruct (At _ _ _ Hp Hp') as [->|(-> & _)]).
      destruct (Hw' Hph Ht) as (i & c & Hi & Hc & Htc & Hb).
      destruct (rows_rel_at _ _ _ _ _ HR Hi) as (c' & Hi' & _). exists i, c'. split; [done|].
      by destruct (At _ _ _ Hi Hi') as [->|(-> & _)].
    + intros k r r' r0 r0' Hr Hr' H0 H0' Hst. pose proof (t_paused _ _ T k r r0 Hr) as P.
      by destruct (At _ _ _ Hr Hr') as [->|(-> & _)], (At _ _ _ H0 H0') as [->|(-> & _)]; apply P.
  - apply (rows_rel_evolves _ _ _ _ HR). intros k r r' Hr [->|(-> & _)]; [apply evolves1_refl|].
    split; cbn; auto; [lia|]. intros _ E. lia.
Qed.

Lemma claimable_held now cutoff r : claimable now cutoff r = true ->
  status r ∈ [StatusRunning; StatusPausing; StatusCancelling] /\ phase r <> PhaseChildren.
Proof.
  unfold claimable. rewrite !andb_true_iff, bool_decide_eq_true, negb_true_iff, bool_decide_eq_false. tauto.
Qed.

Lemma claim_candidates now cutoff limit m q :
  q ∈ take limit (merge_sort oldest_first (matching (claimable now cutoff) m)) ->
  claimable now cutoff q = true /\ exists k, m !! k = Some q.
Proof.
  intros H. apply elem_of_take in H as (n & H & _). apply list_elem_of_lookup_2 in H.
  rewrite merge_sort_Permutation in H. by apply elem_of_matching in H.
Qed.

(** [ClaimInstances]: the invariant stands, and each grant it hands out is good. *)
Lemma ClaimInstances_keeps worker dur limit cutoff now out s s' : tree_ok (rows s) -> worker <> "" ->
  ClaimInstances worker dur limit cutoff now s = Ok (out, s') ->
  keeps false (rows s) (rows s') /\ forall g, g ∈ out -> fl_ok (rows s') g.
Proof.
  intros T Hne H. unfold ClaimInstances in H. rewrite query_bind in H.
  set (cand := take limit _) in *.
  assert (Hc : forall q, q ∈ cand -> claimable now cutoff q = true /\ exists k, rows s !! k = Some q)
    by (intros q; apply claim_candidates).
  destruct cand as [|q0 qs] eqn:Ec.
  { apply ret_Ok in H as [<- <-]. split; [by apply keeps_refl|]. intros g Hg. by apply elem_of_nil in Hg. }
  rewrite exec_bind in H. apply ret_Ok in H as [<- <-]. cbn [rows].
  assert (Hids : forall k r, rows s !! k = Some r ->
    in_ids (map (fun r : row => id r) (q0 :: qs)) r = true -> r ∈ q0 :: qs).
  { intros k r Hk Hin. unfold in_ids in Hin. apply bool_decide_eq_true, list_elem_of_In, List.in_map_iff in Hin.
    destruct Hin as (q & E & Hq). apply list_elem_of_In in Hq. destruct (Hc q Hq) as [_ [j Hj]].
    destruct (tree_key _ _ _ _ T Hj) as [Ej _]. destruct (tree_key _ _ _ _ T Hk) as [Ek _].
    assert (Ekj : k = j) by congruence. rewrite Ekj, Hj in Hk. by injection Hk as <-. }
  split.
  - apply grant_keeps; [done|]. intros k r Hk Hin. apply (claimable_held now cutoff).
    apply (Hc r), (Hids k r Hk Hin).
  - intros g Hg. apply list_elem_of_In, List.in_map_iff in Hg as (q & <- & Hq). apply list_elem_of_In in Hq.
    destruct (Hc q Hq) as [Hcl [j Hj]]. destruct (tree_key _ _ _ _ T Hj) as [Ej _].
    split; [by exists worker|].
    assert (Hrow : GrantLeases worker (now + dur) (map (fun r : row => id r) (q0 :: qs)) (rows s) !! j =
      Some (grant_of worker (now + dur) q)).
    { unfold GrantLeases. rewrite lookup_update, Hj. cbn [fmap option_fmap option_map].
      replace (in_ids _ q) with true; [done|]. symmetry. unfold in_ids. apply bool_decide_eq_true.
      apply list_elem_of_In, List.in_map_iff. exists q. split; [done|]. by apply list_elem_of_In. }
    exists (grant_of worker (now + dur) q).
    change (id (granted worker (now + dur) q)) with (id q). rewrite Ej. split; [done|]. split; [done|]. split; [cbn; lia|]. intros _ _.
    split; [done|]. split; [done|]. split; [done|]. split; [apply since_refl|]. cbn.
    intros Hs i c Hi Hpar.
    apply lookup_update_Some in Hi as (c0 & Hi & Ec0).
    assert (Est : status c = status c0 /\ parent_id c = parent_id c0)
      by (rewrite Ec0; by destruct (in_ids _ _)).
    destruct Est as [-> Epar]. rewrite Epar in Hpar.
    destruct (claimable_held _ _ _ Hcl) as [_ Hph]. rewrite <- Hpar in Hj.
    destruct (t_link _ _ T _ _ _ Hi Hj) as [L _ A].
    assert (Aw : awaited (status c0) (status q) = false) by (apply not_true_is_false; auto).
    clear -Hs L Aw. in_cases Hs; rewrite Hs in *; destruct (status c0); try done; set_solver.
Qed.

(** * Arming an external wait *)

Lemma ArmExternal_keeps g i t input wake now b s s' : tree_ok (rows s) -> fl_ok (rows s) g ->
  advanced g i -> goes_on g (status i) ->
  ArmExternalUnlessSignalled i t input wake now s = Ok (b, s') -> wrote (rows s) (rows s') g.
Proof.
  intros T F A Hg H. unfold ArmExternalUnlessSignalled in H. rewrite query_bind in H.
  destruct (rows s !! id i) as [r0|]; [|done]. rewrite Tx_bind_Ok in H.
  destruct H as (sg & s1 & E & H). injection E as _ <-.
  assert (Hs : forall r, held_by (rows s) g r -> keep_stop (status r) (status i) = status r).
  { intros r Hr. destruct Hg as [_ ->]. apply keep_stop_running.
    apply (ro_held _ (t_row _ _ T _ _ (hb_row _ _ _ Hr)) (hb_held _ _ _ Hr)). }
  assert (Hgo : forall (f : row -> row), (forall r, held_by (rows s) g r -> released r (f r) /\ status (f r) = status r) ->
    forall r, held_by (rows s) g r -> wrote (rows s) (<[id g := f r]> (rows s)) g).
  { intros f Hf r Hr. destruct (Hf r Hr) as [Hrl Est]. apply (wrote_row _ _ r); [done..|].
    apply (holder_write_ok "" _ _ r _ T Hr Hrl); [|by right|].
    - left. split; [done|apply Hg].
    - rewrite Est. intros Ef. destruct (held_busy _ _ _ _ T (hb_row _ _ _ Hr) (hb_held _ _ _ Hr)) as [Hb _].
      by rewrite Ef in Hb. }
  destruct sg as [sg|]; rewrite Tx_bind_Ok in H; destruct H as (u1 & s2 & Hp%persistState_Ok & H);
    rewrite Tx_bind_Ok in H; destruct H as (n & s3 & Hn & H); rewrite Tx_bind_Ok in H;
    destruct H as (u2 & s4 & [Hne <-]%requireFenced_Ok & [_ <-]%ret_Ok).
  - set (i' := mkInstance _ _ _) in Hn. assert (A' : advanced g i') by (split; try done; apply A).
    destruct (holder_fenced _ _ _ _ _ _ _ T F A' Hp Hne Hn) as (r & Hr & ->). cbn [rows].
    apply (Hgo (progress_set i' now)); [|done]. intros q Hq. split; [by apply (progress_released g)|done].
  - set (i' := mkInstance _ _ _) in Hn. assert (A' : advanced g i') by (split; try done; apply A).
    destruct (holder_fenced _ _ _ _ _ _ _ T F A' Hp Hne Hn) as (r & Hr & ->). cbn [rows].
    apply (Hgo (update_set i' now)); [|done]. intros q Hq. split; [by apply (update_released g)|]. by apply Hs.
Qed.

(** * New rows *)

Lemma root_exists x m k r : tree_ok_but x m -> m !! k = Some r -> is_Some (m !! root_id r).
Proof.
  intros T Hk. rewrite (root_head _ _ _ _ T Hk). destruct (call_stack r) as [|a l] eqn:E; [by exists r|].
  destruct (anc_up _ _ (fun _ => True) T (fun _ _ _ _ => I) k r a Hk I) as (p & Hp & _); [rewrite E; left|].
  by exists p.
Qed.

(** A row added below a waiting row of its status, or as a root. *)
Lemma insert_ok x m c : tree_ok_but x m -> m !! id c = None -> id c <> "" ->
  worker_id c = None -> superseded_at c = None -> phase c <> PhaseChildren ->
  status c ∈ [StatusRunning; StatusPausing; StatusCancelling] ->
  shape_ok m (id c) c -> (parent_id c = "" -> status c = StatusRunning) ->
  (forall p, m !! parent_id c = Some p -> child_of p c /\ phase p = PhaseChildren /\
     status p = status c) ->
  tree_ok_but x (<[id c := c]> m).
Proof.
  intros T Hn Hne Hw Hsup Hph Hs Hshape Hroot Hpar.
  assert (Hkeep : forall k r, m !! k = Some r -> <[id c := c]> m !! k = Some r).
  { intros k r Hk. rewrite lookup_insert_ne; [done|]. intros E. congruence. }
  assert (Hshape' : forall k r, shape_ok m k r -> shape_ok (<[id c := c]> m) k r).
  { intros k r (E & Hk & H). split; [done|]. split; [done|].
    destruct (decide (parent_id r = "")); [done|]. destruct H as (p & Hp & ?). exists p. by split; [apply Hkeep|]. }
  assert (Hnp : forall k r, m !! k = Some r -> parent_id r <> id c).
  { intros k r Hk E. destruct (decide (parent_id r = "")) as [E0|N]; [congruence|].
    destruct (tree_parent _ _ _ _ T Hk N) as (p & Hp & _). congruence. }
  split.
  - intros k r Hk. apply lookup_insert_Some in Hk as [[<- <-]|[_ Hk]]; [by apply Hshape'|].
    apply Hshape'. by apply (t_shape _ _ T).
  - intros k r Hk. apply lookup_insert_Some in Hk as [[<- <-]|[_ Hk]]; [|by apply (t_row _ _ T k)].
    split; [by rewrite Hw| |by rewrite Hsup]. intros E. rewrite E in Hs. by in_cases Hs.
  - intros k r p Hk Hp. apply lookup_insert_Some in Hk as [[<- <-]|[Hne' Hk]].
    + apply lookup_insert_Some in Hp as [[E <-]|[_ Hp]].
      * exfalso. destruct Hshape as (_ & _ & Hsh). rewrite decide_False in Hsh by congruence.
        destruct Hsh as (p & Hp & _). congruence.
      * destruct (Hpar _ Hp) as (Hc & Hpp & Es). split; rewrite ?Es; auto.
        by in_cases Hs; rewrite Hs.
    + rewrite lookup_insert_ne in Hp by (intros E; by apply (Hnp _ _ Hk)). by apply (t_link _ _ T k).
  - intros k p Hk Hp. apply lookup_insert_Some in Hp as [[<- <-]|[_ Hp]]; [intros ?; done|].
    intros Hpp Ht. destruct (t_wait _ _ T _ _ Hk Hp Hpp Ht) as (i & q & Hi & Hq). exists i, q.
    by split; [apply Hkeep|].
  - intros k r r0 Hk Hst H0. apply lookup_insert_Some in Hk as [[<- <-]|[Hne' Hk]].
    + rewrite Hst in Hs. by in_cases Hs.
    + destruct (root_exists _ _ _ _ T Hk) as [q0 Hq0]. rewrite lookup_insert_ne in H0 by congruence.
      by apply (t_paused _ _ T k r).
Qed.

(** A new root instance, as its creation saves it. *)
Definition new_root (i : ProcessInstance) : Prop :=
  id i <> "" /\ parent_id i = "" /\ call_stack i = [] /\ status i = StatusRunning /\ phase i <> PhaseChildren.

Lemma InsertInstance_Ok r u s s' : InsertInstance r s = Ok (u, s') ->
  rows s !! id r = None /\
  s' = mkDB (<[id r := with_root (derived_root (rows s) r) r]> (rows s)) (signals s).
Proof.
  unfold InsertInstance. rewrite query_bind. destruct (rows s !! id r); [done|]. by intros ->%exec_Ok.
Qed.

Lemma SaveInstance_keeps i now u s s' : tree_ok (rows s) -> new_root i ->
  SaveInstance i now s = Ok (u, s') -> keeps false (rows s) (rows s').
Proof.
  intros T (Hid & Hp & Hcs & Hst & Hph) H. unfold SaveInstance in H.
  rewrite Tx_bind_Ok in H. destruct H as (u1 & s1 & Hs%persistState_Ok & H).
  apply InsertInstance_Ok in H as [Hn ->]. rewrite Hs in *. cbn [rows].
  set (r := insert_row i (status i) now now) in *.
  assert (Hpn : rows s !! "" = None).
  { destruct (rows s !! "") as [q|] eqn:E; [|done]. by apply (tree_key _ _ _ _ T) in E as [_ ?]. }
  assert (Er : derived_root (rows s) r = id i) by (unfold derived_root; cbn; by rewrite Hp, Hpn).
  rewrite Er. split.
  - apply (insert_ok "" (rows s) (with_root (id i) r)); try done.
    + cbn. rewrite Hst. set_solver.
    + split; [done|]. split; [done|]. cbn. by rewrite decide_True.
    + cbn. intros p Hpp. rewrite Hp in Hpp. congruence.
  - split.
    + intros k q Hk. exists q. split; [|apply evolves1_refl]. rewrite lookup_insert_ne; [done|].
      cbn. intros E. cbn in Hn. congruence.
    + intros k r' Hk Hnone. apply lookup_insert_Some in Hk as [[<- <-]|[_ Hk]]; [|congruence].
      split; [done|]. intros p' Hpp. cbn in Hpp. rewrite Hp in Hpp.
      rewrite lookup_insert_ne in Hpp; [congruence|]. done.
Qed.

(** * Spawning *)

(** A child as [newChildInstance] of internal/engine/child.go builds it. *)
Record child_for (i c : ProcessInstance) : Prop := mkChildFor {
  cf_id : id c <> "";
  cf_parent : parent_id c = id i;
  cf_stack : call_stack c = call_stack i ++ [id i];
  cf_task : spawn_task_id c = task i;
  cf_epoch : parent_task_epoch c = task_epoch i;
  cf_phase : phase c = PhaseNone }.

Section Spawn.
(** The parent [i] is about to park as [r'] on the row [r0], in status [st]. *)
Context (i : ProcessInstance) (r0 r' : row) (st : Status).
Context (Hspawn : r_spawn r' = r_spawn r0) (Hi : r_spawn i = r_spawn r0) (Htask : task i <> "").
Context (Hwork : task r' = task i /\ task_epoch r' = task_epoch i) (Hphase : phase r' = PhaseChildren).
Context (Hst : status r' = st) (Hbusy : st ∈ [StatusRunning; StatusPausing; StatusCancelling]).

Lemma inserted_child m (c : ProcessInstance) ts : m !! id i = Some r0 -> tree_ok_but (id i) (<[id i := r']> m) ->
  child_for i c -> m !! id c = None ->
  let cr := with_root (derived_root m (insert_row c st ts ts)) (insert_row c st ts ts) in
  tree_ok_but (id i) (<[id i := r']> (<[id c := cr]> m)) /\ child_of r' cr.
Proof using All.
  intros Hk T [Cid Cp Cs Ct Ce Cph] Hn cr.
  assert (Hne : id c <> id i) by (intros E; congruence).
  assert (Er : id r' = id i) by (by rewrite Hspawn, Hi).
  assert (Hc : child_of r' cr).
  { apply child_of_eq. destruct Hwork as [-> ->]. cbn. rewrite Cp, Ct, Ce, Er. done. }
  assert (Ed : derived_root m (insert_row c st ts ts) = root_id r0) by (unfold derived_root; cbn; by rewrite Cp, Hk).
  split; [|done]. rewrite insert_insert_ne by done.
  apply (insert_ok (id i) (<[id i := r']> m) cr); try done.
  - rewrite lookup_insert_ne; [done|]. by intros E.
  - cbn. by rewrite Cph.
  - split; [done|]. split; [done|]. cbn. rewrite Cp.
    destruct (tree_key _ _ (id i) r' T) as [_ Nk]; [by rewrite lookup_insert_eq|].
    rewrite decide_False by done. exists r'. rewrite lookup_insert_eq. split; [done|].
    rewrite Cs, Ct, Ed, Hspawn, Hi. done.
  - cbn. rewrite Cp. intros E. destruct (tree_key _ _ (id i) r' T) as [_ Nk]; [by rewrite lookup_insert_eq|].
    done.
  - cbn. rewrite Cp. intros p Hp. rewrite lookup_insert_eq in Hp. injection Hp as <-.
    split; [done|]. by rewrite Hst.
Qed.

Lemma insert_children_ok children : (forall c : ProcessInstance, c ∈ children -> child_for i c) ->
  forall ts u s s', insert_children children st ts s = Ok (u, s') ->
  rows s !! id i = Some r0 -> tree_ok_but (id i) (<[id i := r']> (rows s)) ->
  tree_ok_but (id i) (<[id i := r']> (rows s')) /\
  (forall j q, rows s !! j = Some q -> rows s' !! j = Some q) /\
  (forall j q, rows s' !! j = Some q -> rows s !! j = None -> worker_id q = None /\ parent_id q = id i) /\
  (children <> [] -> exists j c, j <> id i /\ rows s' !! j = Some c /\ child_of r' c /\ status c = st).
Proof using All.
  induction children as [|c children IH]; intros Hcs ts u s s' H Hk T; cbn in H.
  { apply ret_Ok in H as [_ <-]. split_and!; try done. intros j q H1 H2. congruence. }
  rewrite Tx_bind_Ok in H. destruct H as (u1 & s1 & Hp%persistState_Ok & H).
  rewrite Tx_bind_Ok in H. destruct H as (u2 & s2 & [Hn ->]%InsertInstance_Ok & H). rewrite Hp in *.
  set (cr := with_root _ _) in H. change (id (insert_row c st ts ts)) with (id c) in *.
  destruct (inserted_child (rows s) c ts Hk T (Hcs c ltac:(left)) Hn) as [T' Hc]. fold cr in T', Hc.
  assert (Hne : id c <> id i) by (intros E; congruence).
  apply IH in H; [| |cbn; by rewrite lookup_insert_ne|done].
  2:{ intros c' Hc'. apply Hcs. by right. }
  cbn [rows] in H. destruct H as (T2 & Hkeep & Hnew & _). split; [done|].
  assert (Hin : rows s' !! id c = Some cr) by (apply Hkeep; by rewrite lookup_insert_eq).
  split_and!.
  - intros j q Hj. apply Hkeep. rewrite lookup_insert_ne; [done|]. intros E. congruence.
  - intros j q Hj Hnone. destruct (decide (j = id c)) as [->|N].
    + rewrite Hin in Hj. injection Hj as <-. split; [done|]. apply (Hcs c). left.
    + apply (Hnew j q Hj). by rewrite lookup_insert_ne.
  - intros _. exists (id c), cr. by split_and!.
Qed.
End Spawn.

Lemma insert_children_rows children st ts u s s' : insert_children children st ts s = Ok (u, s') ->
  keyed (rows s) -> keyed (rows s') /\ forall j q, rows s !! j = Some q -> rows s' !! j = Some q.
Proof.
  revert ts u s. induction children as [|c children IH]; intros ts u s H K; cbn in H.
  { by apply ret_Ok in H as [_ <-]. }
  rewrite Tx_bind_Ok in H. destruct H as (u1 & s1 & Hp%persistState_Ok & H).
  rewrite Tx_bind_Ok in H. destruct H as (u2 & s2 & [Hn ->]%InsertInstance_Ok & H). rewrite Hp in *.
  apply IH in H as [K' Hkeep]; cbn [rows] in *.
  - split; [done|]. intros j q Hj. apply Hkeep. rewrite lookup_insert_ne; [done|]. intros E. congruence.
  - intros j q Hj. apply lookup_insert_Some in Hj as [[<- <-]|[_ Hj]]; [done|by apply K].
Qed.

(** The parked parent's row. *)
Definition parked (i : ProcessInstance) (st : Status) (now : Z) (r : row) : row :=
  update_set (set_state st PhaseChildren None (error_message i) (error_code i) (updated_at i) i) now r.

Lemma parked_ok m g i r now : tree_ok m -> held_by m g r -> status g = StatusRunning -> advanced g i ->
  tree_ok_but (id g) (<[id g := parked i (status r) now r]> m) /\
  status (parked i (status r) now r) = status r.
Proof.
  intros T H Hg A. destruct (ro_held _ (t_row _ _ T _ _ (hb_row _ _ _ H)) (hb_held _ _ _ H)) as [Hs _].
  assert (Est : status (parked i (status r) now r) = status r) by (cbn; by in_cases Hs; rewrite Hs).
  pose proof (t_row _ _ T _ _ (hb_row _ _ _ H)) as [Rh Rf Rs].
  split; [|done]. apply (tree_insert (id g) _ _ _ r); try done.
  - by apply tree_weaken.
  - apply H.
  - split; [done| |].
    + rewrite Est. intros E. rewrite E in Hs. by in_cases Hs.
    + rewrite Est. apply Rs.
  - intros p _ [Lp Lb Lw]. split; rewrite ?Est; [done|exact Lb|exact Lw].
  - intros j c Hj Hpar _. assert (Hc : status c ∈ [StatusCompleted; StatusRaised]).
    { apply (hb_kids _ _ _ H) with (j := j); try done. rewrite Hg. set_solver. }
    by split; in_cases Hc; rewrite Hc.
  - by left.
  - right. by rewrite Est.
  - rewrite Est. intros E. rewrite E in Hs. by in_cases Hs.
  - rewrite Est. by left.
Qed.

(** Inserting a batch and parking its parent, as both spawns do. *)
Lemma park_keeps g i children st q now u s s' : tree_ok (rows s) -> fl_ok (rows s) g -> advanced g i ->
  status g = StatusRunning -> rows s !! id i = Some q -> st = status q -> task i <> "" ->
  children <> [] -> (forall c : ProcessInstance, c ∈ children -> child_for i c) ->
  (_ ← insert_children children st now; parkParentWaiting i st now) s = Ok (u, s') ->
  wrote (rows s) (rows s') g.
Proof.
  intros T F A Hg Hq -> Htask Hne Hcs H.
  rewrite Tx_bind_Ok in H. destruct H as (u1 & s1 & Hins & H).
  destruct (insert_children_rows _ _ _ _ _ _ Hins (tree_keyed _ _ T)) as [K1 Hkeep].
  unfold parkParentWaiting in H.
  rewrite Tx_bind_Ok in H. destruct H as (u2 & s2 & Hp%persistState_Ok & H).
  rewrite Tx_bind_Ok in H. destruct H as (n & s3 & Hn & [Hnz <-]%requireFenced_Ok).
  apply fenced_write in Hn; [|by rewrite Hp].
  destruct Hn as [[? _]|(_ & q' & Hq' & Hf & ->)]; [done|].
  set (ip := set_state _ _ _ _ _ _ _) in *. change (id ip) with (id i) in *. rewrite Hp in *.
  assert (E : q' = q) by (apply Hkeep in Hq; congruence). subst q'.
  assert (Ei : id i = id g) by (by rewrite (ad_spawn _ _ A)).
  assert (Hf' : fenced g q = true) by (rewrite <- (advanced_fenced _ _ _ A); exact Hf).
  rewrite Ei in *. pose proof (fl_held _ _ _ F Hq Hf') as Hr.
  destruct (parked_ok _ _ _ _ now T Hr Hg A) as [T1 Est].
  destruct (ro_held _ (t_row _ _ T _ _ Hq) (hb_held _ _ _ Hr)) as [Hs _].
  destruct (insert_children_ok i q (parked i (status q) now q) (status q)) with (children := children)
    (ts := now) (u := u1) (s := s) (s' := s1) as (T2 & _ & Hnew & Hex); try done; rewrite ?Ei; try done.
  { by rewrite (ad_spawn _ _ A), (hb_spawn _ _ _ Hr). }
  rewrite Ei in T2, Hnew, Hex. cbn [rows]. change (update_set ip now q) with (parked i (status q) now q) in *.
  split; [split|by exists q|].
  - eapply tree_ok_has_wait; [exact T2|by rewrite lookup_insert_eq|]. intros _ _.
    destruct (Hex Hne) as (j & c & Nj & Hj & Hc & Esc). exists j, c. rewrite lookup_insert_ne by done.
    rewrite Esc. split_and!; try done; clear -Hs; by in_cases Hs; rewrite Hs.
  - split.
    + intros k r Hk. destruct (decide (k = id g)) as [->|N].
      * rewrite Hq in Hk. injection Hk as <-. eexists. rewrite lookup_insert_eq. split; [done|].
        destruct (written_evolves _ _ (parked i (status q) now q) _ T Hq (hb_held _ _ _ Hr) eq_refl eq_refl eq_refl
          _ _ Hq) as (r2 & Hr2 & Ev). rewrite lookup_insert_eq in Hr2. by injection Hr2 as <-.
      * exists r. rewrite lookup_insert_ne by done. split; [by apply Hkeep|apply evolves1_refl].
    + intros k r' Hk Hnone. rewrite lookup_insert_ne in Hk by congruence.
      destruct (Hnew _ _ Hk Hnone) as [Hw Hpar]. split; [done|]. rewrite Hpar, lookup_insert_eq.
      by intros p' [= <-].
  - intros r Hr'. rewrite lookup_insert_eq in Hr'. injection Hr' as <-. by left.
Qed.

Lemma SpawnChildrenAndWait_keeps g i children now u s s' : tree_ok (rows s) -> fl_ok (rows s) g ->
  advanced g i -> status g = StatusRunning -> task i <> "" -> children <> [] ->
  (forall c : ProcessInstance, c ∈ children -> child_for i c) ->
  SpawnChildrenAndWait i children now s = Ok (u, s') -> wrote (rows s) (rows s') g.
Proof.
  intros T F A Hg Ht Hne Hcs H. destruct children as [|c cs]; [done|].
  unfold SpawnChildrenAndWait in H. rewrite Tx_bind_Ok in H.
  destruct H as (q & s1 & [Hq ->]%GetInstance_Ok & H). destruct (negb _); [done|].
  by apply (park_keeps g i (c :: cs) (status q) q now u).
Qed.

Lemma Supersede_inert x m k r now : tree_ok_but x m -> m !! k = Some r -> status r = StatusRaised ->
  rows_rel inert m (SupersedeInstance now k m).
Proof.
  intros T Hk Hs. apply inert_update. intros j q Hj Hq. apply String.eqb_eq in Hq.
  destruct (tree_key _ _ _ _ T Hj) as [Ej _]. assert (E : j = k) by congruence.
  rewrite E, Hk in Hj. injection Hj as <-. split; cbn; auto.
Qed.

Lemma supersede_all_keeps retired now u s s' : tree_ok (rows s) ->
  (forall k, k ∈ retired -> exists r, rows s !! k = Some r /\ status r = StatusRaised) ->
  supersede_all retired now s = Ok (u, s') -> rows_rel inert (rows s) (rows s').
Proof.
  revert s. induction retired as [|k retired IH]; intros s T Hret H; cbn in H.
  { apply ret_Ok in H as [_ <-]. apply rows_inert_refl. }
  rewrite exec_bind in H. destruct (Hret k ltac:(left)) as (r & Hr & Hs).
  pose proof (Supersede_inert _ _ _ _ now T Hr Hs) as I.
  eapply rows_inert_trans; [exact I|]. eapply (IH (mkDB _ _)); [| |exact H]; cbn [rows].
  - exact (proj1 (inert_keeps _ _ T I)).
  - intros j Hj. destruct (Hret j ltac:(by right)) as (q & Hq & Hqs).
    destruct (rows_rel_at _ _ _ _ _ I Hq) as (q' & Hq' & Iq). exists q'. by rewrite (in_status _ _ Iq).
Qed.

Lemma held_inert m m' g r' : rows_rel inert m m' -> held_by m' g r' -> exists r, held_by m g r.
Proof.
  intros I [Hr Es Hw He Hsi Hkids]. destruct (rows_rel_back _ _ _ _ _ I Hr) as (r & Hr0 & [S1 S2 S3 S4 S5 S6 S7 S8]).
  exists r. split; try congruence. intros Hg j c Hj Hpar.
  destruct (rows_rel_at _ _ _ _ _ I Hj) as (c' & Hj' & Ic). rewrite <- (in_status _ _ Ic).
  apply (Hkids Hg j c' Hj'). by rewrite (in_spawn _ _ Ic).
Qed.

Lemma RespawnSlotsAndWait_keeps g i retired children now u s s' : tree_ok (rows s) -> fl_ok (rows s) g ->
  advanced g i -> status g = StatusRunning -> task i <> "" -> children <> [] ->
  (forall k, k ∈ retired -> exists r, rows s !! k = Some r /\ status r = StatusRaised) ->
  (forall c : ProcessInstance, c ∈ children -> child_for i c) ->
  RespawnSlotsAndWait i retired children now s = Ok (u, s') -> wrote (rows s) (rows s') g.
Proof.
  intros T F A Hg Ht Hne Hret Hcs H. destruct children as [|c cs]; [done|].
  unfold RespawnSlotsAndWait in H. rewrite Tx_bind_Ok in H.
  destruct H as (q & s1 & [Hq ->]%GetInstance_Ok & H). destruct (negb _); [done|].
  rewrite Tx_bind_Ok in H. destruct H as (u1 & s2 & Hsup & H).
  pose proof (supersede_all_keeps _ _ _ _ _ T Hret Hsup) as I.
  destruct (inert_keeps _ _ T I) as [T2 X2].
  destruct (rows_rel_at _ _ _ _ _ I Hq) as (q2 & Hq2 & Iq).
  assert (K2 : wrote (rows s2) (rows s') g).
  { apply (park_keeps g i (c :: cs) (status q) q2 now u); try done.
    - by eapply fl_ok_extends.
    - by rewrite (in_status _ _ Iq). }
  destruct K2 as [[T3 X3] [r Hr] Hsp]. split; [split; [done|]| |done].
  - eapply extends_after; [|apply X2|done]. by apply rows_inert_spawn.
  - by eapply held_inert.
Qed.

End Verbs.
