(* ===== verification/Revive.v ===== *)
(** Retry: what the walk of [RetryProcess] revives, and that the tree it leaves keeps
    the invariant. *)
From Stdlib Require Import ZArith Lia String.
From stdpp Require Import sorting.
From S2P Require Import Prelude.
From S2P Require Import Instance.
From S2P Require Import Store.
From S2P Require Import Lifecycle.
From S2P Require Import Tree.
From S2P Require Import Drain.
From S2P Require Import External.
From S2P Require Import Verbs.
Open Scope string_scope.
Open Scope list_scope.
Open Scope Z_scope.

Module Revive.
Import Instance Store Lifecycle Tree Drain Verbs.

Implicit Types r p c h q node : row.
Implicit Types m : table.
Implicit Types k : string.

Section Revive.
Context (m : table) (root : string) (T : tree_ok m).

(** What the transaction loads. *)
Definition loaded : list row := lockTree (fun r : row => bool_decide (superseded_at r = None)) root m.
Definition raws : table := list_to_map (map (fun r : row => (id r, r)) loaded).

Lemma raws_Some k r : raws !! k = Some r <->
  m !! k = Some r /\ root_id r = root /\ superseded_at r = None.
Proof using T.
  assert (L : forall q, q ∈ loaded <-> (exists j, m !! j = Some q) /\ root_id q = root /\ superseded_at q = None).
  { intros q. unfold loaded. rewrite elem_of_lockTree, elem_of_matching, andb_true_iff, String.eqb_eq,
      bool_decide_eq_true. tauto. }
  assert (P : forall j q, (j, q) ∈ map (fun r : row => (id r, r)) loaded <-> j = id q /\ q ∈ loaded).
  { intros j q. rewrite list_elem_of_In, List.in_map_iff. split.
    - intros (x & [= <- <-] & Hx). split; [done|]. by apply list_elem_of_In.
    - intros [-> Hq]. exists q. split; [done|]. by apply list_elem_of_In. }
  split.
  - intros H. apply elem_of_list_to_map_2, P in H as [-> Hq]. apply L in Hq as ([j Hj] & ? & ?).
    destruct (tree_key _ _ _ _ T Hj) as [-> _]. done.
  - intros (Hk & Hr & Hs). destruct (tree_key _ _ _ _ T Hk) as [Ek _].
    apply elem_of_list_to_map_1'.
    + intros q [Eq Hq]%P. apply L in Hq as ([j Hj] & _). destruct (tree_key _ _ _ _ T Hj) as [Ej _].
      assert (E : k = j) by congruence. rewrite <- E, Hk in Hj. by injection Hj.
    + apply P. split; [done|]. apply L. eauto.
Qed.

Lemma kids_spec node k : id node <> "" ->
  (k ∈ kids_of loaded node) <-> exists c, raws !! k = Some c /\ child_of node c.
Proof using T.
  intros Hne. unfold kids_of. rewrite list_elem_of_In, List.in_map_iff.
  setoid_rewrite List.filter_In. split.
  - intros (c & <- & Hc & Hf). apply andb_prop in Hf as [_ Hf]. exists c. split; [|done].
    apply list_elem_of_In in Hc. unfold loaded in Hc.
    apply elem_of_lockTree, elem_of_matching in Hc as [Hs [j Hj]].
    rewrite andb_true_iff, String.eqb_eq, bool_decide_eq_true in Hs.
    destruct (tree_key _ _ _ _ T Hj) as [Ej _]. apply raws_Some. rewrite Ej. tauto.
  - intros (c & Hc & Hch). apply raws_Some in Hc as (Hk & Hr & Hs).
    destruct (tree_key _ _ _ _ T Hk) as [Ek _]. exists c. split; [done|]. split.
    + apply list_elem_of_In. unfold loaded. apply elem_of_lockTree, elem_of_matching.
      rewrite andb_true_iff, String.eqb_eq, bool_decide_eq_true. eauto.
    + apply andb_true_iff. split; [|done]. apply negb_true_iff, String.eqb_neq.
      by rewrite (child_of_parent _ _ Hch).
Qed.

(** * The revived form of a failed node *)

(** A child that will be live again. *)
Definition comes_back (s : Status) : bool := negb (Terminal s) || bool_decide (s = StatusFailed).

Definition kid_active (k : string) : bool :=
  match raws !! k with Some c => comes_back (status (c : row)) | None => false end.

Definition has_batch (node : row) : bool :=
  negb (String.eqb (task node) "") && negb (bool_decide (kids_of loaded node = [])).

Definition final_phase (node : row) : Phase :=
  if has_batch node then
    if existsb kid_active (kids_of loaded node) then PhaseChildren else PhaseCollecting
  else PhaseNone.

Definition final (node : row) : row := revived (final_phase node) (has_batch node) node.

(** The state of the walk: rows as loaded, or revived with the failed batch below them. *)
Record walk_ok (st : revive_state) : Prop := mkWalk {
  wk_rows : forall k, ((k ∉ dirty st) /\ nodes st !! k = raws !! k) \/
    (k ∈ dirty st /\ exists node, raws !! k = Some node /\ status node = StatusFailed /\
       nodes st !! k = Some (final node));
  wk_closed : forall k node j c, k ∈ dirty st -> raws !! k = Some node -> task node <> "" ->
    j ∈ kids_of loaded node -> raws !! j = Some c -> status c = StatusFailed -> j ∈ dirty st }.

Definition grows (st st' : revive_state) : Prop :=
  walk_ok st' /\ forall k, k ∈ dirty st -> k ∈ dirty st'.

Lemma grows_trans s1 s2 s3 : grows s1 s2 -> grows s2 s3 -> grows s1 s3.
Proof using T. intros [_ H1] [W H2]. split; auto. Qed.

Lemma walk_override st k : walk_ok st -> grows st (mkRevive (nodes st) (dirty st) k).
Proof using T. intros [W1 W2]. by split; [split|]. Qed.

Lemma walk_mark st k node : walk_ok st -> raws !! k = Some node -> status node = StatusFailed ->
  (task node <> "" -> forall j c, j ∈ kids_of loaded node -> raws !! j = Some c ->
     status c = StatusFailed -> j ∈ dirty st) ->
  grows st (mark_dirty k (final node) st).
Proof using T.
  intros [W1 W2] Hk Hs Hkids. split; [split|]; cbn.
  - intros j. destruct (decide (j = k)) as [->|N].
    + right. split; [set_solver|]. exists node. rewrite lookup_insert_eq. done.
    + rewrite lookup_insert_ne by done. destruct (W1 j) as [[Hn E]|(Hin & E)].
      * left. split; [set_solver|done].
      * right. split; [set_solver|done].
  - intros j q i c Hj Hq Ht Hi Hc Hf. apply elem_of_app in Hj as [Hj|Hj].
    + apply elem_of_app. left. by eapply W2.
    + apply list_elem_of_singleton in Hj as ->. rewrite Hk in Hq. injection Hq as <-.
      apply elem_of_app. left. by eapply Hkids.
  - intros j Hj. set_solver.
Qed.

(** A loaded node in the walk. *)
Lemma walk_node st k node : walk_ok st -> nodes st !! k = Some node ->
  (status node = StatusFailed /\ raws !! k = Some node /\ k ∉ dirty st) \/
  (status node <> StatusFailed /\ ((k ∉ dirty st /\ raws !! k = Some node) \/
     (k ∈ dirty st /\ status node = StatusRunning))).
Proof using T.
  intros [W1 _] Hk. destruct (W1 k) as [[Hn E]|(Hin & q & Hq & Hs & E)].
  - rewrite E in Hk. destruct (decide (status node = StatusFailed)); [by left|]. right. auto.
  - rewrite E in Hk. injection Hk as <-. right. split; [done|]. auto.
Qed.

(** What a revive of one node promises. *)
Definition revives (rv : string -> revive_state -> result db_error revive_state) : Prop :=
  forall k st st', rv k st = Ok st' -> walk_ok st -> grows st st' /\
    (forall node, raws !! k = Some node -> status node = StatusFailed -> k ∈ dirty st').

Lemma revive_kids_ok rv parent kids : revives rv -> forall st any st' any',
  revive_kids rv parent kids (st, any) = Ok (st', any') -> walk_ok st ->
  grows st st' /\ any' = any || existsb kid_active kids /\
  (forall j c, j ∈ kids -> raws !! j = Some c -> status c = StatusFailed -> j ∈ dirty st').
Proof using T.
  intros Hrv. induction kids as [|k kids IH]; intros st any st' any' H W; cbn in H.
  { injection H as <- <-. split; [by split|]. split; [by rewrite orb_false_r|]. intros j c Hj.
    by apply elem_of_nil in Hj. }
  destruct (nodes st !! k) as [c|] eqn:Hc; [|done].
  case_bool_decide as Hra.
  - apply IH in H as (G & -> & Hk); [|by apply walk_override].
    assert (Er : raws !! k = Some c).
    { destruct (walk_node _ _ _ W Hc) as [(E & _)|(_ & [[_ E]|[_ E]])]; [congruence|done|congruence]. }
    split; [eapply grows_trans; [by apply walk_override|done]|]. split.
    + cbn. unfold kid_active. rewrite Er, Hra. done.
    + intros j q Hj Hq Hf. apply elem_of_cons in Hj as [->|Hj]; [|by eapply Hk]. congruence.
  - destruct (rv k st) as [st1|] eqn:E; [|done]. cbn in H.
    destruct (Hrv _ _ _ E W) as [[W1 G1] Hd].
    apply IH in H as ((W2 & G2) & -> & Hk); [|done]. split; [split; auto|]. split.
    + cbn. rewrite orb_assoc. f_equal. f_equal.
      assert (Er : kid_active k = match nodes st1 !! k with Some q => negb (Terminal (status (q : row))) | None => false end).
      { destruct (wk_rows _ W1 k) as [[Hn E1]|(Hin & q & Hq & Hs & E1)].
        - rewrite E1. unfold kid_active. destruct (raws !! k) as [q|] eqn:Hq; [|done]. unfold comes_back.
          rewrite (bool_decide_false (status q = StatusFailed)); [by rewrite orb_false_r|].
          intros Hf. by apply Hn, (Hd q).
        - rewrite E1. unfold kid_active. by rewrite Hq, Hs. }
      done.
    + intros j q Hj Hq Hf. apply elem_of_cons in Hj as [->|Hj]; [|by eapply Hk]. by apply G2, (Hd q).
Qed.

Lemma revive_ok loadDef force fuel : revives (revive loadDef fuel force loaded).
Proof using T.
  induction fuel as [|fuel IH]; intros k st st' H W; cbn [revive] in H; [done|].
  destruct (nodes st !! k) as [node|] eqn:Hn; [|done].
  destruct (walk_node _ _ _ W Hn) as [(Hs & Hr & Hnd)|(Hs & Hor)].
  2:{ rewrite bool_decide_false in H by done. cbn in H. injection H as <-. split; [by split|].
    intros q Hq Hf. destruct Hor as [[_ E]|[Hin _]]; [|done]. congruence. }
  rewrite bool_decide_true in H by done. cbn [negb] in H.
  assert (Hin : forall node' st1, k ∈ dirty (mark_dirty k node' st1)) by (intros; cbn; set_solver).
  assert (Hne : id node <> "").
  { apply raws_Some in Hr as (Hr & _). destruct (tree_key _ _ _ _ T Hr) as [-> ?]. done. }
  destruct (String.eqb_spec (task node) "") as [Et|Nt].
  { injection H as <-. replace (revived PhaseNone false node) with (final node).
    - split; [|auto]. by apply walk_mark.
    - unfold final, final_phase, has_batch. rewrite Et. done. }
  destruct (kids_of loaded node) as [|k1 ks] eqn:Ek.
  - assert (E : final node = revived PhaseNone false node).
    { unfold final, final_phase, has_batch. rewrite Ek. cbn. by rewrite andb_false_r. }
    assert (G : grows st (mark_dirty k (revived PhaseNone false node) st)).
    { rewrite <- E. apply walk_mark; try done. intros _ j c Hj. rewrite Ek in Hj. by apply elem_of_nil in Hj. }
    destruct force.
    + cbn in H. injection H as <-. auto.
    + destruct (loadTask loadDef node) as [[t|]|]; cbn in H; [|by injection H as <-; auto|done].
      destruct (t_only_once t); [done|]. injection H as <-. auto.
  - cbv beta iota in H. rewrite <- Ek in H.
    destruct (revive_kids _ k (kids_of loaded node) (st, false)) as [[st1 any]|] eqn:E; [|done].
    cbn in H. injection H as <-.
    destruct (revive_kids_ok _ _ _ IH _ _ _ _ E W) as ([W1 G1] & -> & Hk).
    assert (Ef : revived (if false || existsb kid_active (kids_of loaded node) then PhaseChildren
                          else PhaseCollecting) true node = final node).
    { unfold final, final_phase, has_batch. rewrite (proj2 (String.eqb_neq _ _) Nt), Ek. done. }
    rewrite Ef. split; [|auto]. eapply grows_trans; [by split|]. by apply walk_mark.
Qed.

(** * The writes *)

Context (now : Z).

(** A failed row as the retry saves it. *)
Record saved (r r' : row) : Prop := mkSaved {
  sv_spawn : r_spawn r' = r_spawn r;
  sv_task : task r' = task r;
  sv_epoch : task_epoch r' = if has_batch r then task_epoch r else task_epoch r + 1;
  sv_status : status r' = StatusRunning;
  sv_phase : phase r' = final_phase r;
  sv_free : worker_id r' = None;
  sv_lease : lease_epoch r' = lease_epoch r;
  sv_superseded : superseded_at r' = superseded_at r }.

Definition retry_rel (r r' : row) : Prop :=
  (root_id r = root /\ status r = StatusFailed /\ saved r r') \/
  (root_id r = root /\ status r = StatusPaused /\ r' = set_status StatusRunning now r) \/
  (~ (root_id r = root /\ (status r = StatusFailed \/ status r = StatusPaused)) /\ r' = r).

(** The writes that are done once the ids of [done_] are saved. *)
Definition save_rel (done_ : list string) (r r' : row) : Prop :=
  (id r ∈ done_ /\ raws !! id r = Some r /\ status r = StatusFailed /\ saved r r') \/
  ((id r ∉ done_ \/ ~ (raws !! id r = Some r /\ status r = StatusFailed)) /\ r' = r).

Lemma failed_free k r : m !! k = Some r -> status r = StatusFailed -> worker_id r = None.
Proof using T.
  intros Hk Hs. destruct (worker_id r) eqn:E; [|done]. exfalso.
  destruct (ro_held _ (t_row _ _ T _ _ Hk)) as [H _]; [congruence|]. rewrite Hs in H. by in_cases H.
Qed.

Context (mark_override : string -> string).

Lemma save_one m1 D k node q b s1 n s2 : rows_rel (save_rel D) m1 (rows s1) ->
  (forall j r, m1 !! j = Some r -> id r = j) ->
  raws !! k = Some node -> m1 !! k = Some node -> status node = StatusFailed ->
  q = final node -> UpdateInstance_q (save_revived mark_override node q b) now s1 = Ok (n, s2) ->
  rows_rel (save_rel (k :: D)) m1 (rows s2).
Proof using T.
  intros HR K Hk Hm Hs -> [-> ->]%execrows_Ok. cbn [rows].
  assert (Hmk : m !! k = Some node) by (apply raws_Some in Hk; tauto).
  assert (Ek : id node = k) by (by apply K).
  intros j. rewrite lookup_update. specialize (HR j).
  destruct (m1 !! j) as [r|] eqn:Hr, (rows s1 !! j) as [r'|]; cbn; try done.
  assert (Ej : id r = j) by (by apply K).
  destruct (decide (j = k)) as [->|N].
  - rewrite Hm in Hr. injection Hr as <-. left. rewrite Ek. split; [set_solver|]. split; [done|].
    split; [done|].
    assert (Hw : worker_id node = None) by (by eapply failed_free).
    assert (F : r_spawn r' = r_spawn node /\ lease_epoch r' = lease_epoch node /\ worker_id r' = None /\
      superseded_at r' = superseded_at node /\ (status r' = StatusFailed \/ status r' = StatusRunning)).
    { destruct HR as [(_ & _ & _ & [S1 S2 S3 S4 S5 S6 S7 S8])|[_ ->]]; auto 10. }
    destruct F as (F1 & F2 & F3 & F4 & F5).
    assert (Ff : fenced (save_revived mark_override node (final node) b) r' = true).
    { unfold fenced, has_id. cbn. by rewrite F1, F2, F3, Hw, Z.eqb_refl, String.eqb_refl. }
    rewrite Ff. split; cbn; try done. by destruct F5 as [->| ->].
  - assert (Ff : fenced (save_revived mark_override node (final node) b) r' = false).
    { unfold fenced, has_id. cbn.
      assert (E : id r' = j).
      { destruct HR as [(_ & _ & _ & S)|[_ ->]]; [by rewrite (sv_spawn _ _ S)|done]. }
      rewrite E, Ek, (proj2 (String.eqb_neq _ _) N). done. }
    rewrite Ff. destruct HR as [(? & ? & ? & ?)|[[Hn|Hn] ->]]; [left|right|right]; split_and!; try done.
    + by right.
    + left. rewrite Ej in *. set_solver.
    + by right.
Qed.

Lemma save_dirty_ok st m1 : walk_ok st ->
  (forall j r, m1 !! j = Some r -> id r = j) ->
  (forall k node, raws !! k = Some node -> status node = StatusFailed -> m1 !! k = Some node) ->
  forall l D s1 u s2, (forall k, k ∈ l -> k ∈ dirty st) -> rows_rel (save_rel D) m1 (rows s1) ->
  save_dirty mark_override raws st l now s1 = Ok (u, s2) ->
  rows_rel (save_rel (rev l ++ D)) m1 (rows s2) /\ signals s2 = signals s1.
Proof using T.
  intros W K Hm1. induction l as [|k l IH]; intros D s1 u s2 Hl HR H; cbn in H.
  { by apply ret_Ok in H as [_ <-]. }
  destruct (raws !! k) as [node|] eqn:Hk; [|done].
  destruct (wk_rows _ W k) as [[Hn _]|(_ & node' & Hk' & Hs & E)]; [destruct Hn; apply Hl; left|].
  rewrite E in H. rewrite Hk in Hk'. injection Hk' as <-.
  rewrite Tx_bind_Ok in H. destruct H as (n & s3 & H1 & H).
  pose proof (save_one _ _ _ _ _ _ _ _ _ HR K Hk (Hm1 _ _ Hk Hs) Hs eq_refl H1) as HR1.
  assert (Sg : signals s3 = signals s1) by (by apply execrows_Ok in H1 as [_ ->]).
  destruct (IH (k :: D) s3 u s2) as [H2 H3]; try done.
  - intros j Hj. apply Hl. by right.
  - cbn [rev]. rewrite <- app_assoc. split; [done|]. congruence.
Qed.

Context (r0 : row) (H0 : m !! root = Some r0) (Hroot : parent_id r0 = "") (Hfailed : status r0 = StatusFailed).

(** In a failed tree nothing is busy or cancelled. *)
Lemma failed_tree k r : m !! k = Some r -> root_id r = root ->
  status r ∈ [StatusFailed; StatusPaused; StatusCompleted; StatusRaised].
Proof using All.
  intros Hk Hr. rewrite <- Hr in H0.
  assert (Hb : Busy (status r) = false).
  { apply not_true_is_false. intros Hb.
    pose proof (root_up _ _ (fun q => Busy (status q) = true) T link_busy_up k r r0 Hk Hb H0) as U.
    cbn in U. by rewrite Hfailed in U. }
  assert (Hc : status r <> StatusCancelled).
  { intros Hc. pose proof (root_up _ _ (fun q => status q ∈ [StatusCancelling; StatusCancelled]) T) as U.
    assert (U' : status r0 ∈ [StatusCancelling; StatusCancelled]).
    { apply (U) with (k := k) (r := r); try done; [|cbn; rewrite Hc; set_solver].
      intros q p [L _ _] Hq. clear -L Hq. by in_cases Hq; rewrite Hq in L; destruct (status p); try done; set_solver. }
    rewrite Hfailed in U'. by in_cases U'. }
  clear -Hb Hc. destruct (status r); try done; set_solver.
Qed.

(** A failed row's parent failed too, and has it in its batch. *)
Lemma failed_parent k r p : m !! k = Some r -> root_id r = root ->
  status r ∈ [StatusFailed; StatusPaused] -> m !! parent_id r = Some p ->
  status p ∈ [StatusFailed; StatusPaused] /\ (status r = StatusFailed -> status p = StatusFailed) /\
  child_of p r /\ root_id p = root /\ task p <> "" /\ raws !! k = Some r.
Proof using All.
  intros Hk Hr Hs Hp. pose proof (parent_row _ T _ _ _ Hk Hp) as Er.
  pose proof (failed_tree _ _ Hp ltac:(congruence)) as Hps.
  destruct (t_link _ _ T _ _ _ Hk Hp) as [L B _].
  assert (Hc : child_of p r) by (apply B; clear -Hs; by in_cases Hs; rewrite Hs).
  split_and!; try congruence.
  - clear -L Hs Hps. in_cases Hs; rewrite Hs in L; in_cases Hps; rewrite Hps in L |- *; try done; set_solver.
  - intros E. clear -L E Hps. rewrite E in L. by in_cases Hps; rewrite Hps in L.
  - destruct (tree_key _ _ _ _ T Hp) as [_ Np]. destruct (tree_parent _ _ _ _ T Hk Np) as (p' & _ & _ & _ & Ht).
    apply child_of_eq in Hc as (_ & <- & _). done.
  - apply raws_Some. split; [done|]. split; [done|].
    destruct (superseded_at r) eqn:E; [|done]. exfalso.
    pose proof (ro_superseded _ (t_row _ _ T _ _ Hk)) as S. rewrite E in S.
    specialize (S ltac:(done)). rewrite S in Hs. by in_cases Hs.
Qed.

(** The walk reaches every failed row. *)
Lemma walk_reaches st k r : walk_ok st -> root ∈ dirty st -> m !! k = Some r -> root_id r = root ->
  status r = StatusFailed -> k ∈ dirty st.
Proof using All.
  intros W Hd. remember (length (call_stack r)) as n eqn:En. revert k r En.
  induction n as [n IH] using lt_wf_ind. intros k r En Hk Hr Hs.
  destruct (decide (parent_id r = "")) as [E|N].
  - by rewrite (root_self _ _ _ _ T Hk E) in Hr; subst k.
  - destruct (tree_parent _ _ _ _ T Hk N) as (p & Hp & Hcs & _ & _).
    destruct (failed_parent k r p Hk Hr) as (_ & Hps & Hc & Hrp & Ht & Hraw); [rewrite Hs; set_solver|done|].
    assert (Hpd : parent_id r ∈ dirty st).
    { apply (IH (length (call_stack p))) with (r := p); auto. rewrite En, Hcs, length_app. cbn. lia. }
    destruct (tree_key _ _ _ _ T Hp) as [Ep Np].
    assert (Hpraw : raws !! parent_id r = Some p).
    { apply raws_Some. split; [done|]. split; [done|]. destruct (superseded_at p) eqn:E; [|done]. exfalso.
      pose proof (ro_superseded _ (t_row _ _ T _ _ Hp)) as S. rewrite E, (Hps Hs) in S. by specialize (S ltac:(done)). }
    apply (wk_closed _ W (parent_id r) p k r); try done.
    apply kids_spec; [by rewrite Ep|]. eauto.
Qed.

(** A failed or paused row in the batch of a failed one brings its parent back waiting. *)
Lemma kid_wakes p k r : id p <> "" -> task p <> "" -> raws !! k = Some r -> child_of p r ->
  status r ∈ [StatusFailed; StatusPaused] ->
  has_batch p = true /\ final_phase p = PhaseChildren.
Proof using T.
  intros Hne Ht Hk Hc Hs.
  assert (Hin : k ∈ kids_of loaded p) by (apply kids_spec; eauto).
  assert (Hb : has_batch p = true).
  { unfold has_batch. rewrite (proj2 (String.eqb_neq _ _) Ht), bool_decide_false; [done|].
    intros E. rewrite E in Hin. by apply elem_of_nil in Hin. }
  split; [done|]. unfold final_phase. rewrite Hb.
  replace (existsb kid_active (kids_of loaded p)) with true; [done|]. symmetry. apply existsb_exists.
  exists k. split; [by apply list_elem_of_In|]. unfold kid_active. rewrite Hk. clear -Hs.
  by in_cases Hs; rewrite Hs.
Qed.

Lemma active_kid p : id p <> "" -> final_phase p = PhaseChildren ->
  exists k c, raws !! k = Some c /\ child_of p c /\ comes_back (status c) = true /\ has_batch p = true.
Proof using T.
  intros Hne. unfold final_phase. destruct (has_batch p) eqn:Hb; [|done].
  destruct (existsb _ _) eqn:E; [|done]. intros _. apply existsb_exists in E as (k & Hin & Ha).
  apply list_elem_of_In, kids_spec in Hin as (c & Hc & Hch); [|done]. exists k, c.
  unfold kid_active in Ha. rewrite Hc in Ha. done.
Qed.

Lemma retry_links r r' p p' k : m !! k = Some r -> m !! parent_id r = Some p ->
  retry_rel r r' -> retry_rel p p' -> link_ok r p -> link_ok r' p'.
Proof using All.
  intros Hk Hp Hr Hp' [Lp Lb Lw]. pose proof (parent_row _ T _ _ _ Hk Hp) as Er.
  destruct (tree_key _ _ _ _ T Hp) as [Ep Np].
  assert (Back : status r' = StatusRunning -> r_spawn r' = r_spawn r -> root_id r = root ->
    status r ∈ [StatusFailed; StatusPaused] -> link_ok r' p').
  { intros Es Esp Hroot_r Hs.
    destruct (failed_parent k r p Hk Hroot_r Hs Hp) as (Hps & _ & Hc & Hrp & Ht & Hraw).
    destruct Hp' as [(_ & Hpf & [S1 S2 S3 S4 S5 _ _ _])|[(_ & Hpp & ->)|[N _]]].
    - destruct (kid_wakes p k r ltac:(by rewrite Ep) Ht Hraw Hc Hs) as [Hb Hph].
      rewrite Hb in S3. split; rewrite ?Es, ?S4; [done| |congruence].
      intros _. rewrite child_of_eq in *. by rewrite Esp, S1, S2, S3.
    - split; rewrite ?Es; cbn; [done| |].
      + intros _. rewrite child_of_eq in *. by rewrite Esp.
      + intros _. apply Lw. rewrite Hpp. in_cases Hs; rewrite Hs in *; [|done].
        rewrite Hpp in Lp. done.
    - exfalso. apply N. split; [done|]. by in_cases Hps; auto. }
  destruct Hr as [(Hr & Hs & Sv)|[(Hr & Hs & ->)|[N ->]]].
  - apply Back; try done; [apply Sv|apply Sv|]. rewrite Hs. set_solver.
  - apply Back; try done. rewrite Hs. set_solver.
  - destruct (decide (root_id r = root)) as [Hr|Hr].
    + pose proof (failed_tree _ _ Hk Hr) as Hs.
      assert (Hs' : status r ∈ [StatusCompleted; StatusRaised]).
      { in_cases Hs; [exfalso; apply N; auto|exfalso; apply N; auto|rewrite Hs; set_solver..]. }
      by split; in_cases Hs'; rewrite Hs'.
    + destruct Hp' as [(E & _)|[(E & _)|[_ ->]]]; [congruence..|done].
Qed.

Lemma retry_waits p p' k m' : m !! k = Some p -> rows_rel retry_rel m m' -> retry_rel p p' ->
  wait_ok m p -> wait_ok m' p'.
Proof using All.
  intros Hp HR Hp' Hw Hph Ht. destruct (tree_key _ _ _ _ T Hp) as [Ep Np].
  assert (Back : forall j c, m !! j = Some c -> root_id c = root -> comes_back (status c) = true ->
    exists c', m' !! j = Some c' /\ status c' = StatusRunning /\ r_spawn c' = r_spawn c).
  { intros j c Hj Hrc Hcb. destruct (rows_rel_at _ _ _ _ _ HR Hj) as (c' & Hj' & Hc'). exists c'.
    split; [done|]. pose proof (failed_tree _ _ Hj Hrc) as Hs.
    destruct Hc' as [(_ & _ & Sv)|[(_ & _ & ->)|[N ->]]]; [split; apply Sv|done|].
    exfalso. apply N. split; [done|]. in_cases Hs; auto; by rewrite Hs in Hcb. }
  assert (Kid : forall j c, m !! j = Some c -> child_of p c -> root_id c = root_id p).
  { intros j c Hj Hc. pose proof (child_of_parent _ _ Hc) as E. rewrite Ep in E. rewrite <- E in Hp.
    by apply (parent_row _ T j). }
  destruct Hp' as [(Hr & Hs & [S1 S2 S3 S4 S5 S6 S7 S8])|[(Hr & Hs & ->)|[N ->]]].
  - rewrite S5 in Hph. destruct (active_kid p ltac:(by rewrite Ep) Hph) as (j & c & Hj & Hc & Ha & Hb).
    apply raws_Some in Hj as (Hj & Hrc & _). destruct (Back _ _ Hj Hrc Ha) as (c' & Hj' & Es & Esp).
    exists j, c'. rewrite Es, S4. split_and!; try done. rewrite Hb in S3.
    rewrite child_of_eq in *. by rewrite Esp, S1, S2, S3.
  - destruct (Hw Hph) as (j & c & Hj & Hc & Htc & _); [by rewrite Hs|].
    destruct (Back j c Hj) as (c' & Hj' & Es & Esp).
    + rewrite (Kid _ _ Hj Hc). done.
    + unfold comes_back. by rewrite Htc.
    + exists j, c'. rewrite Es. split_and!; try done. rewrite child_of_eq in *. by rewrite Esp.
  - destruct (Hw Hph Ht) as (j & c & Hj & Hc & Htc & Hb).
    destruct (rows_rel_at _ _ _ _ _ HR Hj) as (c' & Hj' & Hc').
    destruct (decide (root_id p = root)) as [Hr|Hr].
    + exfalso. pose proof (failed_tree _ _ Hp Hr) as Hs. apply N. split; [done|].
      in_cases Hs; auto; by rewrite Hs in Ht.
    + assert (Hrc : root_id c <> root) by (by rewrite (Kid _ _ Hj Hc)).
      exists j, c'. by destruct Hc' as [(E & _)|[(E & _)|[_ ->]]]; [congruence..|].
Qed.

Lemma retried_ok m' : rows_rel retry_rel m m' -> tree_ok m' /\ same_spawn m m' /\ evolves true m m'.
Proof using All.
  intros HR.
  assert (At : forall k r r', m !! k = Some r -> m' !! k = Some r' -> retry_rel r r').
  { intros k r r' Hr Hr'. specialize (HR k). by rewrite Hr, Hr' in HR. }
  assert (Hs : same_spawn m m').
  { intros k. specialize (HR k). destruct (m !! k), (m' !! k); try done. cbn. f_equal.
    destruct HR as [(_ & _ & Sv)|[(_ & _ & ->)|[_ ->]]]; [apply Sv|done..]. }
  split; [|split; [done|]].
  - apply (tree_ok_same_spawn _ m); [done..| | | |].
    + intros k r r' Hr Hr'. pose proof (t_row _ _ T _ _ Hr) as [Rh Rf Rs].
      destruct (At _ _ _ Hr Hr') as [(_ & E & Sv)|[(_ & E & ->)|[_ ->]]]; [| |done].
      * split; rewrite ?(sv_free _ _ Sv), ?(sv_status _ _ Sv), ?(sv_superseded _ _ Sv); try done.
        intros N. specialize (Rs N). congruence.
      * split; cbn; try done.
        -- intros N. destruct (Rh N) as [H _]. rewrite E in H. by in_cases H.
        -- intros N. specialize (Rs N). congruence.
    + intros k r r' p p' Hr Hr' Hp Hp' L.
      exact (retry_links r r' p p' k Hr Hp (At _ _ _ Hr Hr') (At _ _ _ Hp Hp') L).
    + intros k p p' _ Hp Hp' Hw. exact (retry_waits p p' k m' Hp HR (At _ _ _ Hp Hp') Hw).
    + intros k r r' q q' Hr Hr' Hq Hq' Hst. pose proof (root_root _ _ _ _ _ T Hr Hq) as Eq.
      destruct (At _ _ _ Hr Hr') as [(_ & _ & Sv)|[(_ & _ & ->)|[N ->]]].
      * by rewrite (sv_status _ _ Sv) in Hst.
      * done.
      * pose proof (t_paused _ _ T _ _ _ Hr Hst Hq) as Hpa.
        assert (Hne : root_id r <> root) by (intros E; apply N; auto).
        destruct (At _ _ _ Hq Hq') as [(E & _)|[(E & _)|[_ ->]]]; [congruence..|done].
  - apply (rows_rel_evolves _ _ _ _ HR). intros k r r' Hr [(_ & E & Sv)|[(_ & E & ->)|[_ ->]]].
    + split; rewrite ?(sv_lease _ _ Sv), ?(sv_free _ _ Sv); try done; [apply Sv|by rewrite E].
    + apply evolves1_restatus; [done|by rewrite E|done|]. intros N.
      destruct (ro_held _ (t_row _ _ T _ _ Hr) N) as [H _]. rewrite E in H. by in_cases H.
    + apply evolves1_refl.
Qed.

End Revive.

(** The ids resumed after the walk are those of the tree's paused rows. *)
Lemma resumed_ids m k st j q : tree_ok m -> walk_ok m k st -> m !! j = Some q ->
  in_ids (map (fun r : row => id r) (matching (fun r : row => bool_decide (status r = StatusPaused)) (nodes st))) q =
  String.eqb (root_id q) k && bool_decide (status q = StatusPaused).
Proof.
  intros T W Hj. destruct (tree_key _ _ _ _ T Hj) as [Ej _]. apply eq_true_iff_eq.
  unfold in_ids. rewrite bool_decide_eq_true, andb_true_iff, String.eqb_eq, list_elem_of_In, List.in_map_iff.
  split.
  - intros (x & Ex & Hx). apply list_elem_of_In, elem_of_matching in Hx as [Hs [i Hi]].
    destruct (wk_rows _ _ _ W i) as [[_ Ei]|(_ & y & _ & _ & Ei)]; rewrite Ei in Hi.
    + apply (raws_Some _ _ T) in Hi as (Hi & Hri & _). destruct (tree_key _ _ _ _ T Hi) as [Exi _].
      assert (Eij : i = j) by congruence. rewrite Eij, Hj in Hi. injection Hi as <-. done.
    + injection Hi as <-. done.
  - intros [Hr Hs]. exists q. split; [done|]. apply list_elem_of_In, elem_of_matching. split; [done|].
    exists j. assert (Hq : status q = StatusPaused) by (by apply bool_decide_eq_true in Hs).
    assert (Hrj : raws m k !! j = Some q).
    { apply (raws_Some _ _ T). split; [done|]. split; [done|]. destruct (superseded_at q) eqn:Es; [|done]. exfalso.
      pose proof (ro_superseded _ (t_row _ _ T _ _ Hj)) as S. rewrite Es, Hq in S. by specialize (S ltac:(done)). }
    destruct (wk_rows _ _ _ W j) as [[_ Ei]|(_ & y & Hy & Hys & _)]; [by rewrite Ei|]. congruence.
Qed.

Lemma walk_start m k : walk_ok m k (mkRevive (raws m k) [] "").
Proof.
  split; cbn; [intros j; left; split; [apply not_elem_of_nil|done]|]. intros j node i c Hj. by apply elem_of_nil in Hj.
Qed.

(** What one retry changes: every failed and paused row of the tree, and nothing else. *)
Lemma retry_rows loadDef mark k force now n s s' r : tree_ok (rows s) ->
  rows s !! k = Some r -> parent_id r = "" -> status r = StatusFailed ->
  retry_tx loadDef mark k force now s = Ok (n, s') ->
  rows_rel (retry_rel (rows s) k now) (rows s) (rows s') /\ signals s' = signals s.
Proof.
  intros T Hk Hpar Hf H. unfold retry_tx in H. rewrite query_bind in H.
  change (lockTree _ k (rows s)) with (loaded (rows s) k) in H.
  change (list_to_map _) with (raws (rows s) k) in H.
  assert (Hraw : raws (rows s) k !! k = Some r).
  { apply (raws_Some _ _ T). split; [done|]. split; [by apply (root_self _ _ _ _ T)|].
    destruct (superseded_at r) eqn:E; [|done]. exfalso.
    pose proof (ro_superseded _ (t_row _ _ T _ _ Hk)) as S. rewrite E, Hf in S. by specialize (S ltac:(done)). }
  rewrite Hraw in H. destruct (revive _ _ _ _ _ _) as [st|] eqn:E; [|done].
  pose proof (walk_start (rows s) k) as W0.
  destruct (revive_ok (rows s) k T _ _ _ _ _ _ E W0) as [[W _] Hd].
  specialize (Hd r Hraw Hf).
  rewrite Tx_bind_Ok in H. destruct H as (u1 & s1 & H1 & H).
  rewrite Tx_bind_Ok in H. destruct H as (u2 & s2 & H2 & [_ <-]%ret_Ok).
  set (sel := fun r : row => bool_decide (status r = StatusPaused)) in *.
  set (ids := map (fun r : row => id r) (matching sel (nodes st))) in *.
  assert (Hpaused : forall j q, rows s !! j = Some q ->
    in_ids ids q = String.eqb (root_id q) k && sel q) by (intros j q; by apply resumed_ids).
  assert (R1 : rows_rel (fun a b => if String.eqb (root_id a) k && sel a then b = set_status StatusRunning now a
      else b = a) (rows s) (rows s1) /\ signals s1 = signals s).
  { unfold updateStatusIn in H1. fold ids in H1. destruct ids as [|i0 l0] eqn:Ei.
    - apply ret_Ok in H1 as [_ <-]. split; [|done]. intros j. destruct (rows s !! j) as [q|] eqn:Hj; [|done].
      rewrite <- (Hpaused _ _ Hj). done.
    - apply exec_Ok in H1. subst s1. cbn [rows signals]. split; [|done].
      apply rows_rel_update. intros j q Hj. rewrite <- (Hpaused _ _ Hj). by destruct (in_ids _ q). }
  destruct R1 as [R1 S1].
  assert (K1 : forall j q, rows s1 !! j = Some q -> id q = j).
  { intros j q' Hj. destruct (rows_rel_back _ _ _ _ _ R1 Hj) as (q & Hq & E1).
    rewrite <- (proj1 (tree_key _ _ _ _ T Hq)). destruct (_ && _); by rewrite E1. }
  assert (F1 : forall j q, raws (rows s) k !! j = Some q -> status q = StatusFailed -> rows s1 !! j = Some q).
  { intros j q Hq Hs. apply (raws_Some _ _ T) in Hq as (Hj & _).
    destruct (rows_rel_at _ _ _ _ _ R1 Hj) as (q' & Hq' & E1). unfold sel in E1.
    rewrite Hs, andb_false_r in E1. by rewrite E1 in Hq'. }
  destruct (save_dirty_ok (rows s) k T now mark st (rows s1) W K1 F1 (dirty st) [] s1 u2 s2) as [R2 S2]; try done.
  { intros j. destruct (rows s1 !! j) as [q|] eqn:Hj; [|done]. right. split; [left; apply not_elem_of_nil|done]. }
  split; [|by rewrite S2].
  intros j. specialize (R1 j). specialize (R2 j).
  destruct (rows s !! j) as [a|] eqn:Ha, (rows s1 !! j) as [b|] eqn:Hb, (rows s2 !! j) as [c|]; try done.
  destruct (tree_key _ _ _ _ T Ha) as [Ea _].
  destruct (String.eqb_spec (root_id a) k) as [Er|Nr]; cbn in R1.
  2:{ subst b. right. right. split; [tauto|]. destruct R2 as [(_ & Hr2 & _)|[_ ->]]; [|done].
    apply (raws_Some _ _ T) in Hr2 as (_ & ? & _). congruence. }
  unfold sel in R1. case_bool_decide as Hp.
  - right. left. subst b. split; [done|]. split; [done|].
    destruct R2 as [(_ & _ & Hs2 & _)|[_ ->]]; [by cbn in Hs2|done].
  - subst b. destruct (decide (status a = StatusFailed)) as [Hs|Hs].
    + left. split; [done|]. split; [done|].
      assert (Hdj : j ∈ dirty st) by (by apply (walk_reaches (rows s) k T now mark r Hk Hpar Hf st j a)).
      destruct R2 as [(_ & _ & _ & Sv)|[[Hn|Hn] _]]; [done| |].
      * exfalso. apply Hn. rewrite app_nil_r, Ea. by apply list_elem_of_In, in_rev, list_elem_of_In in Hdj.
      * exfalso. apply Hn. rewrite Ea. split; [|done]. apply (raws_Some _ _ T). split; [done|]. split; [done|].
        destruct (superseded_at a) eqn:Es; [|done]. exfalso.
        pose proof (ro_superseded _ (t_row _ _ T _ _ Ha)) as S. rewrite Es, Hs in S. by specialize (S ltac:(done)).
    + right. right. split; [tauto|]. destruct R2 as [(_ & _ & Hs2 & _)|[_ ->]]; [done|done].
Qed.

(** Where the root is not failed, the walk revives nothing. *)
Lemma retry_calm loadDef mark k force now n s s' r : tree_ok (rows s) -> rows s !! k = Some r ->
  status r <> StatusFailed -> retry_tx loadDef mark k force now s = Ok (n, s') ->
  exists ids, (forall j q, rows s !! j = Some q ->
      in_ids ids q = String.eqb (root_id q) k && bool_decide (status q = StatusPaused)) /\
    s' = mkDB (SetStatusIn StatusRunning now ids (rows s)) (signals s) /\ root_id r = k.
Proof.
  intros T Hk Hf H. unfold retry_tx in H. rewrite query_bind in H.
  change (lockTree _ k (rows s)) with (loaded (rows s) k) in H.
  change (list_to_map _) with (raws (rows s) k) in H.
  destruct (raws (rows s) k !! k) as [r'|] eqn:Hraw; [|done].
  pose proof (proj1 (raws_Some _ _ T _ _) Hraw) as (Hk' & Hroot & _). rewrite Hk in Hk'. injection Hk' as <-.
  cbn [revive nodes] in H. rewrite Hraw, (bool_decide_false _ Hf) in H. cbn [negb] in H.
  exists (map (fun r : row => id r) (matching (fun r : row => bool_decide (status r = StatusPaused)) (raws (rows s) k))).
  split; [intros j q; by apply (resumed_ids _ _ _ _ _ T (walk_start _ _))|].
  rewrite Tx_bind_Ok in H. destruct H as (u1 & s1 & H1 & H). cbn [save_dirty dirty length] in H.
  rewrite Tx_bind_Ok in H. destruct H as (u2 & s2 & [_ ->]%ret_Ok & [_ <-]%ret_Ok). split; [|done].
  cbn [nodes] in H1. unfold updateStatusIn in H1. destruct (map _ _) as [|i0 l0] eqn:Ei.
  - apply ret_Ok in H1 as [_ <-]. assert (E0 : SetStatusIn StatusRunning now [] (rows s) = rows s).
    { apply map_eq. intros j. unfold SetStatusIn. rewrite lookup_update. by destruct (rows s !! j). }
    rewrite E0. by destruct s.
  - apply exec_Ok in H1. done.
Qed.

(** A retry's transaction keeps the tree invariant, unless it finds its root pausing or
    failing; only failed rows leave their status for good. *)
Lemma retry_tx_keeps loadDef mark k force now n s s' : tree_ok (rows s) ->
  (forall r, rows s !! k = Some r -> status r ∉ [StatusPausing; StatusFailing]) ->
  retry_tx loadDef mark k force now s = Ok (n, s') ->
  keeps true (rows s) (rows s') /\ signals s' = signals s.
Proof.
  intros T Hst H.
  assert (Hr : exists r, rows s !! k = Some r /\ root_id r = k).
  { pose proof H as H'. unfold retry_tx in H'. rewrite query_bind in H'.
    change (list_to_map _) with (raws (rows s) k) in H'.
    destruct (raws (rows s) k !! k) as [r|] eqn:E; [|done]. apply (raws_Some _ _ T) in E as (? & ? & _). eauto. }
  destruct Hr as (r & Hr & Hroot). pose proof (tree_root _ _ _ _ _ _ T Hr Hr Hroot) as Hp. specialize (Hst _ Hr).
  destruct (decide (status r = StatusFailed)) as [Hf|Hf].
  - destruct (retry_rows _ _ _ _ _ _ _ _ _ T Hr Hp Hf H) as [R S]. split; [|done].
    destruct (retried_ok (rows s) k T now mark r Hr Hp Hf _ R) as (T' & Hs & E). by apply keeps_same.
  - destruct (retry_calm _ _ _ _ _ _ _ _ _ T Hr Hf H) as (ids & Hids & -> & _). cbn [rows signals]. split; [|done].
    destruct (decide (status r = StatusPaused)) as [Hs|Hs].
    + apply keeps_same; [by apply (resume_ok _ k _ T r)|by apply same_spawn_update|].
      apply evolves_any. by apply (resume_evolves _ k _ T r).
    + assert (E : SetStatusIn StatusRunning now ids (rows s) = rows s).
      { apply map_eq. intros j. unfold SetStatusIn. rewrite lookup_update. destruct (rows s !! j) as [q|] eqn:Hj; [|done].
        cbn. rewrite (Hids _ _ Hj). destruct (String.eqb_spec (root_id q) k) as [Eq|]; [|done]. cbn.
        case_bool_decide as B; [exfalso|done]. rewrite <- Eq in Hr. pose proof (t_paused _ _ T _ _ _ Hj B Hr) as P.
        clear -P Hst Hf Hs. destruct (status r); try done; set_solver. }
      rewrite E. by split; [|apply extends_same; [|apply evolves_refl]].
Qed.

End Revive.
