(* ===== verification/Retention.v ===== *)
(** Retention: internal/db/db_retention.go with its statements, the log sweep of
    internal/db/db_logs.go and the two sweeps of internal/engine/engine.go.

    Candidates are read unlocked and re-checked under the lock of their trees, so the read
    and the transaction are two operations here: anything may run between them.  A logged
    line carries its tree and its time; what else it holds is not read. *)
From Stdlib Require Import ZArith Lia String.
From stdpp Require Import strings gmap sorting.
From S2P Require Import Prelude Instance Store Lifecycle Tree Verbs.
Open Scope string_scope.
Open Scope list_scope.
Open Scope Z_scope.

Module Retention.
Import Instance Store Tree.

Implicit Types r p c q : row.
Implicit Types m : table.
Implicit Types k root : string.
Implicit Types roots candidates : list string.

(** * The statements *)

Record log_row := mkLog { log_root : string; log_created_at : Z }.
Record kept := mkKept { st : DBState; logs : list log_row }.

(** ORDER BY updated_at, id. *)
Definition oldest_update (a b : row) : Prop :=
  updated_at a < updated_at b \/ (updated_at a = updated_at b /\ String.le (id a) (id b)).
#[export] Instance oldest_update_dec a b : Decision (oldest_update a b).
Proof. unfold oldest_update. apply _. Defined.

Definition concluded_root (before : Z) (r : row) : bool :=
  String.eqb (parent_id r) "" &&
  bool_decide (status r ∈ [StatusCompleted; StatusFailed; StatusRaised; StatusCancelled]) &&
  (updated_at r <? before).
Definition ConcludedRootsBefore (before : Z) (maxTrees : nat) m : list string :=
  (fun r : row => id r) <$> take maxTrees (merge_sort oldest_update (matching (concluded_root before) m)).

Definition of_trees roots (r : row) : bool := bool_decide (root_id r ∈ roots).

Definition DeleteSignalsOfTrees roots (s : DBState) : DBState :=
  mkDB (rows s) (List.filter (fun sg =>
    negb (bool_decide (sig_instance sg ∈ map (fun r : row => id r) (matching (of_trees roots) (rows s))))) (signals s)).
Definition DeleteLogsOfTrees roots (l : list log_row) : list log_row :=
  List.filter (fun x => negb (bool_decide (log_root x ∈ roots))) l.
Definition DeleteTrees roots (s : DBState) : DBState :=
  mkDB (filter (fun kr => of_trees roots (snd kr) = false) (rows s)) (signals s).

Definition DeleteLogsBefore (before : Z) (l : list log_row) : Z * list log_row :=
  (Z.of_nat (length (List.filter (fun x => log_created_at x <? before) l)),
   List.filter (fun x => negb (log_created_at x <? before)) l).

(** * The prune *)

Record tree := mkSeen { rootOld : bool; settled_ : bool }.

Definition see_row (before : Z) (q : gmap string tree * list string) (r : row) : gmap string tree * list string :=
  let '(trees, order) := q in
  let order := match trees !! root_id r with Some _ => order | None => order ++ [root_id r] end in
  let t := default (mkSeen false true) (trees !! root_id r) in
  (<[root_id r := mkSeen
       (if String.eqb (id r) (root_id r) then Terminal (status r) && (updated_at r <? before) else rootOld t)
       (settled_ t && negb (Busy (status r)))]> trees, order).

Definition qualifies (trees : gmap string tree) root : bool :=
  match trees !! root with Some t => rootOld t && settled_ t | None => false end.

Definition lockConcludedTrees candidates (before : Z) m : list string :=
  let '(trees, order) := foldl (see_row before) (∅, []) (merge_sort by_id (matching (of_trees candidates) m)) in
  List.filter (qualifies trees) order.

Definition pruneTrees candidates (before : Z) (s : kept) : nat * kept :=
  let pruned := lockConcludedTrees candidates before (rows (st s)) in
  match pruned with
  | [] => (0%nat, s)
  | _ => (length pruned,
          mkKept (DeleteTrees pruned (DeleteSignalsOfTrees pruned (st s))) (DeleteLogsOfTrees pruned (logs s)))
  end.

(** With nothing between the read and the transaction. *)
Definition PruneConcludedTrees (before : Z) (maxTrees : nat) (s : kept) : nat * kept :=
  match ConcludedRootsBefore before maxTrees (rows (st s)) with
  | [] => (0%nat, s)
  | candidates => pruneTrees candidates before s
  end.

(** * The engine's sweeps *)

Definition defaultPruneBatchTrees : nat := 200.
Definition defaultPruneBatches : nat := 10.

Fixpoint prune_batches (batches batch : nat) (before : Z) (s : kept) : nat * kept :=
  match batches with
  | O => (0%nat, s)
  | S batches =>
      let '(n, s) := PruneConcludedTrees before batch s in
      if (n <? batch)%nat then (n, s)
      else let '(total, s) := prune_batches batches batch before s in ((n + total)%nat, s)
  end.
Definition pruneInstances (instanceRetention : Z) (batches batch : nat) (now : Z) (s : kept) : nat * kept :=
  if instanceRetention <=? 0 then (0%nat, s) else prune_batches batches batch (now - instanceRetention) s.

Definition pruneLogs (retention now : Z) (s : kept) : kept :=
  if retention <=? 0 then s else mkKept (st s) (snd (DeleteLogsBefore (now - retention) (logs s))).

(** * What the lock decides *)

(** A tree that is over: its root ended before the cutoff and nothing in it runs. *)
Definition concluded (before : Z) m root : Prop :=
  (exists r, m !! root = Some r /\ root_id r = root /\ Terminal (status r) = true /\ updated_at r < before) /\
  forall k r, m !! k = Some r -> root_id r = root -> Busy (status r) = false.

Record seen_ok (before : Z) (l : list row) (trees : gmap string tree) (order : list string) : Prop := mkSeenOk {
  so_order : forall root, root ∈ order <-> is_Some (trees !! root);
  so_nodup : NoDup order;
  so_some : forall root, is_Some (trees !! root) <-> exists r, r ∈ l /\ root_id r = root;
  so_settled : forall root t, trees !! root = Some t ->
    settled_ t = true <-> forall r, r ∈ l -> root_id r = root -> Busy (status r) = false;
  so_old : forall root t, NoDup (id <$> (r_spawn <$> l)) -> trees !! root = Some t ->
    rootOld t = true <-> exists r, r ∈ l /\ id r = root /\ root_id r = root /\ Terminal (status r) = true /\ updated_at r < before }.

Lemma see_row_ok before l r trees order trees' order' : seen_ok before l trees order ->
  see_row before (trees, order) r = (trees', order') -> seen_ok before (l ++ [r]) trees' order'.
Proof.
  intros S. unfold see_row. intros [= <- <-]. split.
  - intros root. destruct (trees !! root_id r) as [t|] eqn:E; destruct (decide (root = root_id r)) as [->|N].
    + rewrite lookup_insert_eq, (so_order _ _ _ _ S), E. split; eauto.
    + by rewrite lookup_insert_ne, (so_order _ _ _ _ S).
    + rewrite lookup_insert_eq. split; [eauto|]. intros _. apply elem_of_app. right. by left.
    + rewrite lookup_insert_ne, elem_of_app, (so_order _ _ _ _ S) by done. split; [|by left].
      intros [H|H%list_elem_of_singleton]; done.
  - destruct (trees !! root_id r) eqn:E; [apply S|]. apply NoDup_app. split_and!; [apply S| |apply NoDup_singleton].
    intros x Hx ->%list_elem_of_singleton. apply (so_order _ _ _ _ S) in Hx. rewrite E in Hx. by destruct Hx.
  - intros root. destruct (decide (root = root_id r)) as [->|N].
    + rewrite lookup_insert_eq. split; [|eauto]. intros _. exists r. split; [|done]. apply elem_of_app. right. by left.
    + rewrite lookup_insert_ne, (so_some _ _ _ _ S) by done. split; intros (x & Hx & E); exists x; (split; [|done]).
      * apply elem_of_app. by left.
      * apply elem_of_app in Hx as [Hx| ->%list_elem_of_singleton]; [done|]. by rewrite E in N.
  - intros root t. destruct (decide (root = root_id r)) as [->|N].
    + rewrite lookup_insert_eq. intros [= <-]. cbn [settled_]. rewrite andb_true_iff, negb_true_iff.
      assert (H : settled_ (default (mkSeen false true) (trees !! root_id r)) = true <->
                forall x : row, x ∈ l -> root_id x = root_id r -> Busy (status x) = false).
      { destruct (trees !! root_id r) as [t|] eqn:E; cbn; [by apply (so_settled _ _ _ _ S)|]. split; [|done].
        intros _ x Hx Ex. assert (X : is_Some (trees !! root_id r)) by (apply (so_some _ _ _ _ S); eauto).
        rewrite E in X. by destruct X. }
      rewrite H. split.
      * intros [Hl Hr] x [Hx| ->%list_elem_of_singleton]%elem_of_app; auto.
      * intros Hx. split; [intros x Hl; apply Hx|apply Hx; [|done]]; apply elem_of_app; [by left|right; by left].
    + rewrite lookup_insert_ne by done. intros E. rewrite (so_settled _ _ _ _ S _ _ E). split.
      * intros Hl x [Hx| ->%list_elem_of_singleton]%elem_of_app Er; [by apply Hl|]. by rewrite Er in N.
      * intros Hx x Hl. apply Hx, elem_of_app. by left.
  - intros root t Hnd. assert (Hnd' := Hnd). rewrite !fmap_app in Hnd. apply NoDup_app in Hnd as (Hl & Hd & _).
    assert (Hfresh : forall x : row, x ∈ l -> id x <> id r).
    { intros x Hx E. apply (Hd (id x)); [by do 2 apply list_elem_of_fmap_2|]. rewrite E. by left. }
    destruct (decide (root = root_id r)) as [->|N].
    + rewrite lookup_insert_eq. intros [= <-]. cbn [rootOld]. destruct (String.eqb_spec (id r) (root_id r)) as [Ei|Ni].
      * rewrite andb_true_iff, Z.ltb_lt. split.
        -- intros [Ht Hb]. exists r. split; [apply elem_of_app; right; by left|done].
        -- intros (x & [Hx| ->%list_elem_of_singleton]%elem_of_app & Ex & _ & Ht); [|done].
           destruct (Hfresh x Hx). congruence.
      * assert (X : rootOld (default (mkSeen false true) (trees !! root_id r)) = true <-> exists x : row, x ∈ l /\ id x = root_id r /\
                      root_id x = root_id r /\ Terminal (status x) = true /\ updated_at x < before).
        { destruct (trees !! root_id r) as [t|] eqn:E; cbn; [by apply (so_old _ _ _ _ S)|]. split; [done|].
          intros (x & Hx & _ & Ex & _). assert (X : is_Some (trees !! root_id r)) by (apply (so_some _ _ _ _ S); eauto).
          rewrite E in X. by destruct X. }
        rewrite X. split.
        -- intros (x & Hx & H). exists x. split; [apply elem_of_app; by left|done].
        -- intros (x & [Hx| ->%list_elem_of_singleton]%elem_of_app & H); [by exists x|]. by destruct H.
    + rewrite lookup_insert_ne by done. intros E. rewrite (so_old _ _ _ _ S _ _ Hl E). split.
      * intros (x & Hx & H). exists x. split; [apply elem_of_app; by left|done].
      * intros (x & [Hx| ->%list_elem_of_singleton]%elem_of_app & H); [by exists x|].
        destruct H as (_ & H & _). by rewrite H in N.
Qed.

Lemma see_rows_ok before l : exists trees order,
  foldl (see_row before) (∅, []) l = (trees, order) /\ seen_ok before l trees order.
Proof.
  induction l as [|r l (trees & order & E & S)] using rev_ind.
  - exists ∅, []. split; [done|]. split.
    + intros root. rewrite lookup_empty. split; [by intros ?%elem_of_nil|by intros []].
    + by apply NoDup_nil.
    + intros root. rewrite lookup_empty. split; [by intros []|]. by intros (? & ?%elem_of_nil & _).
    + intros root t. by rewrite lookup_empty.
    + intros root t _. by rewrite lookup_empty.
  - rewrite foldl_app, E. cbn [foldl]. destruct (see_row before (trees, order) r) as [t' o'] eqn:E'.
    exists t', o'. split; [done|]. by eapply see_row_ok.
Qed.

Lemma lock_ids m sel : keyed m -> NoDup (id <$> (r_spawn <$> merge_sort by_id (matching sel m))).
Proof.
  intros K. rewrite merge_sort_Permutation, <- list_fmap_compose. by apply (matching_ids sel m).
Qed.

Lemma lock_exact candidates before m root : keyed m ->
  root ∈ lockConcludedTrees candidates before m <-> root ∈ candidates /\ concluded before m root.
Proof.
  intros K. unfold lockConcludedTrees.
  destruct (see_rows_ok before (merge_sort by_id (matching (of_trees candidates) m))) as (trees & order & -> & S).
  assert (Hin : forall r, r ∈ merge_sort by_id (matching (of_trees candidates) m) <-> root_id r ∈ candidates /\ m !! id r = Some r).
  { intros r. rewrite merge_sort_Permutation, elem_of_matching. unfold of_trees. rewrite bool_decide_eq_true. split.
    - intros [H [k E]]. by rewrite (K _ _ E).
    - intros [H E]. eauto. }
  rewrite list_elem_of_In, List.filter_In, <- list_elem_of_In, (so_order _ _ _ _ S).
  unfold qualifies. split.
  - intros [Hs Hq]. destruct (trees !! root) as [t|] eqn:E; [|done]. apply andb_true_iff in Hq as [Ho Hq].
    apply (so_old _ _ _ _ S _ _ (lock_ids _ _ K) E) in Ho as (r & [Hc Hr]%Hin & Ei & Er & Ht & Hb).
    rewrite Er in Hc. rewrite Ei in Hr. split; [done|]. split; [by exists r|]. intros k q Hk Hq'.
    apply (so_settled _ _ _ _ S _ _ E); [done| |done]. apply Hin. rewrite Hq', (K _ _ Hk). done.
  - intros (Hc & (r & Hr & Er & Ht & Hb) & Hall). pose proof (K _ _ Hr) as Ei.
    assert (Hl : r ∈ merge_sort by_id (matching (of_trees candidates) m)) by (apply Hin; by rewrite Er, Ei).
    assert (X : is_Some (trees !! root)) by (apply (so_some _ _ _ _ S); eauto). split; [done|].
    destruct X as [t E]. rewrite E. apply andb_true_iff. split.
    + apply (so_old _ _ _ _ S _ _ (lock_ids _ _ K) E). by exists r.
    + apply (so_settled _ _ _ _ S _ _ E). intros q [_ Hq]%Hin Eq. by apply (Hall (id q)).
Qed.

Lemma lock_nodup candidates before m : NoDup (lockConcludedTrees candidates before m).
Proof.
  unfold lockConcludedTrees. destruct (see_rows_ok before (merge_sort by_id (matching (of_trees candidates) m)))
    as (trees & order & -> & S). apply NoDup_ListNoDup, List.NoDup_filter, NoDup_ListNoDup, S.
Qed.

(** * Whole trees *)

(** The tree of every row has its root. *)
Lemma root_row x m k r : tree_ok_but x m -> m !! k = Some r ->
  exists t : row, m !! root_id r = Some t /\ parent_id t = "" /\ root_id t = root_id r.
Proof.
  intros T. remember (length (call_stack r)) as n eqn:En. revert k r En.
  induction n as [n IH] using lt_wf_ind. intros k r En Hk. destruct (decide (parent_id r = "")) as [E|N].
  - pose proof (t_shape _ _ T _ _ Hk) as (_ & _ & Sh). rewrite decide_True in Sh by done.
    destruct Sh as [_ E0]. exists r. by rewrite E0.
  - destruct (tree_parent _ _ _ _ T Hk N) as (p & Hp & Hc & Er & _). rewrite Er.
    apply (IH (length (call_stack p))) with (k := parent_id r); [|done..].
    rewrite En, Hc, length_app. cbn. lia.
Qed.

Lemma root_iff x m k r : tree_ok_but x m -> m !! k = Some r -> parent_id r = "" <-> root_id r = k.
Proof.
  intros T Hk. split; intros E.
  - pose proof (t_shape _ _ T _ _ Hk) as (_ & _ & Sh). rewrite decide_True in Sh by done. by destruct Sh.
  - destruct (root_row _ _ _ _ T Hk) as (t & Ht & Et & _). rewrite E, Hk in Ht. by injection Ht as <-.
Qed.

(** Under the invariant nothing runs below a root that ended. *)
Lemma ended_idle x m k r r0 : tree_ok_but x m -> m !! k = Some r -> m !! root_id r = Some r0 ->
  Terminal (status r0) = true -> Busy (status r) = false.
Proof.
  intros T Hk H0 Ht. destruct (Busy (status r)) eqn:B; [|done].
  assert (Busy (status r0) = true).
  { apply (root_up _ _ (fun q => Busy (status q) = true) T) with (k := k) (r := r); [|done..].
    intros q p. apply link_busy_up. }
  by rewrite Busy_not_Terminal in Ht.
Qed.

(** Deleting whole trees leaves the invariant. *)
Lemma whole_trees_ok m m' (gone : string -> Prop) : tree_ok m ->
  (forall k r, m' !! k = Some r <-> m !! k = Some r /\ ~ gone (root_id r)) -> tree_ok m'.
Proof.
  intros T L.
  split.
  - intros k r [Hk Hg]%L. destruct (t_shape _ _ T _ _ Hk) as (Ei & Nk & Sh). split; [done|]. split; [done|].
    destruct (decide (parent_id r = "")); [done|]. destruct Sh as (p & Hp & Hc & Er & Hs). exists p.
    split; [|done]. apply L. by rewrite <- Er.
  - intros k r [Hk _]%L. by apply (t_row _ _ T k).
  - intros k r p [Hk _]%L [Hp _]%L. by apply (t_link _ _ T k).
  - intros k p Nk [Hk Hg]%L Hph Ht. destruct (t_wait _ _ T _ _ Nk Hk Hph Ht) as (j & c & Hj & Hc & H).
    exists j, c. split; [|done]. apply L. split; [done|].
    destruct (tree_key _ _ _ _ T Hk) as [Ei Nk'].
    assert (Ep : parent_id c = k) by (by rewrite (child_of_parent _ _ Hc)).
    destruct (tree_parent _ _ _ _ T Hj) as (p' & Hp' & _ & Er & _); [by rewrite Ep|].
    rewrite Ep, Hk in Hp'. injection Hp' as <-. by rewrite Er.
  - intros k r r0 [Hk _]%L Hs [H0 _]%L. by apply (t_paused _ _ T k r).
Qed.

(** * A prune *)

(** What a prune of [candidates] takes. *)
Definition taken candidates (before : Z) m root : Prop := root ∈ candidates /\ concluded before m root.

Record prune_of (before : Z) (roots : list string) (s s' : kept) : Prop := mkPruneOf {
  po_nodup : NoDup roots;
  po_rows : forall k r, rows (st s') !! k = Some r <-> rows (st s) !! k = Some r /\ root_id r ∉ roots;
  po_signals : forall sg, sg ∈ signals (st s') <->
    sg ∈ signals (st s) /\ forall r, rows (st s) !! sig_instance sg = Some r -> root_id r ∉ roots;
  po_logs : forall x, x ∈ logs s' <-> x ∈ logs s /\ log_root x ∉ roots }.

Lemma prune_of_nothing before s : prune_of before [] s s.
Proof.
  split; [by apply NoDup_nil|..]; intros; split; try (by intros []); intros H; (split; [done|]);
    try (intros r _); apply not_elem_of_nil.
Qed.

Lemma delete_of before roots s : keyed (rows (st s)) -> NoDup roots ->
  prune_of before roots s
    (mkKept (DeleteTrees roots (DeleteSignalsOfTrees roots (st s))) (DeleteLogsOfTrees roots (logs s))).
Proof.
  intros K Hn. split; [done|..].
  - intros k r. cbn. rewrite map_lookup_filter_Some. cbn. unfold of_trees. by rewrite bool_decide_eq_false.
  - intros sg. cbn. rewrite list_elem_of_In, List.filter_In, <- list_elem_of_In, negb_true_iff, bool_decide_eq_false.
    split; intros [Hs H]; (split; [done|]).
    + intros r Hr Hin. apply H, list_elem_of_In, List.in_map_iff. exists r. split; [by apply K|].
      apply list_elem_of_In, elem_of_matching. split; [by apply bool_decide_eq_true|by exists (sig_instance sg)].
    + intros (r & Ei & Hr)%list_elem_of_In%List.in_map_iff. apply list_elem_of_In, elem_of_matching in Hr as [Hc [k Hr]].
      apply bool_decide_eq_true in Hc. rewrite <- (K _ _ Hr), Ei in Hr. by apply (H r).
  - intros x. cbn. unfold DeleteLogsOfTrees. by rewrite list_elem_of_In, List.filter_In, <- list_elem_of_In, negb_true_iff, bool_decide_eq_false.
Qed.

Lemma prune_run candidates before s n s' : tree_ok (rows (st s)) -> pruneTrees candidates before s = (n, s') ->
  exists roots, (forall root, root ∈ roots <-> taken candidates before (rows (st s)) root) /\ n = length roots /\
    tree_ok (rows (st s')) /\ prune_of before roots s s'.
Proof.
  intros T E. pose proof (tree_keyed _ _ T) as K. exists (lockConcludedTrees candidates before (rows (st s))).
  split; [intros root; by apply lock_exact|]. unfold pruneTrees in E. pose proof (lock_nodup candidates before (rows (st s))) as Hn.
  destruct (lockConcludedTrees candidates before (rows (st s))) as [|root roots] eqn:El.
  - injection E as <- <-. split_and!; [done|done|apply prune_of_nothing].
  - rewrite <- El in *. injection E as <- <-. pose proof (delete_of before _ _ K Hn) as P. split_and!; [done| |done].
    exact (whole_trees_ok _ _ (fun x => x ∈ lockConcludedTrees candidates before (rows (st s))) T (po_rows _ _ _ _ P)).
Qed.

(** * A sweep *)

Lemma ended_terminal s0 : bool_decide (s0 ∈ [StatusCompleted; StatusFailed; StatusRaised; StatusCancelled]) = Terminal s0.
Proof. by destruct s0. Qed.

(** Under the invariant the unlocked read names only trees that are over. *)
Lemma concluded_iff before m root : tree_ok m ->
  concluded before m root <-> exists r, m !! root = Some r /\ concluded_root before r = true.
Proof.
  intros T. unfold concluded_root. setoid_rewrite andb_true_iff. setoid_rewrite andb_true_iff.
  setoid_rewrite String.eqb_eq. setoid_rewrite Z.ltb_lt. setoid_rewrite ended_terminal. split.
  - intros [(r & Hr & Er & Ht & Hb) _]. exists r. split; [done|]. split; [|done]. split; [|done].
    by apply (root_iff _ _ _ _ T Hr).
  - intros (r & Hr & [Ep Ht] & Hb). apply (root_iff _ _ _ _ T Hr) in Ep. split; [by exists r|].
    intros k q Hk Eq. apply (ended_idle _ _ _ _ r T Hk); [by rewrite Eq|done].
Qed.

Lemma candidates_spec before n m : tree_ok m ->
  NoDup (ConcludedRootsBefore before n m) /\ (length (ConcludedRootsBefore before n m) <= n)%nat /\
  (forall root, root ∈ ConcludedRootsBefore before n m -> concluded before m root) /\
  ((length (ConcludedRootsBefore before n m) < n)%nat ->
     forall root, concluded before m root -> root ∈ ConcludedRootsBefore before n m).
Proof.
  intros T. pose proof (tree_keyed _ _ T) as K. unfold ConcludedRootsBefore.
  set (all := merge_sort oldest_update (matching (concluded_root before) m)).
  assert (Ha : forall r, r ∈ all <-> concluded_root before r = true /\ m !! id r = Some r).
  { intros r. unfold all. rewrite merge_sort_Permutation, elem_of_matching. split.
    - intros [H [k E]]. by rewrite (K _ _ E).
    - intros [H E]. eauto. }
  assert (Hn : NoDup ((fun r : row => id r) <$> all)).
  { unfold all. rewrite merge_sort_Permutation. by apply matching_ids. }
  split_and!.
  - eapply sublist_NoDup; [exact Hn|]. apply fmap_sublist, sublist_take.
  - rewrite length_fmap, length_take. lia.
  - intros root (r & -> & Hr)%list_elem_of_fmap. apply (concluded_iff _ _ _ T). exists r.
    apply subseteq_take in Hr. by apply Ha in Hr as [? ?].
  - rewrite length_fmap, length_take. intros Hl root Hc. rewrite take_ge by lia.
    apply (concluded_iff _ _ _ T) in Hc as (r & Hr & Hc). apply list_elem_of_fmap. exists r.
    rewrite (K _ _ Hr). split; [done|]. apply Ha. by rewrite (K _ _ Hr).
Qed.

(** A prune whose candidates were read just before takes all of them. *)
Lemma prune_now before batch s n s' : tree_ok (rows (st s)) -> PruneConcludedTrees before batch s = (n, s') ->
  n = length (ConcludedRootsBefore before batch (rows (st s))) /\ tree_ok (rows (st s')) /\
  prune_of before (ConcludedRootsBefore before batch (rows (st s))) s s'.
Proof.
  intros T E. destruct (candidates_spec before batch _ T) as (Hn & _ & Hc & _). unfold PruneConcludedTrees in E.
  destruct (ConcludedRootsBefore before batch (rows (st s))) as [|root roots] eqn:El.
  { injection E as <- <-. split_and!; [done|done|apply prune_of_nothing]. }
  rewrite <- El in *. destruct (prune_run _ _ _ _ _ T E) as (gone & Hg & -> & T' & P).
  assert (Heq : gone ≡ₚ ConcludedRootsBefore before batch (rows (st s))).
  { apply NoDup_Permutation; [apply P|done|]. intros x. rewrite Hg. unfold taken. naive_solver. }
  split; [by rewrite Heq|]. split; [done|]. split; [done|..]; intros.
  - by rewrite (po_rows _ _ _ _ P), Heq.
  - rewrite (po_signals _ _ _ _ P). by setoid_rewrite Heq.
  - by rewrite (po_logs _ _ _ _ P), Heq.
Qed.

(** What a sweep leaves of a table: whole trees, all it took being over. *)
Record swept (before : Z) m m' : Prop := mkSwept {
  sw_sub : forall k r, m' !! k = Some r -> m !! k = Some r;
  sw_gone : forall k r, m !! k = Some r -> m' !! k = None -> concluded before m (root_id r);
  sw_whole : forall k j r q, m !! k = Some r -> m !! j = Some q -> root_id r = root_id q ->
    m' !! k = None -> m' !! j = None }.

Lemma swept_refl before m : swept before m m.
Proof. split; [done| |]; intros *; congruence. Qed.

Lemma prune_of_swept before roots s s' : (forall root, root ∈ roots -> concluded before (rows (st s)) root) ->
  prune_of before roots s s' -> swept before (rows (st s)) (rows (st s')).
Proof.
  intros Hc P. assert (Hg : forall k r, rows (st s) !! k = Some r -> rows (st s') !! k = None -> root_id r ∈ roots).
  { intros k r Hk Hn. destruct (decide (root_id r ∈ roots)) as [|N]; [done|].
    assert (X : rows (st s') !! k = Some r) by (by apply (po_rows _ _ _ _ P)). congruence. }
  split.
  - intros k r Hk. by apply (po_rows _ _ _ _ P).
  - intros k r Hk Hn. apply Hc. by apply (Hg k).
  - intros k j r q Hk Hj Er Hn. destruct (rows (st s') !! j) as [q'|] eqn:E; [|done].
    apply (po_rows _ _ _ _ P) in E as [E N]. rewrite Hj in E. injection E as <-. destruct N. rewrite <- Er. by apply (Hg k).
Qed.

Lemma swept_concluded before m m' root : tree_ok m -> swept before m m' -> concluded before m' root -> concluded before m root.
Proof.
  intros T S [(r & Hr & Er & Ht & Hb) Hall]. pose proof (sw_sub _ _ _ S _ _ Hr) as Hr'. split; [by exists r|].
  intros k q Hk Eq. apply (ended_idle _ _ _ _ r T Hk); [by rewrite Eq|done].
Qed.

Lemma swept_trans before m1 m2 m3 : tree_ok m1 -> swept before m1 m2 -> swept before m2 m3 -> swept before m1 m3.
Proof.
  intros T S1 S2. split.
  - intros k r Hk. by apply (sw_sub _ _ _ S1), (sw_sub _ _ _ S2).
  - intros k r Hk Hn. destruct (m2 !! k) as [r'|] eqn:E; [|by apply (sw_gone _ _ _ S1 k)].
    pose proof (sw_sub _ _ _ S1 _ _ E) as Hk'. rewrite Hk in Hk'. injection Hk' as <-.
    apply (swept_concluded _ _ _ _ T S1). by apply (sw_gone _ _ _ S2 k).
  - intros k j r q Hk Hj Er Hn. destruct (m3 !! j) as [q'|] eqn:E; [|done]. exfalso.
    pose proof (sw_sub _ _ _ S2 _ _ E) as E2. pose proof (sw_sub _ _ _ S1 _ _ E2) as E1. rewrite Hj in E1. injection E1 as <-.
    destruct (m2 !! k) as [r'|] eqn:E3.
    + pose proof (sw_sub _ _ _ S1 _ _ E3) as Hk'. rewrite Hk in Hk'. injection Hk' as <-.
      by rewrite (sw_whole _ _ _ S2 _ _ _ _ E3 E2 Er Hn) in E.
    + by rewrite (sw_whole _ _ _ S1 _ _ _ _ Hk Hj Er E3) in E2.
Qed.

Lemma prune_batches_run batches : forall batch before s n s', tree_ok (rows (st s)) ->
  prune_batches batches batch before s = (n, s') ->
  tree_ok (rows (st s')) /\ swept before (rows (st s)) (rows (st s')) /\ (n <= batches * batch)%nat /\
  ((n < batches * batch)%nat -> forall root, ~ concluded before (rows (st s')) root).
Proof.
  induction batches as [|batches IH]; intros batch before s n s' T E; cbn [prune_batches] in E.
  { injection E as <- <-. split_and!; [done|apply swept_refl|lia|lia]. }
  destruct (PruneConcludedTrees before batch s) as [n1 s1] eqn:E1.
  destruct (prune_now _ _ _ _ _ T E1) as (-> & T1 & P). destruct (candidates_spec before batch _ T) as (_ & Hle & Hc & Hall).
  pose proof (prune_of_swept _ _ _ _ Hc P) as S1. revert E.
  destruct (Nat.ltb_spec (length (ConcludedRootsBefore before batch (rows (st s)))) batch) as [Hlt|Hge].
  - intros [= <- <-]. split_and!; [done|done|lia|]. intros _ root Hr.
    destruct (Hr) as [(r & Hk & Er & _) _]. apply (po_rows _ _ _ _ P) in Hk as [Hk N]. rewrite Er in N. apply N, Hall; [done|].
    by apply (swept_concluded _ _ _ _ T S1).
  - destruct (prune_batches batches batch before s1) as [n2 s2] eqn:E2. intros [= <- <-].
    destruct (IH _ _ _ _ _ T1 E2) as (T2 & S2 & Hn & Hd). split_and!; [done|by eapply swept_trans|lia|]. intros Hlt. apply Hd. lia.
Qed.

End Retention.
