(* ===== verification/Moving.v ===== *)
(** The write of an upgrade: internal/db/db_upgrade.go.

    The state a row moves with is internal/validation's to compute, so a move carries its
    columns encoded. *)
From Stdlib Require Import ZArith Lia String.
From stdpp Require Import strings gmap sorting.
From S2P Require Import Prelude Instance Store Lifecycle Tree Verbs.
Open Scope string_scope.
Open Scope list_scope.
Open Scope Z_scope.

Module Moving.
Import Instance Store Tree.

Implicit Types r p c q : row.
Implicit Types m : table.
Implicit Types k : string.

(** * Writing *)

Record InstanceUpgrade := mkUpgrade { up_Instance : row; ToVersion : Z; NewCols : stateCols }.

Definition ErrUpgradeStale : db_error := ErrOther "instance changed while its upgrade was being prepared".

(** What [UpgradeInstanceVersion] pins of the row. *)
Definition unmoved (i : row) (r : row) : bool :=
  has_id (id i) r && (process_version r =? process_version i) && String.eqb (task r) (task i) &&
  bool_decide (status r ∈ [StatusPaused; StatusFailed]) && negb (held r).
Definition upgrade_set (to_ : Z) (new : stateCols) (now : Z) (r : row) : row :=
  mkRow (r_spawn r) to_
    (mkWork (task r) (task_epoch r) (next_replayable r) (retry_count r) (wake_at r) (status r) (phase r) (error_message r)
       (error_code r) now new)
    (r_lease r) (r_claim r) (superseded_at r).
Definition UpgradeInstanceVersion (i : row) (to_ : Z) (new : stateCols) (now : Z) : Tx Z :=
  execrows (unmoved i) (upgrade_set to_ new now).

Fixpoint UpgradeInstances (ups : list InstanceUpgrade) (now : Z) : Tx unit :=
  match ups with
  | [] => mret tt
  | up :: ups =>
      n ← UpgradeInstanceVersion (up_Instance up) (ToVersion up) (NewCols up) now;
      if n =? 0 then fail ErrUpgradeStale else UpgradeInstances ups now
  end.

(** * What a write does *)

Definition up_id (up : InstanceUpgrade) : string := id (up_Instance up).
Definition admitted m (up : InstanceUpgrade) : bool :=
  match m !! up_id up with Some r => unmoved (up_Instance up) r | None => false end.
Definition moved (ups : list InstanceUpgrade) (now : Z) k (r : row) : row :=
  match List.find (fun up => String.eqb (up_id up) k) ups with
  | Some up => upgrade_set (ToVersion up) (NewCols up) now r
  | None => r
  end.

Lemma unmoved_spec i r : unmoved i r = true <->
  id r = id i /\ process_version r = process_version i /\ task r = task i /\
  status r ∈ [StatusPaused; StatusFailed] /\ worker_id r = None.
Proof.
  unfold unmoved, has_id. rewrite !andb_true_iff, !String.eqb_eq, Z.eqb_eq, bool_decide_eq_true, negb_true_iff.
  unfold held. destruct (worker_id r); naive_solver.
Qed.

Lemma count_unmoved m up : keyed m -> 0 < count (unmoved (up_Instance up)) m <-> admitted m up = true.
Proof.
  intros K. rewrite count_pos. unfold admitted, up_id. split.
  - intros (k & r & Hk & Hu). destruct (proj1 (unmoved_spec _ _) Hu) as [E _]. by rewrite <- E, (K _ _ Hk), Hk.
  - destruct (m !! id (up_Instance up)) as [r|] eqn:E; [eauto|done].
Qed.

Lemma update_unmoved m up now : keyed m -> admitted m up = true ->
  update_rows (unmoved (up_Instance up)) (upgrade_set (ToVersion up) (NewCols up) now) m =
  map_imap (fun k r => Some (moved [up] now k r)) m.
Proof.
  intros K Ha. apply map_eq. intros k. rewrite lookup_update, map_lookup_imap. unfold moved. cbn [List.find].
  destruct (m !! k) as [r|] eqn:Hk; cbn; [|done]. f_equal. unfold admitted in Ha.
  destruct (String.eqb_spec (up_id up) k) as [<-|N].
  - rewrite Hk in Ha. by rewrite Ha.
  - destruct (unmoved (up_Instance up) r) eqn:E; [|done]. apply unmoved_spec in E as [E _].
    rewrite (K _ _ Hk) in E. by rewrite E in N.
Qed.

Lemma moved_keyed m ups now : keyed m -> keyed (map_imap (fun k r => Some (moved ups now k r)) m).
Proof.
  intros K k r'. rewrite map_lookup_imap. destruct (m !! k) as [r|] eqn:E; cbn; [|done]. intros [= <-].
  rewrite <- (K _ _ E). unfold moved. by destruct (List.find _ ups).
Qed.

Lemma forallb_same {A} (f g : A -> bool) l : (forall x, List.In x l -> f x = g x) -> forallb f l = forallb g l.
Proof.
  induction l as [|x l IH]; intros H; cbn; [done|]. rewrite (H x) by by left. by rewrite IH by (intros; apply H; by right).
Qed.

(** All or nothing, and exactly when every row stands where its move was computed. *)
Lemma upgrade_run ups : forall now m sg, keyed m -> NoDup (up_id <$> ups) ->
  UpgradeInstances ups now (mkDB m sg) =
  if forallb (admitted m) ups then Ok (tt, mkDB (map_imap (fun k r => Some (moved ups now k r)) m) sg) else Err ErrUpgradeStale.
Proof.
  induction ups as [|up ups IH]; intros now m sg K Hn.
  { cbn. unfold mret, Tx_ret. do 3 f_equal. apply map_eq. intros k. rewrite map_lookup_imap. by destruct (m !! k). }
  apply NoDup_cons in Hn as [Hu Hn]. cbn [UpgradeInstances]. unfold UpgradeInstanceVersion.
  rewrite (bind_run _ _ _ _ _ (proj2 (execrows_Ok _ _ _ _ _) (conj eq_refl eq_refl))). cbn [rows signals forallb].
  pose proof (count_unmoved m up K) as Hc. destruct (admitted m up) eqn:Ea; cbn.
  - replace (count (unmoved (up_Instance up)) m =? 0) with false by (symmetry; apply Z.eqb_neq; pose proof (proj2 Hc eq_refl); lia).
    rewrite (update_unmoved _ _ _ K Ea), (IH _ _ _ (moved_keyed _ _ _ K) Hn).
    assert (Hf : forallb (admitted (map_imap (fun k r => Some (moved [up] now k r)) m)) ups = forallb (admitted m) ups).
    { apply forallb_same. intros x Hx. unfold admitted. rewrite map_lookup_imap.
      destruct (m !! up_id x) as [r|]; cbn; [|done]. unfold moved. cbn [List.find].
      destruct (String.eqb_spec (up_id up) (up_id x)) as [E|N]; [|done]. destruct Hu. rewrite E.
      by apply list_elem_of_fmap_2, list_elem_of_In. }
    rewrite Hf. destruct (forallb (admitted m) ups); [|done]. do 3 f_equal. apply map_eq. intros k. rewrite !map_lookup_imap.
    destruct (m !! k) as [r|]; cbn; [|done]. f_equal. unfold moved. cbn [List.find].
    destruct (String.eqb_spec (up_id up) k) as [<-|N]; [|done].
    destruct (List.find _ ups) as [up'|] eqn:Ef; [|done]. apply List.find_some in Ef as [Hin E%String.eqb_eq].
    destruct Hu. rewrite <- E. by apply list_elem_of_fmap_2, list_elem_of_In.
  - replace (count (unmoved (up_Instance up)) m) with 0; [done|]. pose proof (count_nonneg (unmoved (up_Instance up)) m).
    destruct (Z.eq_dec (count (unmoved (up_Instance up)) m) 0); [done|]. assert (false = true) by (apply Hc; lia). done.
Qed.

Lemma restatus_upgrade to_ new now r : restatus r (upgrade_set to_ new now r).
Proof. done. Qed.

(** A table whose rows moved in nothing the invariant reads. *)
Lemma restated_ok m m' : tree_ok m -> rows_rel (fun r r' => restatus r r' /\ status r' = status r) m m' -> tree_ok m'.
Proof.
  intros T HR. apply (restatus_ok _ m m' _ T HR); [by intros k r r' _ []|by left; destruct H0|..].
  - intros k r r' p p' _ _ [_ ->] [_ ->]. tauto.
  - intros k p p' Nk Hk [_ Es] Hw Hph Ht. rewrite Es in Ht. destruct (Hw Hph Ht) as (j & c & Hj & Hc & Hl & Hd).
    exists j, c. split; [done|]. split; [done|]. intros c' [_ Ec]. rewrite Ec, Es. done.
  - intros k r r' r0 r0' Hk [_ Es] H0 [_ E0] Hs. rewrite E0. rewrite Es in Hs. by apply (t_paused _ _ T k r).
Qed.

Lemma moved_rel m ups now : rows_rel (fun r r' => restatus r r' /\ status r' = status r) m
  (map_imap (fun k r => Some (moved ups now k r)) m).
Proof.
  intros k. rewrite map_lookup_imap. destruct (m !! k) as [r|]; cbn; [|done]. unfold moved. by destruct (List.find _ ups).
Qed.

Lemma find_up ups up : NoDup (up_id <$> ups) -> up ∈ ups -> List.find (fun x => String.eqb (up_id x) (up_id up)) ups = Some up.
Proof.
  induction ups as [|x ups IH]; [by intros _ ?%elem_of_nil|]. intros [Hx Hn]%NoDup_cons [->|Hu]%elem_of_cons; cbn.
  - by rewrite String.eqb_refl.
  - destruct (String.eqb_spec (up_id x) (up_id up)) as [E|N]; [|by apply IH]. destruct Hx. rewrite E. by apply list_elem_of_fmap_2.
Qed.

Lemma forallb_false {A} (f : A -> bool) l : forallb f l = false -> exists x, x ∈ l /\ f x = false.
Proof.
  induction l as [|x l IH]; cbn; [done|]. destruct (f x) eqn:E; [|exists x; split; [by left|done]].
  intros (y & Hy & Ey)%IH. exists y. split; [by right|done].
Qed.

(** An upgrade keeps the invariant, whatever it moves. *)
Lemma upgrade_row_ok up now m : tree_ok m ->
  tree_ok (update_rows (unmoved (up_Instance up)) (upgrade_set (ToVersion up) (NewCols up) now) m) /\
  evolves false m (update_rows (unmoved (up_Instance up)) (upgrade_set (ToVersion up) (NewCols up) now) m).
Proof.
  intros T. set (m' := update_rows _ _ m).
  assert (HR : rows_rel (fun r r' => restatus r r' /\ status r' = status r) m m').
  { apply rows_rel_update. intros k r _. by destruct (unmoved _ r). }
  split; [by apply (restated_ok m)|]. apply (rows_rel_evolves _ _ _ _ HR). intros k r r' _ [Hr Hs].
  apply evolves1_restatus; [done|by rewrite Hs..|]. intros _. rewrite Hs. apply since_refl.
Qed.

Lemma UpgradeInstances_keeps ups now : forall s s', tree_ok (rows s) -> UpgradeInstances ups now s = Ok (tt, s') ->
  keeps false (rows s) (rows s').
Proof.
  induction ups as [|up ups IH]; intros s s' T H; cbn [UpgradeInstances] in H.
  { apply ret_Ok in H as [_ <-]. by apply Verbs.keeps_refl. }
  rewrite Tx_bind_Ok in H. destruct H as (n & s1 & H1 & H). apply execrows_Ok in H1 as [_ ->].
  destruct (n =? 0); [done|]. destruct (upgrade_row_ok up now _ T) as [T1 E1].
  destruct (IH (mkDB _ (signals s)) s' T1 H) as [T' X]. split; [done|]. eapply extends_after; [|exact E1|exact X].
  by apply same_spawn_update.
Qed.

End Moving.
