(* ===== verification/System.v ===== *)
(** The whole lifecycle as a step relation: workers that claim, advance and write,
    operators, external workers and signals, in any interleaving, over one database, and
    the prunes that delete its concluded trees.

    A step is a transaction that committed; one that failed changed nothing.  The
    engine enters through what it may ask of a write ([advanced], [goes_on],
    [concludes], [child_for]); every grant ever handed out stays in [grants] and may
    be written under at any later time, which is how a stale worker is modelled.

    The step of a retry is its transaction alone, in any state: the check of the root's
    status runs outside of it, so it may have passed long before.  A retry whose
    transaction finds its root pausing or failing ([in_turn]) breaks the invariant, in the
    code as here ([Operators.retry_strands_pause]); [steps] are the runs with none. *)
From Stdlib Require Import ZArith Lia String.
From stdpp Require Import sorting.
From S2P Require Import Prelude.
From S2P Require Import Instance.
From S2P Require Import Store.
From S2P Require Import Lifecycle.
From S2P Require Import External.
From S2P Require Import Tree.
From S2P Require Import Drain.
From S2P Require Import Verbs.
From S2P Require Import Revive.
From S2P Require Import Retention.
From S2P Require Import Moving.
Open Scope string_scope.
Open Scope list_scope.
Open Scope Z_scope.

Module System.
Import Instance Store Lifecycle External Tree Drain Verbs Revive.

Implicit Types r p c h q : row.
Implicit Types m : table.
Implicit Types k : string.

Record sys := mkSys { db : DBState; grants : list ProcessInstance }.

(** Who acted: the holder of a grant, a retry of a tree, or anything else. *)
Inductive label := LHolder (g : ProcessInstance) | LRetry (k : string) | LOther.

(** An engine write under the grant [g], of the instance [i] it advanced to. *)
Inductive holder_write (g i : ProcessInstance) (s s' : DBState) : Prop :=
  | w_progress now : status g = StatusRunning ->
      UpdateInstanceProgress i now s = Ok (tt, s') -> holder_write g i s s'
  | w_update now : goes_on g (status i) -> UpdateInstance i now s = Ok (tt, s') -> holder_write g i s s'
  | w_conclude pg now : concludes (status g) (status i) = true ->
      saveAndNotify pg i now s = Ok (tt, s') -> holder_write g i s s'
  | w_spawn children now : status g = StatusRunning -> task i <> "" -> children <> [] ->
      (forall c : ProcessInstance, c ∈ children -> child_for i c) ->
      SpawnChildrenAndWait i children now s = Ok (tt, s') -> holder_write g i s s'
  | w_respawn retired children now : status g = StatusRunning -> task i <> "" -> children <> [] ->
      (forall k, k ∈ retired -> exists r, rows s !! k = Some r /\ status r = StatusRaised) ->
      (forall c : ProcessInstance, c ∈ children -> child_for i c) ->
      RespawnSlotsAndWait i retired children now s = Ok (tt, s') -> holder_write g i s s'
  | w_arm t input wake b now : goes_on g (status i) ->
      ArmExternalUnlessSignalled i t input wake now s = Ok (b, s') -> holder_write g i s s'.

Section Steps.
Context (loadDef : string -> Z -> option (list task_info)) (mark_override : string -> string).

(** Everything else that writes instance rows: new ones, operators, external workers,
    leases and upgrades.  Deletions are [pruned]. *)
Inductive other_write (s s' : DBState) : Prop :=
  | o_create i now : new_root i -> SaveInstance i now s = Ok (tt, s') -> other_write s s'
  | o_renew w ids dur now t : RenewWorkerLeases w ids dur now s = Ok (t, s') -> other_write s s'
  | o_pause k now x : PauseProcess k now s = Ok (x, s') -> other_write s s'
  | o_cancel k now x : CancelProcess k now s = Ok (x, s') -> other_write s s'
  | o_resume k now x : ResumeProcess k now s = Ok (x, s') -> other_write s s'
  | o_signal k t out sid seq now b : DeliverSignal k t out sid seq now s = Ok (b, s') -> other_write s s'
  | o_resolve k e cl out sid seq now : ResolveExternalTask k e cl out sid seq now s = Ok (tt, s') ->
      other_write s s'
  | o_eclaim w dur limit pn pv tsk now out :
      ClaimExternalTasks w dur limit pn pv tsk now s = Ok (out, s') -> other_write s s'
  | o_erenew w claims expiry out : RenewExternalClaims w claims expiry s = Ok (out, s') -> other_write s s'
  | o_erelease k te ce now : ReleaseExternalClaim k te ce now s = Ok (tt, s') -> other_write s s'
  | o_elost k te now : MarkExternalClaimLost k te now s = Ok (tt, s') -> other_write s s'
  | o_upgrade ups now : Moving.UpgradeInstances ups now s = Ok (tt, s') -> other_write s s'.

Inductive step : label -> sys -> sys -> Prop :=
  | step_claim worker dur limit cutoff now out s s' gs : worker <> "" ->
      ClaimInstances worker dur limit cutoff now s = Ok (out, s') ->
      step LOther (mkSys s gs) (mkSys s' (gs ++ out))
  | step_holder g i s s' gs : g ∈ gs -> advanced g i -> holder_write g i s s' ->
      step (LHolder g) (mkSys s gs) (mkSys s' gs)
  | step_other s s' gs : other_write s s' -> step LOther (mkSys s gs) (mkSys s' gs)
  | step_retry k force now n s s' gs :
      retry_tx loadDef mark_override k force now s = Ok (n, s') ->
      step (LRetry k) (mkSys s gs) (mkSys s' gs).

(** No retry's transaction runs in a tree that stops: its root is neither pausing nor
    failing. *)
Definition in_turn (l : label) (a : sys) : Prop :=
  match l with
  | LRetry k => forall r, rows (db a) !! k = Some r -> status r ∉ [StatusPausing; StatusFailing]
  | _ => True
  end.

Inductive steps : sys -> sys -> Prop :=
  | steps_refl a : steps a a
  | steps_step l a b d : steps a b -> in_turn l b -> step l b d -> steps a d.

(** A prune of the trees of [candidates], read at any earlier time.  A grant on a deleted row
    can write nothing any more. *)
Definition pruned (candidates : list string) (before : Z) (a : sys) : sys :=
  let s := Retention.st (Retention.pruneTrees candidates before (Retention.mkKept (db a) [])).2 in
  mkSys s (List.filter (fun g : ProcessInstance => bool_decide (is_Some (rows s !! id g))) (grants a)).

(** Runs with prunes in between. *)
Inductive life : sys -> sys -> Prop :=
  | life_refl a : life a a
  | life_step l a b d : life a b -> in_turn l b -> step l b d -> life a d
  | life_prune candidates before a b : life a b -> life a (pruned candidates before b).

Definition init : sys := mkSys (mkDB ∅ []) [].
Definition reachable (a : sys) : Prop := life init a.

Lemma life_steps a b d : life a b -> steps b d -> life a d.
Proof. intros H. induction 1 as [|l b b' d _ IH T X]; [done|]. by eapply life_step; [apply IH|..]. Qed.

Lemma steps_life a b : steps a b -> life a b.
Proof. apply life_steps, life_refl. Qed.

Lemma life_trans a b d : life a b -> life b d -> life a d.
Proof.
  intros H. induction 1 as [|l b b' d _ IH T X|c bf b d _ IH]; [done|by eapply life_step; [apply IH|..]|].
  by apply life_prune, IH.
Qed.

(** * The invariant *)

Record sys_ok (a : sys) : Prop := mkOk {
  so_tree : tree_ok (rows (db a));
  so_grants : forall g, g ∈ grants a -> fl_ok (rows (db a)) g }.

Definition is_retry (l : label) : bool := match l with LRetry _ => true | _ => false end.

Lemma holder_write_wrote g i s s' : tree_ok (rows s) -> fl_ok (rows s) g -> advanced g i ->
  holder_write g i s s' -> wrote (rows s) (rows s') g.
Proof.
  intros T F A [now Hg H|now Hg H|pg now Hc H|ch now Hg Ht Hne Hcs H|rt ch now Hg Ht Hne Hr Hcs H|t inp wk b now Hg H].
  - by eapply UpdateInstanceProgress_keeps.
  - eapply UpdateInstance_keeps; eauto.
  - by eapply saveAndNotify_keeps.
  - by eapply SpawnChildrenAndWait_keeps.
  - by eapply RespawnSlotsAndWait_keeps.
  - by eapply ArmExternal_keeps.
Qed.

Lemma other_write_keeps s s' : tree_ok (rows s) -> other_write s s' -> keeps false (rows s) (rows s').
Proof.
  intros T [i now N H|w ids dur now t H|k now x H|k now x H|k now x H|k t out sid seq now b H
    |k e cl out sid seq now H|w dur lim pn pv tsk now out H|w cls ex out H|k te ce now H|k te now H|ups now H].
  - by eapply SaveInstance_keeps.
  - by eapply RenewWorkerLeases_keeps.
  - by eapply PauseProcess_keeps.
  - by eapply CancelProcess_keeps.
  - by eapply ResumeProcess_keeps.
  - by eapply DeliverSignal_keeps.
  - by eapply ResolveExternalTask_keeps.
  - by eapply ClaimExternalTasks_keeps.
  - by eapply RenewExternalClaims_keeps.
  - by eapply ReleaseExternalClaim_keeps.
  - by eapply MarkExternalClaimLost_keeps.
  - by eapply Moving.UpgradeInstances_keeps.
Qed.

Lemma step_keeps l a b : sys_ok a -> in_turn l a -> step l a b ->
  sys_ok b /\ extends (is_retry l) (rows (db a)) (rows (db b)).
Proof.
  intros [T F] Ht H. destruct H as [worker dur limit cutoff now out s s' gs Hne H|g i s s' gs Hg A H|s s' gs H
    |k force now n s s' gs H]; cbn in *.
  - destruct (ClaimInstances_keeps _ _ _ _ _ _ _ _ T Hne H) as [[T' E] Hout]. split; [split; cbn; [done|]|done].
    intros g [Hg|Hg]%elem_of_app; [|by apply Hout]. by eapply fl_ok_extends; [apply F|].
  - destruct (wr_keeps _ _ _ (holder_write_wrote _ _ _ _ T (F g Hg) A H)) as [T' E]. split; [split; cbn; [done|]|done].
    intros g' Hg'. by eapply fl_ok_extends; [apply F|].
  - destruct (other_write_keeps _ _ T H) as [T' E]. split; [split; cbn; [done|]|done].
    intros g' Hg'. by eapply fl_ok_extends; [apply F|].
  - destruct (retry_tx_keeps _ _ _ _ _ _ _ _ T Ht H) as [[T' E] _]. split; [split; cbn; [done|]|done].
    intros g' Hg'. by eapply fl_ok_extends; [apply F|].
Qed.

Lemma init_ok : sys_ok init.
Proof.
  split; cbn; [|by intros g Hg%elem_of_nil].
  split; intros *; by rewrite lookup_empty.
Qed.

(** What a prune does to the table: whole trees that are over go, every other row stays as
    it is, and no row that goes is held. *)
Lemma pruned_rows candidates before a k r : tree_ok (rows (db a)) ->
  rows (db (pruned candidates before a)) !! k = Some r <->
  rows (db a) !! k = Some r /\ ~ Retention.taken candidates before (rows (db a)) (root_id r).
Proof.
  intros T. unfold pruned. destruct (Retention.pruneTrees _ _ _) as [n s'] eqn:E. cbn.
  destruct (Retention.prune_run _ _ (Retention.mkKept (db a) []) _ _ T E) as (roots & Hr & _ & _ & P).
  rewrite (Retention.po_rows _ _ _ _ P), Hr. done.
Qed.

Lemma pruned_gone candidates before a k r : tree_ok (rows (db a)) -> rows (db a) !! k = Some r ->
  rows (db (pruned candidates before a)) !! k = None ->
  Retention.taken candidates before (rows (db a)) (root_id r).
Proof.
  intros T Hk. unfold pruned. destruct (Retention.pruneTrees _ _ _) as [n s'] eqn:E. cbn. intros Hn.
  destruct (Retention.prune_run _ _ (Retention.mkKept (db a) []) _ _ T E) as (roots & Hr & _ & _ & P).
  apply Hr. destruct (decide (root_id r ∈ roots)) as [|N]; [done|].
  rewrite (proj2 (Retention.po_rows _ _ _ _ P k r)) in Hn; done.
Qed.

Lemma pruned_ok candidates before a : sys_ok a -> sys_ok (pruned candidates before a).
Proof.
  intros [T F]. assert (T' : tree_ok (rows (db (pruned candidates before a)))).
  { unfold pruned. destruct (Retention.pruneTrees _ _ _) as [n s'] eqn:E. cbn.
    by destruct (Retention.prune_run _ _ (Retention.mkKept (db a) []) _ _ T E) as (roots & _ & _ & T' & _). }
  split; [done|]. intros g Hg. apply list_elem_of_In, List.filter_In in Hg as [Hg [r' Hr']%bool_decide_eq_true].
  change (rows (db (pruned candidates before a)) !! id g = Some r') in Hr'.
  pose proof (proj1 (pruned_rows _ _ _ _ _ T) Hr') as [Hr _]. apply list_elem_of_In in Hg.
  destruct (F _ Hg) as [Hw (r & Hr2 & Es & Hle & Hk)]. rewrite Hr in Hr2. injection Hr2 as <-.
  split; [done|]. exists r'. split_and!; [done..|]. intros W E. destruct (Hk W E) as (? & ? & ? & ? & Hc).
  split_and!; try done. intros Hs j c Hj. apply (Hc Hs j c). by apply (pruned_rows _ _ _ _ _ T) in Hj as [? _].
Qed.

Lemma steps_ok a b : sys_ok a -> steps a b -> sys_ok b.
Proof. intros Ha H. induction H as [|l a b d _ IH Ht H]; [done|]. by eapply step_keeps; [apply IH|..]. Qed.

Lemma life_ok a b : sys_ok a -> life a b -> sys_ok b.
Proof.
  intros Ha H. induction H as [|l a b d _ IH Ht H|c bf a b _ IH]; [done| |by apply pruned_ok, IH].
  by eapply step_keeps; [apply IH|..].
Qed.

Lemma reachable_steps a b : reachable a -> steps a b -> reachable b.
Proof. apply life_steps. Qed.

Lemma reachable_sys_ok a : reachable a -> sys_ok a.
Proof. apply life_ok, init_ok. Qed.

End Steps.

End System.
