(* ===== verification/Guarantees.v ===== *)
(** What the lifecycle guarantees in every reachable state. *)
From Stdlib Require Import ZArith Lia String.
From stdpp Require Import sorting.
From S2P Require Import Prelude.
From S2P Require Import Instance.
From S2P Require Import Store.
From S2P Require Import Lifecycle.
From S2P Require Import External.
From S2P Require Import Tree.
From S2P Require Import Drain.
From S2P Require Import Verbs.
From S2P Require Import Revive.
From S2P Require Import Retention.
From S2P Require Import System.
Open Scope string_scope.
Open Scope list_scope.
Open Scope Z_scope.

Module Guarantees.
Import Instance Store Lifecycle External Tree Drain Verbs Revive System.

Implicit Types r p c h q : row.
Implicit Types m : table.
Implicit Types k : string.

(** * A concrete run, for the witnesses *)

Definition no_cols : stateCols := mkCols "" "" "" "" "" "" "" "" false.

(** An instance as its creation, or a spawn, builds it. *)
Definition instance (k parent : string) (stack : list string) (spawn t : string) (epoch : Z) : ProcessInstance :=
  mkInstance
    (mkRow (mkSpawn k "order" parent "" stack spawn epoch 0) 1
       (mkWork t 0 true 0 None StatusRunning PhaseNone "" "" 0 no_cols)
       (mkLease None None 0) (mkClaim None None 0) None) false "".

Definition order : ProcessInstance := instance "order-1" "" [] "" "ship" 0.
Definition parcel : ProcessInstance := instance "parcel-1" "order-1" ["order-1"] "ship" "pack" 0.

Definition no_defs (_ : string) (_ : Z) : option (list task_info) := None.
Definition no_mark (s : string) : string := s.

(** The order is created, claimed and spawns its parcel, which is claimed; then the
    operator pauses the order. *)
Definition s_created : DBState := after (SaveInstance order 10) (mkDB ∅ []).
Definition claim_by (w : string) (now : Z) (s : DBState) : list ProcessInstance :=
  match ClaimInstances w 1000 10 0 now s with Ok (out, _) => out | Err _ => [] end.
Definition s_claimed : DBState := after (ClaimInstances "w1" 1000 10 0 20) s_created.
Definition g_order : ProcessInstance := match claim_by "w1" 20 s_created with g :: _ => g | [] => order end.
Definition s_spawned : DBState := after (SpawnChildrenAndWait g_order [parcel] 30) s_claimed.
Definition s_busy : DBState := after (ClaimInstances "w2" 1000 10 0 40) s_spawned.
Definition g_parcel : ProcessInstance := match claim_by "w2" 40 s_spawned with g :: _ => g | [] => order end.
Definition s_pausing : DBState := after (PauseProcess "order-1" 50) s_busy.

Example run_statuses :
  map (fun k => (fun r : row => (status r, phase r, worker_id r)) <$> rows s_pausing !! k) ["order-1"; "parcel-1"] =
  [Some (StatusPausing, PhaseChildren, None); Some (StatusPausing, PhaseNone, Some "w2")].
Proof. vm_compute. reflexivity. Qed.

Lemma run_created : SaveInstance order 10 (mkDB ∅ []) = Ok (tt, s_created).
Proof. vm_compute. reflexivity. Qed.
Lemma run_claimed : ClaimInstances "w1" 1000 10 0 20 s_created = Ok ([g_order], s_claimed).
Proof. vm_compute. reflexivity. Qed.
Lemma run_spawned : SpawnChildrenAndWait g_order [parcel] 30 s_claimed = Ok (tt, s_spawned).
Proof. vm_compute. reflexivity. Qed.
Lemma run_busy : ClaimInstances "w2" 1000 10 0 40 s_spawned = Ok ([g_parcel], s_busy).
Proof. vm_compute. reflexivity. Qed.
Lemma run_pausing : exists x, PauseProcess "order-1" 50 s_busy = Ok (x, s_pausing).
Proof. eexists. vm_compute. reflexivity. Qed.
Lemma run_root : new_root order.
Proof. vm_compute. split_and!; congruence. Qed.
Lemma run_order : advanced g_order g_order /\ status g_order = StatusRunning /\ task g_order <> "" /\
  child_for g_order parcel.
Proof. split_and!; [split| | |split]; vm_compute; congruence. Qed.

Abbreviation demo_state := (mkSys s_pausing [g_order; g_parcel]).

Lemma steps_trans loadDef mark a b d :
  steps loadDef mark a b -> steps loadDef mark b d -> steps loadDef mark a d.
Proof. intros H1 H2. induction H2 as [|l a' b' d' _ IH T H]; [done|]. by eapply steps_step; [apply IH|..]. Qed.

Lemma step_steps loadDef mark l a b : in_turn l a -> step loadDef mark l a b -> steps loadDef mark a b.
Proof. intros T H. exact (steps_step _ _ _ _ _ _ (steps_refl _ _ _) T H). Qed.

Lemma demo_create : steps no_defs no_mark init (mkSys s_created []).
Proof.
  refine (step_steps _ _ LOther _ _ I (step_other _ _ _ s_created [] _)).
  exact (o_create _ _ order 10 run_root run_created).
Qed.

Lemma demo_created : reachable no_defs no_mark (mkSys s_created []).
Proof. exact (steps_life _ _ _ _ demo_create). Qed.

Lemma demo_started : reachable no_defs no_mark (mkSys s_claimed [g_order]).
Proof.
  refine (reachable_steps _ _ _ _ demo_created (step_steps _ _ LOther _ _ I _)).
  refine (step_claim _ _ _ _ _ _ _ _ _ s_claimed [] _ run_claimed). done.
Qed.

Lemma demo_spawn : step no_defs no_mark (LHolder g_order) (mkSys s_claimed [g_order]) (mkSys s_spawned [g_order]).
Proof.
  destruct run_order as (A & S & Tk & Ch).
  refine (step_holder _ _ g_order g_order s_claimed s_spawned [g_order] _ A _); [left|].
  refine (w_spawn _ _ _ _ [parcel] 30 S Tk _ _ run_spawned); [done|].
  intros c Hc. apply list_elem_of_singleton in Hc. by subst c.
Qed.

Lemma demo_spawned : steps no_defs no_mark (mkSys s_claimed [g_order]) (mkSys s_spawned [g_order]).
Proof. exact (step_steps _ _ _ _ _ (I : in_turn (LHolder g_order) _) demo_spawn). Qed.

Lemma demo_claim : steps no_defs no_mark (mkSys s_spawned [g_order]) (mkSys s_busy [g_order; g_parcel]).
Proof.
  refine (step_steps _ _ LOther _ _ I (step_claim _ _ _ _ _ _ _ _ _ s_busy [g_order] _ run_busy)). done.
Qed.

Lemma demo_rest : steps no_defs no_mark (mkSys s_spawned [g_order]) demo_state.
Proof.
  destruct run_pausing as [x P].
  refine (steps_trans _ _ _ _ _ demo_claim (step_steps _ _ LOther _ _ I
    (step_other _ _ s_busy s_pausing [g_order; g_parcel] _))).
  exact (o_pause _ _ _ _ _ P).
Qed.

Lemma demo_from_claim : steps no_defs no_mark (mkSys s_claimed [g_order]) demo_state.
Proof. exact (steps_trans _ _ _ _ _ demo_spawned demo_rest). Qed.

Lemma demo_reachable : reachable no_defs no_mark demo_state.
Proof. exact (reachable_steps _ _ _ _ demo_started demo_from_claim). Qed.

Lemma demo_busy : reachable no_defs no_mark (mkSys s_busy [g_order; g_parcel]).
Proof. exact (reachable_steps _ _ _ _ demo_started (steps_trans _ _ _ _ _ demo_spawned demo_claim)). Qed.

Definition row_of (k : string) (s : DBState) : row := default (order : row) (rows s !! k).

Lemma run_rows : rows s_pausing !! "order-1" = Some (row_of "order-1" s_pausing) /\
  rows s_pausing !! "parcel-1" = Some (row_of "parcel-1" s_pausing) /\
  rows s_claimed !! "order-1" = Some (row_of "order-1" s_claimed) /\
  rows s_busy !! "order-1" = Some (row_of "order-1" s_busy) /\
  rows s_created !! "order-1" = Some (row_of "order-1" s_created).
Proof. split_and!; vm_compute; reflexivity. Qed.

Section Reachable.
Context (loadDef : string -> Z -> option (list task_info)) (mark_override : string -> string).
Abbreviation reachable := (reachable loadDef mark_override).
Abbreviation steps := (steps loadDef mark_override).
Abbreviation life := (life loadDef mark_override).
Abbreviation step := (step loadDef mark_override).

(** C9. The statuses of parent and child, the batch and the wait agree in every state reached
    by a run, prunes and upgrades included, in which no retry's transaction finds its root
    pausing or failing; and every grant still on its row finds the row as it was claimed.
    (RetryProcess checks the root's status outside its transaction: [retry_strands_pause]
    is the run this leaves out, and what it breaks.) *)
Theorem reachable_tree_ok a : reachable a ->
  tree_ok (rows (db a)) /\ forall g, g ∈ grants a -> fl_ok (rows (db a)) g.
Proof. intros H. destruct (reachable_sys_ok _ _ _ H) as [T F]. done. Qed.

(** * No stop is lost *)

(** Below a draining row there is one a worker can be granted. *)
Lemma draining_leaf m : tree_ok m -> forall n k r, (size m - length (call_stack r) < n)%nat -> m !! k = Some r ->
  Draining (status r) = true ->
  exists j q, m !! j = Some q /\ (j = k \/ k ∈ call_stack q) /\
    status q ∈ [StatusPausing; StatusCancelling] /\ phase q <> PhaseChildren.
Proof.
  intros T. induction n as [|n IH]; intros k r Hn Hk Hd; [lia|].
  destruct (decide (phase r = PhaseChildren)) as [Hph|Hph].
  2:{ exists k, r. split_and!; auto. pose proof (ro_failing _ (t_row _ _ T _ _ Hk)) as Hf.
    destruct (status r); try done; [by specialize (Hf eq_refl)|set_solver..]. }
  destruct (tree_key _ _ _ _ T Hk) as [Ek Nk].
  destruct (t_wait _ _ T k r Nk Hk Hph) as (j & c & Hj & Hc & _ & Hb).
  { clear -Hd. by destruct (status r). }
  pose proof (child_of_parent _ _ Hc) as Ep. rewrite Ek in Ep.
  assert (Hp : m !! parent_id c = Some r) by (by rewrite Ep).
  destruct (tree_parent _ _ _ _ T Hj ltac:(congruence)) as (p & Hp' & Hcs & _).
  rewrite Hp in Hp'. injection Hp' as <-.
  assert (Hdc : Draining (status c) = true).
  { pose proof (lk_pair _ _ (t_link _ _ T _ _ _ Hj Hp)) as L. specialize (Hb Hd). clear -L Hb Hd.
    by destruct (status c), (status r). }
  pose proof (stack_bound _ _ _ _ T Hj) as Hsb. rewrite Hcs, length_app in Hsb. cbn in Hsb.
  destruct (IH j c) as (i & q & Hi & Hor & Hs & Hq); [rewrite Hcs, length_app; cbn; lia|done..|].
  exists i, q. split; [done|]. split; [|done]. right. destruct Hor as [->|Hin].
  - rewrite Hj in Hi. injection Hi as <-. rewrite Hcs, Ep. set_solver.
  - destruct (tree_key _ _ _ _ T Hj) as [Ej _].
    pose proof (anc_closed _ _ i q j c T Hi Hin Hj) as A. rewrite Ep in A. by apply A.
Qed.

(** C8. No stop is lost, in a run in which no retry's transaction finds its root pausing or
    failing: below every pausing, failing or cancelling row (or it itself) sits a row waiting
    for no child that the claim predicate takes at once, or as soon as the lease on it
    lapses.  (RetryProcess checks the root's status outside its transaction; where the tree
    was retried and paused again in between, a stop can be lost: [retry_strands_pause].) *)
Theorem no_lost_drain a k r : reachable a -> rows (db a) !! k = Some r -> Draining (status r) = true ->
  exists j q, rows (db a) !! j = Some q /\ (j = k \/ k ∈ call_stack q) /\ Draining (status q) = true /\
    forall now cutoff, held q = false \/ null_le (lease_expires_at q) cutoff = true ->
      claimable now cutoff q = true.
Proof.
  intros H Hk Hd. destruct (reachable_sys_ok _ _ _ H) as [T _].
  destruct (draining_leaf _ T _ k r (Nat.lt_succ_diag_r _) Hk Hd) as (j & q & Hj & Hor & Hs & Hp).
  exists j, q. split_and!; try done; [by in_cases Hs; rewrite Hs|]. intros now cutoff Hl.
  unfold claimable. rewrite (bool_decide_false _ Hp), (bool_decide_true _ Hs), orb_true_l, andb_true_r.
  rewrite bool_decide_true by (clear -Hs; in_cases Hs; rewrite Hs; set_solver).
  destruct Hl as [-> | ->]; [done|by rewrite orb_true_r].
Qed.

(** * What the root's status says *)

(** The statuses a row may have in a tree whose root has the given one. *)
Definition under (root : Status) : list Status :=
  [StatusCompleted; StatusRaised] ++
  match root with
  | StatusRunning => [StatusRunning]
  | StatusPausing => [StatusPausing; StatusPaused]
  | StatusPaused => [StatusPaused]
  | StatusFailing => [StatusFailing; StatusPausing; StatusPaused; StatusFailed]
  | StatusFailed => [StatusFailed; StatusPaused]
  | StatusCancelling => [StatusCancelling; StatusCancelled; StatusFailed]
  | StatusCancelled => [StatusCancelled; StatusFailed]
  | StatusCompleted | StatusRaised => []
  end.

(** [under], but for the paused rows a failed one may keep. *)
Definition under_link (root : Status) (s : Status) : bool :=
  bool_decide (s ∈ under root) ||
  (bool_decide (root ∈ [StatusCancelling; StatusCancelled]) && bool_decide (s = StatusPaused)).

Lemma under_link_down s0 r p : link_ok r p -> under_link s0 (status p) = true -> under_link s0 (status r) = true.
Proof. intros [L _ _]. revert L. by destruct s0, (status p), (status r); vm_compute. Qed.

(** C10. The root's status speaks for its whole tree: in every run, prunes and upgrades
    included, in which no retry's transaction finds its root pausing or failing, a root that
    is paused has nothing running below it, one that is cancelled or failed nothing left to
    run, and one that is running no stop in progress. *)
Theorem root_status_reports a k r r0 : reachable a -> rows (db a) !! k = Some r ->
  rows (db a) !! root_id r = Some r0 -> status r ∈ under (status r0).
Proof.
  intros H Hk H0. destruct (reachable_sys_ok _ _ _ H) as [T _].
  assert (U : under_link (status r0) (status r) = true).
  { apply (root_down _ _ (fun q => under_link (status r0) (status q) = true) T (under_link_down (status r0)))
      with (k := k) (r0 := r0); try done. by destruct (status r0). }
  apply orb_true_iff in U as [U|U]; [by apply bool_decide_eq_true in U|].
  apply andb_prop in U as [Uc Up]. apply bool_decide_eq_true in Up.
  pose proof (t_paused _ _ T _ _ _ Hk Up H0) as P. exfalso. clear -P Uc. by destruct (status r0).
Qed.

(** * The lease fence *)

Lemma spent_extends retry m m' g : fl_ok m g -> spent m g -> extends retry m m' -> spent m' g.
Proof.
  intros [_ (r & Hr & _ & Hle & _)] Hsp [Ev _]. by apply (spent_evolves retry m _ _ r).
Qed.

Lemma spent_steps a b g : sys_ok a -> g ∈ grants a -> spent (rows (db a)) g -> steps a b ->
  spent (rows (db b)) g /\ g ∈ grants b.
Proof.
  intros Ha Hg Hsp H. induction H as [|l a b d Hab IH Ht H]; [done|].
  destruct (IH Ha Hg Hsp) as [Hs Hin]. pose proof (steps_ok _ _ _ _ Ha Hab) as Hb.
  destruct (step_keeps _ _ _ _ _ Hb Ht H) as [_ E]. split.
  - eapply spent_extends; [by apply (so_grants _ Hb)|done|done].
  - destruct H; cbn in *; auto. apply elem_of_app. by left.
Qed.


(** A run with a retry in it. *)
Inductive retried : sys -> sys -> Prop :=
  | retried_step k a b d e : life a b -> step (LRetry k) b d -> life d e -> retried a e.

Lemma retried_after a b d : retried a b -> life b d -> retried a d.
Proof. intros [k a' b1 b2 e H1 H2 H3] H. eapply retried_step; [exact H1|exact H2|by eapply life_trans]. Qed.

(** A run with a prune that deleted the row [k], of the tree [root]: it found that tree over. *)
Inductive deleted (k root : string) : sys -> sys -> Prop :=
  | deleted_by candidates before a b e : life a b ->
      Retention.concluded before (rows (db b)) root -> root ∈ candidates ->
      rows (db (pruned candidates before b)) !! k = None ->
      life (pruned candidates before b) e -> deleted k root a e.

Lemma deleted_after k root a b d : deleted k root a b -> life b d -> deleted k root a d.
Proof. intros [c bf a' b1 e H1 H2 H3 H4 H5] H. by eapply deleted_by; [..|eapply life_trans]. Qed.

(** C12. Outcomes are final: along any run, prunes and upgrades included, a row keeps its
    identity, a completed, raised or cancelled row its status, and a failed one leaves it only
    if the run holds a retry; and a row is deleted only by a prune, which found its whole
    tree over: its root ended before the cutoff and nothing in it runs.  The runs are those
    in which no retry's transaction finds its root pausing or failing. *)
Theorem outcomes_final a b k r : reachable a -> life a b -> rows (db a) !! k = Some r ->
  (exists r', rows (db b) !! k = Some r' /\ r_spawn r' = r_spawn r /\
    (settled (status r) = true -> status r' = status r) /\
    (status r = StatusFailed -> status r' = StatusFailed \/ retried a b)) \/
  deleted k (root_id r) a b.
Proof.
  intros Ha H Hk. induction H as [|l a b d Hab IH Ht H|c bf a b Hab IH].
  { left. exists r. split_and!; auto. }
  - pose proof (life_ok _ _ _ _ (reachable_sys_ok _ _ _ Ha) Hab) as Ob.
    assert (Hbd : life b d) by (by eapply life_step; [apply life_refl|..]).
    destruct (IH Ha Hk) as [(r1 & Hr1 & E1 & S1 & F1)|D]; [left|right; by eapply deleted_after].
    destruct (step_keeps _ _ _ _ _ Ob Ht H) as [_ [Ev _]]. destruct (Ev _ _ Hr1) as (r2 & Hr2 & E).
    exists r2. split; [done|]. split; [by rewrite (ev_spawn _ _ _ E)|]. split.
    + intros Hs. rewrite <- (S1 Hs). apply (ev_settled _ _ _ E). by rewrite (S1 Hs).
    + intros Hf. destruct (F1 Hf) as [F|F]; [|right; by eapply retried_after].
      destruct l as [g|j|]; [left; by apply (ev_failed _ _ _ E)| |left; by apply (ev_failed _ _ _ E)].
      right. eapply retried_step; [done|done|apply life_refl].
  - pose proof (life_ok _ _ _ _ (reachable_sys_ok _ _ _ Ha) Hab) as [T _].
    assert (Hbd : life b (pruned c bf b)) by apply life_prune, life_refl.
    destruct (IH Ha Hk) as [(r1 & Hr1 & E1 & S1 & F1)|D]; [|right; by eapply deleted_after].
    destruct (rows (db (pruned c bf b)) !! k) as [r2|] eqn:E2.
    + left. exists r2. pose proof E2 as E3. apply (pruned_rows _ _ _ _ _ T) in E3 as [E3 _]. rewrite Hr1 in E3.
      injection E3 as <-. split_and!; [done..|]. intros Hf. destruct (F1 Hf) as [|F]; [by left|right].
      by eapply retried_after.
    + right. destruct (pruned_gone _ _ _ _ _ T Hr1 E2) as [Hc Hco]. rewrite E1 in Hc, Hco.
      by eapply deleted_by; [exact Hab|exact Hco| | |apply life_refl].
Qed.

(** * Fences are never shared *)

Lemma candidate_ids now cutoff limit m : keyed m ->
  NoDup (map (fun r : row => id r) (take limit (merge_sort oldest_first (matching (claimable now cutoff) m)))).
Proof.
  intros K. rewrite <- (firstn_map (fun r : row => id r)).
  eapply sublist_NoDup; [|apply sublist_take].
  rewrite (Permutation_map _ (merge_sort_Permutation oldest_first _)). by apply matching_ids.
Qed.

(** The pair a write's fence compares. *)
Definition fence (g : ProcessInstance) : string * Z := (id g, lease_epoch g).


End Reachable.

(** * The theorems at the demonstration run *)

Lemma reachable_tree_ok_witness : tree_ok (rows s_pausing) /\
  forall g, g ∈ [g_order; g_parcel] -> fl_ok (rows s_pausing) g.
Proof. exact (reachable_tree_ok no_defs no_mark demo_state demo_reachable). Defined.

Lemma no_lost_drain_witness : exists j q, rows s_pausing !! j = Some q /\
  (j = "order-1" \/ "order-1" ∈ call_stack q) /\ Draining (status q) = true /\
  forall now cutoff, held q = false \/ null_le (lease_expires_at q) cutoff = true ->
    claimable now cutoff q = true.
Proof.
  refine (no_lost_drain no_defs no_mark demo_state "order-1" (row_of "order-1" s_pausing) demo_reachable _ _).
  - exact (proj1 run_rows).
  - vm_compute. reflexivity.
Defined.

Lemma root_status_reports_witness :
  status (row_of "parcel-1" s_pausing) ∈ under (status (row_of "order-1" s_pausing)).
Proof.
  refine (root_status_reports no_defs no_mark demo_state "parcel-1" (row_of "parcel-1" s_pausing)
    (row_of "order-1" s_pausing) demo_reachable _ _).
  - exact (proj1 (proj2 run_rows)).
  - vm_compute. reflexivity.
Defined.


Lemma outcomes_final_witness :
  (exists r', rows s_pausing !! "order-1" = Some r' /\ r_spawn r' = r_spawn (row_of "order-1" s_claimed)) \/
  deleted no_defs no_mark "order-1" "order-1" (mkSys s_claimed [g_order]) demo_state.
Proof.
  destruct (outcomes_final no_defs no_mark (mkSys s_claimed [g_order]) demo_state "order-1"
    (row_of "order-1" s_claimed) demo_started (steps_life _ _ _ _ demo_from_claim)
    (proj1 (proj2 (proj2 run_rows)))) as [(r' & H & E & _)|D].
  - exact (or_introl (ex_intro _ r' (conj H E))).
  - exact (or_intror D).
Defined.


End Guarantees.
