(* ===== verification/Pruning.v ===== *)
(** What a prune takes and what a sweep leaves, under the invariant of trees. *)
From Stdlib Require Import ZArith Lia String.
From stdpp Require Import strings gmap sorting.
From S2P Require Import Prelude Instance Store Lifecycle Tree Verbs Retention System Guarantees.
Open Scope string_scope.
Open Scope list_scope.
Open Scope Z_scope.

Module Pruning.
Import Instance Store Tree Retention.

Implicit Types r p c q : row.
Implicit Types m : table.
Implicit Types k root : string.

(** C32. A prune takes whole trees, whatever ran since its candidates were read: exactly the
    candidates whose root ended before the cutoff and below which nothing runs, each with
    all of its rows, its signals and its log lines, and nothing else.  No row it deletes is
    held by a worker, and what is left satisfies the invariant of trees. *)
Theorem prune_exact (candidates : list string) (before : Z) (s : kept) : tree_ok (rows (st s)) ->
  let m := rows (st s) in
  let '(n, s') := pruneTrees candidates before s in
  tree_ok (rows (st s')) /\
  (forall k r, rows (st s') !! k = Some r <-> m !! k = Some r /\ ~ taken candidates before m (root_id r)) /\
  (forall k r, m !! k = Some r -> taken candidates before m (root_id r) -> worker_id r = None) /\
  (forall sg, sg ∈ signals (st s') <-> sg ∈ signals (st s) /\
     forall r, m !! sig_instance sg = Some r -> ~ taken candidates before m (root_id r)) /\
  (forall x, x ∈ logs s' <-> x ∈ logs s /\ ~ taken candidates before m (log_root x)) /\
  exists roots, NoDup roots /\ n = length roots /\ forall root, root ∈ roots <-> taken candidates before m root.
Proof.
  intros T. cbn zeta. destruct (pruneTrees candidates before s) as [n s'] eqn:E.
  destruct (prune_run _ _ _ _ _ T E) as (roots & Hr & Hn & T' & P). split_and!; [done|..].
  - intros k r. rewrite (po_rows _ _ _ _ P), Hr. done.
  - intros k r Hk (_ & _ & Hb). destruct (worker_id r) eqn:W; [|done]. assert (Hw : worker_id r <> None) by by rewrite W.
    pose proof (held_busy _ _ _ _ T Hk Hw) as B. rewrite (Hb _ _ Hk eq_refl) in B. by destruct B.
  - intros sg. rewrite (po_signals _ _ _ _ P). by setoid_rewrite Hr.
  - intros x. by rewrite (po_logs _ _ _ _ P), Hr.
  - exists roots. split_and!; [apply P|done|done].
Qed.

(** A sweep clears the table: unless it spent all of its batches, no tree is left whose
    root ended before the cutoff; it takes whole trees that are over and nothing else, never
    more than its batches allow, and with no retention set it takes nothing. *)
Theorem sweep_clears (retention : Z) (batches batch : nat) (now : Z) (s : kept) : tree_ok (rows (st s)) ->
  let '(n, s') := pruneInstances retention batches batch now s in
  tree_ok (rows (st s')) /\ swept (now - retention) (rows (st s)) (rows (st s')) /\ (n <= batches * batch)%nat /\
  (retention <= 0 -> n = 0%nat /\ s' = s) /\
  (0 < retention -> (n < batches * batch)%nat -> forall k r, rows (st s') !! k = Some r -> parent_id r = "" ->
     Terminal (status r) = true -> now - retention <= updated_at r).
Proof.
  intros T. unfold pruneInstances. destruct (Z.leb_spec retention 0) as [Hz|Hp].
  - split_and!; [done|apply swept_refl|lia|done|lia].
  - destruct (prune_batches batches batch (now - retention) s) as [n s'] eqn:E.
    destruct (prune_batches_run _ _ _ _ _ _ T E) as (T' & S & Hn & Hd). split_and!; [done|done|done|lia|].
    intros _ Hlt k r Hk Ep Ht. destruct (Z.lt_ge_cases (updated_at r) (now - retention)) as [Hb|]; [|done].
    destruct (Hd Hlt k). apply (concluded_iff _ _ _ T'). exists r. split; [done|].
    unfold concluded_root. rewrite Ep, ended_terminal, Ht. by apply Z.ltb_lt.
Qed.

(** * A concrete run *)

Module Demo.
Import Lifecycle Verbs System Guarantees.

Definition order2 : ProcessInstance := instance "order-2" "" [] "" "ship" 0.
Definition s_over : DBState := after (CancelProcess "order-1" 50) s_spawned.
Definition s_two : DBState := after (SaveInstance order2 60) s_over.
Definition store : kept :=
  mkKept (mkDB (rows s_two) [mkSignal "s1" "parcel-1" "pack" 1 "" 40; mkSignal "s2" "order-2" "ship" 2 "" 65])
    [mkLog "order-1" 20; mkLog "order-2" 62; mkLog "order-1" 50].

Lemma run_over : exists x, CancelProcess "order-1" 50 s_spawned = Ok (x, s_over).
Proof. eexists. vm_compute. reflexivity. Qed.
Lemma run_two : SaveInstance order2 60 s_over = Ok (tt, s_two).
Proof. vm_compute. reflexivity. Qed.
Lemma root_two : new_root order2.
Proof. vm_compute. split_and!; congruence. Qed.

Lemma store_ok : tree_ok (rows (st store)).
Proof.
  destruct run_over as [x P]. refine (so_tree _ (reachable_sys_ok no_defs no_mark (mkSys s_two [g_order]) _)).
  refine (reachable_steps _ _ _ _ (reachable_steps _ _ _ _ demo_started demo_spawned)
    (steps_step _ _ LOther _ _ _ (step_steps _ _ LOther _ _ I (step_other _ _ _ s_over _ _)) I (step_other _ _ _ s_two _ _))).
  - exact (o_cancel _ _ _ _ _ P).
  - exact (o_create _ _ order2 60 root_two run_two).
Qed.

Example swept_over : let '(n, s') := pruneInstances 30 defaultPruneBatches defaultPruneBatchTrees 100 store in
  (n, map fst (map_to_list (rows (st s'))), map sig_id (signals (st s')), logs s') = (1%nat, ["order-2"], ["s2"], [mkLog "order-2" 62]).
Proof. vm_compute. reflexivity. Qed.

End Demo.

Lemma prune_exact_witness : exists n s',
  pruneTrees ["order-2"; "order-1"] 70 Demo.store = (n, s') /\ tree_ok (rows (st s')).
Proof.
  pose proof (prune_exact ["order-2"; "order-1"] 70 Demo.store Demo.store_ok) as H.
  cbv zeta in H. destruct (pruneTrees ["order-2"; "order-1"] 70 Demo.store) as [n s'].
  exists n, s'. split; [reflexivity|exact (proj1 H)].
Defined.

Lemma sweep_clears_witness : exists n s', pruneInstances 30 10 200 100 Demo.store = (n, s') /\ tree_ok (rows (st s')).
Proof.
  pose proof (sweep_clears 30 10 200 100 Demo.store Demo.store_ok) as H.
  destruct (pruneInstances 30 10 200 100 Demo.store) as [n s']. exists n, s'. split; [reflexivity|exact (proj1 H)].
Defined.

End Pruning.
