(* ===== verification/Contracts.v ===== *)
(** The transactions that conclude a row: a conclusion under a live grant always commits.

    Locks are not modelled; what is, is the scope each dialect starts a child's transaction
    with and its repeat under a wider one, which ends in the same body ([child_tx_widens]). *)
From Stdlib Require Import ZArith Lia String.
From stdpp Require Import sorting.
From S2P Require Import Prelude.
From S2P Require Import Instance.
From S2P Require Import Store.
From S2P Require Import Lifecycle.
From S2P Require Import External.
From S2P Require Import Tree.
From S2P Require Import Drain.
From S2P Require Import Verbs.
From S2P Require Import Revive.
From S2P Require Import System.
From S2P Require Import Guarantees.
Open Scope string_scope.
Open Scope list_scope.
Open Scope Z_scope.

Module Contracts.
Import Instance Store Lifecycle External Tree Drain Verbs Revive System Guarantees.

Implicit Types r p c h q : row.
Implicit Types m : table.
Implicit Types k : string.

(** * The locking strategies *)

(** A transaction that never asks for a wider lock. *)
Definition no_widen {A} (t : Tx A) : Prop := forall s w, t s <> Err (errWiden w).

Lemma no_widen_bind {A B} (t : Tx A) (f : A -> Tx B) :
  no_widen t -> (forall x, no_widen (f x)) -> no_widen (t ≫= f).
Proof.
  intros Ht Hf s w H. unfold mbind, Tx_bind in H. destruct (t s) as [[x s1]|e] eqn:E.
  - by apply (Hf x s1 w).
  - injection H as ->. by apply (Ht s w).
Qed.

Lemma no_widen_ret {A} (x : A) : no_widen (mret x : Tx A).
Proof. done. Qed.
Lemma no_widen_query {A} (f : table -> A) : no_widen (query f).
Proof. done. Qed.
Lemma no_widen_exec f : no_widen (exec f).
Proof. done. Qed.
Lemma no_widen_execrows sel f : no_widen (execrows sel f).
Proof. done. Qed.

Create HintDb widen.
#[export] Hint Resolve no_widen_bind no_widen_ret no_widen_query no_widen_exec no_widen_execrows : widen.

Lemma no_widen_update (i : row) now : no_widen (UpdateInstance_q i now).
Proof. apply no_widen_execrows. Qed.

Lemma no_widen_PauseTree root now : no_widen (PauseTree root now).
Proof. done. Qed.

Lemma no_widen_persist (i : ProcessInstance) : no_widen (persistState i).
Proof. unfold persistState. by destruct (String.eqb _ _). Qed.

Lemma no_widen_fenced n : no_widen (requireFenced n).
Proof. intros s w. unfold requireFenced. by destruct (n =? 0). Qed.

Lemma no_widen_settle fuel x spawn epoch now out : no_widen (settle_loop fuel x spawn epoch now out).
Proof.
  revert x spawn epoch out. induction fuel as [|fuel IH]; intros x spawn epoch out s w; cbn [settle_loop];
    destruct (String.eqb x ""); try done.
  apply no_widen_bind; [done|]. intros m. destruct (m !! x) as [p|]; [|done].
  destruct (negb _); [done|]. apply no_widen_bind; [done|]. intros active.
  apply no_widen_bind; [by destruct (active =? 0)|]. intros _. destruct (negb _); [done|].
  apply no_widen_bind; [by destruct (0 <? active)|]. intros busy. destruct (_ && _); [done|].
  apply no_widen_bind; [done|]. auto.
Qed.

Lemma no_widen_settleUp r now : no_widen (settleUp r now).
Proof. apply no_widen_bind; [done|]. intros m. apply no_widen_settle. Qed.
#[export] Hint Resolve no_widen_update no_widen_PauseTree no_widen_persist no_widen_fenced no_widen_settle no_widen_settleUp : widen.

(** A body that either asks for a scope above its own or does one thing under any scope. *)
Definition widens {A} (body : lockScope -> Tx A) (all : Tx A) (s : DBState) : Prop :=
  no_widen all /\ body lockLive s = all s /\
  forall scope, body scope s = all s \/
    exists w, body scope s = Err (errWiden w) /\ scope_rank scope < scope_rank w.

Lemma child_tx_widens {A} (body : lockScope -> Tx A) all s scope fuel : widens body all s ->
  scope_rank lockLive - scope_rank scope <= Z.of_nat fuel -> child_tx fuel scope body s = all s.
Proof.
  intros (Hn & Hl & Hw). revert scope. induction fuel as [|fuel IH]; intros scope Hf.
  - destruct scope; cbn in Hf; try lia. cbn. rewrite Hl.
    destruct (all s) as [[x s1]|[]] eqn:E; try done. by destruct (Hn s _ E).
  - cbn. destruct (Hw scope) as [->|(w & -> & Hlt)].
    + destruct (all s) as [[x s1]|[]] eqn:E; try done. by destruct (Hn s _ E).
    + rewrite (proj2 (Z.ltb_lt _ _) Hlt). apply IH. lia.
Qed.

Lemma finish_widens i now s : widens (finish_body i now) (finish_body i now lockLive) s.
Proof.
  split; [|split; [done|]].
  - apply no_widen_bind; [done|]. intros m.
    assert (E : match m !! parent_id i with
                | Some p => Draining (status (p : row)) && (scope_rank lockLive <? scope_rank lockStack)
                | None => false end = false)
      by (destruct (m !! parent_id i); [by rewrite andb_false_r|done]).
    rewrite E. cbv zeta iota. auto 10 with widen.
  - intros scope. unfold finish_body. rewrite !query_bind.
    destruct (rows s !! parent_id i) as [p|]; [|by left].
    destruct (Draining (status p)) eqn:D; [|by left]. cbn.
    destruct scope; cbn; [right; by exists lockStack|by left..].
Qed.

Lemma fail_widens i now s : widens (fail_body i now) (fail_body i now lockLive) s.
Proof.
  split; [|split; [done|]].
  - apply no_widen_bind.
    + unfold poisons_tree. destruct (call_stack i); [done|]. apply no_widen_bind; [|done].
      apply no_widen_bind; [|done]. apply no_widen_bind; [done|].
      intros [r|]; done.
    + intros poisons. rewrite andb_false_r. destruct (call_stack i); [auto 10 with widen|].
      destruct poisons; auto 20 with widen.
  - intros scope. unfold fail_body. unfold mbind, Tx_bind.
    destruct (poisons_tree i s) as [[poisons s1]|e] eqn:E; [|by left].
    destruct poisons; [|by left]. cbn [andb].
    destruct scope; cbn; [right..|left; done]; by exists lockLive.
Qed.

Lemma child_tx_live {A} b scope (body : lockScope -> Tx A) s :
  widens body (body lockLive) s -> withChildTx b scope body s = body lockLive s.
Proof. intros W. apply child_tx_widens; [done|]. by destruct b, scope. Qed.

(** * What a holder asks for happens *)

Lemma persistState_run i s : exists sg, persistState i s = Ok (tt, mkDB (rows s) sg).
Proof.
  unfold persistState. destruct (String.eqb _ _); [|by eexists].
  exists (signals s). by destruct s.
Qed.

(** A fenced write of the row that carries its grant. *)
Lemma fenced_run f (g i : ProcessInstance) r m sg : keyed m -> m !! id g = Some r -> advanced g i ->
  fenced g r = true ->
  exists n, execrows (fenced i) f (mkDB m sg) = Ok (n, mkDB (<[id g := f r]> m) sg) /\
    requireFenced n (mkDB (<[id g := f r]> m) sg) = Ok (tt, mkDB (<[id g := f r]> m) sg).
Proof.
  intros K Hr A Hf. assert (Ei : id i = id g) by (by rewrite (ad_spawn _ _ A)).
  assert (E : execrows (fenced i) f (mkDB m sg) =
    Ok (count (fenced i) m, mkDB (update_rows (fenced i) f m) sg)) by (by apply execrows_Ok).
  pose proof E as E'. apply fenced_write in E' as [[Z _]|(N & r' & Hr' & _ & Es)]; [|cbn in *|done].
  - rewrite <- (advanced_fenced _ _ _ A) in Hf.
    by rewrite (proj1 (count_zero _ _) Z _ _ Hr) in Hf.
  - rewrite Ei in *. rewrite Hr in Hr'. injection Hr' as <-. rewrite Es in E. eexists. split; [exact E|].
    unfold requireFenced. by destruct (Z.eqb_spec (count (fenced i) m) 0).
Qed.

(** The climb moves the status of draining rows alone. *)
Definition stays (m m' : table) : Prop := forall k r, m !! k = Some r -> Draining (status r) = false ->
  exists r', m' !! k = Some r' /\ status r' = status r.

Lemma stays_refl m : stays m m.
Proof. intros k r H _. by exists r. Qed.

Lemma stays_trans m1 m2 m3 : stays m1 m2 -> stays m2 m3 -> stays m1 m3.
Proof.
  intros H1 H2 k r Hk Hd. destruct (H1 k r Hk Hd) as (r1 & K1 & E1). rewrite <- E1 in Hd.
  destruct (H2 k r1 K1 Hd) as (r2 & K2 & E2). exists r2. by rewrite E2.
Qed.

Lemma stays_update (sel : row -> bool) (f : row -> row) m :
  (forall r, sel r = true -> Draining (status r) = false -> status (f r) = status r) -> stays m (update_rows sel f m).
Proof.
  intros H k r Hk Hd. rewrite lookup_update, Hk. eexists. split; [reflexivity|]. destruct (sel r) eqn:E; auto.
Qed.

Lemma settle_loop_stays fuel : forall x spawn epoch now out s out' s',
  settle_loop fuel x spawn epoch now out s = Ok (out', s') -> stays (rows s) (rows s').
Proof.
  induction fuel as [|fuel IH]; intros x spawn epoch now out s out' s' H; cbn [settle_loop] in H;
    destruct (String.eqb x ""); try done; try (apply ret_Ok in H as [_ <-]; apply stays_refl).
  rewrite query_bind in H. destruct (rows s !! x) as [p|]; [|apply ret_Ok in H as [_ <-]; apply stays_refl].
  destruct (negb _); [apply ret_Ok in H as [_ <-]; apply stays_refl|].
  rewrite query_bind, Tx_bind_Ok in H. destruct H as (u & s1 & H1 & H).
  assert (S1 : stays (rows s) (rows s1)).
  { destruct (_ =? 0); [|apply ret_Ok in H1 as [_ <-]; apply stays_refl]. apply exec_Ok in H1. subst s1.
    by apply stays_update. }
  destruct (negb _); [by apply ret_Ok in H as [_ <-]|].
  rewrite Tx_bind_Ok in H. destruct H as (busy & s2 & H2 & H).
  assert (E2 : s1 = s2) by (destruct (0 <? _); [by apply query_Ok in H2 as []|by apply ret_Ok in H2 as []]).
  subst s2. destruct (_ && _); [by apply ret_Ok in H as [_ <-]|].
  rewrite exec_bind in H. eapply stays_trans; [exact S1|]. eapply stays_trans; [|by eapply IH]. cbn [rows].
  apply stays_update. intros r Hs Hd. apply andb_prop in Hs as [_ Hs]. apply bool_decide_eq_true in Hs.
  in_cases Hs; rewrite Hs in Hd; done.
Qed.

(** What an outcome leaves on the row of its grant: the status it asks for. *)
Definition landed (m : table) (g i : ProcessInstance) : Prop :=
  exists r', m !! id g = Some r' /\ status r' = status i.

Lemma landed_update m (g i : ProcessInstance) r now : concludes (status g) (status i) = true ->
  m !! id g = Some (update_set i now r) -> landed m g i.
Proof. intros Hc H. exists (update_set i now r). split; [done|]. apply (concludes_keep _ _ _ Hc). Qed.

Lemma landed_settle m sg (g i : ProcessInstance) now out s' : concludes (status g) (status i) = true ->
  landed m g i -> settleUp i now (mkDB m sg) = Ok (out, s') -> landed (rows s') g i.
Proof.
  intros Hc (r & Hr & Hs) H. unfold settleUp in H. rewrite query_bind in H.
  apply settle_loop_stays in H. destruct (H _ _ Hr) as (r' & Hr' & E).
  - rewrite Hs. by destruct (status g), (status i).
  - exists r'. by rewrite E.
Qed.

Section Conclude.
Context (m : table) (sg : list signal) (g i : ProcessInstance) (r : row) (now : Z).
Context (T : tree_ok m) (Hr : held_by m g r) (Hf : fenced g r = true) (A : advanced g i).
Context (Hc : concludes (status g) (status i) = true).

Lemma UpdateInstance_run : exists sg', UpdateInstance i now (mkDB m sg) =
  Ok (tt, mkDB (<[id g := update_set i now r]> m) sg').
Proof using T Hr Hf A.
  destruct (persistState_run i (mkDB m sg)) as (sg' & E). exists sg'. unfold UpdateInstance.
  rewrite (bind_run _ _ _ _ _ E). cbn [rows].
  destruct (fenced_run (update_set i now) g i r m sg' (tree_keyed _ _ T) (hb_row _ _ _ Hr) A Hf) as (n & En & Er).
  unfold UpdateInstance_q. by rewrite (bind_run _ _ _ _ _ En).
Qed.

Lemma finish_run : status i <> StatusFailed -> exists out s',
  finish_body i now lockLive (mkDB m sg) = Ok (out, s') /\ wrote m (rows s') g /\ landed (rows s') g i.
Proof using T Hr Hf A Hc.
  intros Hnf. unfold finish_body. rewrite query_bind. cbn [rows].
  replace (match m !! parent_id i with Some p => _ | None => false end) with false
    by (destruct (m !! parent_id i); [by rewrite andb_false_r|done]).
  cbv zeta iota. destruct (persistState_run i (mkDB m sg)) as (sg' & E). rewrite (bind_run _ _ _ _ _ E).
  cbn [rows].
  destruct (fenced_run (update_set i now) g i r m sg' (tree_keyed _ _ T) (hb_row _ _ _ Hr) A Hf) as (n & En & Er).
  unfold UpdateInstance_q. rewrite (bind_run _ _ _ _ _ En), (bind_run _ _ _ _ _ Er).
  destruct (settle_ready_ok _ _ _ _ _ _ now sg' Hr (update_released _ _ _ now A)
    (finish_ready _ _ _ _ now T Hr A Hc Hnf)) as (out & s' & Es & W & _).
  exists out, s'. split_and!; [done..|]. eapply landed_settle; [done| |exact Es].
  eapply landed_update; [done|]. by rewrite lookup_insert_eq.
Qed.

Lemma fail_run : fl_ok m g -> status i = StatusFailed -> parent_id i <> "" -> exists out s',
  fail_body i now lockLive (mkDB m sg) = Ok (out, s') /\ wrote m (rows s') g /\ landed (rows s') g i.
Proof using T Hr Hf A Hc.
  intros F Est Hnp. destruct (tree_stack _ _ _ T F A Hnp) as (root & rest & Hcs).
  assert (H0 : exists r0, m !! root = Some r0).
  { assert (Ei : r_spawn i = r_spawn r) by (by rewrite (ad_spawn _ _ A), (hb_spawn _ _ _ Hr)).
    rewrite Ei in Hcs. pose proof (root_exists _ _ _ _ T (hb_row _ _ _ Hr)) as X.
    rewrite (root_head _ _ _ _ T (hb_row _ _ _ Hr)), Hcs in X. exact X. }
  destruct H0 as (r0 & H0).
  unfold fail_body. rewrite Hcs. unfold poisons_tree. rewrite Hcs.
  assert (Es0 : (st ← GetInstanceStatus root; mret (poisonable st)) (mkDB m sg) =
    Ok (poisonable (status r0), mkDB m sg)).
  { unfold GetInstanceStatus, GetInstance, mbind, Tx_bind, query. cbn. by rewrite H0. }
  rewrite (bind_run _ _ _ _ _ Es0), andb_false_r.
  destruct (persistState_run i (mkDB m sg)) as (sg' & E). rewrite (bind_run _ _ _ _ _ E). cbn [rows].
  destruct (fenced_run (update_set i now) g i r m sg' (tree_keyed _ _ T) (hb_row _ _ _ Hr) A Hf) as (n & En & Er).
  unfold UpdateInstance_q. rewrite (bind_run _ _ _ _ _ En), (bind_run _ _ _ _ _ Er), exec_bind. cbn [rows signals].
  set (m1 := <[id g := update_set i now r]> m).
  assert (Ep : exists out, (if poisonable (status r0) then PauseTree root now else mret [])
      (mkDB (FailAncestors (error_message i) (error_code i) now (root :: rest) m1) sg') =
    Ok (out, mkDB (poison (status r0) (error_message i) (error_code i) now (root :: rest) root m1) sg')).
  { unfold poison. destruct (poisonable _); eexists; reflexivity. }
  destruct Ep as (ps & Ep). rewrite (bind_run _ _ _ _ _ Ep).
  pose proof (fail_ready _ _ _ _ _ _ _ now T Hr A Hc Est Hcs H0) as Rd.
  destruct (settle_ready_ok _ _ _ _ _ _ now sg' Hr (update_released _ _ _ now A) Rd) as (out & s' & Es & W & _).
  rewrite (bind_run _ _ _ _ _ Es). eexists _, s'. split_and!; [reflexivity|done|].
  eapply landed_settle; [done| |exact Es]. eapply landed_update; [done|]. apply (sr_row _ _ _ _ _ Rd).
Qed.

Lemma saveAndNotify_run pg : fl_ok m g -> exists s',
  saveAndNotify pg i now (mkDB m sg) = Ok (tt, s') /\ landed (rows s') g i.
Proof using T Hr Hf A Hc.
  intros F. unfold saveAndNotify. destruct (String.eqb_spec (parent_id i) "") as [E|N].
  - destruct UpdateInstance_run as (sg' & Eu). eexists. split; [exact Eu|].
    cbn [rows]. eapply landed_update; [done|]. by rewrite lookup_insert_eq.
  - case_bool_decide as B.
    + destruct (fail_run F B N) as (out & s' & Eb & _ & L). exists s'. split; [|done].
      unfold FailInstanceAndAncestors.
      by rewrite (bind_run _ _ _ _ _ (eq_trans (child_tx_live _ _ _ _ (fail_widens i now _)) Eb)).
    + destruct (finish_run B) as (out & s' & Eb & _ & L). exists s'. split; [|done].
      unfold FinishChild. rewrite (proj2 (String.eqb_neq _ _) N).
      by rewrite (bind_run _ _ _ _ _ (eq_trans (child_tx_live _ _ _ _ (finish_widens i now _)) Eb)).
Qed.
End Conclude.

Section Promises.
Context (loadDef : string -> Z -> option (list task_info)) (mark_override : string -> string).

(** C15. A holder can always conclude: as long as the row carries its grant, every
    outcome that ends or parks it commits, whichever lock scope the transaction starts from,
    through the whole climb of the settle-up, and the row then has exactly the status asked
    for: completed, failed, raised, cancelled or paused. *)
Theorem conclude_total a g i r pg now : reachable loadDef mark_override a -> g ∈ grants a -> advanced g i ->
  concludes (status g) (status i) = true -> rows (db a) !! id g = Some r -> fenced g r = true ->
  exists s', saveAndNotify pg i now (db a) = Ok (tt, s') /\ landed (rows s') g i.
Proof.
  intros H Hg A Hc Hr Hf. destruct (reachable_sys_ok _ _ _ H) as [T F].
  pose proof (fl_held _ _ _ (F g Hg) Hr Hf) as Hh. destruct (db a) as [m sg]. cbn in *.
  by apply (saveAndNotify_run m sg g i r now T Hh Hf A Hc pg), F.
Qed.
End Promises.

(** The parcel's worker completes it while the order is being paused. *)
Definition i_packed : ProcessInstance :=
  mkInstance (set_state StatusCompleted PhaseNone None "" "" 60 g_parcel) false "".

Lemma conclude_total_witness : exists s', saveAndNotify true i_packed 60 s_pausing = Ok (tt, s') /\
  landed (rows s') g_parcel i_packed.
Proof.
  refine (conclude_total no_defs no_mark demo_state g_parcel i_packed (row_of "parcel-1" s_pausing) true 60
    demo_reachable _ _ _ (proj1 (proj2 run_rows)) _).
  - right. left.
  - split; vm_compute; congruence.
  - vm_compute. reflexivity.
  - vm_compute. reflexivity.
Defined.

End Contracts.
