(* ===== verification/Operators.v ===== *)
(** What an operator's verb does to a tree, row by row: pause, cancel, resume. *)
From Stdlib Require Import ZArith Lia String.
From stdpp Require Import sorting.
From S2P Require Import Prelude.
From S2P Require Import Instance.
From S2P Require Import Store.
From S2P Require Import Lifecycle.
From S2P Require Import Tree.
From S2P Require Import Drain.
From S2P Require Import Verbs.
From S2P Require Import System.
From S2P Require Import Guarantees.
Open Scope string_scope.
Open Scope list_scope.
Open Scope Z_scope.

Module Operators.
Import Instance Store Lifecycle Tree Drain Verbs System Guarantees.

Implicit Types r p c h q : row.
Implicit Types m : table.
Implicit Types k j : string.

Lemma loadInstanceRow_run k r s : rows s !! k = Some r -> loadInstanceRow k s = Ok (r, s).
Proof. intros H. by apply loadInstanceRow_Ok. Qed.

Lemma GetInstanceStatus_run k r s : rows s !! k = Some r -> GetInstanceStatus k s = Ok (status r, s).
Proof. intros H. apply GetInstanceStatus_Ok. eauto. Qed.

Lemma requireRoot_run r s : parent_id r = "" -> requireRoot r s = Ok (tt, s).
Proof. intros H. by apply requireRoot_Ok. Qed.

Lemma lifecycleResult_run k o n r s : rows s !! k = Some r ->
  lifecycleResult k o n s = Ok (mkResult o (status r) n, s).
Proof. intros H. unfold lifecycleResult. by rewrite (bind_run _ _ _ _ _ (loadInstanceRow_run _ _ _ H)). Qed.

(** A worker holds the row, or one below it. *)
Definition worked (m : table) (k : string) : Prop :=
  exists i h, m !! i = Some h /\ worker_id h <> None /\ (i = k \/ k ∈ call_stack h).

(** What a tree-wide stop made of each row. *)
Definition stopped_as (from : list Status) (draining stopped : Status) (root : string) (now : Z)
    (m m' : table) : Prop :=
  dom m' = dom m /\ forall j r, m !! j = Some r -> exists r', m' !! j = Some r' /\
    (root_id r = root /\ status r ∈ from -> worked m j -> r' = set_status draining now r) /\
    (root_id r = root /\ status r ∈ from -> ~ worked m j -> r' = set_status stopped now r) /\
    (~ (root_id r = root /\ status r ∈ from) -> r' = r).

Section Stopped.
Context (m : table) (root : string) (now : Z) (T : tree_ok m).

Lemma worked_root i h j r : m !! i = Some h -> m !! j = Some r -> i = j \/ j ∈ call_stack h -> root_id h = root_id r.
Proof using T.
  intros Hi Hj [->|Hin]; [congruence|].
  by destruct (anc_up _ _ (fun _ => True) T (fun _ _ _ _ => I) i h j Hi I Hin) as (q & Hq & _ & E); simplify_eq.
Qed.

Lemma drains_worked j r : m !! j = Some r -> root_id r = root ->
  held r || above_held m root (id r) = true <-> worked m j.
Proof using T.
  intros Hj Hr. destruct (tree_key _ _ _ _ T Hj) as [Ej _]. rewrite orb_true_iff, held_spec, Ej.
  rewrite (above_held_spec _ _ _ _ T). split.
  - intros [Hw|(i & h & Hi & _ & Hw & Hin)]; [exists j, r|exists i, h]; auto.
  - intros (i & h & Hi & Hw & [->|Hin]); [left; congruence|]. right. exists i, h. split_and!; try done.
    rewrite <- Hr. by apply (worked_root i h j); [..|right].
Qed.

Lemma stop_tree_spec from draining stopped :
  stopped_as from draining stopped root now m (stop_tree from draining stopped root now m).
Proof using T.
  split; [unfold stop_tree, update_rows; by rewrite dom_fmap_L|]. intros j r Hj.
  eexists. split; [unfold stop_tree; rewrite lookup_update, Hj; reflexivity|]. cbn.
  split_and!.
  - intros [Hr Hs] Hw. rewrite Hr, String.eqb_refl, (bool_decide_true _ Hs). cbn.
    by rewrite (proj2 (drains_worked j r Hj Hr) Hw).
  - intros [Hr Hs] Hn. rewrite Hr, String.eqb_refl, (bool_decide_true _ Hs). cbn.
    destruct (held r || _) eqn:D; [|done]. by apply (drains_worked j r Hj Hr) in D.
  - intros N. destruct (String.eqb_spec (root_id r) root); cbn; [|done]. case_bool_decide; [|done]. tauto.
Qed.

(** The rows a stop reports: none left draining, unless the root drains. *)
Lemma stopped_rows_run from draining stopped r0 : m !! root = Some r0 -> root_id r0 = root ->
  status r0 ∈ from -> draining <> stopped ->
  stopped_rows from draining stopped root m <> [] /\
  (List.filter (fun e : string * Status => bool_decide (e.2 = draining))
     (stopped_rows from draining stopped root m) = [] <-> ~ worked m root).
Proof using T.
  intros H0 E0 Hs Hne. set (sel := fun r : row => String.eqb (root_id r) root && bool_decide (status r ∈ from)).
  assert (H0in : r0 ∈ matching sel m).
  { apply elem_of_matching. split; [|eauto]. unfold sel. by rewrite E0, String.eqb_refl, bool_decide_true. }
  split; [unfold stopped_rows; fold sel; by destruct (matching sel m); [apply elem_of_nil in H0in|]|].
  unfold stopped_rows. fold sel. split.
  - intros E W. apply list_elem_of_In in H0in. assert (X : (id r0, draining) ∈ ([] : list (string * Status)));
      [|by apply elem_of_nil in X].
    rewrite <- E. apply list_elem_of_In, List.filter_In. split; [|by cbn; rewrite bool_decide_true].
    apply List.in_map_iff. exists r0. split; [|done]. by rewrite (proj2 (drains_worked root r0 H0 E0) W).
  - intros N. destruct (List.filter _ _) as [|e l] eqn:E; [done|exfalso].
    assert (X : List.In e (e :: l)) by (left; done). rewrite <- E in X. apply List.filter_In in X as [X Hd].
    apply List.in_map_iff in X as (r & <- & Hr). cbn in Hd. apply bool_decide_eq_true in Hd.
    apply list_elem_of_In, elem_of_matching in Hr as [Hsel [j Hj]]. apply andb_prop in Hsel as [Er _].
    apply String.eqb_eq in Er. destruct (held r || _) eqn:D; [|congruence].
    apply (drains_worked j r Hj Er) in D as (i & h & Hi & Hw & Hor). apply N. exists i, h. split_and!; try done.
    pose proof (worked_root i h j r Hi Hj Hor) as Eh. rewrite Er in Eh.
    pose proof (root_head _ _ _ _ T Hi) as Hh. rewrite Eh in Hh. destruct (call_stack h) as [|a cs]; cbn in Hh.
    + by left.
    + subst a. right. left.
Qed.
End Stopped.

(** The answer of a stop that stopped something. *)
Definition stop_answer (v : stopVerb) (m : table) (root : string) (x : LifecycleResult) : Prop :=
  (worked m root -> lr_outcome x = OutcomeAccepted /\ lr_status x = v_draining v) /\
  (~ worked m root -> lr_outcome x = OutcomeApplied /\ lr_status x = v_stopped v).

Lemma stop_run v from m sg k r0 now : tree_ok m -> m !! k = Some r0 -> parent_id r0 = "" ->
  v_draining v <> v_stopped v -> status r0 ∈ from ->
  Terminal (status r0) = false -> Draining (status r0) = false ->
  v_update v k now (mkDB m sg) = Ok (stopped_rows from (v_draining v) (v_stopped v) k m,
    mkDB (stop_tree from (v_draining v) (v_stopped v) k now m) sg) ->
  exists x s', stopTree k v now (mkDB m sg) = Ok (x, s') /\ signals s' = sg /\
    stopped_as from (v_draining v) (v_stopped v) k now m (rows s') /\ stop_answer v m k x.
Proof.
  intros T H0 Hp Hne Hs Ht Hd Hu. pose proof (root_self _ _ _ _ T H0 Hp) as E0.
  unfold stopTree. rewrite (bind_run _ _ _ _ _ (loadInstanceRow_run k r0 (mkDB m sg) H0)).
  rewrite (bind_run _ _ _ _ _ (requireRoot_run r0 _ Hp)).
  rewrite (bind_run _ _ _ _ _ (GetInstanceStatus_run k r0 (mkDB m sg) H0)), Ht.
  assert (Eg : (if bool_decide (status r0 = v_draining v) then mret tt else refuseInTransition (status r0))
    (mkDB m sg) = Ok (tt, mkDB m sg)).
  { case_bool_decide; [done|]. by destruct (status r0). }
  rewrite (bind_run _ _ _ _ _ (eq_trans (bind_run _ _ _ _ _ Eg) Hu)).
  destruct (stopped_rows_run m k T from (v_draining v) (v_stopped v) r0 H0 E0 Hs Hne) as [Hcons Hdrain].
  pose proof (stop_tree_spec m k now T from (v_draining v) (v_stopped v)) as Sp.
  set (m' := stop_tree _ _ _ _ _ _) in *.
  destruct (proj2 Sp k r0 H0) as (r' & Hr' & W1 & W2 & _).
  destruct (stopped_rows _ _ _ _ _) as [|e l] eqn:El; [by destruct Hcons|].
  set (F := List.filter _ (e :: l)) in *. clearbody F.
  eexists _, (mkDB m' sg). rewrite (lifecycleResult_run k _ _ r' (mkDB m' sg) Hr').
  split; [reflexivity|]. split; [done|]. split; [exact Sp|]. cbn. split.
  - intros W. rewrite (W1 (conj E0 Hs) W). cbn.
    destruct F; [|done]. by destruct (proj1 Hdrain eq_refl).
  - intros W. rewrite (W2 (conj E0 Hs) W). cbn. by rewrite (proj2 Hdrain W).
Qed.

(** Resuming a paused root runs every paused row below it, and nothing else. *)
Lemma resume_run m sg k r0 now : tree_ok m -> m !! k = Some r0 -> parent_id r0 = "" ->
  status r0 = StatusPaused ->
  exists x m', ResumeProcess k now (mkDB m sg) = Ok (x, mkDB m' sg) /\
    lr_outcome x = OutcomeApplied /\ lr_status x = StatusRunning /\
    forall j r, m !! j = Some r -> m' !! j =
      Some (if String.eqb (root_id r) k && bool_decide (status r = StatusPaused)
            then set_status StatusRunning now r else r).
Proof.
  intros T H0 Hp Hs. pose proof (root_self _ _ _ _ T H0 Hp) as E0. unfold ResumeProcess.
  rewrite (bind_run _ _ _ _ _ (loadInstanceRow_run k r0 (mkDB m sg) H0)).
  rewrite (bind_run _ _ _ _ _ (requireRoot_run r0 _ Hp)), query_bind. cbn [rows].
  rewrite (bind_run _ _ _ _ _ (GetInstanceStatus_run k r0 (mkDB m sg) H0)), Hs.
  set (sel := fun r : row => bool_decide (status r = StatusPaused)).
  pose proof (fun j q Hj => in_ids_matching _ _ (fun r : row => String.eqb (root_id r) k && sel r)
    (lockTree sel k m) j q T Hj (elem_of_lockTree sel k m)) as Hids.
  assert (Hin : r0 ∈ lockTree sel k m).
  { apply elem_of_lockTree, elem_of_matching. split; [|eauto].
    unfold sel. by rewrite E0, String.eqb_refl, bool_decide_true. }
  destruct (lockTree sel k m) as [|q0 qs]; [by apply elem_of_nil in Hin|]. cbn [map] in *.
  set (ids := id q0 :: map (fun r : row => id r) qs) in *.
  change (refuseInTransition StatusPaused) with (mret tt : Tx unit).
  rewrite (bind_run _ _ _ _ _ (eq_refl : (mret tt : Tx unit) (mkDB m sg) = Ok (tt, mkDB m sg))).
  rewrite bool_decide_false by done. unfold updateStatusIn. subst ids. cbv iota. rewrite exec_bind. cbn [rows signals].
  set (ids := id q0 :: map (fun r : row => id r) qs) in *.
  assert (Hrow : forall j r, m !! j = Some r -> SetStatusIn StatusRunning now ids m !! j =
    Some (if String.eqb (root_id r) k && sel r then set_status StatusRunning now r else r)).
  { intros j r Hj. unfold SetStatusIn. rewrite lookup_update, Hj. cbn. by rewrite (Hids j r Hj). }
  pose proof (Hrow k r0 H0) as Hr0. unfold sel in Hr0. rewrite E0, String.eqb_refl, bool_decide_true in Hr0 by done.
  eexists _, _. rewrite (lifecycleResult_run k _ _ _ (mkDB _ sg) Hr0). by split_and!.
Qed.

Section Spec.
Context (loadDef : string -> Z -> option (list task_info)) (mark_override : string -> string).

(** Pause and cancel stop the whole tree at once and answer truthfully: every row still
    to run drains if a worker holds it or a row below it and stops on the spot if not,
    no other row changes, and the answer is "accepted" exactly when something drains. *)
Theorem stop_spec a k r0 now : reachable loadDef mark_override a -> rows (db a) !! k = Some r0 ->
  parent_id r0 = "" ->
  (status r0 = StatusRunning -> exists x s', PauseProcess k now (db a) = Ok (x, s') /\
     signals s' = signals (db a) /\ stop_answer pause_verb (rows (db a)) k x /\
     stopped_as [StatusRunning] StatusPausing StatusPaused k now (rows (db a)) (rows s')) /\
  (status r0 ∈ [StatusRunning; StatusPaused] -> exists x s', CancelProcess k now (db a) = Ok (x, s') /\
     signals s' = signals (db a) /\ stop_answer cancel_verb (rows (db a)) k x /\
     stopped_as [StatusRunning; StatusPaused] StatusCancelling StatusCancelled k now (rows (db a)) (rows s')).
Proof.
  intros [T _]%reachable_sys_ok H0 Hp. destruct (db a) as [m sg]. cbn [rows signals] in *. split; intros Hs.
  - destruct (stop_run pause_verb [StatusRunning] m sg k r0 now T H0 Hp) as (x & s' & ? & ? & ? & ?);
      [done|rewrite Hs; set_solver|by rewrite Hs..|done|]. by exists x, s'.
  - destruct (stop_run cancel_verb [StatusRunning; StatusPaused] m sg k r0 now T H0 Hp) as (x & s' & ? & ? & ? & ?);
      [done|done|by in_cases Hs; rewrite Hs..|done|]. by exists x, s'.
Qed.

(** Pausing an idle tree and resuming it is the identity, but for the times of the rows it
    touched: no row is left running in between, and each comes back as it was. *)
Theorem pause_resume a k r0 now now' : reachable loadDef mark_override a -> rows (db a) !! k = Some r0 ->
  parent_id r0 = "" -> status r0 = StatusRunning -> ~ worked (rows (db a)) k ->
  exists x s1 y s2, PauseProcess k now (db a) = Ok (x, s1) /\ lr_status x = StatusPaused /\
    (forall j r, rows s1 !! j = Some r -> root_id r = k -> status r <> StatusRunning) /\
    ResumeProcess k now' s1 = Ok (y, s2) /\ lr_status y = StatusRunning /\
    forall j r, rows (db a) !! j = Some r -> rows s2 !! j = Some r \/
      (root_id r = k /\ rows s2 !! j = Some (set_status (status r) now' r)).
Proof.
  intros [T _]%reachable_sys_ok H0 Hp Hs Hnw. destruct (db a) as [m sg]. cbn [rows signals] in *.
  destruct (stop_run pause_verb [StatusRunning] m sg k r0 now T H0 Hp)
    as (x & [m1 sg1] & Hpause & Hsg & [Hdom Hrows] & [_ Hans]); [done|rewrite Hs; set_solver|by rewrite Hs..|done|].
  cbn [rows signals] in *. subst sg1. destruct (Hans Hnw) as [_ Hx].
  pose proof (root_self _ _ _ _ T H0 Hp) as E0.
  destruct (PauseProcess_keeps _ _ _ _ _ (T : tree_ok (rows (mkDB m sg))) Hpause) as [[T1 _] _]. cbn [rows] in T1.
  assert (Hmove : forall j r, m !! j = Some r -> m1 !! j = Some
    (if String.eqb (root_id r) k && bool_decide (status r = StatusRunning) then set_status StatusPaused now r else r)).
  { intros j r Hj. destruct (Hrows j r Hj) as (r' & -> & _ & Hstop & Hother). f_equal.
    destruct (String.eqb_spec (root_id r) k) as [Er|Nr]; cbn; [|apply Hother; tauto].
    case_bool_decide as B; [|apply Hother; rewrite list_elem_of_singleton; tauto].
    apply Hstop; [by rewrite list_elem_of_singleton|]. intros (i & h & Hi & Hw & Hor). apply Hnw.
    exists i, h. split_and!; try done.
    pose proof (worked_root m T i h j r Hi Hj Hor) as Eh. rewrite Er in Eh.
    pose proof (root_head _ _ _ _ T Hi) as Hh. rewrite Eh in Hh.
    destruct (call_stack h) as [|b cs]; cbn in Hh; subst; [by left|right; left]. }
  pose proof (Hmove k r0 H0) as H01. rewrite E0, String.eqb_refl, Hs in H01. cbn in H01.
  destruct (resume_run m1 sg k _ now' T1 H01 Hp eq_refl) as (y & m2 & Hres & _ & Hy & Hback).
  exists x, (mkDB m1 sg), y, (mkDB m2 sg). cbn [rows]. split_and!; try done.
  - intros j r Hj Er. destruct (m !! j) as [r1|] eqn:Hj1.
    + specialize (Hmove j r1 Hj1). rewrite Hj in Hmove. injection Hmove as ->.
      destruct (String.eqb_spec (root_id r1) k) as [Er1|N]; cbn; [by case_bool_decide|].
      by cbn in Er.
    + apply not_elem_of_dom in Hj1. rewrite <- Hdom in Hj1. by apply not_elem_of_dom in Hj1; rewrite Hj in Hj1.
  - intros j r Hj. specialize (Hmove j r Hj). specialize (Hback _ _ Hmove). rewrite Hback.
    pose proof (uniform_tree m k T r0 j r H0 E0) as U. rewrite Hs in U.
    destruct (String.eqb_spec (root_id r) k) as [Er|N]; cbn.
    + case_bool_decide as B; cbn.
      * right. split; [done|]. rewrite Er, String.eqb_refl. cbn. by rewrite B.
      * left. rewrite Er, String.eqb_refl. cbn. rewrite bool_decide_false; [done|]. intros E.
        specialize (U ltac:(set_solver) Hj Er). rewrite E in U. by in_cases U.
    + left. by rewrite (proj2 (String.eqb_neq _ _) N).
Qed.
End Spec.

Lemma stop_spec_witness : exists x s', PauseProcess "order-1" 50 s_busy = Ok (x, s') /\
  stop_answer pause_verb (rows s_busy) "order-1" x.
Proof.
  destruct (stop_spec no_defs no_mark (mkSys s_busy [g_order; g_parcel]) "order-1" (row_of "order-1" s_busy) 50
    demo_busy (proj1 (proj2 (proj2 (proj2 run_rows)))) ltac:(vm_compute; reflexivity)) as [H _].
  destruct (H ltac:(vm_compute; reflexivity)) as (x & s' & E & _ & A & _).
  exact (ex_intro _ x (ex_intro _ s' (conj E A))).
Defined.

Lemma pause_resume_witness : exists x s1 y s2, PauseProcess "order-1" 50 s_created = Ok (x, s1) /\
  lr_status x = StatusPaused /\ ResumeProcess "order-1" 60 s1 = Ok (y, s2) /\ lr_status y = StatusRunning.
Proof.
  destruct (pause_resume no_defs no_mark (mkSys s_created []) "order-1" (row_of "order-1" s_created) 50 60
    demo_created (proj2 (proj2 (proj2 (proj2 run_rows))))) as (x & s1 & y & s2 & E1 & L1 & _ & E2 & L2 & _).
  - vm_compute. reflexivity.
  - vm_compute. reflexivity.
  - intros (i & h & Hi & Hw & _). apply elem_of_map_to_list in Hi. vm_compute in Hi.
    apply list_elem_of_singleton in Hi. injection Hi as _ ->. by apply Hw.
  - exact (ex_intro _ x (ex_intro _ s1 (ex_intro _ y (ex_intro _ s2 (conj E1 (conj L1 (conj E2 L2))))))).
Defined.

(** * Where the code departs from its word *)

(** The checkpoint write never touches the status: it lands no pending pause. *)
Lemma progress_leaves_status (i : ProcessInstance) now s s' k r : UpdateInstanceProgress i now s = Ok (tt, s') ->
  rows s !! k = Some r -> exists r', rows s' !! k = Some r' /\ status r' = status r.
Proof.
  intros H Hk. unfold UpdateInstanceProgress in H. rewrite Tx_bind_Ok in H.
  destruct H as (u & s1 & Hp%persistState_Ok & H). rewrite Tx_bind_Ok in H.
  destruct H as (n & s2 & [_ ->]%execrows_Ok & [_ <-]%requireFenced_Ok). cbn [rows]. rewrite Hp.
  rewrite lookup_update, Hk. eexists. split; [reflexivity|]. by destruct (fenced i r).
Qed.

(** A tree with no worker on it, built row by row. *)
Definition still (k parent : string) (stack : list string) (root t : string) (st : Status) : row :=
  mkRow (mkSpawn k "order" parent root stack "ship" 0 0) 1
    (mkWork t 0 true 0 None st PhaseNone "" "" 0 no_cols) (mkLease None None 0) (mkClaim None None 0) None.

Definition table_of (l : list row) : table := list_to_map (map (fun r : row => (id r, r)) l).

(** * A retry that comes late *)

(** [RetryProcess] reads the root's status before its transaction and not again in it.  Here
    an order with two parcels fails, and two retries pass that check.  The first revives the
    tree; a parcel is claimed, and the operator pauses the order, which waits for it.  Then
    the transaction of the second retry commits. *)
Definition parcel2 : ProcessInstance := instance "parcel-2" "order-1" ["order-1"] "ship" "pack" 0.
Definition claim_one (w : string) (now : Z) (s : DBState) : list ProcessInstance :=
  match ClaimInstances w 1000 1 0 now s with Ok (out, _) => out | Err _ => [] end.
Definition leave (st : Status) (g : ProcessInstance) : ProcessInstance :=
  mkInstance (set_state st PhaseNone None "" "" 0 g) false "".

Definition t_spawned : DBState := after (SpawnChildrenAndWait g_order [parcel; parcel2] 30) s_claimed.
Definition t_busy : DBState := after (ClaimInstances "w2" 1000 1 0 40) t_spawned.
Definition t_failed : DBState := match claim_one "w2" 40 t_spawned with
  | g :: _ => after (saveAndNotify false (leave StatusFailed g) 50) t_busy | [] => t_busy end.
Definition t_retried : DBState := after (retry_tx no_defs no_mark "order-1" true 60) t_failed.
Definition t_claimed : DBState := after (ClaimInstances "w3" 1000 1 0 70) t_retried.
Definition t_paused : DBState := after (PauseProcess "order-1" 80) t_claimed.
Definition t_late : DBState := after (retry_tx no_defs no_mark "order-1" true 90) t_paused.
Definition t_settled : DBState := match claim_one "w3" 70 t_retried with
  | g :: _ => after (saveAndNotify false (leave StatusPaused g) 100) t_late | [] => t_late end.
Definition t_stuck : DBState := after (PauseProcess "order-1" 110) t_settled.

Definition statuses (s : DBState) : list (option Status) :=
  map (fun k => (fun r : row => status r) <$> rows s !! k) ["order-1"; "parcel-1"; "parcel-2"].

(** It sets the paused parcel running below the pausing order.  The operator, seeing a parcel
    run, pauses once more; that stops the parcel and settles nothing, so no row is left that
    could end the order's pause, and every verb is refused for as long as it is pausing. *)
Lemma retry_strands_pause :
  retry_check "order-1" t_failed = Ok (tt, t_failed) /\
  map statuses [t_failed; t_retried; t_paused; t_late; t_settled; t_stuck] =
    [[Some StatusFailed; Some StatusFailed; Some StatusPaused];
     [Some StatusRunning; Some StatusRunning; Some StatusRunning];
     [Some StatusPausing; Some StatusPausing; Some StatusPaused];
     [Some StatusPausing; Some StatusPausing; Some StatusRunning];
     [Some StatusPausing; Some StatusPaused; Some StatusRunning];
     [Some StatusPausing; Some StatusPaused; Some StatusPaused]] /\
  forallb (fun r : row => negb (claimable 200 200 r)) (map snd (map_to_list (rows t_stuck))) = true /\
  ResumeProcess "order-1" 210 t_stuck = Err ErrConflict /\ CancelProcess "order-1" 210 t_stuck = Err ErrConflict /\
  statuses (after (PauseProcess "order-1" 210) t_stuck) = statuses t_stuck.
Proof. split_and!; vm_compute; reflexivity. Qed.

(** Two failed parents each hold a raised slot; the walk remembers one, so the other is
    revived without the marker that has its slot spawned afresh. *)
Lemma retry_marks_one :
  let s := mkDB (table_of
    [still "a" "" [] "a" "ship" StatusFailed;
     still "b" "a" ["a"] "a" "ship" StatusFailed; still "c" "b" ["a"; "b"] "a" "" StatusRaised;
     still "d" "a" ["a"] "a" "ship" StatusFailed; still "e" "d" ["a"; "d"] "a" "" StatusRaised]) [] in
  let s' := after (retry_tx no_defs (fun _ => "override") "a" false 9) s in
  map (fun k => (fun r : row => (status r, phase r, EngineState (cols r))) <$> rows s' !! k) ["b"; "d"] =
    [Some (StatusRunning, PhaseCollecting, ""); Some (StatusRunning, PhaseCollecting, "override")].
Proof. vm_compute. reflexivity. Qed.

End Operators.
