(* ===== verification/Leases.v ===== *)
(** What claiming and renewing leases do: which rows a claim takes, in which order,
    and that the chunked renewal is the one statement it stands for. *)
From Stdlib Require Import ZArith Lia String.
From stdpp Require Import sorting.
From S2P Require Import Prelude.
From S2P Require Import Instance.
From S2P Require Import Store.
From S2P Require Import Lifecycle.
From S2P Require Import Tree.
From S2P Require Import Drain.
From S2P Require Import Verbs.
From S2P Require Import System.
From S2P Require Import Guarantees.
Open Scope string_scope.
Open Scope list_scope.
Open Scope Z_scope.

Module Leases.
Import Instance Store Lifecycle Tree Drain Verbs System Guarantees.

Implicit Types r p c h q : row.
Implicit Types m : table.
Implicit Types k j : string.

(** * Orders *)

#[export] Instance oldest_first_trans : Transitive oldest_first.
Proof.
  intros a b c [H|[H1 L1]] [H'|[H2 L2]]; unfold oldest_first; [left; lia..|].
  right. split; [lia|]. by transitivity (id b).
Qed.

#[export] Instance oldest_first_total : Total oldest_first.
Proof.
  intros a b. unfold oldest_first. destruct (Z.lt_trichotomy (created_at a) (created_at b)) as [|[E|]]; auto.
  rewrite E. destruct (total String.le (id a) (id b)); [left|right]; right; auto.
Qed.

Lemma sorted_split {A} (R : A -> A -> Prop) (l1 l2 : list A) : StronglySorted R (l1 ++ l2) ->
  forall x y, x ∈ l1 -> y ∈ l2 -> R x y.
Proof.
  induction l1 as [|a l1 IH]; cbn; intros S x y Hx Hy; [by apply elem_of_nil in Hx|].
  inversion S as [|? ? S' F]; subst. apply elem_of_cons in Hx as [->|Hx]; [|by apply IH].
  rewrite Forall_forall in F. apply F. set_solver.
Qed.

(** * Renewing *)

Lemma mem_ids sel m k : keyed m ->
  k ∈ map (fun r : row => id r) (matching sel m) <-> exists r, m !! k = Some r /\ sel r = true.
Proof.
  intros K. rewrite list_elem_of_In, List.in_map_iff. split.
  - intros (r & <- & Hr). apply list_elem_of_In, elem_of_matching in Hr as [Hs [j Hj]].
    exists r. by rewrite (K _ _ Hj).
  - intros (r & Hk & Hs). exists r. split; [by apply K|]. apply list_elem_of_In, elem_of_matching. eauto.
Qed.

Lemma count_shrinks sel m m1 k : keyed m -> keyed m1 ->
  (forall j r1, m1 !! j = Some r1 -> sel r1 = true -> exists r, m !! j = Some r /\ sel r = true) ->
  (exists r, m !! k = Some r /\ sel r = true) -> (forall r1, m1 !! k = Some r1 -> sel r1 = false) ->
  count sel m1 < count sel m.
Proof.
  intros K K1 Hsub Hin Hout. unfold count.
  rewrite <- !(length_map (fun r : row => id r)). apply inj_lt, (submseteq_length (k :: map _ (matching sel m1))).
  apply NoDup_submseteq.
  - apply NoDup_cons. split; [|by apply matching_ids].
    intros (r1 & Hr1 & Hs)%(mem_ids _ _ _ K1). by rewrite (Hout _ Hr1) in Hs.
  - intros j [->|Hj]%elem_of_cons; apply (mem_ids _ _ _ K); [done|].
    apply (mem_ids _ _ _ K1) in Hj as (r1 & Hr1 & Hs). by eapply Hsub.
Qed.

Definition renewed (expiry : Z) (r : row) : row :=
  set_lease (mkLease (worker_id r) (Some expiry) (lease_epoch r)) r.

Lemma renewed_once w ids expiry r : renewable w ids expiry (renewed expiry r) = false.
Proof. unfold renewable. cbn. by rewrite Z.ltb_irrefl, andb_false_r. Qed.

(** One chunk: the rows picked, which are all of them if the chunk was not filled. *)
Lemma renew_chunk m sg w ids expiry : keyed m ->
  exists n m1, RenewWorkerLeasesChunk w ids expiry renewChunkSize (mkDB m sg) = Ok (n, mkDB m1 sg) /\
    keyed m1 /\ update_rows (renewable w ids expiry) (renewed expiry) m1 =
      update_rows (renewable w ids expiry) (renewed expiry) m /\
    (n < Z.of_nat renewChunkSize -> m1 = update_rows (renewable w ids expiry) (renewed expiry) m) /\
    (Z.of_nat renewChunkSize <= n -> count (renewable w ids expiry) m1 < count (renewable w ids expiry) m).
Proof.
  intros K. set (sel := renewable w ids expiry). unfold RenewWorkerLeasesChunk. rewrite query_bind, exec_bind.
  cbn [rows signals]. set (all := merge_sort lease_order (matching sel m)).
  set (pick := take renewChunkSize all). set (pids := map (fun r : row => id r) pick).
  assert (Hpick : forall j r, m !! j = Some r -> in_ids pids r = true -> sel r = true).
  { intros j r Hj Hin. unfold in_ids in Hin. apply bool_decide_eq_true in Hin.
    apply list_elem_of_In, List.in_map_iff in Hin as (q & Eq & Hq). apply list_elem_of_In in Hq.
    assert (Hq' : q ∈ all) by (apply elem_of_take in Hq as (n & Hn & _); by eapply list_elem_of_lookup_2).
    unfold all in Hq'. rewrite merge_sort_Permutation in Hq'. apply elem_of_matching in Hq' as [Hs [i Hi]].
    rewrite (K _ _ Hi), (K _ _ Hj) in Eq. by simplify_eq. }
  eexists _, (update_rows (in_ids pids) (renewed expiry) m). split; [reflexivity|].
  assert (K1 : keyed (update_rows (in_ids pids) (renewed expiry) m)).
  { intros j r' (r & Hr & ->)%lookup_update_Some. rewrite <- (K _ _ Hr). by destruct (in_ids pids r). }
  split; [done|]. split_and!.
  - apply map_eq. intros j. rewrite !lookup_update. destruct (m !! j) as [r|] eqn:Hj; [|done]. cbn [fmap option_fmap option_map]. f_equal.
    destruct (in_ids pids r) eqn:Hin; [|done]. rewrite (Hpick j r Hj Hin). unfold sel at 1.
    by rewrite renewed_once.
  - intros Hlt. apply map_eq. intros j. rewrite !lookup_update. destruct (m !! j) as [r|] eqn:Hj; [|done]. cbn [fmap option_fmap option_map].
    f_equal. destruct (in_ids pids r) eqn:Hin; [by rewrite (Hpick j r Hj Hin)|].
    destruct (sel r) eqn:Hs; [|done]. exfalso.
    assert (Ep : pick = all) by (apply take_ge; fold sel in Hlt; fold all in Hlt; rewrite length_take in Hlt; lia).
    unfold in_ids in Hin. apply bool_decide_eq_false in Hin. apply Hin, list_elem_of_In, List.in_map_iff.
    exists r. split; [done|]. rewrite Ep. apply list_elem_of_In. unfold all. rewrite merge_sort_Permutation.
    apply elem_of_matching. eauto.
  - intros Hle. fold sel in Hle. fold all in Hle. fold pick in Hle. destruct pick as [|q qs] eqn:Ep; [cbn in Hle; unfold renewChunkSize in Hle; lia|].
    assert (Hq : q ∈ all).
    { assert (X : q ∈ take renewChunkSize all) by (fold pick; rewrite Ep; left).
      apply elem_of_take in X as (n & Hn & _). by eapply list_elem_of_lookup_2. }
    unfold all in Hq. rewrite merge_sort_Permutation in Hq. apply elem_of_matching in Hq as [Hs [i Hi]].
    apply (count_shrinks sel m _ i K K1); [|by exists q|].
    + intros j r1 (r & Hr & ->)%lookup_update_Some. exists r. split; [done|].
      destruct (in_ids pids r) eqn:Hin; [by apply (Hpick j)|done].
    + intros r1 (r & Hr & ->)%lookup_update_Some. rewrite Hi in Hr. injection Hr as <-.
      replace (in_ids pids q) with true; [by unfold sel; rewrite renewed_once|].
      symmetry. apply bool_decide_eq_true. unfold pids. cbn. left.
Qed.

Lemma renew_loop_run fuel w ids expiry m sg : keyed m -> count (renewable w ids expiry) m < Z.of_nat fuel ->
  renew_loop fuel w ids expiry (mkDB m sg) =
    Ok (tt, mkDB (update_rows (renewable w ids expiry) (renewed expiry) m) sg).
Proof.
  revert m. induction fuel as [|fuel IH]; intros m K Hf.
  { pose proof (count_nonneg (renewable w ids expiry) m). lia. }
  destruct (renew_chunk m sg w ids expiry K) as (n & m1 & E & K1 & Em & Hlast & Hmore).
  cbn [renew_loop]. rewrite (bind_run _ _ _ _ _ E). destruct (Z.ltb_spec n (Z.of_nat renewChunkSize)) as [Hlt|Hge].
  - by rewrite (Hlast Hlt).
  - rewrite <- Em. apply IH; [done|]. specialize (Hmore Hge). lia.
Qed.

Lemma count_size sel m : count sel m <= Z.of_nat (size m).
Proof.
  unfold count, matching. rewrite <- length_map_to_list, <- (length_map snd (map_to_list m)).
  apply inj_le, List.filter_length_le.
Qed.

Lemma grant_none w e m : GrantLeases w e [] m = m.
Proof. apply map_eq. intros j. unfold GrantLeases. rewrite lookup_update. by destruct (m !! j). Qed.

Section Spec.
Context (loadDef : string -> Z -> option (list task_info)) (mark_override : string -> string).

(** C13. The renewal in chunks of a hundred always ends, and does what one statement over all
    the worker's rows would: every named lease the worker still holds and that ends sooner
    is stretched to the new expiry, and nothing else changes. *)
Theorem renewal_complete a w ids dur now : reachable loadDef mark_override a ->
  RenewWorkerLeases w ids dur now (db a) =
    Ok (now, mkDB (update_rows (renewable w ids (now + dur)) (renewed (now + dur)) (rows (db a)))
                  (signals (db a))).
Proof.
  intros [T _]%reachable_sys_ok. destruct (db a) as [m sg]. cbn [rows signals] in *. unfold RenewWorkerLeases.
  rewrite query_bind. cbn [rows].
  rewrite (bind_run _ _ _ _ _ (renew_loop_run (S (size m)) w ids (now + dur) m sg (tree_keyed _ _ T)
    (ltac:(pose proof (count_size (renewable w ids (now + dur)) m); lia)))). done.
Qed.

(** A claim hands out the oldest claimable rows, as many as it was asked for or as there
    are: each exactly as its row stood, marked when it was taken over, under a fresh epoch;
    no row left behind is older than one taken, and no other row changes. *)
Theorem claim_oldest a worker dur limit cutoff now : reachable loadDef mark_override a ->
  exists out s', ClaimInstances worker dur limit cutoff now (db a) = Ok (out, s') /\
    length out = Nat.min limit (length (matching (claimable now cutoff) (rows (db a)))) /\
    (forall g : ProcessInstance, g ∈ out -> exists r, rows (db a) !! id g = Some r /\ claimable now cutoff r = true /\
       g = granted worker (now + dur) r /\ rows s' !! id g = Some (inst g) /\
       forall k q, rows (db a) !! k = Some q -> claimable now cutoff q = true ->
         (forall g' : ProcessInstance, g' ∈ out -> id g' <> k) -> oldest_first r q) /\
    (forall k q, rows (db a) !! k = Some q -> (forall g : ProcessInstance, g ∈ out -> id g <> k) -> rows s' !! k = Some q).
Proof.
  intros [T _]%reachable_sys_ok. destruct (db a) as [m sg]. cbn [rows signals] in *.
  pose proof (tree_keyed _ _ T) as K. set (all := merge_sort oldest_first (matching (claimable now cutoff) m)).
  set (cand := take limit all).
  assert (Hlen : length cand = Nat.min limit (length (matching (claimable now cutoff) m))).
  { unfold cand, all. by rewrite length_take, merge_sort_Permutation. }
  assert (Hrow : forall q, q ∈ all <-> claimable now cutoff q = true /\ m !! id q = Some q).
  { intros q. unfold all. rewrite merge_sort_Permutation, elem_of_matching. split; [|by intros []; eauto].
    intros [Hs [k Hk]]. by rewrite (K _ _ Hk). }
  assert (Hin : forall q, q ∈ cand -> q ∈ all).
  { intros q (n & Hn & _)%elem_of_take. by eapply list_elem_of_lookup_2. }
  pose proof (StronglySorted_merge_sort oldest_first (matching (claimable now cutoff) m)) as Srt.
  fold all in Srt. rewrite <- (take_drop limit all) in Srt. fold cand in Srt.
  set (m' := GrantLeases worker (now + dur) (map (fun r : row => id r) cand) m).
  assert (Hout : forall out, out = map (granted worker (now + dur)) cand ->
    forall g : ProcessInstance, g ∈ out <-> exists r, r ∈ cand /\ g = granted worker (now + dur) r).
  { intros out -> g. rewrite list_elem_of_In, List.in_map_iff. setoid_rewrite <- list_elem_of_In. naive_solver. }
  set (out := map (granted worker (now + dur)) cand). specialize (Hout out eq_refl).
  exists out, (mkDB m' sg). split; [|split; [by unfold out; rewrite length_map|]].
  { unfold ClaimInstances. rewrite query_bind. cbn [rows]. fold all. fold cand.
    unfold out, m'. destruct cand as [|q qs]; [|by rewrite exec_bind]. cbn [map]. by rewrite grant_none. }
  assert (Hids : forall j q, m !! j = Some q ->
    in_ids (map (fun r : row => id r) cand) q = true -> q ∈ cand).
  { intros j q Hj Hq. apply bool_decide_eq_true, list_elem_of_In, List.in_map_iff in Hq as (q' & Eq & Hq').
    apply list_elem_of_In in Hq'. destruct (proj1 (Hrow q') (Hin _ Hq')) as [_ Hm]. rewrite Eq, (K _ _ Hj), Hj in Hm.
    by injection Hm as ->. }
  split.
  - intros g (r & Hr & ->)%Hout. destruct (proj1 (Hrow r) (Hin _ Hr)) as [Hc Hm].
    exists r. split_and!; try done.
    + cbn. unfold m', GrantLeases. rewrite lookup_update, Hm. cbn. f_equal.
      unfold in_ids. rewrite bool_decide_true; [done|]. apply list_elem_of_In, List.in_map_iff.
      exists r. split; [done|]. by apply list_elem_of_In.
    + intros k q Hk Hq Hno. apply (sorted_split _ _ _ Srt); [done|].
      assert (Hall : q ∈ all) by (apply Hrow; split; [done|by rewrite (K _ _ Hk)]).
      rewrite <- (take_drop limit all) in Hall. apply elem_of_app in Hall as [Hc'|]; [|done]. exfalso.
      apply (Hno (granted worker (now + dur) q)); [apply Hout; eauto|]. exact (K _ _ Hk).
  - intros k q Hk Hno. cbn [rows]. unfold m', GrantLeases. rewrite lookup_update, Hk. cbn. f_equal.
    destruct (in_ids _ q) eqn:Hq; [|done]. exfalso. apply (Hids k q Hk) in Hq.
    apply (Hno (granted worker (now + dur) q)); [apply Hout; eauto|]. exact (K _ _ Hk).
Qed.
End Spec.

Lemma renewal_complete_witness : RenewWorkerLeases "w2" ["parcel-1"] 1000 50 s_pausing =
  Ok (50, mkDB (update_rows (renewable "w2" ["parcel-1"] 1050) (renewed 1050) (rows s_pausing)) (signals s_pausing)).
Proof. exact (renewal_complete no_defs no_mark demo_state "w2" ["parcel-1"] 1000 50 demo_reachable). Defined.

Lemma claim_oldest_witness : exists out s', ClaimInstances "w3" 1000 5 0 20 s_created = Ok (out, s') /\
  length out = 1%nat.
Proof.
  destruct (claim_oldest no_defs no_mark (mkSys s_created []) "w3" 1000 5 0 20 demo_created)
    as (out & s' & E & L & _).
  exact (ex_intro _ out (ex_intro _ s' (conj E (eq_trans L ltac:(vm_compute; reflexivity))))).
Defined.

End Leases.
