(* ===== verification/Answers.v ===== *)
(** What an answer to an external task, and a signal, come to on every branch. *)
From Stdlib Require Import ZArith Lia String.
From stdpp Require Import sorting.
From S2P Require Import Prelude.
From S2P Require Import Instance.
From S2P Require Import Store.
From S2P Require Import Lifecycle.
From S2P Require Import External.
From S2P Require Import Tree.
From S2P Require Import Guarantees.
Open Scope string_scope.
Open Scope list_scope.
Open Scope Z_scope.

Module Answers.
Import Instance Store Lifecycle External Tree.

Implicit Types r : row.
Implicit Types k : string.

(** The row is parked on an external task, in a status that takes answers, no worker is
    on it, and the token is of this visit and, where it names a grant or none, of the
    grant in force. *)
Definition answerable (epoch : Z) (claim : ClaimBinding) (now : Z) r : Prop :=
  AcceptsExternalOutcome (status r) = true /\ phase r = PhaseExternal /\
  live (worker_id r) (lease_expires_at r) now = false /\ task_epoch r = epoch /\
  binding_ok claim (external_claim_epoch r) (external_worker_id r) (external_lease_expires_at r) now = true.

#[export] Instance answerable_dec epoch claim now r : Decision (answerable epoch claim now r).
Proof. unfold answerable. apply _. Defined.

Lemma unpark_keyed m k r now : keyed m -> m !! k = Some r ->
  UnparkExternal now k m = <[k := unparked now r]> m.
Proof.
  intros Hm Hk. pose proof (update_keyed m k (fun _ => true) (unparked now) Hm) as E. rewrite Hk in E.
  rewrite <- E. unfold UnparkExternal, update_rows. apply map_fmap_ext. intros j q _. by rewrite andb_true_r.
Qed.

Lemma resolve_eq k epoch claim outcome sid seq now s : keyed (rows s) ->
  ResolveExternalTask k epoch claim outcome sid seq now s =
  match rows s !! k with
  | None => Err ErrNotFound
  | Some r =>
      if decide (answerable epoch claim now r)
      then Ok (tt, mkDB (<[k := unparked now r]> (rows s))
                        (signals s ++ [mkSignal sid k (task r) seq outcome now]))
      else Err ErrConflict
  end.
Proof.
  intros Hm. unfold ResolveExternalTask. rewrite query_bind. destruct (rows s !! k) as [r|] eqn:Hk; [|done].
  destruct (decide (answerable epoch claim now r)) as [(H1 & H2 & H3 & H4 & H5)|Hn].
  - rewrite H1, (bool_decide_true _ H2), H3, H4, Z.eqb_refl, H5. cbn.
    by rewrite <- (unpark_keyed _ _ _ _ Hm Hk).
  - destruct (AcceptsExternalOutcome (status r)) eqn:H1; [|done].
    case_bool_decide as H2; [|done]. cbn [negb orb].
    destruct (live (worker_id r) _ _) eqn:H3; [done|].
    destruct (Z.eqb_spec (task_epoch r) epoch) as [H4|H4]; [|done]. cbn [negb].
    destruct (binding_ok _ _ _ _ _) eqn:H5; [|done]. by destruct Hn.
Qed.

(** C21. An answer is refused as not found where there is no instance, and as a conflict
    where the row is not parked, does not take answers, is being worked on, or the token
    is of an earlier visit or grant; otherwise it is buffered, the row becomes runnable
    and nothing else changes, and from then on every answer to the visit, of whatever
    token, is a conflict. *)
Theorem answer_spec k epoch claim outcome sid seq now s :
  keyed (rows s) ->
  match rows s !! k with
  | None => ResolveExternalTask k epoch claim outcome sid seq now s = Err ErrNotFound
  | Some r =>
      (~ answerable epoch claim now r ->
       ResolveExternalTask k epoch claim outcome sid seq now s = Err ErrConflict) /\
      (answerable epoch claim now r -> exists s',
       ResolveExternalTask k epoch claim outcome sid seq now s = Ok (tt, s') /\
       signals s' = signals s ++ [mkSignal sid k (task r) seq outcome now] /\
       rows s' = <[k := unparked now r]> (rows s) /\
       forall epoch' claim' outcome' sid' seq' now',
         ResolveExternalTask k epoch' claim' outcome' sid' seq' now' s' = Err ErrConflict)
  end.
Proof.
  intros Hm. pose proof (resolve_eq k epoch claim outcome sid seq now s Hm) as E.
  destruct (rows s !! k) as [r|] eqn:Hk; [|done]. split; intros Ha.
  - by rewrite decide_False in E.
  - rewrite decide_True in E by done. eexists. split; [exact E|]. split; [done|]. split; [done|].
    intros. rewrite resolve_eq; cbn [rows].
    + rewrite lookup_insert_eq. apply decide_False. by intros (_ & ? & _).
    + intros j q. destruct (decide (j = k)) as [->|Hne].
      * rewrite lookup_insert_eq. intros [= <-]. exact (Hm _ _ Hk).
      * rewrite lookup_insert_ne by done. apply Hm.
Qed.

(** A parked row, claimed by one external worker. *)
Definition parked_row : row :=
  set_claim (mkClaim (Some "ext") (Some 500) 3)
    (set_state StatusRunning PhaseExternal None "" "" 10
       (Guarantees.Guarantees.instance "order-1" "" [] "" "approve" 2 : row)).

Lemma answer_spec_witness : exists s',
  ResolveExternalTask "order-1" (task_epoch parked_row) (BoundToClaim 3) "ok" "sig-1" 1 100
    (mkDB {["order-1" := parked_row]} []) = Ok (tt, s') /\
  ResolveExternalTask "order-1" (task_epoch parked_row) (BoundToClaim 3) "again" "sig-2" 2 101 s' = Err ErrConflict.
Proof.
  assert (Hm : keyed {["order-1" := parked_row]}).
  { intros k r Hk. apply lookup_singleton_Some in Hk as [<- <-]. reflexivity. }
  destruct (answer_spec "order-1" (task_epoch parked_row) (BoundToClaim 3) "ok" "sig-1" 1 100
    (mkDB {["order-1" := parked_row]} []) Hm) as [_ H].
  destruct H as (s' & H1 & _ & _ & H2); [by vm_compute|]. exists s'. split; [exact H1|apply H2].
Defined.

End Answers.
