(* ===== verification/Engine.v ===== *)
(** One advance of an instance: internal/engine/advance.go, error.go, collect.go,
    child.go and the parts of action.go that park or route.

    The instance is a [ProcessInstance]; its in-memory context ([inst.State]) stays
    in the encoded columns and is read and written through [get] and [put].  What the
    engine asks of packages not modelled here - the evaluator, the schemas, the
    transport, the text of messages - are the fields of [env], over which everything
    below is quantified.  The audit trail and the config are left out. *)
From Stdlib Require Import ZArith Lia String.
From stdpp Require Import sorting.
From S2P Require Import Prelude.
From S2P Require Import GoStrings.
From S2P Require Import ErrCode.
From S2P Require Import Instance.
From S2P Require Import Store.
From S2P Require Import Lifecycle.
From S2P Require Import External.
Open Scope string_scope.
Open Scope list_scope.
Open Scope Z_scope.

Module Engine.
Import ErrCode.ErrCode Instance Store Lifecycle External.

(** * Definitions: internal/model/definition.go and wire.go *)

Definition GotoEnd : string := "end".
Definition GotoNext : string := "next".

(** A raise or panic clause: [f_data] tells whether it carries data. *)
Record Fault := mkFault { f_code : string; f_message : string; f_data : option string }.

Record ErrorCase := mkErrorCase {
  ec_code : list string; ec_case : string; ec_retry : option string; ec_goto : string;
  ec_raise : option Fault; ec_panic : option Fault; ec_not_reached : bool }.

Record SwitchCase := mkSwitchCase {
  sc_case : string; sc_goto : string; sc_raise : option Fault; sc_panic : option Fault }.

Record Task := mkTask {
  ID : string; Action : option ActionType; OnlyOnce : bool; OnError : list ErrorCase;
  Output : bool; Switch : list SwitchCase }.

Record ProcessDefinition := mkDefinition { Name : string; Tasks : list Task; HasOutput : bool }.

(** The wire form of a rule's goto: [ErrorCase]'s [UnmarshalJSON] and [MarshalJSON].  A
    reference loses its sigil on the way in. *)
Definition decode_goto (w : string) : result string string :=
  if String.eqb w "" then Ok ""
  else if String.eqb w "end" then Ok GotoEnd
  else if HasPrefix w "$" then Ok (TrimPrefix w "$")
  else Err "goto must be end or a task reference".

Definition encode_goto (g : string) : string :=
  if String.eqb g "" then "" else if String.eqb g GotoEnd then "end" else ("$" +:+ g)%string.

(** [OnlyOnceAction]; a nil task is [None]. *)
Definition OnlyOnceAction (t : option Task) : bool :=
  match t with
  | Some t => match Action t with Some _ => OnlyOnce t | None => false end
  | None => false
  end.

Definition interruptedOnlyOnce := OnlyOnceAction.

(** * What the instance carries through an advance *)

Definition on_work (f : work_cols -> work_cols) (i : ProcessInstance) : ProcessInstance :=
  mkInstance (set_work (f (r_work i)) i) (ReclaimedExpired i) (ConsumedSignalID i).

Definition w_task (t : string) (w : work_cols) : work_cols :=
  mkWork t (task_epoch w) (next_replayable w) (retry_count w) (wake_at w) (status w) (phase w)
    (error_message w) (error_code w) (updated_at w) (cols w).
Definition w_epoch (n : Z) (w : work_cols) : work_cols :=
  mkWork (task w) n (next_replayable w) (retry_count w) (wake_at w) (status w) (phase w)
    (error_message w) (error_code w) (updated_at w) (cols w).
Definition w_next (b : bool) (w : work_cols) : work_cols :=
  mkWork (task w) (task_epoch w) b (retry_count w) (wake_at w) (status w) (phase w)
    (error_message w) (error_code w) (updated_at w) (cols w).
Definition w_retry (n : Z) (w : work_cols) : work_cols :=
  mkWork (task w) (task_epoch w) (next_replayable w) n (wake_at w) (status w) (phase w)
    (error_message w) (error_code w) (updated_at w) (cols w).
Definition w_wake (t : option Z) (w : work_cols) : work_cols :=
  mkWork (task w) (task_epoch w) (next_replayable w) (retry_count w) t (status w) (phase w)
    (error_message w) (error_code w) (updated_at w) (cols w).
Definition w_status (s : Status) (w : work_cols) : work_cols :=
  mkWork (task w) (task_epoch w) (next_replayable w) (retry_count w) (wake_at w) s (phase w)
    (error_message w) (error_code w) (updated_at w) (cols w).
Definition w_phase (p : Phase) (w : work_cols) : work_cols :=
  mkWork (task w) (task_epoch w) (next_replayable w) (retry_count w) (wake_at w) (status w) p
    (error_message w) (error_code w) (updated_at w) (cols w).
Definition w_error (msg code : string) (w : work_cols) : work_cols :=
  mkWork (task w) (task_epoch w) (next_replayable w) (retry_count w) (wake_at w) (status w) (phase w)
    msg code (updated_at w) (cols w).
Definition w_cols (c : stateCols) (w : work_cols) : work_cols :=
  mkWork (task w) (task_epoch w) (next_replayable w) (retry_count w) (wake_at w) (status w) (phase w)
    (error_message w) (error_code w) (updated_at w) c.

(** [inst.ConsumedSignalID = id]. *)
Definition consuming (sid : string) (i : ProcessInstance) : ProcessInstance :=
  mkInstance (inst i) (ReclaimedExpired i) sid.

(** [enterTask]: every transition, a goto to itself included. *)
Definition enterTask (taskID : string) (i : ProcessInstance) : ProcessInstance :=
  on_work (fun w => w_epoch (task_epoch w + 1) (w_task taskID w)) i.

Fixpoint taskIndex_from (n : Z) (tasks : list Task) (taskID : string) : Z :=
  match tasks with
  | [] => -1
  | t :: tasks => if String.eqb (ID t) taskID then n else taskIndex_from (n + 1) tasks taskID
  end.

Definition taskIndex (tasks : list Task) (taskID : string) : Z :=
  if String.eqb taskID "" then -1 else taskIndex_from 0 tasks taskID.

(** [tasks[idx]], where the index is in range. *)
Definition task_at (tasks : list Task) (idx : Z) : option Task :=
  if idx <? 0 then None else nth_error tasks (Z.to_nat idx).

Definition taskIDAt (tasks : list Task) (idx : Z) : string :=
  match task_at tasks idx with Some t => ID t | None => "" end.

(** * Outcomes *)

(** [advanceOutcome]: everything a step changes. *)
Inductive advanceOutcome :=
  | outcomeProgress
  | outcomeUpdate
  | outcomeTerminal
  | outcomeSpawn (children : list ProcessInstance)
  | outcomeArm (taskID input : string) (wakeAt : option Z)
  | outcomeRespawn (children : list ProcessInstance) (retired : list string).

(** Outcomes whose failed write fails the instance, not the worker. *)
Definition writeVerb (o : advanceOutcome) : bool :=
  match o with outcomeSpawn _ | outcomeRespawn _ _ | outcomeArm _ _ _ => true | _ => false end.

(** Where an advance stopped. *)
Definition stopped : Type := ProcessInstance * advanceOutcome.

Record ResolvedRetry := mkRetry { Retries : Z; Base : Z; Ceiling : Z }.

(** The keys of [inst.State] the engine itself writes. *)
Inductive slot := SLastError | SError | SErrorData | SOutputOf (task : string) | SOutput | SExternalInput
  | SRetryOverride | SSpawnAttempt.

(** What a fetch came to: refused before it was sent, an error for the rules, or a result. *)
Inductive fetched (V : Type) :=
  | FetchRefused (code : Code) (msg : string)
  | FetchFailed (code : Code) (msg : string) (data : option V)
  | FetchDone (result : V) (meta : V).
Arguments FetchRefused {V}. Arguments FetchFailed {V}. Arguments FetchDone {V}.

(** An answer to an external task. *)
Inductive ExternalOutcome (V : Type) :=
  | Answered (result : V)
  | Refused (code msg : string) (data : option V).
Arguments Answered {V}. Arguments Refused {V}.

(** What a batch spawns in one slot, evaluated and validated. *)
Record child_spec := mkSpec {
  cs_def : string; cs_version : Z; cs_first : string; cs_once : bool; cs_cols : stateCols; cs_id : string }.

(** What an advance asks of the packages around it, at the instance as it stands. *)
Record env (V : Type) := mkEnv {
  (** The store's definitions, and the failure of resolving the config. *)
  definition : string -> Z -> option ProcessDefinition;
  configErr : ProcessDefinition -> option string;
  (** The context: [inst.State] behind the encoded columns. *)
  get : slot -> stateCols -> option V;
  put : slot -> option V -> stateCols -> stateCols;
  spawnKey : stateCols -> string;
  spawnIndex : stateCols -> option Z;
  spawnAttempt : stateCols -> Z;
  (** Evaluation, with the fields of [self] given. *)
  evalBool : ProcessInstance -> option V -> string -> result string bool;
  selfBeforeOutput : ProcessInstance -> V;
  evalTaskOutput : ProcessInstance -> Task -> V -> option V -> option V -> result (bool * string) V;
  taskSelf : V -> option V -> option V -> option V -> V;
  evalOutput : ProcessInstance -> ProcessDefinition -> result (bool * string) V;
  resolveRetry : ProcessInstance -> V -> string -> result string ResolvedRetry;
  faultMessage : ProcessInstance -> Fault -> V -> string;
  evalFaultData : ProcessInstance -> string -> V -> result string V;
  (** The error value rules see. *)
  errorValue : string -> string -> Code -> option V -> V;
  batchErrorValue : Task -> row -> option V -> V;
  (** What actions come to. *)
  executeAction : ProcessInstance -> Task -> fetched V;
  resolveDelay : ProcessInstance -> Task -> result string Z;
  resolveTimeout : ProcessInstance -> Task -> result string (option Z);
  buildTaskData : ProcessInstance -> Task -> result string string;
  decodeOutcome : string -> ExternalOutcome V;
  batch : ProcessInstance -> Task -> result (Code * string) (list child_spec);
  raisedData : Task -> row -> Code -> result (bool * string) (option V);
  buildChildOutput : Task -> list row -> result (bool * string) V;
  nilValue : V;
  noChildren : V;
  attemptValue : Z -> V;
  isTrue : V -> bool;
  (** The clock, the delay before a retry, and the text of a message. *)
  now_ : Z;
  retryDelay : Z -> ResolvedRetry -> Z;
  Sprintf : string -> list string -> string }.
Arguments mkEnv {V}. Arguments definition {V}. Arguments configErr {V}. Arguments get {V}. Arguments put {V}.
Arguments spawnKey {V}. Arguments spawnIndex {V}. Arguments spawnAttempt {V}. Arguments evalBool {V}.
Arguments selfBeforeOutput {V}. Arguments evalTaskOutput {V}. Arguments taskSelf {V}. Arguments evalOutput {V}.
Arguments resolveRetry {V}. Arguments faultMessage {V}. Arguments evalFaultData {V}. Arguments errorValue {V}.
Arguments batchErrorValue {V}. Arguments executeAction {V}. Arguments resolveDelay {V}. Arguments resolveTimeout {V}.
Arguments buildTaskData {V}. Arguments decodeOutcome {V}. Arguments batch {V}. Arguments raisedData {V}.
Arguments buildChildOutput {V}. Arguments noChildren {V}. Arguments nilValue {V}. Arguments attemptValue {V}. Arguments isTrue {V}. Arguments now_ {V}.
Arguments retryDelay {V}. Arguments Sprintf {V}.

Section Advance.
Context {V : Type} (E : env V).

Definition put_slot (k : slot) (v : option V) (i : ProcessInstance) : ProcessInstance :=
  on_work (fun w => w_cols (put E k v (cols w)) w) i.
Definition get_slot (k : slot) (i : ProcessInstance) : option V := get E k (cols i).

(** [bindCaught]: the instance while [error] is bound, and its release. *)
Definition bindCaught (e : V) (i : ProcessInstance) : ProcessInstance := put_slot SError (Some e) i.
Definition release (before i : ProcessInstance) : ProcessInstance := put_slot SError (get_slot SError before) i.

(** * Conclusions: error.go *)

Definition failInstance (i : ProcessInstance) (code : Code) (reason : string) : stopped :=
  (on_work (fun w => w_wake None (w_error reason code (w_phase PhaseNone (w_status StatusFailed w)))) i,
   outcomeTerminal).

(** [declaredFailureCode]: an evaluation error says whether a declared schema was violated. *)
Definition declaredFailureCode (violated : bool) (violation ordinary : Code) : Code :=
  if violated then violation else ordinary.

Definition setErrorData (data : option V) (i : ProcessInstance) : ProcessInstance :=
  put_slot SErrorData data i.

(** The payload of a clause: none when it declares none. *)
Definition faultData (i : ProcessInstance) (f : Fault) (self : V) : result string (option V) :=
  match f_data f with
  | None => Ok None
  | Some d => Some <$> evalFaultData E i d self
  end.

Definition raiseInstance (i : ProcessInstance) (t : Task) (f : Fault) (self : V) : stopped :=
  match faultData i f self with
  | Err e => failInstance i EngineExpression (Sprintf E "task %q raise data: %v" [ID t; e])
  | Ok data =>
      let msg := faultMessage E i f self in
      (setErrorData data
         (on_work (fun w => w_wake None (w_error msg (f_code f) (w_phase PhaseNone (w_status StatusRaised w)))) i),
       outcomeTerminal)
  end.

Definition panicInstance (i : ProcessInstance) (t : Task) (f : Fault) (self : V) : stopped :=
  match faultData i f self with
  | Err e => failInstance i EngineExpression (Sprintf E "task %q panic data: %v" [ID t; e])
  | Ok data =>
      let msg := faultMessage E i f self in
      let '(i, o) := failInstance i (f_code f) msg in
      (setErrorData data i, o)
  end.

(** [computeOutput]: a definition that cannot be loaded fails it too. *)
Definition computeOutput (i : ProcessInstance) : result (bool * string) ProcessInstance :=
  match definition E (process_name i) (process_version i) with
  | None => Err (false, Sprintf E "load definition for output" [])
  | Some def =>
      if HasOutput def then
        out ← evalOutput E i def; Ok (put_slot SOutput (Some out) i)
      else Ok i
  end.

Definition completed (i : ProcessInstance) : stopped :=
  match computeOutput i with
  | Err (v, e) => failInstance i (declaredFailureCode v EngineOutput EngineExpression) e
  | Ok i => (i, outcomeTerminal)
  end.

Definition completeViaErrorHandler (i : ProcessInstance) : stopped :=
  completed (on_work (fun w => w_wake None (w_retry 0 (w_status StatusCompleted w))) i).

Definition settlePausing (i : ProcessInstance) : stopped := (on_work (w_status StatusPaused) i, outcomeTerminal).
Definition settleCancelling (i : ProcessInstance) : stopped :=
  (on_work (w_status StatusCancelled) i, outcomeTerminal).

Definition lookupTask (i : ProcessInstance) : option Task :=
  if String.eqb (task i) "" then None
  else match definition E (process_name i) (process_version i) with
       | None => None
       | Some def => task_at (Tasks def) (taskIndex (Tasks def) (task i))
       end.

(** [resolveGoto]: the error, if the task is not there. *)
Definition resolveGoto (i : ProcessInstance) (taskID : string) : option string :=
  match definition E (process_name i) (process_version i) with
  | None => Some (Sprintf E "resolve goto: %w" [])
  | Some def =>
      if taskIndex (Tasks def) taskID <? 0
      then Some (Sprintf E "goto task %q not found in %q" [taskID; process_name i]) else None
  end.

(** * Errors and their rules: error.go *)

Definition isRetryAllowed (t : Task) (code : Code) (matched : option ErrorCase) : bool :=
  if negb (OnlyOnce t) then true
  else if IsUnknowable code then false
  else if match matched with Some c => ec_not_reached c | None => false end then true
  else IsNotReached code.

(** [matchOnErrorWith], with the case evaluator it is always given. *)
Fixpoint matchOnErrorWith (rules : list ErrorCase) (code : Code) (eval : string -> result string bool)
    : result string (option ErrorCase) :=
  match rules with
  | [] => Ok None
  | c :: rules =>
      if negb (bool_decide (ec_code c = []) || existsb (fun pat => MatchCode pat code) (ec_code c))
      then matchOnErrorWith rules code eval
      else if String.eqb (ec_case c) "" then Ok (Some c)
      else match eval (ec_case c) with
           | Err e => Err e
           | Ok true => Ok (Some c)
           | Ok false => matchOnErrorWith rules code eval
           end
  end.

Definition caseEvaluator (i : ProcessInstance) (errVal : V) (expr : string) : result string bool :=
  evalBool E (bindCaught errVal i) (Some (selfBeforeOutput E (bindCaught errVal i))) expr.

(** The retry an error rule grants; [None] is the zero policy. *)
Definition policy_of (i : ProcessInstance) (errVal : V) (matched : option ErrorCase)
    : result string (option ResolvedRetry) :=
  match matched with
  | Some c => match ec_retry c with
              | Some r => Some <$> resolveRetry E (bindCaught errVal i) errVal r
              | None => Ok None
              end
  | None => Ok None
  end.

Definition Retries_of (p : option ResolvedRetry) : Z := match p with Some p => Retries p | None => 0 end.

(** The park of a granted retry: a new occurrence of the task, due after its delay. *)
Definition retry_park (i : ProcessInstance) (p : option ResolvedRetry) : ProcessInstance :=
  let n := retry_count i + 1 in
  let delay := match p with Some p => retryDelay E n p | None => 0 end in
  on_work (fun w => w_wake (Some (now_ E + delay)) (w_epoch (task_epoch w + 1) (w_retry n w))) i.

(** The clause of a rule, with [error] bound; [last_error] is written behind it. *)
Definition handle_clause (i : ProcessInstance) (t : Task) (msg : string) (code : Code) (errVal : V)
    (matched : option ErrorCase) : stopped :=
  let bound := bindCaught errVal i in
  let self := selfBeforeOutput E bound in
  let none := failInstance bound code (Sprintf E "task %q: %s: %s" [ID t; code; msg]) in
  let '(i', o) :=
    match matched with
    | None => none
    | Some c =>
        match ec_raise c, ec_panic c with
        | Some f, _ => raiseInstance bound t f self
        | None, Some f => panicInstance bound t f self
        | None, None =>
            if String.eqb (ec_goto c) "" then none
            else if String.eqb (ec_goto c) GotoEnd then completeViaErrorHandler bound
            else match resolveGoto bound (ec_goto c) with
                 | Some e => failInstance bound EngineDefinition e
                 | None =>
                     (on_work (fun w => w_wake None (w_retry 0 w)) (enterTask (ec_goto c) bound), outcomeUpdate)
                 end
        end
    end in
  (put_slot SLastError (Some errVal) (release i i'), o).

Definition handleCallErrorWith (i : ProcessInstance) (t : Task) (msg : string) (code : Code)
    (data : option V) : stopped :=
  let errVal := errorValue E (ID t) msg code data in
  match matchOnErrorWith (OnError t) code (caseEvaluator i errVal) with
  | Err e => failInstance i EngineExpression (Sprintf E "task %q: %v" [ID t; e])
  | Ok matched =>
      match policy_of i errVal matched with
      | Err e => failInstance i EngineExpression (Sprintf E "task %q on_error: %v" [ID t; e])
      | Ok policy =>
          if (retry_count i <? Retries_of policy) && isRetryAllowed t code matched
          then (retry_park i policy, outcomeUpdate)
          else handle_clause i t msg code errVal matched
      end
  end.

Definition handleCallError (i : ProcessInstance) (t : Task) (msg : string) (code : Code) : stopped :=
  handleCallErrorWith i t msg code None.

(** * Actions that park: action.go *)

(** What an action gives the task: its result and the metadata of a fetch, or the outcome
    the advance stops with. *)
Definition acted : Type := ProcessInstance * V * option V + stopped.

(** A delay parks on its target, once; a target already past is due now. *)
Definition runDelay (i : ProcessInstance) (t : Task) : option stopped :=
  match wake_at i with
  | None =>
      match resolveDelay E i t with
      | Err e => Some (failInstance i EngineExpression (Sprintf E "task %q delay: %v" [ID t; e]))
      | Ok wake => Some (on_work (w_wake (Some (Z.max wake (now_ E)))) i, outcomeProgress)
      end
  | Some _ => None
  end.

Definition clearExternalPark (i : ProcessInstance) : ProcessInstance :=
  let i := put_slot SExternalInput None i in
  on_work (fun w =>
    let c := cols w in
    w_cols (mkCols (InputData c) (OutputsData c) (OutputData c) (ErrorInternal c) (ErrorData c)
              (ExternalInput c) (EngineState c) (Objects c) false) w) i.

(** Phase 3: parked with no answer, so the deadline passed or the claim was lost. *)
Definition external_overdue (i : ProcessInstance) (t : Task) : stopped :=
  let '(code, msg) :=
    if ExternalLost (cols i)
    then (ErrCode.ErrCode.ExternalLost, "the worker holding this task did not answer before its claim expired")
    else (ExternalTimeout, "external task timed out") in
  handleCallError (clearExternalPark (on_work (w_phase PhaseNone) i)) t msg code.

(** Phase 1: the first arrival arms the wait; a deadline already past is due now. *)
Definition external_arm (i : ProcessInstance) (t : Task) : stopped :=
  match buildTaskData E i t with
  | Err e => failInstance i EngineExpression (Sprintf E "task %q input: %v" [ID t; e])
  | Ok input =>
      match resolveTimeout E i t with
      | Err e => failInstance i EngineExpression (Sprintf E "task %q timeout: %v" [ID t; e])
      | Ok deadline => (i, outcomeArm (ID t) input ((fun d => Z.max d (now_ E)) <$> deadline))
      end
  end.

(** [runExternal], reading the buffered answer off [s]. *)
Definition runExternal (s : DBState) (i : ProcessInstance) (t : Task) : acted :=
  match head (merge_sort oldest_signal (signals_for (id i) (ID t) (signals s))) with
  | Some sg =>
      let i := on_work (w_phase PhaseNone) (clearExternalPark (consuming (sig_id sg) i)) in
      match decodeOutcome E (sig_outcome sg) with
      | Refused code msg data => inr (handleCallErrorWith i t msg code data)
      | Answered r => inl (i, r, None)
      end
  | None =>
      if bool_decide (phase i = PhaseExternal) then inr (external_overdue i t) else inr (external_arm i t)
  end.

(** [executeAction], from what the call came to. *)
Definition runFetch (i : ProcessInstance) (t : Task) : acted :=
  match executeAction E i t with
  | FetchRefused code msg => inr (failInstance i code msg)
  | FetchFailed code msg data => inr (handleCallErrorWith i t msg code data)
  | FetchDone r meta => inl (on_work (w_retry 0) i, r, Some meta)
  end.

(** * Children: child.go *)

Definition newChildInstance (parent : ProcessInstance) (t : Task) (sp : child_spec) (stack : list string)
    : ProcessInstance :=
  mkInstance
    (mkRow (mkSpawn (cs_id sp) (cs_def sp) (id parent) "" stack (ID t) (task_epoch parent) 0) (cs_version sp)
       (mkWork (cs_first sp) 0 (negb (cs_once sp)) 0 None StatusRunning PhaseNone "" "" 0 (cs_cols sp))
       (mkLease None None 0) (mkClaim None None 0) None) false "".

(** The batch phase 1 builds: [buildSingleChild], [buildMapChildren], [buildListChildren]. *)
Definition buildChildren (i : ProcessInstance) (t : Task) : list ProcessInstance + stopped :=
  match batch E i t with
  | Err (code, msg) => inr (failInstance i code msg)
  | Ok specs => inl (map (fun sp => newChildInstance i t sp (call_stack i ++ [id i])) specs)
  end.

(** [slotID]: the position a child occupies in its batch. *)
Inductive slot_id := SlotKey (k : string) | SlotIdx (n : Z) | SlotSingle.
#[export] Instance slot_id_eq_dec : EqDecision slot_id.
Proof. solve_decision. Defined.

Definition slotID (c : row) : slot_id :=
  if negb (String.eqb (spawnKey E (cols c)) "") then SlotKey (spawnKey E (cols c))
  else match spawnIndex E (cols c) with Some n => SlotIdx n | None => SlotSingle end.

(** The fresh child of a slot: of several, the one built last. *)
Definition fresh_for (fresh : list ProcessInstance) (s : slot_id) : option ProcessInstance :=
  List.find (fun c : ProcessInstance => bool_decide (slotID c = s)) (rev fresh).

(** [raisedInSlotOrder]. *)
Definition by_index (a b : row) : Prop :=
  default 0 (spawnIndex E (cols a)) <= default 0 (spawnIndex E (cols b)).
Definition by_key (a b : row) : Prop := String.le (spawnKey E (cols a)) (spawnKey E (cols b)).
#[local] Instance by_index_dec a b : Decision (by_index a b).
Proof. unfold by_index. apply _. Defined.
#[local] Instance by_key_dec a b : Decision (by_key a b).
Proof. unfold by_key. apply _. Defined.

Definition raisedInSlotOrder (siblings : list row) (t : Task) : list row :=
  let raised := List.filter (fun c : row => bool_decide (status c = StatusRaised)) siblings in
  match Action t with
  | Some ActionTypeChildList => merge_sort by_index raised
  | _ => merge_sort by_key raised
  end.

(** * Collecting: collect.go *)

(** [slotError]: the code and error value a rule sees, a payload failing its declaration
    replacing the code. *)
Definition slotError (t : Task) (c : row) : result string (Code * V) :=
  match raisedData E t c (error_code c) with
  | Ok data => Ok (error_code c, batchErrorValue E t c data)
  | Err (true, _) => Ok (ResultInvalid, batchErrorValue E t c None)
  | Err (false, e) => Err e
  end.

(** [respawnChild]: the fresh child of the slot, placed in the batch it joins. *)
Definition respawnChild (old : row) (fresh : list ProcessInstance) (attempt : Z) (p : option ResolvedRetry)
    : option ProcessInstance :=
  match fresh_for fresh (slotID old) with
  | None => None
  | Some c =>
      let sp := r_spawn c in
      let placed := mkInstance (mkRow
        (mkSpawn (id sp) (process_name sp) (parent_id sp) (root_id sp) (call_stack sp) (spawn_task_id sp)
           (parent_task_epoch old) (created_at sp))
        (process_version c) (r_work c) (r_lease c) (r_claim c) (superseded_at c))
        (ReclaimedExpired c) (ConsumedSignalID c) in
      let delay := match p with Some p => retryDelay E attempt p | None => 0 end in
      Some (on_work (w_wake (Some (updated_at old + delay)))
              (put_slot SSpawnAttempt (Some (attemptValue E attempt)) placed))
  end.

(** The batch of a round of retries, built once and only if a slot needs it. *)
Definition fresh_once (fresh : option (list ProcessInstance)) (i : ProcessInstance) (t : Task)
    : list ProcessInstance + stopped :=
  match fresh with Some l => inl l | None => buildChildren i t end.

(** [admitRetries], one slot at a time: the attempts to retire and their replacements. *)
Fixpoint admit_slots (override : bool) (i : ProcessInstance) (t : Task) (raised : list row)
    (fresh : option (list ProcessInstance)) (retired : list string) (children : list ProcessInstance)
    : list string * list ProcessInstance + stopped :=
  match raised with
  | [] => inl (retired, children)
  | c :: raised =>
      match slotError t c with
      | Err e => inr (failInstance i EngineCollect (Sprintf E "task %q collect: %s" [ID t; e]))
      | Ok (code, errVal) =>
          let attempt := spawnAttempt E (cols c) in
          let go (policy : option ResolvedRetry) :=
            match fresh_once fresh i t with
            | inr failed => inr failed
            | inl fresh =>
                match respawnChild c fresh (attempt + 1) policy with
                | None => inr (failInstance i EngineSpawn (Sprintf E "task %q retry" [ID t]))
                | Some child =>
                    admit_slots override i t raised (Some fresh) (retired ++ [id c]) (children ++ [child])
                end
            end in
          if override then go None
          else
            match matchOnErrorWith (OnError t) code (caseEvaluator i errVal) with
            | Err e => inr (failInstance i EngineExpression (Sprintf E "task %q: %v" [ID t; e]))
            | Ok rule =>
                match policy_of i errVal rule with
                | Err e => inr (failInstance i EngineExpression (Sprintf E "task %q on_error: %v" [ID t; e]))
                | Ok None => admit_slots override i t raised fresh retired children
                | Ok (Some p) =>
                    if Retries p <=? attempt then admit_slots override i t raised fresh retired children
                    else go (Some p)
                end
            end
      end
  end.

(** The marker an operator's retry leaves, read and cleared. *)
Definition admitRetries (i : ProcessInstance) (t : Task) (raised : list row)
    : ProcessInstance * (list string * list ProcessInstance + stopped) :=
  let override := match get_slot SRetryOverride i with Some v => isTrue E v | None => false end in
  let i := put_slot SRetryOverride None i in
  (i, admit_slots override i t raised None [] []).

(** The clause that routes the first raised slot. *)
Definition batch_clause (i : ProcessInstance) (t : Task) (first : row) (errVal : V) (rule : option ErrorCase)
    : stopped :=
  let code := error_code first in
  let self := selfBeforeOutput E i in
  let unhandled := failInstance i code
    (Sprintf E "task %q: child %q raised %q: %s; no on_error rule matches"
       [ID t; process_name first; code; error_message first]) in
  match rule with
  | None => unhandled
  | Some c =>
      match ec_raise c, ec_panic c with
      | Some f, _ => raiseInstance i t f self
      | None, Some f => panicInstance i t f self
      | None, None =>
          if String.eqb (ec_goto c) "" then unhandled
          else if String.eqb (ec_goto c) GotoEnd then completeViaErrorHandler i
          else match resolveGoto i (ec_goto c) with
               | Some e => failInstance i EngineDefinition e
               | None => (on_work (fun w => w_wake None (w_retry 0 w)) (enterTask (ec_goto c) i), outcomeUpdate)
               end
      end
  end.

Definition resolveRaisedBatch (i : ProcessInstance) (t : Task) (first : row) (raised : list row) : stopped :=
  let '(i, admitted) := admitRetries i t (first :: raised) in
  match admitted with
  | inr failed => failed
  | inl (retired, (_ :: _) as children) => (on_work (w_phase PhaseChildren) i, outcomeRespawn children retired)
  | inl (_, []) =>
      let i := on_work (w_phase PhaseNone) i in
      let code := error_code first in
      match raisedData E t first code with
      | Err (true, e) => handleCallError i t (Sprintf E "child raised: %v" [e]) ResultInvalid
      | Err (false, e) => failInstance i EngineCollect (Sprintf E "task %q collect: %s" [ID t; e])
      | Ok data =>
          let errVal := batchErrorValue E t first data in
          let bound := bindCaught errVal i in
          let '(i', o) :=
            match matchOnErrorWith (OnError t) code (caseEvaluator bound errVal) with
            | Err e => failInstance bound EngineExpression (Sprintf E "task %q: %v" [ID t; e])
            | Ok rule => batch_clause bound t first errVal rule
            end in
          (put_slot SLastError (Some errVal) (release i i'), o)
      end
  end.

(** [runChildProcesses], reading the settled batch off [s]. *)
Definition runChildProcesses (s : DBState) (i : ProcessInstance) (t : Task) : acted :=
  if bool_decide (phase i = PhaseCollecting) then
    let siblings := GetChildrenForTask (id i) (ID t) (task_epoch i) (rows s) in
    match raisedInSlotOrder siblings t with
    | first :: raised => inr (resolveRaisedBatch i t first raised)
    | [] =>
        let i := on_work (w_phase PhaseNone) i in
        match buildChildOutput E t siblings with
        | Ok out => inl (i, out, None)
        | Err (true, e) => inr (handleCallError i t e ResultInvalid)
        | Err (false, e) => inr (failInstance i EngineCollect (Sprintf E "task %q collect: %v" [ID t; e]))
        end
    end
  else
    match buildChildren i t with
    | inr failed => inr failed
    | inl children =>
        match Action t, children with
        | Some ActionTypeChildList, [] => inl (i, noChildren E, None)
        | _, _ => inr (on_work (fun w => w_wake None (w_retry 0 w)) i, outcomeSpawn children)
        end
    end.

(** * The advance: advance.go *)

(** A panic under an advance, with the instance as it stood. *)
Inductive advance_error := Panic (i : ProcessInstance) | NoFuel.

(** The action of a task, if it has one. *)
Definition act (s : DBState) (i : ProcessInstance) (t : Task) : acted :=
  match Action t with
  | None => inl (i, nilValue E, None)
  | Some (ActionTypeChild | ActionTypeChildMap | ActionTypeChildList) => runChildProcesses s i t
  | Some ActionTypeDelay =>
      match runDelay i t with Some st => inr st | None => inl (i, nilValue E, None) end
  | Some ActionTypeExternal => runExternal s i t
  | Some ActionTypeFetch => runFetch i t
  end.

(** [evalSwitch]: the whole case, not its goto. *)
Fixpoint evalSwitch (i : ProcessInstance) (cases : list SwitchCase) (self : V)
    : result string (option SwitchCase) :=
  match cases with
  | [] => Ok None
  | c :: cases =>
      if String.eqb (sc_case c) "" then Ok (Some c)
      else match evalBool E i (Some self) (sc_case c) with
           | Err e => Err e
           | Ok true => Ok (Some c)
           | Ok false => evalSwitch i cases self
           end
  end.

(** The output a task declares: the instance with it stored, and its value. *)
Definition storeOutput (i : ProcessInstance) (t : Task) (res : V) (prior meta : option V)
    : result (bool * string) (ProcessInstance * option V) :=
  if Output t then
    out ← evalTaskOutput E i t res prior meta;
    Ok (put_slot (SOutputOf (ID t)) (Some out) i, Some out)
  else Ok (i, None).

Definition maxInlineTasks : nat := 1000.

(** Where a case's goto leads: the next index, a task not found, or the panic of slicing
    an empty reference. *)
Inductive goto_target := GotoIndex (idx : Z) | GotoMissing (taskID : string) | GotoPanic.

Definition goto_index (def : ProcessDefinition) (idx : Z) (gotoID : string) : goto_target :=
  if String.eqb gotoID GotoNext then GotoIndex (idx + 1)
  else match gotoID with
       | EmptyString => GotoPanic
       | String _ taskID =>
           let j := taskIndex (Tasks def) taskID in
           if j <? 0 then GotoMissing taskID else GotoIndex j
       end.

(** What a checkpoint or the next inline task starts from. *)
Definition moved (def : ProcessDefinition) (idx : Z) (i : ProcessInstance) : ProcessInstance :=
  on_work (fun w => w_wake None (w_retry 0 w))
    (put_slot SLastError None (enterTask (taskIDAt (Tasks def) idx) i)).

(** How one round of the loop ends: the advance is over, or it goes on to a task, having run
    an action or not. *)
Inductive round := Halts (st : stopped) | GoesOn (hasCall : bool) (idx : Z) (i : ProcessInstance).

(** One round of the loop of [advance], up to the question whether to go on inline; [n]
    counts the rounds before it. *)
Definition loop_body (n : nat) (s : DBState) (def : ProcessDefinition) (idx : Z) (i : ProcessInstance)
    : result advance_error round :=
  match task_at (Tasks def) idx with
  | None => Ok (Halts (completed (on_work (fun w => w_wake None (w_status StatusCompleted (w_task "" w))) i)))
  | Some t =>
      let i := on_work (w_task (ID t)) i in
      let hasCall := match Action t with Some _ => true | None => false end in
      let prior := if Output t then get_slot (SOutputOf (ID t)) i else None in
      if hasCall && (0 <? n)%nat && interruptedOnlyOnce (Some t) then Ok (Halts (i, outcomeProgress))
      else
        match act s i t with
        | inr st => Ok (Halts st)
        | inl (i, res, meta) =>
            match storeOutput i t res prior meta with
            | Err (v, e) => Ok (Halts (failInstance i (declaredFailureCode v EngineOutput EngineExpression)
                                         (Sprintf E "task %q output: %v" [ID t; e])))
            | Ok (i, out) =>
                let self := taskSelf E res prior meta out in
                match evalSwitch i (Switch t) self with
                | Err e => Ok (Halts (failInstance i EngineExpression (Sprintf E "task %q switch: %v" [ID t; e])))
                | Ok None => Ok (Halts (failInstance i EngineDefinition
                                          (Sprintf E "task %q switch: no case matched" [ID t])))
                | Ok (Some c) =>
                    match sc_raise c, sc_panic c with
                    | Some f, _ => Ok (Halts (raiseInstance i t f self))
                    | None, Some f => Ok (Halts (panicInstance i t f self))
                    | None, None =>
                        if String.eqb (sc_goto c) GotoEnd then
                          Ok (Halts (completed (on_work (fun w => w_wake None (w_retry 0 (w_status StatusCompleted w))) i)))
                        else
                          match goto_index def idx (sc_goto c) with
                          | GotoPanic => Err (Panic i)
                          | GotoMissing id => Ok (Halts (failInstance i EngineDefinition
                                                           (Sprintf E "goto task %q not found" [id])))
                          | GotoIndex idx => Ok (GoesOn hasCall idx (moved def idx i))
                          end
                    end
                end
            end
        end
  end.

(** The loop of [advance]; [n] counts the rounds before. *)
Fixpoint advance_loop (fuel n : nat) (s : DBState) (def : ProcessDefinition) (idx : Z) (i : ProcessInstance)
    : result advance_error stopped :=
  match fuel with
  | O => Err NoFuel
  | S fuel =>
      match loop_body n s def idx i with
      | Err e => Err e
      | Ok (Halts st) => Ok st
      | Ok (GoesOn hasCall idx i) =>
          if hasCall || (maxInlineTasks <=? n)%nat then Ok (i, outcomeProgress)
          else advance_loop fuel (S n) s def idx i
      end
  end.

Definition interruptedMessage : string := "its previous attempt was interrupted; the engine will not re-run it".

(** [prepareAdvance] and the loop, for a running instance. *)
Definition advanceRunning (s : DBState) (i : ProcessInstance) : result advance_error stopped :=
  match definition E (process_name i) (process_version i) with
  | None => Ok (failInstance i EngineDefinition (Sprintf E "load definition: %v" []))
  | Some def =>
      match configErr E def with
      | Some e => Ok (failInstance i EngineConfig (Sprintf E "config: %v" [e]))
      | None =>
          let idx := taskIndex (Tasks def) (task i) in
          if negb (String.eqb (task i) "") && (idx <? 0) then
            Ok (failInstance i EngineDefinition (Sprintf E "current task %q not found in definition" [task i]))
          else
            match task_at (Tasks def) idx with
            | Some t =>
                if ReclaimedExpired i && interruptedOnlyOnce (Some t)
                then Ok (handleCallError i t interruptedMessage OnlyOnceInterrupted)
                else advance_loop (S (S maxInlineTasks)) 0 s def idx i
            | None => advance_loop (S (S maxInlineTasks)) 0 s def idx i
            end
      end
  end.

Definition advance (s : DBState) (i : ProcessInstance) : result advance_error stopped :=
  match status i with
  | StatusCancelling => Ok (settleCancelling i)
  | StatusPausing =>
      match lookupTask i with
      | Some t =>
          if ReclaimedExpired i && interruptedOnlyOnce (Some t)
          then Ok (handleCallError (on_work (w_status StatusRunning) i) t interruptedMessage OnlyOnceInterrupted)
          else Ok (settlePausing i)
      | None => Ok (settlePausing i)
      end
  | _ => advanceRunning s i
  end.

(** [advanceGuarded]: a panic fails the instance. *)
Definition advanceGuarded (s : DBState) (i : ProcessInstance) : option stopped :=
  match advance s i with
  | Ok st => Some st
  | Err (Panic i) => Some (failInstance i EnginePanic (Sprintf E "panic while advancing task %q" [task i]))
  | Err NoFuel => None
  end.

(** [persist]: the only place an advance writes. *)
Definition persist (postgres : bool) (i : ProcessInstance) (o : advanceOutcome) (now : Z) : Tx unit :=
  let i := on_work (w_next (negb (interruptedOnlyOnce (lookupTask i)))) i in
  match o with
  | outcomeTerminal => saveAndNotify postgres i now
  | outcomeProgress => UpdateInstanceProgress i now
  | outcomeUpdate => UpdateInstance i now
  | outcomeSpawn children => SpawnChildrenAndWait i children now
  | outcomeRespawn children retired => RespawnSlotsAndWait i retired children now
  | outcomeArm t input wake => _ ← ArmExternalUnlessSignalled i t input wake now; mret tt
  end.

(** The outcome of a spawn or arm that could not be written. *)
Definition spawn_failed (i : ProcessInstance) : stopped :=
  failInstance i EngineSpawn (Sprintf E "task %q: %v" [task i]).

(** A write that says whether it landed: a lost lease drops the outcome. *)
Definition unless_lost (t : Tx unit) : Tx bool := fun s =>
  match t s with
  | Ok (_, s') => Ok (true, s')
  | Err ErrLeaseLost => Ok (false, s)
  | Err e => Err e
  end.

(** [runAdvance]: the advance reads [s]; its write happens on whatever the database holds
    then.  An advance whose context was cancelled at shutdown ([abandoned]: the cause is
    errAbandoned) writes nothing, whatever it reached.  The flush of an only_once result
    changes no row. *)
Definition runAdvance (abandoned postgres : bool) (s : DBState) (i : ProcessInstance) (now : Z) : Tx bool :=
  match advanceGuarded s i with
  | None => fail OutOfFuel
  | Some (i, o) =>
      if abandoned then mret false
      else fun s' =>
        match unless_lost (persist postgres i o now) s' with
        | Ok r => Ok r
        | Err e =>
            if writeVerb o then let '(i, o) := spawn_failed i in unless_lost (persist postgres i o now) s'
            else Err e
        end
  end.

End Advance.
(** A rule's goto survives being stored and read back, and what is stored is what was
    written, save for a reference to a task named end, which becomes the end of the process, and
    the empty reference, which becomes no goto at all. *)
Theorem goto_roundtrip :
  (forall g, decode_goto (encode_goto g) = Ok g) /\
  (forall w g, decode_goto w = Ok g -> encode_goto g = w \/ w = "$end" \/ w = "$").
Proof.
  split.
  - intros g. unfold encode_goto. destruct (String.eqb_spec g "") as [->|N]; [done|].
    destruct (String.eqb_spec g GotoEnd) as [->|Ne]; [done|]. unfold decode_goto. cbn.
    unfold HasPrefix, TrimPrefix. cbn. by destruct g.
  - intros w g. unfold decode_goto. destruct (String.eqb_spec w "") as [->|N]; [intros [= <-]; by left|].
    destruct (String.eqb_spec w "end") as [->|Ne]; [intros [= <-]; by left|].
    unfold HasPrefix, TrimPrefix. destruct (strip_prefix "$" w) as [r|] eqn:P; [|done]. intros [= <-].
    apply strip_prefix_Some in P as ->. unfold encode_goto.
    destruct (String.eqb_spec r "") as [->|Nr]; [by right; right|].
    destruct (String.eqb_spec r GotoEnd) as [->|Nr']; [by right; left|by left].
Qed.

End Engine.
