(* ===== verification/Advancing.v ===== *)
(** The engine keeps its side of the lifecycle: whatever the definitions, the evaluator and
    the remote calls come to, every write an advance asks for is one the step relation
    of [System] allows. *)
From Stdlib Require Import ZArith Lia String.
From stdpp Require Import sorting.
From S2P Require Import Prelude.
From S2P Require Import GoStrings.
From S2P Require Import ErrCode.
From S2P Require Import Instance.
From S2P Require Import Store.
From S2P Require Import Lifecycle.
From S2P Require Import External.
From S2P Require Import Tree.
From S2P Require Import Drain.
From S2P Require Import Verbs.
From S2P Require Import Revive.
From S2P Require Import System.
From S2P Require Import Guarantees.
From S2P Require Import Contracts.
From S2P Require Import Engine.
Open Scope string_scope.
Open Scope list_scope.
Open Scope Z_scope.

Module Advancing.
Import ErrCode.ErrCode Instance Store Lifecycle External Tree Drain Verbs Revive System Guarantees Contracts.
Import Engine.

Implicit Types g i : ProcessInstance.
Implicit Types k : string.
Implicit Types m : table.

(** What is documented of the packages behind [env]: minted ids are not empty, a definition
    that was accepted names its tasks, and only a list fans out to nothing. *)
Record env_ok {V} (E : env V) : Prop := mkEnvOk {
  e_ids : forall i t specs sp, batch E i t = Ok specs -> sp ∈ specs -> cs_id sp <> "";
  e_empty : forall i t, batch E i t = Ok [] -> Action t = Some ActionTypeChildList;
  e_tasks : forall n v def t, definition E n v = Some def -> t ∈ Tasks def -> ID t <> "" }.

(** What an advance never changes of the instance it was granted. *)
Definition like (g i : ProcessInstance) : Prop := r_spawn i = r_spawn g /\ r_lease i = r_lease g.

(** Two instances the write of an outcome does not tell apart. *)
Record alike (i i' : ProcessInstance) : Prop := mkAlike {
  al_spawn : r_spawn i' = r_spawn i; al_lease : r_lease i' = r_lease i; al_status : status i' = status i;
  al_phase : phase i' = phase i; al_task : task i' = task i; al_epoch : task_epoch i' = task_epoch i }.

Lemma alike_refl i : alike i i.
Proof. by split. Qed.

Lemma alike_put {V} (E : env V) (sl : slot) v i : alike i (put_slot E sl v i).
Proof. by split. Qed.

Lemma alike_trans i1 i2 i3 : alike i1 i2 -> alike i2 i3 -> alike i1 i3.
Proof. intros [] []. split; congruence. Qed.

Lemma child_for_alike i i' c : alike i i' -> child_for i c -> child_for i' c.
Proof. intros [Es El _ _ Et Ee] []. split; rewrite ?Es, ?Et, ?Ee; done. Qed.

(** What the write of each outcome needs. *)
Definition valid (m : table) (g : ProcessInstance) (st : stopped) : Prop :=
  let '(i, o) := st in
  like g i /\
  match o with
  | outcomeProgress => status g = StatusRunning /\ phase i <> PhaseChildren
  | outcomeUpdate | outcomeArm _ _ _ => goes_on g (status i) /\ phase i <> PhaseChildren
  | outcomeTerminal => concludes (status g) (status i) = true /\ phase i <> PhaseChildren
  | outcomeSpawn children =>
      status g = StatusRunning /\ phase i <> PhaseChildren /\ task i <> "" /\ children <> [] /\
      forall c : ProcessInstance, c ∈ children -> child_for i c
  | outcomeRespawn children retired =>
      status g = StatusRunning /\ task i <> "" /\ children <> [] /\
      (forall k, k ∈ retired -> exists r : row, m !! k = Some r /\ status r = StatusRaised) /\
      forall c : ProcessInstance, c ∈ children -> child_for i c
  end.

Lemma valid_alike m g i i' o : alike i i' -> valid m g (i, o) -> valid m g (i', o).
Proof.
  intros A [[Ls Ll] H]. pose proof A as [Es El Est Eph Et Ee]. split; [split; congruence|].
  destruct o; rewrite ?Est, ?Eph, ?Et; try done.
  - destruct H as (? & ? & ? & ? & Hc). split_and!; try done. intros c Hin. by apply (child_for_alike i), Hc.
  - destruct H as (? & ? & ? & ? & Hc). split_and!; try done. intros c Hin. by apply (child_for_alike i), Hc.
Qed.

Lemma valid_put {V} (E : env V) m g (sl : slot) v i o : valid m g (i, o) -> valid m g (put_slot E sl v i, o).
Proof. apply valid_alike, alike_put. Qed.

Section Contract.
Context {V : Type} (E : env V) (OK : env_ok E) (m : table) (g : ProcessInstance).
Context (Hg : status g ∈ [StatusRunning; StatusPausing]).
Abbreviation valid := (valid m g).

(** The instance between two tasks of an advance. *)
Record fit (i : ProcessInstance) : Prop := mkFit {
  ft_like : like g i; ft_status : status i = StatusRunning; ft_phase : phase i <> PhaseChildren }.

Lemma fit_alike i i' : alike i i' -> fit i -> fit i'.
Proof. intros [Es El Est Eph _ _] [[Ls Ll] Hs Hp]. split; [split|..]; congruence. Qed.

Lemma fit_put (sl : slot) v i : fit i -> fit (put_slot E sl v i).
Proof. apply fit_alike, alike_put. Qed.

Lemma concludes_final s : s ∈ [StatusCompleted; StatusFailed; StatusRaised] ->
  concludes (status g) s = true.
Proof using OK Hg. intros H. by in_cases Hg; rewrite Hg; in_cases H; subst. Qed.

Lemma fail_valid i code msg : like g i -> valid (failInstance i code msg).
Proof using OK Hg. intros L. split; [done|]. split; [by apply concludes_final; cbn; set_solver|done]. Qed.

Lemma raise_valid i t f self : like g i -> valid (raiseInstance E i t f self).
Proof using OK Hg.
  intros L. unfold raiseInstance. destruct (faultData _ _ _ _); [|by apply fail_valid].
  apply valid_put. split; [done|]. split; [by apply concludes_final; cbn; set_solver|done].
Qed.

Lemma panic_valid i t f self : like g i -> valid (panicInstance E i t f self).
Proof using OK Hg.
  intros L. unfold panicInstance. destruct (faultData _ _ _ _); [|by apply fail_valid].
  exact (valid_put E m g SErrorData _ _ outcomeTerminal (fail_valid i _ _ L)).
Qed.

Lemma completed_valid i : like g i -> status i = StatusCompleted -> phase i <> PhaseChildren ->
  valid (completed E i).
Proof using OK Hg.
  intros L Hs Hp. unfold completed, computeOutput. destruct (definition E _ _) as [def|].
  2:{ cbn. by apply fail_valid. }
  destruct (HasOutput def).
  - destruct (evalOutput E i def) as [out|[v e]]; cbn; [|by apply fail_valid].
    apply (valid_alike m g i _ outcomeTerminal (alike_put E SOutput (Some out) i)).
    split; [done|]. rewrite Hs. split; [by apply concludes_final; set_solver|done].
  - split; [done|]. rewrite Hs. split; [by apply concludes_final; set_solver|done].
Qed.

Lemma update_valid i : fit i -> valid (i, outcomeUpdate).
Proof using OK Hg. intros [L Hs Hp]. by split. Qed.

(** The clause of a rule, on the action path and on the batch path. *)
Lemma clause_valid i t f1 f2 gt self none code : fit i -> valid none ->
  valid (match f1, f2 with
         | Some f, _ => raiseInstance E i t f self
         | None, Some f => panicInstance E i t f self
         | None, None =>
             if String.eqb gt "" then none
             else if String.eqb gt GotoEnd then completeViaErrorHandler E i
             else match resolveGoto E i gt with
                  | Some e => failInstance i code e
                  | None => (on_work (fun w => w_wake None (w_retry 0 w)) (enterTask gt i), outcomeUpdate)
                  end
         end).
Proof using OK Hg.
  intros [L Hs Hp] Hn. destruct f1; [by apply raise_valid|]. destruct f2; [by apply panic_valid|].
  destruct (String.eqb gt ""); [done|]. destruct (String.eqb gt GotoEnd); [by apply completed_valid|].
  destruct (resolveGoto E i gt); [by apply fail_valid|]. by apply update_valid.
Qed.

Lemma last_error_valid errVal i st : valid st ->
  valid (let '(i', o) := st in (put_slot E SLastError (Some errVal) (release E i i'), o)).
Proof. destruct st as [i' o]. intros H. by apply valid_put, valid_put. Qed.

Lemma handle_valid i t msg code data : fit i -> valid (handleCallErrorWith E i t msg code data).
Proof using OK Hg.
  intros F. pose proof F as [L Hs Hp]. unfold handleCallErrorWith.
  destruct (matchOnErrorWith _ _ _) as [matched|e]; [|by apply fail_valid].
  destruct (policy_of _ _ _ _) as [policy|e]; [|by apply fail_valid].
  destruct (_ && _); [by apply update_valid|]. unfold handle_clause. apply last_error_valid.
  set (bound := bindCaught E _ i). assert (Fb : fit bound) by (by apply fit_put).
  destruct matched as [c|]; [|by apply fail_valid, Fb].
  apply clause_valid; [done|]. by apply fail_valid, Fb.
Qed.

(** * Children *)

(** A child built for the task [i] runs. *)
Definition built (i : ProcessInstance) (t : Task) (c : ProcessInstance) : Prop :=
  id c <> "" /\ parent_id c = id i /\ call_stack c = call_stack i ++ [id i] /\ spawn_task_id c = ID t /\
  phase c = PhaseNone.

Lemma build_valid i t : fit i ->
  match buildChildren E i t with
  | inl children => (children = [] -> Action t = Some ActionTypeChildList) /\
      forall c : ProcessInstance, c ∈ children -> built i t c /\ parent_task_epoch c = task_epoch i
  | inr st => valid st
  end.
Proof using OK Hg.
  intros [L _ _]. unfold buildChildren. destruct (batch E i t) as [specs|[code msg]] eqn:B; [|by apply fail_valid].
  split.
  - intros En. destruct specs; [|done]. by eapply e_empty.
  - intros c (sp & <- & Hin)%list_elem_of_In%List.in_map_iff. apply list_elem_of_In in Hin. cbn.
    split; [|done]. split_and!; try done. by eapply e_ids.
Qed.

Lemma built_child_for i t c : task i = ID t -> built i t c -> parent_task_epoch c = task_epoch i -> child_for i c.
Proof. intros Et (? & ? & ? & ? & ?) He. split; congruence. Qed.

Lemma respawn_built i t old fresh attempt p c : (forall c, c ∈ fresh -> built i t c) ->
  respawnChild E old fresh attempt p = Some c -> built i t c /\ parent_task_epoch c = parent_task_epoch old.
Proof.
  intros Hf H. unfold respawnChild in H. destruct (fresh_for E fresh _) as [f|] eqn:Ef; [|done].
  injection H as <-. unfold fresh_for in Ef. apply List.find_some in Ef as [Hin _].
  apply List.in_rev, list_elem_of_In in Hin. destruct (Hf _ Hin) as (? & ? & ? & ? & ?). by split.
Qed.

(** A slot of the batch under [i], as its collect read it. *)
Definition raised_slot (i : ProcessInstance) (c : row) : Prop :=
  m !! id c = Some c /\ status c = StatusRaised /\ parent_task_epoch c = task_epoch i.

Definition admitted (i : ProcessInstance) (t : Task) (retired : list string) (children : list ProcessInstance)
    : Prop :=
  (forall k, k ∈ retired -> exists r : row, m !! k = Some r /\ status r = StatusRaised) /\
  forall c : ProcessInstance, c ∈ children -> built i t c /\ parent_task_epoch c = task_epoch i.

Lemma admit_valid override i t raised fresh retired children : fit i ->
  (forall c, c ∈ raised -> raised_slot i c) ->
  (forall l, fresh = Some l -> forall c, c ∈ l -> built i t c) -> admitted i t retired children ->
  match admit_slots E override i t raised fresh retired children with
  | inl (retired', children') => admitted i t retired' children'
  | inr st => valid st
  end.
Proof using OK Hg.
  intros F. pose proof F as [L _ _]. revert fresh retired children.
  induction raised as [|c raised IH]; intros fresh retired children Hr Hf Ha; cbn [admit_slots]; [done|].
  assert (Hgo : forall p,
    match match fresh_once E fresh i t with
          | inl l => match respawnChild E c l (spawnAttempt E (cols c) + 1) p with
                     | Some child => admit_slots E override i t raised (Some l) (retired ++ [id c]) (children ++ [child])
                     | None => inr (failInstance i EngineSpawn (Sprintf E "task %q retry" [ID t]))
                     end
          | inr failed => inr failed
          end with
    | inl (retired', children') => admitted i t retired' children'
    | inr st => valid st
    end).
  { intros p. assert (Hl : match fresh_once E fresh i t with
                           | inl l => forall c, c ∈ l -> built i t c | inr st => valid st end).
    { unfold fresh_once. destruct fresh as [l|]; [by apply Hf|]. pose proof (build_valid i t F) as B.
      destruct (buildChildren E i t); [|done]. intros c' Hc'. by apply B. }
    destruct (fresh_once E fresh i t) as [l|st]; [|done].
    destruct (respawnChild _ _ _ _ _) as [child|] eqn:Er; [|by apply fail_valid].
    destruct (respawn_built _ _ _ _ _ _ _ Hl Er) as [Hb He].
    destruct (Hr c ltac:(left)) as (Hm & Hst & Hep). apply IH.
    - intros c' Hc'. apply Hr. by right.
    - by intros l' [= <-].
    - destruct Ha as [Hret Hch]. split.
      + intros k [Hk|Hk]%elem_of_app; [by apply Hret|]. apply list_elem_of_singleton in Hk as ->. eauto.
      + intros c' [Hc'|Hc']%elem_of_app; [by apply Hch|]. apply list_elem_of_singleton in Hc' as ->.
        split; [done|congruence]. }
  assert (Hskip : match admit_slots E override i t raised fresh retired children with
    | inl (retired', children') => admitted i t retired' children' | inr st => valid st end).
  { apply IH; [|done..]. intros c' Hc'. apply Hr. by right. }
  destruct (slotError E t c) as [[code errVal]|e]; [|by apply fail_valid].
  destruct override; [apply Hgo|].
  destruct (matchOnErrorWith _ _ _) as [rule|e]; [|by apply fail_valid].
  destruct (policy_of _ _ _ _) as [[p|]|e]; [|done|by apply fail_valid].
  destruct (_ <=? _); [done|apply Hgo].
Qed.

Lemma fit_phase i : fit i -> fit (on_work (w_phase PhaseNone) i).
Proof. by intros [L Hs _]. Qed.

Lemma raised_in_order (c : row) siblings t : c ∈ raisedInSlotOrder E siblings t -> c ∈ siblings /\ status c = StatusRaised.
Proof.
  intros H. assert (Hf : c ∈ List.filter (fun c : row => bool_decide (status c = StatusRaised)) siblings).
  { unfold raisedInSlotOrder in H. destruct (Action t) as [[]|]; by rewrite merge_sort_Permutation in H. }
  apply list_elem_of_In, List.filter_In in Hf as [Hin Hs]. apply list_elem_of_In in Hin.
  by apply bool_decide_eq_true in Hs.
Qed.

Lemma child_slots i t (c : row) : keyed m ->
  c ∈ raisedInSlotOrder E (GetChildrenForTask (id i) (ID t) (task_epoch i) m) t -> raised_slot i c.
Proof.
  intros K [Hin Hs]%raised_in_order. apply elem_of_matching in Hin as [Hsel [k Hk]].
  apply andb_prop in Hsel as [Hb _]. unfold in_batch in Hb. apply andb_prop in Hb as [_ He].
  apply Z.eqb_eq in He. split_and!; try done. by rewrite (K _ _ Hk).
Qed.

Section Running.
Context (s : DBState) (Hm : rows s = m) (K : keyed m) (Hrun : status g = StatusRunning).

Lemma batch_valid i t first raised : fit i -> task i = ID t -> ID t <> "" ->
  (forall c, c ∈ first :: raised -> raised_slot i c) -> valid (resolveRaisedBatch E i t first raised).
Proof using OK Hg Hrun.
  intros F Et Hne Hr. unfold resolveRaisedBatch, admitRetries.
  set (i0 := put_slot E SRetryOverride None i). assert (F0 : fit i0) by (by apply fit_put).
  pose proof (admit_valid (match get_slot E SRetryOverride i with Some v => isTrue E v | None => false end)
    i0 t (first :: raised) None [] [] F0 Hr) as A.
  destruct (admit_slots _ _ _ _ _ _ _ _) as [[retired children]|st];
    [|apply A; [done|split; intros ? []%elem_of_nil]].
  specialize (A ltac:(done) ltac:(split; intros ? []%elem_of_nil)) as [Hret Hch].
  destruct children as [|c0 cs].
  - pose proof (fit_phase _ F0) as F1. destruct (raisedData E t first _) as [data|[[] e]].
    + apply last_error_valid. set (bound := bindCaught E _ _). assert (Fb : fit bound) by (by apply fit_put).
      destruct (matchOnErrorWith _ _ _) as [rule|e]; [|by apply fail_valid, Fb].
      unfold batch_clause. destruct rule as [c|]; [|by apply fail_valid, Fb].
      apply clause_valid; [done|]. by apply fail_valid, Fb.
    + by apply handle_valid.
    + by apply fail_valid, F1.
  - split; [apply F0|]. split_and!; [done|by change (task i <> ""); congruence|done|done|].
    intros c Hc. destruct (Hch c Hc) as [Hb He]. by apply (built_child_for _ t).
Qed.

Definition act_ok (a : @acted V) : Prop :=
  match a with inl (i, _, _) => fit i | inr st => valid st end.

Lemma children_ok i t : fit i -> task i = ID t -> ID t <> "" -> act_ok (runChildProcesses E s i t).
Proof using OK Hg Hm K Hrun.
  intros F Et Hne. unfold runChildProcesses. rewrite Hm. case_bool_decide as B.
  - destruct (raisedInSlotOrder E _ t) as [|first raised] eqn:Er.
    + pose proof (fit_phase _ F) as F1. destruct (buildChildOutput E t _) as [out|[[] e]]; cbn -[handleCallError].
      * done.
      * by apply handle_valid.
      * by apply fail_valid, F1.
    + apply batch_valid; [done..|]. intros c Hc. rewrite <- Er in Hc. by apply (child_slots i t).
  - pose proof (build_valid i t F) as Hb. destruct (buildChildren E i t) as [children|st]; [|done].
    destruct Hb as [Hemp Hall].
    assert (Hspawn : children <> [] ->
      act_ok (inr (on_work (fun w => w_wake None (w_retry 0 w)) i, outcomeSpawn children))).
    { intros Hc. split; [apply F|]. cbn. split_and!; [done|apply F|congruence|done|]. intros c Hin.
      destruct (Hall c Hin) as [Hbc He]. by apply (child_for_alike i), (built_child_for i t). }
    destruct children as [|c cs]; [by rewrite (Hemp eq_refl)|].
    destruct (Action t) as [[]|]; by apply Hspawn.
Qed.

Lemma fit_clear i : fit i -> fit (clearExternalPark E i).
Proof. by intros [L Hs Hp]. Qed.

Lemma external_ok i t : fit i -> act_ok (runExternal E s i t).
Proof using OK Hg.
  intros F. pose proof F as [L Hs Hp]. unfold runExternal. destruct (head _) as [sg|].
  - set (i' := on_work (w_phase PhaseNone) _). assert (F' : fit i') by (by apply fit_phase, fit_clear).
    destruct (decodeOutcome E _); [done|by apply handle_valid].
  - case_bool_decide.
    + unfold external_overdue. pose proof (fit_clear _ (fit_phase _ F)) as F'.
      destruct (ExternalLost (cols i)); by apply handle_valid.
    + unfold external_arm. destruct (buildTaskData E i t); [|by apply fail_valid].
      destruct (resolveTimeout E i t); [|by apply fail_valid]. split; [done|]. by split.
Qed.

Lemma act_valid i t : fit i -> task i = ID t -> ID t <> "" -> act_ok (act E s i t).
Proof using OK Hg Hm K Hrun.
  intros F Et Hne. pose proof F as [L Hs Hp]. unfold act. destruct (Action t) as [[]|]; [..|done].
  - unfold runFetch. destruct (executeAction E i t); [by apply fail_valid|by apply handle_valid|done].
  - by apply children_ok.
  - by apply children_ok.
  - by apply children_ok.
  - unfold runDelay. destruct (wake_at i); [done|].
    destruct (resolveDelay E i t); [|by apply fail_valid]. split; [done|]. by split.
  - by apply external_ok.
Qed.

(** What an advance may come to. *)
Definition adv_ok (a : result advance_error stopped) : Prop :=
  match a with Ok st => valid st | Err (Panic i) => like g i | Err NoFuel => True end.

Lemma loop_valid def fuel n idx i : (forall t, t ∈ Tasks def -> ID t <> "") -> fit i ->
  adv_ok (advance_loop E fuel n s def idx i).
Proof using OK Hg Hm K Hrun.
  intros Hd. revert n idx i. induction fuel as [|fuel IH]; intros n idx i F; [done|]. cbn [advance_loop]. unfold loop_body.
  destruct (task_at (Tasks def) idx) as [t|] eqn:Et; [|by apply completed_valid; [apply F|done|apply F]].
  assert (Hne : ID t <> "").
  { apply Hd. unfold task_at in Et. destruct (idx <? 0); [done|]. apply list_elem_of_In. by eapply nth_error_In. }
  assert (F1 : fit (on_work (w_task (ID t)) i)) by (destruct F as [L Hs Hp]; by split).
  set (i1 := on_work (w_task (ID t)) i) in *.
  destruct (_ && _ && _); [destruct F1; by split|].
  pose proof (act_valid i1 t F1 eq_refl Hne) as A. destruct (act E s i1 t) as [[[i2 res] meta]|st']; [|exact A].
  cbn in A. destruct (storeOutput E i2 t res _ meta) as [[i3 out]|[v e]] eqn:Es; [|by apply fail_valid, A].
  assert (F3 : fit i3).
  { unfold storeOutput in Es. destruct (Output t); [|by injection Es as <- _].
    destruct (evalTaskOutput E i2 t res _ meta); [|done]. injection Es as <- _. by apply fit_put. }
  destruct (evalSwitch E i3 (Switch t) _) as [[c|]|e]; [|by apply fail_valid, F3..].
  destruct (sc_raise c); [by apply raise_valid, F3|]. destruct (sc_panic c); [by apply panic_valid, F3|].
  destruct (String.eqb (sc_goto c) GotoEnd); [by apply completed_valid; [apply F3|done|apply F3]|].
  destruct (goto_index def idx (sc_goto c)) as [j|tid|]; [|by apply fail_valid, F3|apply F3].
  assert (F4 : fit (moved E def j i3)) by (destruct F3 as [L Hs Hp]; by split).
  destruct (_ || _); [destruct F4; by split|]. by apply IH.
Qed.

Lemma running_valid i : fit i -> adv_ok (advanceRunning E s i).
Proof using OK Hg Hm K Hrun.
  intros F. unfold advanceRunning. destruct (definition E _ _) as [def|] eqn:Ed; [|by apply fail_valid, F].
  destruct (configErr E def); [by apply fail_valid, F|]. destruct (_ && _); [by apply fail_valid, F|].
  pose proof (fun t => e_tasks _ OK _ _ _ t Ed) as Hd.
  destruct (task_at _ _) as [t|]; [|by apply loop_valid]. destruct (_ && _); [by apply handle_valid|by apply loop_valid].
Qed.
End Running.
End Contract.

(** * Every outcome of an advance is one the lifecycle allows *)

Lemma advance_valid {V} (E : env V) s g : env_ok E -> keyed (rows s) ->
  status g ∈ [StatusRunning; StatusPausing; StatusCancelling] -> phase g <> PhaseChildren ->
  forall st, advanceGuarded E s g = Some st -> valid (rows s) g st.
Proof.
  intros OK K Hs Hp st. unfold advanceGuarded, advance. in_cases Hs; rewrite Hs.
  - assert (Hg : status g ∈ [StatusRunning; StatusPausing]) by (rewrite Hs; set_solver).
    pose proof (running_valid E OK (rows s) g Hg s eq_refl K Hs g ltac:(by repeat split)) as A.
    destruct (advanceRunning E s g) as [st'|[i|]]; intros [= <-]; [exact A|by apply (fail_valid E OK)].
  - assert (Hg : status g ∈ [StatusRunning; StatusPausing]) by (rewrite Hs; set_solver).
    assert (Hset : valid (rows s) g (settlePausing g)) by (split; [done|]; cbn; rewrite Hs; split; [reflexivity|done]).
    destruct (lookupTask E g) as [t|]; [|by intros [= <-]]. destruct (_ && _); intros [= <-]; [|done].
    by apply (handle_valid E OK (rows s) g Hg).
  - intros [= <-]. split; [done|]. cbn. rewrite Hs. split; [reflexivity|done].
Qed.

Lemma spawn_failed_valid {V} (E : env V) m g i : env_ok E -> status g ∈ [StatusRunning; StatusPausing] ->
  like g i -> valid m g (spawn_failed E i).
Proof. intros OK Hg L. by apply (fail_valid E OK). Qed.

(** * The writes *)

Lemma respawn_phase i p retired children now s :
  RespawnSlotsAndWait (on_work (w_phase p) i) retired children now s = RespawnSlotsAndWait i retired children now s.
Proof. done. Qed.

Lemma valid_advanced m g i o : valid m g (i, o) -> phase i <> PhaseChildren -> advanced g i.
Proof. intros [[Ls Ll] _] Hp. split; try done; congruence. Qed.

(** A write of [persist] that commits is a holder's write of the step relation. *)
Lemma persist_write {V} (E : env V) pg m g i o now s s' : valid m g (i, o) ->
  (forall k (r : row), m !! k = Some r -> status r = StatusRaised ->
     exists r' : row, rows s !! k = Some r' /\ status r' = StatusRaised) ->
  persist E pg i o now s = Ok (tt, s') -> exists i', advanced g i' /\ holder_write g i' s s'.
Proof.
  intros Hv Hraised H. unfold persist in H.
  set (i1 := on_work (w_next _) i) in *. assert (A1 : alike i i1) by (by split).
  apply (valid_alike _ _ _ _ _ A1) in Hv. clearbody i1.
  destruct Hv as [[Ls Ll] Hv]. assert (Hadv : phase i1 <> PhaseChildren -> advanced g i1) by (split; congruence).
  destruct o as [| | |children|t input wake|children retired].
  - destruct Hv as [Hs Hp]. exists i1. split; [auto|by eapply w_progress].
  - destruct Hv as [Hs Hp]. exists i1. split; [auto|by eapply w_update].
  - destruct Hv as [Hs Hp]. exists i1. split; [auto|by eapply w_conclude].
  - destruct Hv as (Hs & Hp & Ht & Hne & Hc). exists i1. split; [auto|by eapply w_spawn].
  - destruct Hv as [Hs Hp]. rewrite Tx_bind_Ok in H. destruct H as (b & s1 & H & [_ <-]%ret_Ok).
    exists i1. split; [auto|by eapply w_arm].
  - destruct Hv as (Hs & Ht & Hne & Hret & Hc). exists (on_work (w_phase PhaseNone) i1).
    split; [split; cbn; congruence|].
    apply (w_respawn _ _ _ _ retired children now); [done|done|done| | |exact H].
    + intros k Hk. destruct (Hret k Hk) as (r & Hr & Hst). by apply (Hraised k r).
    + intros c Hin. by destruct (Hc c Hin).
Qed.

(** * Termination *)

(** The rounds without their limit: where [k] rounds that each go on without an action lead. *)
Fixpoint after_rounds {V} (E : env V) (k n : nat) (s : DBState) (def : ProcessDefinition) (idx : Z) (i : ProcessInstance) : option (Z * ProcessInstance) :=
  match k with
  | O => Some (idx, i)
  | S k =>
      match loop_body E n s def idx i with
      | Ok (GoesOn false idx i) => after_rounds E k (S n) s def idx i
      | _ => None
      end
  end.

(** The loop is its rounds up to the limit, whatever the fuel above it. *)
Lemma loop_rounds {V} (E : env V) s def fuel n idx i : (n <= maxInlineTasks)%nat ->
  (S maxInlineTasks < fuel + n)%nat ->
  (exists (k : nat) idx' i', (n + k <= maxInlineTasks)%nat /\ after_rounds E k n s def idx i = Some (idx', i') /\
     match loop_body E (n + k) s def idx' i' with
     | Err e => advance_loop E fuel n s def idx i = Err e /\ e <> NoFuel
     | Ok (Halts st) => advance_loop E fuel n s def idx i = Ok st
     | Ok (GoesOn hasCall _ i'') => hasCall = true /\ advance_loop E fuel n s def idx i = Ok (i'', outcomeProgress)
     end) \/
  exists (k : nat) idx' i', (n + k = S maxInlineTasks)%nat /\ after_rounds E k n s def idx i = Some (idx', i') /\
    advance_loop E fuel n s def idx i = Ok (i', outcomeProgress).
Proof.
  revert n idx i. induction fuel as [|fuel IH]; intros n idx i Hn Hf; [lia|]. cbn [advance_loop].
  destruct (loop_body E n s def idx i) as [[st|hasCall idx1 i1]|e] eqn:Eb.
  - left. exists 0%nat, idx, i. rewrite Nat.add_0_r, Eb. done.
  - destruct hasCall; cbn [orb]; [left; exists 0%nat, idx, i; by rewrite Nat.add_0_r, Eb|].
    destruct (Nat.leb_spec maxInlineTasks n) as [Hge|Hlt].
    + right. exists 1%nat, idx1, i1. cbn [after_rounds]. rewrite Eb. split_and!; [lia|done..].
    + destruct (IH (S n) idx1 i1 ltac:(lia) ltac:(lia)) as [(k & idx2 & i2 & Hk & Ea & H)|(k & idx2 & i2 & Hk & Ea & H)];
        [left|right]; exists (S k), idx2, i2; cbn [after_rounds]; rewrite Eb, Nat.add_succ_r; done.
  - left. exists 0%nat, idx, i. rewrite Nat.add_0_r, Eb. split_and!; [lia|done|done|]. intros ->.
    unfold loop_body in Eb. repeat (case_match; try done).
Qed.

Lemma handle_not_nofuel {V} (E : env V) s i : advance E s i <> Err NoFuel.
Proof.
  assert (R : advanceRunning E s i <> Err NoFuel).
  { unfold advanceRunning. destruct (definition _ _ _); [|done]. destruct (configErr _ _); [done|].
    destruct (_ && _); [done|].
    assert (L : forall idx, advance_loop E (S (S maxInlineTasks)) 0 s p idx i <> Err NoFuel)
      by (intros idx N; pose proof (loop_rounds E s p (S (S maxInlineTasks)) 0 idx i ltac:(lia) ltac:(lia)) as H;
        rewrite N in H; destruct H as [(k & idx' & i' & _ & _ & H)|(k & idx' & i' & _ & _ & H)]; [|done];
        destruct (loop_body _ _ _ _ _ _) as [[]|]; [done|by destruct H|by destruct H as [[= <-] ?]]).
    destruct (task_at _ _); [destruct (_ && _); [done|]|]; apply L. }
  unfold advance. destruct (status i); try exact R; try done.
  destruct (lookupTask E i); [|done]. by destruct (_ && _).
Qed.

(** C14. An advance always ends, and its loop runs at most 1001 rounds.  The loop is exactly
    its rounds taken one after the other, up to the first that ends the advance, panics or ran
    an action, of which a checkpoint is left; only where 1001 rounds have all gone on without
    an action does it stop by itself, with a checkpoint on the task they lead to. *)
Theorem advance_ends {V} (E : env V) s i : (exists st, advanceGuarded E s i = Some st) /\
  forall def idx i0,
    let loop := advance_loop E (S (S maxInlineTasks)) 0 s def idx i0 in
    (exists (k : nat) idx' i', (k <= 1000)%nat /\ after_rounds E k 0 s def idx i0 = Some (idx', i') /\
       match loop_body E k s def idx' i' with
       | Err e => loop = Err e /\ e <> NoFuel
       | Ok (Halts st) => loop = Ok st
       | Ok (GoesOn hasCall _ i'') => hasCall = true /\ loop = Ok (i'', outcomeProgress)
       end) \/
    exists idx' i', after_rounds E 1001 0 s def idx i0 = Some (idx', i') /\ loop = Ok (i', outcomeProgress).
Proof.
  split.
  - unfold advanceGuarded. pose proof (handle_not_nofuel E s i) as N.
    destruct (advance E s i) as [st|[]]; [by eexists..|done].
  - intros def idx i0 loop. unfold loop.
    destruct (loop_rounds E s def (S (S maxInlineTasks)) 0 idx i0 ltac:(lia) ltac:(lia))
      as [(k & idx' & i' & Hk & H)|(k & idx' & i' & Hk & H)].
    + left. exists k, idx', i'. split; [exact Hk|exact H].
    + right. exists idx', i'. cbn [Nat.add] in Hk. by rewrite Hk in H.
Qed.

Section Refinement.
Context (loadDef : string -> Z -> option (list task_info)) (mark_override : string -> string).
Abbreviation reachable := (reachable loadDef mark_override).
Abbreviation steps := (steps loadDef mark_override).
Abbreviation step := (step loadDef mark_override).

(** A grant is handed out on a row that can be advanced. *)
Lemma grants_claimed a g : reachable a -> g ∈ grants a ->
  status g ∈ [StatusRunning; StatusPausing; StatusCancelling] /\ phase g <> PhaseChildren.
Proof.
  intros H. unfold reachable in H. remember init as a0 eqn:E0. induction H as [|l a b d Hab IH Ht H|c bf a b Hab IH].
  { subst. by intros Hg%elem_of_nil. }
  2:{ intros Hg. apply list_elem_of_In, List.filter_In in Hg as [Hg _]. apply (IH E0). by apply list_elem_of_In. }
  specialize (IH E0). destruct H as [worker dur limit cutoff now out s s' gs Hne H|g' i s s' gs Hg A H|s s' gs H
    |k force now n s s' gs H]; cbn in *; try done.
  intros [Hg|Hg]%elem_of_app; [by apply IH|]. unfold ClaimInstances in H. rewrite query_bind in H.
  pose proof (fun q => claim_candidates now cutoff limit (rows s) q) as Hc. set (cand := take limit _) in *.
  assert (Eo : out = map (granted worker (now + dur)) cand).
  { destruct cand; [by apply ret_Ok in H as [<- _]|]. rewrite exec_bind in H. by apply ret_Ok in H as [<- _]. }
  subst out. apply list_elem_of_In, List.in_map_iff in Hg as (q & <- & Hq). apply list_elem_of_In in Hq.
  destruct (Hc q Hq) as [Hcl _]. unfold claimable in Hcl. rewrite !andb_true_iff in Hcl.
  destruct Hcl as [[[Hs Hp] _] _]. apply bool_decide_eq_true in Hs. apply negb_true_iff, bool_decide_eq_false in Hp.
  done.
Qed.

Lemma settled_steps a b k (r : row) : sys_ok a -> steps a b -> rows (db a) !! k = Some r ->
  settled (status r) = true -> exists r' : row, rows (db b) !! k = Some r' /\ status r' = status r.
Proof.
  intros Ha H Hk Hs. induction H as [|l a b d Hab IH Ht H]; [by exists r|].
  destruct (IH Ha Hk) as (r1 & Hr1 & E1). pose proof (steps_ok _ _ _ _ Ha Hab) as Hb.
  destruct (step_keeps _ _ _ _ _ Hb Ht H) as [_ [Ev _]]. destruct (Ev _ _ Hr1) as (r2 & Hr2 & E2).
  exists r2. split; [done|]. rewrite <- E1. apply (ev_settled _ _ _ E2). by rewrite E1.
Qed.

Lemma grants_steps a b g : steps a b -> g ∈ grants a -> g ∈ grants b.
Proof.
  intros H Hg. induction H as [|l a b d _ IH _ H]; [done|]. specialize (IH Hg).
  destruct H; cbn in *; auto. apply elem_of_app. by left.
Qed.

Section Advance.
Context {V : Type} (E : env V) (OK : env_ok E) (d a : sys) (g : ProcessInstance).
Context (Hd : reachable d) (Hg : g ∈ grants d) (Hda : steps d a).

Lemma outcome_valid st : advanceGuarded E (db d) g = Some st -> valid (rows (db d)) g st.
Proof using OK Hd Hg.
  destruct (grants_claimed d g Hd Hg) as [Hs Hp]. pose proof (reachable_sys_ok _ _ _ Hd) as [T _].
  apply advance_valid; try done. by eapply tree_keyed.
Qed.

Lemma valid_step pg i o now s' : valid (rows (db d)) g (i, o) -> persist E pg i o now (db a) = Ok (tt, s') ->
  step (LHolder g) a (mkSys s' (grants a)).
Proof using Hd Hg Hda.
  intros Hv H. pose proof (reachable_sys_ok _ _ _ Hd) as Od.
  destruct (persist_write E pg (rows (db d)) g i o now (db a) s' Hv) as (i' & A & W); [|done|].
  { intros k r Hr Hst. destruct (settled_steps d a k r Od Hda Hr) as (r' & Hr' & Es); [by rewrite Hst|].
    exists r'. split; [done|congruence]. }
  pose proof (grants_steps _ _ _ Hda Hg) as Hga. destruct a as [s gs]. cbn in *. by eapply step_holder.
Qed.

Lemma verb_stoppable i o : valid (rows (db d)) g (i, o) -> writeVerb o = true ->
  like g i /\ status g ∈ [StatusRunning; StatusPausing].
Proof using All.
  intros [L H] Hw. split; [done|]. destruct o; try done.
  - destruct H as [-> _]. set_solver.
  - by destruct H as [[? _] _].
  - destruct H as [-> _]. set_solver.
Qed.

Lemma unless_lost_Ok (t : Tx unit) (s : DBState) w s' : unless_lost t s = Ok (w, s') ->
  if w : bool then t s = Ok (tt, s') else s' = s.
Proof using Type. unfold unless_lost. destruct (t s) as [[[] s1]|[]]; by intros [= <- <-]. Qed.

Lemma write_step pg i o now w s' : valid (rows (db d)) g (i, o) ->
  unless_lost (persist E pg i o now) (db a) = Ok (w, s') ->
  if w : bool then step (LHolder g) a (mkSys s' (grants a)) else s' = db a.
Proof using Hd Hg Hda.
  intros Hv H%unless_lost_Ok. destruct w; [|done]. by apply (valid_step pg i o now).
Qed.

Lemma run_step ab pg now w s' : runAdvance E ab pg (db d) g now (db a) = Ok (w, s') ->
  if w : bool then ab = false /\ step (LHolder g) a (mkSys s' (grants a)) else s' = db a.
Proof using OK Hd Hg Hda.
  unfold runAdvance. destruct (advanceGuarded E (db d) g) as [[i o]|] eqn:Ea; [|done].
  pose proof (outcome_valid _ Ea) as Hv. destruct ab; [by intros [<- <-]%ret_Ok|].
  destruct (unless_lost (persist E pg i o now) (db a)) as [[w1 s1]|e] eqn:Ep.
  - intros [= <- <-]. pose proof (write_step _ _ _ _ _ _ Hv Ep). by destruct w1.
  - intros H. assert (Hw : writeVerb o = true) by (by destruct (writeVerb o)).
    destruct (verb_stoppable _ _ Hv Hw) as [L Hs]. rewrite Hw in H.
    pose proof (spawn_failed_valid E (rows (db d)) g i OK Hs L) as Hf.
    destruct (spawn_failed E i) as [i' o']. pose proof (write_step _ _ _ _ _ _ Hf H). by destruct w.
Qed.
End Advance.


End Refinement.

(** * A concrete engine, for the witnesses *)

(** The order ships one parcel as a child; a parcel is packed by one call. *)
Definition ship : Task := mkTask "ship" (Some ActionTypeChild) false [] false [mkSwitchCase "" "end" None None].
Definition pack : Task := mkTask "pack" (Some ActionTypeFetch) false [] false [mkSwitchCase "" "end" None None].
Definition order_def : ProcessDefinition := mkDefinition "order" [ship; pack] false.

Definition demo_env : env Z := {|
  definition := fun n _ => if String.eqb n "order" then Some order_def else None;
  configErr := fun _ => None;
  get := fun _ _ => None; put := fun _ _ c => c;
  spawnKey := fun _ => ""; spawnIndex := fun _ => None; spawnAttempt := fun _ => 0;
  evalBool := fun _ _ _ => Ok true; selfBeforeOutput := fun _ => 0;
  evalTaskOutput := fun _ _ _ _ _ => Ok 0; taskSelf := fun _ _ _ _ => 0; evalOutput := fun _ _ => Ok 0;
  resolveRetry := fun _ _ _ => Ok (mkRetry 0 0 0); faultMessage := fun _ f _ => f_message f;
  evalFaultData := fun _ _ _ => Ok 0; errorValue := fun _ _ _ _ => 0; batchErrorValue := fun _ _ _ => 0;
  executeAction := fun _ _ => FetchDone 0 0; resolveDelay := fun _ _ => Ok 0; resolveTimeout := fun _ _ => Ok None;
  buildTaskData := fun _ _ => Ok ""; decodeOutcome := fun _ => Answered 0;
  batch := fun _ _ => Ok [mkSpec "order" 1 "pack" false no_cols "parcel-1"];
  raisedData := fun _ _ _ => Ok None; buildChildOutput := fun _ _ => Ok 0;
  nilValue := 0; noChildren := 0; attemptValue := fun n => n; isTrue := fun _ => false;
  now_ := 30; retryDelay := fun _ _ => 0; Sprintf := fun f _ => f |}.

Lemma demo_env_ok : env_ok demo_env.
Proof.
  split; cbn.
  - intros _ _ specs sp [= <-] Hin. by apply list_elem_of_singleton in Hin as ->.
  - done.
  - intros n _ def t H Hin. destruct (String.eqb n "order"); [|done]. injection H as <-.
    repeat (apply elem_of_cons in Hin as [->|Hin]; [done|]). by apply elem_of_nil in Hin.
Qed.

Definition s_shipped : DBState := after (runAdvance demo_env false true s_claimed g_order 30) s_claimed.

Example run_shipped :
  map (fun k => (fun r : row => (status r, phase r, worker_id r)) <$> rows s_shipped !! k) ["order-1"; "parcel-1"] =
  [Some (StatusRunning, PhaseChildren, None); Some (StatusRunning, PhaseNone, None)].
Proof. vm_compute. reflexivity. Qed.


End Advancing.
