(* ===== verification/Committing.v ===== *)
(** An advance of a row that is still held always commits and hands the lease back: no
    outcome the engine can reach leaves the row leased with nothing written. *)
From Stdlib Require Import ZArith Lia String.
From stdpp Require Import sorting.
From S2P Require Import Prelude.
From S2P Require Import GoStrings.
From S2P Require Import ErrCode.
From S2P Require Import Instance.
From S2P Require Import Store.
From S2P Require Import Lifecycle.
From S2P Require Import External.
From S2P Require Import Tree.
From S2P Require Import Drain.
From S2P Require Import Verbs.
From S2P Require Import Revive.
From S2P Require Import System.
From S2P Require Import Guarantees.
From S2P Require Import Contracts.
From S2P Require Import Engine.
From S2P Require Import Advancing.
Open Scope string_scope.
Open Scope list_scope.
Open Scope Z_scope.

Module Committing.
Import ErrCode.ErrCode Instance Store Lifecycle External Tree Drain Verbs Revive System Guarantees Contracts.
Import Engine Advancing.

Implicit Types g i : ProcessInstance.
Implicit Types k : string.
Implicit Types m : table.

(** The row still carries the grant. *)
Definition carries (m : table) (g : ProcessInstance) : Prop :=
  keyed m /\ exists r : row, m !! id g = Some r /\ fenced g r = true.

(** A transaction that commits, or fails on the row's own state. *)
Definition commits_or {A} (verb : bool) (t : result db_error (A * DBState)) : Prop :=
  match t with Ok _ => True | Err e => verb = true /\ e <> ErrLeaseLost end.

Lemma fenced_commits f g i m sg : carries m g -> advanced g i ->
  exists m', (n ← execrows (fenced i) f; requireFenced n) (mkDB m sg) = Ok (tt, mkDB m' sg).
Proof.
  intros [K (r & Hr & Hf)] A. destruct (fenced_run f g i r m sg K Hr A Hf) as (n & E & R).
  eexists. by rewrite (bind_run _ _ _ _ _ E).
Qed.

(** The lease-holding writes, all of one form. *)
Lemma holder_commits g i s (f : row -> row) : carries (rows s) g -> advanced g i ->
  exists s', (_ ← persistState i; n ← execrows (fenced i) f; requireFenced n) s = Ok (tt, s').
Proof.
  intros C A. destruct (persistState_run i s) as (sg & E). rewrite (bind_run _ _ _ _ _ E).
  destruct (fenced_commits f g i (rows s) sg C A) as (m' & E'). by eexists.
Qed.

Lemma insert_children_run children st ts s u s' k (r : row) : insert_children children st ts s = Ok (u, s') ->
  keyed (rows s) -> rows s !! k = Some r -> keyed (rows s') /\ rows s' !! k = Some r.
Proof.
  revert ts s u s'. induction children as [|c cs IH]; intros ts s u s' H K Hk; cbn [insert_children] in H.
  { by apply ret_Ok in H as [_ <-]. }
  rewrite Tx_bind_Ok in H. destruct H as (u1 & s1 & Hp%persistState_Ok & H).
  rewrite Tx_bind_Ok in H. destruct H as (u2 & s2 & [Hn ->]%InsertInstance_Ok & H).
  apply IH in H; [done|..]; cbn [rows]; rewrite Hp in *.
  - intros j q. rewrite lookup_insert_Some. intros [[<- <-]|[_ Hj]]; [done|by apply K].
  - rewrite lookup_insert_ne; [done|]. by intros E; rewrite E in Hn; rewrite Hk in Hn.
Qed.

Lemma insert_children_err children st ts s e : insert_children children st ts s = Err e -> e <> ErrLeaseLost.
Proof.
  revert ts s. induction children as [|c cs IH]; intros ts s H; cbn [insert_children] in H; [done|].
  destruct (persistState_run c s) as (sg & E). rewrite (bind_run _ _ _ _ _ E) in H.
  unfold InsertInstance in H. unfold mbind, Tx_bind, query in H. cbn in H.
  destruct (rows s !! id c); [by injection H as <-|]. cbn in H. by apply IH in H.
Qed.

Lemma park_commits g i st now s : carries (rows s) g -> like g i -> exists s', parkParentWaiting i st now s = Ok (tt, s').
Proof.
  intros C [Ls Ll]. unfold parkParentWaiting. destruct (persistState_run i s) as (sg & E).
  rewrite (bind_run _ _ _ _ _ E).
  set (i0 := on_work (w_phase PhaseNone) i).
  assert (A : advanced g i0) by (split; cbn; try congruence; done).
  destruct (fenced_commits (update_set (set_state st PhaseChildren None (error_message i) (error_code i)
    (updated_at i) i) now) g i0 (rows s) sg C A) as (m' & E'). by exists (mkDB m' sg).
Qed.

(** What follows the checks of a spawn. *)
Lemma spawn_tail g i children st now s : carries (rows s) g -> like g i ->
  commits_or true ((_ ← insert_children children st now; parkParentWaiting i st now) s).
Proof.
  intros [K (r & Hr & Hf)] L. unfold mbind, Tx_bind.
  destruct (insert_children children st now s) as [[u s1]|e] eqn:E.
  - destruct (insert_children_run _ _ _ _ _ _ _ _ E K Hr) as [K1 Hr1].
    destruct (park_commits g i st now s1) as (s' & E'); [by split; [|exists r]|done|]. by rewrite E'.
  - split; [done|]. by eapply insert_children_err.
Qed.

Lemma supersede_carries g retired now s : carries (rows s) g ->
  exists s', supersede_all retired now s = Ok (tt, s') /\ carries (rows s') g.
Proof.
  revert s. induction retired as [|k ks IH]; intros s C; cbn [supersede_all]; [by exists s|].
  rewrite exec_bind. apply IH. destruct C as [K (r & Hr & Hf)]. cbn [rows]. split.
  - intros j q' (q & Hq & ->)%lookup_update_Some. rewrite <- (K _ _ Hq). by destruct (has_id k q).
  - unfold SupersedeInstance. rewrite lookup_update, Hr. eexists. split; [reflexivity|]. by destruct (has_id k r).
Qed.

Lemma GetInstance_run k (r : row) s : rows s !! k = Some r -> GetInstance k s = Ok (r, s).
Proof. intros H. by apply GetInstance_Ok. Qed.

Lemma spawn_commits g i children now s : carries (rows s) g -> like g i ->
  commits_or true (SpawnChildrenAndWait i children now s).
Proof.
  intros C L. unfold SpawnChildrenAndWait. destruct children as [|c cs]; [done|].
  pose proof C as [_ (r & Hr & _)]. replace (id g) with (id i) in Hr by (by rewrite (proj1 L)).
  rewrite (bind_run _ _ _ _ _ (GetInstance_run _ _ _ Hr)). destruct (negb _); [by split|]. by apply (spawn_tail g).
Qed.

Lemma respawn_commits g i retired children now s : carries (rows s) g -> like g i ->
  commits_or true (RespawnSlotsAndWait i retired children now s).
Proof.
  intros C L. unfold RespawnSlotsAndWait. destruct children as [|c cs]; [done|].
  pose proof C as [_ (r & Hr & _)]. replace (id g) with (id i) in Hr by (by rewrite (proj1 L)).
  rewrite (bind_run _ _ _ _ _ (GetInstance_run _ _ _ Hr)). destruct (negb _); [by split|].
  destruct (supersede_carries g retired now s C) as (s1 & E & C1). rewrite (bind_run _ _ _ _ _ E).
  by apply (spawn_tail g).
Qed.

Lemma arm_commits g i t input wake now s : carries (rows s) g -> like g i -> phase i <> PhaseChildren ->
  exists b s', ArmExternalUnlessSignalled i t input wake now s = Ok (b, s').
Proof.
  intros C L Hp. pose proof C as [_ (r & Hr & _)]. replace (id g) with (id i) in Hr by (by rewrite (proj1 L)).
  unfold ArmExternalUnlessSignalled. rewrite query_bind, Hr.
  set (sg := head (merge_sort oldest_signal (signals_for (id i) t (signals s)))).
  assert (Ep : PeekOldestSignal (id i) t s = Ok (sg, s)) by done. rewrite (bind_run _ _ _ _ _ Ep).
  destruct L as [Ls Ll]. destruct sg as [sgn|].
  - set (i' := mkInstance _ _ _). assert (A : advanced g i') by (split; cbn; try congruence; done).
    destruct (persistState_run i' s) as (sg' & E). rewrite (bind_run _ _ _ _ _ E).
    destruct (fenced_commits (progress_set i' now) g i' (rows s) sg' C A) as (m' & E').
    unfold mbind, Tx_bind in E' |- *. unfold UpdateInstanceProgress_q.
    destruct (execrows _ _ _) as [[n s1]|e]; [|done]. rewrite E'. by eexists _, _.
  - set (i' := mkInstance _ _ _). assert (A : advanced g i') by (split; cbn; try congruence; done).
    destruct (persistState_run i' s) as (sg' & E). rewrite (bind_run _ _ _ _ _ E).
    destruct (fenced_commits (update_set i' now) g i' (rows s) sg' C A) as (m' & E').
    unfold mbind, Tx_bind in E' |- *. unfold UpdateInstance_q.
    destruct (execrows _ _ _) as [[n s1]|e]; [|done]. rewrite E'. by eexists _, _.
Qed.

(** A valid outcome commits while the row carries the grant, or fails as a verb may. *)
Lemma persist_commits {V} (E : env V) pg m g i o (r : row) now s : tree_ok (rows s) -> fl_ok (rows s) g ->
  rows s !! id g = Some r -> fenced g r = true -> valid m g (i, o) ->
  commits_or (writeVerb o) (persist E pg i o now s).
Proof.
  intros T F Hr Hf Hv. unfold persist. set (i1 := on_work (w_next _) i).
  assert (A1 : alike i i1) by (by split). apply (valid_alike _ _ _ _ _ A1) in Hv. clearbody i1.
  assert (C : carries (rows s) g) by (split; [by eapply tree_keyed|by exists r]).
  destruct Hv as [L Hv]. assert (Hadv : phase i1 <> PhaseChildren -> advanced g i1) by (destruct L; split; congruence).
  destruct o as [| | |children|t input wake|children retired]; cbn [writeVerb].
  - destruct Hv as [_ Hp]. unfold UpdateInstanceProgress.
    destruct (holder_commits g i1 s (progress_set i1 now) C (Hadv Hp)) as (s' & E').
    unfold UpdateInstanceProgress_q. by rewrite E'.
  - destruct Hv as [_ Hp]. unfold UpdateInstance.
    destruct (holder_commits g i1 s (update_set i1 now) C (Hadv Hp)) as (s' & E').
    unfold UpdateInstance_q. by rewrite E'.
  - destruct Hv as [Hc Hp]. pose proof (fl_held _ _ _ F Hr Hf) as Hh. destruct s as [m0 sg0].
    destruct (saveAndNotify_run m0 sg0 g i1 r now T Hh Hf (Hadv Hp) Hc pg F) as (s' & E' & _). by rewrite E'.
  - by apply (spawn_commits g).
  - destruct Hv as [_ Hp]. destruct (arm_commits g i1 t input wake now s C L Hp) as (b & s' & E').
    by rewrite (bind_run _ _ _ _ _ E').
  - by apply (respawn_commits g).
Qed.

Section Refinement.
Context (loadDef : string -> Z -> option (list task_info)) (mark_override : string -> string).
Abbreviation reachable := (reachable loadDef mark_override).
Abbreviation steps := (steps loadDef mark_override).
Abbreviation step := (step loadDef mark_override).

Lemma fallback_commits {V} (E : env V) pg m g i (r : row) now s : env_ok E -> tree_ok (rows s) ->
  fl_ok (rows s) g -> rows s !! id g = Some r -> fenced g r = true -> like g i ->
  status g ∈ [StatusRunning; StatusPausing] ->
  exists s', (let '(i', o) := spawn_failed E i in persist E pg i' o now s) = Ok (tt, s').
Proof.
  intros OK T F Hr Hf L Hs. pose proof (spawn_failed_valid E m g i OK Hs L) as Hv.
  unfold spawn_failed, failInstance in *.
  pose proof (persist_commits E pg m g _ outcomeTerminal r now s T F Hr Hf Hv) as C. cbn [writeVerb] in C.
  destruct (persist _ _ _ _ _ _) as [[[] s']|e]; [by eexists|by destruct C].
Qed.


End Refinement.


End Committing.
