(* ===== verification/Schema.v ===== *)
(** The value half of internal/schema: the conform walk of validate.go, with what it
    calls of schema.go and navigate.go.

    A schema is a [node] and the pool [defs] its references resolve against.  Nodes are
    as a decoded and checked document has them: a null sub-schema, which [checkDoc]
    refuses, does not occur, and no definition is mid-solve.  Go identifies the nodes of
    a reference cycle by their address; here the name of the definition does, which is
    the same thing for a decoded document.

    Numbers are exact: a number of a document is a literal, and what the decimal library
    and [strconv] make of it are the fields of [Numbers].  An error keeps the check that
    raised it and not its text, so the dotted path, which only the text uses, is left
    out. *)
From Stdlib Require Import ZArith QArith Lia Ascii String.
From stdpp Require Import sorting.
From S2P Require Import Prelude.
From S2P Require Import GoStrings.
Open Scope string_scope.
Open Scope list_scope.
Open Scope Z_scope.

Set Warnings "-register-all".

Module Schema.

(** * Values: decoded JSON *)

(** A number of a document.  Two are equal when they marshal to the same text.
    [ToDecimal] is [apd.NewFromString], [RoundToIntegralValue] the context method of
    that name, and [Float64] tells whether [strconv] takes the literal as a [float64]. *)
Class Numbers := {
  num : Type;
  num_eq_dec :: EqDecision num;
  ToDecimal : num -> option Q;
  RoundToIntegralValue : Q -> option Q;
  Float64 : num -> bool }.

Section Model.
Context `{Numbers}.

Inductive value :=
  | VNull
  | VBool (b : bool)
  | VNum (x : num)
  | VStr (s : string)
  | VArr (l : list value)
  | VObj (m : gmap string value).

#[export] Instance value_eq_dec : EqDecision value.
Proof.
  refine (fix go (x y : value) {struct x} : Decision (x = y) :=
    match x, y with
    | VNull, VNull => left _
    | VBool a, VBool b => cast_if (decide (a = b))
    | VNum a, VNum b => cast_if (decide (a = b))
    | VStr a, VStr b => cast_if (decide (a = b))
    | VArr a, VArr b => cast_if (@decide (a = b) (@list_eq_dec _ go a b))
    | VObj a, VObj b => cast_if (@decide (a = b) (@gmap_eq_dec _ _ _ _ go a b))
    | _, _ => right _
    end); clear go; congruence.
Defined.

(** [numeric.ToDecimal], [numeric.Compare] and [numeric.Equal] on any value. *)
Definition decimal (v : value) : option Q :=
  match v with VNum x => ToDecimal x | _ => None end.

Definition Compare (a b : value) : option comparison :=
  match decimal a, decimal b with
  | Some x, Some y => Some (Qcompare x y)
  | _, _ => None
  end.

Definition Equal (a b : value) : bool :=
  match Compare a b with Some Eq => true | _ => false end.

Definition IsIntegral (v : value) : bool :=
  match decimal v with
  | Some d => match RoundToIntegralValue d with Some r => Qeq_bool r d | None => false end
  | None => false
  end.

(** [asFloat], whose callers ask only whether the value is a number. *)
Definition asFloat (v : value) : bool :=
  match v with VNum x => Float64 x | _ => false end.

(** * Nodes *)

(** [Description], [Anchor], [ID] and [Secret] constrain nothing and are left out; a
    bound of type [*float64] is the decimal it prints as. *)
Inductive node := mkNode {
  Types : list string;
  Properties : option (gmap string node);
  Required : option (list string);
  AdditionalProperties : option node;
  Items : option node;
  OneOf : option (list node);
  AnyOf : option (list node);
  AllOf : option (list node);
  Enum : option (list value);
  Minimum : option Q;
  Maximum : option Q;
  MinLength : option Z;
  MaxLength : option Z;
  MinItems : option Z;
  MaxItems : option Z;
  Ref : string;
  Default : option value }.

Definition defs_t := gmap string node.

Implicit Types (n r p a b : node) (defs : defs_t) (v w : value) (k : string).

(** The zero node, the schema {}. *)
Definition emptyNode : node :=
  mkNode [] None None None None None None None None None None None None None None "" None.

(** The entries of a slice or map field, nil or not. *)
Definition entries {A} (o : option (list A)) : list A := default [] o.
Definition props n : gmap string node := default ∅ (Properties n).

Definition Contains (t : list string) (s : string) : bool := bool_decide (s ∈ t).

Definition isRequired n k : bool := bool_decide (k ∈ entries (Required n)).

Definition isNone {A} (o : option A) : bool := match o with None => true | Some _ => false end.

Definition isEmptyNode n : bool :=
  match Types n with [] => true | _ => false end && isNone (Properties n) && isNone (Required n) &&
  isNone (AdditionalProperties n) && isNone (Items n) && isNone (OneOf n) && isNone (AnyOf n) &&
  isNone (AllOf n) && isNone (Enum n) && bool_decide (Ref n = "") && isNone (Minimum n) &&
  isNone (Maximum n) && isNone (MinLength n) && isNone (MaxLength n) && isNone (MinItems n) &&
  isNone (MaxItems n).

Definition isNullType n : bool := bool_decide (Types n = ["null"]).

Definition hasNullType n : bool :=
  Contains (Types n) "null" || existsb isNullType (entries (OneOf n)) ||
  existsb isNullType (entries (AnyOf n)).

(** * References *)

Inductive ref_error := CircularRef | UnsupportedRef | RefNotFound.

#[export] Instance ref_error_eq_dec : EqDecision ref_error.
Proof. solve_decision. Defined.

Definition refPrefix : string := "#/$defs/".

(** [deref]: follow the chain of references from [n], which is the definition named
    [at_] if any, to a node that is none.  The second answer names the definition the
    chain ends in: it stands for the node's address. *)
Fixpoint deref_from (fuel : nat) defs n (at_ : option string) (seen : gset string)
    : result ref_error (node * option string) :=
  if decide (Ref n = "") then Ok (n, at_) else
  match fuel with
  | O => Err CircularRef
  | S fuel =>
      if match at_ with Some k => bool_decide (k ∈ seen) | None => false end then Err CircularRef else
      match strip_prefix refPrefix (Ref n) with
      | None => Err UnsupportedRef
      | Some k =>
          match defs !! k with
          | None => Err RefNotFound
          | Some t =>
              deref_from fuel defs t (Some k)
                match at_ with Some k => {[k]} ∪ seen | None => seen end
          end
      end
  end.

(** Each step past the first adds a name of the pool to [seen]. *)
Definition deref defs n : result ref_error (node * option string) :=
  deref_from (S (S (size defs))) defs n None ∅.

(** [propDefault]: a lone reference takes the default of its target. *)
Definition propDefault defs n : option value :=
  match Default n with
  | Some d => Some d
  | None =>
      if decide (Ref n = "") then None else
      match deref defs n with Ok (t, _) => Default t | Err _ => None end
  end.

(** [hasNullGuard]: [visiting] stops a reference cycle.  [None] is fuel run out. *)
Fixpoint anyM {A} (f : A -> option bool) (l : list A) : option bool :=
  match l with
  | [] => Some false
  | x :: l => match f x with Some true => Some true | Some false => anyM f l | None => None end
  end.

Fixpoint allM {A} (f : A -> option bool) (l : list A) : option bool :=
  match l with
  | [] => Some true
  | x :: l => match f x with Some true => allM f l | Some false => Some false | None => None end
  end.

Fixpoint hasNullGuard (fuel : nat) defs n (visiting : gset string) : option bool :=
  match fuel with
  | O => None
  | S fuel =>
      match deref defs n with
      | Err _ => Some (hasNullType n)
      | Ok (r, at_) =>
          if hasNullType r then Some true else
          if match at_ with Some k => bool_decide (k ∈ visiting) | None => false end then Some false else
          let next := match at_ with Some k => {[k]} ∪ visiting | None => visiting end in
          anyM (fun a => hasNullGuard fuel defs a next) (entries (OneOf r) ++ entries (AnyOf r))
      end
  end.

Definition hasNullResolved (fuel : nat) defs n : option bool := hasNullGuard fuel defs n ∅.

(** [utf8.RuneCountInString]: an invalid byte counts as one rune. *)
Definition in_range (lo hi : Z) (c : ascii) : bool := (lo <=? byte c) && (byte c <=? hi).
Definition cont : ascii -> bool := in_range 128 191.

Definition rune_size (s : string) : nat :=
  match s with
  | String c0 (String c1 s1) =>
      if in_range 194 223 c0 && cont c1 then 2%nat else
      match s1 with
      | String c2 s2 =>
          if (in_range 224 224 c0 && in_range 160 191 c1 ||
              (in_range 225 236 c0 || in_range 238 239 c0) && cont c1 ||
              in_range 237 237 c0 && in_range 128 159 c1) && cont c2 then 3%nat else
          match s2 with
          | String c3 _ =>
              if (in_range 240 240 c0 && in_range 144 191 c1 ||
                  in_range 241 243 c0 && cont c1 ||
                  in_range 244 244 c0 && in_range 128 143 c1) && cont c2 && cont c3 then 4%nat else 1%nat
          | EmptyString => 1%nat
          end
      | EmptyString => 1%nat
      end
  | _ => 1%nat
  end.

(** [skip] bytes of the current rune are still to be passed. *)
Fixpoint rune_count (skip : nat) (s : string) : Z :=
  match s with
  | EmptyString => 0
  | String _ s' =>
      match skip with
      | S k => rune_count k s'
      | O => 1 + rune_count (pred (rune_size s)) s'
      end
  end.

Definition RuneCount (s : string) : Z := rune_count 0 s.

(** * The conform walk: validate.go *)

(** What a conform can refuse, a constructor per check. *)
Inductive conform_error :=
  | BadRef (e : ref_error)
  | RefCycle
  | WrongType
  | NotInEnum
  | MissingRequired (k : string)
  | BadDefault (e : conform_error)
  | TooFewItems
  | TooManyItems
  | BelowMinimum
  | AboveMaximum
  | TooShort
  | TooLong
  | NoVariant (first : option conform_error)
  | SeveralVariants (matches : nat).

(** [Exactly] is [ConformToSchemaExactly]. *)
Inductive ConformMode := Strict | Exactly.

#[export] Instance ConformMode_eq_dec : EqDecision ConformMode.
Proof. solve_decision. Defined.

Definition isObjectSchema n : bool :=
  Contains (Types n) "object" || negb (isNone (Properties n)) || negb (isNone (Required n)) ||
  negb (isNone (AdditionalProperties n)).

(** The test of the [[]any] case of [conformGuard]. *)
Definition isArraySchema n : bool :=
  negb (isNone (Items n)) || Contains (Types n) "array".

Definition valueHasType v (t : string) : bool :=
  if decide (t = "null") then match v with VNull => true | _ => false end
  else if decide (t = "boolean") then match v with VBool _ => true | _ => false end
  else if decide (t = "string") then match v with VStr _ => true | _ => false end
  else if decide (t = "object") then match v with VObj _ => true | _ => false end
  else if decide (t = "array") then match v with VArr _ => true | _ => false end
  else if decide (t = "number") then asFloat v
  else if decide (t = "integer") then IsIntegral v
  else false.

Definition checkType n v : bool :=
  match Types n with [] => true | ts => existsb (valueHasType v) ts end.

(** Marshalled text is compared as the value it is the text of: object keys are
    marshalled in order. *)
Definition enumContains (enum : list value) v : bool :=
  existsb (fun e => Equal e v || bool_decide (e = v)) enum.

(** A bound, when the schema sets it. *)
Definition bound {A} (o : option A) (broken : A -> bool) (e : conform_error)
    : result conform_error unit :=
  match o with Some x => if broken x then Err e else Ok () | None => Ok () end.

Definition checkScalar n v : result conform_error unit :=
  match decimal v with
  | Some d =>
      _ ← bound (Minimum n) (fun lo => match Qcompare d lo with Lt => true | _ => false end) BelowMinimum;
      bound (Maximum n) (fun hi => match Qcompare d hi with Gt => true | _ => false end) AboveMaximum
  | None => Ok ()
  end ≫= fun _ =>
  match v with
  | VStr s =>
      _ ← bound (MinLength n) (fun lo => RuneCount s <? lo) TooShort;
      bound (MaxLength n) (fun hi => RuneCount s >? hi) TooLong
  | _ => Ok ()
  end.

Definition checkCount n (arr : list value) : result conform_error unit :=
  _ ← bound (MinItems n) (fun lo => Z.of_nat (length arr) <? lo) TooFewItems;
  bound (MaxItems n) (fun hi => Z.of_nat (length arr) >? hi) TooManyItems.

(** Fallible computations on fuel: [None] is fuel run out, which no caller catches. *)
Definition run A := option (result conform_error A).
Definition done {A} (x : A) : run A := Some (Ok x).
Definition fail {A} (e : conform_error) : run A := Some (Err e).
Definition andThen {A B} (m : run A) (f : A -> run B) : run B :=
  match m with Some (Ok x) => f x | Some (Err e) => fail e | None => None end.

(** A loop over keys that builds an object: [f] answers the value to store under a key,
    or none. *)
Fixpoint build (f : string -> run (option value)) (ks : list string) (out : gmap string value)
    : run (gmap string value) :=
  match ks with
  | [] => done out
  | k :: ks =>
      andThen (f k) (fun o => build f ks match o with Some v => <[k := v]> out | None => out end)
  end.

(** [slices.Sorted(maps.Keys(m))]. *)
Definition sortedKeys {A} (m : gmap string A) : list string :=
  merge_sort String.le (map_to_list m).*1.

Fixpoint mapRun (f : value -> run value) (l : list value) : run (list value) :=
  match l with
  | [] => done []
  | v :: l => andThen (f v) (fun w => andThen (mapRun f l) (fun ws => done (w :: ws)))
  end.

(** The loop of [conformUnion] over the arms, with its [firstErr], [match] and
    [matches]. *)
Fixpoint arms_loop (f : node -> run value) (exactlyOne : bool) (l : list node)
    (firstErr : option conform_error) (hit : value) (matches : nat) : run value :=
  match l with
  | [] =>
      match matches with
      | O => fail (NoVariant firstErr)
      | S O => done hit
      | _ => fail (SeveralVariants matches)
      end
  | b :: l =>
      match f b with
      | None => None
      | Some (Err e) =>
          arms_loop f exactlyOne l match firstErr with None => Some e | Some _ => firstErr end hit matches
      | Some (Ok res) =>
          if exactlyOne then arms_loop f exactlyOne l firstErr res (S matches) else done res
      end
  end.

Definition conformUnion (f : node -> run value) (branches : list node) (exactlyOne : bool) : run value :=
  arms_loop f exactlyOne branches None VNull 0.

(** [conformArray]; [f] conforms an element to [nd.Items], where a nil one passes it
    through. *)
Definition conformArray (f : node -> value -> run value) n (arr : list value) : run value :=
  match checkCount n arr with
  | Err e => fail e
  | Ok _ =>
      andThen (mapRun (fun el => match Items n with Some i => f i el | None => done el end) arr)
        (fun out => done (VArr out))
  end.

(** The body of the loop of [conformObject] over the declared properties. *)
Definition conformProperty (f : node -> value -> run value) (nullable : node -> option bool)
    (mode : ConformMode) defs n (m : gmap string value) (k : string) : run (option value) :=
  match props n !! k with
  | None => done None
  | Some prop =>
      match m !! k with
      | None =>
          if isRequired n k then
            if decide (mode = Exactly) then
              match nullable prop with
              | None => None
              | Some true => done (Some VNull)
              | Some false => fail (MissingRequired k)
              end
            else fail (MissingRequired k)
          else
            match propDefault defs prop with
            | Some d =>
                if decide (mode = Strict) then
                  match f prop d with
                  | None => None
                  | Some (Err e) => fail (BadDefault e)
                  | Some (Ok norm) => done (Some norm)
                  end
                else done None
            | None => done None
            end
      | Some v =>
          let keep := andThen (f prop v) (fun norm => done (Some norm)) in
          if decide (mode = Exactly /\ v = VNull /\ isRequired n k = false) then
            match nullable prop with
            | None => None
            | Some true => keep
            | Some false => done None
            end
          else keep
      end
  end.

(** The body of its loop over the keys of the value. *)
Definition conformExtra (f : node -> value -> run value) n (m : gmap string value) (k : string)
    : run (option value) :=
  match props n !! k, AdditionalProperties n, m !! k with
  | None, Some a, Some v => andThen (f a v) (fun norm => done (Some norm))
  | _, _, _ => done None
  end.

Definition conformObject (f : node -> value -> run value) (nullable : node -> option bool)
    (mode : ConformMode) defs n (m : gmap string value) : run value :=
  andThen (build (conformProperty f nullable mode defs n m) (sortedKeys (props n)) ∅) (fun out =>
  andThen match AdditionalProperties n with
          | Some _ => build (conformExtra f n m) (sortedKeys m) out
          | None => done out
          end (fun out => done (VObj out))).

(** [conformGuard]: [visiting] holds the definitions expanded at this value position. *)
Fixpoint conformGuard (fuel : nat) (mode : ConformMode) defs n v (visiting : gset string) : run value :=
  match fuel with
  | O => None
  | S fuel =>
      match deref defs n with
      | Err e => fail (BadRef e)
      | Ok (r, at_) =>
          if match at_ with Some k => bool_decide (k ∈ visiting) | None => false end then fail RefCycle else
          let visiting := match at_ with Some k => {[k]} ∪ visiting | None => visiting end in
          if isEmptyNode r then done v else
          let here a := conformGuard fuel mode defs a v visiting in
          let below a w := conformGuard fuel mode defs a w ∅ in
          match entries (AnyOf r), entries (OneOf r) with
          | (_ :: _) as arms, _ => conformUnion here arms false
          | [], (_ :: _) as arms => conformUnion here arms true
          | [], [] =>
              if negb (checkType r v) then fail WrongType else
              if match entries (Enum r) with [] => false | e => negb (enumContains e v) end
              then fail NotInEnum else
              match v with
              | VNull => done VNull
              | VObj m =>
                  if isObjectSchema r
                  then conformObject below (hasNullResolved fuel defs) mode defs r m
                  else done v
              | VArr l => if isArraySchema r then conformArray below r l else done v
              | _ => match checkScalar r v with Err e => fail e | Ok _ => done v end
              end
          end
      end
  end.

(** [Schema.Validate]: a [Schema] is its root node over its pool. *)
Definition Validate (fuel : nat) defs n v (mode : ConformMode) : run value :=
  conformGuard fuel mode defs n v ∅.

End Model.
End Schema.
