(* ===== verification/Subset.v ===== *)
(** The subset relation over schemas: internal/schema/subset.go and [enumHasNumeric] of
    subsetbreak.go, with [stripNull] of navigate.go.

    This is the walk on its boolean path, where it stops at the first break; collecting
    the breaks for a diagnostic is not modelled.  A nil node is the empty one. *)
From Stdlib Require Import ZArith QArith Lia Ascii String.
From stdpp Require Import sorting.
From S2P Require Import Prelude.
From S2P Require Import GoStrings.
From S2P Require Import Schema.
Open Scope string_scope.
Open Scope list_scope.
Open Scope Z_scope.

Module Subset.
Import Schema.

Section Model.
Context `{Numbers}.

Implicit Types (n r p a b sub super : node) (defs subDefs superDefs : defs_t) (v w : value) (k : string).

(** * Removing null *)

(** [stripNull], which leaves references alone: with no pool to resolve them in, a
    reference has only the null its own keywords spell.  An unchanged node is answered
    as none, where Go compares addresses. *)
Fixpoint hasNullHere n : bool :=
  hasNullType n ||
  (bool_decide (Ref n = "") &&
   (match OneOf n with Some l => existsb hasNullHere l | None => false end ||
    match AnyOf n with Some l => existsb hasNullHere l | None => false end)).

Definition set_Types n (t : list string) : node :=
  mkNode t (Properties n) (Required n) (AdditionalProperties n) (Items n) (OneOf n) (AnyOf n) (AllOf n)
    (Enum n) (Minimum n) (Maximum n) (MinLength n) (MaxLength n) (MinItems n) (MaxItems n) (Ref n) (Default n).
Definition set_OneOf n (l : list node) : node :=
  mkNode (Types n) (Properties n) (Required n) (AdditionalProperties n) (Items n) (Some l) (AnyOf n) (AllOf n)
    (Enum n) (Minimum n) (Maximum n) (MinLength n) (MaxLength n) (MinItems n) (MaxItems n) (Ref n) (Default n).
Definition set_AnyOf n (l : list node) : node :=
  mkNode (Types n) (Properties n) (Required n) (AdditionalProperties n) (Items n) (OneOf n) (Some l) (AllOf n)
    (Enum n) (Minimum n) (Maximum n) (MinLength n) (MaxLength n) (MinItems n) (MaxItems n) (Ref n) (Default n).

(** [arms] is [stripNullArms]: the arms left, and whether any changed. *)
Fixpoint strip n : option node :=
  if negb (hasNullHere n) then None else
  match Types n with
  | _ :: _ =>
      let nonNull := filter (fun t => t <> "null") (Types n) in
      if decide (length nonNull = length (Types n)) then None else Some (set_Types n nonNull)
  | [] =>
      let arms (o : option (list node)) :=
        match o with
        | Some l =>
            (omap id ((fun a => if isNullType a then None else Some (default a (strip a))) <$> l),
             existsb (fun a => isNullType a || negb (isNone (strip a))) l)
        | None => ([], false)
        end in
      let pick (o : option (list node)) (set : list node -> node) :=
        match arms o with
        | (_, false) | ([], _) => None
        | ([x], true) => Some x
        | (out, true) => Some (set out)
        end in
      match entries (OneOf n) with
      | _ :: _ => pick (OneOf n) (set_OneOf n)
      | [] => match entries (AnyOf n) with
              | _ :: _ => pick (AnyOf n) (set_AnyOf n)
              | [] => None
              end
      end
  end.

Definition stripNull n : node := default n (strip n).

(** * The relation *)

Record subsetMode := mkMode {
  narrow : bool; absentAsNull : bool; afterConform : bool; nullRemoval : bool; closed : bool }.

Definition plainMode : subsetMode := mkMode false false false false false.
Definition absentMode : subsetMode := mkMode false true false false false.
Definition storedMode : subsetMode := mkMode false true true true false.
Definition conformsExactlyMode : subsetMode := mkMode false true false true true.
Definition narrowMode : subsetMode := mkMode true false false false false.

(** [derefSubset] follows one reference and leaves one it cannot follow. *)
Definition derefSubset n defs : node :=
  if decide (Ref n = "") then n else
  match strip_prefix refPrefix (Ref n) with
  | None => n
  | Some k => default n (defs !! k)
  end.

Definition typeAllowed (subType : string) (superTypes : list string) : bool :=
  existsb (fun st => bool_decide (st = subType) ||
                     bool_decide (subType = "integer") && bool_decide (st = "number")) superTypes.

(** [guaranteed], as the test of one name. *)
Definition guaranteed (mode : subsetMode) n defs k : bool :=
  isRequired n k ||
  afterConform mode && match props n !! k with
                       | Some p => negb (isNone (propDefault defs p))
                       | None => false
                       end.

(** A bound of [super] against the same bound of [sub]: an unset one on [sub] fails. *)
Definition boundFits {A} (fits : A -> A -> bool) (sub super : option A) : bool :=
  match super, sub with
  | None, _ => true
  | Some _, None => false
  | Some y, Some x => fits x y
  end.

Definition checkItemCount sub super : bool :=
  boundFits (fun x y => negb (x <? y)) (MinItems sub) (MinItems super) &&
  boundFits (fun x y => negb (x >? y)) (MaxItems sub) (MaxItems super).

Definition checkStringLength sub super : bool :=
  boundFits (fun x y => negb (x <? y)) (MinLength sub) (MinLength super) &&
  boundFits (fun x y => negb (x >? y)) (MaxLength sub) (MaxLength super).

Definition checkNumericBounds sub super : bool :=
  boundFits (fun x y => match Qcompare x y with Lt => false | _ => true end) (Minimum sub) (Minimum super) &&
  boundFits (fun x y => match Qcompare x y with Gt => false | _ => true end) (Maximum sub) (Maximum super).

Definition enumHasNumeric (pool : list value) v : bool :=
  match decimal v with None => false | Some _ => existsb (fun w => Equal w v) pool end.

(** A [jsonKey] is compared as the value it is the text of. *)
Definition checkEnum sub super : bool :=
  match Enum super, Enum sub with
  | None, _ => true
  | Some _, None => false
  | Some pool, Some vs => forallb (fun v => bool_decide (v ∈ pool) || enumHasNumeric pool v) vs
  end.

(** [checkClosed]. *)
Definition checkClosed sub super : bool :=
  forallb (fun k => negb (isNone (props super !! k)) || isRequired super k) (sortedKeys (props sub)) &&
  isNone (AdditionalProperties sub).

(** Two steps of a walk in order, the second only when the first holds. *)
Definition also (x : option bool) (y : option bool) : option bool :=
  match x with Some true => y | _ => x end.

Definition key sub super : string := Ref sub +:+ "||" +:+ Ref super.

(** The loop of [checkObject] over what [super] requires. *)
Definition requiredFits (nullable : defs_t -> node -> option bool) (mode : subsetMode) subDefs superDefs
    sub super k : option bool :=
  if guaranteed mode sub subDefs k then Some true else
  match props super !! k with
  | Some p => if absentAsNull mode then nullable superDefs p else Some false
  | None => Some false
  end.

(** Its loop over what [super] declares, with the retry a removed null allows. *)
Definition propertyFits (check : node -> node -> option bool) (nullable : defs_t -> node -> option bool)
    (mode : subsetMode) subDefs sub super k : option bool :=
  match props super !! k, props sub !! k with
  | Some superProp, Some subProp =>
      match check subProp superProp with
      | Some false =>
          if nullRemoval mode && negb (isRequired super k) then
            match nullable subDefs subProp with
            | Some true => check (stripNull subProp) superProp
            | x => x
            end
          else Some false
      | x => x
      end
  | _, _ => Some true
  end.

(** Its loop over what [sub] carries that [super] does not declare. *)
Definition extraFits (check : node -> node -> option bool) sub super a k : option bool :=
  match props super !! k, props sub !! k with
  | None, Some subProp => check subProp a
  | _, _ => Some true
  end.

Definition checkObject (check : node -> node -> option bool) (nullable : defs_t -> node -> option bool)
    (mode : subsetMode) subDefs superDefs sub super : option bool :=
  also (allM (requiredFits nullable mode subDefs superDefs sub super) (entries (Required super)))
  (also (allM (propertyFits check nullable mode subDefs sub super) (sortedKeys (props super)))
  (also match AdditionalProperties super with
        | Some a =>
            also (allM (extraFits check sub super a) (sortedKeys (props sub)))
              match AdditionalProperties sub with Some b => check b a | None => Some true end
        | None => Some true
        end
   (if closed mode && isNone (AdditionalProperties super)
    then Some (checkClosed sub super) else Some true))).

Definition checkArray (check : node -> node -> option bool) sub super : option bool :=
  match Items super with
  | None => Some true
  | Some i =>
      if bool_decide (MaxItems sub = Some 0) then Some true else
      match Items sub with None => Some false | Some j => check j i end
  end.

(** What is left of a comparison once references and unions are resolved. *)
Definition checkPlain (check : node -> node -> option bool) (nullable : defs_t -> node -> option bool)
    (mode : subsetMode) subDefs superDefs sub super : option bool :=
  also (match Types super, Types sub with
        | [], _ => Some true
        | _ :: _, [] => Some false
        | ts, ss => Some (forallb (fun t => typeAllowed t ts) ss)
        end)
  (also (if isNone (Properties super) && isNone (Required super) && isNone (AdditionalProperties super)
         then Some true else checkObject check nullable mode subDefs superDefs sub super)
  (also (checkArray check sub super)
  (also (Some (checkItemCount sub super))
  (also (Some (checkNumericBounds sub super))
  (also (Some (checkStringLength sub super))
        (Some (checkEnum sub super))))))).

(** The arms of a union field that is set: an empty list is still set. *)
Definition arms_of n : option (list node) :=
  match AnyOf n with Some l => Some l | None => OneOf n end.

(** [check]: [visiting] holds the keys being compared. *)
Fixpoint check (fuel : nat) (mode : subsetMode) subDefs superDefs (visiting : gset string) sub super
    : option bool :=
  match fuel with
  | O => None
  | S fuel =>
      let refs := negb (bool_decide (Ref sub = "")) || negb (bool_decide (Ref super = "")) in
      if refs && bool_decide (key sub super ∈ visiting) then Some true else
      let visiting := if refs then {[key sub super]} ∪ visiting else visiting in
      let sub := derefSubset sub subDefs in
      let super := derefSubset super superDefs in
      let again := check fuel mode subDefs superDefs visiting in
      let nullable := fun defs n => hasNullResolved fuel defs n in
      if negb (bool_decide (Ref super = "")) then Some false else
      if isEmptyNode super then Some true else
      if existsb (fun arm => isEmptyNode (derefSubset arm superDefs)) (entries (AnyOf super)) then Some true else
      if isEmptyNode sub then Some (narrow mode) else
      match arms_of sub with
      | Some arms => allM (fun arm => again arm super) arms
      | None =>
          match entries (AllOf sub) with
          | (_ :: _) as arms => anyM (fun arm => again arm super) arms
          | [] =>
              match arms_of super with
              | Some arms => anyM (fun arm => again sub arm) arms
              | None =>
                  match entries (AllOf super) with
                  | (_ :: _) as arms => allM (fun arm => again sub arm) arms
                  | [] => checkPlain again nullable mode subDefs superDefs sub super
                  end
              end
          end
      end
  end.

(** [subsetWith]: a schema is its root node over its pool. *)
Definition subsetWith (fuel : nat) subDefs sub superDefs super (mode : subsetMode) : option bool :=
  check fuel mode subDefs superDefs ∅ sub super.

Definition isSubset (fuel : nat) subDefs sub superDefs super : option bool :=
  subsetWith fuel subDefs sub superDefs super plainMode.
Definition conformsExactlyTo (fuel : nat) subDefs sub superDefs super : option bool :=
  subsetWith fuel subDefs sub superDefs super conformsExactlyMode.

End Model.
End Subset.
