(* ===== verification/Conforming.v ===== *)
(** What the conform walk of [Schema] promises: it ends, what it answers satisfies the
    schema it was walked against, and it takes every value the schema accepts. *)
From Stdlib Require Import ZArith QArith Lia Ascii String.
From stdpp Require Import sorting.
From S2P Require Import Prelude.
From S2P Require Import GoStrings.
From S2P Require Import Schema.
Open Scope string_scope.
Open Scope list_scope.
Open Scope Z_scope.

Module Conforming.
Import Schema.

Section Theory.
Context `{Numbers}.

Implicit Types (n r p a b c : node) (defs : defs_t) (v w : value) (k : string) (m : gmap string value).

(** * The nodes of a schema *)

Definition children n : list node :=
  (map_to_list (props n)).*2 ++ option_list (AdditionalProperties n) ++ option_list (Items n) ++
  entries (OneOf n) ++ entries (AnyOf n) ++ entries (AllOf n).

(** Every node under [n], itself first. *)
Fixpoint nodes n : list node :=
  n :: match Properties n with Some ps => mjoin (map_to_list (nodes <$> ps)).*2 | None => [] end ++
       match AdditionalProperties n with Some c => nodes c | None => [] end ++
       match Items n with Some c => nodes c | None => [] end ++
       match OneOf n with Some l => mjoin (nodes <$> l) | None => [] end ++
       match AnyOf n with Some l => mjoin (nodes <$> l) | None => [] end ++
       match AllOf n with Some l => mjoin (nodes <$> l) | None => [] end.

Lemma nodes_map (ps : gmap string node) :
  (map_to_list (nodes <$> ps)).*2 ≡ₚ nodes <$> (map_to_list ps).*2.
Proof.
  rewrite map_to_list_fmap, <- !list_fmap_compose.
  apply Permutation_refl'. by apply list_fmap_ext; intros ? [] _.
Qed.

Lemma nodes_children n : nodes n ≡ₚ n :: mjoin (nodes <$> children n).
Proof.
  destruct n as [ts ps rq ad it o an al en mi ma ml mx mii mai rf df].
  cbn [nodes Properties AdditionalProperties Items OneOf AnyOf AllOf]. unfold children, props, entries.
  cbn [Properties AdditionalProperties Items OneOf AnyOf AllOf]. constructor.
  rewrite !fmap_app, !join_app. apply Permutation_app.
  { destruct ps as [ps|]; cbn; [|by rewrite map_to_list_empty].
    by rewrite nodes_map. }
  destruct ad, it, o, an, al; cbn; rewrite ?app_nil_r; reflexivity.
Qed.

Lemma nodes_self n : n ∈ nodes n.
Proof. rewrite nodes_children. constructor. Qed.

Lemma nodes_child n c : c ∈ children n -> nodes c ⊆+ nodes n /\ (length (nodes c) < length (nodes n))%nat.
Proof.
  intros Hc. rewrite (nodes_children n). apply list_elem_of_split in Hc as (l1 & l2 & ->).
  rewrite fmap_app, join_app. cbn. rewrite !length_app. split; [|lia].
  apply submseteq_cons, submseteq_middle.
Qed.
(** A property of every node of a schema, and of every node of a pool. *)
Definition each (P : node -> Prop) n : Prop := Forall P (nodes n).
Definition pool_each (P : node -> Prop) defs : Prop := map_Forall (fun _ => each P) defs.

Lemma each_self (P : node -> Prop) n : each P n -> P n.
Proof. intros HP. apply (proj1 (Forall_forall _ _) HP), nodes_self. Qed.

Lemma each_intro (P : node -> Prop) n l : nodes n = l -> Forall P l -> each P n.
Proof. by intros <-. Qed.

Lemma each_child (P : node -> Prop) n c : each P n -> c ∈ children n -> each P c.
Proof.
  intros HP Hc. apply nodes_child in Hc as [Hs _]. apply Forall_forall. intros x Hx.
  apply (proj1 (Forall_forall _ _) HP). by apply (elem_of_submseteq _ _ _ Hx).
Qed.

Lemma child_prop n k p : props n !! k = Some p -> p ∈ children n.
Proof.
  intros Hp. unfold children. apply elem_of_app. left.
  apply list_elem_of_fmap. exists (k, p). split; [done|]. by apply elem_of_map_to_list.
Qed.

Lemma child_extra n a : AdditionalProperties n = Some a -> a ∈ children n.
Proof. intros E. unfold children. rewrite !elem_of_app, E. right. left. constructor. Qed.

Lemma child_item n a : Items n = Some a -> a ∈ children n.
Proof. intros E. unfold children. rewrite !elem_of_app, E. do 2 right. left. constructor. Qed.

Lemma child_oneOf n a : a ∈ entries (OneOf n) -> a ∈ children n.
Proof. intros E. unfold children. rewrite !elem_of_app. tauto. Qed.

Lemma child_anyOf n a : a ∈ entries (AnyOf n) -> a ∈ children n.
Proof. intros E. unfold children. rewrite !elem_of_app. tauto. Qed.

(** The nodes a conform may reach without leaving its place in the value: [n] and the arms
    of its unions. *)
Fixpoint bares n : list node :=
  n :: match OneOf n with Some l => mjoin (bares <$> l) | None => [] end ++
       match AnyOf n with Some l => mjoin (bares <$> l) | None => [] end ++
       match AllOf n with Some l => mjoin (bares <$> l) | None => [] end.

Definition bare_children n : list node := entries (OneOf n) ++ entries (AnyOf n) ++ entries (AllOf n).

Lemma bares_children n : bares n = n :: mjoin (bares <$> bare_children n).
Proof.
  destruct n as [ts ps rq ad it o an al en mi ma ml mx mii mai rf df].
  unfold bare_children, entries. cbn [bares OneOf AnyOf AllOf]. f_equal.
  rewrite !fmap_app, !join_app. by destruct o, an, al.
Qed.

Lemma bares_self n : n ∈ bares n.
Proof. rewrite bares_children. constructor. Qed.

Lemma bares_child n c x : c ∈ bare_children n -> x ∈ bares c -> x ∈ bares n.
Proof.
  intros Hc Hx. rewrite (bares_children n). right. apply list_elem_of_join. exists (bares c).
  split; [done|]. by apply list_elem_of_fmap_2.
Qed.

Lemma bare_child n c : c ∈ bare_children n -> c ∈ children n.
Proof. unfold bare_children, children. rewrite !elem_of_app. tauto. Qed.

Lemma bares_nodes n x : x ∈ bares n -> x ∈ nodes n.
Proof.
  remember (length (nodes n)) as s eqn:Es. revert n Es. induction (lt_wf s) as [s _ IH]. intros n Es.
  rewrite bares_children. intros [->|Hx]%elem_of_cons; [apply nodes_self|].
  apply list_elem_of_join in Hx as (l & Hx & Hl). apply list_elem_of_fmap in Hl as (c & -> & Hc).
  apply bare_child, nodes_child in Hc as [Hs Hlt]. eapply elem_of_submseteq; [|exact Hs].
  eapply IH; [|reflexivity|done]. by rewrite Es.
Qed.

(** * References *)

Lemma deref_from_spec fuel defs n at_ seen r o :
  deref_from fuel defs n at_ seen = Ok (r, o) ->
  Ref r = "" /\
  ((Ref n = "" /\ r = n /\ o = at_) \/ (Ref n <> "" /\ exists t, o = Some t /\ defs !! t = Some r)).
Proof.
  revert n at_ seen. induction fuel as [|fuel IH]; intros n at_ seen; cbn [deref_from].
  { case_decide; [|done]. intros [= <- <-]. auto. }
  case_decide as E; [intros [= <- <-]; auto|].
  destruct (match at_ with Some _ => _ | None => _ end); [done|].
  destruct (strip_prefix _ _) as [t|]; [|done]. destruct (defs !! t) as [d|] eqn:Hd; [|done].
  intros Hr. apply IH in Hr as (Hr & [(Hn & -> & ->)|(_ & t' & -> & Ht)]); split; eauto 6.
Qed.

Lemma deref_spec defs n r o :
  deref defs n = Ok (r, o) ->
  Ref r = "" /\ ((Ref n = "" /\ r = n /\ o = None) \/ (Ref n <> "" /\ exists t, o = Some t /\ defs !! t = Some r)).
Proof. apply deref_from_spec. Qed.

Lemma deref_plain defs n : Ref n = "" -> deref defs n = Ok (n, None).
Proof. intros E. unfold deref. cbn. by rewrite decide_True. Qed.

(** What holds of a node and of its pool holds of what it refers to. *)
Lemma each_deref (P : node -> Prop) defs n r o :
  pool_each P defs -> each P n -> deref defs n = Ok (r, o) -> each P r.
Proof.
  intros Hp Hn Hd. apply deref_spec in Hd as (_ & [(_ & -> & _)|(_ & t & _ & Ht)]); [done|].
  by apply (Hp t).
Qed.

(** * More fuel answers the same *)

(** [y] answers at least what [x] does. *)
Definition leq {A} (x y : option A) : Prop := forall z, x = Some z -> y = Some z.

Lemma leq_refl {A} (x : option A) : leq x x.
Proof. by intros z. Qed.

Lemma leq_none {A} (y : option A) : leq None y.
Proof. by intros z. Qed.

Lemma leq_andThen {A B} (x y : run A) (f g : A -> run B) :
  leq x y -> (forall z, leq (f z) (g z)) -> leq (andThen x f) (andThen y g).
Proof.
  intros Hx Hf z. destruct x as [[u|e]|]; cbn; [| |done].
  - intros Hz. rewrite (Hx _ eq_refl). cbn. by apply Hf.
  - intros Hz. by rewrite (Hx _ eq_refl).
Qed.

(** A [match] on a computation, whatever its arms do. *)
Lemma leq_match {A B} (x y : option A) (f g : A -> option B) :
  leq x y -> (forall z, leq (f z) (g z)) ->
  leq match x with Some z => f z | None => None end match y with Some z => g z | None => None end.
Proof. intros Hx Hf z. destruct x as [u|]; [|done]. rewrite (Hx _ eq_refl). apply Hf. Qed.

Lemma leq_anyM {A} (f g : A -> option bool) l : (forall z, leq (f z) (g z)) -> leq (anyM f l) (anyM g l).
Proof.
  intros Hf. induction l as [|x l IH]; cbn; [apply leq_refl|].
  apply (leq_match (f x) (g x) (fun u : bool => if u then Some true else anyM f l)
                               (fun u : bool => if u then Some true else anyM g l)); [apply Hf|].
  intros []; [apply leq_refl|done].
Qed.

Lemma leq_build (f g : string -> run (option value)) ks out :
  (forall k, leq (f k) (g k)) -> leq (build f ks out) (build g ks out).
Proof.
  intros Hf. revert out. induction ks as [|k ks IH]; intros out; cbn; [apply leq_refl|].
  apply leq_andThen; [apply Hf|]. intros []; apply IH.
Qed.

Lemma leq_mapRun (f g : value -> run value) l :
  (forall v, leq (f v) (g v)) -> leq (mapRun f l) (mapRun g l).
Proof.
  intros Hf. induction l as [|v l IH]; cbn; [apply leq_refl|].
  apply leq_andThen; [apply Hf|]. intros z. apply leq_andThen; [apply IH|]. intros. apply leq_refl.
Qed.

Lemma leq_arms (f g : node -> run value) one l fe hit (i : nat) :
  (forall a, leq (f a) (g a)) -> leq (arms_loop f one l fe hit i) (arms_loop g one l fe hit i).
Proof.
  intros Hf. revert fe hit i. induction l as [|b l IH]; intros fe hit i; cbn; [apply leq_refl|].
  apply (leq_match (f b) (g b)
    (fun z => match z with Ok res => if one then arms_loop f one l fe res (S i) else done res
                        | Err e => arms_loop f one l match fe with None => Some e | Some _ => fe end hit i end)
    (fun z => match z with Ok res => if one then arms_loop g one l fe res (S i) else done res
                        | Err e => arms_loop g one l match fe with None => Some e | Some _ => fe end hit i end));
    [apply Hf|].
  intros [res|e]; [|apply IH]. destruct one; [apply IH|apply leq_refl].
Qed.

Lemma leq_conformArray (f g : node -> value -> run value) n l :
  (forall a v, leq (f a v) (g a v)) -> leq (conformArray f n l) (conformArray g n l).
Proof.
  intros Hf. unfold conformArray. destruct (checkCount n l); [|apply leq_refl].
  apply leq_andThen; [apply leq_mapRun|]; intros; [|apply leq_refl].
  destruct (Items n); [apply Hf|apply leq_refl].
Qed.

Lemma leq_conformProperty (f g : node -> value -> run value) nf ng mode defs n m k :
  (forall a v, leq (f a v) (g a v)) -> (forall a, leq (nf a) (ng a)) ->
  leq (conformProperty f nf mode defs n m k) (conformProperty g ng mode defs n m k).
Proof.
  intros Hf Hn. unfold conformProperty. destruct (props n !! k) as [p|]; [|apply leq_refl].
  destruct (m !! k) as [v|].
  - assert (Hk : leq (andThen (f p v) (fun z => done (Some z))) (andThen (g p v) (fun z => done (Some z)))).
    { apply leq_andThen; [apply Hf|]. intros. apply leq_refl. }
    case_decide; [|done].
    intros z. destruct (nf p) as [b|] eqn:E; [|done]. rewrite (Hn _ _ E). destruct b; [apply Hk|done].
  - destruct (isRequired n k); [case_decide; [|apply leq_refl]|].
    + intros z. destruct (nf p) as [b|] eqn:E; [|done]. by rewrite (Hn _ _ E).
    + destruct (propDefault defs p) as [d|]; [|apply leq_refl]. case_decide; [|apply leq_refl].
      intros z. destruct (f p d) as [y|] eqn:E; [|done]. by rewrite (Hf _ _ _ E).
Qed.

Lemma leq_conformExtra (f g : node -> value -> run value) n m k :
  (forall a v, leq (f a v) (g a v)) -> leq (conformExtra f n m k) (conformExtra g n m k).
Proof.
  intros Hf. unfold conformExtra.
  destruct (props n !! k), (AdditionalProperties n), (m !! k); try apply leq_refl.
  apply leq_andThen; [apply Hf|]. intros. apply leq_refl.
Qed.

Lemma leq_conformObject (f g : node -> value -> run value) nf ng mode defs n m :
  (forall a v, leq (f a v) (g a v)) -> (forall a, leq (nf a) (ng a)) ->
  leq (conformObject f nf mode defs n m) (conformObject g ng mode defs n m).
Proof.
  intros Hf Hn. unfold conformObject. apply leq_andThen.
  { apply leq_build. intros k. by apply leq_conformProperty. }
  intros out. apply leq_andThen; [|intros; apply leq_refl].
  destruct (AdditionalProperties n); [|apply leq_refl].
  apply leq_build. intros k. by apply leq_conformExtra.
Qed.

Lemma leq_hasNull fuel fuel' defs n vis :
  (fuel <= fuel')%nat -> leq (hasNullGuard fuel defs n vis) (hasNullGuard fuel' defs n vis).
Proof.
  revert fuel' n vis. induction fuel as [|fuel IH]; intros fuel' n vis Hle; [apply leq_none|].
  destruct fuel' as [|fuel']; [lia|]. cbn [hasNullGuard].
  destruct (deref defs n) as [[r at_]|]; [|apply leq_refl].
  destruct (hasNullType r); [apply leq_refl|]. destruct (match at_ with Some _ => _ | None => _ end); [apply leq_refl|].
  apply leq_anyM. intros a. apply IH. lia.
Qed.

Lemma leq_conform fuel fuel' mode defs n v vis :
  (fuel <= fuel')%nat ->
  leq (conformGuard fuel mode defs n v vis) (conformGuard fuel' mode defs n v vis).
Proof.
  revert fuel' n v vis. induction fuel as [|fuel IH]; intros fuel' n v vis Hle; [apply leq_none|].
  destruct fuel' as [|fuel']; [lia|]. cbn [conformGuard].
  destruct (deref defs n) as [[r at_]|]; [|apply leq_refl].
  destruct (match at_ with Some _ => bool_decide _ | None => _ end); [apply leq_refl|].
  destruct (isEmptyNode r); [apply leq_refl|].
  destruct (entries (AnyOf r)); [destruct (entries (OneOf r))|];
    [|apply leq_arms; intros; apply IH; lia|apply leq_arms; intros; apply IH; lia].
  destruct (negb (checkType r v)); [apply leq_refl|].
  destruct (match entries (Enum r) with [] => _ | _ => _ end); [apply leq_refl|].
  destruct v; try apply leq_refl.
  - destruct (isArraySchema r); [|apply leq_refl]. apply leq_conformArray. intros. apply IH. lia.
  - destruct (isObjectSchema r); [|apply leq_refl].
    apply leq_conformObject; intros; [apply IH|apply leq_hasNull]; lia.
Qed.

(** * What a schema accepts *)

Definition arms n : list node :=
  match entries (AnyOf n) with [] => entries (OneOf n) | l => l end.

(** The checks of one plain node, without its members. *)
Record plainOk r v : Prop := mkPlain {
  plain_type : checkType r v = true;
  plain_enum : entries (Enum r) = [] \/ enumContains (entries (Enum r)) v = true;
  plain_required : forall m k, v = VObj m -> isObjectSchema r = true -> isRequired r k = true ->
    is_Some (props r !! k) -> is_Some (m !! k);
  plain_count : forall l, v = VArr l -> isArraySchema r = true -> is_ok (checkCount r l) = true;
  plain_scalar : is_ok (checkScalar r v) = true }.

(** [sat exact defs n v]: [v] is of type [n].  A union is read as any of its arms, and a
    key a closed object does not declare is let through, unless [exact] is set. *)
Inductive sat (exact : bool) (defs : defs_t) : node -> value -> Prop :=
  | sat_any n r o v :
      deref defs n = Ok (r, o) -> isEmptyNode r = true -> sat exact defs n v
  | sat_arm n r o v a :
      deref defs n = Ok (r, o) -> isEmptyNode r = false -> a ∈ arms r -> sat exact defs a v ->
      sat exact defs n v
  | sat_plain n r o v :
      deref defs n = Ok (r, o) -> isEmptyNode r = false -> arms r = [] -> plainOk r v ->
      (forall m k p x, v = VObj m -> isObjectSchema r = true -> props r !! k = Some p ->
         m !! k = Some x -> sat exact defs p x) ->
      (forall m k a x, v = VObj m -> isObjectSchema r = true -> props r !! k = None ->
         AdditionalProperties r = Some a -> m !! k = Some x -> sat exact defs a x) ->
      (forall l a x, v = VArr l -> Items r = Some a -> x ∈ l -> sat exact defs a x) ->
      (exact = true -> forall m k, v = VObj m -> isObjectSchema r = true ->
         AdditionalProperties r = None -> is_Some (m !! k) -> is_Some (props r !! k)) ->
      sat exact defs n v.

(** A raw document the schema accepts, and a value as a conform leaves it. *)
Abbreviation accepts := (sat false).
Abbreviation has := (sat true).

(** * The loops *)

Lemma elem_of_sortedKeys {A} (ps : gmap string A) k : k ∈ sortedKeys ps <-> is_Some (ps !! k).
Proof.
  unfold sortedKeys. rewrite merge_sort_Permutation, list_elem_of_fmap. split.
  - intros ([k' u] & -> & Hk). apply elem_of_map_to_list in Hk. by exists u.
  - intros [u Hu]. exists (k, u). split; [done|]. by apply elem_of_map_to_list.
Qed.

Lemma NoDup_sortedKeys {A} (ps : gmap string A) : NoDup (sortedKeys ps).
Proof. unfold sortedKeys. rewrite merge_sort_Permutation. apply NoDup_fst_map_to_list. Qed.

(** What a key of the built object holds. *)
Definition built (old : option value) (o : option value) : option value :=
  match o with Some v => Some v | None => old end.

Lemma build_ok (f : string -> run (option value)) ks out m :
  NoDup ks -> build f ks out = Some (Ok m) ->
  (forall k, k ∈ ks -> exists o, f k = Some (Ok o) /\ m !! k = built (out !! k) o) /\
  (forall k, k ∉ ks -> m !! k = out !! k).
Proof.
  intros Hnd. revert out. induction Hnd as [|k ks Hk _ IH]; intros out; cbn [build].
  { intros [= <-]. split; [|done]. intros k Hk. by apply not_elem_of_nil in Hk. }
  destruct (f k) as [[o|e]|] eqn:E; cbn; [|done|done].
  intros Hb. apply IH in Hb as [H1 H2].
  assert (Hout : forall k', k' <> k -> match o with Some v => <[k := v]> out | None => out end !! k' = out !! k').
  { intros k' Hne. destruct o; [|done]. by rewrite lookup_insert_ne. }
  split; intros k' Hk'.
  - apply elem_of_cons in Hk' as [->|Hin].
    + exists o. split; [done|]. rewrite (H2 _ Hk). destruct o; cbn; [|done]. by rewrite lookup_insert_eq.
    + destruct (H1 _ Hin) as (o' & Ho & ->). exists o'. split; [done|]. rewrite Hout; [done|].
      intros ->. done.
  - apply not_elem_of_cons in Hk' as [Hne Hni]. by rewrite (H2 _ Hni), Hout.
Qed.

Lemma mapRun_ok (f : value -> run value) l ws :
  mapRun f l = Some (Ok ws) <-> Forall2 (fun v w => f v = Some (Ok w)) l ws.
Proof.
  revert ws. induction l as [|v l IH]; intros ws; cbn.
  { split; [intros [= <-]; constructor|]. intros Hf. by inversion Hf. }
  split.
  - destruct (f v) as [[w|e]|] eqn:E; cbn; [|done|done].
    destruct (mapRun f l) as [[ws'|e]|] eqn:E'; cbn; [|done|done].
    intros [= <-]. constructor; [done|]. by apply IH.
  - intros Hf. inversion Hf as [|? w ? ws' Hw Hws]; subst. rewrite Hw. cbn.
    apply IH in Hws. by rewrite Hws.
Qed.

Lemma arms_ok (f : node -> run value) one l fe hit (i : nat) w :
  arms_loop f one l fe hit i = Some (Ok w) ->
  (exists a, a ∈ l /\ f a = Some (Ok w)) \/ (i = 1%nat /\ w = hit).
Proof.
  revert fe hit i. induction l as [|a l IH]; intros fe hit i; cbn.
  { destruct i as [|[|i]]; cbn; [done| |done]. intros [= ->]. auto. }
  destruct (f a) as [[u|e]|] eqn:E; [| |done].
  - destruct one.
    + intros Hl. apply IH in Hl as [(b & Hb & Hw)|[_ ->]]; left; eexists; split; try done; by constructor.
    + intros [= ->]. left. exists a. split; [constructor|done].
  - intros Hl. apply IH in Hl as [(b & Hb & Hw)|?]; [|auto]. left. exists b. split; [by constructor|done].
Qed.

Lemma union_ok (f : node -> run value) l one w :
  conformUnion f l one = Some (Ok w) -> exists a, a ∈ l /\ f a = Some (Ok w).
Proof. intros Hu. apply arms_ok in Hu as [?|[? _]]; done. Qed.

Lemma object_ok (f : node -> value -> run value) nf mode defs n m w :
  conformObject f nf mode defs n m = Some (Ok w) ->
  exists out, w = VObj out /\
    (forall k p, props n !! k = Some p ->
       conformProperty f nf mode defs n m k = Some (Ok (out !! k))) /\
    (forall k, props n !! k = None ->
       match AdditionalProperties n, m !! k with
       | Some a, Some _ => conformExtra f n m k = Some (Ok (out !! k))
       | _, _ => out !! k = None
       end).
Proof.
  unfold conformObject.
  destruct (build _ (sortedKeys (props n)) ∅) as [[o1|e]|] eqn:E1; cbn; [|done|done].
  apply build_ok in E1 as [P1 P2]; [|apply NoDup_sortedKeys].
  assert (Hdecl : forall k p, props n !! k = Some p ->
            conformProperty f nf mode defs n m k = Some (Ok (o1 !! k))).
  { intros k p Hp. destruct (P1 k) as (o & Ho & ->); [by apply elem_of_sortedKeys; exists p|].
    rewrite lookup_empty, Ho. by destruct o. }
  assert (Hundecl : forall k, props n !! k = None -> o1 !! k = None).
  { intros k Hk. rewrite P2; [apply lookup_empty|]. rewrite elem_of_sortedKeys, Hk. by intros [? ?]. }
  destruct (AdditionalProperties n) as [a|].
  2:{ cbn. intros [= <-]. exists o1. auto. }
  destruct (build (conformExtra f n m) (sortedKeys m) o1) as [[o2|e]|] eqn:E2; cbn; [|done|done].
  apply build_ok in E2 as [Q1 Q2]; [|apply NoDup_sortedKeys].
  intros [= <-]. exists o2. split; [done|]. split.
  - intros k p Hp. rewrite (Hdecl k p Hp). do 2 f_equal.
    destruct (decide (k ∈ sortedKeys m)) as [Hin|Hni]; [|by rewrite Q2].
    destruct (Q1 k Hin) as (o & Ho & ->). unfold conformExtra in Ho. rewrite Hp in Ho.
    injection Ho as <-. done.
  - intros k Hk. destruct (m !! k) as [x|] eqn:Hx.
    + destruct (Q1 k) as (o & Ho & ->); [by apply elem_of_sortedKeys; exists x|].
      rewrite (Hundecl k Hk). rewrite Ho. by destruct o.
    + rewrite Q2; [by apply Hundecl|]. rewrite elem_of_sortedKeys, Hx. by intros [? ?].
Qed.

(** What a strict conform does with a declared property. *)
Lemma property_ok (f : node -> value -> run value) nf defs n m k p o :
  props n !! k = Some p -> conformProperty f nf Strict defs n m k = Some (Ok o) ->
  match m !! k with
  | Some x => exists norm, f p x = Some (Ok norm) /\ o = Some norm
  | None =>
      isRequired n k = false /\
      (o = None \/ exists d norm, propDefault defs p = Some d /\ f p d = Some (Ok norm) /\ o = Some norm)
  end.
Proof.
  intros Hp. unfold conformProperty. rewrite Hp. destruct (m !! k) as [x|].
  - rewrite decide_False by (intros [? _]; done).
    destruct (f p x) as [[norm|e]|]; cbn; [|done|done]. intros [= <-]. eauto.
  - destruct (isRequired n k); cbn; [done|]. intros Hf. split; [done|].
    destruct (propDefault defs p) as [d|]; [|injection Hf as <-; auto].
    destruct (f p d) as [[norm|e]|] eqn:Ef; cbn in Hf; [|done|done]. injection Hf as <-.
    right. by exists d, norm.
Qed.

Lemma extra_ok (f : node -> value -> run value) n m k a x o :
  props n !! k = None -> AdditionalProperties n = Some a -> m !! k = Some x ->
  conformExtra f n m k = Some (Ok o) -> exists norm, f a x = Some (Ok norm) /\ o = Some norm.
Proof.
  intros Hk Ha Hx. unfold conformExtra. rewrite Hk, Ha, Hx.
  destruct (f a x) as [[norm|e]|]; cbn; [|done|done]. intros [= <-]. eauto.
Qed.

(** * What the walk answers *)

Definition isScalar v : bool :=
  match v with VArr _ | VObj _ => false | _ => true end.

(** An enumeration of scalars: on any other, the walk compares the value before it
    strips it. *)
Definition scalarEnum n : Prop := Forall (fun v => isScalar v = true) (entries (Enum n)).

Lemma scalarEnum_has n v :
  scalarEnum n -> isScalar v = false -> enumContains (entries (Enum n)) v = true -> entries (Enum n) = [].
Proof.
  intros Hs Hv He. apply existsb_exists in He as (e & Hin & He).
  apply list_elem_of_In in Hin. apply (proj1 (Forall_forall _ _) Hs) in Hin.
  assert (Heq : Equal e v = false).
  { unfold Equal, Compare. destruct v; try done; by destruct (decimal e). }
  rewrite Heq in He. apply bool_decide_eq_true in He as ->. congruence.
Qed.

(** The plain node case of the walk. *)
Definition conformPlain (fuel : nat) mode defs r v : run value :=
  let below a w := conformGuard fuel mode defs a w ∅ in
  if negb (checkType r v) then fail WrongType else
  if match entries (Enum r) with [] => false | e => negb (enumContains e v) end then fail NotInEnum else
  match v with
  | VNull => done VNull
  | VObj m => if isObjectSchema r then conformObject below (hasNullResolved fuel defs) mode defs r m else done v
  | VArr l => if isArraySchema r then conformArray below r l else done v
  | _ => match checkScalar r v with Err e => fail e | Ok _ => done v end
  end.

(** One step of the walk, by the shape of the node it stands on. *)
Lemma conform_step fuel mode defs n v vis :
  conformGuard (S fuel) mode defs n v vis =
  match deref defs n with
  | Err e => fail (BadRef e)
  | Ok (r, o) =>
      if match o with Some k => bool_decide (k ∈ vis) | None => false end then fail RefCycle else
      let vis := match o with Some k => {[k]} ∪ vis | None => vis end in
      if isEmptyNode r then done v else
      match arms r with
      | [] => conformPlain fuel mode defs r v
      | l => conformUnion (fun a => conformGuard fuel mode defs a v vis) l
               match entries (AnyOf r) with [] => true | _ => false end
      end
  end.
Proof.
  cbn [conformGuard]. destruct (deref defs n) as [[r o]|e]; [|done].
  destruct (match o with Some _ => _ | None => _ end); [done|]. destruct (isEmptyNode r); [done|].
  unfold arms. destruct (entries (AnyOf r)); [|done]. by destruct (entries (OneOf r)).
Qed.

Lemma plain_enum_ok r v :
  match entries (Enum r) with [] => false | e => negb (enumContains e v) end = false <->
  entries (Enum r) = [] \/ enumContains (entries (Enum r)) v = true.
Proof.
  destruct (entries (Enum r)); [tauto|]. rewrite negb_false_iff. split; [auto|]. by intros [?|?].
Qed.

Section Strictly.
Context (defs : defs_t) (Hpool : pool_each scalarEnum defs).

(** The two answers of a walk on fuel [fuel], at any node and value. *)
Definition answers_ok (fuel : nat) : Prop := forall n v vis w,
  each scalarEnum n -> conformGuard fuel Strict defs n v vis = Some (Ok w) ->
  has defs n w /\ accepts defs n v.

Lemma object_has fuel n r o m w :
  answers_ok fuel -> each scalarEnum r -> deref defs n = Ok (r, o) -> isEmptyNode r = false ->
  arms r = [] -> checkType r (VObj m) = true ->
  (entries (Enum r) = [] \/ enumContains (entries (Enum r)) (VObj m) = true) ->
  isObjectSchema r = true ->
  conformObject (fun a w => conformGuard fuel Strict defs a w ∅) (hasNullResolved fuel defs) Strict defs r m
    = Some (Ok w) ->
  has defs n w /\ accepts defs n (VObj m).
Proof using Hpool.
  intros IH Hr Hd He Ha Ht Hen Hobj Hw. apply object_ok in Hw as (out & -> & Hdecl & Hextra).
  assert (Hprop : forall k p, props r !! k = Some p -> each scalarEnum p).
  { intros k p Hp. eapply each_child; [done|]. by eapply child_prop. }
  assert (Hadd : forall a, AdditionalProperties r = Some a -> each scalarEnum a).
  { intros a Hp. eapply each_child; [done|]. by apply child_extra. }
  assert (Hnil : enumContains (entries (Enum r)) (VObj m) = true -> entries (Enum r) = []).
  { apply scalarEnum_has; [|done]. by apply each_self in Hr. }
  split; eapply sat_plain; try done.
  - split; cbn; try done; [destruct Hen; auto|].
    + intros m' k [= <-] _ Hq [p Hp]. pose proof (Hdecl k p Hp) as Hk.
      apply property_ok with (p := p) in Hk; [|done]. destruct (m !! k).
      * destruct Hk as (norm & _ & ->). by eexists.
      * destruct Hk as [Hk _]. congruence.
  - intros m' k p x [= <-] _ Hp Hx. pose proof (Hdecl k p Hp) as Hk. rewrite Hx in Hk.
    apply property_ok with (p := p) in Hk; [|done]. destruct (m !! k) as [y|].
    + destruct Hk as (norm & Hf & [= <-]). eapply IH; eauto.
    + destruct Hk as (_ & [Hk|(d & norm & _ & Hf & [= <-])]); [done|]. eapply IH; eauto.
  - intros m' k a x [= <-] _ Hp Hae Hx. pose proof (Hextra k Hp) as Hk. rewrite Hae, Hx in Hk.
    destruct (m !! k) as [y|] eqn:Hy; [|done].
    apply extra_ok with (a := a) (x := y) in Hk as (norm & Hf & [= <-]); [|done..]. eapply IH; eauto.
  - intros _ m' k [= <-] _ Hae [x Hx]. destruct (props r !! k) eqn:Hp; [by eexists|].
    pose proof (Hextra k Hp) as Hk. rewrite Hae in Hk. congruence.
  - split; cbn; try done.
    intros m' k [= <-] _ Hq [p Hp]. pose proof (Hdecl k p Hp) as Hk.
    apply property_ok with (p := p) in Hk; [|done]. destruct (m !! k); [by eexists|].
    destruct Hk as [Hk _]. congruence.
  - intros m' k p x [= <-] _ Hp Hx. pose proof (Hdecl k p Hp) as Hk.
    apply property_ok with (p := p) in Hk; [|done]. rewrite Hx in Hk.
    destruct Hk as (norm & Hf & _). eapply IH; eauto.
  - intros m' k a x [= <-] _ Hp Hae Hx. pose proof (Hextra k Hp) as Hk. rewrite Hae, Hx in Hk.
    apply extra_ok with (a := a) (x := x) in Hk as (norm & Hf & _); [|done..]. eapply IH; eauto.
Qed.

Lemma array_has fuel n r o l w :
  answers_ok fuel -> each scalarEnum r -> deref defs n = Ok (r, o) -> isEmptyNode r = false ->
  arms r = [] -> checkType r (VArr l) = true ->
  (entries (Enum r) = [] \/ enumContains (entries (Enum r)) (VArr l) = true) ->
  isArraySchema r = true ->
  conformArray (fun a w => conformGuard fuel Strict defs a w ∅) r l = Some (Ok w) ->
  has defs n w /\ accepts defs n (VArr l).
Proof using Hpool.
  intros IH Hr Hd He Ha Ht Hen Harr. unfold conformArray.
  destruct (checkCount r l) as [u|e] eqn:Hc; [|done]. destruct u.
  destruct (mapRun _ l) as [[ws|e]|] eqn:Hws; cbn; [|done|done]. intros [= <-].
  apply mapRun_ok in Hws.
  assert (Hlen : length l = length ws) by (by eapply Forall2_length).
  assert (Hitems : forall a, Items r = Some a -> Forall2 (fun x y => has defs a y /\ accepts defs a x) l ws).
  { intros a Hi. eapply Forall2_impl; [done|]. cbn. rewrite Hi. intros x y Hxy. eapply IH; [|done].
    eapply each_child; [done|]. by apply child_item. }
  split; eapply sat_plain; try done.
  - split; cbn; try done.
    + destruct Hen; [auto|]. left. apply (scalarEnum_has _ (VArr l)); [|done|done]. by apply each_self in Hr.
    + intros l' [= <-] _. unfold checkCount in *. rewrite <- Hlen. by rewrite Hc.
  - intros l' a x [= <-] Hi Hx. apply Hitems in Hi.
    apply list_elem_of_lookup in Hx as [i Hx]. destruct (Forall2_lookup_r _ _ _ _ _ Hi Hx) as (y & _ & Hy & _).
    done.
  - split; cbn; try done. intros l' [= <-] _. by rewrite Hc.
  - intros l' a x [= <-] Hi Hx. apply Hitems in Hi.
    apply list_elem_of_lookup in Hx as [i Hx]. destruct (Forall2_lookup_l _ _ _ _ _ Hi Hx) as (y & _ & _ & Hy).
    done.
Qed.

Lemma scalar_has n r o v :
  deref defs n = Ok (r, o) -> isEmptyNode r = false -> arms r = [] -> checkType r v = true ->
  (entries (Enum r) = [] \/ enumContains (entries (Enum r)) v = true) ->
  is_ok (checkScalar r v) = true ->
  (forall m, v = VObj m -> isObjectSchema r = false) -> (forall l, v = VArr l -> isArraySchema r = false) ->
  has defs n v /\ accepts defs n v.
Proof using.
  intros Hd He Ha Ht Hen Hs Hobj Harr.
  assert (Hi : forall l a, v = VArr l -> Items r = Some a -> False).
  { intros l a Hv Hi. apply Harr in Hv. unfold isArraySchema in Hv. by rewrite Hi in Hv. }
  split; eapply sat_plain; try done;
    try (intros m k ? ? Hv Ho; apply Hobj in Hv; congruence);
    try (intros l a ? Hv Hit; exfalso; by eapply Hi);
    try (intros _ m k Hv Ho; apply Hobj in Hv; congruence);
    (split; try done; [intros m k Hv Ho; apply Hobj in Hv; congruence|intros l Hv Ho; apply Harr in Hv; congruence]).
Qed.

Lemma conform_answers fuel : answers_ok fuel.
Proof using Hpool.
  induction fuel as [|fuel IH]; intros n v vis w Hn; [done|]. rewrite conform_step.
  destruct (deref defs n) as [[r o]|e] eqn:Hd; [|done].
  destruct (match o with Some k => bool_decide (k ∈ vis) | None => false end); [done|].
  pose proof (each_deref _ _ _ _ _ Hpool Hn Hd) as Hr.
  destruct (isEmptyNode r) eqn:He; [intros [= <-]; split; by eapply sat_any|].
  destruct (arms r) as [|a0 l] eqn:Ha.
  - unfold conformPlain. destruct (checkType r v) eqn:Ht; cbn [negb]; [|done].
    destruct (match entries (Enum r) with [] => false | _ => _ end) eqn:Hen; [done|].
    apply plain_enum_ok in Hen.
    assert (Hsc : isScalar v = true ->
              match checkScalar r v with Err e => fail e | Ok _ => done v end = Some (Ok w) ->
              has defs n w /\ accepts defs n v).
    { intros Hv. destruct (checkScalar r v) eqn:Hc; [|done]. intros [= <-].
      eapply scalar_has; try done; [by rewrite Hc|by intros ? ->..]. }
    destruct v; try (by apply Hsc).
    + destruct (isArraySchema r) eqn:Harr; [by eapply array_has|]. intros [= <-].
      eapply scalar_has; done.
    + destruct (isObjectSchema r) eqn:Hobj; [by eapply object_has|]. intros [= <-].
      eapply scalar_has; done.
  - intros Hu. apply union_ok in Hu as (a & Hin & Hu). apply IH in Hu as [H1 H2].
    + split; eapply sat_arm; try done; by rewrite Ha.
    + eapply each_child; [exact Hr|]. rewrite <- Ha in Hin. unfold arms in Hin.
      destruct (entries (AnyOf r)) eqn:Ey; [by apply child_oneOf|]. apply child_anyOf. by rewrite Ey.
Qed.

End Strictly.
(** * The walk ends *)

(** A computation on fuel that some fuel is enough for, and that more fuel leaves
    unchanged. *)
Record settled {A} (F : nat -> option A) : Prop := mkSettled {
  settled_mono : forall f f', (f <= f')%nat -> leq (F f) (F f');
  settled_ends : exists f z, F f = Some z }.

Lemma settled_const {A} (z : A) : settled (fun _ => Some z).
Proof. split; [intros; apply leq_refl|]. by exists O, z. Qed.

(** Sequencing, whatever the continuation. *)
Lemma settled_bind {A B} (F : nat -> option A) (G : A -> nat -> option B) :
  settled F -> (forall z f, F f = Some z -> settled (G z)) ->
  settled (fun f => match F f with Some z => G z f | None => None end).
Proof.
  intros [HF (f & z & Hz)] HG. split.
  - intros f1 f2 Hle y. destruct (F f1) as [u|] eqn:E; [|done]. rewrite (HF _ _ Hle _ E).
    by apply (settled_mono _ (HG u f1 E)).
  - destruct (settled_ends _ (HG z f Hz)) as (f' & y & Hy). exists (f `max` f')%nat, y.
    rewrite (HF f (f `max` f')%nat ltac:(lia) _ Hz).
    by apply (settled_mono _ (HG z f Hz) f' (f `max` f')%nat ltac:(lia)).
Qed.

Lemma settled_ext {A} (F G : nat -> option A) : (forall f, F f = G f) -> settled F -> settled G.
Proof.
  intros E [HF (f & z & Hz)]. split; [|by exists f, z; rewrite <- E].
  intros f1 f2 Hle. rewrite <- !E. by apply HF.
Qed.

Lemma settled_andThen {A B} (F : nat -> run A) (G : A -> nat -> run B) :
  settled F -> (forall z, settled (G z)) -> settled (fun f => andThen (F f) (fun z => G z f)).
Proof.
  intros HF HG.
  apply (settled_ext (fun f => match F f with Some z => match z with Ok x => G x f | Err e => fail e end
                                            | None => None end)).
  { intros f. unfold andThen. by destruct (F f) as [[]|]. }
  apply (settled_bind F (fun z f => match z with Ok x => G x f | Err e => fail e end)); [done|].
  intros [x|e] _ _; [apply HG|apply settled_const].
Qed.

Lemma settled_build (F : string -> nat -> run (option value)) ks out :
  (forall k, k ∈ ks -> settled (F k)) -> settled (fun f => build (fun k => F k f) ks out).
Proof.
  revert out. induction ks as [|k ks IH]; intros out HF; cbn [build]; [apply settled_const|].
  apply (settled_andThen (F k) (fun o f => build (fun k => F k f) ks match o with Some v => <[k := v]> out | None => out end)).
  - apply HF. constructor.
  - intros o. apply IH. intros k' Hk'. apply HF. by constructor.
Qed.

Lemma settled_mapRun (F : value -> nat -> run value) l :
  (forall v, v ∈ l -> settled (F v)) -> settled (fun f => mapRun (fun v => F v f) l).
Proof.
  induction l as [|v l IH]; intros HF; cbn [mapRun]; [apply settled_const|].
  apply (settled_andThen (F v) (fun w f => andThen (mapRun (fun v => F v f) l) (fun ws => done (w :: ws)))).
  - apply HF. constructor.
  - intros w. apply (settled_andThen (fun f => mapRun (fun v => F v f) l) (fun ws f => done (w :: ws))).
    + apply IH. intros v' Hv'. apply HF. by constructor.
    + intros. apply settled_const.
Qed.

Lemma settled_anyM {A} (F : A -> nat -> option bool) (l : list A) :
  (forall z, z ∈ l -> settled (F z)) -> settled (fun f => anyM (fun z => F z f) l).
Proof.
  induction l as [|z l IH]; intros HF; cbn [anyM]; [apply settled_const|].
  apply (settled_ext (fun f => match F z f with
           Some u => (if u : bool then Some true else anyM (fun z => F z f) l) | None => None end)).
  { intros f. by destruct (F z f) as [[]|]. }
  apply (settled_bind (F z) (fun (u : bool) f => if u then Some true else anyM (fun z => F z f) l)).
  - apply HF. constructor.
  - intros [] _ _; [apply settled_const|]. apply IH. intros z' Hz'. apply HF. by constructor.
Qed.

Lemma settled_arms (F : node -> nat -> run value) one l fe hit (i : nat) :
  (forall a, a ∈ l -> settled (F a)) -> settled (fun f => arms_loop (fun a => F a f) one l fe hit i).
Proof.
  revert fe hit i. induction l as [|a l IH]; intros fe hit i HF; cbn [arms_loop].
  { destruct i as [|[|i]]; apply settled_const. }
  assert (IH' : forall fe hit i, settled (fun f => arms_loop (fun a => F a f) one l fe hit i)).
  { intros. apply IH. intros a' Ha'. apply HF. by constructor. }
  apply (settled_ext (fun f => match F a f with Some z =>
           match z with Ok res => if one then arms_loop (fun a => F a f) one l fe res (S i) else done res
           | Err e => arms_loop (fun a => F a f) one l match fe with None => Some e | Some _ => fe end hit i end
           | None => None end)).
  { intros f. by destruct (F a f) as [[]|]. }
  apply (settled_bind (F a) (fun z f =>
           match z with Ok res => if one then arms_loop (fun a => F a f) one l fe res (S i) else done res
           | Err e => arms_loop (fun a => F a f) one l match fe with None => Some e | Some _ => fe end hit i end)).
  - apply HF. constructor.
  - intros [res|e] _ _; [|apply IH']. destruct one; [apply IH'|apply settled_const].
Qed.

(** The definitions of the pool not expanded yet. *)
Definition unvisited defs (vis : gset string) : nat := size (dom defs ∖ vis).

Lemma shrinks (U vis : gset string) k :
  k ∈ U -> k ∉ vis -> (size (U ∖ ({[k]} ∪ vis)) < size (U ∖ vis))%nat.
Proof. intros. apply subset_size. set_solver. Qed.

Lemma unvisited_lt defs vis k r :
  defs !! k = Some r -> k ∉ vis -> (unvisited defs ({[k]} ∪ vis) < unvisited defs vis)%nat.
Proof.
  intros Hk Hv. apply shrinks; [|done]. apply (elem_of_dom (M:=gmap string) (D:=gset string)). by exists r.
Qed.

(** Where a walk goes from a node, at the same place of the value: to a definition not
    expanded yet, or to a smaller node. *)
Lemma here_decreases defs n vis r o a :
  deref defs n = Ok (r, o) -> match o with Some k => bool_decide (k ∈ vis) | None => false end = false ->
  a ∈ children r ->
  let vis' := match o with Some k => {[k]} ∪ vis | None => vis end in
  (unvisited defs vis' < unvisited defs vis)%nat \/
  (o = None /\ (length (nodes a) < length (nodes n))%nat).
Proof.
  intros Hd Hv Ha. apply deref_spec in Hd as (_ & [(_ & -> & ->)|(_ & k & -> & Hk)]); cbn.
  - right. split; [done|]. by apply nodes_child in Ha as [_ ?].
  - left. apply bool_decide_eq_false in Hv. by eapply unvisited_lt.
Qed.

Lemma settled_succ {A} (F : nat -> option A) :
  (forall f f', (f <= f')%nat -> leq (F f) (F f')) -> settled (fun f => F (S f)) -> settled F.
Proof. intros Hm [_ (f & z & Hz)]. split; [done|]. by exists (S f), z. Qed.

Lemma settled_hasNull defs n vis : settled (fun f => hasNullGuard f defs n vis).
Proof.
  remember (unvisited defs vis) as u eqn:Eu. revert vis n Eu.
  induction (lt_wf u) as [u _ IHu]. intros vis n Eu.
  remember (length (nodes n)) as s eqn:Es. revert n Es.
  induction (lt_wf s) as [s _ IHs]. intros n Es.
  apply settled_succ; [intros; by apply leq_hasNull|]. cbn [hasNullGuard].
  destruct (deref defs n) as [[r o]|] eqn:Hd; [|apply settled_const].
  destruct (hasNullType r); [apply settled_const|].
  destruct (match o with Some k => bool_decide (k ∈ vis) | None => false end) eqn:Hv; [apply settled_const|].
  apply (settled_anyM (fun a f => hasNullGuard f defs a _)). intros a Ha.
  assert (Hc : a ∈ children r).
  { apply elem_of_app in Ha as [Ha|Ha]; [by apply child_oneOf|by apply child_anyOf]. }
  destruct (here_decreases _ _ _ _ _ _ Hd Hv Hc) as [Hlt|[-> Hlt]].
  - eapply IHu; [|reflexivity]. by rewrite Eu.
  - eapply IHs; [|reflexivity]. by rewrite Es.
Qed.

Section Ending.
Context (mode : ConformMode) (defs : defs_t) (good : node -> Prop).
Context (good_child : forall n c, good n -> c ∈ children n -> good c).
Context (good_deref : forall n r o, good n -> deref defs n = Ok (r, o) -> good r).

Definition ends n v vis : Prop := settled (fun f => conformGuard f mode defs n v vis).

(** A value directly inside another. *)
Definition inside v w : Prop :=
  match w with
  | VArr l => v ∈ l
  | VObj m => exists k, m !! k = Some v
  | _ => False
  end.

(** A walk ends at a value when it ends at what is inside it and at the defaults an
    object may take. *)
Definition below_ends v : Prop :=
  (forall a w, good a -> inside w v -> ends a w ∅) /\
  (forall m, v = VObj m -> mode = Strict ->
   forall a d, good a -> propDefault defs a = Some d -> ends a d ∅).

Lemma property_settled n m k :
  good n -> below_ends (VObj m) ->
  settled (fun f => conformProperty (fun a w => conformGuard f mode defs a w ∅) (hasNullResolved f defs)
                      mode defs n m k).
Proof using good_child.
  intros Hn [Hin Hdef]. unfold conformProperty.
  destruct (props n !! k) as [p|] eqn:Hp; [|apply settled_const].
  assert (Hgp : good p) by (eapply good_child; [done|by eapply child_prop]).
  destruct (m !! k) as [x|] eqn:Hx.
  - assert (Hk : settled (fun f => andThen (conformGuard f mode defs p x ∅) (fun norm => done (Some norm)))).
    { apply (settled_andThen (fun f => conformGuard f mode defs p x ∅) (fun norm f => done (Some norm)));
        [|intros; apply settled_const]. apply Hin; [done|]. by exists k. }
    case_decide; [|done].
    apply (settled_bind (fun f => hasNullResolved f defs p) (fun (u : bool) f => if u then andThen (conformGuard f mode defs p x ∅) (fun norm => done (Some norm)) else done None));
      [apply settled_hasNull|]. intros [] _ _; [exact Hk|apply settled_const].
  - destruct (isRequired n k); [case_decide; [|apply settled_const]|].
    + apply (settled_bind (fun f => hasNullResolved f defs p)
        (fun (u : bool) f => if u then done (Some VNull) else fail (MissingRequired k))); [apply settled_hasNull|].
      intros [] _ _; apply settled_const.
    + destruct (propDefault defs p) as [d|] eqn:Hd; [|apply settled_const].
      case_decide as Hm; [|apply settled_const].
      apply (settled_bind (fun f => conformGuard f mode defs p d ∅)
        (fun z f => match z with Ok norm => done (Some norm) | Err e => fail (BadDefault e) end)).
      * by apply (Hdef m).
      * intros [] _ _; apply settled_const.
Qed.

Lemma extra_settled n m k :
  good n -> below_ends (VObj m) ->
  settled (fun f => conformExtra (fun a w => conformGuard f mode defs a w ∅) n m k).
Proof using good_child.
  intros Hn [Hin _]. unfold conformExtra. destruct (props n !! k); [apply settled_const|].
  destruct (AdditionalProperties n) as [a|] eqn:Ha; [|apply settled_const].
  destruct (m !! k) as [x|] eqn:Hx; [|apply settled_const].
  apply (settled_andThen (fun f => conformGuard f mode defs a x ∅) (fun norm f => done (Some norm)));
    [|intros; apply settled_const].
  apply Hin; [|by exists k]. eapply good_child; [done|]. by apply child_extra.
Qed.

Lemma object_settled n m :
  good n -> below_ends (VObj m) ->
  settled (fun f => conformObject (fun a w => conformGuard f mode defs a w ∅) (hasNullResolved f defs)
                      mode defs n m).
Proof using good_child.
  intros Hn Hb. unfold conformObject.
  apply (settled_andThen
    (fun f => build (conformProperty (fun a w => conformGuard f mode defs a w ∅) (hasNullResolved f defs) mode defs n m)
                (sortedKeys (props n)) ∅)
    (fun out f => andThen match AdditionalProperties n with
       | Some _ => build (conformExtra (fun a w => conformGuard f mode defs a w ∅) n m) (sortedKeys m) out
       | None => done out end (fun out => done (VObj out)))).
  - apply (settled_build (fun k f => conformProperty _ _ mode defs n m k)). intros k _. by apply property_settled.
  - intros out. apply (settled_andThen (fun f => match AdditionalProperties n with
       | Some _ => build (conformExtra (fun a w => conformGuard f mode defs a w ∅) n m) (sortedKeys m) out
       | None => done out end) (fun out f => done (VObj out))); [|intros; apply settled_const].
    destruct (AdditionalProperties n); [|apply settled_const].
    apply (settled_build (fun k f => conformExtra _ n m k)). intros k _. by apply extra_settled.
Qed.

Lemma array_settled n l :
  good n -> below_ends (VArr l) ->
  settled (fun f => conformArray (fun a w => conformGuard f mode defs a w ∅) n l).
Proof using good_child.
  intros Hn [Hin _]. unfold conformArray. destruct (checkCount n l); [|apply settled_const].
  apply (settled_andThen (fun f => mapRun (fun el => match Items n with Some i => conformGuard f mode defs i el ∅
     | None => done el end) l) (fun out f => done (VArr out))); [|intros; apply settled_const].
  apply (settled_mapRun (fun el f => match Items n with Some i => conformGuard f mode defs i el ∅ | None => done el end)).
  intros el Hel. destruct (Items n) as [i|] eqn:Hi; [|apply settled_const].
  apply Hin; [|done]. eapply good_child; [done|]. by apply child_item.
Qed.

Lemma plain_settled r v :
  good r -> below_ends v -> settled (fun f => conformPlain f mode defs r v).
Proof using good_child.
  intros Hr Hb. unfold conformPlain. destruct (negb (checkType r v)); [apply settled_const|].
  destruct (match entries (Enum r) with [] => _ | _ => _ end); [apply settled_const|].
  destruct v; try apply settled_const; try (destruct (checkScalar r _); apply settled_const).
  - destruct (isArraySchema r); [by apply array_settled|apply settled_const].
  - destruct (isObjectSchema r); [by apply object_settled|apply settled_const].
Qed.

Lemma conform_ends_here v : below_ends v -> forall vis n, good n -> ends n v vis.
Proof using good_child good_deref.
  intros Hb vis. remember (unvisited defs vis) as u eqn:Eu. revert vis Eu.
  induction (lt_wf u) as [u _ IHu]. intros vis Eu n.
  remember (length (nodes n)) as s eqn:Es. revert n Es.
  induction (lt_wf s) as [s _ IHs]. intros n Es Hn.
  apply settled_succ; [intros; by apply leq_conform|].
  eapply settled_ext; [intros f; symmetry; apply conform_step|].
  destruct (deref defs n) as [[r o]|] eqn:Hd; [|apply settled_const].
  destruct (match o with Some k => bool_decide (k ∈ vis) | None => false end) eqn:Hv; [apply settled_const|].
  pose proof (good_deref _ _ _ Hn Hd) as Hr.
  destruct (isEmptyNode r); [apply settled_const|].
  destruct (arms r) as [|a0 l] eqn:Ha; [by apply plain_settled|].
  apply (settled_arms (fun a f => conformGuard f mode defs a v _)). intros a Hin.
  assert (Hc : a ∈ children r).
  { rewrite <- Ha in Hin. unfold arms in Hin. destruct (entries (AnyOf r)) eqn:Ey; [by apply child_oneOf|].
    apply child_anyOf. by rewrite Ey. }
  pose proof (good_child _ _ Hr Hc) as Hga.
  destruct (here_decreases _ _ _ _ _ _ Hd Hv Hc) as [Hlt|[-> Hlt]].
  - eapply IHu; [|reflexivity|done]. by rewrite Eu.
  - eapply IHs; [|reflexivity|done]. by rewrite Es.
Qed.

End Ending.
(** * Termination *)

Fixpoint vsize v : nat :=
  match v with
  | VArr l => S (sum_list (vsize <$> l))
  | VObj m => S (sum_list (map_to_list (vsize <$> m)).*2)
  | _ => 1
  end.

(** No object anywhere in the value. *)
Fixpoint flat v : bool :=
  match v with VArr l => forallb flat l | VObj _ => false | _ => true end.

Lemma sum_list_in (l : list nat) s : s ∈ l -> (s <= sum_list l)%nat.
Proof. induction 1; cbn; lia. Qed.

Lemma inside_vsize v w : inside w v -> (vsize w < vsize v)%nat.
Proof.
  destruct v; cbn; try done.
  - intros Hw. assert (vsize w ∈ vsize <$> l) as Hi by (by apply list_elem_of_fmap_2).
    apply sum_list_in in Hi. lia.
  - intros [k Hk]. assert (vsize w ∈ (map_to_list (vsize <$> m)).*2) as Hi.
    { apply list_elem_of_fmap. exists (k, vsize w). split; [done|]. apply elem_of_map_to_list.
      by rewrite lookup_fmap, Hk. }
    apply sum_list_in in Hi. lia.
Qed.

Lemma inside_flat v w : flat v = true -> inside w v -> flat w = true.
Proof.
  destruct v; cbn; try done. intros Hf Hw. rewrite forallb_forall in Hf. apply Hf. by apply list_elem_of_In.
Qed.

Section Totality.
Context (mode : ConformMode) (defs : defs_t) (good : node -> Prop).
Context (good_child : forall n c, good n -> c ∈ children n -> good c).
Context (good_deref : forall n r o, good n -> deref defs n = Ok (r, o) -> good r).
Context (good_default : forall n d, good n -> mode = Strict -> propDefault defs n = Some d -> flat d = true).

Lemma flat_ends v : flat v = true -> forall vis n, good n -> ends mode defs n v vis.
Proof using good_child good_deref.
  remember (vsize v) as s eqn:Es. revert v Es. induction (lt_wf s) as [s _ IH].
  intros v Es Hf. eapply conform_ends_here; [done|done|]. split.
  - intros a w Ha Hw. eapply IH; [|reflexivity|by eapply inside_flat|done].
    rewrite Es. by apply inside_vsize.
  - intros m ->. done.
Qed.

Lemma all_end v : forall vis n, good n -> ends mode defs n v vis.
Proof using good_child good_deref good_default.
  remember (vsize v) as s eqn:Es. revert v Es. induction (lt_wf s) as [s _ IH].
  intros v Es. eapply conform_ends_here; [done|done|]. split.
  - intros a w Ha Hw. eapply IH; [|reflexivity|done]. rewrite Es. by apply inside_vsize.
  - intros m -> Hm a d Ha Hd. apply flat_ends; [|done]. by eapply good_default.
Qed.
End Totality.

Definition flatDefault n : Prop := match Default n with Some d => flat d = true | None => True end.

Lemma flat_propDefault defs n d :
  pool_each flatDefault defs -> each flatDefault n -> propDefault defs n = Some d -> flat d = true.
Proof.
  intros Hp Hn. unfold propDefault. destruct (Default n) as [d'|] eqn:E.
  { intros [= <-]. apply each_self in Hn. unfold flatDefault in Hn. by rewrite E in Hn. }
  case_decide; [done|]. destruct (deref defs n) as [[r o]|] eqn:Hd; [|done]. intros Hr.
  pose proof (each_deref _ _ _ _ _ Hp Hn Hd) as Ht. apply each_self in Ht. unfold flatDefault in Ht.
  by rewrite Hr in Ht.
Qed.

(** A conform ends, whatever the schema and its reference cycles and whatever the
    value: a migration always, a strict check when no default holds an object (a
    default is conformed in its turn, and one that holds an object may take defaults). *)
Theorem conform_total mode defs n v :
  (mode = Strict -> pool_each flatDefault defs /\ each flatDefault n) ->
  exists fuel answer, Validate fuel defs n v mode = Some answer.
Proof.
  intros Hflat. assert (Hm : mode = Exactly \/ mode = Strict) by (destruct mode; auto).
  enough (Hs : ends mode defs n v ∅) by apply Hs. destruct Hm as [Hm|Hm].
  - apply (all_end mode defs (fun _ => True)); try done. by rewrite Hm.
  - destruct (Hflat Hm) as [Hp Hn]. apply (all_end mode defs (each flatDefault)); [| | |done].
    + intros n' c. apply each_child.
    + intros n' r o. by apply each_deref.
    + intros n' d Hn' _. by apply flat_propDefault.
Qed.

(** C17. What a strict conform answers is of the schema's type - every member present or
    not as declared, and nothing undeclared left in a closed object - and the document it was
    given was accepted by the schema, where every enumeration of the schema and of its
    definitions lists scalars only.  Of an enumeration that lists an object the walk can
    answer what is none of its members, for it compares before it drops members:
    [Compat.enum_before_strip]. *)
Theorem conform_sound fuel defs n v w :
  pool_each scalarEnum defs -> each scalarEnum n ->
  Validate fuel defs n v Strict = Some (Ok w) ->
  has defs n w /\ accepts defs n v.
Proof. intros Hp Hn Hw. by eapply conform_answers. Qed.

(** * The walk takes what the schema accepts *)

(** A finite set of computations has one fuel that is enough for all. *)
Lemma uniform {A B} (F : A -> nat -> option B) (P : A -> B -> Prop) (l : list A) :
  (forall z f f', (f <= f')%nat -> leq (F z f) (F z f')) ->
  (forall z, z ∈ l -> exists f y, F z f = Some y /\ P z y) ->
  exists f, forall z, z ∈ l -> exists y, F z f = Some y /\ P z y.
Proof.
  intros Hm. induction l as [|z l IH]; intros Hl.
  { exists O. intros z Hz. by apply not_elem_of_nil in Hz. }
  destruct (Hl z) as (f1 & y & Hy & HP); [constructor|].
  destruct IH as [f2 IH]; [intros z' Hz'; apply Hl; by constructor|].
  exists (f1 `max` f2)%nat. intros z' Hz'. apply elem_of_cons in Hz' as [->|Hz'].
  - exists y. split; [|done]. by apply (Hm z f1 (f1 `max` f2)%nat ltac:(lia)).
  - destruct (IH z' Hz') as (y' & Hy' & HP'). exists y'. split; [|done].
    by apply (Hm z' f2 (f1 `max` f2)%nat ltac:(lia)).
Qed.

Lemma build_total (f : string -> run (option value)) ks out :
  (forall k, k ∈ ks -> exists o, f k = Some (Ok o)) -> exists m, build f ks out = Some (Ok m).
Proof.
  revert out. induction ks as [|k ks IH]; intros out Hf; cbn [build]; [by eexists|].
  destruct (Hf k) as [o Ho]; [constructor|]. rewrite Ho. cbn. apply IH. intros k' Hk'. apply Hf. by constructor.
Qed.

Lemma mapRun_total (f : value -> run value) l :
  (forall v, v ∈ l -> exists w, f v = Some (Ok w)) -> exists ws, mapRun f l = Some (Ok ws).
Proof.
  induction l as [|v l IH]; intros Hf; cbn [mapRun]; [by eexists|].
  destruct (Hf v) as [w ->]; [constructor|].
  destruct IH as [ws ->]; [intros v' Hv'; apply Hf; by constructor|]. by eexists.
Qed.

Lemma anyOf_total (f : node -> run value) (l : list node) fe hit (i : nat) a w :
  (forall b, b ∈ l -> exists z, f b = Some z) -> a ∈ l -> f a = Some (Ok w) ->
  exists w', arms_loop f false l fe hit i = Some (Ok w').
Proof.
  intros Hall Ha Hw. revert fe. induction l as [|b l IH]; [by apply not_elem_of_nil in Ha|]. intros fe. cbn.
  destruct (Hall b) as [z Hz]; [constructor|]. rewrite Hz. destruct z as [u|e]; [by eexists|].
  apply elem_of_cons in Ha as [->|Ha]; [congruence|]. apply IH; [|done]. intros b' Hb'. apply Hall. by constructor.
Qed.

Lemma oneOf_refusals (f : node -> run value) (l : list node) fe hit (i : nat) :
  (forall b, b ∈ l -> exists e, f b = Some (Err e)) ->
  exists fe', arms_loop f true l fe hit i = arms_loop f true [] fe' hit i.
Proof.
  revert fe. induction l as [|b l IH]; intros fe Hall; [by exists fe|]. cbn [arms_loop].
  destruct (Hall b) as [e ->]; [constructor|]. apply IH. intros b' Hb'. apply Hall. by constructor.
Qed.

Lemma oneOf_total (f : node -> run value) (l1 : list node) a (l2 : list node) w :
  (forall b, b ∈ l1 ++ l2 -> exists e, f b = Some (Err e)) -> f a = Some (Ok w) ->
  arms_loop f true (l1 ++ a :: l2) None VNull 0 = Some (Ok w).
Proof.
  intros Hall Ha. generalize (@None conform_error). induction l1 as [|b l1 IH]; intros fe; cbn [arms_loop app].
  - rewrite Ha. destruct (oneOf_refusals f l2 fe w 1) as [fe' ->]; [by apply Hall|done].
  - destruct (Hall b) as [e ->]; [constructor|]. apply IH. intros b' Hb'. apply Hall. by constructor.
Qed.

(** No value is of two arms of the [oneOf]. *)
Definition exclusive defs n : Prop := forall l1 a l2 b v,
  entries (OneOf n) = l1 ++ a :: l2 -> b ∈ l1 ++ l2 -> accepts defs a v -> accepts defs b v -> False.

(** A default a property takes validates, as [checkDoc] has it. *)
Definition defaultFits defs n : Prop := forall d, propDefault defs n = Some d ->
  exists fuel w, Validate fuel defs n d Strict = Some (Ok w).

(** What a reading of the schema as types needs of a node. *)
Definition readable defs n : Prop := scalarEnum n /\ exclusive defs n /\ defaultFits defs n.

(** References that lead only downwards. *)
Definition acyclic (rank : string -> nat) defs : Prop := forall k r c,
  defs !! k = Some r -> c ∈ nodes r -> Ref c <> "" -> (rank (Ref c) < rank (refPrefix +:+ k))%nat.

(** References that lead downwards as long as the place in the value is the same: a
    recursion passes through a property or an item. *)
Definition productive (rank : string -> nat) defs : Prop := forall k r c,
  defs !! k = Some r -> c ∈ bares r -> Ref c <> "" -> (rank (Ref c) < rank (refPrefix +:+ k))%nat.

Lemma acyclic_productive rank defs : acyclic rank defs -> productive rank defs.
Proof. intros Ha k r c Hk Hc. apply (Ha k r c Hk). by apply bares_nodes. Qed.

(** The definitions in [vis] are all above [n]. *)
Definition above (rank : string -> nat) (vis : gset string) n : Prop := forall k c,
  k ∈ vis -> c ∈ bares n -> Ref c <> "" -> (rank (Ref c) < rank (refPrefix +:+ k))%nat.

Lemma nodes_trans n c a : c ∈ children n -> a ∈ nodes c -> a ∈ nodes n.
Proof. intros Hc Ha. apply nodes_child in Hc as [Hs _]. by eapply elem_of_submseteq. Qed.

Lemma arms_bare r a : a ∈ arms r -> a ∈ bare_children r.
Proof. unfold arms, bare_children. rewrite !elem_of_app. destruct (entries (AnyOf r)); tauto. Qed.

Section Ranked.
Context (rank : string -> nat) (defs : defs_t) (Hproductive : productive rank defs).

Lemma deref_from_rank fuel n at_ seen r k :
  deref_from fuel defs n at_ seen = Ok (r, Some k) -> Ref n <> "" ->
  (rank (refPrefix +:+ k) <= rank (Ref n))%nat.
Proof using Hproductive.
  revert n at_ seen. induction fuel as [|fuel IH]; intros n at_ seen; cbn [deref_from].
  { by case_decide. }
  case_decide as E; [done|]. destruct (match at_ with Some _ => _ | None => _ end); [done|].
  destruct (strip_prefix _ _) as [t|] eqn:Et; [|done]. apply strip_prefix_Some in Et.
  destruct (defs !! t) as [d|] eqn:Hd; [|done]. intros Hr _.
  destruct (decide (Ref d = "")) as [Hz|Hz].
  - apply deref_from_spec in Hr as (_ & [(_ & _ & [= ->])|(? & _)]); [by rewrite Et|done].
  - apply IH in Hr; [|done]. pose proof (Hproductive t d d Hd (bares_self d) Hz). rewrite Et. lia.
Qed.

(** Nothing below a node the walk stands on is being expanded. *)
Lemma step_above n vis r o :
  above rank vis n -> deref defs n = Ok (r, o) ->
  match o with Some k => bool_decide (k ∈ vis) | None => false end = false /\
  forall a, a ∈ bare_children r -> above rank match o with Some k => {[k]} ∪ vis | None => vis end a.
Proof using Hproductive.
  intros Hab Hd. pose proof Hd as Hs. apply deref_spec in Hs as (_ & [(_ & -> & ->)|(Hn & k & -> & Hk)]).
  - split; [done|]. intros a Ha k c Hk Hc. apply Hab; [done|]. by eapply bares_child.
  - pose proof (deref_from_rank _ _ _ _ _ _ Hd Hn) as Hrank. split.
    + apply bool_decide_eq_false. intros Hin. pose proof (Hab k n Hin (bares_self n) Hn). lia.
    + intros a Ha k' c Hk' Hc Hcr. assert (Hcn : c ∈ bares r) by (by eapply bares_child).
      pose proof (Hproductive _ _ _ Hk Hcn Hcr).
      apply elem_of_union in Hk' as [->%elem_of_singleton|Hk']; [done|].
      pose proof (Hab k' n Hk' (bares_self n) Hn). lia.
Qed.

Lemma above_empty n : above rank ∅ n.
Proof using. intros k c Hk. by apply not_elem_of_empty in Hk. Qed.

End Ranked.

Section Complete.
Context (rank : string -> nat) (defs : defs_t) (Hproductive : productive rank defs).
Context (Hpool : pool_each (readable defs) defs).

Lemma readable_ends v : forall vis n, each (readable defs) n -> ends Strict defs n v vis.
Proof using Hpool.
  remember (vsize v) as s eqn:Es. revert v Es. induction (lt_wf s) as [s _ IH].
  intros v Es. apply (conform_ends_here Strict defs (each (readable defs))).
  { intros n c. apply each_child. }
  { intros n r o. by apply each_deref. }
  split.
  - intros a w Ha Hw. eapply IH; [|reflexivity|done]. rewrite Es. by apply inside_vsize.
  - intros m _ _ a d Ha Hd. apply each_self in Ha as (_ & _ & Ha). destruct (Ha d Hd) as (f & w & Hw).
    split; [intros; by apply leq_conform|]. by exists f, (Ok w).
Qed.

(** At some fuel the walk takes [v]. *)
Definition takes n v vis : Prop := exists fuel w, conformGuard fuel Strict defs n v vis = Some (Ok w).

Lemma takes_succ n v vis :
  (exists fuel w, conformGuard (S fuel) Strict defs n v vis = Some (Ok w)) -> takes n v vis.
Proof using. intros (f & w & Hw). by exists (S f), w. Qed.

Lemma union_takes r v vis a :
  each (readable defs) r -> a ∈ arms r -> accepts defs a v -> takes a v vis ->
  exists fuel w, conformUnion (fun a => conformGuard fuel Strict defs a v vis) (arms r)
                   match entries (AnyOf r) with [] => true | _ => false end = Some (Ok w).
Proof using Hpool.
  intros Hr Ha Hacc (fa & w & Hw).
  assert (Hgood : forall b, b ∈ arms r -> each (readable defs) b).
  { intros b Hb. eapply each_child; [done|]. unfold arms in Hb.
    destruct (entries (AnyOf r)) eqn:Ey; [by apply child_oneOf|]. apply child_anyOf. by rewrite Ey. }
  destruct (uniform (fun b f => conformGuard f Strict defs b v vis) (fun _ _ => True) (arms r)) as [f0 Hf0].
  { intros b f f' Hle. by apply leq_conform. }
  { intros b Hb. destruct (readable_ends v vis b (Hgood b Hb)) as [_ (f & z & Hz)]. by exists f, z. }
  set (f := (f0 `max` fa)%nat). exists f.
  assert (Hf : forall b, b ∈ arms r -> exists z, conformGuard f Strict defs b v vis = Some z).
  { intros b Hb. destruct (Hf0 b Hb) as (z & Hz & _). exists z. revert Hz. apply leq_conform. lia. }
  apply (leq_conform fa f) in Hw; [|lia].
  unfold conformUnion. destruct (entries (AnyOf r)) as [|a0 l0] eqn:Ey.
  - assert (Ho : arms r = entries (OneOf r)) by (unfold arms; by rewrite Ey). rewrite Ho in *.
    apply list_elem_of_split in Ha as (l1 & l2 & El). exists w. rewrite El. apply oneOf_total; [|done].
    intros b Hb. assert (Hbl : b ∈ entries (OneOf r)) by (rewrite El, elem_of_app, elem_of_cons; apply elem_of_app in Hb as [?|?]; auto).
    destruct (Hf b Hbl) as ([u|e] & Hu); [|by eexists]. exfalso.
    apply conform_answers in Hu as [_ Hu].
    + apply each_self in Hr as (_ & Hex & _). by eapply Hex.
    + intros k c Hk. eapply Forall_impl; [exact (Hpool k c Hk)|]. by intros ? [? _].
    + eapply Forall_impl; [exact (Hgood b Hbl)|]. by intros ? [? _].
  - by eapply anyOf_total.
Qed.

(** A member the walk takes at its own place. *)
Definition memberTakes (m : gmap string value) r : Prop :=
  (forall k p x, props r !! k = Some p -> m !! k = Some x -> takes p x ∅) /\
  (forall k a x, props r !! k = None -> AdditionalProperties r = Some a -> m !! k = Some x -> takes a x ∅).

Lemma object_takes r m :
  each (readable defs) r -> plainOk r (VObj m) -> isObjectSchema r = true -> memberTakes m r ->
  exists fuel w, conformObject (fun a w => conformGuard fuel Strict defs a w ∅) (hasNullResolved fuel defs)
                   Strict defs r m = Some (Ok w).
Proof using Hpool.
  intros Hr Hok Hobj [Hp Ha].
  set (isOk := fun (_ : string) (z : result conform_error (option value)) => exists o, z = Ok o).
  destruct (uniform (fun k f => conformProperty (fun a w => conformGuard f Strict defs a w ∅)
              (hasNullResolved f defs) Strict defs r m k) isOk (sortedKeys (props r))) as [f1 H1].
  { intros k f f' Hle. apply leq_conformProperty; intros; [by apply leq_conform|by apply leq_hasNull]. }
  { intros k Hk. apply elem_of_sortedKeys in Hk as [p Hk]. unfold conformProperty. rewrite Hk.
    destruct (m !! k) as [x|] eqn:Hx.
    - destruct (Hp k p x Hk Hx) as (f & w & Hw). exists f. rewrite decide_False by (intros [? _]; done).
      rewrite Hw. by eexists; split; [|eexists].
    - destruct (isRequired r k) eqn:Hq.
      { destruct (plain_required _ _ Hok m k eq_refl Hobj Hq) as [? ?]; [by eexists|congruence]. }
      destruct (propDefault defs p) as [d|] eqn:Hd; [|by exists O; eexists; split; [|eexists]].
      assert (Hpr : each (readable defs) p) by (eapply each_child; [done|by eapply child_prop]).
      apply each_self in Hpr as (_ & _ & Hpr). destruct (Hpr d Hd) as (f & w & Hw).
      exists f. cbn. unfold Validate in Hw. rewrite Hw. by eexists; split; [|eexists]. }
  destruct (uniform (fun k f => conformExtra (fun a w => conformGuard f Strict defs a w ∅) r m k) isOk
              (sortedKeys m)) as [f2 H2].
  { intros k f f' Hle. apply leq_conformExtra. intros. by apply leq_conform. }
  { intros k Hk. apply elem_of_sortedKeys in Hk as [x Hx]. unfold conformExtra. rewrite Hx.
    destruct (props r !! k) eqn:Hk; [by exists O; eexists; split; [|eexists]|].
    destruct (AdditionalProperties r) as [a|] eqn:Had; [|by exists O; eexists; split; [|eexists]].
    destruct (Ha k a x Hk eq_refl Hx) as (f & w & Hw). exists f. rewrite Hw. by eexists; split; [|eexists]. }
  exists (f1 `max` f2)%nat. unfold conformObject.
  edestruct (build_total (conformProperty (fun a w => conformGuard (f1 `max` f2) Strict defs a w ∅)
    (hasNullResolved (f1 `max` f2) defs) Strict defs r m) (sortedKeys (props r)) ∅) as [o1 Ho1].
  { intros k Hk. destruct (H1 k Hk) as (z & Hz & o & ->). exists o. revert Hz.
    apply leq_conformProperty; intros; [apply leq_conform|apply leq_hasNull]; lia. }
  rewrite Ho1. cbn. destruct (AdditionalProperties r) eqn:Had; [|by eexists].
  edestruct (build_total (conformExtra (fun a w => conformGuard (f1 `max` f2) Strict defs a w ∅) r m)
    (sortedKeys m) o1) as [o2 Ho2].
  { intros k Hk. destruct (H2 k Hk) as (z & Hz & o & ->). exists o. revert Hz.
    apply leq_conformExtra. intros. apply leq_conform. lia. }
  rewrite Ho2. by eexists.
Qed.

Lemma array_takes r l :
  plainOk r (VArr l) -> isArraySchema r = true ->
  (forall a x, Items r = Some a -> x ∈ l -> takes a x ∅) ->
  exists fuel w, conformArray (fun a w => conformGuard fuel Strict defs a w ∅) r l = Some (Ok w).
Proof using.
  intros Hok Harr Hi.
  destruct (uniform (fun x f => match Items r with Some i => conformGuard f Strict defs i x ∅ | None => done x end)
              (fun _ z => exists w, z = Ok w) l) as [f Hf].
  { intros x f f' Hle. destruct (Items r); [by apply leq_conform|apply leq_refl]. }
  { intros x Hx. destruct (Items r) as [i|]; [|by exists O; eexists; split; [|eexists]].
    destruct (Hi i x eq_refl Hx) as (f & w & Hw). exists f. rewrite Hw. by eexists; split; [|eexists]. }
  exists f. unfold conformArray. pose proof (plain_count _ _ Hok l eq_refl Harr) as Hc.
  destruct (checkCount r l); [|done].
  assert (Hws : exists ws, mapRun (fun el => match Items r with
     Some i => conformGuard f Strict defs i el ∅ | None => done el end) l = Some (Ok ws)).
  { apply mapRun_total. intros x Hx. destruct (Hf x Hx) as (z & Hz & w & ->). by exists w. }
  destruct Hws as [ws ->]. by eexists.
Qed.

Lemma accepts_takes n v : accepts defs n v ->
  forall vis, each (readable defs) n -> above rank vis n -> takes n v vis.
Proof using Hproductive Hpool.
  induction 1 as [n r o v Hd He|n r o v a Hd He Ha Hacc IH|n r o v Hd He Ha Hok _ IHp _ IHa _ IHi _];
    intros vis Hn Hab; destruct (step_above rank defs Hproductive _ _ _ _ Hab Hd) as [Hv Hab'];
    pose proof (each_deref _ _ _ _ _ Hpool Hn Hd) as Hr.
  - apply takes_succ. exists O. rewrite conform_step, Hd, Hv, He. by eexists.
  - apply takes_succ. edestruct (union_takes r v) as (f & w & Hw); [done|exact Ha|done| |].
    { apply IH; [|].
      - eapply each_child; [exact Hr|]. unfold arms in Ha.
        destruct (entries (AnyOf r)) eqn:Ey; [by apply child_oneOf|]. apply child_anyOf. by rewrite Ey.
      - by apply Hab', arms_bare. }
    exists f, w. rewrite conform_step, Hd, Hv, He. cbn. destruct (arms r); [by apply not_elem_of_nil in Ha|done].
  - assert (Hchild : forall a x, a ∈ children r ->
      (forall vis, each (readable defs) a -> above rank vis a -> takes a x vis) -> takes a x ∅).
    { intros a x Hc HI. apply HI; [by eapply each_child|]. apply above_empty. }
    enough (Hpl : exists fuel w, conformPlain fuel Strict defs r v = Some (Ok w)).
    { destruct Hpl as (f & w & Hw). apply takes_succ. exists f, w.
      rewrite conform_step, Hd, Hv, He. cbn. by rewrite Ha. }
    unfold conformPlain. rewrite (plain_type _ _ Hok). cbn [negb].
    rewrite (proj2 (plain_enum_ok r v) (plain_enum _ _ Hok)).
    pose proof (plain_scalar _ _ Hok) as Hs.
    destruct v; try (by exists O; eexists); try (destruct (checkScalar r _); [by exists O; eexists|done]).
    + destruct (isArraySchema r) eqn:Harr; [|by exists O; eexists]. apply array_takes; [done..|].
      intros a x Hi Hx. apply Hchild; [by apply child_item|]. by eapply IHi.
    + destruct (isObjectSchema r) eqn:Hobj; [|by exists O; eexists]. apply object_takes; [done..|]. split.
      * intros k p x Hp Hx. apply Hchild; [by eapply child_prop|]. by eapply IHp.
      * intros k a x Hp Hae Hx. apply Hchild; [by apply child_extra|]. by eapply IHa.
Qed.

End Complete.
(** A strict conform takes exactly the values of the schema's type: on a schema
    whose recursion makes progress, whose [oneOf] arms are exclusive and whose defaults
    validate, [Validate] answers a value if and only if the document is accepted. *)
Lemma decides rank defs n v :
  productive rank defs -> pool_each (readable defs) defs -> each (readable defs) n ->
  (exists fuel w, Validate fuel defs n v Strict = Some (Ok w)) <-> accepts defs n v.
Proof.
  intros Hac Hp Hn. split.
  - intros (fuel & w & Hw). eapply conform_answers; [| |exact Hw].
    + intros k c Hk. eapply Forall_impl; [exact (Hp k c Hk)|]. by intros ? [? _].
    + eapply Forall_impl; [exact Hn|]. by intros ? [? _].
  - intros Hv. eapply accepts_takes; [done..|]. apply above_empty.
Qed.

End Theory.
End Conforming.
