(* ===== verification/Fitting.v ===== *)
(** What the subset relation promises: a value of the one schema passes the conform of
    the other. *)
From Stdlib Require Import ZArith QArith Lia Lqa Ascii String.
From stdpp Require Import sorting.
From S2P Require Import Prelude.
From S2P Require Import GoStrings.
From S2P Require Import Schema.
From S2P Require Import Subset.
From S2P Require Import Conforming.
Open Scope string_scope.
Open Scope list_scope.
Open Scope Z_scope.

Module Fitting.
Import Schema Subset Conforming.

Section Theory.
Context `{Numbers}.

Implicit Types (n r p a b c sub super : node) (defs : defs_t) (v w : value) (k : string)
  (m : gmap string value).

Abbreviation accepts := (sat false).
Abbreviation has := (sat true).

(** * Reading a type off a value *)

Lemma sat_resolved e defs n r o v :
  deref defs n = Ok (r, o) -> sat e defs n v <-> sat e defs r v.
Proof.
  intros Hd. pose proof Hd as Hs. apply deref_spec in Hs as [Hr _].
  pose proof (deref_plain defs r Hr) as Hrr.
  split; intros Hv; destruct Hv as [n' r' o' v' Hd'|n' r' o' v' a Hd'|n' r' o' v' Hd'];
    (rewrite Hd in Hd' || rewrite Hrr in Hd'); injection Hd' as <- <-;
    solve [by eapply sat_any|by eapply sat_arm|by eapply sat_plain].
Qed.

Lemma deref_ok e defs n v : sat e defs n v -> exists r o, deref defs n = Ok (r, o).
Proof. destruct 1; eauto. Qed.

Lemma deref_once defs n k t :
  Ref n <> "" -> strip_prefix refPrefix (Ref n) = Some k -> defs !! k = Some t ->
  deref defs n = deref_from (S (size defs)) defs t (Some k) ∅.
Proof.
  intros Hn Hk Ht. unfold deref. remember (S (size defs)) as f. unfold deref_from at 1. fold deref_from.
  rewrite decide_False by done. by rewrite Hk, Ht.
Qed.

Lemma deref_target defs n r o :
  deref defs n = Ok (r, o) -> Ref n <> "" ->
  exists k t, strip_prefix refPrefix (Ref n) = Some k /\ defs !! k = Some t.
Proof.
  intros Hd Hn. revert Hd. unfold deref. remember (S (size defs)) as f.
  unfold deref_from at 1. fold deref_from. rewrite decide_False by done.
  destruct (strip_prefix _ _) as [k|]; [|done]. destruct (defs !! k) as [t|] eqn:Ht; [|done]. eauto.
Qed.

Lemma deref_from_plain fuel defs t o seen : Ref t = "" -> deref_from fuel defs t o seen = Ok (t, o).
Proof. intros E. destruct fuel; cbn; by rewrite decide_True. Qed.

(** [derefSubset] follows one reference, [deref] all of them. *)
Lemma derefSubset_deref defs n :
  Ref (derefSubset n defs) = "" -> exists o, deref defs n = Ok (derefSubset n defs, o).
Proof.
  unfold derefSubset. destruct (decide (Ref n = "")) as [E|E]; [eauto using deref_plain|].
  destruct (strip_prefix _ _) as [k|] eqn:Ek; [|done].
  destruct (defs !! k) as [t|] eqn:Ht; [|done].
  change (default n (Some t)) with t. intros Hr.
  exists (Some k). erewrite deref_once; [|done..]. by apply deref_from_plain.
Qed.

(** No definition is only a reference to another. *)
Definition noAlias defs : Prop := map_Forall (fun _ n => Ref n = "") defs.

Lemma noAlias_deref defs n r o :
  noAlias defs -> deref defs n = Ok (r, o) -> derefSubset n defs = r.
Proof.
  intros Hna Hd. destruct (derefSubset_deref defs n) as [o' Ho']; [|congruence].
  unfold derefSubset. destruct (decide (Ref n = "")) as [E|E]; [done|].
  destruct (deref_target _ _ _ _ Hd E) as (k & t & Hk & Ht). rewrite Hk, Ht. by apply (Hna k).
Qed.

(** * What is asked of the schemas *)

Fixpoint noBar (s : string) : bool :=
  match s with EmptyString => true | String c s => negb (Ascii.eqb c "|") && noBar s end.

Lemma bar_split (s t u z : string) :
  noBar s = true -> noBar t = true -> s +:+ "||" +:+ u = t +:+ "||" +:+ z -> s = t /\ u = z.
Proof.
  revert t. induction s as [|c s IH]; intros [|d t]; cbn; intros Hs Ht E.
  - by injection E.
  - injection E as <- _. done.
  - injection E as -> _. done.
  - injection E as -> E. apply andb_true_iff in Hs as [_ Hs]. apply andb_true_iff in Ht as [_ Ht].
    destruct (IH t Hs Ht E) as [-> ->]. done.
Qed.

(** What a decoded and normalized document has on either side. *)
Definition tidy n : Prop :=
  AllOf n = None /\ OneOf n <> Some [] /\ AnyOf n <> Some [] /\ noBar (Ref n) = true.

(** What the relation takes for granted of the smaller side: objects are closed, a plain
    node has a type, an enumeration has members, a required name is declared. *)
Definition tidySub n : Prop :=
  tidy n /\ AdditionalProperties n = None /\ Enum n <> Some [] /\
  (Ref n = "" -> isEmptyNode n = false -> arms n = [] -> Types n <> []) /\
  (forall k, isRequired n k = true -> is_Some (props n !! k)).

(** Every number of a value is one [strconv] takes as a [float64]. *)
Fixpoint representable v : bool :=
  match v with
  | VNum x => Float64 x
  | VArr l => forallb representable l
  | VObj m => forallb id (map_to_list (representable <$> m)).*2
  | _ => true
  end.

Lemma representable_inside v w : representable v = true -> inside w v -> representable w = true.
Proof.
  destruct v; cbn; try done.
  - intros Hf Hw. rewrite forallb_forall in Hf. apply Hf. by apply list_elem_of_In.
  - intros Hf [k Hk]. rewrite forallb_forall in Hf. apply Hf, list_elem_of_In.
    apply list_elem_of_fmap. exists (k, representable w). split; [done|]. apply elem_of_map_to_list.
    by rewrite lookup_fmap, Hk.
Qed.

(** * Bounds, types and enumerations *)

Lemma bound_ok {A} (o : option A) (broken : A -> bool) e :
  is_ok (bound o broken e) = true <-> forall x, o = Some x -> broken x = false.
Proof.
  destruct o as [x|]; cbn.
  - destruct (broken x) eqn:E; cbn; split; try done; [by intros Hx; rewrite <- E, Hx|by intros _ ? [= <-]].
  - split; done.
Qed.

Lemma seq_ok {E A B} (x : result E A) (y : result E B) :
  is_ok (x ≫= fun _ => y) = true <-> is_ok x = true /\ is_ok y = true.
Proof. destruct x; cbn; naive_solver. Qed.

(** A bound the smaller side keeps is kept on the larger. *)
Lemma boundFits_ok {A} (fits : A -> A -> bool) (broken : A -> bool) e e' (x y : option A) :
  (forall s t, fits s t = true -> broken s = false -> broken t = false) ->
  boundFits fits x y = true -> is_ok (bound x broken e) = true -> is_ok (bound y broken e') = true.
Proof.
  intros Hf Hxy Hx. apply bound_ok. intros t ->. destruct x as [s|]; [|done]. cbn in Hxy.
  apply (Hf s t Hxy). rewrite bound_ok in Hx. by apply Hx.
Qed.

Lemma count_fits sub super l :
  checkItemCount sub super = true -> is_ok (checkCount sub l) = true -> is_ok (checkCount super l) = true.
Proof.
  unfold checkItemCount, checkCount. rewrite andb_true_iff, !seq_ok. intros [H1 H2] [H3 H4].
  split; (eapply boundFits_ok; [|done|done]); intros s t; cbn; rewrite negb_true_iff; lia.
Qed.

Lemma scalar_fits sub super v :
  checkNumericBounds sub super = true -> checkStringLength sub super = true ->
  is_ok (checkScalar sub v) = true -> is_ok (checkScalar super v) = true.
Proof.
  unfold checkNumericBounds, checkStringLength, checkScalar. rewrite !andb_true_iff, !seq_ok.
  intros [H1 H2] [H3 H4] [Hn Hs]. split.
  - destruct (decimal v) as [d|]; [|done]. rewrite seq_ok in *. destruct Hn as [Hl Hh].
    split; (eapply boundFits_ok; [|done|done]); intros s t; cbn; intros Hst Hds;
      destruct (Qcompare d t) eqn:E; try done; exfalso;
      (rewrite <- Qlt_alt in E || rewrite <- Qgt_alt in E).
    + destruct (Qcompare s t) eqn:E2; try done; destruct (Qcompare d s) eqn:E3; try done;
        rewrite <- ?Qeq_alt, <- ?Qlt_alt, <- ?Qgt_alt in *; lra.
    + destruct (Qcompare s t) eqn:E2; try done; destruct (Qcompare d s) eqn:E3; try done;
        rewrite <- ?Qeq_alt, <- ?Qlt_alt, <- ?Qgt_alt in *; lra.
  - destruct v; try done. rewrite seq_ok in *. destruct Hs as [Hl Hh].
    split; (eapply boundFits_ok; [|done|done]); intros s' t; cbn; rewrite negb_true_iff; lia.
Qed.

Lemma type_fits sub super v :
  Types super <> [] -> forallb (fun t => typeAllowed t (Types super)) (Types sub) = true ->
  Types sub <> [] -> representable v = true -> checkType sub v = true -> checkType super v = true.
Proof.
  unfold checkType. intros Hsup Hall Hsub Hrep. destruct (Types sub) as [|t0 ts]; [done|].
  destruct (Types super) as [|s0 ss]; [done|]. remember (t0 :: ts) as tl eqn:El. clear El Hsub t0 ts.
  intros Ht. apply existsb_exists in Ht as (t & Hin & Ht). rewrite forallb_forall in Hall.
  specialize (Hall t Hin). unfold typeAllowed in Hall. apply existsb_exists in Hall as (s & Hs & Ha).
  apply existsb_exists. exists s. split; [done|]. apply orb_true_iff in Ha as [Ha|Ha].
  - by apply bool_decide_eq_true in Ha as ->.
  - apply andb_true_iff in Ha as [H1 H2]. apply bool_decide_eq_true in H1 as ->.
    apply bool_decide_eq_true in H2 as ->. cbn in *. unfold IsIntegral in Ht. by destruct v.
Qed.

Lemma Equal_trans v w u : Equal v w = true -> Equal w u = true -> Equal v u = true.
Proof.
  unfold Equal, Compare. destruct (decimal v) as [x|], (decimal w) as [y|]; try done.
  destruct (decimal u) as [z|]; [|done]. destruct (x ?= y)%Q eqn:E1; try done.
  destruct (y ?= z)%Q eqn:E2; try done. intros _ _. apply Qeq_alt in E1, E2.
  assert (E : (x == z)%Q) by (by rewrite E1). apply Qeq_alt in E. by rewrite E.
Qed.

Lemma enum_fits sub super v :
  Enum sub <> Some [] -> checkEnum sub super = true ->
  entries (Enum sub) = [] \/ enumContains (entries (Enum sub)) v = true ->
  entries (Enum super) = [] \/ enumContains (entries (Enum super)) v = true.
Proof.
  intros Hne. unfold checkEnum. destruct (Enum super) as [pool|]; [|auto].
  destruct (Enum sub) as [vs|]; [|done]. cbn. intros Hall [->|Hin]; [done|]. right.
  apply existsb_exists in Hin as (e & He & Hin). rewrite forallb_forall in Hall. specialize (Hall e He).
  apply existsb_exists. apply orb_true_iff in Hall as [Hall|Hall].
  - apply bool_decide_eq_true, list_elem_of_In in Hall. by exists e.
  - unfold enumHasNumeric in Hall. destruct (decimal e) eqn:Hd; [|done].
    apply existsb_exists in Hall as (e' & He' & Hq). exists e'. split; [done|].
    apply orb_true_iff. apply orb_true_iff in Hin as [Hin|Hin].
    + left. by eapply Equal_trans.
    + apply bool_decide_eq_true in Hin as ->. by left.
Qed.

(** * Soundness *)

Lemma also_true x y : also x y = Some true -> x = Some true /\ y = Some true.
Proof. destruct x as [[]|]; done. Qed.

Lemma allM_true {A} (f : A -> option bool) (l : list A) :
  allM f l = Some true -> forall z, z ∈ l -> f z = Some true.
Proof.
  induction l as [|y l IH]; cbn; intros Hl z Hz; [by apply not_elem_of_nil in Hz|].
  destruct (f y) as [[]|] eqn:E; try done. apply elem_of_cons in Hz as [->|Hz]; [done|by apply IH].
Qed.

Lemma anyM_true {A} (f : A -> option bool) (l : list A) :
  anyM f l = Some true -> exists z, z ∈ l /\ f z = Some true.
Proof.
  induction l as [|y l IH]; cbn; [done|]. destruct (f y) as [[]|] eqn:E; try done.
  - intros _. exists y. split; [constructor|done].
  - intros Hl. destruct (IH Hl) as (z & Hz & Hf). exists z. split; [by constructor|done].
Qed.

Lemma isEmpty_Ref n : isEmptyNode n = true -> Ref n = "".
Proof.
  unfold isEmptyNode. rewrite !andb_true_iff. intros E.
  destruct E as [[[[[[[_ E] _] _] _] _] _] _]. by apply bool_decide_eq_true in E.
Qed.

Lemma arms_of_tidy n l : tidy n -> arms_of n = Some l -> l = arms n /\ l <> [].
Proof.
  intros (_ & Ho & Ha & _). unfold arms_of, arms, entries.
  destruct (AnyOf n) as [[|a la]|]; cbn; [congruence|by intros [= <-]|].
  intros E. rewrite E in *. cbn. split; [done|congruence].
Qed.

Lemma arms_of_none n : arms_of n = None -> arms n = [].
Proof. unfold arms_of, arms. by destruct (AnyOf n), (OneOf n). Qed.

Lemma arm_anyOf n a : a ∈ entries (AnyOf n) -> a ∈ arms n.
Proof. unfold arms. destruct (entries (AnyOf n)); [|done]. intros Ha. by apply not_elem_of_nil in Ha. Qed.

Lemma child_arm n a : a ∈ arms n -> a ∈ children n.
Proof.
  unfold arms. destruct (entries (AnyOf n)) eqn:E; intros Ha; [by apply child_oneOf|].
  apply child_anyOf. by rewrite E.
Qed.

(** The facts a value of a plain type comes with. *)
Lemma has_plain defs r v :
  Ref r = "" -> isEmptyNode r = false -> arms r = [] -> has defs r v ->
  plainOk r v /\
  (forall m k p x, v = VObj m -> isObjectSchema r = true -> props r !! k = Some p -> m !! k = Some x -> has defs p x) /\
  (forall l a x, v = VArr l -> Items r = Some a -> x ∈ l -> has defs a x) /\
  (forall m k, v = VObj m -> isObjectSchema r = true -> AdditionalProperties r = None ->
     is_Some (m !! k) -> is_Some (props r !! k)).
Proof.
  intros Hr He Ha Hv. pose proof (deref_plain defs r Hr) as Hd.
  destruct Hv as [n r' o v Hd' He'|n r' o v a Hd' _ Ha'|n r' o v Hd' _ _ Hok Hp _ Hi Hx];
    rewrite Hd in Hd'; injection Hd' as <- <-; [congruence| |by eauto 6].
  rewrite Ha in Ha'. by apply not_elem_of_nil in Ha'.
Qed.

Lemma has_arm defs r v :
  Ref r = "" -> isEmptyNode r = false -> arms r <> [] -> has defs r v ->
  exists a, a ∈ arms r /\ has defs a v.
Proof.
  intros Hr He Ha Hv. pose proof (deref_plain defs r Hr) as Hd.
  destruct Hv as [n r' o v Hd' He'|n r' o v a Hd' _ Ha'|n r' o v Hd' _ Hn];
    rewrite Hd in Hd'; injection Hd' as <- <-; [congruence|eauto|done].
Qed.

Lemma object_type m (t : string) : valueHasType (VObj m) t = true -> t = "object".
Proof. unfold valueHasType. by repeat (case_decide; [done|]). Qed.

Lemma array_type l (t : string) : valueHasType (VArr l) t = true -> t = "array".
Proof. unfold valueHasType. by repeat (case_decide; [done|]). Qed.

Lemma has_type r v (t : string) :
  Types r <> [] -> checkType r v = true -> (forall s, valueHasType v s = true -> s = t) -> Contains (Types r) t = true.
Proof.
  unfold checkType. destruct (Types r) as [|t0 ts] eqn:E; [done|]. intros _. rewrite <- E. intros Ht Hv.
  apply existsb_exists in Ht as (s & Hin & Hs). apply Hv in Hs as <-. apply list_elem_of_In in Hin.
  by apply bool_decide_eq_true.
Qed.

Lemma typed_object r m : Types r <> [] -> checkType r (VObj m) = true -> isObjectSchema r = true.
Proof. intros Hr Ht. unfold isObjectSchema. by rewrite (has_type r _ _ Hr Ht (object_type m)). Qed.

Lemma typed_array r l : Types r <> [] -> checkType r (VArr l) = true -> isArraySchema r = true.
Proof.
  intros Hr Ht. unfold isArraySchema. rewrite (has_type r _ _ Hr Ht (array_type l)). apply orb_true_r.
Qed.

Lemma types_checked sub super :
  match Types super, Types sub with
  | [], _ => Some true
  | _ :: _, [] => Some false
  | ts, ss => Some (forallb (fun t => typeAllowed t ts) ss)
  end = Some true ->
  Types super = [] \/ forallb (fun t => typeAllowed t (Types super)) (Types sub) = true.
Proof.
  destruct (Types super), (Types sub); auto. intros E. right. congruence.
Qed.

Section Sound.
Context (subRank superRank : string -> nat) (subDefs superDefs : defs_t).
Context (Hsub : acyclic subRank subDefs) (Hsuper : acyclic superRank superDefs).
Context (HsubTidy : pool_each tidySub subDefs) (HsuperTidy : pool_each tidy superDefs).
Context (Halias : noAlias subDefs).

(** Every reference under [n] ranks below [s]. *)
Definition below (rank : string -> nat) (s : string) n : Prop :=
  forall c, c ∈ nodes n -> Ref c <> "" -> (rank (Ref c) < rank s)%nat.

(** The pairs being compared, each above the pair at hand on one side. *)
Definition fresh (vis : gset string) sub super : Prop := forall z, z ∈ vis ->
  exists s t, z = s +:+ "||" +:+ t /\ noBar s = true /\ noBar t = true /\
  ((s <> "" /\ below subRank s sub) \/ (t <> "" /\ below superRank t super)).

Lemma below_child rank s n c : below rank s n -> c ∈ children n -> below rank s c.
Proof using. intros Hb Hc a Ha. apply Hb. by eapply nodes_trans. Qed.

Lemma fresh_unseen vis sub super :
  fresh vis sub super -> noBar (Ref sub) = true -> key sub super ∉ vis.
Proof using.
  intros Hf Hs Hk. apply Hf in Hk as (s & t & E & Hns & Hnt & Hor). unfold key in E.
  apply bar_split in E as [<- <-]; [|done|done].
  destruct Hor as [[Hne Hb]|[Hne Hb]]; specialize (Hb _ (nodes_self _) Hne); lia.
Qed.

Lemma below_deref rank defs s n :
  acyclic rank defs -> below rank s n -> below rank s (derefSubset n defs).
Proof using.
  intros Hac Hb. unfold derefSubset. case_decide as E; [done|].
  destruct (strip_prefix _ _) as [k|] eqn:Ek; [|done]. apply strip_prefix_Some in Ek.
  destruct (defs !! k) as [t|] eqn:Ht; [|done]. cbn. intros c Hc Hr.
  pose proof (Hac k t c Ht Hc Hr). specialize (Hb n (nodes_self n) E). rewrite Ek in Hb. lia.
Qed.

Lemma below_self rank defs n :
  acyclic rank defs -> Ref n <> "" -> Ref (derefSubset n defs) = "" ->
  below rank (Ref n) (derefSubset n defs).
Proof using.
  intros Hac Hn. unfold derefSubset. rewrite decide_False by done.
  destruct (strip_prefix _ _) as [k|] eqn:Ek; [|done]. apply strip_prefix_Some in Ek.
  destruct (defs !! k) as [t|] eqn:Ht; [|done]. cbn. intros _ c Hc Hr. rewrite Ek. by eapply Hac.
Qed.

(** Stepping from a pair to what it refers to keeps the pairs above it. *)
Lemma fresh_deref vis sub super :
  fresh vis sub super -> noBar (Ref sub) = true -> noBar (Ref super) = true ->
  Ref (derefSubset sub subDefs) = "" -> Ref (derefSubset super superDefs) = "" ->
  fresh (if negb (bool_decide (Ref sub = "")) || negb (bool_decide (Ref super = ""))
         then {[key sub super]} ∪ vis else vis) (derefSubset sub subDefs) (derefSubset super superDefs).
Proof using Hsub Hsuper.
  intros Hf Hns Hnt Hrs Hrt.
  assert (Hold : fresh vis (derefSubset sub subDefs) (derefSubset super superDefs)).
  { intros z Hz. destruct (Hf z Hz) as (s & t & E & H1 & H2 & Hor). exists s, t. do 3 (split; [done|]).
    destruct Hor as [[? ?]|[? ?]]; [left|right]; split; try done; by apply below_deref. }
  destruct (decide (Ref sub = "")) as [Es|Es], (decide (Ref super = "")) as [Et|Et];
    rewrite ?(bool_decide_true _ Es), ?(bool_decide_true _ Et), ?(bool_decide_false _ Es),
      ?(bool_decide_false _ Et); cbn; [done|..];
    (intros z [->%elem_of_singleton|Hz]%elem_of_union; [|by apply Hold]);
    exists (Ref sub), (Ref super); do 3 (split; [done|]);
    solve [left; split; [done|by apply below_self]|right; split; [done|by apply below_self]].
Qed.

Lemma fresh_children vis sub super c d :
  fresh vis sub super -> (c = sub \/ c ∈ children sub) -> (d = super \/ d ∈ children super) -> fresh vis c d.
Proof using.
  intros Hf Hc Hd z Hz. destruct (Hf z Hz) as (s & t & E & H1 & H2 & Hor). exists s, t. do 3 (split; [done|]).
  destruct Hor as [[? ?]|[? ?]]; [left|right]; split; try done.
  - destruct Hc as [->|Hc]; [done|by eapply below_child].
  - destruct Hd as [->|Hd]; [done|by eapply below_child].
Qed.

(** What the relation says of a pair is true of every value. *)
Definition sound (f : node -> node -> option bool) sub super : Prop :=
  forall w, f sub super = Some true -> representable w = true -> has subDefs sub w -> accepts superDefs super w.

Lemma plain_sound f nf sub super :
  (forall c d, c ∈ children sub -> d ∈ children super -> sound f c d) ->
  tidySub sub -> Ref sub = "" -> Ref super = "" -> isEmptyNode sub = false -> isEmptyNode super = false ->
  arms sub = [] -> arms super = [] ->
  sound (checkPlain f nf plainMode subDefs superDefs) sub super.
Proof using.
  intros IH (_ & Hclosed & Hne & Htyped & Hreq) Hrs Hrt Hes Het Has Hat w Hck Hrep Hv.
  specialize (Htyped Hrs Hes Has). unfold checkPlain in Hck.
  apply also_true in Hck as [Hty Hck]. apply also_true in Hck as [Hobj Hck].
  apply also_true in Hck as [Harr Hck]. apply also_true in Hck as [Hcount Hck].
  apply also_true in Hck as [Hnum Hck]. apply also_true in Hck as [Hlen Henum].
  injection Hcount as Hcount. injection Hnum as Hnum. injection Hlen as Hlen. injection Henum as Henum.
  destruct (has_plain _ _ _ Hrs Hes Has Hv) as (Hok & Hp & Hi & Hx).
  assert (Hobj' : forall m, w = VObj m -> isObjectSchema sub = true).
  { intros m ->. by eapply typed_object, plain_type. }
  assert (Harr' : forall l, w = VArr l -> isArraySchema sub = true).
  { intros l ->. by eapply typed_array, plain_type. }
  assert (Hmember : forall m k x, w = VObj m -> m !! k = Some x ->
            exists p, props sub !! k = Some p /\ has subDefs p x /\ representable x = true).
  { intros m k x Hw Hk. destruct (Hx m k Hw (Hobj' m Hw) Hclosed (ex_intro _ x Hk)) as [p Hpk].
    exists p. split; [done|]. split; [by eapply Hp; eauto|].
    apply (representable_inside w); [done|]. subst w. by exists k. }
  assert (Hstruct : forall m, w = VObj m -> isObjectSchema super = true ->
    isNone (Properties super) && isNone (Required super) && isNone (AdditionalProperties super) = false ->
    checkObject f nf plainMode subDefs superDefs sub super = Some true).
  { intros m _ _ Hn. by rewrite Hn in Hobj. }
  pose proof (deref_plain superDefs super Hrt) as Hd.
  eapply sat_plain; [exact Hd|done|done| | | | |done].
  - split.
    + destruct (decide (Types super = [])) as [Ets|Ets]; [by unfold checkType; rewrite Ets|].
      apply types_checked in Hty as [Hty|Hty]; [done|].
      eapply type_fits; try done. by apply plain_type.
    + eapply enum_fits; [done|done|]. by apply plain_enum.
    + intros m k Hw Ho Hq Hdecl. unfold isRequired in Hq. apply bool_decide_eq_true in Hq.
      assert (Hb : isNone (Properties super) && isNone (Required super) && isNone (AdditionalProperties super) = false).
      { destruct (Required super) as [l|]; [|by apply not_elem_of_nil in Hq]. by rewrite andb_false_r. }
      pose proof (Hstruct m Hw Ho Hb) as Hco. unfold checkObject in Hco. apply also_true in Hco as [Hco _].
      eapply allM_true in Hco; [|exact Hq]. unfold requiredFits, guaranteed in Hco. cbn in Hco.
      rewrite orb_false_r in Hco. destruct (isRequired sub k) eqn:Hqs; [|by destruct (props super !! k)].
      by eapply (plain_required _ _ Hok); eauto.
    + intros l Hw _. eapply count_fits; [done|]. eapply (plain_count _ _ Hok); eauto.
    + eapply scalar_fits; [done..|]. by apply plain_scalar.
  - intros m k d x Hw Ho Hpd Hk. destruct (Hmember m k x Hw Hk) as (c & Hc & Hcx & Hxr).
    assert (Hb : isNone (Properties super) && isNone (Required super) && isNone (AdditionalProperties super) = false).
    { unfold props in Hpd. destruct (Properties super); [done|]. cbn in Hpd. by rewrite lookup_empty in Hpd. }
    pose proof (Hstruct m Hw Ho Hb) as Hco. unfold checkObject in Hco. apply also_true in Hco as [_ Hco].
    apply also_true in Hco as [Hco _].
    eapply allM_true with (z := k) in Hco; [|by apply elem_of_sortedKeys; exists d].
    unfold propertyFits in Hco. rewrite Hpd, Hc in Hco. cbn in Hco.
    eapply (IH c d); [by eapply child_prop|by eapply child_prop| |done|done].
    by destruct (f c d) as [[]|].
  - intros m k d x Hw Ho Hpd Had Hk. destruct (Hmember m k x Hw Hk) as (c & Hc & Hcx & Hxr).
    assert (Hb : isNone (Properties super) && isNone (Required super) && isNone (AdditionalProperties super) = false).
    { rewrite Had. apply andb_false_r. }
    pose proof (Hstruct m Hw Ho Hb) as Hco. unfold checkObject in Hco. apply also_true in Hco as [_ Hco].
    apply also_true in Hco as [_ Hco]. apply also_true in Hco as [Hco _]. rewrite Had in Hco.
    apply also_true in Hco as [Hco _].
    eapply allM_true with (z := k) in Hco; [|by apply elem_of_sortedKeys; exists c].
    unfold extraFits in Hco. rewrite Hpd, Hc in Hco.
    by eapply (IH c d); [eapply child_prop|apply child_extra|..].
  - intros l d x Hw Hit Hxl. unfold checkArray in Harr. rewrite Hit in Harr. case_bool_decide as Hmax.
    + exfalso. pose proof (plain_count _ _ Hok l Hw (Harr' l Hw)) as Hc. unfold checkCount in Hc.
      rewrite seq_ok, !bound_ok in Hc. destruct Hc as [_ Hc]. specialize (Hc 0 Hmax). cbn beta in Hc.
      destruct l; [by apply not_elem_of_nil in Hxl|]. rewrite Z.gtb_ltb, Z.ltb_ge in Hc. cbn [length] in Hc. lia.
    + destruct (Items sub) as [c|] eqn:Hic; [|done].
      eapply (IH c d); [by apply child_item|by apply child_item|done| |by eapply Hi].
      apply (representable_inside w); [done|]. by subst w.
Qed.

Lemma check_sound fuel : forall vis sub super,
  fresh vis sub super -> each tidySub sub -> each tidy super ->
  sound (check fuel plainMode subDefs superDefs vis) sub super.
Proof using Hsub Hsuper HsubTidy HsuperTidy Halias subRank superRank.
  induction fuel as [|fuel IH]; intros vis sub super Hf Hts Htt w Hck Hrep Hv; [done|].
  assert (Hbs : noBar (Ref sub) = true) by (apply each_self in Hts; apply Hts).
  assert (Hbt : noBar (Ref super) = true) by (apply each_self in Htt; apply Htt).
  cbn [check] in Hck. rewrite (bool_decide_false (key sub super ∈ vis)) in Hck by (by apply fresh_unseen).
  rewrite andb_false_r in Hck.
  destruct (bool_decide (Ref (derefSubset super superDefs) = "")) eqn:Hrt; [|done].
  apply bool_decide_eq_true in Hrt. cbn [negb] in Hck.
  destruct (derefSubset_deref _ _ Hrt) as [o2 Hd2]. rewrite (sat_resolved _ _ _ _ _ _ Hd2).
  destruct (deref_ok _ _ _ _ Hv) as (r & o1 & Hd1). pose proof (noAlias_deref _ _ _ _ Halias Hd1) as Er.
  rewrite (sat_resolved _ _ _ _ _ _ Hd1) in Hv. rewrite <- Er in Hv, Hd1. clear r Er.
  assert (Hrs : Ref (derefSubset sub subDefs) = "") by (apply deref_spec in Hd1; apply Hd1).
  pose proof (fresh_deref _ _ _ Hf Hbs Hbt Hrs Hrt) as Hf'.
  pose proof (each_deref _ _ _ _ _ HsubTidy Hts Hd1) as Hts'.
  pose proof (each_deref _ _ _ _ _ HsuperTidy Htt Hd2) as Htt'.
  revert Hck Hf'. generalize (if negb (bool_decide (Ref sub = "")) || negb (bool_decide (Ref super = ""))
    then {[key sub super]} ∪ vis else vis). intros vis' Hck Hf'.
  revert Hck Hf' Hts' Htt' Hv Hrs Hrt.
  generalize (derefSubset sub subDefs) (derefSubset super superDefs). clear - IH Hrep.
  intros sub super Hck Hf Hts Htt Hv Hrs Hrt.
  pose proof (deref_plain superDefs super Hrt) as Hd.
  assert (Hagain : forall c d, (c = sub \/ c ∈ children sub) -> (d = super \/ d ∈ children super) ->
            sound (check fuel plainMode subDefs superDefs vis') c d).
  { intros c d Hc Hdd. apply IH; [by eapply fresh_children|..].
    - destruct Hc as [->|Hc]; [done|by eapply each_child].
    - destruct Hdd as [->|Hdd]; [done|by eapply each_child]. }
  pose proof (each_self _ _ Hts) as Hs. pose proof (each_self _ _ Htt) as Ht.
  destruct (isEmptyNode super) eqn:Het; [by eapply sat_any|].
  destruct (existsb _ (entries (AnyOf super))) eqn:Hany.
  { apply existsb_exists in Hany as (a & Hin & Ha). apply list_elem_of_In in Hin.
    assert (Hra : Ref (derefSubset a superDefs) = "").
    { by apply isEmpty_Ref. }
    destruct (derefSubset_deref _ _ Hra) as [o Hda].
    eapply sat_arm; [done|done|by apply arm_anyOf|by eapply sat_any]. }
  destruct (isEmptyNode sub) eqn:Hes; [done|].
  destruct (arms_of sub) as [l|] eqn:Hal.
  { apply arms_of_tidy in Hal as [-> Hne]; [|by apply Hs]. destruct (has_arm _ _ _ Hrs Hes Hne Hv) as (a & Ha & Hva).
    eapply (Hagain a super); [right; by apply child_arm|by left|by eapply allM_true in Hck|done|done]. }
  apply arms_of_none in Hal. destruct Hs as [Hs Hs']. pose proof Hs as (HsAll & _). unfold entries in Hck.
  rewrite HsAll in Hck. cbn in Hck.
  destruct (arms_of super) as [l|] eqn:Hbl.
  { apply arms_of_tidy in Hbl as [-> Hne]; [|done]. apply anyM_true in Hck as (a & Ha & Hck).
    eapply sat_arm; [done|done|done|].
    eapply (Hagain sub a); [by left|right; by apply child_arm|done..]. }
  apply arms_of_none in Hbl. destruct Ht as [HtAll Ht]. rewrite HtAll in Hck. cbn in Hck.
  eapply plain_sound; [|by split|done..|exact Hck|done|done].
  intros c d Hc Hdd. apply Hagain; by right.
Qed.

End Sound.
(** * The relation ends *)

Lemma leq_allM {A} (f g : A -> option bool) (l : list A) :
  (forall z, leq (f z) (g z)) -> leq (allM f l) (allM g l).
Proof.
  intros Hf. induction l as [|x l IH]; cbn; [apply leq_refl|].
  apply (leq_match (f x) (g x) (fun u : bool => if u then allM f l else Some false)
                               (fun u : bool => if u then allM g l else Some false)); [apply Hf|].
  intros []; [done|apply leq_refl].
Qed.

Lemma leq_also x x' y y' : leq x x' -> leq y y' -> leq (also x y) (also x' y').
Proof.
  intros Hx Hy z. destruct x as [u|]; [|done]. rewrite (Hx _ eq_refl). destruct u; cbn; [apply Hy|done].
Qed.

Section Mono.
Context (f g : node -> node -> option bool) (nf ng : defs_t -> node -> option bool).
Context (Hf : forall c d, leq (f c d) (g c d)) (Hn : forall defs c, leq (nf defs c) (ng defs c)).

Lemma leq_requiredFits mode d1 d2 sub super k :
  leq (requiredFits nf mode d1 d2 sub super k) (requiredFits ng mode d1 d2 sub super k).
Proof using Hn.
  unfold requiredFits. destruct (guaranteed mode sub d1 k); [apply leq_refl|].
  destruct (props super !! k); [|apply leq_refl]. destruct (absentAsNull mode); [apply Hn|apply leq_refl].
Qed.

Lemma leq_propertyFits mode d1 sub super k :
  leq (propertyFits f nf mode d1 sub super k) (propertyFits g ng mode d1 sub super k).
Proof using Hf Hn.
  unfold propertyFits. destruct (props super !! k) as [d|]; [|apply leq_refl].
  destruct (props sub !! k) as [c|]; [|apply leq_refl]. intros z.
  destruct (f c d) as [u|] eqn:E; [|done]. rewrite (Hf _ _ _ E). destruct u; [done|].
  destruct (nullRemoval mode && negb (isRequired super k)); [|done].
  destruct (nf d1 c) as [u|] eqn:E2; [|done]. rewrite (Hn _ _ _ E2). destruct u; [apply Hf|done].
Qed.

Lemma leq_extraFits sub super a k : leq (extraFits f sub super a k) (extraFits g sub super a k).
Proof using Hf.
  unfold extraFits. destruct (props super !! k), (props sub !! k); try apply leq_refl. apply Hf.
Qed.

Lemma leq_checkPlain mode d1 d2 sub super :
  leq (checkPlain f nf mode d1 d2 sub super) (checkPlain g ng mode d1 d2 sub super).
Proof using Hf Hn.
  unfold checkPlain, checkObject, checkArray. repeat apply leq_also; try apply leq_refl.
  - destruct (_ && _); [apply leq_refl|]. repeat apply leq_also; try apply leq_refl.
    + apply leq_allM. intros k. apply leq_requiredFits.
    + apply leq_allM. intros k. apply leq_propertyFits.
    + destruct (AdditionalProperties super); [|apply leq_refl]. apply leq_also.
      * apply leq_allM. intros k. apply leq_extraFits.
      * destruct (AdditionalProperties sub); [apply Hf|apply leq_refl].
  - destruct (Items super); [|apply leq_refl]. destruct (bool_decide _); [apply leq_refl|].
    destruct (Items sub); [apply Hf|apply leq_refl].
Qed.
End Mono.

Lemma leq_check fuel fuel' mode d1 d2 vis sub super :
  (fuel <= fuel')%nat -> leq (check fuel mode d1 d2 vis sub super) (check fuel' mode d1 d2 vis sub super).
Proof.
  revert fuel' vis sub super. induction fuel as [|fuel IH]; intros fuel' vis sub super Hle; [apply leq_none|].
  destruct fuel' as [|fuel']; [lia|]. cbn [check].
  destruct (_ && bool_decide (key sub super ∈ vis)); [apply leq_refl|].
  destruct (negb (bool_decide (Ref (derefSubset super d2) = ""))); [apply leq_refl|].
  destruct (isEmptyNode (derefSubset super d2)); [apply leq_refl|].
  destruct (existsb _ _); [apply leq_refl|]. destruct (isEmptyNode (derefSubset sub d1)); [apply leq_refl|].
  destruct (arms_of (derefSubset sub d1)); [apply leq_allM; intros; apply IH; lia|].
  destruct (entries (AllOf (derefSubset sub d1))); [|apply leq_anyM; intros; apply IH; lia].
  destruct (arms_of (derefSubset super d2)); [apply leq_anyM; intros; apply IH; lia|].
  destruct (entries (AllOf (derefSubset super d2))); [|apply leq_allM; intros; apply IH; lia].
  apply leq_checkPlain; intros; [apply IH|apply leq_hasNull]; lia.
Qed.

Lemma settled_allM {A} (F : A -> nat -> option bool) (l : list A) :
  (forall z, z ∈ l -> settled (F z)) -> settled (fun f => allM (fun z => F z f) l).
Proof.
  induction l as [|z l IH]; intros HF; cbn [allM]; [apply settled_const|].
  apply (settled_ext (fun f => match F z f with
           Some u => (if u : bool then allM (fun z => F z f) l else Some false) | None => None end)).
  { intros f. by destruct (F z f) as [[]|]. }
  apply (settled_bind (F z) (fun (u : bool) f => if u then allM (fun z => F z f) l else Some false)).
  - apply HF. constructor.
  - intros [] _ _; [|apply settled_const]. apply IH. intros z' Hz'. apply HF. by constructor.
Qed.

Lemma settled_also (F G : nat -> option bool) : settled F -> settled G -> settled (fun f => also (F f) (G f)).
Proof.
  intros HF HG. apply (settled_ext (fun f => match F f with
    Some u => (if u : bool then G f else Some false) | None => None end)).
  { intros f. by destruct (F f) as [[]|]. }
  apply (settled_bind F (fun (u : bool) f => if u then G f else Some false)); [done|].
  intros [] _ _; [done|apply settled_const].
Qed.

(** ** Removing null keeps a schema in its bounds *)

(** [n'] is no larger than [n] and refers to nothing new. *)
Definition within n' n : Prop :=
  (length (nodes n') <= length (nodes n))%nat /\
  forall c, c ∈ nodes n' -> Ref c <> "" -> exists d, d ∈ nodes n /\ Ref d = Ref c.

Lemma within_refl n : within n n.
Proof. split; [lia|eauto]. Qed.

Definition weight (l : list node) : nat := length (mjoin (nodes <$> l)).

Lemma nodes_length n : length (nodes n) = S (weight (children n)).
Proof. by rewrite nodes_children. Qed.

Lemma in_nodes n c : c ∈ nodes n <-> c = n \/ exists a, a ∈ children n /\ c ∈ nodes a.
Proof.
  rewrite nodes_children, elem_of_cons, list_elem_of_join. split; intros [->|Hc]; auto; right.
  - destruct Hc as (l & Hc & Hl). apply list_elem_of_fmap in Hl as (a & -> & Ha). eauto.
  - destruct Hc as (a & Ha & Hc). exists (nodes a). split; [done|]. by apply list_elem_of_fmap_2.
Qed.

Lemma weight_app l1 l2 : weight (l1 ++ l2) = (weight l1 + weight l2)%nat.
Proof. unfold weight. by rewrite fmap_app, join_app, length_app. Qed.

Lemma weight_cons a l : weight (a :: l) = (length (nodes a) + weight l)%nat.
Proof. unfold weight. rewrite fmap_cons. apply length_app. Qed.

(** Arms replaced, and some dropped. *)
Inductive thinned : list node -> list node -> Prop :=
  | thin_nil : thinned [] []
  | thin_keep a b l l' : within a b -> thinned l l' -> thinned (a :: l) (b :: l')
  | thin_drop b l l' : thinned l l' -> thinned l (b :: l').

Lemma thinned_refl l : thinned l l.
Proof. induction l; constructor; [apply within_refl|done]. Qed.

Lemma thinned_app l1 l1' l2 l2' : thinned l1 l1' -> thinned l2 l2' -> thinned (l1 ++ l2) (l1' ++ l2').
Proof. intros H1 H2. induction H1; cbn; [done|by constructor|by constructor]. Qed.

Lemma thinned_weight l l' : thinned l l' -> (weight l <= weight l')%nat.
Proof.
  induction 1 as [|a b l l' [Hab _] _ IH|b l l' _ IH]; rewrite ?weight_cons; lia.
Qed.

Lemma thinned_in l l' a : thinned l l' -> a ∈ l -> exists b, b ∈ l' /\ within a b.
Proof.
  induction 1 as [|a' b l l' Hab _ IH|b l l' _ IH]; intros Ha.
  - by apply not_elem_of_nil in Ha.
  - apply elem_of_cons in Ha as [->|Ha]; [exists b; split; [constructor|done]|].
    destruct (IH Ha) as (b' & Hb' & Hw). exists b'. split; [by constructor|done].
  - destruct (IH Ha) as (b' & Hb' & Hw). exists b'. split; [by constructor|done].
Qed.

Lemma within_thinned n' n : Ref n' = Ref n -> thinned (children n') (children n) -> within n' n.
Proof.
  intros Hr Ht. split.
  - rewrite !nodes_length. apply le_n_S. by apply thinned_weight.
  - intros c Hc Hrc. apply in_nodes in Hc as [->|(a & Ha & Hc)].
    + exists n. split; [apply nodes_self|done].
    + destruct (thinned_in _ _ _ Ht Ha) as (b & Hb & _ & Hw). destruct (Hw c Hc Hrc) as (d & Hd & E).
      exists d. split; [by eapply nodes_trans|done].
Qed.

Lemma within_child n c a : within a c -> c ∈ children n -> within a n.
Proof.
  intros [Hl Hw] Hc. split; [apply nodes_child in Hc as [_ ?]; lia|].
  intros d Hd Hr. destruct (Hw d Hd Hr) as (e & He & E). exists e. split; [by eapply nodes_trans|done].
Qed.

(** The arms a strip leaves. *)
Definition strippedArms (l : list node) : list node :=
  omap id ((fun a => if isNullType a then None else Some (default a (strip a))) <$> l).

Lemma strippedArms_thinned l :
  (forall a, a ∈ l -> within (stripNull a) a) -> thinned (strippedArms l) l.
Proof.
  unfold strippedArms. induction l as [|a l IH]; intros Hl; cbn; [constructor|].
  assert (IH' : thinned (strippedArms l) l) by (apply IH; intros b Hb; apply Hl; by constructor).
  destruct (isNullType a); cbn; [by constructor|]. constructor; [|done]. apply Hl. constructor.
Qed.

Definition strippedUnion (o : option (list node)) (set : list node -> node) : option node :=
  match (match o with
         | Some l => (strippedArms l, existsb (fun a => isNullType a || negb (isNone (strip a))) l)
         | None => ([], false)
         end) with
  | (_, false) | ([], _) => None
  | ([a], true) => Some a
  | (out, true) => Some (set out)
  end.

Lemma strip_eq n :
  strip n =
  if negb (hasNullHere n) then None else
  match Types n with
  | _ :: _ =>
      let nonNull := filter (fun t => t <> "null") (Types n) in
      if decide (length nonNull = length (Types n)) then None else Some (set_Types n nonNull)
  | [] =>
      match entries (OneOf n) with
      | _ :: _ => strippedUnion (OneOf n) (set_OneOf n)
      | [] => match entries (AnyOf n) with
              | _ :: _ => strippedUnion (AnyOf n) (set_AnyOf n)
              | [] => None
              end
      end
  end.
Proof. by destruct n. Qed.

Lemma strippedUnion_within (o : option (list node)) set n n' :
  (forall a, a ∈ entries o -> a ∈ children n) ->
  (forall a, a ∈ entries o -> within (stripNull a) a) ->
  (forall out, thinned out (entries o) -> within (set out) n) ->
  strippedUnion o set = Some n' -> within n' n.
Proof.
  intros Hc Hw Hset. unfold strippedUnion. destruct o as [l|]; [|done]. cbn in *.
  pose proof (strippedArms_thinned l Hw) as Ht.
  destruct (strippedArms l) as [|a [|b out]] eqn:E, (existsb _ l); try done.
  - intros [= <-]. destruct (thinned_in _ _ a Ht) as (b & Hb & Hab); [constructor|].
    eapply within_child; [done|by apply Hc].
  - intros [= <-]. by apply Hset.
Qed.

Lemma stripNull_within n : within (stripNull n) n.
Proof.
  remember (length (nodes n)) as s eqn:Es. revert n Es. induction (lt_wf s) as [s _ IH]. intros n Es.
  assert (Hchild : forall a, a ∈ children n -> within (stripNull a) a).
  { intros a Ha. eapply IH; [|reflexivity]. rewrite Es. by apply nodes_child in Ha as [_ ?]. }
  unfold stripNull. destruct (strip n) as [n'|] eqn:E; [|apply within_refl]. cbn. rewrite strip_eq in E.
  destruct (negb (hasNullHere n)); [done|]. destruct (Types n).
  2:{ cbv zeta in E. case_decide; [done|]. injection E as <-. apply within_thinned; [done|apply thinned_refl]. }
  destruct (entries (OneOf n)) as [|a l] eqn:Eo; [destruct (entries (AnyOf n)) as [|a l] eqn:Ea; [done|]|].
  - eapply strippedUnion_within in E; [done| | |].
    + apply child_anyOf.
    + intros b Hb. by apply Hchild, child_anyOf.
    + intros out Hout. apply within_thinned; [done|]. unfold children. cbn.
      repeat apply thinned_app; try apply thinned_refl. done.
  - eapply strippedUnion_within in E; [done| | |].
    + apply child_oneOf.
    + intros b Hb. by apply Hchild, child_oneOf.
    + intros out Hout. apply within_thinned; [done|]. unfold children. cbn.
      repeat apply thinned_app; try apply thinned_refl. done.
Qed.

(** ** Termination *)

Definition refIn (S : list string) n : Prop := Ref n = "" \/ Ref n ∈ S.

Lemma each_within (S : list string) n n' : within n' n -> each (refIn S) n -> each (refIn S) n'.
Proof.
  intros [_ Hw] Hn. apply Forall_forall. intros c Hc. destruct (decide (Ref c = "")); [by left|].
  destruct (Hw c Hc) as (d & Hd & E); [done|]. right. rewrite <- E.
  destruct (proj1 (Forall_forall _ _) Hn d Hd); congruence.
Qed.

Lemma each_derefSubset (P : node -> Prop) defs n :
  pool_each P defs -> each P n -> each P (derefSubset n defs).
Proof.
  intros Hp Hn. unfold derefSubset. case_decide; [done|]. destruct (strip_prefix _ _) as [k|]; [|done].
  destruct (defs !! k) as [d|] eqn:Hd; [|done]. by apply (Hp k).
Qed.

Section Ending.
Context (mode : subsetMode) (d1 d2 : defs_t) (S T : list string).
Context (H1 : pool_each (refIn S) d1) (H2 : pool_each (refIn T) d2).

Definition keys : gset string :=
  list_to_set (s ← "" :: S; t ← "" :: T; [s +:+ "||" +:+ t]).

Lemma key_in_keys sub super : refIn S sub -> refIn T super -> key sub super ∈ keys.
Proof using.
  intros Hs Ht. apply elem_of_list_to_set, list_elem_of_bind. exists (Ref sub). split.
  - apply list_elem_of_bind. exists (Ref super). split; [by constructor|].
    destruct Ht as [->|]; [constructor|by constructor].
  - destruct Hs as [->|]; [constructor|by constructor].
Qed.

Definition compares vis sub super : Prop := settled (fun f => check f mode d1 d2 vis sub super).

Lemma object_compares f sub super :
  (forall c d, each (refIn S) c -> (exists b, b ∈ children sub /\ within c b) ->
     d ∈ children super -> settled (f c d)) ->
  each (refIn S) sub ->
  settled (fun i => checkObject (fun c d => f c d i) (fun defs n => hasNullResolved i defs n) mode d1 d2 sub super).
Proof using.
  intros Hf Hs.
  assert (Hc : forall c d, c ∈ children sub -> d ∈ children super -> settled (f c d)).
  { intros c d Hcc Hd. apply Hf; [by eapply each_child|exists c; split; [done|apply within_refl]|done]. }
  unfold checkObject. repeat apply settled_also.
  - apply (settled_allM (fun k i => requiredFits _ mode d1 d2 sub super k)). intros k _. unfold requiredFits.
    destruct (guaranteed mode sub d1 k); [apply settled_const|].
    destruct (props super !! k); [|apply settled_const].
    destruct (absentAsNull mode); [apply settled_hasNull|apply settled_const].
  - apply (settled_allM (fun k i => propertyFits _ _ mode d1 sub super k)). intros k _. unfold propertyFits.
    destruct (props super !! k) as [d|] eqn:Hd; [|apply settled_const].
    destruct (props sub !! k) as [c|] eqn:Hck; [|apply settled_const].
    apply child_prop in Hd. apply child_prop in Hck.
    set (retry := fun i => if nullRemoval mode && negb (isRequired super k) then
           match hasNullResolved i d1 c with Some true => f (stripNull c) d i | x => x end else Some false).
    apply (settled_ext (fun i => match f c d i with
        Some u => (if u : bool then Some true else retry i) | None => None end)).
    { intros i. by destruct (f c d i) as [[]|]. }
    apply (settled_bind (f c d) (fun (u : bool) i => if u then Some true else retry i)); [by apply Hc|].
    intros [] _ _; [apply settled_const|]. unfold retry.
    destruct (nullRemoval mode && negb (isRequired super k)); [|apply settled_const].
    apply (settled_ext (fun i => match hasNullResolved i d1 c with
        Some u => (if u : bool then f (stripNull c) d i else Some false) | None => None end)).
    { intros i. by destruct (hasNullResolved i d1 c) as [[]|]. }
    apply (settled_bind (fun i => hasNullResolved i d1 c) (fun (u : bool) i => if u then f (stripNull c) d i else Some false));
      [apply settled_hasNull|].
    intros [] _ _; [|apply settled_const]. apply Hf; [|exists c; split; [done|apply stripNull_within]|done].
    eapply each_within; [apply stripNull_within|by eapply each_child].
  - destruct (AdditionalProperties super) as [d|] eqn:Hd; [|apply settled_const]. apply child_extra in Hd.
    apply settled_also.
    + apply (settled_allM (fun k i => extraFits _ sub super d k)). intros k _. unfold extraFits.
      destruct (props super !! k); [apply settled_const|].
      destruct (props sub !! k) as [c|] eqn:Hck; [|apply settled_const]. apply Hc; [by eapply child_prop|done].
    + destruct (AdditionalProperties sub) as [c|] eqn:Hca; [|apply settled_const].
      apply Hc; [by apply child_extra|done].
  - destruct (_ && _); apply settled_const.
Qed.

Lemma plain_compares f sub super :
  (forall c d, each (refIn S) c -> (exists b, b ∈ children sub /\ within c b) ->
     d ∈ children super -> settled (f c d)) ->
  each (refIn S) sub ->
  settled (fun i => checkPlain (fun c d => f c d i) (fun defs n => hasNullResolved i defs n) mode d1 d2 sub super).
Proof using.
  intros Hf Hs. unfold checkPlain. repeat apply settled_also; try apply settled_const.
  - destruct (Types super), (Types sub); apply settled_const.
  - destruct (_ && _); [apply settled_const|by apply object_compares].
  - unfold checkArray. destruct (Items super) as [d|] eqn:Hd; [|apply settled_const].
    destruct (bool_decide _); [apply settled_const|].
    destruct (Items sub) as [c|] eqn:Hc; [|apply settled_const]. apply child_item in Hc.
    apply Hf; [by eapply each_child|exists c; split; [done|apply within_refl]|by apply child_item].
Qed.

Lemma within_length b c n : b ∈ children n -> within c b -> (length (nodes c) < length (nodes n))%nat.
Proof using. intros Hb [Hl _]. apply nodes_child in Hb as [_ ?]. lia. Qed.

Lemma check_ends vis sub super : each (refIn S) sub -> each (refIn T) super -> compares vis sub super.
Proof using H1 H2.
  remember (size (keys ∖ vis)) as u eqn:Eu. revert vis sub super Eu.
  induction (lt_wf u) as [u _ IHu]. intros vis sub super Eu.
  remember (length (nodes sub) + length (nodes super))%nat as s eqn:Es. revert sub super Es.
  induction (lt_wf s) as [s _ IHs]. intros sub super Es Hs Ht.
  apply settled_succ; [intros; by apply leq_check|]. cbn [check].
  set (refs := negb (bool_decide (Ref sub = "")) || negb (bool_decide (Ref super = ""))).
  destruct (refs && bool_decide (key sub super ∈ vis)) eqn:Hk; [apply settled_const|].
  set (vis' := if refs then {[key sub super]} ∪ vis else vis).
  pose proof (each_derefSubset _ _ _ H1 Hs) as Hs'. pose proof (each_derefSubset _ _ _ H2 Ht) as Ht'.
  assert (Hagain : forall c d, each (refIn S) c -> each (refIn T) d ->
    (length (nodes c) + length (nodes d) < length (nodes (derefSubset sub d1)) + length (nodes (derefSubset super d2)))%nat ->
    compares vis' c d).
  { intros c d Hc Hd Hlt. subst vis'. destruct refs eqn:Er.
    - eapply IHu; [|reflexivity|done|done]. rewrite Eu.
      apply shrinks; [by apply key_in_keys; apply each_self|]. by apply bool_decide_eq_false in Hk.
    - subst refs. apply orb_false_iff in Er as [E1 E2]. apply negb_false_iff, bool_decide_eq_true in E1, E2.
      unfold derefSubset in Hlt. rewrite !decide_True in Hlt by done. eapply IHs; [|reflexivity|done|done]. lia. }
  revert Hagain Hs' Ht'. generalize (derefSubset sub d1) (derefSubset super d2).
  intros c0 d0 Hagain Hc0 Hd0. clear Hk.
  destruct (negb (bool_decide (Ref d0 = ""))); [apply settled_const|].
  destruct (isEmptyNode d0); [apply settled_const|]. destruct (existsb _ _); [apply settled_const|].
  destruct (isEmptyNode c0); [apply settled_const|].
  assert (Hleft : forall a, a ∈ children c0 -> compares vis' a d0).
  { intros a Ha. apply Hagain; [by eapply each_child|done|]. apply nodes_child in Ha as [_ ?]. lia. }
  assert (Hright : forall a, a ∈ children d0 -> compares vis' c0 a).
  { intros a Ha. apply Hagain; [done|by eapply each_child|]. apply nodes_child in Ha as [_ ?]. lia. }
  assert (Harms : forall n l a, arms_of n = Some l -> a ∈ l -> a ∈ children n).
  { intros n l a. unfold arms_of. destruct (AnyOf n) eqn:E.
    - intros [= ->] Ha. apply child_anyOf. by rewrite E.
    - intros E2 Ha. apply child_oneOf. by rewrite E2. }
  assert (Hall : forall n a, a ∈ entries (AllOf n) -> a ∈ children n).
  { intros n a Ha. unfold children. rewrite !elem_of_app. tauto. }
  destruct (arms_of c0) as [l|] eqn:El.
  { apply (settled_allM (fun a i => check i mode d1 d2 vis' a d0)). intros a Ha. by eapply Hleft, Harms. }
  destruct (entries (AllOf c0)) as [|b l] eqn:Ec.
  2:{ apply (settled_anyM (fun a i => check i mode d1 d2 vis' a d0)). intros a Ha. apply Hleft, Hall. by rewrite Ec. }
  destruct (arms_of d0) as [l|] eqn:El2.
  { apply (settled_anyM (fun a i => check i mode d1 d2 vis' c0 a)). intros a Ha. by eapply Hright, Harms. }
  destruct (entries (AllOf d0)) as [|b l] eqn:Ed.
  2:{ apply (settled_allM (fun a i => check i mode d1 d2 vis' c0 a)). intros a Ha. apply Hright, Hall. by rewrite Ed. }
  apply (plain_compares (fun c d i => check i mode d1 d2 vis' c d)); [|done].
  intros c d Hc (b & Hb & Hw) Hd. apply Hagain; [done|by eapply each_child|].
  pose proof (within_length _ _ _ Hb Hw). apply nodes_child in Hd as [_ ?]. lia.
Qed.

End Ending.

(** Every reference of a schema and its pool. *)
Definition refs_of defs n : list string :=
  (Ref <$> nodes n) ++ (map_to_list defs ≫= fun kd => Ref <$> nodes kd.2).

Lemma refs_of_root defs n : each (refIn (refs_of defs n)) n.
Proof.
  apply Forall_forall. intros c Hc. right. unfold refs_of. apply elem_of_app. left. by apply list_elem_of_fmap_2.
Qed.

Lemma refs_of_pool defs n : pool_each (refIn (refs_of defs n)) defs.
Proof.
  intros k d Hd. apply Forall_forall. intros c Hc. right. unfold refs_of. apply elem_of_app. right.
  apply list_elem_of_bind. exists (k, d). split; [by apply list_elem_of_fmap_2|]. by apply (elem_of_map_to_list (M:=gmap string)).
Qed.

(** The subset relation ends in every mode, whatever the two schemas and their
    reference cycles. *)
Theorem subset_total subDefs sub superDefs super mode :
  exists fuel answer, subsetWith fuel subDefs sub superDefs super mode = Some answer.
Proof.
  apply (check_ends mode subDefs superDefs (refs_of subDefs sub) (refs_of superDefs super));
    auto using refs_of_root, refs_of_pool.
Qed.

End Theory.
End Fitting.
