(* ===== verification/Compat.v ===== *)
(** The subset relation and the conform walk together: what the relation admits the walk
    takes, every schema fits itself, and where neither is so. *)
From Stdlib Require Import ZArith QArith Qabs Qround Lia Lqa Ascii String.
From stdpp Require Import sorting.
From S2P Require Import Prelude.
From S2P Require Import GoStrings.
From S2P Require Import Schema.
From S2P Require Import Subset.
From S2P Require Import Conforming.
From S2P Require Import Fitting.
Open Scope string_scope.
Open Scope list_scope.
Open Scope Z_scope.

Module Compat.
Import Schema Subset Conforming Fitting.

Section Theory.
Context `{Numbers}.

Implicit Types (n r p a b c d sub super : node) (defs : defs_t) (v w : value) (k : string).

(** What soundness asks of the schema a value comes from. *)
Record source (rank : string -> nat) defs n : Prop := mkSource {
  source_acyclic : acyclic rank defs;
  source_noAlias : noAlias defs;
  source_pool : pool_each (fun c => tidySub c /\ scalarEnum c) defs;
  source_root : each (fun c => tidySub c /\ scalarEnum c) n }.

(** And of the schema it goes to. *)
Record target (rank : string -> nat) defs n : Prop := mkTarget {
  target_acyclic : acyclic rank defs;
  target_pool : pool_each (fun c => tidy c /\ readable defs c) defs;
  target_root : each (fun c => tidy c /\ readable defs c) n }.

Lemma each_impl (P Q : node -> Prop) n : (forall c, P c -> Q c) -> each P n -> each Q n.
Proof. intros Hpq Hn. by eapply Forall_impl. Qed.

Lemma pool_impl (P Q : node -> Prop) defs : (forall c, P c -> Q c) -> pool_each P defs -> pool_each Q defs.
Proof. intros Hpq Hp k c Hc. eapply each_impl; [done|]. by eapply Hp. Qed.

Lemma each_both (P Q : node -> Prop) n : each (fun c => P c /\ Q c) n -> each P n /\ each Q n.
Proof. intros Hn. split; (eapply each_impl; [|exact Hn]); by intros c [? ?]. Qed.

Lemma pool_both (P Q : node -> Prop) defs :
  pool_each (fun c => P c /\ Q c) defs -> pool_each P defs /\ pool_each Q defs.
Proof. intros Hn. split; (eapply pool_impl; [|exact Hn]); by intros c [? ?]. Qed.

(** C16. The subset relation is sound for the walk: what a strict conform to one schema
    answers, a strict conform takes of every schema the first is a subset of, where every
    number of the answer is in the range of a [float64] and:
    - on both sides no node has an [allOf] or an empty list of arms, no reference holds a bar,
      and references lead only downwards, by a rank of the definitions;
    - in the smaller schema and its definitions no definition is itself a bare reference, no
      object has [additionalProperties], an enumeration has members and only scalar ones, a
      node that is neither {}, a reference nor a union names a type, and a required name is
      among the properties;
    - in the larger schema and its definitions the members of an enumeration are scalars, no
      value is of two arms of a [oneOf], and a default a property takes validates.
    The relation is not sound for recursive definitions, open maps, overlapping arms, large
    integers and undeclared required names: [recursion_unsound], [open_unsound],
    [oneOf_unsound], [integer_no_number] and [required_unsound] are such pairs. *)
Theorem subset_sound subRank superRank subDefs superDefs sub super fuel fuel' v w :
  source subRank subDefs sub -> target superRank superDefs super ->
  isSubset fuel subDefs sub superDefs super = Some true ->
  Validate fuel' subDefs sub v Strict = Some (Ok w) -> representable w = true ->
  exists fuel'' u, Validate fuel'' superDefs super w Strict = Some (Ok u).
Proof.
  intros [Hs1 Hs2 Hs3 Hs4] [Ht1 Ht2 Ht3] Hsub Hv Hw.
  pose proof Hs3 as [H1 H2]%pool_both. pose proof Hs4 as [H3 H4]%each_both.
  pose proof Ht2 as [H5 H6]%pool_both. pose proof Ht3 as [H7 H8]%each_both.
  eapply accepts_takes; [by apply acyclic_productive, Ht1|done| |done|apply above_empty].
  eapply (check_sound subRank superRank subDefs superDefs); [done..| |done|done|exact Hsub|done|].
  - intros z Hz. by apply not_elem_of_empty in Hz.
  - by eapply conform_answers.
Qed.
(** * Every schema fits itself *)

(** Every reference is followed in one step, there is no [allOf], and no arm of a union
    is {}. *)
Definition plainArms defs n : Prop :=
  Ref (derefSubset n defs) = "" /\ AllOf n = None /\
  Forall (fun a => isEmptyNode (derefSubset a defs) = false) (default [] (arms_of n)).

Section Self.
Context (mode : subsetMode) (defs : defs_t) (Hpool : pool_each (plainArms defs) defs).

(** [c] is [d] or an arm of it, or an arm of an arm. *)
Inductive upto : node -> node -> Prop :=
  | upto_same c d : derefSubset c defs = derefSubset d defs -> upto c d
  | upto_arm c d a : a ∈ default [] (arms_of (derefSubset d defs)) -> upto c a -> upto c d.

Lemma deref_idem n : Ref n = "" -> derefSubset n defs = n.
Proof using. intros E. unfold derefSubset. by rewrite decide_True. Qed.

Lemma upto_deref c c' d : derefSubset c defs = derefSubset c' defs -> upto c d -> upto c' d.
Proof using.
  intros E Hu. induction Hu as [c d Hcd|c d a Ha _ IH]; [apply upto_same; congruence|].
  eapply upto_arm; [done|by apply IH].
Qed.

Lemma upto_down c d a : upto c d -> a ∈ default [] (arms_of (derefSubset c defs)) -> upto a d.
Proof using.
  intros Hu Ha. induction Hu as [c d Hcd|c d b Hb _ IH].
  - rewrite Hcd in Ha. eapply upto_arm; [done|]. by apply upto_same.
  - eapply upto_arm; [done|by apply IH].
Qed.

Lemma upto_right a d : Ref (derefSubset d defs) = "" -> upto a d -> upto a (derefSubset d defs).
Proof using.
  intros Hr Ha. pose proof (deref_idem _ Hr) as E. destruct Ha as [a d Ha|a d b Hb Hab].
  - apply upto_same. congruence.
  - eapply upto_arm; [by rewrite E|done].
Qed.

Lemma upto_empty c d : each (plainArms defs) d -> upto c d ->
  isEmptyNode (derefSubset c defs) = true -> isEmptyNode (derefSubset d defs) = true.
Proof using Hpool.
  intros Hd Hu. revert Hd. induction Hu as [c d E|c d a Ha _ IH]; intros Hd He; [congruence|].
  exfalso. pose proof (each_derefSubset _ _ _ Hpool Hd) as Hd'.
  pose proof (each_self _ _ Hd') as (_ & _ & Har). rewrite Forall_forall in Har. specialize (Har a Ha).
  rewrite IH in Har; [done| |done]. eapply each_child; [done|].
  unfold arms_of in Ha. destruct (AnyOf (derefSubset d defs)) eqn:E.
  - apply child_anyOf. by rewrite E.
  - by apply child_oneOf.
Qed.

(** Not refuted: true, or fuel run out. *)
Definition holds (o : option bool) : Prop := o <> Some false.

Lemma holds_also x y : holds x -> holds y -> holds (also x y).
Proof using. destruct x as [[]|]; auto. Qed.

Lemma holds_true (b : bool) : b = true -> holds (Some b).
Proof using. by intros ->. Qed.

Lemma holds_allM {A} (f : A -> option bool) l : (forall z, z ∈ l -> holds (f z)) -> holds (allM f l).
Proof using.
  induction l as [|z l IH]; intros Hf; cbn; [done|].
  assert (Hz : holds (f z)) by (apply Hf; constructor).
  destruct (f z) as [[]|]; [|by destruct Hz|done]. apply IH. intros y Hy. apply Hf. by constructor.
Qed.

Lemma holds_anyM {A} (f : A -> option bool) l z : z ∈ l -> holds (f z) -> holds (anyM f l).
Proof using.
  intros Hz Hf. induction l as [|y l IH]; [by apply not_elem_of_nil in Hz|]. cbn.
  apply elem_of_cons in Hz as [->|Hz]; destruct (f y) as [[]|]; try done; by apply IH.
Qed.

Lemma boundFits_refl {A} (fits : A -> A -> bool) (x : option A) :
  (forall y, fits y y = true) -> boundFits fits x x = true.
Proof using. intros Hr. by destruct x; cbn. Qed.

Lemma typeAllowed_refl (t : string) ts : t ∈ ts -> typeAllowed t ts = true.
Proof using.
  intros Ht. apply existsb_exists. exists t. split; [by apply list_elem_of_In|]. by rewrite bool_decide_true.
Qed.

Lemma plain_self f nf n :
  (forall c, c ∈ children n -> holds (f c c)) -> holds (checkPlain f nf mode defs defs n n).
Proof using.
  intros Hf. unfold checkPlain. repeat apply holds_also; try apply holds_true.
  - destruct (Types n) eqn:E; [done|]. rewrite <- E. apply holds_true, forallb_forall.
    intros t Ht. by apply typeAllowed_refl, list_elem_of_In.
  - destruct (_ && _); [done|]. unfold checkObject. repeat apply holds_also.
    + apply holds_allM. intros k Hk. unfold requiredFits, guaranteed, isRequired. by rewrite bool_decide_true.
    + apply holds_allM. intros k _. unfold propertyFits. destruct (props n !! k) as [p|] eqn:Hp; [|done].
      assert (Hpp : holds (f p p)) by (apply Hf; by eapply child_prop).
      destruct (f p p) as [[]|]; [done|by destruct Hpp|done].
    + destruct (AdditionalProperties n) as [a|] eqn:Ha; [|done]. apply holds_also.
      * apply holds_allM. intros k _. unfold extraFits. by destruct (props n !! k).
      * apply Hf. by apply child_extra.
    + destruct (closed mode && isNone (AdditionalProperties n)) eqn:Hc; [|done].
      apply andb_true_iff in Hc as [_ Hc]. apply holds_true. unfold checkClosed. rewrite Hc, andb_true_r.
      apply forallb_forall. intros k Hk. apply list_elem_of_In, elem_of_sortedKeys in Hk as [p ->]. done.
  - unfold checkArray. destruct (Items n) as [i|] eqn:Hi; [|done]. destruct (bool_decide _); [done|].
    apply Hf. by apply child_item.
  - unfold checkItemCount. rewrite !boundFits_refl; [done|intros y; apply negb_true_iff; lia..].
  - unfold checkNumericBounds. rewrite !boundFits_refl; [done|intros y; by rewrite (proj1 (Qeq_alt y y) (Qeq_refl y))..].
  - unfold checkStringLength. rewrite !boundFits_refl; [done|intros y; apply negb_true_iff; lia..].
  - unfold checkEnum. destruct (Enum n) as [vs|]; [|done]. apply forallb_forall. intros v Hv.
    rewrite bool_decide_true by (by apply list_elem_of_In). done.
Qed.

Lemma self_fits fuel : forall vis c d, each (plainArms defs) c -> each (plainArms defs) d -> upto c d ->
  holds (check fuel mode defs defs vis c d).
Proof using Hpool.
  induction fuel as [|fuel IH]; intros vis c d Hc Hd Hu; [done|]. cbn [check].
  destruct (_ && bool_decide (key c d ∈ vis)); [done|]. set (vis' := if _ : bool then _ else vis).
  pose proof (each_derefSubset _ _ _ Hpool Hc) as Hc'. pose proof (each_derefSubset _ _ _ Hpool Hd) as Hd'.
  pose proof (each_self _ _ Hc) as (Hrc & _ & _). pose proof (each_self _ _ Hd) as (Hrd & _ & _).
  pose proof (upto_empty _ _ Hd Hu) as Hempty. rewrite (bool_decide_true _ Hrd). cbn [negb].
  assert (Hu' : upto (derefSubset c defs) d) by (eapply upto_deref; [|done]; by rewrite (deref_idem _ Hrc)).
  assert (Hcase : derefSubset c defs = derefSubset d defs \/
    exists a, a ∈ default [] (arms_of (derefSubset d defs)) /\ upto (derefSubset c defs) a).
  { destruct Hu' as [c0 d0 E|c0 d0 a Ha Hua]; [|eauto]. left. by rewrite <- E, deref_idem. }
  assert (Hdown : forall a, a ∈ default [] (arms_of (derefSubset c defs)) -> upto a d)
    by (intros a Ha; exact (upto_down _ _ _ Hu Ha)).
  revert Hc' Hd' Hempty Hcase Hdown.
  assert (Htop : forall a, upto a d -> upto a (derefSubset d defs)) by (intros a; by apply upto_right).
  revert Htop. generalize (derefSubset c defs) (derefSubset d defs). clear Hu' Hrc Hrd.
  intros sub super Htop Hs Ht Hempty Hcase Hdown.
  destruct (isEmptyNode super); [done|]. destruct (existsb _ _); [done|].
  destruct (isEmptyNode sub); [by specialize (Hempty eq_refl)|].
  assert (Harm : forall n l a, each (plainArms defs) n -> arms_of n = Some l -> a ∈ l -> each (plainArms defs) a).
  { intros n l a Hn El Ha. eapply each_child; [done|]. unfold arms_of in El. destruct (AnyOf n) eqn:E.
    - injection El as ->. apply child_anyOf. by rewrite E.
    - apply child_oneOf. by rewrite El. }
  destruct (arms_of sub) as [l|] eqn:El.
  { apply holds_allM. intros a Ha. apply IH; [exact (Harm _ _ _ Hs El Ha)|done|]. by apply Htop, Hdown. }
  pose proof (each_self _ _ Hs) as (_ & Hall & _). unfold entries. rewrite Hall. cbn [default].
  pose proof (each_self _ _ Ht) as (_ & Hall' & _). rewrite Hall'.
  destruct Hcase as [->|(a & Ha & Hua)].
  - rewrite El. apply plain_self. intros a Ha. apply IH; [by eapply each_child..|by apply upto_same].
  - destruct (arms_of super) as [l'|] eqn:El'; [|by apply not_elem_of_nil in Ha].
    eapply holds_anyM; [exact Ha|]. apply IH; [done|exact (Harm _ _ _ Ht El' Ha)|done].
Qed.

End Self.

(** Every schema is a subset of itself in every mode, recursive ones included: what
    has not changed between two versions is never reported as a break. *)
Theorem subset_refl defs n mode :
  pool_each (plainArms defs) defs -> each (plainArms defs) n ->
  exists fuel, subsetWith fuel defs n defs n mode = Some true.
Proof.
  intros Hp Hn.
  destruct (check_ends mode defs defs (refs_of defs n) (refs_of defs n) (refs_of_pool _ _) (refs_of_pool _ _) ∅ n n)
    as [_ (fuel & answer & Ha)]; [by apply refs_of_root..|].
  exists fuel. unfold subsetWith. rewrite Ha. destruct answer; [done|]. exfalso.
  eapply (self_fits mode defs Hp fuel); [exact Hn|exact Hn|by apply upto_same|exact Ha].
Qed.

(** * Concrete schemas *)

Definition typed (t : string) : node :=
  mkNode [t] None None None None None None None None None None None None None None "" None.
Definition ref (k : string) : node :=
  mkNode [] None None None None None None None None None None None None None None (refPrefix +:+ k) None.
Definition refDefault (k : string) (v : value) : node :=
  mkNode [] None None None None None None None None None None None None None None (refPrefix +:+ k) (Some v).
Definition object (ps : gmap string node) (req : list string) : node :=
  mkNode ["object"] (Some ps) (Some req) None None None None None None None None None None None None "" None.
Definition oneOf (l : list node) : node :=
  mkNode [] None None None None (Some l) None None None None None None None None None "" None.
Definition openMap (a : node) : node :=
  mkNode ["object"] None None (Some a) None None None None None None None None None None None "" None.

(** [v] passes the smaller schema, the relation holds, and the larger refuses [v]. *)
Definition unsound (subDefs : defs_t) sub (superDefs : defs_t) super v : Prop :=
  Validate 20 subDefs sub v Strict = Some (Ok v) /\
  isSubset 20 subDefs sub superDefs super = Some true /\
  exists e, Validate 20 superDefs super v Strict = Some (Err e).

(** The same, to be computed. *)
Definition passes (defs : defs_t) n v w : bool :=
  match Validate 20 defs n v Strict with Some (Ok u) => bool_decide (u = w) | _ => false end.

Definition unsoundly (subDefs : defs_t) sub (superDefs : defs_t) super v : bool :=
  passes subDefs sub v v &&
  match isSubset 20 subDefs sub superDefs super with Some u => u | None => false end &&
  match Validate 20 superDefs super v Strict with Some (Err _) => true | _ => false end.

Lemma passes_ok defs n v w : passes defs n v w = true -> Validate 20 defs n v Strict = Some (Ok w).
Proof. unfold passes. destruct (Validate 20 defs n v Strict) as [[u|]|]; try done. by intros ->%bool_decide_eq_true. Qed.

Lemma unsoundly_ok subDefs sub superDefs super v :
  unsoundly subDefs sub superDefs super v = true -> unsound subDefs sub superDefs super v.
Proof.
  unfold unsoundly. rewrite !andb_true_iff. intros [[H1 H2] H3]. split; [by apply passes_ok|]. split.
  - by destruct (isSubset 20 subDefs sub superDefs super) as [[]|].
  - destruct (Validate 20 superDefs super v Strict) as [[]|]; try done. by eexists.
Qed.

(** ** A default that never ends *)

Definition endlessNode : node := object {["x" := refDefault "A" (VObj ∅)]} [].
Definition endless : defs_t := {["A" := endlessNode]}.

(** What the walk does with [endlessNode] and {} is to conform the default. *)
Lemma endless_object f nf :
  conformObject f nf Strict endless endlessNode ∅ =
  andThen (match f (refDefault "A" (VObj ∅)) (VObj ∅) with
           | None => None
           | Some (Err e) => fail (BadDefault e)
           | Some (Ok norm) => done (Some norm)
           end) (fun o => done (VObj match o with Some v => <["x" := v]> ∅ | None => ∅ end)).
Proof.
  unfold conformObject. replace (sortedKeys (props endlessNode)) with ["x"] by (vm_compute; reflexivity).
  cbn [build]. replace (conformProperty f nf Strict endless endlessNode ∅ "x") with
    (match f (refDefault "A" (VObj ∅)) (VObj ∅) with
     | None => None
     | Some (Err e) => fail (BadDefault e)
     | Some (Ok norm) => done (Some norm)
     end) by reflexivity.
  by destruct (f (refDefault "A" (VObj ∅)) (VObj ∅)) as [[]|].
Qed.

Lemma endless_step fuel n :
  n = ref "A" \/ n = refDefault "A" (VObj ∅) -> conformGuard fuel Strict endless n (VObj ∅) ∅ = None.
Proof.
  revert n. induction fuel as [|fuel IH]; intros n Hn; [done|]. rewrite conform_step.
  replace (deref endless n) with (Ok (E := ref_error) (endlessNode, Some "A"))
    by (destruct Hn as [-> | ->]; vm_compute; reflexivity).
  rewrite bool_decide_false by (apply not_elem_of_empty).
  change (isEmptyNode endlessNode) with false. change (arms endlessNode) with (@nil node).
  change (conformPlain fuel Strict endless endlessNode (VObj ∅)) with
    (conformObject (fun a w => conformGuard fuel Strict endless a w ∅) (hasNullResolved fuel endless)
       Strict endless endlessNode ∅).
  rewrite endless_object. by rewrite IH by (by right).
Qed.

(** A default is conformed like a supplied value, so one that holds an object may
    take defaults in its turn: conforming {} to an object whose optional property
    refers back to it with the default {} never returns, whatever the fuel. *)
Theorem default_endless fuel : Validate fuel endless (ref "A") (VObj ∅) Strict = None.
Proof. apply endless_step. by left. Qed.

End Theory.

(** ** Where the relation is not sound *)

(** Decimal literals, mantissa and exponent, and the range of a [float64]. *)
Definition decimals : Numbers := {|
  num := Z * Z;
  ToDecimal x := Some (inject_Z x.1 * Qpower 10 x.2)%Q;
  RoundToIntegralValue q := Some (inject_Z (Qfloor (q + (1 # 2))%Q));
  Float64 x := match Qcompare (Qabs (inject_Z x.1 * Qpower 10 x.2)) (inject_Z (2 ^ 1024 - 2 ^ 970)) with
               | Lt => true | _ => false end |}.
#[local] Existing Instance decimals.

Definition number (z : Z) : value := VNum (z, 0).

(** A list of strings, as a recursive definition. *)
Definition chain : defs_t := {["Chain" := object {["next" := ref "Chain"; "val" := typed "string"]} ["val"]]}.

(** Two links written out, the second with a number in it. *)
Definition flatChain : node :=
  object {["next" := object {["val" := typed "number"]} ["val"]; "val" := typed "string"]} ["val"].

(** The key under which a pair is remembered names the references on each side and
    not the nodes, so an inline schema compared with a recursive definition is taken on
    trust below its first level: the relation admits a list whose second link holds a
    number where the definition wants a string, and the conform refuses its values. *)
Theorem recursion_unsound :
  unsound ∅ flatChain chain (ref "Chain")
    (VObj {["next" := VObj {["val" := number 5]}; "val" := VStr "a"]}).
Proof. apply unsoundly_ok. vm_compute. reflexivity. Qed.

(** An open map may hold any key, a declared optional property of the larger schema
    included. *)
Lemma open_unsound :
  unsound ∅ (openMap (typed "number")) ∅ (object {["x" := typed "string"]} []) (VObj {["x" := number 5]}).
Proof. apply unsoundly_ok. vm_compute. reflexivity. Qed.

(** One arm that fits is enough for the relation; the walk wants exactly one. *)
Lemma oneOf_unsound :
  unsound ∅ (typed "integer") ∅ (oneOf [typed "integer"; typed "number"]) (number 5).
Proof. apply unsoundly_ok. vm_compute. reflexivity. Qed.

(** An integer past the range of a [float64] is no number. *)
Lemma integer_no_number : unsound ∅ (typed "integer") ∅ (typed "number") (VNum (1, 400)).
Proof. apply unsoundly_ok. vm_compute. reflexivity. Qed.

(** A name required and not declared is never asked for by the walk, and the relation takes it
    for a promise. *)
Lemma required_unsound : unsound ∅ (object ∅ ["x"]) ∅ (object {["x" := typed "string"]} ["x"]) (VObj ∅).
Proof. apply unsoundly_ok. vm_compute. reflexivity. Qed.

(** An enumeration is asked before the value is stripped: of an enumeration of objects the walk
    can answer what is none of its members. *)
Definition held : node :=
  mkNode ["object"] None None None None None None None (Some [VObj {["a" := VNull]}])
    None None None None None None "" None.

Lemma enum_before_strip :
  exists w, Validate 20 ∅ held (VObj {["a" := VNull]}) Strict = Some (Ok w) /\
  exists e, Validate 20 ∅ held w Strict = Some (Err e).
Proof. do 2 eexists; [|eexists]; reflexivity. Qed.

(** A migration writes null into a required slot whose type admits it, without asking
    the enumeration. *)
Definition choice : node :=
  mkNode ["string"; "null"] None None None None None None None (Some [VStr "a"])
    None None None None None None "" None.

Lemma exactly_breaks_enum :
  exists w, Validate 20 ∅ (object {["x" := choice]} ["x"]) (VObj ∅) Exactly = Some (Ok w) /\
  exists e, Validate 20 ∅ (object {["x" := choice]} ["x"]) w Strict = Some (Err e).
Proof. do 2 eexists; [|eexists]; reflexivity. Qed.

(** ** A schema the theorems apply to *)

Module Demo.

(** Whole numbers. *)
Definition whole : Numbers := {|
  num := Z; ToDecimal x := Some (inject_Z x); RoundToIntegralValue q := Some q; Float64 _ := true |}.
#[local] Existing Instance whole.

Definition text : node := typed "string".
Definition nil : node := typed "null".
Definition lang : node :=
  mkNode ["string"] None None None None None None None None None None None None None None "" (Some (VStr "en")).
Definition name : node := ref "Name".
Definition nick : node := oneOf [name; nil].

Definition defs : defs_t := {["Name" := text]}.
Definition person : node := object {["name" := name; "nick" := nick; "lang" := lang]} ["name"].
Definition named : node := object {["name" := text; "nick" := text]} ["name"].

Definition given : value := VObj {["name" := VStr "Ada"; "age" := @VNum whole 36]}.
Definition kept : value := VObj {["name" := VStr "Ada"]}.

(** The one definition lies below every reference to it. *)
Definition rank (s : string) : nat := String.length s.

Lemma person_each (P : node -> Prop) :
  P person -> P name -> P nick -> P lang -> P nil -> each P person.
Proof.
  intros. eapply each_intro; [vm_compute; reflexivity|]. repeat constructor; done.
Qed.

Lemma named_each (P : node -> Prop) : P named -> P text -> each P named.
Proof. intros. eapply each_intro; [vm_compute; reflexivity|]. repeat constructor; done. Qed.

Lemma defs_lookup k r : defs !! k = Some r -> r = text.
Proof.
  intros Hk. apply (lookup_singleton_Some (M:=gmap string) "Name" k text r) in Hk as [_ <-]. done.
Qed.

Lemma defs_each (P : node -> Prop) : P text -> pool_each P defs.
Proof.
  intros HP k r Hk. apply defs_lookup in Hk as ->. eapply each_intro; [vm_compute; reflexivity|]. by repeat constructor.
Qed.

Lemma no_acyclic (r : string -> nat) : acyclic r ∅.
Proof. intros k n c Hk. by apply (lookup_empty_Some (M:=gmap string)) in Hk. Qed.

Lemma defs_acyclic : acyclic rank defs.
Proof.
  intros k r c Hk Hc Hr. exfalso. apply defs_lookup in Hk as ->.
  apply Hr. revert Hc. change (nodes text) with [text]. by intros ->%list_elem_of_singleton.
Qed.

(** A value of a node that is only a type. *)
Lemma accepts_typed (ds : defs_t) (t : string) (v : value) :
  sat false ds (typed t) v -> valueHasType v t = true.
Proof.
  intros Hv. inversion Hv as [? r o ? Hd He|? r o ? a Hd He Ha|? r o ? Hd He Ha Hok]; subst;
    injection Hd as <- _; [done|by apply not_elem_of_nil in Ha|].
  pose proof (plain_type _ _ Hok) as Ht. cbn in Ht. by rewrite orb_false_r in Ht.
Qed.

Lemma no_union (n : node) : OneOf n = None -> exclusive defs n.
Proof. intros E l1 a l2 b v Hl. rewrite E in Hl. by destruct l1. Qed.

Lemma nick_exclusive : exclusive defs nick.
Proof.
  assert (Hno : forall v, sat false defs name v -> sat false defs nil v -> False).
  { intros v H1 H2. apply (sat_resolved false defs name text (Some "Name")) in H1; [|reflexivity].
    apply accepts_typed in H1, H2. by destruct v. }
  intros l1 a l2 b v Hl Hb Ha Hv. destruct l1 as [|x1 [|x2 l1]]; cbn in Hl; simplify_eq.
  - apply list_elem_of_singleton in Hb as ->. by eapply Hno.
  - apply list_elem_of_singleton in Hb as ->. by eapply Hno.
  - by destruct l1.
Qed.

Lemma no_default (n : node) : propDefault defs n = None -> defaultFits defs n.
Proof. intros E d Hd. congruence. Qed.

Lemma readable_nodes (P : node -> Prop) :
  (forall n, n ∈ [person; name; nick; lang; nil; text] -> P n) -> each P person /\ pool_each P defs.
Proof.
  intros HP. split; [apply person_each|apply defs_each]; apply HP; rewrite !elem_of_cons; tauto.
Qed.

Lemma demo_readable n : n ∈ [person; name; nick; lang; nil; text] -> readable defs n.
Proof.
  intros Hn. split; [|split].
  - by repeat (apply elem_of_cons in Hn as [->|Hn]; [constructor|]); apply not_elem_of_nil in Hn.
  - repeat (apply elem_of_cons in Hn as [->|Hn]; [by apply nick_exclusive || by apply no_union|]).
    by apply not_elem_of_nil in Hn.
  - repeat (apply elem_of_cons in Hn as [->|Hn]; [by apply no_default|]).
    apply elem_of_cons in Hn as [->|Hn].
    { intros d [= <-]. exists 20%nat, (VStr "en"). by apply passes_ok. }
    repeat (apply elem_of_cons in Hn as [->|Hn]; [by apply no_default|]). by apply not_elem_of_nil in Hn.
Qed.

Lemma conform_total_witness :
  exists fuel answer, Validate fuel defs person given Strict = Some answer.
Proof.
  apply (conform_total Strict defs person given). intros _. apply and_comm.
  apply (readable_nodes flatDefault). intros n Hn.
  by repeat (apply elem_of_cons in Hn as [->|Hn]; [reflexivity || exact I|]); apply not_elem_of_nil in Hn.
Defined.

Lemma conform_sound_witness : sat true defs person
    (VObj {["name" := VStr "Ada"; "lang" := VStr "en"]}) /\ sat false defs person given.
Proof.
  assert (Hn : each scalarEnum person /\ pool_each scalarEnum defs).
  { apply readable_nodes. intros n Hn. by apply demo_readable. }
  apply (conform_sound 20 defs person given); [apply Hn|apply Hn|]. apply passes_ok. vm_compute. reflexivity.
Defined.

Lemma demo_tidy n : n ∈ [person; name; nick; lang; nil; text; named] -> tidy n.
Proof.
  intros Hn. by repeat (apply elem_of_cons in Hn as [->|Hn]; [by repeat split|]); apply not_elem_of_nil in Hn.
Qed.

Lemma named_source : source rank ∅ named.
Proof.
  assert (Hp : forall P, pool_each P ∅).
  { intros P k n Hk. by apply (lookup_empty_Some (M:=gmap string)) in Hk. }
  split; [apply no_acyclic|intros k n Hk; by apply (lookup_empty_Some (M:=gmap string)) in Hk|apply Hp|].
  apply named_each.
  - split; [|constructor]. split; [apply demo_tidy; rewrite !elem_of_cons; tauto|]. repeat split; try done.
    intros k Hk. apply bool_decide_eq_true, list_elem_of_singleton in Hk as ->. by exists text.
  - split; [|constructor]. split; [apply demo_tidy; rewrite !elem_of_cons; tauto|]. by repeat split.
Qed.

Lemma person_target : target rank defs person.
Proof.
  assert (Hn : each (fun n => tidy n /\ readable defs n) person /\ pool_each (fun n => tidy n /\ readable defs n) defs).
  { apply readable_nodes. intros n Hn. split; [|by apply demo_readable].
    apply demo_tidy. rewrite !elem_of_cons in *. tauto. }
  split; [apply defs_acyclic|apply Hn|apply Hn].
Qed.

Lemma subset_sound_witness :
  exists fuel u, Validate fuel defs person kept Strict = Some (Ok u).
Proof.
  apply (subset_sound rank rank ∅ defs named person 20 20 given kept).
  - exact named_source.
  - exact person_target.
  - vm_compute. reflexivity.
  - apply passes_ok. vm_compute. reflexivity.
  - vm_compute. reflexivity.
Defined.

Lemma subset_refl_witness : exists fuel, subsetWith fuel defs person defs person conformsExactlyMode = Some true.
Proof.
  assert (Hn : each (plainArms defs) person /\ pool_each (plainArms defs) defs).
  { apply readable_nodes. intros n Hn.
    by repeat (apply elem_of_cons in Hn as [->|Hn]; [repeat split; by repeat constructor|]); apply not_elem_of_nil in Hn. }
  apply (subset_refl defs person conformsExactlyMode); apply Hn.
Defined.

End Demo.

End Compat.
