(* ===== verification/Json.v ===== *)
(** The values the object store cuts: decoded JSON with references to stored objects in
    it, what Go's [encoding/json] writes for them, and the paths of model/objpath.go.

    A Go map is an association list kept in the order of its keys, which is the order
    [json.Marshal] and the sorted walks of the source visit it in; [wf] says the list is
    in that order.  A [float64] leaf does not occur: numbers are decoded to
    [json.Number]. *)
From Stdlib Require Import ZArith Lia Ascii String.
From S2P Require Import Prelude GoStrings.
Open Scope string_scope.
Open Scope list_scope.
Open Scope Z_scope.

Set Warnings "-register-all".

Module Json.

(** [len(s)]. *)
Definition len (s : string) : Z := Z.of_nat (String.length s).

(** * [encoding/json] on strings and numbers *)

(** [s] between double quotes. *)
Definition dquote : ascii := ascii_of_nat 34.
Definition quoted (s : string) : string := String dquote (s +:+ String dquote "").

Definition hex_digit (d : Z) : ascii :=
  if d <? 10 then digit_char d else ascii_of_nat (Z.to_nat (87 + d)).

(** A byte below 0x80 as [json.Marshal] writes it, HTML characters escaped. *)
Definition escape (c : ascii) : string :=
  let b := byte c in
  if (b =? 34) || (b =? 92) then String "\" (String c "")
  else if b =? 8 then "\b" else if b =? 12 then "\f" else if b =? 10 then "\n"
  else if b =? 13 then "\r" else if b =? 9 then "\t"
  else if (b <? 32) || (b =? 60) || (b =? 62) || (b =? 38) then
    "\u00" +:+ String (hex_digit (b / 16)) (String (hex_digit (b mod 16)) "")
  else String c "".

Definition between (lo hi : Z) (c : ascii) : bool := (lo <=? byte c) && (byte c <=? hi).
Definition tail_byte := between 128 191.

(** The size of the rune [utf8.DecodeRuneInString] finds at the front of a string whose
    first byte is not ASCII; 1 is the error rune. *)
Definition rune_size (s : string) : nat :=
  match s with
  | String a (String b s) =>
      if between 194 223 a && tail_byte b then 2%nat
      else match s with
      | String c s =>
          if ((between 224 224 a && between 160 191 b) || (between 225 236 a && tail_byte b)
              || (between 237 237 a && between 128 159 b) || (between 238 239 a && tail_byte b))
             && tail_byte c then 3%nat
          else match s with
          | String d _ =>
              if ((between 240 240 a && between 144 191 b) || (between 241 243 a && tail_byte b)
                  || (between 244 244 a && between 128 143 b)) && tail_byte c && tail_byte d
              then 4%nat else 1%nat
          | "" => 1%nat
          end
      | "" => 1%nat
      end
  | _ => 1%nat
  end.

(** U+2028 and U+2029 are escaped too. *)
Definition write_rune3 (a b c : ascii) : string :=
  if (byte a =? 226) && (byte b =? 128) && ((byte c =? 168) || (byte c =? 169))
  then "\u202" +:+ String (hex_digit (byte c mod 16)) ""
  else String a (String b (String c "")).

Fixpoint quote_body (s : string) : string :=
  match s with
  | "" => ""
  | String a s1 =>
      if byte a <? 128 then escape a +:+ quote_body s1
      else match rune_size s, s1 with
      | 2%nat, String b s2 => String a (String b (quote_body s2))
      | 3%nat, String b (String c s3) => write_rune3 a b c +:+ quote_body s3
      | 4%nat, String b (String c (String d s4)) =>
          String a (String b (String c (String d (quote_body s4))))
      | _, _ => "\ufffd" +:+ quote_body s1
      end
  end.

(** [json.Marshal] of a string. *)
Definition quote (s : string) : string := quoted (quote_body s).
#[global] Arguments quoted : simpl never.
#[global] Arguments quote : simpl never.

(** [isValidNumber] of encoding/json. *)
Definition digits1 (s : string) : option string :=
  match span_digits s with ("", _) => None | (_, rest) => Some rest end.

Definition isValidNumber (s : string) : bool :=
  let s := match s with String "-" s => s | _ => s end in
  let after :=
    match s with
    | String "0" s => Some s
    | _ => digits1 s
    end in
  let after :=
    match after with
    | Some (String "." s) => digits1 s
    | r => r
    end in
  match after with
  | Some "" => true
  | Some (String c s) =>
      if (byte c =? 101) || (byte c =? 69) then
        let s := match s with String d s' => if (byte d =? 43) || (byte d =? 45) then s' else s
                 | "" => s end in
        match digits1 s with Some "" => true | _ => false end
      else false
  | None => false
  end.

(** * Paths and values *)

(** One step of a path: a key, an index the code made, or an index that was decoded - a
    [json.Number] here, where the numeric decoder was used. *)
Inductive seg :=
  | Key (k : string)
  | Int (i : Z)
  | Number (s : string).

#[export] Instance seg_eq_dec : EqDecision seg.
Proof. solve_decision. Defined.

#[export] Instance seg_countable : Countable seg.
Proof.
  refine (inj_countable'
    (fun s => match s with Key k => inl k | Int i => inr (inl i) | Number n => inr (inr n) end)
    (fun x => match x with inl k => Key k | inr (inl i) => Int i | inr (inr n) => Number n end)
    _).
  by intros [].
Defined.

Definition path := list seg.
#[export] Instance path_eq_dec : EqDecision path := _.
#[export] Instance path_countable : Countable path := _.

(** model/objref.go: [ObjectRef]. *)
Record ObjectRef := mkRef { Ref : string; Size : Z; Path : path }.

#[export] Instance ObjectRef_eq_dec : EqDecision ObjectRef.
Proof. solve_decision. Defined.

Inductive value :=
  | Null
  | Bool (b : bool)
  | Num (s : string)
  | Str (s : string)
  | Mark (r : ObjectRef)
  | Map (l : list (string * value))
  | Arr (l : list value).

Implicit Types (v w x : value) (p q : path) (k : string) (l : list (string * value)).

#[export] Instance value_eq_dec : EqDecision value.
Proof.
  refine (fix go x y {struct x} : Decision (x = y) :=
    match x, y with
    | Null, Null => left _
    | Bool a, Bool b => cast_if (decide (a = b))
    | Num a, Num b => cast_if (decide (a = b))
    | Str a, Str b => cast_if (decide (a = b))
    | Mark a, Mark b => cast_if (decide (a = b))
    | Map a, Map b => cast_if (@decide (a = b) (@list_eq_dec _ (@prod_eq_dec _ _ _ go) a b))
    | Arr a, Arr b => cast_if (@decide (a = b) (@list_eq_dec _ go a b))
    | _, _ => right _
    end); clear go; congruence.
Defined.

(** * [json.Marshal] *)

Definition marshal_seg (s : seg) : option string :=
  match s with
  | Key k => Some (quote k)
  | Int i => Some (FormatInt i)
  | Number n => if isValidNumber n then Some n else None
  end.

(** The struct, its path left out when empty. *)
Definition marshal_ref (r : ObjectRef) : option string :=
  segs ← mapM marshal_seg (Path r);
  let tail := match Path r with
              | [] => ""
              | _ => "," +:+ quoted "path" +:+ ":[" +:+ String.concat "," segs +:+ "]"
              end in
  Some ("{" +:+ quoted "ref" +:+ ":" +:+ quote (Ref r) +:+ "," +:+
        quoted "size" +:+ ":" +:+ FormatInt (Size r) +:+ tail +:+ "}").

Definition marshal_number (s : string) : option string :=
  match s with
  | "" => Some "0"
  | _ => if isValidNumber s then Some s else None
  end.

(** Fails on a number that is not one; nothing else of a value can. *)
Fixpoint marshal v : option string :=
  match v with
  | Null => Some "null"
  | Bool b => Some (if b then "true" else "false")
  | Num s => marshal_number s
  | Str s => Some (quote s)
  | Mark r => marshal_ref r
  | Map l =>
      items ← (fix go l := match l with
               | [] => Some []
               | (k, x) :: l => b ← marshal x; bs ← go l; Some ((quote k +:+ ":" +:+ b) :: bs)
               end) l;
      Some ("{" +:+ String.concat "," items +:+ "}")
  | Arr a =>
      items ← (fix go a := match a with
               | [] => Some []
               | x :: a => b ← marshal x; bs ← go a; Some (b :: bs)
               end) a;
      Some ("[" +:+ String.concat "," items +:+ "]")
  end.

(** * Maps and arrays *)

Fixpoint lookup_key k l : option value :=
  match l with
  | [] => None
  | (k', x) :: l => if String.eqb k k' then Some x else lookup_key k l
  end.

(** [m[k] = x]. *)
Fixpoint put_key k x l : list (string * value) :=
  match l with
  | [] => [(k, x)]
  | (k', y) :: l' =>
      if String.eqb k k' then (k, x) :: l'
      else if String.ltb k k' then (k, x) :: l else (k', y) :: put_key k x l'
  end.

(** [delete(m, k)]. *)
Fixpoint delete_key k l : list (string * value) :=
  match l with
  | [] => []
  | (k', y) :: l => if String.eqb k k' then l else (k', y) :: delete_key k l
  end.

(** [a[i]] and [a[i] = x], where [i] is in range. *)
Definition in_range {A} (i : Z) (a : list A) : bool := (0 <=? i) && (i <? Z.of_nat (length a)).
Definition item (i : Z) (a : list value) : option value :=
  if 0 <=? i then a !! Z.to_nat i else None.
Definition set_item (i : Z) x (a : list value) : list value := <[Z.to_nat i := x]> a.

(** * model/objpath.go *)

(** [index]; the shapes a decoded path does not have are left out. *)
Definition index (s : seg) : option Z :=
  match s with
  | Key _ => None
  | Int i => Some i
  | Number n => ParseInt10 n
  end.

(** [Place]: none is a miss.  A missing key reads as nil, on which the next step misses. *)
Fixpoint Place (root : value) p x : option value :=
  match p with
  | [] => None
  | s :: rest =>
      let below := fun c => match rest with [] => Some x | _ => Place c rest x end in
      match root with
      | Map l =>
          match s with
          | Key k =>
              match rest with
              | [] => Some (Map (put_key k x l))
              | _ => c ← lookup_key k l; c' ← below c; Some (Map (put_key k c' l))
              end
          | _ => None
          end
      | Arr a =>
          i ← index s;
          c ← item i a; c' ← below c; Some (Arr (set_item i c' a))
      | _ => None
      end
  end.

(** [Extract]: the value with every reference replaced by null, and the references with
    their paths.  At the root of a value the source has one case more than inside. *)
Fixpoint Extract v (at_ : path) : value * list ObjectRef :=
  match v with
  | Mark r => (Null, [mkRef (Ref r) (Size r) at_])
  | Map l =>
      let '(l', refs) :=
        (fix go l := match l with
         | [] => ([], [])
         | (k, x) :: l =>
             let '(x', r) := Extract x (at_ ++ [Key k]) in
             let '(l', rs) := go l in ((k, x') :: l', r ++ rs)
         end) l in
      (Map l', refs)
  | Arr a =>
      let '(a', refs) :=
        (fix go i a := match a with
         | [] => ([], [])
         | x :: a =>
             let '(x', r) := Extract x (at_ ++ [Int i]) in
             let '(a', rs) := go (i + 1) a in (x' :: a', r ++ rs)
         end) 0 a in
      (Arr a', refs)
  | _ => (v, [])
  end.

End Json.
