(* ===== verification/ObjectCut.v ===== *)
(** The cut of internal/db/objectcut.go: which parts of a slot's value move out to the
    object store so that what stays fits the row, with [cutSlot] and [cutLogPayload] of
    db_objects.go.

    A node of the walked tree is identified by its path, so a [map[*node]bool] is a set
    of paths.  Go iterates such a map in no fixed order; every place that does sorts
    afterwards, and [Cutting] proves that the order it started from does not matter.
    Values are persistent here, so the copy [deepCopy] takes before a removal is the
    value itself.  The hash of an object's content is a parameter. *)
From Stdlib Require Import ZArith Lia Ascii String.
From stdpp Require Import sorting.
From S2P Require Import Prelude GoStrings Json.
Import Json.
Open Scope string_scope.
Open Scope list_scope.
Open Scope Z_scope.

Set Warnings "-register-all".

Module ObjectCut.

Definition minExternalizeBytes : Z := 128.

Inductive node := Node {
  n_path : path;
  n_value : value;
  n_size : Z;
  n_depth : nat;
  n_already : bool;
  n_children : list node }.

Implicit Types (n d : node) (v : value) (p : path) (chosen : gset path).

(** * The tree *)

Fixpoint collect n : list node := n :: (n_children n ≫= collect).

(** [collect(n)[1:]]. *)
Definition below n : list node := n_children n ≫= collect.

(** An already external child is a null in its parent's encoding. *)
Definition rawSize n : Z := if n_already n then 4 else n_size n.

Definition commas (count : nat) : Z := Z.of_nat count - (if count is O then 0 else 1).

Definition map_size (kids : list (string * node)) : Z :=
  2 + foldr (fun e s => len (quote (fst e)) + 1 + rawSize (snd e) + s) 0 kids
  + commas (length kids).
Definition arr_size (kids : list node) : Z :=
  2 + foldr (fun c s => rawSize c + s) 0 kids + commas (length kids).

(** None is a leaf that does not marshal. *)
Fixpoint buildTree v p (depth : nat) : option node :=
  match v with
  | Mark _ => Some (Node p v 0 depth true [])
  | Map l =>
      kids ← (fix go l := match l with
              | [] => Some []
              | (k, x) :: l =>
                  c ← buildTree x (p ++ [Key k]) (S depth); cs ← go l; Some ((k, c) :: cs)
              end) l;
      Some (Node p v (map_size kids) depth false (snd <$> kids))
  | Arr a =>
      kids ← (fix go i a := match a with
              | [] => Some []
              | x :: a =>
                  c ← buildTree x (p ++ [Int i]) (S depth); cs ← go (i + 1) a; Some (c :: cs)
              end) 0 a;
      Some (Node p v (arr_size kids) depth false kids)
  | _ => b ← marshal v; Some (Node p v (len b) depth false [])
  end.

(** * Orders and costs *)

Definition seg_int (s : seg) : Z := match s with Int i => i | _ => 0 end.

Fixpoint pathLess (a b : path) : bool :=
  match a, b with
  | s :: a, t :: b =>
      match s, t with
      | Key x, Key y => if String.eqb x y then pathLess a b else String.ltb x y
      | Key _, _ => true
      | _, Key _ => false
      | _, _ => if seg_int s =? seg_int t then pathLess a b else seg_int s <? seg_int t
      end
  | [], _ :: _ => true
  | _, [] => false
  end.

(** [sort.Slice] with the order [less]. *)
Definition sorts {A} (less : A -> A -> bool) (a b : A) : Prop := less b a = false.
#[export] Instance sorts_dec {A} (less : A -> A -> bool) : RelDecision (sorts less).
Proof. intros a b. unfold sorts. apply _. Defined.
Definition sort_by {A} (less : A -> A -> bool) : list A -> list A := merge_sort (sorts less).

(** What one reference costs in the list of objects. *)
Definition entrySize p : Z :=
  match marshal_ref (mkRef "0123456789abcdef0123456789abcdef" 1048576 p) with
  | Some b => len b + 1
  | None => 96
  end.

(** * Selection *)

Record state := mkState { chosen : gset path; data : Z; objects : Z }.

Definition is_chosen chosen n : bool := bool_decide (n_path n ∈ chosen).
Definition chosen_below chosen n : list node := base.filter (is_chosen chosen) (below n).

(** The walk up the parents. *)
Fixpoint ancestors p : list path :=
  match p with [] => [] | s :: rest => [] :: (cons s <$> ancestors rest) end.
Definition coveredByAncestor n chosen : bool :=
  existsb (fun q => bool_decide (q ∈ chosen)) (ancestors (n_path n)).

Definition holdsAlready n : bool := existsb n_already (below n).

(** The bytes [n] still holds inline, and whether something under it is chosen. *)
Definition rank chosen n : Z :=
  foldr (fun d r => r - (n_size d - entrySize (n_path d))) (n_size n) (chosen_below chosen n).
Definition holdsChosen chosen n : bool := existsb (is_chosen chosen) (below n).

Definition level_less (rank : node -> Z) n d : bool :=
  if rank n =? rank d then pathLess (n_path n) (n_path d) else rank d <? rank n.

(** A chosen node stands for everything under it. *)
Definition drop (st : state) d : state :=
  mkState (chosen st ∖ {[n_path d]}) (data st + n_size d) (objects st - entrySize (n_path d)).
Definition take n (st : state) : state :=
  let st := foldl drop st (chosen_below (chosen st) n) in
  mkState ({[n_path n]} ∪ chosen st) (data st - n_size n) (objects st + entrySize (n_path n)).

Definition fits (target : Z) (st : state) : bool := data st + objects st <=? target.

Fixpoint selectLevel (target : Z) (rank : node -> Z) (holds : node -> bool)
    (level : list node) (st : state) : state :=
  match level with
  | [] => st
  | n :: level =>
      if fits target st then st
      else if n_already n || is_chosen (chosen st) n || coveredByAncestor n (chosen st) then
        selectLevel target rank holds level st
      else if holdsAlready n then selectLevel target rank holds level st
      else if rank n <? minExternalizeBytes then st
      else if holds n && (rank n - entrySize (n_path n) <? minExternalizeBytes) then
        selectLevel target rank holds level st
      else selectLevel target rank holds level (take n st)
  end.

Definition byDepth (nodes : list node) (depth : nat) : list node :=
  base.filter (fun n => n_depth n = depth) nodes.

(** One level, ranked by what was chosen when the level was entered. *)
Definition select_at (nodes : list node) (target : Z) (depth : nat) (st : state) : state :=
  let r := rank (chosen st) in
  selectLevel target r (holdsChosen (chosen st))
    (sort_by (level_less r) (byDepth nodes depth)) st.

(** The levels from [depth] up to the root's. *)
Fixpoint selectNodes (nodes : list node) (target : Z) (depth : nat) (st : state) : state :=
  if fits target st then st
  else
    let st := select_at nodes target depth st in
    match depth with O => st | S depth => selectNodes nodes target depth st end.

(** * Measuring and cutting *)

Fixpoint removeAt (root : value) p : value :=
  match p with
  | [] => root
  | s :: rest =>
      match root, s with
      | Map l, Key k =>
          match rest with
          | [] => Map (delete_key k l)
          | _ => match lookup_key k l with
                 | Some c => Map (put_key k (removeAt c rest) l)
                 | None => root
                 end
          end
      | Arr a, Int i =>
          match item i a with
          | Some c => Arr (set_item i (match rest with [] => Null | _ => removeAt c rest end) a)
          | None => root
          end
      | _, _ => root
      end
  end.

Definition cut_less n d : bool :=
  if (n_depth n =? n_depth d)%nat then pathLess (n_path n) (n_path d)
  else (n_depth d <? n_depth n)%nat.

Definition picked (nodes : list node) chosen : list node :=
  base.filter (is_chosen chosen) nodes.
Definition pickedInCutOrder (nodes : list node) chosen : list node :=
  sort_by cut_less (picked nodes chosen).

Definition strip_step (w : value) n : value :=
  match n_path n with [] => Null | _ => removeAt w (n_path n) end.

Definition storedSize v (nodes : list node) chosen : option Z :=
  let ns := pickedInCutOrder nodes chosen in
  b ← marshal (foldl strip_step v ns);
  Some (len b + foldr (fun n s => entrySize (n_path n) + s) 0 ns).

Record pendingObject := mkPending { Hash : string; Content : string; ObjSize : Z }.

(** The round limit was hit, or a value did not marshal. *)
Inductive cut_error := OutOfRounds | NotMarshalled.

Section Hash.

(** [hashContent]: the first half of the content's sha256, in hex. *)
Variable hashContent : string -> string.

Definition cutting := (value * list ObjectRef * list pendingObject)%type.

Definition cut_step (acc : cutting) n : result cut_error cutting :=
  let '(out, refs, objs) := acc in
  match n_already n, n_value n with
  | true, Mark r =>
      let refs := refs ++ [mkRef (Ref r) (Size r) (n_path n)] in
      let out := match n_path n with
                 | [] => Null
                 | _ => removeAt (default out (Place out (n_path n) Null)) (n_path n)
                 end in
      Ok (out, refs, objs)
  | _, _ =>
      b ← of_option NotMarshalled (marshal (n_value n));
      let h := hashContent b in
      Ok (strip_step out n,
          refs ++ [mkRef h (len b) (n_path n)],
          objs ++ [mkPending h b (len b)])
  end.

Fixpoint cut_all (acc : cutting) (ns : list node) : result cut_error cutting :=
  match ns with
  | [] => Ok acc
  | n :: ns => acc ← cut_step acc n; cut_all acc ns
  end.

Definition ref_less (a b : ObjectRef) : bool := pathLess (Path a) (Path b).

Definition applyCut v (nodes : list node) chosen : result cut_error cutting :=
  '(out, refs, objs) ← cut_all (v, [], []) (pickedInCutOrder nodes chosen);
  Ok (out, sort_by ref_less refs, objs).

(** * [cutForSize] *)

Definition maxDepth (nodes : list node) : nat := foldr (fun n => Nat.max (n_depth n)) 0%nat nodes.

(** What is external already is chosen from the start. *)
Definition start (root : node) (nodes : list node) : state :=
  foldl (fun st n =>
    if n_already n then
      mkState ({[n_path n]} ∪ chosen st) (data st - n_size n) (objects st + entrySize (n_path n))
    else st) (mkState ∅ (n_size root) 0) nodes.

(** The rounds: measured, and selected again while over target and something changed. *)
Fixpoint rounds (fuel : nat) v (nodes : list node) (target : Z) (st : state) :
    result cut_error state :=
  match fuel with
  | O => Err OutOfRounds
  | S fuel =>
      let before := size (chosen st) in
      let st := selectNodes nodes target (maxDepth nodes) st in
      if bool_decide (chosen st = ∅) then Ok st
      else
        stored ← of_option NotMarshalled (storedSize v nodes (chosen st));
        if (stored <=? target) || (size (chosen st) =? before)%nat then Ok st
        else rounds fuel v nodes target
               (mkState (chosen st) (stored - objects st) (objects st))
  end.

Definition cutForSize v (target : Z) : result cut_error cutting :=
  root ← of_option NotMarshalled (buildTree v [] 0);
  let nodes := collect root in
  st ← rounds (S (length nodes)) v nodes target (start root nodes);
  if bool_decide (chosen st = ∅) then Ok (v, [], [])
  else applyCut v nodes (chosen st).

(** db_objects.go. *)
Definition contextObjectThreshold : Z := 2 * 1024.

Definition cutSlot v : result cut_error cutting :=
  match v with
  | Mark r => Ok (Null, [mkRef (Ref r) (Size r) []], [])
  | _ =>
      '(stripped, refs, pending) ← cutForSize v contextObjectThreshold;
      match refs with [] => Ok (v, [], []) | _ => Ok (stripped, refs, pending) end
  end.

Definition cutLogPayload v : result cut_error (cutting * gset string) :=
  '(stripped, refs, objs) ← cutForSize v contextObjectThreshold;
  match refs with
  | [] => Ok ((v, [], []), ∅)
  | _ => Ok ((stripped, refs, objs), list_to_set (Ref <$> refs))
  end.

End Hash.

End ObjectCut.
