(* ===== verification/Paths.v ===== *)
(** Reading, removing and placing at a path: what [removeAt] leaves is the value stripped
    at a set of paths, and [Place] fills such a hole again.  [Extract] and [Place] are
    inverse. *)
From Stdlib Require Import ZArith Lia Ascii String.
From stdpp Require Import sorting.
From S2P Require Import Prelude GoStrings Json ObjectCut.
Import Json ObjectCut.
Open Scope string_scope.
Open Scope list_scope.
Open Scope Z_scope.

Module Paths.

Implicit Types (v w x : value) (p q : path) (k : string) (l : list (string * value))
  (S T : path -> bool) (del : bool).

Lemma value_ind' (P : value -> Prop) :
  P Null -> (forall b, P (Bool b)) -> (forall s, P (Num s)) -> (forall s, P (Str s)) ->
  (forall r, P (Mark r)) ->
  (forall l, Forall (fun e => P (snd e)) l -> P (Map l)) ->
  (forall a, Forall P a -> P (Arr a)) -> forall v, P v.
Proof.
  intros H1 H2 H3 H4 H5 Hm Ha. fix go 1.
  intros [|b|s|s|r|l|a]; [exact H1|apply H2|apply H3|apply H4|apply H5| |].
  - apply Hm. induction l as [|[k x] l IH]; constructor; [apply go|exact IH].
  - apply Ha. induction a as [|x a IH]; constructor; [apply go|exact IH].
Qed.

(** * Well-formed values *)

(** The keys of a list in the order Go visits them. *)
Fixpoint sorted_keys l : bool :=
  match l with
  | (k, _) :: l =>
      match l with (k', _) :: _ => String.ltb k k' | [] => true end && sorted_keys l
  | [] => true
  end.

Fixpoint wf v : bool :=
  match v with
  | Map l => sorted_keys l && forallb (fun '(_, x) => wf x) l
  | Arr a => forallb wf a
  | _ => true
  end.

Lemma ltb_trans a b c : String.ltb a b = true -> String.ltb b c = true -> String.ltb a c = true.
Proof.
  unfold String.ltb. intros H1 H2.
  destruct (a ?= b)%string eqn:E1; [done| |done]. destruct (b ?= c)%string eqn:E2; [done| |done].
  assert (Hac : String.le a c).
  { transitivity b; unfold String.le, String.leb; by rewrite ?E1, ?E2. }
  unfold String.le, String.leb in Hac. destruct (a ?= c)%string eqn:E3; [|done|done].
  apply String.compare_eq_iff in E3 as ->. rewrite String.compare_antisym, E2 in E1. done.
Qed.

Lemma ltb_irrefl a : String.ltb a a = false.
Proof.
  unfold String.ltb. destruct (a ?= a)%string eqn:E; [done| |done].
  pose proof (String.compare_antisym a a) as H. rewrite E in H. done.
Qed.

Lemma ltb_asym a b : String.ltb a b = true -> String.ltb b a = false.
Proof.
  intros H. destruct (String.ltb b a) eqn:E; [|done].
  pose proof (ltb_trans _ _ _ H E) as Haa. by rewrite ltb_irrefl in Haa.
Qed.

(** Every key of [l] comes after [k]. *)
Definition after k l : Prop := Forall (fun e => String.ltb k (fst e) = true) l.

Lemma after_weaken k k' l : String.ltb k k' = true -> after k' l -> after k l.
Proof.
  intros Hk Ha. eapply Forall_impl; [exact Ha|]. intros e He. by eapply ltb_trans.
Qed.

Lemma sorted_cons k x l : sorted_keys ((k, x) :: l) = true <-> after k l /\ sorted_keys l = true.
Proof.
  split.
  - revert k x. induction l as [|[k' y] l IH]; intros k x H; cbn in H; [split; [constructor|done]|].
    apply andb_prop in H as [Hk H]. split; [|done].
    destruct (IH k' y H) as [Ha _]. constructor; [done|]. by eapply after_weaken.
  - intros [Ha Hl]. cbn. destruct l as [|[k' y] l]; [done|].
    apply Forall_cons in Ha as [Hk _]. cbn in Hk. by rewrite Hk.
Qed.

Lemma wf_map l : wf (Map l) = true <->
  sorted_keys l = true /\ Forall (fun e => wf (snd e) = true) l.
Proof.
  cbn. rewrite andb_true_iff, forallb_forall, Forall_forall. setoid_rewrite list_elem_of_In.
  split; intros [H1 H2]; (split; [done|]); [intros [k x] Hi; by apply (H2 (k, x))|].
  intros [k x] Hi. apply (H2 (k, x) Hi).
Qed.

Lemma wf_arr a : wf (Arr a) = true <-> Forall (fun x => wf x = true) a.
Proof. cbn. rewrite forallb_forall, Forall_forall. by setoid_rewrite list_elem_of_In. Qed.

Lemma after_lookup k k' l x : after k l -> lookup_key k' l = Some x -> String.ltb k k' = true.
Proof.
  induction l as [|[k1 y] l IH]; cbn; [done|]. intros [Hk Ha]%Forall_cons.
  destruct (String.eqb_spec k' k1) as [->|]; [done|]. by apply IH.
Qed.

Lemma after_not k l : after k l -> lookup_key k l = None.
Proof.
  intros Ha. destruct (lookup_key k l) eqn:E; [|done].
  pose proof (after_lookup _ _ _ _ Ha E). by rewrite ltb_irrefl in H.
Qed.

Lemma lookup_wf k l x : Forall (fun e => wf (snd e) = true) l -> lookup_key k l = Some x ->
  wf x = true.
Proof.
  induction l as [|[k' y] l IH]; cbn; [done|]. intros [? ?]%Forall_cons.
  destruct (String.eqb k k'); [by intros [= ->]|auto].
Qed.

(** * Putting and deleting *)

Lemma lookup_put k x l : lookup_key k (put_key k x l) = Some x.
Proof.
  induction l as [|[k' y] l IH]; cbn; [by rewrite String.eqb_refl|].
  destruct (String.eqb k k') eqn:E; cbn; [by rewrite String.eqb_refl|].
  destruct (String.ltb k k'); cbn; [by rewrite String.eqb_refl|]. by rewrite E.
Qed.

Lemma put_put k x y l : put_key k x (put_key k y l) = put_key k x l.
Proof.
  induction l as [|[k' z] l IH]; cbn; [by rewrite String.eqb_refl|].
  destruct (String.eqb k k') eqn:E; cbn; [by rewrite String.eqb_refl|].
  destruct (String.ltb k k') eqn:E'; cbn; [by rewrite String.eqb_refl|].
  by rewrite E, E', IH.
Qed.

Lemma delete_put k x l c : sorted_keys l = true -> lookup_key k l = Some c ->
  delete_key k (put_key k x l) = delete_key k l.
Proof.
  induction l as [|[k' z] l IH]; [done|]. intros [Ha Hs]%sorted_cons. cbn.
  destruct (String.eqb k k') eqn:E; cbn; [by rewrite String.eqb_refl|]. intros Hl.
  rewrite (ltb_asym k' k) by (by eapply after_lookup). cbn. by rewrite E, IH.
Qed.

Lemma delete_put_new k x l : lookup_key k l = None ->
  delete_key k (put_key k x l) = delete_key k l.
Proof.
  assert (Hd : forall l, lookup_key k l = None -> delete_key k l = l).
  { clear. induction l as [|[k' z] l IH]; [done|]. cbn.
    destruct (String.eqb k k'); [done|]. intros Hl. by rewrite IH. }
  induction l as [|[k' z] l IH]; cbn; [by rewrite String.eqb_refl|].
  destruct (String.eqb k k') eqn:E; cbn; [by rewrite String.eqb_refl|]. intros Hl.
  destruct (String.ltb k k'); cbn; rewrite ?String.eqb_refl, ?E, ?IH, ?Hd; done.
Qed.

Lemma put_after k x l : after k l -> put_key k x l = (k, x) :: l.
Proof.
  destruct l as [|[k' y] l]; [done|]. intros [Hk _]%Forall_cons. cbn in *.
  destruct (String.eqb_spec k k') as [->|_]; [by rewrite ltb_irrefl in Hk|]. by rewrite Hk.
Qed.

(** * Reading *)

Fixpoint get v p : option value :=
  match p with
  | [] => Some v
  | s :: rest =>
      match v, s with
      | Map l, Key k => c ← lookup_key k l; get c rest
      | Arr a, Int i => c ← item i a; get c rest
      | _, _ => None
      end
  end.

(** * Stripping *)

(** The paths of [S] that go on from [s]. *)
Definition sub S (s : seg) : path -> bool := fun q => S (s :: q).

(** [v] with a hole at every path of [S] but the root: a map loses the key, or holds a
    null where [del] is off; an array always holds a null. *)
Fixpoint strip (del : bool) v S : value :=
  match v with
  | Map l =>
      Map (omap (fun '(k, x) =>
             if S [Key k] then if del then None else Some (k, Null)
             else Some (k, strip del x (sub S (Key k)))) l)
  | Arr a =>
      Arr ((fix go i a := match a with
            | [] => []
            | x :: a => (if S [Int i] then Null else strip del x (sub S (Int i))) :: go (i + 1) a
            end) 0 a)
  | _ => v
  end.

Definition strip_entry (del : bool) S : string * value -> option (string * value) :=
  fun '(k, x) => if S [Key k] then if del then None else Some (k, Null)
                 else Some (k, strip del x (sub S (Key k))).
Definition strip_item (del : bool) S (i : nat) x : value :=
  if S [Int (Z.of_nat i)] then Null else strip del x (sub S (Int (Z.of_nat i))).

Lemma strip_map del l S : strip del (Map l) S = Map (omap (strip_entry del S) l).
Proof. done. Qed.

Lemma strip_arr del a S : strip del (Arr a) S = Arr (imap (strip_item del S) a).
Proof.
  cbn [strip]. f_equal. change 0 with (Z.of_nat 0).
  enough (H : forall n, (fix go (i : Z) (a : list value) : list value := match a with
            | [] => []
            | x :: a => (if S [Int i] then Null else strip del x (sub S (Int i))) :: go (i + 1) a
            end) (Z.of_nat n) a = imap (fun i : nat => strip_item del S (n + i)%nat) a) by apply (H 0%nat).
  induction a as [|x a IH]; intros n; [done|]. cbn. rewrite Nat.add_0_r. f_equal.
  replace (Z.of_nat n + 1) with (Z.of_nat (1 + n)) by lia. rewrite IH. apply imap_ext.
  intros i y _. cbn. f_equal. lia.
Qed.

(** Two sets that agree on what lies under [s]. *)
Definition agree S T (s : seg) : Prop := forall q, S (s :: q) = T (s :: q).

Lemma strip_ext del v S T : (forall s, agree S T s) -> strip del v S = strip del v T.
Proof.
  revert S T. induction v as [| | | | |l IH|a IH] using value_ind'; intros S T H; [done..| |].
  - rewrite !strip_map. f_equal. induction IH as [|[k x] l Hx _ IHl]; [done|]. cbn in *.
    rewrite (H (Key k) []). rewrite (Hx (sub S (Key k)) (sub T (Key k))); [|intros s q; apply H].
    by rewrite IHl.
  - rewrite !strip_arr. f_equal. apply imap_ext. intros i x Hi.
    rewrite Forall_forall in IH. unfold strip_item. rewrite (H (Int _) []).
    rewrite (IH x (list_elem_of_lookup_2 _ _ _ Hi) (sub S (Int (Z.of_nat i))) (sub T (Int (Z.of_nat i)))); [done|].
    intros s q. apply H.
Qed.

Lemma strip_none del v S : (forall s q, S (s :: q) = false) -> strip del v S = v.
Proof.
  revert S. induction v as [| | | | |l IH|a IH] using value_ind'; intros S H; [done..| |].
  - rewrite strip_map. f_equal. induction IH as [|[k x] l Hx _ IHl]; [done|]. cbn in *.
    by rewrite H, Hx, IHl by (intros; apply H).
  - rewrite strip_arr. f_equal. apply list_eq. intros i. rewrite list_lookup_imap.
    destruct (a !! i) as [x|] eqn:Hi; [|done]. cbn. unfold strip_item. rewrite H. f_equal.
    rewrite Forall_forall in IH. apply IH; [by eapply list_elem_of_lookup_2|].
    intros. apply H.
Qed.

Lemma after_strip del k l S : after k l -> after k (omap (strip_entry del S) l).
Proof.
  induction l as [|[k' y] l IH]; [done|]. intros [Hk Ha]%Forall_cons. cbn in *.
  destruct (S [Key k']); [destruct del|]; first [by apply IH|constructor; [done|by apply IH]].
Qed.

Lemma strip_wf del v S : wf v = true -> wf (strip del v S) = true.
Proof.
  revert S. induction v as [| | | | |l IH|a IH] using value_ind'; intros S Hw; try done.
  - apply wf_map in Hw as [Hk Hf]. rewrite strip_map. apply wf_map. rewrite Forall_forall in *. split.
    + clear IH Hf. induction l as [|[k x] l IHl]; [done|]. apply sorted_cons in Hk as [Ha Hk]. cbn.
      destruct (S [Key k]); [destruct del|]; try by apply IHl.
      all: apply sorted_cons; split; [by apply after_strip|by apply IHl].
    + intros [k y] ([k' x] & Hin & Hy)%list_elem_of_omap. cbn in Hy |- *.
      destruct (S [Key k']); [destruct del; [done|]|]; injection Hy as _ <-; [done|].
      by apply (IH _ Hin), (Hf _ Hin).
  - apply wf_arr in Hw. rewrite strip_arr. apply wf_arr. rewrite Forall_forall in *.
    intros y (i & x & -> & Hi)%elem_of_lookup_imap_1. apply list_elem_of_lookup_2 in Hi.
    unfold strip_item. destruct (S _); [done|]. by apply IH, Hw.
Qed.

(** * Holes *)

Lemma lookup_strip del k l S c : lookup_key k l = Some c -> S [Key k] = false ->
  lookup_key k (omap (strip_entry del S) l) = Some (strip del c (sub S (Key k))).
Proof.
  intros Hl HS. induction l as [|[k' y] l IH]; [done|]. cbn in *.
  destruct (String.eqb_spec k k') as [<-|Hne].
  - injection Hl as ->. rewrite HS. cbn. by rewrite String.eqb_refl.
  - destruct (S [Key k']); [destruct del|]; cbn; rewrite ?(proj2 (String.eqb_neq _ _) Hne); auto.
Qed.

Lemma strip_keys_ext del k l S T : after k l -> (forall k', k' <> k -> agree S T (Key k')) ->
  omap (strip_entry del S) l = omap (strip_entry del T) l.
Proof.
  intros Ha H. induction l as [|[k' y] l IH]; [done|]. apply Forall_cons in Ha as [Hk Ha].
  cbn in *. assert (Hne : k' <> k) by (intros ->; by rewrite ltb_irrefl in Hk).
  rewrite (H k' Hne []), (strip_ext del y (sub S (Key k')) (sub T (Key k'))), IH; [done|done|].
  intros s q. by apply H.
Qed.

(** Putting under a key, hole or not, what [T] leaves there. *)
Lemma put_strip del k l S T c : sorted_keys l = true -> lookup_key k l = Some c ->
  T [Key k] = false -> (forall k', k' <> k -> agree S T (Key k')) ->
  put_key k (strip del c (sub T (Key k))) (omap (strip_entry del S) l) =
  omap (strip_entry del T) l.
Proof.
  intros Hs Hl HT HA. induction l as [|[k' y] l IH]; [done|].
  apply sorted_cons in Hs as [Ha Hs]. cbn in Hl. destruct (String.eqb_spec k k') as [<-|Hne].
  - injection Hl as ->. cbn. rewrite HT, (strip_keys_ext del k l S T) by done.
    destruct (S [Key k]); [destruct del|]; cbn; rewrite ?String.eqb_refl; try done.
    by rewrite put_after by by apply after_strip.
  - cbn. rewrite (HA k' (not_eq_sym Hne) []).
    rewrite (strip_ext del y (sub S (Key k')) (sub T (Key k'))) by (intros s q; by apply HA).
    pose proof (after_lookup _ _ _ _ Ha Hl) as Hlt.
    destruct (T [Key k']); [destruct del|]; cbn;
      rewrite ?(proj2 (String.eqb_neq _ _) Hne), ?(ltb_asym _ _ Hlt), ?IH; auto.
Qed.

Lemma delete_strip k l S T c : sorted_keys l = true -> lookup_key k l = Some c ->
  S [Key k] = false -> T [Key k] = true -> (forall k', k' <> k -> agree S T (Key k')) ->
  delete_key k (omap (strip_entry true S) l) = omap (strip_entry true T) l.
Proof.
  intros Hs Hl HS HT HA. induction l as [|[k' y] l IH]; [done|].
  apply sorted_cons in Hs as [Ha Hs]. cbn in Hl. destruct (String.eqb_spec k k') as [<-|Hne].
  - cbn. rewrite HS, HT. cbn. rewrite String.eqb_refl. by apply (strip_keys_ext true k).
  - cbn. rewrite (HA k' (not_eq_sym Hne) []).
    rewrite (strip_ext true y (sub S (Key k')) (sub T (Key k'))) by (intros s q; by apply HA).
    destruct (T [Key k']); cbn; rewrite ?(proj2 (String.eqb_neq _ _) Hne), IH; auto.
Qed.

Lemma item_Some i a x : item i a = Some x -> 0 <= i /\ a !! Z.to_nat i = Some x.
Proof. unfold item. case Z.leb_spec; [done|]. done. Qed.

Lemma item_strip del a S i x : item i a = Some x ->
  item i (imap (strip_item del S) a) =
  Some (if S [Int i] then Null else strip del x (sub S (Int i))).
Proof.
  intros [Hi Hx]%item_Some. unfold item. rewrite (proj2 (Z.leb_le _ _) Hi), list_lookup_imap, Hx.
  cbn. unfold strip_item. by rewrite Z2Nat.id.
Qed.

Lemma set_strip del a S T i x y : item i a = Some x ->
  (forall j, j <> i -> agree S T (Int j)) ->
  (if T [Int i] then Null else strip del x (sub T (Int i))) = y ->
  set_item i y (imap (strip_item del S) a) = imap (strip_item del T) a.
Proof.
  intros [Hi Hx]%item_Some HA Hy. unfold set_item. apply list_eq. intros j.
  pose proof (lookup_lt_Some _ _ _ Hx) as Hlen.
  destruct (decide (j = Z.to_nat i)) as [->|Hne].
  - rewrite list_lookup_insert_eq by by rewrite length_imap.
    rewrite list_lookup_imap, Hx. cbn. f_equal. unfold strip_item. by rewrite Z2Nat.id.
  - rewrite list_lookup_insert_ne by done. rewrite !list_lookup_imap.
    destruct (a !! j) as [z|]; [|done]. cbn. f_equal. unfold strip_item.
    assert (Hj : Z.of_nat j <> i) by lia. rewrite (HA _ Hj []).
    destruct (T [Int (Z.of_nat j)]); [reflexivity|]. apply strip_ext. intros s q. exact (HA _ Hj (s :: q)).
Qed.

(** * Removing and placing *)

Definition add p S : path -> bool := fun q => bool_decide (q = p) || S q.

(** No hole of [S] on the way to [p], and none from [p] on. *)
Definition clear S p : Prop := forall q, q <> [] -> q `prefix_of` p -> S q = false.
Definition intact S p : Prop := forall q, S (p ++ q) = false.

(** The same step, as the code makes it and as it is decoded. *)
Inductive same_seg : seg -> seg -> Prop :=
  | same_refl s : same_seg s s
  | same_number i n : ParseInt10 n = Some i -> same_seg (Int i) (Number n).
Definition same_path : path -> path -> Prop := Forall2 same_seg.

Lemma same_path_refl p : same_path p p.
Proof. induction p; constructor; [constructor|done]. Qed.

Lemma clear_head S s p : clear S (s :: p) -> S [s] = false.
Proof. intros H. apply H; [done|]. apply prefix_cons, prefix_nil. Qed.

Lemma clear_sub S s p : clear S (s :: p) -> clear (sub S s) p.
Proof. intros H q _ Hq. apply H; [done|]. by apply prefix_cons. Qed.

Lemma intact_sub S s p : intact S (s :: p) -> intact (sub S s) p.
Proof. intros H q. apply (H q). Qed.

Lemma add_agree p S s r : s <> r -> agree (add (r :: p) S) S s.
Proof. intros Hne q. unfold add. rewrite bool_decide_false; [done|congruence]. Qed.

Lemma add_head p S s t : S [s] = false -> add (s :: t :: p) S [s] = false.
Proof. intros H. unfold add. by rewrite bool_decide_false. Qed.

Lemma add_sub p S s del v : strip del v (sub (add (s :: p) S) s) = strip del v (add p (sub S s)).
Proof.
  apply strip_ext. intros t q. unfold sub, add. f_equal. apply bool_decide_ext. naive_solver.
Qed.

Lemma get_map l k rest w : get (Map l) (Key k :: rest) = Some w ->
  exists c, lookup_key k l = Some c /\ get c rest = Some w.
Proof. cbn. destruct (lookup_key k l) as [c|]; [|done]. eauto. Qed.

Lemma get_arr a i rest w : get (Arr a) (Int i :: rest) = Some w ->
  exists c, item i a = Some c /\ get c rest = Some w.
Proof. cbn. destruct (item i a) as [c|]; [|done]. eauto. Qed.

(** What a path that reads something goes through. *)
Lemma get_cons v s rest w : get v (s :: rest) = Some w ->
  (exists l k c, v = Map l /\ s = Key k /\ lookup_key k l = Some c /\ get c rest = Some w) \/
  (exists a i c, v = Arr a /\ s = Int i /\ item i a = Some c /\ get c rest = Some w).
Proof.
  destruct v as [| | | | |l|a], s as [k|i|n]; try done.
  - intros (c & ? & ?)%get_map. left. eauto 10.
  - intros (c & ? & ?)%get_arr. right. eauto 10.
Qed.

Lemma item_wf i a x : wf (Arr a) = true -> item i a = Some x -> wf x = true.
Proof.
  intros Hw%wf_arr [_ Hx]%item_Some. rewrite Forall_forall in Hw.
  apply Hw. by eapply list_elem_of_lookup_2.
Qed.

(** [removeAt] makes the hole. *)
Lemma removeAt_strip p : forall v S w, wf v = true -> get v p = Some w -> p <> [] -> clear S p ->
  removeAt (strip true v S) p = strip true v (add p S).
Proof.
  induction p as [|s rest IH]; [done|]. intros v S w Hw Hg _ Hc.
  pose proof (clear_head _ _ _ Hc) as Hs.
  destruct (get_cons _ _ _ _ Hg) as [(l & k & c & -> & -> & Hl & Hr)|(a & i & c & -> & -> & Hi & Hr)].
  - apply wf_map in Hw as [Hk Hf]. rewrite !strip_map. cbn [removeAt].
    destruct rest as [|t rest].
    + f_equal. eapply delete_strip; eauto; [unfold add; by rewrite bool_decide_true|].
      intros k' Hne q. symmetry. apply add_agree. congruence.
    + rewrite (lookup_strip _ _ _ _ _ Hl Hs). f_equal.
      rewrite (IH c (sub S (Key k)) w), <- add_sub; [|by eapply lookup_wf|done|done|by apply clear_sub].
      apply put_strip; [done|done|by apply add_head|].
      intros k' Hne q. symmetry. apply add_agree. congruence.
  - rewrite !strip_arr. cbn [removeAt]. rewrite (item_strip _ _ _ _ _ Hi), Hs. f_equal.
    apply (set_strip _ _ _ _ _ _ _ Hi).
    { intros j Hne q. symmetry. apply add_agree. congruence. }
    destruct rest as [|t rest]; [unfold add; by rewrite bool_decide_true|].
    rewrite add_head by done. rewrite (IH c (sub S (Int i)) w), <- add_sub; try done.
    + by eapply item_wf.
    + by apply clear_sub.
Qed.

Lemma Place_map l k s p x : Place (Map l) (Key k :: s :: p) x =
  (c ← lookup_key k l; c' ← Place c (s :: p) x; Some (Map (put_key k c' l))).
Proof. done. Qed.

Lemma Place_arr a s p x i c : index s = Some i -> item i a = Some c ->
  Place (Arr a) (s :: p) x =
  (c' ← match p with [] => Some x | _ => Place c p x end; Some (Arr (set_item i c' a))).
Proof. intros Hs Hc. cbn [Place]. rewrite Hs. cbn [mbind option_bind]. rewrite Hc. by destruct p. Qed.

(** [Place] fills it. *)
Lemma Place_strip p : forall v S w p' del, wf v = true -> get v p = Some w -> p <> [] ->
  clear S p -> intact S p -> same_path p p' ->
  Place (strip del v (add p S)) p' w = Some (strip del v S).
Proof.
  induction p as [|s rest IH]; [done|]. intros v S w p' del Hw Hg _ Hc Hi Hp.
  pose proof (clear_head _ _ _ Hc) as Hs.
  apply Forall2_cons_inv_l in Hp as (s' & rest' & Hss & Hrest & ->).
  assert (Hag : forall r, r <> s -> agree (add (s :: rest) S) S r) by (intros r Hr; by apply add_agree).
  destruct (get_cons _ _ _ _ Hg) as [(l & k & c & -> & -> & Hl & Hr)|(a & i & c & -> & -> & Hx & Hr)].
  - inversion Hss; subst s'. apply wf_map in Hw as [Hk Hf]. rewrite !strip_map.
    destruct rest as [|t rest]; [apply Forall2_nil_inv_l in Hrest as ->|].
    + cbn [Place]. injection Hr as ->. f_equal. f_equal.
      rewrite <- (put_strip del k l _ S w Hk Hl Hs) by (intros k' Hne; apply Hag; congruence).
      f_equal. symmetry. apply strip_none. intros r q. apply (Hi (r :: q)).
    + apply Forall2_cons_inv_l in Hrest as (t' & r' & Ht & Hr' & ->). rewrite Place_map.
      rewrite (lookup_strip _ _ _ _ _ Hl) by by apply add_head. cbn [mbind option_bind].
      rewrite add_sub, (IH c (sub S (Key k)) w); [|by eapply lookup_wf|done|done|by apply clear_sub
        |by apply intact_sub|by constructor].
      cbn. f_equal. f_equal. apply put_strip; try done. intros k' Hne. apply Hag. congruence.
  - assert (Hidx : index s' = Some i) by (inversion Hss; subst; done).
    rewrite !strip_arr, (Place_arr _ _ _ _ _ _ Hidx (item_strip del a _ i c Hx)).
    assert (Hset : forall y, (if S [Int i] then Null else strip del c (sub S (Int i))) = y ->
      Some (Arr (set_item i y (imap (strip_item del (add (Int i :: rest) S)) a))) =
      Some (Arr (imap (strip_item del S) a))).
    { intros y Hy. f_equal. f_equal. apply (set_strip _ _ _ _ _ c); [done| |done].
      intros j Hne. apply Hag. congruence. }
    rewrite Hs in Hset.
    destruct rest as [|t rest]; [apply Forall2_nil_inv_l in Hrest as ->|].
    + injection Hr as ->. cbn. apply Hset. apply strip_none. intros r q. apply (Hi (r :: q)).
    + apply Forall2_cons_inv_l in Hrest as (t' & r' & Ht & Hr' & ->).
      rewrite add_head by done. rewrite add_sub, (IH c (sub S (Int i)) w); try done.
      * cbn. by apply Hset.
      * by eapply item_wf.
      * by apply clear_sub.
      * by constructor.
Qed.

(** * Many at once *)

Definition among (ps : list path) : path -> bool := fun q => bool_decide (q ∈ ps).

(** Paths of which none leads through another. *)
Definition apart (ps : list path) : Prop :=
  NoDup ps /\ forall p q, p ∈ ps -> q ∈ ps -> p `prefix_of` q -> p = q.

Lemma apart_cons p ps : apart (p :: ps) -> apart ps /\ clear (among ps) p /\ intact (among ps) p.
Proof.
  intros [[Hp Hn]%NoDup_cons H]. split; [split; [done|]; intros; apply H; set_solver|].
  split; intros q; unfold among.
  - intros _ Hq. apply bool_decide_false. intros Hin. apply Hp.
    by rewrite <- (H q p) by (done || set_solver).
  - apply bool_decide_false. intros Hin. apply Hp.
    by rewrite (H p (p ++ q)) by (set_solver || by apply prefix_app_r).
Qed.

Lemma apart_perm ps qs : ps ≡ₚ qs -> apart ps -> apart qs.
Proof.
  intros Hp [Hn H]. split; [by rewrite <- Hp|]. intros p q. rewrite <- Hp. apply H.
Qed.

Lemma strip_among_cons del v p ps :
  strip del v (among (p :: ps)) = strip del v (add p (among ps)).
Proof.
  apply strip_ext. intros s q. unfold add, among. rewrite <- bool_decide_or.
  apply bool_decide_ext. set_solver.
Qed.

Lemma removes v ps : forall qs, wf v = true -> apart (ps ++ qs) -> [] ∉ ps ->
  Forall (fun p => is_Some (get v p)) ps ->
  foldl removeAt (strip true v (among qs)) ps = strip true v (among (ps ++ qs)).
Proof.
  induction ps as [|p ps IH]; intros qs Hw Ha Hn Hf; [done|]. cbn.
  apply Forall_cons in Hf as [[w Hg] Hf].
  apply (apart_perm _ (ps ++ p :: qs)) in Ha; [|cbn; by rewrite Permutation_middle].
  rewrite (removeAt_strip p v _ w), <- strip_among_cons, IH; try done.
  - apply strip_ext. intros s q. unfold among. apply bool_decide_ext. set_solver.
  - set_solver.
  - set_solver.
  - apply (apart_perm _ (p :: ps ++ qs)) in Ha; [|by rewrite Permutation_middle].
    apply apart_cons in Ha as (_ & Hc & _). intros q Hq Hpre.
    specialize (Hc q Hq Hpre). unfold among in *. apply bool_decide_eq_false in Hc.
    apply bool_decide_false. set_solver.
Qed.

(** [Place] for each of a list of paths. *)
Fixpoint place_all (root : value) (es : list (path * value)) : option value :=
  match es with
  | [] => Some root
  | (p, x) :: es => r ← Place root p x; place_all r es
  end.

Lemma places del v ps es : wf v = true -> apart ps -> [] ∉ ps ->
  Forall2 (fun p e => same_path p (fst e) /\ get v p = Some (snd e)) ps es ->
  place_all (strip del v (among ps)) es = Some v.
Proof.
  intros Hw Ha Hn HF. induction HF as [|p [p' x] ps es [Hp Hg] _ IH]; cbn.
  - by rewrite strip_none.
  - destruct (apart_cons _ _ Ha) as (Ha' & Hc & Hi). cbn in *.
    rewrite strip_among_cons, (Place_strip p v _ x p' del); try done.
    + cbn. apply IH; [done|set_solver].
    + set_solver.
Qed.

(** * [Extract] *)

Lemma Extract_map l at_ : Extract (Map l) at_ =
  (Map ((fun '(k, x) => (k, fst (Extract x (at_ ++ [Key k])))) <$> l),
   l ≫= fun '(k, x) => snd (Extract x (at_ ++ [Key k]))).
Proof.
  cbn. induction l as [|[k x] l IH]; [done|]. cbn in *.
  destruct (Extract x _) as [x' r]. cbn.
  destruct ((fix go l := _) l) as [l' rs]. injection IH as -> ->. done.
Qed.

Definition extract_item at_ (i : nat) x := Extract x (at_ ++ [Int (Z.of_nat i)]).

Lemma Extract_arr a at_ : Extract (Arr a) at_ =
  (Arr (imap (fun i x => fst (extract_item at_ i x)) a),
   mjoin (imap (fun i x => snd (extract_item at_ i x)) a)).
Proof.
  cbn [Extract]. change 0 with (Z.of_nat 0).
  enough (H : forall n, (fix go (i : Z) (a : list value) : list value * list ObjectRef :=
        match a with
         | [] => ([], [])
         | x :: a =>
             let '(x', r) := Extract x (at_ ++ [Int i]) in
             let '(a', rs) := go (i + 1) a in (x' :: a', r ++ rs)
         end) (Z.of_nat n) a =
      (imap (fun i x => fst (extract_item at_ (n + i) x)) a,
       mjoin (imap (fun i x => snd (extract_item at_ (n + i) x)) a))) by by rewrite (H 0%nat).
  induction a as [|x a IH]; intros n; [done|]. cbn. unfold extract_item at 1 3.
  rewrite Nat.add_0_r. destruct (Extract x _) as [x' r].
  replace (Z.of_nat n + 1) with (Z.of_nat (S n)) by lia. rewrite IH. cbn.
  assert (Hs : forall (B : Type) (f : value * list ObjectRef -> B),
    imap (fun i x => f (extract_item at_ (S n + i) x)) a =
    imap ((fun i x => f (extract_item at_ (n + i) x)) ∘ S) a).
  { intros B f. apply imap_ext. intros i y _. cbn. by rewrite Nat.add_succ_r. }
  by rewrite !Hs.
Qed.

Definition is_mark v : path -> bool :=
  fun q => match get v q with Some (Mark _) => true | _ => false end.

Lemma lookup_all l : sorted_keys l = true -> Forall (fun '(k, x) => lookup_key k l = Some x) l.
Proof.
  induction l as [|[k x] l IH]; [constructor|]. intros [Ha Hs]%sorted_cons.
  constructor; [cbn; by rewrite String.eqb_refl|]. specialize (IH Hs).
  unfold after in Ha. rewrite Forall_forall in *. intros [k' y] Hin. cbn.
  pose proof (Ha _ Hin) as Hlt. cbn in Hlt.
  destruct (String.eqb_spec k' k) as [->|]; [by rewrite ltb_irrefl in Hlt|]. exact (IH _ Hin).
Qed.

Lemma get_key l k q x : lookup_key k l = Some x -> get (Map l) (Key k :: q) = get x q.
Proof. intros H. cbn. by rewrite H. Qed.

Lemma get_item a i q x : a !! i = Some x -> get (Arr a) (Int (Z.of_nat i) :: q) = get x q.
Proof.
  intros H. cbn. unfold item. rewrite (proj2 (Z.leb_le _ _)) by lia.
  by rewrite Nat2Z.id, H.
Qed.

Lemma omap_all {A B} (f : A -> option B) (g : A -> B) (l : list A) :
  Forall (fun y => f y = Some (g y)) l -> omap f l = g <$> l.
Proof. induction 1 as [|y l Hy _ IH]; cbn; [done|]. by rewrite Hy, IH. Qed.

(** A value is extracted to itself with nulls for its references. *)
Lemma Extract_value v at_ : wf v = true ->
  fst (Extract v at_) = if is_mark v [] then Null else strip false v (is_mark v).
Proof.
  revert at_. induction v as [| | | | |l IH|a IH] using value_ind'; intros at_ Hw; try done.
  - apply wf_map in Hw as [Hk Hf]. rewrite Extract_map, strip_map. cbn [fst is_mark get].
    f_equal. symmetry. apply omap_all. pose proof (lookup_all l Hk) as Hl.
    rewrite Forall_forall in *. intros [k x] Hin. specialize (Hl _ Hin). cbn in Hl. unfold strip_entry.
    assert (HS : forall q, is_mark (Map l) (Key k :: q) = is_mark x q)
      by (intros q; unfold is_mark; by rewrite (get_key _ _ _ _ Hl)).
    pose proof (IH _ Hin (at_ ++ [Key k]) (Hf _ Hin)) as Hx. cbn [snd] in Hx.
    rewrite HS, Hx. destruct (is_mark x []); [reflexivity|].
    do 2 f_equal. apply strip_ext. intros s q. apply HS.
  - apply wf_arr in Hw. rewrite Extract_arr, strip_arr. cbn [fst is_mark get].
    f_equal. apply imap_ext. intros i x Hi. rewrite Forall_forall in *.
    assert (Hin : x ∈ a) by by eapply list_elem_of_lookup_2.
    unfold extract_item, strip_item. rewrite (IH _ Hin _ (Hw _ Hin)).
    assert (HS : forall q, is_mark (Arr a) (Int (Z.of_nat i) :: q) = is_mark x q)
      by (intros q; unfold is_mark; by rewrite (get_item _ _ _ _ Hi)).
    rewrite HS. destruct (is_mark x []); [done|]. apply strip_ext. intros s q. symmetry. apply HS.
Qed.

(** The references it reports are the ones it holds, each with its path. *)
Lemma Extract_sound v at_ r : wf v = true -> r ∈ snd (Extract v at_) ->
  exists p m, Path r = at_ ++ p /\ get v p = Some (Mark m) /\ Ref r = Ref m /\ Size r = Size m.
Proof.
  revert at_. induction v as [| | | |m|l IH|a IH] using value_ind'; intros at_ Hw.
  1-4: by intros ?%not_elem_of_nil.
  - cbn. intros ->%list_elem_of_singleton. exists [], m. cbn. by rewrite (right_id_L [] (++)).
  - apply wf_map in Hw as [Hk Hf]. rewrite Extract_map. cbn [snd].
    intros ([k x] & Hr & Hin)%list_elem_of_bind. pose proof (lookup_all l Hk) as Hl.
    rewrite Forall_forall in *. specialize (Hl _ Hin). cbn in Hl.
    destruct (IH _ Hin _ (Hf _ Hin) Hr) as (p & m & Hp & Hg & ?). exists (Key k :: p), m.
    rewrite (get_key _ _ _ _ Hl), Hp, <- app_assoc. done.
  - apply wf_arr in Hw. rewrite Extract_arr. cbn [snd].
    intros (rs & Hr & Hin)%list_elem_of_join.
    apply elem_of_lookup_imap_1 in Hin as (i & x & -> & Hi).
    assert (Hin : x ∈ a) by by eapply list_elem_of_lookup_2.
    rewrite Forall_forall in *.
    destruct (IH _ Hin _ (Hw _ Hin) Hr) as (p & m & Hp & Hg & ?). exists (Int (Z.of_nat i) :: p), m.
    rewrite (get_item _ _ _ _ Hi), Hp, <- app_assoc. done.
Qed.

Lemma Extract_complete v at_ p m : get v p = Some (Mark m) ->
  mkRef (Ref m) (Size m) (at_ ++ p) ∈ snd (Extract v at_).
Proof.
  revert v at_. induction p as [|s p IH]; intros v at_ Hg.
  - injection Hg as ->. rewrite app_nil_r. cbn. set_solver.
  - replace (at_ ++ s :: p) with ((at_ ++ [s]) ++ p) by by rewrite <- app_assoc.
    destruct (get_cons _ _ _ _ Hg) as [(l & k & c & -> & -> & Hl & Hr)|(a & i & c & -> & -> & Hi & Hr)].
    + rewrite Extract_map. apply list_elem_of_bind. exists (k, c). split; [by apply IH|].
      clear -Hl. induction l as [|[k' y] l IH]; [done|]. cbn in Hl.
      destruct (String.eqb_spec k k') as [->|]; [injection Hl as ->; left|right; auto].
    + apply item_Some in Hi as [Hi Hx]. rewrite Extract_arr. apply list_elem_of_join.
      exists (snd (extract_item at_ (Z.to_nat i) c)). split.
      * unfold extract_item. rewrite Z2Nat.id by done. by apply IH.
      * by apply (elem_of_lookup_imap_2 (fun i x => snd (extract_item at_ i x))).
Qed.

Lemma NoDup_join_imap {A B} (f : nat -> A -> list B) (a : list A) :
  (forall i y, a !! i = Some y -> NoDup (f i y)) ->
  (forall i j y z b, a !! i = Some y -> a !! j = Some z -> b ∈ f i y -> b ∈ f j z -> i = j) ->
  NoDup (mjoin (imap f a)).
Proof.
  revert f. induction a as [|y a IH]; intros f Hn Hd; cbn; [constructor|].
  apply NoDup_app. split; [by apply (Hn 0%nat)|]. split.
  - intros b Hb (bs & Hin & (j & z & -> & Hz)%elem_of_lookup_imap_1)%list_elem_of_join.
    by specialize (Hd 0%nat (S j) y z b eq_refl Hz Hb Hin).
  - apply IH; [intros i z Hz; by apply (Hn (S i))|].
    intros i j z z' b Hz Hz' H1 H2. by specialize (Hd (S i) (S j) _ _ b Hz Hz' H1 H2) as [=].
Qed.

Lemma sorted_NoDup l : sorted_keys l = true -> NoDup l.
Proof.
  induction l as [|[k x] l IH]; [constructor|]. intros [Ha Hs]%sorted_cons.
  constructor; [|by apply IH]. intros Hin. unfold after in Ha. rewrite Forall_forall in Ha.
  specialize (Ha _ Hin). cbn in Ha. by rewrite ltb_irrefl in Ha.
Qed.

Lemma fmap_bind_list {A B C} (g : B -> C) (f : A -> list B) (a : list A) :
  g <$> (a ≫= f) = a ≫= (fun y => g <$> f y).
Proof. induction a as [|y a IH]; [done|]. cbn. by rewrite fmap_app, IH. Qed.

Lemma fmap_join_imap {A B C} (g : B -> C) (f : nat -> A -> list B) (a : list A) :
  g <$> mjoin (imap f a) = mjoin (imap (fun i y => g <$> f i y) a).
Proof. revert f. induction a as [|y a IH]; intros f; [done|]. cbn. by rewrite fmap_app, IH. Qed.

Lemma Extract_NoDup v at_ : wf v = true -> NoDup (Path <$> snd (Extract v at_)).
Proof.
  revert at_. induction v as [| | | | |l IH|a IH] using value_ind'; intros at_ Hw.
  1-4: constructor.
  - apply NoDup_singleton.
  - apply wf_map in Hw as [Hk Hf]. rewrite Extract_map. cbn [snd].
    rewrite fmap_bind_list. pose proof (lookup_all l Hk) as Hl.
    rewrite Forall_forall in *. apply NoDup_bind; [| |by apply sorted_NoDup].
    + intros [k1 x1] [k2 x2] p H1 H2 Hp1 Hp2. pose proof (Hl _ H1). pose proof (Hl _ H2). cbn in *.
      apply list_elem_of_fmap in Hp1 as (r1 & E1 & Hr1), Hp2 as (r2 & E2 & Hr2).
      destruct (Extract_sound _ _ _ (Hf _ H1) Hr1) as (q1 & _ & Hq1 & _).
      destruct (Extract_sound _ _ _ (Hf _ H2) Hr2) as (q2 & _ & Hq2 & _).
      rewrite Hq1 in E1. rewrite Hq2, E1, <- !app_assoc in E2.
      apply app_inv_head in E2 as [= <- _]. congruence.
    + intros [k x] Hin. by apply (IH _ Hin), (Hf _ Hin).
  - apply wf_arr in Hw. rewrite Extract_arr. cbn [snd]. rewrite fmap_join_imap.
    rewrite Forall_forall in *. apply NoDup_join_imap.
    + intros i x Hi%list_elem_of_lookup_2. by apply (IH _ Hi), Hw.
    + intros i j x y p Hi Hj Hp1 Hp2.
      apply list_elem_of_fmap in Hp1 as (r1 & E1 & Hr1), Hp2 as (r2 & E2 & Hr2).
      apply list_elem_of_lookup_2 in Hi, Hj.
      destruct (Extract_sound _ _ _ (Hw _ Hi) Hr1) as (q1 & _ & Hq1 & _).
      destruct (Extract_sound _ _ _ (Hw _ Hj) Hr2) as (q2 & _ & Hq2 & _).
      rewrite Hq1 in E1. rewrite Hq2, E1, <- !app_assoc in E2.
      apply app_inv_head in E2 as [= E _]. lia.
Qed.

(** Nothing lies below a reference. *)
Lemma get_app v p q : get v (p ++ q) = get v p ≫= fun c => get c q.
Proof.
  revert v. induction p as [|s p IH]; intros v; [done|]. cbn.
  destruct v as [| | | | |l|a], s as [k|i|n]; try done.
  - destruct (lookup_key k l); [apply IH|done].
  - destruct (item i a); [apply IH|done].
Qed.

Lemma mark_last v p q m w : get v p = Some (Mark m) -> get v q = Some w -> p `prefix_of` q -> p = q.
Proof.
  intros Hp Hq [r ->]. rewrite get_app, Hp in Hq. cbn in Hq.
  destruct r as [|[] r]; [by rewrite app_nil_r|done..].
Qed.

(** Each reference of [rs] with what lies at its place, its path decoded or not. *)
Definition contents v (rs : list ObjectRef) (es : list (path * value)) : Prop :=
  Forall2 (fun r e => same_path (Path r) (fst e) /\ get v (Path r) = Some (snd e)) rs es.

(** [Place] inverts [Extract], as its comment claims: put back in any order, at the
    paths reported or at those paths as a client decodes them, the references of a value
    that is not itself one restore the value. *)
Theorem Place_Extract (v out : value) (refs rs : list ObjectRef) (es : list (path * value)) :
  wf v = true -> is_mark v [] = false -> Extract v [] = (out, refs) ->
  rs ≡ₚ refs -> contents v rs es -> place_all out es = Some v.
Proof.
  intros Hw Hm HE Hrs Hes.
  assert (Hs : forall r, r ∈ rs -> exists m, get v (Path r) = Some (Mark m)).
  { intros r Hr. rewrite Hrs in Hr. change refs with (snd (out, refs)) in Hr. rewrite <- HE in Hr.
    destruct (Extract_sound v [] r Hw Hr) as (p & m & -> & ? & _). eauto. }
  pose proof (Extract_value v [] Hw) as Hv. rewrite HE, Hm in Hv. cbn in Hv. subst out.
  rewrite (strip_ext false v _ (among (Path <$> rs))).
  - apply places; [done| | |by apply Forall2_fmap_l].
    + split; [rewrite Hrs; pose proof (Extract_NoDup v [] Hw) as HN; by rewrite HE in HN|].
      intros p q (r & -> & Hr)%list_elem_of_fmap (r' & -> & Hr')%list_elem_of_fmap.
      destruct (Hs r Hr), (Hs r' Hr'). by eapply mark_last.
    + intros (r & Hr0 & Hr)%list_elem_of_fmap. destruct (Hs r Hr) as [m Hg].
      rewrite <- Hr0 in Hg. unfold is_mark in Hm. by rewrite Hg in Hm.
  - intros s q. unfold is_mark, among. symmetry. destruct (get v (s :: q)) as [w|] eqn:Hg.
    1: destruct w as [| | | |m| |].
    5: { apply bool_decide_true. apply list_elem_of_fmap.
         exists (mkRef (Ref m) (Size m) (s :: q)). split; [done|]. rewrite Hrs.
         pose proof (Extract_complete v [] _ m Hg) as HC. by rewrite HE in HC. }
    all: apply bool_decide_false; intros (r & E & Hr)%list_elem_of_fmap;
      destruct (Hs r Hr) as [m Hr']; rewrite <- E in Hr'; congruence.
Qed.

End Paths.
