(* ===== verification/Cutting.v ===== *)
(** The cut is correct: its arithmetic measures the encoding, it ends, what it moves out
    can be put back, it buries and drops no reference, and nothing depends on the order a
    map was iterated in. *)
From Stdlib Require Import ZArith Lia Ascii String.
From stdpp Require Import sorting.
From S2P Require Import Prelude GoStrings Json ObjectCut Paths.
Import Json ObjectCut Paths.
Open Scope string_scope.
Open Scope list_scope.
Open Scope Z_scope.

Module Cutting.

Implicit Types (n m d : node) (v w x : value) (p q : path) (k : string).

(** * The children of a value *)

(** One step down, for a map and an array alike. *)
Definition entries v : list (seg * value) :=
  match v with
  | Map l => (fun '(k, x) => (Key k, x)) <$> l
  | Arr a => imap (fun i x => (Int (Z.of_nat i), x)) a
  | _ => []
  end.

Lemma entries_ind (P : value -> Prop) :
  (forall v, (forall s x, (s, x) ∈ entries v -> P x) -> P v) -> forall v, P v.
Proof.
  intros H. induction v as [| | | | |l IH|a IH] using value_ind'; apply H.
  1-5: by intros ? ? ?%not_elem_of_nil.
  - intros s x ([k y] & [= -> ->] & Hin)%list_elem_of_fmap. rewrite Forall_forall in IH.
    by apply (IH _ Hin).
  - intros s x (i & y & [= -> ->] & Hi)%elem_of_lookup_imap_1. rewrite Forall_forall in IH.
    apply IH. by eapply list_elem_of_lookup_2.
Qed.

Lemma entries_get v s x q : wf v = true -> (s, x) ∈ entries v -> get v (s :: q) = get x q.
Proof.
  destruct v as [| | | | |l|a]; intros Hw; try by intros ?%not_elem_of_nil.
  - intros ([k y] & [= -> ->] & Hin)%list_elem_of_fmap. apply wf_map in Hw as [Hk _].
    pose proof (lookup_all l Hk) as Hl. rewrite Forall_forall in Hl.
    apply get_key, (Hl _ Hin).
  - intros (i & y & [= -> ->] & Hi)%elem_of_lookup_imap_1. by apply get_item.
Qed.

Lemma get_entries v s q w : get v (s :: q) = Some w ->
  exists x, (s, x) ∈ entries v /\ get x q = Some w.
Proof.
  intros Hg. destruct (get_cons _ _ _ _ Hg)
    as [(l & k & c & -> & -> & Hl & Hr)|(a & i & c & -> & -> & Hi & Hr)]; exists c; (split; [|done]).
  - apply list_elem_of_fmap. exists (k, c). split; [done|]. clear -Hl.
    induction l as [|[k' y] l IH]; [done|]. cbn in Hl.
    destruct (String.eqb_spec k k') as [->|]; [injection Hl as ->; left|right; auto].
  - apply item_Some in Hi as [Hi Hc]. apply elem_of_lookup_imap.
    exists (Z.to_nat i), c. by rewrite Z2Nat.id.
Qed.

Lemma entries_wf v s x : wf v = true -> (s, x) ∈ entries v -> wf x = true.
Proof.
  destruct v as [| | | | |l|a]; intros Hw; try by intros ?%not_elem_of_nil.
  - intros ([k y] & [= -> ->] & Hin)%list_elem_of_fmap. apply wf_map in Hw as [_ Hf].
    rewrite Forall_forall in Hf. by apply (Hf _ Hin).
  - intros (i & y & [= -> ->] & Hi)%elem_of_lookup_imap_1. apply wf_arr in Hw.
    rewrite Forall_forall in Hw. apply Hw. by eapply list_elem_of_lookup_2.
Qed.

(** * The tree *)

Definition child_of p (d : nat) (e : seg * value) n : Prop :=
  buildTree (snd e) (p ++ [fst e]) (S d) = Some n.

Lemma build_map l p (d : nat) n : buildTree (Map l) p d = Some n ->
  exists kids, Forall2 (fun e c => fst c = fst e /\
      buildTree (snd e) (p ++ [Key (fst e)]) (S d) = Some (snd c)) l kids /\
    n = Node p (Map l) (map_size kids) d false (snd <$> kids).
Proof.
  cbn. intros (kids & Hk & [= <-])%bind_Some. exists kids. split; [|done].
  revert kids Hk. induction l as [|[k x] l IH]; intros kids Hk.
  - injection Hk as <-. constructor.
  - apply bind_Some in Hk as (c & Hc & (cs & Hcs & [= <-])%bind_Some).
    constructor; [done|]. by apply IH.
Qed.

Lemma build_arr a p (d : nat) n : buildTree (Arr a) p d = Some n ->
  exists kids, Forall2 (child_of p d) (entries (Arr a)) kids /\
    n = Node p (Arr a) (arr_size kids) d false kids.
Proof.
  cbn [buildTree]. intros (kids & Hk & [= <-])%bind_Some. exists kids. split; [|done].
  change 0 with (Z.of_nat 0) in Hk. cbn [entries].
  enough (H : forall (j : nat) kids, (fix go (i : Z) (a : list value) := match a with
              | [] => Some []
              | x :: a =>
                  c ← buildTree x (p ++ [Int i]) (S d); cs ← go (i + 1) a; Some (c :: cs)
              end) (Z.of_nat j) a = Some kids ->
    Forall2 (child_of p d) (imap (fun i x => (Int (Z.of_nat (j + i)), x)) a) kids) by by apply (H 0%nat).
  clear. induction a as [|x a IH]; intros j kids Hk.
  - injection Hk as <-. constructor.
  - apply bind_Some in Hk as (c & Hc & (cs & Hcs & [= <-])%bind_Some). cbn. constructor.
    + unfold child_of. cbn. by rewrite Nat.add_0_r.
    + replace (Z.of_nat j + 1) with (Z.of_nat (S j)) in Hcs by lia. apply IH in Hcs.
      erewrite imap_ext; [exact Hcs|]. intros i y _. cbn. do 3 f_equal. lia.
Qed.

(** What [buildTree] makes of any value. *)
Lemma build_inv v p (d : nat) n : buildTree v p d = Some n ->
  n_path n = p /\ n_value n = v /\ n_depth n = d /\
  n_already n = (if v is Mark _ then true else false) /\
  Forall2 (child_of p d) (entries v) (n_children n).
Proof.
  destruct v as [| | | |r|l|a]; intros H.
  1-4: apply bind_Some in H as (bs & Hb & [= <-]); repeat split; constructor.
  - injection H as <-. repeat split. constructor.
  - apply build_map in H as (kids & HF & ->). cbn. repeat split.
    apply Forall2_fmap. eapply Forall2_impl; [exact HF|]. intros [k x] [k' c] [Hk Hc]. cbn in *. by subst.
  - apply build_arr in H as (kids & HF & ->). cbn. repeat split. exact HF.
Qed.

Lemma collect_cons n : collect n = n :: below n.
Proof. by destruct n. Qed.

Lemma elem_below n m : m ∈ below n <-> exists c, c ∈ n_children n /\ m ∈ collect c.
Proof. unfold below. rewrite list_elem_of_bind. naive_solver. Qed.

(** A node of the tree is the tree of the value at its path. *)
Lemma node_spec v : forall p (d : nat) root n, wf v = true -> buildTree v p d = Some root ->
  n ∈ collect root ->
  exists q, n_path n = p ++ q /\ get v q = Some (n_value n) /\ n_depth n = (d + length q)%nat /\
    wf (n_value n) = true /\ buildTree (n_value n) (n_path n) (n_depth n) = Some n.
Proof.
  induction v as [v IH] using entries_ind. intros p d root n Hw Hb Hn.
  destruct (build_inv _ _ _ _ Hb) as (Hp & Hv & Hd & _ & HF).
  rewrite collect_cons in Hn. apply elem_of_cons in Hn as [->|Hn].
  - exists []. rewrite Hp, Hv, Hd, app_nil_r, Nat.add_0_r. done.
  - apply elem_below in Hn as (c & Hc & Hn).
    apply list_elem_of_lookup_1 in Hc as [i Hi].
    destruct (Forall2_lookup_r _ _ _ _ _ HF Hi) as ([s x] & Hx & Hcx).
    apply list_elem_of_lookup_2 in Hx. unfold child_of in Hcx. cbn in Hcx.
    destruct (IH s x Hx _ _ _ _ (entries_wf _ _ _ Hw Hx) Hcx Hn) as (q & Hq & Hg & Hdq & Hwn & Hbn).
    exists (s :: q). rewrite (entries_get _ _ _ _ Hw Hx).
    split; [by rewrite Hq, <- app_assoc|]. repeat split; try done. cbn. lia.
Qed.

(** Every position has its node. *)
Lemma node_at v : forall p (d : nat) root q w, buildTree v p d = Some root -> get v q = Some w ->
  exists n, n ∈ collect root /\ n_path n = p ++ q.
Proof.
  induction v as [v IH] using entries_ind. intros p d root q w Hb Hg.
  destruct (build_inv _ _ _ _ Hb) as (Hp & Hv & Hd & _ & HF). rewrite collect_cons.
  destruct q as [|s q]; [exists root; rewrite app_nil_r; split; [left|done]|].
  apply get_entries in Hg as (x & Hx & Hg).
  apply list_elem_of_lookup_1 in Hx as [i Hi].
  destruct (Forall2_lookup_l _ _ _ _ _ HF Hi) as (c & Hc & Hcx).
  apply list_elem_of_lookup_2 in Hi, Hc. unfold child_of in Hcx. cbn in Hcx.
  destruct (IH s x Hi _ _ _ _ _ Hcx Hg) as (n & Hn & Hpn). exists n. split.
  - right. apply elem_below. eauto.
  - by rewrite Hpn, <- app_assoc.
Qed.

(** * The arithmetic *)

Lemma len_app (a b : string) : len (a +:+ b) = len a + len b.
Proof. unfold len. rewrite str_length_app. lia. Qed.

Lemma len_String c (s : string) : len (String c s) = 1 + len s.
Proof. unfold len. cbn [String.length]. lia. Qed.

Lemma commas_S (c : nat) : commas (S c) = Z.of_nat c.
Proof. unfold commas. lia. Qed.

Definition sum_of {A} (size : A -> Z) (l : list A) : Z := foldr (fun a s => size a + s) 0 l.

Lemma len_concat (items : list string) :
  len (String.concat "," items) = sum_of len items + commas (length items).
Proof.
  induction items as [|b items IH]; [done|]. cbn [String.concat].
  destruct items as [|c items]; [cbn [length]; rewrite commas_S; unfold sum_of; cbn [foldr]; lia|].
  rewrite !len_app, IH. cbn [length sum_of foldr]. rewrite !commas_S. change (len ",") with 1.
  fold (sum_of len items). lia.
Qed.

(** Two traversals whose steps fail together and measure alike. *)
Lemma mapM_measure {A B C D} (f : A -> option B) (g : C -> option D) (mu : B -> Z) (nu : D -> Z)
    (l : list A) (l' : list C) :
  Forall2 (fun a c => mu <$> f a = nu <$> g c) l l' ->
  (fun r => (sum_of mu r, length r)) <$> mapM f l = (fun r => (sum_of nu r, length r)) <$> mapM g l'.
Proof.
  induction 1 as [|a c l l' Hac _ IH]; [done|]. cbn.
  destruct (f a) as [b|], (g c) as [e|]; try done. cbn in *. injection Hac as Hac.
  destruct (mapM f l) as [bs|], (mapM g l') as [es|]; try done.
  cbn in IH |- *. injection IH as E1 E2. unfold sum_of in *. cbn [foldr length]. by rewrite Hac, E1, E2.
Qed.

Lemma marshal_map l : marshal (Map l) =
  (items ← mapM (fun '(k, x) => b ← marshal x; Some (quote k +:+ ":" +:+ b)) l;
   Some ("{" +:+ String.concat "," items +:+ "}")).
Proof.
  cbn [marshal]. f_equal. induction l as [|[k x] l IH]; [done|]. cbn.
  destruct (marshal x); [|done]. cbn in *. rewrite IH. by destruct (mapM _ l).
Qed.

Lemma marshal_arr a : marshal (Arr a) =
  (items ← mapM marshal a; Some ("[" +:+ String.concat "," items +:+ "]")).
Proof. cbn [marshal]. f_equal. Qed.

Lemma buildTree_map l p (d : nat) : buildTree (Map l) p d =
  (kids ← mapM (fun '(k, x) => c ← buildTree x (p ++ [Key k]) (S d); Some (k, c)) l;
   Some (Node p (Map l) (map_size kids) d false (snd <$> kids))).
Proof.
  cbn [buildTree]. f_equal. induction l as [|[k x] l IH]; [done|]. cbn.
  destruct (buildTree x _ _); [|done]. cbn in *. rewrite IH. by destruct (mapM _ l).
Qed.

Lemma buildTree_arr a p (d : nat) : buildTree (Arr a) p d =
  (kids ← mapM (fun '(s, x) => buildTree x (p ++ [s]) (S d)) (entries (Arr a));
   Some (Node p (Arr a) (arr_size kids) d false kids)).
Proof.
  cbn [buildTree entries]. f_equal. change 0 with (Z.of_nat 0).
  enough (H : forall j : nat, (fix go (i : Z) (a : list value) := match a with
              | [] => Some []
              | x :: a =>
                  c ← buildTree x (p ++ [Int i]) (S d); cs ← go (i + 1) a; Some (c :: cs)
              end) (Z.of_nat j) a =
    mapM (fun '(s, x) => buildTree x (p ++ [s]) (S d)) (imap (fun i x => (Int (Z.of_nat (j + i)), x)) a))
    by by apply (H 0%nat).
  induction a as [|x a IH]; intros j; [done|]. cbn. rewrite Nat.add_0_r.
  destruct (buildTree x _ _); [|done]. cbn.
  replace (Z.of_nat j + 1) with (Z.of_nat (S j)) by lia. rewrite IH.
  erewrite (imap_ext _ ((fun i x => (Int (Z.of_nat (j + i)), x)) ∘ S)); [done|].
  intros i y _. cbn. do 3 f_equal. lia.
Qed.

(** [buildTree] succeeds where the value, its references read as null, marshals, and then
    a node is as big as its encoding. *)
Lemma build_marshal v : forall p (d : nat) at_,
  rawSize <$> buildTree v p d = len <$> marshal (fst (Extract v at_)).
Proof.
  induction v as [| | | | |l IH|a IH] using value_ind'; intros p d at_; try done.
  - cbn. by destruct (marshal_number s).
  - rewrite Extract_map. cbn [fst]. rewrite buildTree_map, marshal_map.
    pose proof (mapM_measure
      (fun '(k, x) => c ← buildTree x (p ++ [Key k]) (S d); Some (k, c))
      (fun '(k, x) => b ← marshal x; Some (quote k +:+ ":" +:+ b))
      (fun e => len (quote (fst e)) + 1 + rawSize (snd e)) len l
      ((fun '(k, x) => (k, fst (Extract x (at_ ++ [Key k])))) <$> l)) as HM.
    rewrite Forall2_fmap_r in HM. rewrite Forall_forall in IH.
    ospecialize (HM _).
    { apply Forall_Forall2_diag, Forall_forall. intros [k x] Hin.
      specialize (IH _ Hin (p ++ [Key k]) (S d) (at_ ++ [Key k])). cbn in IH |- *.
      destruct (buildTree x _ _), (marshal _); try done. cbn in *. injection IH as IH.
      rewrite len_app, len_String. f_equal. lia. }
    destruct (mapM _ l) as [kids|], (mapM _ (_ <$> l)) as [items|]; try done. cbn in HM |- *.
    injection HM as H1 H2. unfold rawSize, map_size. cbn [n_already n_size].
    rewrite ?len_String, len_app, len_concat, <- H1, <- H2. change (len "}") with 1.
    unfold sum_of. f_equal. lia.
  - rewrite Extract_arr. cbn [fst]. rewrite buildTree_arr, marshal_arr.
    pose proof (mapM_measure (fun '(s, x) => buildTree x (p ++ [s]) (S d)) marshal rawSize len
      (entries (Arr a)) (imap (fun i x => fst (extract_item at_ i x)) a)) as HM.
    rewrite Forall_forall in IH. ospecialize (HM _).
    { cbn [entries]. apply Forall2_same_length_lookup_2; [by rewrite !length_imap|].
      intros i [s x] y Hx Hy. rewrite list_lookup_imap in Hx. rewrite list_lookup_imap in Hy.
      destruct (a !! i) as [z|] eqn:Hz; [|done]. injection Hx as <- <-. injection Hy as <-.
      apply IH. by eapply list_elem_of_lookup_2. }
    destruct (mapM _ (entries _)) as [kids|], (mapM _ (imap _ _)) as [items|]; try done.
    cbn in HM |- *. injection HM as H1 H2. unfold arr_size. cbn [rawSize n_already n_size].
    rewrite ?len_String, len_app, len_concat, <- H1, <- H2. change (len "]") with 1.
    unfold sum_of. f_equal. lia.
Qed.

(** A node that is inline is as big as its encoding. *)
Lemma build_size v p (d : nat) n at_ : buildTree v p d = Some n -> n_already n = false ->
  exists b, marshal (fst (Extract v at_)) = Some b /\ len b = n_size n.
Proof.
  intros Hb Ha. pose proof (build_marshal v p d at_) as H. rewrite Hb in H. cbn in H.
  destruct (marshal _) as [b|]; [|done]. injection H as H. exists b. split; [done|].
  unfold rawSize in H. by rewrite Ha in H.
Qed.

Lemma raw_nonneg v p (d : nat) n : buildTree v p d = Some n -> 0 <= rawSize n.
Proof.
  intros Hb. pose proof (build_marshal v p d []) as H. rewrite Hb in H. cbn in H.
  destruct (marshal _); [|done]. injection H as ->. unfold len. lia.
Qed.

Lemma total_ge {A} (f : A -> Z) (l : list A) a : Forall (fun a => 0 <= f a) l -> a ∈ l ->
  f a <= sum_of f l.
Proof.
  intros HF. assert (Hnn : forall l', Forall (fun a => 0 <= f a) l' -> 0 <= sum_of f l').
  { unfold sum_of. induction 1; cbn [foldr]; lia. }
  induction HF as [|b l Hb HF IH]; [by intros ?%not_elem_of_nil|].
  specialize (Hnn l HF). unfold sum_of in *. cbn [foldr].
  intros [->|Ha]%elem_of_cons; [lia|]. specialize (IH Ha). lia.
Qed.

Lemma commas_nonneg (c : nat) : 0 <= commas c.
Proof. unfold commas. destruct c; lia. Qed.

(** A node is at least as big as any child that is still inline. *)
Lemma size_child v p (d : nat) n c : buildTree v p d = Some n -> c ∈ n_children n ->
  n_already c = false -> n_size c <= n_size n.
Proof.
  intros Hb Hc Ha. destruct (build_inv _ _ _ _ Hb) as (_ & _ & _ & _ & HF).
  assert (Hraw : Forall (fun c => 0 <= rawSize c) (n_children n)).
  { apply Forall_forall. intros c' [i Hi]%list_elem_of_lookup_1.
    destruct (Forall2_lookup_r _ _ _ _ _ HF Hi) as (e & _ & He). by eapply raw_nonneg. }
  pose proof (total_ge rawSize _ c Hraw Hc) as Hge. unfold rawSize at 1 in Hge. rewrite Ha in Hge.
  pose proof (commas_nonneg (length (n_children n))) as Hcm.
  destruct v as [| | | |r|l|a].
  1-4: by apply bind_Some in Hb as (? & _ & [= <-]); apply not_elem_of_nil in Hc.
  - injection Hb as <-. by apply not_elem_of_nil in Hc.
  - apply build_map in Hb as (kids & _ & ->). cbn in *. unfold map_size. rewrite length_fmap in Hcm.
    unfold sum_of in *. enough (foldr (fun c s => rawSize c + s) 0 (snd <$> kids) <=
      foldr (fun e s => len (quote (fst e)) + 1 + rawSize (snd e) + s) 0 kids) by lia.
    clear. induction kids as [|[k c] kids IH]; cbn [foldr fmap list_fmap fst snd];
      [done|]. pose proof (Zle_0_nat (String.length (quote k))). unfold len at 1. cbn in IH. lia.
  - apply build_arr in Hb as (kids & _ & ->). cbn in *. unfold arr_size, sum_of in *. lia.
Qed.

(** Nor smaller than anything inline under it. *)
Lemma size_below v : forall p (d : nat) n m, buildTree v p d = Some n -> m ∈ collect n ->
  n_already m = false -> n_size m <= n_size n.
Proof.
  induction v as [v IH] using entries_ind. intros p d n m Hb Hm Ha.
  rewrite collect_cons in Hm. apply elem_of_cons in Hm as [->|Hm]; [done|].
  apply elem_below in Hm as (c & Hc & Hm).
  destruct (build_inv _ _ _ _ Hb) as (_ & _ & _ & _ & HF).
  pose proof Hc as [i Hi]%list_elem_of_lookup_1.
  destruct (Forall2_lookup_r _ _ _ _ _ HF Hi) as ([s x] & Hx & Hcx).
  apply list_elem_of_lookup_2 in Hx. pose proof (IH _ _ Hx _ _ _ _ Hcx Hm Ha).
  etrans; [eassumption|]. apply (size_child _ _ _ _ _ Hb Hc).
  destruct (build_inv _ _ _ _ Hcx) as (_ & _ & _ & Hal & HFc). cbn in Hal, HFc.
  destruct x; try done. apply Forall2_nil_inv_l in HFc.
  rewrite collect_cons in Hm. apply elem_of_cons in Hm as [->|Hm]; [congruence|].
  apply elem_below in Hm as (c' & Hc' & _). rewrite HFc in Hc'. by apply not_elem_of_nil in Hc'.
Qed.

(** * No position twice *)

Lemma entries_NoDup v : wf v = true -> NoDup (entries v).
Proof.
  destruct v as [| | | | |l|a]; intros Hw; try constructor.
  - apply wf_map in Hw as [Hk _]. apply NoDup_fmap_2; [|by apply sorted_NoDup].
    intros [k x] [k' y] E. by injection E as -> ->.
  - apply NoDup_alt. cbn. intros i j e Hi Hj. rewrite list_lookup_imap in Hi.
    rewrite list_lookup_imap in Hj. destruct (a !! i), (a !! j); try done. cbn in *.
    injection Hi as <-. injection Hj as E _. lia.
Qed.

Lemma collect_NoDup v : forall p (d : nat) n, wf v = true -> buildTree v p d = Some n ->
  NoDup (n_path <$> collect n).
Proof.
  induction v as [v IH] using entries_ind. intros p d n Hw Hb.
  destruct (build_inv _ _ _ _ Hb) as (Hp & _ & _ & _ & HF).
  assert (Hchild : forall c, c ∈ n_children n -> exists s x, (s, x) ∈ entries v /\
    buildTree x (p ++ [s]) (S d) = Some c /\ NoDup (n_path <$> collect c) /\
    forall m, m ∈ collect c -> exists q, n_path m = p ++ s :: q).
  { intros c [i Hi]%list_elem_of_lookup_1.
    destruct (Forall2_lookup_r _ _ _ _ _ HF Hi) as ([s x] & Hx & Hcx).
    apply list_elem_of_lookup_2 in Hx. pose proof (entries_wf _ _ _ Hw Hx) as Hwx.
    exists s, x. split; [done|]. split; [done|]. split; [by eapply IH|].
    intros m Hm. destruct (node_spec _ _ _ _ _ Hwx Hcx Hm) as (q & -> & _). exists q.
    by rewrite <- app_assoc. }
  assert (Hinj : forall s x x', (s, x) ∈ entries v -> (s, x') ∈ entries v -> x = x').
  { intros s x x' H1 H2. pose proof (entries_get v s x [] Hw H1) as E1.
    rewrite (entries_get v s x' [] Hw H2) in E1. by injection E1. }
  rewrite collect_cons, fmap_cons. constructor.
  - intros (m & E & (c & Hc & Hm)%elem_below)%list_elem_of_fmap.
    destruct (Hchild c Hc) as (s & x & _ & _ & _ & Hq). destruct (Hq m Hm) as (q & Eq).
    rewrite Hp, Eq in E. apply (f_equal length) in E. rewrite length_app in E. cbn in E. lia.
  - unfold below. rewrite fmap_bind_list. apply NoDup_bind.
    + intros c1 c2 r Hc1 Hc2 (m1 & -> & Hm1)%list_elem_of_fmap (m2 & E & Hm2)%list_elem_of_fmap.
      destruct (Hchild c1 Hc1) as (s1 & x1 & Hx1 & B1 & _ & Q1).
      destruct (Hchild c2 Hc2) as (s2 & x2 & Hx2 & B2 & _ & Q2).
      destruct (Q1 m1 Hm1) as (q1 & E1), (Q2 m2 Hm2) as (q2 & E2).
      rewrite E1, E2 in E. apply app_inv_head in E as [= -> _].
      rewrite (Hinj _ _ _ Hx1 Hx2) in B1. congruence.
    + intros c Hc. by destruct (Hchild c Hc) as (s & x & _ & _ & ? & _).
    + apply NoDup_alt. intros i j c Hi Hj.
      destruct (Forall2_lookup_r _ _ _ _ _ HF Hi) as ([s x] & Hx & Hcx).
      destruct (Forall2_lookup_r _ _ _ _ _ HF Hj) as ([s' x'] & Hx' & Hcx').
      destruct (build_inv _ _ _ _ Hcx) as (P1 & _), (build_inv _ _ _ _ Hcx') as (P2 & _).
      cbn in P1, P2. rewrite P1 in P2. apply app_inv_head in P2 as [= <-].
      rewrite (Hinj s x' x) in Hx'; [|by eapply list_elem_of_lookup_2..].
      by eapply (proj1 (NoDup_alt _) (entries_NoDup v Hw)).
Qed.

(** * One tree *)

Section Tree.

Variable v : value.
Variable root : node.
Hypothesis Hwf : wf v = true.
Hypothesis Hroot : buildTree v [] 0 = Some root.

Local Notation nodes := (collect root).

Lemma node_get n : n ∈ nodes ->
  get v (n_path n) = Some (n_value n) /\ wf (n_value n) = true /\
  buildTree (n_value n) (n_path n) (n_depth n) = Some n.
Proof.
  intros Hn. destruct (node_spec _ _ _ _ _ Hwf Hroot Hn) as (q & -> & ? & ? & ? & ?). done.
Qed.

Lemma node_depth n : n ∈ nodes -> n_depth n = length (n_path n).
Proof. intros Hn. by destruct (node_spec _ _ _ _ _ Hwf Hroot Hn) as (q & -> & ? & -> & _). Qed.

(** A path names one node. *)
Lemma node_inj n m : n ∈ nodes -> m ∈ nodes -> n_path n = n_path m -> n = m.
Proof.
  intros Hn Hm Hp. pose proof (node_depth n Hn) as D1. pose proof (node_depth m Hm) as D2.
  apply node_get in Hn as (G1 & _ & B1), Hm as (G2 & _ & B2).
  rewrite Hp in *. rewrite D1 in B1. rewrite D2 in B2. congruence.
Qed.

(** What lies under a node, and only that. *)
Lemma node_under n m : n ∈ nodes -> m ∈ collect n -> m ∈ nodes.
Proof.
  intros Hn Hm. pose proof (node_depth n Hn) as Hd. destruct (node_get n Hn) as (Hg & Hw & Hb).
  destruct (node_spec _ _ _ _ _ Hw Hb Hm) as (q & Hq & Hgq & Hdm & Hwm & Hbm).
  assert (Hgm : get v (n_path n ++ q) = Some (n_value m)) by by rewrite get_app, Hg.
  destruct (node_at _ _ _ _ _ _ Hroot Hgm) as (m' & Hm' & Hp'). cbn in Hp'.
  pose proof (node_depth m' Hm') as Hd'. destruct (node_get m' Hm') as (Hg' & _ & Hb').
  rewrite Hp' in *. rewrite Hgm in Hg'. injection Hg' as Hv. rewrite <- Hv, Hd', length_app in Hb'.
  rewrite Hq, Hdm, Hd in Hbm. rewrite Hb' in Hbm. by injection Hbm as ->.
Qed.

Lemma below_path n d : n ∈ nodes -> d ∈ below n ->
  exists s q, n_path d = n_path n ++ s :: q.
Proof.
  intros Hn (c & Hc & Hd)%elem_below. destruct (node_get n Hn) as (_ & Hw & Hb).
  destruct (build_inv _ _ _ _ Hb) as (_ & _ & _ & _ & HF).
  apply list_elem_of_lookup_1 in Hc as [i Hi].
  destruct (Forall2_lookup_r _ _ _ _ _ HF Hi) as ([s x] & Hx & Hcx).
  apply list_elem_of_lookup_2 in Hx.
  destruct (node_spec _ _ _ _ _ (entries_wf _ _ _ Hw Hx) Hcx Hd) as (q & -> & _).
  exists s, q. by rewrite <- app_assoc.
Qed.

Lemma below_under n d : n ∈ nodes -> d ∈ below n -> d ∈ nodes.
Proof. intros Hn Hd. eapply node_under; [exact Hn|]. rewrite collect_cons. by right. Qed.

Lemma below_of n m : n ∈ nodes -> m ∈ nodes -> n_path n `prefix_of` n_path m ->
  m = n \/ m ∈ below n.
Proof.
  intros Hn Hm [q Hq]. destruct (node_get n Hn) as (Hg & Hw & Hb).
  destruct (node_get m Hm) as (Hgm & _). rewrite Hq, get_app, Hg in Hgm. cbn in Hgm.
  destruct (node_at _ _ _ _ _ _ Hb Hgm) as (m' & Hm' & Hp'). rewrite <- Hq in Hp'.
  rewrite (node_inj m m'); [|done|by apply (node_under n)|done].
  rewrite collect_cons in Hm'. by apply elem_of_cons in Hm'.
Qed.

(** The nodes under [n] have no path of their own twice. *)
Lemma below_ne n d : n ∈ nodes -> d ∈ below n -> n_path d <> n_path n.
Proof.
  intros Hn Hd E. destruct (below_path n d Hn Hd) as (s & q & Hp). rewrite E in Hp.
  apply (f_equal length) in Hp. rewrite length_app in Hp. cbn in Hp. lia.
Qed.

Lemma already_mark n : n ∈ nodes ->
  n_already n = true <-> exists r, n_value n = Mark r.
Proof.
  intros Hn. destruct (node_get n Hn) as (_ & _ & Hb).
  destruct (build_inv _ _ _ _ Hb) as (_ & _ & _ & -> & _).
  destruct (n_value n); split; eauto; try done; by intros [? [=]].
Qed.

(** * Choosing *)

Implicit Types (chosen : gset path) (st : state).

Definition covered chosen m : Prop := set_Exists (fun q => q `prefix_of` n_path m) chosen.
#[local] Instance covered_dec chosen m : Decision (covered chosen m).
Proof. unfold covered. apply _. Defined.
Definition coverage chosen : nat := length (base.filter (covered chosen) nodes).

Lemma coverage_le chosen : (coverage chosen <= length nodes)%nat.
Proof. apply length_filter. Qed.

Lemma filter_length_lt {A} (P Q : A -> Prop) `{!forall a, Decision (P a), !forall a, Decision (Q a)}
    (l : list A) a :
  (forall b, b ∈ l -> P b -> Q b) -> a ∈ l -> Q a -> ~ P a ->
  (length (base.filter P l) < length (base.filter Q l))%nat.
Proof.
  intros HPQ Ha HQ HP.
  assert (Hle : forall l', (forall b, b ∈ l' -> P b -> Q b) ->
    (length (base.filter P l') <= length (base.filter Q l'))%nat).
  { induction l' as [|b l' IH]; intros HF; [done|]. rewrite !filter_cons.
    specialize (IH ltac:(intros; apply HF; [by right|done])).
    destruct (decide (P b)) as [Hb|]; [rewrite decide_True by (apply HF; [left|done])|destruct (decide (Q b))];
      cbn; lia. }
  revert Ha HPQ. induction l as [|b l IH]; [by intros ?%not_elem_of_nil|]. intros Ha HPQ.
  rewrite !filter_cons. apply elem_of_cons in Ha as [<-|Ha].
  - rewrite (decide_False (P := P a)), (decide_True (P := Q a)) by done. cbn.
    specialize (Hle l ltac:(intros; apply HPQ; [by right|done])). lia.
  - specialize (IH Ha ltac:(intros; apply HPQ; [by right|done])).
    destruct (decide (P b)) as [Hb|]; [rewrite decide_True by (apply HPQ; [left|done])|destruct (decide (Q b))];
      cbn; lia.
Qed.

(** What holds of a selection at any point: it is made of nodes, none above another, holds
    every reference of the value, and nothing else that is small or holds a reference. *)
Record chosen_ok chosen : Prop := {
  ok_nodes : forall p, p ∈ chosen -> exists n, n ∈ nodes /\ n_path n = p;
  ok_apart : forall p q, p ∈ chosen -> q ∈ chosen -> p `prefix_of` q -> p = q;
  ok_already : forall n, n ∈ nodes -> n_already n = true -> n_path n ∈ chosen;
  ok_new : forall n, n ∈ nodes -> n_path n ∈ chosen -> n_already n = true \/
    (holdsAlready n = false /\ minExternalizeBytes <= n_size n) }.

(** A node that may be taken. *)
Definition takeable chosen n : Prop :=
  n ∈ nodes /\ n_already n = false /\ (n_path n ∉ chosen) /\ coveredByAncestor n chosen = false /\
  holdsAlready n = false /\ minExternalizeBytes <= n_size n.

Lemma elem_ancestors q p : q ∈ ancestors p <-> q `prefix_of` p /\ q <> p.
Proof.
  revert q. induction p as [|s p IH]; intros q; cbn.
  - split; [by intros ?%not_elem_of_nil|]. intros [?%prefix_nil_inv ?]. done.
  - rewrite elem_of_cons, list_elem_of_fmap. split.
    + intros [->|(r & -> & [Hr Hne]%IH)]; [split; [apply prefix_nil|done]|].
      split; [by apply prefix_cons|congruence].
    + intros [Hq Hne]. destruct q as [|t q]; [by left|right].
      pose proof (prefix_cons_inv_1 _ _ _ _ Hq) as ->. apply prefix_cons_inv_2 in Hq.
      exists q. split; [done|]. apply IH. split; [done|congruence].
Qed.

Lemma not_covered chosen n q : coveredByAncestor n chosen = false -> n_path n ∉ chosen ->
  q `prefix_of` n_path n -> q ∉ chosen.
Proof.
  intros Hc Hn Hq Hin. destruct (decide (q = n_path n)) as [->|Hne]; [done|].
  unfold coveredByAncestor in Hc. apply not_true_iff_false in Hc. apply Hc.
  apply existsb_exists. exists q. rewrite <- list_elem_of_In, elem_ancestors.
  split; [done|]. by apply bool_decide_true.
Qed.

Lemma drop_chosen ds st q :
  q ∈ chosen (foldl drop st ds) <-> q ∈ chosen st /\ forall d, d ∈ ds -> n_path d <> q.
Proof.
  revert st. induction ds as [|d ds IH]; intros st; cbn.
  - split; [|tauto]. intros Hq. split; [done|]. by intros d ?%not_elem_of_nil.
  - rewrite IH. cbn. setoid_rewrite elem_of_cons. rewrite elem_of_difference, elem_of_singleton.
    split; [|naive_solver]. intros [[Hq Hne] Hds]. split; [done|].
    intros d' [->|Hd']; [congruence|by apply Hds].
Qed.

Lemma elem_chosen_below chosen n d :
  d ∈ chosen_below chosen n <-> n_path d ∈ chosen /\ d ∈ below n.
Proof.
  unfold chosen_below, is_chosen. rewrite list_elem_of_filter. by rewrite bool_decide_spec.
Qed.

Lemma take_chosen n st q : q ∈ chosen (take n st) <->
  q = n_path n \/ (q ∈ chosen st /\ forall d, d ∈ below n -> n_path d <> q).
Proof.
  unfold take. cbn. rewrite elem_of_union, elem_of_singleton, drop_chosen.
  setoid_rewrite elem_chosen_below. split; [|naive_solver].
  intros [->|[Hq Hd]]; [by left|right]. split; [done|]. intros d Hb E.
  apply (Hd d); [|done]. split; [by rewrite E|done].
Qed.

Lemma holdsAlready_below n d : holdsAlready n = false -> d ∈ below n -> n_already d = false.
Proof.
  intros H Hd. apply not_true_iff_false. intros Ha. apply not_true_iff_false in H.
  apply H, existsb_exists. exists d. by rewrite <- list_elem_of_In.
Qed.

Lemma take_ok n st : chosen_ok (chosen st) -> takeable (chosen st) n -> chosen_ok (chosen (take n st)).
Proof.
  intros [H1 H2 H3 H4] (Hn & Hal & Hni & Hc & Hh & Hs). split.
  - intros p [->|[Hp _]]%take_chosen; eauto.
  - intros p q [->|[Hp Hdp]]%take_chosen [->|[Hq Hdq]]%take_chosen Hpq; [done| | |by apply H2].
    + destruct (H1 q Hq) as (m & Hm & <-).
      destruct (below_of n m Hn Hm Hpq) as [->|Hb]; [done|]. by destruct (Hdq m Hb).
    + by destruct (not_covered _ _ _ Hc Hni Hpq).
  - intros m Hm Ha. apply take_chosen. right. split; [by apply H3|].
    intros d Hd E. apply node_inj in E; [|by apply (below_under n)|done]. subst d.
    by rewrite (holdsAlready_below n m) in Ha.
  - intros m Hm [E|[Hp _]]%take_chosen; [|by apply H4].
    apply node_inj in E; [|done..]. subst m. by right.
Qed.

Lemma take_covers n st : takeable (chosen st) n -> (forall p, p ∈ chosen st -> exists m, m ∈ nodes /\ n_path m = p) ->
  (coverage (chosen st) < coverage (chosen (take n st)))%nat.
Proof.
  intros (Hn & _ & Hni & Hc & _) Hch. unfold coverage. apply (filter_length_lt _ _ _ n); [|done| |].
  - intros m Hm (q & Hq & Hpre). destruct (decide (n_path n `prefix_of` n_path m)) as [Hnm|Hnm].
    + exists (n_path n). split; [|done]. apply take_chosen. by left.
    + exists q. split; [|done]. apply take_chosen. right. split; [done|]. intros d Hd <-.
      apply Hnm. destruct (below_path n d Hn Hd) as (s & r & E). rewrite E in Hpre.
      etrans; [|exact Hpre]. by apply prefix_app_r.
  - exists (n_path n). split; [|done]. apply take_chosen. by left.
  - intros (q & Hq & Hpre). by destruct (not_covered _ _ _ Hc Hni Hpre).
Qed.

(** * Selecting *)

(** A node ranked high enough is big enough. *)
Lemma rank_size chosen n : chosen_ok chosen -> n ∈ nodes -> holdsAlready n = false ->
  minExternalizeBytes <= rank chosen n -> minExternalizeBytes <= n_size n.
Proof.
  intros [_ _ _ Hnew] Hn Hh. unfold rank. destruct (chosen_below chosen n) as [|d ds] eqn:E; [done|].
  intros _. assert (Hd : d ∈ chosen_below chosen n) by (rewrite E; left).
  apply elem_chosen_below in Hd as [Hd Hb].
  pose proof (holdsAlready_below _ _ Hh Hb) as Ha.
  destruct (Hnew d (below_under n d Hn Hb) Hd) as [?|[_ Hs]]; [congruence|].
  destruct (node_get n Hn) as (_ & _ & Hbn). etrans; [exact Hs|].
  apply (size_below _ _ _ _ _ Hbn); [rewrite collect_cons; by right|done].
Qed.

(** The selection stayed, or covers more. *)
Definition grows chosen chosen' : Prop :=
  chosen' = chosen \/ (coverage chosen < coverage chosen')%nat.

Lemma more_trans c1 c2 c3 : grows c1 c2 -> grows c2 c3 -> grows c1 c3.
Proof. unfold grows. intros [->|?] [->|?]; auto. right. lia. Qed.

Lemma selectLevel_ok target (r : node -> Z) (holds : node -> bool) level st :
  (forall n, n ∈ level -> n ∈ nodes) ->
  (forall n, n ∈ level -> holdsAlready n = false -> minExternalizeBytes <= r n ->
     minExternalizeBytes <= n_size n) ->
  chosen_ok (chosen st) ->
  chosen_ok (chosen (selectLevel target r holds level st)) /\
  grows (chosen st) (chosen (selectLevel target r holds level st)).
Proof.
  revert st. induction level as [|n level IH]; intros st Hin Hr Hok; cbn [selectLevel].
  { split; [done|by left]. }
  assert (IH' : forall st, chosen_ok (chosen st) ->
    chosen_ok (chosen (selectLevel target r holds level st)) /\
    grows (chosen st) (chosen (selectLevel target r holds level st))).
  { intros st'. apply IH; intros m Hm; [apply Hin|apply Hr]; by right. }
  destruct (fits target st); [split; [done|by left]|].
  destruct (n_already n || _ || _) eqn:E1; [by apply IH'|].
  destruct (holdsAlready n) eqn:E2; [by apply IH'|].
  destruct (Z.ltb_spec (r n) minExternalizeBytes); [split; [done|by left]|].
  destruct (holds n && _); [by apply IH'|].
  apply orb_false_elim in E1 as [[Ha Hc]%orb_false_elim Hcov].
  assert (Ht : takeable (chosen st) n).
  { split; [apply Hin; left|]. split; [done|]. split; [by apply bool_decide_eq_false in Hc|].
    split; [done|]. split; [done|]. apply Hr; [left|done|lia]. }
  destruct (IH' (take n st)) as [H1 H2]; [by apply take_ok|]. split; [done|].
  eapply more_trans; [|exact H2]. right. apply take_covers; [done|]. apply Hok.
Qed.

Lemma select_at_ok target (depth : nat) st : chosen_ok (chosen st) ->
  chosen_ok (chosen (select_at nodes target depth st)) /\
  grows (chosen st) (chosen (select_at nodes target depth st)).
Proof.
  intros Hok. assert (Hin : forall n, n ∈ sort_by (level_less (rank (chosen st))) (byDepth nodes depth) ->
    n ∈ nodes).
  { intros n. unfold sort_by. rewrite merge_sort_Permutation. unfold byDepth.
    by intros [_ ?]%list_elem_of_filter. }
  apply selectLevel_ok; [done| |done]. intros n Hn Hh. apply rank_size; auto.
Qed.

Lemma selectNodes_ok target (depth : nat) st : chosen_ok (chosen st) ->
  chosen_ok (chosen (selectNodes nodes target depth st)) /\
  grows (chosen st) (chosen (selectNodes nodes target depth st)).
Proof.
  revert st. induction depth as [|depth IH]; intros st Hok; cbn [selectNodes];
    (destruct (fits target st); [split; [done|by left]|]); [by apply select_at_ok|].
  destruct (select_at_ok target (S depth) st Hok) as [H1 H2].
  destruct (IH _ H1) as [H3 H4]. split; [done|]. by eapply more_trans.
Qed.

(** * The rounds *)

Lemma start_chosen (l : list node) st p :
  p ∈ chosen (foldl (fun st n => if n_already n then
      mkState ({[n_path n]} ∪ chosen st) (data st - n_size n) (objects st + entrySize (n_path n))
    else st) st l) <-> p ∈ chosen st \/ exists n, n ∈ l /\ n_already n = true /\ n_path n = p.
Proof.
  revert st. induction l as [|n l IH]; intros st; cbn [foldl].
  - split; [by left|]. intros [?|(n & Hn & _)]; [done|by apply not_elem_of_nil in Hn].
  - rewrite IH. setoid_rewrite elem_of_cons. destruct (n_already n) eqn:E; cbn.
    + rewrite elem_of_union, elem_of_singleton. naive_solver.
    + naive_solver congruence.
Qed.

Lemma start_ok : chosen_ok (chosen (start root nodes)).
Proof.
  assert (H : forall p, p ∈ chosen (start root nodes) <->
    exists n, n ∈ nodes /\ n_already n = true /\ n_path n = p).
  { intros p. unfold start. rewrite start_chosen. cbn. set_solver. }
  split.
  - intros p (n & ? & _ & ?)%H. eauto.
  - intros p q (n & Hn & Ha & <-)%H (m & Hm & Ha' & <-)%H Hpre.
    apply (already_mark n Hn) in Ha as [r Hr].
    destruct (node_get n Hn) as (Hg & _), (node_get m Hm) as (Hg' & _).
    rewrite Hr in Hg. by eapply mark_last.
  - intros n Hn Ha. apply H. eauto.
  - intros n Hn (m & Hm & Ha & E)%H. left. apply node_inj in E; [|done..]. by subst.
Qed.

Lemma picked_paths chosen p : chosen_ok chosen ->
  p ∈ n_path <$> pickedInCutOrder nodes chosen <-> p ∈ chosen.
Proof.
  intros Hok. unfold pickedInCutOrder, sort_by. rewrite merge_sort_Permutation.
  unfold picked, is_chosen. rewrite list_elem_of_fmap. setoid_rewrite list_elem_of_filter.
  setoid_rewrite bool_decide_spec. split.
  - by intros (n & -> & Hp & _).
  - intros Hp. destruct (ok_nodes _ Hok p Hp) as (n & Hn & <-). eauto.
Qed.

Lemma picked_nodes chosen n : n ∈ pickedInCutOrder nodes chosen -> n ∈ nodes /\ n_path n ∈ chosen.
Proof.
  unfold pickedInCutOrder, sort_by. rewrite merge_sort_Permutation.
  unfold picked, is_chosen. rewrite list_elem_of_filter. by intros [?%bool_decide_spec ?].
Qed.

Lemma elem_picked chosen n : n ∈ nodes -> n_path n ∈ chosen -> n ∈ pickedInCutOrder nodes chosen.
Proof.
  intros Hn Hp. unfold pickedInCutOrder, sort_by. rewrite merge_sort_Permutation.
  unfold picked, is_chosen. rewrite list_elem_of_filter. split; [|done]. by apply bool_decide_spec.
Qed.

Lemma picked_apart chosen : chosen_ok chosen -> apart (n_path <$> pickedInCutOrder nodes chosen).
Proof.
  intros Hok. split.
  - unfold pickedInCutOrder, sort_by. rewrite merge_sort_Permutation.
    eapply sublist_NoDup; [exact (collect_NoDup _ _ _ _ Hwf Hroot)|].
    apply fmap_sublist, sublist_filter.
  - intros p q Hp Hq. rewrite picked_paths in Hp, Hq by done. by apply Hok.
Qed.

(** * What stays *)

Lemma strip_steps_null (ns : list node) : foldl strip_step Null ns = Null.
Proof.
  induction ns as [|n ns IH]; [done|]. cbn. replace (strip_step Null n) with Null; [done|].
  unfold strip_step. by destruct (n_path n) as [|[] ?].
Qed.

Lemma strip_steps (ns : list node) w :
  foldl strip_step w ns =
  if bool_decide ([] ∈ n_path <$> ns) then Null else foldl removeAt w (n_path <$> ns).
Proof.
  revert w. induction ns as [|n ns IH]; intros w;
    [by rewrite bool_decide_false by apply not_elem_of_nil|]. cbn.
  destruct (decide (n_path n = [])) as [E|E].
  - rewrite bool_decide_true by (rewrite E; left). unfold strip_step. rewrite E.
    apply strip_steps_null.
  - rewrite IH. destruct (decide ([] ∈ n_path <$> ns)) as [Hi|Hi].
    + by rewrite !bool_decide_true by (done || by right).
    + rewrite !bool_decide_false by (done || by intros [?|?]%elem_of_cons).
      unfold strip_step. by destruct (n_path n).
Qed.

(** The value with the chosen nodes out. *)
Definition kept chosen : value :=
  if bool_decide ([] ∈ chosen) then Null
  else strip true v (among (n_path <$> pickedInCutOrder nodes chosen)).

Lemma picked_get chosen : Forall (fun p => is_Some (get v p)) (n_path <$> pickedInCutOrder nodes chosen).
Proof.
  apply Forall_fmap, Forall_forall. intros n [Hn _]%picked_nodes. cbn.
  destruct (node_get n Hn) as [-> _]. by eexists.
Qed.

Lemma stripped_kept chosen : chosen_ok chosen ->
  foldl strip_step v (pickedInCutOrder nodes chosen) = kept chosen.
Proof.
  intros Hok. rewrite strip_steps. unfold kept.
  pose proof (picked_paths chosen [] Hok) as Hnil.
  destruct (decide ([] ∈ chosen)) as [Hc|Hc];
    [by rewrite !bool_decide_true by (done || by apply Hnil)|].
  rewrite !bool_decide_false by (done || by rewrite Hnil).
  pose proof (removes v (n_path <$> pickedInCutOrder nodes chosen) [] Hwf) as H.
  rewrite app_nil_r in H. rewrite (strip_none true v (among [])) in H by done. apply H.
  - by apply picked_apart.
  - by rewrite picked_paths.
  - apply picked_get.
Qed.

(** What a marshalled value leaves once its references are out marshals too. *)
Lemma marshal_strip w : forall S at_, is_Some (marshal (fst (Extract w at_))) ->
  (forall q, is_mark w q = true -> exists r, r <> [] /\ r `prefix_of` q /\ S r = true) ->
  wf w = true -> is_Some (marshal (strip true w S)).
Proof.
  induction w as [| | | |m|l IH|a IH] using value_ind'; intros S at_ Hm HS Hw; try done.
  - destruct (HS [] eq_refl) as (r & Hr & Hp%prefix_nil_inv & _). done.
  - apply wf_map in Hw as [Hk Hf]. pose proof (lookup_all l Hk) as Hl.
    rewrite Extract_map in Hm. cbn [fst] in Hm. rewrite marshal_map in Hm.
    rewrite strip_map, marshal_map. destruct Hm as [b (items & Hi & _)%bind_Some].
    assert (HM : is_Some (mapM (fun '(k, x) => b ← marshal x; Some (quote k +:+ ":" +:+ b))
      (omap (strip_entry true S) l))); [|destruct HM as [bs ->]; cbn; by eexists].
    apply mapM_is_Some, Forall_forall. intros [k y] ([k' x] & Hin & Hy)%list_elem_of_omap.
    cbn in Hy. destruct (S [Key k']) eqn:ES; [done|]. injection Hy as -> <-. cbn.
    rewrite Forall_forall in *. pose proof (Hl _ Hin) as Hlk. cbn in Hlk.
    destruct (IH _ Hin (sub S (Key k)) (at_ ++ [Key k])) as [c Hc].
    + apply mapM_Some, Forall2_fmap_l in Hi. apply list_elem_of_lookup_1 in Hin as [j Hj].
      destruct (Forall2_lookup_l _ _ _ _ _ Hi Hj) as (z & _ & (c & Hc & _)%bind_Some).
      by eexists.
    + intros q Hq. destruct (HS (Key k :: q)) as (r & Hr & Hp & HSr).
      { unfold is_mark. by rewrite (get_key _ _ _ _ Hlk). }
      destruct r as [|s r]; [done|]. pose proof (prefix_cons_inv_1 _ _ _ _ Hp) as ->.
      exists r. split; [intros ->; congruence|]. split; [by eapply prefix_cons_inv_2|done].
    + by apply (Hf _ Hin).
    + cbn in Hc |- *. rewrite Hc. by eexists.
  - apply wf_arr in Hw. rewrite Extract_arr in Hm. cbn [fst] in Hm. rewrite marshal_arr in Hm.
    rewrite strip_arr, marshal_arr. destruct Hm as [b (items & Hi & _)%bind_Some].
    assert (HM : is_Some (mapM marshal (imap (strip_item true S) a)));
      [|destruct HM as [bs ->]; cbn; by eexists].
    apply mapM_is_Some, Forall_forall. intros y (j & x & -> & Hj)%elem_of_lookup_imap_1.
    pose proof (list_elem_of_lookup_2 _ _ _ Hj) as Hin. rewrite Forall_forall in *.
    cbn. unfold strip_item. destruct (S [Int (Z.of_nat j)]) eqn:ES; [by eexists|].
    apply (IH _ Hin _ (at_ ++ [Int (Z.of_nat j)])); [| |by apply Hw].
    + apply mapM_Some in Hi. assert (Hjj : imap (fun i x => fst (extract_item at_ i x)) a !! j =
        Some (fst (extract_item at_ j x))) by (rewrite list_lookup_imap; by rewrite Hj).
      destruct (Forall2_lookup_l _ _ _ _ _ Hi Hjj) as (z & _ & Hz). by eexists.
    + intros q Hq. destruct (HS (Int (Z.of_nat j) :: q)) as (r & Hr & Hp & HSr).
      { unfold is_mark. by rewrite (get_item _ _ _ _ Hj). }
      destruct r as [|s r]; [done|]. pose proof (prefix_cons_inv_1 _ _ _ _ Hp) as ->.
      exists r. split; [intros ->; congruence|]. split; [by eapply prefix_cons_inv_2|done].
Qed.

Lemma kept_marshals chosen : chosen_ok chosen -> is_Some (marshal (kept chosen)).
Proof.
  intros Hok. unfold kept. case_bool_decide as Hnil; [by eexists|].
  apply (marshal_strip v _ []); [| |done].
  - pose proof (build_marshal v [] 0 []) as H. rewrite Hroot in H. cbn in H.
    destruct (marshal _); [by eexists|done].
  - intros q Hq. unfold is_mark in Hq. destruct (get v q) as [w|] eqn:Hg; [|done].
    destruct (node_at _ _ _ _ _ _ Hroot Hg) as (n & Hn & Hp). cbn in Hp.
    assert (Hin : q ∈ chosen).
    { rewrite <- Hp. apply (ok_already _ Hok); [done|]. apply (already_mark n Hn).
      destruct (node_get n Hn) as (Hg' & _). rewrite Hp, Hg in Hg'. injection Hg' as <-.
      destruct w; try done. by eexists. }
    exists q. split; [intros ->; done|]. split; [done|]. apply bool_decide_true.
    by apply picked_paths.
Qed.

Lemma storedSize_ok chosen : chosen_ok chosen -> is_Some (storedSize v nodes chosen).
Proof.
  intros Hok. unfold storedSize. rewrite (stripped_kept _ Hok).
  destruct (kept_marshals _ Hok) as [b ->]. by eexists.
Qed.

(** The rounds end: each but the last covers more nodes. *)
Lemma rounds_ok target (fuel : nat) st : chosen_ok (chosen st) ->
  (length nodes < fuel + coverage (chosen st))%nat ->
  exists st', rounds fuel v nodes target st = Ok st' /\ chosen_ok (chosen st').
Proof.
  revert st. induction fuel as [|fuel IH]; intros st Hok Hf.
  { pose proof (coverage_le (chosen st)). lia. }
  cbn [rounds]. destruct (selectNodes_ok target (maxDepth nodes) st Hok) as [Hok' Hg].
  set (st' := selectNodes nodes target (maxDepth nodes) st) in *.
  case_bool_decide; [by eexists|]. destruct (storedSize_ok _ Hok') as [stored ->]. cbn.
  destruct (stored <=? target); [by eexists|]. cbn.
  destruct (Nat.eqb_spec (size (chosen st')) (size (chosen st))) as [E|E]; [by eexists|].
  apply IH; [done|]. cbn. destruct Hg as [Hg|Hg]; [by rewrite Hg in E|lia].
Qed.

(** * The cut *)

Variable hashContent : string -> string.

(** The reference and the object a chosen node becomes. *)
Definition ref_of n : ObjectRef :=
  match n_value n with
  | Mark r => mkRef (Ref r) (Size r) (n_path n)
  | w => let b := default "" (marshal w) in mkRef (hashContent b) (len b) (n_path n)
  end.
Definition obj_of n : option pendingObject :=
  match n_value n with
  | Mark _ => None
  | w => let b := default "" (marshal w) in Some (mkPending (hashContent b) b (len b))
  end.

Lemma ref_of_path n : Path (ref_of n) = n_path n.
Proof. unfold ref_of. by destruct (n_value n). Qed.

(** There is no reference in a node that holds none. *)
Lemma new_unmarked n q : n ∈ nodes -> n_already n = false -> holdsAlready n = false ->
  is_mark (n_value n) q = false.
Proof.
  intros Hn Ha Hh. destruct (node_get n Hn) as (_ & Hw & Hb).
  unfold is_mark. destruct (get (n_value n) q) as [w|] eqn:Hg; [|done].
  destruct (node_at _ _ _ _ _ _ Hb Hg) as (m & Hm' & Hp).
  destruct (node_spec _ _ _ _ _ Hw Hb Hm') as (q' & Hq' & Hg' & _). rewrite Hp in Hq'.
  apply app_inv_head in Hq' as <-. rewrite Hg in Hg'. injection Hg' as ->.
  assert (Hma : n_already m = false).
  { rewrite collect_cons in Hm'. apply elem_of_cons in Hm' as [->|Hm']; [done|].
    by apply (holdsAlready_below n m). }
  pose proof (already_mark m (node_under n m Hn Hm')) as Hiff. rewrite Hma in Hiff.
  destruct (n_value m); try done. destruct Hiff as [_ Hiff]. by specialize (Hiff ltac:(eauto)).
Qed.

(** It marshals, to as many bytes as it was sized. *)
Lemma new_marshals n : n ∈ nodes -> n_already n = false -> holdsAlready n = false ->
  exists b, marshal (n_value n) = Some b /\ len b = n_size n.
Proof.
  intros Hn Ha Hh. destruct (node_get n Hn) as (_ & Hw & Hb).
  destruct (build_size _ _ _ _ [] Hb Ha) as (b & Hm & Hl). exists b. split; [|done].
  rewrite (Extract_value _ _ Hw), new_unmarked, strip_none in Hm; try done.
  intros s q. by apply new_unmarked.
Qed.

(** Only what the code makes: keys and integers. *)
Definition made p : Prop := Forall (fun s => match s with Number _ => False | _ => True end) p.

Lemma get_made p : forall w x, get w p = Some x -> made p.
Proof.
  induction p as [|s p IH]; intros w x H; [constructor|].
  destruct (get_cons _ _ _ _ H) as [(l & k & c & _ & -> & _ & Hr)|(a & i & c & _ & -> & _ & Hr)];
    (constructor; [done|by eapply IH]).
Qed.

(** Placing a null before removing changes nothing. *)
Lemma removeAt_Place p : forall w x w', wf w = true -> made p -> Place w p x = Some w' ->
  removeAt w' p = removeAt w p.
Proof.
  induction p as [|s p IH]; [done|]. intros w x w' Hw Hp HP. apply Forall_cons in Hp as [Hs Hp].
  destruct w as [| | | | |l|a]; try done.
  - apply wf_map in Hw as [Hk Hf]. destruct s as [k|i|s]; try done. destruct p as [|t p].
    + injection HP as <-. cbn. f_equal. destruct (lookup_key k l) eqn:E.
      * by eapply delete_put.
      * by apply delete_put_new.
    + rewrite Place_map in HP. apply bind_Some in HP as (c & Hc & (c' & Hc' & [= <-])%bind_Some).
      cbn [removeAt]. rewrite lookup_put, Hc, put_put. do 2 f_equal.
      eapply IH; [by eapply lookup_wf|done|exact Hc'].
  - destruct s as [k|i|s]; try done. cbn [Place index] in HP.
    apply bind_Some in HP as (j & [= <-] & (c & Hc & (c' & Hc' & [= <-])%bind_Some)%bind_Some).
    cbn [removeAt]. rewrite Hc. apply item_Some in Hc as [Hi Hc]. unfold item, set_item.
    rewrite (proj2 (Z.leb_le _ _) Hi), list_lookup_insert_eq, list_insert_insert_eq by by eapply lookup_lt_Some.
    f_equal. destruct p as [|t p]; [done|]. f_equal.
    eapply IH; [|done|exact Hc'].
    apply (item_wf i a c Hw). unfold item. by rewrite (proj2 (Z.leb_le _ _) Hi).
Qed.

Lemma cut_step_ok n out refs objs : n ∈ nodes -> n_already n = true \/ holdsAlready n = false ->
  wf out = true ->
  cut_step hashContent (out, refs, objs) n =
  Ok (strip_step out n, refs ++ [ref_of n], objs ++ option_list (obj_of n)).
Proof.
  intros Hn Hnew Hw. unfold ref_of, obj_of. destruct (n_already n) eqn:Ha.
  - pose proof Ha as [r Hr]%(already_mark n Hn). unfold cut_step. rewrite Ha, Hr.
    cbn [option_list]. rewrite app_nil_r. repeat f_equal. unfold strip_step.
    destruct (n_path n) as [|s p] eqn:Ep; [done|].
    destruct (Place out (s :: p) Null) as [out'|] eqn:HP; [|done]. cbn [default from_option id].
    eapply removeAt_Place; [done| |done]. rewrite <- Ep.
    destruct (node_get n Hn) as [Hg _]. by eapply get_made.
  - destruct Hnew as [|Hh]; [done|]. destruct (new_marshals n Hn Ha Hh) as (b & Hb & _).
    unfold cut_step. rewrite Ha.
    assert (Hm : forall r, n_value n <> Mark r).
    { intros r Hr. destruct (already_mark n Hn) as [_ Hiff]. rewrite Ha in Hiff.
      by specialize (Hiff ltac:(eauto)). }
    revert Hb Hm. destruct (n_value n); intros Hb Hm; try (by destruct (Hm _ eq_refl)); by rewrite Hb.
Qed.

Lemma cut_all_ok (ns : list node) : forall out refs objs,
  (forall n, n ∈ ns -> n ∈ nodes /\ (n_already n = true \/ holdsAlready n = false)) ->
  (forall ns1 ns2, ns = ns1 ++ ns2 -> wf (foldl strip_step out ns1) = true) ->
  cut_all hashContent (out, refs, objs) ns =
  Ok (foldl strip_step out ns, refs ++ (ref_of <$> ns), objs ++ omap obj_of ns).
Proof.
  induction ns as [|n ns IH]; intros out refs objs Hns Hw; cbn [cut_all].
  - cbn. by rewrite !app_nil_r.
  - destruct (Hns n ltac:(left)) as [Hn Ha].
    rewrite cut_step_ok; [|done|done|exact (Hw [] (n :: ns) eq_refl)].
    cbn [mbind result_bind]. rewrite IH.
    + cbn [foldl fmap list_fmap]. rewrite <- !app_assoc. do 3 f_equal. cbn [omap list_omap].
      by destruct (obj_of n).
    + intros m Hm. apply Hns. by right.
    + intros ns1 ns2 ->. apply (Hw (n :: ns1) ns2 eq_refl).
Qed.

(** What the steps pass through on the way is well formed. *)
Lemma strip_steps_wf (ns1 ns2 : list node) chosen : chosen_ok chosen ->
  pickedInCutOrder nodes chosen = ns1 ++ ns2 -> wf (foldl strip_step v ns1) = true.
Proof.
  intros Hok E. rewrite strip_steps. case_bool_decide as Hnil; [done|].
  pose proof (picked_apart _ Hok) as Hap. pose proof (picked_get chosen) as Hg.
  rewrite E, fmap_app in Hap, Hg. apply Forall_app in Hg as [Hg _].
  assert (Hap1 : apart (n_path <$> ns1)).
  { destruct Hap as [Hn Hap]. split; [by apply NoDup_app in Hn as (? & _)|].
    intros p q Hp Hq. apply Hap; apply elem_of_app; by left. }
  pose proof (removes v (n_path <$> ns1) [] Hwf) as H.
  rewrite app_nil_r in H. rewrite (strip_none true v (among [])) in H by done.
  rewrite H by done. by apply strip_wf.
Qed.

Lemma applyCut_ok chosen : chosen_ok chosen ->
  applyCut hashContent v nodes chosen =
  Ok (kept chosen, sort_by ref_less (ref_of <$> pickedInCutOrder nodes chosen),
      omap obj_of (pickedInCutOrder nodes chosen)).
Proof.
  intros Hok. unfold applyCut. rewrite cut_all_ok.
  - cbn. by rewrite (stripped_kept _ Hok).
  - intros n [Hn Hp]%picked_nodes. split; [done|].
    destruct (ok_new _ Hok n Hn Hp) as [?|[? _]]; auto.
  - intros ns1 ns2 E. by eapply strip_steps_wf.
Qed.

End Tree.

End Cutting.
