(* ===== verification/CutOrder.v ===== *)
(** The orders of the cut are total, so what [sort.Slice] makes of the nodes does not
    depend on the order it found them in. *)
From Stdlib Require Import ZArith Lia Ascii String.
From stdpp Require Import sorting.
From S2P Require Import Prelude GoStrings Json ObjectCut Paths Cutting.
Import Json ObjectCut Paths Cutting.
Open Scope string_scope.
Open Scope list_scope.
Open Scope Z_scope.

Module CutOrder.

Implicit Types (n m d : node) (p q : path) (chosen : gset path).

(** * Lexicographic order over a total order *)

Section Lex.
Context {A : Type} (le : A -> A -> Prop) `{!EqDecision A, !PartialOrder le, !Total le}.

Fixpoint lex_le (a b : list A) : Prop :=
  match a, b with
  | [], _ => True
  | _ :: _, [] => False
  | x :: a, y :: b => if decide (x = y) then lex_le a b else le x y
  end.

#[export] Instance lex_trans : Transitive lex_le.
Proof.
  intros a. induction a as [|x a IH]; intros [|y b] [|z c]; cbn; try done.
  intros H1 H2. repeat case_decide; subst; try done; first [by eapply IH|by etrans|idtac].
  match goal with H : ?x <> ?y |- _ => destruct H; by apply (anti_symm le) end.
Qed.

#[export] Instance lex_antisymm : AntiSymm (=) lex_le.
Proof.
  intros a. induction a as [|x a IH]; intros [|y b]; cbn; try done. intros H1 H2.
  repeat case_decide; subst; try done; [f_equal; by apply IH|].
  match goal with H : ?x <> ?y |- _ => destruct H; by apply (anti_symm le) end.
Qed.

#[export] Instance lex_total : Total lex_le.
Proof.
  intros a. induction a as [|x a IH]; intros [|y b]; cbn; auto.
  repeat case_decide; subst; try done; first [apply IH|apply (total le)].
Qed.
End Lex.

(** * Paths *)

(** What [pathLess] sees of a step. *)
Definition seg_key (s : seg) : string + Z :=
  match s with Key k => inl k | _ => inr (seg_int s) end.
Definition key_le (a b : string + Z) : Prop :=
  match a, b with
  | inl x, inl y => String.le x y
  | inl _, inr _ => True
  | inr _, inl _ => False
  | inr i, inr j => i <= j
  end.

#[export] Instance key_le_po : PartialOrder key_le.
Proof.
  split; [split|].
  - intros [x|i]; cbn; [done|lia].
  - intros [x|i] [y|j] [z|k]; cbn; try done; [|lia]. intros ? ?. by etrans.
  - intros [x|i] [y|j]; cbn; try done.
    + intros ? ?. f_equal. by apply (anti_symm String.le).
    + intros. f_equal. lia.
Qed.

#[export] Instance key_le_total : Total key_le.
Proof.
  intros [x|i] [y|j]; cbn; auto; [|lia]. apply (total String.le).
Qed.

Lemma ltb_le a b : String.ltb a b = false <-> String.le b a.
Proof.
  unfold String.le, String.leb, String.ltb. rewrite String.compare_antisym.
  destruct (b ?= a)%string; cbn; split; try done.
Qed.

(** The steps the code makes, which [seg_key] tells apart. *)
Lemma seg_key_inj s t : made [s; t] -> seg_key s = seg_key t -> s = t.
Proof.
  intros [Hs [Ht _]%Forall_cons]%Forall_cons. destruct s, t; try done; cbn; congruence.
Qed.

Lemma path_keys_inj p q : made p -> made q -> seg_key <$> p = seg_key <$> q -> p = q.
Proof.
  revert q. induction p as [|s p IH]; intros [|t q]; try done.
  intros [Hs Hp]%Forall_cons [Ht Hq]%Forall_cons E. injection E as E1 E2.
  f_equal; [apply seg_key_inj; [by repeat constructor|done]|by apply IH].
Qed.

Lemma pathLess_cons s t p q : pathLess (t :: q) (s :: p) = false <->
  if decide (seg_key s = seg_key t) then pathLess q p = false else key_le (seg_key s) (seg_key t).
Proof.
  destruct s as [k|i|a], t as [k'|i'|a']; cbn [pathLess seg_key seg_int key_le];
    case_decide as E; try done.
  1: injection E as ->; by rewrite String.eqb_refl.
  1: rewrite (proj2 (String.eqb_neq k' k)) by congruence; apply ltb_le.
  all: try (injection E as E; by rewrite (proj2 (Z.eqb_eq _ _)) by done).
  all: rewrite (proj2 (Z.eqb_neq _ _)) by congruence; rewrite Z.ltb_ge; done.
Qed.

Lemma sorts_path p q : sorts pathLess p q <-> lex_le key_le (seg_key <$> p) (seg_key <$> q).
Proof.
  unfold sorts. revert q. induction p as [|s p IH]; intros [|t q]; [done..|].
  rewrite pathLess_cons. cbn [fmap list_fmap lex_le]. case_decide; [apply IH|done].
Qed.

(** * A measure first, then a path *)

(** The smaller [f] first, a tie by the path of the element. *)
Definition measured {A} (f : A -> Z) (path_of : A -> path) (a b : A) : bool :=
  if f a =? f b then pathLess (path_of a) (path_of b) else f a <? f b.

Section Measured.
Context {A : Type} (f : A -> Z) (path_of : A -> path) (less : A -> A -> bool).
Hypothesis less_is : forall a b, less a b = measured f path_of a b.

Lemma sorts_measured a b : sorts less a b <->
  f a < f b \/ (f a = f b /\ sorts pathLess (path_of a) (path_of b)).
Proof.
  unfold sorts. rewrite less_is. unfold measured. case Z.eqb_spec; [intros ->; split; [by right|intros [?|[_ ?]]; [lia|done]]|].
  intros Hne. rewrite Z.ltb_ge. split; [left; lia|intros [?|[? _]]; lia].
Qed.

#[local] Instance measured_trans : Transitive (sorts less).
Proof.
  intros a b c. rewrite !sorts_measured, !sorts_path. intros [H1|[H1 P1]] [H2|[H2 P2]]; try (left; lia).
  right. split; [lia|by etrans].
Qed.

#[local] Instance measured_total : Total (sorts less).
Proof.
  intros a b. rewrite !sorts_measured, !sorts_path.
  destruct (Z.lt_total (f a) (f b)) as [?|[E|?]]; [by left; left| |by right; left].
  destruct (total (lex_le key_le) (seg_key <$> path_of a) (seg_key <$> path_of b)).
  - left. by right.
  - right. right. by split.
Qed.

(** Elements told apart by their paths sort in one way only. *)
Lemma sort_unique (l l' : list A) :
  (forall a b, a ∈ l -> b ∈ l -> path_of a = path_of b -> a = b) ->
  (forall a, a ∈ l -> made (path_of a)) ->
  l' ≡ₚ l -> Sorted (sorts less) l' -> l' = sort_by less l.
Proof.
  intros Hinj Hmade Hp Hs. apply (Sorted_unique_strong (sorts less)).
  - intros a b. unfold sort_by. rewrite merge_sort_Permutation, Hp. intros Ha Hb.
    rewrite !sorts_measured, !sorts_path. intros H1 H2. apply Hinj; [done..|].
    apply path_keys_inj; [by apply Hmade..|]. apply (anti_symm (lex_le key_le)); [|].
    + destruct H1 as [?|[_ ?]]; [|done]. destruct H2 as [?|[? _]]; lia.
    + destruct H2 as [?|[_ ?]]; [|done]. destruct H1 as [?|[? _]]; lia.
  - done.
  - unfold sort_by. apply (Sorted_merge_sort _).
  - unfold sort_by. by rewrite merge_sort_Permutation.
Qed.
End Measured.

(** * The three sorts of the cut *)

(** The cut depends on no iteration order: the nodes of a level, the chosen nodes and the
    list of references have one sorted arrangement each, so whatever order the maps were
    walked in and whatever [sort.Slice] does with equal elements, the same nodes are tried,
    cut and listed in the same order. *)
Theorem sorts_unique (v : value) (root : node) (chosen : gset path) (rank : node -> Z) (depth : nat)
    (hashContent : string -> string) :
  wf v = true -> buildTree v [] 0 = Some root ->
  (forall level, level ≡ₚ byDepth (collect root) depth -> Sorted (sorts (level_less rank)) level ->
     level = sort_by (level_less rank) (byDepth (collect root) depth)) /\
  (forall ns, ns ≡ₚ picked (collect root) chosen -> Sorted (sorts cut_less) ns ->
     ns = pickedInCutOrder (collect root) chosen) /\
  (forall refs, refs ≡ₚ ref_of hashContent <$> pickedInCutOrder (collect root) chosen ->
     Sorted (sorts ref_less) refs ->
     refs = sort_by ref_less (ref_of hashContent <$> pickedInCutOrder (collect root) chosen)).
Proof.
  intros Hw Hr.
  assert (Hmade : forall n, n ∈ collect root -> made (n_path n)).
  { intros n Hn. destruct (node_get v root Hw Hr n Hn) as (Hg & _). by eapply get_made. }
  assert (Hdepth : forall n, n ∈ byDepth (collect root) depth -> n ∈ collect root)
    by by intros n [_ ?]%list_elem_of_filter.
  assert (Hpick : forall n, n ∈ picked (collect root) chosen -> n ∈ collect root)
    by by intros n [_ ?]%list_elem_of_filter.
  split; [|split].
  - intros level Hp Hs. eapply (sort_unique (fun n => - rank n) n_path (level_less rank)); try done.
    + intros n d. unfold level_less, measured.
      destruct (Z.eqb_spec (rank n) (rank d)), (Z.eqb_spec (- rank n) (- rank d)); try done; try lia.
    + intros n d Hn Hd. apply (node_inj v root Hw Hr); auto.
    + intros n Hn. auto.
  - intros ns Hp Hs. eapply (sort_unique (fun n => - Z.of_nat (n_depth n)) n_path cut_less); try done.
    + intros n d. unfold cut_less, measured.
      destruct (Nat.eqb_spec (n_depth n) (n_depth d)),
        (Z.eqb_spec (- Z.of_nat (n_depth n)) (- Z.of_nat (n_depth d))); try done; try lia.
      destruct (Nat.ltb_spec (n_depth d) (n_depth n)),
        (Z.ltb_spec (- Z.of_nat (n_depth n)) (- Z.of_nat (n_depth d))); done || lia.
    + intros n d Hn Hd. apply (node_inj v root Hw Hr); auto.
    + intros n Hn. auto.
  - intros refs Hp Hs. eapply (sort_unique (fun _ => 0) Path ref_less); try done.
    + intros r1 r2 (n1 & -> & Hn1)%list_elem_of_fmap (n2 & -> & Hn2)%list_elem_of_fmap.
      rewrite !ref_of_path. intros E. apply picked_nodes in Hn1 as [Hn1 _], Hn2 as [Hn2 _].
      by rewrite (node_inj v root Hw Hr n1 n2).
    + intros r (n & -> & [Hn _]%picked_nodes)%list_elem_of_fmap. rewrite ref_of_path. auto.
Qed.

End CutOrder.
