(* ===== verification/Externalizing.v ===== *)
(** What [cutForSize] promises, from the lemmas of [Cutting]: it ends and fails only where
    the value does not marshal, what it took out can be put back, no reference is buried or
    dropped, small values stay, and the order of a map's iteration is never seen.  The last
    part computes an input on which the rounds stop too early. *)
From Stdlib Require Import ZArith Lia Ascii String.
From stdpp Require Import sorting.
From S2P Require Import Prelude GoStrings Json ObjectCut Paths Cutting CutOrder.
Import Json ObjectCut Paths Cutting CutOrder.
Open Scope string_scope.
Open Scope list_scope.
Open Scope Z_scope.

Module Externalizing.

Implicit Types (n d : node) (v w : value) (p q : path) (r m : ObjectRef) (chosen : gset path).

Section Results.

Variable hashContent : string -> string.

(** The result, whatever the rounds chose. *)
Lemma cut_result v root (target : Z) : wf v = true -> buildTree v [] 0 = Some root ->
  exists chosen, chosen_ok root chosen /\
    cutForSize hashContent v target =
    Ok (if bool_decide (chosen = ∅) then (v, [], [])
        else (kept v root chosen,
              sort_by ref_less (ref_of hashContent <$> pickedInCutOrder (collect root) chosen),
              omap (obj_of hashContent) (pickedInCutOrder (collect root) chosen))).
Proof.
  intros Hw Hr. unfold cutForSize. rewrite Hr. cbn [of_option mbind result_bind].
  destruct (rounds_ok v root Hw Hr target (S (length (collect root))) (start root (collect root)))
    as (st & Hst & Hok); [by apply (start_ok v root Hw Hr)|lia|].
  exists (chosen st). split; [done|]. rewrite Hst. cbn [mbind result_bind].
  case_bool_decide; [done|]. by rewrite (applyCut_ok v root Hw Hr).
Qed.

(** Externalizing ends on every value - the rounds of [cutForSize] never run out, since
    each round that changes the number of chosen nodes covers more of the tree - and it
    fails exactly when the value, its references read as null, holds a number
    [json.Marshal] refuses. *)
Theorem cut_total (v : value) (target : Z) (e : cut_error) : wf v = true ->
  cutForSize hashContent v target = Err e <->
  e = NotMarshalled /\ marshal (fst (Extract v [])) = None.
Proof.
  intros Hw. pose proof (build_marshal v [] 0 []) as Hb.
  destruct (buildTree v [] 0) as [root|] eqn:Hr.
  - destruct (cut_result v root target Hw Hr) as (c & _ & ->). cbn in Hb.
    split; [done|]. intros [_ Hn]. by rewrite Hn in Hb.
  - unfold cutForSize. rewrite Hr. cbn in *. destruct (marshal _); [done|].
    split; [by intros [= <-]|by intros [-> _]].
Qed.

(** What a reference of the list stands for: one the value already held, or a part of it
    that is written as an object under the hash of its encoding. *)
Definition stands_for v (objs : list pendingObject) r w : Prop :=
  get v (Path r) = Some w /\
  ((exists m, w = Mark m /\ Ref r = Ref m /\ Size r = Size m) \/
   (exists b, marshal w = Some b /\ Ref r = hashContent b /\ Size r = len b /\
      mkPending (hashContent b) b (len b) ∈ objs)).

(** Putting every reference's value back at its path, in any order and from decoded paths,
    gives the value; a whole value moved out leaves a null and one reference at the root. *)
Definition restores v (out : value) (refs : list ObjectRef) : Prop :=
  (exists r, refs = [r] /\ Path r = [] /\ out = Null) \/
  forall rs es, rs ≡ₚ refs -> contents v rs es -> place_all out es = Some v.

Lemma ref_stands v root chosen n : wf v = true -> buildTree v [] 0 = Some root ->
  chosen_ok root chosen -> n ∈ pickedInCutOrder (collect root) chosen ->
  exists w, stands_for v (omap (obj_of hashContent) (pickedInCutOrder (collect root) chosen))
              (ref_of hashContent n) w.
Proof.
  intros Hw Hr Hok Hn. exists (n_value n). pose proof Hn as [Hin Hp]%picked_nodes.
  unfold stands_for. rewrite ref_of_path. destruct (node_get v root Hw Hr n Hin) as (Hg & _).
  split; [done|]. destruct (n_already n) eqn:Ha.
  - apply (already_mark v root Hw Hr n Hin) in Ha as [r Ha]. left. exists r.
    unfold ref_of. by rewrite Ha.
  - right. destruct (ok_new _ _ Hok n Hin Hp) as [|[Hh _]]; [congruence|].
    destruct (new_marshals v root Hw Hr n Hin Ha Hh) as (b & Hb & _). exists b.
    assert (E : ref_of hashContent n = mkRef (hashContent b) (len b) (n_path n) /\
      obj_of hashContent n = Some (mkPending (hashContent b) b (len b))).
    { unfold ref_of, obj_of. pose proof (already_mark v root Hw Hr n Hin) as Hm.
      rewrite Ha in Hm. revert Hb Hm. destruct (n_value n); intros Hb Hm;
        try (by destruct Hm as [_ Hm]; specialize (Hm ltac:(eauto))); by rewrite Hb. }
    destruct E as [-> E]. repeat split; try done. apply list_elem_of_omap. eauto.
Qed.

(** C22. What was externalized can be put back: each reference of the list stands for the
    part of the value at its path, with the object it names written under the hash of
    that part's encoding (or it is one the value already held), and placing the parts at
    the paths of the references - in any order, from paths as the code makes them or as
    they are decoded - gives the value back. *)
Theorem cut_restores (v out : value) (target : Z) (refs : list ObjectRef) (objs : list pendingObject) :
  wf v = true -> cutForSize hashContent v target = Ok (out, refs, objs) ->
  (forall r, r ∈ refs -> exists w, stands_for v objs r w) /\ restores v out refs.
Proof.
  intros Hw Hcut. destruct (buildTree v [] 0) as [root|] eqn:Hr;
    [|unfold cutForSize in Hcut; by rewrite Hr in Hcut].
  destruct (cut_result v root target Hw Hr) as (c & Hok & E). rewrite E in Hcut. clear E.
  case_bool_decide as Hc; injection Hcut as <- <- <-.
  { split; [by intros r ?%not_elem_of_nil|]. right. intros rs es Hrs Hes.
    apply Permutation_nil_r in Hrs as ->. by apply Forall2_nil_inv_l in Hes as ->. }
  set (ns := pickedInCutOrder (collect root) c).
  assert (Hperm : sort_by ref_less (ref_of hashContent <$> ns) ≡ₚ ref_of hashContent <$> ns)
    by apply merge_sort_Permutation.
  assert (Hpaths : Path <$> (ref_of hashContent <$> ns) = n_path <$> ns).
  { rewrite <- list_fmap_compose. apply list_fmap_ext. intros i n _. apply ref_of_path. }
  pose proof (picked_apart v root Hw Hr c Hok) as Hap. fold ns in Hap. split.
  { intros r. rewrite Hperm. intros (n & -> & Hn)%list_elem_of_fmap. by apply ref_stands. }
  unfold kept. case_bool_decide as Hnil.
  - left. apply (picked_paths root c [] Hok) in Hnil. fold ns in Hnil.
    apply list_elem_of_fmap in Hnil as (n & Hn & Hin).
    assert (Hns : ns = [n]).
    { destruct Hap as [Hnd Hap].
      assert (Hall : forall d, d ∈ ns -> n_path d = []).
      { intros d Hd. symmetry. apply Hap; [rewrite Hn| |apply prefix_nil];
          by apply (list_elem_of_fmap_2 n_path). }
      destruct ns as [|a [|b l]]; [by apply not_elem_of_nil in Hin| |].
      - apply list_elem_of_singleton in Hin. by subst.
      - cbn in Hnd. rewrite (Hall a), (Hall b) in Hnd by set_solver.
        apply NoDup_cons in Hnd as [Hnot _]. by destruct Hnot; left. }
    rewrite Hns. exists (ref_of hashContent n). rewrite ref_of_path. done.
  - right. intros rs es Hrs Hes. rewrite <- (picked_paths root c [] Hok) in Hnil. fold ns in Hnil.
    rewrite Hperm in Hrs.
    assert (Hps : Path <$> rs ≡ₚ n_path <$> ns) by by rewrite Hrs, Hpaths.
    fold ns. rewrite (strip_ext true v _ (among (Path <$> rs))).
    + apply places; [done|by eapply apart_perm|by rewrite Hps|by apply Forall2_fmap_l].
    + intros s q. unfold among. apply bool_decide_ext. by rewrite Hps.
Qed.

(** C23. The cut buries and drops nothing: no reference of the list lies inside another;
    every reference the value already held is in the list under its own hash, at the path
    it has now; and every object written is a part of the value that holds no reference,
    of at least [minExternalizeBytes] bytes, under the hash of its content. *)
Theorem cut_safe (v out : value) (target : Z) (refs : list ObjectRef) (objs : list pendingObject) :
  wf v = true -> cutForSize hashContent v target = Ok (out, refs, objs) ->
  apart (Path <$> refs) /\
  (forall p m, get v p = Some (Mark m) -> mkRef (Ref m) (Size m) p ∈ refs) /\
  (forall o, o ∈ objs -> exists p w, get v p = Some w /\ marshal w = Some (Content o) /\
     snd (Extract w []) = [] /\ Hash o = hashContent (Content o) /\
     ObjSize o = len (Content o) /\ minExternalizeBytes <= ObjSize o).
Proof.
  intros Hw Hcut. destruct (buildTree v [] 0) as [root|] eqn:Hr;
    [|unfold cutForSize in Hcut; by rewrite Hr in Hcut].
  destruct (cut_result v root target Hw Hr) as (c & Hok & E). rewrite E in Hcut. clear E.
  assert (Hmark : forall p m, get v p = Some (Mark m) ->
    exists n, n ∈ pickedInCutOrder (collect root) c /\ ref_of hashContent n = mkRef (Ref m) (Size m) p).
  { intros p m Hg. destruct (node_at _ _ _ _ _ _ Hr Hg) as (n & Hn & Hp). cbn in Hp.
    destruct (node_get v root Hw Hr n Hn) as (Hg' & _). rewrite Hp, Hg in Hg'. injection Hg' as Hv.
    exists n. split; [|unfold ref_of; by rewrite <- Hv, Hp].
    apply elem_picked; [done|]. apply (ok_already _ _ Hok n Hn).
    apply (already_mark v root Hw Hr n Hn). by exists m. }
  case_bool_decide as Hc; injection Hcut as <- <- <-.
  { split; [split; [constructor|]; by intros p q ?%not_elem_of_nil|].
    split; [|by intros o ?%not_elem_of_nil]. intros p m Hg.
    destruct (Hmark p m Hg) as (n & [_ Hin]%picked_nodes & _). by rewrite Hc in Hin. }
  assert (Hperm : sort_by ref_less (ref_of hashContent <$> pickedInCutOrder (collect root) c)
    ≡ₚ ref_of hashContent <$> pickedInCutOrder (collect root) c) by apply merge_sort_Permutation.
  split; [|split].
  - eapply apart_perm; [by rewrite Hperm|]. rewrite <- list_fmap_compose.
    erewrite list_fmap_ext; [by apply (picked_apart v root Hw Hr c Hok)|].
    intros i n _. apply ref_of_path.
  - intros p m Hg. destruct (Hmark p m Hg) as (n & Hn & <-). rewrite Hperm.
    by apply (list_elem_of_fmap_2 (ref_of hashContent)).
  - intros o (n & Hn & Ho)%list_elem_of_omap. pose proof Hn as [Hin Hp]%picked_nodes.
    exists (n_path n), (n_value n). destruct (node_get v root Hw Hr n Hin) as (Hg & Hwn & _).
    assert (Ha : n_already n = false).
    { apply not_true_iff_false. intros Ha. apply (already_mark v root Hw Hr n Hin) in Ha as [m Ha].
      unfold obj_of in Ho. by rewrite Ha in Ho. }
    destruct (ok_new _ _ Hok n Hin Hp) as [|[Hh Hs]]; [congruence|].
    destruct (new_marshals v root Hw Hr n Hin Ha Hh) as (b & Hb & Hl).
    assert (E : o = mkPending (hashContent b) b (len b)).
    { unfold obj_of in Ho. revert Ho Hb. clear. destruct (n_value n); intros Ho Hb; try done;
        rewrite Hb in Ho; by injection Ho as <-. }
    subst o. cbn. repeat split; try done; [|lia].
    destruct (snd (Extract (n_value n) [])) as [|r rs] eqn:E; [done|].
    destruct (Extract_sound (n_value n) [] r Hwn) as (q & m & _ & Hm & _); [rewrite E; left|].
    pose proof (new_unmarked v root Hw Hr n q Hin Ha Hh) as Hu. unfold is_mark in Hu. by rewrite Hm in Hu.
Qed.

(** A value that holds no reference and already fits stays as it is. *)
Lemma small_stays v (target : Z) (b : string) : wf v = true -> snd (Extract v []) = [] ->
  marshal v = Some b -> len b <= target -> cutForSize hashContent v target = Ok (v, [], []).
Proof.
  intros Hw Hx Hb Hle.
  assert (Hnone : forall q, is_mark v q = false).
  { intros q. unfold is_mark. destruct (get v q) as [w|] eqn:Hg; [|done].
    destruct w as [| | | |m| |]; try done.
    pose proof (Extract_complete v [] q m Hg) as Hin. rewrite Hx in Hin. by apply not_elem_of_nil in Hin. }
  pose proof (build_marshal v [] 0 []) as Hm.
  rewrite (Extract_value _ _ Hw), Hnone, strip_none, Hb in Hm by (intros; apply Hnone).
  destruct (buildTree v [] 0) as [root|] eqn:Hr; [|done]. cbn in Hm. injection Hm as Hm.
  assert (Hno : forall n, n ∈ collect root -> n_already n = false).
  { intros n Hn. apply not_true_iff_false. intros Ha.
    apply (already_mark v root Hw Hr n Hn) in Ha as [m Ha].
    destruct (node_get v root Hw Hr n Hn) as (Hg & _). specialize (Hnone (n_path n)).
    unfold is_mark in Hnone. by rewrite Hg, Ha in Hnone. }
  assert (Hstart : start root (collect root) = mkState ∅ (n_size root) 0).
  { unfold start. revert Hno. generalize (mkState ∅ (n_size root) 0).
    induction (collect root) as [|n l IH]; intros st Hno; [done|]. cbn.
    rewrite (Hno n) by left. apply IH. intros d Hin. apply Hno. by right. }
  unfold rawSize in Hm. rewrite (Hno root) in Hm by (rewrite collect_cons; left).
  unfold cutForSize. rewrite Hr. cbn [of_option mbind result_bind]. rewrite Hstart. cbn [rounds].
  assert (Hsel : forall k : nat, selectNodes (collect root) target k (mkState ∅ (n_size root) 0) =
    mkState ∅ (n_size root) 0).
  { intros [|k]; cbn [selectNodes]; unfold fits; cbn; by rewrite (proj2 (Z.leb_le _ _)) by lia. }
  rewrite Hsel. cbn. by rewrite !bool_decide_true.
Qed.

End Results.

(** * Concrete cuts *)

Fixpoint rep (k : nat) (c : ascii) : string :=
  match k with O => "" | S k => String c (rep k c) end.

(** A stand-in for the hash. *)
Definition demo_hash (s : string) : string := FormatInt (len s).

Definition demo_mark : ObjectRef := mkRef "0f" 900 [].
Definition demo : value :=
  Map [("big", Str (rep 200 "b"));
       ("items", Arr [Num "1"; Mark demo_mark; Str (rep 140 "i")]);
       ("name", Str "x")].
Definition demo_cut : result cut_error cutting := cutForSize demo_hash demo 260.
Definition demo_parts : cutting := match demo_cut with Ok c => c | Err _ => (Null, [], []) end.
Definition demo_out : value := fst (fst demo_parts).
Definition demo_refs : list ObjectRef := snd (fst demo_parts).
Definition demo_objs : list pendingObject := snd demo_parts.

Lemma demo_cut_is : demo_cut = Ok (demo_out, demo_refs, demo_objs).
Proof. by vm_compute. Qed.

Lemma cut_restores_witness : length demo_refs = 3%nat /\ restores demo demo_out demo_refs.
Proof.
  split; [by vm_compute|].
  apply (cut_restores demo_hash demo demo_out 260 demo_refs demo_objs); [by vm_compute|exact demo_cut_is].
Defined.

Lemma cut_safe_witness : length demo_objs = 2%nat /\ apart (Path <$> demo_refs).
Proof.
  split; [by vm_compute|].
  apply (cut_safe demo_hash demo demo_out 260 demo_refs demo_objs); [by vm_compute|exact demo_cut_is].
Defined.

Lemma cut_total_witness : cutForSize demo_hash (Arr [Num "1x"]) 10 = Err NotMarshalled.
Proof. apply cut_total; [by vm_compute|]. split; [done|by vm_compute]. Defined.

Definition demo_root : node :=
  default (Node [] Null 0 0 false []) (buildTree demo [] 0).

Lemma sorts_unique_witness :
  pickedInCutOrder (collect demo_root) {[ [Key "big"]; [Key "name"] ]} =
  rev (sort_by (fun a b => cut_less b a) (picked (collect demo_root) {[ [Key "big"]; [Key "name"] ]})).
Proof.
  symmetry. apply (sorts_unique demo demo_root {[ [Key "big"]; [Key "name"] ]} (fun _ => 0) 0 demo_hash);
    [by vm_compute|by vm_compute| |].
  - rewrite <- Permutation_rev. apply merge_sort_Permutation.
  - vm_compute. repeat constructor.
Defined.

(** Two references of a value that a client puts back in the order it likes, one index
    decoded. *)
Definition demo_marks : value :=
  Map [("a", Mark demo_mark); ("k", Arr [Null; Mark (mkRef "1e" 5 [])])].

Lemma Place_Extract_witness :
  place_all (fst (Extract demo_marks []))
    [([Key "k"; Number "1"], Mark (mkRef "1e" 5 [])); ([Key "a"], Mark demo_mark)] = Some demo_marks.
Proof.
  apply (Place_Extract demo_marks _ (snd (Extract demo_marks [])) (rev (snd (Extract demo_marks []))));
    [by vm_compute|by vm_compute|by vm_compute|by rewrite <- Permutation_rev|].
  repeat constructor.
Defined.

(** * Where the rounds stop too early *)

(** What the row holds: the encoding and the list of objects. *)
Definition stored_bytes (c : cutting) : Z :=
  match marshal (fst (fst c)) with
  | Some b => len b + foldr (fun r s => entrySize (Path r) + s) 0 (snd (fst c))
  | None => 0
  end.

(** 39 arrays of one string each, a map of three, and one string more. *)
Definition stuck : value :=
  Arr (repeat (Arr [Str (rep 126 "s")]) 39 ++
       [Map [("cccccccc", Str (rep 140 "s")); ("d", Str (rep 100 "s")); ("e", Str (rep 20 "s"))];
        Str (rep 150 "z")]).

(** The rounds of the source, going on for as long as the selection changes. *)
Fixpoint rounds_while (fuel : nat) v (nodes : list node) (target : Z) (st : state) : option Z :=
  match fuel with
  | O => None
  | S fuel =>
      let st' := selectNodes nodes target (maxDepth nodes) st in
      stored ← storedSize v nodes (chosen st');
      if (stored <=? target) || bool_decide (chosen st' = chosen st) then Some stored
      else rounds_while fuel v nodes target (mkState (chosen st') (stored - objects st') (objects st'))
  end.

(** The second round takes the map in place of its one chosen string: as many nodes are
    chosen as before, and [len(chosen) == before] ends the rounds over target with 3300
    bytes, where a further round would reach 3222. *)
Lemma rounds_stop_early :
  match cutForSize demo_hash stuck 3298 with
  | Ok c => (stored_bytes c =? 3300) && (length (snd c) =? 40)%nat
  | Err _ => false
  end &&
  match buildTree stuck [] 0 with
  | Some root => bool_decide (rounds_while 5 stuck (collect root) 3298 (start root (collect root)) = Some 3222)
  | None => false
  end = true.
Proof. by vm_compute. Qed.

(** A slot read back and written again unchanged: the first cut leaves it within the
    target, and yet the second moves another part out, because the estimate it starts from
    counts a null and a key for the part that is out already. *)
Definition drifting : value :=
  Map [("big", Str (rep 300 "b")); ("small", Str (rep 130 "s"))].

Lemma recut_moves_more :
  match cutForSize demo_hash drifting 224 with
  | Ok (out, [r], objs) =>
      (stored_bytes (out, [r], objs) <=? 224) &&
      match Place out (Path r) (Mark r) with
      | Some again =>
          match cutForSize demo_hash again 224 with
          | Ok (_, refs, [_]) => (length refs =? 2)%nat
          | _ => false
          end
      | None => false
      end
  | _ => false
  end = true.
Proof. by vm_compute. Qed.

End Externalizing.
