(* ===== verification/Objects.v ===== *)
(** The object store of internal/db/db_objects.go over its two tables: content under its
    hash, written once, and the claims of the owners that hold it; with the statements of
    db/queries.sql it runs, one function each.

    A claim is keyed by hash, owner kind and owner id.  Whether an owner exists is asked of
    the tables of instances and of log rows, of which only the ids matter here.  A Go map
    used as a set of hashes is a [gset]; the order its keys come in changes nothing. *)
From Stdlib Require Import ZArith Lia Ascii String.
From S2P Require Import Prelude GoStrings Json ObjectCut.
Import Json ObjectCut.
Open Scope string_scope.
Open Scope list_scope.
Open Scope Z_scope.

Module Objects.

(** model/objref.go. *)
Inductive ObjectOwner := ObjectOwnerInstance | ObjectOwnerLog.

#[export] Instance ObjectOwner_eq_dec : EqDecision ObjectOwner.
Proof. solve_decision. Defined.
#[export] Instance ObjectOwner_countable : Countable ObjectOwner.
Proof.
  refine (inj_countable' (fun o => match o with ObjectOwnerInstance => true | _ => false end)
    (fun b : bool => if b then ObjectOwnerInstance else ObjectOwnerLog) _). by intros [].
Defined.

(** The row of an object; [released_at] is null while something holds it. *)
Record object := mkObject {
  content : string; osize : Z; created_at : Z; released_at : option Z }.

(** A key of object_refs. *)
Definition claim : Type := string * ObjectOwner * string.
Definition c_hash (c : claim) : string := fst (fst c).
Definition c_kind (c : claim) : ObjectOwner := snd (fst c).
Definition c_owner (c : claim) : string := snd c.

(** The tables objects and object_refs, and the ids of process_instances and process_logs. *)
Record store := mkStore {
  objects : gmap string object;
  refs : gmap claim Z;
  instances : gset string;
  logs : gset string }.

Implicit Types (s : store) (h id : string) (c : claim) (kind : ObjectOwner) (now : Z).

Definition on_objects (f : gmap string object -> gmap string object) s : store :=
  mkStore (f (objects s)) (refs s) (instances s) (logs s).
Definition on_refs (f : gmap claim Z -> gmap claim Z) s : store :=
  mkStore (objects s) (f (refs s)) (instances s) (logs s).

(** [EXISTS (SELECT 1 FROM object_refs r WHERE r.hash = h)]. *)
Definition claimed s h : bool := bool_decide (map_Exists (fun c _ => c_hash c = h) (refs s)).

(** * The statements *)

(** On a conflict the content stays and the release mark goes. *)
Definition PutObject (o : pendingObject) now s : store :=
  on_objects (fun m =>
    match m !! Hash o with
    | Some r => <[Hash o := mkObject (content r) (ObjSize o) (created_at r) None]> m
    | None => <[Hash o := mkObject (Content o) (ObjSize o) now None]> m
    end) s.

(** On a conflict nothing changes. *)
Definition PutObjectRef c now s : store :=
  on_refs (fun m => match m !! c with Some _ => m | None => <[c := now]> m end) s.

Definition DropObjectRef c s : store := on_refs (base.delete c) s.

Definition GetObject s h : option (string * Z) :=
  (fun o => (content o, osize o)) <$> objects s !! h.

Definition CountObjectRefs s h : Z :=
  Z.of_nat (size (filter (fun e => c_hash (fst e) = h) (refs s))).

Definition ClearObjectRelease s : store :=
  on_objects (map_imap (fun h o =>
    Some (match released_at o with
          | Some _ => if claimed s h then mkObject (content o) (osize o) (created_at o) None else o
          | None => o
          end))) s.

Definition MarkObjectReleased now s : store :=
  on_objects (map_imap (fun h o =>
    Some (match released_at o with
          | None => if claimed s h then o
                    else mkObject (content o) (osize o) (created_at o) (Some now)
          | Some _ => o
          end))) s.

(** What [CollectUnreferencedObjects] finds to delete. *)
Definition collectable s (before : Z) h (o : object) : bool :=
  negb (claimed s h) && match released_at o with Some r => r <? before | None => false end.
Definition CollectUnreferencedObjects (before : Z) s : Z * store :=
  let gone := filter (fun e => collectable s before (fst e) (snd e) = true) (objects s) in
  (Z.of_nat (size gone), on_objects (fun m => m ∖ gone) s).

Definition OrphanedInstanceRefs s : list (string * string) :=
  omap (fun '(c, _) =>
    if bool_decide (c_kind c = ObjectOwnerInstance) && bool_decide (c_owner c ∉ instances s)
    then Some (c_hash c, c_owner c) else None) (map_to_list (refs s)).
Definition OrphanedLogRefs s : list (string * string) :=
  omap (fun '(c, _) =>
    if bool_decide (c_kind c = ObjectOwnerLog) && bool_decide (c_owner c ∉ logs s)
    then Some (c_hash c, c_owner c) else None) (map_to_list (refs s)).

(** * The operations *)

Definition claimObjects kind id (pending : list pendingObject) (referenced : gset string) now s : store :=
  let s := foldl (fun s o => PutObject o now s) s pending in
  set_fold (fun h s => PutObjectRef (h, kind, id) now s) s referenced.

Definition applyContextObjectDiff id (pending : list pendingObject) (loaded referenced : gset string)
    now s : store :=
  let s := claimObjects ObjectOwnerInstance id pending referenced now s in
  set_fold (fun h s =>
    if bool_decide (h ∈ referenced) then s else DropObjectRef (h, ObjectOwnerInstance, id) s) s loaded.

(** The transaction that drops what a read found orphaned. *)
Definition retire kind (orphans : list (string * string)) s : store :=
  foldl (fun s '(h, id) => DropObjectRef (h, kind, id) s) s orphans.
Definition retireOrphanedLogRefs s : store := retire ObjectOwnerLog (OrphanedLogRefs s) s.
Definition retireOrphanedInstanceRefs s : store :=
  retire ObjectOwnerInstance (OrphanedInstanceRefs s) s.

(** The sweep with nothing in between, as the single writer of SQLite runs it; the steps of
    [Sweeping] interleave it. *)
Definition CollectObjects (grace : Z) now s : Z * store :=
  let s := retireOrphanedLogRefs s in
  let s := retireOrphanedInstanceRefs s in
  let s := ClearObjectRelease s in
  let s := MarkObjectReleased now s in
  CollectUnreferencedObjects (now - grace) s.

(** [loadObjectValue]: the stored content, decoded. *)
Definition loadObjectValue (decode : string -> option value) s h : option value :=
  '(b, _) ← GetObject s h; decode b.
Definition ResolveObject (decode : string -> option value) s (r : ObjectRef) : option value :=
  loadObjectValue decode s (Ref r).

End Objects.
