(* ===== verification/Sweeping.v ===== *)
(** The object store under interleaving: owners that write and go away, readers that pass a
    reference on, and sweeps whose statements are transactions of their own, with a delete
    that decides on one snapshot and takes effect later.

    [holds] is a ghost: the hashes the row of a live owner names now.  A reference may be
    written without its content if something claims it, or if it was read while it was
    claimed and unmarked, less than the grace period ago.  A sweep reads the clock once, at
    most [span] before it writes a mark. *)
From Stdlib Require Import ZArith Lia Ascii String.
From S2P Require Import Prelude GoStrings Json ObjectCut Objects.
Import Json ObjectCut Objects.
Open Scope string_scope.
Open Scope list_scope.
Open Scope Z_scope.

Module Sweeping.

Implicit Types (s : store) (h id : string) (c : claim) (kind : ObjectOwner) (now t : Z).

(** * The statements *)

Definition is_claim s c : Prop := is_Some (refs s !! c).

Lemma claimed_spec s h : claimed s h = true <-> exists c, is_claim s c /\ c_hash c = h.
Proof.
  unfold claimed, is_claim. rewrite bool_decide_eq_true. unfold map_Exists. split.
  - intros (c & t & Hc & Hh). exists c. split; [by exists t|done].
  - intros (c & [t Hc] & Hh). by exists c, t.
Qed.

Lemma claimed_mono s s' h : (forall c, is_claim s' c -> is_claim s c) ->
  claimed s' h = true -> claimed s h = true.
Proof. rewrite !claimed_spec. naive_solver. Qed.

(** Present, and where marked then not before [t]. *)
Definition fresh_since s t h : Prop :=
  exists o, objects s !! h = Some o /\ match released_at o with Some m => t <= m | None => True end.

Lemma fresh_weaken s t t' h : t' <= t -> fresh_since s t h -> fresh_since s t' h.
Proof. intros Ht (o & Ho & Hm). exists o. split; [done|]. destruct (released_at o); [lia|done]. Qed.

Lemma puts_spec (pending : list pendingObject) now s h :
  let s' := foldl (fun s o => PutObject o now s) s pending in
  (refs s' = refs s /\ instances s' = instances s /\ logs s' = logs s) /\
  (h ∈ Hash <$> pending -> exists o, objects s' !! h = Some o /\ released_at o = None) /\
  (h ∉ Hash <$> pending -> objects s' !! h = objects s !! h).
Proof.
  revert s. induction pending as [|o pending IH]; intros s; cbn.
  - split; [done|]. split; [by intros ?%not_elem_of_nil|done].
  - destruct (IH (PutObject o now s)) as ((-> & -> & ->) & H1 & H2). split; [done|].
    split; [intros [->|Hin]%elem_of_cons|intros [Hne Hin]%not_elem_of_cons].
    + destruct (decide (Hash o ∈ Hash <$> pending)) as [Hd|Hd]; [by apply H1|].
      rewrite H2 by done. unfold PutObject. cbn. destruct (objects s !! Hash o);
        rewrite lookup_insert_eq; eauto.
    + by apply H1.
    + rewrite H2 by done. unfold PutObject. cbn. destruct (objects s !! Hash o);
        by rewrite lookup_insert_ne by done.
Qed.

Lemma puts_content (P : string -> string -> Prop) (pending : list pendingObject) now s :
  (forall h o, objects s !! h = Some o -> P h (content o)) ->
  (forall o, o ∈ pending -> P (Hash o) (Content o)) ->
  forall h o, objects (foldl (fun s o => PutObject o now s) s pending) !! h = Some o -> P h (content o).
Proof.
  revert s. induction pending as [|p pending IH]; intros s Hs Hp; cbn; [done|].
  apply IH; [|intros o Ho; apply Hp; by right]. intros h o. unfold PutObject. cbn.
  destruct (objects s !! Hash p) as [r|] eqn:E; intros [[<- <-]|[_ Ho]]%lookup_insert_Some; cbn; eauto.
  apply Hp. left.
Qed.

Lemma claims_spec kind id (pending : list pendingObject) (referenced : gset string) now s :
  let s' := claimObjects kind id pending referenced now s in
  objects s' = objects (foldl (fun s o => PutObject o now s) s pending) /\
  (forall c, is_claim s' c <-> is_claim s c \/ exists h, h ∈ referenced /\ c = (h, kind, id)) /\
  instances s' = instances s /\ logs s' = logs s.
Proof.
  unfold claimObjects. destruct (puts_spec pending now s "") as ((Hr & Hi & Hl) & _).
  set (s1 := foldl _ s pending) in *. cbn.
  apply (set_fold_ind_L (fun s' (X : gset string) => objects s' = objects s1 /\
    (forall c, is_claim s' c <-> is_claim s c \/ exists h, h ∈ X /\ c = (h, kind, id)) /\
    instances s' = instances s /\ logs s' = logs s)).
  - split; [done|]. split; [|done]. intros c. unfold is_claim. rewrite Hr. set_solver.
  - intros h X s' Hh (Ho & Hc & Hi' & Hl'). unfold PutObjectRef, on_refs, is_claim in *. cbn.
    split; [done|]. split; [|done]. intros c. destruct (refs s' !! ((h, kind, id) : claim)) as [v|] eqn:E.
    + rewrite Hc. split; [set_solver|]. intros [?|(h' & [->%elem_of_singleton|?]%elem_of_union & ->)];
        [by left| |by right; eauto]. apply Hc. rewrite E. by eexists.
    + rewrite lookup_insert_is_Some, Hc. split.
      * intros [<-|[_ [?|(h' & ? & ->)]]]; [right; set_solver|by left|right; set_solver].
      * intros [?|(h' & [->%elem_of_singleton|?]%elem_of_union & ->)]; [|by left|].
        -- destruct (decide ((h, kind, id) = c)); auto.
        -- destruct (decide ((h, kind, id) = (h', kind, id))); [by left|right; split; [done|right; eauto]].
Qed.

Lemma diff_spec id (pending : list pendingObject) (loaded referenced : gset string) now s :
  let s1 := claimObjects ObjectOwnerInstance id pending referenced now s in
  let s' := applyContextObjectDiff id pending loaded referenced now s in
  objects s' = objects s1 /\
  (forall c, is_claim s' c <-> is_claim s1 c /\
     forall h, h ∈ loaded -> h ∉ referenced -> c <> (h, ObjectOwnerInstance, id)) /\
  instances s' = instances s1 /\ logs s' = logs s1.
Proof.
  cbn. unfold applyContextObjectDiff. set (s1 := claimObjects _ _ _ _ _ _).
  apply (set_fold_ind_L (fun s' (X : gset string) => objects s' = objects s1 /\
    (forall c, is_claim s' c <-> is_claim s1 c /\
       forall h, h ∈ X -> h ∉ referenced -> c <> (h, ObjectOwnerInstance, id)) /\
    instances s' = instances s1 /\ logs s' = logs s1)).
  - split; [done|]. split; [|done]. set_solver.
  - intros h X s' Hh (Ho & Hc & Hi' & Hl'). case_bool_decide as Hr.
    + split; [done|]. split; [|done]. intros c. rewrite Hc. set_solver.
    + unfold DropObjectRef, on_refs, is_claim in *. cbn. split; [done|]. split; [|done].
      intros c. rewrite lookup_delete_is_Some, Hc. split.
      * intros (Hne & H1 & H2). split; [done|]. intros h' [->%elem_of_singleton|?]%elem_of_union ?;
          [congruence|by apply H2].
      * intros (H1 & H2). split; [|split; [done|set_solver]]. intros <-. apply (H2 h); [set_solver|done|done].
Qed.

Lemma retire_spec kind (orphans : list (string * string)) s :
  objects (retire kind orphans s) = objects s /\
  (forall c, is_claim (retire kind orphans s) c <->
     is_claim s c /\ forall h id, (h, id) ∈ orphans -> c <> (h, kind, id)) /\
  instances (retire kind orphans s) = instances s /\ logs (retire kind orphans s) = logs s.
Proof.
  unfold retire. revert s. induction orphans as [|[h id] orphans IH]; intros s; cbn [foldl].
  - split; [done|]. split; [|done]. set_solver.
  - destruct (IH (DropObjectRef (h, kind, id) s)) as (-> & Hc & -> & ->).
    split; [done|]. split; [|done]. intros c. rewrite Hc. unfold is_claim, DropObjectRef. cbn.
    rewrite lookup_delete_is_Some. split.
    + intros ((Hne & ?) & H2). split; [done|]. intros h' id' [[= -> ->]|?]%elem_of_cons; [congruence|eauto].
    + intros (? & H2). split; [split; [|done]|].
      * intros <-. apply (H2 h id); [left|done].
      * intros h' id' Hin. apply H2. by right.
Qed.

Lemma clear_spec s h : objects (ClearObjectRelease s) !! h =
  (fun o => match released_at o with
            | Some _ => if claimed s h then mkObject (content o) (osize o) (created_at o) None else o
            | None => o
            end) <$> objects s !! h.
Proof. unfold ClearObjectRelease. cbn. rewrite map_lookup_imap. by destruct (objects s !! h). Qed.

Lemma mark_spec s now h : objects (MarkObjectReleased now s) !! h =
  (fun o => match released_at o with
            | None => if claimed s h then o
                      else mkObject (content o) (osize o) (created_at o) (Some now)
            | Some _ => o
            end) <$> objects s !! h.
Proof. unfold MarkObjectReleased. cbn. rewrite map_lookup_imap. by destruct (objects s !! h). Qed.

(** * The delete, in two halves *)

(** What the snapshot of [CollectUnreferencedObjects] finds. *)
Definition decided s (before : Z) : gset string :=
  dom (filter (fun e => collectable s before (fst e) (snd e) = true) (objects s)).

(** The rows found, less the ones a write has since unmarked: the condition on the row is
    checked again when its lock is taken, the condition on the claims is not. *)
Definition still_marked (before : Z) (o : object) : bool :=
  match released_at o with Some r => r <? before | None => false end.
Definition delete_decided (hs : gset string) (before : Z) s : store :=
  on_objects (filter (fun e =>
    bool_decide (fst e ∈ hs) && still_marked before (snd e) = false)) s.

Lemma delete_lookup hs before s h o : objects (delete_decided hs before s) !! h = Some o <->
  objects s !! h = Some o /\ (h ∈ hs -> still_marked before o = false).
Proof.
  unfold delete_decided. cbn. rewrite map_lookup_filter_Some. cbn.
  rewrite andb_false_iff, bool_decide_eq_false. destruct (decide (h ∈ hs)); naive_solver.
Qed.

Lemma elem_decided s before h : h ∈ decided s before <->
  exists o, objects s !! h = Some o /\ collectable s before h o = true.
Proof.
  unfold decided. rewrite elem_of_dom. unfold is_Some. setoid_rewrite map_lookup_filter_Some. done.
Qed.

(** With nothing in between the halves are the statement. *)
Lemma collect_halves s before :
  snd (CollectUnreferencedObjects before s) = delete_decided (decided s before) before s.
Proof.
  unfold CollectUnreferencedObjects, delete_decided, on_objects. cbn. f_equal.
  apply map_eq. intros h. apply option_eq. intros o.
  rewrite lookup_difference_Some, map_lookup_filter_Some, map_lookup_filter_None. cbn.
  split.
  - intros [Ho Hn]. split; [done|]. apply andb_false_iff.
    destruct (bool_decide (h ∈ decided s before)) eqn:Hd; [right|by left].
    apply bool_decide_eq_true, elem_decided in Hd as (o' & Ho' & Hc). rewrite Ho in Ho'. injection Ho' as <-.
    destruct Hn as [Hn|Hn]; [congruence|]. by destruct (Hn o).
  - intros [Ho Hn]. split; [done|]. right. intros o' Ho' Hc. rewrite Ho in Ho'. injection Ho' as <-.
    rewrite bool_decide_true in Hn by (apply elem_decided; eauto).
    unfold collectable in Hc. apply andb_prop in Hc as [_ Hc]. unfold still_marked in Hn. cbn in Hn. congruence.
Qed.

(** * The system *)

Definition owner : Type := ObjectOwner * string.

Record sys := mkSys {
  st : store;
  clock : Z;
  used : gset owner;
  holds : gmap owner (gset string);
  reads : list (string * Z);
  found : list (ObjectOwner * list (string * string));
  doomed : list (gset string * Z) }.

Implicit Types (a b : sys).

Section Steps.
Context (hashContent : string -> string) (grace span : Z).

(** A reference that is written has content to go with it, or is claimed, or was read
    within the grace period. *)
Definition in_hand a (pending : list pendingObject) h : Prop :=
  h ∈ Hash <$> pending \/ claimed (st a) h = true \/
  exists t, (h, t) ∈ reads a /\ clock a <= t + grace - span.

Definition hashed (pending : list pendingObject) : Prop :=
  forall o, o ∈ pending -> Hash o = hashContent (Content o).

Definition live_in s (o : owner) : Prop :=
  match fst o with
  | ObjectOwnerInstance => snd o ∈ instances s
  | ObjectOwnerLog => snd o ∈ logs s
  end.

#[export] Instance live_in_dec s (o : owner) : Decision (live_in s o).
Proof. unfold live_in. destruct (fst o); apply _. Defined.

Definition add_instance id s : store := mkStore (objects s) (refs s) ({[id]} ∪ instances s) (logs s).
Definition add_log id s : store := mkStore (objects s) (refs s) (instances s) ({[id]} ∪ logs s).
Definition prune (ids lids : gset string) s : store :=
  mkStore (objects s) (refs s) (instances s ∖ ids) (logs s ∖ lids).

Definition with_st (f : store -> store) a : sys :=
  mkSys (f (st a)) (clock a) (used a) (holds a) (reads a) (found a) (doomed a).
Definition written (o : owner) (referenced : gset string) (s : store) a : sys :=
  mkSys s (clock a) ({[o]} ∪ used a) (<[o := referenced]> (holds a)) (reads a) (found a) (doomed a).

Inductive step a : sys -> Prop :=
  (** An instance row is inserted or written under its lease, in one transaction with its
      objects; ids are never minted twice. *)
  | s_instance id (pending : list pendingObject) (loaded referenced : gset string) :
      live_in (st a) (ObjectOwnerInstance, id) \/ (ObjectOwnerInstance, id) ∉ used a ->
      (forall h, h ∈ referenced -> in_hand a pending h) -> hashed pending ->
      step a (written (ObjectOwnerInstance, id) referenced
        (add_instance id (applyContextObjectDiff id pending loaded referenced (clock a) (st a))) a)
  (** A log row is inserted with its objects. *)
  | s_log id (pending : list pendingObject) (referenced : gset string) :
      (ObjectOwnerLog, id) ∉ used a ->
      (forall h, h ∈ referenced -> in_hand a pending h) -> hashed pending ->
      step a (written (ObjectOwnerLog, id) referenced
        (add_log id (claimObjects ObjectOwnerLog id pending referenced (clock a) (st a))) a)
  (** Retention deletes rows. *)
  | s_prune (ids lids : gset string) :
      step a (mkSys (prune ids lids (st a)) (clock a) (used a)
        (filter (fun e => live_in (prune ids lids (st a)) (fst e)) (holds a))
        (reads a) (found a) (doomed a))
  (** Someone is handed a reference that is claimed and not marked. *)
  | s_read h o : objects (st a) !! h = Some o -> released_at o = None -> claimed (st a) h = true ->
      step a (mkSys (st a) (clock a) (used a) (holds a) ((h, clock a) :: reads a) (found a) (doomed a))
  (** The statements of a sweep. *)
  | s_find_logs : step a (mkSys (st a) (clock a) (used a) (holds a) (reads a)
      ((ObjectOwnerLog, OrphanedLogRefs (st a)) :: found a) (doomed a))
  | s_find_instances : step a (mkSys (st a) (clock a) (used a) (holds a) (reads a)
      ((ObjectOwnerInstance, OrphanedInstanceRefs (st a)) :: found a) (doomed a))
  | s_retire kind orphans : (kind, orphans) ∈ found a -> step a (with_st (retire kind orphans) a)
  | s_clear : step a (with_st ClearObjectRelease a)
  | s_mark now : clock a - span <= now <= clock a -> step a (with_st (MarkObjectReleased now) a)
  | s_decide now : now <= clock a ->
      step a (mkSys (st a) (clock a) (used a) (holds a) (reads a) (found a)
        ((decided (st a) (now - grace), now - grace) :: doomed a))
  | s_delete hs before : (hs, before) ∈ doomed a -> step a (with_st (delete_decided hs before) a)
  | s_tick now : clock a <= now ->
      step a (mkSys (st a) now (used a) (holds a) (reads a) (found a) (doomed a)).

Definition start : sys := mkSys (mkStore ∅ ∅ ∅ ∅) 0 ∅ ∅ [] [] [].

Inductive reachable : sys -> Prop :=
  | r_start : reachable start
  | r_step a b : reachable a -> step a b -> reachable b.

(** * The invariant *)

Record sweep_ok a : Prop := {
  ok_claims : forall c, is_claim (st a) c -> is_Some (objects (st a) !! c_hash c);
  ok_used : forall c, is_claim (st a) c -> (c_kind c, c_owner c) ∈ used a;
  ok_live : forall o, live_in (st a) o -> o ∈ used a;
  ok_holds : forall o hs, holds a !! o = Some hs -> live_in (st a) o /\
    forall h, h ∈ hs -> is_claim (st a) (h, fst o, snd o);
  ok_reads : forall h t, (h, t) ∈ reads a -> t <= clock a /\
    (clock a <= t + grace - span -> fresh_since (st a) (t - span) h);
  ok_found : forall kind orphans, (kind, orphans) ∈ found a -> forall h id, (h, id) ∈ orphans ->
    (kind, id) ∈ used a /\ ~ live_in (st a) (kind, id);
  ok_doomed : forall hs before, (hs, before) ∈ doomed a -> before <= clock a - grace /\
    forall h, h ∈ hs -> claimed (st a) h = true -> fresh_since (st a) before h;
  ok_content : forall h o, objects (st a) !! h = Some o -> h = hashContent (content o) }.

(** * The steps keep it *)

(** What a step may do to the store as far as the rest is concerned. *)
Lemma hashed_content (pending : list pendingObject) now s :
  (forall h o, objects s !! h = Some o -> h = hashContent (content o)) -> hashed pending ->
  forall h o, objects (foldl (fun s o => PutObject o now s) s pending) !! h = Some o ->
    h = hashContent (content o).
Proof. intros Hs Hp. by apply (puts_content (fun h x => h = hashContent x)). Qed.

(** A transaction that writes objects and claims for one owner. *)
Record owner_write a (o : owner) (pending : list pendingObject) (referenced : gset string) s' : Prop := {
  w_objects : forall h, objects s' !! h =
    objects (foldl (fun s o => PutObject o (clock a) s) (st a) pending) !! h;
  w_claims : forall c, is_claim s' c -> is_claim (st a) c \/ exists h, h ∈ referenced /\ c = (h, fst o, snd o);
  w_kept : forall c, is_claim (st a) c -> (c_kind c, c_owner c) <> o -> is_claim s' c;
  w_new : forall h, h ∈ referenced -> is_claim s' (h, fst o, snd o);
  w_live : forall o', live_in s' o' <-> o' = o \/ live_in (st a) o' }.

Lemma puts_fresh a (pending : list pendingObject) s' t h :
  (forall h, objects s' !! h =
     objects (foldl (fun s o => PutObject o (clock a) s) (st a) pending) !! h) ->
  h ∈ Hash <$> pending \/ fresh_since (st a) t h -> fresh_since s' t h.
Proof.
  intros Ho Hh. destruct (puts_spec pending (clock a) (st a) h) as (_ & Hin & Hout).
  unfold fresh_since. rewrite Ho. destruct (decide (h ∈ Hash <$> pending)) as [Hp|Hp].
  - destruct (Hin Hp) as (o & -> & Hr). exists o. by rewrite Hr.
  - rewrite (Hout Hp). by destruct Hh.
Qed.

Lemma in_hand_present a pending h : 0 <= span -> sweep_ok a -> in_hand a pending h ->
  h ∈ Hash <$> pending \/ is_Some (objects (st a) !! h).
Proof.
  intros Hs Hok [?|[(c & Hc & <-)%claimed_spec|(t & Hr & Ht)]]; [by left|right..].
  - by apply (ok_claims a Hok).
  - destruct (ok_reads a Hok h t Hr) as [_ Hf]. destruct (Hf Ht) as (o & Ho & _). by eexists.
Qed.

Lemma owner_write_ok a o pending referenced s' : 0 <= span -> sweep_ok a ->
  owner_write a o pending referenced s' -> live_in (st a) o \/ o ∉ used a ->
  (forall h, h ∈ referenced -> in_hand a pending h) -> hashed pending ->
  sweep_ok (written o referenced s' a).
Proof.
  intros Hspan Hok [Ho Hcl Hkept Hnew Hlive] Hol Hhand Hh.
  assert (Hpres : forall h, h ∈ Hash <$> pending \/ is_Some (objects (st a) !! h) ->
    is_Some (objects s' !! h)).
  { intros h Hp. rewrite Ho. destruct (puts_spec pending (clock a) (st a) h) as (_ & Hin & Hout).
    destruct (decide (h ∈ Hash <$> pending)) as [Hd|Hd].
    - destruct (Hin Hd) as (x & -> & _). by eexists.
    - rewrite (Hout Hd). by destruct Hp. }
  split; cbn.
  - intros c [Hc|(h & Hr & ->)]%Hcl; apply Hpres; [right; by apply (ok_claims a Hok)|].
    cbn. by apply in_hand_present; [..|apply Hhand].
  - intros c [Hc|(h & Hr & ->)]%Hcl; [|destruct o; set_solver].
    apply elem_of_union_r, (ok_used a Hok c Hc).
  - intros o' [->|Hl]%Hlive; [set_solver|]. apply elem_of_union_r, (ok_live a Hok o' Hl).
  - intros o' hs [[<- <-]|[Hne Hhs]]%lookup_insert_Some.
    + split; [apply Hlive; by left|exact Hnew].
    + destruct (ok_holds a Hok o' hs Hhs) as [Hl Hc]. split; [apply Hlive; by right|].
      intros h Hin. apply Hkept; [by apply Hc|]. cbn. by destruct o', o.
  - intros h t Hr. destruct (ok_reads a Hok h t Hr) as [Ht Hf]. split; [done|].
    intros Hc. apply (puts_fresh a pending); [done|]. right. by apply Hf.
  - intros kind orphans Hf h id Hin. destruct (ok_found a Hok _ _ Hf _ _ Hin) as [Hu Hnl].
    split; [by apply elem_of_union_r|]. intros [E|Hl]%Hlive; [|done]. subst o. by destruct Hol.
  - intros hs before Hd. destruct (ok_doomed a Hok _ _ Hd) as [Hb Hdf]. split; [done|].
    intros h Hin (c & Hc & <-)%claimed_spec. apply (puts_fresh a pending); [done|].
    assert (Hhc : c_hash c ∈ Hash <$> pending \/ claimed (st a) (c_hash c) = true \/
      exists t, (c_hash c, t) ∈ reads a /\ clock a <= t + grace - span).
    { apply Hcl in Hc as [Hc|(h & Hr & ->)]; [|by apply (Hhand h)].
      right. left. apply claimed_spec. by exists c. }
    destruct Hhc as [?|[Hc'|(t & Hr & Ht)]]; [by left|right; by apply Hdf|right].
    destruct (ok_reads a Hok _ _ Hr) as [_ Hf]. eapply fresh_weaken; [|by apply Hf]. lia.
  - intros h x Hx. rewrite Ho in Hx. by apply (hashed_content _ _ _ (ok_content a Hok) Hh _ _ Hx).
Qed.

Lemma instance_write a id pending loaded referenced :
  owner_write a (ObjectOwnerInstance, id) pending referenced
    (add_instance id (applyContextObjectDiff id pending loaded referenced (clock a) (st a))).
Proof.
  destruct (diff_spec id pending loaded referenced (clock a) (st a)) as (Ho & Hc & Hi & Hl).
  destruct (claims_spec ObjectOwnerInstance id pending referenced (clock a) (st a)) as (Ho' & Hc' & Hi' & Hl').
  split; unfold add_instance, is_claim; cbn.
  - intros h. by rewrite Ho, Ho'.
  - intros c Hx. by apply Hc, proj1, Hc' in Hx.
  - intros c Hx Hne. apply Hc. split; [apply Hc'; by left|]. intros h _ _ ->. by apply Hne.
  - intros h Hh. apply Hc. split; [apply Hc'; right; eauto|]. intros h' _ Hn [= ->]. done.
  - intros [k o']. unfold live_in. cbn. rewrite Hi, Hl, Hi', Hl'. destruct k; cbn; set_solver.
Qed.

Lemma log_write a id pending referenced :
  owner_write a (ObjectOwnerLog, id) pending referenced
    (add_log id (claimObjects ObjectOwnerLog id pending referenced (clock a) (st a))).
Proof.
  destruct (claims_spec ObjectOwnerLog id pending referenced (clock a) (st a)) as (Ho' & Hc' & Hi' & Hl').
  split; unfold add_log, is_claim; cbn.
  - intros h. by rewrite Ho'.
  - intros c Hx. by apply Hc' in Hx.
  - intros c Hx Hne. apply Hc'. by left.
  - intros h Hh. apply Hc'. right; eauto.
  - intros [k o']. unfold live_in. cbn. rewrite Hi', Hl'. destruct k; cbn; set_solver.
Qed.

(** A step that only drops claims no live owner holds. *)
Lemma drop_ok a s' : sweep_ok a -> objects s' = objects (st a) ->
  (forall c, is_claim s' c -> is_claim (st a) c) ->
  (forall c, is_claim (st a) c -> live_in (st a) (c_kind c, c_owner c) -> is_claim s' c) ->
  (forall o, live_in s' o <-> live_in (st a) o) -> sweep_ok (with_st (fun _ => s') a).
Proof.
  intros [H1 H2 H3 H4 H5 H6 H7 H8] Ho Hc Hk Hl. split; cbn.
  - intros c Hx%Hc. rewrite Ho. by apply H1.
  - auto.
  - intros o. rewrite Hl. apply H3.
  - intros o hs Hh. rewrite Hl. destruct (H4 o hs Hh) as [Hlive Hin]. split; [done|].
    intros h Hx. apply Hk; [by apply Hin|]. by destruct o.
  - intros h t Hr. unfold fresh_since. rewrite Ho. by apply H5.
  - intros kind orphans Hf h id Hin. rewrite Hl. by eapply H6.
  - intros hs before Hd. destruct (H7 _ _ Hd) as [Hb Hf]. split; [done|]. intros h Hin Hcl.
    unfold fresh_since. rewrite Ho. apply Hf; [done|]. by eapply claimed_mono.
  - by rewrite Ho.
Qed.

(** A step that only changes objects: what it keeps, and as what. *)
Lemma objects_ok a s' : sweep_ok a -> refs s' = refs (st a) ->
  instances s' = instances (st a) -> logs s' = logs (st a) ->
  (forall h, claimed (st a) h = true -> is_Some (objects (st a) !! h) -> is_Some (objects s' !! h)) ->
  (forall h t, clock a <= t + grace - span -> t <= clock a ->
     fresh_since (st a) (t - span) h -> fresh_since s' (t - span) h) ->
  (forall h t, claimed (st a) h = true -> fresh_since (st a) t h -> fresh_since s' t h) ->
  (forall h o, objects s' !! h = Some o -> exists o', objects (st a) !! h = Some o' /\ content o = content o') ->
  sweep_ok (with_st (fun _ => s') a).
Proof.
  intros [H1 H2 H3 H4 H5 H6 H7 H8] Hr Hi Hl Hkeep Hread Hfresh Hcont.
  assert (Hclaim : forall c, is_claim s' c <-> is_claim (st a) c) by (intros c; unfold is_claim; by rewrite Hr).
  assert (Hlive : forall o, live_in s' o <-> live_in (st a) o)
    by (intros o; unfold live_in; by rewrite Hi, Hl).
  assert (Hcl : forall h, claimed s' h = claimed (st a) h) by (intros h; unfold claimed; by rewrite Hr).
  split; cbn.
  - intros c Hc%Hclaim. apply Hkeep; [apply claimed_spec; eauto|by apply H1].
  - intros c Hc%Hclaim. by apply H2.
  - intros o. rewrite Hlive. apply H3.
  - intros o hs Hh. rewrite Hlive. setoid_rewrite Hclaim. by apply H4.
  - intros h t Hh. destruct (H5 h t Hh) as [Ht Hf]. split; [done|]. intros Hc. by apply Hread; auto.
  - intros kind orphans Hf h id Hin. rewrite Hlive. by eapply H6.
  - intros hs before Hd. destruct (H7 _ _ Hd) as [Hb Hf]. split; [done|]. intros h Hin. rewrite Hcl.
    intros Hx. apply Hfresh; [done|by apply Hf].
  - intros h o Ho. destruct (Hcont h o Ho) as (o' & Ho' & ->). by apply H8.
Qed.

Lemma orphans_dead kind s orphans :
  (kind = ObjectOwnerLog /\ orphans = OrphanedLogRefs s \/
   kind = ObjectOwnerInstance /\ orphans = OrphanedInstanceRefs s) ->
  forall h id, (h, id) ∈ orphans -> is_claim s (h, kind, id) /\ ~ live_in s (kind, id).
Proof.
  intros [[-> ->]|[-> ->]] h id; unfold OrphanedLogRefs, OrphanedInstanceRefs;
    intros ([[[h' k] id'] t] & Hin & Ho)%list_elem_of_omap; apply elem_of_map_to_list in Hin;
    unfold c_kind, c_owner, c_hash in Ho; cbn in Ho;
    repeat case_bool_decide; try done; cbn in Ho; injection Ho as <- <-; subst k;
    (split; [by eexists|done]).
Qed.

Lemma delete_objects_ok a hs before : sweep_ok a -> (hs, before) ∈ doomed a ->
  sweep_ok (with_st (delete_decided hs before) a).
Proof.
  intros Hok Hd. destruct (ok_doomed a Hok _ _ Hd) as [Hb Hf].
  assert (Hfresh : forall h t, fresh_since (st a) t h ->
    (h ∈ hs -> before <= t \/ fresh_since (st a) before h) ->
    fresh_since (delete_decided hs before (st a)) t h).
  { intros h t (o & Ho & Hm) Hx. exists o. split; [|done]. apply delete_lookup. split; [done|].
    intros Hin. unfold still_marked. destruct (released_at o) as [m|] eqn:Er; [|done]. apply Z.ltb_ge.
    destruct (Hx Hin) as [?|(o' & Ho' & Hm')]; [lia|]. rewrite Ho in Ho'. injection Ho' as <-.
    by rewrite Er in Hm'. }
  apply (objects_ok a (delete_decided hs before (st a))); try done.
  - intros h Hc [o Ho]. exists o. apply delete_lookup. split; [done|]. intros Hin.
    destruct (Hf h Hin Hc) as (o' & Ho' & Hm). rewrite Ho in Ho'. injection Ho' as <-.
    unfold still_marked. destruct (released_at o); [apply Z.ltb_ge; lia|done].
  - intros h t Hc Ht Hfr. apply Hfresh; [done|]. intros _. left. lia.
  - intros h t Hc Hfr. apply Hfresh; [done|]. intros Hin. right. by apply Hf.
  - intros h o [Ho _]%delete_lookup. eauto.
Qed.

Lemma clear_objects_ok a : sweep_ok a -> sweep_ok (with_st ClearObjectRelease a).
Proof.
  intros Hok.
  assert (Hfresh : forall h t, fresh_since (st a) t h -> fresh_since (ClearObjectRelease (st a)) t h).
  { intros h t (o & Ho & Hm). unfold fresh_since. rewrite clear_spec, Ho. cbn. eexists. split; [done|].
    destruct (released_at o) eqn:E; [|by rewrite E]. destruct (claimed (st a) h); [done|by rewrite E]. }
  apply (objects_ok a (ClearObjectRelease (st a))); try done; auto.
  - intros h _ [o Ho]. rewrite clear_spec, Ho. by eexists.
  - intros h o. rewrite clear_spec. destruct (objects (st a) !! h) as [o'|]; [|done]. cbn.
    intros [= <-]. exists o'. split; [done|]. destruct (released_at o'); [|done]. by destruct (claimed _ _).
Qed.

Lemma mark_objects_ok a now : sweep_ok a -> clock a - span <= now <= clock a ->
  sweep_ok (with_st (MarkObjectReleased now) a).
Proof.
  intros Hok Hn. apply (objects_ok a (MarkObjectReleased now (st a))); try done.
  - intros h _ [o Ho]. rewrite mark_spec, Ho. by eexists.
  - intros h t Hc Ht (o & Ho & Hm). unfold fresh_since. rewrite mark_spec, Ho. cbn. eexists.
    split; [done|]. destruct (released_at o) eqn:E; [by rewrite E|].
    destruct (claimed (st a) h); [by rewrite E|]. cbn. lia.
  - intros h t Hc (o & Ho & Hm). unfold fresh_since. rewrite mark_spec, Ho. cbn. eexists.
    split; [done|]. destruct (released_at o) eqn:E; [by rewrite E|]. by rewrite Hc, E.
  - intros h o. rewrite mark_spec. destruct (objects (st a) !! h) as [o'|]; [|done]. cbn.
    intros [= <-]. exists o'. split; [done|]. destruct (released_at o'); [done|]. by destruct (claimed _ _).
Qed.

Lemma sweep_step_ok a b : 0 <= span -> sweep_ok a -> step a b -> sweep_ok b.
Proof.
  intros Hspan Hok Hst. destruct Hst as [id pending loaded referenced Hl Hh Hp|id pending referenced Hl Hh Hp
    |ids lids|h o Ho Hr Hc| | |kind orphans Hf| |now Hn|now Hn|hs before Hd|now Hn].
  - by eapply owner_write_ok; [..|apply instance_write|destruct Hl; [by left|by right]|exact Hh|].
  - by eapply owner_write_ok; [..|apply log_write|right|exact Hh|].
  - assert (Hpr : forall o, live_in (prune ids lids (st a)) o -> live_in (st a) o).
    { intros [[] o]; unfold live_in; cbn; set_solver. }
    destruct Hok as [H1 H2 H3 H4 H5 H6 H7 H8]. split; cbn; try done.
    + intros o Hx. apply H3, Hpr, Hx.
    + intros o hs [Hh Hx]%map_lookup_filter_Some. split; [done|]. by apply (H4 o hs).
    + intros kind orphans Hf h id Hin. destruct (H6 _ _ Hf _ _ Hin) as [? Hn]. split; [done|].
      intros Hx. apply Hn, Hpr, Hx.
  - destruct Hok as [H1 H2 H3 H4 H5 H6 H7 H8]. split; cbn; try done.
    intros h' t [[= -> ->]|Hin]%elem_of_cons; [|by apply H5]. split; [lia|]. intros _.
    exists o. by rewrite Hr.
  - destruct Hok as [H1 H2 H3 H4 H5 H6 H7 H8]. split; cbn; try done.
    intros kind orphans [[= -> ->]|Hin]%elem_of_cons; [|by apply H6]. intros h id Hi.
    destruct (orphans_dead ObjectOwnerLog (st a) (OrphanedLogRefs (st a)) ltac:(auto) h id Hi) as [Hc Hn].
    split; [|done]. apply (H2 _ Hc).
  - destruct Hok as [H1 H2 H3 H4 H5 H6 H7 H8]. split; cbn; try done.
    intros kind orphans [[= -> ->]|Hin]%elem_of_cons; [|by apply H6]. intros h id Hi.
    destruct (orphans_dead ObjectOwnerInstance (st a) (OrphanedInstanceRefs (st a)) ltac:(auto) h id Hi) as [Hc Hn].
    split; [|done]. apply (H2 _ Hc).
  - destruct (retire_spec kind orphans (st a)) as (Ho & Hc & Hi & Hl).
    apply (drop_ok a (retire kind orphans (st a))); [done|done| | |].
    + intros c Hx. by apply Hc in Hx as [? _].
    + intros c Hx Hlive. apply Hc. split; [done|]. intros h id Hin ->.
      by destruct (ok_found a Hok _ _ Hf _ _ Hin).
    + intros o. unfold live_in. by rewrite Hi, Hl.
  - by apply clear_objects_ok.
  - by apply mark_objects_ok.
  - destruct Hok as [H1 H2 H3 H4 H5 H6 H7 H8]. split; cbn; try done.
    intros hs before [[= -> ->]|Hin]%elem_of_cons; [|by apply H7]. split; [lia|].
    intros h (o & Ho & Hc)%elem_decided Hcl. unfold collectable in Hc. by rewrite Hcl in Hc.
  - by apply delete_objects_ok.
  - destruct Hok as [H1 H2 H3 H4 H5 H6 H7 H8]. split; cbn; try done.
    + intros h t Hr. destruct (H5 h t Hr) as [Ht Hf]. split; [lia|]. intros Hx. apply Hf. lia.
    + intros hs before Hd. destruct (H7 _ _ Hd) as [Hb Hf]. split; [lia|done].
Qed.

Lemma sweep_start_ok : sweep_ok start.
Proof.
  split; cbn; try done; try (by intros ? ? ?%not_elem_of_nil).
  - by intros c [? ?].
  - by intros c [? ?].
  - intros [[] o]; unfold live_in; cbn; set_solver.
Qed.

Lemma sweep_reachable_ok a : 0 <= span -> reachable a -> sweep_ok a.
Proof. intros Hs. induction 1; [apply sweep_start_ok|by eapply sweep_step_ok]. Qed.

(** C24. No row dangles: in every state reachable by writes, deletions, readers and sweeps,
    in any interleaving and with a delete that acts on an old snapshot, every hash the row
    of a live instance or log names has its content in the store - the content written
    under that hash. *)
Theorem no_dangling (a : sys) (o : owner) (hs : gset string) (h : string) :
  0 <= span -> reachable a -> holds a !! o = Some hs -> h ∈ hs ->
  exists body size, GetObject (st a) h = Some (body, size) /\ h = hashContent body.
Proof.
  intros Hs Hr Ho Hh. pose proof (sweep_reachable_ok a Hs Hr) as Hok.
  destruct (ok_holds a Hok o hs Ho) as [_ Hc].
  destruct (ok_claims a Hok _ (Hc h Hh)) as [x Hx]. cbn in Hx.
  exists (content x), (osize x). unfold GetObject. rewrite Hx. split; [done|].
  by apply (ok_content a Hok).
Qed.

(** The grace period: a reference read while it was claimed and carried no release mark
    resolves for the grace period less the length of a sweep, whatever happens to its
    owners. *)
Theorem grace_holds (a : sys) (h : string) (t : Z) :
  0 <= span -> reachable a -> (h, t) ∈ reads a -> clock a <= t + grace - span ->
  exists body size, GetObject (st a) h = Some (body, size) /\ h = hashContent body.
Proof.
  intros Hs Hr Hin Ht. pose proof (sweep_reachable_ok a Hs Hr) as Hok.
  destruct (ok_reads a Hok h t Hin) as [_ Hf]. destruct (Hf Ht) as (x & Hx & _).
  exists (content x), (osize x). unfold GetObject. rewrite Hx. split; [done|].
  by apply (ok_content a Hok).
Qed.

End Steps.

(** * One sweep *)

(** A claim of an owner that still exists. *)
Definition held s c : Prop := is_claim s c /\ live_in s (c_kind c, c_owner c).
Definition held_hash s h : bool :=
  bool_decide (map_Exists (fun c _ => c_hash c = h /\ live_in s (c_kind c, c_owner c)) (refs s)).

(** What a sweep makes of a row. *)
Definition swept (grace now : Z) s h (o : object) : option object :=
  if held_hash s h then Some (mkObject (content o) (osize o) (created_at o) None)
  else match released_at o with
       | None => if now <? now - grace then None
                 else Some (mkObject (content o) (osize o) (created_at o) (Some now))
       | Some m => if m <? now - grace then None else Some o
       end.

Lemma orphan_dropped kind s c orphans :
  (kind = ObjectOwnerLog /\ orphans = OrphanedLogRefs s \/
   kind = ObjectOwnerInstance /\ orphans = OrphanedInstanceRefs s) ->
  is_claim s c -> c_kind c = kind -> ~ live_in s (kind, c_owner c) ->
  (c_hash c, c_owner c) ∈ orphans.
Proof.
  intros Hk [t Hc] <- Hl. destruct c as [[h k] id]. unfold c_kind, c_owner, c_hash in *. cbn in *.
  destruct Hk as [[-> ->]|[-> ->]]; unfold OrphanedLogRefs, OrphanedInstanceRefs;
    apply list_elem_of_omap; eexists ((h, _, id), t); (split; [by apply elem_of_map_to_list|]);
    unfold live_in in Hl; cbn in *; by rewrite !bool_decide_true by done.
Qed.

Lemma retired_spec s c :
  is_claim (retireOrphanedInstanceRefs (retireOrphanedLogRefs s)) c <-> held s c.
Proof.
  unfold retireOrphanedInstanceRefs, retireOrphanedLogRefs, held.
  destruct (retire_spec ObjectOwnerLog (OrphanedLogRefs s) s) as (_ & H1 & Hi1 & Hl1).
  set (s1 := retire ObjectOwnerLog (OrphanedLogRefs s) s) in *.
  destruct (retire_spec ObjectOwnerInstance (OrphanedInstanceRefs s1) s1) as (_ & H2 & _ & _).
  assert (Hlive : forall o, live_in s1 o <-> live_in s o) by (intros o; unfold live_in; by rewrite Hi1, Hl1).
  rewrite H2, H1. split.
  - intros [[Hc Hlog] Hinst]. split; [done|]. apply dec_stable. intros Hn.
    destruct c as [[h k] id]. unfold c_kind, c_owner in *. cbn in *. destruct k.
    + apply (Hinst h id); [|done]. apply (orphan_dropped ObjectOwnerInstance s1 (h, ObjectOwnerInstance, id));
        [by right|by apply H1|done|by rewrite Hlive].
    + apply (Hlog h id); [|done]. apply (orphan_dropped ObjectOwnerLog s (h, ObjectOwnerLog, id)); auto.
  - intros [Hc Hl]. split; [split; [done|]|].
    + intros h id Hin ->. by destruct (orphans_dead ObjectOwnerLog s _ ltac:(auto) h id Hin).
    + intros h id Hin ->. destruct (orphans_dead ObjectOwnerInstance s1 _ ltac:(auto) h id Hin) as [_ Hn].
      by apply Hn, Hlive.
Qed.

(** C25. What one sweep does, exactly: it drops the claims of owners that are gone and no
    other; it unmarks every object a live owner claims and deletes none of them; it marks
    an object that became unclaimed, and deletes one that stayed marked past the grace
    period. *)
Theorem sweep_spec (s : store) (grace now : Z) :
  (forall c, is_claim (snd (CollectObjects grace now s)) c <-> held s c) /\
  (forall h, objects (snd (CollectObjects grace now s)) !! h = objects s !! h ≫= swept grace now s h).
Proof.
  unfold CollectObjects.
  set (s2 := retireOrphanedInstanceRefs (retireOrphanedLogRefs s)).
  assert (Ho2 : objects s2 = objects s).
  { unfold s2, retireOrphanedInstanceRefs, retireOrphanedLogRefs.
    by rewrite (proj1 (retire_spec _ _ _)), (proj1 (retire_spec _ _ _)). }
  assert (Hcl : forall h, claimed s2 h = held_hash s h).
  { intros h. apply eq_true_iff_eq. rewrite claimed_spec. unfold held_hash.
    rewrite bool_decide_eq_true. split.
    - intros (c & [[t Hc] Hl]%retired_spec & <-). by exists c, t.
    - intros (c & t & Hc & <- & Hl). exists c. split; [|done]. apply retired_spec. split; [by exists t|done]. }
  split; [intros c; apply retired_spec|]. intros h. rewrite collect_halves.
  apply option_eq. intros o. rewrite delete_lookup.
  assert (Hm : objects (MarkObjectReleased now (ClearObjectRelease s2)) !! h =
    (fun o => if held_hash s h then mkObject (content o) (osize o) (created_at o) None
              else match released_at o with
                   | None => mkObject (content o) (osize o) (created_at o) (Some now)
                   | Some _ => o end) <$> objects s !! h).
  { rewrite mark_spec, clear_spec, Ho2. change (claimed (ClearObjectRelease s2) h) with (claimed s2 h).
    rewrite Hcl. destruct (objects s !! h) as [[b z cr [m|]]|]; cbn; [|..]; destruct (held_hash s h); done. }
  assert (Hd : h ∈ decided (MarkObjectReleased now (ClearObjectRelease s2)) (now - grace) <->
    held_hash s h = false /\ exists o, objects (MarkObjectReleased now (ClearObjectRelease s2)) !! h = Some o /\
      still_marked (now - grace) o = true).
  { rewrite elem_decided. unfold collectable.
    change (claimed (MarkObjectReleased now (ClearObjectRelease s2)) h) with (claimed s2 h). rewrite Hcl.
    unfold still_marked. destruct (held_hash s h); cbn; naive_solver. }
  rewrite Hd, Hm. destruct (objects s !! h) as [[b z cr m]|]; cbn; [|naive_solver].
  unfold swept, still_marked. cbn. destruct (held_hash s h); cbn.
  { split; [by intros [[= <-] _]|]. intros [= <-]. by split. }
  destruct m as [m|]; cbn.
  - destruct (m <? now - grace) eqn:E; split; try done.
    + intros [[= <-] Hx]. exfalso. specialize (Hx ltac:(split; [done|eexists; split; [done|exact E]])).
      cbn in Hx. congruence.
    + intros [[= <-] _]. done.
    + intros [= <-]. split; [done|]. intros _. exact E.
  - destruct (now <? now - grace) eqn:E; split; try done.
    + intros [[= <-] Hx]. exfalso. specialize (Hx ltac:(split; [done|eexists; split; [done|exact E]])).
      cbn in Hx. congruence.
    + intros [[= <-] _]. done.
    + intros [= <-]. split; [done|]. intros _. exact E.
Qed.

(** Nothing leaks: content that no live owner claims is gone after two sweeps more than
    the grace period apart. *)
Theorem sweeps_collect (s : store) (grace now1 now2 : Z) (h : string) :
  held_hash s h = false -> 0 <= grace -> now1 + grace < now2 ->
  (forall o m, objects s !! h = Some o -> released_at o = Some m -> m <= now1) ->
  let s' := snd (CollectObjects grace now1 s) in
  instances s' = instances s /\ logs s' = logs s /\
  objects (snd (CollectObjects grace now2 s')) !! h = None.
Proof.
  intros Hh Hg Ht Hm s'.
  assert (Hil : instances s' = instances s /\ logs s' = logs s).
  { unfold s', CollectObjects, retireOrphanedInstanceRefs, retireOrphanedLogRefs. cbn.
    destruct (retire_spec ObjectOwnerLog (OrphanedLogRefs s) s) as (_ & _ & H1 & H2).
    destruct (retire_spec ObjectOwnerInstance
      (OrphanedInstanceRefs (retire ObjectOwnerLog (OrphanedLogRefs s) s))
      (retire ObjectOwnerLog (OrphanedLogRefs s) s)) as (_ & _ & -> & ->). done. }
  split; [apply Hil|]. split; [apply Hil|].
  destruct (sweep_spec s grace now1) as [Hc Ho]. fold s' in Hc, Ho.
  assert (Hh' : held_hash s' h = false).
  { unfold held_hash in *. apply bool_decide_eq_false in Hh. apply bool_decide_eq_false.
    intros (c & t & Hin & E & Hl). apply Hh.
    destruct (proj1 (Hc c) ltac:(by exists t)) as [[t' Hc'] Hl']. by exists c, t'. }
  clearbody s'. destruct (sweep_spec s' grace now2) as [_ ->]. rewrite Ho.
  destruct (objects s !! h) as [o|] eqn:Eo; [|done]. cbn [mbind option_bind]. unfold swept.
  rewrite Hh. destruct (released_at o) as [m|] eqn:Er.
  - specialize (Hm o m eq_refl Er). destruct (m <? now1 - grace); [done|]. cbn.
    rewrite Hh', Er. by rewrite (proj2 (Z.ltb_lt _ _)) by lia.
  - rewrite (proj2 (Z.ltb_ge now1 _)) by lia. cbn. rewrite Hh'.
    by rewrite (proj2 (Z.ltb_lt _ _)) by lia.
Qed.

(** * A concrete run *)

Definition demo_hash (body : string) : string := "h:" +:+ body.
Definition demo_object : pendingObject := mkPending "h:x" "x" 1.
Definition demo_owner : owner := (ObjectOwnerInstance, "i1").

(** An instance is written with one object, and its reference is read. *)
Definition demo_written : sys :=
  written demo_owner {[ "h:x" ]}
    (add_instance "i1" (applyContextObjectDiff "i1" [demo_object] ∅ {[ "h:x" ]} 0 (st start))) start.
Definition demo_read : sys :=
  mkSys (st demo_written) 0 (used demo_written) (holds demo_written) [("h:x", 0)] [] [].

Lemma written_reachable : reachable demo_hash 100 1 demo_written.
Proof.
  eapply r_step; [apply r_start|]. apply (s_instance demo_hash 100 1 start "i1" [demo_object] ∅ {[ "h:x" ]}).
  - right. set_solver.
  - intros h ->%elem_of_singleton. left. by left.
  - by intros o ->%list_elem_of_singleton.
Qed.

Lemma demo_read_reachable : reachable demo_hash 100 1 demo_read.
Proof.
  eapply r_step; [exact written_reachable|].
  apply (s_read demo_hash 100 1 demo_written "h:x" (mkObject "x" 1 0 None)); by vm_compute.
Qed.

Lemma no_dangling_witness :
  exists body size, GetObject (st demo_written) "h:x" = Some (body, size) /\ "h:x" = demo_hash body.
Proof.
  apply (no_dangling demo_hash 100 1 demo_written demo_owner {[ "h:x" ]} "h:x");
    [lia|exact written_reachable|by vm_compute|by apply elem_of_singleton].
Defined.

Lemma grace_holds_witness :
  exists body size, GetObject (st demo_read) "h:x" = Some (body, size) /\ "h:x" = demo_hash body.
Proof.
  apply (grace_holds demo_hash 100 1 demo_read "h:x" 0); [lia|exact demo_read_reachable|left|cbn; lia].
Defined.

(** Content whose instance is gone. *)
Definition demo_orphaned : store := prune {[ "i1" ]} ∅ (st demo_written).

Lemma sweeps_collect_witness :
  objects (snd (CollectObjects 100 111 (snd (CollectObjects 100 10 demo_orphaned)))) !! "h:x" = None.
Proof.
  apply (sweeps_collect demo_orphaned 100 10 111 "h:x"); [by vm_compute|lia|lia|].
  intros o m Ho Hm. vm_compute in Ho. injection Ho as <-. discriminate.
Defined.

(** * A mark that outlives a claim *)

Definition claims (id : string) (now : Z) (s : store) : store :=
  add_instance id (applyContextObjectDiff id [] ∅ {[ "h:x" ]} now s).
Definition lets_go (id : string) (now : Z) (s : store) : store :=
  applyContextObjectDiff id [] {[ "h:x" ]} ∅ now s.
Definition sweep (now : Z) (s : store) : store := snd (CollectObjects 100 now s).

(** The first instance lets the object go at 9 and a sweep marks it at 10.  A second one
    that still had the reference claims it at 50 and lets it go at 51, and no sweep runs in
    between: [PutObjectRef] leaves the mark of 10, the sweep of 60 finds no claim to clear
    it for, and the sweep of 111 deletes what was claimed, and handed out, at 50 - 61 after
    its last claim went, where the grace period is 100. *)
Lemma stale_mark_cuts_grace :
  let held_at_50 := claims "i2" 50 (sweep 49 (sweep 10 (lets_go "i1" 9 (st demo_written)))) in
  let gone := sweep 111 (sweep 60 (lets_go "i2" 51 held_at_50)) in
  claimed held_at_50 "h:x" && bool_decide (is_Some (GetObject held_at_50 "h:x")) &&
  bool_decide (GetObject gone "h:x" = None) = true.
Proof. by vm_compute. Qed.

End Sweeping.
