(* ===== verification/Numeric.v ===== *)
(** internal/numeric/numeric.go: the one runtime definition of a number.

    The decimal library (cockroachdb/apd) is the class [Apd]: its decimals, its parser and
    the operations the source calls, each with the precision of its context and none for an
    error.  The values are those of [Json]; a [json.Number] is [Num], and a Go [int], which
    only a lambda's index parameter is, counts as the number of its decimal text. *)
From Stdlib Require Import ZArith Lia Ascii String.
From S2P Require Import Prelude GoStrings Json.
Import Json.
Open Scope string_scope.
Open Scope list_scope.
Open Scope Z_scope.

(** * cockroachdb/apd *)

Class Apd := {
  decimal : Type;
  NewFromString : string -> option decimal;
  is_finite : decimal -> bool;
  IsZero : decimal -> bool;
  NumDigits : decimal -> Z;
  Cmp : decimal -> decimal -> comparison;
  Neg : decimal -> decimal;
  Int64 : decimal -> option Z;
  Reduce : decimal -> decimal;
  Text : decimal -> string;
  RoundToIntegralValue : decimal -> option decimal;
  Add : Z -> decimal -> decimal -> option decimal;
  Sub : Z -> decimal -> decimal -> option decimal;
  Mul : Z -> decimal -> decimal -> option decimal;
  Quo : Z -> decimal -> decimal -> option decimal;
  Rem : Z -> decimal -> decimal -> option decimal }.

(** The integers as decimals, for concrete runs. *)
Definition integers : Apd := {|
  decimal := Z; NewFromString := ParseInt10; is_finite _ := true; IsZero d := d =? 0;
  NumDigits _ := 1; Cmp := Z.compare; Neg := Z.opp; Int64 := Some; Reduce d := d; Text := FormatInt;
  RoundToIntegralValue := Some; Add _ a b := Some (a + b); Sub _ a b := Some (a - b);
  Mul _ a b := Some (a * b); Quo _ a b := Some (a / b); Rem _ a b := Some (Z.rem a b) |}.

Module Numeric.
Section Numeric.
Context `{Apd}.

Implicit Types (v w : value) (d : decimal).

Definition MaxDigits : Z := 1000.
Definition ExceedsMaxDigits d : bool := MaxDigits <? NumDigits d.

Definition ToDecimal v : option decimal :=
  match v with Num s => NewFromString s | _ => None end.

Definition Compare v w : option comparison :=
  match ToDecimal v, ToDecimal w with Some x, Some y => Some (Cmp x y) | _, _ => None end.
Definition Equal v w : bool :=
  match Compare v w with Some Eq => true | _ => false end.

Definition IsIntegral v : bool :=
  match ToDecimal v with
  | None => false
  | Some d =>
      if negb (is_finite d) then false
      else match RoundToIntegralValue d with
           | None => false
           | Some r => match Cmp r d with Eq => true | _ => false end
           end
  end.

(** The canonical text. *)
Definition Format d : option string :=
  if negb (is_finite d) then None else Some (Text (Reduce d)).

End Numeric.
End Numeric.
