(* ===== verification/Syntax.v ===== *)
(** The expression language of internal/expression/syntax: its tree (ast.go) and its
    recursive-descent parser (parser.go).

    The lexer is expr-lang's and a parameter; a token is its kind, its text and the byte
    range it came from.  A parser is a function of the tokens left and of the permission to
    parse a lambda, and fails with a [parse_error], which keeps what the message quotes.
    Every production takes fuel; [Parse] gives enough for any input ([Parsing.Parse_total]). *)
From Stdlib Require Import ZArith Lia Ascii String.
From S2P Require Import Prelude GoStrings Json Numeric.
Import Json Numeric.
Open Scope string_scope.
Open Scope list_scope.
Open Scope Z_scope.

Set Warnings "-register-all".

(** * The tree *)

Inductive Node :=
  | IntNode (text : string)
  | FloatNode (text : string)
  | StringNode (s : string)
  | BoolNode (b : bool)
  | NullNode
  | IdentNode (name : string)
  | MemberNode (base : Node) (name : string)
  | IndexNode (base : Node) (index : Z)
  | KeyNode (base key : Node)
  | ArrayNode (items : list Node)
  | ObjectNode (fields : list (string * Node))
  | LambdaNode (param indexParam : string) (body : Node)
  | CallNode (name : string) (args : list Node)
  | UnaryNode (op : string) (operand : Node)
  | BinaryNode (op : string) (left right : Node)
  | CondNode (cond then_ else_ : Node).

(** Of a lambda, the body too: a call evaluates the body of its argument. *)
Definition with_body (P : Node -> Prop) (n : Node) : Prop :=
  P n /\ match n with LambdaNode _ _ b => P b | _ => True end.

Lemma Node_ind' (P : Node -> Prop) :
  (forall s, P (IntNode s)) -> (forall s, P (FloatNode s)) -> (forall s, P (StringNode s)) ->
  (forall b, P (BoolNode b)) -> P NullNode -> (forall x, P (IdentNode x)) ->
  (forall b x, P b -> P (MemberNode b x)) -> (forall b i, P b -> P (IndexNode b i)) ->
  (forall b k, P b -> P k -> P (KeyNode b k)) ->
  (forall l, Forall P l -> P (ArrayNode l)) ->
  (forall l, Forall (fun e => P (snd e)) l -> P (ObjectNode l)) ->
  (forall x i b, P b -> P (LambdaNode x i b)) ->
  (forall f l, Forall (with_body P) l -> P (CallNode f l)) ->
  (forall o x, P x -> P (UnaryNode o x)) ->
  (forall o l r, P l -> P r -> P (BinaryNode o l r)) ->
  (forall c t f, P c -> P t -> P f -> P (CondNode c t f)) -> forall n, P n.
Proof.
  intros Hint Hfloat Hstr Hbool Hnull Hid Hmem Hidx Hkey Harr Hobj Hlam Hcall Hun Hbin Hcond.
  fix go 1. intros [s|s|s|b| |x|b x|b i|b k|l|l|x i b|f l|o x|o l r|c t f].
  - apply Hint. - apply Hfloat. - apply Hstr. - apply Hbool. - exact Hnull. - apply Hid.
  - apply Hmem, go. - apply Hidx, go. - apply Hkey; apply go.
  - apply Harr. induction l; constructor; [apply go|assumption].
  - apply Hobj. induction l as [|[? ?] l IH]; constructor; [apply go|exact IH].
  - apply Hlam, go.
  - apply Hcall. induction l as [|n l IH]; constructor; [|exact IH].
    split; [apply go|]. destruct n; try exact I. apply go.
  - apply Hun, go. - apply Hbin; apply go. - apply Hcond; apply go.
Qed.

Module Syntax.

(** The arity of a builtin, and the argument that must be a lambda. *)
Definition builtins (name : string) : option nat :=
  if String.eqb name "map" then Some 2%nat else None.
Definition lambdaArg (name : string) : option nat :=
  if String.eqb name "map" then Some 1%nat else None.

(** * Tokens *)

Inductive Kind := Identifier | Number | KString | Bytes | Operator | Bracket | EOF.

#[export] Instance Kind_eq_dec : EqDecision Kind.
Proof. solve_decision. Defined.

Record Token := mkToken { tkind : Kind; text : string; From : Z; To : Z }.

Definition eof : Token := mkToken EOF "" 0 0.

(** * Failures *)

Inductive parse_error :=
  | LexError
  | UnexpectedToken (t : Token)
  | Expected (val : string) (t : Token)
  | Elvis (t : Token)
  | CoalesceMixed (t : Token)
  | PropertyName (t : Token)
  | InvalidIndex (t : Token)
  | EmptyIndex (t : Token)
  | HashForm (t : Token)
  | DotForm (t : Token)
  | ByteString (t : Token)
  | NilWord (t : Token)
  | LambdaPlace (t : Token)
  | LambdaNames (t : Token)
  | LambdaDistinct (t : Token)
  | UnknownFunction (t : Token)
  | Arity (name : string) (want got : nat) (t : Token)
  | NeedsLambda (name : string) (t : Token)
  | ObjectKey (t : Token)
  | DuplicateKey (key : string) (t : Token)
  | InvalidNumber (t : Token)
  | TooManyDigits (digits : Z) (t : Token)
  | OutOfFuel.

(** * The parser's state *)

Record parser := mkParser { toks : list Token; lambdaOK : bool }.

Definition P (A : Type) : Type := parser -> result parse_error (A * parser).

#[export] Instance P_ret : MRet P := fun _ a p => Ok (a, p).
#[export] Instance P_bind : MBind P :=
  fun _ _ f m p => match m p with Ok (a, p') => f a p' | Err e => Err e end.

Implicit Types (p : parser) (t : Token).

Definition fail {A} (e : parse_error) : P A := fun _ => Err e.
Definition at_ (n : nat) p : Token := default eof (toks p !! n).
Definition cur : P Token := fun p => Ok (at_ 0 p, p).
Definition peek : P Token := fun p => Ok (at_ 1 p, p).
Definition advance (n : nat) : P unit := fun p => Ok (tt, mkParser (drop n (toks p)) (lambdaOK p)).
Definition next : P Token := fun p => Ok (at_ 0 p, mkParser (drop 1 (toks p)) (lambdaOK p)).
Definition set_lambdaOK (b : bool) : P unit := fun p => Ok (tt, mkParser (toks p) b).

Definition tok_is (k : Kind) (val : string) t : bool :=
  bool_decide (tkind t = k) && String.eqb (text t) val.
Definition is_ (k : Kind) (val : string) : P bool := t ← cur; mret (tok_is k val t).
Definition expect (k : Kind) (val : string) : P Token :=
  t ← cur; if tok_is k val t then next else fail (Expected val t).

(** * Numbers *)

(** [strings.ReplaceAll(lit, "_", "")]. *)
Fixpoint drop_underscores (s : string) : string :=
  match s with
  | "" => ""
  | String c s => if byte c =? 95 then drop_underscores s else String c (drop_underscores s)
  end.

(** The base of a prefixed literal. *)
Definition prefixed (s : string) : option Z :=
  let low := ToLower s in
  if HasPrefix low "0x" then Some 16 else if HasPrefix low "0b" then Some 2
  else if HasPrefix low "0o" then Some 8 else None.

Definition digit_of (c : ascii) : Z :=
  let b := byte c in
  if (48 <=? b) && (b <=? 57) then b - 48
  else if (97 <=? b) && (b <=? 122) then b - 87
  else if (65 <=? b) && (b <=? 90) then b - 55
  else 99.

Fixpoint base_val (base acc : Z) (s : string) : option Z :=
  match s with
  | "" => Some acc
  | String c s => if digit_of c <? base then base_val base (acc * base + digit_of c) s else None
  end.

(** [SetString(s, 0)] and [ParseInt(s, 0, 64)] on a literal that has its prefix: digits
    must follow it. *)
Definition prefixed_val (base : Z) (s : string) : option Z :=
  match s with
  | String _ (String _ (String _ _ as digits)) => base_val base 0 digits
  | _ => None
  end.

(** [strings.ContainsAny(low, ".e")]. *)
Fixpoint has_point_or_e (s : string) : bool :=
  match s with
  | "" => false
  | String c s => (byte c =? 46) || (byte c =? 101) || has_point_or_e s
  end.

Definition isIntLiteral (s : string) : bool :=
  match prefixed s with
  | Some _ => true
  | None => negb (has_point_or_e (ToLower s))
  end.

Definition parseIndex (s : string) : option Z :=
  let clean := drop_underscores s in
  match prefixed clean with
  | Some base =>
      n ← prefixed_val base clean;
      if bool_decide (in_i64 n) then Some n else None
  | None => ParseInt10 clean
  end.

Section Parser.
Context `{Apd}.

Inductive number_error := BadNumber | Digits (n : Z).

(** The exact text of a literal, and whether it is spelled as an integer. *)
Definition normalizeNumber (lit : string) : result number_error (string * bool) :=
  let clean := drop_underscores lit in
  match prefixed clean with
  | Some base =>
      match prefixed_val base clean with
      | Some n => Ok (FormatInt n, true)
      | None => Err BadNumber
      end
  | None =>
      match NewFromString clean with
      | None => Err BadNumber
      | Some d =>
          if negb (is_finite d) then Err BadNumber
          else if ExceedsMaxDigits d then Err (Digits (NumDigits d))
          else match Format d with
               | None => Err BadNumber
               | Some out => Ok (out, negb (has_point_or_e (ToLower clean)))
               end
      end
  end.

Definition numberNode t : P Node :=
  match normalizeNumber (text t) with
  | Err BadNumber => fail (InvalidNumber t)
  | Err (Digits n) => fail (TooManyDigits n t)
  | Ok (out, true) => mret (IntNode out)
  | Ok (out, false) => mret (FloatNode out)
  end.

(** * Operators *)

Definition binaryPrec (op : string) : option Z :=
  if String.eqb op "||" then Some 10 else if String.eqb op "&&" then Some 15
  else if existsb (String.eqb op) ["=="; "!="; "<"; ">"; "<="; ">="] then Some 20
  else if existsb (String.eqb op) ["+"; "-"] then Some 30
  else if existsb (String.eqb op) ["*"; "/"; "%"] then Some 60
  else if String.eqb op "??" then Some 500 else None.

Definition unaryOps (op : string) : bool := existsb (String.eqb op) ["!"; "-"; "+"].

(** * Lambdas *)

(** An arrow is a [=] and a [>] with nothing between them. *)
Definition isArrow (n : nat) p : bool :=
  let eq := at_ n p in
  let gt := at_ (S n) p in
  tok_is Operator "=" eq && tok_is Operator ">" gt && (To eq =? From gt).

Fixpoint paramNames_go (ts : list Token) (names : list string) (wantName : bool) :
    option (list string) :=
  match ts with
  | [] =>
      if wantName || (length names =? 0)%nat || (2 <? length names)%nat then None else Some names
  | t :: ts =>
      if wantName then
        if bool_decide (tkind t = Identifier) then paramNames_go ts (names ++ [text t]) false
        else None
      else if tok_is Operator "," t then paramNames_go ts names true else None
  end.

(** The tokens at [from], up to [end_]. *)
Definition paramNames (from end_ : nat) p : option (list string) :=
  paramNames_go (take (end_ - from) (drop from (toks p))) [] true.

Inductive params := NotLambda | BadParams | Params (names : list string) (after : nat).

Definition opens (s : string) : bool := existsb (String.eqb s) ["("; "["; "{"].
Definition closes (s : string) : bool := existsb (String.eqb s) [")"; "]"; "}"].

(** The scan to the bracket that closes the first: [i] is the offset of the head of [ts]. *)
Fixpoint lambda_scan p (ts : list Token) (i : nat) (depth : Z) : params :=
  match ts with
  | [] => NotLambda
  | t :: ts =>
      let go := lambda_scan p ts (S i) in
      match tkind t with
      | EOF => NotLambda
      | Bracket =>
          if opens (text t) then go (depth + 1)
          else if closes (text t) then
            if depth - 1 =? 0 then
              if isArrow (S i) p then
                match paramNames 1 i p with
                | None => BadParams
                | Some names => Params names (i + 3)
                end
              else NotLambda
            else go (depth - 1)
          else go depth
      | _ => go depth
      end
  end.
Definition lambdaParams p : params := lambda_scan p (toks p) 0 0.

Definition isLambda (n : Node) : bool :=
  match n with LambdaNode _ _ _ => true | _ => false end.

(** * The productions *)

Fixpoint parseExpr (fuel : nat) : P Node :=
  match fuel with
  | O => fail OutOfFuel
  | S fuel =>
      cond ← parseBinary fuel 0;
      q ← is_ Operator "?";
      if negb q then mret cond
      else
        _ ← next;
        c ← is_ Operator ":";
        t ← cur;
        if (c : bool) then fail (Elvis t)
        else
          then_ ← parseExpr fuel;
          _ ← expect Operator ":";
          else_ ← parseExpr fuel;
          mret (CondNode cond then_ else_)
  end
with parseBinary (fuel : nat) (minPrec : Z) : P Node :=
  match fuel with
  | O => fail OutOfFuel
  | S fuel => left ← parseUnary fuel; binary_loop fuel minPrec left ""
  end
with binary_loop (fuel : nat) (minPrec : Z) (left : Node) (prevOp : string) : P Node :=
  match fuel with
  | O => fail OutOfFuel
  | S fuel =>
      tok ← cur;
      if negb (bool_decide (tkind tok = Operator)) then mret left
      else match binaryPrec (text tok) with
      | None => mret left
      | Some prec =>
          if prec <? minPrec then mret left
          else if String.eqb prevOp "??" && negb (String.eqb (text tok) "??")
          then fail (CoalesceMixed tok)
          else
            _ ← next;
            right ← parseBinary fuel (prec + 1);
            binary_loop fuel minPrec (BinaryNode (text tok) left right) (text tok)
      end
  end
with parseUnary (fuel : nat) : P Node :=
  match fuel with
  | O => fail OutOfFuel
  | S fuel =>
      tok ← cur;
      if bool_decide (tkind tok = Operator) && unaryOps (text tok) then
        _ ← next;
        operand ← parseUnary fuel;
        mret (UnaryNode (text tok) operand)
      else base ← parsePrimary fuel; parsePostfix fuel base
  end
with parsePostfix (fuel : nat) (base : Node) : P Node :=
  match fuel with
  | O => fail OutOfFuel
  | S fuel =>
      tok ← cur;
      if tok_is Operator "." tok then
        _ ← next;
        name ← cur;
        if negb (bool_decide (tkind name = Identifier)) then fail (PropertyName name)
        else _ ← next; parsePostfix fuel (MemberNode base (text name))
      else if tok_is Bracket "[" tok then
        _ ← next;
        idx ← cur;
        after ← peek;
        let closed := tok_is Bracket "]" after in
        if bool_decide (tkind idx = KString) && closed then
          _ ← next; _ ← next; parsePostfix fuel (MemberNode base (text idx))
        else if bool_decide (tkind idx = Number) && isIntLiteral (text idx) && closed then
          _ ← next;
          match parseIndex (text idx) with
          | None => fail (InvalidIndex idx)
          | Some n => _ ← next; parsePostfix fuel (IndexNode base n)
          end
        else if tok_is Bracket "]" idx then fail (EmptyIndex idx)
        else
          key ← parseExpr fuel;
          _ ← expect Bracket "]";
          parsePostfix fuel (KeyNode base key)
      else mret base
  end
with parsePrimary (fuel : nat) : P Node :=
  match fuel with
  | O => fail OutOfFuel
  | S fuel => fun p =>
      let ok := lambdaOK p in
      (_ ← set_lambdaOK false;
       tok ← cur;
       if tok_is Operator "#" tok then fail (HashForm tok)
       else if tok_is Operator "." tok then fail (DotForm tok)
       else match tkind tok with
       | Number => _ ← next; numberNode tok
       | KString => _ ← next; mret (StringNode (text tok))
       | Bytes => fail (ByteString tok)
       | Identifier =>
           if String.eqb (text tok) "true" then _ ← next; mret (BoolNode true)
           else if String.eqb (text tok) "false" then _ ← next; mret (BoolNode false)
           else if String.eqb (text tok) "null" then _ ← next; mret NullNode
           else if String.eqb (text tok) "nil" then fail (NilWord tok)
           else fun p =>
             if isArrow 1 p then
               if negb ok then Err (LambdaPlace tok) else parseLambda fuel [text tok] 3 p
             else if tok_is Bracket "(" (at_ 1 p) then parseCall fuel tok p
             else (_ ← next; mret (IdentNode (text tok))) p
       | Bracket =>
           if String.eqb (text tok) "(" then fun p =>
             match lambdaParams p with
             | BadParams => Err (LambdaNames (at_ 1 p))
             | Params names after =>
                 if negb ok then Err (LambdaPlace tok) else parseLambda fuel names after p
             | NotLambda =>
                 (_ ← next;
                  _ ← set_lambdaOK ok;
                  n ← parseExpr fuel;
                  _ ← expect Bracket ")";
                  mret n) p
             end
           else if String.eqb (text tok) "[" then
             _ ← expect Bracket "["; items_loop fuel []
           else if String.eqb (text tok) "{" then
             _ ← expect Bracket "{"; fields_loop fuel []
           else fail (UnexpectedToken tok)
       | Operator | EOF => fail (UnexpectedToken tok)
       end) p
  end
with parseLambda (fuel : nat) (names : list string) (after : nat) : P Node :=
  match fuel with
  | O => fail OutOfFuel
  | S fuel =>
      _ ← advance after;
      tok ← cur;
      let param := default "" (names !! 0%nat) in
      let indexParam := default "" (names !! 1%nat) in
      if String.eqb param indexParam then fail (LambdaDistinct tok)
      else body ← parseExpr fuel; mret (LambdaNode param indexParam body)
  end
with parseCall (fuel : nat) (name : Token) : P Node :=
  match fuel with
  | O => fail OutOfFuel
  | S fuel =>
      match builtins (text name) with
      | None => fail (UnknownFunction name)
      | Some arity =>
          _ ← next;
          _ ← expect Bracket "(";
          args ← args_loop fuel (lambdaArg (text name)) [];
          _ ← set_lambdaOK false;
          closing ← cur;
          _ ← expect Bracket ")";
          if negb (length args =? arity)%nat then
            fail (Arity (text name) arity (length args) closing)
          else match lambdaArg (text name) with
          | Some i =>
              if match args !! i with Some a => isLambda a | None => false end
              then mret (CallNode (text name) args)
              else fail (NeedsLambda (text name) closing)
          | None => mret (CallNode (text name) args)
          end
      end
  end
with args_loop (fuel : nat) (wantsLambdaAt : option nat) (args : list Node) : P (list Node) :=
  match fuel with
  | O => fail OutOfFuel
  | S fuel =>
      close ← is_ Bracket ")";
      if (close : bool) then mret args
      else
        _ ← (match args with [] => mret eof | _ => expect Operator "," end);
        _ ← set_lambdaOK (bool_decide (wantsLambdaAt = Some (length args)));
        arg ← parseExpr fuel;
        args_loop fuel wantsLambdaAt (args ++ [arg])
  end
with items_loop (fuel : nat) (items : list Node) : P Node :=
  match fuel with
  | O => fail OutOfFuel
  | S fuel =>
      close ← is_ Bracket "]";
      if (close : bool) then _ ← expect Bracket "]"; mret (ArrayNode items)
      else
        _ ← (match items with [] => mret eof | _ => expect Operator "," end);
        trailing ← is_ Bracket "]";
        if negb (bool_decide (items = [])) && trailing
        then _ ← expect Bracket "]"; mret (ArrayNode items)
        else item ← parseExpr fuel; items_loop fuel (items ++ [item])
  end
with fields_loop (fuel : nat) (fields : list (string * Node)) : P Node :=
  match fuel with
  | O => fail OutOfFuel
  | S fuel =>
      close ← is_ Bracket "}";
      if (close : bool) then _ ← expect Bracket "}"; mret (ObjectNode fields)
      else
        _ ← (match fields with [] => mret eof | _ => expect Operator "," end);
        trailing ← is_ Bracket "}";
        if negb (bool_decide (fields = [])) && trailing
        then _ ← expect Bracket "}"; mret (ObjectNode fields)
        else
          keyTok ← cur;
          if negb (bool_decide (tkind keyTok = Identifier) || bool_decide (tkind keyTok = KString))
          then fail (ObjectKey keyTok)
          else
            _ ← next;
            if existsb (String.eqb (text keyTok)) fields.*1
            then fail (DuplicateKey (text keyTok) keyTok)
            else
              _ ← expect Operator ":";
              v ← parseExpr fuel;
              fields_loop fuel (fields ++ [(text keyTok, v)])
  end.

(** [Parse] over the tokens of a source; none when it does not lex. *)
Definition fuel_for (ts : list Token) : nat := 8 * length ts + 8.

Definition parse_tokens (ts : list Token) : result parse_error Node :=
  match parseExpr (fuel_for ts) (mkParser ts false) with
  | Err e => Err e
  | Ok (node, p) =>
      if bool_decide (tkind (at_ 0 p) = EOF) then Ok node else Err (UnexpectedToken (at_ 0 p))
  end.

Definition Parse (Lex : string -> option (list Token)) (src : string) : result parse_error Node :=
  match Lex src with
  | None => Err LexError
  | Some ts => parse_tokens ts
  end.

End Parser.
End Syntax.
