(* ===== verification/Expr.v ===== *)
(** internal/expression: the evaluator (eval.go), its operators (ops.go), over decoded JSON
    in which a part may still be a reference to a stored object ([Json.Mark]).

    A [failure] keeps what an error names and drops the Go type names some messages end in.
    Arithmetic is apd's: the class [Apd], with the precisions the source gives it. *)
From Stdlib Require Import ZArith Lia Ascii String.
From S2P Require Import Prelude GoStrings Json Numeric Syntax.
Import Json Numeric.
Open Scope string_scope.
Open Scope list_scope.
Open Scope Z_scope.

Module Expr.

Inductive failure :=
  | ParseFailed (e : Syntax.parse_error)
  | NotFound (name : string)
  | Unresolved (what hash : string)
  | Unsupported (detail : string)
  | MapKey (kind : string)
  | ArrayKey (kind : string)
  | NullSource
  | SourceNotArray
  | NotBoolean (op : string)
  | NotNumeric (op : string)
  | NotIntegers
  | ComparesContainers
  | DivisionByZero
  | ModuloByZero
  | ApdFailed (op : string)
  | NumberTooLong (digits : Z)
  | NonFinite
  | AtKey (key : string) (e : failure)
  | Panicked.

Implicit Types (v w l r : value) (name op : string).

(** * The environment *)

(** The context roots, and the lambda parameters in scope, which shadow them. *)
Record env := mkEnv { ctx : list (string * value); vars : list (string * value) }.

Definition lookup (e : env) name : option value :=
  match lookup_key name (vars e) with
  | Some v => Some v
  | None => lookup_key name (ctx e)
  end.

(** [bind] with the pairs of [evalCall]: the parameter, then the index if it has a name. *)
Definition bind (e : env) (param indexParam : string) (item : value) (i : Z) : env :=
  let vs := put_key param item (vars e) in
  mkEnv (ctx e) (if String.eqb indexParam "" then vs else put_key indexParam (Num (FormatInt i)) vs).

(** A reference where a value is required. *)
Definition checkResolved v (what : string) : result failure unit :=
  match v with Mark r => Err (Unresolved what (Ref r)) | _ => Ok tt end.

(** * Navigation *)

Definition evalMember base name : result failure value :=
  match base with
  | Null => Ok Null
  | _ =>
      _ ← checkResolved base ("field access ." +:+ name);
      match base with
      | Map m => Ok (default Null (lookup_key name m))
      | _ => Ok Null
      end
  end.

Definition evalIndex base (i : Z) : result failure value :=
  match base with
  | Null => Ok Null
  | _ =>
      _ ← checkResolved base "index access";
      match base with
      | Arr a => Ok (default Null (item i a))
      | _ => Ok Null
      end
  end.

(** * Operators *)

Section Ops.
Context `{Apd}.

Definition jsonKindOf v : string :=
  match v with
  | Null => "null" | Str _ => "string" | Bool _ => "boolean" | Map _ => "object"
  | Arr _ => "array"
  | Num _ => match ToDecimal v with Some _ => "number" | None => "json.Number" end
  | Mark _ => "*model.ObjectRef"
  end.

Definition readKey base key : result failure value :=
  match base with
  | Map m =>
      match key with
      | Str name => Ok (default Null (lookup_key name m))
      | _ => Err (MapKey (jsonKindOf key))
      end
  | Arr a =>
      match ToDecimal key with
      | Some d =>
          if IsIntegral key then
            match Int64 d with
            | Some i => Ok (default Null (item i a))
            | None => Ok Null
            end
          else Err (ArrayKey (jsonKindOf key))
      | None => Err (ArrayKey (jsonKindOf key))
      end
  | _ => Ok Null
  end.

Definition divisionPrecision : Z := 34.
Definition modGuardDigits : Z := 4.
Definition exactCtx : Z := 0.

Definition modContextFor (x y : decimal) : Z :=
  Z.max divisionPrecision (Z.max (NumDigits x) (NumDigits y) + modGuardDigits).

Definition bothDecimal l r : option (decimal * decimal) :=
  match ToDecimal l, ToDecimal r with Some x, Some y => Some (x, y) | _, _ => None end.
Definition bothString l r : option (string * string) :=
  match l, r with Str a, Str b => Some (a, b) | _, _ => None end.
Definition bothBool l r : option (bool * bool) :=
  match l, r with Bool a, Bool b => Some (a, b) | _, _ => None end.

Definition decimalResult (d : decimal) : result failure value :=
  if ExceedsMaxDigits d then Err (NumberTooLong (NumDigits d))
  else match Format d with Some n => Ok (Num n) | None => Err NonFinite end.

Definition decBinOp op (fn : decimal -> decimal -> option decimal) l r : result failure value :=
  match bothDecimal l r with
  | None => Err (NotNumeric op)
  | Some (x, y) =>
      match fn x y with None => Err (ApdFailed op) | Some out => decimalResult out end
  end.

Definition isContainer v : bool := match v with Map _ | Arr _ => true | _ => false end.

(** What is left at the end is a pair of two different Go types: the callers refuse
    references before. *)
Definition equalValues l r : result failure bool :=
  match bothDecimal l r with
  | Some (x, y) => Ok (match Cmp x y with Eq => true | _ => false end)
  | None =>
      match bothString l r with
      | Some (a, b) => Ok (String.eqb a b)
      | None =>
          match bothBool l r with
          | Some (a, b) => Ok (Bool.eqb a b)
          | None =>
              if isContainer l && isContainer r then Err ComparesContainers
              else match l, r with
              | Null, Null => Ok true
              | Num a, Num b => Ok (String.eqb a b)
              | _, _ => Ok false
              end
          end
      end
  end.

Definition numCmp (fn : comparison -> bool) l r : result failure value :=
  match bothDecimal l r with
  | None => Err (NotNumeric "comparison")
  | Some (x, y) => Ok (Bool (fn (Cmp x y)))
  end.

Definition evalAdd l r : result failure value :=
  match bothString l r with
  | Some (a, b) => Ok (Str (a +:+ b))
  | None => decBinOp "+" (Add exactCtx) l r
  end.

Definition evalDiv l r : result failure value :=
  match bothDecimal l r with
  | None => Err (NotNumeric "/")
  | Some (x, y) =>
      if IsZero y then Err DivisionByZero
      else match Quo divisionPrecision x y with
           | None => Err (ApdFailed "/")
           | Some out => decimalResult out
           end
  end.

Definition evalMod l r : result failure value :=
  if negb (IsIntegral l) || negb (IsIntegral r) then Err NotIntegers
  else match bothDecimal l r with
       | None => Err Panicked
       | Some (x, y) =>
           if IsZero y then Err ModuloByZero
           else match Rem (modContextFor x y) x y with
                | None => Err (ApdFailed "%")
                | Some out => decimalResult out
                end
       end.

Definition binaryOps op : option (value -> value -> result failure value) :=
  let cmp f := Some (numCmp f) in
  if String.eqb op "==" then Some (fun l r => b ← equalValues l r; Ok (Bool b))
  else if String.eqb op "!=" then Some (fun l r => b ← equalValues l r; Ok (Bool (negb b)))
  else if String.eqb op "<" then cmp (fun c => match c with Lt => true | _ => false end)
  else if String.eqb op ">" then cmp (fun c => match c with Gt => true | _ => false end)
  else if String.eqb op "<=" then cmp (fun c => match c with Gt => false | _ => true end)
  else if String.eqb op ">=" then cmp (fun c => match c with Lt => false | _ => true end)
  else if String.eqb op "+" then Some evalAdd
  else if String.eqb op "-" then Some (decBinOp "-" (Sub exactCtx))
  else if String.eqb op "*" then Some (decBinOp "*" (Mul exactCtx))
  else if String.eqb op "/" then Some evalDiv
  else if String.eqb op "%" then Some evalMod
  else None.

Definition evalNot v : result failure value :=
  match v with Bool b => Ok (Bool (negb b)) | _ => Err (NotBoolean "!") end.
Definition negateNum v : result failure value :=
  match ToDecimal v with None => Err (NotNumeric "-") | Some d => decimalResult (Neg d) end.
Definition requireNum v : result failure value :=
  match ToDecimal v with None => Err (NotNumeric "+") | Some _ => Ok v end.

Definition unaryOps op : option (value -> result failure value) :=
  if String.eqb op "!" then Some evalNot
  else if String.eqb op "-" then Some negateNum
  else if String.eqb op "+" then Some requireNum
  else None.

Definition mustBool v : bool := match v with Bool b => b | _ => false end.

(** * The walk *)

Fixpoint evalNode (n : Node) (e : env) {struct n} : result failure value :=
  match n with
  | IntNode text | FloatNode text => Ok (Num text)
  | StringNode s => Ok (Str s)
  | BoolNode b => Ok (Bool b)
  | NullNode => Ok Null
  | IdentNode name =>
      match lookup e name with None => Err (NotFound name) | Some v => Ok v end
  | MemberNode b name => base ← evalNode b e; evalMember base name
  | IndexNode b i => base ← evalNode b e; evalIndex base i
  | KeyNode b k =>
      base ← evalNode b e;
      match base with
      | Null => Ok Null
      | _ =>
          _ ← checkResolved base "key access";
          key ← evalNode k e;
          readKey base key
      end
  | ArrayNode items =>
      out ← (fix go items := match items with
             | [] => Ok []
             | i :: items => v ← evalNode i e; vs ← go items; Ok (v :: vs)
             end) items;
      Ok (Arr out)
  | ObjectNode fields =>
      out ← (fix go fields out := match fields with
             | [] => Ok out
             | (key, i) :: fields =>
                 v ← map_err (AtKey key) (evalNode i e);
                 go fields (put_key key v out)
             end) fields [];
      Ok (Map out)
  | LambdaNode _ _ _ => Err (Unsupported "a lambda is only valid as a map argument")
  | CallNode name args =>
      if negb (String.eqb name "map") then Err (Unsupported ("function " +:+ name))
      else match args with
      | s :: rest =>
          src ← evalNode s e;
          _ ← checkResolved src ("function " +:+ name);
          match src with
          | Null => Err NullSource
          | Arr items =>
              match rest with
              | LambdaNode param indexParam body :: _ =>
                  out ← (fix go i items := match items with
                         | [] => Ok []
                         | x :: items =>
                             v ← evalNode body (bind e param indexParam x i);
                             vs ← go (i + 1) items;
                             Ok (v :: vs)
                         end) 0 items;
                  Ok (Arr out)
              | _ :: _ => Err (Unsupported "map expects a lambda")
              | [] => Err Panicked
              end
          | _ => Err SourceNotArray
          end
      | [] => Err Panicked
      end
  | UnaryNode op operand =>
      match unaryOps op with
      | None => Err (Unsupported ("unary operator " +:+ op))
      | Some f =>
          v ← evalNode operand e;
          _ ← checkResolved v ("unary " +:+ op);
          f v
      end
  | BinaryNode op lhs rhs =>
      if String.eqb op "??" then
        l ← evalNode lhs e;
        match l with Null => evalNode rhs e | _ => Ok l end
      else if String.eqb op "&&" || String.eqb op "||" then
        l ← evalNode lhs e;
        match l with
        | Bool lb =>
            if negb (Bool.eqb (String.eqb op "&&") lb) then Ok (Bool lb)
            else
              r ← evalNode rhs e;
              match r with Bool rb => Ok (Bool rb) | _ => Err (NotBoolean op) end
        | _ => Err (NotBoolean op)
        end
      else match binaryOps op with
      | None => Err (Unsupported ("operator " +:+ op))
      | Some f =>
          l ← evalNode lhs e;
          r ← evalNode rhs e;
          _ ← checkResolved l ("operator " +:+ op);
          _ ← checkResolved r ("operator " +:+ op);
          f l r
      end
  | CondNode c t f =>
      cond ← evalNode c e;
      if mustBool cond then evalNode t e else evalNode f e
  end.

Definition EvalNode (n : Node) (context : list (string * value)) : result failure value :=
  evalNode n (mkEnv context []).

Definition Eval (Lex : string -> option (list Syntax.Token)) (expression : string)
    (context : list (string * value)) : result failure value :=
  match Syntax.Parse Lex expression with
  | Err e => Err (ParseFailed e)
  | Ok node => EvalNode node context
  end.

End Ops.
End Expr.
