(* ===== verification/Roots.v ===== *)
(** internal/expression/refs.go: which context roots an expression reads, and which of them
    it reads into rather than copies. *)
From Stdlib Require Import ZArith Lia Ascii String.
From stdpp Require Import sorting.
From S2P Require Import Prelude GoStrings Json Numeric Syntax Expr.
Open Scope string_scope.
Open Scope list_scope.
Open Scope Z_scope.

Module Roots.

(** [Through]. *)
Record Through := mkThrough {
  t_Input : bool; t_Error : bool; t_ErrorData : bool; t_AllOutputs : bool;
  t_SelfPrevious : bool; t_SelfResult : bool; t_LastError : bool; t_LastErrorData : bool;
  t_Outputs : list string }.

Record Roots := mkRoots {
  Input : bool; Error : bool; Outputs : list string; AllOutputs : bool;
  SelfPrevious : bool; SelfResult : bool; SelfOutput : bool; ErrorData : bool;
  LastError : bool; LastErrorData : bool; through : Through }.

Definition no_through : Through := mkThrough false false false false false false false false [].
Definition none : Roots :=
  mkRoots false false [] false false false false false false false no_through.

Definition Union_through (r o : Through) : Through :=
  mkThrough (t_Input r || t_Input o) (t_Error r || t_Error o) (t_ErrorData r || t_ErrorData o)
    (t_AllOutputs r || t_AllOutputs o) (t_SelfPrevious r || t_SelfPrevious o)
    (t_SelfResult r || t_SelfResult o) (t_LastError r || t_LastError o)
    (t_LastErrorData r || t_LastErrorData o) (t_Outputs r ++ t_Outputs o).

Definition Union (r o : Roots) : Roots :=
  mkRoots (Input r || Input o) (Error r || Error o) (Outputs r ++ Outputs o)
    (AllOutputs r || AllOutputs o) (SelfPrevious r || SelfPrevious o)
    (SelfResult r || SelfResult o) (SelfOutput r || SelfOutput o) (ErrorData r || ErrorData o)
    (LastError r || LastError o) (LastErrorData r || LastErrorData o)
    (Union_through (through r) (through o)).

Implicit Types (bound : list string) (name : string).

(** A set of bound names is the list of them. *)
Definition is_bound bound name : bool := existsb (String.eqb name) bound.
Definition bindParams bound (param indexParam : string) : list string :=
  if String.eqb indexParam "" then param :: bound else indexParam :: param :: bound.

(** [outputRefID]: the id of [outputs.<id>]. *)
Definition outputRefID bound (base : Node) name : string :=
  match base with
  | IdentNode b =>
      if negb (String.eqb b "outputs") || is_bound bound "outputs" then "" else name
  | _ => ""
  end.

Definition isSelfField bound (base : Node) name field : bool :=
  match base with
  | IdentNode b => String.eqb b "self" && negb (is_bound bound "self") && String.eqb name field
  | _ => false
  end.

(** The records one root gives. *)
Definition read_output (id : string) (thr : bool) : Roots :=
  mkRoots false false [id] false false false false false false false
    (mkThrough false false false false false false false false (if thr then [id] else [])).
Definition read_previous (thr : bool) : Roots :=
  mkRoots false false [] false true false false false false false
    (mkThrough false false false false thr false false false []).
Definition read_result (thr : bool) : Roots :=
  mkRoots false false [] false false true false false false false
    (mkThrough false false false false false thr false false []).
Definition read_self_output : Roots :=
  mkRoots false false [] false false false true false false false no_through.
Definition read_input (thr : bool) : Roots :=
  mkRoots true false [] false false false false false false false
    (mkThrough thr false false false false false false false []).
Definition read_outputs (thr : bool) : Roots :=
  mkRoots false false [] true false false false false false false
    (mkThrough false false false thr false false false false []).

(** [error.<name>] and a bare [error]; the same of [last_error]. *)
Definition read_error_field name (thr : bool) : Roots :=
  let data := String.eqb name "data" in
  mkRoots false true [] false false false false data false false
    (mkThrough false true (data && thr) false false false false false []).
Definition read_error (thr : bool) : Roots :=
  mkRoots false true [] false false false false true false false
    (mkThrough false thr thr false false false false false []).
Definition read_last_error_field name (thr : bool) : Roots :=
  let data := String.eqb name "data" in
  mkRoots false false [] false false false false false true data
    (mkThrough false false false false false false true (data && thr) []).
Definition read_last_error (thr : bool) : Roots :=
  mkRoots false false [] false false false false false true true
    (mkThrough false false false false false false thr thr []).

(** The case of a bare identifier. *)
Definition ident_roots bound name (thr : bool) : Roots :=
  if is_bound bound name then none
  else if String.eqb name "input" then read_input thr
  else if String.eqb name "error" then read_error thr
  else if String.eqb name "last_error" then read_last_error thr
  else if String.eqb name "outputs" then read_outputs thr
  else none.

(** What a member node takes without looking at its base any further. *)
Definition member_roots bound (base : Node) name (thr : bool) : option Roots :=
  let id := outputRefID bound base name in
  if negb (String.eqb id "") then Some (read_output id thr)
  else if isSelfField bound base name "previous" then Some (read_previous thr)
  else if isSelfField bound base name "result" then Some (read_result thr)
  else if isSelfField bound base name "output" then Some read_self_output
  else match base with
  | IdentNode b =>
      if is_bound bound b then None
      else if String.eqb b "error" then Some (read_error_field name thr)
      else if String.eqb b "last_error" then Some (read_last_error_field name thr)
      else None
  | _ => None
  end.

(** The accumulator [r] of the source is the union of what each node adds. *)
Fixpoint collectRoots (n : Node) bound (thr : bool) {struct n} : Roots :=
  match n with
  | IntNode _ | FloatNode _ | StringNode _ | BoolNode _ | NullNode => none
  | IdentNode name => ident_roots bound name thr
  | MemberNode base name =>
      match member_roots bound base name thr with
      | Some r => r
      | None => collectRoots base bound true
      end
  | IndexNode base _ => collectRoots base bound true
  | KeyNode base key => Union (collectRoots base bound true) (collectRoots key bound true)
  | ArrayNode items =>
      (fix go items := match items with
       | [] => none
       | i :: items => Union (collectRoots i bound false) (go items)
       end) items
  | ObjectNode fields =>
      (fix go fields := match fields with
       | [] => none
       | (_, v) :: fields => Union (collectRoots v bound false) (go fields)
       end) fields
  | CallNode _ args =>
      (fix go args := match args with
       | [] => none
       | a :: args => Union (collectRoots a bound true) (go args)
       end) args
  | LambdaNode param indexParam body => collectRoots body (bindParams bound param indexParam) thr
  | BinaryNode _ l r => Union (collectRoots l bound true) (collectRoots r bound true)
  | UnaryNode _ x => collectRoots x bound true
  | CondNode c t f =>
      Union (collectRoots c bound true) (Union (collectRoots t bound thr) (collectRoots f bound thr))
  end.

Definition RootRefsNode (n : Node) (thr : bool) : Roots := collectRoots n [] thr.

Definition RootRefs `{Numeric.Apd} (Lex : string -> option (list Syntax.Token)) (expr : string) :
    result Syntax.parse_error Roots :=
  match Syntax.Parse Lex expr with
  | Err e => Err e
  | Ok node => Ok (RootRefsNode node false)
  end.

(** [OutputRefsNode]: the task ids of the static references, in order, each once. *)
Fixpoint collectOutputRefs (n : Node) bound {struct n} : gset string :=
  match n with
  | IntNode _ | FloatNode _ | StringNode _ | BoolNode _ | NullNode | IdentNode _ => ∅
  | MemberNode base name =>
      let id := outputRefID bound base name in
      (if String.eqb id "" then ∅ else {[ id ]}) ∪ collectOutputRefs base bound
  | IndexNode base _ => collectOutputRefs base bound
  | KeyNode base key => collectOutputRefs base bound ∪ collectOutputRefs key bound
  | ArrayNode items =>
      (fix go items := match items with
       | [] => ∅
       | i :: items => collectOutputRefs i bound ∪ go items
       end) items
  | ObjectNode fields =>
      (fix go fields := match fields with
       | [] => ∅
       | (_, v) :: fields => collectOutputRefs v bound ∪ go fields
       end) fields
  | CallNode _ args =>
      (fix go args := match args with
       | [] => ∅
       | a :: args => collectOutputRefs a bound ∪ go args
       end) args
  | LambdaNode param indexParam body => collectOutputRefs body (bindParams bound param indexParam)
  | BinaryNode _ l r => collectOutputRefs l bound ∪ collectOutputRefs r bound
  | UnaryNode _ x => collectOutputRefs x bound
  | CondNode c t f =>
      collectOutputRefs c bound ∪ (collectOutputRefs t bound ∪ collectOutputRefs f bound)
  end.
Definition OutputRefsNode (n : Node) : list string :=
  merge_sort (fun a b => Is_true (String.leb a b)) (elements (collectOutputRefs n [])).

End Roots.
