(* ===== verification/Template.v ===== *)
(** internal/template (template.go, scan.go) and the evaluation half of internal/shape.

    A template is parsed into chunks; the expression parser is that of [Syntax].  The cache
    of parsed templates holds what [Parse] answers and is left out. *)
From Stdlib Require Import ZArith Lia Ascii String.
From S2P Require Import Prelude GoStrings Json Numeric Syntax Expr Roots.
Import Json Numeric Expr.
Open Scope string_scope.
Open Scope list_scope.
Open Scope Z_scope.

Module Template.

Implicit Types (s : string) (v w : value).

(** * Parsing *)

Inductive chunk :=
  | Lit (text : string)
  | Block (text : string) (node : Node).

Record Template := mkTemplate { src : string; chunks : list chunk; expr : bool }.

Inductive template_error :=
  | BadExpression (body : string) (e : Syntax.parse_error)
  | Unclosed.

Definition is_space (c : ascii) : bool :=
  (byte c =? 32) || (byte c =? 9) || (byte c =? 13) || (byte c =? 10).

(** [leadingWS], and the rest after it. *)
Fixpoint leadingWS s : nat :=
  match s with
  | String c s => if is_space c then S (leadingWS s) else 0%nat
  | "" => 0%nat
  end.
Fixpoint skip (n : nat) s : string :=
  match n, s with S n, String _ s => skip n s | _, _ => s end.

Definition exprMarker : string := "$:".

Section Parse.
Context `{Apd} (Lex : string -> option (list Syntax.Token)).

(** The search of [parseBlock]: [acc] is what of [s] lies before [rest].  The error is the
    one of the longest candidate. *)
Fixpoint parseBlock_go (acc rest : string) (longest : option template_error) :
    result template_error (string * Node * string) :=
  match rest with
  | "" => Err (default Unclosed longest)
  | String c rest =>
      if byte c =? 125 then
        match Syntax.Parse Lex acc with
        | Ok node => Ok (acc, node, rest)
        | Err e => parseBlock_go (acc +:+ String c "") rest (Some (BadExpression acc e))
        end
      else parseBlock_go (acc +:+ String c "") rest longest
  end.
Definition parseBlock s := parseBlock_go "" s None.

Definition flush (lit : string) : list chunk := match lit with "" => [] | _ => [Lit lit] end.

(** [scanTemplate]; a block consumes at least its two opening bytes, so the length of the
    string is fuel enough. *)
Fixpoint scan_go (fuel : nat) (lit s : string) : result template_error (list chunk) :=
  match fuel with
  | O => Err Unclosed
  | S fuel =>
      match s with
      | "" => Ok (flush lit)
      | String c s1 =>
          let plain := scan_go fuel (lit +:+ String c "") s1 in
          if byte c =? 36 then
            match s1 with
            | String d s2 =>
                if byte d =? 36 then scan_go fuel (lit +:+ String c "") s2
                else if byte d =? 123 then
                  '(body, node, after) ← parseBlock s2;
                  cs ← scan_go fuel "" after;
                  Ok (flush lit ++ Block body node :: cs)
                else plain
            | "" => plain
            end
          else plain
      end
  end.
Definition scanTemplate s : result template_error Template :=
  cs ← scan_go (S (String.length s)) "" s;
  Ok (mkTemplate s cs false).

Definition Parse s : result template_error Template :=
  match strip_prefix exprMarker (skip (leadingWS s) s) with
  | Some body =>
      let body := TrimSpace body in
      match Syntax.Parse Lex body with
      | Err e => Err (BadExpression body e)
      | Ok node => Ok (mkTemplate s [Block body node] true)
      end
  | None => scanTemplate s
  end.

(** * Evaluating *)

Inductive eval_error :=
  | TemplateFailed (e : template_error)
  | ExpressionFailed (text : string) (e : failure)
  | Interpolates (hash : string)
  | CannotStringify
  | InItem (i : Z) (e : eval_error)
  | InField (k : string) (e : eval_error).

Definition stringify v : result eval_error string :=
  match v with
  | Mark r => Err (Interpolates (Ref r))
  | Str s => Ok s
  | Num s => Ok s
  | Bool b => Ok (if b then "true" else "false")
  | _ => Err CannotStringify
  end.

Definition ctxData : Type := list (string * value).

Definition eval_chunk (env : ctxData) (c : chunk) : result eval_error string :=
  match c with
  | Lit text => Ok text
  | Block text node =>
      v ← map_err (ExpressionFailed text) (EvalNode node env);
      stringify v
  end.

Fixpoint eval_chunks (env : ctxData) (cs : list chunk) : result eval_error string :=
  match cs with
  | [] => Ok ""
  | c :: cs => a ← eval_chunk env c; b ← eval_chunks env cs; Ok (a +:+ b)
  end.

Definition EvalAny (t : Template) (env : ctxData) : result eval_error value :=
  if expr t then
    match chunks t with
    | Block _ node :: _ => map_err (ExpressionFailed (src t)) (EvalNode node env)
    | _ => Err (ExpressionFailed (src t) Panicked)
    end
  else out ← eval_chunks env (chunks t); Ok (Str out).

(** [Static]. *)
Definition Static (t : Template) : option string :=
  if expr t then None
  else foldr (fun c r => match c with Lit s => (fun x => s +:+ x) <$> r | Block _ _ => None end)
         (Some "") (chunks t).

Definition RootRefs (t : Template) : Roots.Roots :=
  foldr (fun c r =>
    match c with
    | Lit _ => r
    | Block _ node => Roots.Union (Roots.RootRefsNode node (negb (expr t))) r
    end) Roots.none (chunks t).

(** * internal/shape *)

(** [Eval] and [Roots] of a raw templated value.  A Go map is walked in its random order;
    of several failing members the model reports the first by key. *)
Fixpoint Eval (node : value) (env : ctxData) {struct node} : result eval_error value :=
  match node with
  | Str s => match Parse s with Err e => Err (TemplateFailed e) | Ok t => EvalAny t env end
  | Arr a =>
      out ← (fix go i a := match a with
             | [] => Ok []
             | x :: a => v ← map_err (InItem i) (Eval x env); vs ← go (i + 1) a; Ok (v :: vs)
             end) 0 a;
      Ok (Arr out)
  | Map l =>
      out ← (fix go l := match l with
             | [] => Ok []
             | (k, x) :: l => v ← map_err (InField k) (Eval x env); vs ← go l; Ok ((k, v) :: vs)
             end) l;
      Ok (Map out)
  | Mark _ => Err CannotStringify
  | _ => Ok node
  end.

Fixpoint shape_roots (node : value) : result eval_error Roots.Roots :=
  match node with
  | Str s => match Parse s with Err e => Err (TemplateFailed e) | Ok t => Ok (RootRefs t) end
  | Arr a =>
      (fix go a := match a with
       | [] => Ok Roots.none
       | x :: a => r ← shape_roots x; rs ← go a; Ok (Roots.Union r rs)
       end) a
  | Map l =>
      (fix go l := match l with
       | [] => Ok Roots.none
       | (_, x) :: l => r ← shape_roots x; rs ← go l; Ok (Roots.Union r rs)
       end) l
  | _ => Ok Roots.none
  end.

(** A [Shape]: its raw value, and whether it is one bare expression. *)
Record Shape := mkShape { Raw : value; Expr : bool }.

Definition exprString (sh : Shape) : string := match Raw sh with Str s => s | _ => "" end.

Definition Shape_Eval (sh : Shape) (env : ctxData) : result eval_error value :=
  if Expr sh then map_err (ExpressionFailed (exprString sh)) (Expr.Eval Lex (exprString sh) env)
  else Eval (Raw sh) env.

Definition Shape_Roots (sh : Shape) : result eval_error Roots.Roots :=
  if Expr sh then
    map_err (fun e => ExpressionFailed (exprString sh) (ParseFailed e))
      (Roots.RootRefs Lex (exprString sh))
  else shape_roots (Raw sh).

(** * scan.go *)

(** Offsets, as a span [From, To). *)
Record Region := mkRegion { Marker : nat * nat; Body : nat * nat; Close : nat * nat }.

(** [blockEnd]: [i] is the offset reached, [first] the first brace. *)
Fixpoint blockEnd_go (acc rest : string) (i : nat) (first : option nat) : nat :=
  match rest with
  | "" => default i first
  | String c rest =>
      let first' := match first with Some f => Some f | None => Some i end in
      if byte c =? 125 then
        match Syntax.Parse Lex acc with
        | Ok _ => i
        | Err _ => blockEnd_go (acc +:+ String c "") rest (S i) first'
        end
      else blockEnd_go (acc +:+ String c "") rest (S i) first
  end.
Definition blockEnd s : nat := blockEnd_go "" s 0 None.

Fixpoint byte_at (n : nat) s : option ascii :=
  match n, s with
  | O, String c _ => Some c
  | S n, String _ s => byte_at n s
  | _, "" => None
  end.
Definition space_at s (i : nat) : bool :=
  match byte_at i s with Some c => is_space c | None => false end.

(** [trimSpan]: [n] bounds the steps by the length of the span. *)
Fixpoint trim_from s (n from to_ : nat) : nat :=
  match n with
  | O => from
  | S n => if (from <? to_)%nat && space_at s from then trim_from s n (S from) to_ else from
  end.
Fixpoint trim_to s (n from to_ : nat) : nat :=
  match n with
  | O => to_
  | S n => if (from <? to_)%nat && space_at s (pred to_) then trim_to s n from (pred to_) else to_
  end.
Definition trimSpan s (sp : nat * nat) : nat * nat :=
  let from := trim_from s (snd sp - fst sp) (fst sp) (snd sp) in
  (from, trim_to s (snd sp - from) from (snd sp)).

(** [i] is the offset of [rest] in [s]. *)
Fixpoint regions_go (fuel : nat) (s : string) (i : nat) (rest : string) : list Region :=
  match fuel with
  | O => []
  | S fuel =>
      match rest with
      | "" => []
      | String c r1 =>
          let plain := regions_go fuel s (S i) r1 in
          if byte c =? 36 then
            match r1 with
            | String d r2 =>
                if byte d =? 36 then regions_go fuel s (i + 2) r2
                else if byte d =? 123 then
                  let body := (i + 2)%nat in
                  let end_ := blockEnd r2 in
                  let close := if (end_ <? String.length r2)%nat
                               then ((body + end_)%nat, (body + end_ + 1)%nat) else (0%nat, 0%nat) in
                  mkRegion (i, body) (trimSpan s (body, (body + end_)%nat)) close
                    :: regions_go fuel s (body + end_ + 1) (skip (S end_) r2)
                else plain
            | "" => plain
            end
          else plain
      end
  end.

Definition Scan s : list Region :=
  let ws := leadingWS s in
  if HasPrefix (skip ws s) exprMarker then
    let body := (ws + 2)%nat in
    [mkRegion (ws, body) (trimSpan s (body, String.length s)) (0%nat, 0%nat)]
  else regions_go (S (String.length s)) s 0 s.

End Parse.
End Template.
