(* ===== verification/Context.v ===== *)
(** Reading the context of an instance without loading what is not read: model/context.go
    and engine/evaluator.go.

    A load of an object is a parameter, none for an error; it is the loader of
    [Objects.loadObjectValue] behind the engine's read retry.  The memo of loaded objects is
    the state of the monad [C]; it lives as long as the advance. *)
From Stdlib Require Import ZArith Lia Ascii String.
From S2P Require Import Prelude GoStrings Json Numeric Syntax Expr Roots Template.
Import Json Numeric.
Open Scope string_scope.
Open Scope list_scope.
Open Scope Z_scope.

Module Context.

Implicit Types (v w : value) (h : string).

Inductive error :=
  | LoadFailed (hash : string)
  | NestedObject (hash : string)
  | ShapeFailed (e : Template.eval_error)
  | TooLarge (bytes : Z).

(** * The monad of reads *)

Definition memo : Type := gmap string value.
Definition C (A : Type) : Type := memo -> result error A * memo.

#[export] Instance C_ret : MRet C := fun _ a m => (Ok a, m).
#[export] Instance C_bind : MBind C := fun _ _ f c m =>
  match c m with (Ok a, m') => f a m' | (Err e, m') => (Err e, m') end.
Definition throw {A} (e : error) : C A := fun m => (Err e, m).
Definition lift {A} (r : result error A) : C A := fun m => (r, m).

(** * model/context.go *)

Section Context.
Context (load : string -> option value).

Definition object (r : ObjectRef) : C value := fun m =>
  match m !! Ref r with
  | Some v => (Ok v, m)
  | None =>
      match load (Ref r) with
      | None => (Err (LoadFailed (Ref r)), m)
      | Some v => (Ok v, <[Ref r := v]> m)
      end
  end.

(** [step]: none is a missing step. *)
Definition step v (s : seg) : option value :=
  match v with
  | Map l => match s with Key k => lookup_key k l | _ => None end
  | Arr a => i ← index s; item i a
  | _ => None
  end.

(** [At], from a value on; a missing step yields null. *)
Fixpoint walk v (p : path) : C value :=
  match p with
  | [] => mret v
  | s :: p =>
      cur ← (match v with Mark r => object r | _ => mret v end);
      match step cur s with
      | None => mret Null
      | Some w => walk w p
      end
  end.
Definition At (data : list (string * value)) (p : path) : C value := walk (Map data) p.

(** [Materialize], where [below] treats what a load returned. *)
Definition materialize_with (below : ObjectRef -> value -> C value) : value -> C value :=
  fix go v :=
    match v with
    | Mark r => loaded ← object r; below r loaded
    | Map l =>
        out ← (fix gos l := match l with
               | [] => mret []
               | (k, x) :: l => y ← go x; ys ← gos l; mret ((k, y) :: ys)
               end) l;
        mret (Map out)
    | Arr a =>
        out ← (fix gos a := match a with
               | [] => mret []
               | x :: a => y ← go x; ys ← gos a; mret (y :: ys)
               end) a;
        mret (Arr out)
    | _ => mret v
    end.

(** How many objects may hold a reference to the next.  Decoded content holds none, so one
    is enough ([Lazy.materialize_spec]). *)
Fixpoint Materialize_n (n : nat) : value -> C value :=
  match n with
  | O => materialize_with (fun r _ => throw (NestedObject (Ref r)))
  | S n => materialize_with (fun _ => Materialize_n n)
  end.
Definition Materialize : value -> C value := Materialize_n 1.

Definition MaterializeAt (data : list (string * value)) (p : path) : C value :=
  v ← At data p; Materialize v.

(** * engine/evaluator.go *)

(** What [buildEnv] reads of a process instance. *)
Record inst := mkInst {
  State : list (string * value); Config : list (string * value); Task : string }.

Definition is_mark v : bool := match v with Mark _ => true | _ => false end.

(** [include]. *)
Definition include (i : inst) (key : string) (referenced through : bool) : C value :=
  v ← At (State i) [Key key];
  if is_mark v && negb referenced then mret Null
  else if negb through then mret v
  else Materialize v.

(** An error namespace: its [data] is materialized where it is read into. *)
Definition include_error (i : inst) (key : string) (read through : bool) : C value :=
  v ← include i key read false;
  match v with
  | Map m =>
      if through then
        d ← MaterializeAt (State i) [Key key; Key "data"];
        mret (Map (put_key "data" d m))
      else mret v
  | _ => mret v
  end.

(** The self of the environment: [previous] may be a reference. *)
Definition self_env (self : value) (roots : Roots.Roots) : C value :=
  if Roots.SelfPrevious roots then
    match self with
    | Map sm =>
        let prev := default Null (lookup_key "previous" sm) in
        prev ← (if Roots.t_SelfPrevious (Roots.through roots) then Materialize prev else mret prev);
        mret (Map (put_key "previous" prev sm))
    | _ => mret self
    end
  else mret self.

(** [outputs.<this task>] is the previous output. *)
Definition shadow (i : inst) (self : value) (outs : list (string * value)) : list (string * value) :=
  match self with
  | Map sm =>
      match lookup_key "previous" sm with
      | Some prev => put_key (Task i) prev outs
      | None => outs
      end
  | _ => outs
  end.

Fixpoint env_outputs (roots : Roots.Roots) (outs : list (string * value)) : C (list (string * value)) :=
  match outs with
  | [] => mret []
  | (k, v) :: outs =>
      if is_mark v && negb (Roots.AllOutputs roots)
         && negb (existsb (String.eqb k) (Roots.Outputs roots))
      then env_outputs roots outs
      else
        v ← (if negb (existsb (String.eqb k) (Roots.t_Outputs (Roots.through roots)))
                && negb (Roots.t_AllOutputs (Roots.through roots))
             then mret v else Materialize v);
        rest ← env_outputs roots outs;
        mret ((k, v) :: rest)
  end.

Definition buildEnv (i : inst) (self : value) (roots : Roots.Roots) : C Template.ctxData :=
  let thr := Roots.through roots in
  self' ← self_env self roots;
  input ← include i "input" (Roots.Input roots) (Roots.t_Input thr);
  error ← include_error i "error" (Roots.Error roots) (Roots.t_ErrorData thr);
  last_error ← include_error i "last_error" (Roots.LastError roots) (Roots.t_LastErrorData thr);
  outsVal ← At (State i) [Key "outputs"];
  let outs := shadow i self (match outsVal with Map l => l | _ => [] end) in
  envOuts ← env_outputs roots outs;
  mret [("self", self'); ("config", Map (Config i)); ("input", input); ("error", error);
        ("last_error", last_error); ("outputs", Map envOuts)].

Section Eval.
Context `{Apd} (Lex : string -> option (list Syntax.Token)).

Definition evalShape (i : inst) (sh : Template.Shape) (self : value) : C value :=
  roots ← lift (map_err ShapeFailed (Template.Shape_Roots Lex sh));
  env ← buildEnv i self roots;
  lift (map_err ShapeFailed (Template.Shape_Eval Lex sh env)).

End Eval.

(** [concrete], the boundary a reference must not cross. *)
Definition concrete : value -> C value := Materialize.

(** [resolveRefsInPlace]. *)
Definition maxInlineResolveBytes : Z := 8388608.
Definition resolveRefsInPlace v : C value :=
  let refs := snd (Extract v []) in
  match refs with
  | [] => mret v
  | _ =>
      let total := foldr (fun r n => Size r + n) 0 refs in
      if maxInlineResolveBytes <? total then throw (TooLarge total)
      else Materialize v
  end.

(** [evalEnv]: the environment of what is evaluated without an instance's context. *)
Definition evalEnv (contextData config : list (string * value)) (self : value) : Template.ctxData :=
  let at_ k := default Null (lookup_key k contextData) in
  [("input", at_ "input");
   ("outputs", match lookup_key "outputs" contextData with Some (Map l) => Map l | _ => Map [] end);
   ("self", self); ("error", at_ "error"); ("last_error", at_ "last_error"); ("config", Map config)].

End Context.
End Context.
