(* ===== verification/Resolving.v ===== *)
(** Values with references against the values they stand for, and the reads of [Context]
    against the pure resolution: what a read loads, and that the memo changes nothing. *)
From Stdlib Require Import ZArith Lia Ascii String.
From S2P Require Import Prelude GoStrings Json Paths Numeric Syntax Expr Roots Template Context.
Import Json Paths Numeric Context.
Open Scope string_scope.
Open Scope list_scope.
Open Scope Z_scope.

Module Resolving.

Implicit Types (v w x y : value) (k h : string) (l : list (string * value)) (a : list value).

(** No reference inside. *)
Fixpoint plain v : bool :=
  match v with
  | Mark _ => false
  | Map l => forallb (fun '(_, x) => plain x) l
  | Arr a => forallb plain a
  | _ => true
  end.

(** The hashes a value refers to. *)
Fixpoint hashes v : list string :=
  match v with
  | Mark r => [Ref r]
  | Map l => l ≫= fun '(_, x) => hashes x
  | Arr a => a ≫= hashes
  | _ => []
  end.

Section Resolving.
Context (load : string -> option value).

(** Every reference replaced by its object. *)
Fixpoint resolve v : option value :=
  match v with
  | Mark r => load (Ref r)
  | Map l => l' ← mapM (fun '(k, x) => y ← resolve x; Some (k, y)) l; Some (Map l')
  | Arr a => a' ← mapM resolve a; Some (Arr a')
  | _ => Some v
  end.

Definition resolve_entry (e : string * value) : option (string * value) :=
  let '(k, x) := e in y ← resolve x; Some (k, y).
Definition resolve_map l : option (list (string * value)) := mapM resolve_entry l.

Lemma resolve_Map l : resolve (Map l) = Map <$> resolve_map l.
Proof. done. Qed.
Lemma resolve_Arr a : resolve (Arr a) = Arr <$> mapM resolve a.
Proof. done. Qed.

Lemma resolve_Map_Some l w : resolve (Map l) = Some w <->
  exists l', w = Map l' /\ resolve_map l = Some l'.
Proof. rewrite resolve_Map, fmap_Some. naive_solver. Qed.
Lemma resolve_Arr_Some a w : resolve (Arr a) = Some w <->
  exists a', w = Arr a' /\ Forall2 (fun x y => resolve x = Some y) a a'.
Proof. rewrite resolve_Arr, fmap_Some. setoid_rewrite mapM_Some. naive_solver. Qed.

Lemma resolve_map_cons k x l l' : resolve_map ((k, x) :: l) = Some l' <->
  exists y l1, l' = (k, y) :: l1 /\ resolve x = Some y /\ resolve_map l = Some l1.
Proof.
  unfold resolve_map. cbn. destruct (resolve x) as [y|]; cbn; [|split; [done|by intros (?&?&?&?&?)]].
  destruct (mapM resolve_entry l) as [l1|]; cbn; [|split; [done|by intros (?&?&?&?&?)]].
  unfold mret, option_ret. split; [intros [= <-]; by exists y, l1|by intros (?&?&->&[= ->]&[= ->])].
Qed.

(** * Plain values *)

Lemma plain_map l : plain (Map l) = true <-> Forall (fun e => plain (snd e) = true) l.
Proof.
  cbn. rewrite forallb_forall, Forall_forall. split.
  - intros H [k x] Hin. by apply (H (k, x)), list_elem_of_In.
  - intros H [k x] Hin%list_elem_of_In. by apply (H (k, x)).
Qed.
Lemma plain_arr a : plain (Arr a) = true <-> Forall (fun x => plain x = true) a.
Proof.
  cbn. rewrite forallb_forall, Forall_forall. split; intros H x Hx; apply H; by apply list_elem_of_In.
Qed.

Lemma plain_resolve v : plain v = true -> resolve v = Some v.
Proof.
  induction v as [| | | | |l IH|a IH] using value_ind'; try done.
  - intros Hp%plain_map. rewrite resolve_Map. enough (resolve_map l = Some l) as -> by done.
    induction l as [|[k x] l IHl]; [done|]. apply Forall_cons in IH as [Hx IH]; apply Forall_cons in Hp as [Hpx Hp].
    apply resolve_map_cons. exists x, l. split; [done|]. split; [by apply Hx|by apply IHl].
  - intros Hp%plain_arr. apply resolve_Arr_Some. exists a. split; [done|].
    induction a as [|x a IHa]; constructor; apply Forall_cons in IH as [Hx IH]; apply Forall_cons in Hp as [Hpx Hp]; auto.
Qed.

Lemma plain_lookup k l x : plain (Map l) = true -> lookup_key k l = Some x -> plain x = true.
Proof.
  rewrite plain_map. induction l as [|[k' y] l IH]; [done|]. cbn. intros [Hy Hl]%Forall_cons.
  case_match; [by intros [= <-]|by apply IH].
Qed.
Lemma plain_default k l : plain (Map l) = true -> plain (default Null (lookup_key k l)) = true.
Proof. intros Hp. destruct (lookup_key k l) eqn:E; [by eapply plain_lookup|done]. Qed.
Lemma plain_item i a : plain (Arr a) = true -> plain (default Null (item i a)) = true.
Proof.
  rewrite plain_arr. intros Hp. destruct (item i a) as [x|] eqn:E; [|done].
  apply item_Some in E as [_ E]. by eapply Forall_lookup_1 in E; [|exact Hp].
Qed.
Lemma plain_put k x l : plain x = true -> plain (Map l) = true -> plain (Map (put_key k x l)) = true.
Proof.
  rewrite !plain_map. intros Hx. induction l as [|[k' y] l IH]; cbn; [by constructor|].
  intros [Hy Hl]%Forall_cons. case_match; [by constructor|]. case_match; repeat constructor; auto.
Qed.

(** What a load returns was decoded, and a decoder makes no reference. *)
Definition flat : Prop := forall h v, load h = Some v -> plain v = true.

Lemma resolve_plain v w : flat -> resolve v = Some w -> plain w = true.
Proof.
  intros Hf. revert w. induction v as [| | | |r|l IH|a IH] using value_ind'; intros w.
  1-4: by intros [= <-].
  - cbn. apply Hf.
  - rewrite resolve_Map_Some. intros (l' & -> & Hl). apply plain_map. revert l' Hl.
    induction l as [|[k x] l IHl]; intros l'.
    + intros [= <-]. constructor.
    + rewrite resolve_map_cons. intros (y & l1 & -> & Hx & Hl). apply Forall_cons in IH as [IHx IH].
      constructor; [by apply IHx|by apply IHl].
  - rewrite resolve_Arr_Some. intros (a' & -> & Ha). apply plain_arr.
    induction Ha as [|x y a a' Hxy Ha IHa]; [constructor|]. apply Forall_cons in IH as [IHx IH].
    constructor; [by apply IHx|by apply IHa].
Qed.

(** * Maps under resolution *)

Lemma resolve_lookup l l' k : resolve_map l = Some l' ->
  match lookup_key k l, lookup_key k l' with
  | Some x, Some y => resolve x = Some y
  | None, None => True
  | _, _ => False
  end.
Proof.
  revert l'. induction l as [|[k' x] l IH]; intros l'; [by intros [= <-]|].
  rewrite resolve_map_cons. intros (y & l1 & -> & Hx & Hl). cbn.
  destruct (String.eqb k k'); [done|by apply IH].
Qed.

Lemma resolve_default l l' k : resolve_map l = Some l' ->
  resolve (default Null (lookup_key k l)) = Some (default Null (lookup_key k l')).
Proof. intros Hl. pose proof (resolve_lookup l l' k Hl). by repeat case_match. Qed.

Lemma resolve_put l l' k x y : resolve_map l = Some l' -> resolve x = Some y ->
  resolve_map (put_key k x l) = Some (put_key k y l').
Proof.
  intros Hl Hx. revert l' Hl. induction l as [|[k' z] l IH]; intros l'.
  - intros [= <-]. apply (resolve_map_cons k x []). by exists y, [].
  - rewrite resolve_map_cons. intros (z' & l1 & -> & Hz & Hl). cbn. case_match.
    { apply resolve_map_cons. by exists y, l1. }
    case_match; apply resolve_map_cons.
    + exists y, ((k', z') :: l1). split; [done|]. split; [done|]. apply resolve_map_cons. by exists z', l1.
    + exists z', (put_key k y l1). split; [done|]. split; [done|]. by apply IH.
Qed.

Lemma put_same k x l : sorted_keys l = true -> lookup_key k l = Some x -> put_key k x l = l.
Proof.
  induction l as [|[k' y] l IH]; [done|]. rewrite sorted_cons. intros [Ha Hs]. cbn.
  destruct (String.eqb_spec k k') as [->|Hne]; [by intros [= ->]|]. intros Hl.
  destruct (String.ltb k k') eqn:E; [|by rewrite IH].
  pose proof (after_lookup k' k l x Ha Hl) as Hlt. apply ltb_asym in Hlt. congruence.
Qed.

Lemma resolve_keys l l' : resolve_map l = Some l' -> l'.*1 = l.*1.
Proof.
  revert l'. induction l as [|[k x] l IH]; intros l'; [by intros [= <-]|].
  rewrite resolve_map_cons. intros (y & l1 & -> & _ & Hl). cbn. by rewrite (IH l1 Hl).
Qed.

Lemma sorted_keys_fst l l' : l'.*1 = l.*1 -> sorted_keys l = sorted_keys l'.
Proof.
  revert l'. induction l as [|[k x] l IH]; intros [|[k' x'] l']; try done. cbn. intros [= -> Hl].
  rewrite (IH l' Hl). destruct l as [|[k1 x1] l], l' as [|[k1' x1'] l']; try done. cbn in Hl. by injection Hl as -> _.
Qed.

(** * Reads *)

(** A memo of a loader. *)
Definition sound (m : memo) : Prop := forall h v, m !! h = Some v -> load h = Some v.

(** [c] answers [a] from any sound memo, and adds loads of [hs] to it only. *)
Definition reads {A} (c : C A) (a : A) (hs : list string) : Prop :=
  forall m, sound m -> exists m', c m = (Ok a, m') /\ sound m' /\
    forall h, is_Some (m' !! h) -> is_Some (m !! h) \/ h ∈ hs.

Lemma reads_ret {A} (a : A) : reads (mret a) a [].
Proof. intros m Hm. exists m. naive_solver. Qed.

Lemma reads_bind {A B} (c : C A) (f : A -> C B) (a : A) (b : B) hs hs' :
  reads c a hs -> reads (f a) b hs' -> reads (c ≫= f) b (hs ++ hs').
Proof.
  intros Hc Hf m Hm. destruct (Hc m Hm) as (m1 & E1 & Hm1 & H1).
  destruct (Hf m1 Hm1) as (m2 & E2 & Hm2 & H2). exists m2.
  unfold mbind, C_bind. rewrite E1, E2. split; [done|]. split; [done|]. intros h Hh.
  rewrite elem_of_app. destruct (H2 h Hh) as [Hh1|]; [|tauto]. destruct (H1 h Hh1); tauto.
Qed.

Lemma reads_weaken {A} (c : C A) (a : A) hs hs' : reads c a hs -> hs ⊆ hs' -> reads c a hs'.
Proof.
  intros Hc Hs m Hm. destruct (Hc m Hm) as (m' & E & Hm' & H). exists m'.
  split; [done|]. split; [done|]. intros h Hh. destruct (H h Hh); auto.
Qed.

Lemma reads_bind_nil {A B} (c : C A) (f : A -> C B) (a : A) (b : B) hs :
  reads c a [] -> reads (f a) b hs -> reads (c ≫= f) b hs.
Proof. intros Hc Hf. by apply (reads_bind c f a b [] hs). Qed.

Lemma reads_object r v : load (Ref r) = Some v -> reads (object load r) v [Ref r].
Proof.
  intros Hl m Hm. unfold object. destruct (m !! Ref r) as [w|] eqn:E.
  - exists m. rewrite (Hm _ _ E) in Hl. injection Hl as ->. naive_solver.
  - rewrite Hl. exists (<[Ref r := v]> m). split; [done|]. split.
    + intros h w [[<- <-]|[_ Hw]]%lookup_insert_Some; [done|by apply Hm].
    + intros h [<-|[_ Hh]]%lookup_insert_is_Some; [right; left|by left].
Qed.

Lemma materialize_plain below v : plain v = true -> reads (materialize_with load below v) v [].
Proof.
  induction v as [| | | |r|l IH|a IH] using value_ind'; intros Hp; try done; try apply reads_ret.
  - apply plain_map in Hp. cbn [materialize_with].
    eapply (reads_bind_nil _ _ l); [|apply reads_ret].
    induction l as [|[k x] l IHl]; [apply reads_ret|].
    apply Forall_cons in IH as [Hx IH]; apply Forall_cons in Hp as [Hpx Hp].
    eapply reads_bind_nil; [by apply Hx|]. eapply reads_bind_nil; [by apply IHl|]. apply reads_ret.
  - apply plain_arr in Hp. cbn [materialize_with].
    eapply (reads_bind_nil _ _ a); [|apply reads_ret].
    induction a as [|x a IHa]; [apply reads_ret|].
    apply Forall_cons in IH as [Hx IH]; apply Forall_cons in Hp as [Hpx Hp].
    eapply reads_bind_nil; [by apply Hx|]. eapply reads_bind_nil; [by apply IHa|]. apply reads_ret.
Qed.

(** [Materialize] answers the resolution and loads what the value refers to; one level of
    loads is all there is. *)
Lemma materialize_spec n v w : flat -> resolve v = Some w ->
  reads (Materialize_n load (S n) v) w (hashes v).
Proof.
  intros Hf. cbn [Materialize_n]. set (below := fun _ : ObjectRef => Materialize_n load n).
  revert w. induction v as [| | | |r|l IH|a IH] using value_ind'; intros w.
  1-4: intros [= <-]; apply reads_ret.
  - cbn. intros Hl. eapply reads_weaken; [eapply reads_bind; [by apply reads_object|]|]; cycle 1.
    { rewrite app_nil_r. reflexivity. }
    unfold below. destruct n; cbn [Materialize_n]; by apply materialize_plain, (Hf _ _ Hl).
  - rewrite resolve_Map_Some. intros (l' & -> & Hl). cbn [materialize_with].
    eapply reads_weaken; [eapply (reads_bind _ _ l' _ (hashes (Map l)) []); [|apply reads_ret]|by rewrite app_nil_r].
    revert l' Hl. induction l as [|[k x] l IHl]; intros l'; [intros [= <-]; apply reads_ret|].
    rewrite resolve_map_cons. intros (y & l1 & -> & Hx & Hl). apply Forall_cons in IH as [IHx IH].
    cbn [hashes mbind list_bind]. eapply reads_bind; [by apply IHx|].
    eapply reads_weaken; [eapply reads_bind; [by apply IHl|apply reads_ret]|by rewrite app_nil_r].
  - rewrite resolve_Arr_Some. intros (a' & -> & Ha). cbn [materialize_with].
    eapply reads_weaken; [eapply (reads_bind _ _ a' _ (hashes (Arr a)) []); [|apply reads_ret]|by rewrite app_nil_r].
    induction Ha as [|x y a a' Hxy Ha IHa]; [apply reads_ret|]. apply Forall_cons in IH as [IHx IH].
    cbn [hashes mbind list_bind]. eapply reads_bind; [by apply IHx|].
    eapply reads_weaken; [eapply reads_bind; [by apply IHa|apply reads_ret]|by rewrite app_nil_r].
Qed.

End Resolving.
End Resolving.
