(* ===== verification/Lazy.v ===== *)
(** The reference analysis against the evaluator: an expression evaluated over an
    environment in which only the roots it reads into are resolved gives what it gives over
    one in which everything is.

    [tame] is what the analysis needs of an expression: no literal that reads a root stands
    where it is navigated into or operated on, and [self] stands there only with a field.
    What happens without it is computed at the end. *)
From Stdlib Require Import ZArith Lia Ascii String.
From S2P Require Import Prelude GoStrings Json Paths Numeric Syntax Expr Roots Template Context Resolving.
Import Json Paths Numeric Expr Resolving.
Open Scope string_scope.
Open Scope list_scope.
Open Scope Z_scope.

Module Lazy.

Implicit Types (v w x y : value) (k name : string) (l : list (string * value)) (bound : list string).

(** * Expressions the analysis is right about *)

(** Reads no root but the configuration. *)
Fixpoint closed (n : Node) bound : bool :=
  match n with
  | IntNode _ | FloatNode _ | StringNode _ | BoolNode _ | NullNode => true
  | IdentNode name => Roots.is_bound bound name || String.eqb name "config"
  | MemberNode b _ | IndexNode b _ | UnaryNode _ b => closed b bound
  | KeyNode b k => closed b bound && closed k bound
  | ArrayNode items => forallb (fun i => closed i bound) items
  | ObjectNode fields => forallb (fun '(_, i) => closed i bound) fields
  | CallNode _ args => forallb (fun i => closed i bound) args
  | LambdaNode x i b => closed b (Roots.bindParams bound x i)
  | BinaryNode _ l r => closed l bound && closed r bound
  | CondNode c t f => closed c bound && closed t bound && closed f bound
  end.

Definition is_ident (n : Node) : bool := match n with IdentNode _ => true | _ => false end.

Fixpoint tame (n : Node) bound (thr : bool) : bool :=
  match n with
  | IntNode _ | FloatNode _ | StringNode _ | BoolNode _ | NullNode => true
  | IdentNode name => Roots.is_bound bound name || negb (String.eqb name "self" && thr)
  | MemberNode b _ => is_ident b || tame b bound true
  | IndexNode b _ | UnaryNode _ b => tame b bound true
  | KeyNode b k => tame b bound true && tame k bound true
  | ArrayNode items =>
      forallb (fun i => tame i bound false) items && (negb thr || closed n bound)
  | ObjectNode fields =>
      forallb (fun '(_, i) => tame i bound false) fields && (negb thr || closed n bound)
  | CallNode _ args => forallb (fun i => tame i bound true) args
  | LambdaNode x i b => tame b (Roots.bindParams bound x i) thr
  | BinaryNode _ l r => tame l bound true && tame r bound true
  | CondNode c t f => tame c bound true && tame t bound thr && tame f bound thr
  end.

Section Lazy.
Context `{Apd} (load : string -> option value) (Hflat : flat load).

Definition stands v w : Prop := resolve load v = Some w.

Lemma stands_plain v w : stands v w -> plain w = true.
Proof. by apply resolve_plain. Qed.
Lemma plain_stands w : plain w = true -> stands w w.
Proof. by apply plain_resolve. Qed.

(** [v] as read stands for [w]; where it is read into it is [w]. *)
Definition seen (thr : bool) v w : Prop := stands v w /\ (thr = true -> v = w).

Lemma seen_plain thr w : plain w = true -> seen thr w w.
Proof. split; [by apply plain_stands|done]. Qed.
Lemma seen_weaken thr v w : seen true v w -> seen thr v w.
Proof. intros [Hs He]. split; [done|]. intros _. by apply He. Qed.

(** A computation over the lazy environment and one over the full one. *)
Definition simulates (thr : bool) (r' r : result failure value) : Prop :=
  match r with
  | Ok w => exists v, r' = Ok v /\ seen thr v w
  | Err e => r' = Err e
  end.

Lemma simulates_refl thr r : (forall w, r = Ok w -> plain w = true) -> simulates thr r r.
Proof. destruct r as [w|e]; cbn; [|done]. intros Hp. exists w. split; [done|]. by apply seen_plain, Hp. Qed.

Lemma simulates_ok thr v w : seen thr v w -> simulates thr (Ok v) (Ok w).
Proof. intros Hs. by exists v. Qed.

Lemma simulates_bind thr r' r f g :
  simulates true r' r -> (forall w, r = Ok w -> plain w = true -> simulates thr (f w) (g w)) ->
  simulates thr (r' ≫= f) (r ≫= g).
Proof.
  destruct r as [w|e]; cbn; [|by intros ->]. intros (v & -> & [Hs He]) Hf.
  rewrite (He eq_refl). cbn. apply Hf; [done|]. by eapply stands_plain.
Qed.

(** * What an operation does to plain values *)

Definition keeps_plain (r : result failure value) : Prop := forall w, r = Ok w -> plain w = true.

Lemma decimalResult_plain d : keeps_plain (decimalResult d).
Proof. intros w. unfold decimalResult. repeat case_match; by intros [= <-]. Qed.
Lemma decBinOp_plain op fn x y : keeps_plain (decBinOp op fn x y).
Proof. intros w. unfold decBinOp. repeat case_match; try done. apply decimalResult_plain. Qed.
Lemma bool_plain (b : bool) : keeps_plain (Ok (Bool b)).
Proof. by intros w [= <-]. Qed.

Lemma binaryOps_plain op f x y : binaryOps op = Some f -> keeps_plain (f x y).
Proof.
  unfold binaryOps.
  repeat match goal with |- context [String.eqb op ?s] => destruct (String.eqb op s) end;
    try done; intros [= <-] w.
  1,2: destruct (equalValues x y); cbn; [by intros [= <-]|done].
  1-4: unfold numCmp; case_match; [case_match; by intros [= <-]|done].
  - unfold evalAdd. case_match; [case_match; by intros [= <-]|apply decBinOp_plain].
  - apply decBinOp_plain.
  - apply decBinOp_plain.
  - unfold evalDiv. repeat case_match; try done. apply decimalResult_plain.
  - unfold evalMod. repeat case_match; try done. apply decimalResult_plain.
Qed.

Lemma unaryOps_plain op f x : unaryOps op = Some f -> plain x = true -> keeps_plain (f x).
Proof.
  unfold unaryOps.
  repeat match goal with |- context [String.eqb op ?s] => destruct (String.eqb op s) end;
    try done; intros [= <-] Hp w.
  - unfold evalNot. case_match; try done. by intros [= <-].
  - unfold negateNum. case_match; [|done]. apply decimalResult_plain.
  - unfold requireNum. case_match; [|done]. by intros [= <-].
Qed.

Lemma member_plain x name : plain x = true -> keeps_plain (evalMember x name).
Proof.
  intros Hp w. unfold evalMember. destruct x; cbn; try (by intros [= <-]); try done.
  intros [= <-]. by apply plain_default.
Qed.
Lemma index_plain x i : plain x = true -> keeps_plain (evalIndex x i).
Proof.
  intros Hp w. unfold evalIndex. destruct x; cbn; try (by intros [= <-]); try done.
  intros [= <-]. by apply plain_item.
Qed.
Lemma readKey_plain x (k : value) : plain x = true -> keeps_plain (readKey x k).
Proof.
  intros Hp w. unfold readKey. destruct x; try (by intros [= <-]).
  - destruct k; try done. intros [= <-]. by apply plain_default.
  - repeat case_match; try done; intros [= <-]; [|done]. by apply plain_item.
Qed.
Lemma checkResolved_plain x what : plain x = true -> checkResolved x what = Ok tt.
Proof. by destruct x. Qed.

(** * Environments *)

(** Parameters hold plain values, the same on both sides. *)
Record scoped bound (e' e : env) : Prop := {
  sc_vars : vars e' = vars e;
  sc_plain : plain (Map (vars e)) = true;
  sc_bound : forall k, Roots.is_bound bound k = true <-> is_Some (lookup_key k (vars e)) }.

Lemma lookup_put_key k k' x l : lookup_key k (put_key k' x l) =
  if String.eqb k k' then Some x else lookup_key k l.
Proof.
  induction l as [|[k1 y] l IH]; cbn; [done|].
  destruct (String.eqb_spec k' k1) as [->|Hne]; cbn.
  { by destruct (String.eqb k k1). }
  destruct (String.ltb k' k1); cbn; [done|]. rewrite IH.
  destruct (String.eqb_spec k k1) as [->|]; [|done].
  destruct (String.eqb_spec k1 k'); congruence.
Qed.

Lemma is_bound_bind bound (x i : string) k : Roots.is_bound (Roots.bindParams bound x i) k =
  String.eqb k x || (negb (String.eqb i "") && String.eqb k i) || Roots.is_bound bound k.
Proof.
  unfold Roots.bindParams, Roots.is_bound. destruct (String.eqb i ""); cbn; [by rewrite orb_false_r|].
  destruct (String.eqb k x), (String.eqb k i); done.
Qed.

Lemma scoped_bind bound e' e (x i : string) item n : scoped bound e' e -> plain item = true ->
  scoped (Roots.bindParams bound x i) (bind e' x i item n) (bind e x i item n).
Proof.
  intros [Hv Hp Hb] Hi. unfold bind. split; cbn.
  - by rewrite Hv.
  - destruct (String.eqb i ""); repeat apply plain_put; done.
  - intros k. rewrite is_bound_bind. destruct (String.eqb_spec i "") as [->|Hi'].
    + cbn. rewrite orb_false_r, lookup_put_key.
      destruct (String.eqb k x); cbn; [by split; eauto|apply Hb].
    + cbn. rewrite !lookup_put_key. destruct (String.eqb k i), (String.eqb k x); cbn;
        try (by split; eauto); apply Hb.
Qed.

Lemma lookup_bound bound e' e k : scoped bound e' e -> Roots.is_bound bound k = true ->
  exists v, lookup e' k = Some v /\ lookup e k = Some v /\ plain v = true.
Proof.
  intros [Hv Hp Hb] [v E]%Hb. exists v. unfold lookup. rewrite Hv, E. split; [done|]. split; [done|].
  by eapply plain_lookup.
Qed.
Lemma lookup_free bound e' e k : scoped bound e' e -> Roots.is_bound bound k = false ->
  lookup e' k = lookup_key k (ctx e') /\ lookup e k = lookup_key k (ctx e).
Proof.
  intros [Hv Hp Hb] Hf. unfold lookup. rewrite Hv.
  destruct (lookup_key k (vars e)) eqn:E; [|done].
  by rewrite (proj2 (Hb k)) in Hf by eauto.
Qed.

(** Null on both sides, or maps of which the fields [P] names are read into. *)
Definition opened (P : string -> bool) v w : Prop :=
  v = Null /\ w = Null \/
  exists l l', v = Map l /\ w = Map l' /\ resolve_map load l = Some l' /\
    forall k, P k = true -> default Null (lookup_key k l) = default Null (lookup_key k l').

Lemma opened_stands P v w : opened P v w -> stands v w.
Proof.
  intros [[-> ->]|(l & l' & -> & -> & Hl & _)]; [done|]. unfold stands. by rewrite resolve_Map, Hl.
Qed.

Lemma opened_weaken P Q v w : (forall k, Q k = true -> P k = true) -> opened P v w -> opened Q v w.
Proof. intros HPQ [?|(l & l' & ? & ? & ? & HP)]; [by left|right]. exists l, l'. eauto 6. Qed.

Lemma opened_member P v w k : opened P v w ->
  simulates (P k) (evalMember v k) (evalMember w k).
Proof.
  intros Ho. pose proof (opened_stands _ _ _ Ho) as Hs.
  destruct Ho as [[-> ->]|(l & l' & -> & -> & Hl & HP)]; [by apply simulates_ok, seen_plain|].
  apply simulates_ok. split; [by apply (resolve_default load)|apply HP].
Qed.

Definition names : list string := ["self"; "input"; "error"; "last_error"; "outputs"].

Definition at_both (e' e : Template.ctxData) k (Q : value -> value -> Prop) : Prop :=
  exists v w, lookup_key k e' = Some v /\ lookup_key k e = Some w /\ Q v w.

Lemma at_both_impl e' e k (Q Q' : value -> value -> Prop) :
  at_both e' e k Q -> (forall v w, Q v w -> Q' v w) -> at_both e' e k Q'.
Proof. intros (v & w & ? & ? & ?) HQ. exists v, w. eauto. Qed.

(** The fields of an error namespace, and of self, that hold no reference. *)
Definition error_field (data : bool) k : bool := data || negb (String.eqb k "data").
Definition self_field (previous : bool) k : bool := previous || negb (String.eqb k "previous").

(** [e'] has of [e] what [r] names, as [r] wants it. *)
Record supports (r : Roots.Roots) (e' e : Template.ctxData) : Prop := {
  sup_other : forall k, k ∉ names -> lookup_key k e' = lookup_key k e /\
    plain (default Null (lookup_key k e)) = true;
  sup_self : at_both e' e "self" (opened (self_field (Roots.t_SelfPrevious (Roots.through r))));
  sup_input : Roots.Input r = true ->
    at_both e' e "input" (seen (Roots.t_Input (Roots.through r)));
  sup_error : Roots.Error r = true ->
    at_both e' e "error" (fun v w =>
      opened (error_field (Roots.t_ErrorData (Roots.through r))) v w /\
      (Roots.t_ErrorData (Roots.through r) = true -> v = w));
  sup_last_error : Roots.LastError r = true ->
    at_both e' e "last_error" (fun v w =>
      opened (error_field (Roots.t_LastErrorData (Roots.through r))) v w /\
      (Roots.t_LastErrorData (Roots.through r) = true -> v = w));
  sup_output : forall id, id ∈ Roots.Outputs r ->
    at_both e' e "outputs" (fun v w => exists l l', v = Map l /\ w = Map l' /\
      seen (bool_decide (id ∈ Roots.t_Outputs (Roots.through r)))
        (default Null (lookup_key id l)) (default Null (lookup_key id l')));
  sup_outputs : Roots.AllOutputs r = true ->
    at_both e' e "outputs" (seen (Roots.t_AllOutputs (Roots.through r))) }.

Lemma seen_mono (a b : bool) v w : (b = true -> a = true) -> seen a v w -> seen b v w.
Proof. intros Hab [Hs He]. split; [done|auto]. Qed.

(** Fewer roots ask for less. *)
Record le (r s : Roots.Roots) : Prop := {
  le_input : Roots.Input r = true -> Roots.Input s = true;
  le_error : Roots.Error r = true -> Roots.Error s = true;
  le_last_error : Roots.LastError r = true -> Roots.LastError s = true;
  le_output : Roots.Outputs r ⊆ Roots.Outputs s;
  le_outputs : Roots.AllOutputs r = true -> Roots.AllOutputs s = true;
  le_t_input : Roots.t_Input (Roots.through r) = true -> Roots.t_Input (Roots.through s) = true;
  le_t_error : Roots.t_ErrorData (Roots.through r) = true -> Roots.t_ErrorData (Roots.through s) = true;
  le_t_last_error : Roots.t_LastErrorData (Roots.through r) = true ->
    Roots.t_LastErrorData (Roots.through s) = true;
  le_t_output : Roots.t_Outputs (Roots.through r) ⊆ Roots.t_Outputs (Roots.through s);
  le_t_outputs : Roots.t_AllOutputs (Roots.through r) = true -> Roots.t_AllOutputs (Roots.through s) = true;
  le_t_previous : Roots.t_SelfPrevious (Roots.through r) = true ->
    Roots.t_SelfPrevious (Roots.through s) = true }.

Lemma supports_le r s e' e : le r s -> supports s e' e -> supports r e' e.
Proof.
  intros [] [H1 H2 H3 H4 H5 H6 H7]. split; [exact H1| | | | | |].
  - eapply at_both_impl; [exact H2|]. intros v w. apply opened_weaken. intros k.
    unfold self_field. rewrite !orb_true_iff. intuition.
  - intros Hr. eapply at_both_impl; [by apply H3; auto|]. intros v w. by apply seen_mono.
  - intros Hr. eapply at_both_impl; [by apply H4; auto|]. intros v w [Ho He]. split; [|by auto].
    eapply opened_weaken; [|exact Ho]. intros k. unfold error_field. rewrite !orb_true_iff. intuition.
  - intros Hr. eapply at_both_impl; [by apply H5; auto|]. intros v w [Ho He]. split; [|by auto].
    eapply opened_weaken; [|exact Ho]. intros k. unfold error_field. rewrite !orb_true_iff. intuition.
  - intros id Hid. eapply at_both_impl; [by apply (H6 id); auto|].
    intros v w (l & l' & -> & -> & Hs). exists l, l'. split; [done|]. split; [done|].
    eapply seen_mono; [|exact Hs]. rewrite !bool_decide_eq_true. set_solver.
  - intros Hr. eapply at_both_impl; [by apply H7; auto|]. intros v w. by apply seen_mono.
Qed.

Lemma le_union_l r s : le r (Roots.Union r s).
Proof. split; cbn; try (by intros ->); set_solver. Qed.
Lemma le_union_r r s : le s (Roots.Union r s).
Proof. split; cbn; try (intros ->; apply orb_true_r); set_solver. Qed.

Lemma supports_union r s e' e : supports (Roots.Union r s) e' e -> supports r e' e /\ supports s e' e.
Proof. intros Hs. split; eapply supports_le; [apply le_union_l|done|apply le_union_r|done]. Qed.

(** * The walk, node by node *)

Lemma simulates_weaken thr r' r : simulates true r' r -> simulates thr r' r.
Proof.
  destruct r as [w|e]; cbn; [|done]. intros (v & -> & Hs). exists v. split; [done|].
  by apply seen_weaken.
Qed.

(** A root that is read as itself. *)
Lemma ident_at thr E' E k (Q : value -> value -> Prop) bound :
  scoped bound E' E -> Roots.is_bound bound k = false -> at_both (ctx E') (ctx E) k Q ->
  (forall v w, Q v w -> seen thr v w) ->
  simulates thr (evalNode (IdentNode k) E') (evalNode (IdentNode k) E).
Proof.
  intros Hsc Hb (v & w & Hv & Hw & HQ) Hseen. destruct (lookup_free _ _ _ _ Hsc Hb) as [E1 E2].
  cbn. rewrite E1, E2, Hv, Hw. by apply simulates_ok, Hseen.
Qed.

Lemma ident_bound thr E' E k bound : scoped bound E' E -> Roots.is_bound bound k = true ->
  simulates thr (evalNode (IdentNode k) E') (evalNode (IdentNode k) E).
Proof.
  intros Hsc Hb. destruct (lookup_bound _ _ _ _ Hsc Hb) as (v & E1 & E2 & Hp).
  cbn. rewrite E1, E2. by apply simulates_ok, seen_plain.
Qed.

Lemma ident_other thr E' E r k bound : scoped bound E' E -> Roots.is_bound bound k = false ->
  supports r (ctx E') (ctx E) -> k ∉ names ->
  simulates thr (evalNode (IdentNode k) E') (evalNode (IdentNode k) E).
Proof.
  intros Hsc Hb Hsup Hk. destruct (lookup_free _ _ _ _ Hsc Hb) as [E1 E2].
  destruct (sup_other _ _ _ Hsup k Hk) as [E3 Hp]. cbn. rewrite E1, E2, E3.
  destruct (lookup_key k (ctx E)); [|done]. by apply simulates_ok, seen_plain.
Qed.

Lemma ident_ok thr E' E k bound : scoped bound E' E ->
  supports (Roots.ident_roots bound k thr) (ctx E') (ctx E) ->
  Roots.is_bound bound k || negb (String.eqb k "self" && thr) = true ->
  simulates thr (evalNode (IdentNode k) E') (evalNode (IdentNode k) E).
Proof.
  intros Hsc Hsup Ht. destruct (Roots.is_bound bound k) eqn:Hb; [by eapply ident_bound|].
  unfold Roots.ident_roots in Hsup. rewrite Hb in Hsup.
  destruct (String.eqb_spec k "input") as [->|H1].
  { eapply ident_at; [done|done|by apply (sup_input _ _ _ Hsup)|done]. }
  destruct (String.eqb_spec k "error") as [->|H2].
  { eapply ident_at; [done|done|by apply (sup_error _ _ _ Hsup)|].
    intros v w [Ho He]. split; [by eapply opened_stands|exact He]. }
  destruct (String.eqb_spec k "last_error") as [->|H3].
  { eapply ident_at; [done|done|by apply (sup_last_error _ _ _ Hsup)|].
    intros v w [Ho He]. split; [by eapply opened_stands|exact He]. }
  destruct (String.eqb_spec k "outputs") as [->|H4].
  { eapply ident_at; [done|done|by apply (sup_outputs _ _ _ Hsup)|done]. }
  destruct (String.eqb_spec k "self") as [->|H5].
  { destruct thr; [done|]. eapply ident_at; [done|done|by apply (sup_self _ _ _ Hsup)|].
    intros v w Ho. split; [by eapply opened_stands|done]. }
  eapply ident_other; [done|done|exact Hsup|]. unfold names. set_solver.
Qed.

(** A field of a root, where the analysis looks at root and field together. *)
Lemma field_at thr E' E b k P bound : scoped bound E' E -> Roots.is_bound bound b = false ->
  at_both (ctx E') (ctx E) b (opened P) -> (thr = true -> P k = true) ->
  simulates thr (evalNode (MemberNode (IdentNode b) k) E') (evalNode (MemberNode (IdentNode b) k) E).
Proof.
  intros Hsc Hb (v & w & Hv & Hw & Ho) HP. destruct (lookup_free _ _ _ _ Hsc Hb) as [E1 E2].
  cbn [evalNode]. rewrite E1, E2, Hv, Hw. cbn.
  pose proof (opened_member P v w k Ho) as Hs. destruct (evalMember w k) as [y|x]; [|exact Hs].
  destruct Hs as (y' & -> & Hs). apply simulates_ok. by eapply seen_mono.
Qed.

Lemma output_at thr E' E k bound :
  scoped bound E' E -> Roots.is_bound bound "outputs" = false ->
  supports (Roots.read_output k thr) (ctx E') (ctx E) ->
  simulates thr (evalNode (MemberNode (IdentNode "outputs") k) E')
                (evalNode (MemberNode (IdentNode "outputs") k) E).
Proof.
  intros Hsc Hb Hsup. destruct (lookup_free _ _ _ _ Hsc Hb) as [E1 E2].
  destruct (sup_output _ _ _ Hsup k ltac:(by left)) as (v & w & Hv & Hw & l & l' & -> & -> & Hs).
  cbn [evalNode]. rewrite E1, E2, Hv, Hw. apply simulates_ok. eapply seen_mono; [|exact Hs].
  intros ->. cbn. apply bool_decide_eq_true. by left.
Qed.

Lemma isSelfField_ident bound b k field : Roots.isSelfField bound (IdentNode b) k field = true ->
  b = "self" /\ Roots.is_bound bound "self" = false /\ k = field.
Proof.
  unfold Roots.isSelfField. intros [[Hb Hs]%andb_prop Hk]%andb_prop.
  apply String.eqb_eq in Hb, Hk. by apply negb_true_iff in Hs.
Qed.

(** A field of an identifier, whatever the analysis made of it. *)
Lemma member_ident_ok thr E' E b k bound : scoped bound E' E ->
  supports (Roots.collectRoots (MemberNode (IdentNode b) k) bound thr) (ctx E') (ctx E) ->
  simulates thr (evalNode (MemberNode (IdentNode b) k) E') (evalNode (MemberNode (IdentNode b) k) E).
Proof.
  intros Hsc. cbn [Roots.collectRoots]. unfold Roots.member_roots.
  destruct (String.eqb (Roots.outputRefID bound (IdentNode b) k) "") eqn:Hid; cbn [negb]; cycle 1.
  { unfold Roots.outputRefID in *. destruct (String.eqb_spec b "outputs") as [->|]; [|done]. cbn in *.
    destruct (Roots.is_bound bound "outputs") eqn:Hb; [done|]. intros Hsup. by eapply output_at. }
  destruct (Roots.isSelfField bound (IdentNode b) k "previous") eqn:Hp.
  { intros Hsup. apply isSelfField_ident in Hp as (-> & Hb & ->).
    eapply field_at; [done|done|exact (sup_self _ _ _ Hsup)|]. cbn. by intros ->. }
  destruct (Roots.isSelfField bound (IdentNode b) k "result") eqn:Hr.
  { intros Hsup. apply isSelfField_ident in Hr as (-> & Hb & ->).
    by eapply field_at; [done|done|exact (sup_self _ _ _ Hsup)|]. }
  destruct (Roots.isSelfField bound (IdentNode b) k "output") eqn:Hu.
  { intros Hsup. apply isSelfField_ident in Hu as (-> & Hb & ->).
    by eapply field_at; [done|done|exact (sup_self _ _ _ Hsup)|]. }
  destruct (Roots.is_bound bound b) eqn:Hb.
  { intros _. destruct (lookup_bound _ _ _ _ Hsc Hb) as (v & E1 & E2 & Hpl). cbn [evalNode].
    rewrite E1, E2. apply simulates_refl. by apply member_plain. }
  destruct (String.eqb_spec b "error") as [->|He].
  { intros Hsup. eapply field_at; [done|done|eapply at_both_impl; [by apply (sup_error _ _ _ Hsup)|by intros v w [Ho _]]|].
    cbn. unfold error_field. intros ->. rewrite andb_true_r. by destruct (String.eqb k "data"). }
  destruct (String.eqb_spec b "last_error") as [->|Hl].
  { intros Hsup. eapply field_at; [done|done|eapply at_both_impl; [by apply (sup_last_error _ _ _ Hsup)|by intros v w [Ho _]]|].
    cbn. unfold error_field. intros ->. rewrite andb_true_r. by destruct (String.eqb k "data"). }
  cbn [Roots.collectRoots]. intros Hsup. destruct (String.eqb_spec b "self") as [->|Hs].
  { eapply field_at; [done|done|exact (sup_self _ _ _ Hsup)|]. intros _. unfold self_field.
    unfold Roots.isSelfField in Hp. rewrite Hb, String.eqb_refl in Hp. cbn [negb andb] in Hp.
    rewrite Hp. apply orb_true_r. }
  assert (Hi : simulates true (evalNode (IdentNode b) E') (evalNode (IdentNode b) E)).
  { eapply ident_ok; [done|done|]. rewrite Hb. by destruct (String.eqb_spec b "self"). }
  cbn [evalNode] in *. eapply simulates_bind; [exact Hi|]. intros w _ Hw.
  by apply simulates_refl, member_plain.
Qed.

(** * The loops of the walk *)

Definition eval_items (E : env) : list Node -> result failure (list value) :=
  fix go items := match items with
  | [] => Ok []
  | i :: items => v ← evalNode i E; vs ← go items; Ok (v :: vs)
  end.
Definition eval_fields (E : env) :
    list (string * Node) -> list (string * value) -> result failure (list (string * value)) :=
  fix go fields out := match fields with
  | [] => Ok out
  | (key, i) :: fields =>
      v ← map_err (AtKey key) (evalNode i E);
      go fields (put_key key v out)
  end.
Definition eval_body (E : env) (p q : string) (body : Node) :
    Z -> list value -> result failure (list value) :=
  fix go i items := match items with
  | [] => Ok []
  | x :: items =>
      v ← evalNode body (bind E p q x i);
      vs ← go (i + 1) items;
      Ok (v :: vs)
  end.

Lemma eval_Array items E : evalNode (ArrayNode items) E = (out ← eval_items E items; Ok (Arr out)).
Proof. done. Qed.
Lemma eval_Object fields E : evalNode (ObjectNode fields) E = (out ← eval_fields E fields []; Ok (Map out)).
Proof. done. Qed.

(** The rest of a call, once its source is a value. *)
Definition run_call (E : env) (rest : list Node) (src : value) : result failure value :=
  match src with
  | Null => Err NullSource
  | Arr items =>
      match rest with
      | LambdaNode p q body :: _ => out ← eval_body E p q body 0 items; Ok (Arr out)
      | _ :: _ => Err (Unsupported "map expects a lambda")
      | [] => Err Panicked
      end
  | _ => Err SourceNotArray
  end.
Lemma eval_Call name s rest E : evalNode (CallNode name (s :: rest)) E =
  if negb (String.eqb name "map") then Err (Unsupported ("function " +:+ name))
  else src ← evalNode s E; _ ← checkResolved src ("function " +:+ name); run_call E rest src.
Proof. done. Qed.

Definition same_plain (r' r : result failure value) : Prop := r' = r /\ keeps_plain r.

Lemma same_plain_bind r' r f g : same_plain r' r ->
  (forall w, plain w = true -> same_plain (f w) (g w)) -> same_plain (r' ≫= f) (r ≫= g).
Proof.
  intros [-> Hp] Hf. destruct r as [w|e]; cbn; [by apply Hf, Hp|]. by split.
Qed.
Lemma same_plain_refl r : keeps_plain r -> same_plain r r.
Proof. done. Qed.

Lemma same_items E' E items :
  Forall (fun i => same_plain (evalNode i E') (evalNode i E)) items ->
  eval_items E' items = eval_items E items /\
  forall ws, eval_items E items = Ok ws -> plain (Arr ws) = true.
Proof.
  induction 1 as [|i items [He Hp] _ [IH1 IH2]]; cbn; [split; [done|by intros ws [= <-]]|].
  rewrite He, IH1. split; [done|]. intros ws.
  destruct (evalNode i E) as [w|]; cbn; [|done]. destruct (eval_items E items) as [l|]; cbn; [|done].
  intros [= <-]. cbn. rewrite (Hp w eq_refl). by apply (IH2 l).
Qed.

Lemma same_fields E' E fields : forall out,
  Forall (fun e => same_plain (evalNode (snd e) E') (evalNode (snd e) E)) fields ->
  plain (Map out) = true ->
  eval_fields E' fields out = eval_fields E fields out /\
  forall l, eval_fields E fields out = Ok l -> plain (Map l) = true.
Proof.
  induction fields as [|[k i] fields IH]; intros out; cbn [eval_fields].
  - intros _ Hp. split; [done|by intros l [= <-]].
  - intros [[He Hp] Hf]%Forall_cons Ho. cbn [snd] in *. rewrite He.
    destruct (evalNode i E) as [w|]; cbn; [|by split]. apply IH; [done|]. apply plain_put; [by apply Hp|done].
Qed.

Lemma same_body E' E p q body :
  (forall x i, plain x = true ->
     same_plain (evalNode body (bind E' p q x i)) (evalNode body (bind E p q x i))) ->
  forall items i, plain (Arr items) = true ->
  eval_body E' p q body i items = eval_body E p q body i items /\
  forall ws, eval_body E p q body i items = Ok ws -> plain (Arr ws) = true.
Proof.
  intros Hb. induction items as [|x items IH]; intros i; cbn [eval_body].
  - intros _. split; [done|by intros ws [= <-]].
  - intros [Hx Hi]%plain_arr%Forall_cons. apply plain_arr in Hi.
    destruct (Hb x i Hx) as [-> Hp]. destruct (IH (i + 1) Hi) as [-> Hq]. split; [done|]. intros ws.
    destruct (evalNode body (bind E p q x i)) as [w|]; cbn; [|done].
    destruct (eval_body E p q body (i + 1) items) as [l|]; cbn; [|done].
    intros [= <-]. cbn. rewrite (Hp w eq_refl). by apply (Hq l).
Qed.

Lemma same_run_call E' E rest src : plain src = true ->
  (forall p q body tl, rest = LambdaNode p q body :: tl -> forall x i, plain x = true ->
     same_plain (evalNode body (bind E' p q x i)) (evalNode body (bind E p q x i))) ->
  same_plain (run_call E' rest src) (run_call E rest src).
Proof.
  intros Hp Hb. unfold run_call. destruct src as [| | | | | |items]; try done.
  destruct rest as [|[] rest]; try done.
  destruct (same_body E' E _ _ _ (Hb _ _ _ _ eq_refl) items 0 Hp) as [-> Hq]. split; [done|].
  intros w. destruct (eval_body _ _ _ _ _ _) as [l|]; cbn; [|done]. intros [= <-]. by apply Hq.
Qed.

(** * A literal that reads no root *)

Definition same_config (E' E : env) : Prop :=
  lookup_key "config" (ctx E') = lookup_key "config" (ctx E) /\
  plain (default Null (lookup_key "config" (ctx E))) = true.

Lemma closed_same n : forall bound E' E, closed n bound = true -> scoped bound E' E ->
  same_config E' E -> same_plain (evalNode n E') (evalNode n E).
Proof.
  induction n as [s|s|s|b| |k|b k IH|b i IH|b k IHb IHk|l IH|l IH|p q b IH|f l IH|o b IH|o l r IHl IHr|c t f IHc IHt IHf]
    using Node_ind'; intros bound E' E Hc Hsc Hcfg; cbn [closed] in Hc; try (split; [done|by intros w [= <-]]).
  - split; [|intros w; cbn].
    + destruct (Roots.is_bound bound k) eqn:Hb.
      { destruct (lookup_bound _ _ _ _ Hsc Hb) as (v & E1 & E2 & _). cbn. by rewrite E1, E2. }
      apply String.eqb_eq in Hc as ->. destruct (lookup_free _ _ _ _ Hsc Hb) as [E1 E2]. cbn.
      by rewrite E1, E2, (proj1 Hcfg).
    + destruct (Roots.is_bound bound k) eqn:Hb.
      { destruct (lookup_bound _ _ _ _ Hsc Hb) as (v & E1 & E2 & Hp). rewrite E2. by intros [= <-]. }
      apply String.eqb_eq in Hc as ->. destruct (lookup_free _ _ _ _ Hsc Hb) as [E1 E2]. rewrite E2.
      destruct Hcfg as [_ Hp]. case_match; [|done]. by intros [= <-].
  - eapply same_plain_bind; [by eapply IH|]. intros w Hw. by apply same_plain_refl, member_plain.
  - eapply same_plain_bind; [by eapply IH|]. intros w Hw. by apply same_plain_refl, index_plain.
  - apply andb_prop in Hc as [Hc1 Hc2]. eapply same_plain_bind; [by eapply IHb|]. intros w Hw.
    assert (Hrest : same_plain
      (_ ← checkResolved w "key access"; key ← evalNode k E'; readKey w key)
      (_ ← checkResolved w "key access"; key ← evalNode k E; readKey w key)).
    { rewrite checkResolved_plain by done. cbn. eapply same_plain_bind; [by eapply IHk|].
      intros y _. by apply same_plain_refl, readKey_plain. }
    destruct w; try exact Hrest. by split; [|intros y [= <-]].
  - rewrite !eval_Array. destruct (same_items E' E l) as [-> Hp].
    { apply Forall_forall. intros i Hi. rewrite Forall_forall in IH. eapply IH; [done| |done|done].
      rewrite forallb_forall in Hc. by apply Hc, list_elem_of_In. }
    split; [done|]. intros w. destruct (eval_items E l); cbn; [|done]. intros [= <-]. by apply Hp.
  - rewrite !eval_Object. destruct (same_fields E' E l []) as [-> Hp]; [|done|].
    { apply Forall_forall. intros [k i] Hi. rewrite Forall_forall in IH.
      eapply (IH (k, i)); [done| |done|done]. rewrite forallb_forall in Hc. by apply (Hc (k, i)), list_elem_of_In. }
    split; [done|]. intros w. destruct (eval_fields E l []); cbn; [|done]. intros [= <-]. by apply Hp.
  - destruct l as [|s rest]; [by cbn; case_match; split|]. rewrite !eval_Call.
    destruct (negb (String.eqb f "map")); [done|]. apply Forall_cons in IH as [IHs IHr].
    cbn in Hc. apply andb_prop in Hc as [Hc1 Hc2].
    eapply same_plain_bind; [by eapply IHs|]. intros w Hw. rewrite checkResolved_plain by done. cbn.
    apply same_run_call; [done|]. intros p q body tl -> x i Hx. apply Forall_cons in IHr as [IHl _].
    cbn in Hc2. apply andb_prop in Hc2 as [Hc2 _].
    eapply (proj2 IHl); [exact Hc2|by apply scoped_bind|exact Hcfg].
  - destruct (unaryOps o) as [f|] eqn:Ho; cbn [evalNode]; rewrite Ho; [|done].
    eapply same_plain_bind; [by eapply IH|]. intros w Hw. rewrite checkResolved_plain by done. cbn.
    apply same_plain_refl. by eapply unaryOps_plain.
  - apply andb_prop in Hc as [Hc1 Hc2].
    pose proof (IHl _ _ _ Hc1 Hsc Hcfg) as Hl. pose proof (IHr _ _ _ Hc2 Hsc Hcfg) as Hr.
    cbn [evalNode]. destruct (String.eqb o "??").
    { eapply same_plain_bind; [exact Hl|]. intros w Hw. destruct w; try by apply same_plain_refl; intros y [= <-].
      exact Hr. }
    destruct (String.eqb o "&&" || String.eqb o "||").
    { eapply same_plain_bind; [exact Hl|]. intros w Hw. destruct w as [|lb| | | | |]; try done.
      case_match; [apply same_plain_refl, bool_plain|]. eapply same_plain_bind; [exact Hr|].
      intros y _. destruct y; try done. apply same_plain_refl, bool_plain. }
    destruct (binaryOps o) as [f|] eqn:Ho; [|done].
    eapply same_plain_bind; [exact Hl|]. intros w Hw. eapply same_plain_bind; [exact Hr|].
    intros y Hy. rewrite !checkResolved_plain by done. cbn. apply same_plain_refl. by eapply binaryOps_plain.
  - apply andb_prop in Hc as [[Hc1 Hc2]%andb_prop Hc3]. cbn [evalNode].
    eapply same_plain_bind; [by eapply IHc|]. intros w _. destruct (mustBool w); [by eapply IHt|by eapply IHf].
Qed.

(** * The walk *)

Lemma supports_config r E' E : supports r (ctx E') (ctx E) -> same_config E' E.
Proof. intros Hs. apply (sup_other _ _ _ Hs). unfold names. set_solver. Qed.

Lemma same_simulates thr r' r : same_plain r' r -> simulates thr r' r.
Proof. intros [-> Hp]. by apply simulates_refl. Qed.

Lemma lazy_items E' E items : Forall (fun i => simulates false (evalNode i E') (evalNode i E)) items ->
  match eval_items E items with
  | Ok ws => exists vs, eval_items E' items = Ok vs /\ Forall2 (fun v w => stands v w) vs ws
  | Err e => eval_items E' items = Err e
  end.
Proof.
  induction 1 as [|i items Hi _ IH]; cbn; [by exists []|].
  destruct (evalNode i E) as [w|e]; cbn in *; [|by rewrite Hi]. destruct Hi as (v & -> & Hs & _). cbn.
  destruct (eval_items E items) as [ws|e]; cbn in *; [|by rewrite IH]. destruct IH as (vs & -> & Hf). cbn.
  exists (v :: vs). split; [done|by constructor].
Qed.

Lemma lazy_fields E' E fields : forall out' out,
  Forall (fun e => simulates false (evalNode (snd e) E') (evalNode (snd e) E)) fields ->
  resolve_map load out' = Some out ->
  match eval_fields E fields out with
  | Ok l => exists l', eval_fields E' fields out' = Ok l' /\ resolve_map load l' = Some l
  | Err e => eval_fields E' fields out' = Err e
  end.
Proof.
  induction fields as [|[k i] fields IH]; intros out' out; cbn [eval_fields].
  - intros _ Ho. by exists out'.
  - intros [Hi Hf]%Forall_cons Ho. cbn [snd] in Hi.
    destruct (evalNode i E) as [w|e]; cbn in *; [|by rewrite Hi]. destruct Hi as (v & -> & Hs & _). cbn.
    apply IH; [done|]. by apply (resolve_put load).
Qed.

Lemma supports_items items bound e' e :
  supports (Roots.collectRoots (ArrayNode items) bound false) e' e ->
  Forall (fun i => supports (Roots.collectRoots i bound false) e' e) items.
Proof.
  induction items as [|i items IH]; [constructor|]. intros [H1 H2]%supports_union. constructor; [done|by apply IH].
Qed.
Lemma supports_fields fields bound thr e' e :
  supports (Roots.collectRoots (ObjectNode fields) bound thr) e' e ->
  Forall (fun i => supports (Roots.collectRoots (snd i) bound false) e' e) fields.
Proof.
  induction fields as [|[k i] fields IH]; [constructor|]. intros [H1 H2]%supports_union. constructor; [done|by apply IH].
Qed.
Lemma supports_args f args bound thr e' e :
  supports (Roots.collectRoots (CallNode f args) bound thr) e' e ->
  Forall (fun i => supports (Roots.collectRoots i bound true) e' e) args.
Proof.
  induction args as [|i args IH]; [constructor|]. intros [H1 H2]%supports_union. constructor; [done|by apply IH].
Qed.

Lemma simulates_same r' r : simulates true r' r -> same_plain r' r.
Proof.
  destruct r as [w|e]; cbn; [|by intros ->]. intros (v & -> & Hs & He). rewrite (He eq_refl).
  split; [done|]. intros y [= <-]. by eapply stands_plain.
Qed.

Lemma Forall3_impl {A} (P Q R S : A -> Prop) (l : list A) :
  (forall z, P z -> Q z -> R z -> S z) -> Forall P l -> Forall Q l -> Forall R l -> Forall S l.
Proof.
  intros HS Hp Hq Hr. rewrite !Forall_forall in *. intros z Hz. apply HS; auto.
Qed.

(** The walk over the lazy environment against the walk over the full one. *)
Lemma walk_lazy n : forall bound thr E' E, tame n bound thr = true -> scoped bound E' E ->
  supports (Roots.collectRoots n bound thr) (ctx E') (ctx E) ->
  simulates thr (evalNode n E') (evalNode n E).
Proof.
  induction n as [s|s|s|b| |k|b k IH|b i IH|b k IHb IHk|l IH|l IH|p q b IH|f l IH|o b IH|o l r IHl IHr|c t f IHc IHt IHf]
    using Node_ind'; intros bound thr E' E Ht Hsc Hsup; try (by apply simulates_refl; intros w [= <-]); try done.
  - by eapply ident_ok.
  - destruct (is_ident b) eqn:Hb; [destruct b; try done; by eapply member_ident_ok|].
    cbn [tame] in Ht. rewrite Hb in Ht. cbn [orb] in Ht.
    assert (Hm : Roots.member_roots bound b k thr = None) by (by destruct b).
    cbn [Roots.collectRoots] in Hsup. rewrite Hm in Hsup.
    eapply simulates_bind; [by eapply IH|]. intros w _ Hw. by apply simulates_refl, member_plain.
  - eapply simulates_bind; [by eapply IH|]. intros w _ Hw. by apply simulates_refl, index_plain.
  - cbn [tame] in Ht. apply andb_prop in Ht as [Ht1 Ht2]. apply supports_union in Hsup as [Hs1 Hs2].
    eapply simulates_bind; [by eapply IHb|]. intros w _ Hw.
    assert (Hrest : simulates thr
      (_ ← checkResolved w "key access"; key ← evalNode k E'; readKey w key)
      (_ ← checkResolved w "key access"; key ← evalNode k E; readKey w key)).
    { rewrite checkResolved_plain by done. cbn. eapply simulates_bind; [by eapply IHk|].
      intros y _ _. by apply simulates_refl, readKey_plain. }
    destruct w; try exact Hrest. by apply simulates_ok, seen_plain.
  - destruct thr.
    { cbn [tame] in Ht. apply andb_prop in Ht as [_ Hc]. apply same_simulates.
      eapply closed_same; [exact Hc|done|by eapply supports_config]. }
    cbn [tame] in Ht. apply andb_prop in Ht as [Ht _]. rewrite !eval_Array.
    pose proof (lazy_items E' E l) as Hl. destruct (eval_items E l) as [ws|e]; cbn in *.
    + destruct Hl as (vs & -> & Hf); cbn; [|].
      { eapply Forall3_impl; [|exact IH|by apply Forall_forall; intros x Hx; rewrite forallb_forall in Ht; by apply Ht, list_elem_of_In|by apply supports_items].
        cbn. eauto. }
      eexists. split; [done|]. split; [|done]. apply resolve_Arr_Some. by exists ws.
    + rewrite Hl; [done|].
      eapply Forall3_impl; [|exact IH|by apply Forall_forall; intros x Hx; rewrite forallb_forall in Ht; by apply Ht, list_elem_of_In|by apply supports_items].
      cbn. eauto.
  - destruct thr.
    { cbn [tame] in Ht. apply andb_prop in Ht as [_ Hc]. apply same_simulates.
      eapply closed_same; [exact Hc|done|by eapply supports_config]. }
    cbn [tame] in Ht. apply andb_prop in Ht as [Ht _]. rewrite !eval_Object.
    assert (Hall : Forall (fun e => simulates false (evalNode (snd e) E') (evalNode (snd e) E)) l).
    { eapply (Forall3_impl _ (fun e => tame (snd e) bound false = true)); [|exact IH| |by eapply supports_fields].
      - cbn. eauto.
      - apply Forall_forall. intros [k x] Hx. rewrite forallb_forall in Ht. by apply (Ht (k, x)), list_elem_of_In. }
    pose proof (lazy_fields E' E l [] [] Hall eq_refl) as Hl.
    destruct (eval_fields E l []) as [ws|e]; cbn in *; [|by rewrite Hl].
    destruct Hl as (vs & -> & Hf). eexists. split; [done|]. split; [|done].
    apply resolve_Map_Some. by exists ws.
  - destruct l as [|s rest]; [by cbn; case_match|]. rewrite !eval_Call.
    destruct (negb (String.eqb f "map")); [done|]. apply Forall_cons in IH as [[IHs _] IHr].
    apply supports_args in Hsup. apply Forall_cons in Hsup as [Hs1 Hs2].
    cbn in Ht. apply andb_prop in Ht as [Ht1 Ht2].
    eapply simulates_bind; [by eapply IHs|]. intros w _ Hw. rewrite checkResolved_plain by done. cbn.
    apply same_simulates, same_run_call; [done|]. intros p q body tl -> x i Hx.
    apply Forall_cons in IHr as [[_ IHl] _]. apply Forall_cons in Hs2 as [Hs2 _].
    cbn in Ht2. apply andb_prop in Ht2 as [Ht2 _].
    apply simulates_same. eapply IHl; [exact Ht2|by apply scoped_bind|exact Hs2].
  - cbn [tame] in Ht. destruct (unaryOps o) as [f|] eqn:Ho; cbn [evalNode]; rewrite Ho; [|done].
    eapply simulates_bind; [by eapply IH|]. intros w _ Hw. rewrite checkResolved_plain by done. cbn.
    apply simulates_refl. by eapply unaryOps_plain.
  - cbn [tame] in Ht. apply andb_prop in Ht as [Ht1 Ht2]. apply supports_union in Hsup as [Hs1 Hs2].
    pose proof (IHl _ _ _ _ Ht1 Hsc Hs1) as Hl. pose proof (IHr _ _ _ _ Ht2 Hsc Hs2) as Hr.
    cbn [evalNode]. destruct (String.eqb o "??").
    { eapply simulates_bind; [exact Hl|]. intros w _ Hw.
      destruct w; try by apply simulates_refl; intros y [= <-]. by apply simulates_weaken. }
    destruct (String.eqb o "&&" || String.eqb o "||").
    { eapply simulates_bind; [exact Hl|]. intros w _ Hw. destruct w as [|lb| | | | |]; try done.
      case_match; [apply simulates_refl, bool_plain|]. eapply simulates_bind; [exact Hr|].
      intros y _ _. destruct y; try done. apply simulates_refl, bool_plain. }
    destruct (binaryOps o) as [f|] eqn:Ho; [|done].
    eapply simulates_bind; [exact Hl|]. intros w _ Hw. eapply simulates_bind; [exact Hr|].
    intros y _ Hy. rewrite !checkResolved_plain by done. cbn. apply simulates_refl. by eapply binaryOps_plain.
  - cbn [tame] in Ht. apply andb_prop in Ht as [[Ht1 Ht2]%andb_prop Ht3].
    apply supports_union in Hsup as [Hs1 [Hs2 Hs3]%supports_union]. cbn [evalNode].
    eapply simulates_bind; [by eapply IHc|]. intros w _ _.
    destruct (mustBool w); [by eapply IHt|by eapply IHf].
Qed.

End Lazy.
End Lazy.
