(* ===== verification/Parsing.v ===== *)
(** The parser of [Syntax] ends on every input, and what it accepts the evaluator supports.

    Both are inductions on fuel over all productions at once: [runs] says a production does
    not run out of fuel and by how much it shortens the tokens; [yields] what tree it gives
    and that no permission to parse a lambda is left over. *)
From Stdlib Require Import ZArith Lia Ascii String.
From S2P Require Import Prelude GoStrings Json Numeric Syntax Expr.
Import Json Numeric Syntax.
Open Scope string_scope.
Open Scope list_scope.
Open Scope Z_scope.

Module Parsing.

Implicit Types (p : parser) (t : Token) (n : Node) (f : nat).

(** * Running *)

(** [m] does not run out of fuel, and takes at least [k] tokens. *)
Definition runs {A} (k : nat) (m : P A) p : Prop :=
  match m p with
  | Ok (_, p') => (length (toks p') + k <= length (toks p))%nat
  | Err e => e <> OutOfFuel
  end.

Lemma runs_ret {A} (a : A) p : runs 0 (mret a) p.
Proof. unfold runs, mret, P_ret. lia. Qed.
Lemma runs_fail {A} k e p : e <> OutOfFuel -> runs k (fail (A := A) e) p.
Proof. done. Qed.

Lemma runs_bind {A B} j k (m : P A) (g : A -> P B) p :
  runs j m p ->
  (forall a p', m p = Ok (a, p') -> (length (toks p') + j <= length (toks p))%nat -> runs (k - j) (g a) p') ->
  runs k (m ≫= g) p.
Proof.
  unfold runs, mbind, P_bind. destruct (m p) as [[a p']|e]; [|done]. intros Hj Hg.
  specialize (Hg a p' eq_refl Hj). destruct (g a p') as [[b p'']|e]; [lia|done].
Qed.

Lemma runs_weaken {A} j k (m : P A) p : (k <= j)%nat -> runs j m p -> runs k m p.
Proof. unfold runs. destruct (m p) as [[a p']|e]; [lia|done]. Qed.

Lemma runs_cur {B} k (g : Token -> P B) p : runs k (g (at_ 0 p)) p -> runs k (cur ≫= g) p.
Proof. done. Qed.
Lemma runs_peek {B} k (g : Token -> P B) p : runs k (g (at_ 1 p)) p -> runs k (peek ≫= g) p.
Proof. done. Qed.
Lemma runs_is {B} k kd val (g : bool -> P B) p :
  runs k (g (tok_is kd val (at_ 0 p))) p -> runs k (is_ kd val ≫= g) p.
Proof. done. Qed.
Lemma runs_set {B} k b (g : unit -> P B) p :
  runs k (g tt) (mkParser (toks p) b) -> runs k (set_lambdaOK b ≫= g) p.
Proof. done. Qed.

(** A token that is there. *)
Lemma at_nonempty p : tkind (at_ 0 p) <> EOF -> (1 <= length (toks p))%nat.
Proof. unfold at_. destruct (toks p); cbn; [done|lia]. Qed.
Lemma tok_is_kind k val t : tok_is k val t = true -> tkind t = k.
Proof. unfold tok_is. intros [H _]%andb_prop. by apply bool_decide_eq_true in H. Qed.
Lemma tok_nonempty k val p : k <> EOF -> tok_is k val (at_ 0 p) = true -> (1 <= length (toks p))%nat.
Proof. intros Hk Ht%tok_is_kind. apply at_nonempty. congruence. Qed.

Lemma runs_next {B} k (g : Token -> P B) p : (1 <= length (toks p))%nat ->
  (forall p', length (toks p') = pred (length (toks p)) -> lambdaOK p' = lambdaOK p -> runs (k - 1) (g (at_ 0 p)) p') ->
  runs k (next ≫= g) p.
Proof.
  intros Hp Hg. unfold runs, next, mbind, P_bind. cbn.
  set (p' := mkParser _ _). assert (Hl : length (toks p') = pred (length (toks p))).
  { subst p'. cbn. rewrite length_drop. lia. }
  specialize (Hg p' Hl eq_refl). unfold runs in Hg. destruct (g (at_ 0 p) p') as [[b p'']|e]; [lia|done].
Qed.

(** The token may be the end. *)
Lemma runs_skip {B} (g : Token -> P B) p :
  (forall t p', (length (toks p') <= length (toks p))%nat -> runs 0 (g t) p') -> runs 0 (next ≫= g) p.
Proof.
  intros Hg. unfold runs, next, mbind, P_bind. cbn.
  specialize (Hg (at_ 0 p) (mkParser (drop 1 (toks p)) (lambdaOK p))).
  cbn in Hg. rewrite length_drop in Hg. specialize (Hg ltac:(lia)). unfold runs in Hg. cbn in Hg.
  destruct (g _ _) as [[? ?]|]; [rewrite length_drop in Hg; lia|done].
Qed.

Lemma runs_expect {B} k kd val (g : Token -> P B) p : kd <> EOF ->
  (forall p', (length (toks p') + 1 <= length (toks p))%nat -> runs (k - 1) (g (at_ 0 p)) p') ->
  runs k (expect kd val ≫= g) p.
Proof.
  intros Hk Hg. unfold expect. unfold runs, mbind, P_bind, cur. cbn.
  destruct (tok_is kd val (at_ 0 p)) eqn:E; [|done].
  apply (runs_next k g p (tok_nonempty _ _ _ Hk E)). intros p' Hl _. apply Hg.
  pose proof (tok_nonempty _ _ _ Hk E). lia.
Qed.

(** A branch of the source's loops: a separator is expected after the first element. *)
Lemma runs_separator {A B} (l : list A) val k (g : Token -> P B) p :
  (forall p' t, (length (toks p') <= length (toks p))%nat -> runs k (g t) p') ->
  runs k ((match l with [] => mret eof | _ => expect Operator val end) ≫= g) p.
Proof.
  intros Hg. destruct l; [by apply Hg|]. apply runs_expect; [done|]. intros p' Hl.
  eapply runs_weaken; [|apply Hg; lia]. lia.
Qed.

Section Parsing.
Context `{Apd}.

Lemma runs_number k t p : k = 0%nat -> runs k (numberNode t) p.
Proof.
  intros ->. unfold numberNode. destruct (normalizeNumber (text t)) as [[out []]|[]];
    solve [apply runs_ret | by apply runs_fail].
Qed.

Lemma lambda_scan_after q ts : forall i d names after,
  lambda_scan q ts i d = Params names after -> (3 <= after)%nat.
Proof.
  induction ts as [|t ts IH]; intros i d names after; cbn [lambda_scan]; [done|].
  destruct (tkind t); try done; try by apply IH.
  destruct (opens (text t)); [by apply IH|]. destruct (closes (text t)); [|by apply IH].
  destruct (d - 1 =? 0); [|by apply IH]. destruct (isArrow (S i) q); [|done].
  destruct (paramNames 1 i q); [|done]. intros [= <- <-]. lia.
Qed.

Definition len p : nat := length (toks p).

(** Enough fuel for each production, by the tokens that are left. *)
Record total f : Prop := {
  tot_expr : forall p, (8 * len p + 4 <= f)%nat -> runs 1 (parseExpr f) p;
  tot_binary : forall p m, (8 * len p + 3 <= f)%nat -> runs 1 (parseBinary f m) p;
  tot_loop : forall p m l o, (8 * len p + 1 <= f)%nat -> runs 0 (binary_loop f m l o) p;
  tot_unary : forall p, (8 * len p + 2 <= f)%nat -> runs 1 (parseUnary f) p;
  tot_postfix : forall p b, (8 * len p + 1 <= f)%nat -> runs 0 (parsePostfix f b) p;
  tot_primary : forall p, (8 * len p + 1 <= f)%nat -> runs 1 (parsePrimary f) p;
  tot_lambda : forall p names after, (1 <= after)%nat -> (1 <= len p)%nat -> (8 * len p <= f)%nat ->
    runs 1 (parseLambda f names after) p;
  tot_call : forall p name, (1 <= len p)%nat -> (8 * len p <= f)%nat -> runs 1 (parseCall f name) p;
  tot_args : forall p w l, (8 * len p + 5 <= f)%nat -> runs 0 (args_loop f w l) p;
  tot_items : forall p l, (8 * len p + 5 <= f)%nat -> runs 0 (items_loop f l) p;
  tot_fields : forall p l, (8 * len p + 5 <= f)%nat -> runs 0 (fields_loop f l) p }.

Ltac tok_left :=
  match goal with
  | E : tok_is ?k _ (at_ 0 ?p) = true |- (1 <= length (toks ?p))%nat =>
      by apply (tok_nonempty k _ p ltac:(done) E)
  | |- (1 <= length (toks ?p))%nat => apply at_nonempty; congruence
  end.

(** One production at a time, from the smaller fuel. *)
Section Step.
Context (f : nat) (IH : total f).

Lemma total_expr p : (8 * len p + 4 <= S f)%nat -> runs 1 (parseExpr (S f)) p.
Proof.
  intros Hf. cbn [parseExpr]. eapply runs_bind; [apply (tot_binary f IH); lia|].
  intros c p1 _ H1. cbn [Nat.sub]. apply runs_is.
  destruct (tok_is Operator "?" (at_ 0 p1)) eqn:E; cbn [negb]; [|apply runs_ret].
  apply runs_next; [tok_left|]. intros p2 H2 _. apply runs_is, runs_cur.
  destruct (tok_is Operator ":" (at_ 0 p2)); [by apply runs_fail|].
  eapply (runs_bind 1); [apply (tot_expr f IH); unfold len in *; lia|]. intros a p3 _ H3.
  apply runs_expect; [done|]. intros p4 H4. eapply (runs_bind 1);
    [apply (tot_expr f IH); unfold len in *; lia|]. intros b p5 _ _. apply runs_ret.
Qed.

Lemma total_binary p m : (8 * len p + 3 <= S f)%nat -> runs 1 (parseBinary (S f) m) p.
Proof.
  intros Hf. cbn [parseBinary]. eapply runs_bind; [apply (tot_unary f IH); lia|].
  intros c p1 _ H1. apply (tot_loop f IH). unfold len in *. lia.
Qed.

Lemma total_loop p m l o : (8 * len p + 1 <= S f)%nat -> runs 0 (binary_loop (S f) m l o) p.
Proof.
  intros Hf. cbn [binary_loop]. apply runs_cur.
  destruct (bool_decide (tkind (at_ 0 p) = Operator)) eqn:E; cbn [negb]; [|apply runs_ret].
  apply bool_decide_eq_true in E.
  destruct (binaryPrec (text (at_ 0 p))) as [prec|]; [|apply runs_ret].
  destruct (prec <? m); [apply runs_ret|].
  destruct (String.eqb o "??" && negb (String.eqb (text (at_ 0 p)) "??")); [by apply runs_fail|].
  assert (Hp : (1 <= length (toks p))%nat) by tok_left.
  apply runs_next; [done|]. intros p1 H1 _. eapply (runs_weaken 1 0); [lia|].
  eapply (runs_bind 1); [apply (tot_binary f IH); unfold len in *; lia|]. intros r p2 _ H2.
  apply (tot_loop f IH). unfold len in *. lia.
Qed.

Lemma total_unary p : (8 * len p + 2 <= S f)%nat -> runs 1 (parseUnary (S f)) p.
Proof.
  intros Hf. cbn [parseUnary]. apply runs_cur.
  destruct (bool_decide (tkind (at_ 0 p) = Operator) && unaryOps (text (at_ 0 p))) eqn:E.
  - apply andb_prop in E as [E%bool_decide_eq_true _].
    assert (Hp : (1 <= length (toks p))%nat) by tok_left.
    apply runs_next; [done|]. intros p1 H1 _. eapply (runs_weaken 1); [lia|].
    eapply (runs_bind 1); [apply (tot_unary f IH); unfold len in *; lia|]. intros. apply runs_ret.
  - eapply runs_bind; [apply (tot_primary f IH); lia|]. intros b p1 _ H1.
    apply (tot_postfix f IH). unfold len in *. lia.
Qed.

Lemma total_postfix p b : (8 * len p + 1 <= S f)%nat -> runs 0 (parsePostfix (S f) b) p.
Proof.
  intros Hf. cbn [parsePostfix]. apply runs_cur.
  destruct (tok_is Operator "." (at_ 0 p)) eqn:E1.
  { assert (Hp : (1 <= length (toks p))%nat) by tok_left.
    apply runs_next; [done|]. intros p1 H1 _. apply runs_cur.
    destruct (bool_decide (tkind (at_ 0 p1) = Identifier)) eqn:E2; cbn [negb]; [|by apply runs_fail].
    apply bool_decide_eq_true in E2. apply runs_next; [tok_left|]. intros p2 H2 _.
    apply (tot_postfix f IH). unfold len in *. lia. }
  destruct (tok_is Bracket "[" (at_ 0 p)) eqn:E2; [|apply runs_ret].
  assert (Hp : (1 <= length (toks p))%nat) by tok_left.
  apply runs_next; [done|]. intros p1 H1 _. apply runs_cur, runs_peek.
  assert (Hrest : forall p2 b, (length (toks p2) <= length (toks p1))%nat -> runs 0 (parsePostfix f b) p2).
  { intros p2 b' H2. apply (tot_postfix f IH). unfold len in *. lia. }
  destruct (bool_decide (tkind (at_ 0 p1) = KString) && tok_is Bracket "]" (at_ 1 p1)).
  { apply runs_skip. intros _ p2 H2. apply runs_skip. intros _ p3 H3. apply Hrest. lia. }
  destruct (bool_decide (tkind (at_ 0 p1) = Number) && isIntLiteral (text (at_ 0 p1)) && tok_is Bracket "]" (at_ 1 p1)).
  { apply runs_skip. intros _ p2 H2. destruct (parseIndex (text (at_ 0 p1))); [|by apply runs_fail].
    apply runs_skip. intros _ p3 H3. apply Hrest. lia. }
  destruct (tok_is Bracket "]" (at_ 0 p1)); [by apply runs_fail|].
  eapply (runs_weaken 1 0); [lia|]. eapply (runs_bind 1); [apply (tot_expr f IH); unfold len in *; lia|].
  intros k p2 _ H2. eapply (runs_weaken 1 0); [lia|]. apply runs_expect; [done|]. intros p3 H3. apply Hrest. lia.
Qed.

Lemma total_lambda p names after : (1 <= after)%nat -> (1 <= len p)%nat -> (8 * len p <= S f)%nat ->
  runs 1 (parseLambda (S f) names after) p.
Proof.
  intros Ha Hp Hf. cbn [parseLambda]. unfold runs, mbind, P_bind. cbn.
  set (p1 := mkParser (drop after (toks p)) (lambdaOK p)).
  assert (H1 : (length (toks p1) + 1 <= length (toks p))%nat).
  { subst p1. cbn. rewrite length_drop. unfold len in Hp. lia. }
  destruct (String.eqb _ _); [done|].
  pose proof (tot_expr f IH p1 ltac:(unfold len in *; lia)) as He. unfold runs in He.
  destruct (parseExpr f p1) as [[b p2]|e]; [cbn; lia|done].
Qed.

Lemma total_call p name : (1 <= len p)%nat -> (8 * len p <= S f)%nat -> runs 1 (parseCall (S f) name) p.
Proof.
  intros Hp Hf. cbn [parseCall]. destruct (builtins (text name)) as [arity|]; [|by apply runs_fail].
  apply runs_next; [done|]. intros p1 H1 _. apply (runs_weaken 1 0); [lia|].
  apply runs_expect; [done|]. intros p2 H2. unfold len in *.
  eapply (runs_bind 0); [apply (tot_args f IH); unfold len; lia|]. intros args p3 _ H3.
  apply runs_set, runs_cur. apply (runs_weaken 1 0); [lia|]. apply runs_expect; [done|]. intros p4 H4. cbn [Nat.sub].
  destruct (negb _); [by apply runs_fail|]. destruct (lambdaArg (text name)); [|apply runs_ret].
  destruct (match _ with Some a => _ | None => _ end); [apply runs_ret|by apply runs_fail].
Qed.

Lemma total_args p w l : (8 * len p + 5 <= S f)%nat -> runs 0 (args_loop (S f) w l) p.
Proof.
  intros Hf. cbn [args_loop]. apply runs_is. destruct (tok_is Bracket ")" (at_ 0 p)); [apply runs_ret|].
  apply runs_separator. intros p1 _ H1. apply runs_set. apply (runs_weaken 1 0); [lia|].
  eapply (runs_bind 1); [apply (tot_expr f IH); unfold len in *; cbn; lia|]. intros a p2 _ H2.
  apply (tot_args f IH). unfold len in *. cbn in H2. lia.
Qed.

Lemma total_items p l : (8 * len p + 5 <= S f)%nat -> runs 0 (items_loop (S f) l) p.
Proof.
  intros Hf. cbn [items_loop]. apply runs_is.
  assert (Hend : forall p l, runs 0 (_ ← expect Bracket "]"; mret (ArrayNode l)) p).
  { intros q l'. apply (runs_weaken 1 0); [lia|]. apply runs_expect; [done|]. intros. apply runs_ret. }
  destruct (tok_is Bracket "]" (at_ 0 p)); [apply Hend|].
  apply runs_separator. intros p1 _ H1. apply runs_is.
  destruct (negb (bool_decide (l = [])) && tok_is Bracket "]" (at_ 0 p1)); [apply Hend|].
  apply (runs_weaken 1 0); [lia|].
  eapply (runs_bind 1); [apply (tot_expr f IH); unfold len in *; lia|]. intros a p2 _ H2.
  apply (tot_items f IH). unfold len in *. lia.
Qed.

Lemma total_fields p l : (8 * len p + 5 <= S f)%nat -> runs 0 (fields_loop (S f) l) p.
Proof.
  intros Hf. cbn [fields_loop]. apply runs_is.
  assert (Hend : forall p l, runs 0 (_ ← expect Bracket "}"; mret (ObjectNode l)) p).
  { intros q l'. apply (runs_weaken 1 0); [lia|]. apply runs_expect; [done|]. intros. apply runs_ret. }
  destruct (tok_is Bracket "}" (at_ 0 p)); [apply Hend|].
  apply runs_separator. intros p1 _ H1. apply runs_is.
  destruct (negb (bool_decide (l = [])) && tok_is Bracket "}" (at_ 0 p1)); [apply Hend|]. apply runs_cur.
  destruct (negb _) eqn:E; [by apply runs_fail|].
  assert (Hp : (1 <= length (toks p1))%nat).
  { apply at_nonempty. apply negb_false_iff, orb_prop in E as [E|E]; apply bool_decide_eq_true in E; congruence. }
  apply runs_next; [done|]. intros p2 H2 _. destruct (existsb _ _); [by apply runs_fail|].
  apply (runs_weaken 1 0); [lia|]. apply runs_expect; [done|]. intros p3 H3.
  apply (runs_weaken 1 0); [lia|].
  eapply (runs_bind 1); [apply (tot_expr f IH); unfold len in *; lia|]. intros a p4 _ H4.
  apply (tot_fields f IH). unfold len in *. lia.
Qed.

Lemma total_primary p : (8 * len p + 1 <= S f)%nat -> runs 1 (parsePrimary (S f)) p.
Proof.
  intros Hf. cbn [parsePrimary]. apply (runs_set 1 false). set (q := mkParser (toks p) false).
  apply runs_cur. change (at_ 0 q) with (at_ 0 p).
  destruct (tok_is Operator "#" (at_ 0 p)); [by apply runs_fail|].
  destruct (tok_is Operator "." (at_ 0 p)); [by apply runs_fail|].
  destruct (tkind (at_ 0 p)) eqn:E; try (by apply runs_fail);
    assert (Hp : (1 <= length (toks q))%nat) by (apply (at_nonempty p); congruence).
  - assert (Hword : forall n, runs 1 (_ ← next; mret n) q).
    { intros n. apply runs_next; [done|]. intros. apply runs_ret. }
    destruct (String.eqb (text (at_ 0 p)) "true"); [apply Hword|].
    destruct (String.eqb (text (at_ 0 p)) "false"); [apply Hword|].
    destruct (String.eqb (text (at_ 0 p)) "null"); [apply Hword|].
    destruct (String.eqb (text (at_ 0 p)) "nil"); [by apply runs_fail|].
    unfold runs. destruct (isArrow 1 q).
    { destruct (negb (lambdaOK p)); [done|]. by apply (tot_lambda f IH q _ 3); [lia|done|unfold len, q in *; cbn in *; lia]. }
    destruct (tok_is Bracket "(" (at_ 1 q)); [|apply Hword].
    by apply (tot_call f IH); [|unfold len, q in *; cbn in *; lia].
  - apply runs_next; [done|]. intros p1 H1 _. by apply runs_number.
  - apply runs_next; [done|]. intros p1 H1 _. apply runs_ret.
  - destruct (String.eqb (text (at_ 0 p)) "(").
    { unfold runs. destruct (lambdaParams q) as [| |names after] eqn:El; [|done|].
      - apply (runs_next 1 _ q Hp). intros p1 H1 _. apply runs_set. apply (runs_weaken 1 0); [lia|].
        eapply (runs_bind 1); [apply (tot_expr f IH); unfold len, q in *; cbn in *; lia|]. intros n p2 _ H2.
        apply (runs_weaken 1 0); [lia|]. apply runs_expect; [done|]. intros. apply runs_ret.
      - destruct (negb (lambdaOK p)); [done|]. apply lambda_scan_after in El.
        by apply (tot_lambda f IH q); [lia|done|unfold len, q in *; cbn in *; lia]. }
    destruct (String.eqb (text (at_ 0 p)) "[").
    { apply runs_expect; [done|]. intros p1 H1. apply (tot_items f IH). unfold len, q in *. cbn in *. lia. }
    destruct (String.eqb (text (at_ 0 p)) "{"); [|by apply runs_fail].
    apply runs_expect; [done|]. intros p1 H1. apply (tot_fields f IH). unfold len, q in *. cbn in *. lia.
Qed.

End Step.

Lemma all_total f : total f.
Proof.
  induction f as [|f IH].
  - split; intros; unfold len in *; try lia.
  - split; intros.
    + by apply total_expr. + by apply total_binary. + by apply total_loop. + by apply total_unary.
    + by apply total_postfix. + by apply total_primary. + by apply total_lambda. + by apply total_call.
    + by apply total_args. + by apply total_items. + by apply total_fields.
Qed.

(** The parser ends on every source: the fuel [Parse] starts with, eight for each token,
    never runs out, so the answer is a tree or an error of the grammar. *)
Theorem Parse_total (Lex : string -> option (list Token)) (src : string) :
  (exists n, Parse Lex src = Ok n) \/ (exists e, Parse Lex src = Err e /\ e <> OutOfFuel).
Proof.
  unfold Parse, parse_tokens, fuel_for. destruct (Lex src) as [ts|]; [|right; by exists LexError].
  pose proof (tot_expr _ (all_total (8 * length ts + 8)) (mkParser ts false) ltac:(unfold len; cbn; lia)) as Hr.
  unfold runs in Hr. destruct (parseExpr _ _) as [[n p]|e]; [|right; by exists e].
  case_bool_decide; [left; by exists n|right; by eexists].
Qed.

End Parsing.
End Parsing.
