(* ===== verification/Accepting.v ===== *)
(** What the parser accepts, the evaluator supports: a lambda is only ever the second
    argument of [map], operators are known, object keys differ; so no evaluation of parsed
    source reaches an unsupported construct or a panic. *)
From Stdlib Require Import ZArith Lia Ascii String.
From S2P Require Import Prelude GoStrings Json Numeric Syntax Expr.
Import Json Numeric Syntax.
Open Scope string_scope.
Open Scope list_scope.
Open Scope Z_scope.

Module Accepting.

Implicit Types (p : parser) (t : Token) (n : Node) (f : nat) (fl : bool).

Fixpoint distinct (l : list string) : bool :=
  match l with [] => true | k :: l => negb (existsb (String.eqb k) l) && distinct l end.

Fixpoint supported n : bool :=
  match n with
  | IntNode _ | FloatNode _ | StringNode _ | BoolNode _ | NullNode | IdentNode _ => true
  | MemberNode b _ | IndexNode b _ => supported b
  | KeyNode b k => supported b && supported k
  | ArrayNode l => forallb supported l
  | ObjectNode l => forallb (fun '(_, x) => supported x) l && distinct l.*1
  | LambdaNode _ _ _ => false
  | CallNode g args =>
      String.eqb g "map" &&
      match args with
      | [s; LambdaNode x i b] => supported s && supported b && negb (String.eqb x i)
      | _ => false
      end
  | UnaryNode o x => unaryOps o && supported x
  | BinaryNode o l r =>
      match binaryPrec o with Some _ => true | None => false end && supported l && supported r
  | CondNode c a b => supported c && supported a && supported b
  end.

Definition body_supported n : bool :=
  match n with LambdaNode x i b => supported b && negb (String.eqb x i) | _ => false end.

(** Parsed where a lambda was allowed ([fl]) or not. *)
Definition tree fl n : Prop :=
  (fl = false -> supported n = true) /\ (isLambda n = true -> body_supported n = true).

Lemma tree_of fl n : supported n = true -> tree fl n.
Proof. intros Hs. split; [done|]. by destruct n. Qed.

(** * Postconditions of a parser *)

Definition post {A} (Q : A -> parser -> Prop) (m : P A) p : Prop :=
  match m p with Ok (a, p') => Q a p' | Err _ => True end.

Lemma post_ret {A} (Q : A -> parser -> Prop) a p : Q a p -> post Q (mret a) p.
Proof. done. Qed.
Lemma post_bind {A B} (R : A -> parser -> Prop) (Q : B -> parser -> Prop) (m : P A) (g : A -> P B) p :
  post R m p -> (forall a p', R a p' -> post Q (g a) p') -> post Q (m ≫= g) p.
Proof.
  unfold post, mbind, P_bind. destruct (m p) as [[a p']|e]; [|done]. intros Hr Hg. by apply Hg.
Qed.
Lemma post_cur {B} (Q : B -> parser -> Prop) (g : Token -> P B) p : post Q (g (at_ 0 p)) p -> post Q (cur ≫= g) p.
Proof. done. Qed.
Lemma post_peek {B} (Q : B -> parser -> Prop) (g : Token -> P B) p : post Q (g (at_ 1 p)) p -> post Q (peek ≫= g) p.
Proof. done. Qed.
Lemma post_is {B} (Q : B -> parser -> Prop) k val (g : bool -> P B) p :
  post Q (g (tok_is k val (at_ 0 p))) p -> post Q (is_ k val ≫= g) p.
Proof. done. Qed.
Lemma post_set {B} (Q : B -> parser -> Prop) b (g : unit -> P B) p :
  post Q (g tt) (mkParser (toks p) b) -> post Q (set_lambdaOK b ≫= g) p.
Proof. done. Qed.
Lemma post_next {B} (Q : B -> parser -> Prop) (g : Token -> P B) p :
  (forall p', lambdaOK p' = lambdaOK p -> post Q (g (at_ 0 p)) p') -> post Q (next ≫= g) p.
Proof. intros Hg. by apply (Hg (mkParser (drop 1 (toks p)) (lambdaOK p))). Qed.
Lemma post_expect {B} (Q : B -> parser -> Prop) k val (g : Token -> P B) p :
  (forall t p', lambdaOK p' = lambdaOK p -> post Q (g t) p') -> post Q (expect k val ≫= g) p.
Proof.
  intros Hg. unfold expect, post, mbind, P_bind, cur. cbn. destruct (tok_is k val (at_ 0 p)); [|done].
  by apply (Hg (at_ 0 p) (mkParser (drop 1 (toks p)) (lambdaOK p))).
Qed.
Lemma post_separator {A B} (l : list A) (Q : B -> parser -> Prop) val (g : Token -> P B) p :
  (forall t p', lambdaOK p' = lambdaOK p -> post Q (g t) p') ->
  post Q ((match l with [] => mret eof | _ => expect Operator val end) ≫= g) p.
Proof. intros Hg. destruct l; [by apply Hg|by apply post_expect]. Qed.

Section Accepting.
Context `{Apd}.

(** A tree for the permission the production started with, and none left. *)
Definition gives fl (n : Node) p : Prop := tree fl n /\ lambdaOK p = false.

Definition args_ok (l : list Node) : Prop :=
  match l with
  | [] => True
  | a :: l => supported a = true /\
      match l with [] => True | b :: _ => isLambda b = true -> body_supported b = true end
  end.

Lemma args_ok_app l n : args_ok l ->
  (length l = 0%nat -> supported n = true) -> (isLambda n = true -> body_supported n = true) -> args_ok (l ++ [n]).
Proof. destruct l as [|a [|b l]]; cbn; [auto|intros [? _] _ ?; auto|auto]. Qed.

Record accepts f : Prop := {
  acc_expr : forall p, post (gives (lambdaOK p)) (parseExpr f) p;
  acc_binary : forall p m, post (gives (lambdaOK p)) (parseBinary f m) p;
  acc_loop : forall p fl m l o, lambdaOK p = false -> tree fl l -> post (gives fl) (binary_loop f m l o) p;
  acc_unary : forall p, post (gives (lambdaOK p)) (parseUnary f) p;
  acc_postfix : forall p fl b, lambdaOK p = false -> tree fl b -> post (gives fl) (parsePostfix f b) p;
  acc_primary : forall p, post (gives (lambdaOK p)) (parsePrimary f) p;
  acc_lambda : forall p names after, lambdaOK p = false -> post (gives true) (parseLambda f names after) p;
  acc_call : forall p name fl, lambdaOK p = false -> post (gives fl) (parseCall f name) p;
  acc_args : forall p l, args_ok l -> post (fun l' _ => args_ok l') (args_loop f (lambdaArg "map") l) p;
  acc_items : forall p l fl, lambdaOK p = false -> forallb supported l = true ->
    post (gives fl) (items_loop f l) p;
  acc_fields : forall p l fl, lambdaOK p = false ->
    forallb (fun '(_, x) => supported x) l && distinct l.*1 = true -> post (gives fl) (fields_loop f l) p }.

Lemma gives_tree fl n p : tree fl n -> lambdaOK p = false -> gives fl n p.
Proof. by split. Qed.

Lemma distinct_app l k : distinct l = true -> existsb (String.eqb k) l = false -> distinct (l ++ [k]) = true.
Proof.
  induction l as [|x l IH]; cbn; [done|]. intros [Hx Hl]%andb_prop [Hk Hkl]%orb_false_iff.
  rewrite IH by done. rewrite existsb_app. apply negb_true_iff in Hx. rewrite Hx. cbn.
  by rewrite String.eqb_sym, Hk.
Qed.

Section Step.
Context (f : nat) (IH : accepts f).

(** A parser started without the permission. *)
Lemma plain_expr p : lambdaOK p = false ->
  post (fun n p' => supported n = true /\ lambdaOK p' = false) (parseExpr f) p.
Proof.
  intros Hp. pose proof (acc_expr f IH p) as He. unfold post in *. destruct (parseExpr f p) as [[n p']|]; [|done].
  destruct He as [[Hs _] Hf]. split; [by apply Hs|done].
Qed.
Lemma plain_binary p m : lambdaOK p = false ->
  post (fun n p' => supported n = true /\ lambdaOK p' = false) (parseBinary f m) p.
Proof.
  intros Hp. pose proof (acc_binary f IH p m) as He. unfold post in *. destruct (parseBinary f m p) as [[n p']|]; [|done].
  destruct He as [[Hs _] Hf]. split; [by apply Hs|done].
Qed.

Lemma accept_expr p : post (gives (lambdaOK p)) (parseExpr (S f)) p.
Proof.
  cbn [parseExpr]. eapply post_bind; [apply (acc_binary f IH)|]. intros c p1 [Hc H1]. apply post_is.
  destruct (tok_is Operator "?" (at_ 0 p1)); cbn [negb]; [|by apply post_ret].
  apply post_next. intros p2 H2. apply post_is, post_cur.
  destruct (tok_is Operator ":" (at_ 0 p2)); [done|].
  eapply post_bind; [apply plain_expr; congruence|]. intros a p3 [Ha H3].
  apply post_expect. intros _ p4 H4. eapply post_bind; [apply plain_expr; congruence|].
  intros b p5 [Hb H5]. apply post_ret. split; [|done]. destruct Hc as [Hs _]. split; [|done].
  intros Hfl. cbn. by rewrite (Hs Hfl), Ha, Hb.
Qed.

Lemma accept_binary p m : post (gives (lambdaOK p)) (parseBinary (S f) m) p.
Proof.
  cbn [parseBinary]. eapply post_bind; [apply (acc_unary f IH)|]. intros c p1 [Hc H1].
  by apply (acc_loop f IH).
Qed.

Lemma accept_loop p fl m l o : lambdaOK p = false -> tree fl l -> post (gives fl) (binary_loop (S f) m l o) p.
Proof.
  intros Hp Hl. cbn [binary_loop]. apply post_cur.
  destruct (negb _); [by apply post_ret, gives_tree|].
  destruct (binaryPrec (text (at_ 0 p))) as [prec|] eqn:Ep; [|by apply post_ret, gives_tree].
  destruct (prec <? m); [by apply post_ret, gives_tree|].
  destruct (String.eqb o "??" && _); [done|]. apply post_next. intros p1 H1.
  eapply post_bind; [apply plain_binary; congruence|]. intros r p2 [Hr H2].
  apply (acc_loop f IH); [done|]. destruct Hl as [Hs _]. split; [|done]. intros Hfl. cbn [supported].
  by rewrite Ep, (Hs Hfl), Hr.
Qed.

Lemma accept_unary p : post (gives (lambdaOK p)) (parseUnary (S f)) p.
Proof.
  cbn [parseUnary]. apply post_cur.
  destruct (bool_decide (tkind (at_ 0 p) = Operator) && unaryOps (text (at_ 0 p))) eqn:E.
  - apply andb_prop in E as [_ E]. apply post_next. intros p1 H1.
    eapply post_bind; [apply (acc_unary f IH)|]. intros x p2 [[Hs _] H2]. apply post_ret.
    split; [|done]. split; [|done]. intros Hfl. cbn [supported]. rewrite E. apply Hs. congruence.
  - eapply post_bind; [apply (acc_primary f IH)|]. intros b p1 [Hb H1]. by apply (acc_postfix f IH).
Qed.

Lemma accept_postfix p fl b : lambdaOK p = false -> tree fl b -> post (gives fl) (parsePostfix (S f) b) p.
Proof.
  intros Hp Hb. cbn [parsePostfix]. apply post_cur. destruct (tok_is Operator "." (at_ 0 p)).
  { apply post_next. intros p1 H1. apply post_cur. destruct (negb _); [done|]. apply post_next. intros p2 H2.
    apply (acc_postfix f IH); [congruence|]. by destruct Hb. }
  destruct (tok_is Bracket "[" (at_ 0 p)); [|by apply post_ret].
  apply post_next. intros p1 H1. apply post_cur, post_peek.
  destruct (bool_decide _ && _).
  { apply post_next. intros p2 H2. apply post_next. intros p3 H3. apply (acc_postfix f IH); [congruence|]. by destruct Hb. }
  destruct (bool_decide _ && _ && _).
  { apply post_next. intros p2 H2. destruct (parseIndex _); [|done]. apply post_next. intros p3 H3.
    apply (acc_postfix f IH); [congruence|]. by destruct Hb. }
  destruct (tok_is Bracket "]" (at_ 0 p1)); [done|].
  eapply post_bind; [apply plain_expr; congruence|]. intros k p2 [Hk H2]. apply post_expect. intros _ p3 H3.
  apply (acc_postfix f IH); [congruence|]. destruct Hb as [Hs _]. split; [|done]. intros Hfl. cbn. by rewrite (Hs Hfl), Hk.
Qed.

Lemma accept_lambda p names after : lambdaOK p = false -> post (gives true) (parseLambda (S f) names after) p.
Proof.
  intros Hp. cbn [parseLambda]. eapply (post_bind (fun _ p' => lambdaOK p' = false)); [done|]. intros _ p1 H1.
  apply post_cur. destruct (String.eqb _ _) eqn:E; [done|].
  eapply post_bind; [by apply plain_expr|]. intros b p2 [Hb H2]. apply post_ret. split; [|done].
  split; [done|]. intros _. cbn. by rewrite Hb, E.
Qed.

Lemma accept_call p name fl : lambdaOK p = false -> post (gives fl) (parseCall (S f) name) p.
Proof.
  intros Hp. cbn [parseCall]. destruct (builtins (text name)) as [arity|] eqn:Eb; [|done].
  unfold builtins in Eb. destruct (String.eqb_spec (text name) "map") as [->|]; [|done]. injection Eb as <-.
  apply post_next. intros p1 H1. apply post_expect. intros _ p2 H2.
  eapply post_bind; [by apply (acc_args f IH)|]. intros args p3 Ha. apply post_set, post_cur.
  apply post_expect. intros _ p4 H4. destruct args as [|a [|b [|c args]]]; try done. 
  change (lambdaArg "map") with (Some 1%nat). cbn.
  destruct (isLambda b) eqn:El; [|done]. apply post_ret. split; [|done]. apply tree_of. cbn.
  destruct Ha as [Hs Hb]. specialize (Hb El). destruct b; try done. cbn in Hb.
  apply andb_prop in Hb as [Hb Hx]. by rewrite Hs, Hb, Hx.
Qed.

Lemma accept_args p l : args_ok l -> post (fun l' _ => args_ok l') (args_loop (S f) (lambdaArg "map") l) p.
Proof.
  intros Hl. cbn [args_loop]. apply post_is. destruct (tok_is Bracket ")" (at_ 0 p)); [by apply post_ret|].
  apply post_separator. intros _ p1 _. apply post_set. eapply post_bind; [apply (acc_expr f IH)|].
  intros a p2 [[Hs Hb] H2]. apply (acc_args f IH). apply args_ok_app; [done| |done].
  intros H0. apply Hs. cbn. rewrite H0. by apply bool_decide_eq_false.
Qed.

Lemma accept_items p l fl : lambdaOK p = false -> forallb supported l = true ->
  post (gives fl) (items_loop (S f) l) p.
Proof.
  intros Hp Hl. cbn [items_loop]. apply post_is.
  assert (Hend : forall p, lambdaOK p = false -> post (gives fl) (_ ← expect Bracket "]"; mret (ArrayNode l)) p).
  { intros q Hq. apply post_expect. intros _ q' Hq'. apply post_ret. split; [|congruence]. by apply tree_of. }
  destruct (tok_is Bracket "]" (at_ 0 p)); [by apply Hend|]. apply post_separator. intros _ p1 H1. apply post_is.
  destruct (negb _ && _); [apply Hend; congruence|].
  eapply post_bind; [apply plain_expr; congruence|]. intros a p2 [Ha H2]. apply (acc_items f IH); [done|].
  rewrite forallb_app, Hl. cbn. by rewrite Ha.
Qed.

Lemma accept_fields p l fl : lambdaOK p = false ->
  forallb (fun '(_, x) => supported x) l && distinct l.*1 = true -> post (gives fl) (fields_loop (S f) l) p.
Proof.
  intros Hp Hl. cbn [fields_loop]. apply post_is.
  assert (Hend : forall p, lambdaOK p = false -> post (gives fl) (_ ← expect Bracket "}"; mret (ObjectNode l)) p).
  { intros q Hq. apply post_expect. intros _ q' Hq'. apply post_ret. split; [|congruence]. by apply tree_of. }
  destruct (tok_is Bracket "}" (at_ 0 p)); [by apply Hend|]. apply post_separator. intros _ p1 H1. apply post_is.
  destruct (negb _ && _); [apply Hend; congruence|]. apply post_cur. destruct (negb _); [done|].
  apply post_next. intros p2 H2. destruct (existsb _ _) eqn:Ek; [done|]. apply post_expect. intros _ p3 H3.
  eapply post_bind; [apply plain_expr; congruence|]. intros a p4 [Ha H4]. apply (acc_fields f IH); [done|].
  apply andb_prop in Hl as [Hl Hd]. rewrite forallb_app, Hl. cbn. rewrite Ha. cbn.
  rewrite fmap_app. by apply distinct_app.
Qed.

Lemma accept_primary p : post (gives (lambdaOK p)) (parsePrimary (S f)) p.
Proof.
  cbn [parsePrimary]. apply (post_set _ false). set (q := mkParser (toks p) false). apply post_cur.
  assert (Hleaf : forall t n, supported n = true -> post (gives (lambdaOK p)) (_ ← next; mret n) q).
  { intros t n Hn. apply post_next. intros p1 H1. apply post_ret. split; [by apply tree_of|done]. }
  destruct (tok_is Operator "#" _); [done|]. destruct (tok_is Operator "." _); [done|].
  destruct (tkind (at_ 0 q)); try done.
  - destruct (String.eqb (text (at_ 0 q)) "true"); [by apply (Hleaf (at_ 0 q))|].
    destruct (String.eqb (text (at_ 0 q)) "false"); [by apply (Hleaf (at_ 0 q))|].
    destruct (String.eqb (text (at_ 0 q)) "null"); [by apply (Hleaf (at_ 0 q))|].
    destruct (String.eqb (text (at_ 0 q)) "nil"); [done|].
    unfold post. destruct (isArrow 1 q).
    { destruct (lambdaOK p); cbn [negb]; [|done]. by apply (acc_lambda f IH q). }
    destruct (tok_is Bracket "(" (at_ 1 q)); [by apply (acc_call f IH q)|by apply (Hleaf (at_ 0 q))].
  - apply post_next. intros p1 H1. unfold numberNode.
    destruct (normalizeNumber _) as [[out []]|[]]; try done; apply post_ret; split; try done; by apply tree_of.
  - destruct (String.eqb (text (at_ 0 q)) "(").
    { unfold post. destruct (lambdaParams q) as [| |names after]; [|done|].
      - apply (post_next (gives (lambdaOK p)) _ q). intros p1 H1. apply post_set.
        eapply post_bind; [apply (acc_expr f IH)|]. intros n p2 [Hn H2]. apply post_expect. intros _ p3 H3.
        apply post_ret. split; [done|congruence].
      - destruct (lambdaOK p); cbn [negb]; [|done]. by apply (acc_lambda f IH q). }
    destruct (String.eqb (text (at_ 0 q)) "[").
    { apply post_expect. intros _ p1 H1. by apply (acc_items f IH). }
    destruct (String.eqb (text (at_ 0 q)) "{"); [|done].
    apply post_expect. intros _ p1 H1. by apply (acc_fields f IH).
Qed.

End Step.

Lemma all_accepts f : accepts f.
Proof.
  induction f as [|f IH]; [by split|]. split; intros.
  - by apply accept_expr. - by apply accept_binary. - by apply accept_loop. - by apply accept_unary.
  - by apply accept_postfix. - by apply accept_primary. - by apply accept_lambda. - by apply accept_call.
  - by apply accept_args. - by apply accept_items. - by apply accept_fields.
Qed.

Lemma Parse_supported Lex src n : Parse Lex src = Ok n -> supported n = true.
Proof.
  unfold Parse, parse_tokens. destruct (Lex src) as [ts|]; [|done].
  pose proof (acc_expr _ (all_accepts (fuel_for ts)) (mkParser ts false)) as He. unfold post in He.
  destruct (parseExpr _ _) as [[m p]|]; [|done]. destruct He as [[Hs _] _].
  case_bool_decide; [|done]. intros [= <-]. by apply Hs.
Qed.

(** * The evaluator on supported trees *)

(** A construct the evaluator does not have, or a Go panic. *)
Fixpoint unsupported (e : Expr.failure) : bool :=
  match e with
  | Expr.Unsupported _ | Expr.Panicked | Expr.ParseFailed _ => true
  | Expr.AtKey _ e => unsupported e
  | _ => false
  end.

Definition fine {A} (r : result Expr.failure A) : Prop := forall e, r = Err e -> unsupported e = false.

Lemma fine_ok {A} (a : A) : fine (Ok a).
Proof. done. Qed.
Lemma fine_err {A} e : unsupported e = false -> fine (A := A) (Err e).
Proof. intros He e' [= <-]. done. Qed.
Lemma fine_bind {A B} (r : result Expr.failure A) (g : A -> result Expr.failure B) :
  fine r -> (forall a, r = Ok a -> fine (g a)) -> fine (r ≫= g).
Proof. destruct r as [a|e]; cbn; [auto|]. intros Hr _. by apply fine_err, Hr. Qed.
Lemma fine_resolved v what : fine (Expr.checkResolved v what).
Proof. destruct v; first [apply fine_ok | by apply fine_err]. Qed.

Create HintDb fine.
#[local] Hint Resolve fine_ok fine_resolved : fine.
#[local] Hint Extern 1 (fine (Err _)) => (apply fine_err; reflexivity) : fine.

Lemma fine_decimal d : fine (Expr.decimalResult d).
Proof. unfold Expr.decimalResult. repeat case_match; auto with fine. Qed.
#[local] Hint Resolve fine_decimal : fine.
Lemma fine_decBinOp op g x y : fine (Expr.decBinOp op g x y).
Proof. unfold Expr.decBinOp. repeat case_match; auto with fine. Qed.
#[local] Hint Resolve fine_decBinOp : fine.
Lemma fine_equal x y : fine (Expr.equalValues x y).
Proof. unfold Expr.equalValues. repeat case_match; auto with fine. Qed.
Lemma fine_mod x y : fine (Expr.evalMod x y).
Proof.
  unfold Expr.evalMod. destruct (negb (IsIntegral x) || negb (IsIntegral y)) eqn:E; [auto with fine|].
  apply orb_false_iff in E as [Ex Ey]. apply negb_false_iff in Ex, Ey. unfold IsIntegral in Ex, Ey.
  unfold Expr.bothDecimal. destruct (ToDecimal x); [|done]. destruct (ToDecimal y); [|done].
  repeat case_match; auto with fine.
Qed.

Lemma fine_binary op g x y : Expr.binaryOps op = Some g -> fine (g x y).
Proof.
  unfold Expr.binaryOps.
  repeat match goal with |- context [String.eqb op ?s] => destruct (String.eqb op s) end;
    try done; intros [= <-].
  1,2: apply fine_bind; [apply fine_equal|auto with fine].
  1-4: unfold Expr.numCmp; repeat case_match; auto with fine.
  - unfold Expr.evalAdd. repeat case_match; auto with fine.
  - auto with fine.
  - auto with fine.
  - unfold Expr.evalDiv. repeat case_match; auto with fine.
  - apply fine_mod.
Qed.

Lemma fine_unary op g x : Expr.unaryOps op = Some g -> fine (g x).
Proof.
  unfold Expr.unaryOps.
  repeat match goal with |- context [String.eqb op ?s] => destruct (String.eqb op s) end;
    try done; intros [= <-].
  - unfold Expr.evalNot. case_match; auto with fine.
  - unfold Expr.negateNum. case_match; auto with fine.
  - unfold Expr.requireNum. case_match; auto with fine.
Qed.

Lemma fine_member v k : fine (Expr.evalMember v k).
Proof. destruct v; cbn; auto with fine. Qed.
Lemma fine_index v i : fine (Expr.evalIndex v i).
Proof. destruct v; cbn; auto with fine. Qed.
Lemma fine_key v k : fine (Expr.readKey v k).
Proof. unfold Expr.readKey. repeat case_match; auto with fine. Qed.
#[local] Hint Resolve fine_member fine_index fine_key : fine.

(** Both tables hold the same operators. *)
Lemma operators_agree op prec : binaryPrec op = Some prec ->
  String.eqb op "??" = false -> String.eqb op "&&" || String.eqb op "||" = false ->
  exists g, Expr.binaryOps op = Some g.
Proof.
  unfold binaryPrec, Expr.binaryOps. cbn [existsb].
  repeat match goal with |- context [String.eqb op ?s] => destruct (String.eqb op s) end;
    cbn; intros; try discriminate; by eexists.
Qed.
Lemma unary_agree op : unaryOps op = true -> exists g, Expr.unaryOps op = Some g.
Proof.
  unfold unaryOps, Expr.unaryOps. cbn [existsb].
  repeat match goal with |- context [String.eqb op ?s] => destruct (String.eqb op s) end;
    cbn; intros; try discriminate; by eexists.
Qed.

Lemma supported_fine n : supported n = true -> forall E, fine (Expr.evalNode n E).
Proof.
  induction n as [s|s|s|b| |k|b k IH|b i IH|b k IHb IHk|l IH|l IH|x i b IH|g l IH|o b IH|o l r IHl IHr|c t u IHc IHt IHu]
    using Node_ind'; intros Hs E; cbn [supported] in Hs; try (by apply fine_ok).
  - cbn. case_match; auto with fine.
  - apply fine_bind; [by apply IH|auto with fine].
  - apply fine_bind; [by apply IH|auto with fine].
  - apply andb_prop in Hs as [H1 H2]. apply fine_bind; [by apply IHb|]. intros v _.
    assert (Hk : fine (_ ← Expr.checkResolved v "key access"; key ← Expr.evalNode k E; Expr.readKey v key)).
    { apply fine_bind; [auto with fine|]. intros _ _. apply fine_bind; [by apply IHk|auto with fine]. }
    destruct v; auto with fine.
  - cbn. apply fine_bind; [|auto with fine]. induction l as [|n l IHl]; [auto with fine|].
    apply Forall_cons in IH as [Hn IH]. cbn in Hs. apply andb_prop in Hs as [H1 H2].
    apply fine_bind; [by apply Hn|]. intros v _. apply fine_bind; [by apply IHl|auto with fine].
  - cbn. apply fine_bind; [|auto with fine]. apply andb_prop in Hs as [Hs _].
    generalize (@nil (string * value)). induction l as [|[k n] l IHl]; intros out; [auto with fine|].
    apply Forall_cons in IH as [Hn IH]. cbn in Hs. apply andb_prop in Hs as [H1 H2].
    apply fine_bind; [|intros v _; by apply IHl]. intros e. specialize (Hn H1 E). cbn in Hn.
    destruct (Expr.evalNode n E) as [v|e']; cbn; [done|]. intros [= <-]. cbn. by apply Hn.
  - done.
  - apply andb_prop in Hs as [Hg Hs]. destruct l as [|s [|b [|]]]; try done; [|by destruct b].
    destruct b as [| | | | | | | | | | |x i b| | | |]; try done.
    apply andb_prop in Hs as [[H1 H2]%andb_prop _]. apply Forall_cons in IH as [[IHs _] IH].
    apply Forall_cons in IH as [[_ IHb] _]. cbn [Expr.evalNode]. rewrite Hg. cbn [negb].
    apply fine_bind; [by apply IHs|]. intros src _. apply fine_bind; [auto with fine|]. intros _ _.
    destruct src as [| | | | | |items]; auto with fine. apply fine_bind; [|auto with fine].
    generalize 0. induction items as [|v items IHi]; intros j; [auto with fine|].
    apply fine_bind; [by apply IHb|]. intros w _. apply fine_bind; [apply IHi|auto with fine].
  - apply andb_prop in Hs as [H1 H2]. destruct (unary_agree o H1) as [g Hg]. cbn [Expr.evalNode]. rewrite Hg.
    apply fine_bind; [by apply IH|]. intros v _. apply fine_bind; [auto with fine|]. intros _ _. by eapply fine_unary.
  - apply andb_prop in Hs as [[Ho H1]%andb_prop H2]. destruct (binaryPrec o) as [prec|] eqn:Ep; [|done].
    cbn [Expr.evalNode]. destruct (String.eqb o "??") eqn:E1.
    { apply fine_bind; [by apply IHl|]. intros v _. destruct v; auto with fine. }
    destruct (String.eqb o "&&" || String.eqb o "||") eqn:E2.
    { apply fine_bind; [by apply IHl|]. intros v _. destruct v; auto with fine.
      case_match; [auto with fine|]. apply fine_bind; [by apply IHr|]. intros w _. destruct w; auto with fine. }
    destruct (operators_agree o prec Ep E1 E2) as [g Hg]. rewrite Hg.
    apply fine_bind; [by apply IHl|]. intros v _. apply fine_bind; [by apply IHr|]. intros w _.
    do 2 (apply fine_bind; [auto with fine|]; intros _ _). by eapply fine_binary.
  - apply andb_prop in Hs as [[H1 H2]%andb_prop H3]. apply fine_bind; [by apply IHc|]. intros v _.
    destruct (Expr.mustBool v); [by apply IHt|by apply IHu].
Qed.

(** C38. What the parser accepts the evaluator supports: evaluating parsed source, in any
    context, never answers an unsupported construct and never panics on the shape of the
    tree; a lambda outside the argument of [map], an unknown function or operator is a
    syntax error. *)
Theorem parsed_supported (Lex : string -> option (list Token)) (src : string) (n : Node)
    (context : list (string * value)) (e : Expr.failure) :
  Parse Lex src = Ok n -> Expr.EvalNode n context = Err e -> unsupported e = false.
Proof. intros Hp He. by apply (supported_fine n (Parse_supported Lex src n Hp) _ e He). Qed.

End Accepting.

#[local] Existing Instance integers.

(** A division by zero under a lambda. *)
Definition demo_lex (_ : string) : option (list Token) :=
  let o s := mkToken Operator s 0 0 in let b s := mkToken Bracket s 0 0 in
  let i s := mkToken Identifier s 0 0 in let n s := mkToken Number s 0 0 in
  Some [i "map"; b "("; i "xs"; o ","; i "x"; o "="; o ">"; n "1"; o "/"; i "x"; b ")"; eof].
Definition demo_tree : Node :=
  CallNode "map" [IdentNode "xs"; LambdaNode "x" "" (BinaryNode "/" (IntNode "1") (IdentNode "x"))].

Lemma demo_parse : Parse demo_lex "map(xs, x => 1 / x)" = Ok demo_tree.
Proof. by vm_compute. Qed.
Lemma demo_fails : Expr.EvalNode demo_tree [("xs", Arr [Num "0"])] = Err Expr.DivisionByZero.
Proof. by vm_compute. Qed.

Lemma parsed_supported_witness : unsupported Expr.DivisionByZero = false.
Proof.
  exact (parsed_supported demo_lex "map(xs, x => 1 / x)" demo_tree [("xs", Arr [Num "0"])] Expr.DivisionByZero
    demo_parse demo_fails).
Defined.

End Accepting.
