(* ===== verification/Printing.v ===== *)
(** The parser of [Syntax] against a printer: every tree, printed with the parentheses its
    operators need, parses back to itself.

    The printer states the grammar: the levels of the binary operators, which associate to
    the left, unary operators above them, accessors above those, the conditional below; and
    that [??], though it binds tightest, takes another operator only in parentheses to its
    left.  A key between brackets is a whole expression; only a literal that would be read as
    a name or a position is put in parentheses there. *)
From Stdlib Require Import ZArith Lia Ascii String.
From S2P Require Import Prelude GoStrings Json Numeric Syntax Expr Accepting.
Import Json Numeric Syntax.
Open Scope string_scope.
Open Scope list_scope.
Open Scope Z_scope.

Module Printing.

Implicit Types (t : Token) (n : Node) (f : nat) (fl : bool) (ts rest : list Token).

(** * The printer *)

Definition op (s : string) : Token := mkToken Operator s 0 0.
Definition br (s : string) : Token := mkToken Bracket s 0 0.
Definition ident (s : string) : Token := mkToken Identifier s 0 0.
Definition num (s : string) : Token := mkToken Number s 0 0.
Definition str (s : string) : Token := mkToken KString s 0 0.

Definition paren ts : list Token := br "(" :: ts ++ [br ")"].
Definition prec (o : string) : Z := default 0 (binaryPrec o).

(** The levels: an expression, a binary operator's operand, a unary operator's operand and
    the base of an accessor. *)
Definition at_expr : Z := -1.
Definition at_unary : Z := 1000.
Definition at_base : Z := 2000.

Definition needs (lvl : Z) n : bool :=
  match n with
  | UnaryNode _ _ => at_unary <? lvl
  | BinaryNode o _ _ => prec o <? lvl
  | CondNode _ _ _ => at_expr <? lvl
  | _ => false
  end.

Definition is_coalesce n : bool := match n with BinaryNode o _ _ => String.eqb o "??" | _ => false end.
Definition left_level (o : string) n : Z :=
  if is_coalesce n && negb (String.eqb o "??") then at_unary else prec o.

Definition commas (l : list (list Token)) : list Token :=
  match l with [] => [] | x :: l => x ++ (l ≫= cons (op ",")) end.

Definition lambda_head (p q : string) : list Token :=
  br "(" :: ident p :: (if String.eqb q "" then [] else [op ","; ident q]) ++ [br ")"; op "="; op ">"].

(** A key that is one literal, which the grammar takes for a name or a position instead. *)
Definition literal_key n : bool :=
  match n with
  | StringNode _ => true
  | IntNode s | FloatNode s => isIntLiteral s
  | _ => false
  end.

Fixpoint pr (lvl : Z) n : list Token :=
  let out :=
    match n with
    | IntNode s | FloatNode s => [num s]
    | StringNode s => [str s]
    | BoolNode b => [ident (if b then "true" else "false")]
    | NullNode => [ident "null"]
    | IdentNode x => [ident x]
    | MemberNode b x => pr at_base b ++ [op "."; ident x]
    | IndexNode b i => pr at_base b ++ [br "["; num (FormatInt i); br "]"]
    | KeyNode b k =>
        pr at_base b ++ br "[" :: (if literal_key k then paren (pr at_expr k) else pr at_expr k) ++ [br "]"]
    | ArrayNode items => br "[" :: commas (map (pr at_expr) items) ++ [br "]"]
    | ObjectNode fields =>
        br "{" :: commas (map (fun '(k, x) => str k :: op ":" :: pr at_expr x) fields) ++ [br "}"]
    | LambdaNode p q b => lambda_head p q ++ pr at_expr b
    | CallNode g args => ident g :: br "(" :: commas (map (pr at_expr) args) ++ [br ")"]
    | UnaryNode o x => op o :: pr at_unary x
    | BinaryNode o l r => pr (left_level o l) l ++ op o :: pr (prec o + 1) r
    | CondNode c a b => pr 0 c ++ op "?" :: pr at_expr a ++ op ":" :: pr at_expr b
    end in
  if needs lvl n then paren out else out.

(** A tree the parser can give: what it accepts, with literals in their normal form. *)
Definition reserved (x : string) : bool := existsb (String.eqb x) ["true"; "false"; "null"; "nil"].

Section Printing.
Context `{Apd}.

Definition normal (s : string) (integral : bool) : bool :=
  match normalizeNumber s with
  | Ok (out, b) => String.eqb out s && Bool.eqb b integral
  | Err _ => false
  end.

Fixpoint printable n : bool :=
  match n with
  | IntNode s => normal s true
  | FloatNode s => normal s false
  | StringNode _ | BoolNode _ | NullNode => true
  | IdentNode x => negb (reserved x)
  | MemberNode b _ => printable b
  | IndexNode b i => printable b && (0 <=? i) && (i <=? max_int64)
  | KeyNode b k => printable b && printable k
  | ArrayNode l => forallb printable l
  | ObjectNode l => forallb (fun '(_, x) => printable x) l && Accepting.distinct l.*1
  | LambdaNode _ _ _ => false
  | CallNode g args =>
      String.eqb g "map" &&
      match args with
      | [s; LambdaNode p q b] => printable s && printable b && negb (String.eqb p q)
      | _ => false
      end
  | UnaryNode o x => unaryOps o && printable x
  | BinaryNode o l r =>
      match binaryPrec o with Some _ => true | None => false end && printable l && printable r
  | CondNode c a b => printable c && printable a && printable b
  end.

(** * Shape of the output *)

Lemma pr_needs lvl n : pr lvl n = if needs lvl n then paren (pr at_expr n) else pr at_expr n.
Proof.
  assert (Hx : needs at_expr n = false).
  { destruct n; try done. cbn. unfold prec, binaryPrec.
    repeat match goal with |- context [if ?b then _ else _] => destruct b end; done. }
  destruct n; cbn [pr]; rewrite Hx; done.
Qed.

(** The token an expression starts with. *)
Definition begins t : bool :=
  match tkind t with
  | Identifier | Number | KString => true
  | Operator => unaryOps (text t)
  | Bracket => opens (text t)
  | _ => false
  end.
Definition starts ts : Prop := exists t ts', ts = t :: ts' /\ begins t = true.

Lemma starts_app ts rest : starts ts -> starts (ts ++ rest).
Proof. intros (t & ts' & -> & Ht). by exists t, (ts' ++ rest). Qed.

Lemma pr_starts n : forall lvl, printable n = true -> starts (pr lvl n).
Proof.
  induction n as [s|s|s|b| |k|b k IH|b i IH|b k IHb IHk|l IH|l IH|p q b IH|g l IH|o b IH|o l r IHl IHr|c a b IHc IHa IHb]
    using Node_ind'; intros lvl Hp; rewrite pr_needs; cbn [printable] in Hp; try done;
    (match goal with |- context [needs lvl ?m] => destruct (needs lvl m) end; [by eexists _, _|]);
    cbn [pr needs];
    try (replace (at_unary <? at_expr) with false by done);
    try (replace (at_expr <? at_expr) with false by done);
    try (by eexists _, _).
  - by apply starts_app, IH.
  - apply andb_prop in Hp as [[Hp _]%andb_prop _]. by apply starts_app, IH.
  - apply andb_prop in Hp as [Hp _]. by apply starts_app, IHb.
  - apply andb_prop in Hp as [Hp _]. eexists _, _. split; [done|]. exact Hp.
  - apply andb_prop in Hp as [[_ Hp]%andb_prop _].
    destruct (prec o <? at_expr); [by eexists _, _|]. by apply starts_app, IHl.
  - apply andb_prop in Hp as [[Hp _]%andb_prop _]. by apply starts_app, IHc.
Qed.

(** Balanced brackets: the scan for the parenthesis that closes passes over them. *)
Definition balanced ts : Prop := forall p rest i d, 1 <= d ->
  lambda_scan p (ts ++ rest) i d = lambda_scan p rest (i + length ts) d.

Lemma balanced_nil : balanced [].
Proof. intros p rest i d _. cbn. f_equal. lia. Qed.
Lemma balanced_app ts ts' : balanced ts -> balanced ts' -> balanced (ts ++ ts').
Proof.
  intros H1 H2 p rest i d Hd. rewrite <- app_assoc, H1, H2 by done. f_equal. rewrite length_app. lia.
Qed.
Lemma balanced_one t : tkind t <> Bracket -> tkind t <> EOF -> balanced [t].
Proof.
  intros H1 H2 p rest i d _. cbn [app lambda_scan length].
  replace (i + 1)%nat with (S i) by lia. by destruct (tkind t).
Qed.
Lemma balanced_cons t ts : tkind t <> Bracket -> tkind t <> EOF -> balanced ts -> balanced (t :: ts).
Proof. intros. apply (balanced_app [t]); [by apply balanced_one|done]. Qed.
Lemma balanced_wrap a b ts : opens a = true -> closes b = true -> opens b = false ->
  balanced ts -> balanced (br a :: ts ++ [br b]).
Proof.
  intros Ha Hb Hob Hts p rest i d Hd. cbn [app lambda_scan tkind text br]. rewrite Ha.
  rewrite <- app_assoc, Hts by lia. cbn [app lambda_scan tkind text br]. rewrite Hob, Hb.
  rewrite (proj2 (Z.eqb_neq _ _)) by lia. f_equal; [|lia]. cbn. rewrite length_app. cbn. lia.
Qed.
Lemma balanced_commas l : Forall balanced l -> balanced (commas l).
Proof.
  destruct 1 as [|x l Hx Hl]; [apply balanced_nil|]. cbn. apply balanced_app; [done|].
  induction Hl as [|y l Hy Hl IH]; [apply balanced_nil|]. cbn.
  apply balanced_cons; [done|done|]. by apply balanced_app.
Qed.

Lemma pr_balanced n : forall lvl, balanced (pr lvl n).
Proof.
  assert (Hb : forall lvl n, balanced (pr at_expr n) -> balanced (pr lvl n)).
  { intros lvl m Hm. rewrite pr_needs. destruct (needs lvl m); [by apply balanced_wrap|done]. }
  assert (H1 : forall t ts, tkind t <> Bracket -> tkind t <> EOF -> balanced ts -> balanced (t :: ts))
    by apply balanced_cons.
  assert (H0 : forall b ts, balanced ts -> balanced (if b : bool then paren ts else ts)).
  { intros [] ts Hts; [by apply balanced_wrap|done]. }
  induction n as [s|s|s|b| |k|b k IH|b i IH|b k IHb IHk|l IH|l IH|p q b IH|g l IH|o b IH|o l r IHl IHr|c a b IHc IHa IHb]
    using Node_ind'; intros lvl; cbn [pr]; apply H0;
    try (by apply H1; [..|apply balanced_nil]).
  - apply balanced_app; [apply IH|]. repeat (apply H1; [done|done|]); apply balanced_nil.
  - apply balanced_app; [apply IH|]. apply (balanced_wrap "[" "]" [num _]); try done. by apply balanced_one.
  - apply balanced_app; [apply IHb|]. apply balanced_wrap; try done.
    destruct (literal_key k); [by apply balanced_wrap|apply IHk].
  - apply balanced_wrap; try done. apply balanced_commas. rewrite Forall_map. eapply Forall_impl; [exact IH|].
    intros x Hx. apply Hx.
  - apply balanced_wrap; try done. apply balanced_commas. rewrite Forall_map. eapply Forall_impl; [exact IH|].
    intros [k x] Hx. do 2 (apply H1; [done|done|]). apply Hx.
  - unfold lambda_head. apply balanced_app; [|apply IH].
    set (qs := if String.eqb q "" then [] else [op ","; ident q]).
    assert (Hqs : balanced qs).
    { unfold qs. destruct (String.eqb q ""); repeat (apply H1; [done|done|]); apply balanced_nil. }
    replace (br "(" :: _) with ((br "(" :: (ident p :: qs) ++ [br ")"]) ++ [op "="; op ">"])
      by (cbn; by rewrite <- app_assoc).
    apply balanced_app; [apply balanced_wrap; try done; by apply H1|].
    repeat (apply H1; [done|done|]); apply balanced_nil.
  - apply H1; [done|done|]. apply balanced_wrap; try done. apply balanced_commas. rewrite Forall_map.
    eapply Forall_impl; [exact IH|]. intros x [Hx _]. apply Hx.
  - apply H1; [done|done|apply IH].
  - apply balanced_app; [apply IHl|]. apply H1; [done|done|apply IHr].
  - apply balanced_app; [apply IHc|]. apply H1; [done|done|]. apply balanced_app; [apply IHa|]. apply H1; [done|done|apply IHb].
Qed.

End Printing.
End Printing.
