(* ===== verification/Reparsing.v ===== *)
(** The round trip of [Printing]: the parser of [Syntax] reads back what the printer wrote.

    Each claim is stated with the fuel it needs, eight for every token that is left and a
    rank, as in [Parsing], and for any permission to parse a lambda. *)
From Stdlib Require Import ZArith Lia Ascii String.
From S2P Require Import Prelude GoStrings Json Numeric Syntax Expr Accepting Printing.
Import Json Numeric Syntax Printing.
Open Scope string_scope.
Open Scope list_scope.
Open Scope Z_scope.

Module Reparsing.

Implicit Types (t : Token) (n : Node) (f : nat) (fl : bool) (ts rest : list Token).

Lemma bind_step {A B} (m : P A) (g : A -> P B) p a p' : m p = Ok (a, p') -> (m ≫= g) p = g a p'.
Proof. intros E. unfold mbind, P_bind. by rewrite E. Qed.

Lemma expect_step {B} k val (g : Token -> P B) t ts fl : tok_is k val t = true ->
  (expect k val ≫= g) (mkParser (t :: ts) fl) = g t (mkParser ts fl).
Proof. intros E. unfold expect, mbind, P_bind, cur. cbn. by rewrite E. Qed.

(** * Literals *)

Lemma ToLower_small c s : byte c < 65 -> ToLower (String c s) = String c (ToLower s).
Proof.
  intros Hc. cbn.
  assert ((byte c =? 0xC4) = false) as -> by (apply Z.eqb_neq; lia).
  assert ((byte c =? 0xE2) = false) as -> by (apply Z.eqb_neq; lia).
  assert ((65 <=? byte c) = false) as -> by (apply Z.leb_gt; lia).
  cbn. by destruct s as [|d [|]].
Qed.

Lemma digits_plain s : all_digits s = true ->
  drop_underscores s = s /\ ToLower s = s /\ has_point_or_e s = false.
Proof.
  induction s as [|c s IH]; [done|]. intros [Hc Hs]%andb_prop. destruct (IH Hs) as (E1 & E2 & E3).
  unfold is_digit in Hc. apply andb_prop in Hc as [H1%Z.leb_le H2%Z.leb_le].
  rewrite ToLower_small by lia. cbn. rewrite E1, E2, E3.
  assert ((byte c =? 95) = false) as -> by (apply Z.eqb_neq; lia).
  assert ((byte c =? 46) = false) as -> by (apply Z.eqb_neq; lia).
  assert ((byte c =? 101) = false) as -> by (apply Z.eqb_neq; lia). done.
Qed.

Lemma digits_unprefixed s : all_digits s = true -> prefixed s = None.
Proof.
  intros Hs. unfold prefixed. destruct (digits_plain s Hs) as (_ & -> & _).
  assert (Hp : forall a b, is_digit b = false -> HasPrefix s (String a (String b "")) = false).
  { intros a b Hb. unfold HasPrefix. destruct s as [|c [|d s]]; [done|by cbn; destruct (Ascii.eqb a c)|cbn].
    destruct (Ascii.eqb a c); [|done]. destruct (Ascii.eqb_spec b d) as [<-|]; [|done].
    cbn in Hs. rewrite Hb in Hs. by destruct (is_digit c). }
  by rewrite !Hp.
Qed.

Lemma index_literal i : 0 <= i <= max_int64 ->
  isIntLiteral (FormatInt i) = true /\ parseIndex (FormatInt i) = Some i.
Proof.
  intros Hi. assert (FormatInt i = FormatNat i) as ->.
  { unfold FormatInt. by rewrite (proj2 (Z.ltb_ge i 0)) by lia. }
  destruct (FormatNat_spec i) as (Ha & _ & _); [lia|]. destruct (digits_plain _ Ha) as (E1 & E2 & E3).
  unfold isIntLiteral, parseIndex. rewrite E1, (digits_unprefixed _ Ha), E2, E3.
  split; [done|]. by apply ParseInt10_FormatNat.
Qed.

(** * What follows *)

Definition head ts : Token := default eof (ts !! 0%nat).

(** No arrow and no call. *)
Definition ok0 rest : Prop :=
  tok_is Operator "=" (head rest) = false /\ tok_is Bracket "(" (head rest) = false.
(** No accessor either. *)
Definition ok1 rest : Prop :=
  ok0 rest /\ tok_is Operator "." (head rest) = false /\ tok_is Bracket "[" (head rest) = false.
Definition next_prec rest : option Z :=
  if bool_decide (tkind (head rest) = Operator) then binaryPrec (text (head rest)) else None.
Definition ok_expr rest : Prop :=
  ok1 rest /\ next_prec rest = None /\ tok_is Operator "?" (head rest) = false.

Lemma ok_expr_bracket b rest : opens b = false -> ok_expr (br b :: rest).
Proof.
  intros Hb. unfold opens in Hb. cbn in Hb. apply orb_false_iff in Hb as [H1 [H2 _]%orb_false_iff].
  split; [split; [split|split]|split]; try done; cbn; by rewrite ?H1, ?H2.
Qed.

Section Reparsing.
Context `{Apd}.

Lemma binary_op o q : binaryPrec o = Some q ->
  10 <= q <= 500 /\ String.eqb o "." = false /\ String.eqb o "=" = false /\ String.eqb o "#" = false.
Proof.
  unfold binaryPrec. intros E.
  assert (Hne : forall s, binaryPrec s = None -> String.eqb o s = false).
  { intros s Hs. destruct (String.eqb_spec o s) as [->|]; [|done]. unfold binaryPrec in Hs. congruence. }
  split; [|by rewrite !Hne].
  repeat match type of E with context [if ?b then _ else _] => destruct b end; try done; injection E as <-; lia.
Qed.

Lemma tok_is_op s o : tok_is Operator s (op o) = String.eqb o s.
Proof. unfold tok_is. by rewrite bool_decide_true. Qed.

Lemma unary_op o : unaryOps o = true -> String.eqb o "#" = false /\ String.eqb o "." = false.
Proof.
  intros Ho. assert (Hne : forall s, unaryOps s = false -> String.eqb o s = false).
  { intros s Hs. destruct (String.eqb_spec o s) as [->|]; [|done]. congruence. }
  by rewrite !Hne.
Qed.

(** The loops where what follows is not theirs. *)
Lemma postfix_stops f n rest fl : (1 <= f)%nat -> ok1 rest ->
  parsePostfix f n (mkParser rest fl) = Ok (n, mkParser rest fl).
Proof.
  intros Hf (_ & H1 & H2). destruct f as [|f]; [lia|]. cbn [parsePostfix].
  unfold mbind, P_bind, cur. cbn beta iota. change (at_ 0 (mkParser rest fl)) with (head rest). by rewrite H1, H2.
Qed.

Lemma loop_stops f m n o rest fl : (1 <= f)%nat ->
  match next_prec rest with Some q => q < m | None => True end ->
  binary_loop f m n o (mkParser rest fl) = Ok (n, mkParser rest fl).
Proof.
  intros Hf Hq. destruct f as [|f]; [lia|]. cbn [binary_loop].
  unfold mbind, P_bind, cur. cbn beta iota. change (at_ 0 (mkParser rest fl)) with (head rest).
  unfold next_prec in Hq. destruct (bool_decide _); cbn [negb]; [|done].
  destruct (binaryPrec _) as [q|]; [|done]. by rewrite (proj2 (Z.ltb_lt q m)).
Qed.

(** * The claims *)

Definition fits f ts (rank : nat) : Prop := (8 * length ts + rank <= f)%nat.

Definition reads_base n : Prop := forall rest fl f, ok0 rest -> fits f (pr at_base n ++ rest) 2 ->
  exists f', fits f' rest 1 /\
    parseUnary f (mkParser (pr at_base n ++ rest) fl) = parsePostfix f' n (mkParser rest false).

Definition reads_unary n : Prop := forall rest fl f, ok1 rest -> fits f (pr at_unary n ++ rest) 2 ->
  parseUnary f (mkParser (pr at_unary n ++ rest) fl) = Ok (n, mkParser rest false).

(** The operator that was just read, when [n] is printed bare at [lvl]. *)
Definition root_op (lvl : Z) n : string :=
  match n with BinaryNode o _ _ => if prec o <? lvl then "" else o | _ => "" end.

Definition reads_binary n : Prop := forall m lvl rest fl f, 0 <= m <= lvl -> lvl <= at_unary -> ok1 rest ->
  match next_prec rest with Some q => q <= lvl | None => True end ->
  fits f (pr lvl n ++ rest) 3 ->
  exists f', fits f' rest 1 /\
    parseBinary f m (mkParser (pr lvl n ++ rest) fl) =
    binary_loop f' m n (root_op lvl n) (mkParser rest false).

Definition reads_expr n : Prop := forall rest fl f, ok_expr rest -> fits f (pr at_expr n ++ rest) 4 ->
  parseExpr f (mkParser (pr at_expr n ++ rest) fl) = Ok (n, mkParser rest false).

Definition reads n : Prop := reads_base n /\ reads_unary n /\ reads_binary n /\ reads_expr n.

Ltac fuel := unfold fits in *; do 3 (cbn [length app] in *; rewrite ?length_app in *);
  cbn [length] in *; lia.

(** [parsePrimary] by the token in front. *)
Lemma primary_open f ts fl : let p := mkParser (br "(" :: ts) false in
  parsePrimary (S f) (mkParser (br "(" :: ts) fl) =
  match lambdaParams p with
  | BadParams => Err (LambdaNames (at_ 1 p))
  | Params names after => if negb fl then Err (LambdaPlace (br "(")) else parseLambda f names after p
  | NotLambda => (_ ← set_lambdaOK fl; n ← parseExpr f; _ ← expect Bracket ")"; mret n) (mkParser ts false)
  end.
Proof. done. Qed.
Lemma primary_list f ts fl :
  parsePrimary (S f) (mkParser (br "[" :: ts) fl) = items_loop f [] (mkParser ts false).
Proof. done. Qed.
Lemma primary_object f ts fl :
  parsePrimary (S f) (mkParser (br "{" :: ts) fl) = fields_loop f [] (mkParser ts false).
Proof. done. Qed.
Lemma primary_number f s ts fl :
  parsePrimary (S f) (mkParser (num s :: ts) fl) = numberNode (num s) (mkParser ts false).
Proof. done. Qed.
Lemma primary_string f s ts fl :
  parsePrimary (S f) (mkParser (str s :: ts) fl) = Ok (StringNode s, mkParser ts false).
Proof. done. Qed.
Lemma primary_bool f (b : bool) ts fl :
  parsePrimary (S f) (mkParser (ident (if b then "true" else "false") :: ts) fl) = Ok (BoolNode b, mkParser ts false).
Proof. by destruct b. Qed.
Lemma primary_null f ts fl :
  parsePrimary (S f) (mkParser (ident "null" :: ts) fl) = Ok (NullNode, mkParser ts false).
Proof. done. Qed.
Lemma primary_ident f x ts fl : reserved x = false ->
  let p := mkParser (ident x :: ts) false in
  parsePrimary (S f) (mkParser (ident x :: ts) fl) =
  if isArrow 1 p then (if negb fl then Err (LambdaPlace (ident x)) else parseLambda f [x] 3 p)
  else if tok_is Bracket "(" (at_ 1 p) then parseCall f (ident x) p
  else Ok (IdentNode x, mkParser ts false).
Proof.
  unfold reserved. cbn [existsb]. rewrite !orb_false_iff. intros (H1 & H2 & H3 & H4 & _). cbn zeta.
  cbn [parsePrimary]. unfold set_lambdaOK, cur, mbind, P_bind. cbn beta iota.
  change (at_ 0 _) with (ident x). cbn [tkind text ident tok_is].
  change (tok_is Operator "#" (ident x)) with false. change (tok_is Operator "." (ident x)) with false.
  cbn beta iota. by rewrite H1, H2, H3, H4.
Qed.

(** Between parentheses. *)
Lemma primary_paren n rest fl f : reads_expr n -> ok0 rest ->
  fits f (paren (pr at_expr n) ++ rest) 1 ->
  parsePrimary f (mkParser (paren (pr at_expr n) ++ rest) fl) = Ok (n, mkParser rest false).
Proof.
  intros Hn [He _] Hf. destruct f as [|f]; [fuel|]. unfold paren in *. cbn [app] in *.
  rewrite <- app_assoc in *. cbn [app] in *.
  set (p := mkParser (br "(" :: pr at_expr n ++ br ")" :: rest) false).
  assert (Hs : lambdaParams p = NotLambda).
  { unfold lambdaParams. subst p. cbn [toks lambda_scan br tkind text opens existsb orb]. cbn [String.eqb Ascii.eqb Bool.eqb].
    rewrite pr_balanced by lia. cbn [lambda_scan br tkind text].
    change (opens ")") with false. change (closes ")") with true. cbn beta iota.
    replace (isArrow _ _) with false; [done|]. unfold isArrow.
    replace (at_ _ _) with (head rest); [by rewrite He|]. unfold at_, head. cbn [toks].
    replace (S (1 + length (pr at_expr n))) with (length (br "(" :: pr at_expr n) + 1)%nat by (cbn; lia).
    change (br "(" :: pr at_expr n ++ br ")" :: rest) with ((br "(" :: pr at_expr n) ++ br ")" :: rest).
    rewrite lookup_app_r by lia. replace (_ - _)%nat with 1%nat by lia. done. }
  rewrite primary_open. fold p. rewrite Hs.
  rewrite (bind_step _ _ _ tt (mkParser (pr at_expr n ++ br ")" :: rest) fl)) by done.
  rewrite (bind_step _ _ _ n (mkParser (br ")" :: rest) false)) by (apply Hn; [by apply ok_expr_bracket|fuel]).
  by rewrite expect_step.
Qed.

Lemma paren_starts ts : starts (paren ts).
Proof. by eexists _, _. Qed.

(** What a production does with a primary in front. *)
Lemma unary_of_primary f t ts n rest fl : begins t = true -> tkind t <> Operator ->
  parsePrimary f (mkParser (t :: ts) fl) = Ok (n, mkParser rest false) ->
  parseUnary (S f) (mkParser (t :: ts) fl) = parsePostfix f n (mkParser rest false).
Proof.
  intros Hb Ho Hp. cbn [parseUnary]. unfold mbind at 1, P_bind at 1, cur. cbn beta iota.
  change (at_ 0 _) with t. rewrite bool_decide_false by done. cbn [andb].
  by rewrite (bind_step _ _ _ _ _ Hp).
Qed.

Lemma base_of_primary n t ts : pr at_base n = t :: ts -> begins t = true -> tkind t <> Operator ->
  (forall rest fl f, ok0 rest -> fits f (pr at_base n ++ rest) 1 ->
     parsePrimary f (mkParser (pr at_base n ++ rest) fl) = Ok (n, mkParser rest false)) ->
  reads_base n.
Proof.
  intros E Hb Ho Hp rest fl f Hr Hf. destruct f as [|f]; [fuel|]. exists f. split; [rewrite E in Hf; fuel|].
  rewrite E in *. cbn [app]. apply unary_of_primary; [done|done|]. apply Hp; [done|fuel].
Qed.

Lemma base_of_paren n : needs at_base n = true -> reads_expr n -> reads_base n.
Proof.
  intros Hn He. pose proof (pr_needs at_base n) as E. rewrite Hn in E. unfold paren in E.
  eapply base_of_primary; [exact E|done|done|]. intros rest fl f Hr Hf. rewrite E in *. by apply primary_paren.
Qed.

Lemma unary_of_base n : pr at_unary n = pr at_base n -> reads_base n -> reads_unary n.
Proof.
  intros E Hb rest fl f Hr Hf. rewrite E in *. destruct (Hb rest fl f (proj1 Hr) Hf) as (f' & Hf' & ->).
  apply postfix_stops; [fuel|done].
Qed.

Lemma binary_of_unary n m lvl rest fl f : pr lvl n = pr at_unary n -> root_op lvl n = "" ->
  reads_unary n -> ok1 rest -> fits f (pr lvl n ++ rest) 3 ->
  exists f', fits f' rest 1 /\
    parseBinary f m (mkParser (pr lvl n ++ rest) fl) =
    binary_loop f' m n (root_op lvl n) (mkParser rest false).
Proof.
  intros E Hr Hu Hok Hf. rewrite E, Hr in *. destruct f as [|f]; [fuel|]. exists f. split; [fuel|].
  cbn [parseBinary]. by rewrite (bind_step _ _ _ n (mkParser rest false)) by (apply Hu; [done|fuel]).
Qed.

Lemma expr_of_binary n : pr at_expr n = pr 0 n -> reads_binary n -> reads_expr n.
Proof.
  intros E Hb rest fl f (Hok & Hp & Hq) Hf. rewrite E in *. destruct f as [|f]; [fuel|].
  destruct (Hb 0 0 rest fl f) as (f' & Hf' & E'); [lia|done|done|by rewrite Hp|fuel|].
  rewrite loop_stops in E'; [|fuel|by rewrite Hp]. cbn [parseExpr].
  rewrite (bind_step _ _ _ _ _ E'). unfold is_, mbind, P_bind, cur. cbn.
  change (at_ 0 (mkParser rest false)) with (head rest). by rewrite Hq.
Qed.

(** A tree that is a base needs no parentheses anywhere. *)
Lemma reads_of_base n : (forall lvl, needs lvl n = false) -> (forall lvl, root_op lvl n = "") ->
  reads_base n -> reads n.
Proof.
  intros Hn Hr Hb. assert (E : forall lvl lvl', pr lvl n = pr lvl' n).
  { intros lvl lvl'. by rewrite (pr_needs lvl), (pr_needs lvl'), !Hn. }
  assert (Hu : reads_unary n) by by apply unary_of_base.
  assert (Hbin : reads_binary n).
  { intros m lvl rest fl f Hm Hl Hok Hq Hf. by apply binary_of_unary. }
  split; [done|]. split; [done|]. split; [done|]. by apply expr_of_binary.
Qed.

(** * Leaves *)

Lemma normal_number s b : normal s b = true -> forall p,
  numberNode (num s) p = Ok ((if b then IntNode s else FloatNode s), p).
Proof.
  unfold normal, numberNode. cbn [text num]. destruct (normalizeNumber s) as [[out c]|]; [|done].
  intros [->%String.eqb_eq ->%Bool.eqb_prop]%andb_prop p. by destruct b.
Qed.

Ltac leaf := intros; apply reads_of_base; [done|done|]; eapply base_of_primary; [reflexivity|done|done|];
  intros rest fl f Hr Hf; (destruct f as [|f]; [fuel|]); cbn [pr needs app] in *.

Lemma reads_Int s : printable (IntNode s) = true -> reads (IntNode s).
Proof. leaf. rewrite primary_number. by rewrite (normal_number s true). Qed.
Lemma reads_Float s : printable (FloatNode s) = true -> reads (FloatNode s).
Proof. leaf. rewrite primary_number. by rewrite (normal_number s false). Qed.
Lemma reads_String s : reads (StringNode s).
Proof. leaf. apply primary_string. Qed.
Lemma reads_Bool b : reads (BoolNode b).
Proof. leaf. apply primary_bool. Qed.
Lemma reads_Null : reads NullNode.
Proof. leaf. apply primary_null. Qed.
Lemma reads_Ident x : printable (IdentNode x) = true -> reads (IdentNode x).
Proof.
  leaf. cbn [printable] in *. rewrite primary_ident by by apply negb_true_iff. cbn zeta.
  unfold isArrow. change (at_ 1 _) with (head rest). destruct Hr as [-> ->]. done.
Qed.

(** * Accessors *)

Lemma base_step b n ts : reads_base b -> pr at_base n = pr at_base b ++ ts ->
  (forall rest, ok0 (ts ++ rest)) ->
  (forall f rest, ok0 rest -> fits f (ts ++ rest) 1 -> exists f', fits f' rest 1 /\
     parsePostfix f b (mkParser (ts ++ rest) false) = parsePostfix f' n (mkParser rest false)) ->
  reads_base n.
Proof.
  intros Hb E Hts Hstep rest fl f Hr Hf. rewrite E, <- app_assoc in *.
  destruct (Hb (ts ++ rest) fl f (Hts rest) Hf) as (f1 & Hf1 & ->).
  destruct (Hstep f1 rest Hr Hf1) as (f2 & Hf2 & ->). by exists f2.
Qed.

Lemma reads_Member b x : reads b -> reads (MemberNode b x).
Proof.
  intros [Hb _]. apply reads_of_base; [done|done|]. eapply base_step; [exact Hb|reflexivity|done|].
  intros f rest Hr Hf. destruct f as [|f]; [fuel|]. exists f. split; [fuel|done].
Qed.

Lemma postfix_index f b s i ts : isIntLiteral s = true -> parseIndex s = Some i ->
  parsePostfix (S f) b (mkParser (br "[" :: num s :: br "]" :: ts) false) =
  parsePostfix f (IndexNode b i) (mkParser ts false).
Proof.
  intros H1 H2. transitivity ((if isIntLiteral s && true then
    match parseIndex s with
    | None => fail (InvalidIndex (num s))
    | Some n => _ ← next; parsePostfix f (IndexNode b n)
    end else key ← parseExpr f; _ ← expect Bracket "]"; parsePostfix f (KeyNode b key))
    (mkParser ((if isIntLiteral s && true then [] else [num s]) ++ br "]" :: ts) false)).
  - rewrite H1. cbn [andb].
    cbn [parsePostfix]. rewrite (bind_step _ _ _ (br "[") (mkParser (br "[" :: num s :: br "]" :: ts) false)) by done.
    change (tok_is Operator "." (br "[")) with false. change (tok_is Bracket "[" (br "[")) with true. cbn beta iota.
    rewrite (bind_step _ _ _ (br "[") (mkParser (num s :: br "]" :: ts) false)) by done.
    rewrite (bind_step _ _ _ (num s) (mkParser (num s :: br "]" :: ts) false)) by done.
    rewrite (bind_step _ _ _ (br "]") (mkParser (num s :: br "]" :: ts) false)) by done.
    change (tok_is Bracket "]" (br "]")) with true.
    change (bool_decide (tkind (num s) = KString)) with false.
    change (bool_decide (tkind (num s) = Number)) with true. change (text (num s)) with s.
    rewrite H1. cbn [andb]. by rewrite (bind_step _ _ _ (num s) (mkParser (br "]" :: ts) false)) by done.
  - rewrite H1, H2. done.
Qed.

Lemma reads_Index b i : printable (IndexNode b i) = true -> reads b -> reads (IndexNode b i).
Proof.
  cbn [printable]. intros [[_ H1%Z.leb_le]%andb_prop H2%Z.leb_le]%andb_prop [Hb _].
  destruct (index_literal i (conj H1 H2)) as [E1 E2].
  apply reads_of_base; [done|done|]. eapply base_step; [exact Hb|reflexivity|done|].
  intros f rest Hr Hf. destruct f as [|f]; [fuel|]. exists f. split; [fuel|]. by apply postfix_index.
Qed.

Lemma expr_of_primary f t ts n rest fl : begins t = true -> tkind t <> Operator ->
  (forall f, fits f (t :: ts) 1 -> parsePrimary f (mkParser (t :: ts) fl) = Ok (n, mkParser rest false)) ->
  (length rest <= length ts)%nat -> ok_expr rest -> fits f (t :: ts) 4 ->
  parseExpr f (mkParser (t :: ts) fl) = Ok (n, mkParser rest false).
Proof.
  intros Hb Ho Hp Hl (Hok & Hq & He) Hf. destruct f as [|[|[|f]]]; try fuel. cbn [parseExpr].
  assert (E : parseBinary (S (S f)) 0 (mkParser (t :: ts) fl) = Ok (n, mkParser rest false)).
  { cbn [parseBinary]. rewrite (bind_step _ _ _ n (mkParser rest false)).
    - apply loop_stops; [fuel|by rewrite Hq].
    - rewrite (unary_of_primary f t ts n rest fl Hb Ho) by (apply Hp; fuel). apply postfix_stops; [fuel|done]. }
  rewrite (bind_step _ _ _ _ _ E). unfold is_, mbind, P_bind, cur. cbn.
  change (at_ 0 (mkParser rest false)) with (head rest). by rewrite He.
Qed.

(** The accessor forms of a key: a name or a position, written as one literal. *)
Definition accessor t after : bool :=
  tok_is Bracket "]" after &&
  (bool_decide (tkind t = KString) || (bool_decide (tkind t = Number) && isIntLiteral (text t))).

Lemma postfix_key f b k t ts rest : accessor t (head (ts ++ br "]" :: rest)) = false -> tok_is Bracket "]" t = false ->
  parseExpr f (mkParser (t :: ts ++ br "]" :: rest) false) = Ok (k, mkParser (br "]" :: rest) false) ->
  parsePostfix (S f) b (mkParser (br "[" :: t :: ts ++ br "]" :: rest) false) =
  parsePostfix f (KeyNode b k) (mkParser rest false).
Proof.
  intros H1 H3 He. cbn [parsePostfix]. unfold mbind at 1, P_bind at 1, cur at 1. cbn beta iota.
  change (at_ 0 _) with (br "["). change (tok_is Operator "." (br "[")) with false.
  change (tok_is Bracket "[" (br "[")) with true. cbn beta iota.
  unfold mbind at 1, P_bind at 1, next at 1, mbind at 1, P_bind at 1, cur at 1, mbind at 1, P_bind at 1, peek at 1.
  set (ts' := ts ++ br "]" :: rest) in *. cbn -[parsePostfix parseExpr isIntLiteral tok_is].
  change (default eof (ts' !! 0%nat)) with (head ts'). unfold accessor in H1. rewrite H3.
  assert (E1 : bool_decide (tkind t = KString) && tok_is Bracket "]" (head ts') = false).
  { destruct (tok_is Bracket "]" (head ts')); [|by rewrite andb_false_r]. cbn [andb] in H1.
    apply orb_false_iff in H1 as [-> _]. done. }
  assert (E2 : bool_decide (tkind t = Number) && isIntLiteral (text t) && tok_is Bracket "]" (head ts') = false).
  { destruct (tok_is Bracket "]" (head ts')); [|by rewrite andb_false_r]. cbn [andb] in H1.
    apply orb_false_iff in H1 as [_ ->]. done. }
  rewrite E1, E2. rewrite (bind_step _ _ _ _ _ He). by rewrite expect_step.
Qed.

(** A printed tree that starts with a literal is that literal, or goes on with something else
    than a closing bracket. *)
Definition leads n ts : Prop := exists t ts', ts = t :: ts' /\ begins t = true /\
  (tkind t = KString \/ tkind t = Number ->
     (ts' = [] /\ (tkind t = KString -> literal_key n = true) /\
        (tkind t = Number -> literal_key n = isIntLiteral (text t))) \/
     exists u us, ts' = u :: us /\ tok_is Bracket "]" u = false).

Lemma leads_app n n' ts u us : leads n ts -> tok_is Bracket "]" u = false -> leads n' (ts ++ u :: us).
Proof.
  intros (t & ts' & -> & Hb & Ht) Hu. exists t, (ts' ++ u :: us). split; [done|]. split; [done|]. intros Hk. right.
  destruct (Ht Hk) as [(-> & _)|(v & vs & -> & Hv)]; [by exists u, us|by exists v, (vs ++ u :: us)].
Qed.

Lemma leads_one n t ts : begins t = true -> tkind t <> KString -> tkind t <> Number -> leads n (t :: ts).
Proof. intros Hb H1 H2. exists t, ts. split; [done|]. split; [done|]. by intros []. Qed.

Lemma pr_leads n : forall lvl, printable n = true -> leads n (pr lvl n).
Proof.
  induction n as [s|s|s|b| |k|b k IH|b i IH|b k IHb IHk|l IH|l IH|p q b IH|g l IH|o b IH|o l r IHl IHr|c a b IHc IHa IHb]
    using Node_ind'; intros lvl Hp; rewrite pr_needs; cbn [printable] in Hp; try done;
    (match goal with |- context [needs lvl ?m] => destruct (needs lvl m) end; [by apply leads_one|]);
    cbn [pr needs];
    try (replace (at_unary <? at_expr) with false by done);
    try (replace (at_expr <? at_expr) with false by done);
    try (by apply leads_one);
    try (by eexists _, []; split_and!; [done|done|]; intros _; left).
  - apply (leads_app b); [by apply IH|done].
  - apply andb_prop in Hp as [[Hp _]%andb_prop _]. apply (leads_app b); [by apply IH|done].
  - apply andb_prop in Hp as [Hp _]. apply (leads_app b); [by apply IHb|done].
  - apply andb_prop in Hp as [Ho _]. by apply leads_one.
  - apply andb_prop in Hp as [[_ Hp]%andb_prop _].
    destruct (prec o <? at_expr); [by apply leads_one|]. apply (leads_app l); [by apply IHl|done].
  - apply andb_prop in Hp as [[Hp _]%andb_prop _]. apply (leads_app c); [by apply IHc|done].
Qed.

Lemma begins_open t : begins t = true -> tok_is Bracket "]" t = false.
Proof.
  intros Ht. unfold tok_is. case_bool_decide as Hk; [|done]. unfold begins in Ht. rewrite Hk in Ht. cbn.
  destruct (String.eqb_spec (text t) "]") as [E|]; [by rewrite E in Ht|done].
Qed.

Lemma reads_Key b k : printable k = true -> reads b -> reads k -> reads (KeyNode b k).
Proof.
  intros Hp [Hb _] (_ & _ & _ & Hk). apply reads_of_base; [done|done|].
  set (ks := if literal_key k then paren (pr at_expr k) else pr at_expr k).
  apply (base_step b _ (br "[" :: ks ++ [br "]"])); [done|done|done|].
  intros f rest Hr Hf. destruct f as [|f]; [fuel|]. exists f. split; [fuel|].
  assert (Hf' : fits f (ks ++ br "]" :: rest) 4) by fuel.
  cbn [app]. rewrite <- app_assoc. cbn [app]. subst ks. clear Hf. destruct (literal_key k) eqn:Ek.
  - apply (postfix_key f b k (br "(") (pr at_expr k ++ [br ")"])); [|done|].
    { unfold accessor. cbn. by rewrite andb_false_r. }
    unfold paren in Hf'. cbn [app] in Hf'.
    apply expr_of_primary; [done|done| |fuel|by apply ok_expr_bracket|fuel].
    intros g Hg. by apply (primary_paren k (br "]" :: rest) false g).
  - destruct (pr_leads k at_expr Hp) as (t & ts & E & Hbt & Hl). rewrite E in *. cbn [app].
    apply postfix_key; [|by apply begins_open|].
    + unfold accessor. destruct (decide (tkind t = KString \/ tkind t = Number)) as [Hd|Hd].
      * destruct (Hl Hd) as [(-> & H1 & H2)|(u & us & -> & Hu)]; [|cbn; change (head _) with u; by rewrite Hu].
        rewrite Ek in H1, H2. destruct Hd as [Hd|Hd]; [by specialize (H1 Hd)|]. rewrite <- (H2 Hd), Hd.
        apply andb_false_intro2. done.
      * apply andb_false_intro2. rewrite !bool_decide_false by tauto. done.
    + change (t :: ts ++ br "]" :: rest) with ((t :: ts) ++ br "]" :: rest). rewrite <- E.
      apply Hk; [by apply ok_expr_bracket|]. rewrite E. fuel.
Qed.

(** * Lists *)

Lemma begins_closes t c : closes c = true -> begins t = true -> tok_is Bracket c t = false.
Proof.
  intros Hc Ht. unfold tok_is. case_bool_decide as Hk; [|done]. unfold begins in Ht. rewrite Hk in Ht. cbn.
  destruct (String.eqb_spec (text t) c) as [<-|]; [|done]. exfalso.
  unfold opens, closes in *. cbn [existsb] in *.
  destruct (String.eqb_spec (text t) "(") as [E|_]; [by rewrite E in Hc|].
  destruct (String.eqb_spec (text t) "[") as [E|_]; [by rewrite E in Hc|].
  destruct (String.eqb_spec (text t) "{") as [E|_]; [by rewrite E in Hc|done].
Qed.

Lemma is_starts {B} k ts rest fl (g : bool -> P B) c : closes c = true -> starts ts -> k = Bracket ->
  (is_ k c ≫= g) (mkParser (ts ++ rest) fl) = g false (mkParser (ts ++ rest) fl).
Proof.
  intros Hc (t & ts' & -> & Ht) ->. unfold is_, mbind, P_bind, cur. cbn.
  change (at_ 0 _) with t. by rewrite (begins_closes t c).
Qed.

Lemma ok_expr_op o rest : o = "," \/ o = ":" -> ok_expr (op o :: rest).
Proof. by intros [-> | ->]. Qed.

Definition reads_item n : Prop := starts (pr at_expr n) /\ reads_expr n.

Lemma items_tail l : forall acc rest f, acc <> [] -> Forall reads_item l ->
  fits f ((map (pr at_expr) l ≫= cons (op ",")) ++ br "]" :: rest) 1 ->
  items_loop f acc (mkParser ((map (pr at_expr) l ≫= cons (op ",")) ++ br "]" :: rest) false) =
  Ok (ArrayNode (acc ++ l), mkParser rest false).
Proof.
  induction l as [|n l IH]; intros acc rest f Hacc Hl Hf; (destruct f as [|f]; [fuel|]).
  - cbn. by rewrite app_nil_r.
  - apply Forall_cons in Hl as [[Hs Hn] Hl]. cbn [map mbind list_bind] in *.
    set (tl := (map (pr at_expr) l ≫= cons (op ",")) ++ br "]" :: rest) in *.
    change (list_bind _ _ _ _) with (map (pr at_expr) l ≫= cons (op ",")) in *.
    rewrite <- app_assoc in *. fold tl in Hf |- *. cbn [app] in *.
    cbn [items_loop]. destruct acc as [|a acc]; [done|].
    rewrite (bind_step _ _ _ false (mkParser (op "," :: pr at_expr n ++ tl) false)) by done. cbn beta iota.
    rewrite expect_step by done. rewrite is_starts by done.
    rewrite andb_false_r. rewrite (bind_step _ _ _ n (mkParser tl false)).
    + subst tl. rewrite IH; [by rewrite <- app_assoc|by destruct acc|done|]. fuel.
    + apply Hn; [|fuel]. subst tl. destruct l; [by apply ok_expr_bracket|by apply ok_expr_op; left].
Qed.

Lemma reads_Array l : Forall reads_item l -> reads (ArrayNode l).
Proof.
  intros Hl. apply reads_of_base; [done|done|]. eapply base_of_primary; [reflexivity|done|done|].
  intros rest fl f Hr Hf. change (pr at_base (ArrayNode l)) with (br "[" :: commas (map (pr at_expr) l) ++ [br "]"]) in *.
  cbn [app] in *. rewrite <- app_assoc in *. cbn [app] in *. destruct f as [|f]; [fuel|]. rewrite primary_list.
  destruct l as [|n l]; [destruct f as [|f]; [fuel|done]|].
  apply Forall_cons in Hl as [[Hs Hn] Hl]. cbn [map commas] in *. rewrite <- app_assoc in *.
  set (tl := (map (pr at_expr) l ≫= cons (op ",")) ++ br "]" :: rest) in *.
  destruct f as [|f]; [fuel|]. cbn [items_loop]. rewrite is_starts by done. cbn beta iota.
  rewrite (bind_step _ _ _ eof (mkParser (pr at_expr n ++ tl) false)) by done.
  rewrite is_starts by done. rewrite andb_false_r.
  rewrite (bind_step _ _ _ n (mkParser tl false)).
  - apply items_tail; [done|done|]. fold tl. fuel.
  - apply Hn; [|fuel]. subst tl. destruct l; [by apply ok_expr_bracket|by apply ok_expr_op; left].
Qed.

Definition field_toks (e : string * Node) : list Token := let '(k, x) := e in str k :: op ":" :: pr at_expr x.

Lemma distinct_disjoint l l' : Accepting.distinct (l ++ l') = true ->
  forall k, In k l -> existsb (String.eqb k) l' = false.
Proof.
  induction l as [|a l IH]; intros Hd k Hk; [done|]. cbn in Hd. apply andb_prop in Hd as [H1%negb_true_iff H2].
  destruct Hk as [->|Hk]; [|by apply IH]. rewrite existsb_app in H1. by apply orb_false_iff in H1 as [_ H1].
Qed.
Lemma existsb_sym k l : existsb (String.eqb k) l = true <-> In k l.
Proof.
  rewrite existsb_exists. split; [intros (x & Hx & ->%String.eqb_eq); done|].
  intros Hk. exists k. by rewrite String.eqb_refl.
Qed.
Lemma distinct_new l k l' : Accepting.distinct (l ++ k :: l') = true -> existsb (String.eqb k) l = false.
Proof.
  intros Hd. apply not_true_iff_false. intros Hk%existsb_sym. pose proof (distinct_disjoint _ _ Hd k Hk) as E.
  cbn in E. by rewrite String.eqb_refl in E.
Qed.

(** One field, with the comma before it when it is not the first. *)
Lemma field_step f acc k x tl : existsb (String.eqb k) acc.*1 = false -> reads_expr x -> ok_expr tl ->
  fits f (pr at_expr x ++ tl) 4 ->
  fields_loop (S f) acc (mkParser ((if bool_decide (acc = []) then [] else [op ","]) ++ field_toks (k, x) ++ tl) false) =
  fields_loop f (acc ++ [(k, x)]) (mkParser tl false).
Proof.
  intros Hk Hx Htl Hf. set (body := field_toks (k, x) ++ tl).
  transitivity ((_ ← next; if existsb (String.eqb k) acc.*1 then fail (DuplicateKey k (str k)) else
     _ ← expect Operator ":"; v ← parseExpr f; fields_loop f (acc ++ [(k, v)])) (mkParser body false)).
  { cbn [fields_loop]. subst body. destruct acc as [|a acc].
    - rewrite (bind_step _ _ _ false (mkParser (field_toks (k, x) ++ tl) false)) by done. cbn beta iota.
      rewrite (bind_step _ _ _ eof (mkParser (field_toks (k, x) ++ tl) false)) by done.
      rewrite (bind_step _ _ _ false (mkParser (field_toks (k, x) ++ tl) false)) by done.
      rewrite andb_false_r. by rewrite (bind_step _ _ _ (str k) (mkParser (field_toks (k, x) ++ tl) false)) by done.
    - rewrite bool_decide_false by done. cbn [app].
      rewrite (bind_step _ _ _ false (mkParser (op "," :: field_toks (k, x) ++ tl) false)) by done. cbn beta iota.
      rewrite expect_step by done.
      rewrite (bind_step _ _ _ false (mkParser (field_toks (k, x) ++ tl) false)) by done.
      rewrite andb_false_r. by rewrite (bind_step _ _ _ (str k) (mkParser (field_toks (k, x) ++ tl) false)) by done. }
  subst body. cbn [field_toks app].
  rewrite (bind_step _ _ _ (str k) (mkParser (op ":" :: pr at_expr x ++ tl) false)) by done.
  rewrite Hk, expect_step by done. by rewrite (bind_step _ _ _ x (mkParser tl false)) by by apply Hx.
Qed.

Lemma fields_tail l : forall acc rest f, acc <> [] -> Forall (fun e => reads_expr (snd e)) l ->
  Accepting.distinct (acc ++ l).*1 = true ->
  fits f ((map field_toks l ≫= cons (op ",")) ++ br "}" :: rest) 1 ->
  fields_loop f acc (mkParser ((map field_toks l ≫= cons (op ",")) ++ br "}" :: rest) false) =
  Ok (ObjectNode (acc ++ l), mkParser rest false).
Proof.
  induction l as [|[k x] l IH]; intros acc rest f Hacc Hl Hd Hf; (destruct f as [|f]; [fuel|]).
  - cbn. by rewrite app_nil_r.
  - apply Forall_cons in Hl as [Hx Hl]. cbn [snd] in Hx.
    pose proof (field_step f acc k x ((map field_toks l ≫= cons (op ",")) ++ br "}" :: rest)) as E.
    rewrite bool_decide_false in E by done.
    replace ((map field_toks ((k, x) :: l) ≫= cons (op ",")) ++ br "}" :: rest)
      with ([op ","] ++ field_toks (k, x) ++ (map field_toks l ≫= cons (op ",")) ++ br "}" :: rest) in *
      by (cbn; by rewrite <- app_assoc).
    rewrite E.
    + rewrite IH; [by rewrite <- app_assoc|by destruct acc|done|by rewrite <- app_assoc|]. cbn [field_toks] in Hf. fuel.
    + rewrite fmap_app in Hd. by eapply distinct_new.
    + done.
    + destruct l; [by apply ok_expr_bracket|by apply ok_expr_op; left].
    + cbn [field_toks] in Hf. fuel.
Qed.

Lemma reads_Object l : Accepting.distinct l.*1 = true -> Forall (fun e => reads_expr (snd e)) l -> reads (ObjectNode l).
Proof.
  intros Hd Hl. apply reads_of_base; [done|done|]. eapply base_of_primary; [reflexivity|done|done|].
  intros rest fl f Hr Hf. change (pr at_base (ObjectNode l)) with (br "{" :: commas (map field_toks l) ++ [br "}"]) in *.
  cbn [app] in *. rewrite <- app_assoc in *. cbn [app] in *. destruct f as [|f]; [fuel|]. rewrite primary_object.
  destruct l as [|[k x] l]; [destruct f as [|f]; [fuel|done]|].
  apply Forall_cons in Hl as [Hx Hl]. cbn [snd map commas] in *. rewrite <- app_assoc in *.
  destruct f as [|f]; [fuel|].
  pose proof (field_step f [] k x ((map field_toks l ≫= cons (op ",")) ++ br "}" :: rest)) as E. cbn [app] in E.
  cbn [bool_decide decide_rel] in E. rewrite (bool_decide_true ([] = [])) in E by done. cbn [app] in E. rewrite E.
  - apply fields_tail; [done|done|done|]. cbn [field_toks] in Hf. fuel.
  - done.
  - done.
  - destruct l; [by apply ok_expr_bracket|by apply ok_expr_op; left].
  - cbn [field_toks] in Hf. fuel.
Qed.

(** * The call of map *)

Lemma lambda_primary f p q b ts rest : String.eqb p q = false -> reads_expr b -> ok_expr rest ->
  fits f (lambda_head p q ++ pr at_expr b ++ rest) 1 -> ts = lambda_head p q ++ pr at_expr b ++ rest ->
  parsePrimary f (mkParser ts true) = Ok (LambdaNode p q b, mkParser rest false).
Proof.
  intros Hpq Hb Hr Hf ->. unfold lambda_head in *. cbn [app] in *.
  destruct f as [|[|f]]; [fuel|fuel|]. rewrite primary_open. cbn zeta.
  destruct (String.eqb q "") eqn:Hq; cbn [app] in *.
  - apply String.eqb_eq in Hq as ->.
    set (p0 := mkParser _ false).
    replace (lambdaParams p0) with (Params [p] 5) by reflexivity. cbn [negb parseLambda].
    subst p0. rewrite (bind_step _ _ _ tt (mkParser (pr at_expr b ++ rest) false)) by done.
    rewrite (bind_step _ _ _ (head (pr at_expr b ++ rest)) (mkParser (pr at_expr b ++ rest) false)) by done.
    cbn [lookup list_lookup default from_option]. cbn. rewrite Hpq.
    by rewrite (bind_step _ _ _ b (mkParser rest false)) by (apply Hb; [done|fuel]).
  - set (p0 := mkParser _ false).
    replace (lambdaParams p0) with (Params [p; q] 7) by reflexivity. cbn [negb parseLambda].
    subst p0. rewrite (bind_step _ _ _ tt (mkParser (pr at_expr b ++ rest) false)) by done.
    rewrite (bind_step _ _ _ (head (pr at_expr b ++ rest)) (mkParser (pr at_expr b ++ rest) false)) by done.
    cbn. rewrite Hpq.
    by rewrite (bind_step _ _ _ b (mkParser rest false)) by (apply Hb; [done|fuel]).
Qed.

Lemma map_args f s p q b rest : reads_item s -> reads_expr b -> String.eqb p q = false ->
  fits f (pr at_expr s ++ op "," :: lambda_head p q ++ pr at_expr b ++ br ")" :: rest) 4 ->
  args_loop (S f) (Some 1%nat) []
    (mkParser (pr at_expr s ++ op "," :: lambda_head p q ++ pr at_expr b ++ br ")" :: rest) false) =
  Ok ([s; LambdaNode p q b], mkParser (br ")" :: rest) false).
Proof.
  intros [Hs Hn] Hb Hpq Hf. destruct f as [|f]; [fuel|].
  set (lam := lambda_head p q ++ pr at_expr b ++ br ")" :: rest) in *.
  remember (S f) as f0. cbn [args_loop]. rewrite is_starts by done. cbn beta iota.
  rewrite (bind_step _ _ _ eof (mkParser (pr at_expr s ++ op "," :: lam) false)) by done.
  rewrite (bind_step _ _ _ tt (mkParser (pr at_expr s ++ op "," :: lam) false)) by done.
  rewrite (bind_step _ _ _ s (mkParser (op "," :: lam) false)) by (apply Hn; [by apply ok_expr_op; left|done]).
  subst f0. cbn [args_loop app].
  rewrite (bind_step _ _ _ false (mkParser (op "," :: lam) false)) by done. cbn beta iota.
  rewrite expect_step by done.
  rewrite (bind_step _ _ _ tt (mkParser lam true)) by done.
  rewrite (bind_step _ _ _ (LambdaNode p q b) (mkParser (br ")" :: rest) false)).
  { destruct f as [|f]; [fuel|done]. }
  subst lam. unfold lambda_head in *. cbn [app] in *.
  apply expr_of_primary; [done|done| |fuel|by apply ok_expr_bracket|fuel].
  intros g Hg. by apply (lambda_primary g p q b _ (br ")" :: rest)); [done|done|by apply ok_expr_bracket|..].
Qed.

Lemma reads_Map s p q b : reads_item s -> reads_expr b -> String.eqb p q = false ->
  reads (CallNode "map" [s; LambdaNode p q b]).
Proof.
  intros Hs Hb Hpq. apply reads_of_base; [done|done|].
  assert (E : forall rest, pr at_base (CallNode "map" [s; LambdaNode p q b]) ++ rest =
    ident "map" :: br "(" :: pr at_expr s ++ op "," :: lambda_head p q ++ pr at_expr b ++ br ")" :: rest).
  { intros rest. cbn [pr needs map commas]. cbn. rewrite app_nil_r. repeat (rewrite <- app_assoc; cbn). done. }
  intros rest fl f Hr Hf. rewrite E in *.
  destruct f as [|f]; [fuel|]. exists f. split; [fuel|].
  apply unary_of_primary; [done|done|]. destruct f as [|[|[|f]]]; [fuel..|].
  rewrite primary_ident by done. cbn zeta.
  set (p0 := mkParser _ false). replace (isArrow 1 p0) with false by reflexivity.
  replace (tok_is Bracket "(" (at_ 1 p0)) with true by reflexivity. subst p0.
  remember (S f) as f0. cbn [parseCall]. change (builtins (text (ident "map"))) with (Some 2%nat). cbn beta iota.
  change (lambdaArg (text (ident "map"))) with (Some 1%nat).
  set (ts := pr at_expr s ++ op "," :: _) in *.
  rewrite (bind_step _ _ _ (ident "map") (mkParser (br "(" :: ts) false)) by done.
  rewrite expect_step by done.
  rewrite (bind_step _ _ _ [s; LambdaNode p q b] (mkParser (br ")" :: rest) false)).
  { done. }
  subst f0 ts. apply map_args; [done|done|done|fuel].
Qed.

(** * Operators *)

Lemma unary_step f o ts x rest fl : unaryOps o = true -> parseUnary f (mkParser ts fl) = Ok (x, mkParser rest false) ->
  parseUnary (S f) (mkParser (op o :: ts) fl) = Ok (UnaryNode o x, mkParser rest false).
Proof.
  intros Ho Hx. cbn [parseUnary].
  rewrite (bind_step _ _ _ (op o) (mkParser (op o :: ts) fl)) by done. cbn [tkind text op].
  rewrite Ho, bool_decide_true by done. cbn [andb].
  rewrite (bind_step _ _ _ (op o) (mkParser ts fl)) by done. by rewrite (bind_step _ _ _ _ _ Hx).
Qed.

Lemma reads_Unary o x : unaryOps o = true -> reads x -> reads (UnaryNode o x).
Proof.
  intros Ho (_ & Hx & _).
  assert (Hu : reads_unary (UnaryNode o x)).
  { intros rest fl f Hr Hf. change (pr at_unary (UnaryNode o x)) with (op o :: pr at_unary x) in *. cbn [app] in *.
    destruct f as [|f]; [fuel|]. apply unary_step; [done|]. apply Hx; [done|fuel]. }
  assert (Hb : reads_binary (UnaryNode o x)).
  { intros m lvl rest fl f Hm Hl Hok Hq Hf. apply binary_of_unary; try done.
    rewrite (pr_needs lvl), (pr_needs at_unary). cbn [needs].
    by rewrite (proj2 (Z.ltb_ge at_unary lvl)). }
  assert (He : reads_expr (UnaryNode o x)) by by apply expr_of_binary.
  split; [by apply base_of_paren|done].
Qed.

Lemma loop_step f m l prev o q ts r rest : binaryPrec o = Some q -> m <= q ->
  String.eqb prev "??" && negb (String.eqb o "??") = false ->
  parseBinary f (q + 1) (mkParser ts false) = Ok (r, mkParser rest false) ->
  binary_loop (S f) m l prev (mkParser (op o :: ts) false) =
  binary_loop f m (BinaryNode o l r) o (mkParser rest false).
Proof.
  intros Hq Hm Hprev Hr. cbn [binary_loop].
  rewrite (bind_step _ _ _ (op o) (mkParser (op o :: ts) false)) by done. cbn [tkind text op].
  rewrite bool_decide_true by done. cbn [negb]. rewrite Hq, (proj2 (Z.ltb_ge q m)), Hprev by done.
  rewrite (bind_step _ _ _ (op o) (mkParser ts false)) by done. by rewrite (bind_step _ _ _ _ _ Hr).
Qed.

Lemma left_root o l : o <> "" ->
  String.eqb (root_op (left_level o l) l) "??" && negb (String.eqb o "??") = false.
Proof.
  intros _. destruct (String.eqb o "??") eqn:Eo; [apply andb_false_r|]. rewrite andb_true_r.
  unfold left_level. rewrite Eo. cbn [negb]. rewrite andb_true_r.
  destruct l as [| | | | | | | | | | | | | |o' l r|]; try done. cbn [is_coalesce root_op].
  destruct (String.eqb o' "??") eqn:Eo'; [apply String.eqb_eq in Eo' as ->; done|].
  by destruct (prec o' <? prec o).
Qed.

Lemma left_bounds o q l : binaryPrec o = Some q -> q <= left_level o l <= at_unary.
Proof.
  intros Hq. destruct (binary_op o q Hq) as [Hb _]. unfold left_level, prec. rewrite Hq. cbn.
  destruct (_ && _); unfold at_unary; lia.
Qed.

(** The tree without parentheses. *)
Lemma binary_bare o l r m lvl rest fl f : let n := BinaryNode o l r in
  binaryPrec o <> None -> reads_binary l -> reads_binary r ->
  0 <= m <= lvl -> prec o <? lvl = false -> ok1 rest ->
  match next_prec rest with Some q => q <= lvl | None => True end ->
  fits f (pr lvl n ++ rest) 3 ->
  exists f', fits f' rest 1 /\
    parseBinary f m (mkParser (pr lvl n ++ rest) fl) = binary_loop f' m n o (mkParser rest false).
Proof.
  cbn zeta. intros Ho Hl Hr Hm Hlvl Hok Hnext Hf. destruct (binaryPrec o) as [q|] eqn:Hq; [|done].
  assert (Hp : prec o = q) by (unfold prec; by rewrite Hq).
  destruct (binary_op o q Hq) as (Hqb & Hdot & Heq & _). apply Z.ltb_ge in Hlvl.
  assert (E : pr lvl (BinaryNode o l r) ++ rest = pr (left_level o l) l ++ op o :: pr (prec o + 1) r ++ rest).
  { rewrite pr_needs. cbn [needs]. rewrite (proj2 (Z.ltb_ge (prec o) lvl)) by done. cbn [pr needs].
    rewrite (proj2 (Z.ltb_ge (prec o) at_expr)) by (unfold at_expr; lia). by rewrite <- app_assoc. }
  rewrite E in *. pose proof (left_bounds o q l Hq) as Hll.
  destruct (Hl m (left_level o l) (op o :: pr (prec o + 1) r ++ rest) fl f) as (f1 & Hf1 & ->); [lia|lia| | |exact Hf|].
  { unfold ok1, ok0. cbn [head]. change (head (op o :: _)) with (op o).
    rewrite !tok_is_op. by rewrite Hdot, Heq. }
  { unfold next_prec. change (head (op o :: _)) with (op o). cbn [tkind text op].
    rewrite bool_decide_true by done. rewrite Hq. lia. }
  destruct f1 as [|f1]; [fuel|]. exists f1. split; [fuel|].
  apply (loop_step f1 m l _ o q); [done|lia|by apply left_root; intros ->|].
  destruct (Hr (q + 1) (prec o + 1) rest false f1) as (f2 & Hf2 & E2);
    [lia|unfold at_unary; lia|done|destruct (next_prec rest); [lia|done]|fuel|].
  rewrite Hp in E2. rewrite Hp, E2. apply loop_stops; [fuel|]. destruct (next_prec rest); [lia|done].
Qed.

Lemma reads_Binary o l r : binaryPrec o <> None -> reads l -> reads r -> reads (BinaryNode o l r).
Proof.
  intros Ho (_ & _ & Hl & _) (_ & _ & Hr & _). set (n := BinaryNode o l r).
  assert (Hpo : 0 <= prec o <= 500).
  { unfold prec. destruct (binaryPrec o) as [q|] eqn:Hq; [|done]. destruct (binary_op o q Hq). cbn. lia. }
  assert (He : reads_expr n).
  { assert (E : pr at_expr n = pr 0 n).
    { rewrite (pr_needs 0). unfold n. cbn [needs]. by rewrite (proj2 (Z.ltb_ge _ 0)) by lia. }
    intros rest fl f Hok Hf. rewrite E in *. destruct f as [|f]; [fuel|].
    assert (Hf3 : fits f (pr 0 n ++ rest) 3) by fuel.
    destruct (binary_bare o l r 0 0 rest fl f) as (f' & Hf' & E'); [done|done|done|lia|apply Z.ltb_ge; lia|apply Hok| |exact Hf3|].
    { destruct Hok as (_ & -> & _). done. }
    destruct Hok as (Hok & Hp & Hq). rewrite loop_stops in E'; [|fuel|by rewrite Hp]. cbn [parseExpr].
    rewrite (bind_step _ _ _ _ _ E'). unfold is_, mbind, P_bind, cur. cbn.
    change (at_ 0 (mkParser rest false)) with (head rest). by rewrite Hq. }
  assert (Hb : reads_base n).
  { apply base_of_paren; [|done]. cbn. unfold at_base. apply Z.ltb_lt. lia. }
  assert (Hu : reads_unary n).
  { apply unary_of_base; [|done]. rewrite (pr_needs at_unary), (pr_needs at_base). unfold n. cbn [needs].
    by rewrite !(proj2 (Z.ltb_lt _ _)) by (unfold at_unary, at_base; lia). }
  split; [done|]. split; [done|]. split; [|done].
  intros m lvl rest fl f Hm Hlvl Hok Hq Hf. destruct (prec o <? lvl) eqn:E.
  - apply binary_of_unary; try done; [|by unfold n; cbn; rewrite E].
    rewrite (pr_needs lvl), (pr_needs at_unary). unfold n. cbn [needs].
    rewrite E. by rewrite (proj2 (Z.ltb_lt (prec o) at_unary)) by (unfold at_unary; lia).
  - replace (root_op lvl n) with o by (unfold n; cbn; by rewrite E). by apply binary_bare.
Qed.

Lemma reads_Cond c a b : reads c -> reads_item a -> reads b -> reads (CondNode c a b).
Proof.
  intros (_ & _ & Hc & _) [Hsa Ha] (_ & _ & _ & Hb). set (n := CondNode c a b).
  assert (He : reads_expr n).
  { intros rest fl f Hok Hf.
    assert (E : pr at_expr n ++ rest = pr 0 c ++ op "?" :: pr at_expr a ++ op ":" :: pr at_expr b ++ rest).
    { unfold n. cbn [pr needs]. change (at_expr <? at_expr) with false. cbn beta iota.
      repeat (rewrite <- app_assoc; cbn [app]). done. }
    rewrite E in *. clear E. destruct f as [|f]; [fuel|].
    destruct (Hc 0 0 (op "?" :: pr at_expr a ++ op ":" :: pr at_expr b ++ rest) fl f) as (f' & Hf' & E'); [lia|done|done|done|fuel|].
    rewrite loop_stops in E'; [|fuel|done]. cbn [parseExpr]. rewrite (bind_step _ _ _ _ _ E').
    rewrite (bind_step _ _ _ true (mkParser (op "?" :: pr at_expr a ++ op ":" :: pr at_expr b ++ rest) false)) by done.
    cbn [negb].
    rewrite (bind_step _ _ _ (op "?") (mkParser (pr at_expr a ++ op ":" :: pr at_expr b ++ rest) false)) by done.
    rewrite (bind_step _ _ _ false (mkParser (pr at_expr a ++ op ":" :: pr at_expr b ++ rest) false)).
    2:{ destruct Hsa as (t & ts & -> & Ht). unfold is_, mbind, P_bind, cur. cbn. change (at_ 0 _) with t.
        replace (tok_is Operator ":" t) with false; [done|]. symmetry. unfold tok_is.
        case_bool_decide as Hk; [|done]. unfold begins in Ht. rewrite Hk in Ht. cbn.
        destruct (String.eqb_spec (text t) ":") as [E|]; [by rewrite E in Ht|done]. }
    rewrite (bind_step _ _ _ (head (pr at_expr a ++ op ":" :: pr at_expr b ++ rest))
      (mkParser (pr at_expr a ++ op ":" :: pr at_expr b ++ rest) false)) by done. cbn beta iota.
    rewrite (bind_step _ _ _ a (mkParser (op ":" :: pr at_expr b ++ rest) false))
      by (apply Ha; [by apply ok_expr_op; right|fuel]).
    rewrite expect_step by done. by rewrite (bind_step _ _ _ b (mkParser rest false)) by (apply Hb; [done|fuel]). }
  assert (Hn : reads_base n) by by apply base_of_paren.
  assert (Hu : reads_unary n) by by apply unary_of_base.
  split; [done|]. split; [done|]. split; [|done].
  intros m lvl rest fl f Hm Hlvl Hok Hq Hf. apply binary_of_unary; try done.
  rewrite (pr_needs lvl), (pr_needs at_unary). unfold n. cbn [needs].
  by rewrite (proj2 (Z.ltb_lt at_expr lvl)) by (unfold at_expr; lia).
Qed.

(** * Every tree *)

Lemma printable_reads n : printable n = true -> reads n.
Proof.
  induction n as [s|s|s|b| |k|b k IH|b i IH|b k IHb IHk|l IH|l IH|p q b IH|g l IH|o b IH|o l r IHl IHr|c a b IHc IHa IHb]
    using Node_ind'; intros Hp.
  - by apply reads_Int. - by apply reads_Float. - apply reads_String. - apply reads_Bool. - apply reads_Null.
  - by apply reads_Ident. - by apply reads_Member, IH.
  - apply reads_Index; [done|]. apply IH. cbn in Hp. by apply andb_prop in Hp as [[Hp _]%andb_prop _].
  - cbn in Hp. apply andb_prop in Hp as [H1 H2]. by apply reads_Key; [done|apply IHb|apply IHk].
  - apply reads_Array. cbn in Hp. rewrite forallb_forall in Hp. rewrite Forall_forall in IH |- *.
    intros x Hx. specialize (Hp x (proj1 (list_elem_of_In _ _) Hx)).
    split; [by apply pr_starts|]. by apply IH.
  - cbn in Hp. apply andb_prop in Hp as [Hp Hd]. apply reads_Object; [done|].
    rewrite forallb_forall in Hp. rewrite Forall_forall in IH |- *.
    intros [k x] Hx. specialize (Hp (k, x) (proj1 (list_elem_of_In _ _) Hx)). by apply (IH (k, x)).
  - done.
  - cbn in Hp. apply andb_prop in Hp as [->%String.eqb_eq Hp].
    destruct l as [|s [|[| | | | | | | | | | |p q b| | | |] [|]]]; try done.
    apply andb_prop in Hp as [[H1 H2]%andb_prop H3%negb_true_iff].
    apply Forall_cons in IH as [[IHs _] IH]. apply Forall_cons in IH as [[_ IHb] _].
    apply reads_Map; [|by apply IHb|done]. split; [by apply pr_starts|by apply IHs].
  - cbn in Hp. apply andb_prop in Hp as [H1 H2]. by apply reads_Unary, IH.
  - cbn in Hp. apply andb_prop in Hp as [[H1 H2]%andb_prop H3].
    apply reads_Binary; [by destruct (binaryPrec o)|by apply IHl|by apply IHr].
  - cbn in Hp. apply andb_prop in Hp as [[H1 H2]%andb_prop H3].
    apply reads_Cond; [by apply IHc| |by apply IHb]. split; [by apply pr_starts|by apply IHa].
Qed.

(** C37. The parser reads back every tree: any tree the language has (literals in the form
    they are kept in, declared operators, [map] called on a list and a lambda, fields of
    distinct names), written with parentheses only where the level of an operand or a literal
    as a computed key asks for them, parses to itself with the fuel [Parse] gives. *)
Theorem parse_print n : printable n = true -> parse_tokens (pr at_expr n ++ [eof]) = Ok n.
Proof.
  intros Hp. destruct (printable_reads n Hp) as (_ & _ & _ & He). unfold parse_tokens, fuel_for.
  rewrite (He [eof] false); [done|done|]. unfold fits. lia.
Qed.

End Reparsing.

#[local] Existing Instance integers.

(** A computed key is read as a whole expression, without parentheses. *)
Example key_bare : pr at_expr (KeyNode (IdentNode "a") (BinaryNode "+" (IdentNode "x") (IdentNode "y"))) =
  [ident "a"; br "["; ident "x"; op "+"; ident "y"; br "]"].
Proof. by vm_compute. Qed.

(** A coalesce under a product under a sum, a conditional in a field, and a map. *)
Definition demo_tree : Node :=
  BinaryNode "+"
    (BinaryNode "*" (BinaryNode "??" (MemberNode (IdentNode "a") "b") (IntNode "1")) (UnaryNode "-" (IntNode "2")))
    (IndexNode (CallNode "map" [IdentNode "xs"; LambdaNode "x" "i"
      (ObjectNode [("k", CondNode (IdentNode "x") (IdentNode "i") NullNode)])]) 0).

Lemma parse_print_witness : parse_tokens (pr at_expr demo_tree ++ [eof]) = Ok demo_tree.
Proof. apply parse_print. by vm_compute. Defined.

End Reparsing.
