(* ===== verification/Laziness.v ===== *)
(** Evaluating a templated slot loads only what it reads into, and gives what evaluating it
    with everything loaded would: engine/evaluator.go against the walk of [Lazy]. *)
From Stdlib Require Import ZArith Lia Ascii String.
From S2P Require Import Prelude GoStrings Json Paths Numeric Syntax Expr Roots Template Context Printing Resolving Lazy.
Import Json Paths Numeric Expr Context Resolving Lazy.
Open Scope string_scope.
Open Scope list_scope.
Open Scope Z_scope.

Module Laziness.

Implicit Types (v w x : value) (k f : string) (l : list (string * value)) (i : inst) (m : memo).

(** * Slots with references in one field only *)

(** Null, or a map with no reference outside the field [f]. *)
Definition only_at f v : bool :=
  match v with
  | Null => true
  | Map l => sorted_keys l && forallb (fun '(k, x) => String.eqb k f || plain x) l
  | _ => false
  end.
Definition has_field f v : bool :=
  match v with Map l => match lookup_key f l with Some _ => true | None => false end | _ => true end.

Section Fields.
Context (load : string -> option value) (Hflat : flat load).

Lemma others_plain f l l' : after f l ->
  forallb (fun '(k, x) => String.eqb k f || plain x) l = true -> resolve_map load l = Some l' -> l' = l.
Proof.
  intros Ha Hp Hl. assert (Hpl : plain (Map l) = true).
  { apply plain_map. apply Forall_forall. intros [k x] Hin. rewrite forallb_forall in Hp.
    specialize (Hp (k, x) (proj1 (list_elem_of_In _ _) Hin)). cbn in Hp.
    apply orb_prop in Hp as [->%String.eqb_eq|]; [|done]. unfold after in Ha.
    rewrite Forall_forall in Ha. specialize (Ha _ Hin). cbn in Ha. by rewrite ltb_irrefl in Ha. }
  apply (plain_resolve load) in Hpl. rewrite resolve_Map in Hpl. rewrite Hl in Hpl. cbn in Hpl. congruence.
Qed.

(** Resolving the one field resolves the map. *)
Lemma put_resolved f l l' d d' : sorted_keys l = true ->
  forallb (fun '(k, x) => String.eqb k f || plain x) l = true ->
  lookup_key f l = Some d -> resolve load d = Some d' -> resolve_map load l = Some l' ->
  put_key f d' l = l'.
Proof.
  revert l'. induction l as [|[k x] l IH]; intros l'; [done|].
  rewrite sorted_cons, resolve_map_cons. cbn. intros [Ha Hs] [Hk Hp]%andb_prop Hl Hd (y & l1 & -> & Hx & Hl1).
  destruct (String.eqb_spec f k) as [->|Hne].
  - injection Hl as ->. rewrite Hd in Hx. injection Hx as ->. by rewrite (others_plain k l l1 Ha Hp Hl1).
  - destruct (String.eqb_spec k f) as [->|_]; [done|]. cbn in Hk.
    apply (plain_resolve load) in Hk. rewrite Hk in Hx. injection Hx as ->.
    destruct (String.ltb f k) eqn:E.
    { pose proof (after_lookup _ _ _ _ Ha Hl) as Hlt. apply ltb_asym in Hlt. congruence. }
    by rewrite (IH l1 Hs Hp Hl Hd Hl1).
Qed.

Lemma only_at_lookup f l k : k <> f ->
  forallb (fun '(k, x) => String.eqb k f || plain x) l = true ->
  plain (default Null (lookup_key k l)) = true.
Proof.
  intros Hk. induction l as [|[k' x] l IH]; cbn; [done|]. intros [Hx Hl]%andb_prop.
  destruct (String.eqb_spec k k') as [<-|]; [|by apply IH]. cbn.
  destruct (String.eqb_spec k f); [done|]. exact Hx.
Qed.

(** A slot as it is, against its resolution. *)
Lemma only_at_opened f v w : only_at f v = true -> resolve load v = Some w ->
  opened load (fun k => negb (String.eqb k f)) v w.
Proof.
  intros Ho Hr. destruct v as [| | | | |l|]; try done; [injection Hr as <-; by left|].
  apply resolve_Map_Some in Hr as (l' & -> & Hl). right. exists l, l'. split; [done|]. split; [done|].
  split; [done|]. intros k Hk. cbn in Ho. apply andb_prop in Ho as [_ Hp].
  destruct (String.eqb_spec k f) as [|Hne]; [done|].
  pose proof (only_at_lookup f l k Hne Hp) as Hpl. apply (plain_resolve load) in Hpl.
  pose proof (resolve_default load l l' k Hl). congruence.
Qed.

(** A slot whose field was resolved. *)
Lemma opened_refl P w : w = Null \/ (exists l, w = Map l) -> plain w = true -> opened load P w w.
Proof.
  intros [->|[l ->]] Hp; [by left|right]. exists l, l. split; [done|]. split; [done|]. split; [|done].
  apply (plain_resolve load) in Hp. rewrite resolve_Map in Hp. destruct (resolve_map load l); [|done].
  cbn in Hp. congruence.
Qed.

End Fields.

(** * The environment with everything resolved *)

Definition slot i k : value := default Null (lookup_key k (State i)).
Definition outputs_of i (self : value) : list (string * value) :=
  shadow i self (match slot i "outputs" with Map l => l | _ => [] end).

Definition full_env (load : string -> option value) i (self : value) : option Template.ctxData :=
  self' ← resolve load self;
  input ← resolve load (slot i "input");
  error ← resolve load (slot i "error");
  last_error ← resolve load (slot i "last_error");
  outs ← resolve_map load (outputs_of i self);
  Some [("self", self'); ("config", Map (Config i)); ("input", input); ("error", error);
        ("last_error", last_error); ("outputs", Map outs)].

(** The configuration holds no reference, an error namespace holds one at most under
    [data], self under [previous]; and a field that is read into is there. *)
Record ready i (self : value) (r : Roots.Roots) : Prop := {
  rd_config : plain (Map (Config i)) = true;
  rd_self : only_at "previous" self = true;
  rd_previous : Roots.SelfPrevious r = true -> has_field "previous" self = true;
  rd_error : only_at "data" (slot i "error") = true;
  rd_error_data : Roots.t_ErrorData (Roots.through r) = true -> has_field "data" (slot i "error") = true;
  rd_last_error : only_at "data" (slot i "last_error") = true;
  rd_last_error_data : Roots.t_LastErrorData (Roots.through r) = true ->
    has_field "data" (slot i "last_error") = true }.

(** The hashes under what [r] reads into. *)
Definition field k v : value := match v with Map l => default Null (lookup_key k l) | _ => Null end.
Definition when (b : bool) (hs : list string) : list string := if b then hs else [].
Definition output_read (r : Roots.Roots) k : bool :=
  existsb (String.eqb k) (Roots.t_Outputs (Roots.through r)) || Roots.t_AllOutputs (Roots.through r).
Definition through_hashes i (self : value) (r : Roots.Roots) : list string :=
  let t := Roots.through r in
  when (Roots.t_SelfPrevious t) (hashes (field "previous" self)) ++
  when (Roots.t_Input t) (hashes (slot i "input")) ++
  when (Roots.t_ErrorData t) (hashes (field "data" (slot i "error"))) ++
  when (Roots.t_LastErrorData t) (hashes (field "data" (slot i "last_error"))) ++
  (outputs_of i self ≫= fun '(k, v) => when (output_read r k) (hashes v)).

Section Building.
Context (load : string -> option value) (Hflat : flat load).

Lemma At_slot i k : reads load (At load (State i) [Key k]) (slot i k) [].
Proof.
  unfold At, slot. cbn [walk]. eapply reads_bind_nil; [apply reads_ret|]. cbn [step].
  destruct (lookup_key k (State i)); apply reads_ret.
Qed.

Lemma Materialize_reads v w : resolve load v = Some w -> reads load (Materialize load v) w (hashes v).
Proof. by apply (materialize_spec load 0). Qed.

Lemma include_reads i k w (referenced thr : bool) : resolve load (slot i k) = Some w ->
  exists v, reads load (include load i k referenced thr) v (when thr (hashes (slot i k))) /\
    (referenced = true -> seen load thr v w).
Proof.
  intros Hw. unfold include. destruct (is_mark (slot i k) && negb referenced) eqn:Hm.
  - exists Null. split.
    + eapply reads_weaken; [eapply reads_bind_nil; [apply At_slot|]; cbn beta; rewrite Hm; apply reads_ret|set_solver].
    + intros ->. by rewrite andb_false_r in Hm.
  - destruct thr; cbn [when negb].
    + exists w. split; [|intros _; by apply (seen_plain load), (resolve_plain load _ _ Hflat Hw)].
      eapply reads_bind_nil; [apply At_slot|]. cbn beta. rewrite Hm. cbn. by apply Materialize_reads.
    + exists (slot i k). split; [|by intros _; split].
      eapply reads_bind_nil; [apply At_slot|]. cbn beta. rewrite Hm. apply reads_ret.
Qed.

Lemma At_data i k l : slot i k = Map l ->
  reads load (At load (State i) [Key k; Key "data"]) (default Null (lookup_key "data" l)) [].
Proof.
  unfold slot, At. intros Hs. cbn [walk]. eapply reads_bind_nil; [apply reads_ret|]. cbn [step].
  destruct (lookup_key k (State i)) as [v|]; [|done]. cbn in Hs. subst v.
  eapply reads_bind_nil; [apply reads_ret|]. cbn [step]. destruct (lookup_key "data" l); apply reads_ret.
Qed.

Lemma opened_all P w v : resolve load v = Some w -> only_at P v = true ->
  w = Null \/ (exists l, w = Map l).
Proof.
  intros Hr Ho. destruct v; try done; [left; by injection Hr as <-|right].
  apply resolve_Map_Some in Hr as (l' & -> & _). by exists l'.
Qed.

Lemma include_error_reads i k w (read thr : bool) :
  resolve load (slot i k) = Some w -> only_at "data" (slot i k) = true ->
  (thr = true -> has_field "data" (slot i k) = true) ->
  exists v, reads load (include_error load i k read thr) v (when thr (hashes (field "data" (slot i k)))) /\
    opened load (error_field thr) v w /\ (thr = true -> v = w).
Proof.
  intros Hw Ho Hd.
  assert (Hinc : reads load (include load i k read false) (slot i k) []).
  { unfold include. eapply reads_bind_nil; [apply At_slot|]. cbn beta.
    replace (is_mark (slot i k)) with false by (by destruct (slot i k)). apply reads_ret. }
  unfold include_error. destruct thr; cbn [when]; cycle 1.
  { exists (slot i k). split; [|split; [by apply (only_at_opened load)|done]].
    eapply reads_bind_nil; [exact Hinc|]. destruct (slot i k); apply reads_ret. }
  exists w. split; [|split; [|done]]; cycle 1.
  { apply opened_refl; [by eapply opened_all|]. by eapply (resolve_plain load). }
  eapply reads_bind_nil; [exact Hinc|]. specialize (Hd eq_refl).
  pose proof (At_data i k) as Hat.
  destruct (slot i k) as [| | | | |l|] eqn:E; try done; [injection Hw as <-; apply reads_ret|].
  apply resolve_Map_Some in Hw as (l' & -> & Hl). cbn [field].
  cbn in Hd, Ho. apply andb_prop in Ho as [Hs Hp].
  destruct (lookup_key "data" l) as [d|] eqn:Ed; [|done]. cbn [default].
  pose proof (resolve_lookup load l l' "data" Hl) as Hdd. rewrite Ed in Hdd.
  destruct (lookup_key "data" l') as [d'|] eqn:Ed'; [|done].
  eapply reads_weaken; [eapply reads_bind|].
  - unfold MaterializeAt. eapply reads_bind_nil; [by apply Hat|]. rewrite Ed. cbn [default]. by apply Materialize_reads.
  - rewrite (put_resolved load "data" l l' d d') by done. apply reads_ret.
  - by rewrite app_nil_r.
Qed.

Lemma self_env_reads self w r : resolve load self = Some w -> only_at "previous" self = true ->
  (Roots.SelfPrevious r = true -> has_field "previous" self = true) ->
  (Roots.t_SelfPrevious (Roots.through r) = true -> Roots.SelfPrevious r = true) ->
  exists v, reads load (self_env load self r) v
      (when (Roots.t_SelfPrevious (Roots.through r)) (hashes (field "previous" self))) /\
    opened load (self_field (Roots.t_SelfPrevious (Roots.through r))) v w.
Proof.
  intros Hw Ho Hp Hthr. unfold self_env. destruct (Roots.SelfPrevious r); cycle 1.
  { destruct (Roots.t_SelfPrevious (Roots.through r)); [by specialize (Hthr eq_refl)|].
    exists self. split; [apply reads_ret|by apply (only_at_opened load)]. }
  specialize (Hp eq_refl).
  destruct self as [| | | | |l|] eqn:E; try done.
  { injection Hw as <-. exists Null. split; [|by left]. eapply reads_weaken; [apply reads_ret|set_solver]. }
  pose proof Ho as Ho'. cbn in Hp, Ho'. apply andb_prop in Ho' as [Hs Hpl].
  destruct (lookup_key "previous" l) as [d|] eqn:Ed; [|done]. cbn [field]. rewrite Ed. cbn [default from_option id].
  pose proof Hw as Hw'. apply resolve_Map_Some in Hw' as (l' & -> & Hl).
  pose proof (resolve_lookup load l l' "previous" Hl) as Hdd. rewrite Ed in Hdd.
  destruct (lookup_key "previous" l') as [d'|] eqn:Ed'; [|done].
  destruct (Roots.t_SelfPrevious (Roots.through r)); cbn [when].
  - exists (Map l'). split; [|apply opened_refl; [by right; exists l'|by eapply (resolve_plain load)]].
    rewrite <- (app_nil_r (hashes d)). eapply reads_bind; [by apply Materialize_reads|].
    rewrite (put_resolved load "previous" l l' d d') by done. apply reads_ret.
  - exists (Map l). split; [|by apply (only_at_opened load)].
    eapply reads_bind_nil; [apply reads_ret|]. rewrite put_same by done. apply reads_ret.
Qed.

Lemma env_outputs_reads r outs full : resolve_map load outs = Some full ->
  exists res, reads load (env_outputs load r outs) res
      (outs ≫= fun '(k, v) => when (output_read r k) (hashes v)) /\
    (forall id, id ∈ Roots.Outputs r ->
       seen load (bool_decide (id ∈ Roots.t_Outputs (Roots.through r)))
         (default Null (lookup_key id res)) (default Null (lookup_key id full))) /\
    (Roots.AllOutputs r = true -> seen load (Roots.t_AllOutputs (Roots.through r)) (Map res) (Map full)).
Proof.
  revert full. induction outs as [|[k v] outs IH]; intros full.
  { intros [= <-]. exists []. split; [apply reads_ret|]. split; [by intros; apply (seen_plain load)|].
    intros _. by apply (seen_plain load). }
  rewrite resolve_map_cons. intros (w & full' & -> & Hv & Hf).
  destruct (IH full' Hf) as (res & Hr & Hid & Hall). cbn [env_outputs].
  destruct (is_mark v && negb (Roots.AllOutputs r) && negb (existsb (String.eqb k) (Roots.Outputs r))) eqn:Hd.
  - exists res. split; [eapply reads_weaken; [exact Hr|cbn; set_solver]|].
    apply andb_prop in Hd as [[_ Ha]%andb_prop Hk]. split.
    + intros id Hin. cbn. destruct (String.eqb_spec id k) as [->|]; [|by apply Hid].
      apply negb_true_iff in Hk. rewrite (proj2 (existsb_exists _ _)) in Hk; [done|].
      exists k. split; [by apply list_elem_of_In|apply String.eqb_refl].
    + intros E. by rewrite E in Ha.
  - set (copied := negb _ && negb _). assert (Hseen : exists v', reads load
      (if copied then mret v else Materialize load v) v' (when (output_read r k) (hashes v)) /\
      seen load (output_read r k) v' w).
    { unfold copied. rewrite <- negb_orb. fold (output_read r k). destruct (output_read r k); cbn [negb when].
      - exists w. split; [by apply Materialize_reads|]. by apply (seen_plain load), (resolve_plain load v).
      - exists v. split; [apply reads_ret|by split]. }
    destruct Hseen as (v' & Hv' & Hs). exists ((k, v') :: res). split; [|split].
    + cbn [mbind list_bind]. eapply reads_bind; [exact Hv'|].
      eapply reads_weaken; [eapply reads_bind; [exact Hr|apply reads_ret]|by rewrite app_nil_r].
    + intros id Hin. cbn. destruct (String.eqb_spec id k) as [->|]; [|by apply Hid]. cbn.
      eapply seen_mono; [|exact Hs]. rewrite bool_decide_eq_true. intros Hin'. unfold output_read.
      rewrite (proj2 (existsb_exists _ _)); [done|].
      exists k. split; [by apply list_elem_of_In|apply String.eqb_refl].
    + intros Ha. destruct (Hall Ha) as [Hst He]. split.
      * apply resolve_Map_Some. exists ((k, w) :: full'). split; [done|]. apply resolve_map_cons.
        exists w, full'. split; [done|]. split; [apply Hs|].
        apply resolve_Map_Some in Hst as (? & [= <-] & ?). done.
      * intros Ht. destruct Hs as [_ Hs]. rewrite Hs by (unfold output_read; rewrite Ht; apply orb_true_r).
        specialize (He Ht). congruence.
Qed.

(** The environment of an analysis: it holds what the analysis names, and loads no more. *)
Lemma buildEnv_reads i self r full : ready i self r -> full_env load i self = Some full ->
  (Roots.t_SelfPrevious (Roots.through r) = true -> Roots.SelfPrevious r = true) ->
  exists env, reads load (buildEnv load i self r) env (through_hashes i self r) /\
    supports load r env full.
Proof.
  intros [R1 R2 R3 R4 R5 R6 R7] Hfull Hthr. unfold full_env in Hfull.
  destruct (resolve load self) as [self'|] eqn:Eself; [|done]. cbn in Hfull.
  destruct (resolve load (slot i "input")) as [input|] eqn:Einput; [|done]. cbn in Hfull.
  destruct (resolve load (slot i "error")) as [error|] eqn:Eerror; [|done]. cbn in Hfull.
  destruct (resolve load (slot i "last_error")) as [last|] eqn:Elast; [|done]. cbn in Hfull.
  destruct (resolve_map load (outputs_of i self)) as [outs|] eqn:Eouts; [|done].
  cbn in Hfull. injection Hfull as <-.
  destruct (self_env_reads self self' r Eself R2 R3 Hthr) as (s & Hs & Sself).
  destruct (include_reads i "input" input (Roots.Input r) (Roots.t_Input (Roots.through r)) Einput)
    as (vi & Hi & Sinput).
  destruct (include_error_reads i "error" error (Roots.Error r) (Roots.t_ErrorData (Roots.through r)) Eerror R4 R5)
    as (ve & He & Serror).
  destruct (include_error_reads i "last_error" last (Roots.LastError r)
    (Roots.t_LastErrorData (Roots.through r)) Elast R6 R7) as (vl & Hl & Slast).
  destruct (env_outputs_reads r _ _ Eouts) as (vo & Ho & Sout & Sall).
  exists [("self", s); ("config", Map (Config i)); ("input", vi); ("error", ve);
          ("last_error", vl); ("outputs", Map vo)]. split.
  - unfold buildEnv, through_hashes.
    eapply reads_bind; [exact Hs|]. eapply reads_bind; [exact Hi|]. eapply reads_bind; [exact He|].
    eapply reads_bind; [exact Hl|]. eapply reads_bind_nil; [apply At_slot|].
    eapply reads_weaken; [eapply reads_bind; [exact Ho|apply reads_ret]|by rewrite app_nil_r].
  - split.
    + intros k Hk. unfold names in Hk. cbn. destruct (String.eqb_spec k "self"); [set_solver|].
      destruct (String.eqb_spec k "config"); [by split|].
      repeat (case_match; [match goal with E : String.eqb k _ = true |- _ => apply String.eqb_eq in E; set_solver end|]).
      done.
    + by exists s, self'.
    + intros Hin. exists vi, input. split; [done|]. split; [done|]. by apply Sinput.
    + intros _. by exists ve, error.
    + intros _. by exists vl, last.
    + intros id Hid. exists (Map vo), (Map outs). split; [done|]. split; [done|].
      exists vo, outs. split; [done|]. split; [done|]. by apply Sout.
    + intros Ha. exists (Map vo), (Map outs). split; [done|]. split; [done|]. by apply Sall.
Qed.

End Building.
(** * Templates and shapes *)

(** A root read into is read. *)
Definition coherent (r : Roots.Roots) : Prop :=
  Roots.t_SelfPrevious (Roots.through r) = true -> Roots.SelfPrevious r = true.

Lemma coherent_union r s : coherent r -> coherent s -> coherent (Roots.Union r s).
Proof.
  unfold coherent. cbn. intros Hr Hs [Ht|Ht]%orb_prop; [by rewrite Hr|rewrite Hs by done; apply orb_true_r].
Qed.

Lemma coherent_collect n : forall bound thr, coherent (Roots.collectRoots n bound thr).
Proof.
  induction n as [s|s|s|b| |k|b k IH|b j IH|b k IHb IHk|l IH|l IH|p q b IH|g l IH|o b IH|o x y IHx IHy|c t g IHc IHt IHf]
    using Node_ind'; intros bound thr; try done; try apply IH.
  - cbn. unfold Roots.ident_roots. by repeat case_match.
  - cbn. destruct (Roots.member_roots bound b k thr) as [r|] eqn:E; [|apply IH].
    unfold Roots.member_roots in E. repeat (case_match; try done); by injection E as <-.
  - by apply coherent_union.
  - induction l as [|n l IHl]; [done|]. apply Forall_cons in IH as [Hn IH].
    apply coherent_union; [apply Hn|by apply IHl].
  - induction l as [|[k n] l IHl]; [done|]. apply Forall_cons in IH as [Hn IH].
    apply coherent_union; [apply Hn|by apply IHl].
  - induction l as [|n l IHl]; [done|]. apply Forall_cons in IH as [[Hn _] IH].
    apply coherent_union; [apply Hn|by apply IHl].
  - by apply coherent_union.
  - apply coherent_union; [apply IHc|]. by apply coherent_union.
Qed.

Section Shapes.
Context `{Apd} (Lex : string -> option (list Syntax.Token)).

Definition tame_template (t : Template.Template) : bool :=
  forallb (fun c => match c with
                    | Template.Lit _ => true
                    | Template.Block _ n => tame n [] (negb (Template.expr t))
                    end) (Template.chunks t).

Fixpoint tame_value v : bool :=
  match v with
  | Str s => match Template.Parse Lex s with Ok t => tame_template t | Err _ => true end
  | Arr a => forallb tame_value a
  | Map l => forallb (fun '(_, x) => tame_value x) l
  | _ => true
  end.

Definition tame_shape (sh : Template.Shape) : bool :=
  if Template.Expr sh then
    match Syntax.Parse Lex (Template.exprString sh) with Ok n => tame n [] false | Err _ => true end
  else tame_value (Template.Raw sh).

(** The loops of a shape. *)
Definition eval_members (e : Template.ctxData) :
    list (string * value) -> result Template.eval_error (list (string * value)) :=
  fix go l := match l with
  | [] => Ok []
  | (k, x) :: l =>
      v ← map_err (Template.InField k) (Template.Eval Lex x e); vs ← go l; Ok ((k, v) :: vs)
  end.
Definition eval_elements (e : Template.ctxData) :
    Z -> list value -> result Template.eval_error (list value) :=
  fix go j a := match a with
  | [] => Ok []
  | x :: a => v ← map_err (Template.InItem j) (Template.Eval Lex x e); vs ← go (j + 1) a; Ok (v :: vs)
  end.
Definition roots_members : list (string * value) -> result Template.eval_error Roots.Roots :=
  fix go l := match l with
  | [] => Ok Roots.none
  | (_, x) :: l => r ← Template.shape_roots Lex x; rs ← go l; Ok (Roots.Union r rs)
  end.
Definition roots_elements : list value -> result Template.eval_error Roots.Roots :=
  fix go a := match a with
  | [] => Ok Roots.none
  | x :: a => r ← Template.shape_roots Lex x; rs ← go a; Ok (Roots.Union r rs)
  end.

Lemma eval_Map l e : Template.Eval Lex (Map l) e = (out ← eval_members e l; Ok (Map out)).
Proof. done. Qed.
Lemma eval_Arr a e : Template.Eval Lex (Arr a) e = (out ← eval_elements e 0 a; Ok (Arr out)).
Proof. done. Qed.
Lemma roots_Map l : Template.shape_roots Lex (Map l) = roots_members l.
Proof. done. Qed.
Lemma roots_Arr a : Template.shape_roots Lex (Arr a) = roots_elements a.
Proof. done. Qed.

Lemma coherent_shape sh r : Template.Shape_Roots Lex sh = Ok r -> coherent r.
Proof.
  unfold Template.Shape_Roots. destruct (Template.Expr sh).
  - unfold Roots.RootRefs. destruct (Syntax.Parse Lex _); cbn; [|done]. intros [= <-]. apply coherent_collect.
  - revert r. induction (Template.Raw sh) as [| | |s|mk|l IH|a IH] using value_ind'; intros r;
      try (by intros [= <-]).
    + cbn. destruct (Template.Parse Lex s) as [t|]; cbn; [|done]. intros [= <-]. unfold Template.RootRefs.
      induction (Template.chunks t) as [|[|text n] cs IHc]; cbn; [done|done|].
      apply coherent_union; [apply coherent_collect|done].
    + rewrite roots_Map. revert r. induction l as [|[k x] l IHl]; intros r; [by intros [= <-]|].
      apply Forall_cons in IH as [Hx IH]. intros (rx & Erx & (rl & Erl & [= <-])%bind_Ok)%bind_Ok.
      apply coherent_union; [by apply Hx|by apply IHl].
    + rewrite roots_Arr. revert r. induction a as [|x a IHa]; intros r; [by intros [= <-]|].
      apply Forall_cons in IH as [Hx IH]. intros (rx & Erx & (rl & Erl & [= <-])%bind_Ok)%bind_Ok.
      apply coherent_union; [by apply Hx|by apply IHa].
Qed.

Section Eval.
Context (load : string -> option value) (Hflat : flat load).

Definition same_result {E} (r' r : result E value) : Prop :=
  match r with
  | Ok w => exists v, r' = Ok v /\ resolve load v = Some w
  | Err e => r' = Err e
  end.

Lemma scoped_root (e' e : Template.ctxData) : scoped [] (mkEnv e' []) (mkEnv e []).
Proof. split; [done|done|]. intros k. split; [done|by intros [? ?]]. Qed.

Lemma node_lazy n thr e' e : tame n [] thr = true ->
  supports load (Roots.RootRefsNode n thr) e' e -> simulates load thr (EvalNode n e') (EvalNode n e).
Proof. intros Ht Hs. by eapply (walk_lazy load Hflat n []); [|apply scoped_root|]. Qed.

Lemma simulates_result thr r' r : simulates load thr r' r -> same_result r' r.
Proof. destruct r as [w|]; cbn; [|done]. intros (v & -> & Hs & _). by exists v. Qed.

Lemma map_err_result {E E'} (g : E -> E') (r' r : result E value) :
  same_result r' r -> same_result (map_err g r') (map_err g r).
Proof. destruct r as [w|]; cbn; [|by intros ->]. intros (v & -> & Hs). by exists v. Qed.

Lemma chunks_lazy t e' e : Template.expr t = false ->
  forall cs, forallb (fun c => match c with Template.Lit _ => true | Template.Block _ n => tame n [] true end) cs = true ->
  supports load (foldr (fun c r => match c with
    | Template.Lit _ => r
    | Template.Block _ node => Roots.Union (Roots.RootRefsNode node (negb (Template.expr t))) r
    end) Roots.none cs) e' e ->
  Template.eval_chunks e' cs = Template.eval_chunks e cs.
Proof.
  intros Hx. rewrite Hx. induction cs as [|c cs IH]; [done|]. cbn. intros [Hc Hcs]%andb_prop Hs.
  assert (Hrest : Template.eval_chunks e' cs = Template.eval_chunks e cs).
  { apply IH; [done|]. destruct c; [done|]. by apply (supports_union load Hflat) in Hs as [_ ?]. }
  rewrite Hrest. enough (Template.eval_chunk e' c = Template.eval_chunk e c) as -> by done.
  destruct c as [text|text n]; [done|]. cbn.
  apply (supports_union load Hflat) in Hs as [Hs _]. pose proof (node_lazy n true e' e Hc Hs) as Hn.
  destruct (EvalNode n e) as [w|]; cbn in *; [|by rewrite Hn]. destruct Hn as (v & -> & _ & Hv).
  by rewrite (Hv eq_refl).
Qed.

Lemma template_lazy t e' e : tame_template t = true -> supports load (Template.RootRefs t) e' e ->
  same_result (Template.EvalAny t e') (Template.EvalAny t e).
Proof.
  unfold tame_template, Template.RootRefs, Template.EvalAny. intros Ht Hs.
  destruct (Template.expr t) eqn:Hx.
  - destruct (Template.chunks t) as [|[text|text n] cs]; try done. cbn in *.
    apply andb_prop in Ht as [Ht _]. apply (supports_union load Hflat) in Hs as [Hs _].
    apply map_err_result. by eapply simulates_result, node_lazy.
  - rewrite (chunks_lazy t e' e Hx) by (rewrite ?Hx; done). destruct (Template.eval_chunks e _); cbn; [|done].
    by eexists.
Qed.

Lemma value_lazy v : forall r e' e, Template.shape_roots Lex v = Ok r -> tame_value v = true ->
  supports load r e' e -> same_result (Template.Eval Lex v e') (Template.Eval Lex v e).
Proof.
  induction v as [| | |s|mk|l IH|a IH] using value_ind'; intros r e' e; try (by intros; eexists); try done.
  - cbn. destruct (Template.Parse Lex s) as [t|]; [|done]. intros [= <-]. apply template_lazy.
  - rewrite roots_Map, !eval_Map. intros Hr Ht Hs.
    enough (Hl : match eval_members e l with
      | Ok ws => exists vs, eval_members e' l = Ok vs /\ resolve_map load vs = Some ws
      | Err er => eval_members e' l = Err er
      end).
    { destruct (eval_members e l) as [ws|er]; cbn; [|by rewrite Hl]. destruct Hl as (vs & -> & Hv).
      eexists. split; [done|]. apply resolve_Map_Some. by exists ws. }
    revert r Hr Hs. induction l as [|[k x] l IHl]; intros r Hr Hs; [by exists []|].
    apply Forall_cons in IH as [Hx IH]. cbn in Ht. apply andb_prop in Ht as [Htx Ht].
    apply bind_Ok in Hr as (rx & Erx & (rl & Erl & [= <-])%bind_Ok). apply (supports_union load Hflat) in Hs as [Hs1 Hs2].
    specialize (Hx rx e' e Erx Htx Hs1). specialize (IHl IH Ht rl Erl Hs2). cbn in *.
    destruct (Template.Eval Lex x e) as [w|er]; cbn in *; [|by rewrite Hx].
    destruct Hx as (v & -> & Hv). cbn. destruct (eval_members e l) as [ws|er]; cbn; [|by rewrite IHl].
    destruct IHl as (vs & -> & Hvs). eexists. split; [done|]. apply resolve_map_cons. by exists w, ws.
  - rewrite roots_Arr, !eval_Arr. intros Hr Ht Hs.
    enough (Hl : forall j, match eval_elements e j a with
      | Ok ws => exists vs, eval_elements e' j a = Ok vs /\ Forall2 (fun v w => resolve load v = Some w) vs ws
      | Err er => eval_elements e' j a = Err er
      end).
    { specialize (Hl 0). destruct (eval_elements e 0 a) as [ws|er]; cbn; [|by rewrite Hl].
      destruct Hl as (vs & -> & Hv). eexists. split; [done|]. apply resolve_Arr_Some. by exists ws. }
    revert r Hr Hs. induction a as [|x a IHa]; intros r Hr Hs j; [by exists []|].
    apply Forall_cons in IH as [Hx IH]. cbn in Ht. apply andb_prop in Ht as [Htx Ht].
    apply bind_Ok in Hr as (rx & Erx & (rl & Erl & [= <-])%bind_Ok). apply (supports_union load Hflat) in Hs as [Hs1 Hs2].
    specialize (Hx rx e' e Erx Htx Hs1). specialize (IHa IH Ht rl Erl Hs2 (j + 1)). cbn in *.
    destruct (Template.Eval Lex x e) as [w|er]; cbn in *; [|by rewrite Hx].
    destruct Hx as (v & -> & Hv). cbn. destruct (eval_elements e (j + 1) a) as [ws|er]; cbn; [|by rewrite IHa].
    destruct IHa as (vs & -> & Hvs). eexists. split; [done|]. by constructor.
Qed.

Lemma shape_lazy sh r e' e : Template.Shape_Roots Lex sh = Ok r -> tame_shape sh = true ->
  supports load r e' e -> same_result (Template.Shape_Eval Lex sh e') (Template.Shape_Eval Lex sh e).
Proof.
  unfold Template.Shape_Roots, tame_shape, Template.Shape_Eval. destruct (Template.Expr sh); [|apply value_lazy].
  unfold Roots.RootRefs, Expr.Eval. destruct (Syntax.Parse Lex _) as [n|]; [|done].
  intros [= <-] Ht Hs. apply map_err_result. by eapply simulates_result, node_lazy.
Qed.

(** The whole of [evalShape]. *)
Lemma evalShape_reads i self sh r full : Template.Shape_Roots Lex sh = Ok r ->
  tame_shape sh = true -> ready i self r -> full_env load i self = Some full ->
  forall m, sound load m -> exists m',
    snd (evalShape load Lex i sh self m) = m' /\ sound load m' /\
    (forall h, is_Some (m' !! h) -> is_Some (m !! h) \/ h ∈ through_hashes i self r) /\
    same_result (fst (evalShape load Lex i sh self m)) (map_err ShapeFailed (Template.Shape_Eval Lex sh full)).
Proof.
  intros Hr Ht Hok Hfull m Hm. unfold evalShape. rewrite Hr.
  destruct (buildEnv_reads load Hflat i self r full Hok Hfull (coherent_shape sh r Hr)) as (env & Hb & Hsup).
  destruct (Hb m Hm) as (m' & Eb & Hm' & Hl). exists m'.
  unfold mbind, C_bind, lift. cbn. rewrite Eb. cbn. split; [done|]. split; [done|]. split; [exact Hl|].
  apply map_err_result. by eapply shape_lazy.
Qed.

(** C35. Lazy reads are exact on tame slots of a ready instance, where the analysis collects
    the slot's roots, [Shape_Roots] being [Ok]: evaluating such a slot over
    an environment in which only the roots the analysis says are read into were loaded gives
    the value, or the failure, that evaluating it with the whole context loaded gives; what
    the value only copied is still the reference it was.  It is so where
    - every object the context refers to loads, none that loads holds a reference in its
      turn, and the memo agrees with the store ([full_env], [flat], [sound]);
    - in every expression of the slot that parses, an array or object literal that is read
      into - indexed, called upon, an operand, interpolated - reads no root but the
      configuration, and [self] is read into only through a member ([tame_shape]);
    - the configuration holds no reference, [self] is null or a map with its references under
      [previous] alone, [error] and [last_error] null or maps with theirs under [data] alone,
      each with its keys in order, and where [previous] is read, or [data] read into, such a
      map has it ([ready]).
    None of the last two can be dropped: the slots of [literal_hides_read] and
    [self_hides_read] are not tame, the instances of [output_holds_reference] and
    [error_message_not_loaded] not ready, and the lazy evaluation of each fails where it should
    not. *)
Theorem lazy_exact (i : inst) (self : value) (sh : Template.Shape) (r : Roots.Roots)
    (full : Template.ctxData) (m : memo) :
  sound load m -> Template.Shape_Roots Lex sh = Ok r -> tame_shape sh = true ->
  ready i self r -> full_env load i self = Some full ->
  match Template.Shape_Eval Lex sh full with
  | Ok w => exists v, fst (evalShape load Lex i sh self m) = Ok v /\ resolve load v = Some w
  | Err e => fst (evalShape load Lex i sh self m) = Err (ShapeFailed e)
  end.
Proof.
  intros Hm Hr Ht Hok Hfull.
  destruct (evalShape_reads i self sh r full Hr Ht Hok Hfull m Hm) as (m' & _ & _ & _ & Hs).
  destruct (Template.Shape_Eval Lex sh full); exact Hs.
Qed.

(** C36. Untouched means unloaded, under the conditions of [lazy_exact] - every object of the
    context loads to a value without references and the memo agrees with the store, the
    slot's roots are collected, the slot is tame ([tame_shape]: a literal that is read into reads no root but the configuration,
    [self] only through a member), the instance ready ([ready]: no reference in the
    configuration, in [self] outside [previous], in [error] and [last_error] outside [data],
    and those fields present where they are read): evaluating a slot loads no object but those
    under the roots it reads into, so one that only copies loads nothing; and the memo of
    loaded objects still agrees with the store. *)
Theorem lazy_loads (i : inst) (self : value) (sh : Template.Shape) (r : Roots.Roots)
    (full : Template.ctxData) (m : memo) :
  sound load m -> Template.Shape_Roots Lex sh = Ok r -> tame_shape sh = true ->
  ready i self r -> full_env load i self = Some full ->
  sound load (snd (evalShape load Lex i sh self m)) /\
  forall h, is_Some (snd (evalShape load Lex i sh self m) !! h) ->
    is_Some (m !! h) \/ h ∈ through_hashes i self r.
Proof.
  intros Hm Hr Ht Hok Hfull.
  destruct (evalShape_reads i self sh r full Hr Ht Hok Hfull m Hm) as (m' & -> & Hs & Hl & _).
  by split.
Qed.

End Eval.
End Shapes.

(** * Concrete runs *)

(** A loader of two objects, and a lexer that knows the sources below. *)
#[local] Existing Instance integers.

Definition big : value := Map [("name", Str "Ada"); ("n", Num "7")].
Definition demo_load (h : string) : option value :=
  if String.eqb h "h1" then Some big else if String.eqb h "h2" then Some (Arr [Num "1"]) else None.

Lemma demo_flat : flat demo_load.
Proof. intros h v. unfold demo_load. repeat case_match; by intros [= <-]. Qed.

Import Printing.

Definition sources : list (string * list Syntax.Token) :=
  [("input", [ident "input"]);
   ("outputs.a.n + 1", [ident "outputs"; op "."; ident "a"; op "."; ident "n"; op "+"; num "1"]);
   ("[input][0].name", [br "["; ident "input"; br "]"; br "["; num "0"; br "]"; op "."; ident "name"]);
   ("(true ? self : self).previous.name",
    [br "("; ident "true"; op "?"; ident "self"; op ":"; ident "self"; br ")";
     op "."; ident "previous"; op "."; ident "name"]);
   ("self.output.name", [ident "self"; op "."; ident "output"; op "."; ident "name"]);
   ("last_error.message", [ident "last_error"; op "."; ident "message"])].
Definition demo_lex (s : string) : option (list Syntax.Token) :=
  snd <$> find (fun e => String.eqb (fst e) s) sources.

Definition ref (h : string) : value := Mark (mkRef h 9 []).
Definition demo_inst : inst :=
  mkInst [("input", ref "h2"); ("outputs", Map [("a", ref "h1"); ("b", ref "h2")])] [] "t".
Definition demo_self : value := Map [("previous", Null)].
Definition demo_shape : Template.Shape :=
  Template.mkShape (Map [("copy", Str "$: input"); ("sum", Str "$: outputs.a.n + 1")]) false.

Definition roots_of (sh : Template.Shape) : Roots.Roots :=
  match Template.Shape_Roots demo_lex sh with Ok r => r | Err _ => Roots.none end.
Definition lazily (i : inst) (self : value) (src : string) : result error value :=
  fst (evalShape demo_load demo_lex i (Template.mkShape (Str src) false) self ∅).
Definition eagerly (i : inst) (self : value) (src : string) : option (result Template.eval_error value) :=
  full ← full_env demo_load i self;
  Some (Template.Shape_Eval demo_lex (Template.mkShape (Str src) false) full).

Lemma demo_ready : ready demo_inst demo_self (roots_of demo_shape).
Proof. by split; vm_compute. Qed.

Definition demo_full : Template.ctxData :=
  match full_env demo_load demo_inst demo_self with Some f => f | None => [] end.

Lemma demo_eager : Template.Shape_Eval demo_lex demo_shape demo_full =
  Ok (Map [("copy", Arr [Num "1"]); ("sum", Num "8")]).
Proof. by vm_compute. Qed.
Lemma demo_memo : sound demo_load ∅.
Proof. by intros h v. Qed.
Lemma demo_roots : Template.Shape_Roots demo_lex demo_shape = Ok (roots_of demo_shape).
Proof. by vm_compute. Qed.
Lemma demo_tame : tame_shape demo_lex demo_shape = true.
Proof. by vm_compute. Qed.
Lemma demo_env : full_env demo_load demo_inst demo_self = Some demo_full.
Proof. by vm_compute. Qed.

Lemma lazy_exact_witness : exists v,
  fst (evalShape demo_load demo_lex demo_inst demo_shape demo_self ∅) = Ok v /\
  resolve demo_load v = Some (Map [("copy", Arr [Num "1"]); ("sum", Num "8")]).
Proof.
  pose proof (lazy_exact demo_lex demo_load demo_flat demo_inst demo_self demo_shape
    (roots_of demo_shape) demo_full ∅ demo_memo demo_roots demo_tame demo_ready demo_env) as Hw.
  rewrite demo_eager in Hw. exact Hw.
Defined.

(** Only the object read into was loaded. *)
Lemma demo_through : through_hashes demo_inst demo_self (roots_of demo_shape) = ["h1"].
Proof. by vm_compute. Qed.

Lemma lazy_loads_witness : sound demo_load (snd (evalShape demo_load demo_lex demo_inst demo_shape demo_self ∅)) /\
  forall h, is_Some (snd (evalShape demo_load demo_lex demo_inst demo_shape demo_self ∅) !! h) ->
    is_Some ((∅ : memo) !! h) \/ h ∈ ["h1"].
Proof.
  rewrite <- demo_through.
  exact (lazy_loads demo_lex demo_load demo_flat demo_inst demo_self demo_shape
    (roots_of demo_shape) demo_full ∅ demo_memo demo_roots demo_tame demo_ready demo_env).
Defined.

(** * What the analysis misses *)

(** A literal resets the position, so what is navigated out of it again was not loaded. *)
Lemma literal_hides_read :
  eagerly (mkInst [("input", ref "h1")] [] "t") demo_self "$: [input][0].name" = Some (Ok (Str "Ada")) /\
  lazily (mkInst [("input", ref "h1")] [] "t") demo_self "$: [input][0].name" =
    Err (ShapeFailed (Template.ExpressionFailed "$: [input][0].name" (Unresolved "field access .name" "h1"))).
Proof. by vm_compute. Qed.

(** [self] itself has no case, so its previous output is not loaded when it is reached
    through a conditional. *)
Lemma self_hides_read :
  eagerly demo_inst (Map [("previous", ref "h1")]) "$: (true ? self : self).previous.name" = Some (Ok (Str "Ada")) /\
  lazily demo_inst (Map [("previous", ref "h1")]) "$: (true ? self : self).previous.name" =
    Err (ShapeFailed (Template.ExpressionFailed "$: (true ? self : self).previous.name"
      (Unresolved "field access .name" "h1"))).
Proof. by vm_compute. Qed.

(** An output that copied a reference is read into by the switch of its own task. *)
Lemma output_holds_reference :
  let self := Map [("output", ref "h1"); ("previous", Null); ("result", Null)] in
  eagerly demo_inst self "$: self.output.name" = Some (Ok (Str "Ada")) /\
  lazily demo_inst self "$: self.output.name" =
    Err (ShapeFailed (Template.ExpressionFailed "$: self.output.name" (Unresolved "field access .name" "h1"))).
Proof. by vm_compute. Qed.

(** The message of an error is cut like any other value, and only [data] is loaded. *)
Lemma error_message_not_loaded :
  let i := mkInst [("last_error", Map [("code", Str "x"); ("message", ref "h1"); ("task", Str "t")])] [] "t" in
  lazily i demo_self "${last_error.message}" = Err (ShapeFailed (Template.Interpolates "h1")) /\
  Roots.t_LastError (Roots.through (roots_of (Template.mkShape (Str "${last_error.message}") false))) = true.
Proof. by vm_compute. Qed.

End Laziness.
