(* ===== verification/CheckDoc.v ===== *)
(** The checks a schema document passes before it is used: internal/schema/checkdoc.go over
    the walk of walk.go.

    A document is its root node and the pool of its [$defs].  As in [Schema], no sub-schema
    is null and the nodes form a tree, so the set of nodes seen, which a decoded document
    never meets again, is left out; definitions are those of the root.  An error keeps the
    slot it came from, spelled as the path of the source spells it. *)
From Stdlib Require Import ZArith QArith Lia Ascii String.
From stdpp Require Import sorting.
From S2P Require Import Prelude GoStrings Schema.
Import Schema.
Open Scope string_scope.
Open Scope list_scope.
Open Scope Z_scope.

Module CheckDoc.

(** * The walk *)

(** Whether a sub-schema reads the same value, or a part of it. *)
Inductive slotKind := slotNested | slotBare | slotDefs.

Record childSlot := mkSlot { kw : string; key : string; idx : Z; kind : slotKind }.

Section CheckDoc.
Context `{Numbers}.

Implicit Types (n r p a b c : node) (defs : defs_t) (v w : value) (k : string).

Section Walk.
Context {A : Type}.

Definition keyed (kw : string) (kind : slotKind) (ks : list string) (m : gmap string A) : list (childSlot * A) :=
  omap (fun k => (mkSlot kw k (-1) kind,.) <$> m !! k) ks.

Fixpoint indexed (kw : string) (i : Z) (l : list A) : list (childSlot * A) :=
  match l with [] => [] | x :: l => (mkSlot kw "" i slotBare, x) :: indexed kw (i + 1) l end.

Definition single (kw : string) (o : option A) : list (childSlot * A) :=
  match o with Some x => [(mkSlot kw "" (-1) slotNested, x)] | None => [] end.
End Walk.

(** [children]: every sub-schema with its slot, in the order of [mapChildren]. *)
Definition slots n : list (childSlot * node) :=
  keyed "properties" slotNested (sortedKeys (props n)) (props n) ++ single "items" (Items n) ++
  single "additionalProperties" (AdditionalProperties n) ++ indexed "oneOf" 0 (entries (OneOf n)) ++
  indexed "anyOf" 0 (entries (AnyOf n)) ++ indexed "allOf" 0 (entries (AllOf n)).

(** A walk that reads: what [f] makes of a node and of what the walk made of its slots. *)
Fixpoint walk {A} (f : node -> list (childSlot * A) -> A) n : A :=
  f n (match Properties n with Some ps => keyed "properties" slotNested (sortedKeys ps) (walk f <$> ps) | None => [] end ++
       single "items" (match Items n with Some c => Some (walk f c) | None => None end) ++
       single "additionalProperties" (match AdditionalProperties n with Some c => Some (walk f c) | None => None end) ++
       indexed "oneOf" 0 (match OneOf n with Some l => walk f <$> l | None => [] end) ++
       indexed "anyOf" 0 (match AnyOf n with Some l => walk f <$> l | None => [] end) ++
       indexed "allOf" 0 (match AllOf n with Some l => walk f <$> l | None => [] end)).

(** * Failures *)

Inductive doc_error :=
  | DocRef (e : ref_error)
  | UnsupportedType (t : string)
  | MinimumExceeds
  | MinLengthExceeds
  | MinItemsExceeds
  | DefaultInvalid (e : conform_error)
  | RequiredDefault (name : string)
  | OpenSlot
  | AtSlot (path : string) (e : doc_error)
  | NoProgress (cycle : list string).

Definition pathLabel (sl : childSlot) : string :=
  if String.eqb (kw sl) "properties" || String.eqb (kw sl) "$defs" then kw sl +:+ "." +:+ key sl
  else if existsb (String.eqb (kw sl)) ["oneOf"; "anyOf"; "allOf"] then kw sl +:+ "." +:+ FormatInt (idx sl)
  else kw sl.

(** The first failure, in order; [None] is the fuel of a conform run out. *)
Definition verdict := option (result doc_error unit).

Definition pass : verdict := Some (Ok ()).
Definition refuse (e : doc_error) : verdict := Some (Err e).
Definition then_ (m : verdict) (k : verdict) : verdict :=
  match m with Some (Ok _) => k | Some (Err e) => refuse e | None => None end.
Definition refuse_if (b : bool) (e : doc_error) : verdict := if b then refuse e else pass.

Fixpoint each_slot (l : list (childSlot * verdict)) : verdict :=
  match l with
  | [] => pass
  | (sl, m) :: l =>
      match m with
      | Some (Ok _) => each_slot l
      | Some (Err e) => refuse (AtSlot (pathLabel sl) e)
      | None => None
      end
  end.

(** * checkDoc *)

Definition validTypes : list string :=
  ["string"; "number"; "integer"; "boolean"; "object"; "array"; "null"].

Definition exceeds {A} (gt : A -> A -> bool) (lo hi : option A) : bool :=
  match lo, hi with Some lo, Some hi => gt lo hi | _, _ => false end.

Fixpoint check_types (ts : list string) : verdict :=
  match ts with
  | [] => pass
  | t :: ts => if Contains validTypes t then check_types ts else refuse (UnsupportedType t)
  end.

Fixpoint check_required defs n (names : list string) : verdict :=
  match names with
  | [] => pass
  | name :: names =>
      match props n !! name with
      | Some prop =>
          match propDefault defs prop with
          | Some _ => refuse (AtSlot ("properties." +:+ name) (RequiredDefault name))
          | None => check_required defs n names
          end
      | None => check_required defs n names
      end
  end.

Definition check_ref defs n : verdict :=
  if decide (Ref n = "") then pass
  else match deref defs n with Ok _ => pass | Err e => refuse (DocRef e) end.

Definition check_default (fuel : nat) defs n : verdict :=
  match Default n with
  | None => pass
  | Some d =>
      match Validate fuel defs n d Strict with
      | None => None
      | Some (Err e) => refuse (DefaultInvalid e)
      | Some (Ok _) => pass
      end
  end.

(** The checks of one node, before its sub-schemas. *)
Definition check_node (fuel : nat) defs n : verdict :=
  then_ (check_ref defs n)
  (then_ (check_types (Types n))
  (then_ (refuse_if (exceeds (fun lo hi : Q => negb (Qle_bool lo hi)) (Minimum n) (Maximum n)) MinimumExceeds)
  (then_ (refuse_if (exceeds Z.gtb (MinLength n) (MaxLength n)) MinLengthExceeds)
  (then_ (refuse_if (exceeds Z.gtb (MinItems n) (MaxItems n)) MinItemsExceeds)
  (then_ (check_default fuel defs n)
         (check_required defs n (entries (Required n)))))))).

Definition checkDoc (fuel : nat) defs : node -> verdict :=
  walk (fun n subs => then_ (check_node fuel defs n) (each_slot subs)).

(** [CheckNoAdditionalProperties]; at the root its definitions follow. *)
Definition checkNoAdditionalProperties : node -> verdict :=
  walk (fun n subs =>
    then_ (refuse_if (negb (isNone (AdditionalProperties n))) (AtSlot "additionalProperties" OpenSlot)) (each_slot subs)).

Definition def_slots (f : node -> verdict) defs : list (childSlot * verdict) :=
  keyed "$defs" slotDefs (sortedKeys defs) (f <$> defs).

Definition CheckNoAdditionalProperties defs n : verdict :=
  then_ (checkNoAdditionalProperties n) (each_slot (def_slots checkNoAdditionalProperties defs)).

(** * Productivity *)

Definition ref_names n : gset string :=
  match strip_prefix refPrefix (Ref n) with Some k => {[k]} | None => ∅ end.

(** References met without passing through a property or an item. *)
Definition collectBareRefs : node -> gset string :=
  walk (fun n subs => ref_names n ∪
    ⋃ ((fun x => match kind (fst x) with slotBare => snd x | _ => ∅ end) <$> subs)).

Definition sorted_set (s : gset string) : list string := merge_sort String.le (elements s).

Definition bare_edges defs : gmap string (list string) :=
  (fun n => sorted_set (collectBareRefs n ∩ dom defs)) <$> defs.

(** The depth-first search: no mark is unvisited. *)
Inductive mark := onStack | finished.

Record search := mkSearch { state : gmap string mark; stack : list string }.

(** The path from the last place of [n] on the stack, and [n] again. *)
Fixpoint until (n : string) (rev_stack : list string) : list string :=
  match rev_stack with
  | [] => []
  | x :: l => if String.eqb x n then [x] else x :: until n l
  end.
Definition cycle_from (n : string) (stack : list string) : list string :=
  rev (until n (rev stack)) ++ [n].

Fixpoint visit_all (visit : string -> search -> option (result (list string) search)) (l : list string) (s : search)
    : option (result (list string) search) :=
  match l with
  | [] => Some (Ok s)
  | n :: l =>
      match visit n s with
      | Some (Ok s) => visit_all visit l s
      | stopped => stopped
      end
  end.

Fixpoint visit (fuel : nat) (bare : gmap string (list string)) (n : string) (s : search)
    : option (result (list string) search) :=
  match fuel with
  | O => None
  | S fuel =>
      match state s !! n with
      | Some onStack => Some (Err (cycle_from n (stack s)))
      | Some finished => Some (Ok s)
      | None =>
          match visit_all (visit fuel bare) (default [] (bare !! n))
                  (mkSearch (<[n := onStack]> (state s)) (stack s ++ [n])) with
          | Some (Ok s') => Some (Ok (mkSearch (<[n := finished]> (state s')) (removelast (stack s'))))
          | stopped => stopped
          end
      end
  end.

(** Each nested visit is of a definition without a mark. *)
Definition checkProductivity defs : verdict :=
  let bare := bare_edges defs in
  match visit_all (visit (S (size bare)) bare) (sortedKeys defs) (mkSearch ∅ []) with
  | Some (Ok _) => pass
  | Some (Err cycle) => refuse (NoProgress cycle)
  | None => None
  end.

(** [checkDocRoot], of a document whose root is [n]. *)
Definition checkDocRoot (fuel : nat) defs n : verdict :=
  then_ (checkDoc fuel defs n)
  (then_ (each_slot (def_slots (checkDoc fuel defs) defs))
         (checkProductivity defs)).

End CheckDoc.
End CheckDoc.
