(* ===== verification/Checked.v ===== *)
(** What the checks of [CheckDoc] give the conform walk: references that resolve, a
    recursion that makes progress, and defaults that fit. *)
From Stdlib Require Import ZArith QArith Lia Ascii String.
From stdpp Require Import sorting.
From S2P Require Import Prelude GoStrings Schema Conforming CheckDoc.
Import Schema Conforming CheckDoc.
Open Scope string_scope.
Open Scope list_scope.
Open Scope Z_scope.

Module Checked.
Section Theory.
Context `{Numbers}.

Implicit Types (n r p a b c : node) (defs : defs_t) (v w : value) (k e : string).

(** * The walk and the nodes *)

Lemma keyed_fmap {A B} (g : A -> B) kw sk ks (m : gmap string A) :
  keyed kw sk ks (g <$> m) = prod_map id g <$> keyed kw sk ks m.
Proof.
  unfold keyed. induction ks as [|k ks IH]; [done|]. cbn. rewrite lookup_fmap.
  destruct (m !! k); cbn; by rewrite IH.
Qed.

Lemma indexed_fmap {A B} (g : A -> B) kw i (l : list A) :
  indexed kw i (g <$> l) = prod_map id g <$> indexed kw i l.
Proof. revert i. induction l as [|x l IH]; intros i; [done|]. cbn. by rewrite <- IH. Qed.

Lemma walk_eq {A} (f : node -> list (childSlot * A) -> A) n :
  walk f n = f n (prod_map id (walk f) <$> slots n).
Proof.
  destruct n as [ts ps rq ad it o an al en mi ma ml mx mii mai rf df].
  cbn [walk Properties Items AdditionalProperties OneOf AnyOf AllOf]. f_equal. unfold slots, props, entries.
  cbn [Properties Items AdditionalProperties OneOf AnyOf AllOf]. rewrite !fmap_app, <- !indexed_fmap.
  f_equal; [destruct ps as [ps|]; [apply keyed_fmap|done]|].
  f_equal; [by destruct it|]. f_equal; [by destruct ad|]. by destruct o, an, al.
Qed.

Lemma elem_of_keyed {A} kw sk (m : gmap string A) x : (exists sl, (sl, x) ∈ keyed kw sk (sortedKeys m) m) <-> exists k, m !! k = Some x.
Proof.
  unfold keyed. split.
  - intros [sl Hx]. apply list_elem_of_omap in Hx as (k & _ & Hk). destruct (m !! k) eqn:E; [|done].
    injection Hk as _ ->. by exists k.
  - intros [k Hk]. eexists. apply list_elem_of_omap. exists k. rewrite elem_of_sortedKeys, Hk. split; [by eexists|done].
Qed.

Lemma elem_of_indexed {A} kw (l : list A) x sl i : (sl, x) ∈ indexed kw i l -> x ∈ l /\ kind sl = slotBare.
Proof.
  revert i. induction l as [|y l IH]; intros i; cbn; [by intros ?%not_elem_of_nil|].
  intros [[= -> ->]|Hx]%elem_of_cons; [by split; [constructor|]|].
  apply IH in Hx as [? ?]. split; [by constructor|done].
Qed.

Lemma indexed_elem {A} kw (l : list A) x i : x ∈ l -> exists sl, (sl, x) ∈ indexed kw i l /\ kind sl = slotBare.
Proof.
  intros Hx. revert i. induction Hx as [x l|x y l _ IH]; intros i; cbn.
  - eexists. by split; [constructor|].
  - destruct (IH (i + 1)) as (sl & ? & ?). exists sl. by split; [constructor|].
Qed.

Lemma keyed_kind {A} kw sk ks (m : gmap string A) sl x : (sl, x) ∈ keyed kw sk ks m -> kind sl = sk.
Proof.
  unfold keyed. intros Hx. apply list_elem_of_omap in Hx as (k & _ & Hk). destruct (m !! k); [|done].
  by injection Hk as <- _.
Qed.

Lemma single_elem {A} kw (o : option A) sl x : (sl, x) ∈ single kw o -> kind sl = slotNested.
Proof.
  destruct o; cbn; intros Hx; [|by apply not_elem_of_nil in Hx].
  apply list_elem_of_singleton in Hx. by injection Hx as -> _.
Qed.

Lemma child_slot n c : c ∈ children n -> exists sl, (sl, c) ∈ slots n.
Proof.
  unfold children, slots. intros Hc. repeat setoid_rewrite elem_of_app.
  repeat (apply elem_of_app in Hc as [Hc|Hc]).
  - apply list_elem_of_fmap in Hc as ([k x] & -> & Hk). apply elem_of_map_to_list in Hk.
    destruct (proj2 (elem_of_keyed "properties" slotNested (props n) x)) as [sl Hs]; [by exists k|]. exists sl. tauto.
  - destruct (AdditionalProperties n) as [a|]; [|by apply not_elem_of_nil in Hc].
    apply list_elem_of_singleton in Hc as ->. eexists. do 2 right. left. constructor.
  - destruct (Items n) as [a|]; [|by apply not_elem_of_nil in Hc].
    apply list_elem_of_singleton in Hc as ->. eexists. right. left. constructor.
  - destruct (indexed_elem "oneOf" _ c 0 Hc) as (sl & Hs & _). exists sl. tauto.
  - destruct (indexed_elem "anyOf" _ c 0 Hc) as (sl & Hs & _). exists sl. tauto.
  - destruct (indexed_elem "allOf" _ c 0 Hc) as (sl & Hs & _). exists sl. tauto.
Qed.

Lemma bare_slot n c : c ∈ bare_children n <-> exists sl, (sl, c) ∈ slots n /\ kind sl = slotBare.
Proof.
  unfold bare_children, slots. split.
  - intros Hc. repeat setoid_rewrite elem_of_app. repeat (apply elem_of_app in Hc as [Hc|Hc]).
    + destruct (indexed_elem "oneOf" _ c 0 Hc) as (sl & Hs & ?). exists sl. tauto.
    + destruct (indexed_elem "anyOf" _ c 0 Hc) as (sl & Hs & ?). exists sl. tauto.
    + destruct (indexed_elem "allOf" _ c 0 Hc) as (sl & Hs & ?). exists sl. tauto.
  - intros (sl & Hs & Hb). rewrite !elem_of_app in Hs.
    destruct Hs as [Hs|[Hs|[Hs|[Hs|[Hs|Hs]]]]].
    + apply keyed_kind in Hs. congruence.
    + apply single_elem in Hs. congruence.
    + apply single_elem in Hs. congruence.
    + apply elem_of_indexed in Hs as [? _]. rewrite !elem_of_app. tauto.
    + apply elem_of_indexed in Hs as [? _]. rewrite !elem_of_app. tauto.
    + apply elem_of_indexed in Hs as [? _]. rewrite !elem_of_app. tauto.
Qed.

(** Induction over the sub-schemas of a node. *)
Lemma node_child_ind (P : node -> Prop) : (forall n, (forall c, c ∈ children n -> P c) -> P n) -> forall n, P n.
Proof.
  intros HP n. remember (length (nodes n)) as s eqn:Es. revert n Es.
  induction (lt_wf s) as [s _ IH]. intros n Es. apply HP. intros c Hc.
  apply nodes_child in Hc as [_ Hlt]. eapply IH; [|reflexivity]. by rewrite Es.
Qed.

Lemma each_make (P : node -> Prop) n : P n -> (forall c, c ∈ children n -> each P c) -> each P n.
Proof.
  intros Hn Hc. unfold each. rewrite nodes_children. constructor; [done|].
  apply Forall_forall. intros x Hx. apply list_elem_of_join in Hx as (l & Hx & Hl).
  apply list_elem_of_fmap in Hl as (c & -> & Hin). by apply (proj1 (Forall_forall _ _) (Hc c Hin)).
Qed.

(** * What a document that passes has *)

Lemma then_pass m m' : then_ m m' = pass -> m = pass /\ m' = pass.
Proof. by destruct m as [[[]|]|]. Qed.

Lemma each_slot_pass l : each_slot l = pass -> forall sl m, (sl, m) ∈ l -> m = pass.
Proof.
  induction l as [|[sl m] l IH]; cbn; [by intros _ ? ? ?%not_elem_of_nil|].
  destruct m as [[[]|]|]; [|done|done]. intros Hl sl' m' [[= -> ->]|Hin]%elem_of_cons; [done|by eapply IH].
Qed.

Lemma checkDoc_each fuel defs n : checkDoc fuel defs n = pass -> each (fun c => check_node fuel defs c = pass) n.
Proof.
  induction n as [n IH] using node_child_ind. unfold checkDoc. rewrite walk_eq. intros [Hn Hs]%then_pass.
  apply each_make; [done|]. intros c Hc. apply IH; [done|].
  destruct (child_slot n c Hc) as [sl Hsl]. apply (each_slot_pass _ Hs sl).
  apply list_elem_of_fmap. by exists (sl, c).
Qed.

(** A document, root and definitions, every node of which passed. *)
Record checked (fuel : nat) defs n : Prop := mkChecked {
  checked_root : each (fun c => check_node fuel defs c = pass) n;
  checked_pool : pool_each (fun c => check_node fuel defs c = pass) defs;
  checked_progress : checkProductivity defs = pass }.

Lemma checkDocRoot_checked fuel defs n : checkDocRoot fuel defs n = pass -> checked fuel defs n.
Proof.
  unfold checkDocRoot. intros [Hn [Hd Hp]%then_pass]%then_pass.
  split; [by apply checkDoc_each| |done]. intros k c Hk. apply checkDoc_each.
  unfold def_slots in Hd. rewrite keyed_fmap in Hd.
  destruct (proj2 (elem_of_keyed "$defs" slotDefs defs c)) as [sl Hs]; [by exists k|].
  apply (each_slot_pass _ Hd sl). apply list_elem_of_fmap. by exists (sl, c).
Qed.

(** * Productivity *)

Lemma collectBareRefs_spec n k : k ∈ collectBareRefs n <-> exists c, c ∈ bares n /\ strip_prefix refPrefix (Ref c) = Some k.
Proof.
  revert k. induction n as [n IH] using node_child_ind. intros k. unfold collectBareRefs. rewrite walk_eq.
  rewrite elem_of_union. split.
  - intros [Hk|Hk].
    + exists n. split; [apply bares_self|]. unfold ref_names in Hk.
      destruct (strip_prefix _ _); [|by apply not_elem_of_empty in Hk]. by apply elem_of_singleton in Hk as ->.
    + apply elem_of_union_list in Hk as (s & Hs & Hk). apply list_elem_of_fmap in Hs as (x & -> & Hx).
      apply list_elem_of_fmap in Hx as ([sl c] & -> & Hx). cbn in Hk.
      destruct (kind sl) eqn:Hb; [by apply not_elem_of_empty in Hk| |by apply not_elem_of_empty in Hk].
      assert (Hc : c ∈ bare_children n) by (apply bare_slot; by exists sl).
      apply IH in Hk as (d & Hd & Hk); [|by apply bare_child]. exists d. split; [|done]. by eapply bares_child.
  - intros (d & Hd & Hk). rewrite bares_children in Hd. apply elem_of_cons in Hd as [->|Hd].
    + left. unfold ref_names. rewrite Hk. by apply elem_of_singleton.
    + right. apply list_elem_of_join in Hd as (l & Hd & Hl). apply list_elem_of_fmap in Hl as (c & -> & Hc).
      pose proof (proj1 (bare_slot n c) Hc) as (sl & Hs & Hb).
      apply elem_of_union_list. exists (collectBareRefs c). split.
      * apply list_elem_of_fmap. exists (sl, collectBareRefs c). cbn. rewrite Hb. split; [done|].
        apply list_elem_of_fmap. by exists (sl, c).
      * apply IH; [by apply bare_child|]. by exists d.
Qed.

Section Graph.
Context (bare : gmap string (list string)).

Definition edges k : list string := default [] (bare !! k).

(** A rank that every edge lowers. *)
Definition ranked (rank : string -> nat) : Prop := forall k e, e ∈ edges k -> (rank e < rank k)%nat.

(** A list in which every name comes after what it refers to. *)
Inductive ordered : list string -> Prop :=
  | ordered_nil : ordered []
  | ordered_snoc l k : ordered l -> k ∉ l -> (forall e, e ∈ edges k -> e ∈ l) -> ordered (l ++ [k]).

Lemma ordered_closed l : ordered l -> forall k e, k ∈ l -> e ∈ edges k -> e ∈ l.
Proof.
  induction 1 as [|l k Hl IH _ He]; intros k' e Hk; [by apply not_elem_of_nil in Hk|].
  apply elem_of_app in Hk as [Hk|Hk]; rewrite elem_of_app.
  - intros Hin. left. by eapply IH.
  - apply list_elem_of_singleton in Hk as ->. auto.
Qed.

Lemma ordered_ranked l : ordered l -> exists rank (top : nat),
  (forall k, k ∈ l -> (rank k < top)%nat) /\ (forall k e, k ∈ l -> e ∈ edges k -> (rank e < rank k)%nat).
Proof.
  induction 1 as [|l k Hl (rank & top & Hb & Hr) Hk He].
  - exists (fun _ => O), O. split; intros; by apply not_elem_of_nil in H0.
  - exists (fun x => if decide (x = k) then top else rank x), (S top).
    assert (Hx : forall x, x ∈ l -> (if decide (x = k) then top else rank x) = rank x).
    { intros x Hx. rewrite decide_False; [done|]. by intros ->. }
    split.
    + intros x [Hin| ->%list_elem_of_singleton]%elem_of_app; [rewrite Hx by done; specialize (Hb x Hin); lia|].
      rewrite decide_True by done. lia.
    + intros x e [Hin| ->%list_elem_of_singleton]%elem_of_app Hedge.
      * rewrite !Hx; [by apply Hr|done|by eapply ordered_closed].
      * rewrite (decide_True (P := k = k)), Hx by auto. by apply Hb, He.
Qed.

(** The names the search has finished with. *)
Definition finishes (l : list string) (s : search) : Prop := forall k, state s !! k = Some finished <-> k ∈ l.
Definition same_stack (s s' : search) : Prop := forall k, state s !! k = Some onStack <-> state s' !! k = Some onStack.

Definition good_visit (V : string -> search -> option (result (list string) search)) : Prop :=
  forall k s s' l, V k s = Some (Ok s') -> finishes l s -> ordered l ->
    exists l', finishes (l ++ l') s' /\ ordered (l ++ l') /\ k ∈ l ++ l' /\ same_stack s s'.

Lemma visit_all_ordered V ks : good_visit V -> forall s s' l, visit_all V ks s = Some (Ok s') -> finishes l s -> ordered l ->
  exists l', finishes (l ++ l') s' /\ ordered (l ++ l') /\ (forall k, k ∈ ks -> k ∈ l ++ l') /\ same_stack s s'.
Proof.
  intros HV. induction ks as [|k ks IH]; intros s s' l; cbn.
  - intros [= <-] Hf Ho. exists []. rewrite app_nil_r. split; [done|]. split; [done|]. split; [|done].
    intros k Hk. by apply not_elem_of_nil in Hk.
  - destruct (V k s) as [[s1|]|] eqn:E; [|done|done]. intros Hs Hf Ho.
    destruct (HV _ _ _ _ E Hf Ho) as (l1 & Hf1 & Ho1 & Hk1 & Hs1).
    destruct (IH _ _ _ Hs Hf1 Ho1) as (l2 & Hf2 & Ho2 & Hk2 & Hs2).
    exists (l1 ++ l2). rewrite app_assoc. split; [done|]. split; [done|]. split.
    + intros k' [->|Hk']%elem_of_cons; [|by apply Hk2]. rewrite elem_of_app. by left.
    + intros k'. by rewrite (Hs1 k').
Qed.

Lemma visit_ordered fuel : good_visit (visit fuel bare).
Proof.
  induction fuel as [|fuel IH]; intros k s s' l; cbn [visit]; [done|].
  destruct (state s !! k) as [[|]|] eqn:Ek; [done| |].
  - intros [= <-] Hf Ho. exists []. rewrite app_nil_r. split; [done|]. split; [done|]. split; [by apply Hf|done].
  - destruct (visit_all _ _ _) as [[s1|]|] eqn:E; [|done|done]. intros [= <-] Hf Ho.
    assert (Hf0 : finishes l (mkSearch (<[k := onStack]> (state s)) (stack s ++ [k]))).
    { intros x. cbn. destruct (decide (x = k)) as [->|Hx]; [|rewrite lookup_insert_ne by done; apply Hf].
      rewrite lookup_insert_eq. split; [done|]. intros Hin%Hf. congruence. }
    destruct (visit_all_ordered _ _ IH _ _ _ E Hf0 Ho) as (l1 & Hf1 & Ho1 & Hk1 & Hs1).
    assert (Hk : k ∉ l ++ l1).
    { intros Hin%Hf1. pose proof (proj1 (Hs1 k)) as Hon. cbn in Hon. rewrite lookup_insert_eq in Hon.
      rewrite (Hon eq_refl) in Hin. done. }
    exists (l1 ++ [k]). rewrite app_assoc. split.
    { intros x. cbn. rewrite elem_of_app, list_elem_of_singleton. destruct (decide (x = k)) as [->|Hx].
      - rewrite lookup_insert_eq. tauto.
      - rewrite lookup_insert_ne by done. rewrite (Hf1 x). tauto. }
    split; [by constructor|]. split; [rewrite elem_of_app, list_elem_of_singleton; by right|].
    intros x. cbn. destruct (decide (x = k)) as [->|Hx].
    + rewrite Ek, lookup_insert_eq. split; done.
    + rewrite lookup_insert_ne by done. rewrite <- (Hs1 x). cbn. by rewrite lookup_insert_ne by done.
Qed.

(** Where a rank exists, no visit meets its own stack. *)
Lemma visit_all_ranked V ks (Q : string -> search -> Prop) :
  (forall k s, Q k s -> forall cy, V k s <> Some (Err cy)) ->
  (forall k s s', Q k s -> V k s = Some (Ok s') -> forall k', Q k' s -> Q k' s') ->
  forall s, (forall k, k ∈ ks -> Q k s) -> forall cy, visit_all V ks s <> Some (Err cy).
Proof.
  intros H1 H2. induction ks as [|k ks IH]; intros s Hq c; cbn; [done|].
  assert (Hk : Q k s) by (apply Hq; constructor).
  destruct (V k s) as [[s1|e]|] eqn:E; [|by destruct (H1 k s Hk e)|done]. apply IH.
  intros k' Hk'. eapply H2; [exact Hk|done|]. apply Hq. by constructor.
Qed.

Definition below_stack (rank : string -> nat) k (s : search) : Prop :=
  forall x, state s !! x = Some onStack -> (rank k < rank x)%nat.

Lemma visit_same_stack fuel k s s' : visit fuel bare k s = Some (Ok s') -> same_stack s s'.
Proof.
  revert k s s'. induction fuel as [|fuel IH]; intros k s s'; cbn [visit]; [done|].
  destruct (state s !! k) as [[|]|] eqn:Ek; [done|by intros [= <-] ?|].
  destruct (visit_all _ _ _) as [[s1|]|] eqn:E; [|done|done]. intros [= <-].
  assert (Hs : forall ks s s', visit_all (visit fuel bare) ks s = Some (Ok s') -> same_stack s s').
  { intros ks. induction ks as [|x ks IHk]; intros t t'; cbn; [by intros [= <-] ?|].
    destruct (visit fuel bare x t) as [[t1|]|] eqn:Ex; [|done|done]. intros Ht y.
    by rewrite (IH _ _ _ Ex y), (IHk _ _ Ht y). }
  apply Hs in E. intros x. cbn. destruct (decide (x = k)) as [->|Hx].
  - rewrite Ek, lookup_insert_eq. split; done.
  - rewrite lookup_insert_ne by done. rewrite <- (E x). cbn. by rewrite lookup_insert_ne by done.
Qed.

Lemma visit_ranked rank fuel : ranked rank -> forall k s, below_stack rank k s -> forall cy, visit fuel bare k s <> Some (Err cy).
Proof.
  intros Hr. induction fuel as [|fuel IH]; intros k s Hb c; cbn [visit]; [done|].
  destruct (state s !! k) as [[|]|] eqn:Ek; [specialize (Hb k Ek); lia|done|].
  destruct (visit_all _ _ _) as [[s1|c']|] eqn:E; [done| |done]. exfalso. revert E.
  apply (visit_all_ranked _ _ (below_stack rank)); [exact IH| |].
  - intros x t t' _ Ht y Hy z Hz. apply Hy. by apply (visit_same_stack _ _ _ _ Ht z).
  - intros e He x. cbn. pose proof (Hr k e He). destruct (decide (x = k)) as [->|Hx].
    + done.
    + rewrite lookup_insert_ne by done. intros Hx'%Hb. lia.
Qed.

(** Fuel for every name without a mark. *)
Abbreviation names m := (dom m : gset string).
Definition unmarked (s : search) : nat := size (names bare ∖ names (state s)).

Lemma visit_ends fuel : forall k s, (forall x e, e ∈ edges x -> e ∈ names bare) -> k ∈ names bare -> (unmarked s < fuel)%nat ->
  exists z, visit fuel bare k s = Some z /\ forall s', z = Ok s' -> names (state s) ⊆ names (state s').
Proof.
  induction fuel as [|fuel IH]; intros k s He Hk Hf; [lia|]. cbn [visit].
  destruct (state s !! k) as [[|]|] eqn:Ek; [by eexists|eexists; split; [done|by intros ? [= <-]]|].
  set (s0 := mkSearch _ _).
  assert (H0 : (unmarked s0 < fuel)%nat).
  { enough (unmarked s0 < unmarked s)%nat by lia. unfold unmarked. subst s0. cbn [state]. rewrite dom_insert_L. apply subset_size.
    apply (not_elem_of_dom (M:=gmap string) (D:=gset string)) in Ek. set_solver. }
  assert (Hall : forall ks t, (forall x, x ∈ ks -> x ∈ names bare) -> (unmarked t < fuel)%nat ->
    exists z, visit_all (visit fuel bare) ks t = Some z /\ forall s', z = Ok s' -> names (state t) ⊆ names (state s')).
  { intros ks. induction ks as [|x ks IHk]; intros t Hks Ht; cbn; [eexists; split; [done|by intros ? [= <-]]|].
    destruct (IH x t He) as (z & -> & Hr); [apply Hks; constructor|done|].
    destruct z as [t1|c]; [|by eexists]. specialize (Hr t1 eq_refl).
    destruct (IHk t1) as (z & -> & Hr'); [intros; apply Hks; by constructor| |].
    { enough (unmarked t1 <= unmarked t)%nat by lia. unfold unmarked. apply subseteq_size. set_solver. }
    eexists. split; [done|]. intros s' ->. specialize (Hr' s' eq_refl). set_solver. }
  destruct (Hall (default [] (bare !! k)) s0) as (z & -> & Hr); [intros; by eapply He|done|].
  destruct z as [s1|c]; [|by eexists]. eexists. split; [done|]. intros s' [= <-]. cbn.
  specialize (Hr s1 eq_refl). subst s0. cbn in Hr. rewrite dom_insert_L in Hr. rewrite dom_insert_L. set_solver.
Qed.

Lemma visit_all_ends fuel : (forall x e, e ∈ edges x -> e ∈ names bare) -> forall ks s,
  (forall x, x ∈ ks -> x ∈ names bare) -> (size bare < fuel)%nat -> exists z, visit_all (visit fuel bare) ks s = Some z.
Proof.
  intros He ks s Hks Hf. revert s. induction ks as [|x ks IH]; intros s; cbn; [by eexists|].
  destruct (visit_ends fuel x s He) as (z & -> & _); [apply Hks; constructor| |].
  { unfold unmarked. enough (size (names bare ∖ names (state s)) <= size (names bare))%nat as Hle.
    { rewrite size_dom in Hle. lia. } apply subseteq_size. set_solver. }
  destruct z; [|by eexists]. apply IH. intros. apply Hks. by constructor.
Qed.

End Graph.

Lemma elem_of_sorted_set (S : gset string) k : k ∈ sorted_set S <-> k ∈ S.
Proof. unfold sorted_set. by rewrite merge_sort_Permutation, elem_of_elements. Qed.

Lemma in_pool defs k : k ∈ (dom (defs : gmap string node) : gset string) <-> is_Some (defs !! k).
Proof. apply (elem_of_dom (M:=gmap string) (D:=gset string)). Qed.

Lemma edges_spec defs k e : e ∈ edges (bare_edges defs) k <->
  is_Some (defs !! e) /\ exists r c, defs !! k = Some r /\ c ∈ bares r /\ Ref c = refPrefix +:+ e.
Proof.
  unfold defs_t in *. unfold edges, bare_edges. rewrite (lookup_fmap (M:=gmap string)).
  destruct (defs !! k) as [r|]; cbn -[refPrefix sorted_set].
  - rewrite elem_of_sorted_set, elem_of_intersection, in_pool, collectBareRefs_spec. setoid_rewrite strip_prefix_Some. split.
    + intros ((c & Hc & Er) & Hs). split; [done|]. by exists r, c.
    + intros (Hs & r' & c & [= <-] & Hc & Er). split; [by exists c|done].
  - split; [by intros ?%not_elem_of_nil|]. by intros (_ & ? & ? & ? & _).
Qed.

Lemma bare_edges_dom defs : dom (bare_edges defs) =@{gset string} dom defs.
Proof. unfold bare_edges, defs_t in *. apply (dom_fmap_L (M:=gmap string)). Qed.

(** A rank on names, as a rank on references: one that resolves nowhere is below all. *)
Lemma ranked_productive defs : (exists rank, forall k e, is_Some (defs !! k) -> e ∈ edges (bare_edges defs) k -> (rank e < rank k)%nat) <->
  exists rank, productive rank defs.
Proof.
  split; intros [rank Hr].
  - exists (fun s => match strip_prefix refPrefix s with
      | Some k => match defs !! k with Some _ => S (rank k) | None => O end | None => O end).
    intros k r c Hk Hc Hn. rewrite strip_prefix_app, Hk. destruct (strip_prefix _ (Ref c)) as [e|] eqn:E; [|lia].
    destruct (defs !! e) as [d|] eqn:He; [|lia]. apply strip_prefix_Some in E.
    enough (rank e < rank k)%nat by lia. apply Hr; [by eexists|]. apply edges_spec. split; [by eexists|].
    by exists r, c.
  - exists (fun k => rank (refPrefix +:+ k)). intros k e _ (Hs & r & c & Hk & Hc & Er)%edges_spec.
    rewrite <- Er. apply (Hr k r c Hk Hc). by rewrite Er.
Qed.

Lemma productivity_decided defs :
  (checkProductivity defs = pass <-> exists rank, productive rank defs) /\
  (checkProductivity defs <> pass -> exists cycle, checkProductivity defs = refuse (NoProgress cycle)).
Proof.
  unfold checkProductivity. set (bare := bare_edges defs).
  assert (Hdom : forall x, x ∈ sortedKeys defs -> x ∈ (dom bare : gset string)).
  { intros x Hx. unfold bare. rewrite bare_edges_dom. apply in_pool. by apply elem_of_sortedKeys. }
  assert (Hedge : forall x e, e ∈ edges bare x -> e ∈ (dom bare : gset string)).
  { intros x e [He _]%edges_spec. unfold bare. rewrite bare_edges_dom. by apply in_pool. }
  destruct (visit_all_ends bare (S (size bare)) Hedge (sortedKeys defs) (mkSearch ∅ []) Hdom) as [[s|cy] E]; [lia| |];
    rewrite E; (split; [|by eauto]); rewrite <- ranked_productive.
  - split; [|done]. intros _.
    destruct (visit_all_ordered bare (visit (S (size bare)) bare) _ (visit_ordered bare _) _ _ [] E) as (l & _ & Ho & Hin & _).
    { intros k. cbn. rewrite lookup_empty. split; [done|by intros ?%not_elem_of_nil]. }
    { constructor. }
    cbn in *. destruct (ordered_ranked bare l Ho) as (rank & top & _ & Hr). exists rank.
    intros k e Hk. apply Hr, Hin. by apply elem_of_sortedKeys.
  - split; [done|]. intros [rank Hr]. exfalso.
    assert (Hranked : ranked bare rank).
    { intros k e He. apply Hr; [|done]. apply edges_spec in He as (_ & r & c & Hk & _). by eexists. }
    revert E. apply (visit_all_ranked _ _ (below_stack rank)).
    + intros k t. by apply visit_ranked.
    + intros x t t' _ Ht y Hy z Hz. apply Hy. by apply (visit_same_stack bare _ _ _ _ Ht z).
    + intros k _ x. cbn. by rewrite lookup_empty.
Qed.

(** * What the walk makes of a checked document *)

Lemma check_node_ref fuel defs n : check_node fuel defs n = pass -> is_ok (deref defs n) = true.
Proof.
  unfold check_node. intros [Hr _]%then_pass. unfold check_ref in Hr. case_decide as E; [by rewrite deref_plain|].
  by destruct (deref defs n).
Qed.

Lemma check_node_default fuel defs n d : check_node fuel defs n = pass -> Default n = Some d ->
  exists w, Validate fuel defs n d Strict = Some (Ok w).
Proof.
  unfold check_node. intros [_ [_ [_ [_ [_ [Hd _]%then_pass]%then_pass]%then_pass]%then_pass]%then_pass]%then_pass E.
  unfold check_default in Hd. rewrite E in Hd.
  destruct (Validate fuel defs n d Strict) as [[w|]|]; [by exists w|done|done].
Qed.

(** Not even deep inside does a failure come from a reference. *)
Fixpoint ref_free (e : conform_error) : bool :=
  match e with
  | BadRef _ | RefCycle => false
  | BadDefault e => ref_free e
  | NoVariant (Some e) => ref_free e
  | _ => true
  end.

Definition refuses {A} (m : run A) : Prop := forall e : conform_error, m = Some (Err e) -> ref_free e = true.

Lemma refuses_done {A} (x : A) : refuses (done x).
Proof. by intros e. Qed.
Lemma refuses_fail {A} (e : conform_error) : ref_free e = true -> refuses (fail e : run A).
Proof. by intros He e' [= <-]. Qed.
Lemma refuses_andThen {A B} (m : run A) (f : A -> run B) : refuses m -> (forall x, refuses (f x)) -> refuses (andThen m f).
Proof. intros Hm Hf e. unfold andThen. destruct m as [[x|e']|]; [apply Hf|intros [= <-]; by apply Hm|done]. Qed.

Lemma refuses_build (f : string -> run (option value)) ks out : (forall k, refuses (f k)) -> refuses (build f ks out).
Proof.
  intros Hf. revert out. induction ks as [|k ks IH]; intros out; cbn; [apply refuses_done|].
  by apply refuses_andThen.
Qed.

Lemma refuses_mapRun (f : value -> run value) l : (forall v, refuses (f v)) -> refuses (mapRun f l).
Proof.
  intros Hf. induction l as [|v l IH]; cbn; [apply refuses_done|].
  apply refuses_andThen; [done|]. intros w. apply refuses_andThen; [done|]. intros. apply refuses_done.
Qed.

Lemma refuses_arms (f : node -> run value) one l fe hit i :
  (forall a, a ∈ l -> refuses (f a)) -> (forall e : conform_error, fe = Some e -> ref_free e = true) -> refuses (arms_loop f one l fe hit i).
Proof.
  revert fe hit i. induction l as [|a l IH]; intros fe hit i Hf Hfe; cbn.
  - destruct i as [|[|i]]; [|apply refuses_done|by apply refuses_fail]. apply refuses_fail. cbn.
    destruct fe; [by apply Hfe|done].
  - assert (Ha : refuses (f a)) by (apply Hf; constructor).
    assert (Hl : forall b, b ∈ l -> refuses (f b)) by (intros; apply Hf; by constructor).
    destruct (f a) as [[w|e]|]; [|apply IH; [done|]|done].
    + destruct one; [by apply IH|apply refuses_done].
    + destruct fe; [done|]. intros e' [= <-]. by apply Ha.
Qed.

Lemma refuses_scalar n v (e : conform_error) : checkScalar n v = Err e -> ref_free e = true.
Proof.
  unfold checkScalar, bound. intros E.
  repeat match type of E with context [match ?x with _ => _ end] => destruct x; cbn in E end;
    try discriminate; by injection E as <-.
Qed.

Lemma refuses_count n l (e : conform_error) : checkCount n l = Err e -> ref_free e = true.
Proof.
  unfold checkCount, bound. intros E.
  repeat match type of E with context [match ?x with _ => _ end] => destruct x; cbn in E end;
    try discriminate; by injection E as <-.
Qed.

Lemma union_ext (f g : node -> run value) l one : (forall a, a ∈ l -> f a = g a) -> conformUnion f l one = conformUnion g l one.
Proof.
  unfold conformUnion. generalize (@None conform_error), VNull, O.
  induction l as [|a l IH]; intros fe hit i Hl; cbn; [done|]. rewrite (Hl a) by constructor.
  assert (Hl' : forall b, b ∈ l -> f b = g b) by (intros; apply Hl; by constructor).
  destruct (g a) as [[w|e]|]; [destruct one; [by apply IH|done]|by apply IH|done].
Qed.

Section Walking.
Context (fuel : nat) (defs : defs_t) (root : node) (Hchecked : checked fuel defs root).

Definition resolves n : Prop := is_ok (deref defs n) = true.

Lemma pool_resolves : pool_each resolves defs.
Proof using Hchecked.
  intros k c Hk. eapply Forall_impl; [exact (checked_pool _ _ _ Hchecked k c Hk)|]. intros x. apply check_node_ref.
Qed.
Lemma root_resolves : each resolves root.
Proof using Hchecked. eapply Forall_impl; [exact (checked_root _ _ _ Hchecked)|]. intros x. apply check_node_ref. Qed.

Lemma progress : exists rank, productive rank defs.
Proof using Hchecked.
  apply (proj1 (proj1 (productivity_decided defs))). apply Hchecked.
Qed.

Lemma conform_refuses rank f mode : productive rank defs -> forall n v vis,
  each resolves n -> above rank vis n -> refuses (conformGuard f mode defs n v vis).
Proof using Hchecked.
  intros Hrank. induction f as [|f IH]; intros n v vis Hn Hab; [by intros e|]. rewrite conform_step.
  pose proof (each_self _ _ Hn) as Hr. unfold resolves in Hr.
  destruct (deref defs n) as [[r o]|e] eqn:Hd; [|done].
  destruct (step_above rank defs Hrank _ _ _ _ Hab Hd) as [-> Hab'].
  pose proof (each_deref _ _ _ _ _ pool_resolves Hn Hd) as Hres.
  destruct (isEmptyNode r); [apply refuses_done|].
  assert (Hbelow : forall a w, a ∈ children r -> refuses (conformGuard f mode defs a w ∅)).
  { intros a w Ha. apply IH; [by eapply each_child|apply above_empty]. }
  destruct (arms r) as [|a l] eqn:Ha.
  - unfold conformPlain. destruct (negb (checkType r v)); [by apply refuses_fail|].
    destruct (match entries (Enum r) with [] => _ | _ => _ end); [by apply refuses_fail|].
    destruct v; try apply refuses_done;
      try (destruct (checkScalar r _) eqn:E; [apply refuses_done|apply refuses_fail; by eapply refuses_scalar]).
    + destruct (isArraySchema r); [|apply refuses_done]. unfold conformArray.
      destruct (checkCount r _) eqn:E; [|apply refuses_fail; by eapply refuses_count].
      apply refuses_andThen; [|intros; apply refuses_done]. apply refuses_mapRun. intros x.
      destruct (Items r) eqn:Ei; [|apply refuses_done]. by apply Hbelow, child_item.
    + destruct (isObjectSchema r); [|apply refuses_done]. unfold conformObject.
      apply refuses_andThen.
      { apply refuses_build. intros k. unfold conformProperty. destruct (props r !! k) as [p|] eqn:Hp; [|apply refuses_done].
        assert (Hpv : forall x, refuses (conformGuard f mode defs p x ∅)) by (intros; by eapply Hbelow, child_prop).
        destruct (m !! k).
        - case_decide; [destruct (hasNullResolved f defs p) as [[]|]; [|apply refuses_done|done]|];
            (apply refuses_andThen; [apply Hpv|intros; apply refuses_done]).
        - destruct (isRequired r k).
          + case_decide; [|by apply refuses_fail]. destruct (hasNullResolved f defs p) as [[]|];
              [apply refuses_done|by apply refuses_fail|done].
          + destruct (propDefault defs p); [|apply refuses_done]. case_decide; [|apply refuses_done].
            specialize (Hpv v). destruct (conformGuard f mode defs p v ∅) as [[|e]|]; [apply refuses_done| |done].
            apply refuses_fail. cbn. by apply Hpv. }
      intros out. apply refuses_andThen; [|intros; apply refuses_done].
      destruct (AdditionalProperties r) as [a|] eqn:Hadd; [|apply refuses_done]. apply refuses_build. intros k.
      unfold conformExtra. rewrite Hadd. destruct (props r !! k), (m !! k); try apply refuses_done.
      apply refuses_andThen; [by apply Hbelow, child_extra|intros; apply refuses_done].
  - unfold conformUnion. rewrite <- Ha. apply refuses_arms; [|done]. intros b Hb%arms_bare.
    apply IH; [by eapply each_child, bare_child|by apply Hab'].
Qed.

(** The definitions being expanded make no difference where none of them is met again. *)
Lemma conform_visiting rank f mode : productive rank defs -> forall n v vis vis',
  above rank vis n -> above rank vis' n -> conformGuard f mode defs n v vis = conformGuard f mode defs n v vis'.
Proof using.
  intros Hrank. induction f as [|f IH]; intros n v vis vis' H1 H2; [done|]. rewrite !conform_step.
  destruct (deref defs n) as [[r o]|e] eqn:Hd; [|done].
  destruct (step_above rank defs Hrank _ _ _ _ H1 Hd) as [-> H1'].
  destruct (step_above rank defs Hrank _ _ _ _ H2 Hd) as [-> H2'].
  destruct (isEmptyNode r); [done|]. destruct (arms r) as [|a l] eqn:Ha; [done|]. rewrite <- Ha.
  apply union_ext. intros b Hb%arms_bare. apply IH; auto.
Qed.

Lemma default_fits n : each (fun c => check_node fuel defs c = pass) n -> defaultFits defs n.
Proof using Hchecked.
  intros Hn d. unfold propDefault. destruct (Default n) as [d'|] eqn:E.
  { intros [= <-]. destruct (check_node_default fuel defs n d' (each_self _ n Hn) E) as [w Hw]. by exists fuel, w. }
  case_decide as Hr; [done|]. destruct (deref defs n) as [[r o]|] eqn:Hd; [|done]. intros Hdef.
  pose proof (each_deref _ _ _ _ _ (checked_pool _ _ _ Hchecked) Hn Hd) as Hres.
  destruct (check_node_default fuel defs r d (each_self _ r Hres) Hdef) as [w Hw].
  exists fuel, w. destruct progress as [rank Hrank]. destruct fuel as [|f]; [done|]. unfold Validate in *.
  destruct (deref_spec _ _ _ _ Hd) as (Hrr & _).
  rewrite conform_step, Hd. rewrite conform_step, (deref_plain _ _ Hrr) in Hw.
  destruct (step_above rank defs Hrank n ∅ r o (above_empty rank n) Hd) as [-> Hab].
  destruct (isEmptyNode r); [done|]. destruct (arms r) as [|a l] eqn:Ha; [done|]. rewrite <- Ha in *.
  rewrite <- Hw. apply union_ext. intros b Hb%arms_bare.
  apply (conform_visiting rank f Strict Hrank); [by apply Hab|apply above_empty].
Qed.

Lemma readable_each n : each (fun c => check_node fuel defs c = pass) n ->
  each (fun c => scalarEnum c /\ exclusive defs c) n -> each (readable defs) n.
Proof using Hchecked.
  induction n as [n IH] using node_child_ind. intros Hn Hs. apply each_make.
  - destruct (each_self _ _ Hs) as [? ?]. split; [done|]. split; [done|]. by apply default_fits.
  - intros c Hc. apply IH; [done|by eapply each_child..].
Qed.

End Walking.

(** C20. The check for recursion without progress always answers, and it lets a pool of
    definitions pass exactly when its references can be ranked so that each, as long as
    the place in the value stays the same, leads downwards. *)
Theorem productivity_decides defs :
  (checkProductivity defs = pass <-> exists rank, productive rank defs) /\
  (checkProductivity defs <> pass -> exists cycle, checkProductivity defs = refuse (NoProgress cycle)).
Proof. apply productivity_decided. Qed.

(** C19. Once a document has passed its checks, no conform fails on a reference, in either
    mode and at any depth: every reference resolves, and none is met again before the walk
    moves on in the value. *)
Theorem checked_resolves fuel fuel' defs n v mode (e : conform_error) :
  checkDocRoot fuel defs n = pass -> Validate fuel' defs n v mode = Some (Err e) -> ref_free e = true.
Proof.
  intros Hc%checkDocRoot_checked. destruct (progress _ _ _ Hc) as [rank Hrank].
  apply (conform_refuses fuel defs n Hc rank); [done|by eapply root_resolves|apply above_empty].
Qed.

(** C18. On a document that passed its checks, recursive or not, [Validate] answers a value
    exactly for the documents of the schema's type, as long as the arms of a [oneOf] exclude
    each other and enumerations list scalars; neither is checked. *)
Theorem checked_decides fuel defs n v :
  checkDocRoot fuel defs n = pass ->
  pool_each (fun c => scalarEnum c /\ exclusive defs c) defs -> each (fun c => scalarEnum c /\ exclusive defs c) n ->
  (exists fuel w, Validate fuel defs n v Strict = Some (Ok w)) <-> sat false defs n v.
Proof.
  intros Hc%checkDocRoot_checked Hp Hn. destruct (progress _ _ _ Hc) as [rank Hrank].
  apply (decides rank defs n v Hrank).
  - intros k c Hk. apply (readable_each fuel defs n Hc); [exact (checked_pool _ _ _ Hc k c Hk)|by apply (Hp k)].
  - apply (readable_each fuel defs n Hc); [apply Hc|done].
Qed.

End Theory.

(** * A recursive document *)

Module Demo.

(** Whole numbers. *)
#[local] Instance whole : Numbers := {|
  num := Z; ToDecimal x := Some (inject_Z x); RoundToIntegralValue q := Some q; Float64 _ := true |}.

Definition leaf (t : string) (d : option value) : node :=
  mkNode [t] None None None None None None None None None None None None None None "" d.
Definition ref : node :=
  mkNode [] None None None None None None None None None None None None None None "#/$defs/Tree" None.
Definition maybe : node :=
  mkNode [] None None None None None (Some [leaf "null" None; ref]) None None None None None None None None "" None.
Definition label : node := leaf "string" (Some (VStr "none")).

(** A binary tree whose label defaults. *)
Definition tree : node :=
  mkNode ["object"] (Some {["label" := label; "left" := maybe; "right" := maybe]}) None None None None None None
    None None None None None None None "" None.
Definition defs : defs_t := {["Tree" := tree]}.

Definition link (l : value) : value := VObj {["left" := l; "right" := VNull]}.
Definition deep : value := link (link (VObj ∅)).

Lemma demo_passes : checkDocRoot 10 defs ref = pass.
Proof. by vm_compute. Qed.

Lemma demo_each (P : node -> Prop) : P ref -> P tree -> P label -> P maybe -> P (leaf "null" None) ->
  each P ref /\ pool_each P defs.
Proof.
  intros H1 H2 H3 H4 H5. split.
  - eapply each_intro; [vm_compute; reflexivity|]. by repeat constructor.
  - intros k n Hk. apply (lookup_singleton_Some (M:=gmap string) "Tree" k tree n) in Hk as [_ <-].
    eapply each_intro; [vm_compute; reflexivity|]. repeat constructor; done.
Qed.

Lemma demo_plain n : entries (OneOf n) = [] -> entries (Enum n) = [] -> scalarEnum n /\ exclusive defs n.
Proof.
  intros Ho He. unfold scalarEnum. rewrite He. split; [constructor|]. intros l1 a l2 b v El. rewrite Ho in El.
  by destruct l1.
Qed.

Lemma checked_decides_witness :
  (exists fuel w, Validate fuel defs ref deep Strict = Some (Ok w)) <-> sat false defs ref deep.
Proof.
  destruct (demo_each (fun c => scalarEnum c /\ exclusive defs c)) as [Hr Hd]; [by apply demo_plain..|].
  exact (checked_decides 10 defs ref deep demo_passes Hd Hr).
Defined.

Lemma demo_refused : exists e, Validate 10 defs ref (link (VStr "x")) Strict = Some (Err e).
Proof. eexists. vm_compute. reflexivity. Qed.

Lemma checked_resolves_witness : exists e, Validate 10 defs ref (link (VStr "x")) Strict = Some (Err e) /\ ref_free e = true.
Proof.
  destruct demo_refused as [e He]. exists e. split; [exact He|].
  exact (checked_resolves 10 10 defs ref (link (VStr "x")) Strict e demo_passes He).
Defined.

(** Two definitions that are each other's arm are refused, and named. *)
Definition arm (k : string) : node :=
  mkNode [] None None None None None (Some [leaf "null" None;
    mkNode [] None None None None None None None None None None None None None None (refPrefix +:+ k) None])
    None None None None None None None None "" None.

Lemma demo_endless : checkDocRoot 10 {["A" := arm "B"; "B" := arm "A"]} ref = refuse (DocRef RefNotFound) /\
  checkDocRoot 10 {["A" := arm "B"; "B" := arm "A"]} (arm "A") = refuse (NoProgress ["A"; "B"; "A"]).
Proof. by vm_compute. Qed.

(** The default of a property that is required too. *)
Lemma demo_unreachable_default :
  checkDocRoot 10 ∅ (mkNode ["object"] (Some {["x" := label]}) (Some ["x"]) None None None None None
    None None None None None None None "" None) = refuse (AtSlot "properties.x" (RequiredDefault "x")).
Proof. by vm_compute. Qed.

End Demo.
End Checked.
