(* ===== verification/Retry.v ===== *)
(** The retry policy of an error rule and the deadline of a task: internal/model/retry.go,
    timeout.go and the static checks [validateRetry] makes (validate.go).  Of several bad
    slots the source reports the first one written, the model the first in the order of
    the fields.

    A policy is decoded from JSON, checked when its definition is registered, and resolved
    once an error fires: any slot may be an expression, whose value is only known then.  A
    [float64] is the rational it stands for; what [strconv] makes of a literal is the class
    [Floats].  Durations are 64-bit nanoseconds and wrap. *)
From Stdlib Require Import ZArith QArith Qround Lia Ascii String.
From S2P Require Import Prelude GoStrings GoTime DelaySpec Json Numeric Syntax Template.
Import GoTime DelaySpec.DelaySpec Json Numeric.
Open Scope string_scope.
Open Scope list_scope.
Open Scope Z_scope.

(** [strconv.ParseFloat(text, 64)] where it is no error, [json.Marshal] of a float, and
    [float64(k)]. *)
Class Floats := { ParseFloat : string -> option Q; FormatFloat : Q -> string; OfInt : Z -> Q }.

(** A float is written as a text that reads back as it. *)
Class FloatLaws `{Floats} := {
  parse_canonical s f : ParseFloat s = Some f -> Qred f = f;
  ofint_canonical k : Qred (OfInt k) = OfInt k;
  ofint_nonneg k : 0 <= k -> (0 <= OfInt k)%Q;
  format_parse s f : ParseFloat s = Some f -> ParseFloat (FormatFloat f) = Some f;
  format_ofint k : in_i64 k -> ParseFloat (FormatFloat (OfInt k)) = Some (OfInt k) }.

Module Retry.
Section Retry.
Context `{Apd} `{Floats} (Lex : string -> option (list Syntax.Token)).

Implicit Types (v : value) (s src : string).

Definition DefaultRetryDelay : Z := Second.
Definition DefaultRetryFactor : Q := 2.
Definition DefaultRetryMaxDelay : Z := 5 * Minute.

(** * Slots *)

(** A literal or an expression; the literal 0 is an absent slot. *)
Record RetryNumber := mkNumber { n : Q; expr : string }.
Definition RetryCount (k : Z) : RetryNumber := mkNumber (OfInt k) "".
Definition number_IsZero (x : RetryNumber) : bool := String.eqb (expr x) "" && Qeq_bool (n x) 0.
Definition number_IsExpr (x : RetryNumber) : bool := negb (String.eqb (expr x) "").

(** [src] is nil for an absent slot. *)
Record RetryDuration := mkRetryDuration { src : option value; d : Z; dexpr : string }.
Definition absent : RetryDuration := mkRetryDuration None 0 "".
Definition duration_IsZero (x : RetryDuration) : bool := match src x with None => true | Some _ => false end.
Definition duration_IsExpr (x : RetryDuration) : bool := negb (String.eqb (dexpr x) "").

Record Retry := mkRetry { Retries : RetryNumber; Delay : RetryDuration; Factor : RetryNumber; MaxDelay : RetryDuration }.
Definition zero_number : RetryNumber := mkNumber 0 "".
Definition zero : Retry := mkRetry zero_number absent zero_number absent.
Definition IsZero (r : Retry) : bool :=
  number_IsZero (Retries r) && number_IsZero (Factor r) && duration_IsZero (Delay r) && duration_IsZero (MaxDelay r).

(** * Failures *)

Inductive retry_error :=
  | BadTemplate (e : Template.template_error)
  | NotANumber (src : string)
  | BadDuration (e : dur_error)
  | CalendarUnits (src : string)
  | NotPositive
  | NotMilliseconds
  | WrongKind
  | Evaluation (what : string)
  | NotWhole
  | Negative
  | Shrinks
  | ShortCeiling
  | NoRetries
  | Quoted
  | UnknownField (name : string)
  | Slot (name : string) (e : retry_error).

(** * Decoding *)

Definition retryExpr src : result retry_error string :=
  match Template.Parse Lex src with
  | Err e => Err (BadTemplate e)
  | Ok tmpl => if negb (Template.expr tmpl) then Err (NotANumber src) else Ok src
  end.

Definition ParseRetryDuration v : result retry_error RetryDuration :=
  match v with
  | Str x =>
      match Template.Parse Lex x with
      | Err e => Err (BadTemplate e)
      | Ok tmpl =>
          match Template.Static tmpl with
          | None => e ← retryExpr x; Ok (mkRetryDuration (Some v) 0 e)
          | Some lit =>
              match ParseDuration lit with
              | Err e => Err (BadDuration e)
              | Ok parsed =>
                  match Fixed parsed with
                  | None => Err (CalendarUnits x)
                  | Some fixed => if fixed <=? 0 then Err NotPositive else Ok (mkRetryDuration (Some v) fixed "")
                  end
              end
          end
      end
  | Num x =>
      match ParseInt10 x with
      | None => Err NotMilliseconds
      | Some ms => if ms <=? 0 then Err NotPositive
                   else Ok (mkRetryDuration (Some (Num (FormatInt ms))) (i64 (ms * Millisecond)) "")
      end
  | _ => Err WrongKind
  end.

Definition decode_duration v : result retry_error RetryDuration :=
  match v with Null => Ok absent | _ => ParseRetryDuration v end.

Definition decode_number v : result retry_error RetryNumber :=
  match v with
  | Null => Ok zero_number
  | Str s => e ← retryExpr s; Ok (mkNumber 0 e)
  | Num x => match ParseFloat x with Some f => Ok (mkNumber f "") | None => Err WrongKind end
  | _ => Err WrongKind
  end.

(** [rejectUnknownFields]: the first in the order of their names. *)
Definition unknown_field (allowed : list string) (fields : list (string * value)) : option string :=
  head (filter (fun k => negb (existsb (String.eqb k) allowed)) fields.*1).

Definition retryFields : list string := ["retries"; "delay"; "factor"; "max_delay"].

(** A field of the object form; an absent one decodes like null. *)
Definition field (k : string) (fields : list (string * value)) : value := default Null (lookup_key k fields).

(** [Retry.UnmarshalJSON]. *)
Definition decode v : result retry_error Retry :=
  match v with
  | Null => Ok zero
  | Map fields =>
      match unknown_field retryFields fields with
      | Some k => Err (UnknownField k)
      | None =>
          retries ← decode_number (field "retries" fields);
          delay ← decode_duration (field "delay" fields);
          factor ← decode_number (field "factor" fields);
          max_delay ← decode_duration (field "max_delay" fields);
          if negb (number_IsExpr retries) && negb (Qle_bool 0 (n retries)) then Err Negative
          else if negb (number_IsExpr factor) && negb (Qeq_bool (n factor) 0) && negb (Qle_bool 1 (n factor))
          then Err Shrinks
          else Ok (mkRetry retries delay factor max_delay)
      end
  | Str _ => Err Quoted
  | Num x =>
      match ParseInt10 x with
      | None => Err NotWhole
      | Some k => if k <? 0 then Err NotWhole else Ok (mkRetry (RetryCount k) absent zero_number absent)
      end
  | _ => Err WrongKind
  end.

(** * Encoding *)

Definition encode_number (x : RetryNumber) : option value :=
  if number_IsZero x then None
  else if number_IsExpr x then Some (Str (expr x)) else Some (Num (FormatFloat (n x))).

Definition encode (r : Retry) : value :=
  if IsZero r then Null
  else Map (omap (fun '(k, o) => (fun x => (k, x)) <$> o)
    [("retries", encode_number (Retries r)); ("delay", src (Delay r));
     ("factor", encode_number (Factor r)); ("max_delay", src (MaxDelay r))]).

(** * Registration: validateRetry *)

Definition validateRetry (r : Retry) : result retry_error unit :=
  if IsZero r then Ok ()
  else
    _ ← (if negb (number_IsExpr (Retries r)) then
           if negb (Qle_bool 0 (n (Retries r))) then Err Negative
           else if Qeq_bool (n (Retries r)) 0 then Err NoRetries else Ok ()
         else Ok ());
    _ ← (if negb (number_IsExpr (Factor r)) && negb (Qeq_bool (n (Factor r)) 0) && negb (Qle_bool 1 (n (Factor r)))
         then Err Shrinks else Ok ());
    if negb (duration_IsExpr (Delay r)) && negb (duration_IsExpr (MaxDelay r)) then
      if (0 <? d (Delay r)) && (0 <? d (MaxDelay r)) && (d (MaxDelay r) <? d (Delay r)) then Err ShortCeiling else Ok ()
    else Ok ().

(** * Resolution *)

Record ResolvedRetry := mkResolved { r_retries : Z; r_base : Z; r_factor : Q; r_ceiling : Z }.

(** [int(f)] and [int64(f)]: past the word, what amd64 answers. *)
Definition to_int64 (f : Q) : Z :=
  let t := if Qle_bool 0 f then Qfloor f else Qceiling f in
  if bool_decide (in_i64 t) then t else min_int64.
Definition whole (f : Q) : bool := Qeq_bool f (inject_Z (to_int64 f)).

Definition retryFloat v : result retry_error Q :=
  match v with
  | Num x => match ParseFloat x with Some f => Ok f | None => Err WrongKind end
  | _ => Err WrongKind
  end.

Section Resolve.
Context (eval : string -> result string value).

Definition evaluated (e : string) : result retry_error value := map_err Evaluation (eval e).

Definition resolve_number (x : RetryNumber) : result retry_error (Q * bool) :=
  if String.eqb (expr x) "" then Ok (n x, negb (Qeq_bool (n x) 0))
  else out ← evaluated (expr x); f ← retryFloat out; Ok (f, true).

Definition resolve_duration (x : RetryDuration) : result retry_error (Z * bool) :=
  if String.eqb (dexpr x) "" then Ok (d x, negb (duration_IsZero x))
  else
    out ← evaluated (dexpr x);
    ms ← retryFloat out;
    if negb (whole ms) then Err NotMilliseconds else Ok (i64 (to_int64 ms * Millisecond), true).

Definition in_slot {A} (name : string) (r : result retry_error A) : result retry_error A := map_err (Slot name) r.

Definition Resolve (r : Retry) : result retry_error ResolvedRetry :=
  '(retries, _) ← in_slot "retries" (resolve_number (Retries r));
  if negb (whole retries) then Err NotWhole
  else if negb (Qle_bool 0 retries) then Err Negative
  else
    '(factor, factorSet) ← in_slot "factor" (resolve_number (Factor r));
    factor ← (if negb factorSet then Ok DefaultRetryFactor
              else if negb (Qle_bool 1 factor) then Err Shrinks else Ok factor);
    '(base, baseSet) ← in_slot "delay" (resolve_duration (Delay r));
    base ← (if negb baseSet then Ok DefaultRetryDelay
            else if base <=? 0 then Err NotPositive else Ok base);
    '(ceiling, ceilingSet) ← in_slot "max_delay" (resolve_duration (MaxDelay r));
    ceiling ← (if negb ceilingSet then Ok (Z.max DefaultRetryMaxDelay base)
               else if ceiling <=? 0 then Err NotPositive
               else if ceiling <? base then Err ShortCeiling else Ok ceiling);
    Ok (mkResolved (to_int64 retries) base factor ceiling).

End Resolve.

(** * timeout.go *)

(** [DelaySpec]: nil slots are [None]. *)
Record Timeout := mkTimeout { For : option value; Until : option value; TZ : string }.
Definition no_timeout : Timeout := mkTimeout None None "".
Definition timeout_IsZero (t : Timeout) : bool :=
  match For t, Until t with None, None => String.eqb (TZ t) "" | _, _ => false end.

Definition timeoutFields : list string := ["for"; "until"; "tz"].
Definition any (v : value) : option value := match v with Null => None | _ => Some v end.

Definition decode_timeout v : result retry_error Timeout :=
  match v with
  | Null => Ok no_timeout
  | Map fields =>
      match unknown_field timeoutFields fields with
      | Some k => Err (UnknownField k)
      | None =>
          tz ← match field "tz" fields with Null => Ok "" | Str s => Ok s | _ => Err WrongKind end;
          Ok (mkTimeout (any (field "for" fields)) (any (field "until" fields)) tz)
      end
  | _ => Ok (mkTimeout (Some v) None "")
  end.

Definition encode_timeout (t : Timeout) : value :=
  if timeout_IsZero t then Null
  else Map (omap (fun '(k, o) => (fun x => (k, x)) <$> o)
    [("for", For t); ("until", Until t); ("tz", if String.eqb (TZ t) "" then None else Some (Str (TZ t)))]).

(** * What resolution promises *)

(** The durations fit the word, as [decode] leaves them. *)
Definition fits (r : Retry) : Prop := in_i64 (d (Delay r)) /\ in_i64 (d (MaxDelay r)).

Lemma whole_range f : whole f = true -> Qeq f (inject_Z (to_int64 f)) /\ in_i64 (to_int64 f).
Proof.
  unfold whole. intros E%Qeq_bool_iff. split; [done|]. unfold to_int64. case_bool_decide; [done|].
  unfold in_i64, min_int64, max_int64. lia.
Qed.

Lemma resolve_duration_fits eval x z b : in_i64 (d x) -> resolve_duration eval x = Ok (z, b) -> in_i64 z.
Proof.
  intros Hx. unfold resolve_duration. destruct (String.eqb (dexpr x) ""); [by intros [= <- _]|].
  unfold mbind, result_bind. destruct (evaluated eval (dexpr x)); [|done]. destruct (retryFloat a); [|done].
  destruct (negb (whole _)); [done|]. intros [= <- _]. apply i64_in_i64.
Qed.

(** A policy that resolves has a number of retries that is whole and not negative, a
    factor that never shrinks the wait, and a first wait that is positive and within its
    ceiling; whatever its slots evaluate to. *)
Theorem Resolve_bounds eval r p : fits r -> Resolve eval r = Ok p ->
  0 <= r_retries p <= max_int64 /\ (1 <= r_factor p)%Q /\ 0 < r_base p <= r_ceiling p /\ r_ceiling p <= max_int64.
Proof.
  intros [Hd Hm]. unfold Resolve, in_slot, mbind, result_bind.
  destruct (resolve_number eval (Retries r)) as [[retries ?]|]; [cbn|done].
  destruct (whole retries) eqn:Hw; [cbn|done]. destruct (Qle_bool 0 retries) eqn:Hn; [cbn|done].
  apply whole_range in Hw as [Hw Hi]. apply Qle_bool_iff in Hn.
  assert (Hr : 0 <= to_int64 retries <= max_int64).
  { split; [|apply Hi]. rewrite Hw in Hn. change 0%Q with (inject_Z 0) in Hn. by rewrite <- Zle_Qle in Hn. }
  destruct (resolve_number eval (Factor r)) as [[factor fset]|]; [cbn|done].
  destruct (if negb fset then _ else _) as [f|] eqn:Ef; [|done].
  assert (Hf : (1 <= f)%Q).
  { destruct fset; cbn in Ef; [|by injection Ef as <-]. destruct (Qle_bool 1 factor) eqn:E; [|done].
    injection Ef as <-. by apply Qle_bool_iff. }
  destruct (resolve_duration eval (Delay r)) as [[b0 bset]|] eqn:Eb; [cbn|done]. apply resolve_duration_fits in Eb; [|done].
  destruct (if negb bset then _ else _) as [base|] eqn:Ebase; [|done].
  assert (Hb : 0 < base <= max_int64).
  { destruct bset; cbn in Ebase; [|by injection Ebase as <-]. destruct (Z.leb_spec b0 0); [done|].
    injection Ebase as <-. split; [done|apply Eb]. }
  destruct (resolve_duration eval (MaxDelay r)) as [[c cset]|] eqn:Ec; [cbn|done]. apply resolve_duration_fits in Ec; [|done].
  destruct (if negb cset then _ else _) as [ceiling|] eqn:Ece; [|done].
  assert (Hc : base <= ceiling <= max_int64).
  { destruct cset; cbn in Ece.
    - destruct (Z.leb_spec c 0); [done|]. destruct (Z.ltb_spec c base); [done|]. injection Ece as <-. split; [done|apply Ec].
    - injection Ece as <-. unfold DefaultRetryMaxDelay, max_int64 in *. change Minute with 60000000000 in *. lia. }
  intros [= <-]. cbn. lia || (split; [done|split; [done|lia]]).
Qed.

(** * Registration against resolution *)

Definition literal (r : Retry) : Prop :=
  expr (Retries r) = "" /\ expr (Factor r) = "" /\ dexpr (Delay r) = "" /\ dexpr (MaxDelay r) = "".

(** A decoded duration: positive where it is set, and zero where it is not. *)
Definition duration_ok (x : RetryDuration) : Prop :=
  match src x with None => d x = 0 | Some _ => 0 < d x end.

Definition slot_or {A} (set : bool) (x y : A) : A := if set then x else y.

(** The policy a literal [r] stands for. *)
Definition meaning (r : Retry) : ResolvedRetry :=
  let base := slot_or (duration_IsZero (Delay r)) DefaultRetryDelay (d (Delay r)) in
  mkResolved (to_int64 (n (Retries r))) base
    (slot_or (Qeq_bool (n (Factor r)) 0) DefaultRetryFactor (n (Factor r)))
    (slot_or (duration_IsZero (MaxDelay r)) (Z.max DefaultRetryMaxDelay base) (d (MaxDelay r))).

(** A literal policy that registration lets pass resolves when its error fires, to the
    values it was written with and the defaults for the rest - provided its number of
    retries is whole and a ceiling without a delay is no shorter than the default delay,
    which registration does not check. *)
Theorem registered_resolves eval r :
  literal r -> duration_ok (Delay r) -> duration_ok (MaxDelay r) -> validateRetry r = Ok () ->
  whole (n (Retries r)) = true ->
  (duration_IsZero (Delay r) = true -> duration_IsZero (MaxDelay r) = false -> DefaultRetryDelay <= d (MaxDelay r)) ->
  Resolve eval r = Ok (meaning r).
Proof.
  intros (E1 & E2 & E3 & E4) Hd Hm Hv Hw Hshort.
  assert (Hn : Qle_bool 0 (n (Retries r)) = true /\ (Qeq_bool (n (Factor r)) 0 = true \/ Qle_bool 1 (n (Factor r)) = true) /\
    (0 < d (Delay r) -> 0 < d (MaxDelay r) -> d (Delay r) <= d (MaxDelay r))).
  { unfold validateRetry in Hv. destruct (IsZero r) eqn:Ez.
    - unfold IsZero, number_IsZero in Ez. rewrite !andb_true_iff in Ez.
      destruct Ez as [[[[_ Z1] [_ Z2]] Z3] Z4]. split.
      { apply Qeq_bool_iff in Z1. apply Qle_bool_iff. by rewrite Z1. }
      split; [by left|]. unfold duration_ok in Hd. unfold duration_IsZero in Z3. destruct (src (Delay r)); [done|]. lia.
    - unfold number_IsExpr, duration_IsExpr, mbind, result_bind in Hv. rewrite E1, E2, E3, E4 in Hv. cbn in Hv.
      destruct (Qle_bool 0 _) eqn:H1; [cbn in Hv|done]. destruct (Qeq_bool (n (Retries r)) 0); [done|]. cbn in Hv.
      destruct (Qeq_bool (n (Factor r)) 0), (Qle_bool 1 (n (Factor r))); cbn in Hv; try done;
        (split; [done|]; split; [tauto|]); intros P1 P2;
        rewrite (proj2 (Z.ltb_lt _ _) P1), (proj2 (Z.ltb_lt _ _) P2) in Hv; cbn in Hv;
        (destruct (Z.ltb_spec (d (MaxDelay r)) (d (Delay r))); [done|lia]). }
  destruct Hn as (H1 & Hf & Hc). unfold duration_ok in Hd, Hm.
  unfold Resolve, in_slot, resolve_number, resolve_duration, mbind, result_bind. rewrite E1, E2, E3, E4. cbn.
  rewrite Hw, H1. cbn. unfold meaning, slot_or.
  destruct (Qeq_bool (n (Factor r)) 0) eqn:Hz; cbn; [|destruct Hf as [Hf|Hf]; [done|rewrite Hf; cbn]];
    unfold duration_IsZero in *; destruct (src (Delay r)), (src (MaxDelay r)); cbn;
    rewrite ?(proj2 (Z.leb_gt _ _) Hd), ?(proj2 (Z.leb_gt _ _) Hm); cbn; try done;
    rewrite ?(proj2 (Z.ltb_ge _ _) (Hc Hd Hm)), ?(proj2 (Z.ltb_ge _ _) (Hshort eq_refl eq_refl)); done.
Qed.

(** * The wire form *)

Lemma retryExpr_same e e' : retryExpr e = Ok e' -> e' = e /\ e <> "".
Proof.
  unfold retryExpr. destruct (Template.Parse Lex e) as [t|] eqn:E; [|done].
  destruct (negb (Template.expr t)) eqn:Ht; [done|]. intros [= <-]. split; [done|]. intros ->.
  vm_compute in E. injection E as <-. done.
Qed.

Section Laws.
Context `{Hlaws : !FloatLaws}.

(** What decoding leaves in a slot. *)
Definition number_ok (x : RetryNumber) : Prop :=
  if String.eqb (expr x) "" then
    Qred (n x) = n x /\ (Qeq_bool (n x) 0 = false -> ParseFloat (FormatFloat (n x)) = Some (n x))
  else n x = 0%Q /\ retryExpr (expr x) = Ok (expr x).
Definition source_ok (x : RetryDuration) : Prop := decode_duration (default Null (src x)) = Ok x.

Lemma decode_number_ok v x : decode_number v = Ok x -> number_ok x.
Proof using Hlaws.
  unfold number_ok. destruct v as [| |s|s| | |]; cbn; try done.
  - by intros [= <-].
  - destruct (ParseFloat s) as [f|] eqn:E; [|done]. intros [= <-]. cbn. split; [by eapply parse_canonical|].
    intros _. by eapply format_parse.
  - unfold mbind, result_bind. destruct (retryExpr s) as [e|] eqn:E; [|done]. intros [= <-]. cbn.
    destruct (retryExpr_same _ _ E) as [-> Hs]. by destruct (String.eqb_spec s "").
Qed.

Lemma decode_duration_ok v x : decode_duration v = Ok x -> source_ok x.
Proof using.
  unfold source_ok, decode_duration, ParseRetryDuration. destruct v as [| |s|s| | |]; try done.
  - by intros [= <-].
  - destruct (ParseInt10 s) as [ms|] eqn:E; [|done]. destruct (Z.leb_spec ms 0); [done|]. intros [= <-]. cbn.
    rewrite ParseInt10_FormatInt by by eapply ParseInt10_range. by rewrite (proj2 (Z.leb_gt ms 0)).
  - destruct (Template.Parse Lex s) as [t|] eqn:E; [|done]. destruct (Template.Static t) as [lit|] eqn:Es.
    + destruct (ParseDuration lit) as [p|] eqn:Ep; [|done]. destruct (Fixed p) as [fx|] eqn:Ef; [|done].
      destruct (fx <=? 0) eqn:Hz; [done|]. intros [= <-]. cbn. by rewrite E, Es, Ep, Ef, Hz.
    + unfold mbind, result_bind. destruct (retryExpr s) as [e|] eqn:Er; [|done]. intros [= <-]. cbn.
      by rewrite E, Es, Er.
Qed.

Lemma number_back x : number_ok x -> decode_number (default Null (encode_number x)) = Ok x.
Proof using.
  destruct x as [q e]. unfold number_ok, encode_number, number_IsZero, number_IsExpr. cbn [n expr].
  destruct (String.eqb_spec e "") as [->|He]; cbn.
  - intros [Hq Hp]. destruct (Qeq_bool q 0) eqn:Hz; cbn.
    + apply Qeq_bool_iff, Qred_complete in Hz. rewrite Hq in Hz. by rewrite Hz.
    + by rewrite Hp.
  - intros [-> Hr]. cbn. unfold mbind, result_bind. by rewrite Hr.
Qed.

Definition checks (r : Retry) : bool :=
  (number_IsExpr (Retries r) || Qle_bool 0 (n (Retries r))) &&
  (number_IsExpr (Factor r) || Qeq_bool (n (Factor r)) 0 || Qle_bool 1 (n (Factor r))).

Lemma decode_fields fields r :
  decode_number (field "retries" fields) = Ok (Retries r) -> decode_duration (field "delay" fields) = Ok (Delay r) ->
  decode_number (field "factor" fields) = Ok (Factor r) -> decode_duration (field "max_delay" fields) = Ok (MaxDelay r) ->
  unknown_field retryFields fields = None -> checks r = true -> decode (Map fields) = Ok r.
Proof using.
  intros E1 E2 E3 E4 Hu Hc. destruct r as [r1 r2 r3 r4]. cbn [Retries Delay Factor MaxDelay] in *.
  cbn [decode]. rewrite Hu. unfold mbind, result_bind. rewrite E1, E2, E3, E4.
  unfold checks in Hc. cbn [Retries Factor] in Hc.
  destruct (number_IsExpr r1), (Qle_bool 0 (n r1)), (number_IsExpr r3), (Qeq_bool (n r3) 0), (Qle_bool 1 (n r3)); done.
Qed.

Lemma decode_inv v r : decode v = Ok r ->
  number_ok (Retries r) /\ source_ok (Delay r) /\ number_ok (Factor r) /\ source_ok (MaxDelay r) /\ checks r = true.
Proof using Hlaws.
  destruct v as [| |s|s| |fields|]; cbn [decode]; try done.
  - by intros [= <-].
  - destruct (ParseInt10 s) as [k|] eqn:E; [|done]. destruct (Z.ltb_spec k 0); [done|]. intros [= <-].
    apply ParseInt10_range in E. repeat split; cbn.
    + apply ofint_canonical.
    + intros _. by apply format_ofint.
    + done.
    + unfold checks. cbn -[Qle_bool]. by rewrite (proj2 (Qle_bool_iff 0 (OfInt k)) (ofint_nonneg k ltac:(lia))).
  - destruct (unknown_field retryFields fields); [done|]. unfold mbind, result_bind.
    destruct (decode_number (field "retries" fields)) as [r1|] eqn:E1; [|done].
    destruct (decode_duration (field "delay" fields)) as [r2|] eqn:E2; [|done].
    destruct (decode_number (field "factor" fields)) as [r3|] eqn:E3; [|done].
    destruct (decode_duration (field "max_delay" fields)) as [r4|] eqn:E4; [|done].
    destruct (negb (number_IsExpr r1) && _) eqn:H1; [done|]. destruct (negb (number_IsExpr r3) && _ && _) eqn:H2; [done|].
    intros [= <-]. cbn. split; [by eapply decode_number_ok|]. split; [by eapply decode_duration_ok|].
    split; [by eapply decode_number_ok|]. split; [by eapply decode_duration_ok|]. unfold checks. cbn.
    destruct (number_IsExpr r1), (Qle_bool 0 (n r1)), (number_IsExpr r3), (Qeq_bool (n r3) 0), (Qle_bool 1 (n r3)); done.
Qed.

Lemma encode_field o1 o2 o3 o4 : let fields := omap (fun '(k, o) => (fun x : value => (k, x)) <$> o)
    [("retries", o1); ("delay", o2); ("factor", o3); ("max_delay", o4)] in
  field "retries" fields = default Null o1 /\ field "delay" fields = default Null o2 /\
  field "factor" fields = default Null o3 /\ field "max_delay" fields = default Null o4 /\
  unknown_field retryFields fields = None.
Proof using. by destruct o1, o2, o3, o4. Qed.

(** A policy survives being stored: what was decoded, in either of its forms, is encoded
    to a document that decodes to it. *)
Lemma decode_encode v r : decode v = Ok r -> decode (encode r) = Ok r.
Proof using Hlaws.
  intros (Hr & Hd & Hf & Hm & Hc)%decode_inv. unfold encode. destruct (IsZero r) eqn:Hz.
  - cbn. f_equal. destruct r as [r1 r2 r3 r4]. unfold IsZero in Hz. cbn [Retries Delay Factor MaxDelay] in *.
    apply andb_prop in Hz as [[[Z1 Z3]%andb_prop Z2]%andb_prop Z4].
    apply number_back in Hr, Hf. unfold encode_number in Hr, Hf. rewrite Z1 in Hr. rewrite Z3 in Hf.
    injection Hr as <-. injection Hf as <-. unfold source_ok, duration_IsZero in *.
    destruct (src r2) eqn:E2; [done|]. destruct (src r4) eqn:E4; [done|].
    injection Hd as <-. by injection Hm as <-.
  - destruct (encode_field (encode_number (Retries r)) (src (Delay r)) (encode_number (Factor r)) (src (MaxDelay r)))
      as (E1 & E2 & E3 & E4 & Hu).
    apply decode_fields; [rewrite E1|rewrite E2|rewrite E3|rewrite E4|exact Hu|exact Hc];
      [by apply number_back|exact Hd|by apply number_back|exact Hm].
Qed.

End Laws.
End Retry.

(** * Concrete policies *)

(** Whole numbers, and one half more than two. *)
#[local] Instance halves : Floats := {|
  ParseFloat s := if String.eqb s "2.5" then Some (5 # 2) else inject_Z <$> ParseInt10 s;
  FormatFloat f := if Qeq_bool f (5 # 2) then "2.5" else FormatInt (Qfloor f);
  OfInt k := inject_Z k |}.
#[local] Existing Instance integers.

Lemma canonical_int z : Qred (inject_Z z) = inject_Z z.
Proof.
  unfold Qred, inject_Z. pose proof (Z.ggcd_gcd z 1) as Hg. pose proof (Z.ggcd_correct_divisors z 1) as Hc.
  destruct (Z.ggcd z 1) as [g [a b]]. cbn [fst] in Hg. rewrite Z.gcd_1_r in Hg. subst g. destruct Hc as [Ha Hb].
  rewrite Z.mul_1_l in Ha, Hb. by subst.
Qed.

Lemma format_int z : in_i64 z -> ParseFloat (FormatFloat (inject_Z z)) = Some (inject_Z z).
Proof.
  intros Hz. cbn. destruct (Qeq_bool (inject_Z z) (5 # 2)) eqn:E.
  - apply Qeq_bool_iff in E. unfold Qeq in E. cbn in E. lia.
  - rewrite Z.div_1_r, ParseInt10_FormatInt by done. destruct (String.eqb_spec (FormatInt z) "2.5") as [Es|]; [|done].
    pose proof (ParseInt10_FormatInt z Hz) as Hp. rewrite Es in Hp. by vm_compute in Hp.
Qed.

#[local] Instance halves_laws : FloatLaws.
Proof.
  split.
  - intros s f. cbn. destruct (String.eqb s "2.5"); [by intros [= <-]|].
    destruct (ParseInt10 s); [|done]. intros [= <-]. apply canonical_int.
  - intros k. apply canonical_int.
  - intros k Hk. change 0%Q with (inject_Z 0). by rewrite <- Zle_Qle.
  - intros s f. cbn [ParseFloat halves]. destruct (String.eqb s "2.5"); [by intros [= <-]|].
    destruct (ParseInt10 s) eqn:E; [|done]. intros [= <-]. by eapply format_int, ParseInt10_range.
  - intros k. apply format_int.
Qed.

Definition no_lex (_ : string) : option (list Syntax.Token) := None.
Definition no_eval (_ : string) : result string value := Err "".

Definition slow : value := Map [("delay", Str "30s"); ("max_delay", Num "600000"); ("retries", Num "4")].
Definition slow_policy : Retry :=
  mkRetry (mkNumber 4 "") (mkRetryDuration (Some (Str "30s")) (30 * Second) "") zero_number
    (mkRetryDuration (Some (Num "600000")) (600 * Second) "").
Lemma slow_decodes : decode no_lex slow = Ok slow_policy.
Proof. by vm_compute. Qed.

Lemma slow_survives : decode no_lex (encode slow_policy) = Ok slow_policy.
Proof. exact (decode_encode no_lex slow slow_policy slow_decodes). Qed.

Lemma registered_resolves_witness :
  Resolve no_eval slow_policy = Ok (mkResolved 4 (30 * Second) DefaultRetryFactor (600 * Second)).
Proof.
  exact (registered_resolves no_eval slow_policy ltac:(by repeat split) eq_refl eq_refl eq_refl eq_refl
    ltac:(done)).
Defined.

Lemma Resolve_bounds_witness : 0 <= 4 <= max_int64 /\ (1 <= DefaultRetryFactor)%Q /\ 0 < 30 * Second <= 600 * Second /\
  600 * Second <= max_int64.
Proof.
  exact (Resolve_bounds no_eval slow_policy (mkResolved 4 (30 * Second) DefaultRetryFactor (600 * Second))
    ltac:(by vm_compute) ltac:(by vm_compute)).
Defined.

(** Policies that are registered and then fail every error they were written for. *)
Definition passes_then (v : value) (e : retry_error) : Prop :=
  exists r, decode no_lex v = Ok r /\ validateRetry r = Ok () /\ Resolve no_eval r = Err e.

(** A ceiling under the default delay. *)
Lemma short_ceiling_registered : passes_then (Map [("max_delay", Num "500"); ("retries", Num "3")]) ShortCeiling.
Proof. by eexists; split; [vm_compute; reflexivity|]. Qed.

(** A number of retries that is not whole. *)
Lemma fraction_registered : passes_then (Map [("retries", Num "2.5")]) NotWhole.
Proof. by eexists; split; [vm_compute; reflexivity|]. Qed.

(** Milliseconds past what nanoseconds can hold wrap: 585 years are under half a
    millisecond, and 293 are negative. *)
Lemma delay_wraps : decode no_lex (Map [("delay", Num "18446744073710"); ("retries", Num "3")]) =
  Ok (mkRetry (mkNumber 3 "") (mkRetryDuration (Some (Num "18446744073710")) 448384 "") zero_number absent).
Proof. by vm_compute. Qed.

Lemma wrapped_registered : passes_then (Map [("delay", Num "9223372036855"); ("retries", Num "3")]) NotPositive.
Proof. by eexists; split; [vm_compute; reflexivity|]. Qed.

End Retry.
