(* ===== verification/Definitions.v ===== *)
(** The process definition as registration reads it: the data of internal/model/definition.go
    with the wire form of its rules, internal/model/wire.go.

    Where [Engine] keeps of a definition what an advance looks at, this is all of it.  A shape
    is its raw value, [None] where the pointer is nil; a map field is a [gmap], nil or empty
    alike.  Decoded JSON is [Json.value]; a document's object has each key once, and a wrong
    kind is reported without the text of the message. *)
From Stdlib Require Import ZArith QArith Lia Ascii String.
From stdpp Require Import sorting.
From S2P Require Import Prelude GoStrings GoTime DelaySpec Json Numeric Syntax Template Schema CheckDoc Retry.
Import Json.
Open Scope string_scope.
Open Scope list_scope.
Open Scope Z_scope.

Module Definitions.

Implicit Types (v w : value) (s k : string).

Definition GotoEnd : string := "end".
Definition GotoNext : string := "next".

Definition ActionType := string.
Definition ActionTypeFetch : ActionType := "fetch".
Definition ActionTypeChild : ActionType := "child".
Definition ActionTypeChildMap : ActionType := "child_map".
Definition ActionTypeChildList : ActionType := "child_list".
Definition ActionTypeDelay : ActionType := "delay".
Definition ActionTypeExternal : ActionType := "external".

(** [*Shape], and whether it is [Present]. *)
Definition Shape := option value.
Definition Present (sh : Shape) : bool :=
  match sh with None | Some Null => false | Some _ => true end.

(** [DelaySpec], which [Timeout] wraps. *)
Definition DelaySpec := Retry.Timeout.

(** [Fault], for both [raise] and [panic]. *)
Record Fault := mkFault { f_code : string; f_message : string; f_data : Shape }.

Record SwitchCase := mkSwitch { sc_case : string; sc_goto : string; sc_raise : option Fault; sc_panic : option Fault }.

Record ErrorCase := mkError {
  ec_code : list string; ec_case : string; ec_retry : Retry.Retry; ec_goto : string;
  ec_raise : option Fault; ec_panic : option Fault; ec_not_reached : option bool }.

(** [OnlyOnce], [NotReached]: a nil pointer reads as false. *)
Definition isSet (o : option bool) : bool := default false o.

Definition switch_Terminates (c : SwitchCase) : bool :=
  String.eqb (sc_goto c) GotoEnd || bool_decide (is_Some (sc_raise c)) || bool_decide (is_Some (sc_panic c)).
Definition error_Terminates (c : ErrorCase) : bool :=
  String.eqb (ec_goto c) GotoEnd || bool_decide (is_Some (ec_raise c)) || bool_decide (is_Some (ec_panic c)).

Section Definitions.
Context `{Schema.Numbers}.

(** A schema of a definition: its root, its own [$defs], and the slots marked [secret],
    which [Schema.node] leaves out. *)
Record document := mkDocument {
  root : Schema.node; own : Schema.defs_t; secrets : list (list CheckDoc.childSlot) }.

(** The [$defs] pool of a definition, with its secret marks. *)
Record Defs := mkDefs { pool : Schema.defs_t; pool_secrets : list (list CheckDoc.childSlot) }.

Definition ContainsSecret (d : document) : bool := match secrets d with [] => false | _ => true end.

(** [Raises]: a code without a schema carries nothing. *)
Definition Raises := gmap string (option document).

Record ChildEntry := mkEntry {
  e_name : string; e_version : Z; e_input : Shape;
  e_input_schema : option document; e_result_schema : option document; e_raises : Raises }.

Record Action := mkAction {
  Type_ : ActionType;
  URL : string; Method : string; Headers : Shape; Query : Shape; AcceptedStatus : Shape;
  Responses : gmap string (option document);
  a_result_schema : option document; a_raises : Raises; a_name : string; a_version : Z;
  Body : Shape; a_input : Shape;
  BodySchema : option document; QuerySchema : option document; a_input_schema : option document;
  Children : gmap string ChildEntry; Over : string; a_timeout : Retry.Timeout; a_delay : DelaySpec }.

Record Task := mkTask {
  ID : string; t_action : option Action; OnlyOnce : option bool; OnError : list ErrorCase;
  t_output : Shape; t_output_schema : option document; Switch : list SwitchCase }.

(** A nil list of tasks is [None], a nil task of the list is too. *)
Record ProcessDefinition := mkDefinition {
  d_name : string; Tasks : option (list (option Task));
  d_input_schema : option document; ConfigSchema : option document; d_defs : Defs;
  d_output : Shape; d_output_schema : option document }.

(** The tasks of a definition whose struct rules hold. *)
Definition tasks (d : ProcessDefinition) : list Task := omap id (default [] (Tasks d)).

(** [OnlyOnceAction]; a nil task is [None]. *)
Definition OnlyOnceAction (t : option Task) : bool :=
  match t with
  | Some t => bool_decide (is_Some (t_action t)) && isSet (OnlyOnce t)
  | None => false
  end.

(** The codes of the clauses [clause] picks, task by task, its switch first. *)
Definition clause_codes (of_switch : SwitchCase -> option Fault) (of_error : ErrorCase -> option Fault) (t : Task)
    : list string :=
  (f_code <$> omap of_switch (Switch t)) ++ (f_code <$> omap of_error (OnError t)).

Definition raised_in (t : Task) : list string := clause_codes sc_raise ec_raise t.
Definition panicked_in (t : Task) : list string := clause_codes sc_panic ec_panic t.

(** [Raises]: what the definition can raise, each code once and sorted. *)
Definition definition_Raises (d : ProcessDefinition) : list string :=
  merge_sort String.le (elements (list_to_set (tasks d ≫= raised_in) : gset string)).

End Definitions.

(** * The wire form of rules: wire.go *)

Inductive wire_error :=
  | WrongKind (where_ : string)
  | UnknownField (where_ name : string) (hint : option string)
  | SwitchShorthand (s : string)
  | SwitchGoto (s : string)
  | CaseIsAList
  | BadRetry (e : Retry.retry_error)
  | ErrorGoto (s : string).

Definition ruleFieldHints : list (string * string) :=
  [("code", "a switch case selects with case; code belongs to on_error"); ("retries", "renamed to retry")].
Definition hint_for (k : string) : option string :=
  snd <$> List.find (fun h => String.eqb (fst h) k) ruleFieldHints.

Definition faultFields : list string := ["code"; "message"; "data"].
Definition switchCaseFields : list string := ["case"; "goto"; "raise"; "panic"].
Definition errorCaseFields : list string := ["code"; "case"; "retry"; "goto"; "raise"; "panic"; "not_reached"].

(** [rejectUnknownFields]; what is not an object is left to the decode. *)
Definition rejectUnknownFields (where_ : string) v (allowed : list string) : result wire_error unit :=
  match v with
  | Map fields =>
      match Retry.unknown_field allowed fields with
      | Some k => Err (UnknownField where_ k (hint_for k))
      | None => Ok ()
      end
  | _ => Ok ()
  end.

(** A decoded struct: null leaves it as it is, an absent field decodes like null. *)
Definition struct_fields (where_ : string) v : result wire_error (list (string * value)) :=
  match v with Null => Ok [] | Map fields => Ok fields | _ => Err (WrongKind where_) end.

Definition decode_string (where_ : string) v : result wire_error string :=
  match v with Null => Ok "" | Str s => Ok s | _ => Err (WrongKind where_) end.
Definition decode_bool (where_ : string) v : result wire_error (option bool) :=
  match v with Null => Ok None | Bool b => Ok (Some b) | _ => Err (WrongKind where_) end.
Fixpoint decode_list {A} (f : value -> result wire_error A) (l : list value) : result wire_error (list A) :=
  match l with [] => Ok [] | v :: l => x ← f v; xs ← decode_list f l; Ok (x :: xs) end.
Definition decode_strings (where_ : string) v : result wire_error (list string) :=
  match v with
  | Null => Ok []
  | Arr l => decode_list (decode_string where_) l
  | _ => Err (WrongKind where_)
  end.
(** A [*Shape] takes any value but null. *)
Definition decode_shape v : Shape := Retry.any v.

(** [Fault.UnmarshalJSON], behind a pointer. *)
Definition decode_fault v : result wire_error (option Fault) :=
  match v with
  | Null => Ok None
  | _ =>
      _ ← rejectUnknownFields "raise/panic" v faultFields;
      fields ← struct_fields "raise/panic" v;
      code ← decode_string "code" (Retry.field "code" fields);
      message ← decode_string "message" (Retry.field "message" fields);
      Ok (Some (mkFault code message (decode_shape (Retry.field "data" fields))))
  end.

(** A struct as [json.Marshal] writes it, fields left out where [omitempty] says so. *)
Definition present (fields : list (string * option value)) : list (string * value) :=
  omap (fun '(k, o) => (fun x => (k, x)) <$> o) fields.
Definition object (fields : list (string * option value)) : value := Map (present fields).
Definition some_string s : option value := if String.eqb s "" then None else Some (Str s).
Definition some_strings (l : list string) : option value := match l with [] => None | l => Some (Arr (Str <$> l)) end.

Definition encode_fault (f : Fault) : value :=
  object [("code", Some (Str (f_code f))); ("message", Some (Str (f_message f))); ("data", f_data f)].

(** [switchWireCase]. *)
Definition decode_case v : result wire_error SwitchCase :=
  fields ← struct_fields "switch" v;
  case ← decode_string "case" (Retry.field "case" fields);
  goto ← decode_string "goto" (Retry.field "goto" fields);
  raise ← decode_fault (Retry.field "raise" fields);
  panic ← decode_fault (Retry.field "panic" fields);
  Ok (mkSwitch case goto raise panic).

Definition encode_case (c : SwitchCase) : value :=
  object [("case", some_string (sc_case c)); ("goto", some_string (sc_goto c));
          ("raise", encode_fault <$> sc_raise c); ("panic", encode_fault <$> sc_panic c)].

(** The shape a switch goto has. *)
Definition goto_shape s : bool := String.eqb s GotoEnd || String.eqb s GotoNext || HasPrefix s "$".

Fixpoint each {A} (f : A -> result wire_error unit) (l : list A) : result wire_error unit :=
  match l with [] => Ok () | x :: l => _ ← f x; each f l end.

(** [SwitchMap.UnmarshalJSON]. *)
Definition decode_switch v : result wire_error (list SwitchCase) :=
  match v with
  | Null => Ok []
  | Str s => if goto_shape s then Ok [mkSwitch "" s None None] else Err (SwitchShorthand s)
  | Arr items =>
      cases ← decode_list decode_case items;
      _ ← each (fun item => rejectUnknownFields "switch" item switchCaseFields) items;
      _ ← each (fun c => if negb (String.eqb (sc_goto c) "") && negb (goto_shape (sc_goto c))
                         then Err (SwitchGoto (sc_goto c)) else Ok ()) cases;
      Ok cases
  | _ => Err (WrongKind "switch")
  end.

(** [SwitchMap.MarshalJSON]. *)
Definition encode_switch (cases : list SwitchCase) : value := Arr (encode_case <$> cases).

Section Rules.
Context `{Apd} `{Floats} (Lex : string -> option (list Syntax.Token)).

(** The goto of an error rule loses its sigil on the way in. *)
Definition decode_goto s : result wire_error string :=
  if String.eqb s "" then Ok ""
  else if String.eqb s "end" then Ok GotoEnd
  else if HasPrefix s "$" then Ok (TrimPrefix s "$")
  else Err (ErrorGoto s).
Definition encode_goto s : string :=
  if String.eqb s "" then "" else if String.eqb s GotoEnd then "end" else ("$" +:+ s)%string.

(** [ErrorCase.UnmarshalJSON]. *)
Definition decode_rule v : result wire_error ErrorCase :=
  _ ← rejectUnknownFields "on_error" v errorCaseFields;
  _ ← (match v with
       | Map fields => match Retry.field "case" fields with Arr _ => Err CaseIsAList | _ => Ok () end
       | _ => Ok ()
       end);
  fields ← struct_fields "on_error" v;
  code ← decode_strings "code" (Retry.field "code" fields);
  case ← decode_string "case" (Retry.field "case" fields);
  retry ← map_err BadRetry (Retry.decode Lex (Retry.field "retry" fields));
  goto ← decode_string "goto" (Retry.field "goto" fields);
  raise ← decode_fault (Retry.field "raise" fields);
  panic ← decode_fault (Retry.field "panic" fields);
  not_reached ← decode_bool "not_reached" (Retry.field "not_reached" fields);
  goto ← decode_goto goto;
  Ok (mkError code case retry goto raise panic not_reached).

(** [ErrorCase.MarshalJSON]. *)
Definition encode_rule (e : ErrorCase) : value :=
  object [("code", some_strings (ec_code e));
          ("case", some_string (ec_case e));
          ("retry", if Retry.IsZero (ec_retry e) then None else Some (Retry.encode (ec_retry e)));
          ("goto", some_string (encode_goto (ec_goto e)));
          ("raise", encode_fault <$> ec_raise e);
          ("panic", encode_fault <$> ec_panic e);
          ("not_reached", Bool <$> ec_not_reached e)].

End Rules.

(** * Round trips *)

Lemma not_present k fields : k ∉ fields.*1 -> lookup_key k (present fields) = None.
Proof.
  induction fields as [|[k' o] fields IH]; [done|]. cbn. intros [Hk Hn]%not_elem_of_cons.
  unfold present. cbn. destruct o as [x|]; cbn; [|by apply IH].
  destruct (String.eqb_spec k k'); [done|]. by apply IH.
Qed.

(** Reading a field of an object that was written with it. *)
Fixpoint pick k (fields : list (string * option value)) : option value :=
  match fields with [] => None | (k', o) :: fields => if String.eqb k k' then o else pick k fields end.
Fixpoint distinct (keys : list string) : bool :=
  match keys with [] => true | k :: keys => negb (existsb (String.eqb k) keys) && distinct keys end.

Lemma field_present k fields : distinct fields.*1 = true -> Retry.field k (present fields) = default Null (pick k fields).
Proof.
  unfold Retry.field. induction fields as [|[k' o] fields IH]; [done|]. cbn. intros [Hk Hn]%andb_true_iff.
  unfold present. cbn. destruct o as [x|]; cbn; destruct (String.eqb_spec k k') as [->|]; try done; try by apply IH.
  fold (present fields). rewrite not_present; [done|]. intros Hin. apply negb_true_iff in Hk.
  assert (existsb (String.eqb k') fields.*1 = true) as Hx; [|by rewrite Hx in Hk].
  apply existsb_exists. exists k'. rewrite String.eqb_refl. by apply list_elem_of_In in Hin.
Qed.

Lemma known_fields allowed fields :
  forallb (fun k => existsb (String.eqb k) allowed) fields.*1 = true -> Retry.unknown_field allowed (present fields) = None.
Proof.
  unfold Retry.unknown_field. induction fields as [|[k o] fields IH]; [done|]. cbn. intros [Hk Hf]%andb_true_iff.
  unfold present. cbn. destruct o as [x|]; cbn; [|by apply IH]. rewrite Hk. by apply IH.
Qed.

#[local] Arguments present : simpl never.
#[local] Arguments Retry.field : simpl never.
#[local] Arguments hint_for : simpl never.

(** Each field of a written object, read by name. *)
Ltac read_fields := rewrite !field_present by (vm_compute; reflexivity); lazy [pick String.eqb Ascii.eqb Bool.eqb].
Ltac known := rewrite known_fields by (vm_compute; reflexivity).

(** What the decoder leaves: an absent payload, never a null one. *)
Definition fault_ok (o : option Fault) : Prop := match o with Some f => f_data f <> Some Null | None => True end.

Lemma decode_fault_ok v o : decode_fault v = Ok o -> fault_ok o.
Proof.
  destruct v; unfold decode_fault, mbind, result_bind; try (by intros [= <-]);
    destruct (rejectUnknownFields _ _ _); try done; cbn; try done.
  destruct (decode_string _ _); [|done]. destruct (decode_string _ _); [|done]. intros [= <-]. cbn.
  unfold decode_shape, Retry.any. by destruct (Retry.field _ _).
Qed.

Lemma fault_back o : fault_ok o -> decode_fault (default Null (encode_fault <$> o)) = Ok o.
Proof.
  destruct o as [[c m d]|]; [|done]. cbn. intros Hd. unfold decode_fault, encode_fault, object. cbn [f_code f_message f_data].
  unfold rejectUnknownFields. known. unfold struct_fields, mbind, result_bind. read_fields. cbn.
  destruct d as [[]|]; done.
Qed.

(** A wire struct whose text is decoded by [f] and written by [g]. *)
Lemma decode_list_back {A} (f : value -> result wire_error A) (g : A -> value) (l : list A) :
  Forall (fun x => f (g x) = Ok x) l -> decode_list f (g <$> l) = Ok l.
Proof. induction 1 as [|x l Hx Hl IH]; [done|]. cbn. unfold mbind, result_bind. by rewrite Hx, IH. Qed.

Lemma decode_list_Forall {A} (f : value -> result wire_error A) (P : A -> Prop) l xs :
  (forall v x, f v = Ok x -> P x) -> decode_list f l = Ok xs -> Forall P xs.
Proof.
  intros Hf. revert xs. induction l as [|v l IH]; intros xs; cbn; [by intros [= <-]|].
  unfold mbind, result_bind. destruct (f v) as [x|] eqn:E; [|done]. destruct (decode_list f l) as [ys|]; [|done].
  intros [= <-]. constructor; eauto.
Qed.

Lemma each_Forall {A} (f : A -> result wire_error unit) l : each f l = Ok () <-> Forall (fun x => f x = Ok ()) l.
Proof.
  induction l as [|x l IH]; cbn; [split; [constructor|done]|]. unfold mbind, result_bind. rewrite Forall_cons, <- IH.
  destruct (f x) as [[]|]; [tauto|]. split; [done|]. by intros [? _].
Qed.

Definition case_ok (c : SwitchCase) : Prop := fault_ok (sc_raise c) /\ fault_ok (sc_panic c).

Lemma some_string_back s at_ : decode_string at_ (default Null (some_string s)) = Ok s.
Proof. unfold some_string. by destruct (String.eqb_spec s "") as [->|]. Qed.

Lemma decode_case_ok v c : decode_case v = Ok c -> case_ok c.
Proof.
  unfold decode_case, mbind, result_bind. destruct (struct_fields _ v) as [fields|]; [|done].
  destruct (decode_string _ _); [|done]. destruct (decode_string _ _); [|done].
  destruct (decode_fault (Retry.field "raise" fields)) eqn:E1; [|done].
  destruct (decode_fault (Retry.field "panic" fields)) eqn:E2; [|done].
  intros [= <-]. split; by eapply decode_fault_ok.
Qed.

Lemma case_back c : case_ok c ->
  decode_case (encode_case c) = Ok c /\ rejectUnknownFields "switch" (encode_case c) switchCaseFields = Ok ().
Proof.
  destruct c as [case goto raise panic]. intros [Hr Hp]. unfold encode_case, object. cbn [sc_case sc_goto sc_raise sc_panic].
  split; [|unfold rejectUnknownFields; by known].
  unfold decode_case, struct_fields, mbind, result_bind. read_fields. rewrite !some_string_back.
  by rewrite !fault_back.
Qed.

Lemma decode_switch_back v cases : decode_switch v = Ok cases -> decode_switch (encode_switch cases) = Ok cases.
Proof.
  intros H. assert (Hok : Forall (fun c => case_ok c /\ (sc_goto c = "" \/ goto_shape (sc_goto c) = true)) cases).
  { destruct v; cbn in H; try done.
    - by injection H as <-.
    - destruct (goto_shape s) eqn:E; [|done]. injection H as <-. constructor; [|done]. split; [done|]. by right.
    - unfold mbind, result_bind in H. destruct (decode_list decode_case l) as [cs|] eqn:E; [|done].
      destruct (each _ l); [|done]. destruct (each _ cs) eqn:Eg; [|done]. injection H as <-. destruct a0.
      apply each_Forall in Eg. apply (decode_list_Forall _ case_ok) in E; [|apply decode_case_ok].
      apply Forall_and; split; [done|]. eapply Forall_impl; [exact Eg|]. cbn. intros c Hg.
      destruct (String.eqb_spec (sc_goto c) ""); [by left|]. right. by destruct (goto_shape _). }
  unfold encode_switch, decode_switch, mbind, result_bind. rewrite decode_list_back.
  - replace (each _ (encode_case <$> cases)) with (Ok () : result wire_error unit).
    + replace (each _ cases) with (Ok () : result wire_error unit); [done|]. symmetry. apply each_Forall.
      eapply Forall_impl; [exact Hok|]. cbn. by intros c [_ [->| ->]]; [|destruct (String.eqb _ _)].
    + symmetry. apply each_Forall, Forall_fmap. eapply Forall_impl; [exact Hok|]. intros c [Hc _]. by apply case_back.
  - eapply Forall_impl; [exact Hok|]. intros c [Hc _]. by apply case_back.
Qed.

Section RoundTrip.
Context `{Apd} `{FloatLaws} (Lex : string -> option (list Syntax.Token)).

Lemma goto_back s g : decode_goto s = Ok g -> decode_goto (encode_goto g) = Ok g.
Proof using.
  unfold decode_goto. destruct (String.eqb s ""); [by intros [= <-]|]. destruct (String.eqb s "end"); [by intros [= <-]|].
  destruct (HasPrefix s "$"); [|done]. intros [= <-]. unfold encode_goto.
  destruct (String.eqb_spec (TrimPrefix s "$") "") as [->|]; [done|].
  destruct (String.eqb_spec (TrimPrefix s "$") GotoEnd) as [->|]; [done|]. done.
Qed.

Lemma strings_back at_ l : decode_strings at_ (default Null (some_strings l)) = Ok l.
Proof using.
  destruct l as [|x l]; [done|]. cbn [default]. unfold decode_strings. apply decode_list_back.
  apply Forall_forall. done.
Qed.

Lemma decode_rule_fields fields r wire :
  Retry.unknown_field errorCaseFields fields = None ->
  decode_strings "code" (Retry.field "code" fields) = Ok (ec_code r) ->
  decode_string "case" (Retry.field "case" fields) = Ok (ec_case r) ->
  Retry.decode Lex (Retry.field "retry" fields) = Ok (ec_retry r) ->
  decode_string "goto" (Retry.field "goto" fields) = Ok wire ->
  decode_fault (Retry.field "raise" fields) = Ok (ec_raise r) ->
  decode_fault (Retry.field "panic" fields) = Ok (ec_panic r) ->
  decode_bool "not_reached" (Retry.field "not_reached" fields) = Ok (ec_not_reached r) ->
  decode_goto wire = Ok (ec_goto r) -> decode_rule Lex (Map fields) = Ok r.
Proof using.
  destruct r as [code case retry goto raise panic nr]. cbn [ec_code ec_case ec_retry ec_goto ec_raise ec_panic ec_not_reached].
  intros Hu E1 E2 E3 E4 E5 E6 E7 E8. unfold decode_rule, rejectUnknownFields, struct_fields, mbind, result_bind.
  rewrite Hu. replace (match Retry.field "case" fields with Arr _ => _ | _ => _ end) with (Ok () : result wire_error unit)
    by by destruct (Retry.field "case" fields).
  by rewrite E1, E2, E3, E4, E5, E6, E7; cbn; rewrite E8.
Qed.

Lemma decode_rule_back v r : decode_rule Lex v = Ok r -> decode_rule Lex (encode_rule r) = Ok r.
Proof.
  unfold decode_rule at 1. unfold mbind, result_bind.
  destruct (rejectUnknownFields _ _ _); [|done]. destruct (match v with Map _ => _ | _ => _ end); [|done].
  destruct (struct_fields _ v) as [fields|]; [|done].
  destruct (decode_strings _ _) as [code|] eqn:E1; [|done]. destruct (decode_string _ _) as [case|]; [|done].
  destruct (Retry.decode _ _) as [retry|] eqn:E2; [cbn|done]. destruct (decode_string _ _) as [wire|]; [|done].
  destruct (decode_fault _) as [raise|] eqn:E3; [|done].
  destruct (decode_fault (Retry.field "panic" fields)) as [panic|] eqn:E4; [|done].
  destruct (decode_bool _ _) as [nr|]; [|done]. destruct (decode_goto wire) as [goto|] eqn:E5; [|done]. intros [= <-].
  unfold encode_rule, object. cbn [ec_code ec_case ec_retry ec_goto ec_raise ec_panic ec_not_reached].
  apply decode_rule_fields with (wire := encode_goto goto);
    cbn [ec_code ec_case ec_retry ec_goto ec_raise ec_panic ec_not_reached].
  1: by known.
  8: exact (goto_back _ _ E5).
  all: read_fields.
  - apply strings_back.
  - apply some_string_back.
  - pose proof (Retry.decode_encode Lex _ _ E2) as Hb. destruct (Retry.IsZero retry) eqn:Hz; [|done].
    unfold Retry.encode in Hb. by rewrite Hz in Hb.
  - apply some_string_back.
  - by eapply fault_back, decode_fault_ok.
  - by eapply fault_back, decode_fault_ok.
  - by destruct nr.
Qed.
(** C7. Routing survives being stored: the switch and the error rules of a task, in whichever
    of their forms they were written, encode to documents that decode to them - a goto whose
    sigil the decoder dropped, a policy written as a bare number and a payload of null included. *)
Theorem rules_roundtrip sv cases rv r : decode_switch sv = Ok cases -> decode_rule Lex rv = Ok r ->
  decode_switch (encode_switch cases) = Ok cases /\ decode_rule Lex (encode_rule r) = Ok r.
Proof. intros Hs Hr. split; [by eapply decode_switch_back|by eapply decode_rule_back]. Qed.

End RoundTrip.

(** * Concrete rules *)

#[local] Existing Instance Retry.halves.
#[local] Existing Instance Retry.halves_laws.
#[local] Existing Instance Numeric.integers.

Definition fault_value : value := Map [("code", Str "declined"); ("data", Null); ("message", Str "no")].
Definition rule_value : value :=
  Map [("code", Arr [Str "pre.%"; Str "http.503"]); ("goto", Str "$end"); ("not_reached", Bool true); ("retry", Num "3")].
Definition switch_value : value :=
  Arr [Map [("case", Str "self.ok"); ("goto", Str "$pay")]; Map [("raise", fault_value)]].

Definition declined : Fault := mkFault "declined" "no" None.
Definition rule_read : ErrorCase :=
  mkError ["pre.%"; "http.503"] "" (Retry.mkRetry (Retry.RetryCount 3) Retry.absent Retry.zero_number Retry.absent)
    GotoEnd None None (Some true).
Definition switch_read : list SwitchCase := [mkSwitch "self.ok" "$pay" None None; mkSwitch "" "" (Some declined) None].

Lemma rules_roundtrip_witness :
  decode_switch (encode_switch switch_read) = Ok switch_read /\
  decode_rule Retry.no_lex (encode_rule rule_read) = Ok rule_read.
Proof.
  exact (rules_roundtrip Retry.no_lex switch_value switch_read rule_value rule_read
    ltac:(by vm_compute) ltac:(by vm_compute)).
Defined.

(** The sigil is lost: a reference to a task named end is the end of the process. *)
Example goto_end_loses_its_task : decode_goto "$end" = Ok GotoEnd.
Proof. done. Qed.

(** A bare sigil is no route at all. *)
Example bare_sigil_is_no_goto : decode_goto "$" = Ok "".
Proof. done. Qed.

End Definitions.
