(* ===== verification/Config.v ===== *)
(** The config of a process, read from the server's environment: internal/model/config.go.

    An environment is a function from the name of a variable.  A name is read byte by byte;
    the bytes of a rune past ASCII each ask for a separator, which is as one asking.  The map
    of properties is walked in the order of its names. *)
From Stdlib Require Import ZArith QArith Lia Ascii String.
From stdpp Require Import sorting.
From S2P Require Import Prelude GoStrings Json Numeric Schema CheckDoc Retry Definitions.
Open Scope string_scope.
Open Scope list_scope.
Open Scope Z_scope.

Module Config.
Import Definitions.

(** * Names *)

Definition lower (c : ascii) : bool := (97 <=? byte c) && (byte c <=? 122).
Definition upper (c : ascii) : bool := (65 <=? byte c) && (byte c <=? 90).
Definition numeral (c : ascii) : bool := (48 <=? byte c) && (byte c <=? 57).
Definition score : ascii := "_"%char.

(** [sep] on the bytes written so far, the last one first. *)
Definition sep (out : list ascii) : list ascii :=
  match out with [] => [] | c :: _ => if Ascii.eqb c score then out else score :: out end.

(** [byte(r-('a'-'A'))]. *)
Definition to_upper (c : ascii) : ascii := ascii_of_nat (Z.to_nat (byte c - 32)).

(** Whether a capital starts a word: after a small letter or a digit, or before one that
    ends an acronym. *)
Definition boundary (prev : option ascii) (rest : list ascii) : bool :=
  match prev with
  | None => false
  | Some p =>
      lower p || numeral p ||
      (upper p && match rest with c :: _ => lower c | [] => false end)
  end.

Fixpoint token_loop (prev : option ascii) (s out : list ascii) : list ascii :=
  match s with
  | [] => out
  | c :: s =>
      let out :=
        if lower c then to_upper c :: out
        else if numeral c then c :: out
        else if upper c then c :: (if boundary prev s then sep out else out)
        else sep out in
      token_loop (Some c) s out
  end.

Fixpoint drop_scores (out : list ascii) : list ascii :=
  match out with c :: rest => if Ascii.eqb c score then drop_scores rest else out | [] => [] end.

Definition token (s : list ascii) : list ascii := rev (drop_scores (token_loop None s [])).
Definition envToken (s : string) : string := string_of_list_ascii (token (list_ascii_of_string s)).

(** * Values *)

Definition integerLiteral (raw : string) : bool :=
  let digits := TrimPrefix (TrimPrefix raw "-") "+" in
  negb (String.eqb digits "") && all_digits digits.

(** [strconv.ParseBool]. *)
Definition ParseBool (s : string) : option bool :=
  if existsb (String.eqb s) ["1"; "t"; "T"; "TRUE"; "true"; "True"] then Some true
  else if existsb (String.eqb s) ["0"; "f"; "F"; "FALSE"; "false"; "False"] then Some false
  else None.

Section Config.
Context `{Schema.Numbers} `{Apd}.
(** The number a literal is. *)
Context (literal : string -> Schema.num).

Inductive config_error :=
  | NotAnInteger (name shown : string)
  | NotA (name shown typ : string)
  | NotABoolean (name shown : string)
  | Unsupported (name typ : string)
  | Missing (name : string)
  | Invalid (e : Schema.conform_error).

(** A value that is secret is never shown. *)
Definition coerceConfigValue (name typ raw : string) (secret : bool) : result config_error Schema.value :=
  let shown := if secret then "***" else raw in
  if String.eqb typ "" || String.eqb typ "string" then Ok (Schema.VStr raw)
  else if String.eqb typ "integer" || String.eqb typ "number" then
    if String.eqb typ "integer" && negb (integerLiteral raw) then Err (NotAnInteger name shown)
    else
      match Numeric.ToDecimal (Json.Num raw) with
      | Some d =>
          if Numeric.ExceedsMaxDigits d then Err (NotA name shown typ)
          else match Numeric.Format d with
               | Some n => Ok (Schema.VNum (literal n))
               | None => Err (NotA name shown typ)
               end
      | None => Err (NotA name shown typ)
      end
  else if String.eqb typ "boolean" then
    match ParseBool raw with Some b => Ok (Schema.VBool b) | None => Err (NotABoolean name shown) end
  else Err (Unsupported name typ).

Definition propType (prop : Schema.node) : string := match Schema.Types prop with t :: _ => t | [] => "" end.

(** A property of [properties], and whether its own node is marked. *)
Definition property_slot (name : string) : CheckDoc.childSlot := CheckDoc.mkSlot "properties" name (-1) CheckDoc.slotNested.
Definition IsSecret (doc : document) (name : string) : bool :=
  existsb (fun path => match path with
                       | [sl] => String.eqb (CheckDoc.kw sl) "properties" && String.eqb (CheckDoc.key sl) name
                       | _ => false
                       end) (secrets doc).

(** [lookup], an unset variable and an empty one alike. *)
Definition set_in (lookup : string -> option string) (key : string) : option string :=
  match lookup key with Some "" | None => None | Some raw => Some raw end.

Definition globalPrefix : string := "GENROC_GLOBAL_".
Definition procPrefix (process : string) : string := "GENROC_" +:+ envToken process +:+ "_".

(** The raw value of a variable: the process's own, else the server's. *)
Definition raw_value (lookup : string -> option string) (process name : string) : option string :=
  match set_in lookup (procPrefix process +:+ envToken name) with
  | Some raw => Some raw
  | None => set_in lookup (globalPrefix +:+ envToken name)
  end.

(** One property: its value, if it has one. *)
Definition config_value (lookup : string -> option string) (process : string) (doc : document) (name : string)
    (prop : Schema.node) : result config_error (option Schema.value) :=
  match raw_value lookup process name with
  | None =>
      match Schema.Default prop with
      | Some def => Ok (Some def)
      | None => if Schema.isRequired (root doc) name then Err (Missing name) else Ok None
      end
  | Some raw => Some <$> coerceConfigValue name (propType prop) raw (IsSecret doc name)
  end.

Fixpoint config_values (lookup : string -> option string) (process : string) (doc : document)
    (props : list (string * Schema.node)) (out : gmap string Schema.value) : result config_error (gmap string Schema.value) :=
  match props with
  | [] => Ok out
  | (name, prop) :: props =>
      v ← config_value lookup process doc name prop;
      config_values lookup process doc props (match v with Some v => <[name := v]> out | None => out end)
  end.

Definition in_order {A} (m : gmap string A) : list (string * A) :=
  omap (fun k => (k,.) <$> m !! k) (Schema.sortedKeys m).

(** [ResolveConfig]: [None] is a conform of a default that runs out of [fuel]. *)
Definition ResolveConfig (fuel : nat) (d : ProcessDefinition) (lookup : string -> option string)
    : option (result config_error (gmap string Schema.value)) :=
  match ConfigSchema d with
  | None => Some (Ok ∅)
  | Some doc =>
      match config_values lookup (d_name d) doc (in_order (Schema.props (root doc))) ∅ with
      | Err e => Some (Err e)
      | Ok out =>
          match Schema.Validate fuel (own doc) (root doc) (Schema.VObj out) Schema.Strict with
          | None => None
          | Some (Err e) => Some (Err (Invalid e))
          | Some (Ok _) => Some (Ok out)
          end
      end
  end.

End Config.
End Config.
