(* ===== verification/Validate.v ===== *)
(** What a definition is checked for when it is registered, before its types are inferred:
    internal/model/validate.go.

    A failure keeps its rule and the path of the slot it was found in, not the text of the
    message.  The code walks its maps in an order Go leaves open, or sorted; here they are
    sorted.  Retries are checked by [Retry.validateRetry], the keys of [responses] by
    [StatusPattern]. *)
From Stdlib Require Import ZArith QArith Lia Ascii String.
From stdpp Require Import sorting.
From S2P Require Import Prelude GoStrings GoTime DelaySpec ErrCode StatusPattern Json Numeric Syntax Template Schema CheckDoc Retry Definitions Config.
Open Scope string_scope.
Open Scope list_scope.
Open Scope Z_scope.

Module Validate.
Import Definitions.

(** * Failures *)

(** A struct rule: the field as the client wrote it, and the rule. *)
Record FieldError := mkField { Field : string; Rule : string }.

Inductive invalid :=
  | AtPath (path : string) (e : invalid)
  | StructRules (fields : list FieldError)
  (** Documents. *)
  | BadSchema (field : string) (e : CheckDoc.doc_error)
  | OpenSlot (field : string) (e : CheckDoc.doc_error)
  | SecretOutsideConfig (field : string)
  | ConfigNotObject
  | ConfigCombinators
  | ConfigRequired (name : string)
  | ConfigName (name : string)
  | ConfigClash (name key : string)
  | ConfigType (name : string)
  | ConfigUnsupported (name typ : string)
  | ConfigNested (name : string)
  | ConfigSecret (name : string)
  (** Tasks. *)
  | TaskIDShape (id : string)
  | TaskIDTwice (id : string)
  | Required (slot : string)
  | BodyNeverSent (method : string)
  | ForAndUntil
  | ForOrUntil
  | BadTZ (e : DelaySpec.loc_error)
  | UnknownActionType (typ : string)
  | TimeoutUntil
  | TimeoutNotHonoured (typ : string)
  | NotRead (slot typ : string)
  (** Routing. *)
  | SwitchRequired
  | CatchAllNotLast (i : Z)
  | ExactlyOne
  | AtMostOne
  | NextOnLastTask
  | UnknownTask (goto : string)
  | BadGoto (goto : string)
  | NoCatchAll
  | FaultHasDot (code : string)
  | FaultHasPercent (code : string)
  | BadFaultCode (code : string)
  | NoMessage (code : string)
  | RaisedAndPanicked (code : string)
  (** Error rules. *)
  | BadRetryPolicy (e : Retry.retry_error)
  | OnErrorNoEffect
  | EmptyPattern
  | NeverMatches (pat : string)
  | NotReachedOnChild
  | RetryOnOnlyOnceChild
  | CatchAllRetries
  | UnknowableRetries (pat : string)
  | MayHaveExecuted (pat : string)
  | WildcardAsserts (pat : string)
  (** Responses and raises. *)
  | BadResponseKey (key : string) (e : StatusPattern.key_error)
  | StatusTwice (p key : string)
  | NotARaiseCode (code : string).

(** The first failure; [None] is a conform of a default that runs out of fuel. *)
Definition check := option (result invalid unit).
Definition pass : check := Some (Ok ()).
Definition refuse (e : invalid) : check := Some (Err e).
Definition then_ (m k : check) : check :=
  match m with Some (Ok _) => k | Some (Err e) => refuse e | None => None end.
Definition refuse_if (b : bool) (e : invalid) : check := if b then refuse e else pass.
Definition atPath (path : string) (m : check) : check :=
  match m with Some (Err e) => refuse (AtPath path e) | m => m end.
Fixpoint each {A} (f : A -> check) (l : list A) : check :=
  match l with [] => pass | x :: l => then_ (f x) (each f l) end.
(** With the index of the element, and whether it is the last. *)
Fixpoint each_indexed {A} (f : Z -> bool -> A -> check) (i : Z) (l : list A) : check :=
  match l with
  | [] => pass
  | x :: l => then_ (f i (match l with [] => true | _ => false end) x) (each_indexed f (i + 1) l)
  end.

Declare Scope check_scope.
Notation "m ;; k" := (then_ m k) (at level 100, right associativity) : check_scope.
Open Scope check_scope.

(** * Names and codes *)

Definition letter (c : ascii) : bool := Config.lower c || Config.upper c.

(** [^[A-Za-z_][A-Za-z0-9_]*$]. *)
Definition identifier (s : string) : bool :=
  match list_ascii_of_string s with
  | [] => false
  | c :: cs =>
      (letter c || Ascii.eqb c "_") &&
      forallb (fun c => letter c || Config.numeral c || Ascii.eqb c "_") cs
  end.
Definition taskIDRe := identifier.
Definition configNameRe := identifier.

(** [^[a-z][a-z0-9_]*$]. *)
Definition faultCodeRe (s : string) : bool :=
  match list_ascii_of_string s with
  | [] => false
  | c :: cs => Config.lower c && forallb (fun c => Config.lower c || Config.numeral c || Ascii.eqb c "_") cs
  end.
Definition ValidFaultCode := faultCodeRe.

Definition validLikePattern (p : string) : bool := negb (String.eqb (TrimSpace p) "").

(** Up to the first wildcard. *)
Definition patternOnlyMatchesPre (p : string) : bool :=
  match Cut p "%" with
  | Some (before, _) => HasPrefix before ErrCode.NotReached
  | None => HasPrefix p ErrCode.NotReached
  end.

(** Whether a fault's code and message are there and well formed. *)
Definition validateFault (f : option Fault) : check :=
  match f with
  | None => pass
  | Some f =>
      refuse_if (Contains (f_code f) ".") (FaultHasDot (f_code f));;
      refuse_if (Contains (f_code f) "%") (FaultHasPercent (f_code f));;
      refuse_if (negb (faultCodeRe (f_code f))) (BadFaultCode (f_code f));;
      refuse_if (String.eqb (f_message f) "") (NoMessage (f_code f))
  end.

(** How many of goto, raise and panic are set. *)
Definition set_clauses (goto : string) (raise panic : option Fault) : Z :=
  (if String.eqb goto "" then 0 else 1) + (if raise is Some _ then 1 else 0) + (if panic is Some _ then 1 else 0).

Section Validate.
Context `{Schema.Numbers} `{Apd} `{Floats} (Lex : string -> option (list Syntax.Token))
  (zoneinfo : string -> option GoTime.Location) (fuel : nat).

Implicit Types (t : Task) (a : Action) (d : ProcessDefinition) (defs : Schema.defs_t).

(** * Documents *)

Definition CheckDoc_ (field : string) defs (n : Schema.node) : check :=
  match CheckDoc.checkDocRoot fuel defs n with
  | None => None
  | Some (Ok _) => pass
  | Some (Err e) => refuse (BadSchema field e)
  end.

(** [WithMergedDefs]: the document's own definitions win. *)
Definition checkSchemaDocAllowingSecrets (field : string) (s : option document) defs : check :=
  match s with None => pass | Some s => CheckDoc_ field ((own s : gmap string Schema.node) ∪ defs) (root s) end.

Definition checkSchemaDoc (field : string) (s : option document) defs : check :=
  checkSchemaDocAllowingSecrets field s defs;;
  match s with
  | Some s => refuse_if (ContainsSecret s) (SecretOutsideConfig field)
  | None => pass
  end.

Definition checkDeclaredSlotSchema (field : string) (s : option document) defs : check :=
  checkSchemaDoc field s defs;;
  match s with
  | None => pass
  | Some s => match CheckDoc.CheckNoAdditionalProperties (own s) (root s) with
              | None => None
              | Some (Ok _) => pass
              | Some (Err e) => refuse (OpenSlot field e)
              end
  end.

Definition validateDefs (ds : Defs) : check :=
  each (fun name => match pool ds !! name with
                    | Some def => CheckDoc_ ("$defs." +:+ name) (pool ds) def
                    | None => pass
                    end) (Schema.sortedKeys (pool ds)).

(** One property of the config; the variables taken so far. *)
Definition primitive (typ : string) : bool := existsb (String.eqb typ) ["string"; "integer"; "number"; "boolean"].
Definition combinators (n : Schema.node) : bool :=
  negb (Nat.eqb (length (Schema.entries (Schema.OneOf n)) + length (Schema.entries (Schema.AnyOf n)) +
                 length (Schema.entries (Schema.AllOf n))) 0).
Definition has_ref (n : Schema.node) : bool := negb (String.eqb (Schema.Ref n) "").

Fixpoint config_properties (doc : document) (envKeys : list string) (props : list (string * Schema.node)) : check :=
  match props with
  | [] => pass
  | (name, prop) :: props =>
      let key := Config.envToken name in
      refuse_if (negb (configNameRe name)) (ConfigName name);;
      refuse_if (existsb (String.eqb key) envKeys) (ConfigClash name key);;
      match Schema.Types prop with
      | [typ] =>
          refuse_if (negb (primitive typ)) (ConfigUnsupported name typ);;
          refuse_if (negb (Nat.eqb (size (Schema.props prop)) 0) || negb (Schema.isNone (Schema.Items prop)) ||
                     combinators prop || has_ref prop) (ConfigNested name);;
          refuse_if (Config.IsSecret doc name && negb (String.eqb typ "string")) (ConfigSecret name);;
          config_properties doc (envKeys ++ [key]) props
      | _ => refuse (ConfigType name)
      end
  end.

Definition validateConfigSchema (cs : option document) : check :=
  match cs with
  | None => pass
  | Some doc =>
      refuse_if (negb (bool_decide (Schema.Types (root doc) = ["object"]))) ConfigNotObject;;
      refuse_if (combinators (root doc) || has_ref (root doc) || negb (Nat.eqb (size (own doc)) 0)) ConfigCombinators;;
      each (fun r => refuse_if (bool_decide (Schema.props (root doc) !! r = None)) (ConfigRequired r))
        (Schema.entries (Schema.Required (root doc)));;
      config_properties doc [] (Config.in_order (Schema.props (root doc)))
  end.

(** * Actions *)

(** The verb of a method that is no template; only ASCII verbs are asked for. *)
Definition staticMethod (src : string) : option string :=
  match Template.Parse Lex src with
  | Err _ => None
  | Ok tmpl =>
      (fun m => string_of_list_ascii ((fun c => if Config.lower c then Config.to_upper c else c) <$> list_ascii_of_string (TrimSpace m)))
        <$> Template.Static tmpl
  end.

Definition is_type a (typs : list ActionType) : bool := existsb (String.eqb (Type_ a)) typs.

Definition validateActionRequiredFields t : check :=
  match t_action t with
  | None => pass
  | Some a =>
      if is_type a [ActionTypeFetch] then
        refuse_if (String.eqb (URL a) "") (Required "url");;
        refuse_if (String.eqb (Method a) "") (Required "method");;
        match staticMethod (Method a) with
        | Some m => refuse_if (Present (Body a) && (String.eqb m "GET" || String.eqb m "HEAD")) (BodyNeverSent m)
        | None => pass
        end
      else if is_type a [ActionTypeChildMap] then
        refuse_if (Nat.eqb (size (Children a)) 0) (Required "children");;
        each (fun e => refuse_if (String.eqb (e_name (snd e)) "") (Required ("children." +:+ fst e +:+ ".name")))
          (Config.in_order (Children a))
      else if is_type a [ActionTypeChild] then refuse_if (String.eqb (a_name a) "") (Required "name")
      else if is_type a [ActionTypeChildList] then
        refuse_if (String.eqb (a_name a) "") (Required "name");;
        refuse_if (String.eqb (Over a) "") (Required "over")
      else if is_type a [ActionTypeDelay] then
        match Retry.For (a_delay a), Retry.Until (a_delay a) with
        | Some _, Some _ => refuse ForAndUntil
        | None, None => refuse ForOrUntil
        | _, _ =>
            if String.eqb (Retry.TZ (a_delay a)) "" then pass
            else match DelaySpec.LoadLocation zoneinfo (Retry.TZ (a_delay a)) with
                 | Ok _ => pass
                 | Err e => refuse (BadTZ e)
                 end
        end
      else if is_type a [ActionTypeExternal] then pass
      else refuse (UnknownActionType (Type_ a))
  end.

Definition validateTimeout t : check :=
  match t_action t with
  | None => pass
  | Some a =>
      if Retry.timeout_IsZero (a_timeout a) then pass
      else if is_type a [ActionTypeFetch] then
        refuse_if (negb (Schema.isNone (Retry.Until (a_timeout a)))) TimeoutUntil
      else if is_type a [ActionTypeExternal] then pass
      else refuse (TimeoutNotHonoured (Type_ a))
  end.

(** The first of the slots that are set. *)
Definition not_read a (slots : list (string * bool)) : check :=
  each (fun s => refuse_if (snd s) (NotRead (fst s) (Type_ a))) slots.

Definition validateDelayOnlySlots t : check :=
  match t_action t with
  | None => pass
  | Some a =>
      if is_type a [ActionTypeDelay] then pass
      else not_read a [("for", negb (Schema.isNone (Retry.For (a_delay a))));
                       ("until", negb (Schema.isNone (Retry.Until (a_delay a))));
                       ("tz", negb (String.eqb (Retry.TZ (a_delay a)) ""))]
  end.

(** A slot of the child family, and the types that read it. *)
Definition child_slots a : list (string * bool * list ActionType) :=
  [("name", negb (String.eqb (a_name a) ""), [ActionTypeChild; ActionTypeChildList]);
   ("version", negb (a_version a =? 0), [ActionTypeChild; ActionTypeChildList]);
   ("input", Present (a_input a), [ActionTypeChild; ActionTypeExternal]);
   ("children", negb (Nat.eqb (size (Children a)) 0), [ActionTypeChildMap]);
   ("over", negb (String.eqb (Over a) ""), [ActionTypeChildList]);
   ("result_schema", negb (Schema.isNone (a_result_schema a)),
      [ActionTypeChild; ActionTypeChildList; ActionTypeExternal; ActionTypeFetch])].

Definition validateChildSlots t : check :=
  match t_action t with
  | None => pass
  | Some a => not_read a ((fun '(name, set, owners) => (name, set && negb (is_type a owners))) <$> child_slots a)
  end.

Definition validateFetchOnlySlots t : check :=
  match t_action t with
  | None => pass
  | Some a =>
      if is_type a [ActionTypeFetch] then pass
      else not_read a [("url", negb (String.eqb (URL a) "")); ("method", negb (String.eqb (Method a) ""));
                       ("headers", Present (Headers a)); ("query", Present (Query a));
                       ("accepted_status", Present (AcceptedStatus a));
                       ("body_schema", negb (Schema.isNone (BodySchema a)));
                       ("query_schema", negb (Schema.isNone (QuerySchema a)))]
  end.

Definition validateInputSchemaPlacement t : check :=
  match t_action t with
  | None => pass
  | Some a =>
      if Schema.isNone (a_input_schema a) then pass
      else if is_type a [ActionTypeChild; ActionTypeChildList; ActionTypeExternal] then pass
      else refuse (NotRead "input_schema" (Type_ a))
  end.

(** One key of [responses] after another: its patterns, its duplicates, its document. *)
Fixpoint response_keys (rs : gmap string (option document)) defs (keys : list string) (owner : list string) : check :=
  match keys with
  | [] => pass
  | key :: keys =>
      match StatusPattern.ParseResponseKey key with
      | Err e => refuse (BadResponseKey key e)
      | Ok patterns =>
          match List.find (fun p => bool_decide (p ∈ owner)) patterns with
          | Some p => refuse (StatusTwice p key)
          | None =>
              atPath ("action.responses." +:+ key)
                (checkSchemaDoc ("action.responses." +:+ key) (default None (rs !! key)) defs);;
              response_keys rs defs keys (owner ++ patterns)
          end
      end
  end.

Definition validateResponses t defs : check :=
  match t_action t with
  | None => pass
  | Some a =>
      if negb (is_type a [ActionTypeFetch]) then
        refuse_if (negb (Nat.eqb (size (Responses a)) 0)) (NotRead "responses" (Type_ a))
      else
        refuse_if (negb (Schema.isNone (a_result_schema a))) (NotRead "result_schema" (Type_ a));;
        response_keys (Responses a) defs (Schema.sortedKeys (Responses a)) []
  end.

Definition checkRaisesDoc (path : string) (r : Raises) defs : check :=
  each (fun code =>
    refuse_if (negb (faultCodeRe code)) (NotARaiseCode code);;
    match r !! code with
    | Some (Some sc) => atPath (path +:+ "." +:+ code) (checkSchemaDoc (path +:+ "." +:+ code) (Some sc) defs)
    | _ => pass
    end) (Schema.sortedKeys r).

Definition validateRaises t defs : check :=
  match t_action t with
  | None => pass
  | Some a =>
      let declared := negb (Nat.eqb (size (a_raises a)) 0) in
      if is_type a [ActionTypeChild; ActionTypeChildList; ActionTypeExternal] || (is_type a [ActionTypeChildMap] && negb declared)
      then
        checkRaisesDoc "action.raises" (a_raises a) defs;;
        each (fun e => checkRaisesDoc ("action.children." +:+ fst e +:+ ".raises") (e_raises (snd e)) defs)
          (Config.in_order (Children a))
      else refuse_if declared (NotRead "raises" (Type_ a))
  end.

Definition validateActionSchemas t defs : check :=
  atPath "output_schema" (checkDeclaredSlotSchema "output_schema" (t_output_schema t) defs);;
  match t_action t with
  | None => pass
  | Some a =>
      let slot name s := atPath ("action." +:+ name) (checkDeclaredSlotSchema ("action." +:+ name) s defs) in
      atPath "action.result_schema" (checkSchemaDoc "action.result_schema" (a_result_schema a) defs);;
      slot "body_schema" (BodySchema a);;
      slot "query_schema" (QuerySchema a);;
      slot "input_schema" (a_input_schema a);;
      (if is_type a [ActionTypeChildMap] then
         each (fun e =>
           let at_ name := "action.children." +:+ fst e +:+ "." +:+ name in
           atPath (at_ "result_schema") (checkSchemaDoc (at_ "result_schema") (e_result_schema (snd e)) defs);;
           atPath (at_ "input_schema") (checkDeclaredSlotSchema (at_ "input_schema") (e_input_schema (snd e)) defs))
           (Config.in_order (Children a))
       else pass);;
      validateInputSchemaPlacement t
  end.

(** * Routing *)

Definition known (ids : gset string) (id : string) : bool := bool_decide (id ∈ ids).

Definition switch_case (ids : gset string) (taskIdx lastIdx : Z) (i : Z) (isLast : bool) (c : SwitchCase) : check :=
  atPath ("switch." +:+ FormatInt i) (
    refuse_if (String.eqb (sc_case c) "" && negb isLast) (CatchAllNotLast i);;
    refuse_if (negb (set_clauses (sc_goto c) (sc_raise c) (sc_panic c) =? 1)) ExactlyOne;;
    validateFault (sc_raise c);;
    validateFault (sc_panic c);;
    if String.eqb (sc_goto c) "" then pass
    else if String.eqb (sc_goto c) GotoEnd then pass
    else if String.eqb (sc_goto c) GotoNext then refuse_if (taskIdx =? lastIdx) NextOnLastTask
    else match strip_prefix "$" (sc_goto c) with
         | Some id => refuse_if (negb (known ids id)) (UnknownTask (sc_goto c))
         | None => refuse (BadGoto (sc_goto c))
         end).

Definition validateSwitch t (ids : gset string) (taskIdx lastIdx : Z) : check :=
  match Switch t with
  | [] => refuse SwitchRequired
  | cases =>
      each_indexed (switch_case ids taskIdx lastIdx) 0 cases;;
      match last cases with
      | Some c => refuse_if (negb (String.eqb (sc_case c) "")) NoCatchAll
      | None => pass
      end
  end.

(** * What an error rule may name *)

Definition actionTypeOf t : ActionType := match t_action t with Some a => Type_ a | None => "" end.

Definition isChildTask t : bool :=
  match t_action t with
  | Some a => is_type a [ActionTypeChild; ActionTypeChildMap; ActionTypeChildList]
  | None => false
  end.

Definition CatchableKinds (typ : ActionType) (onlyOnce : bool) : ErrCode.Kind :=
  let once k := if onlyOnce then Z.lor k ErrCode.KindOnlyOnce else k in
  if String.eqb typ ActionTypeFetch then once ErrCode.KindFetch
  else if String.eqb typ ActionTypeExternal then once ErrCode.KindExternal
  else if existsb (String.eqb typ) [ActionTypeChild; ActionTypeChildMap; ActionTypeChildList] then ErrCode.KindChild
  else 0.

(** The codes a pattern is matched against; the list a message shows is left out. *)
Definition catchableVocabulary t (kinds : ErrCode.Kind) : list ErrCode.Code :=
  (if Z.land kinds ErrCode.KindFetch =? 0 then [] else ErrCode.HTTP <$> seqZ 100 500) ++
  (ErrCode.info_code <$> ErrCode.Catchable kinds) ++
  (match t_action t with
   | Some a => if is_type a [ActionTypeExternal] then Schema.sortedKeys (a_raises a) else []
   | None => []
   end).

Definition matchesAnyCode (pattern : string) (probe : list ErrCode.Code) : bool :=
  existsb (ErrCode.MatchCode pattern) probe.

Definition declaredCatchList a : option (list string) :=
  if is_type a [ActionTypeChild; ActionTypeChildList] then
    if Nat.eqb (size (a_raises a)) 0 then None else Some (Schema.sortedKeys (a_raises a))
  else if is_type a [ActionTypeChildMap] then
    let entries := snd <$> Config.in_order (Children a) in
    if existsb (fun e => Nat.eqb (size (e_raises e)) 0) entries then None
    else
      let union : gset string := ⋃ ((fun e => dom (e_raises e)) <$> entries) in
      if Nat.eqb (size union) 0 then None else Some (merge_sort String.le (elements union))
  else None.

(** [whetherOnlyOnceIsSet] is true whatever the task says. *)
Definition probe_of t : list ErrCode.Code :=
  if negb (isChildTask t) then catchableVocabulary t (CatchableKinds (actionTypeOf t) true)
  else match t_action t with
       | Some a => match declaredCatchList a with
                   | Some declared => declared ++ [ErrCode.ResultInvalid]
                   | None => []
                   end
       | None => []
       end.

(** * Error rules *)

(** The tiers of a rule that retries on a task that runs at most once. *)
Definition tier (notReached : bool) (pat : string) : check :=
  refuse_if (ErrCode.IsUnknowable pat) (UnknowableRetries pat);;
  if patternOnlyMatchesPre pat then pass
  else
    refuse_if (negb notReached) (MayHaveExecuted pat);;
    refuse_if (Contains pat "%") (WildcardAsserts pat).

Definition only_once_tiers (e : ErrorCase) : check :=
  refuse_if (match ec_code e with [] => true | _ => false end) CatchAllRetries;;
  each (tier (isSet (ec_not_reached e))) (ec_code e).

Definition retries (e : ErrorCase) : bool :=
  Retry.number_IsExpr (Retry.Retries (ec_retry e)) || negb (Qle_bool (Retry.n (Retry.Retries (ec_retry e))) 0).

Definition rule_pattern (probe : list ErrCode.Code) (pat : string) : check :=
  refuse_if (negb (validLikePattern pat)) EmptyPattern;;
  refuse_if (match probe with [] => false | _ => negb (matchesAnyCode pat probe) end) (NeverMatches pat).

Definition error_rule t (ids : gset string) (probe : list ErrCode.Code) (i : Z) (isLast : bool) (e : ErrorCase) : check :=
  atPath ("on_error." +:+ FormatInt i) (
    refuse_if (1 <? set_clauses (ec_goto e) (ec_raise e) (ec_panic e)) AtMostOne;;
    validateFault (ec_raise e);;
    validateFault (ec_panic e);;
    each (rule_pattern probe) (ec_code e);;
    refuse_if (match ec_code e with [] => true | _ => false end && String.eqb (ec_case e) "" && negb isLast)
      (CatchAllNotLast i);;
    refuse_if (negb (String.eqb (ec_goto e) "") && negb (String.eqb (ec_goto e) GotoEnd) && negb (known ids (ec_goto e)))
      (UnknownTask (ec_goto e));;
    if isChildTask t then
      refuse_if (negb (Schema.isNone (ec_not_reached e))) NotReachedOnChild;;
      refuse_if (isSet (OnlyOnce t) && negb (Retry.IsZero (ec_retry e))) RetryOnOnlyOnceChild
    else
      match Retry.validateRetry (ec_retry e) with
      | Err err => refuse (BadRetryPolicy err)
      | Ok _ => if isSet (OnlyOnce t) && retries e then only_once_tiers e else pass
      end).

Definition validateOnError t (ids : gset string) : check :=
  let probe := probe_of t in
  refuse_if (match OnError t, probe with _ :: _, [] => negb (isChildTask t) | _, _ => false end) OnErrorNoEffect;;
  each_indexed (error_rule t ids probe) 0 (OnError t).

(** * The definition *)

Definition validateTask (ids : gset string) (lastIdx : Z) defs (taskIdx : Z) t : check :=
  validateActionRequiredFields t;;
  validateTimeout t;;
  validateSwitch t ids taskIdx lastIdx;;
  validateOnError t ids;;
  validateFetchOnlySlots t;;
  validateDelayOnlySlots t;;
  validateResponses t defs;;
  validateChildSlots t;;
  validateRaises t defs;;
  validateActionSchemas t defs.

(** A code panicked that some task raises. *)
Definition validateFaultCodeKinds d : check :=
  let raisedBy := tasks d ≫= raised_in in
  each (fun code => refuse_if (existsb (String.eqb code) raisedBy) (RaisedAndPanicked code)) (tasks d ≫= panicked_in).

(** The struct tags: a name, a task, and an id in every task. *)
Definition struct_task (i : Z) (t : option Task) : list FieldError :=
  let at_ := "tasks[" +:+ FormatInt i +:+ "]" in
  match t with
  | None => [mkField at_ "required"]
  | Some t => if String.eqb (ID t) "" then [mkField (at_ +:+ ".id") "required"] else []
  end.
Fixpoint struct_tasks (i : Z) (l : list (option Task)) : list FieldError :=
  match l with [] => [] | t :: l => struct_task i t ++ struct_tasks (i + 1) l end.
Definition struct_rules d : list FieldError :=
  (if String.eqb (d_name d) "" then [mkField "name" "required"] else []) ++
  match Tasks d with
  | None => [mkField "tasks" "required"]
  | Some [] => [mkField "tasks" "min"]
  | Some l => struct_tasks 0 l
  end.

(** The ids one by one, with those already seen. *)
Fixpoint check_ids (seen : gset string) (l : list Task) : check :=
  match l with
  | [] => pass
  | t :: l =>
      atPath ("tasks." +:+ ID t)
        (refuse_if (negb (taskIDRe (ID t))) (TaskIDShape (ID t));; refuse_if (known seen (ID t)) (TaskIDTwice (ID t)));;
      check_ids ({[ID t]} ∪ seen) l
  end.

Definition Validate d : check :=
  let defs := pool (d_defs d) in
  let ids := list_to_set (ID <$> tasks d) in
  refuse_if (match struct_rules d with [] => false | _ => true end) (StructRules (struct_rules d));;
  atPath "$defs" (validateDefs (d_defs d));;
  atPath "input_schema" (checkSchemaDoc "input_schema" (d_input_schema d) defs);;
  atPath "config_schema" (checkSchemaDocAllowingSecrets "config_schema" (ConfigSchema d) ∅);;
  atPath "config_schema" (validateConfigSchema (ConfigSchema d));;
  atPath "output_schema" (checkDeclaredSlotSchema "output_schema" (d_output_schema d) defs);;
  check_ids ∅ (tasks d);;
  each_indexed (fun i _ t => atPath ("tasks." +:+ ID t)
    (validateTask ids (Z.of_nat (length (tasks d)) - 1) defs i t)) 0 (tasks d);;
  validateFaultCodeKinds d.

End Validate.
(** * A definition that passes *)

Module Demo.

#[local] Existing Instance Numeric.integers.
#[local] Existing Instance Retry.halves.
#[local] Instance whole : Schema.Numbers := {|
  Schema.num := Z; Schema.ToDecimal x := Some (inject_Z x); Schema.RoundToIntegralValue q := Some q;
  Schema.Float64 _ := true |}.

Definition leaf (typ : string) : Schema.node :=
  Schema.mkNode [typ] None None None None None None None None None None None None None None "" None.
Definition object_of (props : gmap string Schema.node) : document :=
  mkDocument (Schema.mkNode ["object"] (Some props) None None None None None None None None None None None None None "" None) ∅ [].

Definition no_action : Action :=
  mkAction "" "" "" None None None ∅ None ∅ "" 0 None None None None None ∅ "" Retry.no_timeout Retry.no_timeout.
Definition fetch : Action :=
  mkAction ActionTypeFetch "https://api" "post" None None None {["2xx" := Some (object_of {["id" := leaf "string"]})]}
    None ∅ "" 0 (Some (Json.Str "$: input")) None None None None ∅ "" Retry.no_timeout Retry.no_timeout.
Definition confirm : Action :=
  mkAction ActionTypeExternal "" "" None None None ∅ None {["declined" := None]} "" 0 None None None None None ∅ ""
    Retry.no_timeout Retry.no_timeout.
Definition ship : Action :=
  mkAction ActionTypeChild "" "" None None None ∅ None {["lost" := None]} "shipping" 0 None None None None None ∅ ""
    Retry.no_timeout Retry.no_timeout.

Definition thrice : Retry.Retry := Retry.mkRetry (Retry.RetryCount 3) Retry.absent Retry.zero_number Retry.absent.
Definition once : Retry.Retry := Retry.zero.

(** Charges at most once, waits for a confirmation, ships. *)
Definition charge_rule : ErrorCase := mkError ["pre.%"; "http.503"] "" thrice "refused" None None (Some true).
Definition charge : Task :=
  mkTask "charge" (Some fetch) (Some true) [charge_rule; mkError [] "" once "" None (Some (mkFault "broken" "no" None)) None]
    None None [mkSwitch "self.ok" "$confirm" None None; mkSwitch "" "next" None None].
Definition refused : Task :=
  mkTask "refused" None None [] None None [mkSwitch "" "" (Some (mkFault "unpaid" "refused" None)) None].
Definition confirm_task : Task :=
  mkTask "confirm" (Some confirm) None [mkError ["declined"; "external.timeout"] "" once "charge" None None None] None None
    [mkSwitch "" "next" None None].
Definition ship_task : Task :=
  mkTask "ship" (Some ship) (Some true) [mkError ["lost"] "" once "end" None None None] None None [mkSwitch "" "end" None None].

Definition order : ProcessDefinition :=
  mkDefinition "order" (Some (Some <$> [charge; refused; confirm_task; ship_task]))
    (Some (object_of {["amount" := leaf "integer"]})) (Some (object_of {["apiKey" := leaf "string"]})) (mkDefs ∅ [])
    None None.

Definition check_order : check := Validate Retry.no_lex (fun _ => None) 10 order.
Lemma order_passes : check_order = pass.
Proof. by vm_compute. Qed.

(** The mistakes registration names, one at a time. *)
Definition with_tasks (l : list Task) : ProcessDefinition :=
  mkDefinition "order" (Some (Some <$> l)) None None (mkDefs ∅ []) None None.
Definition result_of (l : list Task) : check := Validate Retry.no_lex (fun _ => None) 10 (with_tasks l).
Definition routed_by (cases : list SwitchCase) : Task := mkTask "a" None None [] None None cases.

Example twice_refused : result_of [refused; refused] = refuse (AtPath "tasks.refused" (TaskIDTwice "refused")).
Proof. by vm_compute. Qed.
Example next_refused : result_of [routed_by [mkSwitch "" "next" None None]] =
  refuse (AtPath "tasks.a" (AtPath "switch.0" NextOnLastTask)).
Proof. by vm_compute. Qed.
Example reserved_refused : result_of [routed_by [mkSwitch "" "" (Some (mkFault "http.500" "m" None)) None]] =
  refuse (AtPath "tasks.a" (AtPath "switch.0" (FaultHasDot "http.500"))).
Proof. by vm_compute. Qed.
Example wildcard_refused :
  result_of [mkTask "a" (Some fetch) (Some true) [mkError ["http.%"] "" thrice "" None None (Some true)] None None
               [mkSwitch "" "end" None None]] =
  refuse (AtPath "tasks.a" (AtPath "on_error.0" (WildcardAsserts "http.%"))).
Proof. by vm_compute. Qed.

(** A secret in the definitions of the process is not refused, although one anywhere else
    outside the config is. *)
Definition hidden : list (list CheckDoc.childSlot) := [[CheckDoc.mkSlot "$defs" "Card" (-1) CheckDoc.slotDefs]].
Example secret_in_defs :
  Validate Retry.no_lex (fun _ => None) 10
    (mkDefinition "order" (Some [Some refused]) None None (mkDefs {["Card" := leaf "string"]} hidden) None None) = pass.
Proof. by vm_compute. Qed.
Example secret_in_input :
  Validate Retry.no_lex (fun _ => None) 10
    (mkDefinition "order" (Some [Some refused])
       (Some (mkDocument (root (object_of {["Card" := leaf "string"]})) ∅ [[Config.property_slot "Card"]])) None
       (mkDefs ∅ []) None None) =
  refuse (AtPath "input_schema" (SecretOutsideConfig "input_schema")).
Proof. by vm_compute. Qed.

(** The rules of a child task are left before their retries are checked: a ceiling shorter
    than its delay passes there and is refused on any other task. *)
Definition inverted : Retry.Retry :=
  Retry.mkRetry (Retry.RetryCount 3) (Retry.mkRetryDuration (Some (Json.Str "2s")) (2 * GoTime.Second) "") Retry.zero_number
    (Retry.mkRetryDuration (Some (Json.Str "1s")) GoTime.Second "").
Definition child_rule (r : Retry.Retry) : check :=
  result_of [mkTask "a" (Some ship) None [mkError ["lost"] "" r "end" None None None] None None [mkSwitch "" "end" None None]].
Example child_retry_unchecked : child_rule inverted = pass /\ Retry.validateRetry inverted = Err Retry.ShortCeiling.
Proof. split; by vm_compute. Qed.

End Demo.
End Validate.
