(* ===== verification/Registered.v ===== *)
(** What registration promises the engine: a definition that passes [Validate] and the advance
    of its instances ([Engine]), and the retries of tasks that run at most once. *)
From Stdlib Require Import ZArith QArith Lia Ascii String.
From stdpp Require Import sorting.
From S2P Require Import Prelude GoStrings GoTime ErrCode Json Numeric Syntax Schema CheckDoc Retry Definitions Config Validate Instance Store Lifecycle External Engine.
Open Scope string_scope.
Open Scope list_scope.
Open Scope Z_scope.

Module Registered.
Import Definitions Validate.

(** * Chains of checks *)

Lemma chain_pass m k : then_ m k = pass <-> m = pass /\ k = pass.
Proof. destruct m as [[[]|]|]; cbn; unfold pass, refuse; split; try done; try tauto; by intros [? _]. Qed.

Lemma refuse_if_pass b e : refuse_if b e = pass <-> b = false.
Proof. by destruct b. Qed.

Lemma atPath_pass p m : atPath p m = pass <-> m = pass.
Proof. by destruct m as [[[]|]|]. Qed.

Lemma each_pass {A} (f : A -> check) l : each f l = pass <-> forall x, x ∈ l -> f x = pass.
Proof.
  induction l as [|x l IH]; cbn.
  - split; [by intros _ x ?%elem_of_nil|done].
  - rewrite chain_pass, IH. split.
    + by intros [Hx Hl] y [->|Hy]%elem_of_cons; [|apply Hl].
    + intros Ha. split; [apply Ha, list_elem_of_here|]. intros y Hy. by apply Ha, list_elem_of_further.
Qed.

Lemma each_indexed_pass {A} (f : Z -> bool -> A -> check) l i : each_indexed f i l = pass <->
  forall n x, l !! n = Some x -> f (i + Z.of_nat n) (bool_decide (S n = length l)) x = pass.
Proof.
  revert i. induction l as [|x l IH]; intros i; cbn [each_indexed].
  - split; [by intros _ n x; rewrite lookup_nil|done].
  - rewrite chain_pass, IH. split.
    + intros [Hx Hl] [|n] y Hy; cbn in Hy.
      * injection Hy as <-. rewrite Z.add_0_r. replace (bool_decide _) with (match l with [] => true | _ => false end); [done|].
        destruct l; symmetry; [by apply bool_decide_eq_true|by apply bool_decide_eq_false].
      * specialize (Hl n y Hy). replace (i + Z.of_nat (S n)) with (i + 1 + Z.of_nat n) by lia.
        replace (bool_decide _) with (bool_decide (S n = length l)); [done|]. apply bool_decide_ext. cbn. lia.
    + intros Ha. split.
      * specialize (Ha 0%nat x eq_refl). rewrite Z.add_0_r in Ha.
        replace (match l with [] => true | _ => false end) with (bool_decide (1%nat = length (x :: l))); [done|].
        destruct l; [by apply bool_decide_eq_true|by apply bool_decide_eq_false].
      * intros n y Hy. specialize (Ha (S n) y Hy). replace (i + 1 + Z.of_nat n) with (i + Z.of_nat (S n)) by lia.
        replace (bool_decide (S n = length l)) with (bool_decide (S (S n) = length (x :: l))); [done|].
        apply bool_decide_ext. cbn. lia.
Qed.

Lemma nth_error_lookup {A} (l : list A) n : nth_error l n = l !! n.
Proof. revert l. induction n as [|n IH]; intros [|x l]; cbn; auto. Qed.

(** Takes a chain of checks that passed apart. *)
Ltac passes H := repeat (first [rewrite chain_pass in H | rewrite refuse_if_pass in H | rewrite atPath_pass in H]).

(** * Names and codes *)

Lemma fault_code_no_dot s : faultCodeRe s = true -> Contains s "." = false.
Proof.
  assert (L : forall cs, forallb (fun c => Config.lower c || Config.numeral c || Ascii.eqb c "_") cs = true ->
    Cut (string_of_list_ascii cs) "." = None).
  { induction cs as [|c cs IH]; [done|]. cbn. intros [Hc Hs]%andb_true_iff. rewrite IH by done.
    destruct (Ascii.eqb_spec c ".") as [->|]; done. }
  unfold faultCodeRe, Contains. destruct (list_ascii_of_string s) as [|c cs] eqn:E; [done|]. intros [Hc Hs]%andb_true_iff.
  rewrite <- (string_of_list_ascii_of_string s), E. rewrite L; [done|]. cbn. by rewrite Hc.
Qed.

(** * Advancing a routed definition *)

Module Routed.
Import ErrCode.ErrCode Instance.Instance Store.Store Lifecycle.Lifecycle External.External Engine.Engine.

(** A clause's own code is none of the engine's. *)
Definition authored (f : option Engine.Fault) : Prop := match f with Some f => f_code f <> EngineDefinition | None => True end.

Definition names_task (ids : gset string) (def : ProcessDefinition) : Prop := forall g, g ∈ ids -> 0 <= taskIndex (Tasks def) g.

Record rule_routed (ids : gset string) (c : ErrorCase) : Prop := {
  rule_goto : ec_goto c = "" \/ ec_goto c = GotoEnd \/ ec_goto c ∈ ids;
  rule_raise : authored (ec_raise c);
  rule_panic : authored (ec_panic c) }.

(** A case routes or ends: where it neither raises nor panics, its goto leads somewhere. *)
Record case_routed (ids : gset string) (def : ProcessDefinition) (idx : Z) (c : SwitchCase) : Prop := {
  case_raise : authored (sc_raise c);
  case_panic : authored (sc_panic c);
  case_goto : sc_raise c = None -> sc_panic c = None ->
    sc_goto c = GotoEnd \/ (sc_goto c = GotoNext /\ is_Some (task_at (Tasks def) (idx + 1))) \/
    exists id, sc_goto c = String "$" id /\ id ∈ ids }.

Record task_routed (ids : gset string) (def : ProcessDefinition) (idx : Z) (t : Task) : Prop := {
  routed_id : ID t ∈ ids;
  routed_rules : Forall (rule_routed ids) (OnError t);
  routed_cases : Forall (case_routed ids def idx) (Switch t);
  routed_last : exists c, last (Switch t) = Some c /\ sc_case c = "" }.

(** Every task of the definition is routed, and its ids are those of its tasks. *)
Record definition_routed (ids : gset string) (def : ProcessDefinition) : Prop := {
  routed_tasks idx t : task_at (Tasks def) idx = Some t -> task_routed ids def idx t;
  routed_ids : names_task ids def }.

Section Advance.
Context {V : Type} (E : env V).

Implicit Types (i : ProcessInstance) (t : Task) (first : row) (s : DBState).

(** The codes reported to an advance from outside are not the one it keeps for a broken
    definition. *)
Record foreign_codes : Prop := {
  fetch_codes i t : match executeAction E i t with
                    | FetchRefused code _ | FetchFailed code _ _ => code <> EngineDefinition
                    | FetchDone _ _ => True
                    end;
  answer_codes o : match decodeOutcome E o with Refused code _ _ => code <> EngineDefinition | Answered _ => True end }.

Context (ids : gset string) (def : ProcessDefinition).
Context (Hdef : definition_routed ids def) (Hcodes : foreign_codes).

(** The instance runs [def]. *)
Definition runs (i : ProcessInstance) : Prop := definition E (process_name i) (process_version i) = Some def.

(** A task of the definition has a batch whose child cannot be had: the version or the
    definition of the process it calls does not load. *)
Definition unspawnable : Prop := exists i t msg, runs i /\ t ∈ Tasks def /\ task i = ID t /\
  batch E i t = Err (EngineDefinition, msg).

(** Where an advance may leave it: not broken, but by a child that cannot be had, and at a
    task if it still runs. *)
Definition sound (i : ProcessInstance) : Prop :=
  (error_code i = EngineDefinition -> unspawnable) /\ (status i = StatusRunning -> task i ∈ ids).
Definition at_task (i : ProcessInstance) : Prop := runs i /\ error_code i <> EngineDefinition /\ task i ∈ ids.

Lemma foreign_sound i : error_code i <> EngineDefinition -> (status i = StatusRunning -> task i ∈ ids) -> sound i.
Proof using. by intros He Ht. Qed.

Lemma at_task_sound i : at_task i -> sound i.
Proof using. intros (_ & He & Ht). by apply foreign_sound. Qed.

Lemma fail_sound i code msg : code <> EngineDefinition -> sound (failInstance i code msg).1.
Proof using. intros. by apply foreign_sound. Qed.

Lemma raise_sound i t f self : f_code f <> EngineDefinition -> sound (raiseInstance E i t f self).1.
Proof using. intros H. unfold raiseInstance. destruct (faultData E i f self); [by apply foreign_sound|by apply fail_sound]. Qed.

Lemma panic_sound i t f self : f_code f <> EngineDefinition -> sound (panicInstance E i t f self).1.
Proof using. intros H. unfold panicInstance. destruct (faultData E i f self); [by apply foreign_sound|by apply fail_sound]. Qed.

Lemma completed_sound i : error_code i <> EngineDefinition -> status i = StatusCompleted -> sound (completed E i).1.
Proof using.
  intros He Hs. unfold completed, computeOutput. destruct (definition _ _ _) as [d|]; cbn; [|by apply fail_sound].
  assert (sound i) by (apply foreign_sound; [done|by rewrite Hs]).
  destruct (HasOutput d); [|done]. unfold mbind, result_bind.
  destruct (evalOutput _ _ _) as [out|[[] e]]; [done|by apply fail_sound..].
Qed.

Lemma put_sound k v i : sound (put_slot E k v i) <-> sound i.
Proof using. done. Qed.
Lemma put_at k v i : at_task (put_slot E k v i) <-> at_task i.
Proof using. done. Qed.

Lemma goto_found i g : runs i -> g ∈ ids -> resolveGoto E i g = None.
Proof using Hdef.
  intros Hr Hg. unfold resolveGoto. rewrite Hr. apply (routed_ids _ _ Hdef) in Hg.
  by rewrite (proj2 (Z.ltb_ge _ _) Hg).
Qed.

(** What a matched rule does: the part the two error paths share. *)
Lemma clause_sound i t c self none : at_task i -> rule_routed ids c -> sound none.1 ->
  sound (match ec_raise c, ec_panic c with
         | Some f, _ => raiseInstance E i t f self
         | None, Some f => panicInstance E i t f self
         | None, None =>
             if String.eqb (ec_goto c) "" then none
             else if String.eqb (ec_goto c) GotoEnd then completeViaErrorHandler E i
             else match resolveGoto E i (ec_goto c) with
                  | Some e => failInstance i EngineDefinition e
                  | None => (on_work (fun w => w_wake None (w_retry 0 w)) (enterTask (ec_goto c) i), outcomeUpdate)
                  end
         end).1.
Proof using Hdef.
  intros (Hr & He & Ht) [Hg Ha Hb] Hn. destruct (ec_raise c) as [f|]; [by apply raise_sound|].
  destruct (ec_panic c) as [f|]; [by apply panic_sound|].
  destruct (String.eqb_spec (ec_goto c) ""); [done|]. destruct (String.eqb_spec (ec_goto c) GotoEnd).
  - by apply completed_sound.
  - destruct Hg as [|[|Hg]]; [done..|]. rewrite goto_found by done. by apply foreign_sound.
Qed.

Lemma matched_routed rules code eval c : Forall (rule_routed ids) rules ->
  matchOnErrorWith rules code eval = Ok (Some c) -> rule_routed ids c.
Proof using.
  induction 1 as [|r rules Hr Hrs IH]; [done|]. cbn. destruct (negb _); [done|]. destruct (String.eqb _ _); [by intros [= <-]|].
  destruct (eval _) as [[]|]; [by intros [= <-]|done|done].
Qed.

Lemma handle_sound i t msg code data : at_task i -> Forall (rule_routed ids) (OnError t) -> code <> EngineDefinition ->
  sound (handleCallErrorWith E i t msg code data).1.
Proof using Hdef.
  intros Hi Hrs Hc. unfold handleCallErrorWith.
  destruct (matchOnErrorWith _ _ _) as [m|] eqn:Em; [|by apply fail_sound].
  destruct (policy_of _ _ _ _) as [p|]; [|by apply fail_sound].
  destruct ((_ <? _) && _); [by apply at_task_sound in Hi|].
  unfold handle_clause. destruct m as [c|]; cbn zeta.
  - pose proof (matched_routed _ _ _ _ Hrs Em) as Hr.
    pose proof (clause_sound (bindCaught E (errorValue E (ID t) msg code data) i) t c
      (selfBeforeOutput E (bindCaught E (errorValue E (ID t) msg code data) i))
      (failInstance (bindCaught E (errorValue E (ID t) msg code data) i) code
         (Sprintf E "task %q: %s: %s" [ID t; code; msg])) Hi Hr (fail_sound _ _ _ Hc)) as Hs.
    destruct (match ec_raise c with Some _ => _ | None => _ end) as [i' o]. exact Hs.
  - by apply foreign_sound.
Qed.

(** * Children *)

(** The instance stands at the task. *)
Definition stands (i : ProcessInstance) (t : Task) : Prop := t ∈ Tasks def /\ task i = ID t.

Lemma build_sound i t st : runs i -> stands i t -> buildChildren E i t = inr st -> sound st.1.
Proof using.
  intros Hr [Ht Et]. unfold buildChildren. destruct (batch E i t) as [|[code msg]] eqn:Eb; [done|].
  intros [= <-]. destruct (decide (code = EngineDefinition)) as [->|]; [|by apply fail_sound].
  split; [|done]. intros _. by exists i, t, msg.
Qed.

Lemma admit_sound override i t raised fresh retired children st : runs i -> stands i t ->
  admit_slots E override i t raised fresh retired children = inr st -> sound st.1.
Proof using.
  intros Hr Hi.
  revert fresh retired children. induction raised as [|c raised IH]; intros fresh retired children; [done|]. cbn [admit_slots].
  destruct (slotError E t c) as [[code errVal]|e]; [|intros [= <-]; by apply fail_sound]. cbn zeta.
  assert (Hgo : forall p, match fresh_once E fresh i t with
    | inr failed => inr failed
    | inl fr => match respawnChild E c fr (spawnAttempt E (cols c) + 1) p with
                | None => inr (failInstance i EngineSpawn (Sprintf E "task %q retry" [ID t]))
                | Some child => admit_slots E override i t raised (Some fr) (retired ++ [id c]) (children ++ [child])
                end
    end = inr st -> sound st.1).
  { intros p. destruct (fresh_once E fresh i t) as [fr|failed] eqn:Ef.
    - destruct (respawnChild _ _ _ _ _); [apply IH|]. intros [= <-]. by apply fail_sound.
    - intros [= <-]. unfold fresh_once in Ef. destruct fresh; [done|]. by eapply build_sound. }
  destruct override; [apply Hgo|].
  destruct (matchOnErrorWith _ _ _); [|intros [= <-]; by apply fail_sound].
  destruct (policy_of _ _ _ _) as [[p|]|]; [|apply IH|intros [= <-]; by apply fail_sound].
  destruct (_ <=? _); [apply IH|apply Hgo].
Qed.

Lemma batch_clause_sound i t first errVal rule : at_task i -> error_code first <> EngineDefinition ->
  (forall c, rule = Some c -> rule_routed ids c) -> sound (batch_clause E i t first errVal rule).1.
Proof using Hdef.
  intros Hi Hc Hr. unfold batch_clause. destruct rule as [c|]; [|by apply fail_sound].
  apply clause_sound; [done|by apply Hr|by apply fail_sound].
Qed.

Lemma raised_sound i t first raised : at_task i -> stands i t -> Forall (rule_routed ids) (OnError t) ->
  error_code first <> EngineDefinition -> sound (resolveRaisedBatch E i t first raised).1.
Proof using Hdef.
  intros Hi Hst Hrs Hf. unfold resolveRaisedBatch, admitRetries. cbn zeta.
  destruct (admit_slots _ _ _ _ _ _ _ _) as [[retired [|child children]]|st] eqn:Ea.
  - destruct (raisedData _ _ _ _) as [data|[[] e]].
    + set (bound := bindCaught _ _ _). assert (Hb : at_task bound) by done.
      destruct (matchOnErrorWith _ _ _) as [rule|] eqn:Em; [|by apply foreign_sound].
      pose proof (batch_clause_sound bound t first (batchErrorValue E t first data) rule Hb Hf
        ltac:(intros c ->; by eapply matched_routed)) as Hs.
      destruct (batch_clause _ _ _ _ _ _) as [i' o]. exact Hs.
    + by apply handle_sound.
    + by apply fail_sound.
  - by apply at_task_sound in Hi.
  - exact (admit_sound _ _ _ _ _ _ _ _ (proj1 Hi : runs (put_slot E SRetryOverride None i)) Hst Ea).
Qed.

(** A batch that settled holds no code of the engine's kept one. *)
Definition rows_sound (s : DBState) : Prop := forall k (r : row), rows s !! k = Some r -> status r = StatusRaised -> error_code r <> EngineDefinition.

Definition acted_sound (a : acted (V := V)) : Prop :=
  match a with inl (i, _, _) => at_task i | inr st => sound st.1 end.

Lemma raised_rows s i t first raised :
  raisedInSlotOrder E (GetChildrenForTask (id i) (ID t) (task_epoch i) (rows s)) t = first :: raised ->
  (exists k, rows s !! k = Some first) /\ status first = StatusRaised.
Proof using.
  intros Hr.
  assert (H : first ∈ List.filter (fun c : row => bool_decide (status c = StatusRaised))
                        (GetChildrenForTask (id i) (ID t) (task_epoch i) (rows s))).
  { assert (Hin : first ∈ raisedInSlotOrder E (GetChildrenForTask (id i) (ID t) (task_epoch i) (rows s)) t)
      by (rewrite Hr; apply list_elem_of_here).
    unfold raisedInSlotOrder in Hin.
    destruct (Action t) as [[]|]; by rewrite merge_sort_Permutation in Hin. }
  apply list_elem_of_In, filter_In in H as [Hin Hs]. split; [|by apply bool_decide_eq_true in Hs].
  unfold GetChildrenForTask, matching in Hin. apply filter_In in Hin as [Hin _].
  apply in_map_iff in Hin as ([k r] & Er & Hin). cbn in Er. subst. exists k. by apply elem_of_map_to_list, list_elem_of_In.
Qed.

Lemma children_sound s i t : rows_sound s -> at_task i -> stands i t -> Forall (rule_routed ids) (OnError t) ->
  acted_sound (runChildProcesses E s i t).
Proof using Hdef.
  intros Hs Hi Hst Hrs. unfold runChildProcesses. case_bool_decide as Hp; cbn zeta.
  - destruct (raisedInSlotOrder _ _ _) as [|first raised] eqn:Er.
    + destruct (buildChildOutput _ _ _) as [out|[[] e]]; [done|by apply handle_sound|by apply fail_sound].
    + apply raised_rows in Er as [[k Hk] Hra]. by apply raised_sound; [..|apply (Hs k)].
  - destruct (buildChildren E i t) as [children|failed] eqn:Eb; [|exact (build_sound _ _ _ (proj1 Hi) Hst Eb)].
    destruct (Action t) as [[]|], children; cbn; try done; by apply at_task_sound in Hi.
Qed.

Lemma external_sound s i t : at_task i -> Forall (rule_routed ids) (OnError t) -> acted_sound (runExternal E s i t).
Proof using Hdef Hcodes.
  intros Hi Hrs. unfold runExternal. destruct (head _) as [sg|]; cbn zeta.
  - pose proof (answer_codes Hcodes (sig_outcome sg)) as Ha. destruct (decodeOutcome E _) as [r|code msg data]; [done|].
    by apply handle_sound.
  - case_bool_decide; cbn.
    + unfold external_overdue. destruct (ExternalLost (cols i)); by apply handle_sound.
    + unfold external_arm. destruct (buildTaskData _ _ _); [|by apply fail_sound].
      destruct (resolveTimeout _ _ _); [|by apply fail_sound]. by apply at_task_sound in Hi.
Qed.

Lemma act_sound s i t : rows_sound s -> at_task i -> stands i t -> Forall (rule_routed ids) (OnError t) -> acted_sound (act E s i t).
Proof using Hdef Hcodes.
  intros Hs Hi Hst Hrs. unfold act. destruct (Action t) as [[]|]; try by apply children_sound.
  - unfold runFetch. pose proof (fetch_codes Hcodes i t) as Hf. destruct (executeAction E i t); [by apply fail_sound| |done].
    by apply handle_sound.
  - unfold runDelay. destruct (wake_at i); [done|]. destruct (resolveDelay _ _ _); [|by apply fail_sound].
    by apply at_task_sound in Hi.
  - by apply external_sound.
  - done.
Qed.

(** * The loop *)

Lemma evalSwitch_case i cases self c : evalSwitch E i cases self = Ok (Some c) -> c ∈ cases.
Proof using.
  induction cases as [|c' cases IH]; [done|]. cbn. destruct (String.eqb _ _); [intros [= <-]; apply list_elem_of_here|].
  destruct (evalBool _ _ _ _) as [[]|]; [intros [= <-]; apply list_elem_of_here| |done].
  intros H. apply list_elem_of_further, IH, H.
Qed.

Lemma evalSwitch_total i cases self c : last cases = Some c -> sc_case c = "" -> evalSwitch E i cases self <> Ok None.
Proof using.
  intros Hl Hc. induction cases as [|c' cases IH]; [done|]. cbn. destruct (String.eqb_spec (sc_case c') ""); [done|].
  destruct (evalBool _ _ _ _) as [[]|]; [done| |done]. apply IH. destruct cases; [|done]. cbn in Hl. congruence.
Qed.

Lemma storeOutput_at i t res prior meta i' out : at_task i -> storeOutput E i t res prior meta = Ok (i', out) -> at_task i'.
Proof using.
  unfold storeOutput, mbind, result_bind. destruct (Output t); [|by intros ? [= <- _]].
  destruct (evalTaskOutput _ _ _ _ _ _); [|done]. intros Hi [= <- _]. done.
Qed.

Lemma taskIndex_from_at n tasks g : taskIndex_from n tasks g = -1 \/ n <= taskIndex_from n tasks g.
Proof using.
  revert n. induction tasks as [|t tasks IH]; intros n; cbn; [by left|]. destruct (String.eqb _ _); [by right|].
  destruct (IH (n + 1)); [by left|right; lia].
Qed.

Lemma taskIndex_from_nth n tasks g : 0 <= n -> taskIndex_from n tasks g <> -1 ->
  exists t, nth_error tasks (Z.to_nat (taskIndex_from n tasks g - n)) = Some t.
Proof using.
  revert n. induction tasks as [|t tasks IH]; intros n Hn; cbn; [done|]. destruct (String.eqb _ _).
  - intros _. rewrite Z.sub_diag. by exists t.
  - intros H. destruct (IH (n + 1) ltac:(lia) H) as [u Hu]. exists u.
    destruct (taskIndex_from_at (n + 1) tasks g) as [|Hle]; [done|].
    by replace (Z.to_nat (taskIndex_from (n + 1) tasks g - n))
      with (S (Z.to_nat (taskIndex_from (n + 1) tasks g - (n + 1)))) by lia.
Qed.

Lemma taskIndex_at tasks g : 0 <= taskIndex tasks g -> is_Some (task_at tasks (taskIndex tasks g)).
Proof using.
  unfold taskIndex, task_at. destruct (String.eqb g ""); [done|]. intros H.
  destruct (taskIndex_from_nth 0 tasks g ltac:(done) ltac:(lia)) as [t Ht]. rewrite Z.sub_0_r in Ht.
  rewrite (proj2 (Z.ltb_ge _ _) H), Ht. by eexists.
Qed.

Lemma task_at_in idx t : task_at (Tasks def) idx = Some t -> t ∈ Tasks def.
Proof using.
  unfold task_at. destruct (idx <? 0); [done|]. intros H. apply list_elem_of_In. by eapply nth_error_In.
Qed.

Lemma moved_at i idx t : at_task i -> task_at (Tasks def) idx = Some t -> ID t ∈ ids -> at_task (moved E def idx i).
Proof using.
  intros (Hr & He & _) Ht Hid. unfold moved, taskIDAt. rewrite Ht. by split.
Qed.

Lemma loop_sound fuel n s idx i : (n + fuel = S (S maxInlineTasks))%nat -> (0 < fuel)%nat ->
  rows_sound s -> at_task i -> is_Some (task_at (Tasks def) idx) ->
  exists st, advance_loop E fuel n s def idx i = Ok st /\ sound st.1.
Proof using Hdef Hcodes.
  intros Hn Hf Hs. revert n idx i Hn Hf. induction fuel as [|fuel IH]; intros n idx i Hn Hf Hi [t Ht]; [lia|]. clear Hf.
  cbn [advance_loop]. unfold loop_body. rewrite Ht. destruct (routed_tasks _ _ Hdef _ _ Ht) as [Hid Hrs Hcs (cl & Hl & Hcl)].
  set (i0 := on_work (w_task (ID t)) i). assert (Hi0 : at_task i0) by (destruct Hi as (? & ? & ?); by split).
  destruct (_ && _ && _); [by eexists; split; [done|apply at_task_sound]|].
  pose proof (act_sound s i0 t Hs Hi0 (conj (task_at_in _ _ Ht) eq_refl) Hrs) as Ha. destruct (act E s i0 t) as [[[i1 res] meta]|st]; [|by eexists].
  cbn [acted_sound] in Ha.
  destruct (storeOutput _ _ _ _ _ _) as [[i2 out]|[[] e]] eqn:Eo;
    [|by eexists; split; [done|apply fail_sound]..].
  apply storeOutput_at in Eo as Hi2; [|done].
  destruct (evalSwitch _ _ _ _) as [[c|]|e] eqn:Es; [|by apply evalSwitch_total with (c := cl) in Es|
    by eexists; split; [done|apply fail_sound]].
  apply evalSwitch_case in Es. rewrite Forall_forall in Hcs. destruct (Hcs c Es) as [Hra Hpa Hg].
  destruct (sc_raise c) as [f|]; [by eexists; split; [done|apply raise_sound]|].
  destruct (sc_panic c) as [f|]; [by eexists; split; [done|apply panic_sound]|].
  destruct (String.eqb_spec (sc_goto c) GotoEnd) as [|Ne].
  { eexists; split; [done|]. apply completed_sound; [|done]. apply Hi2. }
  assert (Hto : exists idx' t', goto_index def idx (sc_goto c) = GotoIndex idx' /\ task_at (Tasks def) idx' = Some t').
  { unfold goto_index. destruct (Hg eq_refl eq_refl) as [|[[-> [t' Ht']]|(g & -> & Hgi)]]; [done|by eexists _, _|].
    pose proof (routed_ids _ _ Hdef _ Hgi) as Hj. destruct (taskIndex_at _ _ Hj) as [t' Ht']. exists (taskIndex (Tasks def) g), t'.
    cbn. by rewrite (proj2 (Z.ltb_ge _ _) Hj). }
  destruct Hto as (idx' & t' & -> & Ht').
  pose proof (moved_at i2 idx' t' Hi2 Ht' (routed_id _ _ _ _ (routed_tasks _ _ Hdef _ _ Ht'))) as Hm.
  destruct (_ || _) eqn:Eb; [by eexists; split; [done|apply at_task_sound]|].
  apply orb_false_iff in Eb as [_ Eb]. apply Nat.leb_gt in Eb. apply IH; [lia|lia|done|by eexists].
Qed.

(** An advance of a routed definition. *)
Lemma advance_sound s i : rows_sound s -> at_task i -> exists st, advanceRunning E s i = Ok st /\ sound st.1.
Proof using Hdef Hcodes.
  intros Hs Hi. unfold advanceRunning. destruct Hi as (Hr & He & Ht). rewrite Hr.
  assert (Hi : at_task i) by done.
  destruct (configErr E def); [by eexists; split; [done|apply fail_sound]|]. cbn zeta.
  pose proof (routed_ids _ _ Hdef _ Ht) as Hj. rewrite (proj2 (Z.ltb_ge _ _) Hj), andb_false_r.
  destruct (taskIndex_at _ _ Hj) as [t Et]. rewrite Et.
  destruct (_ && _); [|apply loop_sound; [done|lia|done|done|by eexists]].
  eexists; split; [done|]. apply handle_sound; [done| |done].
  apply (routed_rules _ _ _ _ (routed_tasks _ _ Hdef _ _ Et)).
Qed.

End Advance.
End Routed.
(** * The engine's view of a definition *)

Import (coercions) Store.Store.

Section Erase.
Context `{Schema.Numbers} `{Apd} `{Floats}.
(** What the engine hands to the evaluator: a policy and a payload, unevaluated. *)
Context (retryText : Retry.Retry -> string) (shapeText : Json.value -> string).

Definition erase_fault (f : Fault) : Engine.Fault :=
  Engine.mkFault (f_code f) (f_message f) (if Present (f_data f) then shapeText <$> f_data f else None).

Definition erase_rule (e : ErrorCase) : Engine.ErrorCase :=
  Engine.mkErrorCase (ec_code e) (ec_case e)
    (if Retry.IsZero (ec_retry e) then None else Some (retryText (ec_retry e))) (ec_goto e)
    (erase_fault <$> ec_raise e) (erase_fault <$> ec_panic e) (isSet (ec_not_reached e)).

Definition erase_case (c : SwitchCase) : Engine.SwitchCase :=
  Engine.mkSwitchCase (sc_case c) (sc_goto c) (erase_fault <$> sc_raise c) (erase_fault <$> sc_panic c).

Definition action_type (typ : ActionType) : option Instance.ActionType :=
  if String.eqb typ ActionTypeFetch then Some Instance.ActionTypeFetch
  else if String.eqb typ ActionTypeChild then Some Instance.ActionTypeChild
  else if String.eqb typ ActionTypeChildMap then Some Instance.ActionTypeChildMap
  else if String.eqb typ ActionTypeChildList then Some Instance.ActionTypeChildList
  else if String.eqb typ ActionTypeDelay then Some Instance.ActionTypeDelay
  else if String.eqb typ ActionTypeExternal then Some Instance.ActionTypeExternal
  else None.

Definition erase_task (t : Task) : Engine.Task :=
  Engine.mkTask (ID t) (match t_action t with Some a => action_type (Type_ a) | None => None end) (isSet (OnlyOnce t))
    (erase_rule <$> OnError t) (Present (t_output t)) (erase_case <$> Switch t).

Definition erase (d : ProcessDefinition) : Engine.ProcessDefinition :=
  Engine.mkDefinition (d_name d) (erase_task <$> tasks d) (Present (d_output d)).

Definition task_ids (d : ProcessDefinition) : gset string := list_to_set (ID <$> tasks d).

Lemma fault_authored f : validateFault f = pass -> Routed.authored (erase_fault <$> f).
Proof.
  destruct f as [f|]; [|done]. cbn -[faultCodeRe]. intros Hv. passes Hv. destruct Hv as (Hd & _). cbn.
  intros Hc. by rewrite Hc in Hd.
Qed.

Lemma rule_routed_of t ids probe i last e : error_rule t ids probe i last e = pass ->
  Routed.rule_routed ids (erase_rule e).
Proof.
  unfold error_rule. intros Hv. passes Hv. destruct Hv as (_ & Hr & Hp & _ & _ & Hg & _). split; cbn.
  - destruct (String.eqb_spec (ec_goto e) "") as [->|]; [by left|].
    destruct (String.eqb_spec (ec_goto e) GotoEnd) as [->|]; [by right; left|]. right; right.
    cbn in Hg. unfold known in Hg. by case_bool_decide.
  - by apply fault_authored.
  - by apply fault_authored.
Qed.

Lemma strip_sigil s g : strip_prefix "$" s = Some g -> s = String "$" g.
Proof. by intros ->%strip_prefix_Some. Qed.

Lemma case_routed_of d ids n i isLast c : (n < length (tasks d))%nat ->
  switch_case ids (Z.of_nat n) (Z.of_nat (length (tasks d)) - 1) i isLast c = pass ->
  Routed.case_routed ids (erase d) (Z.of_nat n) (erase_case c).
Proof.
  unfold switch_case. intros Hn Hv. passes Hv. destruct Hv as (_ & Hone & Hr & Hp & Hg). split; cbn; try by apply fault_authored.
  intros Er Ep. assert (sc_raise c = None) as Er' by (by destruct (sc_raise c)).
  assert (sc_panic c = None) as Ep' by (by destruct (sc_panic c)). unfold set_clauses in Hone. rewrite Er', Ep' in Hone.
  destruct (String.eqb_spec (sc_goto c) ""); [done|]. destruct (String.eqb_spec (sc_goto c) GotoEnd) as [->|]; [by left|].
  right. destruct (String.eqb_spec (sc_goto c) GotoNext) as [->|].
  - left. split; [done|]. rewrite refuse_if_pass in Hg. apply Z.eqb_neq in Hg. unfold Engine.task_at.
    replace (Z.of_nat n + 1 <? 0) with false by (symmetry; apply Z.ltb_ge; lia).
    replace (Z.to_nat (Z.of_nat n + 1)) with (S n) by lia. rewrite nth_error_lookup, list_lookup_fmap.
    destruct (lookup_lt_is_Some_2 (tasks d) (S n) ltac:(lia)) as [t ->]. by eexists.
  - right. destruct (strip_prefix "$" (sc_goto c)) as [g|] eqn:Es; [|done]. exists g. split; [by apply strip_sigil|].
    rewrite refuse_if_pass in Hg. unfold known in Hg. by case_bool_decide.
Qed.

Lemma check_ids_pass seen l : check_ids seen l = pass ->
  Forall (fun t => taskIDRe (ID t) = true /\ ID t ∉ seen) l /\ NoDup (ID <$> l).
Proof.
  revert seen. induction l as [|t l IH]; intros seen; cbn [check_ids]; [by repeat constructor|].
  intros Hv. passes Hv. destruct Hv as ((Hre & Hk) & Hl). apply IH in Hl as [Hf Hn]. cbn. split.
  - constructor.
    + split; [by destruct (taskIDRe _)|]. unfold known in Hk. by case_bool_decide.
    + eapply Forall_impl; [exact Hf|]. cbn. set_solver.
  - constructor; [|done]. intros (u & Eu & Hu)%list_elem_of_fmap. rewrite Forall_forall in Hf.
    destruct (Hf u Hu) as [_ Hx]. set_solver.
Qed.

Lemma index_of_task t l g : g ∈ (Engine.ID <$> l) -> 0 <= Engine.taskIndex_from t l g \/ t < 0.
Proof.
  revert t. induction l as [|u l IH]; intros t; [by intros ?%elem_of_nil|]. cbn.
  destruct (String.eqb_spec (Engine.ID u) g); [intros _; lia|]. intros [|Hg]%elem_of_cons; [by subst|].
  destruct (IH (t + 1) Hg); [by left|]. right. lia.
Qed.

Section Validated.
Context (Lex : string -> option (list Syntax.Token)) (zoneinfo : string -> option GoTime.Location) (fuel : nat).
Abbreviation Validate := (Validate.Validate Lex zoneinfo fuel).

(** What passed, task by task. *)
Lemma validated_tasks d : Validate d = pass ->
  check_ids ∅ (tasks d) = pass /\
  (forall n t, tasks d !! n = Some t ->
     validateTask Lex zoneinfo fuel (task_ids d) (Z.of_nat (length (tasks d)) - 1) (pool (d_defs d)) (Z.of_nat n) t = pass) /\
  validateFaultCodeKinds d = pass.
Proof.
  unfold Validate.Validate. intros Hv. passes Hv. destruct Hv as (_ & _ & _ & _ & _ & _ & Hi & Ht & Hk).
  split; [done|]. split; [|done]. intros n t Hn. rewrite each_indexed_pass in Ht. specialize (Ht n t Hn). by rewrite atPath_pass in Ht.
Qed.

Lemma validated_routed d : Validate d = pass -> Routed.definition_routed (task_ids d) (erase d).
Proof.
  intros (Hids & Hts & _)%validated_tasks. apply check_ids_pass in Hids as [Hre Hnd]. split.
  - intros idx t. unfold Engine.task_at. destruct (Z.ltb_spec idx 0); [done|]. rewrite nth_error_lookup. cbn.
    rewrite list_lookup_fmap. destruct (tasks d !! Z.to_nat idx) as [u|] eqn:Eu; [|done]. intros [= <-].
    pose proof (Hts _ _ Eu) as Hv. unfold validateTask in Hv. passes Hv. destruct Hv as (_ & _ & Hs & Ho & _).
    replace idx with (Z.of_nat (Z.to_nat idx)) by lia. split; cbn.
    + apply elem_of_list_to_set, list_elem_of_fmap. exists u. split; [done|]. by eapply list_elem_of_lookup_2.
    + unfold validateOnError in Ho. passes Ho. destruct Ho as [_ Ho]. rewrite each_indexed_pass in Ho.
      apply Forall_fmap, Forall_lookup. intros n e He. by eapply rule_routed_of, Ho.
    + unfold validateSwitch in Hs. destruct (Switch u) as [|c cs]; [done|]. passes Hs. destruct Hs as [Hs _].
      rewrite each_indexed_pass in Hs. apply Forall_fmap, Forall_lookup. intros n e He.
      eapply case_routed_of, Hs, He. by eapply lookup_lt_Some.
    + unfold validateSwitch in Hs. destruct (Switch u) as [|c cs]; [done|]. passes Hs. destruct Hs as [_ Hs].
      destruct (last (c :: cs)) as [l|] eqn:El; [|by apply last_None in El]. passes Hs.
      exists (erase_case l). rewrite fmap_last, El. split; [done|]. cbn. by destruct (String.eqb_spec (sc_case l) "").
  - intros g Hg. unfold Engine.taskIndex. apply elem_of_list_to_set, list_elem_of_fmap in Hg as (u & -> & Hu).
    rewrite Forall_forall in Hre. destruct (Hre u Hu) as [Hr _]. destruct (String.eqb_spec (ID u) "") as [Ei|]; [by rewrite Ei in Hr|].
    destruct (index_of_task 0 (erase_task <$> tasks d) (ID u)); [|done|lia].
    rewrite <- list_fmap_compose. apply list_elem_of_fmap. by exists u.
Qed.

Lemma fault_valid f c : validateFault f = pass -> (f_code <$> f) = Some c -> faultCodeRe c = true.
Proof.
  destruct f as [f|]; [|done]. cbn -[faultCodeRe]. intros Hv [= <-]. passes Hv. destruct Hv as (_ & _ & Hc & _).
  by destruct (faultCodeRe (f_code f)).
Qed.

Lemma raised_valid d t code : Validate d = pass -> t ∈ tasks d -> code ∈ raised_in t -> faultCodeRe code = true.
Proof.
  intros (_ & Hts & _)%validated_tasks [n Hn]%list_elem_of_lookup Hc.
  pose proof (Hts _ _ Hn) as Hv. unfold validateTask in Hv. passes Hv. destruct Hv as (_ & _ & Hs & Ho & _).
  unfold raised_in, clause_codes in Hc. apply elem_of_app in Hc as [Hc|Hc];
    apply list_elem_of_fmap in Hc as (f & -> & (c & Hc & Ef)%list_elem_of_omap); apply list_elem_of_lookup in Hc as [k Hk].
  - unfold validateSwitch in Hs. destruct (Switch t) as [|c0 cs]; [done|]. passes Hs. destruct Hs as [Hs _].
    rewrite each_indexed_pass in Hs. specialize (Hs k c Hk). unfold switch_case in Hs. passes Hs.
    destruct Hs as (_ & _ & Hf & _). eapply fault_valid; [exact Hf|by rewrite Ef].
  - unfold validateOnError in Ho. passes Ho. destruct Ho as [_ Ho]. rewrite each_indexed_pass in Ho. specialize (Ho k c Hk).
    unfold error_rule in Ho. passes Ho. destruct Ho as (_ & Hf & _). eapply fault_valid; [exact Hf|by rewrite Ef].
Qed.

(** C4. Registration rules out the failures the engine keeps for a broken definition, but for
    a broken child.  An advance of an instance at a task of a registered definition ends
    without a panic and leaves it, if it still runs, at a task of the definition; no case goes
    unmatched, no goto leads nowhere, no authored code poses as the engine's.  If it fails the
    instance as having a bad definition, then because a task calls a process whose version or
    definition does not load; provided the codes reported by calls and answers from outside
    are not the engine's own. *)
Theorem registered_advances {V} (E : Engine.env V) (s : Store.DBState) (i : Store.ProcessInstance) d :
  Validate d = pass -> Routed.foreign_codes E -> Routed.rows_sound s ->
  Engine.definition E (Store.process_name i) (Store.process_version i) = Some (erase d) ->
  Store.error_code i <> ErrCode.EngineDefinition -> Store.task i ∈ task_ids d ->
  exists i' o, Engine.advanceRunning E s i = Ok (i', o) /\
    (Store.status i' = Instance.StatusRunning -> Store.task i' ∈ task_ids d) /\
    (Store.error_code i' = ErrCode.EngineDefinition -> exists (i0 : Store.ProcessInstance) t msg,
       Engine.definition E (Store.process_name i0) (Store.process_version i0) = Some (erase d) /\
       t ∈ Engine.Tasks (erase d) /\ Store.task i0 = Engine.ID t /\
       Engine.batch E i0 t = Err (ErrCode.EngineDefinition, msg)).
Proof.
  intros Hv Hc Hs Hd He Ht.
  destruct (Routed.advance_sound E (task_ids d) (erase d) (validated_routed d Hv) Hc s i Hs) as ([i' o] & Ha & Hi').
  - by split.
  - exists i', o. destruct Hi' as [Hb Hi']. split_and!; [done..|]. intros Hx. exact (Hb Hx).
Qed.

(** The raise set of a definition: each code a clause of its tasks raises, once and in order; in
    a registered definition each is a well-formed code and no clause panics with it, so an
    instance that ends by one of its own clauses shows by its code which kind it was. *)
Theorem raise_set d : Validate d = pass ->
  NoDup (definition_Raises d) /\ Sorted String.le (definition_Raises d) /\
  forall code, (code ∈ definition_Raises d <-> exists t, t ∈ tasks d /\ code ∈ raised_in t) /\
    (code ∈ definition_Raises d -> ValidFaultCode code = true /\ forall t, t ∈ tasks d -> code ∉ panicked_in t).
Proof.
  intros Hv. unfold definition_Raises. split; [|split].
  - rewrite merge_sort_Permutation. apply NoDup_elements.
  - apply Sorted_merge_sort, _.
  - intros code. rewrite merge_sort_Permutation, elem_of_elements, elem_of_list_to_set, list_elem_of_bind.
    assert (Hx : (exists t, code ∈ raised_in t /\ t ∈ tasks d) <-> exists t, t ∈ tasks d /\ code ∈ raised_in t)
      by (split; intros (t & ? & ?); by exists t).
    split; [exact Hx|]. rewrite Hx. intros (t & Ht & Hc). split; [by eapply raised_valid|].
    intros u Hu Hp. apply validated_tasks in Hv as (_ & _ & Hk). unfold validateFaultCodeKinds in Hk.
    rewrite each_pass in Hk. specialize (Hk code). rewrite refuse_if_pass in Hk.
    assert (Hin : code ∈ tasks d ≫= panicked_in) by (apply list_elem_of_bind; by exists u).
    apply Hk in Hin. apply Bool.not_true_iff_false in Hin. apply Hin, existsb_exists. exists code.
    rewrite String.eqb_refl. split; [|done]. apply list_elem_of_In, list_elem_of_bind. by exists t.
Qed.


End Validated.
End Erase.

(** * A registered order, advanced *)

Module Demo.
Import Validate.Demo.
#[local] Existing Instance Numeric.integers.
#[local] Existing Instance Retry.halves.
#[local] Existing Instance Validate.Demo.whole.

Definition no_text {A} (_ : A) : string := "".
Definition stored : Engine.ProcessDefinition := erase no_text no_text order.

(** Every call is refused by the remote, no case holds. *)
Definition quiet : Engine.env unit :=
  Engine.mkEnv (fun name _ => if String.eqb name "order" then Some stored else None) (fun _ => None) (fun _ _ => None)
    (fun _ _ c => c) (fun _ => "") (fun _ => None) (fun _ => 0) (fun _ _ _ => Ok false) (fun _ => tt)
    (fun _ _ _ _ _ => Ok tt) (fun _ _ _ _ => tt) (fun _ _ => Ok tt) (fun _ _ _ => Ok (Engine.mkRetry 0 1 1))
    (fun _ _ _ => "") (fun _ _ _ => Ok tt) (fun _ _ _ _ => tt) (fun _ _ _ => tt)
    (fun _ _ => Engine.FetchFailed "http.503" "busy" None) (fun _ _ => Ok 0) (fun _ _ => Ok None) (fun _ _ => Ok "")
    (fun _ => Engine.Answered tt) (fun _ _ => Ok []) (fun _ _ _ => Ok None) (fun _ _ => Ok tt) tt tt (fun _ => tt)
    (fun _ => false) 0 (fun _ _ => 0) (fun f _ => f).

Definition no_cols : Store.stateCols := Store.mkCols "" "" "" "" "" "" "" "" false.
Definition charging : Store.ProcessInstance :=
  Store.mkInstance (Store.mkRow (Store.mkSpawn "1" "order" "" "1" [] "" 0 0) 1
    (Store.mkWork "charge" 1 false 0 None Instance.StatusRunning Instance.PhaseNone "" "" 0 no_cols)
    (Store.mkLease None None 0) (Store.mkClaim None None 0) None) false "".

Lemma quiet_codes : Routed.foreign_codes quiet.
Proof. split; done. Qed.

Lemma no_rows : Routed.rows_sound (Store.mkDB ∅ []).
Proof. intros k r Hk. cbn in Hk. by rewrite (lookup_empty (M := gmap string)) in Hk. Qed.

Lemma registered_advances_witness :
  exists i' o, Engine.advanceRunning quiet (Store.mkDB ∅ []) charging = Ok (i', o) /\
    (Store.status i' = Instance.StatusRunning -> Store.task i' ∈ task_ids order) /\
    Store.error_code i' <> ErrCode.EngineDefinition.
Proof.
  destruct (registered_advances no_text no_text Retry.no_lex (fun _ => None) 10 quiet (Store.mkDB ∅ []) charging order order_passes
    quiet_codes no_rows eq_refl ltac:(done)
    ltac:(apply (bool_decide_unpack _); by vm_compute)) as (i' & o & Ha & Hr & Hb).
  exists i', o. split; [exact Ha|]. split; [exact Hr|]. intros (i0 & t & msg & _ & _ & _ & Hx)%Hb. discriminate Hx.
Defined.

(** The refusal takes the rule's route. *)
Example charge_refused : (fun st : Engine.stopped => Store.task st.1) <$> Engine.advanceRunning quiet (Store.mkDB ∅ []) charging = Ok "refused".
Proof. by vm_compute. Qed.

Lemma raise_set_witness : definition_Raises order = ["unpaid"] /\ NoDup (definition_Raises order).
Proof.
  split; [by vm_compute|].
  exact (proj1 (raise_set Retry.no_lex (fun _ => None) 10 order order_passes)).
Defined.

End Demo.
End Registered.
