(* ===== verification/OnlyOnce.v ===== *)
(** Retries of tasks that run at most once: what registration admits of their error rules
    against what [isRetryAllowed] grants when an error fires. *)
From Stdlib Require Import ZArith QArith Lia Ascii String.
From S2P Require Import Prelude GoStrings GoTime ErrCode Json Numeric Syntax Schema CheckDoc Retry Definitions Config Validate Instance Engine Registered.
Open Scope string_scope.
Open Scope list_scope.
Open Scope Z_scope.

Module OnlyOnce.
Import ErrCode.ErrCode Definitions Validate Registered.

(** * Patterns *)

Lemma Cut_Some s c l r : Cut s c = Some (l, r) -> s = l +:+ String c r /\ Contains l c = false.
Proof.
  unfold Contains. revert l r. induction s as [|d s IH]; intros l r; cbn; [done|].
  destruct (Ascii.eqb_spec d c) as [->|Hd].
  - by intros [= <- <-].
  - destruct (Cut s c) as [[l' r']|] eqn:E; [|done]. cbn. intros [= <- <-]. destruct (IH _ _ eq_refl) as [-> Hl].
    split; [done|]. cbn. destruct (Ascii.eqb_spec d c); [done|]. by destruct (Cut l' c).
Qed.

Lemma HasPrefix_app p s : HasPrefix (p +:+ s) p = true.
Proof. unfold HasPrefix. by rewrite strip_prefix_app. Qed.

Lemma HasPrefix_Some s p : HasPrefix s p = true <-> exists r, s = p +:+ r.
Proof.
  unfold HasPrefix. split.
  - destruct (strip_prefix p s) as [r|] eqn:E; [|done]. apply strip_prefix_Some in E. by exists r.
  - intros [r ->]. by rewrite strip_prefix_app.
Qed.

(** What is before the first wildcard opens every code that matches. *)
Lemma glob_opens before p s : Contains before "%" = false -> glob (before +:+ p) s -> exists r, s = before +:+ r /\ glob p r.
Proof.
  unfold Contains. revert s. induction before as [|c b IH]; intros s; cbn; [by exists s|].
  destruct (Ascii.eqb_spec c "%") as [|Hc]; [done|]. destruct (Cut b "%") as [|] eqn:E; [by destruct p0|]. intros _ Hg.
  inversion Hg as [| |c' p' s' Hc' Hg']; subst; [done|]. destruct (IH s' eq_refl Hg') as (r & -> & Hr). by exists r.
Qed.

(** A pattern with its wildcards dropped: a code that matches it. *)
Fixpoint plain (p : string) : string :=
  match p with "" => "" | String c p => if Ascii.eqb c "%" then plain p else String c (plain p) end.

Lemma glob_plain p : glob p (plain p).
Proof.
  induction p as [|c p IH]; cbn; [apply glob_nil|]. destruct (Ascii.eqb_spec c "%") as [->|].
  - by apply (glob_any p "").
  - by apply glob_lit.
Qed.

Lemma glob_app p s q t : glob p s -> glob q t -> glob (p +:+ q) (s +:+ t).
Proof.
  induction 1; cbn; [done| |]; intros Hq.
  - rewrite str_app_assoc. apply glob_any. auto.
  - apply glob_lit; auto.
Qed.

Lemma glob_self p : Contains p "%" = false -> glob p p.
Proof.
  unfold Contains. induction p as [|c p IH]; cbn; [intros; apply glob_nil|].
  destruct (Ascii.eqb_spec c "%"); [done|]. destruct (Cut p "%") as [[]|]; [done|]. intros _. by apply glob_lit, IH.
Qed.

Lemma cut_absent s c : Cut s c = None <-> Contains s c = false.
Proof. unfold Contains. by destruct (Cut s c). Qed.

(** A string that is no code of the unreached kind stays none with an odd byte behind it. *)
Lemma strip_odd p c before r : Contains p c = false -> strip_prefix p before = None ->
  strip_prefix p (before +:+ String c r) = None.
Proof.
  unfold Contains. revert before. induction p as [|a p IH]; intros before; cbn; [done|].
  destruct (Ascii.eqb_spec a c) as [|Ha]; [done|]. intros Hc. destruct before as [|b before]; cbn.
  - intros _. by destruct (Ascii.eqb_spec a c).
  - destruct (Ascii.eqb_spec a b); [|done]. apply IH. by destruct (Cut p c) as [[]|].
Qed.

Lemma not_pre before r : HasPrefix before NotReached = false -> HasPrefix (before +:+ String "!" r) NotReached = false.
Proof.
  unfold HasPrefix. destruct (strip_prefix NotReached before) eqn:E; [done|]. intros _. by rewrite strip_odd.
Qed.

(** The test for patterns that only match codes of the unreached kind is exact. *)
Lemma only_pre_exact p : patternOnlyMatchesPre p = true <-> forall code, MatchCode p code = true -> IsNotReached code = true.
Proof.
  unfold patternOnlyMatchesPre, IsNotReached. destruct (Cut p "%") as [[before after]|] eqn:E.
  - apply Cut_Some in E as [-> Hb]. split.
    + intros [q ->]%HasPrefix_Some code [r [-> _]]%MatchCode_glob%glob_opens; [|done].
      rewrite str_app_assoc. apply HasPrefix_app.
    + intros H. destruct (HasPrefix before NotReached) eqn:Hp; [done|].
      rewrite <- (H (before +:+ String "!" (plain after))); [symmetry; by apply not_pre|]. apply MatchCode_glob.
      apply glob_app; [by apply glob_self|]. apply (glob_any after "!"), glob_plain.
  - apply cut_absent in E. split.
    + intros [q ->]%HasPrefix_Some code Hm%MatchCode_glob.
      rewrite <- (str_app_nil_r (NotReached +:+ q)) in Hm. apply glob_opens in Hm as (r & -> & _); [|done].
      rewrite str_app_assoc. apply HasPrefix_app.
    + intros H. apply H, MatchCode_glob, glob_self, E.
Qed.

Lemma exact_code p code : Contains p "%" = false -> MatchCode p code = true -> code = p.
Proof.
  intros Hp Hm%MatchCode_glob. rewrite <- (str_app_nil_r p) in Hm. apply glob_opens in Hm as (r & -> & Hr); [|done].
  inversion Hr. by rewrite str_app_nil_r.
Qed.

Lemma unreached_known code : IsNotReached code = true -> IsUnknowable code = false.
Proof.
  intros H. destruct (IsUnknowable code) eqn:E; [|done]. unfold IsUnknowable in E.
  apply existsb_exists in E as (u & Hu & ->%String.eqb_eq). cbn in Hu. by destruct Hu as [<-|[<-|[<-|[<-|[<-|[]]]]]].
Qed.

(** * Tiers *)

(** The codes a rule retries on. *)
Definition matches (e : ErrorCase) (code : Code) : Prop := exists pat, pat ∈ ec_code e /\ MatchCode pat code = true.

Lemma tier_pass nr pat : tier nr pat = pass <->
  IsUnknowable pat = false /\ (patternOnlyMatchesPre pat = true \/ nr = true /\ Contains pat "%" = false).
Proof.
  unfold tier. rewrite chain_pass, refuse_if_pass. destruct (patternOnlyMatchesPre pat); [split; [by intros []; auto|by intros []]|].
  rewrite chain_pass, !refuse_if_pass. destruct nr; split; try tauto; try (intros (? & ? & ?); auto); by intros (? & [|[]]).
Qed.

Lemma tiers_pass e : only_once_tiers e = pass <->
  ec_code e <> [] /\ forall pat, pat ∈ ec_code e -> tier (isSet (ec_not_reached e)) pat = pass.
Proof. unfold only_once_tiers. rewrite chain_pass, refuse_if_pass, each_pass. destruct (ec_code e); split; intros []; split; done. Qed.

(** Each code a registered rule retries on: one that never reached the remote, or one the
    rule asserts by its exact name. *)
Lemma tiers_codes e code : only_once_tiers e = pass -> matches e code ->
  IsUnknowable code = false /\
  (IsNotReached code = true \/ isSet (ec_not_reached e) = true /\ code ∈ ec_code e).
Proof.
  intros [_ Ht]%tiers_pass (pat & Hin & Hm). specialize (Ht pat Hin). apply tier_pass in Ht as [Hu [Hp|[Hn Hw]]].
  - assert (Hc : IsNotReached code = true) by (by apply (proj1 (only_pre_exact pat))).
    split; [by apply unreached_known|by left].
  - apply exact_code in Hm as ->; [|done]. split; [done|by right].
Qed.

Section Tiers.
Context `{Schema.Numbers} `{Apd} `{Floats}.
Context (retryText : Retry.Retry -> string) (shapeText : Json.value -> string).

Implicit Types (t : Task) (e : ErrorCase).

(** What the engine grants, at an error with [code] that [e] matched. *)
Definition granted t e (code : Code) : bool :=
  Engine.isRetryAllowed (erase_task retryText shapeText t) code (Some (erase_rule retryText shapeText e)).

Lemma tiers_granted t e code : only_once_tiers e = pass -> matches e code -> granted t e code = true.
Proof using.
  intros Ht Hm. destruct (tiers_codes e code Ht Hm) as [Hu Hc]. unfold granted, Engine.isRetryAllowed. cbn -[IsUnknowable IsNotReached].
  destruct (negb _); [done|]. rewrite Hu. destruct (isSet (ec_not_reached e)); [done|]. by destruct Hc as [->|[]].
Qed.

(** Without an assertion the tiers are exact. *)
Lemma granted_tiers t e : isSet (OnlyOnce t) = true -> isSet (ec_not_reached e) = false -> ec_code e <> [] ->
  (forall code, matches e code -> granted t e code = true) -> only_once_tiers e = pass.
Proof using.
  intros Ho Hn Hne Hg. apply tiers_pass. split; [done|]. intros pat Hin. apply tier_pass.
  assert (Hp : patternOnlyMatchesPre pat = true).
  { apply only_pre_exact. intros code Hm. specialize (Hg code (ex_intro _ pat (conj Hin Hm))).
    unfold granted, Engine.isRetryAllowed in Hg. cbn -[IsUnknowable IsNotReached] in Hg. rewrite Ho, Hn in Hg.
    cbn -[IsUnknowable IsNotReached] in Hg.
    by destruct (IsUnknowable code). }
  split; [|by left]. destruct (IsUnknowable pat) eqn:Hu; [|done]. exfalso.
  unfold IsUnknowable in Hu. apply existsb_exists in Hu as (u & Hu & ->%String.eqb_eq). cbn in Hu.
  by destruct Hu as [<-|[<-|[<-|[<-|[<-|[]]]]]].
Qed.

Section Validated.
Context (Lex : string -> option (list Syntax.Token)) (zoneinfo : string -> option GoTime.Location) (fuel : nat).
Abbreviation Validate := (Validate.Validate Lex zoneinfo fuel).

Lemma validated_rule d t e : Validate d = pass -> t ∈ tasks d -> e ∈ OnError t ->
  exists ids probe i last, error_rule t ids probe i last e = pass.
Proof.
  intros (_ & Hts & _)%validated_tasks [n Hn]%list_elem_of_lookup [k Hk]%list_elem_of_lookup.
  pose proof (Hts _ _ Hn) as Hv. unfold validateTask in Hv. passes Hv. destruct Hv as (_ & _ & _ & Ho & _).
  unfold validateOnError in Ho. passes Ho. destruct Ho as [_ Ho]. rewrite each_indexed_pass in Ho.
  repeat eexists. by eapply Ho.
Qed.

(** C5. On a task that runs at most once, a registered rule never sets off an attempt that could
    repeat a call that took effect: a child task's rules carry no retry at all, and elsewhere
    every code a retrying rule matches is one the engine grants - it says the remote was never
    reached, or the rule asserts it by its exact name - and is none of the codes of a call
    whose outcome is unknown. *)
Theorem only_once_registered d t e : Validate d = pass -> t ∈ tasks d -> e ∈ OnError t -> isSet (OnlyOnce t) = true ->
  (isChildTask t = true -> Retry.IsZero (ec_retry e) = true) /\
  (isChildTask t = false -> retries e = true -> forall code, matches e code ->
     granted t e code = true /\ IsUnknowable code = false /\
     (IsNotReached code = true \/ isSet (ec_not_reached e) = true /\ code ∈ ec_code e)).
Proof.
  intros Hv Ht He Ho. destruct (validated_rule d t e Hv Ht He) as (ids & probe & i & last & Hr).
  unfold error_rule in Hr. passes Hr. destruct Hr as (_ & _ & _ & _ & _ & _ & Hr). split; intros Hc; rewrite Hc in Hr.
  - passes Hr. destruct Hr as [_ Hz]. rewrite Ho in Hz. by destruct (Retry.IsZero (ec_retry e)).
  - intros Hre code Hm. destruct (Retry.validateRetry _) as [[]|]; [|done]. rewrite Ho, Hre in Hr. cbn in Hr.
    destruct (tiers_codes e code Hr Hm). split; [by apply tiers_granted|done].
Qed.

End Validated.

(** C6. The tiers refuse nothing the engine would grant: a rule that asserts nothing passes them
    exactly where it names a pattern and each code its patterns match is one the engine would
    retry on the task. *)
Theorem tiers_exact t e : isSet (OnlyOnce t) = true -> isSet (ec_not_reached e) = false ->
  only_once_tiers e = pass <-> ec_code e <> [] /\ forall code, matches e code -> granted t e code = true.
Proof.
  intros Ho Hn. split.
  - intros Ht. split; [apply tiers_pass in Ht; apply Ht|]. intros code. by apply tiers_granted.
  - intros [Hne Hg]. by eapply granted_tiers.
Qed.

End Tiers.
(** * The charge of an order *)

Module Demo.
Import Validate.Demo.
#[local] Existing Instance Numeric.integers.
#[local] Existing Instance Retry.halves.
#[local] Existing Instance Validate.Demo.whole.

Definition no_text {A} (_ : A) : string := "".

Lemma charge_matches : matches charge_rule "http.503".
Proof. exists "http.503". split; [apply (bool_decide_unpack _)|]; by vm_compute. Qed.

Lemma only_once_registered_witness : granted no_text no_text charge charge_rule "http.503" = true.
Proof.
  exact (proj1 (proj2 (only_once_registered no_text no_text Retry.no_lex (fun _ => None) 10 order charge charge_rule order_passes
    ltac:(apply list_elem_of_here) ltac:(apply list_elem_of_here) eq_refl) eq_refl eq_refl "http.503" charge_matches)).
Defined.

Definition cautious : ErrorCase := mkError ["pre.%"] "" thrice "" None None None.
Lemma tiers_exact_witness : only_once_tiers cautious = pass <->
  ec_code cautious <> [] /\ forall code, matches cautious code -> granted no_text no_text charge cautious code = true.
Proof. exact (tiers_exact no_text no_text charge cautious eq_refl eq_refl). Defined.

(** With an assertion they are not: a wildcard is refused although the engine would retry
    on every status it stands for. *)
Definition asserting : ErrorCase := mkError ["http.50%"] "" thrice "" None None (Some true).
Example wildcard_granted : granted no_text no_text charge asserting "http.503" = true /\
  only_once_tiers asserting = refuse (WildcardAsserts "http.50%").
Proof. split; by vm_compute. Qed.

End Demo.
End OnlyOnce.
