(* ===== verification/Paginate.v ===== *)
(** Keyset pagination: internal/db/paginate.go with [pageInfo] of db.go, and the placeholder
    rewriting of pg_rewriter.go.

    A statement is kept as its parts, from which [pageSQL] and [pageArgs] make the text and the
    arguments the code makes; what the database answers is [select] on the same parts: filter,
    sort, take.  A row gives each column a value; the order of text is the database's
    [collate].  A cursor is a JSON document under base64, whose codecs are the class
    [Tokens]. *)
From Stdlib Require Import ZArith Lia Ascii String.
From stdpp Require Import sorting.
From S2P Require Import Prelude GoStrings Json.
Import Json.
Open Scope string_scope.
Open Scope list_scope.
Open Scope Z_scope.

(** [json.Marshal] then [base64.RawURLEncoding] of a token, and back with numbers kept as
    text.  What is read back is what was written, for values that [survive]: json replaces
    the bytes of a string that are no UTF-8. *)
Class Tokens := {
  write_token : value -> string;
  read_token : string -> option value;
  survive : value -> Prop;
  read_write v : survive v -> read_token (write_token v) = Some v;
  write_nonempty v : write_token v <> "" }.

Module Paginate.

Definition pageCountCap : Z := 1000.

(** * Values of key columns *)

Inductive colKind := kindText | kindInt.
Inductive keyval := KText (s : string) | KInt (z : Z).
#[export] Instance keyval_eq_dec : EqDecision keyval.
Proof. solve_decision. Defined.

Record keyCol := mkCol { col : string; kind : colKind }.
Definition sortMode := list keyCol.

Definition of_kind (k : colKind) (v : keyval) : Prop :=
  match k, v with kindText, KText _ => True | kindInt, KInt z => in_i64 z | _, _ => False end.

(** * Requests *)

Record paginator := mkPaginator {
  table : string; columns : string; baseWhere : string; sorts : list (string * sortMode);
  filterCols : list string; defSort : string; defDesc : bool; defLimit : Z; maxLimit : Z }.

Record PageReq := mkReq { Sort : string; Desc : option bool; Limit : Z; After : string; Before : string }.

Inductive page_error :=
  | NotAFilter (c : string)
  | NoValues (c : string)
  | UnknownSort (s : string)
  | InvalidCursor
  | OtherSort
  | CursorValues.

(** * Conditions *)

Inductive op := OpEq | OpGt | OpLt | OpGte | OpIn.
Record cond := mkCond { c_col : string; c_op : op; c_vals : list keyval }.

Definition op_text (o : op) : string :=
  match o with OpEq => " = ?" | OpGt => " > ?" | OpLt => " < ?" | OpGte => " >= ?" | OpIn => "" end.

(** [strings.TrimSuffix(strings.Repeat("?, ", n), ", ")]. *)
Definition marks (n : nat) : string := String.concat ", " (repeat "?" n).
Definition cond_text (c : cond) : string :=
  match c_op c with
  | OpIn => c_col c +:+ " IN (" +:+ marks (length (c_vals c)) +:+ ")"
  | o => c_col c +:+ op_text o
  end.

(** One request's filters; the first failure is kept. *)
Record listQuery := mkQuery { pg : paginator; req : PageReq; conds : list cond; err : option page_error }.

Definition query (pg : paginator) (req : PageReq) : listQuery := mkQuery pg req [] None.
Definition allowsFilter (pg : paginator) (c : string) : bool := existsb (String.eqb c) (filterCols pg).
Definition failed (q : listQuery) (e : page_error) : listQuery := mkQuery (pg q) (req q) (conds q) (Some e).

Definition add_cond (q : listQuery) (c : cond) : listQuery :=
  match err q with
  | Some _ => q
  | None => if allowsFilter (pg q) (c_col c) then mkQuery (pg q) (req q) (conds q ++ [c]) None
            else failed q (NotAFilter (c_col c))
  end.

Definition Eq (q : listQuery) (c : string) (v : keyval) : listQuery := add_cond q (mkCond c OpEq [v]).
Definition EqIf (q : listQuery) (c : string) (v : keyval) (include : bool) : listQuery := if include then Eq q c v else q.
Definition GteIf (q : listQuery) (c : string) (v : keyval) (include : bool) : listQuery :=
  if include then add_cond q (mkCond c OpGte [v]) else q.
Definition LtIf (q : listQuery) (c : string) (v : keyval) (include : bool) : listQuery :=
  if include then add_cond q (mkCond c OpLt [v]) else q.
Definition InIf (q : listQuery) (c : string) (vs : list keyval) (include : bool) : listQuery :=
  if negb include then q
  else match err q with
       | Some _ => q
       | None => match vs with [] => failed q (NoValues c) | _ => add_cond q (mkCond c OpIn vs) end
       end.

(** [Window], half open; a zero end is none. *)
Record Window := mkWindow { from_ : Z; to_ : Z }.
Definition apply (w : Window) (q : listQuery) (c : string) : listQuery :=
  LtIf (GteIf q c (KInt (from_ w)) (0 <? from_ w)) c (KInt (to_ w)) (0 <? to_ w).

(** * The keyset *)

(** Rows strictly past the cursor: equal up to a column, past it there. *)
Fixpoint keyset_terms (done : list cond) (mode : sortMode) (cmp : op) (vals : list keyval) : list (list cond) :=
  match mode, vals with
  | kc :: mode, v :: vals =>
      (done ++ [mkCond (col kc) cmp [v]]) :: keyset_terms (done ++ [mkCond (col kc) OpEq [v]]) mode cmp vals
  | _, _ => []
  end.
Definition keyset (mode : sortMode) (cmp : op) (vals : list keyval) : list (list cond) := keyset_terms [] mode cmp vals.

Definition keyset_text (ors : list (list cond)) : string :=
  "(" +:+ String.concat " OR " ((fun terms => "(" +:+ String.concat " AND " (cond_text <$> terms) +:+ ")") <$> ors) +:+ ")".
Definition cond_args (cs : list cond) : list keyval := cs ≫= c_vals.
Definition keyset_args (ors : list (list cond)) : list keyval := ors ≫= cond_args.

(** [keysetPredicate]. *)
Definition keysetPredicate (mode : sortMode) (cmp : op) (vals : list keyval) : string * list keyval :=
  (keyset_text (keyset mode cmp vals), keyset_args (keyset mode cmp vals)).

Section Paging.
Context `{Tokens}.

(** * Cursors *)

Definition encode_val (v : keyval) : value := match v with KText s => Str s | KInt z => Num (FormatInt z) end.
Definition decode_val (k : colKind) (v : value) : option keyval :=
  match k, v with
  | kindInt, Num s => KInt <$> ParseInt10 s
  | kindText, Str s => Some (KText s)
  | _, _ => None
  end.

Definition cursorToken (sort : string) (desc : bool) (vals : list keyval) : value :=
  Map [("k", Str sort); ("d", Bool desc); ("v", Arr (encode_val <$> vals))].

(** The token, or a number of values that is not that of the columns. *)
Definition encodeCursor (sort : string) (desc : bool) (mode : sortMode) (vals : list keyval) : option string :=
  if Nat.eqb (length vals) (length mode) then Some (write_token (cursorToken sort desc vals)) else None.

Fixpoint decode_vals (mode : sortMode) (vs : list value) : option (list keyval) :=
  match mode, vs with
  | [], [] => Some []
  | kc :: mode, v :: vs => x ← decode_val (kind kc) v; xs ← decode_vals mode vs; Some (x :: xs)
  | _, _ => None
  end.

(** The struct of a decoded token: an absent field or null is its zero. *)
Definition token_struct (v : value) : option (string * bool * list value) :=
  match v with
  | Map fields =>
      let field k := default Null (lookup_key k fields) in
      k ← match field "k" with Null => Some "" | Str s => Some s | _ => None end;
      d ← match field "d" with Null => Some false | Bool b => Some b | _ => None end;
      vs ← match field "v" with Null => Some [] | Arr l => Some l | _ => None end;
      Some (k, d, vs)
  | Null => Some ("", false, [])
  | _ => None
  end.

Definition decodeCursor (tok sort : string) (desc : bool) (mode : sortMode) : result page_error (list keyval) :=
  v ← of_option InvalidCursor (read_token tok);
  '(k, d, vs) ← of_option InvalidCursor (token_struct v);
  if negb (String.eqb k sort) || negb (Bool.eqb d desc) then Err OtherSort
  else of_option InvalidCursor (decode_vals mode vs).

(** * The plan *)

(** [built]: the filters, the cursor's terms, and how the page is scanned. *)
Record built := mkBuilt {
  b_pg : paginator; b_conds : list cond; b_keyset : option (list (list cond));
  b_mode : sortMode; b_sort : string; b_desc : bool; b_limit : Z; b_backward : bool }.

(** Forward follows the display order, backward reverses it. *)
Definition scanAsc (b : built) : bool := if b_backward b then b_desc b else negb (b_desc b).

Definition clamp_limit (pg : paginator) (n : Z) : Z :=
  let n := if n <=? 0 then defLimit pg else n in
  if maxLimit pg <? n then maxLimit pg else n.

Definition build (q : listQuery) : result page_error built :=
  match err q with
  | Some e => Err e
  | None =>
      let key := if String.eqb (Sort (req q)) "" then defSort (pg q) else Sort (req q) in
      match List.find (fun s => String.eqb (fst s) key) (sorts (pg q)) with
      | None => Err (UnknownSort (Sort (req q)))
      | Some (_, mode) =>
          let desc := default (defDesc (pg q)) (Desc (req q)) in
          let limit := clamp_limit (pg q) (Limit (req q)) in
          let backward := negb (String.eqb (Before (req q)) "") in
          let tok := if backward then Before (req q) else After (req q) in
          let asc := if backward then desc else negb desc in
          keys ← (if String.eqb tok "" then Ok None
                  else vals ← decodeCursor tok key desc mode;
                       Ok (Some (keyset mode (if asc then OpGt else OpLt) vals)));
          Ok (mkBuilt (pg q) (conds q) keys mode key desc limit backward)
      end
  end.

Definition whereClause (texts : list string) : string :=
  match texts with [] => "" | _ => " WHERE " +:+ String.concat " AND " texts end.

Definition base_texts (pg : paginator) : list string := if String.eqb (baseWhere pg) "" then [] else [baseWhere pg].
Definition countConds (b : built) : list string := base_texts (b_pg b) ++ (cond_text <$> b_conds b).

Definition pageSQL (b : built) : string :=
  "SELECT " +:+ columns (b_pg b) +:+ " FROM " +:+ table (b_pg b) +:+
  whereClause (countConds b ++ match b_keyset b with Some ks => [keyset_text ks] | None => [] end) +:+
  " ORDER BY " +:+ String.concat ", " ((fun kc => col kc +:+ (if scanAsc b then " ASC" else " DESC")) <$> b_mode b) +:+
  " LIMIT ?".
Definition pageArgs (b : built) : list keyval :=
  cond_args (b_conds b) ++ match b_keyset b with Some ks => keyset_args ks | None => [] end ++ [KInt (b_limit b)].

(** One side of the counts, before the first row or after the last. *)
Definition side_cmp (b : built) (before : bool) : op := if Bool.eqb before (b_desc b) then OpGt else OpLt.
Definition side_text (b : built) (vals : list keyval) (before : bool) : string * list keyval :=
  match vals with
  | [] => ("0", [])
  | _ =>
      let '(pred, args) := keysetPredicate (b_mode b) (side_cmp b before) vals in
      ("(SELECT COUNT(*) FROM (SELECT 1 FROM " +:+ table (b_pg b) +:+ whereClause (countConds b ++ [pred]) +:+
       " LIMIT " +:+ FormatInt (pageCountCap + 1) +:+ ") c)", cond_args (b_conds b) ++ args)
  end.
Definition countQuery (b : built) (first last : list keyval) : string * list keyval :=
  let '(t1, a1) := side_text b first true in
  let '(t2, a2) := side_text b last false in
  ("SELECT " +:+ t1 +:+ ", " +:+ t2, a1 ++ a2).

(** * Running it *)

Record PageInfo := mkInfo {
  Size : Z; ItemsBefore : Z; ItemsAfter : Z; i_sort : string; Order : string; i_after : string; i_before : string }.

Section Run.
Context {row : Type} (value_of : row -> string -> keyval) (base_holds : string -> row -> bool)
  (collate : string -> string -> comparison).

Definition compare_val (a b : keyval) : comparison :=
  match a, b with
  | KInt x, KInt y => Z.compare x y
  | KText s, KText t => collate s t
  | KInt _, KText _ => Lt
  | KText _, KInt _ => Gt
  end.

Definition holds (r : row) (c : cond) : bool :=
  match c_op c with
  | OpIn => bool_decide (value_of r (c_col c) ∈ c_vals c)
  | o => match c_vals c with
         | [v] => match o, compare_val (value_of r (c_col c)) v with
                  | OpEq, Datatypes.Eq | OpGt, Gt | OpLt, Lt | OpGte, Gt | OpGte, Datatypes.Eq => true
                  | _, _ => false
                  end
         | _ => false
         end
  end.

Definition filtered (b : built) (r : row) : bool :=
  (String.eqb (baseWhere (b_pg b)) "" || base_holds (baseWhere (b_pg b)) r) && forallb (holds r) (b_conds b).
Definition keyset_holds (ks : list (list cond)) (r : row) : bool := existsb (forallb (holds r)) ks.

Definition key (mode : sortMode) (r : row) : list keyval := (fun kc => value_of r (col kc)) <$> mode.

Fixpoint lex (a b : list keyval) : comparison :=
  match a, b with
  | x :: a, y :: b => match compare_val x y with Datatypes.Eq => lex a b | c => c end
  | _, _ => Datatypes.Eq
  end.

(** [ORDER BY] every key column in one direction. *)
Definition in_order (asc : bool) (mode : sortMode) (r r' : row) : Prop :=
  lex (key mode r) (key mode r') <> (if asc then Gt else Lt).
#[local] Instance in_order_dec asc mode r r' : Decision (in_order asc mode r r').
Proof. unfold in_order. apply _. Defined.

(** What the page statement selects. *)
Definition select (b : built) (rows : list row) : list row :=
  take (Z.to_nat (b_limit b)) (merge_sort (in_order (scanAsc b) (b_mode b))
    (List.filter (fun r => filtered b r && match b_keyset b with Some ks => keyset_holds ks r | None => true end) rows)).

(** A bounded count. *)
Definition count_side (b : built) (rows : list row) (vals : list keyval) (before : bool) : Z :=
  match vals with
  | [] => 0
  | _ => Z.min (pageCountCap + 1) (Z.of_nat (length (List.filter
           (fun r => filtered b r && keyset_holds (keyset (b_mode b) (side_cmp b before) vals) r) rows)))
  end.

(** [orient]: display order, and the keys of the boundary rows. *)
Definition orient (b : built) (rows : list row) : list row * list keyval * list keyval :=
  let rows := if b_backward b then rev rows else rows in
  (rows, match head rows with Some r => key (b_mode b) r | None => [] end,
         match last rows with Some r => key (b_mode b) r | None => [] end).

(** [pageInfo]: a cursor where there are more rows; one that cannot be written fails. *)
Definition cursor_if (b : built) (n : Z) (vals : list keyval) : option string :=
  if 0 <? n then encodeCursor (b_sort b) (b_desc b) (b_mode b) vals else Some "".

Definition pageInfo (b : built) (rows : list row) (first last : list keyval) : option PageInfo :=
  let before := count_side b rows first true in
  let after := count_side b rows last false in
  tb ← cursor_if b before first;
  ta ← cursor_if b after last;
  Some (mkInfo (b_limit b) before after (b_sort b) (if b_desc b then "desc" else "asc") ta tb).

Definition runPage (b : built) (rows : list row) : option (list row * PageInfo) :=
  let '(items, first, last) := orient b (select b rows) in
  info ← pageInfo b rows first last;
  Some (items, info).

End Run.
End Paging.

(** * Placeholders *)

(** [rewritePlaceholders]: [?N] keeps its number, each [?] takes the next. *)
Fixpoint rewrite_loop (fuel : nat) (q : string) (n : Z) : string :=
  match fuel with
  | O => ""
  | S fuel =>
      match q with
      | "" => ""
      | String c q =>
          if negb (Ascii.eqb c "?") then String c (rewrite_loop fuel q n)
          else let '(digits, rest) := span_digits q in
               if String.eqb digits "" then "$" +:+ FormatInt (n + 1) +:+ rewrite_loop fuel rest (n + 1)
               else "$" +:+ digits +:+ rewrite_loop fuel rest n
      end
  end.
Definition rewritePlaceholders (q : string) : string := rewrite_loop (S (String.length q)) q 0.

End Paginate.
