(* ===== verification/Pages.v ===== *)
(** What a walk over the pages of [Paginate] sees: each page is a stretch of the listing in
    display order, its counts are those of the rows outside it, and following the cursors
    visits every row once.  With it, what becomes of a statement's placeholders on Postgres. *)
From Stdlib Require Import ZArith Lia Ascii String.
From stdpp Require Import sorting.
From S2P Require Import Prelude GoStrings Json Paginate.
Import Json.
Open Scope string_scope.
Open Scope list_scope.
Open Scope Z_scope.

Module Pages.
Import Paginate.

Section Order.
Context {row : Type} (value_of : row -> string -> keyval) (base_holds : string -> row -> bool)
  (collate : string -> string -> comparison).
(** Text is totally ordered, and only equal text compares equal. *)
Context (collate_eq : forall s t, collate s t = Datatypes.Eq -> s = t)
  (collate_anti : forall s t, collate t s = CompOpp (collate s t))
  (collate_trans : forall s t u, collate s t = Lt -> collate t u = Lt -> collate s u = Lt).

Implicit Types (r : row) (rows l : list row) (mode : sortMode) (vals : list keyval).

Abbreviation compare_val := (compare_val collate).
Abbreviation lex := (lex collate).
Abbreviation key := (key value_of).
Abbreviation in_order := (in_order value_of collate).
Abbreviation holds := (holds value_of collate).
Abbreviation keyset_holds := (keyset_holds value_of collate).

Lemma collate_refl s : collate s s = Datatypes.Eq.
Proof using collate_anti. pose proof (collate_anti s s) as Ha. by destruct (collate s s). Qed.

Lemma val_eq x y : compare_val x y = Datatypes.Eq <-> x = y.
Proof using collate_eq collate_anti.
  split.
  - destruct x, y; cbn; try done; [by intros ->%collate_eq|by intros ->%Z.compare_eq].
  - intros ->. destruct y; cbn; [apply collate_refl|apply Z.compare_refl].
Qed.

Lemma val_anti x y : compare_val y x = CompOpp (compare_val x y).
Proof using collate_anti. destruct x, y; cbn; try done. apply Z.compare_antisym. Qed.

Lemma val_trans x y z : compare_val x y = Lt -> compare_val y z = Lt -> compare_val x z = Lt.
Proof using collate_trans.
  destruct x, y, z; cbn; try done; [by apply collate_trans|]. rewrite !Z.compare_lt_iff. lia.
Qed.

Lemma lex_refl (a : list keyval) : lex a a = Datatypes.Eq.
Proof using collate_eq collate_anti. induction a as [|x a IH]; cbn; [done|]. by rewrite (proj2 (val_eq x x) eq_refl). Qed.

Lemma lex_eq (a b : list keyval) : length a = length b -> lex a b = Datatypes.Eq -> a = b.
Proof using collate_eq collate_anti.
  revert b. induction a as [|x a IH]; intros [|y b]; cbn; try done. intros Hl.
  destruct (compare_val x y) eqn:E; try done. apply val_eq in E as ->. intros Hx. f_equal. apply IH; [lia|done].
Qed.

Lemma lex_anti (a b : list keyval) : lex b a = CompOpp (lex a b).
Proof using collate_anti.
  revert b. induction a as [|x a IH]; intros [|y b]; cbn; try done. rewrite (val_anti x y).
  destruct (compare_val x y); cbn; [apply IH|done|done].
Qed.

Lemma lex_trans (a b c : list keyval) : length a = length b -> length b = length c -> lex a b = Lt -> lex b c = Lt -> lex a c = Lt.
Proof using collate_eq collate_anti collate_trans.
  revert b c. induction a as [|x a IH]; intros [|y b] [|z c]; cbn; try done. intros H1 H2.
  destruct (compare_val x y) eqn:E1; [apply val_eq in E1 as ->|destruct (compare_val y z) eqn:E2|done].
  - destruct (compare_val y z); [|done|done]. apply IH; lia.
  - apply val_eq in E2 as ->. by rewrite E1.
  - by rewrite (val_trans x y z).
  - done.
Qed.

Lemma key_length mode r : length (key mode r) = length mode.
Proof using. apply length_fmap. Qed.

(** * The cursor predicate *)

Definition past (cmp : op) (x : comparison) : bool := match cmp, x with OpGt, Gt | OpLt, Lt => true | _, _ => false end.

Lemma keyset_terms_hold done mode cmp vals r : (cmp = OpGt \/ cmp = OpLt) -> length vals = length mode ->
  keyset_holds (keyset_terms done mode cmp vals) r = forallb (holds r) done && past cmp (lex (key mode r) vals).
Proof using.
  intros Hc. revert done vals. induction mode as [|kc mode IH]; intros done [|v vals]; cbn [keyset_terms length].
  - intros _. cbn. by destruct Hc as [-> | ->]; rewrite andb_false_r.
  - done.
  - done.
  - intros [= Hl]. unfold keyset_holds, Paginate.keyset_holds. cbn [existsb]. fold (keyset_holds (keyset_terms (done ++ [mkCond (col kc) OpEq [v]]) mode cmp vals) r).
    rewrite IH by done. rewrite !forallb_app. cbn. destruct (forallb (holds r) done); [|done]. cbn.
    unfold Paginate.holds. cbn. destruct Hc as [-> | ->]; cbn;
      destruct (compare_val (value_of r (col kc)) v); cbn; rewrite ?orb_false_r, ?andb_true_r; done.
Qed.

Lemma keyset_hold mode cmp vals r : (cmp = OpGt \/ cmp = OpLt) -> length vals = length mode ->
  keyset_holds (keyset mode cmp vals) r = past cmp (lex (key mode r) vals).
Proof using. intros Hc Hl. unfold keyset. by rewrite keyset_terms_hold. Qed.

(** * Sorting rows with distinct keys *)

Definition lt (asc : bool) mode r r' : Prop := lex (key mode r) (key mode r') = (if asc then Lt else Gt).

#[local] Instance order_dec asc mode r r' : Decision (in_order asc mode r r').
Proof. unfold Paginate.in_order. apply _. Defined.

#[local] Instance order_total asc mode : Total (in_order asc mode).
Proof using collate_anti.
  intros r r'. unfold Paginate.in_order. rewrite (lex_anti (key mode r)). destruct asc, (lex (key mode r) (key mode r')); cbn; auto.
Qed.

#[local] Instance order_trans asc mode : Transitive (in_order asc mode).
Proof using collate_eq collate_anti collate_trans.
  intros x y z. unfold Paginate.in_order.
  destruct (lex (key mode x) (key mode y)) eqn:E1, (lex (key mode y) (key mode z)) eqn:E2; destruct asc; try done; intros _ _.
  all: try (apply lex_eq in E1; [|by rewrite !key_length]; rewrite E1, ?E2; done).
  all: try (apply lex_eq in E2; [|by rewrite !key_length]; rewrite <- E2, ?E1; done).
  all: try (rewrite (lex_trans _ _ _ ltac:(by rewrite !key_length) ltac:(by rewrite !key_length) E1 E2); done).
  rewrite lex_anti. rewrite (lex_trans (key mode z) (key mode y) (key mode x)); try done; try (by rewrite !key_length).
  - by rewrite lex_anti, E2.
  - by rewrite lex_anti, E1.
Qed.

Definition distinct mode l : Prop := NoDup (key mode <$> l).

Lemma distinct_inj mode l r r' : distinct mode l -> r ∈ l -> r' ∈ l -> key mode r = key mode r' -> r = r'.
Proof using.
  intros Hd [n Hn]%list_elem_of_lookup [m Hm]%list_elem_of_lookup E.
  assert (n = m) as -> by (eapply NoDup_lookup; [exact Hd|by rewrite list_lookup_fmap, Hn|by rewrite list_lookup_fmap, Hm, E]).
  congruence.
Qed.

Lemma distinct_perm mode l l' : l ≡ₚ l' -> distinct mode l -> distinct mode l'.
Proof using. unfold distinct. by intros ->. Qed.

Lemma distinct_filter mode p l : distinct mode l -> distinct mode (List.filter p l).
Proof using.
  unfold distinct. induction l as [|x l IH]; cbn; [done|]. intros [Hx Hl]%NoDup_cons. destruct (p x); [|by apply IH].
  cbn. constructor; [|by apply IH]. intros (y & Ey & Hy)%list_elem_of_fmap. apply Hx. rewrite Ey.
  apply list_elem_of_fmap. exists y. split; [done|]. apply list_elem_of_In in Hy. apply filter_In in Hy as [Hy _]. by apply list_elem_of_In.
Qed.

(** Sorted both ways round, two lists of the same rows are the same. *)
Lemma order_unique asc mode l l' : distinct mode l -> l ≡ₚ l' ->
  StronglySorted (in_order asc mode) l -> StronglySorted (in_order asc mode) l' -> l = l'.
Proof using collate_eq collate_anti.
  intros Hd Hp Hl Hl'. eapply StronglySorted_unique_strong; [|exact Hl|exact Hl'|exact Hp].
  intros x y Hx Hy. rewrite <- Hp in Hy. unfold Paginate.in_order. rewrite (lex_anti (key mode x)). intros H1 H2.
  eapply distinct_inj; [exact Hd|done..|]. apply lex_eq; [by rewrite !key_length|].
  by destruct (lex (key mode x) (key mode y)), asc.
Qed.

Definition sorted asc mode l : list row := merge_sort (in_order asc mode) l.

Lemma sorted_strongly asc mode l : StronglySorted (in_order asc mode) (sorted asc mode l).
Proof using collate_eq collate_anti collate_trans. apply StronglySorted_merge_sort; apply _. Qed.

Lemma sorted_perm asc mode l : sorted asc mode l ≡ₚ l.
Proof using. apply merge_sort_Permutation. Qed.

Lemma strongly_filter {A} (R : A -> A -> Prop) p (l : list A) : StronglySorted R l -> StronglySorted R (List.filter p l).
Proof using.
  induction 1 as [|x l Hs IH Hf]; cbn; [constructor|]. destruct (p x); [|done]. constructor; [done|].
  rewrite Forall_forall in *. intros y Hy. apply Hf. apply list_elem_of_In in Hy. apply filter_In in Hy as [Hy _].
  by apply list_elem_of_In.
Qed.

Lemma filter_perm {A} (p : A -> bool) (l l' : list A) : l ≡ₚ l' -> List.filter p l ≡ₚ List.filter p l'.
Proof using.
  induction 1 as [|x l l' H IH|x y l|l l' l'' H1 IH1 H2 IH2]; cbn; [done| | |by etrans].
  - destruct (p x); by rewrite IH.
  - destruct (p x), (p y); done || constructor.
Qed.

Lemma sorted_filter asc mode p l : distinct mode l -> sorted asc mode (List.filter p l) = List.filter p (sorted asc mode l).
Proof using collate_eq collate_anti collate_trans.
  intros Hd. apply (order_unique asc mode).
  - eapply distinct_perm; [symmetry; apply sorted_perm|]. by apply distinct_filter.
  - rewrite sorted_perm. apply filter_perm. by rewrite sorted_perm.
  - apply sorted_strongly.
  - apply strongly_filter, sorted_strongly.
Qed.

Lemma strongly_rev asc mode l : StronglySorted (in_order asc mode) l -> StronglySorted (in_order (negb asc) mode) (rev l).
Proof using collate_anti.
  induction l as [|x l IH]; cbn; [constructor|]. rewrite StronglySorted_cons. intros [Hf Hs].
  apply StronglySorted_app. split_and!; [|by apply IH|by repeat constructor].
  intros y z Hy ->%list_elem_of_singleton. rewrite Forall_forall in Hf.
  assert (Hxy : in_order asc mode x y) by (apply Hf; by apply list_elem_of_In, in_rev, list_elem_of_In).
  unfold Paginate.in_order in *. rewrite lex_anti. destruct (lex (key mode x) (key mode y)), asc; done.
Qed.

Lemma sorted_rev asc mode l : distinct mode l -> sorted (negb asc) mode l = rev (sorted asc mode l).
Proof using collate_eq collate_anti collate_trans.
  intros Hd. apply (order_unique (negb asc) mode).
  - eapply distinct_perm; [symmetry; apply sorted_perm|done].
  - rewrite sorted_perm, <- (Permutation_rev (sorted asc mode l)). by rewrite sorted_perm.
  - apply sorted_strongly.
  - apply strongly_rev, sorted_strongly.
Qed.

(** A sorted list is what a predicate that only turns true leaves out, then what it takes. *)
Lemma order_split {A} (R : A -> A -> Prop) p (l : list A) :
  (forall x y, x ∈ l -> y ∈ l -> R x y -> p x = true -> p y = true) -> StronglySorted R l ->
  l = List.filter (fun x => negb (p x)) l ++ List.filter p l.
Proof using.
  induction l as [|x l IH]; [done|]. intros Hp [Hf Hs]%StronglySorted_cons. cbn. destruct (p x) eqn:Ex; cbn.
  - rewrite Forall_forall in Hf.
    assert (Ht : forall y, y ∈ l -> p y = true).
    { intros y Hy. apply (Hp x y); [apply list_elem_of_here|by apply list_elem_of_further|by apply Hf|done]. }
    clear -Ht Ex. assert (List.filter (fun x => negb (p x)) l = [] /\ List.filter p l = l) as [-> ->]; [|done].
    induction l as [|y l IH]; [done|]. cbn. rewrite (Ht y) by apply list_elem_of_here. cbn.
    destruct IH as [-> ->]; [|done]. intros z Hz. by apply Ht, list_elem_of_further.
  - f_equal. apply IH; [|done]. intros y z Hy Hz. apply Hp; by apply list_elem_of_further.
Qed.

Lemma filter_all {A} (p : A -> bool) (l : list A) : (forall x, x ∈ l -> p x = true) -> List.filter p l = l.
Proof using.
  induction l as [|x l IH]; [done|]. intros Hp. cbn. rewrite Hp by apply list_elem_of_here. f_equal. apply IH.
  intros y Hy. by apply Hp, list_elem_of_further.
Qed.

Lemma filter_none {A} (p : A -> bool) (l : list A) : (forall x, x ∈ l -> p x = false) -> List.filter p l = [].
Proof using.
  induction l as [|x l IH]; [done|]. intros Hp. cbn. rewrite Hp by apply list_elem_of_here. apply IH.
  intros y Hy. by apply Hp, list_elem_of_further.
Qed.

(** The comparison of a row after, or before, another in display order. *)
Definition toward (asc before : bool) : op := if Bool.eqb before asc then OpLt else OpGt.

Lemma toward_past asc before mode x y z : in_order asc mode x y -> length z = length mode ->
  past (toward asc before) (lex (key mode (if before then y else x)) z) = true ->
  past (toward asc before) (lex (key mode (if before then x else y)) z) = true.
Proof using collate_eq collate_anti collate_trans.
  unfold Paginate.in_order, toward. intros Ho Hz.
  destruct (lex (key mode x) (key mode y)) eqn:E.
  { apply lex_eq in E; [|by rewrite !key_length]. destruct before; by rewrite E. }
  all: destruct asc, before; cbn in *; try done.
  - destruct (lex (key mode y) z) eqn:E2; try done. intros _. by rewrite (lex_trans _ _ z ltac:(by rewrite !key_length) ltac:(by rewrite key_length) E E2).
  - destruct (lex (key mode x) z) eqn:E2; try done. intros _. rewrite lex_anti in E2 |- *.
    rewrite (lex_trans z (key mode x) (key mode y)); [done|by rewrite key_length|by rewrite !key_length|by destruct (lex z _)|done].
  - destruct (lex (key mode y) z) eqn:E2; try done. intros _. rewrite lex_anti in E2, E |- *.
    rewrite (lex_trans z (key mode y) (key mode x)); [done|by rewrite key_length|by rewrite !key_length|by destruct (lex z _)|].
    by destruct (lex (key mode y) (key mode x)).
  - destruct (lex (key mode x) z) eqn:E2; try done. intros _. rewrite lex_anti in E.
    rewrite (lex_trans (key mode y) (key mode x) z); [done|by rewrite !key_length|by rewrite key_length| |done].
    by destruct (lex (key mode y) (key mode x)).
Qed.

(** The rows on either side of one of the list. *)
Lemma around asc mode l1 x l2 : distinct mode (l1 ++ x :: l2) -> StronglySorted (in_order asc mode) (l1 ++ x :: l2) ->
  List.filter (fun r => past (toward asc true) (lex (key mode r) (key mode x))) (l1 ++ x :: l2) = l1 /\
  List.filter (fun r => past (toward asc false) (lex (key mode r) (key mode x))) (l1 ++ x :: l2) = l2.
Proof using collate_eq collate_anti collate_trans.
  intros Hd [Ho [_ [Hf _]%StronglySorted_cons]]%StronglySorted_app. rewrite Forall_forall in Hf.
  unfold distinct in Hd. rewrite fmap_app in Hd. apply NoDup_app in Hd as (_ & Hn1 & [Hn2 _]%NoDup_cons).
  assert (Hb : forall r, r ∈ l1 -> lex (key mode r) (key mode x) = (if asc then Lt else Gt)).
  { intros r Hr. specialize (Ho r x Hr (list_elem_of_here x l2)). unfold Paginate.in_order in Ho.
    destruct (lex (key mode r) (key mode x)) eqn:E; [|by destruct asc..].
    apply lex_eq in E; [|by rewrite !key_length]. destruct (Hn1 (key mode r)); [by apply list_elem_of_fmap_2|].
    rewrite E. apply list_elem_of_here. }
  assert (Ha : forall r, r ∈ l2 -> lex (key mode r) (key mode x) = (if asc then Gt else Lt)).
  { intros r Hr. specialize (Hf r Hr). unfold Paginate.in_order in Hf. rewrite lex_anti.
    destruct (lex (key mode x) (key mode r)) eqn:E; [|by destruct asc..].
    apply lex_eq in E; [|by rewrite !key_length]. destruct Hn2. rewrite E. by apply list_elem_of_fmap_2. }
  rewrite !List.filter_app. cbn [List.filter]. rewrite lex_refl.
  split.
  - rewrite filter_all by (intros r Hr; rewrite Hb by done; by destruct asc).
    rewrite (filter_none _ l2) by (intros r Hr; rewrite Ha by done; by destruct asc).
    destruct asc; cbn; apply app_nil_r.
  - rewrite filter_none by (intros r Hr; rewrite Hb by done; by destruct asc).
    rewrite (filter_all _ l2) by (intros r Hr; rewrite Ha by done; by destruct asc).
    by destruct asc.
Qed.

(** * A page *)

Section Page.
Context `{Tokens}.

Abbreviation filtered := (filtered value_of base_holds collate).
Abbreviation select := (select value_of base_holds collate).
Abbreviation runPage := (runPage value_of base_holds collate).

Implicit Types (b : built) (q : listQuery).

(** The listing a page is cut from, in display order. *)
Definition display b rows : list row := sorted (negb (b_desc b)) (b_mode b) (List.filter (filtered b) rows).

Definition unique_keys b rows : Prop := distinct (b_mode b) (List.filter (filtered b) rows).

Lemma filter_and {A} (f g : A -> bool) (l : list A) :
  List.filter (fun x => f x && g x) l = List.filter g (List.filter f l).
Proof using. induction l as [|x l IH]; cbn; [done|]. destruct (f x); cbn; [|done]. destruct (g x); by rewrite IH. Qed.

Lemma filter_ext {A} (f g : A -> bool) (l : list A) : (forall x, f x = g x) -> List.filter f l = List.filter g l.
Proof using. intros E. induction l as [|x l IH]; cbn; [done|]. by rewrite E, IH. Qed.

Lemma decode_vals_length mode vs vals : decode_vals mode vs = Some vals -> length vals = length mode.
Proof using.
  revert vs vals. induction mode as [|kc mode IH]; intros [|v vs] vals; cbn; try done; [by intros [= <-]|].
  destruct (decode_val _ _); [cbn|done]. destruct (decode_vals mode vs) eqn:E; [cbn|done]. intros [= <-]. cbn. f_equal. by eapply IH.
Qed.

Lemma decodeCursor_length tok sort desc mode vals : decodeCursor tok sort desc mode = Ok vals -> length vals = length mode.
Proof using.
  unfold decodeCursor, mbind, result_bind. destruct (read_token tok); [cbn|done]. destruct (token_struct v) as [[[k d] vs]|]; [cbn|done].
  destruct (_ || _); [done|]. destruct (decode_vals mode vs) eqn:E; [|done]. intros [= <-]. by eapply decode_vals_length.
Qed.

(** A plan that was built: its cursor, if it has one, is a key of its columns. *)
Definition cursor_of b : option (list keyval) -> Prop := fun o =>
  match o with
  | None => b_keyset b = None /\ b_backward b = false
  | Some vals => length vals = length (b_mode b) /\
      b_keyset b = Some (keyset (b_mode b) (toward (negb (b_desc b)) (b_backward b)) vals)
  end.

(** The cursor a request names: what its token decodes to, under the plan's sort. *)
Definition named q b (o : option (list keyval)) : Prop :=
  let tok := if String.eqb (Before (req q)) "" then After (req q) else Before (req q) in
  match o with
  | None => tok = ""
  | Some vals => tok <> "" /\ decodeCursor tok (b_sort b) (b_desc b) (b_mode b) = Ok vals
  end.

Lemma build_named q b : build q = Ok b -> exists o, cursor_of b o /\ named q b o.
Proof using.
  unfold build, named. destruct (err q); [done|]. destruct (List.find _ _) as [[k mode]|]; [|done].
  unfold mbind, result_bind. destruct (String.eqb_spec (Before (req q)) "") as [Eb|Eb]; cbn [negb].
  - destruct (String.eqb_spec (After (req q)) "") as [Ea|Ea]; [intros [= <-]; by exists None|].
    destruct (decodeCursor _ _ _ _) as [vals|] eqn:Ed; [|done]. intros [= <-]. exists (Some vals).
    split; [|done]. split; [by eapply decodeCursor_length|]. cbn. unfold toward. by destruct (default _ _).
  - apply String.eqb_neq in Eb as Eb'. rewrite Eb'.
    destruct (decodeCursor _ _ _ _) as [vals|] eqn:Ed; [|done]. intros [= <-]. exists (Some vals).
    split; [|done]. split; [by eapply decodeCursor_length|]. cbn. unfold toward. by destruct (default _ _).
Qed.

Lemma build_cursor q b : build q = Ok b -> exists o, cursor_of b o.
Proof using. intros (o & Ho & _)%build_named. by exists o. Qed.

(** The rows on the cursor's far side. *)
Definition beyond b (vals : list keyval) (r : row) : bool :=
  past (toward (negb (b_desc b)) (b_backward b)) (lex (key (b_mode b) r) vals).

Lemma toward_op asc before : toward asc before = OpGt \/ toward asc before = OpLt.
Proof using. unfold toward. destruct (Bool.eqb before asc); auto. Qed.

Lemma select_display b rows o : unique_keys b rows -> cursor_of b o ->
  let L := List.filter (fun r => match o with Some vals => beyond b vals r | None => true end) (display b rows) in
  select b rows = take (Z.to_nat (b_limit b)) (if b_backward b then rev L else L).
Proof using collate_eq collate_anti collate_trans.
  intros Hu Hc L. unfold Paginate.select. f_equal.
  rewrite filter_and.
  assert (Eq : List.filter (fun r => match b_keyset b with Some ks => keyset_holds ks r | None => true end) (List.filter (filtered b) rows) =
    List.filter (fun r => match o with Some vals => beyond b vals r | None => true end) (List.filter (filtered b) rows)).
  { apply filter_ext. intros r. destruct o as [vals|].
    - destruct Hc as [Hl ->]. unfold beyond. by rewrite keyset_hold by (try apply toward_op; done).
    - by destruct Hc as [-> _]. }
  rewrite Eq. clear Eq. fold (sorted (scanAsc b) (b_mode b)
    (List.filter (fun r => match o with Some vals => beyond b vals r | None => true end) (List.filter (filtered b) rows))).
  unfold scanAsc. subst L. unfold display. destruct (b_backward b) eqn:Eb.
  - transitivity (sorted (negb (negb (b_desc b))) (b_mode b)
      (List.filter (fun r => match o with Some vals => beyond b vals r | None => true end) (List.filter (filtered b) rows))).
    { by rewrite negb_involutive. }
    rewrite sorted_rev by by apply distinct_filter. by rewrite sorted_filter.
  - rewrite <- sorted_filter by done. done.
Qed.

Lemma beyond_closed b vals rows : length vals = length (b_mode b) ->
  if b_backward b
  then display b rows = List.filter (beyond b vals) (display b rows) ++ List.filter (fun r => negb (beyond b vals r)) (display b rows)
  else display b rows = List.filter (fun r => negb (beyond b vals r)) (display b rows) ++ List.filter (beyond b vals) (display b rows).
Proof using collate_eq collate_anti collate_trans.
  intros Hl. pose proof (sorted_strongly (negb (b_desc b)) (b_mode b) (List.filter (filtered b) rows)) as Hs. fold (display b rows) in Hs.
  unfold beyond. destruct (b_backward b) eqn:Eb.
  - pose proof (order_split (in_order (negb (b_desc b)) (b_mode b)) (fun r => negb (past (toward (negb (b_desc b)) true) (lex (key (b_mode b) r) vals))) (display b rows)) as Hx.
    rewrite Hx at 1; [|..|exact Hs].
    + f_equal. apply filter_ext. intros r. by rewrite negb_involutive.
    + intros x y _ _ Ho. rewrite !negb_true_iff. intros Hp. destruct (past _ (lex (key (b_mode b) y) vals)) eqn:E; [|done].
      by rewrite (toward_past _ true _ x y vals Ho Hl E) in Hp.
  - apply (order_split (in_order (negb (b_desc b)) (b_mode b))); [|exact Hs]. intros x y _ _ Ho Hp.
    by apply (toward_past _ false _ x y vals Ho Hl).
Qed.

(** The stretch of the listing a page shows. *)
Definition slice b rows l1 items l2 : Prop :=
  display b rows = l1 ++ items ++ l2 /\ (orient value_of b (select b rows)).1.1 = items.

Lemma page_slice b rows o : unique_keys b rows -> cursor_of b o -> 0 < b_limit b ->
  exists l1 items l2, slice b rows l1 items l2 /\ Z.of_nat (length items) <= b_limit b /\
    if b_backward b then (Z.of_nat (length items) = b_limit b \/ l1 = []) /\
                         (forall vals, o = Some vals -> l2 = List.filter (fun r => negb (beyond b vals r)) (display b rows))
    else (Z.of_nat (length items) = b_limit b \/ l2 = []) /\
         l1 = match o with Some vals => List.filter (fun r => negb (beyond b vals r)) (display b rows) | None => [] end.
Proof using collate_eq collate_anti collate_trans.
  intros Hu Hc Hn. unfold slice, orient. rewrite (select_display b rows o Hu Hc). cbn [fst].
  set (n := Z.to_nat (b_limit b)). destruct (b_backward b) eqn:Eb.
  - destruct o as [vals|]; [|by destruct Hc as [_ Hc]; rewrite Hc in Eb]. destruct Hc as [Hl _].
    pose proof (beyond_closed b vals rows Hl) as Hs. rewrite Eb in Hs.
    set (F := List.filter (beyond b vals) (display b rows)) in *.
    exists (take (length F - n) F), (drop (length F - n) F), (List.filter (fun r => negb (beyond b vals r)) (display b rows)).
    rewrite app_assoc, take_drop. split; [split; [done|]|].
    + change (take n (rev F)) with (firstn n (rev F)). rewrite firstn_rev, rev_involutive. done.
    + rewrite length_drop. split; [lia|]. split; [|by intros v [= <-]].
      destruct (decide (n <= length F)%nat); [left; lia|right]. by replace (length F - n)%nat with 0%nat by lia.
  - set (F := List.filter (fun r => match o with Some vals => beyond b vals r | None => true end) (display b rows)).
    exists (match o with Some vals => List.filter (fun r => negb (beyond b vals r)) (display b rows) | None => [] end), (take n F), (drop n F).
    rewrite take_drop. split; [split; [|done]|].
    + subst F. destruct o as [vals|].
      * destruct Hc as [Hl _]. pose proof (beyond_closed b vals rows Hl) as Hs. by rewrite Eb in Hs.
      * cbn. by rewrite filter_all.
    + rewrite length_take. split; [lia|]. split; [|done].
      destruct (decide (n <= length F)%nat); [left; lia|right]. apply drop_ge. lia.
Qed.

(** * Its counts and cursors *)

Definition capped (n : nat) : Z := Z.min (pageCountCap + 1) (Z.of_nat n).

(** The count a page of these items gives of the rows on one side: an empty page has no row to
    count from. *)
Definition counted (items l : list row) : Z := match items with [] => 0 | _ => capped (length l) end.

Lemma side_count b rows x l1 l2 before : b_mode b <> [] -> unique_keys b rows -> display b rows = l1 ++ x :: l2 ->
  count_side value_of base_holds collate b rows (key (b_mode b) x) before = capped (length (if before then l1 else l2)).
Proof using collate_eq collate_anti collate_trans.
  intros Hm Hu Ed. unfold count_side, capped. destruct (key (b_mode b) x) as [|v vs] eqn:Ek.
  { destruct Hm. apply length_zero_iff_nil. by rewrite <- (key_length (b_mode b) x), Ek. }
  rewrite <- Ek. clear v vs Ek. f_equal. f_equal. rewrite filter_and.
  transitivity (length (List.filter (fun r => past (toward (negb (b_desc b)) before) (lex (key (b_mode b) r) (key (b_mode b) x))) (display b rows))).
  - rewrite (filter_ext _ (fun r => past (toward (negb (b_desc b)) before) (lex (key (b_mode b) r) (key (b_mode b) x)))).
    + apply Permutation_length, filter_perm. unfold display. by rewrite sorted_perm.
    + intros r. rewrite keyset_hold; [|unfold side_cmp; destruct (Bool.eqb _ _); auto|by rewrite key_length].
      unfold side_cmp, toward. by destruct before, (b_desc b).
  - pose proof (sorted_strongly (negb (b_desc b)) (b_mode b) (List.filter (filtered b) rows)) as Hs. fold (display b rows) in Hs.
    assert (Hd : distinct (b_mode b) (display b rows)) by (eapply distinct_perm; [symmetry; apply sorted_perm|exact Hu]).
    rewrite Ed in *. destruct (around _ _ _ _ _ Hd Hs) as [E1 E2]. destruct before; [by rewrite E1|by rewrite E2].
Qed.

(** The token of a row, where there is more on its side. *)
Definition token_of b (x : row) : string := write_token (cursorToken (b_sort b) (b_desc b) (key (b_mode b) x)).
Lemma token_nonempty b x : String.eqb (token_of b x) "" = false.
Proof using. apply String.eqb_neq, write_nonempty. Qed.

Definition cursor_at b (l : list row) (x : option row) : string :=
  match l, x with _ :: _, Some x => token_of b x | _, _ => "" end.

Lemma cursor_of_row b n x : 0 <= n -> cursor_if b n (key (b_mode b) x) = Some (if 0 <? n then token_of b x else "").
Proof using.
  intros Hn. unfold cursor_if, encodeCursor. destruct (0 <? n); [|done]. by rewrite key_length, Nat.eqb_refl.
Qed.

Lemma capped_pos n : 0 <= capped n /\ (0 <? capped n) = match n with O => false | _ => true end.
Proof using.
  unfold capped, pageCountCap. split; [lia|]. destruct n as [|n]; [done|]. apply Z.ltb_lt. lia.
Qed.

Lemma info_of b rows l1 items l2 : b_mode b <> [] -> unique_keys b rows -> display b rows = l1 ++ items ++ l2 ->
  exists info, pageInfo value_of base_holds collate b rows
      match head items with Some r => key (b_mode b) r | None => [] end
      match last items with Some r => key (b_mode b) r | None => [] end = Some info /\
    ItemsBefore info = counted items l1 /\ ItemsAfter info = counted items l2 /\
    i_before info = cursor_at b l1 (head items) /\ i_after info = cursor_at b l2 (last items).
Proof using collate_eq collate_anti collate_trans.
  intros Hm Hu Hd. unfold pageInfo. destruct items as [|x items] using rev_ind; [by destruct l1, l2; eexists|]. clear IHitems.
  rewrite last_snoc. set (h := head (items ++ [x])). assert (exists y m, h = Some y /\ items ++ [x] = y :: m) as (y & m & -> & Ey)
    by (subst h; destruct items; by eexists _, _).
  assert (E1 : display b rows = l1 ++ y :: (m ++ l2)) by (rewrite Hd, Ey; done).
  assert (E2 : display b rows = (l1 ++ items) ++ x :: l2) by (rewrite Hd, <- !app_assoc; done).
  rewrite (side_count b rows y l1 (m ++ l2) true Hm Hu E1), (side_count b rows x (l1 ++ items) l2 false Hm Hu E2).
  destruct (capped_pos (length l1)) as [P1 Q1], (capped_pos (length l2)) as [P2 Q2].
  unfold mbind, option_bind. rewrite !cursor_of_row by done. eexists. split; [done|]. cbn [ItemsBefore ItemsAfter i_before i_after].
  rewrite Q1, Q2. unfold counted. split_and!; [by destruct items..|by destruct l1|by destruct l2].
Qed.

Lemma page_shown b rows o : cursor_of b o -> b_mode b <> [] -> 0 < b_limit b -> unique_keys b rows ->
  exists l1 items l2 info, display b rows = l1 ++ items ++ l2 /\ runPage b rows = Some (items, info) /\
    Z.of_nat (length items) <= b_limit b /\
    (Z.of_nat (length items) = b_limit b \/ (if b_backward b then l1 else l2) = []) /\
    (if b_backward b then l2 else l1) =
      match o with Some vals => List.filter (fun r => negb (beyond b vals r)) (display b rows) | None => [] end /\
    ItemsBefore info = counted items l1 /\ ItemsAfter info = counted items l2 /\
    i_before info = cursor_at b l1 (head items) /\ i_after info = cursor_at b l2 (last items).
Proof using collate_eq collate_anti collate_trans.
  intros Hc Hm Hn Hu. destruct (page_slice b rows o Hu Hc Hn) as (l1 & items & l2 & [Hd Hi] & Hle & Hb).
  destruct (info_of b rows l1 items l2 Hm Hu Hd) as (info & Hinfo & Hx). exists l1, items, l2, info. split_and!; try done; try apply Hx.
  - unfold Paginate.runPage. unfold orient in *. cbn [fst] in Hi. rewrite Hi, Hinfo. done.
  - by destruct (b_backward b), Hb.
  - destruct (b_backward b) eqn:Eb; [|apply Hb]. destruct o as [vals|]; [by apply Hb|]. destruct Hc as [_ Hc]. by rewrite Hc in Eb.
Qed.

(** A page is a stretch of the listing in display order: at most a limit of rows, and a full
    limit unless the listing ends there, on the far side of the cursor it was asked with -
    after it going forward, before it going backward, from the start without one.  Its counts
    are those of the rows it leaves on either side, up to the cap, and it names a cursor, that
    of its boundary row, exactly on the sides where there are rows. *)
Theorem page_exact q b rows : build q = Ok b -> b_mode b <> [] -> 0 < b_limit b -> unique_keys b rows ->
  exists o l1 items l2 info, cursor_of b o /\ display b rows = l1 ++ items ++ l2 /\ runPage b rows = Some (items, info) /\
    Z.of_nat (length items) <= b_limit b /\
    (Z.of_nat (length items) = b_limit b \/ (if b_backward b then l1 else l2) = []) /\
    (if b_backward b then l2 else l1) =
      match o with Some vals => List.filter (fun r => negb (beyond b vals r)) (display b rows) | None => [] end /\
    ItemsBefore info = counted items l1 /\ ItemsAfter info = counted items l2 /\
    i_before info = cursor_at b l1 (head items) /\ i_after info = cursor_at b l2 (last items).
Proof using collate_eq collate_anti collate_trans.
  intros Hb Hm Hn Hu. destruct (build_cursor q b Hb) as [o Ho].
  destruct (page_shown b rows o Ho Hm Hn Hu) as (l1 & items & l2 & info & Hx). by exists o, l1, items, l2, info.
Qed.

(** * The walk *)

(** The same request, resumed after a cursor. *)
Definition resume q (tok : string) : listQuery :=
  mkQuery (pg q) (mkReq (Sort (req q)) (Desc (req q)) (Limit (req q)) tok "") (conds q) (err q).

(** Page after page until one has no cursor to go on with. *)
Fixpoint walk (fuel : nat) q (tok : string) rows : option (list row) :=
  match fuel with
  | O => None
  | S fuel =>
      match build (resume q tok) with
      | Err _ => None
      | Ok b =>
          '(items, info) ← runPage b rows;
          if String.eqb (i_after info) "" then Some items
          else rest ← walk fuel q (i_after info) rows; Some (items ++ rest)
      end
  end.

(** The values of a row that a cursor can carry. *)
Definition carried b (r : row) : Prop :=
  Forall2 (fun kc v => of_kind (kind kc) v) (b_mode b) (key (b_mode b) r) /\
  survive (cursorToken (b_sort b) (b_desc b) (key (b_mode b) r)).

Lemma decode_encode_vals mode vals : Forall2 (fun kc v => of_kind (kind kc) v) mode vals ->
  decode_vals mode (encode_val <$> vals) = Some vals.
Proof using.
  induction 1 as [|kc v mode vals Hv Hf IH]; [done|]. cbn [fmap list_fmap decode_vals].
  assert (decode_val (kind kc) (encode_val v) = Some v) as ->.
  { destruct (kind kc), v; cbn in *; try done. by rewrite ParseInt10_FormatInt. }
  cbn. by rewrite IH.
Qed.

Lemma token_read sort desc vals : token_struct (cursorToken sort desc vals) = Some (sort, desc, encode_val <$> vals).
Proof using. reflexivity. Qed.

Lemma decode_token b r : carried b r ->
  decodeCursor (token_of b r) (b_sort b) (b_desc b) (b_mode b) = Ok (key (b_mode b) r).
Proof using.
  intros [Hk Hs]. unfold decodeCursor, token_of, mbind, result_bind. rewrite read_write by done. cbn [of_option].
  rewrite token_read. cbn [of_option]. rewrite String.eqb_refl, eqb_reflx. cbn [negb orb]. by rewrite decode_encode_vals.
Qed.

(** What a resumed request is built to. *)
Lemma build_resume q b x : build (resume q "") = Ok b -> carried b x ->
  exists b', build (resume q (token_of b x)) = Ok b' /\ b_pg b' = b_pg b /\ b_conds b' = b_conds b /\ b_mode b' = b_mode b /\
    b_sort b' = b_sort b /\ b_desc b' = b_desc b /\ b_limit b' = b_limit b /\ b_backward b' = false /\
    cursor_of b' (Some (key (b_mode b) x)).
Proof using.
  unfold build, resume. cbn [err req Sort Desc Limit After Before pg conds]. destruct (err q); [done|].
  destruct (List.find _ _) as [[k mode]|]; [|done]. cbn [negb String.eqb mbind result_bind]. intros [= <-] Hx.
  pose proof (decode_token _ x Hx) as Hd. cbn [b_sort b_desc b_mode] in Hd.
  rewrite token_nonempty. cbn [mbind result_bind]. rewrite Hd. eexists. split; [done|]. cbn. split_and!; try done.
  - apply (key_length mode).
  - unfold toward. by destruct (default _ _).
Qed.

Lemma display_same b b' rows : b_pg b' = b_pg b -> b_conds b' = b_conds b -> b_mode b' = b_mode b -> b_desc b' = b_desc b ->
  display b' rows = display b rows /\ (unique_keys b' rows <-> unique_keys b rows).
Proof using.
  intros E1 E2 E3 E4. assert (Ef : forall r, filtered b' r = filtered b r) by (intros r; unfold Paginate.filtered; by rewrite E1, E2).
  unfold display, unique_keys. rewrite E3, E4, (filter_ext _ _ rows Ef). done.
Qed.

Lemma list_snoc {A} (l : list A) : l <> [] -> exists (k : list A) x, l = k ++ [x].
Proof using. destruct l as [|x l _] using rev_ind; [done|]. by exists l, x. Qed.

(** From any page of the listing on. *)
Lemma walk_from q b0 rows m1 : build (resume q "") = Ok b0 -> b_mode b0 <> [] -> 0 < b_limit b0 -> unique_keys b0 rows ->
  (forall r, r ∈ display b0 rows -> carried b0 r) ->
  forall fuel m2 tok, display b0 rows = m1 ++ m2 ->
  (tok = "" /\ m1 = [] \/ exists l x, m1 = l ++ [x] /\ tok = token_of b0 x) -> (length m2 < fuel)%nat ->
  walk fuel q tok rows = Some m2.
Proof using collate_eq collate_anti collate_trans.
  intros Hb0 Hm Hn Hu Hcar fuel. revert m1. induction fuel as [|fuel IH]; intros m1 m2 tok Hd Htok Hf; [lia|]. cbn [walk].
  assert (Hpage : exists b items l2 info, build (resume q tok) = Ok b /\ runPage b rows = Some (items, info) /\ m2 = items ++ l2 /\
    (Z.of_nat (length items) = b_limit b0 \/ l2 = []) /\ i_after info = match l2, last items with _ :: _, Some x => token_of b0 x | _, _ => "" end).
  { destruct Htok as [[-> ->]|(l & x & -> & ->)].
    - destruct (build_cursor _ _ Hb0) as [o Ho]. assert (o = None /\ b_backward b0 = false) as [-> Eb].
      { unfold build, resume in Hb0. cbn [err req Sort Desc Limit After Before pg conds] in Hb0. destruct (err q); [done|].
        destruct (List.find _ _) as [[k mode]|]; [|done]. cbn in Hb0. injection Hb0 as <-. split; [|done].
        destruct o; [|done]. by destruct Ho. }
      destruct (page_shown b0 rows None Ho Hm Hn Hu) as (l1 & items & l2 & info & E & Hr & _ & Hl & H1 & _ & _ & _ & Ha).
      rewrite Eb in Hl, H1. subst l1. exists b0, items, l2, info. split_and!; try done.
      cbn in Hd, E. congruence.
    - assert (Hx : carried b0 x) by (apply Hcar; rewrite Hd; set_solver).
      destruct (build_resume q b0 x Hb0 Hx) as (b & Hb & E1 & E2 & E3 & E4 & E5 & E6 & E7 & Ho).
      destruct (display_same b0 b rows E1 E2 E3 E5) as [Ed Eu].
      destruct (page_shown b rows _ Ho ltac:(by rewrite E3) ltac:(by rewrite E6) ltac:(by apply Eu))
        as (l1 & items & l2 & info & E & Hr & _ & Hl & H1 & _ & _ & _ & Ha).
      rewrite E7 in Hl, H1. exists b, items, l2, info. split_and!; try done.
      + rewrite Ed, Hd in E, H1. rewrite <- app_assoc in E. cbn in E.
        pose proof (sorted_strongly (negb (b_desc b0)) (b_mode b0) (List.filter (filtered b0) rows)) as Hs. fold (display b0 rows) in Hs.
        assert (Hdd : distinct (b_mode b0) (display b0 rows)) by (eapply distinct_perm; [symmetry; apply sorted_perm|exact Hu]).
        rewrite Hd, <- app_assoc in Hs, Hdd. cbn in Hs, Hdd. destruct (around _ _ _ _ _ Hdd Hs) as [_ E8].
        assert (Ef : List.filter (beyond b (key (b_mode b0) x)) ((l ++ [x]) ++ m2) = m2).
        { rewrite <- app_assoc. cbn. rewrite <- E8 at 2. apply filter_ext. intros r. unfold beyond. by rewrite E3, E5, E7. }
        pose proof (beyond_closed b (key (b_mode b0) x) rows ltac:(by rewrite key_length, E3)) as Hsp. rewrite E7, Ed, Hd, Ef in Hsp.
        rewrite <- H1 in Hsp. rewrite <- app_assoc in Hsp. cbn in Hsp. rewrite E in Hsp. by apply app_inv_head in Hsp.
      + by rewrite E6 in Hl.
      + rewrite Ha. unfold cursor_at, token_of. by rewrite E3, E4, E5. }
  destruct Hpage as (b & items & l2 & info & -> & Hr & -> & Hl & Ha). rewrite Hr. cbn [mbind option_bind].
  destruct l2 as [|y l2]; [by rewrite Ha, app_nil_r|].
  destruct Hl as [Hl|]; [|done]. destruct (list_snoc items) as (l' & x & ->); [by intros ->; cbn in Hl; lia|].
  rewrite last_snoc in Ha. rewrite Ha, token_nonempty.
  rewrite (IH (m1 ++ l' ++ [x]) (y :: l2)); [done|by rewrite Hd, <- !app_assoc| |].
  - right. exists (m1 ++ l'), x. split; [by rewrite app_assoc|done].
  - rewrite !length_app in Hf. cbn in Hf |- *. lia.
Qed.

(** Walking a listing forward, each page's cursor handed to the next request, ends and shows
    every row the filters admit once, in display order - whatever the page size, the sort and
    the direction, for a sort whose columns tell the rows apart. *)
Theorem walk_complete q b rows : build (resume q "") = Ok b -> b_mode b <> [] -> 0 < b_limit b -> unique_keys b rows ->
  (forall r, r ∈ rows -> carried b r) ->
  walk (S (length rows)) q "" rows = Some (display b rows) /\
  display b rows ≡ₚ List.filter (filtered b) rows /\
  StronglySorted (in_order (negb (b_desc b)) (b_mode b)) (display b rows).
Proof using collate_eq collate_anti collate_trans.
  intros Hb Hm Hn Hu Hc. split_and!; [|apply sorted_perm|apply sorted_strongly].
  apply (walk_from q b rows [] Hb Hm Hn Hu); [|done|by left|].
  - intros r Hr. apply Hc. unfold display in Hr. rewrite sorted_perm in Hr. apply list_elem_of_In, filter_In in Hr as [Hr _].
    by apply list_elem_of_In.
  - unfold display. rewrite (Permutation_length (sorted_perm _ _ _)). pose proof (filter_length_le (filtered b) rows). lia.
Qed.

End Page.
End Order.
(** * Placeholders for Postgres *)

(** What the rewriting makes of the text between the question marks: a mark followed by
    digits keeps them, any other takes the next number. *)
Fixpoint renumber (n : Z) (pieces : list string) : string :=
  match pieces with
  | [] => ""
  | p :: pieces =>
      if String.eqb (span_digits p).1 "" then "$" +:+ FormatInt (n + 1) +:+ p +:+ renumber (n + 1) pieces
      else "$" +:+ p +:+ renumber n pieces
  end.

Lemma Split_cons s c : exists w ws, Split s c = w :: ws.
Proof.
  destruct s as [|d s]; cbn; [by exists "", []|]. destruct (Ascii.eqb d c); [by eexists _, _|].
  destruct (Split s c); by eexists _, _.
Qed.

Lemma span_all digits w : all_digits digits = true -> (match w with "" => True | String c _ => is_digit c = false end) ->
  span_digits (digits +:+ w) = (digits, w).
Proof.
  induction digits as [|d digits IH]; cbn; [by destruct w as [|c w]; cbn; [|intros _ ->]|].
  intros [Hd Hs]%andb_true_iff Hw. rewrite Hd. by rewrite IH.
Qed.

Lemma Split_digits digits rest : all_digits digits = true ->
  Split (digits +:+ rest) "?" = match Split rest "?" with w :: ws => (digits +:+ w) :: ws | [] => [] end.
Proof.
  induction digits as [|d digits IH]; cbn; [by destruct (Split_cons rest "?") as (w & ws & ->)|].
  intros [Hd Hs]%andb_true_iff. rewrite IH by done. destruct (Ascii.eqb_spec d "?") as [->|]; [done|].
  by destruct (Split_cons rest "?") as (w & ws & ->).
Qed.

Lemma Split_head s c w ws : Split s c = w :: ws -> match w with "" => True | String d _ => exists t, s = String d t end.
Proof.
  destruct s as [|d s]; cbn; [by intros [= <- _]|]. destruct (Ascii.eqb d c); [by intros [= <- _]|].
  destruct (Split s c); intros [= <- _]; by eexists.
Qed.

Lemma rewrite_loop_pieces fuel q n : (String.length q < fuel)%nat ->
  rewrite_loop fuel q n = match Split q "?" with p :: rest => p +:+ renumber n rest | [] => "" end.
Proof.
  revert q n. induction fuel as [|fuel IH]; intros q n; [lia|]. destruct q as [|c q]; [done|]. cbn [String.length]. intros Hf.
  cbn [rewrite_loop Split]. destruct (Ascii.eqb c "?"); cbn [negb].
  - pose proof (span_digits_spec q) as Hs. destruct (span_digits q) as [digits rest]. destruct Hs as (-> & Hd & Hr).
    assert (Hl : String.length (digits +:+ rest) = (String.length digits + String.length rest)%nat).
    { clear. induction digits as [|d digits IHd]; cbn; [done|]. by rewrite IHd. }
    rewrite Split_digits by done. destruct (Split_cons rest "?") as (w & ws & E). rewrite E. cbn [renumber].
    assert (Hw : match w with "" => True | String d _ => is_digit d = false end).
    { apply Split_head in E. destruct w as [|d w]; [done|]. destruct E as [t ->]. done. }
    rewrite span_all by done. cbn [fst]. destruct (String.eqb_spec digits "") as [->|].
    + rewrite IH by (cbn in *; lia). rewrite E. cbn. done.
    + rewrite IH by lia. rewrite E. by rewrite !str_app_assoc.
  - rewrite IH by lia. destruct (Split_cons q "?") as (w & ws & ->). done.
Qed.

(** The rewriting for Postgres leaves the text between the marks as it was, keeps the number
    of a numbered mark and numbers the others from one in the order they stand. *)
Theorem rewrite_exact q : rewritePlaceholders q = match Split q "?" with p :: rest => p +:+ renumber 0 rest | [] => "" end.
Proof. apply rewrite_loop_pieces. lia. Qed.

End Pages.
