(* ===== verification/Listings.v ===== *)
(** The listings the database offers over [Paginate]: the four paginators with the queries of
    ListInstances, ListLogs, ListTreeLogs, LogsFor, ListDefinitions and ListChannels
    (internal/db: db_instances.go, db_logs.go, db_registry.go; internal/model: logs.go).

    The theorems compose [Pages] with them: what a filter of a listing admits, that following a
    listing's cursors shows every row it admits once, and what one of its pages says of itself. *)
From Stdlib Require Import ZArith Lia Ascii String OrderedTypeEx.
From stdpp Require Import sorting.
From S2P Require Import Prelude GoStrings Json Paginate Pages.
Import Json.
Open Scope string_scope.
Open Scope list_scope.
Open Scope Z_scope.

Module Listings.
Import Paginate.

(** * Instances *)

Definition instanceSummaryColumns : string :=
  "id, parent_id, process_name, process_version, retry_count," +:+ String "010" (String "009" "") +:+
  "status, phase, task, error_message, error_code, created_at, updated_at".

Definition instancePaginator : paginator :=
  mkPaginator "process_instances" instanceSummaryColumns ""
    [("created", [mkCol "created_at" kindInt; mkCol "id" kindText]);
     ("updated", [mkCol "updated_at" kindInt; mkCol "id" kindText])]
    ["status"; "phase"; "task"; "error_code"; "process_name"; "process_version"; "parent_id"; "created_at"; "updated_at"]
    "created" true 20 100.

(** [model.InstanceSummary], its times in unix milliseconds. *)
Record InstanceSummary := mkSummary {
  s_ID : string; s_ParentID : string; s_ProcessName : string; s_ProcessVersion : Z; s_RetryCount : Z;
  s_Status : string; s_Phase : string; s_Task : string; s_Error : string; s_ErrorCode : string;
  s_CreatedAt : Z; s_UpdatedAt : Z }.

Definition instanceSummaryCursorVals (sort : string) (s : InstanceSummary) : list keyval :=
  if String.eqb sort "created" then [KInt (s_CreatedAt s); KText (s_ID s)]
  else [KInt (s_UpdatedAt s); KText (s_ID s)].

(** The columns of a row, as [scanInstanceSummary] reads them. *)
Definition scanInstanceSummary (s : InstanceSummary) (col : string) : keyval :=
  if String.eqb col "id" then KText (s_ID s)
  else if String.eqb col "parent_id" then KText (s_ParentID s)
  else if String.eqb col "process_name" then KText (s_ProcessName s)
  else if String.eqb col "process_version" then KInt (s_ProcessVersion s)
  else if String.eqb col "retry_count" then KInt (s_RetryCount s)
  else if String.eqb col "status" then KText (s_Status s)
  else if String.eqb col "phase" then KText (s_Phase s)
  else if String.eqb col "task" then KText (s_Task s)
  else if String.eqb col "error_message" then KText (s_Error s)
  else if String.eqb col "error_code" then KText (s_ErrorCode s)
  else if String.eqb col "created_at" then KInt (s_CreatedAt s)
  else KInt (s_UpdatedAt s).

Record InstanceQuery := mkIQ {
  Statuses : list string; Phase : string; Task : string; ErrorCode : string; Process : string; Version : Z;
  RootsOnly : bool; Created : Window; Updated : Window; Page : PageReq }.

Definition nonempty (s : string) : bool := negb (String.eqb s "").

Definition anySlice (ss : list string) : list keyval := KText <$> ss.

Definition instances_query (opts : InstanceQuery) : listQuery :=
  let q := query instancePaginator (Page opts) in
  let q := InIf q "status" (anySlice (Statuses opts)) (0 <? Z.of_nat (length (Statuses opts))) in
  let q := EqIf q "phase" (KText (Phase opts)) (nonempty (Phase opts)) in
  let q := EqIf q "task" (KText (Task opts)) (nonempty (Task opts)) in
  let q := EqIf q "error_code" (KText (ErrorCode opts)) (nonempty (ErrorCode opts)) in
  let q := EqIf q "process_name" (KText (Process opts)) (nonempty (Process opts)) in
  let q := EqIf q "process_version" (KInt (Version opts)) (negb (Version opts =? 0)) in
  let q := EqIf q "parent_id" (KText "") (RootsOnly opts) in
  apply (Updated opts) (apply (Created opts) q "created_at") "updated_at".

(** * Logs *)

Definition logColumns : string :=
  "pl.id, pl.instance_id, pl.level, pl.event, pl.task_id, pl.message, pl.code, pl.data, pl.objects, pl.meta, pl.created_at, pl.actor, pl.seq".

Definition logPaginator : paginator :=
  mkPaginator "process_logs pl" logColumns ""
    [("created", [mkCol "pl.created_at" kindInt; mkCol "pl.seq" kindInt; mkCol "pl.id" kindText])]
    ["pl.instance_id"; "pl.root_id"; "pl.level"; "pl.created_at"] "created" true 20 100.

(** [LogLevelsAtLeast]: the level and those above it; none for an unknown one. *)
Fixpoint from_level (min : string) (order : list string) : list string :=
  match order with [] => [] | l :: order' => if String.eqb l min then order else from_level min order' end.
Definition LogLevels : list string := ["debug"; "info"; "warn"; "error"].
Definition LogLevelsAtLeast (min : string) : list string := from_level min LogLevels.

Definition levelFloor (min : string) : list keyval :=
  match LogLevelsAtLeast min with [] => [KText min] | levels => KText <$> levels end.

Record LogQuery := mkLQ { l_Level : string; l_Created : Window; l_Page : PageReq }.

(** ListLogs filters on the row's instance, ListTreeLogs on its root. *)
Definition logs_query (col id : string) (opts : LogQuery) : listQuery :=
  let q := Eq (query logPaginator (l_Page opts)) col (KText id) in
  let q := InIf q "pl.level" (levelFloor (l_Level opts)) (nonempty (l_Level opts)) in
  apply (l_Created opts) q "pl.created_at".
Definition ListLogs (id : string) (opts : LogQuery) : listQuery := logs_query "pl.instance_id" id opts.
Definition ListTreeLogs (rootID : string) (opts : LogQuery) : listQuery := logs_query "pl.root_id" rootID opts.

(** [LogsFor]: a root's whole tree unless it is asked flat; [root] is the root the instance
    row names, if there is such a row. *)
Definition LogsFor (root : option string) (id : string) (flat : bool) (opts : LogQuery) : listQuery :=
  if negb flat && bool_decide (root = Some id) then ListTreeLogs id opts else ListLogs id opts.

(** * Definitions and channels *)

Definition definitionPaginator : paginator :=
  mkPaginator "process_definitions" "name, version, definition, created_at, actor" ""
    [("created", [mkCol "created_at" kindInt; mkCol "name" kindText; mkCol "version" kindInt]);
     ("name", [mkCol "name" kindText; mkCol "version" kindInt])]
    ["created_at"] "created" true 20 100.
Definition ListDefinitions (created : Window) (req : PageReq) : listQuery :=
  apply created (query definitionPaginator req) "created_at".

Definition channelPaginator : paginator :=
  mkPaginator "process_channels" "channel, version, updated_at, actor" ""
    [("channel", [mkCol "channel" kindText])] ["name"] "channel" false 20 100.
Definition ListChannels (name : string) (req : PageReq) : listQuery := Eq (query channelPaginator req) "name" (KText name).

(** * Running a listing of instances *)

Section List.
Context `{Tokens} (collate : string -> string -> comparison).

(** [ListInstances] over the rows of the table; a page or the error. *)
Definition ListInstances (opts : InstanceQuery) (rows : list InstanceSummary) : result page_error (list InstanceSummary * PageInfo) :=
  b ← build (instances_query opts);
  of_option CursorValues (runPage scanInstanceSummary (fun _ _ => true) collate b rows).

End List.

(** * What a listing admits *)

Definition exact_or_any (want v : string) : bool := String.eqb want "" || String.eqb v want.
Definition in_window (w : Window) (t : Z) : bool := ((from_ w <=? 0) || (from_ w <=? t)) && ((to_ w <=? 0) || (t <? to_ w)).

(** An instance the options of a listing ask for. *)
Definition matches (opts : InstanceQuery) (s : InstanceSummary) : bool :=
  (bool_decide (Statuses opts = []) || bool_decide (s_Status s ∈ Statuses opts)) &&
  exact_or_any (Phase opts) (s_Phase s) && exact_or_any (Task opts) (s_Task s) &&
  exact_or_any (ErrorCode opts) (s_ErrorCode s) && exact_or_any (Process opts) (s_ProcessName s) &&
  ((Version opts =? 0) || (s_ProcessVersion s =? Version opts)) &&
  (negb (RootsOnly opts) || String.eqb (s_ParentID s) "") &&
  in_window (Created opts) (s_CreatedAt s) && in_window (Updated opts) (s_UpdatedAt s).

Definition when (b : bool) (c : cond) : list cond := if b then [c] else [].

Lemma EqIf_ok pg r cs c v inc : allowsFilter pg c = true ->
  EqIf (mkQuery pg r cs None) c v inc = mkQuery pg r (cs ++ when inc (mkCond c OpEq [v])) None.
Proof. intros Ha. unfold EqIf, Eq, add_cond, when. cbn. rewrite Ha. destruct inc; [done|]. by rewrite app_nil_r. Qed.

Lemma Eq_ok pg r cs c v : allowsFilter pg c = true -> Eq (mkQuery pg r cs None) c v = mkQuery pg r (cs ++ [mkCond c OpEq [v]]) None.
Proof. intros Ha. by apply (EqIf_ok _ _ _ _ _ true). Qed.

Lemma InIf_ok pg r cs c vs inc : allowsFilter pg c = true -> (inc = true -> vs <> []) ->
  InIf (mkQuery pg r cs None) c vs inc = mkQuery pg r (cs ++ when inc (mkCond c OpIn vs)) None.
Proof.
  intros Ha Hv. unfold InIf, add_cond, when. destruct inc; cbn [negb err c_col Paginate.pg]; [|by rewrite app_nil_r].
  rewrite Ha. destruct vs; [|done]. by destruct Hv.
Qed.

Definition window_conds (w : Window) (c : string) : list cond :=
  when (0 <? from_ w) (mkCond c OpGte [KInt (from_ w)]) ++ when (0 <? to_ w) (mkCond c OpLt [KInt (to_ w)]).
Lemma apply_ok pg r cs w c : allowsFilter pg c = true ->
  apply w (mkQuery pg r cs None) c = mkQuery pg r (cs ++ window_conds w c) None.
Proof.
  intros Ha. unfold apply, window_conds. rewrite app_assoc. generalize (0 <? from_ w), (0 <? to_ w). intros f u.
  assert (E : GteIf (mkQuery pg r cs None) c (KInt (from_ w)) f = mkQuery pg r (cs ++ when f (mkCond c OpGte [KInt (from_ w)])) None).
  { unfold GteIf, add_cond, when. cbn. rewrite Ha. destruct f; [done|]. by rewrite app_nil_r. }
  rewrite E. unfold LtIf, add_cond, when. cbn. rewrite Ha. destruct u; [done|]. by rewrite app_nil_r.
Qed.

Definition instances_conds (opts : InstanceQuery) : list cond :=
  when (0 <? Z.of_nat (length (Statuses opts))) (mkCond "status" OpIn (anySlice (Statuses opts))) ++
  when (nonempty (Phase opts)) (mkCond "phase" OpEq [KText (Phase opts)]) ++
  when (nonempty (Task opts)) (mkCond "task" OpEq [KText (Task opts)]) ++
  when (nonempty (ErrorCode opts)) (mkCond "error_code" OpEq [KText (ErrorCode opts)]) ++
  when (nonempty (Process opts)) (mkCond "process_name" OpEq [KText (Process opts)]) ++
  when (negb (Version opts =? 0)) (mkCond "process_version" OpEq [KInt (Version opts)]) ++
  when (RootsOnly opts) (mkCond "parent_id" OpEq [KText ""]) ++
  window_conds (Created opts) "created_at" ++ window_conds (Updated opts) "updated_at".

Lemma instances_query_ok opts : instances_query opts = mkQuery instancePaginator (Page opts) (instances_conds opts) None.
Proof.
  unfold instances_query, query. rewrite InIf_ok by (try done; by destruct (Statuses opts)).
  rewrite !EqIf_ok, !apply_ok by done. unfold instances_conds. by rewrite <- !app_assoc.
Qed.

(** * Running them *)

Section Laws.
Context `{Tokens} (collate : string -> string -> comparison).
Context (collate_eq : forall s t, collate s t = Datatypes.Eq -> s = t)
  (collate_anti : forall s t, collate t s = CompOpp (collate s t))
  (collate_trans : forall s t u, collate s t = Lt -> collate t u = Lt -> collate s u = Lt).

Abbreviation anywhere := (fun (_ : string) (_ : InstanceSummary) => true).
Abbreviation holds := (holds scanInstanceSummary collate).
Abbreviation filtered := (filtered scanInstanceSummary anywhere collate).
Abbreviation ListInstances := (ListInstances collate).

Implicit Types (opts : InstanceQuery) (s : InstanceSummary) (rows l : list InstanceSummary).

Lemma holds_text s c v x : scanInstanceSummary s c = KText x -> holds s (mkCond c OpEq [KText v]) = String.eqb x v.
Proof using collate_eq collate_anti.
  intros E. unfold Paginate.holds. cbn. rewrite E. cbn. destruct (String.eqb_spec x v) as [->|Hne].
  - by rewrite (Pages.collate_refl collate collate_anti).
  - destruct (collate x v) eqn:Ec; [by apply collate_eq in Ec|done|done].
Qed.

Lemma holds_int s c v x : scanInstanceSummary s c = KInt x -> holds s (mkCond c OpEq [KInt v]) = (x =? v).
Proof using. intros E. unfold Paginate.holds. cbn. rewrite E. cbn. destruct (Z.compare_spec x v), (Z.eqb_spec x v); done || lia. Qed.

Lemma forallb_when (f : cond -> bool) b c : forallb f (when b c) = negb b || f c.
Proof using. destruct b; cbn; by rewrite ?andb_true_r. Qed.

Lemma window_holds s w c x : scanInstanceSummary s c = KInt x -> forallb (holds s) (window_conds w c) = in_window w x.
Proof using.
  intros E. unfold window_conds, in_window. rewrite forallb_app, !forallb_when. unfold Paginate.holds. cbn. rewrite E. cbn.
  rewrite !Z.ltb_antisym, !negb_involutive. f_equal; f_equal.
  - destruct (Z.compare_spec x (from_ w)), (Z.leb_spec (from_ w) x); done || lia.
  - destruct (Z.compare_spec x (to_ w)), (Z.leb_spec (to_ w) x); done || lia.
Qed.

Lemma conds_hold opts s : forallb (holds s) (instances_conds opts) = matches opts s.
Proof using collate_eq collate_anti.
  unfold instances_conds, matches, exact_or_any, nonempty. rewrite !forallb_app, !forallb_when, !negb_involutive.
  rewrite (window_holds s _ "created_at" (s_CreatedAt s) eq_refl), (window_holds s _ "updated_at" (s_UpdatedAt s) eq_refl),
    (holds_text s "phase" _ _ eq_refl), (holds_text s "task" _ _ eq_refl), (holds_text s "error_code" _ _ eq_refl),
    (holds_text s "process_name" _ _ eq_refl), (holds_text s "parent_id" _ _ eq_refl), (holds_int s "process_version" _ _ eq_refl), !andb_assoc.
  do 8 f_equal. unfold anySlice. unfold Paginate.holds. cbn.
  assert (Hin : bool_decide (KText (s_Status s) ∈ KText <$> Statuses opts) = bool_decide (s_Status s ∈ Statuses opts)).
  { apply bool_decide_ext. rewrite list_elem_of_fmap. split; [by intros (y & [= ->] & ?)|eauto]. }
  change (scanInstanceSummary s "status") with (KText (s_Status s)). rewrite Hin. by destruct (Statuses opts).
Qed.

(** * A built listing *)

(** Display order: by the sort's time then the id, newest first unless ascending is asked. *)
Definition displayed opts (s s' : InstanceSummary) : Prop :=
  let vals := instanceSummaryCursorVals (if String.eqb (Sort (Page opts)) "" then "created" else Sort (Page opts)) in
  lex collate (vals s) (vals s') <> (if default true (Desc (Page opts)) then Lt else Gt).

Lemma build_instances opts b : build (instances_query opts) = Ok b ->
  let sort := if String.eqb (Sort (Page opts)) "" then "created" else Sort (Page opts) in
  (sort = "created" \/ sort = "updated") /\ b_sort b = sort /\ b_desc b = default true (Desc (Page opts)) /\
  b_backward b = nonempty (Before (Page opts)) /\
  b_mode b <> [] /\ 0 < b_limit b <= 100 /\
  (forall s, key scanInstanceSummary (b_mode b) s = instanceSummaryCursorVals sort s) /\
  (forall s, in_i64 (s_CreatedAt s) -> in_i64 (s_UpdatedAt s) ->
     Forall2 (fun kc v => of_kind (kind kc) v) (b_mode b) (key scanInstanceSummary (b_mode b) s)) /\
  (forall s, filtered b s = matches opts s).
Proof using collate_eq collate_anti.
  rewrite instances_query_ok. unfold build. cbn [err req Paginate.pg defSort sorts instancePaginator defDesc conds].
  set (sort := if String.eqb (Sort (Page opts)) "" then "created" else Sort (Page opts)).
  assert (Hl : 0 < clamp_limit instancePaginator (Limit (Page opts)) <= 100).
  { unfold clamp_limit. cbn. destruct (Z.leb_spec (Limit (Page opts)) 0); [done|].
    destruct (Z.ltb_spec 100 (Limit (Page opts))); lia. }
  cbn [List.find fst]. fold (nonempty (Before (Page opts))).
  destruct (String.eqb_spec "created" sort) as [<-|_]; [|destruct (String.eqb_spec "updated" sort) as [<-|_]; [|done]].
  all: unfold mbind, result_bind.
  all: match goal with |- match ?k with Ok _ => _ | Err _ => _ end = _ -> _ => destruct k as [keys|] eqn:Ek end; [|done].
  all: intros [= <-]; cbn; split_and!; auto; try lia; try done.
  all: try (intros s Hc Hu; constructor; [done|]; constructor; [done|]; constructor).
  all: intros s; unfold Paginate.filtered; cbn; apply conds_hold.
Qed.

Lemma instances_unique opts b rows : build (instances_query opts) = Ok b -> NoDup (s_ID <$> rows) ->
  Pages.unique_keys scanInstanceSummary anywhere collate b rows.
Proof using collate_eq collate_anti.
  intros Hb Hn. destruct (build_instances opts b Hb) as (_ & _ & _ & _ & _ & _ & Hk & _ & _).
  unfold Pages.unique_keys. apply Pages.distinct_filter. unfold Pages.distinct.
  apply (NoDup_fmap_1 (@last keyval)). rewrite <- list_fmap_compose.
  rewrite (list_fmap_ext _ (fun s => Some (KText (s_ID s)))).
  - rewrite (list_fmap_compose s_ID (fun i => Some (KText i))). apply NoDup_fmap_2; [by intros x y [= ->]|done].
  - intros _ s _. cbn. rewrite Hk. unfold instanceSummaryCursorVals. by destruct (String.eqb _ "created").
Qed.

Lemma strongly_weaken {A} (R R' : A -> A -> Prop) (l : list A) : (forall x y, R x y -> R' x y) -> StronglySorted R l -> StronglySorted R' l.
Proof using. intros Hr. induction 1 as [|x l Hs IH Hf]; constructor; [done|]. eapply Forall_impl; [exact Hf|auto]. Qed.

Abbreviation display := (Pages.display scanInstanceSummary anywhere collate).

Lemma display_admitted opts b rows : build (instances_query opts) = Ok b ->
  display b rows ≡ₚ List.filter (matches opts) rows /\ StronglySorted (displayed opts) (display b rows).
Proof using collate_eq collate_anti collate_trans.
  intros Hb. destruct (build_instances opts b Hb) as (_ & _ & Ed & _ & _ & _ & Hk & _ & Hf). split.
  - unfold Pages.display. by rewrite Pages.sorted_perm, (Pages.filter_ext _ _ rows Hf).
  - eapply strongly_weaken; [|apply Pages.sorted_strongly; done]. intros s s'. unfold displayed, in_order.
    rewrite !Hk, Ed. by destruct (default true _).
Qed.

Lemma runPage_size b rows items info :
  runPage scanInstanceSummary anywhere collate b rows = Some (items, info) -> Size info = b_limit b.
Proof using.
  unfold runPage, pageInfo. destruct (orient _ _ _) as [[items' first] last']. intros Hr.
  destruct (cursor_if b (count_side _ _ _ b rows first true) first); [cbn in Hr|done].
  destruct (cursor_if b (count_side _ _ _ b rows last' false) last'); [|done]. by injection Hr as <- <-.
Qed.

(** C27. A page of [ListInstances] is a stretch of the instances its options admit, in display
    order by the sort's time and the id: at most the page size it reports, which is between 1
    and 100, and that many unless the listing ends there; after the cursor its token decodes
    to going forward, before it going backward, from the start without one.  A page that has
    rows counts the rows on either side of it, up to the cap, and names a cursor - that of its
    first or last row - exactly where there are more; an empty page counts none and names no
    cursor, rows before it or not. *)
Theorem instances_page opts b rows : build (instances_query opts) = Ok b -> NoDup (s_ID <$> rows) ->
  exists o l1 items l2 info, ListInstances opts rows = Ok (items, info) /\ Pages.named (instances_query opts) b o /\
    l1 ++ items ++ l2 ≡ₚ List.filter (matches opts) rows /\ StronglySorted (displayed opts) (l1 ++ items ++ l2) /\
    Z.of_nat (length items) <= b_limit b /\ 1 <= b_limit b <= 100 /\ Size info = b_limit b /\
    (Z.of_nat (length items) = b_limit b \/ (if nonempty (Before (Page opts)) then l1 else l2) = []) /\
    (if nonempty (Before (Page opts)) then l2 else l1) =
      match o with Some vals => List.filter (fun r => negb (Pages.beyond scanInstanceSummary collate b vals r)) (l1 ++ items ++ l2) | None => [] end /\
    ItemsBefore info = Pages.counted items l1 /\ ItemsAfter info = Pages.counted items l2 /\
    i_before info = Pages.cursor_at scanInstanceSummary b l1 (head items) /\
    i_after info = Pages.cursor_at scanInstanceSummary b l2 (last items).
Proof using collate_eq collate_anti collate_trans.
  intros Hb Hn. destruct (build_instances opts b Hb) as (Hs & Es & Ed & Eb & Hm & Hl & Hk & _ & Hf).
  destruct (Pages.build_named _ _ Hb) as (o & Ho & Hnamed).
  destruct (Pages.page_shown scanInstanceSummary anywhere collate collate_eq collate_anti collate_trans b rows o Ho Hm (proj1 Hl)
    (instances_unique opts b rows Hb Hn)) as (l1 & items & l2 & info & E & Hr & Hx).
  exists o, l1, items, l2, info. unfold Listings.ListInstances. rewrite Hb. cbn [mbind result_bind]. rewrite Hr.
  rewrite <- Eb, <- E. destruct Hx as (H1 & H2 & H3 & H4). destruct (display_admitted opts b rows Hb).
  split_and!; try done; try lia; [by eapply runPage_size|apply H4..].
Qed.

(** * The walk *)

(** The same options after a cursor. *)
Definition after_cursor opts (tok : string) : InstanceQuery :=
  mkIQ (Statuses opts) (Phase opts) (Task opts) (ErrorCode opts) (Process opts) (Version opts) (RootsOnly opts)
    (Created opts) (Updated opts) (mkReq (Sort (Page opts)) (Desc (Page opts)) (Limit (Page opts)) tok "").

Fixpoint walk_instances (fuel : nat) opts (tok : string) rows : option (list InstanceSummary) :=
  match fuel with
  | O => None
  | S fuel =>
      match ListInstances (after_cursor opts tok) rows with
      | Ok (items, info) =>
          if String.eqb (i_after info) "" then Some items
          else rest ← walk_instances fuel opts (i_after info) rows; Some (items ++ rest)
      | Err _ => None
      end
  end.

Lemma walk_as fuel opts tok rows :
  walk_instances fuel opts tok rows = Pages.walk scanInstanceSummary anywhere collate fuel (instances_query opts) tok rows.
Proof using.
  revert tok. induction fuel as [|fuel IH]; intros tok; [done|]. cbn [walk_instances Pages.walk]. unfold Listings.ListInstances.
  assert (E : instances_query (after_cursor opts tok) = Pages.resume (instances_query opts) tok) by (by rewrite !instances_query_ok).
  rewrite E. destruct (build _) as [b|]; [cbn [mbind result_bind]|done].
  destruct (runPage _ _ _ b rows) as [[items info]|]; cbn; [|done]. by rewrite IH.
Qed.

(** A row whose cursor can be written and read back. *)
Definition readable opts s : Prop :=
  in_i64 (s_CreatedAt s) /\ in_i64 (s_UpdatedAt s) /\
  forall sort, sort = "created" \/ sort = "updated" ->
    survive (cursorToken sort (default true (Desc (Page opts))) (instanceSummaryCursorVals sort s)).

(** C26. Following the cursors of [ListInstances] from its first page ends, and shows every
    instance the options admit exactly once, in display order: for any page size, either
    direction and either sort, an instance being admitted when it has one of the statuses, the
    phase, task, error code, process and version asked for, is a root where only roots are
    asked for, and was created and updated within the windows. *)
Theorem instances_walk opts rows : Sort (Page opts) = "" \/ Sort (Page opts) = "created" \/ Sort (Page opts) = "updated" ->
  NoDup (s_ID <$> rows) -> Forall (readable opts) rows ->
  exists l, walk_instances (S (length rows)) opts "" rows = Some l /\
    l ≡ₚ List.filter (matches opts) rows /\ StronglySorted (displayed opts) l.
Proof using collate_eq collate_anti collate_trans.
  intros Hsort Hn Hr. assert (exists b, build (instances_query (after_cursor opts "")) = Ok b) as [b Hb].
  { rewrite instances_query_ok. unfold build. cbn. by destruct Hsort as [->|[->| ->]]; eexists. }
  destruct (build_instances _ b Hb) as (Hs & Es & Ed & _ & Hm & Hl & Hk & Hof & _). cbn [Page after_cursor Sort Desc] in *.
  assert (E : instances_query (after_cursor opts "") = Pages.resume (instances_query opts) "") by (by rewrite !instances_query_ok).
  exists (display b rows). rewrite walk_as. split.
  - eapply (Pages.walk_complete scanInstanceSummary anywhere collate); try done; [by rewrite <- E|apply Hl|by eapply instances_unique|].
    intros s Hin. rewrite Forall_forall in Hr. destruct (Hr s Hin) as (Hc & Hu & Hv). split.
    + by apply Hof.
    + rewrite Es, Ed, Hk. by apply Hv.
  - by apply (display_admitted _ b rows Hb).
Qed.

End Laws.

(** * Logs *)

(** The query of a log listing: the column it is bound to, the level's floor, the window. *)
Lemma logs_query_ok col id opts : allowsFilter logPaginator col = true ->
  logs_query col id opts = mkQuery logPaginator (l_Page opts)
    ([mkCond col OpEq [KText id]] ++ when (nonempty (l_Level opts)) (mkCond "pl.level" OpIn (levelFloor (l_Level opts))) ++
     window_conds (l_Created opts) "pl.created_at") None.
Proof.
  intros Hc. unfold logs_query, query. rewrite Eq_ok, InIf_ok, apply_ok by (done || by intros _; unfold levelFloor; destruct (LogLevelsAtLeast _)).
  by rewrite <- !app_assoc.
Qed.

(** A floor is the set of the levels from it on; a level that is none floors at itself. *)
Lemma level_floor_exact n level : levelFloor (nth n LogLevels level) =
  if (n <? 4)%nat then KText <$> drop n LogLevels else levelFloor level.
Proof. do 4 (destruct n as [|n]; [done|]). by destruct n. Qed.

(** * A concrete table *)

Module Demo.

(** Text in byte order. *)
Definition bytewise : string -> string -> comparison := String.compare.
Lemma bytewise_eq s t : bytewise s t = Datatypes.Eq -> s = t.
Proof. apply String.compare_eq_iff. Qed.
Lemma bytewise_anti s t : bytewise t s = CompOpp (bytewise s t).
Proof. apply String.compare_antisym. Qed.
Lemma bytewise_trans s t u : bytewise s t = Lt -> bytewise t u = Lt -> bytewise s u = Lt.
Proof.
  intros H1%String_as_OT.cmp_lt H2%String_as_OT.cmp_lt.
  apply String_as_OT.cmp_lt. by eapply String_as_OT.lt_trans.
Qed.

(** Cursors of instances whose time is one digit: the sort and direction, the digit, the id. *)
Definition write (v : value) : string :=
  match v with
  | Map [("k", Str k); ("d", Bool d); ("v", Arr [Num (String a ""); Str id])] =>
      String (if String.eqb k "created" then "c" else "u") (String (if d then "d" else "a") (String a id))
  | _ => "-"
  end.
Definition read (s : string) : option value :=
  match s with
  | String k (String d (String a id)) =>
      Some (Map [("k", Str (if Ascii.eqb k "c" then "created" else "updated")); ("d", Bool (Ascii.eqb d "d"));
                 ("v", Arr [Num (String a ""); Str id])])
  | _ => None
  end.
Definition short (v : value) : Prop :=
  exists k d a id, (k = "created" \/ k = "updated") /\ v = Map [("k", Str k); ("d", Bool d); ("v", Arr [Num (String a ""); Str id])].
#[export] Instance tokens : Tokens.
Proof.
  refine {| write_token := write; read_token := read; survive := short |}.
  - by intros v (k & d & a & id & [-> | ->] & ->); destruct d.
  - intros v. unfold write. repeat case_match; done.
Defined.

Definition row (id status : string) (parent : string) (at_ : Z) : InstanceSummary :=
  mkSummary id parent "order" 1 0 status "" "" "" "" at_ at_.
Definition rows : list InstanceSummary :=
  [row "c" "running" "" 5; row "a" "running" "" 3; row "b" "failed" "" 3; row "d" "paused" "" 9; row "e" "running" "c" 7].

(** Roots that run or failed, two to a page. *)
Definition opts (after : string) : InstanceQuery :=
  mkIQ ["running"; "failed"] "" "" "" "order" 0 true (mkWindow 0 0) (mkWindow 2 9) (mkReq "" None 2 after "").

(** The ids of a page, and what it says of itself. *)
Definition shown (r : result page_error (list InstanceSummary * PageInfo)) : option (list string * PageInfo) :=
  match r with Ok (items, info) => Some (s_ID <$> items, info) | Err _ => None end.

Example first_page : shown (ListInstances bytewise (opts "") rows) =
  Some (["c"; "b"], mkInfo 2 0 1 "created" "desc" "cd3b" "").
Proof. vm_compute. reflexivity. Qed.
Example second_page : shown (ListInstances bytewise (opts "cd3b") rows) =
  Some (["a"], mkInfo 2 2 0 "created" "desc" "" "cd3a").
Proof. vm_compute. reflexivity. Qed.
Example other_sort : ListInstances bytewise (opts "ud3b") rows = Err OtherSort.
Proof. vm_compute. reflexivity. Qed.

Definition plan : built := match build (instances_query (opts "cd3b")) with Ok b => b | Err _ => mkBuilt instancePaginator [] None [] "" true 0 true end.

End Demo.

#[local] Existing Instance Demo.tokens.

Lemma instances_page_witness : exists o l1 items l2 info, ListInstances Demo.bytewise (Demo.opts "cd3b") Demo.rows = Ok (items, info) /\
  Pages.named (instances_query (Demo.opts "cd3b")) Demo.plan o /\ l1 ++ items ++ l2 ≡ₚ List.filter (matches (Demo.opts "cd3b")) Demo.rows.
Proof.
  destruct (instances_page Demo.bytewise Demo.bytewise_eq Demo.bytewise_anti Demo.bytewise_trans (Demo.opts "cd3b") Demo.plan Demo.rows)
    as (o & l1 & items & l2 & info & H1 & H2 & H3 & _).
  - vm_compute. reflexivity.
  - vm_compute. repeat constructor; set_solver.
  - by exists o, l1, items, l2, info.
Defined.

Lemma instances_walk_witness : exists l, walk_instances Demo.bytewise 6 (Demo.opts "") "" Demo.rows = Some l /\
  l ≡ₚ List.filter (matches (Demo.opts "")) Demo.rows.
Proof.
  destruct (instances_walk Demo.bytewise Demo.bytewise_eq Demo.bytewise_anti Demo.bytewise_trans (Demo.opts "") Demo.rows)
    as (l & H1 & H2 & _).
  - by left.
  - vm_compute. repeat constructor; set_solver.
  - repeat constructor; try done; intros sort Hs; unfold cursorToken, instanceSummaryCursorVals;
      destruct (String.eqb sort "created"); eexists sort, _, _, _; (split; [exact Hs|vm_compute; reflexivity]).
  - by exists l.
Defined.

End Listings.
