(* ===== verification/Access.v ===== *)
(** Who may do what: API tokens (internal/db/db_tokens.go with its statements), the identity
    modes and the one gate of the API (internal/api: auth.go, jwtauth.go, authconfig.go,
    handlers_tokens.go, errors.go, the registry of actions.go and the dispatch of server.go),
    and the seeding of tokens at startup (cmd/genroc: main.go, token.go).

    The table is the list of its rows, a row's permissions kept decoded.  The digest of a
    secret, the generator of secrets and the verification of a JWT are parameters; the clocks
    and whether the database answers come in as arguments. *)
From Stdlib Require Import ZArith Lia Ascii String.
From stdpp Require Import strings gmap.
From S2P Require Import Prelude GoStrings Json Instance.
Import Json.
Open Scope string_scope.
Open Scope list_scope.
Open Scope Z_scope.

Module Access.

(** * Permissions *)

Definition Perm := string.
Definition PermWorker : Perm := "worker".
Definition PermRead : Perm := "read".
Definition PermOperate : Perm := "operate".
Definition PermDeploy : Perm := "deploy".
Definition PermAdmin : Perm := "admin".

(** Declared, and never populated. *)
Record GrantConstraint := mkConstraint { gc_Process : string; gc_Version : Z; gc_Task : string }.
Record Grant := mkGrant { g_Perm : Perm; g_Constraint : option GrantConstraint }.
Record Principal := mkPrincipal { Subject : string; Grants : list Grant; Source : string }.

Definition Actor (p : option Principal) : string :=
  match p with None => "" | Some p => Source p +:+ ":" +:+ Subject p end.
Definition anonymousAdmin : Principal := mkPrincipal "anonymous" [mkGrant PermAdmin None] "no-auth".

Fixpoint grants_allow (grants : list Grant) (allow : list Perm) : bool :=
  match grants with
  | [] => false
  | g :: grants =>
      if String.eqb (g_Perm g) PermAdmin then true
      else if existsb (fun need => String.eqb (g_Perm g) need) allow then true
      else grants_allow grants allow
  end.
Definition Allows (p : option Principal) (allow : list Perm) : bool :=
  match p with None => false | Some p => grants_allow (Grants p) allow end.

(** * Answers *)

Inductive Code :=
  | CodeInvalid | CodeNotFound | CodeConflict | CodeUnsupported | CodeUnavailable
  | CodeUnauthenticated | CodeForbidden | CodeInternal.
#[export] Instance Code_eq_dec : EqDecision Code.
Proof. solve_decision. Defined.
Definition statusOf (c : Code) : Z :=
  match c with
  | CodeInvalid => 400 | CodeNotFound => 404 | CodeConflict => 409 | CodeUnsupported => 501
  | CodeUnavailable => 503 | CodeUnauthenticated => 401 | CodeForbidden => 403 | CodeInternal => 500
  end.

(** * The actions of the API *)

Record actionDef := mkAction {
  a_Name : string; a_Method : string; a_Path : string; a_Allow : list Perm; a_Open : bool; a_Root : bool }.

Definition apiPrefix : string := "/api".
Definition mountPath (a : actionDef) : string := if a_Root a then a_Path a else apiPrefix +:+ a_Path a.

Definition act (name method path : string) (allow : list Perm) : actionDef := mkAction name method path allow false false.
Definition registry : list actionDef :=
  [act "list_definitions" "GET" "/definitions" [PermRead];
   act "start_instance" "POST" "/instances" [PermOperate];
   act "list_instances" "GET" "/instances" [PermRead];
   act "put_definitions" "PUT" "/definitions" [PermDeploy];
   act "put_channel" "PUT" "/channels" [PermDeploy];
   act "delete_channel" "DELETE" "/channels" [PermDeploy];
   act "list_channels" "GET" "/channels" [PermRead];
   act "promote_channel" "POST" "/channels/promote" [PermDeploy];
   act "channel_status" "POST" "/channels/status" [PermRead];
   act "validate_definitions" "POST" "/definitions/validate" [PermRead];
   act "compare_definitions" "POST" "/definitions/compat" [PermRead];
   act "get_instance_detail" "GET" "/instances/{id}/detail" [PermRead];
   act "get_instance" "GET" "/instances/{id}" [PermRead];
   act "list_instance_logs" "GET" "/instances/{id}/logs" [PermRead];
   act "get_object" "GET" "/objects/{ref}" [PermWorker; PermRead];
   act "pause_instance" "POST" "/instances/{id}/pause" [PermOperate];
   act "resume_instance" "POST" "/instances/{id}/resume" [PermOperate];
   act "cancel_instance" "POST" "/instances/{id}/cancel" [PermOperate];
   act "retry_instance" "POST" "/instances/{id}/retry" [PermOperate];
   act "upgrade_instance" "POST" "/instances/{id}/upgrade" [PermDeploy];
   act "claim_external_tasks" "POST" "/external-tasks/claim" [PermWorker];
   act "renew_external_claims" "POST" "/external-tasks/renew" [PermWorker];
   act "release_external_task" "POST" "/external-tasks/release" [PermWorker];
   act "resolve_external_task" "POST" "/external-tasks/resolve" [PermWorker];
   act "signal_instance" "POST" "/external-tasks/signal" [PermWorker];
   act "create_token" "POST" "/tokens" [PermAdmin];
   act "list_tokens" "GET" "/tokens" [PermAdmin];
   act "revoke_token" "DELETE" "/tokens/{id}" [PermAdmin];
   mkAction "health" "GET" "/healthz" [] true true;
   act "tick" "POST" "/tick" []].

Definition authorize (a : actionDef) (p : option Principal) : option Code :=
  if a_Open a then None
  else match p with
       | None => Some CodeUnauthenticated
       | Some _ => if negb (Allows p (a_Allow a)) then Some CodeForbidden else None
       end.

(** * The table of tokens *)

Record trow := mkToken {
  tk_ID : string; tk_hash : string; tk_Label : string; tk_perms : list Perm; tk_CreatedAt : Z;
  tk_LastUsedAt : option Z; tk_RevokedAt : option Z; tk_ExpiresAt : option Z; tk_Actor : string; tk_RevokedBy : string }.
Definition table := list trow.

Definition TokenPrefix : string := "genroc_sk_".
Definition minSecretBody : Z := 32.
Definition nullMillis (ms : Z) : option Z := if ms =? 0 then None else Some ms.

Inductive token_error :=
  | TokenPrefixMissing
  | TokenTooShort (n : Z)
  | TokenNotLive (id : string)
  | TokenTaken
  | Unreachable.

Definition ValidateTokenSecret (secret : string) : result token_error unit :=
  if negb (HasPrefix secret TokenPrefix) then Err TokenPrefixMissing
  else let n := Z.of_nat (String.length (TrimPrefix secret TokenPrefix)) in
       if n <? minSecretBody then Err (TokenTooShort n) else Ok tt.

Definition unexpired (now : Z) (r : trow) : bool := match tk_ExpiresAt r with None => true | Some e => now <? e end.
Definition live (now : Z) (r : trow) : bool := bool_decide (tk_RevokedAt r = None) && unexpired now r.

Section Tokens.
Context (HashToken : string -> string).

(** [insertAPIToken], with UNIQUE(hash) and the primary key. *)
Definition InsertAPIToken (r : trow) (t : table) : result token_error table :=
  if existsb (fun x => String.eqb (tk_ID x) (tk_ID r) || String.eqb (tk_hash x) (tk_hash r)) t then Err TokenTaken
  else Ok (t ++ [r]).
Definition GetAPITokenByHash (hash : string) (now : Z) (t : table) : option trow :=
  List.find (fun r => String.eqb (tk_hash r) hash && live now r) t.
Definition GetAnyAPITokenByHash (hash : string) (t : table) : option trow :=
  List.find (fun r => String.eqb (tk_hash r) hash) t.

Definition MintToken (id secret label : string) (perms : list Perm) (expiresAt now : Z) (actor : string) (t : table)
    : result token_error table :=
  InsertAPIToken (mkToken id (HashToken secret) label perms now None None (nullMillis expiresAt) actor "") t.

Definition LookupToken (secret : string) (now : Z) (t : table) : option trow :=
  if negb (HasPrefix secret TokenPrefix) then None
  else GetAPITokenByHash (HashToken secret) now t.

Definition map_id (id : string) (f : trow -> trow) (t : table) : table :=
  (fun r => if String.eqb (tk_ID r) id then f r else r) <$> t.

Definition TouchToken (id : string) (at_ : Z) (t : table) : table :=
  map_id id (fun r => mkToken (tk_ID r) (tk_hash r) (tk_Label r) (tk_perms r) (tk_CreatedAt r) (Some at_) (tk_RevokedAt r)
    (tk_ExpiresAt r) (tk_Actor r) (tk_RevokedBy r)) t.

(** [revokeAPIToken] tells whether it changed a row. *)
Definition RevokeToken (id actor : string) (now : Z) (t : table) : result token_error table :=
  if existsb (fun r => String.eqb (tk_ID r) id && bool_decide (tk_RevokedAt r = None)) t
  then Ok (map_id id (fun r => if bool_decide (tk_RevokedAt r = None)
             then mkToken (tk_ID r) (tk_hash r) (tk_Label r) (tk_perms r) (tk_CreatedAt r) (tk_LastUsedAt r) (Some now)
                    (tk_ExpiresAt r) (tk_Actor r) actor
             else r) t)
  else Err (TokenNotLive id).

(** The text [LIKE '%"admin"%'] is the element itself. *)
Definition HasLiveAdminToken (now : Z) (t : table) : bool :=
  existsb (fun r => bool_decide (tk_RevokedAt r = None) && existsb (String.eqb PermAdmin) (tk_perms r) && unexpired now r) t.

Inductive SeedOutcome := SeedCreated | SeedPresent | SeedDead.

(** [holderOf] and [seedOutcome]: whether the row holding the secret still authenticates. *)
Definition holderOf (secret : string) (now : Z) (t : table) : option SeedOutcome :=
  r ← GetAnyAPITokenByHash (HashToken secret) t;
  Some (match tk_RevokedAt r with
        | Some _ => SeedDead
        | None => match tk_ExpiresAt r with
                  | Some e => if e <=? now then SeedDead else SeedPresent
                  | None => SeedPresent
                  end
        end).

Definition ActorSeedTokens : string := "startup:seed-tokens".

Definition SeedToken (id label : string) (perms : list Perm) (secret : string) (now : Z) (t : table)
    : result token_error (table * SeedOutcome) :=
  _ ← ValidateTokenSecret secret;
  match holderOf secret now t with
  | Some o => Ok (t, o)
  | None => match InsertAPIToken (mkToken id (HashToken secret) label perms now None None None ActorSeedTokens "") t with
            | Ok t => Ok (t, SeedCreated)
            | Err e => match holderOf secret now t with Some o => Ok (t, o) | None => Err e end
            end
  end.

End Tokens.

(** * Lists of permissions, and the tokens given at startup *)

Inductive perms_error := NoPerms | UnknownPerm (p : string).
Definition KnownPerms : list Perm := [PermAdmin; PermDeploy; PermOperate; PermRead; PermWorker].

Fixpoint known_perms (l : list string) : result perms_error (list Perm) :=
  match l with
  | [] => Ok []
  | p :: l => if existsb (String.eqb p) KnownPerms then out ← known_perms l; Ok (p :: out) else Err (UnknownPerm p)
  end.
Definition ValidPerms (l : list string) : result perms_error (list Perm) :=
  match l with [] => Err NoPerms | _ => known_perms l end.

Definition splitPerms (l : string) : list string :=
  List.filter (fun p => negb (String.eqb p "")) (TrimSpace <$> Split l ",").
Definition parsePerms (csv : string) : result perms_error (list Perm) := ValidPerms (splitPerms csv).

Record seedEntry := mkSeed { se_label : string; se_secret : string; se_perms : list Perm }.
Inductive seed_error :=
  | SeedParts (line : Z)
  | SeedLabel (line : Z)
  | SeedPerms (line : Z) (e : perms_error)
  | SeedSecret (line : Z) (e : token_error).

(** [strings.SplitN(line, "=", 3)]. *)
Definition split3 (s : string) : option (string * string * string) :=
  '(a, rest) ← Cut s "="; '(b, c) ← Cut rest "="; Some (a, b, c).

(** One line: nothing, a label whose secret was removed, or an entry. *)
Definition seed_line (i : Z) (line : string) : result seed_error (option (string + seedEntry)) :=
  let line := TrimSpace line in
  if String.eqb line "" || HasPrefix line "#" then Ok None
  else match split3 line with
       | None => Err (SeedParts i)
       | Some (label, permSpec, secret) =>
           if String.eqb secret "" then Ok (Some (inl label))
           else if String.eqb label "" then Err (SeedLabel i)
           else perms ← map_err (SeedPerms i) (ValidPerms (splitPerms permSpec));
                _ ← map_err (SeedSecret i) (ValidateTokenSecret secret);
                Ok (Some (inr (mkSeed label secret perms)))
       end.
Fixpoint seed_lines (i : Z) (lines : list string) : result seed_error (list seedEntry * list string) :=
  match lines with
  | [] => Ok ([], [])
  | line :: lines =>
      e ← seed_line i line;
      '(entries, noSecret) ← seed_lines (i + 1) lines;
      Ok (match e with
          | None => (entries, noSecret)
          | Some (inl label) => (entries, label :: noSecret)
          | Some (inr e) => (e :: entries, noSecret)
          end)
  end.
Definition newline : ascii := "010".
Definition parseSeedTokens (spec : string) : result seed_error (list seedEntry * list string) :=
  seed_lines 1 (Split spec newline).

Record seedReport := mkReport { created : Z; noSecret : list string; dead : list string }.

(** The entries in order; the n-th one that is stored takes the n-th id. *)
Fixpoint seed_entries (HashToken : string -> string) (mint : nat -> string) (n : nat) (now : Z) (es : list seedEntry)
    (rep : seedReport) (t : table) : table * result token_error seedReport :=
  match es with
  | [] => (t, Ok rep)
  | e :: es =>
      match SeedToken HashToken (mint n) (se_label e) (se_perms e) (se_secret e) now t with
      | Err err => (t, Err err)
      | Ok (t, o) =>
          seed_entries HashToken mint (S n) now es
            (match o with
             | SeedCreated => mkReport (created rep + 1) (noSecret rep) (dead rep)
             | SeedPresent => rep
             | SeedDead => mkReport (created rep) (noSecret rep) (dead rep ++ [se_label e])
             end) t
      end
  end.
Definition seedSuppliedTokens (HashToken : string -> string) (mint : nat -> string) (now : Z) (spec : string) (t : table)
    : table * result (seed_error + token_error) seedReport :=
  match parseSeedTokens spec with
  | Err e => (t, Err (inl e))
  | Ok (entries, noSecret) =>
      let '(t, r) := seed_entries HashToken mint 0 now entries (mkReport 0 noSecret []) t in (t, map_err inr r)
  end.

End Access.
