(* ===== verification/Auth.v ===== *)
(** Identity and the gate: the authenticators of internal/api (auth.go, jwtauth.go,
    authconfig.go) over the tokens of [Access], and the dispatch of server.go that admits a
    request to its handler.

    The theorems say who a handler is ever run for, that a revoked token never comes back,
    what a seeding leaves behind, and how often the use of a token is written. *)
From Stdlib Require Import ZArith Lia Ascii String.
From stdpp Require Import strings gmap sorting.
From S2P Require Import Prelude GoStrings Json Access.
Import Json.
Open Scope string_scope.
Open Scope list_scope.
Open Scope Z_scope.

Module Auth.
Import Access.

(** The moment of a request: the clock in nanoseconds, the database's in milliseconds, whether
    the database answers and whether a write of use lands. *)
Record moment := mkMoment { now : Z; nowMillis : Z; reachable : bool; writable : bool }.

(** The tokens, and one server's throttle. *)
Record store := mkStore { tokens : table; lastTouch : gmap string Z }.

(** [Authenticate]: an error is a failure to decide, no principal is not mine. *)
Definition Authenticator := moment -> store -> string -> store * result unit (option Principal).

Fixpoint chainAuth (auths : list Authenticator) : Authenticator := fun m s credential =>
  match auths with
  | [] => (s, Ok None)
  | a :: auths =>
      match a m s credential with
      | (s, Err e) => (s, Err e)
      | (s, Ok (Some p)) => (s, Ok (Some p))
      | (s, Ok None) => chainAuth auths m s credential
      end
  end.
Definition Chain (auths : list Authenticator) : Authenticator :=
  match auths with [a] => a | _ => chainAuth auths end.

(** * Tokens *)

Definition touchInterval : Z := 60 * 1000000000.

Definition touch (m : moment) (id : string) (s : store) : store :=
  if match lastTouch s !! id with Some last => now m - last <? touchInterval | None => false end then s
  else mkStore (if writable m then TouchToken id (now m / 1000000) (tokens s) else tokens s) (<[id := now m]> (lastTouch s)).

Section Modes.
Context (HashToken : string -> string).

Definition TokenAuth : Authenticator := fun m s credential =>
  if String.eqb credential "" then (s, Ok None)
  else if negb (HasPrefix credential TokenPrefix) then (s, Ok None)
  else if negb (reachable m) then (s, Err tt)
  else match LookupToken HashToken credential (nowMillis m) (tokens s) with
       | None => (s, Ok None)
       | Some r =>
           (touch m (tk_ID r) s,
            Ok (Some (mkPrincipal (if String.eqb (tk_Label r) "" then tk_ID r else tk_Label r)
                        ((fun p => mkGrant p None) <$> tk_perms r) "token")))
       end.

(** * Signed tokens *)

Record JWTModeConfig := mkJWT { Issuer : string; Audience : string; Secret : string; SecretFile : string; Leeway : Z }.
Definition minSecretBytes : Z := 32.
Definition DefaultJWTIssuer : string := "genroc-ui".
Definition DefaultJWTAudience : string := "genroc".

Inductive jwt_error := BothSecrets | SecretUnreadable | NoSecret | SecretShort (n : Z).
Definition resolveSecret (readFile : string -> option string) (j : JWTModeConfig) : result jwt_error string :=
  if negb (String.eqb (Secret j) "") && negb (String.eqb (SecretFile j) "") then Err BothSecrets
  else secret ← (if String.eqb (SecretFile j) "" then Ok (Secret j)
                 else TrimSpace <$> of_option SecretUnreadable (readFile (SecretFile j)));
       if String.eqb secret "" then Err NoSecret
       else let n := Z.of_nat (String.length secret) in if n <? minSecretBytes then Err (SecretShort n) else Ok secret.

(** [Validate] fills the defaults; a JWT authenticator is made of the filled configuration. *)
Definition with_defaults (j : JWTModeConfig) : JWTModeConfig :=
  mkJWT (if String.eqb (Issuer j) "" then DefaultJWTIssuer else Issuer j)
    (if String.eqb (Audience j) "" then DefaultJWTAudience else Audience j) (Secret j) (SecretFile j) (Leeway j).

(** [ParseWithClaims] under the pinned options. *)
Context (verify : JWTModeConfig -> string -> moment -> string -> option (list (string * value))).

Fixpoint permGrants_loop (seen : list Perm) (l : list value) : list Grant :=
  match l with
  | [] => []
  | Str s :: l =>
      let p := TrimSpace s in
      if negb (String.eqb p "") && negb (existsb (String.eqb p) seen) then mkGrant p None :: permGrants_loop (p :: seen) l
      else permGrants_loop seen l
  | _ :: l => permGrants_loop seen l
  end.
Definition permGrants (v : option value) : list Grant :=
  match v with Some (Arr l) => permGrants_loop [] l | _ => [] end.

Fixpoint count_dots (s : string) : nat :=
  match s with "" => 0 | String c s => (if Ascii.eqb c "." then 1 else 0) + count_dots s end%nat.

Definition JWTAuth (cfg : JWTModeConfig) (secret : string) : Authenticator := fun m s credential =>
  if String.eqb credential "" || HasPrefix credential "genroc_sk_" then (s, Ok None)
  else if negb (Nat.eqb (count_dots credential) 2) then (s, Ok None)
  else match verify cfg secret m credential with
       | None => (s, Ok None)
       | Some claims =>
           let subject := TrimSpace (match lookup_key "sub" claims with Some (Str v) => v | _ => "" end) in
           if String.eqb subject "" then (s, Ok None)
           else (s, Ok (Some (mkPrincipal subject (permGrants (lookup_key "perms" claims)) "jwt")))
       end.

Definition NewJWTAuth (readFile : string -> option string) (cfg : JWTModeConfig) : result jwt_error Authenticator :=
  secret ← resolveSecret readFile cfg; Ok (JWTAuth (with_defaults cfg) secret).

End Modes.

(** * A request *)

Definition scheme : string := "Bearer ".

(** [strings.EqualFold] with an ASCII text that holds neither k nor s. *)
Definition EqualFold (s t : string) : bool := String.eqb (ToLower s) (ToLower t).

Definition bearerToken (header : string) : string :=
  if (String.length header <? String.length scheme)%nat ||
     negb (EqualFold (substring 0 (String.length scheme) header) scheme) then ""
  else TrimSpace (substring (String.length scheme) (String.length header - String.length scheme) header).

(** The server, its authenticator absent in the open mode. *)
Definition principalFor (auth : option Authenticator) (m : moment) (s : store) (credential : string)
    : store * result Code (option Principal) :=
  match auth with
  | None => (s, Ok (Some anonymousAdmin))
  | Some a => let '(s, r) := a m s credential in (s, map_err (fun _ => CodeUnavailable) r)
  end.

Inductive reply :=
  | Refused (c : Code)
  | Handled (actor : option Principal).

(** The handler of one route up to the action's own; [decodes] is whether the envelope reads. *)
Definition dispatch (auth : option Authenticator) (a : actionDef) (decodes : bool) (header : string) (m : moment) (s : store)
    : store * reply :=
  if negb decodes then (s, Refused CodeInvalid)
  else match principalFor auth m s (bearerToken header) with
       | (s, Err c) => (s, Refused c)
       | (s, Ok p) => (s, match authorize a p with Some c => Refused c | None => Handled p end)
       end.

(** [guard], for the routes that are no actions. *)
Definition guard (auth : option Authenticator) (path : string) (allow : list Perm) (header : string) (m : moment) (s : store)
    : store * option Code :=
  match principalFor auth m s (bearerToken header) with
  | (s, Err c) => (s, Some c)
  | (s, Ok p) => (s, authorize (act path "" "" allow) p)
  end.

(** * Who is admitted *)

Lemma allow_spec p allow : Allows (Some p) allow = true <->
  exists g, g ∈ Grants p /\ (g_Perm g = PermAdmin \/ g_Perm g ∈ allow).
Proof.
  cbn. induction (Grants p) as [|g l IH]; cbn; [split; [done|by intros (g & Hg%elem_of_nil & _)]|].
  assert (Hx : existsb (String.eqb (g_Perm g)) allow = true <-> g_Perm g ∈ allow).
  { rewrite existsb_exists. split; [by intros (y & Hy%list_elem_of_In & ->%String.eqb_eq)|].
    intros Hy%list_elem_of_In. exists (g_Perm g). by rewrite String.eqb_refl. }
  destruct (String.eqb_spec (g_Perm g) PermAdmin) as [E|E]; [split; [|done]; intros _; exists g; set_solver|].
  destruct (existsb (fun need => String.eqb (g_Perm g) need) allow) eqn:Ex.
  - split; [|done]. intros _. exists g. split; [set_solver|]. right. by apply Hx.
  - rewrite IH. split; [intros (x & Hx1 & Hx2); exists x; set_solver|]. intros (x & [->|Hx1]%elem_of_cons & Hx2); [|by exists x].
    destruct Hx2 as [|Hx2]; [done|]. by apply Hx in Hx2.
Qed.

(** What a list of permissions admits. *)
Definition admits (perms : list Perm) (a : actionDef) : Prop := PermAdmin ∈ perms \/ exists p, p ∈ perms /\ p ∈ a_Allow a.

Lemma authorize_spec a p : a_Open a = false -> authorize a (Some p) = None <-> admits (g_Perm <$> Grants p) a.
Proof.
  intros Ho. unfold authorize. rewrite Ho. unfold admits. setoid_rewrite list_elem_of_fmap.
  destruct (Allows (Some p) (a_Allow a)) eqn:E; cbn [negb].
  - apply allow_spec in E as (g & Hg & [E|E]); split; try done; intros _; [left|right]; eauto.
  - split; [done|]. intros H. enough (Allows (Some p) (a_Allow a) = true) by congruence. apply allow_spec.
    destruct H as [(g & E1 & Hg)|(q & (g & -> & Hg) & Hq)]; exists g; eauto.
Qed.

(** The rows of the table: ids and digests are unique. *)
Definition keyed (t : table) : Prop := NoDup (tk_ID <$> t) /\ NoDup (tk_hash <$> t).

Lemma unique_row {B} (f : trow -> B) t r r' : NoDup (f <$> t) -> r ∈ t -> r' ∈ t -> f r = f r' -> r = r'.
Proof.
  intros Hn [i Hi]%list_elem_of_lookup [j Hj]%list_elem_of_lookup E.
  assert (i = j) as -> by (eapply NoDup_lookup; [exact Hn|by rewrite list_lookup_fmap, Hi|by rewrite list_lookup_fmap, Hj, E]).
  congruence.
Qed.

Section Who.
Context (HashToken : string -> string) (verify : JWTModeConfig -> string -> moment -> string -> option (list (string * value))).

Lemma lookup_spec secret now t r : keyed t -> LookupToken HashToken secret now t = Some r <->
  HasPrefix secret TokenPrefix = true /\ r ∈ t /\ tk_hash r = HashToken secret /\ live now r = true.
Proof.
  intros [_ Hh]. unfold LookupToken, GetAPITokenByHash. destruct (HasPrefix secret TokenPrefix); cbn [negb]; [|by split; [|intros [? _]]].
  split.
  - intros [Hr [E%String.eqb_eq El]%andb_true_iff]%find_some. apply list_elem_of_In in Hr. done.
  - intros (_ & Hr & E & El). destruct (List.find _ t) as [r'|] eqn:Ef.
    + apply find_some in Ef as [Hr' [E'%String.eqb_eq _]%andb_true_iff]. apply list_elem_of_In in Hr'. f_equal.
      eapply (unique_row tk_hash); [exact Hh|done..|congruence].
    + eapply find_none in Ef; [|apply list_elem_of_In; exact Hr]. by rewrite E, String.eqb_refl, El in Ef.
Qed.

(** A bearer whose credential is a live token's. *)
Definition token_holder (m : moment) (t : table) (credential : string) (perms : list Perm) : Prop :=
  HasPrefix credential TokenPrefix = true /\
  exists r, r ∈ t /\ tk_hash r = HashToken credential /\ live (nowMillis m) r = true /\ tk_perms r = perms.

(** A bearer of a signed token that verifies and names its subject. *)
Definition jwt_holder (cfg : JWTModeConfig) (secret : string) (m : moment) (credential : string) (perms : list Perm) : Prop :=
  HasPrefix credential TokenPrefix = false /\ count_dots credential = 2%nat /\
  exists claims sub, verify cfg secret m credential = Some claims /\
    lookup_key "sub" claims = Some (Str sub) /\ TrimSpace sub <> "" /\
    perms = g_Perm <$> permGrants (lookup_key "perms" claims).

(** What the server installs: nothing without [--auth]; with it the tokens, behind the signed
    ones where a JWT secret is set.  A JWT secret without [--auth] does not start. *)
Definition installed (authOn jwtOn : bool) (cfg : JWTModeConfig) (secret : string) : option Authenticator :=
  if authOn then Some (Chain ((if jwtOn then [JWTAuth verify cfg secret] else []) ++ [TokenAuth HashToken])) else None.

(** A bearer the installed authenticators know, and what it grants. *)
Definition known (jwtOn : bool) cfg secret m t credential perms : Prop :=
  reachable m = true /\ token_holder m t credential perms \/ jwtOn = true /\ jwt_holder cfg secret m credential perms.

(** A bearer nothing can be said of: a genroc token while the database does not answer. *)
Definition undecided m credential : Prop := reachable m = false /\ HasPrefix credential TokenPrefix = true.

Definition recognised (jwtOn : bool) cfg secret m t credential (r : result unit (option Principal)) : Prop :=
  match r with
  | Err _ => undecided m credential /\ forall perms, ~ known jwtOn cfg secret m t credential perms
  | Ok None => ~ undecided m credential /\ forall perms, ~ known jwtOn cfg secret m t credential perms
  | Ok (Some p) => ~ undecided m credential /\
      forall perms, known jwtOn cfg secret m t credential perms <-> perms = g_Perm <$> Grants p
  end.

Lemma token_recognise jwtOn cfg secret m s credential : keyed (tokens s) ->
  (jwtOn = true -> forall perms, ~ jwt_holder cfg secret m credential perms) ->
  recognised jwtOn cfg secret m (tokens s) credential (TokenAuth HashToken m s credential).2.
Proof.
  intros Hk Hj. unfold TokenAuth, recognised, known, undecided.
  destruct (String.eqb_spec credential "") as [->|Hne]; cbn [snd].
  { split; [by intros [_ ?]|]. intros perms [[_ [Hp _]]|[E Hp]]; [done|by eapply Hj]. }
  destruct (HasPrefix credential TokenPrefix) eqn:Ep; cbn [negb snd].
  2: { split; [by intros [_ ?]|]. intros perms [[_ [Hp _]]|[E Hp]]; [congruence|by eapply Hj]. }
  destruct (reachable m); cbn [negb snd].
  2: { split; [done|]. intros perms [[? _]|[E Hp]]; [done|by eapply Hj]. }
  destruct (LookupToken HashToken credential (nowMillis m) (tokens s)) as [r|] eqn:El; cbn [snd]; (split; [by intros [? _]|]).
  - apply lookup_spec in El as (_ & Hr1 & Hr2 & Hr3); [|done]. intros perms. cbn. rewrite <- list_fmap_compose.
    assert (E : (g_Perm ∘ (fun p => mkGrant p None)) <$> tk_perms r = tk_perms r) by apply list_fmap_id. rewrite E. split.
    + intros [[_ (_ & r' & Hr1' & Hr2' & _ & <-)]|[E' Hp]]; [|by destruct (Hj E' perms)]. f_equal.
      eapply (unique_row tk_hash); [apply Hk|done..|congruence].
    + intros ->. left. split; [done|]. split; [done|]. by exists r.
  - intros perms [[_ (_ & r & H1 & H2 & H3 & _)]|[E Hp]]; [|by destruct (Hj E perms)].
    assert (LookupToken HashToken credential (nowMillis m) (tokens s) = Some r) by (by apply lookup_spec). congruence.
Qed.

(** What the signed mode leaves to the tokens is no signed token. *)
Lemma jwt_recognise cfg secret m s credential :
  match (JWTAuth verify cfg secret m s credential).2 with
  | Ok None => forall perms, ~ jwt_holder cfg secret m credential perms
  | Ok (Some p) => HasPrefix credential TokenPrefix = false /\
      forall perms, jwt_holder cfg secret m credential perms <-> perms = g_Perm <$> Grants p
  | Err _ => False
  end.
Proof using.
  unfold JWTAuth, jwt_holder. change "genroc_sk_" with TokenPrefix.
  destruct (String.eqb_spec credential "") as [->|Hne]; cbn [orb]; [cbn; intros perms (_ & Hd & _); done|].
  destruct (HasPrefix credential TokenPrefix); cbn [snd]; [intros perms (Hp & _); congruence|].
  destruct (Nat.eqb_spec (count_dots credential) 2) as [Hd|Hd]; cbn [negb snd].
  2: { intros perms (_ & Hd' & _). congruence. }
  destruct (verify cfg secret m credential) as [claims|] eqn:Ev; cbn [snd].
  2: { intros perms (_ & _ & claims & sub & Hv & _). congruence. }
  destruct (lookup_key "sub" claims) as [[]|] eqn:Es; cbn [snd].
  all: try (intros perms (_ & _ & claims' & sub & Hv & Hs & _); congruence).
  destruct (String.eqb_spec (TrimSpace s0) "") as [E|E]; cbn [snd].
  - intros perms (_ & _ & claims' & sub & Hv & Hs & Hn & _). congruence.
  - split; [done|]. intros perms. cbn. split.
    + intros (_ & _ & claims' & sub & Hv & Hs & Hn & ->). congruence.
    + intros ->. split_and!; [done..|]. by exists claims, s0.
Qed.

Lemma jwt_store cfg secret m s credential : (JWTAuth verify cfg secret m s credential).1 = s.
Proof using. unfold JWTAuth. destruct (_ || _); [done|]. destruct (negb _); [done|]. destruct (verify _ _ _ _); [|done]. cbn. by case_match. Qed.

Lemma installed_recognise jwtOn cfg secret auth m s credential : keyed (tokens s) -> installed true jwtOn cfg secret = Some auth ->
  recognised jwtOn cfg secret m (tokens s) credential (auth m s credential).2.
Proof.
  intros Hk [= <-]. destruct jwtOn; cbn [app Chain]; [|by apply token_recognise].
  cbn [chainAuth]. pose proof (jwt_recognise cfg secret m s credential) as Hj. pose proof (jwt_store cfg secret m s credential) as Es.
  destruct (JWTAuth verify cfg secret m s credential) as [s' [[p|]|e]]; cbn [fst snd] in *; [| |done].
  - destruct Hj as [Hp Hj]. split; [intros [_ ?]; congruence|]. intros perms. rewrite <- Hj. unfold known. split; [|by right].
    intros [[_ [? _]]|[_ ?]]; [congruence|done].
  - subst s'. pose proof (token_recognise true cfg secret m s credential Hk (fun _ => Hj)) as Ht.
    by destruct (TokenAuth HashToken m s credential) as [s' [[p|]|e]].
Qed.

(** C28. Who a request to an action that is not open is answered as, for every envelope, header
    and state of the database.  Without [--auth] every readable envelope reaches the handler,
    as the anonymous admin.  With it, the handler runs - with exactly the permissions [perms] -
    for a readable envelope whose bearer credential is known with [perms], these holding admin
    or one the action lists; known is the secret of a stored token neither revoked nor expired
    while the database answers, or, where a JWT secret is set, a signed token that verifies
    under the pinned configuration and names a subject.  Otherwise it is answered invalid when
    the envelope does not read, unavailable when the credential has a genroc token's prefix and
    the database does not answer, 401 when nobody knows the credential, 403 when what it grants
    is not enough. *)
Theorem gate_exact jwtOn cfg secret a decodes header m s : keyed (tokens s) -> a_Open a = false ->
  let credential := bearerToken header in
  let r authOn := (dispatch (installed authOn jwtOn cfg secret) a decodes header m s).2 in
  let known := known jwtOn cfg secret m (tokens s) credential in
  r false = (if decodes then Handled (Some anonymousAdmin) else Refused CodeInvalid) /\
  (forall perms, (exists p, r true = Handled (Some p) /\ g_Perm <$> Grants p = perms) <->
     decodes = true /\ known perms /\ admits perms a) /\
  r true <> Handled None /\
  (r true = Refused CodeInvalid <-> decodes = false) /\
  (r true = Refused CodeUnavailable <-> decodes = true /\ undecided m credential) /\
  (r true = Refused CodeUnauthenticated <-> decodes = true /\ ~ undecided m credential /\ forall perms, ~ known perms) /\
  (r true = Refused CodeForbidden <-> decodes = true /\ exists perms, known perms /\ ~ admits perms a).
Proof.
  intros Hk Ho credential r kn. subst r kn. unfold dispatch, principalFor. fold credential.
  destruct decodes; cbn [negb]; [|cbn; split_and!; done || split; naive_solver].
  split; [unfold authorize; by rewrite Ho|].
  pose proof (installed_recognise jwtOn cfg secret _ m s credential Hk eq_refl) as Hm. cbn [installed].
  destruct (Chain _ m s credential) as [s' [[p|]|e]]; cbn [fst snd map_err] in *; destruct Hm as [Hu Hm].
  - pose proof (authorize_spec a p Ho) as Ha. unfold authorize in *. rewrite Ho in *.
    destruct (Allows (Some p) (a_Allow a)) eqn:E; cbn [negb snd] in *.
    + destruct Ha as [Ha _]. specialize (Ha eq_refl). split_and!; try done; [intros perms|..]; split; try done.
      * intros (q & [= <-] & <-). split_and!; [done|by apply Hm|done].
      * intros (_ & ->%Hm & _). by exists p.
      * by intros [_ ?].
      * intros (_ & _ & H). exfalso. eapply H. by apply Hm.
      * intros (_ & perms & ->%Hm & Hn). done.
    + split_and!; try done; [intros perms|..]; split; try done.
      * by intros (q & ? & _).
      * intros (_ & ->%Hm & Hn). by apply Ha in Hn.
      * by intros [_ ?].
      * intros (_ & _ & H). exfalso. eapply H. by apply Hm.
      * intros _. split; [done|]. exists (g_Perm <$> Grants p). split; [by apply Hm|]. intros Hn. by apply Ha in Hn.
  - unfold authorize. rewrite Ho. cbn [snd]. split_and!; try done; [intros perms|..]; split; try done.
    + by intros (q & ? & _).
    + intros (_ & Hp & _). by apply Hm in Hp.
    + by intros [_ ?].
    + intros (_ & perms & Hp & _). by apply Hm in Hp.
  - split_and!; try done; [intros perms|..]; split; try done.
    + by intros (q & ? & _).
    + intros (_ & Hp & _). by apply Hm in Hp.
    + by intros (_ & ? & _).
    + intros (_ & perms & Hp & _). by apply Hm in Hp.
Qed.

(** * The life of a token *)

(** What changes the table: a mint, a use, a revocation, a seeding. *)
Inductive tstep (t : table) : table -> Prop :=
  | step_mint id secret label perms expiresAt now actor t' :
      MintToken HashToken id secret label perms expiresAt now actor t = Ok t' -> tstep t t'
  | step_touch id at_ : tstep t (TouchToken id at_ t)
  | step_revoke id actor now t' : RevokeToken id actor now t = Ok t' -> tstep t t'
  | step_seed id label perms secret now t' o : SeedToken HashToken id label perms secret now t = Ok (t', o) -> tstep t t'.

(** The same token later: only its use, and its revocation once, can have changed. *)
Definition follows (r r' : trow) : Prop :=
  tk_ID r' = tk_ID r /\ tk_hash r' = tk_hash r /\ tk_Label r' = tk_Label r /\ tk_perms r' = tk_perms r /\
  tk_CreatedAt r' = tk_CreatedAt r /\ tk_ExpiresAt r' = tk_ExpiresAt r /\ tk_Actor r' = tk_Actor r /\
  (tk_RevokedAt r = None \/ tk_RevokedAt r' = tk_RevokedAt r /\ tk_RevokedBy r' = tk_RevokedBy r).

#[local] Instance follows_refl : Reflexive follows.
Proof using. intros r. unfold follows. tauto. Qed.
#[local] Instance follows_trans : Transitive follows.
Proof using. intros x y z. unfold follows. intuition congruence. Qed.

Definition carries (t t' : table) : Prop := keyed t' /\ forall r, r ∈ t -> exists r', r' ∈ t' /\ follows r r'.

Lemma insert_carries r t t' : keyed t -> InsertAPIToken r t = Ok t' -> carries t t' /\ t' = t ++ [r].
Proof using.
  intros [H1 H2]. unfold InsertAPIToken. destruct (existsb _ t) eqn:E; [done|]. intros [= <-]. split; [|done].
  assert (Hn : forall x, x ∈ t -> tk_ID x <> tk_ID r /\ tk_hash x <> tk_hash r).
  { intros x Hx. rewrite existsb_false_iff in E. apply E in Hx.
    apply orb_false_iff in Hx as [E1%String.eqb_neq E2%String.eqb_neq]. done. }
  split; [split|]; [..|intros x Hx; exists x; split; [set_solver|done]].
  all: rewrite fmap_app; apply NoDup_app; split_and!; [done| |apply NoDup_singleton].
  all: intros y (x & -> & Hx)%list_elem_of_fmap Hy%list_elem_of_singleton; by apply Hn in Hx as [? ?].
Qed.

Lemma map_id_carries id f t : keyed t -> (forall r, r ∈ t -> follows r (f r)) -> carries t (map_id id f t).
Proof using.
  intros [H1 H2] Hf. unfold map_id.
  assert (Hx : forall r, r ∈ t -> follows r (if String.eqb (tk_ID r) id then f r else r)) by (intros r Hr; destruct (String.eqb _ _); auto; done).
  split.
  - assert (E : forall B (g : trow -> B), (forall r r', follows r r' -> g r' = g r) ->
      g <$> ((fun r => if String.eqb (tk_ID r) id then f r else r) <$> t) = g <$> t).
    { intros B g Hg. rewrite <- list_fmap_compose. apply list_fmap_ext. intros i r Hr%list_elem_of_lookup_2. cbn. by apply Hg, Hx. }
    split; [rewrite (E _ tk_ID)|rewrite (E _ tk_hash)]; try done; intros r r' Hr; apply Hr.
  - intros r Hr. eexists. split; [apply list_elem_of_fmap; by exists r|by apply Hx].
Qed.

Lemma tstep_carries t t' : keyed t -> tstep t t' -> carries t t'.
Proof using.
  intros Hk [id secret label perms expiresAt now actor t'' Hm|id at_|id actor now t'' Hr|id label perms secret now t'' o Hs].
  - by eapply insert_carries in Hm as [Hm _].
  - apply map_id_carries; [done|]. intros r _. unfold follows. cbn. tauto.
  - unfold RevokeToken in Hr. destruct (existsb _ t); [|done]. injection Hr as <-. apply map_id_carries; [done|].
    intros r _. case_bool_decide; [|done]. unfold follows. cbn. tauto.
  - assert (Hid : carries t t) by (split; [done|]; intros r Hr; by exists r).
    unfold SeedToken in Hs. destruct (ValidateTokenSecret secret); [cbn [mbind result_bind] in Hs|done].
    destruct (holderOf _ secret now t); [by injection Hs as <- _|].
    destruct (InsertAPIToken _ t) as [t1|e] eqn:Ei; [|done]. injection Hs as <- _. by apply insert_carries in Ei as [Ei _].
Qed.

Lemma tsteps_carries t t' : keyed t -> rtc tstep t t' -> carries t t'.
Proof using.
  intros Hk Hs. revert Hk. induction Hs as [t|t t1 t2 H1 Hs IH]; intros Hk; [split; [done|]; intros r Hr; by exists r|].
  destruct (tstep_carries t t1 Hk H1) as [Hk1 Hc1]. destruct (IH Hk1) as [Hk2 Hc2]. split; [done|].
  intros r (r1 & Hr1 & Hf1)%Hc1. apply Hc2 in Hr1 as (r2 & Hr2 & Hf2). exists r2. split; [done|]. by etrans.
Qed.

(** C29. What a token grants is fixed when it is minted, and a revocation is final: after any
    mints, uses, revocations and seedings, whoever presents the secret of a stored token is
    that token, with the permissions it was given, was not revoked before, and has not
    expired; and seeding the secret of a revoked token again changes nothing and says so. *)
Theorem token_final t t' r secret : keyed t -> r ∈ t -> tk_hash r = HashToken secret -> rtc tstep t t' ->
  (forall now r', LookupToken HashToken secret now t' = Some r' ->
     tk_ID r' = tk_ID r /\ tk_perms r' = tk_perms r /\ tk_RevokedAt r = None /\ unexpired now r = true) /\
  (tk_RevokedAt r <> None -> ValidateTokenSecret secret = Ok tt ->
     forall id label perms now, SeedToken HashToken id label perms secret now t' = Ok (t', SeedDead)).
Proof using.
  intros Hk Hr Hh Hs. destruct (tsteps_carries t t' Hk Hs) as [Hk' Hc]. destruct (Hc r Hr) as (r1 & Hr1 & Hf).
  destruct Hf as (E1 & E2 & _ & E4 & _ & E6 & _ & E8). split.
  - intros now r' (_ & Hr' & Hh' & [Hl1%bool_decide_eq_true Hl2]%andb_true_iff)%lookup_spec; [|done].
    assert (r' = r1) as -> by (eapply (unique_row tk_hash); [apply Hk'|done..|congruence]).
    split_and!; [done..| |by unfold unexpired in *; rewrite <- E6]. destruct E8 as [|[E8 _]]; [done|]. by rewrite <- E8.
  - intros Hrev Hv id label perms now. unfold SeedToken. rewrite Hv. cbn [mbind result_bind].
    assert (E : GetAnyAPITokenByHash (HashToken secret) t' = Some r1).
    { unfold GetAnyAPITokenByHash. destruct (List.find _ t') as [r2|] eqn:Ef.
      - apply find_some in Ef as [Hr2%list_elem_of_In E%String.eqb_eq]. f_equal.
        eapply (unique_row tk_hash); [apply Hk'|done..|congruence].
      - eapply find_none in Ef; [|apply list_elem_of_In; exact Hr1]. by rewrite E2, Hh, String.eqb_refl in Ef. }
    unfold holderOf. rewrite E. cbn [mbind option_bind]. destruct E8 as [|[E8 _]]; [done|]. rewrite E8. by destruct (tk_RevokedAt r).
Qed.

(** * Seeding *)

Definition held (t : table) (e : seedEntry) : Prop := exists r, r ∈ t /\ tk_hash r = HashToken (se_secret e).

Lemma holder_none secret now t : holderOf HashToken secret now t = None <-> forall r, r ∈ t -> tk_hash r <> HashToken secret.
Proof using.
  unfold holderOf, GetAnyAPITokenByHash. destruct (List.find _ t) as [r|] eqn:E; cbn [mbind option_bind].
  - apply find_some in E as [Hr%list_elem_of_In E%String.eqb_eq]. split; [done|]. intros H. by destruct (H r Hr).
  - split; [|done]. intros _ r Hr%list_elem_of_In. eapply find_none in E; [|exact Hr]. by apply String.eqb_neq.
Qed.

Lemma seed_one id label perms secret now t t' o : SeedToken HashToken id label perms secret now t = Ok (t', o) ->
  held t' (mkSeed label secret perms) /\
  ((o <> SeedCreated /\ t' = t) \/
   o = SeedCreated /\ t' = t ++ [mkToken id (HashToken secret) label perms now None None None ActorSeedTokens ""]).
Proof using.
  unfold SeedToken. destruct (ValidateTokenSecret secret); [cbn [mbind result_bind]|done].
  assert (Hheld : forall o, holderOf HashToken secret now t = Some o -> held t (mkSeed label secret perms) /\ o <> SeedCreated).
  { unfold holderOf, GetAnyAPITokenByHash. intros o' Ho. destruct (List.find _ t) as [r|] eqn:E; [cbn in Ho|done].
    apply find_some in E as [Hr%list_elem_of_In E%String.eqb_eq]. split; [by exists r|].
    destruct (tk_RevokedAt r); [by injection Ho as <-|]. destruct (tk_ExpiresAt r) as [e|]; [destruct (e <=? now)|]; by injection Ho as <-. }
  destruct (holderOf HashToken secret now t) as [o'|] eqn:Eh.
  - intros [= <- <-]. destruct (Hheld o' eq_refl). split; [done|by left].
  - destruct (InsertAPIToken _ t) as [t1|e] eqn:Ei; [|done]. intros [= <- <-].
    unfold InsertAPIToken in Ei. destruct (existsb _ t); [done|]. injection Ei as <-. split; [|by right].
    eexists. split; [apply elem_of_app; right; by apply list_elem_of_singleton|done].
Qed.

(** A token made by the seeding of an entry. *)
Definition seeded_as (es : list seedEntry) (r : trow) : Prop :=
  tk_RevokedAt r = None /\ tk_ExpiresAt r = None /\
  exists e, e ∈ es /\ tk_hash r = HashToken (se_secret e) /\ tk_perms r = se_perms e /\ tk_Label r = se_label e.

Lemma seed_entries_spec mint n now es rep t t' rep' : seed_entries HashToken mint n now es rep t = (t', Ok rep') ->
  exists new, t' = t ++ new /\ created rep' = created rep + Z.of_nat (length new) /\ noSecret rep' = noSecret rep /\
    Forall (seeded_as es) new /\ Forall (held t') es.
Proof using.
  revert n rep t. induction es as [|e es IH]; intros n rep t; cbn [seed_entries].
  { intros [= <- <-]. exists []. rewrite app_nil_r. split_and!; try done. cbn. lia. }
  destruct (SeedToken _ _ _ _ _ _ t) as [[t1 o]|err] eqn:Es; [|done]. intros Hs.
  apply seed_one in Es as [Hh Es]. apply IH in Hs as (new & -> & Hc & Hn & Hf & Hes).
  assert (Hmono : forall r, seeded_as es r -> seeded_as (e :: es) r).
  { intros r (H1 & H2 & e' & H3 & H4). split_and!; [done..|]. exists e'. split; [set_solver|done]. }
  assert (Hhe : held (t1 ++ new) e).
  { destruct Hh as (r & Hr & Er). exists r. split; [set_solver|done]. }
  destruct Es as [[Ho ->]|[-> ->]].
  - exists new. split_and!; [done| | |eapply Forall_impl; [exact Hf|auto]|by constructor].
    + rewrite Hc. by destruct o.
    + rewrite Hn. by destruct o.
  - eexists (_ :: new). rewrite <- app_assoc. split_and!; [done| |done| |].
    + rewrite Hc. cbn. lia.
    + constructor; [|eapply Forall_impl; [exact Hf|auto]]. split_and!; [done..|]. exists e. split; [set_solver|done].
    + rewrite <- app_assoc in Hhe, Hes. by constructor.
Qed.

Lemma seed_again mint n now es rep t : Forall (held t) es -> Forall (fun e => ValidateTokenSecret (se_secret e) = Ok tt) es ->
  exists rep', seed_entries HashToken mint n now es rep t = (t, Ok rep') /\ created rep' = created rep /\ noSecret rep' = noSecret rep.
Proof using.
  revert n rep. induction es as [|e es IH]; intros n rep; [by exists rep|]. intros [He Hes]%Forall_cons [Hv Hvs]%Forall_cons.
  cbn [seed_entries]. unfold SeedToken. rewrite Hv. cbn [mbind result_bind].
  destruct (holderOf HashToken (se_secret e) now t) as [o|] eqn:Eh.
  - assert (o <> SeedCreated) as Ho.
    { unfold holderOf in Eh. destruct (GetAnyAPITokenByHash _ t) as [r|]; [cbn in Eh|done].
      destruct (tk_RevokedAt r); [by injection Eh as <-|]. destruct (tk_ExpiresAt r) as [x|]; [destruct (x <=? now)|]; by injection Eh as <-. }
    destruct (IH (S n) (match o with SeedCreated => mkReport (created rep + 1) (noSecret rep) (dead rep) | SeedPresent => rep
      | SeedDead => mkReport (created rep) (noSecret rep) (dead rep ++ [se_label e]) end) Hes Hvs) as (rep' & -> & Hc & Hn).
    exists rep'. split; [done|]. by destruct o.
  - rewrite holder_none in Eh. destruct He as (r & Hr & E). by destruct (Eh r Hr).
Qed.

Lemma seed_lines_valid i lines entries ns : seed_lines i lines = Ok (entries, ns) ->
  Forall (fun e => ValidateTokenSecret (se_secret e) = Ok tt /\ Forall (fun p => p ∈ KnownPerms) (se_perms e)) entries.
Proof using.
  revert i entries ns. induction lines as [|l lines IH]; intros i entries ns; cbn [seed_lines]; [by intros [= <- _]|].
  destruct (seed_line i l) as [o|] eqn:El; [cbn [mbind result_bind]|done].
  destruct (seed_lines (i + 1) lines) as [[es' ns']|] eqn:Es; [|done]. apply IH in Es. cbn.
  destruct o as [[label|e]|]; intros [= <- _]; try done. constructor; [|done].
  unfold seed_line in El. destruct (_ || _); [done|]. destruct (split3 _) as [[[a b] c]|]; [|done].
  destruct (String.eqb c ""); [done|]. destruct (String.eqb a ""); [done|].
  destruct (ValidPerms (splitPerms b)) as [perms|] eqn:Ep; [cbn [map_err mbind result_bind] in El|done].
  destruct (ValidateTokenSecret c) as [[]|] eqn:Ev; [|done]. injection El as <-. cbn. split; [done|].
  unfold ValidPerms in Ep. destruct (splitPerms b) as [|x l']; [done|]. revert perms Ep. generalize (x :: l'). clear.
  induction l as [|x l IH]; intros perms; cbn [known_perms]; [by intros [= <-]|].
  destruct (existsb (String.eqb x) KnownPerms) eqn:E; [|done]. destruct (known_perms l) as [out|]; [cbn|done]. intros [= <-].
  constructor; [|by apply IH]. apply existsb_exists in E as (y & Hy%list_elem_of_In & ->%String.eqb_eq). done.
Qed.

(** Seeding a list of tokens stores one for each secret no token held, with the permissions
    its line gives, every one of them known; a token already there keeps what it grants; and
    seeding the same list again, then or later, stores nothing and is not refused. *)
Theorem seeding_settles mint mint' now now' spec entries ns t t' rep :
  parseSeedTokens spec = Ok (entries, ns) -> seedSuppliedTokens HashToken mint now spec t = (t', Ok rep) ->
  (exists new, t' = t ++ new /\ Z.of_nat (length new) = created rep /\ Forall (seeded_as entries) new) /\
  Forall (fun e => held t' e /\ Forall (fun p => p ∈ KnownPerms) (se_perms e)) entries /\
  exists rep', seedSuppliedTokens HashToken mint' now' spec t' = (t', Ok rep') /\ created rep' = 0 /\ noSecret rep' = ns.
Proof using.
  unfold seedSuppliedTokens. intros Hp. rewrite Hp. unfold parseSeedTokens in Hp. apply seed_lines_valid in Hp.
  destruct (seed_entries HashToken mint 0 now entries _ t) as [t1 r] eqn:Es. intros [= -> Hr].
  destruct r as [r|]; [cbn in Hr|done]. injection Hr as ->.
  apply seed_entries_spec in Es as (new & -> & Hc & _ & Hf & Hh). split_and!.
  - exists new. split_and!; [done|by rewrite Hc|done].
  - rewrite Forall_forall in *. intros e He. split; [by apply Hh|by apply Hp].
  - destruct (seed_again mint' 0 now' entries (mkReport 0 ns []) (t ++ new) Hh) as (rep' & E & E1 & E2).
    { eapply Forall_impl; [exact Hp|]. by intros e [? _]. }
    exists rep'. rewrite E. done.
Qed.

End Who.

(** * The write of a use *)

(** The moments at which uses of a token are written, over the uses a server sees. *)
Fixpoint writes (id : string) (uses : list (moment * string)) (s : store) : list Z :=
  match uses with
  | [] => []
  | (m, i) :: uses =>
      (if String.eqb i id && negb (match lastTouch s !! i with Some last => now m - last <? touchInterval | None => false end)
       then [now m] else []) ++ writes id uses (touch m i s)
  end.

Lemma writes_spaced id uses s : StronglySorted (fun a b => a + touchInterval <= b) (writes id uses s) /\
  (forall last, lastTouch s !! id = Some last -> Forall (fun w => last + touchInterval <= w) (writes id uses s)).
Proof.
  revert s. induction uses as [|[m i] uses IH]; intros s; cbn [writes]; [split; constructor|].
  destruct (String.eqb_spec i id) as [->|Hne]; cbn [andb].
  - unfold touch. destruct (lastTouch s !! id) as [last|] eqn:El.
    + destruct (Z.ltb_spec (now m - last) touchInterval) as [Hlt|Hge]; cbn [negb app].
      * rewrite <- El. apply IH.
      * set (s' := mkStore _ _). destruct (IH s') as [H1 H2].
        assert (E : lastTouch s' !! id = Some (now m)) by (cbn; by rewrite lookup_insert_eq).
        specialize (H2 _ E). split; [by constructor|]. intros last' [= <-]. constructor; [lia|].
        eapply Forall_impl; [exact H2|]. cbn. unfold touchInterval in *. lia.
    + cbn [negb app]. set (s' := mkStore _ _). destruct (IH s') as [H1 H2].
      assert (E : lastTouch s' !! id = Some (now m)) by (cbn; by rewrite lookup_insert_eq).
      specialize (H2 _ E). split; [by constructor|done].
  - cbn [app]. destruct (IH (touch m i s)) as [H1 H2]. split; [done|]. intros last Hl. apply H2. unfold touch.
    destruct (match lastTouch s !! i with Some last => _ | None => false end); [done|]. cbn. by rewrite lookup_insert_ne.
Qed.

(** A server writes the use of a token at most once in each interval of a minute: any two
    of the writes are that far apart, whatever the uses, of this token and others, and
    however the clock moves. *)
Theorem uses_spaced id uses s : StronglySorted (fun a b => a + touchInterval <= b) (writes id uses s).
Proof. apply writes_spaced. Qed.

(** * What the permissions reach *)

Definition reach (p : Perm) : list string :=
  a_Name <$> List.filter (fun a => bool_decide (authorize a (Some (mkPrincipal "" [mkGrant p None] "")) = None)) registry.

(** No two actions share a route, only the probe is open; and what each permission reaches. *)
Theorem roles_reach :
  NoDup ((fun a => (a_Method a, mountPath a)) <$> registry) /\
  a_Name <$> List.filter a_Open registry = ["health"] /\
  reach PermWorker = ["get_object"; "claim_external_tasks"; "renew_external_claims"; "release_external_task";
    "resolve_external_task"; "signal_instance"; "health"] /\
  reach PermRead = ["list_definitions"; "list_instances"; "list_channels"; "channel_status"; "validate_definitions";
    "compare_definitions"; "get_instance_detail"; "get_instance"; "list_instance_logs"; "get_object"; "health"] /\
  reach PermOperate = ["start_instance"; "pause_instance"; "resume_instance"; "cancel_instance"; "retry_instance"; "health"] /\
  reach PermDeploy = ["put_definitions"; "put_channel"; "delete_channel"; "promote_channel"; "upgrade_instance"; "health"] /\
  reach PermAdmin = a_Name <$> registry.
Proof. split_and!; try (vm_compute; reflexivity). apply (bool_decide_unpack _). vm_compute. exact I. Qed.

(** * A concrete server *)

Module Demo.

Definition digest (secret : string) : string := "#" +:+ secret.
Definition secret : string := "genroc_sk_0123456789abcdefghijklmnopqrstuv".
Definition lost : string := "genroc_sk_zyxwvutsrqponmlkjihgfedcba543210".
Definition t0 : table :=
  [mkToken "t1" (digest secret) "ci" [PermDeploy; PermRead] 5 None None None "cli:token-create" "";
   mkToken "t2" (digest lost) "" [PermAdmin] 6 None (Some 9) None "cli:token-create" "cli:token-revoke"].
Definition cfg : JWTModeConfig := with_defaults (mkJWT "" "" "0123456789012345678901234567890123" "" 30).
(** A verifier that admits one text. *)
Definition verify (c : JWTModeConfig) (secret : string) (m : moment) (credential : string) : option (list (string * value)) :=
  if String.eqb credential "a.b.c" then Some [("sub", Str "ann"); ("perms", Arr [Str "operate"; Str " read "; Str "read"; Null])] else None.
Definition m0 : moment := mkMoment 90000000000 1000 true true.
Definition s0 : store := mkStore t0 empty.
Definition action (name : string) : actionDef :=
  match List.find (fun a => String.eqb (a_Name a) name) registry with Some a => a | None => act "" "" "" [] end.
Definition asks (name header : string) : reply :=
  (dispatch (installed digest verify true true cfg (Secret cfg)) (action name) true header m0 s0).2.

Example deploy : exists p, asks "put_channel" ("bearer  " +:+ secret) = Handled (Some p) /\ Actor (Some p) = "token:ci".
Proof. eexists. split; vm_compute; reflexivity. Qed.
Example no_operate : asks "start_instance" ("Bearer " +:+ secret) = Refused CodeForbidden.
Proof. vm_compute. reflexivity. Qed.
Example revoked : asks "start_instance" ("Bearer " +:+ lost) = Refused CodeUnauthenticated.
Proof. vm_compute. reflexivity. Qed.
Example signed : exists p, asks "list_instances" "Bearer a.b.c" = Handled (Some p) /\ g_Perm <$> Grants p = ["operate"; "read"].
Proof. eexists. split; vm_compute; reflexivity. Qed.
Example basic : asks "list_instances" "Basic dTpw" = Refused CodeUnauthenticated.
Proof. vm_compute. reflexivity. Qed.

Lemma t0_keyed : keyed t0.
Proof. split; apply (bool_decide_unpack _); vm_compute; exact I. Qed.

Definition spec : string := "ci=deploy,read=" +:+ secret +:+ String newline "# a comment" +:+ String newline "ops= admin =genroc_sk_ABCDEFGHIJKLMNOPQRSTUVWXYZ012345" +:+
  String newline "old=worker=" +:+ String newline ("gone=admin=" +:+ lost).
Definition mint (n : nat) : string := "s" +:+ FormatNat (Z.of_nat n).
Definition seeding : table * result (seed_error + token_error) seedReport := seedSuppliedTokens digest mint 2000 spec t0.
Example seeded : seeding.2 = Ok (mkReport 1 ["old"] ["gone"]).
Proof. vm_compute. reflexivity. Qed.

End Demo.

Lemma gate_exact_witness : exists perms,
  known Demo.digest Demo.verify false Demo.cfg (Secret Demo.cfg) Demo.m0 (tokens Demo.s0) (bearerToken ("Bearer " +:+ Demo.secret)) perms /\
  admits perms (Demo.action "put_channel").
Proof.
  destruct (gate_exact Demo.digest Demo.verify false Demo.cfg (Secret Demo.cfg) (Demo.action "put_channel") true
    ("Bearer " +:+ Demo.secret) Demo.m0 Demo.s0) as (_ & H & _); [exact Demo.t0_keyed|reflexivity|].
  destruct (H [PermDeploy; PermRead]) as [[_ Hx] _]; [eexists; split; vm_compute; reflexivity|].
  exists [PermDeploy; PermRead]. exact Hx.
Defined.

Lemma token_final_witness :
  (forall r', LookupToken Demo.digest Demo.secret 2000 (TouchToken "t1" 3 Demo.t0) = Some r' -> tk_perms r' = [PermDeploy; PermRead]) /\
  SeedToken Demo.digest "s" "gone" [PermAdmin] Demo.lost 2000 (TouchToken "t1" 3 Demo.t0) = Ok (TouchToken "t1" 3 Demo.t0, SeedDead).
Proof.
  assert (Hs : rtc (tstep Demo.digest) Demo.t0 (TouchToken "t1" 3 Demo.t0)) by (apply rtc_once; constructor). split.
  - intros r' Hr.
    destruct (token_final Demo.digest Demo.t0 (TouchToken "t1" 3 Demo.t0) (nth 0 Demo.t0 r') Demo.secret Demo.t0_keyed) as [H _];
      [apply list_elem_of_here|reflexivity|exact Hs|]. by apply (H 2000 r').
  - destruct (token_final Demo.digest Demo.t0 (TouchToken "t1" 3 Demo.t0)
      (mkToken "t2" (Demo.digest Demo.lost) "" [PermAdmin] 6 None (Some 9) None "cli:token-create" "cli:token-revoke") Demo.lost Demo.t0_keyed) as [_ H];
      [apply list_elem_of_further, list_elem_of_here|reflexivity|exact Hs|]. by apply H.
Defined.

Lemma seeding_settles_witness : exists rep', seedSuppliedTokens Demo.digest Demo.mint 3000 Demo.spec Demo.seeding.1 = (Demo.seeding.1, Ok rep') /\ created rep' = 0.
Proof.
  destruct (parseSeedTokens Demo.spec) as [[entries ns]|] eqn:Ep; [|exfalso; vm_compute in Ep; discriminate Ep].
  assert (Hs : seedSuppliedTokens Demo.digest Demo.mint 2000 Demo.spec Demo.t0 = (Demo.seeding.1, Ok (mkReport 1 ["old"] ["gone"])))
    by (vm_compute; reflexivity).
  pose proof (seeding_settles Demo.digest Demo.mint Demo.mint 2000 3000 Demo.spec entries ns Demo.t0 Demo.seeding.1 _ Ep Hs) as (_ & _ & rep' & H1 & H2 & _).
  exists rep'. split; [exact H1|exact H2].
Defined.

End Auth.
