(* ===== verification/Registry.v ===== *)
(** The registry of definitions: the versions, their pinned children and the channels of
    internal/db/db_registry.go with its statements, and the batch apply, the order of a batch
    and the channel handlers of internal/api (handlers_definitions.go, handlers_channels.go).

    What judges a definition - its validation, the inference over it, the check of its child
    references, the server's environment - is the record [judges], as are the text a
    definition is hashed by and the digest.  A stored definition is kept decoded. *)
From Stdlib Require Import ZArith Lia Ascii String.
From stdpp Require Import strings gmap sorting.
From S2P Require Import Prelude GoStrings Json Schema CheckDoc Retry Definitions.
Open Scope string_scope.
Open Scope list_scope.
Open Scope Z_scope.

Module Registry.
Import Definitions.

(** * The tables *)

Record DependencyRow := mkDep {
  ParentName : string; ParentVersion : Z; TaskID : string; ChildKey : string; ChildName : string; ChildVersion : Z }.
#[export] Instance DependencyRow_eq_dec : EqDecision DependencyRow.
Proof. solve_decision. Defined.

Record chan := mkChan { ch_version : Z; ch_updated : Z; ch_actor : string }.

Section Registry.
Context `{Schema.Numbers}.

Record defrow := mkDefRow {
  dr_name : string; dr_version : Z; dr_definition : ProcessDefinition; dr_hash : string; dr_created : Z; dr_actor : string }.

Record registry := mkRegistry {
  definitions : list defrow; dependencies : list DependencyRow; channels : gmap (string * string) chan;
  defCache : gmap (string * Z) ProcessDefinition }.

(** An unanswered read, or a write the constraints of the schema refuse. *)
Inductive db_error := ErrNotFound | Constraint.

Implicit Types (s : registry) (d : ProcessDefinition) (name channel : string) (version : Z).

Definition is_version name version (r : defrow) : bool := String.eqb (dr_name r) name && (dr_version r =? version).
Definition find_definition name version s : option defrow := List.find (is_version name version) (definitions s).

(** [MAX(version)], of a column that is never negative. *)
Definition max_version (rows : list defrow) : option Z :=
  match rows with [] => None | _ => Some (foldr Z.max 0 (dr_version <$> rows)) end.
Definition LatestVersion name s : option Z := max_version (List.filter (fun r => String.eqb (dr_name r) name) (definitions s)).
Definition FindVersionByHash name (hash : string) s : option Z :=
  max_version (List.filter (fun r => String.eqb (dr_name r) name && String.eqb (dr_hash r) hash) (definitions s)).

(** [GetDefinition] reads through the cache and fills it. *)
Definition GetDefinition name version s : registry * option ProcessDefinition :=
  match defCache s !! (name, version) with
  | Some d => (s, Some d)
  | None =>
      match find_definition name version s with
      | None => (s, None)
      | Some r => (mkRegistry (definitions s) (dependencies s) (channels s) (<[(name, version) := dr_definition r]> (defCache s)),
                   Some (dr_definition r))
      end
  end.

(** [insertDefinition]: on a conflict the text of the definition alone is overwritten. *)
Definition InsertDefinition (r : defrow) s : registry :=
  let rows := definitions s in
  mkRegistry
    (if existsb (is_version (dr_name r) (dr_version r)) rows
     then (fun x => if is_version (dr_name r) (dr_version r) x
                    then mkDefRow (dr_name x) (dr_version x) (dr_definition r) (dr_hash x) (dr_created x) (dr_actor x) else x) <$> rows
     else rows ++ [r])
    (dependencies s) (channels s) (defCache s).

Definition of_parent name version (x : DependencyRow) : bool := String.eqb (ParentName x) name && (ParentVersion x =? version).
Definition DeleteDependencies name version s : registry :=
  mkRegistry (definitions s) (List.filter (fun x => negb (of_parent name version x)) (dependencies s)) (channels s) (defCache s).

Definition same_slot (x y : DependencyRow) : bool :=
  of_parent (ParentName y) (ParentVersion y) x && String.eqb (TaskID x) (TaskID y) && String.eqb (ChildKey x) (ChildKey y).
Definition exists_version name version s : bool := existsb (is_version name version) (definitions s).
Definition InsertDependency (x : DependencyRow) s : result db_error registry :=
  if existsb (same_slot x) (dependencies s) || negb (exists_version (ParentName x) (ParentVersion x) s) ||
     negb (exists_version (ChildName x) (ChildVersion x) s) then Err Constraint
  else Ok (mkRegistry (definitions s) (dependencies s ++ [x]) (channels s) (defCache s)).

Definition UpsertChannel name channel version (now : Z) (actor : string) s : result db_error registry :=
  if exists_version name version s
  then Ok (mkRegistry (definitions s) (dependencies s) (<[(name, channel) := mkChan version now actor]> (channels s)) (defCache s))
  else Err Constraint.
Definition SaveChannel := UpsertChannel.
Definition GetChannel name channel s : option Z := ch_version <$> channels s !! (name, channel).
Definition DeleteChannel name channel s : registry :=
  mkRegistry (definitions s) (dependencies s) (delete (name, channel) (channels s)) (defCache s).

(** * Applying a planned batch *)

Record DefinitionWrite := mkWrite {
  w_Def : option ProcessDefinition; w_Name : string; w_Version : Z; w_Deps : list DependencyRow; w_Hash : string;
  w_Channels : list string; w_Actor : string }.

Fixpoint insert_deps (deps : list DependencyRow) s : result db_error registry :=
  match deps with [] => Ok s | x :: deps => s ← InsertDependency x s; insert_deps deps s end.
Fixpoint upsert_channels (w : DefinitionWrite) (now : Z) (chs : list string) s : result db_error registry :=
  match chs with
  | [] => Ok s
  | c :: chs =>
      s ← (if String.eqb c "" then Ok s else UpsertChannel (w_Name w) c (w_Version w) now (w_Actor w) s);
      upsert_channels w now chs s
  end.
Definition apply_write (now : Z) (w : DefinitionWrite) s : result db_error registry :=
  s ← match w_Def w with
      | None => Ok s
      | Some d => insert_deps (w_Deps w) (DeleteDependencies (w_Name w) (w_Version w)
                    (InsertDefinition (mkDefRow (w_Name w) (w_Version w) d (w_Hash w) now (w_Actor w)) s))
      end;
  upsert_channels w now (w_Channels w) s.
Fixpoint apply_writes (now : Z) (writes : list DefinitionWrite) s : result db_error registry :=
  match writes with [] => Ok s | w :: writes => s ← apply_write now w s; apply_writes now writes s end.

(** After the commit the cache forgets what was written. *)
Definition drop_cached (writes : list DefinitionWrite) s : registry :=
  mkRegistry (definitions s) (dependencies s) (channels s)
    (foldl (fun c w => match w_Def w with Some _ => delete (w_Name w, w_Version w) c | None => c end) (defCache s) writes).
Definition ApplyDefinitions (now : Z) (writes : list DefinitionWrite) s : registry * option db_error :=
  match apply_writes now writes s with
  | Ok s' => (drop_cached writes s', None)
  | Err e => (s, Some e)
  end.

(** * Children *)

Definition GetDependencyVersion name version (taskID childKey : string) s : option Z :=
  ChildVersion <$> List.find (fun x => of_parent name version x && String.eqb (TaskID x) taskID && String.eqb (ChildKey x) childKey)
                     (dependencies s).
Definition ResolveChildVersion (parentName : string) (parentVersion : Z) (taskID childName : string) (declared : Z) (depKey : string) s
    : option Z :=
  if negb (declared =? 0) then Some declared
  else if String.eqb childName parentName then Some parentVersion
  else match GetDependencyVersion parentName parentVersion taskID depKey s with
       | Some v => Some v
       | None => LatestVersion childName s
       end.

(** [ListDependencies], in no order. *)
Definition ListDependencies name version s : list (string * Z) :=
  remove_dups ((fun x => (ChildName x, ChildVersion x)) <$> List.filter (of_parent name version) (dependencies s)).

(** [FindStaleRefs]: a pin below where the channel points, of a parent the channel points at. *)
Record StaleRefRow := mkStale {
  sr_parent : string; sr_version : Z; sr_task : string; sr_child : string; sr_baked : Z; sr_channel : Z }.
Definition FindStaleRefs channel s : list StaleRefRow :=
  omap (fun x =>
    pv ← GetChannel (ParentName x) channel s; cv ← GetChannel (ChildName x) channel s;
    if (ParentVersion x =? pv) && (ChildVersion x <? cv)
    then Some (mkStale (ParentName x) pv (TaskID x) (ChildName x) (ChildVersion x) cv) else None) (dependencies s).

(** * The batch *)

Definition defaultChannel : string := "latest".

(** The children a task names: its slot's key, the child and the declared version. *)
Definition task_children (t : Task) : list (string * string * Z) :=
  match t_action t with
  | None => []
  | Some a =>
      if String.eqb (Type_ a) ActionTypeChild || String.eqb (Type_ a) ActionTypeChildList then [("", a_name a, a_version a)]
      else if String.eqb (Type_ a) ActionTypeChildMap
           then (fun '(k, e) => (k, e_name e, e_version e)) <$> map_to_list (Children a)
           else []
  end.
Definition child_names d : list string := (tasks d ≫= task_children) ≫= (fun '(_, n, _) => [n]).

Inductive mark := visiting | finished.
Record dfs := mkDfs { marks : gmap string mark; out : list ProcessDefinition }.

Fixpoint visit_all (visit : string -> dfs -> option (result string dfs)) (name : string) (inBatch : string -> bool)
    (children : list string) (q : dfs) : option (result string dfs) :=
  match children with
  | [] => Some (Ok q)
  | c :: children =>
      if String.eqb c name || negb (inBatch c) then visit_all visit name inBatch children q
      else match visit c q with
           | Some (Ok q) => visit_all visit name inBatch children q
           | stopped => stopped
           end
  end.
Fixpoint visit (fuel : nat) (byName : gmap string ProcessDefinition) (name : string) (q : dfs) : option (result string dfs) :=
  match fuel with
  | O => None
  | S fuel =>
      match marks q !! name with
      | Some finished => Some (Ok q)
      | Some visiting => Some (Err name)
      | None =>
          match byName !! name with
          | None => None
          | Some d =>
              match visit_all (visit fuel byName) name (fun c => bool_decide (is_Some (byName !! c))) (child_names d)
                      (mkDfs (<[name := visiting]> (marks q)) (out q)) with
              | Some (Ok q) => Some (Ok (mkDfs (<[name := finished]> (marks q)) (out q ++ [d])))
              | stopped => stopped
              end
          end
      end
  end.
Fixpoint visit_roots (fuel : nat) (byName : gmap string ProcessDefinition) (names : list string) (q : dfs) : option (result string dfs) :=
  match names with
  | [] => Some (Ok q)
  | n :: names => match visit fuel byName n q with Some (Ok q) => visit_roots fuel byName names q | stopped => stopped end
  end.

(** Of two definitions with one name the later is the one the map holds. *)
Definition by_name (defs : list ProcessDefinition) : gmap string ProcessDefinition :=
  foldl (fun m d => <[d_name d := d]> m) ∅ defs.
Definition topoSort (defs : list ProcessDefinition) : option (result string (list ProcessDefinition)) :=
  match visit_roots (S (length defs)) (by_name defs) (d_name <$> defs) (mkDfs ∅ []) with
  | Some (Ok q) => Some (Ok (out q))
  | Some (Err name) => Some (Err name)
  | None => None
  end.

Record judges := mkJudges {
  j_Validate : ProcessDefinition -> bool;
  j_Normalize : ProcessDefinition -> option ProcessDefinition;
  j_Generate : ProcessDefinition -> bool;
  j_ChildRefs : ProcessDefinition -> Z -> list ProcessDefinition -> gmap string Z -> registry -> bool;
  j_Config : ProcessDefinition -> bool;
  j_marshal : ProcessDefinition -> string;
  j_digest : string -> string }.

Inductive apply_error :=
  | Invalid (name : string)
  | Cycle (name : string)
  | NotNormal (name : string)
  | NotOnChannel (task child : string)
  | Untyped (name : string)
  | BadChildRefs (name : string)
  | ConfigUnset (name : string).

Section Batch.
Context (J : judges) (channel actor : string).

Definition resolveChildVersion (childName : string) (childVersion : Z) (taskID : string) (batchVersions : gmap string Z) s
    : result apply_error Z :=
  if negb (childVersion =? 0) then Ok childVersion
  else match batchVersions !! childName with
       | Some v => Ok v
       | None => of_option (NotOnChannel taskID childName) (GetChannel childName channel s)
       end.

Fixpoint resolve_children (name : string) (selfVersion : Z) (taskID : string) (batchVersions : gmap string Z) s
    (l : list (string * string * Z)) : result apply_error (list DependencyRow) :=
  match l with
  | [] => Ok []
  | (key, child, v) :: l =>
      if String.eqb child name && ((v =? 0) || (v =? selfVersion)) then resolve_children name selfVersion taskID batchVersions s l
      else version ← resolveChildVersion child v taskID batchVersions s;
           rest ← resolve_children name selfVersion taskID batchVersions s l;
           Ok (mkDep name selfVersion taskID key child version :: rest)
  end.
Fixpoint resolve_tasks (name : string) (selfVersion : Z) (batchVersions : gmap string Z) s (ts : list Task)
    : result apply_error (list DependencyRow) :=
  match ts with
  | [] => Ok []
  | t :: ts =>
      deps ← resolve_children name selfVersion (ID t) batchVersions s (task_children t);
      rest ← resolve_tasks name selfVersion batchVersions s ts;
      Ok (deps ++ rest)
  end.
Definition buildResolvedDeps d (selfVersion : Z) (batchVersions : gmap string Z) s : result apply_error (list DependencyRow) :=
  resolve_tasks (d_name d) selfVersion batchVersions s (tasks d).

(** [contentHash]: the text of the definition and its pins, task, key, child and version, by
    task and key. *)
Definition pin := (string * string * string * Z)%type.
Definition pin_of (x : DependencyRow) : pin := (TaskID x, ChildKey x, ChildName x, ChildVersion x).
Definition pin_le (x y : pin) : Prop :=
  let '(t, k, _, _) := x in let '(t', k', _, _) := y in if String.eqb t t' then String.le k k' else String.le t t'.
#[local] Instance pin_le_dec x y : Decision (pin_le x y).
Proof. destruct x as [[[t k] n] v], y as [[[t' k'] n'] v']. unfold pin_le. destruct (String.eqb _ _); apply _. Defined.
Definition nul : string := String "000" "".
Definition pin_text (x : pin) : string := let '(t, k, n, v) := x in nul +:+ t +:+ nul +:+ k +:+ nul +:+ n +:+ nul +:+ FormatInt v.
Definition contentHash (raw : string) (deps : list DependencyRow) : string :=
  j_digest J (raw +:+ String.concat "" (pin_text <$> merge_sort pin_le (pin_of <$> deps))).

(** [applyDepsToDefCopy]: the pins written into the child slots. *)
Definition pinned (deps : list DependencyRow) (taskID key : string) (v : Z) : Z :=
  match List.find (fun x => String.eqb (TaskID x) taskID && String.eqb (ChildKey x) key) (rev deps) with
  | Some x => ChildVersion x
  | None => v
  end.
Definition pin_action (deps : list DependencyRow) (taskID : string) (a : Action) : Action :=
  mkAction (Type_ a) (URL a) (Method a) (Headers a) (Query a) (AcceptedStatus a) (Responses a) (a_result_schema a) (a_raises a)
    (a_name a)
    (if String.eqb (Type_ a) ActionTypeChild || String.eqb (Type_ a) ActionTypeChildList then pinned deps taskID "" (a_version a) else a_version a)
    (Body a) (a_input a) (BodySchema a) (QuerySchema a) (a_input_schema a)
    (if String.eqb (Type_ a) ActionTypeChildMap
     then map_imap (fun k e => Some (mkEntry (e_name e) (pinned deps taskID k (e_version e)) (e_input e) (e_input_schema e)
                                       (e_result_schema e) (e_raises e))) (Children a)
     else Children a)
    (Over a) (a_timeout a) (a_delay a).
Definition pin_task (deps : list DependencyRow) (t : Task) : Task :=
  mkTask (ID t) (pin_action deps (ID t) <$> t_action t) (OnlyOnce t) (OnError t) (t_output t) (t_output_schema t) (Switch t).
Definition applyDepsToDefCopy d (deps : list DependencyRow) : ProcessDefinition :=
  mkDefinition (d_name d) (List.map (option_map (pin_task deps)) <$> Tasks d) (d_input_schema d) (ConfigSchema d) (d_defs d) (d_output d) (d_output_schema d).

Definition channelsFor name s : list string :=
  channel :: (if String.eqb channel defaultChannel then []
              else match GetChannel name defaultChannel s with Some _ => [] | None => [defaultChannel] end).

Record BatchApplyResult := mkResult { b_Name : string; b_Version : Z; b_Saved : bool; b_Previous : Z }.

Definition plan_one (sorted : list ProcessDefinition) (batchVersions : gmap string Z) d s
    : result apply_error (DefinitionWrite * BatchApplyResult) :=
  d ← of_option (NotNormal (d_name d)) (j_Normalize J d);
  let name := d_name d in
  let newVersion := default 0 (LatestVersion name s) + 1 in
  newDeps ← buildResolvedDeps d newVersion batchVersions s;
  let previous := default 0 (GetChannel name channel s) in
  let hash := contentHash (j_marshal J d) newDeps in
  match FindVersionByHash name hash s with
  | Some v => Ok (mkWrite None name v [] "" (channelsFor name s) actor, mkResult name v false previous)
  | None =>
      let copy := applyDepsToDefCopy d newDeps in
      if negb (j_Generate J copy) then Err (Untyped name)
      else if negb (j_ChildRefs J copy newVersion sorted batchVersions s) then Err (BadChildRefs name)
      else if negb (j_Config J d) then Err (ConfigUnset name)
      else Ok (mkWrite (Some d) name newVersion newDeps hash (channelsFor name s) actor, mkResult name newVersion true previous)
  end.

Fixpoint plan_loop (sorted : list ProcessDefinition) (batchVersions : gmap string Z) (l : list ProcessDefinition) s
    : result apply_error (list DefinitionWrite * list BatchApplyResult) :=
  match l with
  | [] => Ok ([], [])
  | d :: l =>
      '(w, r) ← plan_one sorted batchVersions d s;
      '(ws, rs) ← plan_loop sorted (<[w_Name w := w_Version w]> batchVersions) l s;
      Ok (w :: ws, r :: rs)
  end.

(** [None] where the order runs out of fuel. *)
Definition planBatch (defs : list ProcessDefinition) s : option (result apply_error (list DefinitionWrite * list BatchApplyResult)) :=
  match List.find (fun d => negb (j_Validate J d)) defs with
  | Some d => Some (Err (Invalid (d_name d)))
  | None =>
      match topoSort defs with
      | None => None
      | Some (Err name) => Some (Err (Cycle name))
      | Some (Ok sorted) => Some (plan_loop sorted ∅ sorted s)
      end
  end.

Definition applyBatch (now : Z) (defs : list ProcessDefinition) s
    : registry * option (result (apply_error + db_error) (list BatchApplyResult)) :=
  match planBatch defs s with
  | None => (s, None)
  | Some (Err e) => (s, Some (Err (inl e)))
  | Some (Ok (plan, results)) =>
      match ApplyDefinitions now plan s with
      | (s, None) => (s, Some (Ok results))
      | (s, Some e) => (s, Some (Err (inr e)))
      end
  end.

End Batch.

(** * Channels *)

Definition resolveDefaultVersion (process : string) s : option Z :=
  match GetChannel process defaultChannel s with Some v => Some v | None => LatestVersion process s end.

Inductive channel_error := BadRequest | NoDefinition | SaveFailed.
Definition putChannel name channel version (now : Z) (actor : string) s : registry * option channel_error :=
  if String.eqb name "" || String.eqb channel "" || (version <? 1) then (s, Some BadRequest)
  else match GetDefinition name version s with
       | (s, None) => (s, Some NoDefinition)
       | (s, Some _) => match SaveChannel name channel version now actor s with
                        | Ok s => (s, None)
                        | Err _ => (s, Some SaveFailed)
                        end
       end.
Definition deleteChannel name channel s : registry * option channel_error :=
  if String.eqb name "" || String.eqb channel "" then (s, Some BadRequest) else (DeleteChannel name channel s, None).

(** The definitions a channel points at, in no order. *)
Definition LoadDefinitionsOnChannel channel s : list (string * Z * ProcessDefinition) :=
  omap (fun '((n, c), v) => if String.eqb c channel
                            then (fun r => (n, ch_version v, dr_definition r)) <$> find_definition n (ch_version v) s else None)
    (map_to_list (channels s)).

(** [subtree]: the definitions reached from one by the children its tasks name. *)
Fixpoint collect (fuel : nat) (defs : gmap string ProcessDefinition) (visited : gset string) (todo : list string) : gset string :=
  match fuel, todo with
  | S fuel, name :: todo =>
      if bool_decide (name ∈ visited) then collect fuel defs visited todo
      else match defs !! name with
           | None => collect fuel defs visited todo
           | Some d => collect fuel defs ({[name]} ∪ visited) (child_names d ++ todo)
           end
  | _, _ => visited
  end.
Definition subtree (fuel : nat) (defs : list (string * Z * ProcessDefinition)) (root : string) : list (string * Z * ProcessDefinition) :=
  let visited := collect fuel (by_name (snd <$> defs)) ∅ [root] in
  List.filter (fun '(_, _, d) => bool_decide (d_name d ∈ visited)) defs.

(** [promoteChannel]: one write each, a failure leaving those before it. *)
Fixpoint promote (to_ : string) (now : Z) (actor : string) (defs : list (string * Z * ProcessDefinition)) s : registry * option channel_error :=
  match defs with
  | [] => (s, None)
  | (_, v, d) :: defs =>
      match SaveChannel (d_name d) to_ v now actor s with
      | Ok s => promote to_ now actor defs s
      | Err _ => (s, Some SaveFailed)
      end
  end.
Definition promoteChannel (fuel : nat) (from_ to_ : string) (process : option string) (now : Z) (actor : string) s
    : registry * option channel_error :=
  if String.eqb from_ "" || String.eqb to_ "" || String.eqb from_ to_ then (s, Some BadRequest)
  else let defs := LoadDefinitionsOnChannel from_ s in
       promote to_ now actor (match process with Some p => subtree fuel defs p | None => defs end) s.

End Registry.
End Registry.
