(* ===== verification/Upgrade.v ===== *)
(** Moving a tree of instances to other versions of its definitions:
    internal/db/db_upgrade_plan.go, which plans the versions; [Moving] has the write.

    The state a row moves with is internal/validation's to compute, so a move carries its
    columns encoded; the slot a child fills is read out of its encoded state by [child_key]. *)
From Stdlib Require Import ZArith Lia String.
From stdpp Require Import strings gmap sorting.
From S2P Require Import Prelude Schema Retry Definitions Validate Instance Store Lifecycle Tree Verbs Moving System Guarantees Registry.
Open Scope string_scope.
Open Scope list_scope.
Open Scope Z_scope.

Module Upgrade.
Import Instance Store Tree Moving.

Implicit Types r p c q : row.
Implicit Types m : table.
Implicit Types k root : string.

(** * Planning *)

Definition RevivableSubtree root m : list row :=
  merge_sort oldest_first (matching (fun r : row =>
    String.eqb (root_id r) root &&
    (has_id root r || negb (bool_decide (status r ∈ [StatusCompleted; StatusRaised; StatusCancelled])))) m).

Inductive plan_error :=
  | NoLiveTree (root : string)
  | NotLive (root : string)
  | NoDefinition (process : string) (version : Z)
  | NoVersion (process : string)
  | ErrUpgradeBlocked (child : string).

Section Plan.
Context `{Schema.Numbers} (child_key : stateCols -> string).

Definition spawn_task (d : Definitions.ProcessDefinition) (t : string) : option Definitions.Action :=
  task ← List.find (fun x => String.eqb (Definitions.ID x) t) (Definitions.tasks d);
  Definitions.t_action task.

Definition childTargetVersion (parent : row) (parentDef : Definitions.ProcessDefinition) (parentTarget : Z) (kid : row)
    (s : Registry.registry) : result plan_error Z :=
  a ← of_option (ErrUpgradeBlocked (id kid)) (spawn_task parentDef (spawn_task_id kid));
  let key := child_key (cols kid) in
  '(declared, name) ←
     (if String.eqb key "" then Ok (Definitions.a_version a, Definitions.a_name a)
      else match Definitions.Children a !! key with
           | Some e => Ok (Definitions.e_version e, Definitions.e_name e)
           | None => Err (ErrUpgradeBlocked (id kid))
           end);
  if negb (String.eqb name (process_name kid)) then Err (ErrUpgradeBlocked (id kid))
  else of_option (NoVersion name)
         (Registry.ResolveChildVersion (process_name parent) parentTarget (spawn_task_id kid) name declared key s).

Record PlannedMove := mkMove { pm_instance : row; pm_to : Z }.

(** The children of a parent that are planned once it is. *)
Definition byParent (root : string) (subtree : list row) k : list row :=
  List.filter (fun r => negb (has_id root r) && String.eqb (parent_id r) k) subtree.

Fixpoint plan_kids (parent : PlannedMove) (parentDef : Definitions.ProcessDefinition) (kids : list row) (s : Registry.registry)
    : result plan_error (list PlannedMove) :=
  match kids with
  | [] => Ok []
  | kid :: kids =>
      v ← childTargetVersion (pm_instance parent) parentDef (pm_to parent) kid s;
      rest ← plan_kids parent parentDef kids s;
      Ok (mkMove kid v :: rest)
  end.

(** Breadth first; a queued row carries its target.  [None] where the fuel runs out. *)
Fixpoint plan_loop (fuel : nat) (root : string) (subtree : list row) (queue out : list PlannedMove) (s : Registry.registry)
    : Registry.registry * option (result plan_error (list PlannedMove)) :=
  match fuel with
  | O => (s, None)
  | S fuel =>
      match queue with
      | [] => (s, Some (Ok out))
      | parent :: queue =>
          match byParent root subtree (id (pm_instance parent)) with
          | [] => plan_loop fuel root subtree queue out s
          | kids =>
              let name := process_name (pm_instance parent) in
              match Registry.GetDefinition name (pm_to parent) s with
              | (s, None) => (s, Some (Err (NoDefinition name (pm_to parent))))
              | (s, Some parentDef) =>
                  match plan_kids parent parentDef kids s with
                  | Err e => (s, Some (Err e))
                  | Ok moves => plan_loop fuel root subtree (queue ++ moves) (out ++ moves) s
                  end
              end
          end
      end
  end.

Definition PlanUpgrade (rootID : string) (rootVersion : Z) m (s : Registry.registry)
    : Registry.registry * option (result plan_error (list PlannedMove)) :=
  match RevivableSubtree rootID m with
  | [] => (s, Some (Err (NoLiveTree rootID)))
  | subtree =>
      match List.find (has_id rootID) subtree with
      | None => (s, Some (Err (NotLive rootID)))
      | Some r => plan_loop (S (length subtree)) rootID subtree [mkMove r rootVersion] [mkMove r rootVersion] s
      end
  end.

End Plan.

(** * What an upgrade writes *)

(** An upgrade is all or nothing, and never lands on a row that moved: it goes through
    exactly when every row still has the version, the task and no holder it was computed
    for and is paused or failed.  Then those rows have the new version and state and nothing
    else is changed; otherwise nothing is.  Either way the trees keep their invariant, no
    status moves, and no lease or claim is touched. *)
Theorem upgrade_exact (ups : list InstanceUpgrade) (now : Z) (s : DBState) : tree_ok (rows s) -> NoDup (up_id <$> ups) ->
  (forall up, up ∈ ups -> exists r, rows s !! up_id up = Some r /\ process_version r = process_version (up_Instance up) /\
      task r = task (up_Instance up) /\ status r ∈ [StatusPaused; StatusFailed] /\ worker_id r = None) /\
    (exists s', UpgradeInstances ups now s = Ok (tt, s') /\ tree_ok (rows s') /\ evolves false (rows s) (rows s') /\
       signals s' = signals s /\
       (forall up r, up ∈ ups -> rows s !! up_id up = Some r ->
          rows s' !! up_id up = Some (upgrade_set (ToVersion up) (NewCols up) now r)) /\
       (forall k, k ∉ up_id <$> ups -> rows s' !! k = rows s !! k)) \/
  (exists up, up ∈ ups /\ forall r, rows s !! up_id up = Some r -> unmoved (up_Instance up) r = false) /\
    UpgradeInstances ups now s = Err ErrUpgradeStale.
Proof.
  intros T Hn. destruct s as [m sg]. cbn [rows signals] in *. pose proof (tree_keyed _ _ T) as K.
  rewrite (upgrade_run _ _ _ _ K Hn). destruct (forallb (admitted m) ups) eqn:E.
  - left. rewrite forallb_forall in E. split.
    + intros up Hu%list_elem_of_In. specialize (E _ Hu). unfold admitted in E. destruct (m !! up_id up) as [r|]; [|done].
      apply unmoved_spec in E as (_ & ? & ? & ? & ?). by exists r.
    + eexists. split; [done|]. cbn [rows signals]. pose proof (moved_rel m ups now) as HR. split_and!.
      * by apply (restated_ok m).
      * apply (rows_rel_evolves _ _ _ _ HR). intros k r r' Hk [Hr Hs]. apply evolves1_restatus; [done|done|intros _; by rewrite Hs|]. intros _.
        rewrite Hs. apply since_refl.
      * done.
      * intros up r Hu Hr. rewrite map_lookup_imap, Hr. cbn. f_equal. unfold moved.
        by rewrite (find_up ups up Hn Hu).
      * intros k Hk. rewrite map_lookup_imap. destruct (m !! k) as [r|]; cbn; [|done]. f_equal. unfold moved.
        destruct (List.find _ ups) as [up|] eqn:Ef; [|done]. apply List.find_some in Ef as [Hin <-%String.eqb_eq].
        destruct Hk. by apply list_elem_of_fmap_2, list_elem_of_In.
  - right. split; [|done]. apply forallb_false in E as (up & Hu & Ha). exists up. split; [done|]. intros r Hr.
    unfold admitted in Ha. by rewrite Hr in Ha.
Qed.

(** * What a plan says *)

Section Planned.
Context `{Schema.Numbers} (child_key : stateCols -> string).

(** What a task's call names for the slot [key]: the process and the declared version. *)
Definition slot (a : Definitions.Action) (key : string) : option (string * Z) :=
  if String.eqb key "" then Some (Definitions.a_name a, Definitions.a_version a)
  else (fun e => (Definitions.e_name e, Definitions.e_version e)) <$> Definitions.Children a !! key.

(** The version of a child that the definition its parent moves to names. *)
Definition derived (s : Registry.registry) (parent : PlannedMove) (kid : row) (v : Z) : Prop :=
  let key := child_key (cols kid) in
  exists d a declared, (Registry.GetDefinition (process_name (pm_instance parent)) (pm_to parent) s).2 = Some d /\
    spawn_task d (spawn_task_id kid) = Some a /\ slot a key = Some (process_name kid, declared) /\
    Registry.ResolveChildVersion (process_name (pm_instance parent)) (pm_to parent) (spawn_task_id kid) (process_name kid)
      declared key s = Some v.

(** Two registries that answer alike: a read fills the cache and changes no answer. *)
Definition answers_alike (s s' : Registry.registry) : Prop :=
  Registry.definitions s' = Registry.definitions s /\ Registry.dependencies s' = Registry.dependencies s /\
  forall n v, (Registry.GetDefinition n v s').2 = (Registry.GetDefinition n v s).2.

Lemma read_alike n v s : answers_alike s (Registry.GetDefinition n v s).1.
Proof.
  unfold Registry.GetDefinition. destruct (Registry.defCache s !! (n, v)) as [d|] eqn:E; [done|].
  destruct (Registry.find_definition n v s) as [r|] eqn:F; [|done]. split_and!; [done|done|]. intros n' v'.
  unfold Registry.GetDefinition. cbn [fst Registry.defCache]. destruct (decide ((n, v) = (n', v'))) as [[= <- <-]|N].
  - by rewrite lookup_insert_eq, E, F.
  - rewrite lookup_insert_ne by done. destruct (Registry.defCache s !! (n', v')); [done|].
    change (Registry.find_definition n' v' (Registry.mkRegistry _ _ _ _)) with (Registry.find_definition n' v' s).
    by destruct (Registry.find_definition n' v' s).
Qed.

Lemma answers_alike_trans s1 s2 s3 : answers_alike s1 s2 -> answers_alike s2 s3 -> answers_alike s1 s3.
Proof. intros (D & P & A) (D' & P' & A'). split_and!; [congruence|congruence|]. intros n v. by rewrite A'. Qed.

Lemma resolve_alike s s' pn pv t cn d k : answers_alike s s' ->
  Registry.ResolveChildVersion pn pv t cn d k s' = Registry.ResolveChildVersion pn pv t cn d k s.
Proof.
  intros (D & P & _). unfold Registry.ResolveChildVersion, Registry.GetDependencyVersion, Registry.LatestVersion. by rewrite D, P.
Qed.

Lemma derived_alike s s' parent kid v : answers_alike s s' -> derived s' parent kid v <-> derived s parent kid v.
Proof.
  intros A. unfold derived. cbn zeta. destruct (A) as (_ & _ & Ad). setoid_rewrite Ad.
  split; intros (d & a & de & ? & ? & ? & E); exists d, a, de; (split_and!; [done..|]).
  - by rewrite <- (resolve_alike s s').
  - by rewrite (resolve_alike s s').
Qed.

Lemma target_derived s parent d kid v :
  (Registry.GetDefinition (process_name (pm_instance parent)) (pm_to parent) s).2 = Some d ->
  childTargetVersion child_key (pm_instance parent) d (pm_to parent) kid s = Ok v <-> derived s parent kid v.
Proof.
  intros Hd. unfold childTargetVersion, derived. cbn zeta. rewrite Hd. split.
  - intros (a & Ha & Hv)%bind_Ok. destruct (spawn_task d (spawn_task_id kid)) as [a'|] eqn:Es; [|done].
    injection Ha as ->. apply bind_Ok in Hv as ([declared name] & Hs & Hv). exists d, a, declared.
    destruct (String.eqb_spec name (process_name kid)) as [->|N]; [|done]. cbn in Hv. split; [done|]. split; [done|]. split.
    + unfold slot. destruct (String.eqb (child_key (cols kid)) ""); [congruence|].
      destruct (Definitions.Children a !! _); [cbn; congruence|done].
    + destruct (Registry.ResolveChildVersion _ _ _ _ _ _ _); [cbn in Hv; congruence|done].
  - intros (d' & a & declared & [= <-] & -> & Hs & Hv). cbn [of_option mbind result_bind]. unfold slot in Hs.
    destruct (String.eqb (child_key (cols kid)) "").
    + injection Hs as -> ->. cbn. by rewrite String.eqb_refl, Hv.
    + destruct (Definitions.Children a !! _); [|done]. injection Hs as -> ->. cbn. by rewrite String.eqb_refl, Hv.
Qed.

Lemma kids_planned s parent d kids :
  (Registry.GetDefinition (process_name (pm_instance parent)) (pm_to parent) s).2 = Some d ->
  match plan_kids child_key parent d kids s with
  | Ok moves => pm_instance <$> moves = kids /\ Forall (fun mv => derived s parent (pm_instance mv) (pm_to mv)) moves
  | Err _ => exists kid, kid ∈ kids /\ forall v, ~ derived s parent kid v
  end.
Proof.
  intros Hd. induction kids as [|kid kids IH]; cbn [plan_kids]; [done|].
  destruct (childTargetVersion child_key (pm_instance parent) d (pm_to parent) kid s) as [v|e] eqn:E; cbn.
  - apply (target_derived _ _ _ _ _ Hd) in E. destruct (plan_kids child_key parent d kids s) as [moves|e].
    + destruct IH as [Hk Hf]. cbn. rewrite Hk. by split; [|constructor].
    + destruct IH as (x & Hx & N). exists x. split; [by right|done].
  - exists kid. split; [by left|]. intros v Hv. apply (target_derived _ _ _ _ _ Hd) in Hv. by rewrite E in Hv.
Qed.

Definition pm_id (mv : PlannedMove) : string := id (pm_instance mv).

(** The moves a root's version asks for: the root's, and below a move each revivable child's
    to the version derived for it. *)
Inductive reached (s : Registry.registry) (top : row) (v0 : Z) (subtree : list row) : PlannedMove -> Prop :=
  | reached_root : reached s top v0 subtree (mkMove top v0)
  | reached_kid parent kid v : reached s top v0 subtree parent -> kid ∈ byParent (id top) subtree (id (pm_instance parent)) ->
      derived s parent kid v -> reached s top v0 subtree (mkMove kid v).

(** A move reached whose child can not be told a version. *)
Definition stuck (s : Registry.registry) (top : row) (v0 : Z) (subtree : list row) : Prop :=
  exists (parent : PlannedMove) (kid : row), reached s top v0 subtree parent /\
    kid ∈ byParent (id top) subtree (id (pm_instance parent)) /\ forall v, ~ derived s parent kid v.

Lemma derived_once s parent kid v v' : derived s parent kid v -> derived s parent kid v' -> v = v'.
Proof. intros (d & a & x & Hd & Ha & Hs & Hv) (d' & a' & x' & Hd' & Ha' & Hs' & Hv'). congruence. Qed.

(** [done] has been walked, [done ++ queue] is planned. *)
Record planning (s : Registry.registry) (top : row) (v0 : Z) (subtree : list row) (done queue : list PlannedMove) : Prop := mkPlanning {
  pl_root : head (done ++ queue) = Some (mkMove top v0);
  pl_nodup : NoDup (pm_id <$> done ++ queue);
  pl_in : forall mv, mv ∈ done ++ queue -> pm_instance mv ∈ subtree;
  pl_reached : forall mv, mv ∈ done ++ queue -> reached s top v0 subtree mv;
  pl_from : forall mv, mv ∈ done ++ queue -> mv = mkMove top v0 \/ id (pm_instance mv) <> id top /\
    exists parent, parent ∈ done /\ parent_id (pm_instance mv) = id (pm_instance parent) /\ derived s parent (pm_instance mv) (pm_to mv);
  pl_all : forall parent r, parent ∈ done -> r ∈ byParent (id top) subtree (id (pm_instance parent)) ->
    exists mv, mv ∈ done ++ queue /\ pm_instance mv = r }.

Definition planned (s : Registry.registry) (top : row) (v0 : Z) (subtree : list row) (res : result plan_error (list PlannedMove)) : Prop :=
  match res with
  | Ok plan => planning s top v0 subtree plan []
  | Err _ => stuck s top v0 subtree
  end.

Lemma elem_of_byParent rootID subtree k r : r ∈ byParent rootID subtree k <-> r ∈ subtree /\ id r <> rootID /\ parent_id r = k.
Proof.
  unfold byParent, has_id. rewrite list_elem_of_In, List.filter_In, <- list_elem_of_In, andb_true_iff, negb_true_iff,
    String.eqb_eq, String.eqb_neq. naive_solver.
Qed.

Lemma same_id (subtree : list row) : NoDup ((fun r : row => id r) <$> subtree) ->
  forall r q, r ∈ subtree -> q ∈ subtree -> id r = id q -> r = q.
Proof.
  induction subtree as [|x l IH]; intros Hn r q Hr Hq E; [by apply elem_of_nil in Hr|].
  apply NoDup_cons in Hn as [Hx Hn].
  apply elem_of_cons in Hr as [->|Hr]; apply elem_of_cons in Hq as [->|Hq]; [done|..].
  - destruct Hx. rewrite E. by apply (list_elem_of_fmap_2 (fun r : row => id r)).
  - destruct Hx. rewrite <- E. by apply (list_elem_of_fmap_2 (fun r : row => id r)).
  - by apply IH.
Qed.

Lemma sublist_List_filter {A} (f : A -> bool) l : sublist (List.filter f l) l.
Proof. induction l as [|x l IH]; cbn; [constructor|]. destruct (f x); by constructor. Qed.

(** One pop: the parent's children join the queue. *)
Lemma plan_step s top v0 subtree done parent queue moves : NoDup ((fun r : row => id r) <$> subtree) ->
  planning s top v0 subtree done (parent :: queue) ->
  pm_instance <$> moves = byParent (id top) subtree (id (pm_instance parent)) ->
  Forall (fun mv => derived s parent (pm_instance mv) (pm_to mv)) moves ->
  planning s top v0 subtree (done ++ [parent]) (queue ++ moves).
Proof.
  intros Hn P Hm Hd. assert (Ea : (done ++ [parent]) ++ queue ++ moves = (done ++ parent :: queue) ++ moves).
  { by rewrite <- !app_assoc. }
  assert (Hk : forall mv, mv ∈ moves -> pm_instance mv ∈ subtree /\ id (pm_instance mv) <> id top /\
                 parent_id (pm_instance mv) = id (pm_instance parent)).
  { intros mv Hmv. apply elem_of_byParent. rewrite <- Hm. by apply list_elem_of_fmap_2. }
  split.
  - rewrite Ea. pose proof (pl_root _ _ _ _ _ _ P) as Hr. by destruct (done ++ parent :: queue).
  - rewrite Ea, fmap_app. apply NoDup_app. split_and!; [apply P| |].
    + intros x (mv & -> & Hmv)%list_elem_of_fmap (kid & Ek & Hkid)%list_elem_of_fmap.
      destruct (Hk _ Hkid) as (Hs & Nr & Ep). destruct (pl_from _ _ _ _ _ _ P _ Hmv) as [->|(_ & p & Hp & Epp & _)]; [done|].
      assert (E : pm_instance mv = pm_instance kid) by (apply (same_id _ Hn); [by apply (pl_in _ _ _ _ _ _ P)|done|done]).
      rewrite E, Ep in Epp. pose proof (pl_nodup _ _ _ _ _ _ P) as Hnd. rewrite fmap_app in Hnd.
      apply NoDup_app in Hnd as (_ & Hdis & _). apply (Hdis (pm_id p)); [by apply (list_elem_of_fmap_2 pm_id)|].
      unfold pm_id. rewrite <- Epp. by left.
    + assert (E : pm_id <$> moves = (fun r : row => id r) <$> byParent (id top) subtree (id (pm_instance parent))).
      { by rewrite <- Hm, <- list_fmap_compose. }
      rewrite E. eapply sublist_NoDup; [exact Hn|].
      apply fmap_sublist. apply sublist_List_filter.
  - intros mv. rewrite Ea. intros [Hmv|Hmv]%elem_of_app; [by apply (pl_in _ _ _ _ _ _ P)|by apply Hk].
  - intros mv. rewrite Ea. intros [Hmv|Hmv]%elem_of_app; [by apply (pl_reached _ _ _ _ _ _ P)|].
    rewrite Forall_forall in Hd. specialize (Hd _ Hmv). destruct mv as [kid v]. apply (reached_kid _ _ _ _ parent); [|by apply elem_of_byParent, (Hk _ Hmv)|done].
    apply (pl_reached _ _ _ _ _ _ P), elem_of_app. right. by left.
  - intros mv. rewrite Ea. intros [Hmv|Hmv]%elem_of_app.
    + destruct (pl_from _ _ _ _ _ _ P _ Hmv) as [->|(N & p & Hp & H')]; [by left|right]. split; [done|]. exists p.
      split; [apply elem_of_app; by left|done].
    + right. destruct (Hk _ Hmv) as (_ & N & Ep). split; [done|]. exists parent. split; [apply elem_of_app; right; by left|].
      split; [done|]. rewrite Forall_forall in Hd. by apply Hd.
  - intros p r [Hp|Hp]%elem_of_app Hr; rewrite Ea.
    + destruct (pl_all _ _ _ _ _ _ P _ _ Hp Hr) as (mv & Hmv & E). exists mv. split; [apply elem_of_app; by left|done].
    + apply list_elem_of_singleton in Hp as ->. rewrite <- Hm in Hr. apply list_elem_of_fmap in Hr as (mv & -> & Hmv).
      exists mv. split; [apply elem_of_app; by right|done].
Qed.

Lemma planning_bound s top v0 subtree done queue : planning s top v0 subtree done queue ->
  (length done + length queue <= length subtree)%nat.
Proof.
  intros P. rewrite <- length_app, <- (length_fmap pm_id (done ++ queue)), <- (length_fmap (fun r : row => id r) subtree).
  apply submseteq_length, NoDup_submseteq; [apply P|]. intros k (mv & -> & Hmv)%list_elem_of_fmap.
  apply (list_elem_of_fmap_2 (fun r : row => id r)). by apply (pl_in _ _ _ _ _ _ P).
Qed.

Lemma plan_loop_ok fuel : forall s0 s top v0 subtree done queue, NoDup ((fun r : row => id r) <$> subtree) ->
  planning s0 top v0 subtree done queue -> answers_alike s0 s -> (length subtree < fuel + length done)%nat ->
  exists s' res, plan_loop child_key fuel (id top) subtree queue (done ++ queue) s = (s', Some res) /\
    answers_alike s0 s' /\ planned s0 top v0 subtree res.
Proof.
  induction fuel as [|fuel IH]; intros s0 s top v0 subtree done queue Hn P A Hf; pose proof (planning_bound _ _ _ _ _ _ P) as Hb; [lia|].
  cbn [plan_loop]. destruct queue as [|parent queue]; [exists s, (Ok (done ++ [])); by rewrite app_nil_r|].
  assert (Step : forall moves s1, pm_instance <$> moves = byParent (id top) subtree (id (pm_instance parent)) ->
            Forall (fun mv => derived s0 parent (pm_instance mv) (pm_to mv)) moves -> answers_alike s0 s1 ->
            exists s' res, plan_loop child_key fuel (id top) subtree (queue ++ moves) ((done ++ parent :: queue) ++ moves) s1 = (s', Some res) /\
              answers_alike s0 s' /\ planned s0 top v0 subtree res).
  { intros moves s1 Hm Hd A1. pose proof (plan_step _ _ _ _ _ _ _ _ Hn P Hm Hd) as P'.
    destruct (IH s0 s1 top v0 subtree _ _ Hn P' A1) as (s' & res & E & H'); [rewrite length_app; cbn; lia|].
    exists s', res. split; [|exact H']. rewrite <- E. f_equal. by rewrite <- !app_assoc. }
  destruct (byParent (id top) subtree (id (pm_instance parent))) as [|kid kids] eqn:Ek.
  { destruct (Step [] s) as (s' & res & E & H'); [done|constructor|done|]. rewrite !app_nil_r in E. by exists s', res. }
  assert (Hp : reached s0 top v0 subtree parent) by (apply (pl_reached _ _ _ _ _ _ P), elem_of_app; right; by left).
  destruct (Registry.GetDefinition (process_name (pm_instance parent)) (pm_to parent) s) as [s1 [d|]] eqn:Eg.
  2: { exists s1. eexists. split; [done|]. split.
       - apply (answers_alike_trans _ s); [done|]. pose proof (read_alike (process_name (pm_instance parent)) (pm_to parent) s) as R. by rewrite Eg in R.
       - exists parent, kid. split_and!; [done|rewrite Ek; by left|]. intros v (d & a & de & Hd & _). destruct A as (_ & _ & A).
         rewrite <- A, Eg in Hd. done. }
  assert (A1 : answers_alike s0 s1).
  { apply (answers_alike_trans _ s); [done|]. pose proof (read_alike (process_name (pm_instance parent)) (pm_to parent) s) as R. by rewrite Eg in R. }
  assert (Hd : (Registry.GetDefinition (process_name (pm_instance parent)) (pm_to parent) s1).2 = Some d).
  { destruct A as (_ & _ & A), A1 as (_ & _ & B). rewrite B, <- A. by rewrite Eg. }
  pose proof (kids_planned s1 parent d (kid :: kids) Hd) as K. destruct (plan_kids child_key parent d (kid :: kids) s1) as [moves|e].
  - destruct K as [Hm Hall]. apply Step; [done| |done]. eapply Forall_impl; [exact Hall|]. intros mv Hmv. by apply (derived_alike s0 s1).
  - exists s1, (Err e). split; [done|]. split; [done|]. destruct K as (x & Hx & N).
    exists parent, x. split_and!; [done|by rewrite Ek|]. intros v Hv.
    apply (N v). by apply (derived_alike s0 s1).
Qed.

Lemma elem_of_revivable rootID m r : keyed m -> r ∈ RevivableSubtree rootID m <->
  m !! id r = Some r /\ root_id r = rootID /\ (id r = rootID \/ status r ∉ [StatusCompleted; StatusRaised; StatusCancelled]).
Proof.
  intros K. unfold RevivableSubtree, has_id. rewrite merge_sort_Permutation, elem_of_matching.
  rewrite andb_true_iff, orb_true_iff, negb_true_iff, !String.eqb_eq, bool_decide_eq_false. split.
  - intros [Hr [k E]]. split; [by rewrite (K _ _ E)|done].
  - intros [E Hr]. split; [done|by exists (id r)].
Qed.

(** A finished plan holds exactly the moves the root's version asks for. *)
Lemma planning_exact s top v0 subtree plan : planning s top v0 subtree plan [] -> forall mv, mv ∈ plan <-> reached s top v0 subtree mv.
Proof.
  intros P mv. rewrite <- (app_nil_r plan) at 1. split; [apply (pl_reached _ _ _ _ _ _ P)|]. rewrite app_nil_r.
  pose proof (pl_root _ _ _ _ _ _ P) as Hh. pose proof (pl_nodup _ _ _ _ _ _ P) as Hn. pose proof (pl_from _ _ _ _ _ _ P) as Hf.
  rewrite !app_nil_r in *. induction 1 as [|parent kid v Hr IH Hkid Hd].
  { destruct plan as [|x plan]; [done|]. injection Hh as ->. by left. }
  destruct (pl_all _ _ _ _ _ _ P parent kid IH Hkid) as (x & Hx & E). rewrite app_nil_r in Hx.
  apply elem_of_byParent in Hkid as (_ & N & Ep).
  destruct (Hf x) as [->|(_ & q & Hq & Eq & Dq)]; [by rewrite ?app_nil_r|by rewrite <- E in N|].
  assert (q = parent) as ->.
  { apply list_elem_of_lookup in Hq as [n1 H1], IH as [n2 H2]. assert (n1 = n2) as ->; [|congruence].
    eapply NoDup_lookup; [exact Hn|by rewrite list_lookup_fmap, H1|rewrite list_lookup_fmap, H2]. cbn. unfold pm_id. by rewrite <- Eq, E, Ep. }
  rewrite E in Dq. rewrite (derived_once _ _ _ _ _ Hd Dq), <- E. by destruct x.
Qed.

Lemma planning_told s top v0 subtree plan : planning s top v0 subtree plan [] -> ~ stuck s top v0 subtree.
Proof.
  intros P (parent & kid & Hp & Hk & N). apply (planning_exact _ _ _ _ _ P) in Hp.
  destruct (pl_all _ _ _ _ _ _ P parent kid Hp Hk) as (x & Hx & E). apply (pl_reached _ _ _ _ _ _ P) in Hx as Hr.
  apply elem_of_byParent in Hk as (_ & N' & Ep).
  destruct (pl_from _ _ _ _ _ _ P x Hx) as [->|(_ & q & Hq & Eq & Dq)]; [by rewrite <- E in N'|].
  assert (q = parent) as ->; [|rewrite E in Dq; by apply (N (pm_to x))].
  pose proof (pl_nodup _ _ _ _ _ _ P) as Hn. rewrite app_nil_r in Hn.
  apply list_elem_of_lookup in Hq as [n1 H1], Hp as [n2 H2]. assert (n1 = n2) as ->; [|congruence].
  eapply NoDup_lookup; [exact Hn|by rewrite list_lookup_fmap, H1|rewrite list_lookup_fmap, H2]. cbn. unfold pm_id. by rewrite <- Eq, E, Ep.
Qed.

(** C33. What a plan moves, over any registry: it always ends with an answer.  It starts with the
    root at the version asked for and holds, once each, exactly the moves that version asks
    for: the root's, and below a move that of each revivable row of the tree, to the version
    the definition its parent moves to names for it in its slot.  It is refused exactly where
    the tree has no root, or a row below one of these moves can be told no version. *)
Theorem plan_exact (rootID : string) (rootVersion : Z) (m : table) (s : Registry.registry) : tree_ok m ->
  exists s' res, PlanUpgrade child_key rootID rootVersion m s = (s', Some res) /\
    let subtree := RevivableSubtree rootID m in
    match res with
    | Ok plan => exists top : row, m !! rootID = Some top /\ root_id top = rootID /\ head plan = Some (mkMove top rootVersion) /\
        NoDup (pm_id <$> plan) /\ (forall mv, mv ∈ plan <-> reached s top rootVersion subtree mv) /\
        ~ stuck s top rootVersion subtree
    | Err _ => (forall top : row, m !! rootID = Some top -> root_id top <> rootID) \/
        exists top : row, m !! rootID = Some top /\ stuck s top rootVersion subtree
    end.
Proof.
  intros T. pose proof (tree_keyed _ _ T) as K. unfold PlanUpgrade.
  assert (Hn : NoDup ((fun r : row => id r) <$> RevivableSubtree rootID m)).
  { unfold RevivableSubtree. rewrite merge_sort_Permutation. by apply matching_ids. }
  assert (None_top : (forall r : row, r ∈ RevivableSubtree rootID m -> id r <> rootID) ->
            forall top : row, m !! rootID = Some top -> root_id top <> rootID).
  { intros N top Ht E. apply (N top); [|by apply K]. apply (elem_of_revivable _ _ _ K). rewrite (K _ _ Ht). by split_and!; [| |left]. }
  destruct (List.find (has_id rootID) (RevivableSubtree rootID m)) as [top|] eqn:Ef.
  - pose proof Ef as Ef'. apply List.find_some in Ef as [Hin%list_elem_of_In Ei%String.eqb_eq].
    assert (P : planning s top rootVersion (RevivableSubtree rootID m) [] [mkMove top rootVersion]).
    { split; cbn [app head]; [done|apply NoDup_singleton|..].
      - by intros mv ->%list_elem_of_singleton.
      - intros mv ->%list_elem_of_singleton. constructor.
      - intros mv ->%list_elem_of_singleton. by left.
      - by intros p r ?%elem_of_nil. }
    destruct (plan_loop_ok (S (length (RevivableSubtree rootID m))) s s top rootVersion _ _ _ Hn P) as (s' & res & E & _ & R); [done|cbn; lia|].
    rewrite Ei in E. exists s', res. split.
    + destruct (RevivableSubtree rootID m); [by apply elem_of_nil in Hin|]. by rewrite Ef'.
    + apply (elem_of_revivable _ _ _ K) in Hin as (Ht & Er & _). rewrite Ei in Ht.
      destruct res as [plan|e]; [|right; by exists top]. exists top. pose proof (pl_root _ _ _ _ _ _ R) as Hh.
      pose proof (pl_nodup _ _ _ _ _ _ R) as Hnd. rewrite app_nil_r in Hh, Hnd. split_and!; [done..| |by eapply planning_told].
      by apply planning_exact.
  - assert (Nt : forall r : row, r ∈ RevivableSubtree rootID m -> id r <> rootID).
    { intros r Hr E. apply list_elem_of_In in Hr. pose proof (List.find_none _ _ Ef _ Hr) as X. unfold has_id in X.
      by rewrite E, String.eqb_refl in X. }
    destruct (RevivableSubtree rootID m).
    + eexists s, (Err _). split; [done|]. left. by apply None_top.
    + rewrite Ef. eexists s, (Err _). split; [done|]. left. by apply None_top.
Qed.

(** The write of a planned move, with its state conformed to the target. *)
Definition as_upgrade (new : row -> stateCols) (mv : PlannedMove) : InstanceUpgrade :=
  mkUpgrade (pm_instance mv) (pm_to mv) (new (pm_instance mv)).

(** A planned tree that was written agrees with itself: every moved child stands at the version
    the definition its parent now stands at names for it, whatever ran between the plan's
    reads and the write. *)
Theorem upgrade_agrees (reg : Registry.registry) (top : row) (v : Z) (subtree : list row) (plan : list PlannedMove)
    (new : row -> stateCols) (now : Z) (s s' : DBState) :
  keyed (rows s) -> planning reg top v subtree plan [] ->
  UpgradeInstances (as_upgrade new <$> plan) now s = Ok (tt, s') ->
  (exists r, rows s' !! id top = Some r /\ process_version r = v) /\
  forall mv, mv ∈ plan -> pm_id mv <> id top ->
    exists (parent : PlannedMove) (r p : row), parent ∈ plan /\ parent_id (pm_instance mv) = pm_id parent /\
      rows s' !! pm_id mv = Some r /\ rows s' !! pm_id parent = Some p /\
      process_version p = pm_to parent /\ derived reg parent (pm_instance mv) (process_version r).
Proof.
  intros K P E. set (ups := _ <$> plan) in E. destruct s as [m sg]. cbn [rows] in K.
  assert (Hid : up_id <$> ups = pm_id <$> plan) by (unfold ups; by rewrite <- list_fmap_compose).
  assert (Hn : NoDup (up_id <$> ups)).
  { rewrite Hid. pose proof (pl_nodup _ _ _ _ _ _ P) as Hn. by rewrite app_nil_r in Hn. }
  rewrite (upgrade_run _ _ _ _ K Hn) in E. destruct (forallb (admitted m) ups) eqn:Ea; [|done]. injection E as <-. cbn [rows].
  assert (At : forall mv, mv ∈ plan -> exists r, map_imap (fun k r => Some (moved ups now k r)) m !! pm_id mv = Some r /\
                 process_version r = pm_to mv).
  { intros mv Hmv. set (up := as_upgrade new mv).
    assert (Hu : up ∈ ups) by (by apply (list_elem_of_fmap_2 (as_upgrade new))).
    rewrite forallb_forall in Ea. pose proof (Ea _ (proj1 (list_elem_of_In _ _) Hu)) as Ha. unfold admitted in Ha.
    change (up_id up) with (pm_id mv) in Ha. destruct (m !! pm_id mv) as [r|] eqn:Hr; [|done].
    eexists. rewrite map_lookup_imap, Hr. cbn. split; [done|]. unfold moved.
    change (pm_id mv) with (up_id up). by rewrite (find_up ups up Hn Hu). }
  pose proof (pl_root _ _ _ _ _ _ P) as Hh. rewrite app_nil_r in Hh. split.
  - assert (Hr : mkMove top v ∈ plan) by (destruct plan; [done|]; injection Hh as ->; by left).
    exact (At _ Hr).
  - intros mv Hmv N. destruct (pl_from _ _ _ _ _ _ P mv) as [->|(_ & parent & Hp & Ep & Hd)]; [by rewrite app_nil_r|done|].
    destruct (At _ Hmv) as (r & Hr & Er), (At _ Hp) as (p & Hpr & Epp). exists parent, r, p. by rewrite Er.
Qed.

End Planned.

(** * A concrete run *)

Module Demo.
Import Lifecycle Verbs System Guarantees.
#[local] Existing Instance Validate.Demo.whole.

Definition s_paused : DBState := after (PauseProcess "order-1" 50) s_spawned.
Lemma run_paused : exists x, PauseProcess "order-1" 50 s_spawned = Ok (x, s_paused).
Proof. eexists. vm_compute. reflexivity. Qed.
Lemma paused_ok : tree_ok (rows s_paused).
Proof.
  destruct run_paused as [x P]. refine (so_tree _ (reachable_sys_ok no_defs no_mark (mkSys s_paused [g_order]) _)).
  refine (reachable_steps _ _ _ _ (reachable_steps _ _ _ _ demo_started demo_spawned)
    (step_steps _ _ LOther _ _ I (step_other _ _ _ s_paused _ _))).
  exact (o_pause _ _ _ _ _ P).
Qed.

(** Both versions run themselves in the task "ship". *)
Definition ship : Definitions.Task :=
  Definitions.mkTask "ship" (Some (Definitions.mkAction Definitions.ActionTypeChild "" "" None None None ∅ None ∅ "order" 0 None None None None None
    ∅ "" Retry.no_timeout Retry.no_timeout)) None [] None None [].
Definition process : Definitions.ProcessDefinition :=
  Definitions.mkDefinition "order" (Some [Some ship]) None None (Definitions.mkDefs ∅ []) None None.
Definition reg : Registry.registry :=
  Registry.mkRegistry [Registry.mkDefRow "order" 1 process "a" 1 ""; Registry.mkDefRow "order" 2 process "b" 2 ""] [] ∅ ∅.

Definition plan : list PlannedMove :=
  match (PlanUpgrade (fun _ => "") "order-1" 2 (rows s_paused) reg).2 with Some (Ok l) => l | _ => [] end.
Example planned_moves : (fun mv => (id (pm_instance mv), pm_to mv)) <$> plan = [("order-1", 2); ("parcel-1", 2)].
Proof. vm_compute. reflexivity. Qed.

(** A slot the target does not name blocks the move. *)
Example blocked : (PlanUpgrade (fun _ => "left") "order-1" 2 (rows s_paused) reg).2 = Some (Err (ErrUpgradeBlocked "parcel-1")).
Proof. vm_compute. reflexivity. Qed.

Definition ups : list InstanceUpgrade := as_upgrade (fun _ => no_cols) <$> plan.
Lemma ups_once : NoDup (up_id <$> ups).
Proof. apply (bool_decide_unpack _). vm_compute. exact I. Qed.
End Demo.

Lemma plan_exact_witness : exists s', PlanUpgrade (H := Validate.Demo.whole) (fun _ => "") "order-1" 2 (rows Demo.s_paused) Demo.reg =
  (s', Some (Ok Demo.plan)).
Proof.
  destruct (plan_exact (H := Validate.Demo.whole) (fun _ => "") "order-1" 2 (rows Demo.s_paused) Demo.reg Demo.paused_ok) as (s' & res & E & _).
  exists s'. exact (eq_trans E (f_equal2 pair eq_refl (eq_trans (eq_sym (f_equal snd E)) eq_refl))).
Defined.

Lemma upgrade_exact_witness : exists s', UpgradeInstances Demo.ups 60 Demo.s_paused = Ok (tt, s') /\ tree_ok (rows s').
Proof.
  destruct (upgrade_exact Demo.ups 60 Demo.s_paused Demo.paused_ok Demo.ups_once) as [[_ (s' & E & T & _)]|[_ E]].
  - exists s'. split; [exact E|exact T].
  - exfalso. vm_compute in E. discriminate E.
Defined.

End Upgrade.
