(* ===== verification/Applying.v ===== *)
(** What an apply does to the registry: the order of a batch, that what is stored stays, and
    that applying the same batch again changes nothing. *)
From Stdlib Require Import ZArith Lia Ascii String.
From stdpp Require Import strings gmap sorting.
From S2P Require Import Prelude GoStrings Json Schema CheckDoc Retry Definitions Config Validate Registry.
Open Scope string_scope.
Open Scope list_scope.
Open Scope Z_scope.

Module Applying.
Import Definitions Registry.

Section Applying.
Context `{Schema.Numbers}.

Implicit Types (s : registry) (d : ProcessDefinition) (name channel : string) (w : DefinitionWrite).

(** * The order of a batch *)

Section Order.
Context (byName : gmap string ProcessDefinition) (named : forall n d, byName !! n = Some d -> d_name d = n).

(** One definition of the batch runs another. *)
Definition runs (a b : string) : Prop :=
  exists d, byName !! a = Some d /\ b ∈ child_names d /\ b <> a /\ is_Some (byName !! b).

Definition leaves_first (l : list ProcessDefinition) : Prop :=
  forall l1 d l2, l = l1 ++ d :: l2 -> forall c, runs (d_name d) c -> c ∈ d_name <$> l1.

Record dfs_ok (q : dfs) : Prop := mkOk {
  q_finished : forall n, marks q !! n = Some finished <-> n ∈ d_name <$> out q;
  q_nodup : NoDup (d_name <$> out q);
  q_batch : forall d, d ∈ out q -> byName !! d_name d = Some d;
  q_marked : forall n, is_Some (marks q !! n) -> is_Some (byName !! n);
  q_order : leaves_first (out q) }.

(** The search goes on: what was finished stays, what is being visited is the same. *)
Record goes_on (q q' : dfs) : Prop := mkOn {
  on_ok : dfs_ok q';
  on_visiting : forall n, marks q !! n = Some visiting <-> marks q' !! n = Some visiting;
  on_finished : forall n, marks q !! n = Some finished -> marks q' !! n = Some finished }.

Lemma goes_on_trans q1 q2 q3 : goes_on q1 q2 -> goes_on q2 q3 -> goes_on q1 q3.
Proof using.
  intros [H1 H2 H3] [H4 H5 H6]. constructor; [done| |auto]. intros n. by rewrite H2.
Qed.

Lemma begin_ok q n : dfs_ok q -> marks q !! n = None -> is_Some (byName !! n) ->
  dfs_ok (mkDfs (<[n := visiting]> (marks q)) (out q)).
Proof using.
  intros [H1 H2 H3 H4 H5] Hn Hb. constructor; cbn; try done.
  - intros m. destruct (decide (m = n)) as [->|].
    + rewrite lookup_insert_eq, <- H1, Hn. done.
    + by rewrite lookup_insert_ne.
  - intros m. destruct (decide (m = n)) as [->|]; [done|]. rewrite lookup_insert_ne by done. apply H4.
Qed.

Lemma finish_ok q n d : dfs_ok q -> byName !! n = Some d -> marks q !! n = Some visiting ->
  (forall c, runs n c -> marks q !! c = Some finished) ->
  dfs_ok (mkDfs (<[n := finished]> (marks q)) (out q ++ [d])).
Proof using named.
  intros [H1 H2 H3 H4 H5] Hd Hv Hc. pose proof (named n d Hd) as En. constructor; cbn.
  - intros m. rewrite fmap_app. cbn. rewrite elem_of_app, list_elem_of_singleton, En. destruct (decide (m = n)) as [->|].
    + rewrite lookup_insert_eq. tauto.
    + rewrite lookup_insert_ne, H1 by done. intuition congruence.
  - rewrite fmap_app. apply NoDup_app. split_and!; [done| |apply NoDup_singleton].
    intros m Hm ->%list_elem_of_singleton. apply H1 in Hm. rewrite En in Hm. congruence.
  - intros x [Hx|<-%list_elem_of_singleton]%elem_of_app; [by apply H3|]. by rewrite En.
  - intros m. destruct (decide (m = n)) as [->|]; [by eexists|]. rewrite lookup_insert_ne by done. apply H4.
  - intros l1 x l2 E c Hrc. destruct l2 as [|y l2 _] using rev_ind.
    + apply app_inj_tail in E as [<- <-]. apply H1, Hc. by rewrite <- En.
    + rewrite app_comm_cons, app_assoc in E. apply app_inj_tail in E as [E _]. by eapply H5.
Qed.

(** What is not marked yet. *)
Definition unmarked (q : dfs) : nat := size (dom byName ∖ dom (marks q)).

Lemma unmarked_begin q n : marks q !! n = None -> is_Some (byName !! n) ->
  (unmarked (mkDfs (<[n := visiting]> (marks q)) (out q)) < unmarked q)%nat.
Proof using.
  clear named. intros Hn Hb. unfold unmarked. cbn. apply subset_size. rewrite dom_insert. split; [set_solver|].
  intros Hs. apply elem_of_dom in Hb. apply not_elem_of_dom in Hn. set_solver.
Qed.

Lemma unmarked_on q q' : goes_on q q' -> (unmarked q' <= unmarked q)%nat.
Proof using.
  intros [_ Hv Hf]. unfold unmarked. apply subseteq_size. intros n. rewrite !elem_of_difference, !elem_of_dom.
  intros [Hb Hn]. split; [done|]. intros [[] Hm]; apply Hn; eexists; [by apply Hv|by apply Hf].
Qed.

(** A visit ends, finishes what it was asked for, or names a definition that runs itself
    through others. *)
Definition visit_spec (r : option (result string dfs)) (q : dfs) (P : dfs -> Prop) : Prop :=
  match r with
  | None => False
  | Some (Ok q') => goes_on q q' /\ P q'
  | Some (Err n) => tc runs n n
  end.

Lemma visit_ok fuel n q : dfs_ok q -> is_Some (byName !! n) -> (unmarked q < fuel)%nat ->
  (forall m, marks q !! m = Some visiting -> tc runs m n) ->
  visit_spec (visit fuel byName n q) q (fun q' => marks q' !! n = Some finished).
Proof using named.
  revert n q. induction fuel as [|fuel IH]; intros n q Hq Hb Hf Hv; [lia|]. cbn [visit].
  destruct (marks q !! n) as [[]|] eqn:En; [by apply Hv|by split; [constructor; auto|]|].
  destruct Hb as [d Hd]. rewrite Hd. set (q1 := mkDfs (<[n := visiting]> (marks q)) (out q)).
  assert (Hq1 : dfs_ok q1) by (apply begin_ok; [done..|by eexists]).
  assert (Hu : (unmarked q1 < unmarked q)%nat) by (apply unmarked_begin; [done|by eexists]).
  assert (Hall : forall cs q2, (forall c, c ∈ cs -> c ∈ child_names d) -> goes_on q1 q2 ->
    visit_spec (visit_all (visit fuel byName) n (fun c => bool_decide (is_Some (byName !! c))) cs q2) q1
      (fun q' => (forall c, c ∈ cs -> runs n c -> marks q' !! c = Some finished) /\ forall c, marks q2 !! c = Some finished -> marks q' !! c = Some finished)).
  { induction cs as [|c cs IHc]; intros q2 Hcs Hon; cbn [visit_all]; [split; [done|]; split; [by intros c Hc%elem_of_nil|done]|].
    destruct (String.eqb c n || negb (bool_decide (is_Some (byName !! c)))) eqn:Eskip.
    - specialize (IHc q2 ltac:(set_solver) Hon). destruct (visit_all _ _ _ cs q2) as [[q'|]|]; [|done..].
      destruct IHc as (Ho & Hc1 & Hc2). split; [done|]. split; [|done]. intros x [->|Hx]%elem_of_cons Hr; [|by apply Hc1].
      destruct Hr as (d' & _ & _ & Hne & Hin). apply orb_true_iff in Eskip as [E%String.eqb_eq|E%negb_true_iff%bool_decide_eq_false]; done.
    - apply orb_false_iff in Eskip as [Hne%String.eqb_neq Hin%negb_false_iff%bool_decide_eq_true].
      assert (Hr : runs n c) by (exists d; split_and!; [done|apply Hcs; set_solver|done|done]).
      assert (Hspec := IH c q2 (on_ok _ _ Hon) Hin ltac:(pose proof (unmarked_on _ _ Hon); lia)).
      assert (Hvis : forall m, marks q2 !! m = Some visiting -> tc runs m c).
      { intros m Hm%(on_visiting _ _ Hon). cbn in Hm. destruct (decide (m = n)) as [->|]; [by apply tc_once|].
        rewrite lookup_insert_ne in Hm by done. eapply tc_r; [by apply Hv|done]. }
      specialize (Hspec Hvis). unfold visit_spec in Hspec. destruct (visit fuel byName c q2) as [[q3|m]|]; [|exact Hspec|done].
      destruct Hspec as [Ho3 Hc3]. specialize (IHc q3 ltac:(set_solver) (goes_on_trans _ _ _ Hon Ho3)).
      destruct (visit_all _ _ _ cs q3) as [[q'|]|]; [|done..]. destruct IHc as (Ho & Hc1 & Hc2). split; [done|]. split.
      + intros x [->|Hx]%elem_of_cons Hrx; [by apply Hc2|by apply Hc1].
      + intros x Hx. apply Hc2. by apply (on_finished _ _ Ho3). }
  specialize (Hall (child_names d) q1 ltac:(done) ltac:(by constructor)). unfold visit_spec in *.
  destruct (visit_all _ _ _ (child_names d) q1) as [[q'|m]|]; [|done..]. destruct Hall as ([Ho1 Ho2 Ho3] & Hc & _).
  assert (Hvn : marks q' !! n = Some visiting) by (apply Ho2; cbn; by rewrite lookup_insert_eq).
  split; [|cbn; by rewrite lookup_insert_eq]. constructor; cbn.
  - apply finish_ok; [done..|]. intros c Hr. apply Hc; [|done]. destruct Hr as (d' & Hd' & Hc' & _). congruence.
  - intros m. destruct (decide (m = n)) as [->|]; [rewrite lookup_insert_eq, En; split; congruence|].
    rewrite lookup_insert_ne by done. rewrite <- Ho2. cbn. by rewrite lookup_insert_ne.
  - intros m Hm. destruct (decide (m = n)) as [->|]; [congruence|]. rewrite lookup_insert_ne by done. apply Ho3. cbn. by rewrite lookup_insert_ne.
Qed.

Lemma roots_ok fuel names q : dfs_ok q -> (forall n, n ∈ names -> is_Some (byName !! n)) -> (unmarked q < fuel)%nat ->
  (forall m, marks q !! m <> Some visiting) ->
  visit_spec (visit_roots fuel byName names q) q (fun q' => forall n, n ∈ names -> marks q' !! n = Some finished).
Proof using named.
  revert q. induction names as [|n names IH]; intros q Hq Hb Hf Hv; cbn [visit_roots].
  { split; [by constructor|]. by intros n Hn%elem_of_nil. }
  assert (Hspec := visit_ok fuel n q Hq (Hb n ltac:(set_solver)) Hf ltac:(by intros m Hm%Hv)). unfold visit_spec in Hspec.
  destruct (visit fuel byName n q) as [[q1|m]|]; [|exact Hspec|done]. destruct Hspec as [Ho Hn].
  specialize (IH q1 (on_ok _ _ Ho) ltac:(set_solver) ltac:(pose proof (unmarked_on _ _ Ho); lia)).
  assert (Hv1 : forall m, marks q1 !! m <> Some visiting) by (intros m Hm%(on_visiting _ _ Ho); by apply Hv in Hm).
  specialize (IH Hv1). unfold visit_spec in *. destruct (visit_roots fuel byName names q1) as [[q'|m]|]; [|done..].
  destruct IH as [Ho' Hn']. split; [by eapply goes_on_trans|]. intros x [->|Hx]%elem_of_cons; [|by apply Hn'].
  by apply (on_finished _ _ Ho').
Qed.

End Order.

Lemma by_name_lookup defs n : (forall d, by_name defs !! n = Some d -> d_name d = n /\ d ∈ defs) /\
  (is_Some (by_name defs !! n) <-> n ∈ d_name <$> defs).
Proof using.
  unfold by_name. induction defs as [|d defs IH] using rev_ind; cbn.
  { rewrite lookup_empty. split; [done|]. split; [by intros [? ?]|by intros Hn%elem_of_nil]. }
  rewrite foldl_app. cbn. rewrite fmap_app. cbn. rewrite elem_of_app, list_elem_of_singleton.
  destruct (decide (d_name d = n)) as [<-|Hne].
  - rewrite lookup_insert_eq. split; [intros x [= <-]; set_solver|]. split; [auto|by eexists].
  - rewrite lookup_insert_ne by done. destruct IH as [H1 H2]. split.
    + intros x Hx. apply H1 in Hx as [? ?]. set_solver.
    + rewrite H2. intuition congruence.
Qed.

Lemma set_size_le (l : list string) : (size (list_to_set l : gset string) <= length l)%nat.
Proof using.
  induction l as [|x l IH]; cbn; [by rewrite size_empty|].
  pose proof (size_union_alt ({[x]} : gset string) (list_to_set l)) as E. rewrite E, size_singleton.
  pose proof (subseteq_size (list_to_set l ∖ {[x]} : gset string) (list_to_set l) ltac:(set_solver)). lia.
Qed.

(** C34. A batch is ordered without fail: each name once, the last definition given under it,
    after all those of the batch it runs as children; and it is refused only with the name of
    a definition that runs itself through others. *)
Theorem topoSort_exact defs :
  match topoSort defs with
  | None => False
  | Some (Ok sorted) => NoDup (d_name <$> sorted) /\ (forall n, n ∈ d_name <$> sorted <-> n ∈ d_name <$> defs) /\
      (forall d, d ∈ sorted -> by_name defs !! d_name d = Some d) /\ leaves_first (by_name defs) sorted
  | Some (Err n) => tc (runs (by_name defs)) n n
  end.
Proof using.
  unfold topoSort. set (q0 := mkDfs ∅ []).
  assert (Hq0 : dfs_ok (by_name defs) q0).
  { constructor; cbn; try done.
    - intros n. rewrite lookup_empty. split; [done|by intros Hn%elem_of_nil].
    - constructor.
    - by intros d Hd%elem_of_nil.
    - intros n. rewrite lookup_empty. by intros [? ?].
    - intros l1 d l2 E. by destruct l1. }
  assert (Hu : (unmarked (by_name defs) q0 < S (length defs))%nat).
  { unfold unmarked. cbn. rewrite dom_empty_L, difference_empty_L.
    assert (Hsub : dom (by_name defs) ⊆ (list_to_set (d_name <$> defs) : gset string)).
    { intros n Hn%elem_of_dom%by_name_lookup. by apply elem_of_list_to_set. }
    apply subseteq_size in Hsub. pose proof (set_size_le (d_name <$> defs)) as Hl. rewrite length_fmap in Hl. lia. }
  pose proof (roots_ok (by_name defs) (fun n d Hd => proj1 (proj1 (by_name_lookup defs n) d Hd)) (S (length defs)) (d_name <$> defs) q0 Hq0
    ltac:(by intros n Hn%by_name_lookup) Hu ltac:(by intros m; cbn; rewrite lookup_empty)) as Hs.
  unfold visit_spec in Hs. destruct (visit_roots _ _ _ q0) as [[q|n]|]; [|done..]. destruct Hs as [[[H1 H2 H3 H4 H5] _ _] Hn].
  split_and!; [done| |done|done]. intros n. rewrite <- H1. split; [|by apply Hn]. intros Hm. apply by_name_lookup, H4. by eexists.
Qed.

(** * What one write does *)

Definition rows_of name s : list defrow := List.filter (fun r => String.eqb (dr_name r) name) (definitions s).

Lemma LatestVersion_rows name s : LatestVersion name s = max_version (rows_of name s).
Proof using. reflexivity. Qed.

Lemma FindVersionByHash_rows name hash s :
  FindVersionByHash name hash s = max_version (List.filter (fun r => String.eqb (dr_hash r) hash) (rows_of name s)).
Proof using.
  unfold FindVersionByHash, rows_of. f_equal. induction (definitions s) as [|r l IH]; cbn; [done|].
  destruct (String.eqb (dr_name r) name); cbn; [|done]. destruct (String.eqb (dr_hash r) hash); by rewrite IH.
Qed.

Lemma exists_version_rows name version s : exists_version name version s = existsb (fun r => dr_version r =? version) (rows_of name s).
Proof using.
  unfold exists_version, rows_of, is_version. induction (definitions s) as [|r l IH]; cbn; [done|].
  destruct (String.eqb (dr_name r) name); cbn; by rewrite IH.
Qed.

(** Versions are counted from one. *)
Definition counted s : Prop := Forall (fun r => 1 <= dr_version r) (definitions s).

Lemma max_nonneg (l : list Z) : 0 <= foldr Z.max 0 l.
Proof using. induction l; cbn; lia. Qed.

Lemma zmax_in (l : list Z) : Forall (Z.le 1) l -> l <> [] -> foldr Z.max 0 l ∈ l.
Proof using.
  induction l as [|x l IH]; [done|]. intros [Hx Hl]%Forall_cons _. cbn. destruct l as [|y l]; [cbn; rewrite Z.max_l by lia; set_solver|].
  specialize (IH Hl ltac:(done)). destruct (Z.max_spec x (foldr Z.max 0 (y :: l))) as [[_ ->]|[_ ->]]; set_solver.
Qed.

Lemma max_in (rows : list defrow) v : Forall (fun r => 1 <= dr_version r) rows -> max_version rows = Some v ->
  1 <= v /\ existsb (fun r => dr_version r =? v) rows = true.
Proof using.
  intros Hf Hm. assert (v ∈ dr_version <$> rows) as (r & -> & Hr)%list_elem_of_fmap.
  { unfold max_version in Hm. destruct rows as [|r rows]; [done|]. pose proof (zmax_in (dr_version <$> (r :: rows)) ltac:(by apply Forall_fmap) ltac:(done)) as Hx.
    assert (foldr Z.max 0 (dr_version <$> r :: rows) = v) as <- by congruence. exact Hx. }
  rewrite Forall_forall in Hf. split; [by apply Hf|]. apply existsb_exists. exists r. split; [by apply list_elem_of_In|apply Z.eqb_refl].
Qed.

Lemma zmax_above (l : list Z) x : x ∈ l -> x <= foldr Z.max 0 l.
Proof using.
  induction l as [|y l IH]; [by intros Hx%elem_of_nil|]. cbn. intros [->|Hx]%elem_of_cons; [lia|]. specialize (IH Hx). lia.
Qed.

Lemma max_above rows (r : defrow) : r ∈ rows -> dr_version r <= default 0 (max_version rows).
Proof using.
  intros Hr. destruct rows as [|x rows]; [by apply elem_of_nil in Hr|].
  pose proof (zmax_above (dr_version <$> x :: rows) (dr_version r) ltac:(by apply list_elem_of_fmap_2)) as Hx. exact Hx.
Qed.

Lemma latest_fresh name s : exists_version name (default 0 (LatestVersion name s) + 1) s = false.
Proof using.
  rewrite exists_version_rows, LatestVersion_rows. apply not_true_iff_false. intros (r & Hr%list_elem_of_In & E%Z.eqb_eq)%existsb_exists.
  apply max_above in Hr. lia.
Qed.

(** A write leaves other names alone, appends its version, and points its channels at it. *)
Record writes_only w s s' : Prop := mkOnly {
  wo_rows : forall n, n <> w_Name w -> rows_of n s' = rows_of n s;
  wo_channels : forall n c, (n <> w_Name w \/ c ∉ w_Channels w) -> GetChannel n c s' = GetChannel n c s;
  wo_own : match w_Def w with
           | None => definitions s' = definitions s /\ dependencies s' = dependencies s
           | Some d => exists_version (w_Name w) (w_Version w) s = false -> exists now actor,
               definitions s' = definitions s ++ [mkDefRow (w_Name w) (w_Version w) d (w_Hash w) now actor]
           end;
  wo_set : forall c, c ∈ w_Channels w -> c <> "" -> GetChannel (w_Name w) c s' = Some (w_Version w);
  wo_cache : defCache s' = defCache s }.

Lemma insert_deps_only deps s s' : insert_deps deps s = Ok s' ->
  definitions s' = definitions s /\ channels s' = channels s /\ defCache s' = defCache s.
Proof using.
  revert s. induction deps as [|x deps IH]; intros s; cbn; [by intros [= <-]|].
  unfold InsertDependency. destruct (_ || _); [done|]. cbn. intros (-> & -> & ->)%IH. done.
Qed.

Lemma upsert_channels_only w now chs s s' : upsert_channels w now chs s = Ok s' ->
  definitions s' = definitions s /\ dependencies s' = dependencies s /\ defCache s' = defCache s /\
  (forall n c, (n <> w_Name w \/ c ∉ chs) -> GetChannel n c s' = GetChannel n c s) /\
  (forall c, c ∈ chs -> c <> "" -> GetChannel (w_Name w) c s' = Some (w_Version w)).
Proof using.
  revert s. induction chs as [|x chs IH]; intros s; cbn [upsert_channels].
  { intros [= <-]. split_and!; try done. by intros c Hc%elem_of_nil. }
  destruct (String.eqb_spec x "") as [->|Hx]; cbn [mbind result_bind].
  - intros (H1 & H2 & H3 & H4 & H5)%IH. split_and!; [done..| |].
    + intros n c Hc. apply H4. destruct Hc; [by left|right; set_solver].
    + intros c [->|Hc]%elem_of_cons; [done|by apply H5].
  - unfold UpsertChannel. destruct (exists_version _ _ s); [|done]. cbn [mbind result_bind].
    intros (H1 & H2 & H3 & H4 & H5)%IH. cbn [definitions dependencies defCache] in *. split_and!; [done..| |].
    + intros n c Hc. rewrite H4 by (destruct Hc; [by left|right; set_solver]). unfold GetChannel. cbn [channels].
      rewrite lookup_insert_ne; [done|]. intros [= <- <-]. destruct Hc; set_solver.
    + intros c [->|Hc]%elem_of_cons Hne; [|by apply H5]. destruct (decide (x ∈ chs)) as [Hin|Hin]; [by apply H5|].
      rewrite H4 by by right. unfold GetChannel. cbn [channels]. by rewrite lookup_insert_eq.
Qed.

Lemma rows_definitions s s' n : definitions s' = definitions s -> rows_of n s' = rows_of n s.
Proof using. unfold rows_of. by intros ->. Qed.

Lemma filter_keep {A} (f : A -> bool) (l : list A) : (forall x, x ∈ l -> f x = true) -> List.filter f l = l.
Proof using.
  induction l as [|x l IH]; [done|]. intros Hf. cbn. rewrite Hf by apply list_elem_of_here. f_equal. apply IH.
  intros y Hy. apply Hf. by apply list_elem_of_further.
Qed.

Lemma filter_other n (f : defrow -> defrow) (l : list defrow) : (forall r, dr_name (f r) = dr_name r) -> (forall r, dr_name r = n -> f r = r) ->
  List.filter (fun r => String.eqb (dr_name r) n) (f <$> l) = List.filter (fun r => String.eqb (dr_name r) n) l.
Proof using.
  intros H1 H2. induction l as [|r l IH]; [done|]. rewrite fmap_cons. cbn. rewrite H1.
  destruct (String.eqb_spec (dr_name r) n) as [E|E]; [by rewrite H2, <- IH|done].
Qed.

Lemma apply_write_only now w s s' : apply_write now w s = Ok s' -> writes_only w s s'.
Proof using.
  unfold apply_write. destruct (w_Def w) as [d|] eqn:Ew.
  - destruct (insert_deps _ _) as [s1|] eqn:Ei; [cbn [mbind result_bind]|done]. apply insert_deps_only in Ei as (E1 & E2 & E3).
    intros (H1 & H2 & H3 & H4 & H5)%upsert_channels_only. cbn [definitions channels defCache DeleteDependencies InsertDefinition] in *.
    set (row := mkDefRow _ _ _ _ _ _) in *. constructor.
    + intros n Hn. unfold rows_of. rewrite H1, E1. destruct (existsb _ (definitions s)).
      * apply filter_other; intros r; unfold is_version; cbn; destruct (String.eqb_spec (dr_name r) (w_Name w)) as [E|E]; cbn [andb]; try done.
        -- by destruct (dr_version r =? w_Version w).
        -- intros Hr. congruence.
      * rewrite List.filter_app. cbn. destruct (String.eqb_spec (w_Name w) n); [by subst|]. by rewrite app_nil_r.
    + intros n c Hc. rewrite H4 by done. unfold GetChannel. by rewrite E2.
    + rewrite Ew. intros Hx. exists now, (w_Actor w). rewrite H1, E1. unfold exists_version in Hx. subst row. cbn [dr_name dr_version] in *. by rewrite Hx.
    + intros c Hc Hne. by apply H5.
    + by rewrite H3, E3.
  - cbn [mbind result_bind]. intros (H1 & H2 & H3 & H4 & H5)%upsert_channels_only. constructor; try done.
    + intros n _. by apply rows_definitions.
    + by rewrite Ew.
Qed.

(** The plan as a whole, its names distinct. *)
Lemma apply_writes_only now ws s s' : apply_writes now ws s = Ok s' -> NoDup (w_Name <$> ws) ->
  (forall n, n ∉ w_Name <$> ws -> rows_of n s' = rows_of n s /\ forall c, GetChannel n c s' = GetChannel n c s) /\
  (forall w, w ∈ ws -> 
     (match w_Def w with
      | None => rows_of (w_Name w) s' = rows_of (w_Name w) s
      | Some d => exists_version (w_Name w) (w_Version w) s = false -> exists now actor,
          rows_of (w_Name w) s' = rows_of (w_Name w) s ++ [mkDefRow (w_Name w) (w_Version w) d (w_Hash w) now actor]
      end) /\
     (forall c, c ∈ w_Channels w -> c <> "" -> GetChannel (w_Name w) c s' = Some (w_Version w)) /\
     (forall c, c ∉ w_Channels w -> GetChannel (w_Name w) c s' = GetChannel (w_Name w) c s)).
Proof using.
  revert s. induction ws as [|w ws IH]; intros s; cbn [apply_writes].
  { intros [= <-] _. split; [done|]. by intros w Hw%elem_of_nil. }
  destruct (apply_write now w s) as [s1|] eqn:Ea; [cbn [mbind result_bind]|done]. apply apply_write_only in Ea as [H1 H2 H3 H4 _].
  rewrite fmap_cons. intros Hs [Hw Hn]%NoDup_cons. destruct (IH s1 Hs Hn) as [Hout Hin]. split.
  - intros n Hnin. destruct (Hout n ltac:(set_solver)) as [E1 E2]. split; [rewrite E1; apply H1; set_solver|].
    intros c. rewrite E2. apply H2. left. set_solver.
  - intros x [->|Hx]%elem_of_cons.
    + destruct (Hout (w_Name w) Hw) as [E1 E2]. split_and!.
      * destruct (w_Def w) as [d|] eqn:Ew; [|by rewrite E1; apply rows_definitions, H3]. intros Hex. destruct (H3 Hex) as (now' & actor & E).
        exists now', actor. rewrite E1. unfold rows_of. rewrite E, List.filter_app. cbn. by rewrite String.eqb_refl.
      * intros c Hc Hne. rewrite E2. by apply H4.
      * intros c Hc. rewrite E2. apply H2. by right.
    + destruct (Hin x Hx) as (H5 & H6 & H7).
      assert (Hne : w_Name x <> w_Name w) by (intros E; apply Hw; rewrite <- E; by apply list_elem_of_fmap_2).
      split_and!; [|done|intros c Hc; rewrite H7 by done; apply H2; by left].
      destruct (w_Def x) as [d|]; [|by rewrite H5; apply H1]. rewrite exists_version_rows in *. by rewrite H1 in H5 by done.
Qed.

(** * Applying again *)

Section Again.
Context (J : judges) (channel : string).
(** Normalizing rewrites schemas; it keeps the name and the children. *)
Context (normal : forall d d', j_Normalize J d = Some d' -> d_name d' = d_name d /\ child_names d' = child_names d).

Lemma children_again name v v' tid bv s s' l deps : resolve_children channel name v tid bv s l = Ok deps ->
  (forall k ver, (k, name, ver) ∈ l -> ver <> 0 -> ver <> v /\ ver <> v') ->
  (forall k c, (k, c, 0) ∈ l -> c <> name -> bv !! c = None -> GetChannel c channel s' = GetChannel c channel s) ->
  exists deps', resolve_children channel name v' tid bv s' l = Ok deps' /\ pin_of <$> deps' = pin_of <$> deps.
Proof using.
  revert deps. induction l as [|[[k c] ver] l IH]; intros deps; cbn [resolve_children]; [by intros [= <-]; exists []|].
  intros Hd Hself Hch. specialize (IH).
  assert (Hl : forall deps, resolve_children channel name v tid bv s l = Ok deps ->
    exists deps', resolve_children channel name v' tid bv s' l = Ok deps' /\ pin_of <$> deps' = pin_of <$> deps).
  { intros deps' Hd'. apply IH; [done|intros k' ver' Hin; apply (Hself k'); by right|intros k' c' Hin; apply (Hch k'); by right]. }
  assert (Hskip : String.eqb c name && ((ver =? 0) || (ver =? v)) = String.eqb c name && ((ver =? 0) || (ver =? v'))).
  { destruct (String.eqb_spec c name) as [->|]; [|done]. cbn [andb]. destruct (Z.eqb_spec ver 0) as [|Hne]; [done|].
    destruct (Hself k ver (list_elem_of_here _ _) Hne) as [H1 H2]. cbn [orb]. by rewrite !(proj2 (Z.eqb_neq _ _)). }
  rewrite <- Hskip. destruct (String.eqb c name && ((ver =? 0) || (ver =? v))) eqn:Es; [by apply Hl|].
  assert (Hr : resolveChildVersion channel c ver tid bv s' = resolveChildVersion channel c ver tid bv s).
  { unfold resolveChildVersion. destruct (Z.eqb_spec ver 0) as [->|]; [cbn [negb]|done]. destruct (bv !! c) eqn:Eb; [done|].
    rewrite (Hch k c); [done|apply list_elem_of_here| |done]. intros ->. by rewrite String.eqb_refl in Es. }
  rewrite Hr. destruct (resolveChildVersion channel c ver tid bv s) as [version|]; [cbn [mbind result_bind] in *|done].
  destruct (resolve_children channel name v tid bv s l) as [rest|]; [cbn [mbind result_bind] in *|done]. injection Hd as <-.
  destruct (Hl rest eq_refl) as (rest' & -> & E). eexists. split; [done|]. by rewrite !fmap_cons, E.
Qed.

Lemma tasks_again name v v' bv s s' ts deps : resolve_tasks channel name v bv s ts = Ok deps ->
  (forall t k ver, t ∈ ts -> (k, name, ver) ∈ task_children t -> ver <> 0 -> ver <> v /\ ver <> v') ->
  (forall t k c, t ∈ ts -> (k, c, 0) ∈ task_children t -> c <> name -> bv !! c = None -> GetChannel c channel s' = GetChannel c channel s) ->
  exists deps', resolve_tasks channel name v' bv s' ts = Ok deps' /\ pin_of <$> deps' = pin_of <$> deps.
Proof using.
  revert deps. induction ts as [|t ts IH]; intros deps; cbn [resolve_tasks]; [by intros [= <-]; exists []|].
  intros Hd Hself Hch. destruct (resolve_children channel name v (ID t) bv s (task_children t)) as [d1|] eqn:E1; [cbn [mbind result_bind] in *|done].
  destruct (resolve_tasks channel name v bv s ts) as [d2|] eqn:E2; [cbn [mbind result_bind] in *|done]. injection Hd as <-.
  destruct (children_again _ _ v' _ _ _ s' _ _ E1) as (d1' & -> & P1).
  { intros k ver Hin. apply (Hself t k ver); [apply list_elem_of_here|done]. }
  { intros k c Hin. apply (Hch t k c); [apply list_elem_of_here|done]. }
  destruct (IH d2 eq_refl) as (d2' & -> & P2).
  { intros t' k ver Ht. apply Hself. by right. }
  { intros t' k c Ht. apply Hch. by right. }
  eexists. split; [done|]. by rewrite !fmap_app, P1, P2.
Qed.

(** No pin on the own name is above what is stored. *)
Definition self_settled s d : Prop := forall d' t k ver, j_Normalize J d = Some d' -> t ∈ tasks d' ->
  (k, d_name d, ver) ∈ task_children t -> ver <= default 0 (LatestVersion (d_name d) s).

(** What the first apply left of a name: the rows, one more where it was saved, and its
    channels. *)
Definition applied w s s' : Prop :=
  (match w_Def w with
   | None => rows_of (w_Name w) s' = rows_of (w_Name w) s
   | Some d => exists now actor, rows_of (w_Name w) s' = rows_of (w_Name w) s ++ [mkDefRow (w_Name w) (w_Version w) d (w_Hash w) now actor]
   end) /\
  (forall c, c ∈ w_Channels w -> c <> "" -> GetChannel (w_Name w) c s' = Some (w_Version w)) /\
  (forall c, c ∉ w_Channels w -> GetChannel (w_Name w) c s' = GetChannel (w_Name w) c s).

Lemma max_mono rows x : default 0 (max_version rows) <= default 0 (max_version (rows ++ [x])).
Proof using.
  destruct rows as [|r rows]; [unfold max_version; cbn; unfold id; lia|].
  assert (E : forall l : list Z, foldr Z.max 0 l <= foldr Z.max 0 (l ++ [dr_version x])) by (induction l; cbn; lia).
  specialize (E (dr_version <$> r :: rows)). change [dr_version x] with (dr_version <$> [x]) in E. rewrite <- fmap_app in E. exact E.
Qed.

(** A write as planned. *)
Definition planned w s : Prop :=
  match w_Def w with
  | None => existsb (fun r => dr_version r =? w_Version w) (rows_of (w_Name w) s) = true
  | Some _ => w_Version w = default 0 (LatestVersion (w_Name w) s) + 1
  end.

Lemma counted_rows s n : counted s -> Forall (fun r => 1 <= dr_version r) (rows_of n s).
Proof using.
  unfold counted, rows_of. rewrite !List.Forall_forall. intros Hc r [Hr _]%filter_In. by apply Hc.
Qed.

Lemma plan_one_write actor sorted bv d s w r : counted s -> plan_one J channel actor sorted bv d s = Ok (w, r) ->
  w_Name w = d_name d /\ w_Channels w = channelsFor channel (d_name d) s /\ planned w s /\ b_Name r = d_name d /\ b_Version r = w_Version w.
Proof using normal.
  intros Hc. unfold plan_one. destruct (j_Normalize J d) as [d'|] eqn:En; [cbn [of_option mbind result_bind]|done].
  destruct (normal d d' En) as [E _]. rewrite E.
  destruct (buildResolvedDeps channel d' _ bv s) as [deps|]; [cbn [mbind result_bind]|done].
  destruct (FindVersionByHash (d_name d) _ s) as [v|] eqn:Ef.
  - intros [= <- <-]. cbn. split_and!; try done. unfold planned. cbn. rewrite FindVersionByHash_rows in Ef.
    apply max_in in Ef as [_ Ef].
    + apply existsb_exists in Ef as (x & [Hx _]%filter_In & E2). apply existsb_exists. by exists x.
    + pose proof (counted_rows s (d_name d) Hc) as Hf. rewrite List.Forall_forall in *. intros x [Hx _]%filter_In. by apply Hf.
  - destruct (negb (j_Generate _ _)); [done|]. destruct (negb (j_ChildRefs _ _ _ _ _ _)); [done|]. destruct (negb (j_Config _ _)); [done|].
    by intros [= <- <-].
Qed.

Lemma plan_one_again actor actor' sorted bv d s s' w r : channel <> "" -> counted s ->
  plan_one J channel actor sorted bv d s = Ok (w, r) -> self_settled s d -> applied w s s' ->
  (forall c, c ∈ child_names d -> c <> d_name d -> bv !! c = None -> GetChannel c channel s' = GetChannel c channel s) ->
  exists w' r', plan_one J channel actor' sorted bv d s' = Ok (w', r') /\ w_Def w' = None /\ w_Name w' = w_Name w /\
    w_Version w' = w_Version w /\ w_Channels w' = [channel] /\ b_Name r' = b_Name r /\ b_Version r' = b_Version r /\ b_Saved r' = false.
Proof using normal.
  intros Hne Hc Hp Hself (Hrows & Hset & Hkept) Hch.
  destruct (plan_one_write _ _ _ _ _ _ _ Hc Hp) as (En & Ech & _ & Ebn & Ebv). unfold plan_one in *.
  destruct (j_Normalize J d) as [d'|] eqn:Enorm; [cbn [of_option mbind result_bind] in *|done].
  destruct (normal d d' Enorm) as [E Ec]. rewrite E in *. set (v := default 0 (LatestVersion (d_name d) s) + 1) in *.
  set (v' := default 0 (LatestVersion (d_name d) s') + 1). rewrite En in *.
  assert (Hv : v <= v').
  { subst v v'. rewrite !LatestVersion_rows. destruct (w_Def w); [destruct Hrows as (? & ? & ->)|rewrite Hrows; lia].
    pose proof (max_mono (rows_of (d_name d) s) (mkDefRow (d_name d) (w_Version w) p (w_Hash w) x x0)). lia. }
  destruct (buildResolvedDeps channel d' v bv s) as [deps|] eqn:Eb; [cbn [mbind result_bind] in *|done].
  unfold buildResolvedDeps in *. rewrite E in *. destruct (tasks_again _ _ v' _ _ s' _ _ Eb) as (deps' & -> & Epin).
  { intros t k ver Ht Hin _. specialize (Hself d' t k ver Enorm Ht Hin). lia. }
  { intros t k c Ht Hin. apply Hch. rewrite <- Ec. unfold child_names. apply list_elem_of_bind.
    exists (k, c, 0). split; [set_solver|]. apply list_elem_of_bind. by exists t. }
  cbn [mbind result_bind]. assert (Eh : contentHash J (j_marshal J d') deps' = contentHash J (j_marshal J d') deps) by (unfold contentHash; by rewrite Epin).
  rewrite Eh. set (hash := contentHash J (j_marshal J d') deps) in *.
  assert (Hfind : FindVersionByHash (d_name d) hash s' = Some (w_Version w) /\ channelsFor channel (d_name d) s' = [channel]).
  { split.
    - rewrite FindVersionByHash_rows in *. destruct (max_version (List.filter _ (rows_of (d_name d) s))) as [x|] eqn:Ef.
      + injection Hp as <- _. cbn in *. by rewrite Hrows.
      + destruct (negb (j_Generate _ _)); [done|]. destruct (negb (j_ChildRefs _ _ _ _ _ _)); [done|]. destruct (negb (j_Config _ _)); [done|].
        injection Hp as <- _. cbn in *. destruct Hrows as (now & a & ->). rewrite List.filter_app. cbn. rewrite String.eqb_refl.
        unfold max_version in Ef. destruct (List.filter _ (rows_of (d_name d) s)); [|done]. cbn. f_equal.
        subst v. rewrite LatestVersion_rows. pose proof (max_nonneg (dr_version <$> rows_of (d_name d) s)).
        unfold max_version. destruct (rows_of (d_name d) s); cbn in *; lia.
    - unfold channelsFor in *. destruct (String.eqb_spec channel defaultChannel) as [|Hd]; [done|].
      assert (exists x, GetChannel (d_name d) defaultChannel s' = Some x) as [x ->]; [|done].
      destruct (GetChannel (d_name d) defaultChannel s) as [x|] eqn:Eg; [|exists (w_Version w); apply Hset; [rewrite Ech; set_solver|done]].
      destruct (decide (defaultChannel ∈ w_Channels w)) as [Hin|Hin]; [exists (w_Version w); by apply Hset|]. exists x. by rewrite Hkept. }
  destruct Hfind as [-> ->]. eexists _, _. split; [done|]. by cbn.
Qed.

Lemma plan_loop_again actor actor' sorted bv l s s' ws rs : channel <> "" -> counted s ->
  plan_loop J channel actor sorted bv l s = Ok (ws, rs) ->
  (forall d, d ∈ l -> self_settled s d) -> (forall w, w ∈ ws -> applied w s s') ->
  (forall l1 d l2 c, l = l1 ++ d :: l2 -> c ∈ child_names d -> c <> d_name d ->
     c ∈ d_name <$> l1 \/ is_Some (bv !! c) \/ GetChannel c channel s' = GetChannel c channel s) ->
  exists ws' rs', plan_loop J channel actor' sorted bv l s' = Ok (ws', rs') /\
    Forall2 (fun w w' => w_Def w' = None /\ w_Name w' = w_Name w /\ w_Version w' = w_Version w /\ w_Channels w' = [channel]) ws ws' /\
    Forall2 (fun r r' => b_Name r' = b_Name r /\ b_Version r' = b_Version r /\ b_Saved r' = false) rs rs'.
Proof using normal.
  intros Hne Hc. revert bv ws rs. induction l as [|d l IH]; intros bv ws rs; cbn [plan_loop].
  { intros [= <- <-] _ _ _. exists [], []. split_and!; [done|constructor|constructor]. }
  destruct (plan_one J channel actor sorted bv d s) as [[w r]|] eqn:Ep; [cbn [mbind result_bind]|done].
  destruct (plan_loop J channel actor sorted _ l s) as [[ws1 rs1]|] eqn:El; [cbn [mbind result_bind]|done].
  intros [= <- <-] Hself Happ Hch.
  destruct (plan_one_write _ _ _ _ _ _ _ Hc Ep) as (En & _).
  destruct (plan_one_again actor actor' sorted bv d s s' w r Hne Hc Ep) as (w' & r' & -> & H1 & H2 & H3 & H4 & H5 & H6 & H7).
  { apply Hself. set_solver. }
  { apply Happ. set_solver. }
  { intros c Hcd Hcn Hbv. destruct (Hch [] d l c eq_refl Hcd Hcn) as [Hx|[[? Hx]|Hx]]; [by apply elem_of_nil in Hx|congruence|done]. }
  cbn [mbind result_bind]. rewrite H2, H3.
  destruct (IH _ _ _ El) as (ws' & rs' & -> & F1 & F2).
  { intros x Hx. apply Hself. set_solver. }
  { intros x Hx. apply Happ. set_solver. }
  { intros l1 x l2 c El' Hcd Hcn. destruct (Hch (d :: l1) x l2 c ltac:(by rewrite El') Hcd Hcn) as [Hx|[Hx|Hx]]; [|right; left|by right; right].
    - rewrite fmap_cons in Hx. apply elem_of_cons in Hx as [->|Hx]; [|by left]. right. left. rewrite En, lookup_insert_eq. by eexists.
    - destruct (decide (c = w_Name w)) as [->|]; [rewrite lookup_insert_eq; by eexists|by rewrite lookup_insert_ne]. }
  eexists _, _. split; [done|]. split; by constructor.
Qed.

Lemma plan_loop_write actor sorted bv l s ws rs : counted s -> plan_loop J channel actor sorted bv l s = Ok (ws, rs) ->
  w_Name <$> ws = d_name <$> l /\ Forall (fun w => planned w s /\ w_Channels w = channelsFor channel (w_Name w) s) ws.
Proof using normal.
  intros Hc. revert bv ws rs. induction l as [|d l IH]; intros bv ws rs; cbn [plan_loop]; [by intros [= <- <-]|].
  destruct (plan_one J channel actor sorted bv d s) as [[w r]|] eqn:Ep; [cbn [mbind result_bind]|done].
  destruct (plan_loop J channel actor sorted _ l s) as [[ws1 rs1]|] eqn:El; [cbn [mbind result_bind]|done]. intros [= <- <-].
  destruct (plan_one_write _ _ _ _ _ _ _ Hc Ep) as (En & Ech & Hp & _). apply IH in El as [E1 E2].
  rewrite !fmap_cons, E1, En. split; [done|]. constructor; [|done]. by rewrite Ech, En.
Qed.

(** Pointing channels where they already point. *)
Lemma repoint now ws s : Forall (fun w => w_Def w = None /\ w_Channels w = [channel] /\
    exists_version (w_Name w) (w_Version w) s = true /\ GetChannel (w_Name w) channel s = Some (w_Version w)) ws ->
  channel <> "" ->
  exists s', apply_writes now ws s = Ok s' /\ definitions s' = definitions s /\ dependencies s' = dependencies s /\
    defCache s' = defCache s /\ forall n c, GetChannel n c s' = GetChannel n c s.
Proof using.
  intros Hf Hne. revert s Hf. induction ws as [|w ws IH]; intros s Hf; cbn [apply_writes]; [by exists s|].
  apply Forall_cons in Hf as [(H1 & H2 & H3 & H4) Hf]. unfold apply_write. rewrite H1, H2. cbn [mbind result_bind upsert_channels].
  destruct (String.eqb_spec channel "") as [|_]; [done|]. unfold UpsertChannel. rewrite H3. cbn [mbind result_bind].
  set (s1 := mkRegistry _ _ _ _).
  assert (Hg : forall n c, GetChannel n c s1 = GetChannel n c s).
  { intros n c. unfold GetChannel, s1. cbn [channels]. destruct (decide ((w_Name w, channel) = (n, c))) as [[= <- <-]|Hx].
    - rewrite lookup_insert_eq. cbn. by unfold GetChannel in H4.
    - by rewrite lookup_insert_ne. }
  destruct (IH s1) as (s' & -> & E1 & E2 & E3 & E4).
  { eapply Forall_impl; [exact Hf|]. cbn. intros x (X1 & X2 & X3 & X4). split_and!; [done|done|exact X3|by rewrite Hg]. }
  exists s'. split_and!; [done..|]. intros n c. by rewrite E4.
Qed.

Lemma forall2_from {A B} (P : A -> B -> Prop) l k : Forall2 P l k -> forall y, y ∈ k -> exists x, x ∈ l /\ P x y.
Proof using.
  induction 1 as [|x y l k Hp Hf IH]; [by intros y Hy%elem_of_nil|]. intros z [->|Hz]%elem_of_cons; [exists x; split; [apply list_elem_of_here|exact Hp]|].
  destruct (IH z Hz) as (u & Hu & Hpu). exists u. split; [by apply list_elem_of_further|exact Hpu].
Qed.

Lemma drop_cached_none ws s : Forall (fun w => w_Def w = None) ws -> drop_cached ws s = s.
Proof using.
  intros Hf. unfold drop_cached. assert (E : foldl (fun c w => match w_Def w with Some _ => delete (w_Name w, w_Version w) c | None => c end) (defCache s) ws = defCache s).
  { induction Hf as [|w ws Hw Hf IH]; cbn; [done|]. by rewrite Hw. }
  rewrite E. by destruct s.
Qed.

(** C30. Applying a batch a second time changes nothing that matters: it is not refused, it
    stores no version and no pin, it answers the versions the first apply answered, and every
    channel of every process points where it did - for a batch none of whose definitions pins
    itself above its stored versions. *)
Theorem apply_again actor actor' now now' defs s s' results : channel <> "" -> counted s ->
  (forall d, d ∈ defs -> self_settled s d) ->
  applyBatch J channel actor now defs s = (s', Some (Ok results)) ->
  exists s'' results', applyBatch J channel actor' now' defs s' = (s'', Some (Ok results')) /\
    definitions s'' = definitions s' /\ dependencies s'' = dependencies s' /\ defCache s'' = defCache s' /\
    (forall n c, GetChannel n c s'' = GetChannel n c s') /\
    Forall2 (fun r r' => b_Name r' = b_Name r /\ b_Version r' = b_Version r /\ b_Saved r' = false) results results'.
Proof using normal.
  intros Hne Hc Hself. unfold applyBatch, planBatch. destruct (List.find _ defs); [done|].
  pose proof (topoSort_exact defs) as Ht. destruct (topoSort defs) as [[sorted|]|]; [|done..]. destruct Ht as (Hnd & Hin & Hby & Hlf).
  destruct (plan_loop J channel actor sorted ∅ sorted s) as [[ws rs]|] eqn:El; [|done].
  unfold ApplyDefinitions. destruct (apply_writes now ws s) as [s1|] eqn:Ea; [|done]. intros [= <- <-].
  destruct (plan_loop_write _ _ _ _ _ _ _ Hc El) as [Enames Hplan].
  pose proof (apply_writes_only now ws s s1 Ea ltac:(by rewrite Enames)) as [Hout Hinw].
  assert (Happ : forall w, w ∈ ws -> applied w s (drop_cached ws s1)).
  { intros w Hw. destruct (Hinw w Hw) as (H1 & H2 & H3). split_and!; [|done..]. rewrite Forall_forall in Hplan. destruct (Hplan w Hw) as [Hp _].
    unfold planned in Hp. destruct (w_Def w); [|done]. apply H1. rewrite Hp. apply latest_fresh. }
  destruct (plan_loop_again actor actor' sorted ∅ sorted s (drop_cached ws s1) ws rs Hne Hc El) as (ws' & rs' & -> & F1 & F2).
  { intros d Hd. apply Hself. by apply Hby, by_name_lookup in Hd as [_ Hd]. }
  { done. }
  { intros l1 d l2 c E Hcd Hcn. destruct (decide (c ∈ d_name <$> defs)) as [Hcb|Hcb].
    - left. eapply Hlf; [exact E|]. exists d. split_and!; [|done|done|by apply by_name_lookup]. apply Hby. rewrite E. set_solver.
    - right. right. apply Hout. rewrite Enames, Hin. done. }
  destruct (repoint now' ws' (drop_cached ws s1)) as (s2 & E & D1 & D2 & D3 & D4); [|done|].
  { rewrite Forall_forall. intros w' Hw'. destruct (forall2_from _ _ _ F1 _ Hw') as (w & Hw & H1 & H2 & H3 & H4). split_and!; [done..| |].
    - destruct (Happ w Hw) as [Hr _]. rewrite exists_version_rows, H2, H3. rewrite Forall_forall in Hplan. destruct (Hplan w Hw) as [Hp _].
      unfold planned in Hp. destruct (w_Def w); [destruct Hr as (? & ? & ->)|by rewrite Hr].
      rewrite existsb_app. cbn. rewrite Z.eqb_refl. by rewrite orb_true_r.
    - rewrite H2, H3. apply (Happ w Hw); [|done]. rewrite Forall_forall in Hplan. destruct (Hplan w Hw) as [_ ->]. apply list_elem_of_here. }
  rewrite E. eexists _, _. split; [done|]. rewrite drop_cached_none; [done|].
  rewrite Forall_forall. intros w' Hw'. by destruct (forall2_from _ _ _ F1 _ Hw') as (w & Hw & H1 & _).
Qed.

End Again.

(** * What the registry keeps *)

Definition slot_of (x : DependencyRow) : string * Z * string * string := (ParentName x, ParentVersion x, TaskID x, ChildKey x).

(** The constraints of the schema, and a cache that answers what is stored, but for the
    versions of [gone], which the cache is still to forget. *)
Record reg_ok_but (gone : string * Z -> Prop) s : Prop := mkRegOk {
  r_counted : counted s;
  r_keys : NoDup ((fun r => (dr_name r, dr_version r)) <$> definitions s);
  r_channels : forall n c v, GetChannel n c s = Some v -> exists_version n v s = true;
  r_deps : forall x, x ∈ dependencies s -> exists_version (ParentName x) (ParentVersion x) s = true /\ exists_version (ChildName x) (ChildVersion x) s = true;
  r_slots : NoDup (slot_of <$> dependencies s);
  r_cache : forall n v d, ~ gone (n, v) -> defCache s !! (n, v) = Some d -> exists r, find_definition n v s = Some r /\ dr_definition r = d }.
Definition reg_ok : registry -> Prop := reg_ok_but (fun _ => False).

(** No version is lost, and but for those [touched] none has another text or other pins. *)
Record kept (touched : string * Z -> Prop) s s' : Prop := mkKept {
  k_versions : forall n v, exists_version n v s = true -> exists_version n v s' = true;
  k_text : forall n v, ~ touched (n, v) -> exists_version n v s = true -> find_definition n v s' = find_definition n v s;
  k_pins : forall n v taskID key, ~ touched (n, v) -> exists_version n v s = true ->
    GetDependencyVersion n v taskID key s' = GetDependencyVersion n v taskID key s }.

Lemma kept_same touched s s' : definitions s' = definitions s -> dependencies s' = dependencies s -> kept touched s s'.
Proof using.
  intros D P. split; intros n v; unfold exists_version, find_definition, GetDependencyVersion; by rewrite ?D, ?P.
Qed.

Lemma kept_trans touched s1 s2 s3 : kept touched s1 s2 -> kept touched s2 s3 -> kept touched s1 s3.
Proof using.
  intros [V1 T1 P1] [V2 T2 P2]. split.
  - intros n v Hx. by apply V2, V1.
  - intros n v Hn Hx. rewrite (T2 n v Hn (V1 n v Hx)). by apply T1.
  - intros n v t k Hn Hx. rewrite (P2 n v t k Hn (V1 n v Hx)). by apply P1.
Qed.

Lemma kept_more (t1 t2 : string * Z -> Prop) s s' : (forall k, t1 k -> t2 k) -> kept t1 s s' -> kept t2 s s'.
Proof using. intros Hm [V T P]. split; [done|..]; intros; [apply T|apply P]; auto. Qed.

Lemma reg_ok_more (g1 g2 : string * Z -> Prop) s : (forall k, g1 k -> g2 k) -> reg_ok_but g1 s -> reg_ok_but g2 s.
Proof using. intros Hm [H1 H2 H3 H4 H5 H6]. split; try done. intros n v d Hg. apply H6. auto. Qed.

Lemma not_exists n v s : exists_version n v s = false <-> (n, v) ∉ (fun r => (dr_name r, dr_version r)) <$> definitions s.
Proof using.
  unfold exists_version, is_version. induction (definitions s) as [|r l IH]; [split; [by intros _ Hn%elem_of_nil|done]|].
  rewrite fmap_cons, not_elem_of_cons, <- IH. cbn. rewrite orb_false_iff, andb_false_iff, String.eqb_neq, Z.eqb_neq.
  split; intros [H1 H2]; (split; [|done]); [intros E; injection E as -> ->; by destruct H1|].
  destruct (decide (dr_name r = n)) as [En|]; [right; intros Ev; apply H1; by rewrite En, Ev|by left].
Qed.

Lemma exists_find n v s : exists_version n v s = true <-> exists r, find_definition n v s = Some r.
Proof using.
  unfold exists_version, find_definition. rewrite existsb_exists. split.
  - intros (y & Hy & Hv). destruct (List.find _ _) as [z|] eqn:E; [by exists z|]. by rewrite (find_none _ _ E y Hy) in Hv.
  - intros [r [Hr Hv]%find_some]. by exists r.
Qed.

Lemma is_version_spec n v r : is_version n v r = true <-> dr_name r = n /\ dr_version r = v.
Proof using. unfold is_version. by rewrite andb_true_iff, String.eqb_eq, Z.eqb_eq. Qed.

Lemma of_parent_spec n v x : of_parent n v x = true <-> ParentName x = n /\ ParentVersion x = v.
Proof using. unfold of_parent. by rewrite andb_true_iff, String.eqb_eq, Z.eqb_eq. Qed.

Lemma same_slot_spec x y : same_slot x y = true <-> slot_of x = slot_of y.
Proof using.
  unfold same_slot, of_parent, slot_of. rewrite !andb_true_iff, !String.eqb_eq, Z.eqb_eq. split; [intros [[[-> ->] ->] ->]; done|].
  by intros [= -> -> -> ->].
Qed.

Lemma insert_deps_ok gone deps s s' : reg_ok_but gone s -> insert_deps deps s = Ok s' ->
  reg_ok_but gone s' /\ definitions s' = definitions s /\ dependencies s' = dependencies s ++ deps.
Proof using.
  revert s. induction deps as [|x deps IH]; intros s Hok; cbn [insert_deps]; [intros [= <-]; by rewrite app_nil_r|].
  unfold InsertDependency. destruct (existsb (same_slot x) (dependencies s) || _ || _) eqn:E; [done|]. cbn [mbind result_bind].
  rewrite !orb_false_iff in E. destruct E as [[E1 E2%negb_false_iff] E3%negb_false_iff]. intros Hs.
  set (s1 := mkRegistry _ (dependencies s ++ [x]) _ _) in Hs. destruct Hok as [H1 H2 H3 H4 H5 H6].
  destruct (IH s1) as (Hok' & D1 & D2); [|done|split_and!; [done|by rewrite D1|rewrite D2; cbn; by rewrite <- app_assoc]].
  constructor; try done.
  - intros y [Hy|Hy]%elem_of_app; [by apply H4|]. apply list_elem_of_singleton in Hy as ->. split; [exact E2|exact E3].
  - cbn [dependencies s1]. rewrite fmap_app. apply NoDup_app. split_and!; [done| |apply NoDup_singleton].
    intros y (z & -> & Hz)%list_elem_of_fmap Hyx%list_elem_of_singleton. rewrite existsb_false_iff in E1. specialize (E1 z Hz).
    apply not_true_iff_false in E1. by apply E1, same_slot_spec.
Qed.

Lemma upsert_ok gone n c v now actor s s' : reg_ok_but gone s -> UpsertChannel n c v now actor s = Ok s' ->
  reg_ok_but gone s' /\ definitions s' = definitions s /\ dependencies s' = dependencies s.
Proof using.
  intros [H1 H2 H3 H4 H5 H6]. unfold UpsertChannel. destruct (exists_version n v s) eqn:E; [|done]. intros [= <-].
  split; [|done]. constructor; try done.
  intros n' c' v'. unfold GetChannel. cbn [channels]. destruct (decide ((n, c) = (n', c'))) as [[= <- <-]|Hne].
  - rewrite lookup_insert_eq. by intros [= <-].
  - rewrite lookup_insert_ne by done. apply H3.
Qed.

Lemma upsert_channels_ok gone w now chs s s' : reg_ok_but gone s -> upsert_channels w now chs s = Ok s' ->
  reg_ok_but gone s' /\ definitions s' = definitions s /\ dependencies s' = dependencies s.
Proof using.
  revert s. induction chs as [|c chs IH]; intros s Hok; cbn [upsert_channels]; [by intros [= <-]|].
  destruct (String.eqb c ""); cbn [mbind result_bind]; [by apply IH|].
  destruct (UpsertChannel _ c _ now _ s) as [s1|] eqn:E; [cbn [mbind result_bind]|done].
  destruct (upsert_ok _ _ _ _ _ _ _ _ Hok E) as (Hok1 & D1 & P1).
  intros Hs. destruct (IH s1 Hok1 Hs) as (Hok2 & D2 & P2). split_and!; [done|congruence..].
Qed.

Lemma find_app {A} (f : A -> bool) l l' : List.find f (l ++ l') = match List.find f l with Some x => Some x | None => List.find f l' end.
Proof using. induction l as [|x l IH]; [done|]. cbn. by destruct (f x). Qed.

Lemma find_filter {A} (f g : A -> bool) l : (forall x, f x = true -> g x = true) -> List.find f (List.filter g l) = List.find f l.
Proof using.
  intros Hfg. induction l as [|x l IH]; [done|]. cbn. destruct (g x) eqn:Eg; cbn; destruct (f x) eqn:Ef; try done.
  by rewrite (Hfg x Ef) in Eg.
Qed.

(** A version as [apply_write] stores it, new or over one that is there. *)
Lemma insert_version_ok gone r s : reg_ok_but gone s -> 1 <= dr_version r ->
  let s' := DeleteDependencies (dr_name r) (dr_version r) (InsertDefinition r s) in
  reg_ok_but (fun k => gone k \/ k = (dr_name r, dr_version r)) s' /\
  kept (fun k => k = (dr_name r, dr_version r)) s s'.
Proof using.
  intros [H1 H2 H3 H4 H5 H6] Hv s'.
  assert (Keys : (fun x => (dr_name x, dr_version x)) <$> definitions s' =
    if exists_version (dr_name r) (dr_version r) s then (fun x => (dr_name x, dr_version x)) <$> definitions s
    else ((fun x => (dr_name x, dr_version x)) <$> definitions s) ++ [(dr_name r, dr_version r)]).
  { unfold s', DeleteDependencies, InsertDefinition, exists_version. cbn [definitions].
    destruct (existsb _ _); [|by rewrite fmap_app]. rewrite <- list_fmap_compose. apply list_fmap_ext. intros _ x _. cbn.
    by destruct (is_version _ _ x). }
  assert (Ex : forall n v, exists_version n v s = true -> exists_version n v s' = true).
  { intros n v Hx. destruct (exists_version n v s') eqn:E; [done|]. apply not_exists in E. rewrite Keys in E.
    destruct (exists_version (dr_name r) _ s); [|apply not_elem_of_app in E as [E _]]; apply not_exists in E; congruence. }
  assert (Fd : forall n v, (n, v) <> (dr_name r, dr_version r) -> find_definition n v s' = find_definition n v s).
  { intros n v N. unfold s', find_definition, DeleteDependencies, InsertDefinition. cbn [definitions].
    destruct (existsb _ _).
    - clear -N. induction (definitions s) as [|x l IH]; [done|]. rewrite fmap_cons. cbn [List.find]. rewrite IH.
      destruct (is_version (dr_name r) (dr_version r) x) eqn:E; [|done].
      apply is_version_spec in E as [E1 E2]. unfold is_version at 1 3. cbn [dr_name dr_version].
      destruct (String.eqb (dr_name x) n && (dr_version x =? v)) eqn:E'; [|done].
      apply andb_true_iff in E' as [E3%String.eqb_eq E4%Z.eqb_eq]. destruct N. congruence.
    - rewrite find_app. destruct (List.find _ _); [done|]. cbn. destruct (is_version n v r) eqn:E; [|done].
      apply is_version_spec in E as [<- <-]. by destruct N. }
  split.
  - constructor.
    + unfold counted in *. apply List.Forall_forall. intros x Hx. apply list_elem_of_In in Hx.
      assert (Hk : (dr_name x, dr_version x) ∈ (fun x => (dr_name x, dr_version x)) <$> definitions s') by (apply list_elem_of_fmap; by exists x).
      rewrite Keys in Hk. assert (Hc : forall y, y ∈ definitions s -> 1 <= dr_version y) by by apply Forall_forall.
      destruct (exists_version _ _ s); [|apply elem_of_app in Hk as [Hk|Hk%list_elem_of_singleton]; [|by injection Hk as _ ->]];
        apply list_elem_of_fmap in Hk as (y & [= _ ->] & Hy); by apply Hc.
    + rewrite Keys. destruct (exists_version _ _ s) eqn:E; [done|]. apply NoDup_app. split_and!; [done| |apply NoDup_singleton].
      intros k Hk ->%list_elem_of_singleton. by apply not_exists in E.
    + intros n c v Hg. apply Ex. by apply (H3 n c v).
    + intros x Hx. unfold s', DeleteDependencies in Hx. cbn [dependencies InsertDefinition] in Hx.
      apply list_elem_of_In, filter_In in Hx as [Hx _]. apply list_elem_of_In in Hx. destruct (H4 x Hx). split; by apply Ex.
    + eapply sublist_NoDup; [exact H5|]. apply fmap_sublist. unfold s', DeleteDependencies. cbn [dependencies InsertDefinition].
      clear. induction (dependencies s) as [|x l IH]; [constructor|]. cbn. destruct (negb _); by constructor.
    + intros n v d Hg Hc. destruct (H6 n v d) as (r' & Hr & Hd); [tauto|done|]. exists r'. rewrite Fd; [done|]. tauto.
  - split; [done|intros n v N _; by apply Fd|]. intros n v t k N _. unfold GetDependencyVersion, s', DeleteDependencies.
    cbn [dependencies InsertDefinition]. f_equal. apply find_filter. intros x [[[E1 E2]%of_parent_spec _]%andb_prop _]%andb_prop.
    apply negb_true_iff, not_true_iff_false. intros [E3 E4]%of_parent_spec. apply N. congruence.
Qed.

(** What a planned write may be. *)
Definition write_ok w : Prop := w_Def w <> None ->
  1 <= w_Version w /\ Forall (fun x => ParentName x = w_Name w /\ ParentVersion x = w_Version w) (w_Deps w).
(** The version it stores. *)
Definition writes w (k : string * Z) : Prop := w_Def w <> None /\ k = (w_Name w, w_Version w).

Lemma apply_write_ok gone now w s s' : reg_ok_but gone s -> write_ok w -> apply_write now w s = Ok s' ->
  reg_ok_but (fun k => gone k \/ writes w k) s' /\ kept (writes w) s s'.
Proof using.
  intros Hok Hw. unfold apply_write. destruct (w_Def w) as [d|] eqn:Ed.
  - destruct (Hw ltac:(congruence)) as [Hv Hf]. destruct (insert_deps _ _) as [s2|] eqn:Ei; [cbn [mbind result_bind]|done]. intros Hs.
    destruct (insert_version_ok gone (mkDefRow (w_Name w) (w_Version w) d (w_Hash w) now (w_Actor w)) s Hok Hv) as [Hok1 K1].
    destruct (insert_deps_ok _ _ _ _ Hok1 Ei) as (Hok2 & D2 & P2). cbn [dr_name dr_version] in *.
    destruct (upsert_channels_ok _ _ _ _ _ _ Hok2 Hs) as (Hok3 & D3 & P3). split.
    + eapply reg_ok_more; [|exact Hok3]. intros k [Hg|Hk]; [by left|right]. split; [congruence|done].
    + assert (W : forall k, k = (w_Name w, w_Version w) -> writes w k) by (intros k ->; split; [congruence|done]).
      eapply kept_trans; [by eapply kept_more; [exact W|exact K1]|]. split; intros n v.
      * unfold exists_version. by rewrite D3, D2.
      * intros _ _. unfold find_definition. by rewrite D3, D2.
      * intros t k N _. unfold GetDependencyVersion. rewrite P3, P2. f_equal. rewrite find_app. destruct (List.find _ _); [done|].
        destruct (List.find _ (w_Deps w)) as [x|] eqn:E; [|done]. exfalso.
        apply find_some in E as [Hin [[[E1 E2]%of_parent_spec _]%andb_prop _]%andb_prop].
        rewrite Forall_forall in Hf. destruct (Hf x) as [F1 F2]; [by apply list_elem_of_In|].
        apply N, W. congruence.
  - cbn [mbind result_bind]. intros Hs. destruct (upsert_channels_ok _ _ _ _ _ _ Hok Hs) as (Hok3 & D3 & P3).
    split; [|by apply kept_same]. eapply reg_ok_more; [|exact Hok3]. tauto.
Qed.

Lemma apply_writes_ok gone now ws s s' : reg_ok_but gone s -> Forall write_ok ws -> apply_writes now ws s = Ok s' ->
  reg_ok_but (fun k => gone k \/ Exists (fun w => writes w k) ws) s' /\ kept (fun k => Exists (fun w => writes w k) ws) s s'.
Proof using.
  intros Hok Hws. revert gone s Hok. induction Hws as [|w ws Hw Hws IH]; intros gone s Hok; cbn [apply_writes].
  - intros [= <-]. split; [|by apply kept_same]. eapply reg_ok_more; [|exact Hok]. tauto.
  - destruct (apply_write now w s) as [s1|] eqn:Ea; [cbn [mbind result_bind]|done]. intros Hs.
    destruct (apply_write_ok _ _ _ _ _ Hok Hw Ea) as [Hok1 K1]. destruct (IH _ _ Hok1 Hs) as [Hok2 K2]. split.
    + eapply reg_ok_more; [|exact Hok2]. cbn. intros k [[Hg|Hk]|Hk]; [by left|right; by apply Exists_cons_hd|right; by apply Exists_cons_tl].
    + eapply kept_trans; eapply kept_more; [|exact K1| |exact K2]; intros k Hk; [by apply Exists_cons_hd|by apply Exists_cons_tl].
Qed.

Lemma drop_cached_spec (ws : list DefinitionWrite) (c : gmap (string * Z) ProcessDefinition) k d :
  foldl (fun c w => match w_Def w with Some _ => delete (w_Name w, w_Version w) c | None => c end) c ws !! (k : string * Z) = Some d ->
  c !! k = Some d /\ ~ Exists (fun w => writes w k) ws.
Proof using.
  revert c. induction ws as [|w ws IH]; intros c; cbn [foldl]; [intros ->; split; [done|by intros ?%Exists_nil]|].
  intros [Hl Hn]%IH. destruct (w_Def w) eqn:Ed.
  - apply lookup_delete_Some in Hl as [Hk Hl]. split; [done|]. intros [[_ ->]|]%Exists_cons; [by destruct Hk|done].
  - split; [done|]. intros [[N _]|]%Exists_cons; [by rewrite Ed in N|done].
Qed.

(** A commit, of whatever was planned whenever. *)
Lemma commit_ok now ws s : reg_ok s -> Forall write_ok ws ->
  reg_ok (ApplyDefinitions now ws s).1 /\ kept (fun k => Exists (fun w => writes w k) ws) s (ApplyDefinitions now ws s).1.
Proof using.
  intros Hok Hws. unfold ApplyDefinitions. destruct (apply_writes now ws s) as [s1|] eqn:Ea; cbn [fst]; [|split; [done|by apply kept_same]].
  destruct (apply_writes_ok _ _ _ _ _ Hok Hws Ea) as [[H1 H2 H3 H4 H5 H6] K]. split.
  - constructor; try done. intros n v d _ Hc. apply drop_cached_spec in Hc as [Hc Hn]. apply (H6 n v d); [tauto|done].
  - eapply kept_trans; [exact K|]. by apply kept_same.
Qed.

Lemma read_ok n v s : reg_ok s -> reg_ok (GetDefinition n v s).1 /\
  definitions (GetDefinition n v s).1 = definitions s /\ dependencies (GetDefinition n v s).1 = dependencies s /\
  (forall r, find_definition n v s = Some r -> (GetDefinition n v s).2 = Some (dr_definition r)).
Proof using.
  intros Hok. unfold GetDefinition. destruct (defCache s !! (n, v)) as [d|] eqn:Ec.
  - split_and!; [done..|]. intros r Hr. destruct (r_cache _ s Hok n v d (fun H => H) Ec) as (r' & Hr' & <-). rewrite Hr in Hr'. by injection Hr' as ->.
  - destruct (find_definition n v s) as [r|] eqn:Ef; cbn [fst snd]; [|done].
    split_and!; [|done..|by intros r' [= ->]]. destruct Hok as [H1 H2 H3 H4 H5 H6]. constructor; try done.
    intros n' v' d _. cbn [defCache]. destruct (decide ((n, v) = (n', v'))) as [E|Hne].
    + injection E as <- <-. rewrite lookup_insert_eq. intros [= <-]. by exists r.
    + rewrite lookup_insert_ne by done. exact (H6 n' v' d (fun F => F)).
Qed.

Lemma delete_ok n c s : reg_ok s -> reg_ok (DeleteChannel n c s).
Proof using.
  intros [H1 H2 H3 H4 H5 H6]. constructor; try done.
  intros n' c' v. unfold GetChannel. cbn [channels DeleteChannel]. destruct (decide ((n, c) = (n', c'))) as [E|Hne].
  - injection E as <- <-. by rewrite lookup_delete_eq.
  - rewrite lookup_delete_ne by done. apply H3.
Qed.

Section Kept.
Context (J : judges).

Lemma resolve_tasks_parent channel name v bv s ts deps : resolve_tasks channel name v bv s ts = Ok deps ->
  Forall (fun x => ParentName x = name /\ ParentVersion x = v) deps.
Proof using.
  revert deps. induction ts as [|t ts IH]; intros deps; cbn [resolve_tasks]; [by intros [= <-]|].
  destruct (resolve_children _ _ _ _ _ _ _) as [d1|] eqn:E1; [cbn [mbind result_bind]|done].
  destruct (resolve_tasks _ _ _ _ _ ts) as [d2|]; [cbn [mbind result_bind]|done]. intros [= <-]. apply Forall_app. split; [|by apply IH].
  clear IH. revert d1 E1. induction (task_children t) as [|[[k c] ver] l IH]; intros d1; cbn [resolve_children]; [by intros [= <-]|].
  destruct (_ && _); [apply IH|]. destruct (resolveChildVersion _ _ _ _ _ _); [cbn [mbind result_bind]|done].
  destruct (resolve_children _ _ _ _ _ _ l) as [rest|]; [cbn [mbind result_bind]|done]. intros [= <-]. constructor; [done|by apply IH].
Qed.

Lemma plan_loop_new channel actor sorted bv l s ws rs : counted s -> plan_loop J channel actor sorted bv l s = Ok (ws, rs) ->
  Forall (fun w => write_ok w /\ (w_Def w <> None -> exists_version (w_Name w) (w_Version w) s = false)) ws.
Proof using.
  intros Hc. revert bv ws rs. induction l as [|d l IH]; intros bv ws rs; cbn [plan_loop]; [by intros [= <- <-]|].
  destruct (plan_one J channel actor sorted bv d s) as [[w r]|] eqn:Ep; [cbn [mbind result_bind]|done].
  destruct (plan_loop J channel actor sorted _ l s) as [[ws1 rs1]|] eqn:El; [cbn [mbind result_bind]|done]. intros [= <- <-].
  constructor; [|by eapply IH]. clear IH El. unfold plan_one in Ep. destruct (j_Normalize J d) as [d'|]; [cbn [of_option mbind result_bind] in Ep|done].
  destruct (buildResolvedDeps _ d' _ bv s) as [deps|] eqn:Eb; [cbn [mbind result_bind] in Ep|done].
  destruct (FindVersionByHash _ _ s); [by injection Ep as <- _|]. destruct (negb (j_Generate _ _)); [done|].
  destruct (negb (j_ChildRefs _ _ _ _ _ _)); [done|]. destruct (negb (j_Config _ _)); [done|]. injection Ep as <- _.
  split; intros _; cbn; [|apply latest_fresh]. split; [|by eapply resolve_tasks_parent]. rewrite LatestVersion_rows.
  assert (0 <= default 0 (max_version (rows_of (d_name d') s))); [|lia]. unfold max_version. destruct (rows_of _ s) as [|x rows]; [done|].
  apply (max_nonneg (dr_version <$> x :: rows)).
Qed.

Lemma plan_batch_new channel actor defs s ws rs : counted s -> planBatch J channel actor defs s = Some (Ok (ws, rs)) ->
  Forall (fun w => write_ok w /\ (w_Def w <> None -> exists_version (w_Name w) (w_Version w) s = false)) ws.
Proof using.
  intros Hc. unfold planBatch. destruct (List.find _ defs); [done|]. destruct (topoSort defs) as [[sorted|]|]; [|done..].
  intros [= Hp]. by eapply plan_loop_new.
Qed.

(** A server: its registry, and the batches that were planned and are still to be committed. *)
Record server := mkServer { reg : registry; plans : list (list DefinitionWrite) }.

(** What happens to a registry, a transaction at a time.  The handler of an apply plans on one
    state and commits on another; the channel handlers are reads and single saves. *)
Inductive rstep : server -> server -> Prop :=
  | step_plan channel actor defs s ps ws rs : planBatch J channel actor defs s = Some (Ok (ws, rs)) ->
      rstep (mkServer s ps) (mkServer s (ws :: ps))
  | step_commit now s ps ws ps' : rstep (mkServer s (ps ++ ws :: ps')) (mkServer (ApplyDefinitions now ws s).1 (ps ++ ps'))
  | step_read n v s ps : rstep (mkServer s ps) (mkServer (GetDefinition n v s).1 ps)
  | step_save n c v now actor s s' ps : SaveChannel n c v now actor s = Ok s' -> rstep (mkServer s ps) (mkServer s' ps)
  | step_delete n c s ps : rstep (mkServer s ps) (mkServer (DeleteChannel n c s) ps).

Definition server_ok (a : server) : Prop := reg_ok (reg a) /\ Forall (Forall write_ok) (plans a).

(** An apply in flight that is to store the version. *)
Definition in_flight (ps : list (list DefinitionWrite)) (k : string * Z) : Prop := Exists (Exists (fun w => writes w k)) ps.

Lemma rstep_ok a b : server_ok a -> rstep a b -> server_ok b /\ kept (in_flight (plans a)) (reg a) (reg b) /\
  (forall n v, exists_version n v (reg a) = true -> in_flight (plans b) (n, v) -> in_flight (plans a) (n, v)).
Proof using.
  intros [Hok Hp]. destruct 1 as [channel actor defs s ps ws rs E|now s ps ws ps'|n v s ps|n c v now actor s s' ps E|n c s ps];
    cbn [reg plans] in *.
  - pose proof (plan_batch_new _ _ _ _ _ _ (r_counted _ _ Hok) E) as Hw. split_and!.
    + split; [done|]. constructor; [|done]. eapply Forall_impl; [exact Hw|]. by intros w [].
    + by apply kept_same.
    + intros n v Hx Hf. apply Exists_cons in Hf as [Hf|Hf]; [|done]. exfalso. apply Exists_exists in Hf as (w & Hin & Hd & [= -> ->]).
      rewrite Forall_forall in Hw. destruct (Hw w Hin) as [_ Hn]. specialize (Hn Hd). congruence.
  - apply Forall_app in Hp as [Hp1 [Hw Hp2]%Forall_cons]. destruct (commit_ok now ws s Hok Hw) as [Hok' K]. split_and!.
    + split; [done|]. by apply Forall_app.
    + eapply kept_more; [|exact K]. intros k Hk. apply Exists_app. right. by apply Exists_cons_hd.
    + intros n v _ [Hf|Hf]%Exists_app; apply Exists_app; [by left|right; by apply Exists_cons_tl].
  - destruct (read_ok n v s Hok) as (Hok' & D & P & _). split_and!; [done|by apply kept_same|done].
  - destruct (upsert_ok _ _ _ _ _ _ _ _ Hok E) as (Hok' & D & P). split_and!; [done|by apply kept_same|done].
  - split_and!; [split; [by apply delete_ok|done]|by apply kept_same|done].
Qed.

Lemma rsteps_ok a b : server_ok a -> rtc rstep a b -> server_ok b /\ kept (in_flight (plans a)) (reg a) (reg b).
Proof using.
  intros Ha Hs. assert (G : server_ok b /\ (forall n v, exists_version n v (reg a) = true -> exists_version n v (reg b) = true) /\
    (forall n v, ~ in_flight (plans a) (n, v) -> exists_version n v (reg a) = true ->
       ~ in_flight (plans b) (n, v) /\ find_definition n v (reg b) = find_definition n v (reg a) /\
       forall t k, GetDependencyVersion n v t k (reg b) = GetDependencyVersion n v t k (reg a))).
  { revert Ha. induction Hs as [a|a b d H1 Hs IH]; intros Ha; [done|]. destruct (rstep_ok _ _ Ha H1) as (Hb & K & F).
    destruct (IH Hb) as (Hd & V & N). split_and!; [done|intros n v Hx; by apply V, (k_versions _ _ _ K)|].
    intros n v Hn Hx. destruct (N n v) as (N1 & N2 & N3); [intros Hf; by apply Hn, F|by apply (k_versions _ _ _ K)|].
    split_and!; [done|by rewrite N2, (k_text _ _ _ K)|]. intros t k. by rewrite N3, (k_pins _ _ _ K). }
  destruct G as (Hb & V & N). split; [done|]. split; [done|..]; intros n v; intros; by apply (N n v).
Qed.

(** C31. A version of a process, once stored, is never lost, and reading it gives the
    definition it was stored with and its children stay pinned to the versions they were,
    through any interleaving of plans, commits, channel moves, deletions and cached reads -
    unless an apply that was planned before the version was stored is still to be committed
    and counts on the same number: that one overwrites it ([Demo.race]).  And every channel
    points at a stored version. *)
Theorem versions_stay a b n v r : server_ok a -> rtc rstep a b -> find_definition n v (reg a) = Some r ->
  (exists d, (GetDefinition n v (reg b)).2 = Some d) /\
  ((forall ws w, ws ∈ plans a -> w ∈ ws -> w_Def w <> None -> (w_Name w, w_Version w) <> (n, v)) ->
     (GetDefinition n v (reg b)).2 = Some (dr_definition r) /\
     forall taskID key, GetDependencyVersion n v taskID key (reg b) = GetDependencyVersion n v taskID key (reg a)) /\
  (forall m c x, GetChannel m c (reg b) = Some x -> exists d, (GetDefinition m x (reg b)).2 = Some d).
Proof using.
  intros Ha Hs Hf. destruct (rsteps_ok a b Ha Hs) as [[Hok _] K].
  assert (Hx : exists_version n v (reg a) = true) by (apply exists_find; eauto).
  assert (Read : forall m x, exists_version m x (reg b) = true -> exists d, (GetDefinition m x (reg b)).2 = Some d).
  { intros m x [z Hz]%exists_find. exists (dr_definition z). by apply read_ok. }
  split_and!.
  - by apply Read, (k_versions _ _ _ K).
  - intros Hn. assert (N : ~ in_flight (plans a) (n, v)).
    { intros (ws & Hws & (w & Hw & Hd & E)%Exists_exists)%Exists_exists. by apply (Hn ws w). }
    split; [|intros t k; by apply (k_pins _ _ _ K)]. apply read_ok; [done|]. by rewrite (k_text _ _ _ K).
  - intros m c x Hc. by apply Read, (r_channels _ _ Hok m c).
Qed.

End Kept.

End Applying.

(** * Concrete batches *)

Module Demo.
Import Validate.Demo.
#[local] Existing Instance Validate.Demo.whole.

Definition child (name : string) (version : Z) : Task :=
  mkTask ("run_" +:+ name) (Some (mkAction ActionTypeChild "" "" None None None ∅ None ∅ name version None None None None None ∅ ""
    Retry.no_timeout Retry.no_timeout)) None [] None None [].
Definition process (name : string) (ts : list Task) : ProcessDefinition :=
  mkDefinition name (Some (Some <$> ts)) None None (mkDefs ∅ []) None None.

(** Every definition passes, and its text is its name and the tasks. *)
Definition lenient : judges :=
  mkJudges (fun _ => true) Some (fun _ => true) (fun _ _ _ _ _ => true) (fun _ => true)
    (fun d => d_name d +:+ String.concat "," (ID <$> tasks d)) (fun s => s).
Lemma lenient_normal d d' : j_Normalize lenient d = Some d' -> d_name d' = d_name d /\ child_names d' = child_names d.
Proof. by intros [= ->]. Qed.

Definition empty_registry : registry := mkRegistry [] [] ∅ ∅.
Lemma empty_ok : reg_ok empty_registry.
Proof.
  constructor; cbn; [constructor|constructor|done|by intros x Hx%elem_of_nil|constructor|done].
Qed.

(** Parents before their children, one child listed twice. *)
Definition batch : list ProcessDefinition := [process "order" [child "charge" 0; child "ship" 0]; process "ship" [child "label" 0]; process "charge" []; process "label" [child "label" 0]].
Definition first : registry * option (result (apply_error + db_error) (list BatchApplyResult)) := applyBatch lenient "stable" "cli:ann" 7 batch empty_registry.
Definition stored : registry := first.1.
Example order : d_name <$> default [] (match topoSort batch with Some (Ok l) => Some l | _ => None end) = ["charge"; "label"; "ship"; "order"].
Proof. vm_compute. reflexivity. Qed.
Example answers : first.2 = Some (Ok [mkResult "charge" 1 true 0; mkResult "label" 1 true 0; mkResult "ship" 1 true 0; mkResult "order" 1 true 0]).
Proof. vm_compute. reflexivity. Qed.
Example again : (applyBatch lenient "stable" "cli:bob" 9 batch stored).2 =
  Some (Ok [mkResult "charge" 1 false 1; mkResult "label" 1 false 1; mkResult "ship" 1 false 1; mkResult "order" 1 false 1]).
Proof. vm_compute. reflexivity. Qed.
Example pins : GetDependencyVersion "order" 1 "run_ship" "" stored = Some 1 /\ GetChannel "order" "latest" stored = Some 1.
Proof. vm_compute. done. Qed.
Example cyclic : topoSort [process "a" [child "b" 0]; process "b" [child "a" 0]] = Some (Err "a").
Proof. vm_compute. reflexivity. Qed.

(** A definition that pins itself at the version it is about to get is stored twice. *)
Definition selfish : list ProcessDefinition := [process "loop" [child "loop" 1]].
Example self_pin_reapplied :
  let r := applyBatch lenient "latest" "" 7 selfish empty_registry in
  r.2 = Some (Ok [mkResult "loop" 1 true 0]) /\
  (applyBatch lenient "latest" "" 9 selfish r.1).2 = Some (Ok [mkResult "loop" 2 true 1]).
Proof. vm_compute. done. Qed.

(** Of two definitions under one name only the later is applied, and nothing says so. *)
Example same_name : (applyBatch lenient "latest" "" 7 [process "p" []; process "p" [child "p" 0]] empty_registry).2 =
  Some (Ok [mkResult "p" 1 true 0]).
Proof. vm_compute. reflexivity. Qed.

(** Two applies planned from one state and committed one after the other: the second overwrites
    the text of the version the first stored, which keeps the digest of the first - so applying
    the first again finds that version and stores nothing. *)
Definition plan_of (defs : list ProcessDefinition) (s : registry) : list DefinitionWrite :=
  match planBatch lenient "latest" "" defs s with Some (Ok (ws, _)) => ws | _ => [] end.
Definition mine : list ProcessDefinition := [process "p" []].
Definition theirs : list ProcessDefinition := [process "p" [child "p" 0]].
Definition raced : registry :=
  (ApplyDefinitions 8 (plan_of theirs empty_registry) (ApplyDefinitions 7 (plan_of mine empty_registry) empty_registry).1).1.
Example race :
  dr_definition <$> definitions raced = theirs /\
  (applyBatch lenient "latest" "" 9 mine raced).2 = Some (Ok [mkResult "p" 1 false 1]).
Proof. vm_compute. done. Qed.

End Demo.

#[local] Existing Instance Validate.Demo.whole.

Lemma apply_again_witness : exists s'' results', applyBatch Demo.lenient "stable" "cli:bob" 9 Demo.batch Demo.stored = (s'', Some (Ok results')) /\
  definitions s'' = definitions Demo.stored.
Proof.
  destruct (apply_again Demo.lenient "stable" Demo.lenient_normal "cli:ann" "cli:bob" 7 9 Demo.batch Demo.empty_registry Demo.stored
    [mkResult "charge" 1 true 0; mkResult "label" 1 true 0; mkResult "ship" 1 true 0; mkResult "order" 1 true 0])
    as (s'' & results' & H1 & H2 & _).
  - done.
  - constructor.
  - intros d Hd d' t k ver [= <-] Ht Hin. repeat (apply elem_of_cons in Hd as [->|Hd]); try (by apply elem_of_nil in Hd);
      cbn in Ht; repeat (apply elem_of_cons in Ht as [->|Ht]); try (by apply elem_of_nil in Ht);
      vm_compute in Hin; apply list_elem_of_singleton in Hin; injection Hin as _ ?; subst; try done.
  - vm_compute. reflexivity.
  - exists s'', results'. split; [exact H1|exact H2].
Defined.

(** The batch is stored, and another one planned and committed. *)
Definition first_plan : list DefinitionWrite :=
  match planBatch Demo.lenient "stable" "cli:ann" Demo.batch Demo.empty_registry with Some (Ok (ws, _)) => ws | _ => [] end.
Definition before : server := mkServer (ApplyDefinitions 7 first_plan Demo.empty_registry).1 [Demo.plan_of Demo.theirs Demo.stored].

Lemma before_ok : server_ok before.
Proof.
  apply (rsteps_ok Demo.lenient (mkServer Demo.empty_registry [])); [split; [exact Demo.empty_ok|constructor]|].
  eapply rtc_l; [eapply (step_plan _ "stable" "cli:ann" Demo.batch); vm_compute; reflexivity|].
  eapply rtc_l; [apply (step_commit _ 7 _ [])|]. apply rtc_once. cbn [app].
  eapply (step_plan _ "latest" "" Demo.theirs). vm_compute. reflexivity.
Qed.

Lemma versions_stay_witness :
  exists d, (GetDefinition "order" 1 (ApplyDefinitions 8 (Demo.plan_of Demo.theirs Demo.stored) (reg before)).1).2 = Some d.
Proof.
  destruct (versions_stay Demo.lenient before
    (mkServer (ApplyDefinitions 8 (Demo.plan_of Demo.theirs Demo.stored) (reg before)).1 []) "order" 1
    (nth 3 (definitions Demo.stored) (mkDefRow "" 0 (Demo.process "" []) "" 0 ""))) as (_ & H & _).
  - exact before_ok.
  - apply rtc_once. exact (step_commit _ 8 (reg before) [] (Demo.plan_of Demo.theirs Demo.stored) []).
  - vm_compute. reflexivity.
  - eexists. apply H. intros ws w ->%list_elem_of_singleton Hw _ E. vm_compute in Hw.
    apply list_elem_of_singleton in Hw. subst w. discriminate E.
Defined.

End Applying.
