(* ===== verification/Comparing.v ===== *)
(** Comparing two versions of a process: internal/validation/compat.go, which files what breaks,
    and changedslots.go, which lists what was edited.

    What reads schemas is the record [comparer]: the inference over a definition, the breaks of
    the subset relation with where each is, the union of a fetch's statuses, and the JSON of a
    slot, byte for byte. *)
From Stdlib Require Import ZArith Lia Ascii String.
From stdpp Require Import strings gmap sorting.
From S2P Require Import Prelude GoStrings Json Schema CheckDoc Retry Definitions Instance Registered.
Open Scope string_scope.
Open Scope list_scope.
Open Scope Z_scope.

Module Comparing.
Import Definitions.

Implicit Types (address task name typ : string).

(** * Findings *)

Inductive Member := MemberUpgrade | MemberContract.
#[export] Instance Member_eq_dec : EqDecision Member.
Proof. solve_decision. Defined.
Definition Member_string (m : Member) : string := match m with MemberUpgrade => "upgrade" | MemberContract => "contract" end.

Record Issue := mkIssue {
  Member_ : Member; Address : string; TaskOf : string; Path : string; Message : string; Gating : bool }.
Record SlotChange := mkChange { sc_Address : string; sc_Task : string; Affects : list Member }.
Record finding := mkFinding { path : string; msg : string }.

(** What an action leaves an instance sitting in; the zero value for a task without one. *)
Definition Holds_of typ : Instance.Holds :=
  match Registered.action_type typ with
  | Some t => Instance.ActionType_Holds t
  | None => Instance.mkHolds Instance.PhaseNone false false
  end.
Definition parksMidTask typ : bool := Instance.Result (Holds_of typ).
Definition holdsAnInstance typ : bool := Instance.Anything (Holds_of typ).

Definition addressInput : string := "input".
Definition addressOutput : string := "output".
Definition addressTasks : string := "tasks".

Definition slotLeafName (slot : string) : string :=
  if String.eqb slot "result_schema" || String.eqb slot "responses" then "result" else slot.
Definition childKeyAddress task typ key : string := task +:+ ":" +:+ typ +:+ "." +:+ key.
Definition slotAddress task (slot typ : string) : string :=
  let name := match strip_prefix "action." slot with
              | Some rest => if String.eqb rest "type" then slot else typ +:+ "." +:+ slotLeafName rest
              | None => slot
              end in
  if String.eqb task "" then if String.eqb name "input_schema" then addressInput else name
  else task +:+ ":" +:+ name.

Definition slotAffects (slot : string) : list Member :=
  if String.eqb slot "input_schema" then [MemberUpgrade; MemberContract]
  else if String.eqb slot "output" || String.eqb slot "output_schema" then [MemberUpgrade]
  else if String.eqb slot "action.result_schema" || String.eqb slot "action.responses" || String.eqb slot "action.raises"
       then [MemberContract] else [].
Definition definitionSlotAffects (slot : string) : list Member :=
  if String.eqb slot "output" || String.eqb slot "output_schema" then [MemberContract] else slotAffects slot.
Definition taskSlotAffects (slot typ : string) : list Member :=
  if (String.eqb slot "action.result_schema" || String.eqb slot "action.raises") && parksMidTask typ
  then MemberUpgrade :: slotAffects slot else slotAffects slot.
Definition childEntrySlotAffects (slot : string) : list Member :=
  if String.eqb slot "result_schema" || String.eqb slot "raises" then [MemberUpgrade; MemberContract] else [].

Section Comparing.
Context `{Schema.Numbers}.

Implicit Types (t old new : Task) (d : ProcessDefinition).

(** * Slots *)

Inductive slotval :=
  | VNull
  | VString (s : string)
  | VInt (z : Z)
  | VFlag (b : option bool)
  | VShape (s : Shape)
  | VAny (v : option Json.value)
  | VDoc (x : option document)
  | VDefs (x : Defs)
  | VDocs (x : gmap string (option document))
  | VTimeout (x : Retry.Timeout)
  | VSwitch (l : list SwitchCase)
  | VOnError (l : list ErrorCase).

Definition slot (T : Type) : Type := string * (T -> slotval).

Definition taskSlots : list (slot Task) :=
  [("output", fun t => VShape (t_output t)); ("switch", fun t => VSwitch (Switch t)); ("on_error", fun t => VOnError (OnError t));
   ("only_once", fun t => VFlag (OnlyOnce t)); ("output_schema", fun t => VDoc (t_output_schema t))].
Definition actionSlots : list (slot Action) :=
  [("action.type", fun a => VString (Type_ a)); ("action.url", fun a => VString (URL a)); ("action.method", fun a => VString (Method a));
   ("action.headers", fun a => VShape (Headers a)); ("action.query", fun a => VShape (Query a));
   ("action.accepted_status", fun a => VShape (AcceptedStatus a)); ("action.timeout", fun a => VTimeout (a_timeout a));
   ("action.body", fun a => VShape (Body a)); ("action.body_schema", fun a => VDoc (BodySchema a));
   ("action.query_schema", fun a => VDoc (QuerySchema a)); ("action.input", fun a => VShape (a_input a));
   ("action.input_schema", fun a => VDoc (a_input_schema a)); ("action.result_schema", fun a => VDoc (a_result_schema a));
   ("action.responses", fun a => VDocs (Responses a)); ("action.raises", fun a => VDocs (a_raises a));
   ("action.name", fun a => VString (a_name a)); ("action.version", fun a => VInt (a_version a)); ("action.over", fun a => VString (Over a));
   ("action.for", fun a => VAny (Retry.For (a_delay a))); ("action.until", fun a => VAny (Retry.Until (a_delay a)));
   ("action.tz", fun a => VString (Retry.TZ (a_delay a)))].
Definition childEntrySlots : list (slot ChildEntry) :=
  [("name", fun c => VString (e_name c)); ("version", fun c => VInt (e_version c)); ("input", fun c => VShape (e_input c));
   ("input_schema", fun c => VDoc (e_input_schema c)); ("result_schema", fun c => VDoc (e_result_schema c));
   ("raises", fun c => VDocs (e_raises c))].
Definition definitionSlots : list (slot ProcessDefinition) :=
  [("input_schema", fun d => VDoc (d_input_schema d)); ("config_schema", fun d => VDoc (ConfigSchema d)); ("$defs", fun d => VDefs (d_defs d));
   ("output", fun d => VShape (d_output d)); ("output_schema", fun d => VDoc (d_output_schema d))].

Definition actionTypeOf t : string := match t_action t with Some a => Type_ a | None => "" end.
Definition typeChanged old new : bool := negb (String.eqb (actionTypeOf old) (actionTypeOf new)).
Definition tasksByID d : gmap string Task := foldl (fun m t => <[ID t := t]> m) ∅ (tasks d).
Definition taskIDs d : list string := ID <$> tasks d.

(** One place where a schema does not fit another, and of which kind it is. *)
Record SubsetBreak := mkBreak { b_Path : string; b_missing : bool; b_Sub : string; b_Super : string }.

Record analysis := mkAnalysis {
  an_def : ProcessDefinition; an_inputObject : document; an_contexts : gmap string document;
  an_output : result string (option document) }.

Record comparer := mkComparer {
  sameJSON : slotval -> slotval -> bool;
  ExplainSubset : bool -> document -> document -> list SubsetBreak;
  accepts_all : document -> bool;
  zero : document;
  fetchResultContract : Action -> result string (option document);
  analyze : ProcessDefinition -> result string analysis;
  Normalize : ProcessDefinition -> result string ProcessDefinition }.

Section Judged.
Context (C : comparer).

Definition changed_of {T} (slots : list (slot T)) (old new : T) : list string :=
  omap (fun s : slot T => if sameJSON C (snd s old) (snd s new) then None else Some (fst s)) slots.
Definition actionSlotValue (a : option Action) (s : slot Action) : slotval := match a with Some a => snd s a | None => VNull end.
Definition changed_actions (old new : option Action) : list string :=
  omap (fun s : slot Action => if sameJSON C (actionSlotValue old s) (actionSlotValue new s) then None else Some (fst s)) actionSlots.

Definition changedChildKeySlots old new : list SlotChange :=
  match t_action old, t_action new with
  | Some a, Some b =>
      if negb (String.eqb (Type_ a) ActionTypeChildMap) then []
      else Schema.sortedKeys (Children a) ≫= fun key =>
        let at_key := childKeyAddress (ID old) ActionTypeChildMap key in
        match Children a !! key, Children b !! key with
        | Some x, Some y => (fun s => mkChange (at_key +:+ "." +:+ slotLeafName s) (ID old) (childEntrySlotAffects s)) <$> changed_of childEntrySlots x y
        | _, _ => [mkChange at_key (ID old) []]
        end
  | _, _ => []
  end.

Definition changedTaskSlots old new : list SlotChange :=
  let typ := actionTypeOf old in
  let emit s := mkChange (slotAddress (ID old) s typ) (ID old) (taskSlotAffects s typ) in
  (emit <$> changed_of taskSlots old new) ++
  (if typeChanged old new then [emit "action.type"]
   else (emit <$> changed_actions (t_action old) (t_action new)) ++ changedChildKeySlots old new).

Definition shared d (other : gmap string Task) : list string :=
  List.filter (fun k => bool_decide (is_Some (other !! k))) (taskIDs d).
Definition reordered (old new : ProcessDefinition) : bool :=
  negb (bool_decide (shared old (tasksByID new) = shared new (tasksByID old))).
Definition changedDefinitionSlots (old new : ProcessDefinition) : list SlotChange :=
  ((fun s => mkChange (slotAddress "" s "") "" (definitionSlotAffects s)) <$> changed_of definitionSlots old new) ++
  (if reordered old new then [mkChange addressTasks "" []] else []).

Definition documentsDiffer (old new : ProcessDefinition) : bool :=
  match changedDefinitionSlots old new with
  | _ :: _ => true
  | [] =>
      negb (bool_decide (taskIDs old = taskIDs new)) ||
      existsb (fun t => match tasksByID new !! ID t with
                        | Some nt => match changedTaskSlots t nt with [] => false | _ => true end
                        | None => true
                        end) (tasks old)
  end.

(** * Breaks *)

(** [explainer]: which relation is asked, and whether the new side is the one read. *)
Record explainer := mkExplainer { asStored : bool; swap : bool }.
Definition plainExplainer : explainer := mkExplainer false false.
Definition storedExplainer : explainer := mkExplainer true false.
Definition contractExplainer : explainer := mkExplainer false true.

Definition word (e : explainer) (b : SubsetBreak) : string :=
  if b_missing b then if swap e then "no longer guaranteed" else "newly required field"
  else let '(from, to) := if swap e then (b_Super b, b_Sub b) else (b_Sub b, b_Super b) in
       if String.eqb (b_Path b) "" then from +:+ " is not accepted where " +:+ to +:+ " is expected"
       else from +:+ " → " +:+ to.
Definition explain (e : explainer) (sub super : document) : list finding :=
  (fun b => mkFinding (b_Path b) (word e b)) <$> ExplainSubset C (asStored e) sub super.

Definition addedResultMessage : string := "added; a result written against the version that declared none may not satisfy it".

Definition typeChangeIssue old new : option Issue :=
  if negb (typeChanged old new) || negb (holdsAnInstance (actionTypeOf old)) then None
  else Some (mkIssue MemberUpgrade (ID old +:+ ":action.type") (ID old) ""
               (actionTypeOf old +:+ " → " +:+ actionTypeOf new +:+
                "; an instance sitting there was left by an action the new type cannot take over from") true).

Definition addedChildKeyIssues old new : list Issue :=
  match t_action old, t_action new with
  | Some a, Some b =>
      if negb (String.eqb (Type_ a) ActionTypeChildMap) then []
      else omap (fun key => match Children a !! key with
                            | Some _ => None
                            | None => Some (mkIssue MemberUpgrade (childKeyAddress (ID old) (actionTypeOf old) key) (ID old) ""
                                              "added; a parent already collecting spawned no child for it" true)
                            end) (Schema.sortedKeys (Children b))
  | _, _ => []
  end.

Record resultContract := mkResult { rc_address : string; rc_old : document; rc_new : document; rc_added : bool }.

Definition pair address (a b : option document) : list resultContract :=
  match b with
  | None => []
  | Some b =>
      match a with
      | Some a => [mkResult address a b false]
      | None => if accepts_all C b then [] else [mkResult address (zero C) b true]
      end
  end.

Definition resultContracts old new : list resultContract :=
  match t_action old, t_action new with
  | Some a, Some b =>
      let typ := Type_ a in
      if String.eqb typ ActionTypeFetch then
        match fetchResultContract C a, fetchResultContract C b with
        | Ok x, Ok y => pair (ID old +:+ ":" +:+ typ +:+ ".result") x y
        | _, _ => []
        end
      else if String.eqb typ ActionTypeChildMap then
        Schema.sortedKeys (Children a) ≫= fun key =>
          match Children a !! key, Children b !! key with
          | Some x, Some y => pair (childKeyAddress (ID old) typ key +:+ ".result") (e_result_schema x) (e_result_schema y)
          | _, _ => []
          end
      else pair (ID old +:+ ":" +:+ typ +:+ ".result") (a_result_schema a) (a_result_schema b)
  | _, _ => []
  end.

(** A code the old version declared; [ra_new] is [None] where the new one does not declare it. *)
Record raiseContract := mkRaise { ra_address : string; ra_code : string; ra_old : option document; ra_new : option (option document) }.

Definition raises_at address (old new : Raises) : list raiseContract :=
  (fun code => mkRaise address code (default None (old !! code)) (new !! code)) <$> Schema.sortedKeys old.
Definition raiseContracts old new : list raiseContract :=
  match t_action old, t_action new with
  | Some a, Some b =>
      let typ := Type_ a in
      if String.eqb typ ActionTypeChildMap then
        Schema.sortedKeys (Children a) ≫= fun key =>
          match Children a !! key, Children b !! key with
          | Some x, Some y => raises_at (childKeyAddress (ID old) typ key +:+ ".raises") (e_raises x) (e_raises y)
          | _, _ => []
          end
      else raises_at (ID old +:+ ":" +:+ typ +:+ ".raises") (a_raises a) (a_raises b)
  | _, _ => []
  end.

(** Both members where the task parks, the contract alone where it does not. *)
Definition file_both (parks : bool) address task (f : finding) : list Issue :=
  (if parks then [mkIssue MemberUpgrade address task (path f) (msg f) true] else []) ++
  [mkIssue MemberContract address task (path f) (msg f) true].

Definition result_found (rc : resultContract) : list finding :=
  if rc_added rc then [mkFinding "" addedResultMessage] else explain plainExplainer (rc_old rc) (rc_new rc).
Definition raise_found (rc : raiseContract) : list finding :=
  match ra_old rc, ra_new rc with
  | _, None => [mkFinding (ra_code rc) "code no longer declared"]
  | None, Some (Some n) => if accepts_all C n then [] else [mkFinding (ra_code rc) addedResultMessage]
  | Some o, Some (Some n) =>
      (fun f => mkFinding (if String.eqb (path f) "" then ra_code rc else ra_code rc +:+ "." +:+ path f) (msg f)) <$> explain plainExplainer o n
  | _, Some None => []
  end.

Definition raiseIssues old new : list Issue :=
  raiseContracts old new ≫= fun rc => raise_found rc ≫= file_both (parksMidTask (actionTypeOf old)) (ra_address rc) (ID old).
Definition resultIssues old new : list Issue :=
  (resultContracts old new ≫= fun rc => result_found rc ≫= file_both (parksMidTask (actionTypeOf old)) (rc_address rc) (ID old)) ++
  raiseIssues old new.

(** What an upgrade asks of a held instance. *)
Definition InFlightResultBreaks (from to_ : Task) : list Issue :=
  List.filter (fun i => bool_decide (Member_ i = MemberUpgrade)) (resultIssues from to_).

(** * The report of one pair *)

Definition nul : string := String "000" "".
Record filed := mkFiled { seen : gset string; issued : list Issue }.

Definition insideInput (p : string) : string :=
  if String.eqb p "input" then "" else match strip_prefix "input." p with Some rest => rest | None => p end.
Definition seen_key (m : Member) (f : finding) : string := Member_string m +:+ nul +:+ path f +:+ nul +:+ msg f.
Definition add_one (m : Member) address task (st : filed) (f : finding) : filed :=
  let key := seen_key m f in
  if bool_decide (key ∈ seen st) then st
  else mkFiled ({[key]} ∪ seen st)
         (issued st ++ [mkIssue m address task (if String.eqb address addressInput then insideInput (path f) else path f) (msg f) true]).
Definition add (m : Member) address task (found : list finding) (st : filed) : filed := foldl (add_one m address task) st found.
Definition file (l : list Issue) (st : filed) : filed := mkFiled (seen st) (issued st ++ l).

Definition compareOutput (oldA newA : analysis) : list finding :=
  match an_output oldA, an_output newA with
  | Err e, _ => [mkFinding "" e]
  | Ok _, Err e => [mkFinding "" e]
  | Ok None, Ok _ => []
  | Ok (Some _), Ok None => [mkFinding "" "removed; consumers were written against it"]
  | Ok (Some o), Ok (Some n) => explain contractExplainer n o
  end.

Definition context_of (a : analysis) (k : string) : document := default (zero C) (an_contexts a !! k).

Definition task_issues (oldA newA : analysis) (newTasks : gmap string Task) (st : filed) t : filed :=
  match newTasks !! ID t with
  | None => file [mkIssue MemberUpgrade (ID t) (ID t) "" "removed; an instance there has nowhere to continue" true] st
  | Some nt =>
      let st := add MemberUpgrade (ID t) (ID t) (explain storedExplainer (context_of oldA (ID t)) (context_of newA (ID t))) st in
      if typeChanged t nt then match typeChangeIssue t nt with Some i => file [i] st | None => st end
      else file (addedChildKeyIssues t nt ++ resultIssues t nt) st
  end.

Definition issues (oldA newA : analysis) (newTasks : gmap string Task) : list Issue :=
  let st := add MemberUpgrade addressInput "" (explain storedExplainer (an_inputObject oldA) (an_inputObject newA)) (mkFiled ∅ []) in
  let st := add MemberContract addressInput "" (explain plainExplainer (an_inputObject oldA) (an_inputObject newA)) st in
  let st := foldl (task_issues oldA newA newTasks) st (tasks (an_def oldA)) in
  issued (add MemberContract addressOutput "" (compareOutput oldA newA) st).

Inductive CompareStatus := StatusNone | StatusCompared | StatusNothingToCompare | StatusNew | StatusUnanalysable.
Inductive Side := SideNone | SideFrom | SideTo.
Record Report := mkReport {
  Name : string; Status : CompareStatus; FromVersion : Z; ToVersion : Z; SideOf : Side; Reason : string;
  Upgrade : bool; Contract : bool; Changed : list SlotChange; Added : list string; Issues : list Issue }.

Definition anyMember (l : list Issue) (m : Member) : bool := existsb (fun i => bool_decide (Member_ i = m)) l.
Definition accountedFor (changed : list SlotChange) (l : list Issue) : list SlotChange :=
  List.filter (fun c => negb (existsb (fun i => String.eqb (Address i) (sc_Address c)) l)) changed.

Definition compare (oldA newA : analysis) : Report :=
  let newTasks := tasksByID (an_def newA) in let oldTasks := tasksByID (an_def oldA) in
  let changed := changedDefinitionSlots (an_def oldA) (an_def newA) ++
    (tasks (an_def oldA) ≫= fun t => match newTasks !! ID t with Some nt => changedTaskSlots t nt | None => [] end) in
  let added := List.filter (fun k => bool_decide (oldTasks !! k = None)) (taskIDs (an_def newA)) in
  let l := issues oldA newA newTasks in
  mkReport (d_name (an_def newA)) StatusNone 0 0 SideNone "" (negb (anyMember l MemberUpgrade)) (negb (anyMember l MemberContract))
    (accountedFor changed l) added l.

(** * A set of pairs *)

Record SideEntry := mkSide { se_Def : ProcessDefinition; se_Version : Z }.
Record SetReport := mkSetReport { Compatible : bool; Passes : bool; Processes : list Report }.

Definition moved (from to_ : SideEntry) : bool :=
  (se_Version from =? 0) || (se_Version to_ =? 0) || negb (se_Version from =? se_Version to_).

Definition unjudged name (from to_ : Z) (status : CompareStatus) : Report :=
  mkReport name status from to_ SideNone "" true true [] [] [].
Definition unanalysable name (from to_ : Z) (side : Side) (reason : string) : Report :=
  mkReport name StatusUnanalysable from to_ side reason false false [] [] [].

Definition analysed name (vf vt : Z) (from to_ : ProcessDefinition) : Report :=
  match analyze C from with
  | Err e => unanalysable name vf vt SideFrom e
  | Ok oldA =>
      match analyze C to_ with
      | Err e => unanalysable name vf vt SideTo e
      | Ok newA =>
          let r := compare oldA newA in
          mkReport (Name r) StatusCompared vf vt SideNone "" (Upgrade r) (Contract r) (Changed r) (Added r) (Issues r)
      end
  end.

Definition compare_row name (old new : option SideEntry) : Report :=
  match old, new with
  | None, Some to_ => unjudged name 0 (se_Version to_) StatusNew
  | None, None => unjudged name 0 0 StatusNew
  | Some from, None => unjudged name (se_Version from) 0 StatusNothingToCompare
  | Some from, Some to_ =>
      let vf := se_Version from in let vt := se_Version to_ in
      if negb (moved from to_) then unjudged name vf vt StatusNothingToCompare
      else if (vf =? 0) || (vt =? 0) then
        match Normalize C (se_Def from) with
        | Err e => unanalysable name vf vt SideFrom e
        | Ok f =>
            match Normalize C (se_Def to_) with
            | Err e => unanalysable name vf vt SideTo e
            | Ok t => if negb (documentsDiffer f t) then unjudged name vf vt StatusNothingToCompare else analysed name vf vt f t
            end
        end
      else analysed name vf vt (se_Def from) (se_Def to_)
  end.

Definition breaks_set (r : Report) : bool :=
  match Status r with
  | StatusUnanalysable => true
  | StatusCompared => negb (Upgrade r) || negb (Contract r)
  | _ => false
  end.
Definition unionOfNames (a b : gmap string SideEntry) : list string :=
  merge_sort String.le (elements (dom a ∪ dom b : gset string)).
Definition CompareSet (old new : gmap string SideEntry) : SetReport :=
  let rows := (fun k => compare_row k (old !! k) (new !! k)) <$> unionOfNames old new in
  mkSetReport (forallb (fun r => negb (breaks_set r)) rows) false rows.

Definition set_gating (g : bool) (i : Issue) : Issue := mkIssue (Member_ i) (Address i) (TaskOf i) (Path i) (Message i) g.
Definition gate_row (contract_excused : bool) (r : Report) : Report :=
  mkReport (Name r) (Status r) (FromVersion r) (ToVersion r) (SideOf r) (Reason r) (Upgrade r) (Contract r) (Changed r) (Added r)
    ((fun i => set_gating (negb (contract_excused && bool_decide (Member_ i = MemberContract))) i) <$> Issues r).
Definition passes_row (r : Report) : bool :=
  match Status r with StatusUnanalysable => false | _ => true end && forallb (fun i => negb (Gating i)) (Issues r).

Definition ApplySelection (ignore : list string) (r : SetReport) : result string SetReport :=
  match List.find (fun token => negb (String.eqb token (Member_string MemberContract))) ignore with
  | Some token => Err token
  | None =>
      let rows := gate_row (match ignore with [] => false | _ => true end) <$> Processes r in
      Ok (mkSetReport (Compatible r) (forallb passes_row rows) rows)
  end.

(** * What a verdict says *)

(** The answers on their way to the old task all fit the new one. *)
Definition answers_fit old new : Prop :=
  (forall rc, rc ∈ resultContracts old new -> result_found rc = []) /\ (forall rc, rc ∈ raiseContracts old new -> raise_found rc = []).

Record continues (oldA newA : analysis) t (nt : Task) : Prop := mkContinues {
  co_context : explain storedExplainer (context_of oldA (ID t)) (context_of newA (ID t)) = [];
  co_type : typeChanged t nt = true -> holdsAnInstance (actionTypeOf t) = false;
  co_keys : typeChanged t nt = false -> addedChildKeyIssues t nt = [];
  co_answers : typeChanged t nt = false -> parksMidTask (actionTypeOf t) = true -> answers_fit t nt }.

Lemma seen_key_member m m' f f' : seen_key m f = seen_key m' f' -> m = m'.
Proof. by destruct m, m'. Qed.

Lemma anyMember_app l1 l2 m : anyMember (l1 ++ l2) m = anyMember l1 m || anyMember l2 m.
Proof. apply existsb_app. Qed.

(** What was seen was filed. *)
Definition filed_ok (st : filed) : Prop := forall m f, seen_key m f ∈ seen st -> anyMember (issued st) m = true.

Lemma add_one_any m m' address task st f : filed_ok st ->
  filed_ok (add_one m address task st f) /\
  anyMember (issued (add_one m address task st f)) m' = anyMember (issued st) m' || bool_decide (m = m').
Proof.
  intros Hok. unfold add_one. destruct (bool_decide_reflect (seen_key m f ∈ seen st)) as [Hin|Hn].
  - split; [done|]. destruct (bool_decide_reflect (m = m')) as [<-|N]; [|by rewrite orb_false_r]. by rewrite (Hok _ _ Hin).
  - cbn [issued seen]. split.
    + intros m2 f2. cbn [issued seen]. rewrite anyMember_app. cbn. intros [E%elem_of_singleton|Hin]%elem_of_union.
      * apply seen_key_member in E as ->. rewrite bool_decide_eq_true_2 by done. by rewrite orb_true_r.
      * by rewrite (Hok _ _ Hin).
    + rewrite anyMember_app. cbn. by rewrite orb_false_r.
Qed.

Lemma add_any m address task found : forall st m', filed_ok st ->
  filed_ok (add m address task found st) /\
  anyMember (issued (add m address task found st)) m' =
    anyMember (issued st) m' || bool_decide (m = m') && negb (bool_decide (found = [])).
Proof.
  unfold add. induction found as [|f found IH]; intros st m' Hok; cbn.
  - by rewrite andb_false_r, orb_false_r.
  - destruct (add_one_any m m' address task st f Hok) as [Hok' E]. destruct (IH _ m' Hok') as [Hok2 E2]. split; [done|].
    rewrite E2, E. by destruct (anyMember (issued st) m'), (bool_decide (m = m')).
Qed.

Lemma file_any l st m' : filed_ok st ->
  filed_ok (file l st) /\ anyMember (issued (file l st)) m' = anyMember (issued st) m' || anyMember l m'.
Proof.
  intros Hok. unfold file. cbn [issued seen]. split; [|apply anyMember_app]. intros m f Hin. cbn [issued seen] in *.
  by rewrite anyMember_app, (Hok _ _ Hin).
Qed.

(** Decides equations between members. *)
Ltac members := rewrite ?(bool_decide_eq_true_2 (MemberUpgrade = MemberUpgrade)), ?(bool_decide_eq_true_2 (MemberContract = MemberContract)),
  ?(bool_decide_eq_false_2 (MemberUpgrade = MemberContract)), ?(bool_decide_eq_false_2 (MemberContract = MemberUpgrade)) by done; cbn.

(** What one task files. *)
Definition task_any (oldA newA : analysis) (newTasks : gmap string Task) t (m : Member) : bool :=
  match newTasks !! ID t with
  | None => bool_decide (m = MemberUpgrade)
  | Some nt =>
      bool_decide (m = MemberUpgrade) &&
        negb (bool_decide (explain storedExplainer (context_of oldA (ID t)) (context_of newA (ID t)) = [])) ||
      (if typeChanged t nt then bool_decide (m = MemberUpgrade) && holdsAnInstance (actionTypeOf t)
       else anyMember (addedChildKeyIssues t nt ++ resultIssues t nt) m)
  end.

Lemma task_issues_any oldA newA newTasks st t m : filed_ok st ->
  filed_ok (task_issues oldA newA newTasks st t) /\
  anyMember (issued (task_issues oldA newA newTasks st t)) m = anyMember (issued st) m || task_any oldA newA newTasks t m.
Proof.
  intros Hok. unfold task_issues, task_any. destruct (newTasks !! ID t) as [nt|].
  - set (found := explain storedExplainer _ _).
    destruct (add_any MemberUpgrade (ID t) (ID t) found st m Hok) as [Hok' E].
    unfold typeChangeIssue. destruct (typeChanged t nt); cbn [negb orb].
    + destruct (holdsAnInstance (actionTypeOf t)); cbn [negb].
      * destruct (file_any [mkIssue MemberUpgrade (ID t +:+ ":action.type") (ID t) "" (actionTypeOf t +:+ " → " +:+ actionTypeOf nt +:+
                  "; an instance sitting there was left by an action the new type cannot take over from") true] _ m Hok') as [Hok2 E2].
        split; [exact Hok2|]. rewrite E2, E. cbn. rewrite orb_false_r.
        destruct m, (anyMember (issued st) _); cbn; members; try done; by destruct (bool_decide (found = [])).
      * split; [done|]. rewrite E. destruct m, (anyMember (issued st) _); cbn; members; try done; by destruct (bool_decide (found = [])).
    + destruct (file_any (addedChildKeyIssues t nt ++ resultIssues t nt) _ m Hok') as [Hok2 E2]. split; [done|]. rewrite E2, E.
      destruct m, (anyMember (issued st) _); cbn; members; try done; by destruct (bool_decide (found = [])).
  - destruct (file_any [mkIssue MemberUpgrade (ID t) (ID t) "" "removed; an instance there has nowhere to continue" true] st m Hok) as [Hok2 E2].
    split; [done|]. rewrite E2. cbn. destruct m; members; done.
Qed.

Lemma tasks_any oldA newA newTasks ts : forall st m, filed_ok st ->
  filed_ok (foldl (task_issues oldA newA newTasks) st ts) /\
  anyMember (issued (foldl (task_issues oldA newA newTasks) st ts)) m =
    anyMember (issued st) m || existsb (fun t => task_any oldA newA newTasks t m) ts.
Proof.
  induction ts as [|t ts IH]; intros st m Hok; cbn; [by rewrite orb_false_r|].
  destruct (task_issues_any oldA newA newTasks st t m Hok) as [Hok' E]. destruct (IH _ m Hok') as [Hok2 E2].
  split; [done|]. by rewrite E2, E, orb_assoc.
Qed.

Lemma issues_any oldA newA newTasks m :
  anyMember (issues oldA newA newTasks) m =
    match m with
    | MemberUpgrade => negb (bool_decide (explain storedExplainer (an_inputObject oldA) (an_inputObject newA) = []))
    | MemberContract => negb (bool_decide (explain plainExplainer (an_inputObject oldA) (an_inputObject newA) = [])) ||
                        negb (bool_decide (compareOutput oldA newA = []))
    end || existsb (fun t => task_any oldA newA newTasks t m) (tasks (an_def oldA)).
Proof.
  unfold issues.
  assert (Hok0 : filed_ok (mkFiled ∅ [])) by (intros m' f H0; by apply elem_of_empty in H0).
  destruct (add_any MemberUpgrade addressInput "" (explain storedExplainer (an_inputObject oldA) (an_inputObject newA)) _ m Hok0) as [Hok1 E1].
  destruct (add_any MemberContract addressInput "" (explain plainExplainer (an_inputObject oldA) (an_inputObject newA)) _ m Hok1) as [Hok2 E2].
  destruct (tasks_any oldA newA newTasks (tasks (an_def oldA)) _ m Hok2) as [Hok3 E3].
  destruct (add_any MemberContract addressOutput "" (compareOutput oldA newA) _ m Hok3) as [_ E4].
  rewrite E4, E3, E2, E1. destruct m; cbn.
  - by rewrite !orb_false_r.
  - members. rewrite <- !orb_assoc. f_equal. apply orb_comm.
Qed.

Lemma any_bind {A} (f : A -> list Issue) l m : anyMember (l ≫= f) m = existsb (fun x => anyMember (f x) m) l.
Proof. induction l as [|x l IH]; [done|]. rewrite bind_cons, anyMember_app, IH. done. Qed.

Lemma both_any parks address task found m :
  anyMember (found ≫= file_both parks address task) m =
  negb (bool_decide (found = [])) && (bool_decide (m = MemberContract) || parks).
Proof.
  rewrite any_bind. induction found as [|f found IH]; [done|]. cbn [existsb]. rewrite IH.
  rewrite (bool_decide_eq_false_2 (f :: found = [])) by done. unfold file_both. rewrite anyMember_app.
  destruct parks, m; cbn; members; try done; by rewrite ?andb_false_r.
Qed.

Lemma no_issue {A} (found : A -> list finding) parks (place : A -> string) task l m :
  anyMember (l ≫= fun x => found x ≫= file_both parks (place x) task) m = false <->
  ((m = MemberUpgrade -> parks = true) -> forall x, x ∈ l -> found x = []).
Proof.
  rewrite any_bind, existsb_false_iff. setoid_rewrite both_any. split.
  - intros Hall Hm x Hx. specialize (Hall x Hx). apply andb_false_iff in Hall as [E|E].
    + by apply negb_false_iff, bool_decide_eq_true in E.
    + destruct m; cbn in E; [by rewrite Hm in E|done].
  - intros Hall x Hx. apply andb_false_iff. destruct m, parks; try (left; apply negb_false_iff, bool_decide_eq_true; by apply Hall).
    right. by members.
Qed.

Lemma result_any old new m : anyMember (resultIssues old new) m = false <->
  ((m = MemberUpgrade -> parksMidTask (actionTypeOf old) = true) -> answers_fit old new).
Proof.
  unfold resultIssues, raiseIssues. rewrite anyMember_app, orb_false_iff, !no_issue. unfold answers_fit. naive_solver.
Qed.

Lemma added_any old new : anyMember (addedChildKeyIssues old new) MemberContract = false /\
  (anyMember (addedChildKeyIssues old new) MemberUpgrade = false <-> addedChildKeyIssues old new = []).
Proof.
  assert (Hu : forall i, i ∈ addedChildKeyIssues old new -> Member_ i = MemberUpgrade).
  { unfold addedChildKeyIssues. intros i. destruct (t_action old) as [a|], (t_action new) as [b|]; try by intros ?%elem_of_nil.
    destruct (negb _); [by intros ?%elem_of_nil|]. intros (key & _ & E)%list_elem_of_omap. destruct (Children a !! key); [done|].
    by injection E as <-. }
  split.
  - apply existsb_false_iff. intros i Hi. rewrite (Hu i Hi). by members.
  - split; [|by intros ->]. intros E. destruct (addedChildKeyIssues old new) as [|i l]; [done|]. cbn in E.
    rewrite (Hu i) in E by by left. by members.
Qed.

Lemma task_continues oldA newA newTasks t :
  task_any oldA newA newTasks t MemberUpgrade = false <-> exists nt, newTasks !! ID t = Some nt /\ continues oldA newA t nt.
Proof.
  unfold task_any. destruct (newTasks !! ID t) as [nt|]; members; [|split; [done|by intros (? & ? & _)]].
  rewrite orb_false_iff, negb_false_iff, bool_decide_eq_true. split.
  - intros [Hx Ht]. exists nt. split; [done|]. split; [done|..]; intros Hc; rewrite Hc in Ht; [done|..].
    + rewrite anyMember_app, orb_false_iff in Ht. apply added_any, Ht.
    + rewrite anyMember_app, orb_false_iff in Ht. intros Hp. by apply (proj1 (result_any _ _ _) (proj2 Ht)).
  - intros (nt' & [= <-] & [Hx Ht Hk Ha]). split; [done|]. destruct (typeChanged t nt); [by apply Ht|].
    rewrite anyMember_app, orb_false_iff. split; [by apply added_any, Hk|]. apply result_any. intros Hp. apply Ha; [done|]. by apply Hp.
Qed.

(** The verdicts of a comparison, without the walk that files its findings: an instance can
    continue exactly when the stored inputs fit and every task of the old version is still
    there, reads a context the old one fills, has not changed its type under an instance it
    holds, asks for no child the old call did not spawn, and - where it parks - takes every
    answer it was promised; the contract stands exactly when the inputs and the output fit and
    every task of one type takes those answers.  Reporting a difference once loses neither. *)
Theorem verdict_exact (oldA newA : analysis) :
  (Upgrade (compare oldA newA) = true <->
     explain storedExplainer (an_inputObject oldA) (an_inputObject newA) = [] /\
     forall t, t ∈ tasks (an_def oldA) -> exists nt, tasksByID (an_def newA) !! ID t = Some nt /\ continues oldA newA t nt) /\
  (Contract (compare oldA newA) = true <->
     explain plainExplainer (an_inputObject oldA) (an_inputObject newA) = [] /\ compareOutput oldA newA = [] /\
     forall t nt, t ∈ tasks (an_def oldA) -> tasksByID (an_def newA) !! ID t = Some nt -> typeChanged t nt = false -> answers_fit t nt).
Proof.
  unfold compare. cbn [Upgrade Contract]. rewrite !issues_any, !negb_true_iff, !orb_false_iff, !negb_false_iff, !bool_decide_eq_true, !existsb_false_iff.
  split.
  - by setoid_rewrite task_continues.
  - etransitivity; [|apply Logic.and_assoc]. apply and_iff_compat_l. split.
    + intros Hall t nt Ht Hnt Hc. specialize (Hall t Ht). unfold task_any in Hall. rewrite Hnt, Hc, anyMember_app in Hall.
      apply orb_false_iff in Hall as [_ [_ Hr]%orb_false_iff]. apply result_any in Hr; [done|done].
    + intros Hall t Ht. unfold task_any. destruct (tasksByID (an_def newA) !! ID t) as [nt|] eqn:Hnt; members; [|done].
      destruct (typeChanged t nt) eqn:Hc; [done|]. rewrite anyMember_app, (proj1 (added_any t nt)). cbn. apply result_any. intros _. by apply Hall.
Qed.

Section Unseen.
Context (same : forall x, sameJSON C x x = true).

Lemma unchanged {T} (slots : list (slot T)) (old new : T) :
  Forall (fun s : slot T => snd s old = snd s new) slots -> changed_of slots old new = [].
Proof. unfold changed_of. induction 1 as [|s l E _ IH]; cbn; [done|]. by rewrite E, same. Qed.

Lemma unchanged_actions (old new : Action) :
  Forall (fun s : slot Action => snd s old = snd s new) actionSlots -> changed_actions (Some old) (Some new) = [].
Proof.
  unfold changed_actions, actionSlotValue. induction 1 as [|s l E _ IH]; cbn [omap list_omap]; [done|]. by rewrite E, same.
Qed.

(** A key added to a child map is no edit to [CompareSet], which walks the old keys: the pair
    is filed as nothing to compare, while the comparison of it refuses the upgrade. *)
Definition unseen_entry : ChildEntry := mkEntry "order" 0 None None None ∅.
Definition unseen_call children : Task :=
  mkTask "split" (Some (mkAction ActionTypeChildMap "" "" None None None ∅ None ∅ "" 0 None None None None None
    children "" Retry.no_timeout Retry.no_timeout)) None [] None None [].
Definition unseen_old : Task := unseen_call {["a" := unseen_entry]}.
Definition unseen_new : Task := unseen_call {["a" := unseen_entry; "b" := unseen_entry]}.

Lemma added_key_unseen :
  changedTaskSlots unseen_old unseen_new = [] /\ Address <$> addedChildKeyIssues unseen_old unseen_new = ["split:child_map.b"].
Proof.
  split; [|vm_compute; reflexivity]. unfold changedTaskSlots.
  rewrite (unchanged taskSlots) by (by repeat constructor).
  replace (typeChanged unseen_old unseen_new) with false by (vm_compute; reflexivity).
  replace (changed_actions (t_action unseen_old) (t_action unseen_new)) with (@nil string)
    by (symmetry; apply unchanged_actions; by repeat constructor).
  unfold changedChildKeySlots. cbn [unseen_old unseen_new unseen_call t_action].
  replace (Schema.sortedKeys _) with ["a"] by (vm_compute; reflexivity). cbn [mbind list_bind Children].
  rewrite lookup_singleton_eq, lookup_insert_eq. rewrite unchanged by (by repeat constructor). reflexivity.
Qed.

End Unseen.

End Judged.
End Comparing.
End Comparing.
